(* ===== verification/_CoqProject ===== *)
-Q . S2P
Prelude.v
GoStd.v
Semantic.v
VectorClock.v
Ids.v
Target.v
Operation.v
OT.v
OTConflicts.v
MergePrecise.v
Convergence.v
MergeChange.v
FileVersion.v
BlobStore.v
OperationLog.v
DagStore.v
DagModel.v
DagValidator.v
KahnSort.v
DagLayers.v
DagCorrect.v
DagFailure.v
DagExecutor.v
DagExecInv.v
DagExecTerm.v
DagExecOrder.v
DagExecSmooth.v
DagExecCases.v
DagScheduler.v
DagSchedProof.v
AgentSemaphore.v
BoundedOverflow.v
BoundedWait.v
PriorityQueue.v
PipelineScheduler.v
PipelineCycle.v
PipelineSched.v
CmtTree.v
CmtTreap.v
CmtHash.v
CmtWal.v
CmtWalProof.v
Cmt.v
CmtRecovery.v
CmtIntegrity.v
MemoryWal.v
Vfs.v
VfsProof.v
VfsTx.v
MergePipe.v
MergePipeProof.v
WalEntry.v
WalEntryProof.v
DiskWal.v
DiskWalProof.v
DraftLog.v
Atomics.v
CircuitBreaker.v
BreakerProof.v
CircuitRegistry.v
WalRecord.v
WriteAheadLog.v
WriteAheadLogDisk.v
WriteAheadLogProof.v
WriteAheadLogCases.v
ControlEntry.v
ControlEntryProof.v
ControlWal.v
ControlWalProof.v
ControlLog.v
CommitQueue.v
CommitQueueProof.v
CopyRetention.v
ReplicaLifecycle.v
ReplicaVfs.v
ReplicaVfsProof.v
ControlSession.v
CommitResolver.v
MergeAudit.v
MergeAuditProof.v
