(* ===== verification/Prelude.v ===== *)
(** * sylk: versioning, task graphs, scheduling and the file manifest, verified

    sylk is a terminal program in which several agents work on one code base.
    This development models the parts of it that decide what happens to the
    user's files and in which order work is done, as pure functions translated
    from the Go sources, and proves what they promise.

    ** The parts and how they meet

    - [core/versioning]: agents edit files through operations on byte ranges,
      stamped with vector clocks and identified by SHA-256.  Operations are
      kept in a log, contents in a blob store, versions in a graph of parents.
      A pipeline works on an overlay over the draft of the session.  When it
      finishes, the change the overlay holds of each file is cut into precise
      operations, each is transformed past the operations merged since
      (operational transformation), the result is written to the draft, itself
      an overlay over the disk, and a delta is appended to a log of versions.
      The merge then waits in a commit queue while an inspector and a tester
      audit it, on an overlay in front of those of the merges before it; both
      have to accept it before a resolver calls for a flush of the draft to
      the disk and takes it from the queue.  The queue,
      the references on copies, the replicas that audit and their overlays
      write every change to one control log first, from which a session that
      is opened again rebuilds them.
    - [core/dag]: a plan is a graph of tasks; validation sorts it into layers,
      which the executor runs one after the other, and a node is gated by the
      states of its dependencies.  The nodes of a layer run as goroutines under
      a bound; failures are classified, and a gate can ask for a decision.
      Graphs wait for each other in a scheduler of graphs.
    - [core/concurrency]: pipelines are scheduled by priority under a bound and
      after their dependencies; agents share permits of a semaphore; a bounded
      buffer connects producers and consumers; a write-ahead log in segments
      makes records survive a crash.
    - [core/errors]: calls of a resource go through its circuit breaker.
    - [core/search/cmt]: the indexer keeps the manifest of the files in a
      Cartesian Merkle tree behind a write-ahead log; a lost tree is rebuilt
      from the log, the file system or git, and a pool of workers compares a
      tree with the disk.

    ** Files, in the order they build on each other

    - [Prelude]: the result type, machine integers ([i64], [u64],
      [u32], written out as wrap-around on [Z]), the classes [RangeOrder] and
      [SliceSort], list, order and map lemmas.
    - [GoStd]: SHA-256, CRC-32, hexadecimal and big-endian integers, executable.
    - core/versioning: [VectorClock] (vector_clock.go), [Ids] (version_id.go),
      [Target] (target.go), [Operation] (operation.go), [OT] (ot.go) with
      [OTConflicts], [MergePrecise] (merge_pipe_precise.go and the loop of
      merge_pipe.go) with [Convergence] and [MergeChange], [FileVersion]
      (file_version.go), [BlobStore] (blob_store.go), [OperationLog]
      (operation_log.go), [DagStore] (dag_store.go); then the merge:
      [Semantic] (semantic_version.go), [MemoryWal] (memory_versioned_wal.go),
      [Vfs] (vfs.go) with [VfsProof] and [VfsTx] (the transactions and listings
      of vfs.go), [MergePipe] (merge_pipe.go and the rest
      of merge_pipe_precise.go) with [MergePipeProof] and [DraftLog];
      [WalEntry] (the binary form of wal_entry.go) with [WalEntryProof], and
      [DiskWal] (versioned_wal.go) with [DiskWalProof].
    - core/versioning, what decides when a merge is flushed: [ControlEntry]
      (control_entry.go) with [ControlEntryProof], [ControlWal]
      (control_wal.go) with [ControlWalProof], [ControlLog] (the interface the
      components below are written against, which [ControlWal] implements),
      [CommitQueue] (commit_queue.go, merge_descriptor.go) with
      [CommitQueueProof], [CopyRetention] (copy_retention.go),
      [ReplicaLifecycle] (replica_lifecycle.go), [ReplicaVfs] (replica_vfs.go
      and the overlays of session_vfs.go) with [ReplicaVfsProof],
      [ControlSession] (the replay of session_vfs.go), [CommitResolver]
      (commit_resolver.go); and agents/shared: [MergeAudit]
      (merge_audit_coordinator.go, merge_replica_identity.go) with
      [MergeAuditProof].
    - core/dag: [DagModel] (types.go, node.go, dag.go), [DagValidator]
      (validator.go), with [KahnSort], [DagLayers] and [DagCorrect];
      [DagFailure] (failure_classifier.go, decision_gate.go),
      [DagExecutor] (executor.go) with [DagExecInv], [DagExecTerm],
      [DagExecOrder], [DagExecSmooth] and [DagExecCases], and
      [DagScheduler] (scheduler.go) with [DagSchedProof].
    - core/concurrency: [AgentSemaphore] (agent_semaphore.go), [PriorityQueue]
      (priority_queue.go), which implements the interface [ReadyQueue] that
      [PipelineScheduler] (scheduler.go) is written against, with
      [PipelineCycle] and [PipelineSched]; [BoundedOverflow]
      (bounded_overflow.go) with [BoundedWait]; [WalRecord] (wal_entry.go) and
      [WriteAheadLog] (wal.go) with [WriteAheadLogDisk],
      [WriteAheadLogProof] and [WriteAheadLogCases].
    - core/errors: [Atomics] (programs of atomic actions), then
      [CircuitBreaker] (circuit_breaker.go, with the 32-bit integers and floats
      it computes with) and [BreakerProof], and [CircuitRegistry]
      (circuit_registry.go).
    - core/search/cmt: [CmtTree] (types.go, treap.go, merkle.go) with
      [CmtTreap] and [CmtHash], [CmtWal] (wal.go) with [CmtWalProof],
      [Cmt] (cmt.go), [CmtRecovery] (recovery.go), [CmtIntegrity]
      (integrity.go).

    A definition has the name of the Go function, method or type it models;
    where one name would serve two, a prefix of the type or a trailing
    underscore tells them apart.  The state of a component is a record, a
    method that writes is a function from the record to the record, and a
    method that can fail returns a [result].

    ** How Go is read

    - [int], [int64], [uint64] and [uint32] are [Z], reduced after every
      operation of the source that can overflow; counts of elements in memory
      are left unbounded, as no slice reaches 2^63 elements.
    - A string is a Coq string of bytes, compared byte by byte; a slice is a
      list; a pointer that can be nil is an option; a missing index or a nil
      dereference is [None] where the code would panic.
    - The order in which [range] visits a map is unspecified: it is the
      parameter [RangeOrder], which may choose any order at any loop, and the
      theorems hold for all of them.  [sort.Slice] is likewise any sorting
      function ([SliceSort]).
    - Loops that are not structural have fuel: the ancestor walk of the version
      graph (the queue and the parents of the versions not seen), Kahn's
      algorithm (the number of nodes), the readers of the logs (the bytes of
      the file), the loops of the heap (its length), the search for cycles
      of the scheduler (the pipelines that wait) and the walk along a chain of
      overlays (the index of the overlay, as a parent is older).  For each a
      theorem shows that the fuel is enough.
    - A slice whose being nil the code asks for is an option of bytes
      ([byte_slice]): the contents that an overlay holds, which a snapshot
      takes for absent when they are nil.
    - The diff engine is a record of its two functions; the second one returns
      a script, which the code drops, and may change the slice it was given,
      which the code then uses ([script]).
    - The clock, fresh identifiers, the outcome of every file operation, the
      cancellation of a context and the entries of a directory are arguments.
      What an overlay reads from below it, how it resolves a path, its
      permission checker and whether the memory reservation can be resized are
      the fields of [VFSEnv].
    - Locks: an operation under a mutex is one step.  Where the source releases
      the lock between two halves of an operation ([CMT.Insert]) the halves are
      definitions of their own and their interleaving is a theorem
      ([Cmt.log_order_races]).  The merge pipe serves the requests of its
      channel one by one, so a merge is one step, and the theorems on it hold
      for any order of the requests.
    - Goroutines: the executor is a step relation of its main loop ([step_main])
      and of the goroutines of the nodes ([step_go]), whose steps are the parts
      between two accesses to shared state; readings taken together under one
      lock, the states of the nodes and whether the layer was halted among
      them, are one step.  What the dispatcher answers, the decisions of the
      gate and the end of a context are labels, so a run is any interleaving
      with any answers.  A call of the semaphore that waits is a step that
      joins the queue and a step that receives or gives up.
    - Code built of atomic loads, swaps and short locks is a program of a free
      monad whose actions are atomic ([Atomics]): the same definition is run
      alone by [exec] or interleaved with others by [run].
    - A float is a binary64 number of the Standard Library, a [SpecFloat].
    - The disk under the write-ahead log keeps for each file its bytes and how
      many of them are durable; a power failure keeps some prefix between the
      two.  Every system call takes its outcome from a list; a reading that
      fails in the middle gives a prefix, which the code takes for the whole.
      A file that was created is taken to be durable.  The control log has the same kind of
      file; its seeks do not fail, and its truncation is durable.
    - Entries of the queue, and overlays, are shared by several structures:
      they live in a heap or a list, and a pointer is an index.  What leaves
      the program is an argument: the outcome of a flush, the answers of the
      spawners of replicas, the version the merge pipe gives an addendum.
    - A flush writes the whole draft, whatever merge the resolver calls it
      for: [CommitResolver.Flush] records both, and the draft is the merges
      that no flush has taken out of it.

    ** What the theorems show

    - Vector clocks: the causal order is a strict order decided exactly, and
      receiving advances it ([VectorClock]).
    - Operational transformation: compatible edits converge
      ([Convergence.transform_converges]), a change is rebuilt exactly when it
      is merged onto its base and the script of the diff engine spells it
      ([MergeChange.merge_rebuilds_change]), conflicts
      are symmetric and are the only errors ([OTConflicts]).  The proofs go
      through abstract edits of byte strings that the operations refine.
    - Stores: the blob store, the operation log and the version graph refine a
      map, a list and an acyclic graph; the readers never go out of range.
    - Merging: a write to an overlay that fails leaves no trace, also when the
      memory budget is exhausted after the maps were changed, but that a nil
      content is then forgotten ([VfsProof.writes_atomic]); a transaction that
      runs from its beginning with nothing else in between changes the overlay
      by its commit only ([VfsTx.transaction_exact]), which can fail halfway;
      the
      listings are exact ([VfsTx.list_exact]); the log is the list of its entries with
      versions that grow ([MemoryWal.wal_refines_list]); a pipeline merged
      into an open and permissive draft that nobody changed makes the draft
      read as its overlay, when it wrote each path once
      ([MergePipeProof.merge_publishes_pipeline]); and whatever was merged, the
      draft is its log replayed ([DraftLog.draft_is_log]), as long as no merge
      fails halfway, which the code does not undo.
    - From the merge to the disk: in any interleaving of merges, verdicts and
      ticks of the resolver, no merge is accepted and no flush is called for
      one that not both audits approved ([MergeAuditProof.flushed_by_both]);
      but a flush writes all that is in the draft, audited, rejected or
      abandoned ([MergeAuditProof.unaudited_on_disk],
      [CommitResolver.abandoned_on_disk]).  A merge is dispatched to both
      audits or to none.  The queue of shared entries refines a list, a tick
      calls for flushes for accepted merges only and removes sixteen entries
      at most, and stops earlier only where the
      head has to wait; the counts of references on
      copies are exact.  An overlay reads as the disk with the changes of the
      overlays behind it, as long as nothing behind changes what was read, and
      sealed content stays.  The control log keeps what it acknowledged as long
      as no torn write precedes it, and a session that is opened again, after
      a power failure too, has the queue, references, replicas and overlays it
      had ([ControlSession.session_reopens]), when the log was new and none of
      its writes was torn.
    - Task graphs: validation always returns, decides exactly whether the graph
      can be run, and leaves a schedule in layers.  Whatever the goroutines do,
      a node is dispatched after its dependencies, no more run than the policy
      allows, an execution ends, and its result counts what happened; when
      every dispatch succeeds each node is dispatched once.
    - The log of versions on disk: entries are decoded exactly as they were
      encoded, a torn entry is recognised, and the log shows the list of its
      entries across reopenings.
    - Scheduling: the heap is a bag of which a highest pipeline is taken; the
      scheduler, for any such queue, keeps its bound, starts pipelines after
      their dependencies and by priority, refuses exactly the circular ones,
      and never lets a set of pipelines wait for itself.  No permit of the
      semaphore is lost and its waiters are served in order.  The bounded
      buffer is a list with its policy of overflow, and no call sleeps while it
      could go on, except after Close.  The scheduler of graphs never holds
      more places than its bound, returns every place, and starts a graph after
      the graphs it waits for.
    - Circuit breakers: run alone, a breaker is an automaton over the outcomes
      of the calls; interleaved in any way, its state moves along the arrows of
      that automaton only; the registry has one breaker per resource.
    - The write-ahead log: what was synchronised is read back whatever append,
      opening or power fails later; truncation removes no record after its
      number, unless a reading fails in the middle of a segment; a record
      damaged after its header hides no other.
    - Manifest: under any calls and any failure of the file system it is a
      finite map; its tree has one shape per content, so equal manifests have
      equal root hashes, and equal root hashes mean equal manifests unless
      SHA-256 fails on an input at hand; recovery from the log rebuilds it,
      also from a log cut short by a crash, when all its writes succeeded.  A
      check of integrity reports exactly where tree and disk differ, in any
      interleaving of its workers, up to the untracked files behind the end of
      its context ([CmtIntegrity.check_exact]); after a scan of the disk these are the
      files that cannot be read ([CmtIntegrity.recovered_checks]).
    - Where the code does not keep such a promise, a theorem on a concrete
      input says so: divergence of some pairs of operations, corrupted merges
      after an insertion at offset 0, a second write of a file or a cleanup of
      the script whose result is dropped, merges on the disk that no audit
      approved, a file with nil content that a refused write deletes, a draft
      that differs from its log after a failed merge, lost, resurrected and
      reordered entries of the log of the manifest, incomplete scans and checks
      reported as complete, a log that a compaction cut short makes unreadable, nodes
      left behind by a retry or by the end of a context, pipelines stranded by
      the cancellation of a dependency, permits issued twice, sequence numbers
      given twice, a failed synchronisation forgotten, a failed reading taken
      for the end of a segment, a pipeline pushed twice and lost, a breaker
      that skips
      its cool-down or panics, a queue that is blocked after the session was
      opened again, copies released while they are audited, acknowledged
      entries lost behind a torn write, stale reads after a rejection, deleted
      files that are listed, rehydrated overlays without their log and chain,
      verdicts lost when a session is closed, counted for a second audit, or
      waited for from a replica that was never spawned, transactions that read
      past deletions and permissions or write to a nil map.

    ** What is not modelled

    The diff engine, SHAKE-128 and git are parameters.  JSON and text
    marshalling, events, subscribers and status snapshots of the executor,
    SQLite storage, the compound nodes of task graphs, the history and old
    versions of the overlay file system, the pipelines and file access of the
    session, the forensic archive, the rest of [core/concurrency] and
    [core/errors], and the packages around those above (agents, providers,
    prompts, user interface, search engines) are not
    modelled. *)

From Stdlib Require Export ZArith Lia.
From Stdlib Require ListDec.
From Stdlib Require Export Strings.Byte Strings.String Strings.Ascii.
From stdpp Require Export base decidable countable numbers list gmap strings sorting relations.

#[global] Open Scope Z_scope.

(** [map_Forall] on a map written entry by entry. *)
Ltac map_forall_now :=
  repeat (apply map_Forall_insert_2; [repeat split; vm_compute; congruence|]);
  apply map_Forall_empty.

(* ------------------------------------------------------------------ *)
(** ** Errors *)

(** Go's pair of a value and an error, of which the callers use one. *)
Inductive result (E A : Type) : Type :=
| Ok (a : A)
| Err (e : E).
Arguments Ok {E A} _.
Arguments Err {E A} _.

#[export] Instance result_ret E : MRet (result E) := fun A a => Ok a.
#[export] Instance result_bind E : MBind (result E) := fun A B f m =>
  match m with Ok a => f a | Err e => Err e end.

Definition is_ok {E A} (r : result E A) : bool :=
  match r with Ok _ => true | Err _ => false end.

Lemma bind_ok {E A B} (m : result E A) (f : A -> result E B) b :
  m ≫= f = Ok b <-> exists a, m = Ok a /\ f a = Ok b.
Proof.
  destruct m as [a|e]; unfold mbind, result_bind; split.
  - intros H. by exists a.
  - intros (a' & [= <-] & H). exact H.
  - done.
  - intros (a' & [=] & _).
Qed.

(* ------------------------------------------------------------------ *)
(** ** Machine integers

    Go's [int] and [int64] are two's complement on 64 bits, [uint64] and
    [uint32] wrap modulo their size.  A value is a [Z]; an operation that
    can overflow is followed by the wrap of its type. *)

Definition two63 : Z := 9223372036854775808.
Definition two64 : Z := 18446744073709551616.
Definition two32 : Z := 4294967296.

Definition i64 (z : Z) : Z := (z + two63) mod two64 - two63.
Definition u64 (z : Z) : Z := z mod two64.
Definition u32 (z : Z) : Z := z mod two32.

Definition in_i64 (z : Z) : Prop := - two63 <= z < two63.
Definition in_u64 (z : Z) : Prop := 0 <= z < two64.
Definition in_u32 (z : Z) : Prop := 0 <= z < two32.

#[export] Instance in_i64_dec z : Decision (in_i64 z).
Proof. unfold in_i64. apply _. Defined.
#[export] Instance in_u64_dec z : Decision (in_u64 z).
Proof. unfold in_u64. apply _. Defined.
#[export] Instance in_u32_dec z : Decision (in_u32 z).
Proof. unfold in_u32. apply _. Defined.

Lemma i64_id z : in_i64 z -> i64 z = z.
Proof. unfold in_i64, i64, two63, two64. intros. rewrite Z.mod_small; lia. Qed.
Lemma u64_id z : in_u64 z -> u64 z = z.
Proof. unfold in_u64, u64, two64. intros. rewrite Z.mod_small; lia. Qed.
Lemma u32_id z : in_u32 z -> u32 z = z.
Proof. unfold in_u32, u32, two32. intros. rewrite Z.mod_small; lia. Qed.

Lemma i64_range z : in_i64 (i64 z).
Proof.
  unfold in_i64, i64, two63, two64.
  pose proof (Z.mod_pos_bound (z + 9223372036854775808) 18446744073709551616). lia.
Qed.
Lemma u64_range z : in_u64 (u64 z).
Proof. unfold in_u64, u64. apply Z.mod_pos_bound. reflexivity. Qed.

(** The wrap of a sum only depends on the wraps of its terms. *)
Lemma i64_add_l a b : i64 (i64 a + b) = i64 (a + b).
Proof.
  unfold i64.
  replace ((a + two63) mod two64 - two63 + b + two63)
    with ((a + two63) mod two64 + b) by lia.
  rewrite Zplus_mod_idemp_l. do 2 f_equal. lia.
Qed.
Lemma i64_sub_l a b : i64 (i64 a - b) = i64 (a - b).
Proof. rewrite <- !Z.add_opp_r. apply i64_add_l. Qed.

(** Converting an [int64] to [uint64] and back is the identity. *)
Lemma i64_u64 z : in_i64 z -> i64 (u64 z) = z.
Proof.
  intros H. unfold u64.
  assert (E : i64 (z mod two64) = i64 z).
  { unfold i64. rewrite Zplus_mod_idemp_l. reflexivity. }
  rewrite E. apply i64_id, H.
Qed.

Create Rewrite HintDb wrap.
#[export] Hint Rewrite i64_add_l i64_sub_l : wrap.

(** [wrap_lia] removes the wraps of values that [lia] proves in range. *)
Ltac wrap_lia :=
  unfold in_i64, in_u64, in_u32, two63, two64, two32 in *;
  repeat match goal with
  | |- context [i64 ?x] => rewrite (i64_id x) by (unfold in_i64, two63; lia)
  | |- context [u64 ?x] => rewrite (u64_id x) by (unfold in_u64, two64; lia)
  | |- context [u32 ?x] => rewrite (u32_id x) by (unfold in_u32, two32; lia)
  end;
  try lia.

(** Go's [len], an [int]. *)
Definition len {A} (l : list A) : Z := Z.of_nat (length l).

Lemma len_nonneg {A} (l : list A) : 0 <= len l.
Proof. unfold len. lia. Qed.
Lemma len_app {A} (l k : list A) : len (l ++ k) = len l + len k.
Proof. unfold len. rewrite length_app. lia. Qed.

Lemma len_cons {A} (x : A) l : len (x :: l) = 1 + len l.
Proof. unfold len. simpl length. lia. Qed.
Lemma len_fmap {A B} (f : A -> B) (l : list A) : len (f <$> l) = len l.
Proof. unfold len. by rewrite length_fmap. Qed.

Lemma list_filter_all {A} (P : A -> Prop) `{forall x, Decision (P x)} (l : list A) :
  Forall P l -> filter P l = l.
Proof. induction 1; [done|]. rewrite filter_cons_True by done. by f_equal. Qed.

Lemma forallb_exists_false {A} (f : A -> bool) (l : list A) :
  forallb f l = false -> exists x, x ∈ l /\ f x = false.
Proof.
  induction l as [|x l IH]; simpl; [done|]. destruct (f x) eqn:E; simpl.
  - intros H. destruct (IH H) as (y & Hy & Ey). exists y. by split; [right|].
  - intros _. exists x. by split; [left|].
Qed.

(** Two lists around the same key, which occurs before it in neither. *)
Lemma app_inj_key {K V} (k : K) (x y : V) l r l' r' :
  k ∉ l.*1 -> k ∉ l'.*1 -> l ++ (k, x) :: r = l' ++ (k, y) :: r' -> l = l' /\ x = y /\ r = r'.
Proof.
  revert l'. induction l as [|[k1 v1] l IH]; intros [|[k2 v2] l'] N N' E; simplify_list_eq.
  - done.
  - exfalso. apply N'. left.
  - exfalso. apply N. left.
  - destruct (IH l') as (-> & ? & ?); [set_solver..|done|done].
Qed.

Lemma prefix_sublist {A} (l k : list A) : l `prefix_of` k -> l `sublist_of` k.
Proof. intros [r ->]. by apply sublist_inserts_r. Qed.

(** [l[i]]: [None] is the run-time panic of an index out of range. *)
Definition index {A} (l : list A) (i : Z) : option A :=
  if i <? 0 then None else l !! Z.to_nat i.

Lemma index_app_here {A} (pre : list A) x l : index (pre ++ x :: l) (len pre) = Some x.
Proof.
  unfold index, len. destruct (Z.ltb_spec (Z.of_nat (length pre)) 0); [lia|].
  rewrite Nat2Z.id. by apply list_lookup_middle.
Qed.

(* ------------------------------------------------------------------ *)
(** ** Paths of a relation *)

Lemma tc_last {A} (R : A -> A -> Prop) x y : tc R x y -> exists z, rtc R x z /\ R z y.
Proof.
  induction 1 as [x y H|x y z H _ (w & IH1 & IH2)].
  - exists x. split; [constructor|done].
  - exists w. split; [by apply rtc_l with y|done].
Qed.

Lemma rtc_eq_tc {A} (R : A -> A -> Prop) x y : rtc R x y -> x = y \/ tc R x y.
Proof.
  induction 1 as [x|x y z H _ [->|IH]]; [by left|right; by apply tc_once|].
  right. by eapply tc_l.
Qed.

Lemma tc_first {A} (R : A -> A -> Prop) x y : tc R x y -> exists z, R x z /\ rtc R z y.
Proof. destruct 1 as [x y H|x y z H T]; exists y; (split; [done|]); [constructor|by apply tc_rtc]. Qed.

(** A walk of length [n] that stays in [S]: its nodes, the last one first. *)
Lemma long_walk {A} (R : A -> A -> Prop) (S : list A) x n :
  x ∈ S -> (forall x, x ∈ S -> exists y, y ∈ S /\ R x y) ->
  exists l, length l = n /\ (forall y, y ∈ l -> y ∈ S) /\ Sorted R (x :: l).
Proof.
  intros Hx K. revert x Hx. induction n as [|n IH]; intros x Hx.
  - exists []. split_and!; [done|by intros y Hy%elem_of_nil|]. repeat constructor.
  - destruct (K x Hx) as (y & Hy & R1). destruct (IH y Hy) as (l & L & I & So).
    exists (y :: l). split_and!; [by simpl; rewrite L| |].
    + intros z [->|Hz]%elem_of_cons; auto.
    + constructor; [done|by constructor].
Qed.

Lemma sorted_tc {A} (R : A -> A -> Prop) x l1 y l2 : Sorted R (x :: l1 ++ y :: l2) -> tc R x y.
Proof.
  revert x. induction l1 as [|z l1 IH]; intros x; simpl; intros So;
    apply Sorted_inv in So as [So Hd]; apply HdRel_inv in Hd.
  - by apply tc_once.
  - eapply tc_l; [done|by apply IH].
Qed.

(** In a finite set where everything has a successor there is a cycle. *)
Lemma finite_cycle {A} `{EqDecision A} (R : A -> A -> Prop) (S : list A) :
  S <> [] -> (forall x, x ∈ S -> exists y, y ∈ S /\ R x y) -> exists x, tc R x x.
Proof.
  intros Ne K. destruct S as [|x S]; [done|].
  destruct (long_walk R (x :: S) x (length (x :: S))) as (l & L & I & So); [set_solver|done|].
  assert (ND : ~ NoDup (x :: l)).
  { intros ND. assert (Sub : x :: l ⊆ x :: S).
    { intros y [->|Hy]%elem_of_cons; [set_solver|by apply I]. }
    apply NoDup_submseteq, submseteq_length in Sub; [|done]. simpl in *. lia. }
  rewrite NoDup_ListNoDup in ND.
  apply ListDec.not_NoDup in ND as (a & l1 & l2 & l3 & E).
  2:{ intros u v. destruct (decide (u = v)); [by left|by right]. }
  exists a. rewrite E in So. clear E. induction l1 as [|z l1 IH]; simpl in So.
  - by eapply sorted_tc.
  - apply Sorted_inv in So as [So _]. by apply IH.
Qed.

(* ------------------------------------------------------------------ *)
(** ** Sorting

    [sort.Slice] sorts by any comparison and is not stable: a [SliceSort]
    permutes its argument and leaves no element before a smaller one, when
    the comparison is a strict weak order. *)

Definition not_after {A} (less : A -> A -> bool) (a b : A) : Prop := less b a = false.

Class SliceSort := {
  sort_slice : forall {A : Type}, (A -> A -> bool) -> list A -> list A;
  sort_slice_perm : forall A (less : A -> A -> bool) l, sort_slice less l ≡ₚ l;
  sort_slice_sorted : forall A (less : A -> A -> bool) l,
    (forall a b, less a b = true -> less b a = false) ->
    (forall a b c, not_after less a b -> not_after less b c -> not_after less a c) ->
    StronglySorted (not_after less) (sort_slice less l)
}.

#[export] Instance not_after_dec {A} (less : A -> A -> bool) : RelDecision (not_after less).
Proof. intros a b. unfold not_after. apply _. Defined.

Lemma StronglySorted_weaken {A} (R R' : A -> A -> Prop) l :
  (forall a b, R a b -> R' a b) -> StronglySorted R l -> StronglySorted R' l.
Proof.
  intros K. induction 1 as [|x l _ IH F]; constructor; [done|].
  eapply Forall_impl; [exact F|]. auto.
Qed.

Lemma StronglySorted_fmap {A B} (f : A -> B) (R : B -> B -> Prop) l :
  StronglySorted R (f <$> l) <-> StronglySorted (fun x y => R (f x) (f y)) l.
Proof.
  induction l as [|x l IH]; [by split; constructor|]. rewrite fmap_cons.
  split; intros [S F]%StronglySorted_inv; constructor; [by apply IH| |by apply IH|].
  - rewrite Forall_fmap in F. exact F.
  - apply Forall_fmap. exact F.
Qed.

Lemma StronglySorted_filter {A} (R : A -> A -> Prop) (P : A -> Prop) `{forall x, Decision (P x)} l :
  StronglySorted R l -> StronglySorted R (filter P l).
Proof.
  induction 1 as [|x l _ IH F]; [constructor|]. rewrite filter_cons. case_decide; [|done].
  constructor; [done|]. apply Forall_forall. intros y [_ Hy]%list_elem_of_filter.
  rewrite Forall_forall in F. by apply F.
Qed.

(** A sorted list around one of its elements. *)
Lemma StronglySorted_mid {A} (R : A -> A -> Prop) `{!Transitive R} l x r :
  StronglySorted R (l ++ x :: r) <->
  StronglySorted R l /\ StronglySorted R r /\ Forall (fun y => R y x) l /\ Forall (R x) r.
Proof.
  induction l as [|y l IH]; simpl.
  - split; [intros [S F]%StronglySorted_inv; repeat split; by try constructor|]. intros (_ & S & _ & F). by constructor.
  - split.
    + intros [S F]%StronglySorted_inv. apply IH in S as (S1 & S2 & F1 & F2).
      apply Forall_app in F as [F3 F4]. apply Forall_cons in F4 as [F4 _].
      repeat split; [by constructor|done|by constructor|done].
    + intros (S1 & S2 & F1 & F2). apply StronglySorted_inv in S1 as [S1 F3].
      apply Forall_cons in F1 as [Ry F1]. constructor; [by apply IH|].
      apply Forall_app. split; [done|]. constructor; [done|].
      eapply Forall_impl; [exact F2|]. intros z Rz. by etransitivity.
Qed.

(** Merge sort is such a sort. *)
Definition slice_merge_sort : SliceSort.
Proof.
  refine {| sort_slice := fun A less l => merge_sort (not_after less) l |}.
  - intros. apply merge_sort_Permutation.
  - intros A less l As Tr. apply StronglySorted_merge_sort.
    + intros a b c. apply Tr.
    + intros a b. unfold not_after. destruct (less b a) eqn:E; [right; by apply As|by left].
Defined.

(* ------------------------------------------------------------------ *)
(** ** Bytes and big-endian encodings *)

Abbreviation bytes := (list byte).

#[export] Instance byte_eq_dec : EqDecision byte := Byte.byte_eq_dec.
#[export] Program Instance byte_countable : Countable byte :=
  inj_countable Byte.to_N Byte.of_N _.
Next Obligation. intros x. apply Byte.of_to_N. Qed.

Definition byte_to_Z (b : byte) : Z := Z.of_N (Byte.to_N b).
Definition Z_to_byte (z : Z) : byte :=
  match Byte.of_N (Z.to_N (z mod 256)) with Some b => b | None => x00 end.

Lemma byte_to_Z_range b : 0 <= byte_to_Z b < 256.
Proof. unfold byte_to_Z. pose proof (Byte.to_N_bounded b). lia. Qed.

Lemma byte_to_Z_to_byte z : byte_to_Z (Z_to_byte z) = z mod 256.
Proof.
  unfold byte_to_Z, Z_to_byte.
  pose proof (Z.mod_pos_bound z 256 eq_refl) as B.
  destruct (Byte.of_N (Z.to_N (z mod 256))) as [b|] eqn:E.
  - apply Byte.to_of_N in E. rewrite E. lia.
  - apply Byte.of_N_None_iff in E. lia.
Qed.

Lemma Z_to_byte_to_Z b : Z_to_byte (byte_to_Z b) = b.
Proof.
  unfold Z_to_byte, byte_to_Z. pose proof (Byte.to_N_bounded b).
  rewrite Z.mod_small by lia. rewrite N2Z.id, Byte.of_to_N. reflexivity.
Qed.

(** [binary.BigEndian.PutUint32] and [PutUint64] write the [n] low bytes of a
    value, the most significant one first; [Uint32] and [Uint64] read them. *)
Fixpoint be_encode (n : nat) (z : Z) : bytes :=
  match n with
  | O => []
  | S n => be_encode n (z / 256) ++ [Z_to_byte z]
  end.

Definition be_decode (bs : bytes) : Z :=
  fold_left (fun acc b => acc * 256 + byte_to_Z b) bs 0.

Lemma length_be_encode n z : length (be_encode n z) = n.
Proof. revert z. induction n as [|n IH]; intros z; simpl; [done|]. rewrite length_app, IH. simpl. lia. Qed.

Lemma be_decode_snoc bs b : be_decode (bs ++ [b]) = be_decode bs * 256 + byte_to_Z b.
Proof. unfold be_decode. rewrite fold_left_app. reflexivity. Qed.

Lemma be_decode_encode n z : be_decode (be_encode n z) = z mod 256 ^ Z.of_nat n.
Proof.
  revert z. induction n as [|n IH]; intros z; [by rewrite Z.mod_1_r|].
  cbn [be_encode]. rewrite be_decode_snoc, IH, byte_to_Z_to_byte.
  rewrite Nat2Z.inj_succ, Z.pow_succ_r by lia.
  rewrite Z.rem_mul_r by lia. lia.
Qed.

Lemma be_decode_range bs : 0 <= be_decode bs < 256 ^ Z.of_nat (length bs).
Proof.
  induction bs as [|b bs IH] using rev_ind; [done|].
  rewrite be_decode_snoc, length_app, Nat2Z.inj_add. simpl (length [b]).
  rewrite Z.pow_add_r by lia. pose proof (byte_to_Z_range b). lia.
Qed.

Lemma be_encode_decode bs : be_encode (length bs) (be_decode bs) = bs.
Proof.
  induction bs as [|b bs IH] using rev_ind; [done|].
  rewrite length_app, Nat.add_comm. cbn [length Nat.add be_encode].
  rewrite be_decode_snoc. pose proof (byte_to_Z_range b) as R. f_equal.
  - rewrite Z.div_add_l, (Z.div_small (byte_to_Z b)), Z.add_0_r by lia. exact IH.
  - f_equal. unfold Z_to_byte.
    rewrite Z.add_comm, Z_mod_plus_full, Z.mod_small by lia.
    pose proof (Z_to_byte_to_Z b) as E. unfold Z_to_byte in E.
    rewrite Z.mod_small in E by lia. exact E.
Qed.

Lemma be_decode_u64 z : be_decode (be_encode 8 z) = u64 z.
Proof. rewrite be_decode_encode. reflexivity. Qed.
Lemma be_decode_u32 z : be_decode (be_encode 4 z) = u32 z.
Proof. rewrite be_decode_encode. reflexivity. Qed.

(** [binary.BigEndian.PutUint32], [PutUint64] *)
Definition putU32 (z : Z) : bytes := be_encode 4 (u32 z).
Definition putU64 (z : Z) : bytes := be_encode 8 (u64 z).

(** [t.UnixNano()], which wraps outside its range. *)
Definition UnixNano (t : Z) : Z := i64 t.

(** [b[i:j]] *)
Definition slice (b : bytes) (i j : nat) : bytes := take (j - i) (drop i b).

Lemma length_putU32 z : length (putU32 z) = 4%nat.
Proof. apply length_be_encode. Qed.
Lemma length_putU64 z : length (putU64 z) = 8%nat.
Proof. apply length_be_encode. Qed.

Lemma putU32_decode z : in_u32 z -> be_decode (putU32 z) = z.
Proof.
  intros B. unfold putU32. rewrite be_decode_u32. rewrite !u32_id; [done|done|].
  by rewrite u32_id.
Qed.
Lemma putU64_decode z : in_i64 z -> i64 (be_decode (putU64 z)) = z.
Proof.
  intros B. unfold putU64. rewrite be_decode_u64.
  rewrite (u64_id (u64 z)) by apply u64_range. by apply i64_u64.
Qed.

Lemma len_u32 {A} (l : list A) : len l < two32 -> in_u32 (len l).
Proof. pose proof (len_nonneg l). unfold in_u32. lia. Qed.

Lemma slice_app_r a b i j : i = length a -> slice (a ++ b) i j = take (j - i) b.
Proof. intros ->. unfold slice. by rewrite drop_app_length. Qed.

(* ------------------------------------------------------------------ *)
(** ** Strings

    A Go string is a sequence of bytes compared byte by byte; [string] and
    [String.compare] are that type and that order. *)

Definition str_bytes (s : string) : bytes := list_byte_of_string s.
Definition bytes_str (b : bytes) : string := string_of_list_byte b.

Lemma bytes_str_bytes s : bytes_str (str_bytes s) = s.
Proof. apply string_of_list_byte_of_string. Qed.
Lemma str_bytes_str b : str_bytes (bytes_str b) = b.
Proof. apply list_byte_of_string_of_list_byte. Qed.
#[export] Instance str_bytes_inj : Inj (=) (=) str_bytes.
Proof. intros x y H. by rewrite <- (bytes_str_bytes x), <- (bytes_str_bytes y), H. Qed.

Lemma str_bytes_app a b : str_bytes (a +:+ b) = str_bytes a ++ str_bytes b.
Proof.
  unfold str_bytes, list_byte_of_string. induction a as [|c a IH]; [done|].
  simpl. by rewrite <- IH.
Qed.

(** [a < b] on strings. *)
Definition str_lt (a b : string) : Prop := String.compare a b = Lt.

#[export] Instance str_lt_dec a b : Decision (str_lt a b).
Proof. unfold str_lt. apply _. Defined.

Lemma str_compare_refl a : String.compare a a = Eq.
Proof.
  pose proof (String.compare_antisym a a) as H.
  destruct (String.compare a a); simpl in H; congruence.
Qed.

Lemma str_lt_irrefl a : ~ str_lt a a.
Proof. unfold str_lt. by rewrite str_compare_refl. Qed.

Lemma ascii_compare_lt_trans a b c :
  Ascii.compare a b = Lt -> Ascii.compare b c = Lt -> Ascii.compare a c = Lt.
Proof. unfold Ascii.compare. rewrite !N.compare_lt_iff. lia. Qed.

Lemma str_lt_trans a b c : str_lt a b -> str_lt b c -> str_lt a c.
Proof.
  unfold str_lt. revert b c.
  induction a as [|x a IH]; intros [|y b] [|z c]; simpl; try done.
  destruct (Ascii.compare x y) eqn:E1, (Ascii.compare y z) eqn:E2; try done.
  - apply Ascii.compare_eq_iff in E1, E2. subst.
    replace (Ascii.compare z z) with Eq by (unfold Ascii.compare; by rewrite N.compare_refl).
    apply IH.
  - apply Ascii.compare_eq_iff in E1. subst. by rewrite E2.
  - apply Ascii.compare_eq_iff in E2. subst. by rewrite E1.
  - by rewrite (ascii_compare_lt_trans _ _ _ E1 E2).
Qed.

Lemma str_lt_trichotomy a b : str_lt a b \/ a = b \/ str_lt b a.
Proof.
  unfold str_lt. rewrite (String.compare_antisym b a).
  destruct (String.compare a b) eqn:E; simpl; auto using String.compare_eq_iff.
Qed.

Lemma str_lt_asym a b : str_lt a b -> ~ str_lt b a.
Proof. intros H1 H2. exact (str_lt_irrefl _ (str_lt_trans _ _ _ H1 H2)). Qed.

Lemma str_ltb_lt a b : String.ltb a b = true <-> str_lt a b.
Proof. unfold String.ltb, str_lt. by destruct (String.compare a b). Qed.

Lemma str_ltb_ge a b : String.ltb a b = false <-> a = b \/ str_lt b a.
Proof.
  rewrite <- not_true_iff_false, str_ltb_lt.
  pose proof (str_lt_trichotomy a b) as T. split; [tauto|].
  intros [->|H] H'; [by apply str_lt_irrefl in H'|by apply str_lt_asym in H].
Qed.

Lemma str_leb_le a b : String.leb a b = true <-> a = b \/ str_lt a b.
Proof.
  unfold String.leb, str_lt. split.
  - destruct (String.compare a b) eqn:E; [auto using String.compare_eq_iff|by auto|done].
  - intros [->| ->]; [by rewrite str_compare_refl|done].
Qed.

Lemma str_leb_gt a b : String.leb a b = false <-> str_lt b a.
Proof.
  rewrite <- not_true_iff_false, str_leb_le.
  pose proof (str_lt_trichotomy a b) as T. split; [tauto|].
  intros H [->|H']; [by apply str_lt_irrefl in H|by apply str_lt_asym in H].
Qed.

#[export] Instance str_lt_transitive : Transitive str_lt.
Proof. intros a b c. apply str_lt_trans. Qed.

Create HintDb strord.
#[export] Hint Resolve str_lt_trans : strord.
#[export] Hint Extern 0 False =>
  match goal with
  | H : str_lt ?a ?a |- _ => exact (str_lt_irrefl _ H)
  | H1 : str_lt ?a ?b, H2 : str_lt ?b ?a |- _ => exact (str_lt_asym _ _ H1 H2)
  end : strord.

(** Turns every boolean comparison of strings in sight into the order. *)
Ltac str_order :=
  repeat match goal with
  | H : String.ltb _ _ = true |- _ => apply str_ltb_lt in H
  | H : String.ltb _ _ = false |- _ => apply str_ltb_ge in H
  | H : String.leb _ _ = true |- _ => apply str_leb_le in H
  | H : String.leb _ _ = false |- _ => apply str_leb_gt in H
  | H : String.eqb _ _ = true |- _ => apply String.eqb_eq in H
  | H : String.eqb _ _ = false |- _ => apply String.eqb_neq in H
  end.

(** Closes a goal from strings ordered both ways. *)
Ltac order_false :=
  repeat intro; exfalso;
  repeat match goal with H : _ = _ \/ str_lt _ _ |- _ => destruct H as [H|H] end;
  subst; solve [eauto with strord | eapply str_lt_irrefl; eauto 6 with strord].

(** [sort.Strings] and [slices.Sort] *)
Definition sort_strings (l : list string) : list string := merge_sort (fun a b => Is_true (String.leb a b)) l.

Lemma sort_strings_perm l : sort_strings l ≡ₚ l.
Proof. apply merge_sort_Permutation. Qed.

Lemma sort_strings_sorted l : StronglySorted (fun a b => a = b \/ str_lt a b) (sort_strings l).
Proof.
  eapply (StronglySorted_weaken (fun a b => Is_true (String.leb a b))).
  - intros a b H%Is_true_true. by apply str_leb_le.
  - apply (StronglySorted_merge_sort _).
Qed.

(* ------------------------------------------------------------------ *)
(** ** Iteration over maps

    The order in which Go's [range] visits a map is unspecified and changes
    from one loop to the next.  A [RangeOrder] fixes the order of every loop
    of a run, loops being numbered; the theorems hold for all of them. *)

Class RangeOrder := {
  range_order : nat -> forall {A : Type}, list A -> list A;
  range_order_perm : forall n A (l : list A), range_order n l ≡ₚ l
}.

Definition range_id : RangeOrder :=
  {| range_order := fun _ _ l => l; range_order_perm := fun _ _ l => Permutation_refl l |}.

Section Range.
Context `{RangeOrder}.

Definition range_map {V} (site : nat) (m : gmap string V) : list (string * V) :=
  range_order site (map_to_list m).
Definition range_keys {V} (site : nat) (m : gmap string V) : list string :=
  (range_map site m).*1.

Lemma range_map_perm {V} n (m : gmap string V) : range_map n m ≡ₚ map_to_list m.
Proof. apply range_order_perm. Qed.

Lemma elem_of_range_map {V} n (m : gmap string V) k v :
  (k, v) ∈ range_map n m <-> m !! k = Some v.
Proof. rewrite range_map_perm. apply elem_of_map_to_list. Qed.

Lemma elem_of_range_keys {V} n (m : gmap string V) k :
  k ∈ range_keys n m <-> is_Some (m !! k).
Proof.
  unfold range_keys. rewrite list_elem_of_fmap. split.
  - intros ([k' v] & -> & Hv). exists v. by apply elem_of_range_map in Hv.
  - intros [v Hv]. exists (k, v). by rewrite elem_of_range_map.
Qed.

Lemma NoDup_range_keys {V} n (m : gmap string V) : NoDup (range_keys n m).
Proof.
  unfold range_keys. rewrite range_map_perm. apply NoDup_fst_map_to_list.
Qed.

(** A loop that copies every entry of a map into a new one. *)
Definition range_copy {V} (site : nat) (m : gmap string V) : gmap string V :=
  foldl (fun result kv => <[kv.1 := kv.2]> result) ∅ (range_map site m).

Lemma foldl_insert {V} (l : list (string * V)) acc :
  NoDup l.*1 ->
  foldl (fun r kv => <[kv.1 := kv.2]> r) acc l = list_to_map l ∪ (acc : gmap string V).
Proof.
  revert acc. induction l as [|[k v] l IH]; intros acc ND.
  - by rewrite list_to_map_nil, (left_id_L ∅ (∪)).
  - cbn [foldl fst snd fmap list_fmap] in *. apply NoDup_cons in ND as [Hk ND].
    rewrite (IH _ ND), list_to_map_cons, <- insert_union_l. symmetry.
    apply insert_union_r, not_elem_of_list_to_map, Hk.
Qed.

Lemma range_copy_eq {V} n (m : gmap string V) : range_copy n m = m.
Proof.
  unfold range_copy. rewrite foldl_insert by (apply NoDup_range_keys).
  rewrite (right_id_L ∅ (∪)). rewrite <- (list_to_map_to_list m) at 2.
  apply list_to_map_proper; [apply NoDup_range_keys|apply range_map_perm].
Qed.

(** A loop that computes an entry of a new map from each entry of another. *)
Lemma foldl_insert_map {V W} (f : V -> W) n (m : gmap string V) :
  foldl (fun r kv => <[kv.1 := f kv.2]> r) ∅ (range_map n m) = f <$> m.
Proof.
  assert (K : forall (l : list (string * V)) acc,
    foldl (fun r kv => <[kv.1 := f kv.2]> r) acc l =
    foldl (fun r kv => <[kv.1 := kv.2]> r) (acc : gmap string W) (prod_map id f <$> l)).
  { induction l as [|[k v] l IH]; intros acc; [done|]. cbn [foldl fmap list_fmap]. apply IH. }
  rewrite K. rewrite foldl_insert.
  - rewrite (right_id_L ∅ (∪)). rewrite list_to_map_fmap. f_equal.
    rewrite <- (list_to_map_to_list m) at 2.
    apply list_to_map_proper; [apply NoDup_range_keys|apply range_map_perm].
  - rewrite <- list_fmap_compose. apply (NoDup_range_keys n m).
Qed.

(** A loop that updates every entry of a map in place. *)
Lemma range_alter_eq {V} n (f : V -> V) (m : gmap string V) :
  foldl (fun m kv => alter f kv.1 m) m (range_map n m) = f <$> m.
Proof.
  assert (K : forall (l : list (string * V)) (m : gmap string V) k, NoDup l.*1 ->
    foldl (fun m kv => alter f kv.1 m) m l !! k =
    if bool_decide (k ∈ l.*1) then f <$> m !! k else m !! k).
  { clear. induction l as [|[x v] l IH]; intros m k ND; [done|].
    cbn [foldl fst fmap list_fmap] in *. apply NoDup_cons in ND as [N ND]. rewrite (IH _ _ ND).
    destruct (decide (k = x)) as [->|Ne].
    - rewrite bool_decide_eq_false_2, bool_decide_eq_true_2 by (done || left).
      apply lookup_alter_eq.
    - rewrite lookup_alter_ne by done. repeat case_bool_decide; set_solver. }
  apply map_eq. intros k. rewrite K by apply NoDup_range_keys. rewrite lookup_fmap.
  case_bool_decide as E; [done|]. fold (range_keys n m) in E. rewrite elem_of_range_keys in E.
  apply eq_None_not_Some in E. by rewrite E.
Qed.

Lemma length_range_keys {V} n (m : gmap string V) : length (range_keys n m) = size m.
Proof.
  unfold range_keys. rewrite length_fmap, (Permutation_length (range_map_perm n m)).
  apply length_map_to_list.
Qed.
End Range.

(* ------------------------------------------------------------------ *)
(** ** Counting the elements of a list *)

Definition tally {A} (f : A -> bool) (l : list A) : nat := length (filter (fun x => f x = true) l).

Lemma tally_cons {A} (f : A -> bool) x l : tally f (x :: l) = (Nat.b2n (f x) + tally f l)%nat.
Proof.
  unfold tally. destruct (f x) eqn:E; [by rewrite filter_cons_True|by rewrite filter_cons_False by congruence].
Qed.

Lemma tally_one {A} (f : A -> bool) x : tally f [x] = Nat.b2n (f x).
Proof. rewrite tally_cons. unfold tally. cbn. lia. Qed.

Lemma tally_app {A} (f : A -> bool) l k : tally f (l ++ k) = (tally f l + tally f k)%nat.
Proof. unfold tally. by rewrite filter_app, length_app. Qed.

Lemma tally_insert {A} (f : A -> bool) l i x y : l !! i = Some x ->
  (tally f (<[i := y]> l) + Nat.b2n (f x) = tally f l + Nat.b2n (f y))%nat.
Proof.
  revert i. induction l as [|z l IH]; intros [|i] E; try done.
  - injection E as ->. change (<[0%nat := y]> (x :: l)) with (y :: l). rewrite !tally_cons. lia.
  - specialize (IH i E). change (<[S i := y]> (z :: l)) with (z :: <[i := y]> l). rewrite !tally_cons. lia.
Qed.

Lemma tally_pos {A} (f : A -> bool) l : (0 < tally f l)%nat -> exists i x, l !! i = Some x /\ f x = true.
Proof.
  unfold tally. intros P. destruct (filter _ l) as [|x k] eqn:E; [cbn in P; lia|].
  assert (Hx : x ∈ filter (fun x => f x = true) l) by (rewrite E; left).
  apply list_elem_of_filter in Hx as [Fx [i Ei]%list_elem_of_lookup]. eauto.
Qed.

Lemma tally_le {A} (f g : A -> bool) l : (forall x, x ∈ l -> f x = true -> g x = true) -> (tally f l <= tally g l)%nat.
Proof.
  induction l as [|x l IH]; intros K; [done|]. rewrite !tally_cons.
  assert (IH' : (tally f l <= tally g l)%nat) by (apply IH; intros y Hy; apply K; by right).
  destruct (f x) eqn:E; [rewrite (K x) by (by left || done)|]; cbn [Nat.b2n]; lia.
Qed.
