(* ===== verification/GoStd.v ===== *)
(** * The parts of Go's standard library the sources compute with

    [crypto/sha256], [hash/crc32] (the IEEE polynomial) and [encoding/hex],
    written out as executable functions: the content-addressed stores, the
    Merkle tree and the write-ahead logs below run on them. *)

From S2P Require Import Prelude.

(* ------------------------------------------------------------------ *)
(** ** SHA-256 (FIPS 180-4) *)

Module Sha256.

(** The constants are the first 32 bits of the fractional parts of roots of
    primes: cube roots of the first 64 for the rounds, square roots of the
    first 8 for the initial state. *)
Definition is_prime (n : Z) : bool :=
  (2 <=? n) && forallb (fun d => negb (n mod d =? 0)) (seqZ 2 (Z.sqrt n - 1)).
Definition primes : list Z := filter is_prime (seqZ 2 310).

(** The cube root of [n], rounded down, below [lo + 2 ^ bits]. *)
Fixpoint cbrt (bits : nat) (lo n : Z) : Z :=
  match bits with
  | O => lo
  | S bits =>
    let mid := lo + 2 ^ Z.of_nat bits in
    cbrt bits (if mid * mid * mid <=? n then mid else lo) n
  end.

Definition K : list Z := Eval vm_compute in (fun p => u32 (cbrt 35 0 (p * 2 ^ 96))) <$> primes.
Definition H0 : list Z := Eval vm_compute in (fun p => u32 (Z.sqrt (p * 2 ^ 64))) <$> take 8 primes.

Definition rotr (n x : Z) : Z :=
  Z.lor (Z.shiftr x n) (u32 (Z.shiftl x (32 - n))).
Definition ch (x y z : Z) : Z := Z.lxor (Z.land x y) (Z.land (two32 - 1 - x) z).
Definition maj (x y z : Z) : Z := Z.lxor (Z.land x y) (Z.lxor (Z.land x z) (Z.land y z)).
Definition bsig0 (x : Z) : Z := Z.lxor (rotr 2 x) (Z.lxor (rotr 13 x) (rotr 22 x)).
Definition bsig1 (x : Z) : Z := Z.lxor (rotr 6 x) (Z.lxor (rotr 11 x) (rotr 25 x)).
Definition ssig0 (x : Z) : Z := Z.lxor (rotr 7 x) (Z.lxor (rotr 18 x) (Z.shiftr x 3)).
Definition ssig1 (x : Z) : Z := Z.lxor (rotr 17 x) (Z.lxor (rotr 19 x) (Z.shiftr x 10)).

(** The padded message is a whole number of 64-byte blocks. *)
Definition pad (m : bytes) : bytes :=
  let n := Z.of_nat (length m) in
  m ++ [x80] ++ replicate (Z.to_nat ((55 - n) mod 64)) x00 ++ be_encode 8 (8 * n).

Fixpoint words (bs : bytes) : list Z :=
  match bs with
  | a :: b :: c :: d :: bs => be_decode [a; b; c; d] :: words bs
  | _ => []
  end.

(** [w] holds the words of the schedule computed so far, the last one first. *)
Fixpoint schedule (n : nat) (w : list Z) : list Z :=
  match n with
  | O => rev w
  | S n =>
    let at_ i := nth i w 0 in
    schedule n (u32 (ssig1 (at_ 1%nat) + at_ 6%nat + ssig0 (at_ 14%nat) + at_ 15%nat) :: w)
  end.

Definition round (st : list Z) (kw : Z * Z) : list Z :=
  match st with
  | [a; b; c; d; e; f; g; h] =>
    let t1 := h + bsig1 e + ch e f g + kw.1 + kw.2 in
    let t2 := bsig0 a + maj a b c in
    [u32 (t1 + t2); a; b; c; u32 (d + t1); e; f; g]
  | _ => st
  end.

Definition compress (st : list Z) (block : bytes) : list Z :=
  let w := schedule 48 (rev (words block)) in
  zip_with (fun x y => u32 (x + y)) st (fold_left round (zip K w) st).

Fixpoint blocks (n : nat) (st : list Z) (bs : bytes) : list Z :=
  match n with
  | O => st
  | S n => blocks n (compress st (take 64 bs)) (drop 64 bs)
  end.

Definition sum256 (m : bytes) : bytes :=
  let p := pad m in
  mjoin (be_encode 4 <$> blocks (Nat.div (length p) 64) H0 p).

(** The digest of the one-block message [abc] of the standard. *)
Example sum256_abc :
  be_decode (sum256 (str_bytes "abc")) =
  0xba7816bf8f01cfea414140de5dae2223b00361a396177a9cb410ff61f20015ad.
Proof. vm_compute. reflexivity. Qed.

Lemma round_length st kw : length (round st kw) = length st.
Proof. do 9 (destruct st as [|? st]; try reflexivity). Qed.

Lemma compress_length st b : length (compress st b) = length st.
Proof.
  unfold compress. rewrite length_zip_with.
  enough (E : forall l st', length (fold_left round l st') = length st') by (rewrite E; lia).
  induction l as [|kw l IH]; intros st'; [done|]. simpl. by rewrite IH, round_length.
Qed.

Lemma blocks_length n st bs : length (blocks n st bs) = length st.
Proof. revert st bs. induction n; intros; simpl; [done|]. by rewrite IHn, compress_length. Qed.

Lemma sum256_length m : length (sum256 m) = 32%nat.
Proof.
  unfold sum256. generalize (Nat.div (length (pad m)) 64) as n. intros n.
  pose proof (blocks_length n H0 (pad m)) as L.
  generalize dependent (blocks n H0 (pad m)). intros l L.
  do 8 (destruct l as [|? l]; [done|]). destruct l; [|done].
  cbn [fmap list_fmap mjoin list_join length]. rewrite !length_app, !length_be_encode. reflexivity.
Qed.

End Sha256.

#[global] Opaque Sha256.sum256.
Abbreviation sha256 := Sha256.sum256.

(* ------------------------------------------------------------------ *)
(** ** CRC-32, IEEE polynomial *)

Module Crc32.

Definition poly : Z := 0xEDB88320.

Definition shift_bit (crc : Z) : Z :=
  if Z.odd crc then Z.lxor (Z.shiftr crc 1) poly else Z.shiftr crc 1.

Definition update (crc : Z) (b : byte) : Z :=
  Nat.iter 8 shift_bit (Z.lxor crc (byte_to_Z b)).

Definition checksum_ieee (bs : bytes) : Z :=
  u32 (Z.lxor (fold_left update bs (two32 - 1)) (two32 - 1)).

(** The check value of the CRC-32/ISO-HDLC catalogue entry. *)
Example checksum_check : checksum_ieee (str_bytes "123456789") = 0xCBF43926.
Proof. vm_compute. reflexivity. Qed.

Lemma checksum_range bs : in_u32 (checksum_ieee bs).
Proof. apply Z.mod_pos_bound. reflexivity. Qed.

End Crc32.

(* ------------------------------------------------------------------ *)
(** ** Hexadecimal strings *)

Module Hex.

Definition digit (v : Z) : ascii :=
  match String.get (Z.to_nat v) "0123456789abcdef" with Some c => c | None => zero end.

(** [hex.EncodeToString] *)
Fixpoint encode_to_string (b : bytes) : string :=
  match b with
  | [] => EmptyString
  | v :: b =>
    String (digit (Z.shiftr (byte_to_Z v) 4))
      (String (digit (Z.land (byte_to_Z v) 15)) (encode_to_string b))
  end.

Definition from_digit (c : ascii) : option Z :=
  let n := Z.of_N (N_of_ascii c) in
  if (48 <=? n) && (n <=? 57) then Some (n - 48)
  else if (97 <=? n) && (n <=? 102) then Some (n - 87)
  else if (65 <=? n) && (n <=? 70) then Some (n - 55)
  else None.

Inductive hex_error := ErrLength | InvalidByteError (c : ascii).

(** [hex.DecodeString]: an invalid digit is reported before an odd length. *)
Fixpoint decode_string (s : string) : result hex_error bytes :=
  match s with
  | EmptyString => Ok []
  | String a EmptyString =>
    match from_digit a with None => Err (InvalidByteError a) | Some _ => Err ErrLength end
  | String a (String b s) =>
    match from_digit a with
    | None => Err (InvalidByteError a)
    | Some x =>
      match from_digit b with
      | None => Err (InvalidByteError b)
      | Some y => match decode_string s with Ok r => Ok (Z_to_byte (16 * x + y) :: r) | Err e => Err e end
      end
    end
  end.

Lemma from_digit_digit v : 0 <= v < 16 -> from_digit (digit v) = Some v.
Proof.
  intros H. assert (E : In v (seqZ 0 16)).
  { apply list_elem_of_In, elem_of_seqZ. lia. }
  simpl in E. repeat (destruct E as [<-|E]; [reflexivity|]). done.
Qed.

Lemma decode_encode b : decode_string (encode_to_string b) = Ok b.
Proof.
  induction b as [|v b IH]; [done|]. cbn [encode_to_string decode_string].
  pose proof (byte_to_Z_range v) as R.
  rewrite Z.shiftr_div_pow2 by lia. change (2 ^ 4) with 16.
  change 15 with (Z.ones 4). rewrite Z.land_ones by lia. change (2 ^ 4) with 16.
  assert (D : 0 <= byte_to_Z v / 16 < 16) by (split; [apply Z.div_pos|apply Z.div_lt_upper_bound]; lia).
  rewrite (from_digit_digit _ D), (from_digit_digit (_ mod _)), IH
    by (apply Z.mod_pos_bound; lia).
  rewrite <- Z.div_mod by lia. by rewrite Z_to_byte_to_Z.
Qed.

End Hex.
