(* ===== verification/Semantic.v ===== *)
(** * Versions of the global draft (core/versioning/semantic_version.go)

    A version is a pair of [uint32]s; both components wrap around.  The parts
    of the standard library the parser uses ([strings.TrimSpace],
    [strings.Split], [strconv.ParseUint]) are written out. *)

From Stdlib Require Import Decimal DecimalString DecimalN.
From S2P Require Import Prelude.

Record SemanticVersion := mkVersion { Major : Z; Minor : Z }.

#[export] Instance SemanticVersion_eq_dec : EqDecision SemanticVersion.
Proof. solve_decision. Defined.
#[export] Instance SemanticVersion_countable : Countable SemanticVersion.
Proof.
  apply (inj_countable' (fun v => (Major v, Minor v)) (fun p => mkVersion p.1 p.2)). by intros [].
Defined.

Module Semantic.

Definition VersionZero : SemanticVersion := mkVersion 0 0.

(** The components are in the range of [uint32]. *)
Definition version_wf (v : SemanticVersion) : Prop := in_u32 (Major v) /\ in_u32 (Minor v).

Definition compareUint32 (a b : Z) : Z :=
  if a <? b then -1 else if a =? b then 0 else 1.

Definition Compare (v other : SemanticVersion) : Z :=
  if negb (Major v =? Major other) then compareUint32 (Major v) (Major other)
  else compareUint32 (Minor v) (Minor other).

Definition IsZero (v : SemanticVersion) : bool := (Major v =? 0) && (Minor v =? 0).

Definition BumpMinor (v : SemanticVersion) : SemanticVersion := mkVersion (Major v) (u32 (Minor v + 1)).
Definition BumpMajor (v : SemanticVersion) : SemanticVersion := mkVersion (u32 (Major v + 1)) 0.

(* ------------------------------------------------------------------ *)
(** ** Printing and parsing *)

(** [%d] of an unsigned number. *)
Definition print_uint (z : Z) : string := NilZero.string_of_uint (N.to_uint (Z.to_N z)).

Definition version_String (v : SemanticVersion) : string := print_uint (Major v) +:+ "." +:+ print_uint (Minor v).

(** The UTF-8 encodings of the characters of [unicode.IsSpace]. *)
Definition spaces : list (list byte) :=
  [[x09]; [x0a]; [x0b]; [x0c]; [x0d]; [x20]; [xc2; x85]; [xc2; xa0]; [xe1; x9a; x80]; [xe2; x80; x80];
   [xe2; x80; x81]; [xe2; x80; x82]; [xe2; x80; x83]; [xe2; x80; x84]; [xe2; x80; x85]; [xe2; x80; x86];
   [xe2; x80; x87]; [xe2; x80; x88]; [xe2; x80; x89]; [xe2; x80; x8a]; [xe2; x80; xa8]; [xe2; x80; xa9];
   [xe2; x80; xaf]; [xe2; x81; x9f]; [xe3; x80; x80]].

(** [s] without the encoding [p] at its start. *)
Fixpoint strip_prefix (p s : list byte) : option (list byte) :=
  match p, s with
  | [], _ => Some s
  | b :: p, c :: s => if Byte.eqb b c then strip_prefix p s else None
  | _, [] => None
  end.

Fixpoint strip_one (ps : list (list byte)) (s : list byte) : option (list byte) :=
  match ps with
  | [] => None
  | p :: ps => match strip_prefix p s with Some s => Some s | None => strip_one ps s end
  end.

(** One character is removed per step. *)
Fixpoint trim_left (ps : list (list byte)) (fuel : nat) (s : list byte) : list byte :=
  match fuel with
  | O => s
  | S fuel => match strip_one ps s with Some s => trim_left ps fuel s | None => s end
  end.

(** [strings.TrimSpace]; the end is trimmed on the reversed bytes. *)
Definition TrimSpace (s : string) : string :=
  let s := str_bytes s in
  let s := trim_left spaces (length s) s in
  bytes_str (reverse (trim_left (reverse <$> spaces) (length s) (reverse s))).

(** [strings.Split(s, ".")] *)
Fixpoint split_dot (s : string) : list string :=
  match s with
  | EmptyString => [""]
  | String c s =>
    if Ascii.eqb c "." then "" :: split_dot s
    else match split_dot s with
      | part :: parts => String c part :: parts
      | [] => [String c ""]
      end
  end.

(** [strconv.ParseUint(s, 10, 32)] *)
Definition ParseUint32 (s : string) : option Z :=
  match NilZero.uint_of_string s with
  | Some d => let n := Z.of_N (N.of_uint d) in if n <? two32 then Some n else None
  | None => None
  end.

Inductive parse_error := ErrEmpty | ErrNotTwoParts | ErrMajor | ErrMinor.

Definition ParseSemanticVersion (s : string) : result parse_error SemanticVersion :=
  let s := TrimSpace s in
  if bool_decide (s = "") then Err ErrEmpty
  else match split_dot s with
    | [major; minor] =>
      match ParseUint32 major with
      | None => Err ErrMajor
      | Some major =>
        match ParseUint32 minor with
        | None => Err ErrMinor
        | Some minor => Ok (mkVersion major minor)
        end
      end
    | _ => Err ErrNotTwoParts
    end.

(* ------------------------------------------------------------------ *)
(** ** The order *)

Definition lt (v w : SemanticVersion) : Prop :=
  Major v < Major w \/ Major v = Major w /\ Minor v < Minor w.

Lemma Compare_spec v w :
  (Compare v w = -1 /\ lt v w) \/ (Compare v w = 0 /\ v = w) \/ (Compare v w = 1 /\ lt w v).
Proof.
  unfold Compare, compareUint32, lt. destruct v as [a b], w as [c d]. cbn [Major Minor].
  destruct (Z.eqb_spec a c) as [->|]; cbn [negb].
  - destruct (Z.ltb_spec b d); [left; split; [done|lia]|].
    destruct (Z.eqb_spec b d) as [->|]; [by right; left|right; right; split; [done|lia]].
  - destruct (Z.ltb_spec a c); [left; split; [done|lia]|].
    destruct (Z.eqb_spec a c); [done|]. right; right. split; [done|lia].
Qed.

Lemma version_lt_irrefl v : ~ lt v v.
Proof. unfold lt. lia. Qed.
Lemma version_lt_trans u v w : lt u v -> lt v w -> lt u w.
Proof. unfold lt. lia. Qed.

#[export] Instance lt_dec v w : Decision (lt v w).
Proof. unfold lt. apply _. Defined.

Lemma Compare_lt v w : Compare v w < 0 <-> lt v w.
Proof.
  destruct (Compare_spec v w) as [[-> L]|[[-> ->]|[-> L]]]; split; intros H; try done; exfalso.
  - by eapply version_lt_irrefl.
  - by eapply version_lt_irrefl, version_lt_trans.
Qed.

Lemma Compare_gt v w : 0 < Compare v w <-> lt w v.
Proof.
  destruct (Compare_spec v w) as [[-> L]|[[-> ->]|[-> L]]]; split; intros H; try done; exfalso.
  - by eapply version_lt_irrefl, version_lt_trans.
  - by eapply version_lt_irrefl.
Qed.

(* ------------------------------------------------------------------ *)
(** ** Parsing what was printed *)

Definition digit (b : byte) : Prop :=
  b ∈ [x30; x31; x32; x33; x34; x35; x36; x37; x38; x39].

#[export] Instance digit_dec b : Decision (digit b).
Proof. unfold digit. apply _. Defined.

Definition digits (s : string) : Prop := Forall digit (str_bytes s).

Lemma digits_empty d : digits (NilEmpty.string_of_uint d).
Proof.
  unfold digits. induction d; cbn [NilEmpty.string_of_uint]; [constructor|..];
    (change (str_bytes (String ?c ?s)) with (byte_of_ascii c :: str_bytes s) || idtac);
    (constructor; [|exact IHd]); unfold digit; set_solver.
Qed.

Lemma to_uint_nonnil n : N.to_uint n <> Decimal.Nil.
Proof.
  intros E. pose proof (Unsigned.to_of (N.to_uint n)) as H. rewrite Unsigned.of_to, E in H. done.
Qed.

Lemma print_uint_digits z : digits (print_uint z) /\ print_uint z <> "".
Proof.
  unfold print_uint, NilZero.string_of_uint. pose proof (to_uint_nonnil (Z.to_N z)) as N.
  destruct (N.to_uint _) eqn:E; [done|..]; rewrite <- E; (split; [apply digits_empty|by rewrite E]).
Qed.

Lemma parse_print_uint z : in_u32 z -> ParseUint32 (print_uint z) = Some z.
Proof.
  intros B. unfold ParseUint32, print_uint. rewrite NilZero.usu by apply to_uint_nonnil.
  rewrite Unsigned.of_to, Z2N.id by (unfold in_u32 in B; lia).
  unfold in_u32 in B. destruct (Z.ltb_spec z two32); [done|lia].
Qed.

Lemma split_digits s t : digits s -> digits t -> split_dot (s +:+ "." +:+ t) = [s; t].
Proof.
  assert (D : forall c s, digits (String c s) -> Ascii.eqb c "." = false /\ digits s).
  { intros c u H. apply Forall_cons in H as [H ?]. split; [|done].
    destruct (Ascii.eqb_spec c "."); [|done]. subst. exfalso. revert H.
    apply (bool_decide_eq_false_1 _). vm_compute. reflexivity. }
  assert (E : forall u, digits u -> split_dot u = [u]).
  { intros u. induction u as [|c u IH]; [done|]. intros H. apply D in H as [Hc H]. cbn [split_dot].
    by rewrite Hc, IH. }
  intros Hs Ht. induction s as [|c s IH].
  { change ("" +:+ "." +:+ t) with (String "." t). cbn [split_dot Ascii.eqb Bool.eqb]. by rewrite E. }
  apply D in Hs as [Hc Hs].
  change (String c s +:+ "." +:+ t) with (String c (s +:+ "." +:+ t)). cbn [split_dot].
  by rewrite Hc, IH.
Qed.

Lemma trim_digit ps fuel b s : Forall (fun p => exists c q, p = c :: q /\ ~ digit c) ps -> digit b ->
  trim_left ps fuel (b :: s) = b :: s.
Proof.
  intros F D. destruct fuel; [done|]. cbn [trim_left].
  assert (E : strip_one ps (b :: s) = None); [|by rewrite E].
  induction F as [|p ps (c & q & -> & N) _ IH]; [done|]. cbn [strip_one strip_prefix].
  destruct (Byte.eqb c b) eqn:E; [|done]. apply Byte.byte_dec_bl in E. by subst.
Qed.

Lemma spaces_not_digits :
  Forall (fun p => exists c q, p = c :: q /\ ~ digit c) spaces /\
  Forall (fun p => exists c q, p = c :: q /\ ~ digit c) (reverse <$> spaces).
Proof.
  assert (K : forall ps : list (list byte),
    forallb (fun p => match p with c :: _ => negb (bool_decide (digit c)) | [] => false end) ps = true ->
    Forall (fun p => exists c q, p = c :: q /\ ~ digit c) ps).
  { intros ps. rewrite forallb_forall, Forall_forall. intros H p Hp. apply list_elem_of_In in Hp.
    specialize (H p Hp). destruct p as [|c q]; [done|]. exists c, q. split; [done|].
    by apply negb_true_iff, bool_decide_eq_false_1 in H. }
  split; apply K; vm_compute; reflexivity.
Qed.

(** Nothing is trimmed off bytes that start and end with a digit. *)
Lemma TrimSpace_digits b m c : digit b -> digit c -> TrimSpace (bytes_str (b :: m ++ [c])) = bytes_str (b :: m ++ [c]).
Proof.
  intros B C. destruct spaces_not_digits as [S1 S2]. unfold TrimSpace.
  rewrite str_bytes_str. rewrite (trim_digit spaces) by done.
  change (b :: m ++ [c]) with ((b :: m) ++ [c]) at 2 3. rewrite reverse_app. cbn [reverse].
  change (reverse [c] ++ reverse (b :: m)) with (c :: reverse (b :: m)).
  rewrite trim_digit by done. f_equal. by rewrite reverse_cons, reverse_involutive.
Qed.

Lemma TrimSpace_version s t : digits s -> s <> "" -> digits t -> t <> "" ->
  TrimSpace (s +:+ "." +:+ t) = s +:+ "." +:+ t.
Proof.
  intros Ds Ns Dt Nt. rewrite <- (bytes_str_bytes (s +:+ "." +:+ t)), !str_bytes_app.
  unfold digits in *. rewrite <- (bytes_str_bytes s) in Ns. rewrite <- (bytes_str_bytes t) in Nt.
  destruct (str_bytes s) as [|b m]; [done|]. destruct (str_bytes t) as [|c u _] using rev_ind; [done|].
  apply Forall_cons in Ds as [Db _]. apply Forall_app in Dt as [_ Dc]. apply Forall_cons in Dc as [Dc _].
  rewrite app_assoc. rewrite (app_assoc _ u [c]). by apply TrimSpace_digits.
Qed.

(** Printing a version and parsing it back gives the version. *)
Theorem version_roundtrip v : version_wf v -> ParseSemanticVersion (version_String v) = Ok v.
Proof.
  intros [Wa Wi]. destruct (print_uint_digits (Major v)) as [Da Na].
  destruct (print_uint_digits (Minor v)) as [Di Ni].
  unfold ParseSemanticVersion, version_String. rewrite TrimSpace_version by done.
  rewrite bool_decide_eq_false_2 by (by destruct (print_uint (Major v))).
  rewrite split_digits, !parse_print_uint by done. by destruct v.
Qed.

Lemma version_roundtrip_witness : ParseSemanticVersion (version_String (mkVersion 1 12)) = Ok (mkVersion 1 12).
Proof. apply version_roundtrip. by split. Defined.

Example parse_blank : ParseSemanticVersion "  0.05 " = Ok (mkVersion 0 5).
Proof. reflexivity. Qed.
Example parse_sign : ParseSemanticVersion "+1.2" = Err ErrMajor.
Proof. reflexivity. Qed.
Example parse_range : ParseSemanticVersion "1.4294967296" = Err ErrMinor.
Proof. reflexivity. Qed.
Example parse_three : ParseSemanticVersion "1.2.3" = Err ErrNotTwoParts.
Proof. reflexivity. Qed.
End Semantic.
