(* ===== verification/VectorClock.v ===== *)
(** * Vector clocks (core/versioning/vector_clock.go)

    A clock maps a session to the [uint64] count of its events; a session
    that is absent counts zero.  A Go map is a reference: every operation of
    the source that returns a clock works on a clone, so the value semantics
    of [gmap] is the semantics of the package.  Loops over a map are folds
    over the order [range_map] gives them. *)

From S2P Require Import Prelude.

Abbreviation SessionID := string.
Abbreviation VectorClock := (gmap SessionID Z).

Module VectorClock.
Section Ops.
Context `{RangeOrder}.

Definition NewVectorClock : VectorClock := ∅.

Definition Get (vc : VectorClock) (session : SessionID) : Z := default 0 (vc !! session).

(** [Clone] copies every entry into a new map. *)
Definition Clone (vc : VectorClock) : VectorClock :=
  range_copy 0 vc.

Definition Increment (vc : VectorClock) (session : SessionID) : VectorClock :=
  let result := Clone vc in <[session := u64 (Get result session + 1)]> result.

Definition Set_ (vc : VectorClock) (session : SessionID) (value : Z) : VectorClock :=
  <[session := value]> (Clone vc).

Definition merge_step (result : VectorClock) (kv : SessionID * Z) : VectorClock :=
  if Get result kv.1 <? kv.2 then <[kv.1 := kv.2]> result else result.

Definition Merge (vc other : VectorClock) : VectorClock :=
  foldl merge_step (Clone vc) (range_map 1 other).

Definition bothEmpty (vc other : VectorClock) : bool :=
  (Nat.eqb (size vc) 0) && (Nat.eqb (size other) 0).

(** The loop of [compareEntries] with its early return; [strict] is
    [someStrictlyLess]. *)
Fixpoint compare_loop (entries : list (SessionID * Z)) (other : VectorClock) (strict : bool)
  : bool * bool :=
  match entries with
  | [] => (true, strict)
  | (session, count) :: entries =>
    let otherCount := Get other session in
    if otherCount <? count then (false, false)
    else compare_loop entries other (if count <? otherCount then true else strict)
  end.

Definition compareEntries (vc other : VectorClock) : bool * bool :=
  compare_loop (range_map 2 vc) other false.

Definition hasNewSessions (vc other : VectorClock) : bool :=
  existsb (fun kv => negb (bool_decide (is_Some (vc !! kv.1))) && (0 <? kv.2))
    (range_map 3 other).

Definition HappensBefore (vc other : VectorClock) : bool :=
  if bothEmpty vc other then false
  else let '(lessOrEqual, strictlyLess) := compareEntries vc other in
    lessOrEqual && (strictlyLess || hasNewSessions vc other).

Definition Concurrent (vc other : VectorClock) : bool :=
  negb (HappensBefore vc other) && negb (HappensBefore other vc).

Definition IsZero (vc : VectorClock) : bool :=
  forallb (fun kv => negb (0 <? kv.2)) (range_map 4 vc).

Definition Equal (vc other : VectorClock) : bool :=
  if negb (Nat.eqb (size vc) (size other)) then false
  else forallb (fun kv => Get other kv.1 =? kv.2) (range_map 5 vc).

Definition Compare (vc other : VectorClock) : Z :=
  if HappensBefore vc other then -1
  else if HappensBefore other vc then 1
  else if Equal vc other then 0
  else 2.

Definition Sessions (vc : VectorClock) : list SessionID := range_keys 6 vc.
End Ops.

(** Every count is a [uint64]. *)
Definition wf (vc : VectorClock) : Prop := map_Forall (fun _ c => in_u64 c) vc.

(** No entry counts zero, which is what clocks built from [NewVectorClock] by
    [Increment] (without overflow) and [Merge] satisfy. *)
Definition positive (vc : VectorClock) : Prop := map_Forall (fun _ c => 0 < c) vc.

(** The specification: the pointwise order of the counts. *)
Definition le (a b : VectorClock) : Prop := forall s, Get a s <= Get b s.
Definition lt (a b : VectorClock) : Prop := le a b /\ exists s, Get a s < Get b s.

#[export] Instance wf_dec vc : Decision (wf vc).
Proof. unfold wf. apply _. Defined.
#[export] Instance positive_dec vc : Decision (positive vc).
Proof. unfold positive. apply _. Defined.

(* ------------------------------------------------------------------ *)
(** ** Lookups *)

Lemma Get_lookup vc s c : vc !! s = Some c -> Get vc s = c.
Proof. unfold Get. by intros ->. Qed.
Lemma Get_None vc s : vc !! s = None -> Get vc s = 0.
Proof. unfold Get. by intros ->. Qed.
Lemma Get_insert_eq vc s c : Get (<[s := c]> vc) s = c.
Proof. apply Get_lookup, lookup_insert_eq. Qed.
Lemma Get_insert_ne vc s t c : s <> t -> Get (<[s := c]> vc) t = Get vc t.
Proof. intros. unfold Get. by rewrite lookup_insert_ne. Qed.

Lemma wf_Get vc s : wf vc -> in_u64 (Get vc s).
Proof.
  intros W. unfold Get. destruct (vc !! s) eqn:E; [by apply W in E|]. done.
Qed.

Lemma wf_insert vc s c : wf vc -> in_u64 c -> wf (<[s := c]> vc).
Proof. intros. by apply map_Forall_insert_2. Qed.

Create HintDb clock.
#[export] Hint Resolve wf_insert u64_range : clock.

Section Facts.
Context `{RangeOrder}.

Lemma clock_clone_eq vc : Clone vc = vc.
Proof. apply range_copy_eq. Qed.

Lemma Get_Increment vc s t :
  Get (Increment vc s) t = if decide (s = t) then u64 (Get vc s + 1) else Get vc t.
Proof.
  unfold Increment. rewrite clock_clone_eq. case_decide; subst.
  - apply Get_insert_eq.
  - by apply Get_insert_ne.
Qed.

Lemma Get_merge_step result kv t :
  Get (merge_step result kv) t =
  if decide (kv.1 = t) then Z.max (Get result t) kv.2 else Get result t.
Proof.
  unfold merge_step. destruct (Z.ltb_spec (Get result kv.1) kv.2);
    case_decide; subst; rewrite ?Get_insert_eq, ?Get_insert_ne by done; lia.
Qed.

Lemma Get_merge_fold l result t :
  NoDup l.*1 ->
  Get (foldl merge_step result l) t =
  match (list_to_map l : VectorClock) !! t with
  | Some c => Z.max (Get result t) c
  | None => Get result t
  end.
Proof.
  revert result. induction l as [|[k c] l IH]; intros result ND; [done|].
  cbn [foldl fmap list_fmap] in *. apply NoDup_cons in ND as [Hk ND].
  rewrite (IH _ ND), list_to_map_cons, Get_merge_step. cbn [fst snd] in *.
  case_decide as D; subst.
  - rewrite lookup_insert_eq. by rewrite not_elem_of_list_to_map_1.
  - by rewrite lookup_insert_ne.
Qed.

(** Merging takes the larger count of every session. *)
Lemma Get_Merge a b s : wf a -> Get (Merge a b) s = Z.max (Get a s) (Get b s).
Proof.
  intros Wa. unfold Merge.
  rewrite Get_merge_fold, clock_clone_eq by apply NoDup_range_keys.
  rewrite (list_to_map_proper _ (map_to_list b)), list_to_map_to_list
    by (apply NoDup_range_keys || apply range_map_perm).
  destruct (b !! s) eqn:E.
  - by rewrite (Get_lookup _ _ _ E).
  - rewrite (Get_None _ _ E). pose proof (wf_Get a s Wa). unfold in_u64 in *. lia.
Qed.

Lemma wf_Increment vc s : wf vc -> wf (Increment vc s).
Proof. intros. unfold Increment. rewrite clock_clone_eq. auto with clock. Qed.

Lemma wf_Merge a b : wf a -> wf b -> wf (Merge a b).
Proof.
  intros Wa Wb. unfold Merge. rewrite clock_clone_eq.
  assert (W : Forall (fun kv => in_u64 kv.2) (range_map 1 b)).
  { apply Forall_forall. intros [k c] Hin. apply elem_of_range_map in Hin. by apply Wb in Hin. }
  revert a Wa. induction W as [|[k c] l Hc W IH]; intros a Wa; [done|].
  apply IH. unfold merge_step. case_match; auto with clock.
Qed.
End Facts.

#[export] Hint Resolve wf_Increment wf_Merge : clock.

(* ------------------------------------------------------------------ *)
(** ** The comparison loops *)

Section Order.
Context `{RangeOrder}.

Lemma compare_loop_spec l other strict :
  compare_loop l other strict =
  if forallb (fun kv => kv.2 <=? Get other kv.1) l
  then (true, strict || existsb (fun kv => kv.2 <? Get other kv.1) l)
  else (false, false).
Proof.
  revert strict. induction l as [|[k c] l IH]; intros strict; simpl.
  - by rewrite orb_false_r.
  - destruct (Z.ltb_spec (Get other k) c) as [Hlt|Hle].
    + by rewrite (proj2 (Z.leb_gt _ _)) by done.
    + rewrite (proj2 (Z.leb_le _ _)) by done. simpl. rewrite IH.
      destruct (forallb _ l); [|done]. f_equal.
      destruct (c <? Get other k), strict; simpl; try done.
Qed.

Lemma bothEmpty_spec a b : bothEmpty a b = true <-> a = ∅ /\ b = ∅.
Proof.
  unfold bothEmpty. rewrite andb_true_iff, !Nat.eqb_eq.
  by rewrite <- !map_size_empty_iff.
Qed.

(** The entries of [a] are all below [b] exactly when the clocks are. *)
Lemma forallb_le a b :
  wf b -> forallb (fun kv => kv.2 <=? Get b kv.1) (range_map 2 a) = true <-> le a b.
Proof.
  intros Wb. rewrite forallb_forall. unfold le. split.
  - intros Hall s. destruct (a !! s) eqn:E.
    + rewrite (Get_lookup _ _ _ E). apply Z.leb_le.
      apply (Hall (s, z)), list_elem_of_In, elem_of_range_map, E.
    + rewrite (Get_None _ _ E). apply (wf_Get b s Wb).
  - intros Hle [k c] Hin%list_elem_of_In%elem_of_range_map. simpl.
    apply Z.leb_le. rewrite <- (Get_lookup _ _ _ Hin). apply Hle.
Qed.

(** Some count grows either at a session of [a] or at a new session. *)
Lemma strict_or_new a b :
  existsb (fun kv => kv.2 <? Get b kv.1) (range_map 2 a) || hasNewSessions a b = true <->
  exists s, Get a s < Get b s.
Proof.
  unfold hasNewSessions. rewrite orb_true_iff, !existsb_exists. split.
  - intros [([k c] & Hin & Hlt)|([k c] & Hin & Hnew)];
      apply list_elem_of_In, elem_of_range_map in Hin; exists k.
    + rewrite (Get_lookup _ _ _ Hin). by apply Z.ltb_lt.
    + apply andb_true_iff in Hnew as [Hno Hc]. apply Z.ltb_lt in Hc.
      apply negb_true_iff, bool_decide_eq_false_1, eq_None_not_Some in Hno.
      simpl in *. rewrite (Get_None _ _ Hno), (Get_lookup _ _ _ Hin). done.
  - intros [s Hs]. destruct (a !! s) eqn:Ea.
    + left. exists (s, z). rewrite <- list_elem_of_In, elem_of_range_map. split; [done|].
      apply Z.ltb_lt. simpl. by rewrite <- (Get_lookup _ _ _ Ea).
    + right. destruct (b !! s) eqn:Eb.
      * exists (s, z). rewrite <- list_elem_of_In, elem_of_range_map. split; [done|].
        simpl. rewrite bool_decide_eq_false_2 by (rewrite Ea; apply is_Some_None).
        apply Z.ltb_lt. rewrite <- (Get_lookup _ _ _ Eb), <- (Get_None _ _ Ea). done.
      * rewrite (Get_None _ _ Ea), (Get_None _ _ Eb) in Hs. lia.
Qed.

Lemma HappensBefore_lt a b : wf b -> HappensBefore a b = true <-> lt a b.
Proof.
  intros Wb. unfold HappensBefore, compareEntries. rewrite compare_loop_spec.
  destruct (bothEmpty a b) eqn:E.
  - apply bothEmpty_spec in E as [-> ->]. split; [done|]. intros [_ [s Hs]].
    unfold Get in Hs. rewrite lookup_empty in Hs. simpl in Hs. lia.
  - pose proof (forallb_le a b Wb) as F. unfold lt. rewrite <- F, <- strict_or_new.
    destruct (forallb _ _); simpl; [tauto|]. split; [done|]. by intros [[=] _].
Qed.

Lemma HappensBefore_false a b : wf b -> HappensBefore a b = false <-> ~ lt a b.
Proof. intros Wb. by rewrite <- not_true_iff_false, HappensBefore_lt. Qed.

Lemma lt_irrefl a : ~ lt a a.
Proof. intros [_ [s Hs]]. lia. Qed.

Lemma lt_trans a b c : lt a b -> lt b c -> lt a c.
Proof.
  intros [L1 [s Hs]] [L2 _]. split; [|exists s].
  - intros t. specialize (L1 t). specialize (L2 t). lia.
  - specialize (L2 s). lia.
Qed.

Lemma le_lt_or_eq x y : le x y <-> lt x y \/ forall s, Get x s = Get y s.
Proof.
  split; [|intros [[L _]|E] s; [apply L|by rewrite E]].
  intros L.
  destruct (decide (Exists (fun s => Get x s < Get y s) (elements (dom x ∪ dom y)))) as [E|N].
  - left. split; [done|]. apply Exists_exists in E as (s & _ & Hs). by exists s.
  - right. intros s. specialize (L s).
    destruct (decide (s ∈ dom x ∪ dom y)) as [Hin|Hout].
    + destruct (Z_lt_ge_dec (Get x s) (Get y s)) as [Hlt|]; [|lia].
      destruct N. apply Exists_exists. exists s. by rewrite elem_of_elements.
    + rewrite not_elem_of_union, !not_elem_of_dom in Hout. destruct Hout as [Hx Hy].
      by rewrite (Get_None _ _ Hx), (Get_None _ _ Hy).
Qed.

(** Clocks without zero entries are equal as maps when their counts are. *)
Lemma positive_Get_inj a b :
  positive a -> positive b -> (forall s, Get a s = Get b s) -> a = b.
Proof.
  intros Pa Pb HE. apply map_eq. intros s. specialize (HE s). unfold Get in HE.
  destruct (a !! s) eqn:Ea, (b !! s) eqn:Eb; simpl in HE; subst; try done.
  - apply Pa in Ea. lia.
  - apply Pb in Eb. lia.
Qed.

(** [Equal] decides equality on clocks without zero entries: the sizes rule
    out a session that only [b] has. *)
Lemma Equal_spec a b : positive a -> positive b -> Equal a b = true <-> a = b.
Proof.
  intros Pa Pb. unfold Equal. split.
  - destruct (Nat.eqb_spec (size a) (size b)) as [Hsz|]; [|done]. simpl.
    rewrite forallb_forall. intros Hall.
    assert (Sub : a ⊆ b).
    { apply map_subseteq_spec. intros s c Ha.
      specialize (Hall (s, c)). rewrite <- list_elem_of_In, elem_of_range_map in Hall.
      specialize (Hall Ha). apply Z.eqb_eq in Hall. simpl in Hall. unfold Get in Hall.
      destruct (b !! s); simpl in Hall; subst; [done|]. apply Pa in Ha. lia. }
    apply map_subseteq_size_eq; [done|lia].
  - intros ->. rewrite Nat.eqb_refl. simpl. apply forallb_forall.
    intros [k c] Hin%list_elem_of_In%elem_of_range_map. simpl.
    by rewrite (Get_lookup _ _ _ Hin), Z.eqb_refl.
Qed.
End Order.

(* ------------------------------------------------------------------ *)
(** ** Correctness *)

(** For every iteration order of the maps, [HappensBefore] is the strict
    pointwise order of the counts: no count decreases and one grows.  Hence
    it is irreflexive, asymmetric and transitive. *)
Theorem happens_before_strict_order `{RangeOrder} a b c :
  wf a -> wf b -> wf c ->
  (HappensBefore a b = true <->
     (forall s, Get a s <= Get b s) /\ exists s, Get a s < Get b s) /\
  HappensBefore a a = false /\
  (HappensBefore a b = true -> HappensBefore b a = false) /\
  (HappensBefore a b = true -> HappensBefore b c = true -> HappensBefore a c = true).
Proof.
  intros Wa Wb Wc. rewrite !HappensBefore_false, !HappensBefore_lt by done.
  split; [reflexivity|]. split; [apply lt_irrefl|]. split; [|apply lt_trans].
  intros H1 H2. exact (lt_irrefl _ (lt_trans _ _ _ H1 H2)).
Qed.

(** [Compare] answers -1, 1 and 0 exactly for before, after and equal,
    and 2 exactly for incomparable clocks, on clocks without zero entries. *)
Theorem compare_correct `{RangeOrder} a b :
  wf a -> wf b -> positive a -> positive b ->
  (Compare a b = -1 <-> lt a b) /\
  (Compare a b = 1 <-> lt b a) /\
  (Compare a b = 0 <-> a = b) /\
  (Compare a b = 2 <-> ~ le a b /\ ~ le b a).
Proof.
  intros Wa Wb Pa Pb. unfold Compare.
  destruct (HappensBefore a b) eqn:Eab; [|destruct (HappensBefore b a) eqn:Eba].
  - apply HappensBefore_lt in Eab; [|done].
    pose proof (fun h => lt_irrefl _ (lt_trans _ _ _ Eab h)) as Nba.
    split; [done|]. split; [split; [done|tauto]|].
    split; [split; [done|intros ->; by apply lt_irrefl in Eab]|].
    split; [done|]. intros [N _]. destruct N. by apply le_lt_or_eq; left.
  - apply HappensBefore_lt in Eba; [|done]. apply HappensBefore_false in Eab; [|done].
    split; [split; [done|tauto]|]. split; [done|].
    split; [split; [done|intros ->; by apply lt_irrefl in Eba]|].
    split; [done|]. intros [_ N]. destruct N. by apply le_lt_or_eq; left.
  - apply HappensBefore_false in Eab, Eba; [|done..].
    pose proof (Equal_spec a b Pa Pb) as Q.
    destruct (Equal a b); (split; [split; [done|tauto]|]); (split; [split; [done|tauto]|]).
    + pose proof (proj1 Q eq_refl) as <-. split; [done|]. split; [done|].
      intros [N _]. destruct N. intros s. lia.
    + assert (Ne : a <> b) by (intros E; by apply Q in E). split; [done|]. split; [|done].
      intros _. rewrite !le_lt_or_eq. split; (intros [L|E]; [tauto|]); destruct Ne.
      * by apply positive_Get_inj.
      * symmetry. by apply positive_Get_inj.
Qed.

(** The receive step: after merging a received clock and counting the
    event, both causes happen before the result (the count of the session
    must not be at the end of its 64-bit range). *)
Theorem receive_advances `{RangeOrder} a b s :
  wf a -> wf b -> Z.max (Get a s) (Get b s) < two64 - 1 ->
  wf (Increment (Merge a b) s) /\
  HappensBefore a (Increment (Merge a b) s) = true /\
  HappensBefore b (Increment (Merge a b) s) = true.
Proof.
  intros Wa Wb Hs.
  assert (G : forall t, Get (Increment (Merge a b) s) t =
    if decide (s = t) then Z.max (Get a s) (Get b s) + 1 else Z.max (Get a t) (Get b t)).
  { intros t. rewrite Get_Increment. case_decide; rewrite Get_Merge by done; [|done].
    pose proof (wf_Get a s Wa). wrap_lia. }
  split; [auto with clock|].
  rewrite !HappensBefore_lt by auto with clock.
  assert (L : forall x, (forall t, Get x t <= Z.max (Get a t) (Get b t)) ->
    lt x (Increment (Merge a b) s)).
  { intros x Hx. split; [intros t|exists s]; rewrite G; case_decide; subst; try done.
    - specialize (Hx t). lia.
    - specialize (Hx s). lia. }
  split; apply L; intros t; lia.
Qed.

(** At the end of the 64-bit range [Increment] reverses the order: the
    incremented clock happens before the clock it was made from. *)
Theorem increment_wraps `{RangeOrder} a s :
  wf a -> Get a s = two64 - 1 ->
  Get (Increment a s) s = 0 /\ HappensBefore (Increment a s) a = true.
Proof.
  intros Wa Hs.
  assert (G : Get (Increment a s) s = 0).
  { rewrite Get_Increment. case_decide; [|done]. by rewrite Hs. }
  split; [done|]. apply HappensBefore_lt; [done|]. split; [intros t|exists s; rewrite G, Hs; done].
  destruct (decide (s = t)) as [<-|Ne]; [rewrite G, Hs; done|].
  rewrite Get_Increment. case_decide; done.
Qed.

(** Two sessions that both saw three events of a third one. *)
Definition clockA : VectorClock := <["a" := 4]> (<["c" := 3]> ∅).
Definition clockB : VectorClock := <["b" := 2]> (<["c" := 3]> ∅).

Lemma clocks_wf : wf clockA /\ wf clockB /\ positive clockA /\ positive clockB.
Proof.
  unfold wf, positive, clockA, clockB. split_and!; map_forall_now.
Qed.

Lemma happens_before_strict_order_witness :
  HappensBefore (H := range_id) clockA clockA = false.
Proof.
  destruct clocks_wf as (WA & WB & _).
  exact (proj1 (proj2 (happens_before_strict_order (H := range_id) clockA clockB clockA WA WB WA))).
Defined.

Lemma compare_correct_witness : Compare (H := range_id) clockA clockB = 2.
Proof.
  destruct clocks_wf as (WA & WB & PA & PB).
  apply (proj2 (proj2 (proj2 (compare_correct (H := range_id) clockA clockB WA WB PA PB)))).
  split; intros L; [specialize (L "a")|specialize (L "b")]; vm_compute in L; by apply L.
Defined.

Lemma receive_advances_witness :
  HappensBefore (H := range_id) clockB (Increment (H := range_id) (Merge (H := range_id) clockA clockB) "a") = true.
Proof.
  destruct clocks_wf as (WA & WB & _).
  exact (proj2 (proj2 (receive_advances (H := range_id) clockA clockB "a" WA WB eq_refl))).
Defined.

Lemma increment_wraps_witness :
  Get (Increment (H := range_id) (<["a" := two64 - 1]> ∅) "a") "a" = 0.
Proof.
  apply (increment_wraps (H := range_id) (<["a" := two64 - 1]> ∅) "a").
  - map_forall_now.
  - reflexivity.
Defined.

End VectorClock.
