(* ===== verification/Ids.v ===== *)
(** * Content-addressed identifiers (core/versioning/version_id.go)

    [VersionID], [ContentHash] and [OperationID] are arrays of 32 bytes; here
    a list of bytes, whose length is 32 for every identifier the package
    makes ([hash_wf]).  Go's [copy] into such an array fills what it can:
    [copy32] truncates a longer source and leaves zeros after a shorter one. *)

From S2P Require Import Prelude GoStd.

Definition HashSize : nat := 32.
Abbreviation VersionID := bytes.
Abbreviation ContentHash := bytes.
Abbreviation OperationID := bytes.

Definition hash_wf (h : bytes) : Prop := length h = HashSize.

Definition zero_hash : bytes := replicate HashSize x00.

Definition copy32 (src : bytes) : bytes := take HashSize (src ++ zero_hash).

Definition ComputeVersionID (content metadata : bytes) : VersionID :=
  copy32 (sha256 (content ++ metadata)).

Definition ComputeContentHash (content : bytes) : ContentHash := sha256 content.

(** [VersionID.String], [ContentHash.String] *)
Definition hash_String (v : bytes) : string := Hex.encode_to_string v.

(** [VersionID.Short], [ContentHash.Short] *)
Definition hash_Short (v : bytes) : string := Hex.encode_to_string (take 4 v).

(** [VersionID.IsZero], [ContentHash.IsZero], [OperationID.IsZero] *)
Definition hash_IsZero (v : bytes) : bool := forallb (fun b => Byte.eqb b x00) v.

(** [VersionID.Bytes], [ContentHash.Bytes] *)
Definition hash_Bytes (v : bytes) : bytes := copy32 v.

Definition ParseVersionID (s : string) : result Hex.hex_error VersionID :=
  match Hex.decode_string s with
  | Err e => Err e
  | Ok bs => Ok (copy32 bs)
  end.

Definition ParseContentHash (s : string) : result Hex.hex_error ContentHash :=
  match Hex.decode_string s with
  | Err e => Err e
  | Ok bs => Ok (copy32 bs)
  end.

(** [VersionID.Equal], [ContentHash.Equal] *)
Definition hash_Equal (v other : bytes) : bool := bool_decide (v = other).

Lemma copy32_wf src : hash_wf (copy32 src).
Proof.
  unfold hash_wf, copy32, zero_hash. rewrite length_take, length_app, length_replicate.
  unfold HashSize. lia.
Qed.

Lemma copy32_id h : hash_wf h -> copy32 h = h.
Proof. intros W. red in W. unfold copy32. by rewrite take_app_le, take_ge by lia. Qed.

Lemma sha256_wf m : hash_wf (sha256 m).
Proof. apply Sha256.sum256_length. Qed.

Lemma zero_hash_wf : hash_wf zero_hash.
Proof. reflexivity. Qed.

Lemma ComputeVersionID_eq content metadata :
  ComputeVersionID content metadata = sha256 (content ++ metadata).
Proof. apply copy32_id, sha256_wf. Qed.

Lemma hash_IsZero_spec h : hash_wf h -> hash_IsZero h = true <-> h = zero_hash.
Proof.
  intros W. unfold hash_IsZero. rewrite forallb_forall. split.
  - intros Hall. apply (list_eq_same_length _ _ HashSize); [done|done|].
    intros i x y _ Hx Hy. apply lookup_replicate_1 in Hy as [-> _].
    apply Byte.byte_dec_bl, Hall, list_elem_of_In, list_elem_of_lookup. eauto.
  - intros -> b Hin%list_elem_of_In%elem_of_replicate. destruct Hin as [-> _]. done.
Qed.

#[export] Hint Resolve copy32_wf sha256_wf zero_hash_wf : core.

(** Printing an identifier and parsing it back gives the identifier, for
    version ids and content hashes alike, and two identifiers that print the
    same are the same. *)
Theorem parse_print_id h :
  hash_wf h ->
  ParseVersionID (hash_String h) = Ok h /\
  ParseContentHash (hash_String h) = Ok h /\
  (forall h', hash_wf h' -> hash_String h' = hash_String h -> h' = h).
Proof.
  intros W. unfold ParseVersionID, ParseContentHash, hash_String.
  rewrite Hex.decode_encode, copy32_id by done. split_and!; [done..|].
  intros h' W' E. pose proof (Hex.decode_encode h') as D.
  rewrite E, Hex.decode_encode in D. congruence.
Qed.

Lemma parse_print_id_witness :
  ParseVersionID (hash_String (sha256 (str_bytes "abc"))) = Ok (sha256 (str_bytes "abc")).
Proof. apply (parse_print_id (sha256 (str_bytes "abc"))). apply sha256_wf. Defined.
