(* ===== verification/Target.v ===== *)
(** * Edit targets (core/versioning/target.go)

    A target names the part of a file an operation edits: a path of syntax
    nodes, a range of byte offsets or a range of lines; unused fields are
    zero.  [int] fields are 64-bit ([i64] after every operation). *)

From S2P Require Import Prelude.

Record Target := mkTarget {
  NodePath : list string;
  NodeType : string;
  NodeID : string;
  StartOffset : Z;
  EndOffset : Z;
  StartLine : Z;
  EndLine : Z;
  Language : string
}.

Module Target.

Definition NewASTTarget (nodePath : list string) (nodeType nodeID language : string) : Target :=
  mkTarget nodePath nodeType nodeID 0 0 0 0 language.
Definition NewOffsetTarget (startOffset endOffset : Z) : Target :=
  mkTarget [] "" "" startOffset endOffset 0 0 "".
Definition NewLineTarget (startLine endLine : Z) : Target :=
  mkTarget [] "" "" 0 0 startLine endLine "".

Definition IsAST (t : Target) : bool := 0 <? len (NodePath t).
Definition IsOffset (t : Target) : bool :=
  negb (IsAST t) && ((0 <? StartOffset t) || (0 <? EndOffset t)).
Definition IsLine (t : Target) : bool :=
  negb (IsAST t) && negb (IsOffset t) && ((0 <? StartLine t) || (0 <? EndLine t)).
Definition IsEmpty (t : Target) : bool :=
  negb (IsAST t) && negb (IsOffset t) && negb (IsLine t).

Definition Clone (t : Target) : Target :=
  mkTarget (NodePath t) (NodeType t) (NodeID t) (StartOffset t) (EndOffset t)
    (StartLine t) (EndLine t) (Language t).

(** The loop over the common length of two node paths. *)
Fixpoint nodePathOverlaps (a b : list string) : bool :=
  match a, b with
  | x :: a, y :: b => if negb (String.eqb x y) then false else nodePathOverlaps a b
  | _, _ => true
  end.

Fixpoint isPrefix (prefix path : list string) : bool :=
  match prefix, path with
  | [], _ => true
  | _ :: _, [] => false
  | p :: prefix, q :: path => if negb (String.eqb q p) then false else isPrefix prefix path
  end.

Fixpoint stringSliceEqual (a b : list string) : bool :=
  match a, b with
  | [], [] => true
  | x :: a, y :: b => if negb (String.eqb x y) then false else stringSliceEqual a b
  | _, _ => false
  end.

Definition overlapsAST (t other : Target) : bool :=
  IsAST t && IsAST other && nodePathOverlaps (NodePath t) (NodePath other).
Definition overlapsOffset (t other : Target) : bool :=
  IsOffset t && IsOffset other &&
  (StartOffset t <? EndOffset other) && (StartOffset other <? EndOffset t).
Definition overlapsLine (t other : Target) : bool :=
  IsLine t && IsLine other &&
  (StartLine t <=? EndLine other) && (StartLine other <=? EndLine t).
Definition Overlaps (t other : Target) : bool :=
  overlapsAST t other || overlapsOffset t other || overlapsLine t other.

Definition containsAST (t other : Target) : bool :=
  IsAST t && IsAST other && isPrefix (NodePath t) (NodePath other).
Definition containsOffset (t other : Target) : bool :=
  IsOffset t && IsOffset other &&
  (StartOffset t <=? StartOffset other) && (EndOffset other <=? EndOffset t).
Definition containsLine (t other : Target) : bool :=
  IsLine t && IsLine other &&
  (StartLine t <=? StartLine other) && (EndLine other <=? EndLine t).
Definition Contains (t other : Target) : bool :=
  containsAST t other || containsOffset t other || containsLine t other.

Definition astFieldsMatch (t other : Target) : bool :=
  stringSliceEqual (NodePath t) (NodePath other) &&
  String.eqb (NodeType t) (NodeType other) && String.eqb (NodeID t) (NodeID other).
Definition equalAST (t other : Target) : bool :=
  IsAST t && IsAST other && astFieldsMatch t other.
Definition equalOffset (t other : Target) : bool :=
  IsOffset t && IsOffset other &&
  (StartOffset t =? StartOffset other) && (EndOffset t =? EndOffset other).
Definition equalLine (t other : Target) : bool :=
  IsLine t && IsLine other &&
  (StartLine t =? StartLine other) && (EndLine t =? EndLine other).
Definition equalEmpty (t other : Target) : bool := IsEmpty t && IsEmpty other.
Definition Equal (t other : Target) : bool :=
  equalAST t other || equalOffset t other || equalLine t other || equalEmpty t other.

Definition WithLines (t : Target) (startLine endLine : Z) : Target :=
  let r := Clone t in
  mkTarget (NodePath r) (NodeType r) (NodeID r) (StartOffset r) (EndOffset r)
    startLine endLine (Language r).
Definition WithOffsets (t : Target) (startOffset endOffset : Z) : Target :=
  let r := Clone t in
  mkTarget (NodePath r) (NodeType r) (NodeID r) startOffset endOffset
    (StartLine r) (EndLine r) (Language r).

Definition Size (t : Target) : Z :=
  if IsOffset t then i64 (EndOffset t - StartOffset t)
  else if IsLine t then i64 (EndLine t - StartLine t + 1)
  else 0.

(** A target has exactly one of the four kinds. *)
Inductive Kind := KAST | KOffset | KLine | KEmpty.
Definition kind (t : Target) : Kind :=
  if IsAST t then KAST else if IsOffset t then KOffset else if IsLine t then KLine else KEmpty.

#[export] Instance Kind_eq_dec : EqDecision Kind.
Proof. solve_decision. Defined.

Lemma kind_spec t :
  IsAST t = bool_decide (kind t = KAST) /\ IsOffset t = bool_decide (kind t = KOffset) /\
  IsLine t = bool_decide (kind t = KLine) /\ IsEmpty t = bool_decide (kind t = KEmpty).
Proof.
  unfold kind, IsEmpty, IsLine, IsOffset.
  destruct (IsAST t), (_ || _), (_ || _); repeat split.
Qed.

(** A valid range of each kind: offsets and lines do not run backwards. *)
Definition wf (t : Target) : Prop :=
  0 <= StartOffset t <= EndOffset t /\ 0 <= StartLine t <= EndLine t.

Lemma nodePathOverlaps_sym a b : nodePathOverlaps a b = nodePathOverlaps b a.
Proof.
  revert b. induction a as [|x a IH]; intros [|y b]; simpl; try done.
  rewrite (String.eqb_sym y x). by rewrite IH.
Qed.

Lemma isPrefix_spec p q : isPrefix p q = true <-> p `prefix_of` q.
Proof.
  revert q. induction p as [|x p IH]; intros [|y q]; simpl.
  - split; [intros _; apply prefix_nil|done].
  - split; [intros _; apply prefix_nil|done].
  - split; [done|]. intros H. by apply prefix_nil_not in H.
  - destruct (String.eqb_spec y x) as [->|N]; simpl.
    + rewrite IH. split; [apply prefix_cons|apply prefix_cons_inv_2].
    + split; [done|]. intros H. by apply prefix_cons_inv_1 in H.
Qed.

Lemma stringSliceEqual_spec a b : stringSliceEqual a b = true <-> a = b.
Proof.
  revert b. induction a as [|x a IH]; intros [|y b]; simpl; try done.
  destruct (String.eqb_spec x y) as [->|N]; simpl; [rewrite IH|]; naive_solver.
Qed.

(** Two node paths overlap when one is a prefix of the other. *)
Lemma nodePathOverlaps_spec a b :
  nodePathOverlaps a b = true <-> a `prefix_of` b \/ b `prefix_of` a.
Proof.
  revert b. induction a as [|x a IH]; intros [|y b]; simpl;
    try (split; [intros _; auto using prefix_nil|done]).
  destruct (String.eqb_spec x y) as [->|N]; simpl.
  - rewrite IH. split; (intros [H|H]; [left|right]);
      (by apply prefix_cons) || (by apply prefix_cons_inv_2 in H).
  - split; [done|]. intros [H|H]; apply prefix_cons_inv_1 in H; by subst.
Qed.

Lemma WithOffsets_kind t a b :
  IsAST (WithOffsets t a b) = IsAST t /\
  StartOffset (WithOffsets t a b) = a /\ EndOffset (WithOffsets t a b) = b.
Proof. done. Qed.

End Target.
