(* ===== verification/Operation.v ===== *)
(** * Operations (core/versioning/operation.go)

    A slice is a list (nil and the empty slice behave alike in this file), a
    [time.Time] is its nanoseconds since 1970, and [time.Now] is an argument. *)

From S2P Require Import Prelude GoStd Ids.
From S2P Require Export VectorClock Target.

Inductive OpType := OpInsert | OpDelete | OpReplace | OpMove.

#[export] Instance OpType_eq_dec : EqDecision OpType.
Proof. solve_decision. Defined.

Record Operation := mkOperation {
  ID : OperationID;
  BaseVersion : VersionID;
  FilePath : string;
  OpTarget : Target;
  Type_ : OpType;
  Content : bytes;
  OldContent : bytes;
  PipelineID : string;
  SessionID_ : SessionID;
  AgentID : string;
  AgentRole : string;
  Clock : VectorClock;
  Timestamp : Z
}.

Module Operation.
Section Ops.
Context `{RangeOrder}.

Definition OpType_String (o : OpType) : string :=
  match o with
  | OpInsert => "insert" | OpDelete => "delete" | OpReplace => "replace" | OpMove => "move"
  end.

(** The [iota] value of the constant. *)
Definition OpType_int (o : OpType) : Z :=
  match o with OpInsert => 0 | OpDelete => 1 | OpReplace => 2 | OpMove => 3 end.

Definition writeInt (v : Z) : bytes := be_encode 8 (u64 v).
Definition writeTime (t : Z) : bytes := be_encode 8 (u64 t).

Definition cloneBytes (b : bytes) : bytes := b.

(** The bytes fed to the hash, in the order of the calls to [Write]. *)
Definition idInput (o : Operation) : bytes :=
  BaseVersion o ++ str_bytes (FilePath o) ++ writeInt (OpType_int (Type_ o)) ++ Content o ++
  str_bytes (PipelineID o) ++ str_bytes (SessionID_ o) ++ writeTime (Timestamp o).

Definition computeID (o : Operation) : OperationID := copy32 (sha256 (idInput o)).

Definition withID (o : Operation) (id : OperationID) : Operation :=
  mkOperation id (BaseVersion o) (FilePath o) (OpTarget o) (Type_ o) (Content o) (OldContent o)
    (PipelineID o) (SessionID_ o) (AgentID o) (AgentRole o) (Clock o) (Timestamp o).

Definition NewOperation (baseVersion : VersionID) (filePath : string) (target : Target)
    (opType : OpType) (content oldContent : bytes) (pipelineID : string) (sessionID : SessionID)
    (agentID : string) (clock : VectorClock) (now : Z) : Operation :=
  let op := mkOperation zero_hash baseVersion filePath target opType (cloneBytes content)
    (cloneBytes oldContent) pipelineID sessionID agentID "" (VectorClock.Clone clock) now in
  withID op (computeID op).

Definition invertOpType (t : OpType) : OpType :=
  match t with OpInsert => OpDelete | OpDelete => OpInsert | t => t end.

Definition Invert (o : Operation) (now : Z) : Operation :=
  let inverted := mkOperation (ID o) (BaseVersion o) (FilePath o) (OpTarget o)
    (invertOpType (Type_ o)) (OldContent o) (Content o) (PipelineID o) (SessionID_ o)
    (AgentID o) (AgentRole o) (Clock o) now in
  withID inverted (computeID inverted).

(** [encodeHex], with the table lookups of the source. *)
Definition hextable (v : Z) : ascii :=
  match String.get (Z.to_nat v) "0123456789abcdef" with Some c => c | None => zero end.
Fixpoint encodeHex (b : bytes) : string :=
  match b with
  | [] => EmptyString
  | v :: b =>
    String (hextable (Z.shiftr (byte_to_Z v) 4))
      (String (hextable (Z.land (byte_to_Z v) 15)) (encodeHex b))
  end.

Definition OperationID_String (o : OperationID) : string := encodeHex o.
Definition OperationID_Short (o : OperationID) : string := encodeHex (take 4 o).

Definition Clone (o : Operation) : Operation :=
  mkOperation (ID o) (BaseVersion o) (FilePath o) (Target.Clone (OpTarget o)) (Type_ o)
    (cloneBytes (Content o)) (cloneBytes (OldContent o)) (PipelineID o) (SessionID_ o)
    (AgentID o) (AgentRole o) (VectorClock.Clone (Clock o)) (Timestamp o).

Definition Size (o : Operation) : Z := i64 (len (Content o) + len (OldContent o)).

Definition IsEmpty (o : Operation) : bool :=
  (len (Content o) =? 0) && negb (bool_decide (Type_ o = OpDelete)).

(** [result.Target = t] *)
Definition setTarget (o : Operation) (t : Target) : Operation :=
  mkOperation (ID o) (BaseVersion o) (FilePath o) t (Type_ o) (Content o) (OldContent o)
    (PipelineID o) (SessionID_ o) (AgentID o) (AgentRole o) (Clock o) (Timestamp o).
(** [result.Content = c; result.OldContent = d] *)
Definition setContents (o : Operation) (c d : bytes) : Operation :=
  mkOperation (ID o) (BaseVersion o) (FilePath o) (OpTarget o) (Type_ o) c d
    (PipelineID o) (SessionID_ o) (AgentID o) (AgentRole o) (Clock o) (Timestamp o).

Lemma op_clone_eq o : Clone o = o.
Proof. destruct o as [? ? ? []]. unfold Clone. simpl. by rewrite VectorClock.clock_clone_eq. Qed.

Lemma encodeHex_eq b : encodeHex b = Hex.encode_to_string b.
Proof. induction b as [|v b IH]; [done|]. simpl. by rewrite IH. Qed.
End Ops.
End Operation.
