(* ===== verification/OT.v ===== *)
(** * The operational-transformation engine (core/versioning/ot.go)

    [DefaultOTEngine] has no state.  A [*Operation] is an [option]; the
    errors are the package's error values, with the conflict inside
    [ConflictError]. *)

From S2P Require Import Prelude Ids.
From S2P Require Export Operation.

Inductive ConflictType :=
| ConflictTypeOverlappingEdit
| ConflictTypeDeleteEdit
| ConflictTypeMoveEdit
| ConflictTypeSemanticConflict.

#[export] Instance ConflictType_eq_dec : EqDecision ConflictType.
Proof. solve_decision. Defined.

Record Resolution := mkResolution {
  Label : string;
  RDescription : string;
  ResultOp : option Operation
}.

Record Conflict := mkConflict {
  Op1 : Operation;
  Op2 : Operation;
  CType : ConflictType;
  Description : string;
  Resolutions : list Resolution
}.

Inductive ot_error :=
| ErrNilOperation
| ErrIncompatibleOps
| ErrCompositionFailed
| ConflictError (c : Conflict).

Module OT.
Section Engine.
Context `{RangeOrder}.
Import Operation.

Definition ConflictType_String (ct : ConflictType) : string :=
  match ct with
  | ConflictTypeOverlappingEdit => "overlapping_edit"
  | ConflictTypeDeleteEdit => "delete_edit"
  | ConflictTypeMoveEdit => "move_edit"
  | ConflictTypeSemanticConflict => "semantic_conflict"
  end.

Definition is_type (o : Operation) (t : OpType) : bool := bool_decide (Type_ o = t).

Definition insertsAtSamePoint (op1 op2 : Operation) : bool :=
  let bothInserts := is_type op1 OpInsert && is_type op2 OpInsert in
  let sameOffset := StartOffset (OpTarget op1) =? StartOffset (OpTarget op2) in
  bothInserts && sameOffset.

Definition targetsOverlap (op1 op2 : Operation) : bool :=
  if Target.Overlaps (OpTarget op1) (OpTarget op2) then true
  else insertsAtSamePoint op1 op2.

Definition computeDelta (op : Operation) : Z :=
  match Type_ op with
  | OpInsert => len (Content op)
  | OpDelete => i64 (- i64 (EndOffset (OpTarget op) - StartOffset (OpTarget op)))
  | _ => i64 (len (Content op) - len (OldContent op))
  end.

Definition adjustOffsetTarget (target : Target) (against : Operation) : Target :=
  let delta := computeDelta against in
  if EndOffset (OpTarget against) <=? StartOffset target then
    Target.WithOffsets target (i64 (StartOffset target + delta)) (i64 (EndOffset target + delta))
  else target.

Definition adjustTarget (target : Target) (against : Operation) : Target :=
  if negb (Target.IsOffset target) || negb (Target.IsOffset (OpTarget against)) then target
  else adjustOffsetTarget target against.

Definition transformNonOverlapping (op1 op2 : Operation) : result ot_error Operation :=
  let result := Clone op1 in
  Ok (setTarget result (adjustTarget (OpTarget op1) op2)).

Definition transformInsertInsert (op1 op2 : Operation) : result ot_error Operation :=
  let result := Clone op1 in
  let s1 := StartOffset (OpTarget op1) in
  let s2 := StartOffset (OpTarget op2) in
  if s1 <? s2 then Ok result
  else if (s1 =? s2) && String.ltb (PipelineID op1) (PipelineID op2) then Ok result
  else Ok (setTarget result (Target.WithOffsets (OpTarget result)
    (i64 (s1 + len (Content op2))) (i64 (EndOffset (OpTarget op1) + len (Content op2))))).

Definition transformInsertDelete (op1 op2 : Operation) : result ot_error Operation :=
  let result := Clone op1 in
  let deleteStart := StartOffset (OpTarget op2) in
  let deleteEnd := EndOffset (OpTarget op2) in
  let insertPos := StartOffset (OpTarget op1) in
  if insertPos <=? deleteStart then Ok result
  else if deleteEnd <=? insertPos then
    let delta := i64 (deleteEnd - deleteStart) in
    Ok (setTarget result (Target.WithOffsets (OpTarget result)
      (i64 (insertPos - delta)) (i64 (insertPos - delta))))
  else Ok (setTarget result (Target.WithOffsets (OpTarget result) deleteStart deleteStart)).

Definition transformDeleteInsert (op1 op2 : Operation) : result ot_error Operation :=
  let result := Clone op1 in
  let insertPos := StartOffset (OpTarget op2) in
  let insertLen := len (Content op2) in
  let deleteStart := StartOffset (OpTarget op1) in
  let deleteEnd := EndOffset (OpTarget op1) in
  if deleteEnd <=? insertPos then Ok result
  else if insertPos <=? deleteStart then
    Ok (setTarget result (Target.WithOffsets (OpTarget result)
      (i64 (deleteStart + insertLen)) (i64 (deleteEnd + insertLen))))
  else Ok (setTarget result (Target.WithOffsets (OpTarget result)
    deleteStart (i64 (deleteEnd + insertLen)))).

Definition computeRemainingRange (s1 e1 s2 e2 : Z) : Z * Z :=
  if (s1 <? s2) && (e2 <? e1) then (s1, i64 (e1 - i64 (e2 - s2)))
  else if s1 <? s2 then (s1, s2)
  else (s2, i64 (e1 - i64 (e2 - s1))).

Definition handleOverlappingDeletes (op1 : Operation) (s1 e1 s2 e2 : Z)
  : result ot_error Operation :=
  let result := Clone op1 in
  if (s2 <=? s1) && (e1 <=? e2) then
    Ok (setContents (setTarget result (Target.WithOffsets (OpTarget result) s2 s2)) [] [])
  else
    let '(newStart, newEnd) := computeRemainingRange s1 e1 s2 e2 in
    Ok (setTarget result (Target.WithOffsets (OpTarget result) newStart newEnd)).

Definition transformDeleteDelete (op1 op2 : Operation) : result ot_error Operation :=
  let result := Clone op1 in
  let s1 := StartOffset (OpTarget op1) in let e1 := EndOffset (OpTarget op1) in
  let s2 := StartOffset (OpTarget op2) in let e2 := EndOffset (OpTarget op2) in
  if e1 <=? s2 then Ok result
  else if e2 <=? s1 then
    let delta := i64 (e2 - s2) in
    Ok (setTarget result (Target.WithOffsets (OpTarget result) (i64 (s1 - delta)) (i64 (e1 - delta))))
  else handleOverlappingDeletes op1 s1 e1 s2 e2.

Definition isDeleteEdit (op1 op2 : Operation) : bool :=
  (is_type op1 OpDelete && negb (is_type op2 OpDelete)) ||
  (is_type op2 OpDelete && negb (is_type op1 OpDelete)).

Definition isMoveEdit (op1 op2 : Operation) : bool :=
  (is_type op1 OpMove && negb (is_type op2 OpMove)) ||
  (is_type op2 OpMove && negb (is_type op1 OpMove)).

Definition sameASTNode (op1 op2 : Operation) : bool :=
  String.eqb (NodeID (OpTarget op1)) (NodeID (OpTarget op2)) &&
  negb (String.eqb (NodeID (OpTarget op1)) "").

Definition isSemanticConflict (op1 op2 : Operation) : bool :=
  Target.IsAST (OpTarget op1) && Target.IsAST (OpTarget op2) && sameASTNode op1 op2.

Definition isOverlappingEdit (op1 op2 : Operation) : bool :=
  (is_type op1 OpReplace || is_type op1 OpInsert) &&
  (is_type op2 OpReplace || is_type op2 OpInsert).

(** [None] is the source's [ConflictType(-1)]. *)
Definition classifyConflict (op1 op2 : Operation) : option ConflictType :=
  if isDeleteEdit op1 op2 then Some ConflictTypeDeleteEdit
  else if isMoveEdit op1 op2 then Some ConflictTypeMoveEdit
  else if isSemanticConflict op1 op2 then Some ConflictTypeSemanticConflict
  else if isOverlappingEdit op1 op2 then Some ConflictTypeOverlappingEdit
  else None.

Definition buildDescription (ctype : ConflictType) : string :=
  match ctype with
  | ConflictTypeOverlappingEdit => "Both operations edit overlapping regions"
  | ConflictTypeDeleteEdit => "One operation deletes content that another edits"
  | ConflictTypeMoveEdit => "One operation moves content that another edits"
  | ConflictTypeSemanticConflict => "Operations conflict at AST level"
  end.

Definition buildResolutions (op1 op2 : Operation) : list Resolution :=
  [mkResolution "Keep op1" "Apply first operation only" (Some op1);
   mkResolution "Keep op2" "Apply second operation only" (Some op2);
   mkResolution "Keep both" "Apply both operations sequentially" None].

Definition buildConflict (op1 op2 : Operation) (ctype : ConflictType) : Conflict :=
  mkConflict op1 op2 ctype (buildDescription ctype) (buildResolutions op1 op2).

Definition detectConflictType (op1 op2 : Operation) : option Conflict :=
  match classifyConflict op1 op2 with
  | None => None
  | Some ctype => Some (buildConflict op1 op2 ctype)
  end.

Definition DetectConflict (op1 op2 : option Operation) : option Conflict :=
  match op1, op2 with
  | Some op1, Some op2 =>
    if negb (targetsOverlap op1 op2) then None else detectConflictType op1 op2
  | _, _ => None
  end.

Definition transformReplaceReplace (op1 op2 : Operation) : result ot_error Operation :=
  match DetectConflict (Some op1) (Some op2) with
  | Some conflict => Err (ConflictError conflict)
  | None =>
    let result := Clone op1 in
    let delta := i64 (len (Content op2) - len (OldContent op2)) in
    if EndOffset (OpTarget op2) <=? StartOffset (OpTarget op1) then
      Ok (setTarget result (Target.WithOffsets (OpTarget result)
        (i64 (StartOffset (OpTarget op1) + delta)) (i64 (EndOffset (OpTarget op1) + delta))))
    else Ok result
  end.

Definition transformOverlapping (op1 op2 : Operation) : result ot_error Operation :=
  match Type_ op1, Type_ op2 with
  | OpInsert, OpInsert => transformInsertInsert op1 op2
  | OpInsert, OpDelete => transformInsertDelete op1 op2
  | OpDelete, OpInsert => transformDeleteInsert op1 op2
  | OpDelete, OpDelete => transformDeleteDelete op1 op2
  | _, _ => transformReplaceReplace op1 op2
  end.

Definition Transform (op1 op2 : option Operation) : result ot_error Operation :=
  match op1, op2 with
  | Some op1, Some op2 =>
    if negb (targetsOverlap op1 op2) then transformNonOverlapping op1 op2
    else transformOverlapping op1 op2
  | _, _ => Err ErrNilOperation
  end.

(** [transformAgainstBatch] returns its argument, nil or not, when the batch
    is empty. *)
Fixpoint transformAgainstBatch (current : option Operation) (against : list (option Operation))
  : result ot_error (option Operation) :=
  match against with
  | [] => Ok current
  | op2 :: against =>
    match Transform current op2 with
    | Err e => Err e
    | Ok transformed => transformAgainstBatch (Some transformed) against
    end
  end.

Fixpoint TransformBatch (ops1 ops2 : list (option Operation))
  : result ot_error (list (option Operation)) :=
  match ops1 with
  | [] => Ok []
  | op1 :: ops1 =>
    match transformAgainstBatch op1 ops2 with
    | Err e => Err e
    | Ok transformed =>
      match TransformBatch ops1 ops2 with
      | Err e => Err e
      | Ok rest => Ok (transformed :: rest)
      end
    end
  end.

Definition areAdjacent (t1 t2 : Target) : bool :=
  (EndOffset t1 =? StartOffset t2) || (EndOffset t2 =? StartOffset t1).

Definition composeInserts (op1 op2 : Operation) : result ot_error Operation :=
  if negb (areAdjacent (OpTarget op1) (OpTarget op2)) then Err ErrCompositionFailed
  else
    let result := Clone op1 in
    Ok (setTarget (setContents result (Content result ++ Content op2) (OldContent result))
      (Target.WithOffsets (OpTarget result) (StartOffset (OpTarget op1))
        (i64 (EndOffset (OpTarget op1) + len (Content op2))))).

Definition composeDeletes (op1 op2 : Operation) : result ot_error Operation :=
  if negb (areAdjacent (OpTarget op1) (OpTarget op2)) then Err ErrCompositionFailed
  else
    let result := Clone op1 in
    let newEnd := Z.max (EndOffset (OpTarget op1)) (EndOffset (OpTarget op2)) in
    let newStart := Z.min (StartOffset (OpTarget op1)) (StartOffset (OpTarget op2)) in
    Ok (setTarget (setContents result (Content result) (OldContent result ++ OldContent op2))
      (Target.WithOffsets (OpTarget result) newStart newEnd)).

Definition composeOperations (op1 op2 : Operation) : result ot_error Operation :=
  if is_type op1 OpInsert && is_type op2 OpInsert then composeInserts op1 op2
  else if is_type op1 OpDelete && is_type op2 OpDelete then composeDeletes op1 op2
  else Err ErrCompositionFailed.

Definition Compose (op1 op2 : option Operation) : result ot_error Operation :=
  match op1, op2 with
  | Some op1, Some op2 =>
    if negb (String.eqb (FilePath op1) (FilePath op2)) then Err ErrIncompatibleOps
    else composeOperations op1 op2
  | _, _ => Err ErrNilOperation
  end.

Definition canAutoMergeOverlapping (op1 op2 : Operation) : bool :=
  if is_type op1 OpInsert && is_type op2 OpInsert then true
  else if is_type op1 OpDelete && is_type op2 OpDelete then true
  else false.

Definition CanMergeAutomatically (op1 op2 : option Operation) : bool :=
  match op1, op2 with
  | Some op1, Some op2 =>
    if negb (targetsOverlap op1 op2) then true else canAutoMergeOverlapping op1 op2
  | _, _ => false
  end.
End Engine.
End OT.
