(* ===== verification/OTConflicts.v ===== *)
(** * When the transformation engine refuses (core/versioning/ot.go)

    Conflicts do not depend on the order of the two operations, an error of
    [Transform] is exactly a detected conflict that involves a replacement or
    a move, and what [CanMergeAutomatically] accepts is transformed. *)

From Stdlib Require Import Btauto.
From S2P Require Import Prelude Ids OT.
Import OT.

Lemma nodePathOverlaps_comm a b :
  Target.nodePathOverlaps a b = Target.nodePathOverlaps b a.
Proof. apply eq_bool_prop_intro. rewrite !Is_true_true, !Target.nodePathOverlaps_spec. tauto. Qed.

Lemma Overlaps_comm t u : Target.Overlaps t u = Target.Overlaps u t.
Proof.
  unfold Target.Overlaps, Target.overlapsAST, Target.overlapsOffset, Target.overlapsLine.
  rewrite nodePathOverlaps_comm.
  btauto.
Qed.

Section Conflicts.
Context `{RangeOrder}.

Lemma targetsOverlap_comm a b : targetsOverlap a b = targetsOverlap b a.
Proof.
  unfold targetsOverlap, insertsAtSamePoint. rewrite Overlaps_comm, Z.eqb_sym.
  by rewrite (andb_comm (is_type a _)).
Qed.

Lemma sameASTNode_comm a b : sameASTNode a b = sameASTNode b a.
Proof.
  unfold sameASTNode. rewrite String.eqb_sym.
  destruct (String.eqb_spec (NodeID (OpTarget b)) (NodeID (OpTarget a))) as [->|]; done.
Qed.

Lemma classifyConflict_comm a b : classifyConflict a b = classifyConflict b a.
Proof.
  unfold classifyConflict, isDeleteEdit, isMoveEdit, isSemanticConflict, isOverlappingEdit.
  rewrite sameASTNode_comm, (andb_comm (Target.IsAST (OpTarget a))).
  rewrite (orb_comm (is_type a OpDelete && _)), (orb_comm (is_type a OpMove && _)).
  by rewrite (andb_comm (is_type a OpReplace || _)).
Qed.

(** Two operations the source handles without looking for a conflict. *)
Definition splices (a b : Operation) : bool :=
  (is_type a OpInsert || is_type a OpDelete) && (is_type b OpInsert || is_type b OpDelete).

Lemma transformOverlapping_splices a b :
  splices a b = true -> is_ok (transformOverlapping a b) = true.
Proof.
  unfold splices, is_type, transformOverlapping, transformInsertInsert, transformInsertDelete,
    transformDeleteInsert, transformDeleteDelete, handleOverlappingDeletes.
  destruct (Type_ a), (Type_ b); simpl; try done; intros _;
    repeat case_match; done.
Qed.

Lemma transformOverlapping_other a b :
  splices a b = false -> transformOverlapping a b = transformReplaceReplace a b.
Proof.
  unfold splices, is_type, transformOverlapping. by destruct (Type_ a), (Type_ b).
Qed.

Lemma CanMergeAutomatically_comm a b : CanMergeAutomatically a b = CanMergeAutomatically b a.
Proof.
  destruct a as [a|], b as [b|]; try done. unfold CanMergeAutomatically, canAutoMergeOverlapping.
  by rewrite targetsOverlap_comm, (andb_comm (is_type a OpInsert)), (andb_comm (is_type a OpDelete)).
Qed.

(** The verdict on two operations does not depend on their order: both
    orders find a conflict of the same type, or neither does, and both or
    neither can be merged automatically. *)
Theorem conflicts_symmetric a b :
  CType <$> DetectConflict a b = CType <$> DetectConflict b a /\
  CanMergeAutomatically a b = CanMergeAutomatically b a.
Proof.
  split; [|apply CanMergeAutomatically_comm].
  destruct a as [a|], b as [b|]; try done. unfold DetectConflict, detectConflictType.
  rewrite targetsOverlap_comm, classifyConflict_comm. by repeat case_match.
Qed.

(** [Transform] of two operations fails exactly when one of them is a
    replacement or a move and [DetectConflict] reports a conflict; the
    error carries that conflict. *)
Theorem transform_error_iff_conflict a b e :
  Transform (Some a) (Some b) = Err e <->
  splices a b = false /\
  exists c, e = ConflictError c /\ DetectConflict (Some a) (Some b) = Some c.
Proof.
  unfold Transform, DetectConflict. destruct (targetsOverlap a b) eqn:O; simpl.
  - destruct (splices a b) eqn:S.
    + pose proof (transformOverlapping_splices a b S) as Y.
      destruct (transformOverlapping a b); [|done]. split; [done|intros [? _]; done].
    + rewrite transformOverlapping_other by done. unfold transformReplaceReplace, DetectConflict.
      rewrite O. simpl. destruct (detectConflictType a b) as [c|]; simpl.
      * split; [intros [= <-]; eauto|]. by intros (_ & c' & -> & [= <-]).
      * split; [by case_match|]. by intros (_ & c' & -> & ?).
  - split; [done|]. by intros (_ & c' & -> & ?).
Qed.

(** Operations that can be merged automatically are transformed past each
    other in both orders without an error. *)
Theorem automatic_merge_transforms a b :
  CanMergeAutomatically a b = true ->
  is_ok (Transform a b) = true /\ is_ok (Transform b a) = true.
Proof.
  assert (K : forall a b, CanMergeAutomatically a b = true -> is_ok (Transform a b) = true).
  { intros [x|] [y|]; try done. unfold CanMergeAutomatically, Transform.
    destruct (targetsOverlap x y); [simpl|done]. intros C.
    apply transformOverlapping_splices. revert C.
    unfold canAutoMergeOverlapping, splices, is_type. by destruct (Type_ x), (Type_ y). }
  intros C. split; apply K; [done|]. by rewrite CanMergeAutomatically_comm.
Qed.
End Conflicts.

(** Two deletions that overlap. *)
Definition deletion (s e : Z) (pid : string) : option Operation :=
  Some (Operation.NewOperation (H := range_id) zero_hash "f" (Target.NewOffsetTarget s e) OpDelete
    [] [] pid "" "" ∅ 0).

Lemma automatic_merge_transforms_witness :
  is_ok (Transform (H := range_id) (deletion 2 6 "p") (deletion 4 8 "q")) = true.
Proof.
  apply (automatic_merge_transforms (H := range_id) (deletion 2 6 "p") (deletion 4 8 "q")).
  vm_compute. reflexivity.
Defined.
