(* ===== verification/MergePrecise.v ===== *)
(** * Merging file changes by precise operations
      (core/versioning/merge_pipe_precise.go, and the transformation loop of
      merge_pipe.go)

    A pipeline's change of a file is diffed into insertions and deletions at
    byte offsets, each is transformed against the operations merged since the
    pipeline's base and against its own predecessors, and the result is
    applied to the content of the global draft.

    The diff engine (github.com/sergi/go-diff) is a parameter, [DiffEngine].
    The loop of [preciseOperationsForChange] drops the script that the cleanup
    returns and goes over the slice it was given, as the call leaves it:
    [script].  The conflict resolver is the parameter of [transformSingle]. *)

From S2P Require Import Prelude Ids.
From S2P Require Export OT.

Inductive FileOp := FileOpCreate | FileOpModify | FileOpDelete | FileOpMkdir.
(** A [uint8]; the last constructor stands for the values without a name. *)
Inductive WALDeltaOp :=
| WALDeltaOpCreate | WALDeltaOpModify | WALDeltaOpDelete | WALDeltaOpMkdir
| WALDeltaOpOther (b : byte).

#[export] Instance FileOp_eq_dec : EqDecision FileOp.
Proof. solve_decision. Defined.
#[export] Instance WALDeltaOp_eq_dec : EqDecision WALDeltaOp.
Proof. solve_decision. Defined.

(** A [[]byte] whose being nil the code asks for: nil, or some bytes. *)
Definition byte_slice : Type := option bytes.
Definition content_of (s : byte_slice) : bytes := default [] s.

Record FileModification := mkFileModification {
  OriginalPath : string;
  StagingPath : string;
  FOperation : FileOp;
  Persistence : string;
  FTimestamp : Z;
  FContentHash : ContentHash;
  FBaseVersion : VersionID;
  NewContent : byte_slice;
  FOldContent : bytes
}.

Record WALFileDelta := mkWALFileDelta {
  DPath : string;
  DOp : WALDeltaOp;
  DNewContent : bytes;
  DOldContent : bytes
}.

(** [diffmatchpatch.Diff] *)
Inductive DiffType := DiffDelete | DiffInsert | DiffEqual.
Record Diff := mkDiff { DType : DiffType; Text : bytes }.

(** [DiffMain] on the two contents as strings, and [DiffCleanupEfficiency]:
    the script it returns, and what is then in the slice it was given. *)
Record DiffEngine := mkEngine {
  DiffMain : bytes -> bytes -> list Diff;
  DiffCleanupEfficiency : list Diff -> list Diff * list Diff
}.

(** The slice [diffs] after the call of the cleanup, whose result is dropped. *)
Definition script (engine : DiffEngine) (oldContent newContent : bytes) : list Diff :=
  let diffs := DiffMain engine oldContent newContent in
  let '(_, diffs) := DiffCleanupEfficiency engine diffs in diffs.

Inductive merge_error :=
| OTFailed (e : ot_error)
| ResolveFailed (msg : string)
| ErrInvalidOperation
| UnsupportedOp (t : OpType).

Module MergePrecise.
Section Merge.
Context `{RangeOrder}.
Variable engine : DiffEngine.
(** The n-th reading of the clock. *)
Variable now : nat -> Z.
(** The resolver, when the pipe has one; it may answer nil. *)
Variable resolver : option (Conflict -> result string (option Resolution)).
Import Operation.

Definition cloneOperationPtr (op : Operation) : Operation := Clone op.

Fixpoint preciseLoop (path pipelineID : string) (diffs : list Diff) (oldOffset : Z) (n : nat)
  : list Operation :=
  match diffs with
  | [] => []
  | diff :: diffs =>
    let text := Text diff in
    match DType diff with
    | DiffEqual => preciseLoop path pipelineID diffs (i64 (oldOffset + len text)) n
    | DiffDelete =>
      let op := NewOperation zero_hash path (Target.NewOffsetTarget oldOffset (i64 (oldOffset + len text)))
        OpDelete [] text pipelineID "" "" VectorClock.NewVectorClock (now n) in
      cloneOperationPtr op
        :: preciseLoop path pipelineID diffs (i64 (oldOffset + len text)) (S n)
    | DiffInsert =>
      let op := NewOperation zero_hash path (Target.NewOffsetTarget oldOffset oldOffset)
        OpInsert text [] pipelineID "" "" VectorClock.NewVectorClock (now n) in
      cloneOperationPtr op :: preciseLoop path pipelineID diffs oldOffset (S n)
    end
  end.

Definition preciseOperationsForChange (path : string) (oldContent newContent : bytes)
    (pipelineID : string) : list Operation :=
  if bool_decide (oldContent = newContent) then []
  else preciseLoop path pipelineID (script engine oldContent newContent) 0 0.

Definition preciseOperationsForModification (m : FileModification) : list Operation :=
  if bool_decide (FOperation m = FileOpMkdir) then []
  else preciseOperationsForChange (OriginalPath m) (FOldContent m) (content_of (NewContent m)) "".

Definition preciseOperationsForDelta (d : WALFileDelta) (pipelineID : string) : list Operation :=
  if bool_decide (DOp d = WALDeltaOpMkdir) then []
  else preciseOperationsForChange (DPath d) (DOldContent d) (DNewContent d) pipelineID.

Definition isNoOpOperation (op : option Operation) : bool :=
  match op with
  | None => true
  | Some op =>
    match Type_ op with
    | OpInsert => len (Content op) =? 0
    | OpDelete => StartOffset (OpTarget op) =? EndOffset (OpTarget op)
    | OpReplace =>
      (StartOffset (OpTarget op) =? EndOffset (OpTarget op)) && (len (Content op) =? 0)
    | OpMove => false
    end
  end.

Definition transformSingle (op against : Operation) : result merge_error Operation :=
  match OT.Transform (Some op) (Some against) with
  | Ok transformed => Ok transformed
  | Err (ConflictError conflict as err) =>
    match resolver with
    | None => Err (OTFailed err)
    | Some resolve =>
      match resolve conflict with
      | Err resolveErr => Err (ResolveFailed resolveErr)
      | Ok None => Err (OTFailed err)
      | Ok (Some resolution) =>
        match ResultOp resolution with
        | None => Err (OTFailed err)
        | Some op => Ok (cloneOperationPtr (Clone op))
        end
      end
    end
  | Err err => Err (OTFailed err)
  end.

(** One of the two loops of [transformOperation]; nil operations and
    operations on other files are skipped. *)
Fixpoint transformLoop (current : Operation) (against : list (option Operation))
  : result merge_error Operation :=
  match against with
  | [] => Ok current
  | None :: against => transformLoop current against
  | Some op :: against =>
    if negb (String.eqb (FilePath op) (FilePath current)) then transformLoop current against
    else
      match transformSingle current op with
      | Err e => Err e
      | Ok current => transformLoop current against
      end
  end.

Definition transformOperation (op : Operation) (remote prior : list (option Operation))
  : result merge_error Operation :=
  let current := cloneOperationPtr (Clone op) in
  match transformLoop current remote with
  | Err e => Err e
  | Ok current => transformLoop current prior
  end.

(** The inner loop of [transformMods] for one modification. *)
Fixpoint transformSourceOps (sourceOps : list Operation) (remote transformed : list (option Operation))
  : result merge_error (list (option Operation)) :=
  match sourceOps with
  | [] => Ok transformed
  | op :: sourceOps =>
    match transformOperation op remote transformed with
    | Err e => Err e
    | Ok next =>
      if isNoOpOperation (Some next) then transformSourceOps sourceOps remote transformed
      else transformSourceOps sourceOps remote (transformed ++ [Some next])
    end
  end.

Definition applyByteInsert (content : bytes) (at_ : Z) (insert : bytes) : bytes :=
  take (Z.to_nat at_) content ++ insert ++ drop (Z.to_nat at_) content.
Definition applyByteDelete (content : bytes) (start end_ : Z) : bytes :=
  take (Z.to_nat start) content ++ drop (Z.to_nat end_) content.
Definition applyByteReplace (content : bytes) (start end_ : Z) (replacement : bytes) : bytes :=
  take (Z.to_nat start) content ++ replacement ++ drop (Z.to_nat end_) content.

Fixpoint applyOperationsToContent (content : bytes) (ops : list (option Operation))
  : result merge_error bytes :=
  match ops with
  | [] => Ok content
  | None :: ops => applyOperationsToContent content ops
  | Some op :: ops =>
    let start := StartOffset (OpTarget op) in
    let end_ := EndOffset (OpTarget op) in
    if (start <? 0) || (end_ <? start) || (len content <? end_) then Err ErrInvalidOperation
    else
      match Type_ op with
      | OpInsert => applyOperationsToContent (applyByteInsert content start (Content op)) ops
      | OpDelete => applyOperationsToContent (applyByteDelete content start end_) ops
      | OpReplace =>
        applyOperationsToContent (applyByteReplace content start end_ (Content op)) ops
      | OpMove => Err (UnsupportedOp OpMove)
      end
  end.

(** The content a modification leads to on a draft that holds [current],
    given the operations merged since the base: the default branch of
    [applyTransformedModToVFS], after [transformMods]. *)
Definition mergedContent (m : FileModification) (remote : list (option Operation)) (current : bytes)
  : result merge_error bytes :=
  match transformSourceOps (preciseOperationsForModification m) remote [] with
  | Err e => Err e
  | Ok ops =>
    if len ops =? 0 then Ok (content_of (NewContent m))
    else applyOperationsToContent current ops
  end.
End Merge.
End MergePrecise.
