(* ===== verification/Convergence.v ===== *)
(** * Convergence of the transformation engine

    Insertions and deletions at byte offsets, abstractly: an [edit] on a byte
    string, its application and the transformation the engine computes for it
    in unbounded integers.  The operations of the code refine edits
    ([Transform_denotes], [apply_denotes]); convergence and the correctness
    of a whole merged change are proved on edits and carried over. *)

From S2P Require Import Prelude Ids OT MergePrecise.
Import MergePrecise.

(* ------------------------------------------------------------------ *)
(** ** Edits *)

Inductive edit := Ins (p : Z) (t : bytes) | Del (s e : Z).

Definition valid (n : Z) (e : edit) : Prop :=
  match e with Ins p _ => 0 <= p <= n | Del s e => 0 <= s <= e /\ e <= n end.

Definition edit_apply (c : bytes) (e : edit) : bytes :=
  match e with
  | Ins p t => applyByteInsert c p t
  | Del s e => applyByteDelete c s e
  end.

(** The transformation of [e1] against [e2]; [before] breaks the tie of two
    insertions at one point.  A target of offsets (0, 0) is not an offset
    target, hence the tests for positive offsets. *)
Definition xform (e1 e2 : edit) (before : bool) : edit :=
  match e1, e2 with
  | Ins p t, Ins q u =>
    if p =? q then if before then Ins p t else Ins (p + len u) t
    else if (0 <? q) && (q <=? p) then Ins (p + len u) t else Ins p t
  | Ins p t, Del s e =>
    if (s <? p) && (p <? e) then Ins s t
    else if (0 <? e) && (e <=? p) then Ins (p - (e - s)) t else Ins p t
  | Del s e, Ins q u =>
    if (s <? q) && (q <? e) then Del s (e + len u)
    else if (0 <? q) && (q <=? s) then Del (s + len u) (e + len u) else Del s e
  | Del s1 e1, Del s2 e2 =>
    if (s1 <? e2) && (s2 <? e1) then
      if (s2 <=? s1) && (e1 <=? e2) then Del s2 s2
      else if (s1 <? s2) && (e2 <? e1) then Del s1 (e1 - (e2 - s2))
      else if s1 <? s2 then Del s1 s2
      else Del s2 (e1 - (e2 - s1))
    else if (0 <? e2) && (e2 <=? s1) then Del (s1 - (e2 - s2)) (e1 - (e2 - s2)) else Del s1 e1
  end.

(** [op] is an operation on offsets that means [e]. *)
Definition denotes (op : Operation) (e : edit) : Prop :=
  NodePath (OpTarget op) = [] /\ StartLine (OpTarget op) = 0 /\ EndLine (OpTarget op) = 0 /\
  match e with
  | Ins p t => Type_ op = OpInsert /\ Content op = t /\
      StartOffset (OpTarget op) = p /\ EndOffset (OpTarget op) = p
  | Del s e => Type_ op = OpDelete /\ StartOffset (OpTarget op) = s /\ EndOffset (OpTarget op) = e
  end.

(** The length of the text an edit inserts. *)
Definition ilen (e : edit) : Z := match e with Ins _ t => len t | Del _ _ => 0 end.

Lemma ilen_nonneg e : 0 <= ilen e.
Proof. destruct e; simpl; [apply len_nonneg|lia]. Qed.

(** Case analysis on every comparison of the goal. *)
Ltac cmp :=
  repeat match goal with
  | |- context [?a <? ?b] => destruct (Z.ltb_spec a b)
  | |- context [?a <=? ?b] => destruct (Z.leb_spec a b)
  | |- context [?a =? ?b] => destruct (Z.eqb_spec a b)
  end; simpl; try lia.

(** Replaces the offsets of operations by the ones their edits name. *)
Ltac rewrite_offsets :=
  repeat match goal with
  | E : StartOffset _ = _ |- _ => rewrite ?E; revert E
  | E : EndOffset _ = _ |- _ => rewrite ?E; revert E
  | E : Content _ = _ |- _ => rewrite ?E; revert E
  end; intros.

(** Names the transformed operation and checks what it denotes. *)
Ltac transform_done :=
  eexists; split; [reflexivity|]; split; [|split; reflexivity];
  unfold denotes; simpl; repeat split; try assumption; try congruence; wrap_lia.

Section Refine.
Context `{RangeOrder}.

(** Overlap of two plain offset targets. *)
Lemma overlaps_plain s1 e1 s2 e2 t1 t2 :
  0 <= s1 <= e1 -> 0 <= s2 <= e2 ->
  NodePath t1 = [] -> StartLine t1 = 0 -> EndLine t1 = 0 ->
  StartOffset t1 = s1 -> EndOffset t1 = e1 ->
  NodePath t2 = [] -> StartLine t2 = 0 -> EndLine t2 = 0 ->
  StartOffset t2 = s2 -> EndOffset t2 = e2 ->
  Target.Overlaps t1 t2 = (s1 <? e2) && (s2 <? e1) /\
  Target.IsOffset t1 = (0 <? e1) /\ Target.IsOffset t2 = (0 <? e2).
Proof.
  intros B1 B2 P1 L1 M1 S1 E1 P2 L2 M2 S2 E2.
  unfold Target.Overlaps, Target.overlapsAST, Target.overlapsOffset, Target.overlapsLine,
    Target.IsLine, Target.IsOffset, Target.IsAST.
  rewrite P1, L1, M1, S1, E1, P2, L2, M2, S2, E2. simpl. cmp; auto.
Qed.

(** The transformed operation differs from the original in its target (and
    in the contents of a deletion that became empty). *)
Definition moved (op op' : Operation) : Prop :=
  FilePath op' = FilePath op /\ PipelineID op' = PipelineID op.

Lemma Transform_denotes n op1 op2 e1 e2 :
  denotes op1 e1 -> denotes op2 e2 -> valid n e1 -> valid n e2 -> n + ilen e2 < two63 ->
  exists op1', OT.Transform (Some op1) (Some op2) = Ok op1' /\
    denotes op1' (xform e1 e2 (String.ltb (PipelineID op1) (PipelineID op2))) /\
    moved op1 op1'.
Proof.
  intros (P1 & L1 & M1 & D1) (P2 & L2 & M2 & D2) V1 V2 B. pose proof (ilen_nonneg e2) as N2.
  destruct e1 as [p t|s1 e1], e2 as [q u|s2 e2]; simpl in V1, V2, B, N2; destruct_and? D1; destruct_and? D2;
    unfold OT.Transform, OT.targetsOverlap, OT.insertsAtSamePoint, OT.is_type,
      OT.transformNonOverlapping, OT.adjustTarget, OT.adjustOffsetTarget, OT.transformOverlapping,
      OT.transformInsertInsert, OT.transformInsertDelete, OT.transformDeleteInsert,
      OT.transformDeleteDelete, OT.handleOverlappingDeletes, OT.computeRemainingRange, OT.computeDelta;
    repeat match goal with E : Type_ _ = _ |- _ => rewrite ?E; revert E end; intros; simpl;
    rewrite !Operation.op_clone_eq.
  - edestruct (overlaps_plain p p q q (OpTarget op1) (OpTarget op2)) as (-> & -> & ->); try done; try lia.
    rewrite_offsets. destruct (String.ltb _ _); cmp; transform_done.
  - edestruct (overlaps_plain p p s2 e2 (OpTarget op1) (OpTarget op2)) as (-> & -> & ->); try done; try lia.
    rewrite_offsets. cmp; transform_done.
  - edestruct (overlaps_plain s1 e1 q q (OpTarget op1) (OpTarget op2)) as (-> & -> & ->); try done; try lia.
    rewrite_offsets. cmp; transform_done.
  - edestruct (overlaps_plain s1 e1 s2 e2 (OpTarget op1) (OpTarget op2)) as (-> & -> & ->); try done; try lia.
    rewrite_offsets. cmp; transform_done.
Qed.
End Refine.

Lemma apply_denotes op e c ops :
  denotes op e -> valid (len c) e ->
  applyOperationsToContent c (Some op :: ops) = applyOperationsToContent (edit_apply c e) ops.
Proof.
  intros (_ & _ & _ & D) V. simpl. destruct e as [p t|s e]; simpl in V; destruct_and? D.
  - rewrite_offsets. cmp. by match goal with E : Type_ op = _ |- _ => rewrite E end.
  - rewrite_offsets. cmp. by match goal with E : Type_ op = _ |- _ => rewrite E end.
Qed.

(* ------------------------------------------------------------------ *)
(** ** Applying edits to split contents *)

Lemma split_at (c : bytes) p : 0 <= p <= len c -> exists a b, c = a ++ b /\ len a = p.
Proof.
  intros B. exists (take (Z.to_nat p) c), (drop (Z.to_nat p) c).
  split; [by rewrite take_drop|]. unfold len in *. rewrite length_take. lia.
Qed.

Lemma ins_at a b t p : len a = p -> applyByteInsert (a ++ b) p t = a ++ t ++ b.
Proof.
  intros <-. unfold applyByteInsert, len. rewrite Nat2Z.id.
  by rewrite take_app_length, drop_app_length.
Qed.

Lemma del_at a b d s e : len a = s -> len a + len b = e -> applyByteDelete (a ++ b ++ d) s e = a ++ d.
Proof.
  intros <- <-. unfold applyByteDelete.
  replace (len a + len b) with (len (a ++ b)) by apply len_app.
  unfold len. rewrite !Nat2Z.id, take_app_length. f_equal. rewrite app_assoc. apply drop_app_length.
Qed.

Lemma len_edit_apply c e : valid (len c) e ->
  len (edit_apply c e) = match e with Ins _ t => len c + len t | Del s e => len c - (e - s) end.
Proof.
  destruct e as [p t|s e]; simpl; intros V.
  - destruct (split_at c p V) as (a & b & -> & L). rewrite ins_at, !len_app by done. lia.
  - destruct (split_at c s) as (a & b & -> & L); [lia|].
    rewrite len_app in V. destruct (split_at b (e - s)) as (b1 & b2 & -> & L2); [lia|].
    rewrite del_at by lia. rewrite !len_app in *. lia.
Qed.

(** Cuts [c] at the offsets in the list, smallest first. *)
Ltac cut_content c l :=
  lazymatch l with
  | [] => idtac
  | ?p :: ?l' =>
    let a := fresh "a" in let b := fresh "b" in let L := fresh "L" in
    destruct (split_at c p) as (a & b & -> & L); [rewrite ?len_app in *; lia|];
    rewrite ?len_app in *; cut_rest b a p l'
  end
with cut_rest b a p l :=
  lazymatch l with
  | [] => idtac
  | ?q :: ?l' =>
    let a' := fresh "a" in let b' := fresh "b" in let L := fresh "L" in
    destruct (split_at b (q - p)) as (a' & b' & -> & L); [rewrite ?len_app in *; lia|];
    rewrite ?len_app in *; cut_rest b' a' q l'
  end.

(** Rewrites with [ins_at] or [del_at], the offsets proved by [lia]. *)
Ltac at_pos L := rewrite L by (rewrite ?len_app; lia).

(** The five ways two edits commute. *)
Lemma ins_ins_comm c p q t u : 0 <= p <= q -> q <= len c ->
  applyByteInsert (applyByteInsert c p t) (q + len t) u =
  applyByteInsert (applyByteInsert c q u) p t.
Proof.
  intros. cut_content c [p; q].
  at_pos (ins_at a (a0 ++ b0) t p).
  rewrite (app_assoc a a0). at_pos (ins_at (a ++ a0) b0 u q).
  rewrite <- (app_assoc a a0). at_pos (ins_at a (a0 ++ u ++ b0) t p).
  rewrite !app_assoc, <- (app_assoc _ u b0). by at_pos (ins_at ((a ++ t) ++ a0) b0 u).
Qed.

Lemma ins_del_before c p t s e : 0 <= p <= s -> s <= e <= len c ->
  applyByteDelete (applyByteInsert c p t) (s + len t) (e + len t) =
  applyByteInsert (applyByteDelete c s e) p t.
Proof.
  intros. cut_content c [p; s; e].
  at_pos (ins_at a (a0 ++ a1 ++ b) t p).
  rewrite (app_assoc a a0). at_pos (del_at (a ++ a0) a1 b s e).
  rewrite <- (app_assoc a a0). at_pos (ins_at a (a0 ++ b) t p).
  rewrite (app_assoc a t), (app_assoc (a ++ t) a0).
  at_pos (del_at ((a ++ t) ++ a0) a1 b). by rewrite <- !app_assoc.
Qed.

Lemma ins_del_after c p t s e : 0 <= s <= e -> e <= p <= len c ->
  applyByteDelete (applyByteInsert c p t) s e =
  applyByteInsert (applyByteDelete c s e) (p - (e - s)) t.
Proof.
  intros. cut_content c [s; e; p].
  at_pos (del_at a a0 (a1 ++ b) s e).
  rewrite (app_assoc a a1). at_pos (ins_at (a ++ a1) b t).
  rewrite (app_assoc a a0), (app_assoc (a ++ a0) a1).
  at_pos (ins_at ((a ++ a0) ++ a1) b t p). rewrite <- !app_assoc.
  by at_pos (del_at a a0 (a1 ++ t ++ b) s e).
Qed.

Lemma del_del_disjoint c s1 e1 s2 e2 : 0 <= s1 <= e1 -> e1 <= s2 <= e2 -> e2 <= len c ->
  applyByteDelete (applyByteDelete c s1 e1) (s2 - (e1 - s1)) (e2 - (e1 - s1)) =
  applyByteDelete (applyByteDelete c s2 e2) s1 e1.
Proof.
  intros. cut_content c [s1; e1; s2; e2].
  at_pos (del_at a a0 (a1 ++ a2 ++ b0) s1 e1).
  rewrite (app_assoc a a1). at_pos (del_at (a ++ a1) a2 b0).
  rewrite (app_assoc a a0), (app_assoc (a ++ a0) a1).
  at_pos (del_at ((a ++ a0) ++ a1) a2 b0 s2 e2). rewrite <- !app_assoc.
  by at_pos (del_at a a0 (a1 ++ b0) s1 e1).
Qed.

Lemma del_del_nested c s1 e1 s2 e2 : 0 <= s1 <= s2 -> s2 <= e2 <= e1 -> e1 <= len c ->
  applyByteDelete (applyByteDelete c s2 e2) s1 (e1 - (e2 - s2)) = applyByteDelete c s1 e1.
Proof.
  intros. cut_content c [s1; s2; e2; e1].
  rewrite (app_assoc a a0). at_pos (del_at (a ++ a0) a1 (a2 ++ b0) s2 e2).
  rewrite <- !(app_assoc a a0), (app_assoc a0 a2), (app_assoc a1 a2), (app_assoc a0 (a1 ++ a2)).
  at_pos (del_at a (a0 ++ a2) b0). by at_pos (del_at a (a0 ++ a1 ++ a2) b0 s1 e1).
Qed.

Lemma del_nothing c s : 0 <= s <= len c -> applyByteDelete c s s = c.
Proof. intros. unfold applyByteDelete. apply take_drop. Qed.

(* ------------------------------------------------------------------ *)
(** ** Convergence on edits *)

(** Both orders of application are defined and give one content. *)
Definition converges (c : bytes) (e1 e2 : edit) (b12 b21 : bool) : Prop :=
  valid (len (edit_apply c e1)) (xform e2 e1 b21) /\
  valid (len (edit_apply c e2)) (xform e1 e2 b12) /\
  edit_apply (edit_apply c e1) (xform e2 e1 b21) = edit_apply (edit_apply c e2) (xform e1 e2 b12).

Lemma converges_sym c e1 e2 b12 b21 : converges c e1 e2 b12 b21 -> converges c e2 e1 b21 b12.
Proof. intros (V1 & V2 & E). by split. Qed.

(** Pairs the engine merges without loss: insertions at distinct points that
    are not the start of the file, or at one point by different pipelines;
    an insertion, not at the start of the file, outside a deletion; deletions
    that are disjoint or nested. *)
Definition compatible (e1 e2 : edit) (pid1 pid2 : string) : Prop :=
  match e1, e2 with
  | Ins p _, Ins q _ => (p = q /\ pid1 <> pid2) \/ (p <> q /\ 0 < p /\ 0 < q)
  | Ins p _, Del s e | Del s e, Ins p _ => 0 < p /\ (p <= s \/ e <= p)
  | Del s1 e1, Del s2 e2 =>
    e1 <= s2 \/ e2 <= s1 \/ (s1 <= s2 /\ e2 <= e1) \/ (s2 <= s1 /\ e1 <= e2)
  end.

Lemma converges_by c e1 e2 b12 b21 e1' e2' :
  valid (len c) e1 -> valid (len c) e2 ->
  xform e1 e2 b12 = e1' -> xform e2 e1 b21 = e2' ->
  valid (match e1 with Ins _ t => len c + len t | Del s e => len c - (e - s) end) e2' ->
  valid (match e2 with Ins _ t => len c + len t | Del s e => len c - (e - s) end) e1' ->
  edit_apply (edit_apply c e1) e2' = edit_apply (edit_apply c e2) e1' ->
  converges c e1 e2 b12 b21.
Proof. intros V1 V2 <- <- W2 W1 E. unfold converges. by rewrite !len_edit_apply. Qed.

Lemma ins_ins_converges c p t q u b12 b21 :
  valid (len c) (Ins p t) -> valid (len c) (Ins q u) ->
  (p = q /\ b12 = true /\ b21 = false) \/ (p < q /\ 0 < p) ->
  converges c (Ins p t) (Ins q u) b12 b21.
Proof.
  simpl. intros V1 V2 C. pose proof (len_nonneg t). pose proof (len_nonneg u).
  apply (converges_by _ _ _ _ _ (Ins p t) (Ins (q + len t) u)); simpl; try lia.
  - destruct C as [(<- & -> & _)|C]; cmp; done.
  - destruct C as [(<- & _ & ->)|C]; cmp; done.
  - apply ins_ins_comm; lia.
Qed.

Lemma ins_del_converges c p t s e b12 b21 :
  valid (len c) (Ins p t) -> valid (len c) (Del s e) -> 0 < p -> p <= s \/ e <= p ->
  converges c (Ins p t) (Del s e) b12 b21.
Proof.
  simpl. intros V1 V2 P C. pose proof (len_nonneg t). destruct (Z_le_gt_dec p s).
  - apply (converges_by _ _ _ _ _ (Ins p t) (Del (s + len t) (e + len t))); simpl; try lia.
    + destruct C; cmp; try done; f_equal; lia.
    + cmp; done.
    + apply ins_del_before; lia.
  - apply (converges_by _ _ _ _ _ (Ins (p - (e - s)) t) (Del s e)); simpl; try lia.
    + cmp; try done; f_equal; lia.
    + cmp; done.
    + apply ins_del_after; lia.
Qed.

Lemma del_del_converges c s1 e1 s2 e2 b12 b21 :
  valid (len c) (Del s1 e1) -> valid (len c) (Del s2 e2) ->
  e1 <= s2 \/ (s1 <= s2 /\ e2 <= e1) ->
  converges c (Del s1 e1) (Del s2 e2) b12 b21.
Proof.
  simpl. intros V1 V2 C. destruct (Z_le_gt_dec e1 s2).
  - apply (converges_by _ _ _ _ _ (Del s1 e1) (Del (s2 - (e1 - s1)) (e2 - (e1 - s1)))); simpl; try lia.
    + cmp; try done; f_equal; lia.
    + cmp; try done; f_equal; lia.
    + apply del_del_disjoint; lia.
  - apply (converges_by _ _ _ _ _ (Del s1 (e1 - (e2 - s2))) (Del s1 s1)); simpl; try lia.
    + cmp; try done; f_equal; lia.
    + cmp; try done; f_equal; lia.
    + pose proof (len_edit_apply c (Del s1 e1) V1) as L. simpl in L.
      rewrite del_nothing, del_del_nested; [done|lia..].
Qed.

Lemma compatible_converges c e1 e2 pid1 pid2 :
  valid (len c) e1 -> valid (len c) e2 -> compatible e1 e2 pid1 pid2 ->
  converges c e1 e2 (String.ltb pid1 pid2) (String.ltb pid2 pid1).
Proof.
  intros V1 V2 C. destruct e1 as [p t|s1 e1], e2 as [q u|s2 e2]; simpl in C.
  - destruct C as [[<- Ne]|(Ne & P & Q)].
    + destruct (String.ltb pid1 pid2) eqn:L1, (String.ltb pid2 pid1) eqn:L2; str_order.
      * by destruct (str_lt_asym _ _ L1).
      * apply ins_ins_converges; auto.
      * apply converges_sym, ins_ins_converges; auto.
      * destruct L1 as [L1|L1], L2 as [L2|L2]; try congruence. by destruct (str_lt_asym _ _ L1).
    + destruct (Z_lt_ge_dec p q); [|apply converges_sym]; apply ins_ins_converges; auto with lia.
  - apply ins_del_converges; tauto.
  - apply converges_sym, ins_del_converges; tauto.
  - destruct C as [C|[C|[C|C]]]; [|apply converges_sym| |apply converges_sym];
      apply del_del_converges; auto.
Qed.

(* ------------------------------------------------------------------ *)
(** ** Convergence of the engine *)

(** Some content is reached by both orders. *)
Definition both_orders `{RangeOrder} (c : bytes) (op1 op2 : Operation) : Prop :=
  exists op1' op2' c',
    OT.Transform (Some op1) (Some op2) = Ok op1' /\
    OT.Transform (Some op2) (Some op1) = Ok op2' /\
    applyOperationsToContent c [Some op1; Some op2'] = Ok c' /\
    applyOperationsToContent c [Some op2; Some op1'] = Ok c'.

(** C26: for two concurrent operations on a content that are compatible, both
    transformations succeed, both orders of application succeed, and they
    give the same content. *)
Theorem transform_converges `{RangeOrder} c op1 op2 e1 e2 :
  denotes op1 e1 -> denotes op2 e2 ->
  valid (len c) e1 -> valid (len c) e2 ->
  len c + ilen e1 < two63 -> len c + ilen e2 < two63 ->
  compatible e1 e2 (PipelineID op1) (PipelineID op2) ->
  both_orders c op1 op2.
Proof.
  intros D1 D2 V1 V2 B1 B2 C.
  destruct (Transform_denotes (len c) op1 op2 e1 e2) as (op1' & T1 & D1' & _); try done.
  destruct (Transform_denotes (len c) op2 op1 e2 e1) as (op2' & T2 & D2' & _); try done.
  destruct (compatible_converges c e1 e2 _ _ V1 V2 C) as (W2 & W1 & E).
  exists op1', op2', (edit_apply (edit_apply c e1) (xform e2 e1 (String.ltb (PipelineID op2) (PipelineID op1)))).
  split_and!; [done..| |].
  - by rewrite (apply_denotes _ _ _ _ D1 V1), (apply_denotes _ _ _ _ D2' W2).
  - by rewrite (apply_denotes _ _ _ _ D2 V2), (apply_denotes _ _ _ _ D1' W1), E.
Qed.

(** An operation of pipeline [pid] on the file [f]. *)
Definition sample_op (t : OpType) (s e : Z) (text pid : string) : Operation :=
  Operation.NewOperation (H := range_id) zero_hash "f" (Target.NewOffsetTarget s e) t
    (str_bytes text) [] pid "" "" ∅ 0.

Lemma transform_converges_witness :
  both_orders (H := range_id) (str_bytes "0123456789")
    (sample_op OpInsert 3 3 "ab" "p") (sample_op OpDelete 5 8 "" "q").
Proof.
  apply (transform_converges (H := range_id) _ _ _ (Ins 3 (str_bytes "ab")) (Del 5 8));
    try (repeat split; (reflexivity || vm_compute; congruence)).
  split; [reflexivity|]. left. vm_compute. congruence.
Defined.

(** The two contents reached by the two orders. *)
Definition orders (c : string) (op1 op2 : Operation) : option (string * string) :=
  match OT.Transform (H := range_id) (Some op1) (Some op2),
        OT.Transform (H := range_id) (Some op2) (Some op1) with
  | Ok op1', Ok op2' =>
    match applyOperationsToContent (str_bytes c) [Some op1; Some op2'],
          applyOperationsToContent (str_bytes c) [Some op2; Some op1'] with
    | Ok a, Ok b => Some (bytes_str a, bytes_str b)
    | _, _ => None
    end
  | _, _ => None
  end.

(** The pairs left out of [compatible] do diverge.  A deletion swallows an
    insertion inside it in one order and keeps it in the other; of two
    deletions that partly overlap, the second deletes bytes neither of them
    named; an operation is not moved by an insertion at the start of the
    file; and two insertions of one pipeline at one point swap. *)
Theorem transform_diverges :
  orders "0123456789" (sample_op OpDelete 2 6 "" "p") (sample_op OpInsert 4 4 "XX" "q")
    = Some ("01XX6789", "016789") /\
  orders "0123456789" (sample_op OpDelete 2 6 "" "p") (sample_op OpDelete 4 8 "" "q")
    = Some ("01", "0189") /\
  orders "0123456789" (sample_op OpInsert 0 0 "ab" "p") (sample_op OpDelete 4 6 "" "q")
    = Some ("ab01456789", "ab01236789") /\
  orders "0123456789" (sample_op OpInsert 4 4 "ab" "p") (sample_op OpInsert 4 4 "XX" "p")
    = Some ("0123abXX456789", "0123XXab456789").
Proof. vm_compute. split_and!; reflexivity. Qed.
