(* ===== verification/MergeChange.v ===== *)
(** * A change merged onto the draft it was made from

    [preciseOperationsForChange] names every edit of a change by its offset in
    the old content; the loop of [transformMods] moves each edit past its
    predecessors.  Applied in order to the old content, the transformed
    operations must rebuild the new content. *)

From S2P Require Import Prelude Ids OT MergePrecise Convergence.
Import MergePrecise.

(** The texts a script removes or keeps, and those it adds or keeps. *)
Definition old_of (diffs : list Diff) : bytes :=
  mjoin ((fun d => match DType d with DiffInsert => [] | _ => Text d end) <$> diffs).
Definition new_of (diffs : list Diff) : bytes :=
  mjoin ((fun d => match DType d with DiffDelete => [] | _ => Text d end) <$> diffs).

Lemma old_of_cons d ds :
  old_of (d :: ds) = match DType d with DiffInsert => [] | _ => Text d end ++ old_of ds.
Proof. done. Qed.
Lemma new_of_cons d ds :
  new_of (d :: ds) = match DType d with DiffDelete => [] | _ => Text d end ++ new_of ds.
Proof. done. Qed.

(** The script turns the old content into the new one.  [DiffMain] gives such
    a script for texts that are valid UTF-8; whether the cleanup leaves one in
    its slice is not documented, so the theorems ask it of the change. *)
Definition spells (diffs : list Diff) (old new : bytes) : Prop := old_of diffs = old /\ new_of diffs = new.

Definition is_equal (d : Diff) : bool :=
  match DType d with DiffEqual => true | _ => false end.

(** No edit follows an insertion at the start of the new content; [started]
    says that the new content has a byte already. *)
Fixpoint clear_start (started : bool) (diffs : list Diff) : bool :=
  match diffs with
  | [] => true
  | d :: diffs =>
    match DType d with
    | DiffEqual => clear_start (started || (0 <? len (Text d))) diffs
    | DiffDelete => clear_start started diffs
    | DiffInsert =>
      if started || (len (Text d) =? 0) then clear_start started diffs
      else forallb is_equal diffs
    end
  end.

Definition shift (e : edit) (d : Z) : edit :=
  match e with Ins p t => Ins (p + d) t | Del s e => Del (s + d) (e + d) end.
Definition start (e : edit) : Z := match e with Ins p _ => p | Del s _ => s end.
Definition end_ (e : edit) : Z := match e with Ins p _ => p | Del _ e => e end.
Definition delta (e : edit) : Z := match e with Ins _ t => len t | Del s e => s - e end.

(** An edit that lies after [a] moves by what [a] adds or removes. *)
Lemma xform_after n e a :
  valid n e -> valid n a -> 0 < end_ a <= start e -> xform e a false = shift e (delta a).
Proof.
  intros V1 V2 L. pose proof (ilen_nonneg a).
  destruct e as [p t|s1 e1], a as [q u|s2 e2]; simpl in *; cmp; try done; f_equal; lia.
Qed.

(** [ready d as lo sh]: the edits [as] lie one after the other, and an edit of
    the old content that starts at [lo] or later moves by [sh] past them. *)
Inductive ready (d : Z) : list edit -> Z -> Z -> Prop :=
| ready_nil lo : 0 <= lo -> ready d [] lo 0
| ready_snoc edits lo sh a lo' :
    ready d edits lo sh -> lo <= lo' -> 0 < end_ a <= lo' + sh -> 0 <= start a <= end_ a ->
    0 <= lo' + sh + delta a -> sh + delta a <= d -> ilen a <= d ->
    ready d (edits ++ [a]) lo' (sh + delta a).

Lemma ready_mono d edits lo sh lo' : ready d edits lo sh -> lo <= lo' -> ready d edits lo' sh.
Proof.
  intros R L. destruct R as [lo ?|edits lo0 sh a lo R ? ? ? ? ? ?].
  - constructor. lia.
  - apply ready_snoc with lo0; auto; lia.
Qed.

Lemma ready_bound d edits lo sh : ready d edits lo sh -> 0 <= d -> sh <= d.
Proof. intros R. destruct R; lia. Qed.

Section Chain.
Context `{RangeOrder}.
Variable resolver : option (Conflict -> result string (option Resolution)).

Lemma transformLoop_app op l k :
  transformLoop resolver op (l ++ k) =
  match transformLoop resolver op l with
  | Ok op' => transformLoop resolver op' k
  | Err e => Err e
  end.
Proof.
  revert op. induction l as [|[o|] l IH]; intros op; simpl; [done| |done].
  destruct (negb _); [done|]. destruct (transformSingle _ _ _); [apply IH|done].
Qed.

(** The operations already transformed: they denote [edits], and all belong
    to the file and the pipeline of the change. *)
Definition prior_ok (path pid : string) (prior : list Operation) (edits : list edit) : Prop :=
  Forall2 denotes prior edits /\
  Forall (fun o => FilePath o = path /\ PipelineID o = pid) prior.

Lemma transformLoop_ready n d path pid prior edits lo sh op e :
  ready d edits lo sh -> prior_ok path pid prior edits ->
  denotes op e -> FilePath op = path -> PipelineID op = pid ->
  lo <= start e -> start e <= end_ e <= n -> n + d + d < two63 -> 0 <= n -> 0 <= d ->
  exists op', transformLoop resolver op (Some <$> prior) = Ok op' /\
    denotes op' (shift e sh) /\ moved op op'.
Proof.
  intros R. revert prior. induction R as [lo ?|edits lo sh a lo' R IH]; intros prior [P F] D Hp Hi L B N ? ?.
  - apply Forall2_nil_inv_r in P as ->. exists op. split; [done|]. split; [|done].
    destruct e; simpl; by rewrite !Z.add_0_r.
  - apply Forall2_app_inv_r in P as (p1 & p2 & P1 & P2 & ->).
    apply Forall2_cons_inv_r in P2 as (o & p3 & Do & P3 & ->).
    apply Forall2_nil_inv_r in P3 as ->.
    apply Forall_app in F as [F1 F2]. apply Forall_cons in F2 as [[Fp Fi] _].
    destruct (IH p1) as (op1 & T1 & D1 & M1 & M2); try done; [lia|].
    rewrite fmap_app, transformLoop_app, T1. simpl.
    assert (SE : start (shift e sh) = start e + sh /\ end_ (shift e sh) = end_ e + sh) by by destruct e.
    pose proof (ready_bound _ _ _ _ R).
    assert (V1 : valid (n + d) (shift e sh)) by (destruct e; simpl in *; lia).
    assert (V2 : valid (n + d) a) by (destruct a; simpl in *; lia).
    destruct (Transform_denotes (n + d) op1 o (shift e sh) a) as (op2 & T2 & D2 & M3 & M4);
      [done..|lia|].
    rewrite M1, Fp, Hp, String.eqb_refl. simpl. unfold transformSingle. rewrite T2.
    exists op2. split; [done|]. split; [|split; congruence].
    replace (String.ltb _ _) with false in D2.
    2:{ rewrite M2, Fi, Hi. symmetry. apply str_ltb_ge. by left. }
    rewrite (xform_after (n + d)) in D2 by (done || lia).
    replace (shift e (sh + delta a)) with (shift (shift e sh) (delta a)); [done|].
    destruct e; simpl; f_equal; lia.
Qed.
End Chain.

Lemma ready_lo d edits lo sh : ready d edits lo sh -> 0 <= lo.
Proof. induction 1; lia. Qed.

Lemma apply_app c l k :
  applyOperationsToContent c (l ++ k) =
  match applyOperationsToContent c l with
  | Ok c' => applyOperationsToContent c' k
  | Err e => Err e
  end.
Proof.
  revert c. induction l as [|[o|] l IH]; intros c; simpl; [done| |apply IH].
  destruct (_ || _); [done|]. destruct (Type_ o); auto.
Qed.

Section Script.
Context `{RangeOrder}.
Variable now : nat -> Z.
Variable resolver : option (Conflict -> result string (option Resolution)).
Variables (path pid : string) (old : bytes) (d : Z).
Hypothesis bound : len old + d + d < two63.

(** The state of the loop before [rest]: [off] bytes of the old content are
    read, [pre] is the new content written, and applying the operations
    found so far gives [pre] followed by the unread old content. *)
Definition reached (rest : list Diff) (off : Z) (pre : bytes) (prior : list Operation)
    (edits : list edit) (sh : Z) : Prop :=
  ready d edits off sh /\ prior_ok path pid prior edits /\ off + sh = len pre /\
  off + len (old_of rest) <= len old /\ len pre + len (new_of rest) <= d /\
  applyOperationsToContent old (Some <$> prior) = Ok (pre ++ old_of rest).

Lemma transform_next rest off pre prior edits sh op e :
  reached rest off pre prior edits sh ->
  denotes op e -> FilePath op = path -> PipelineID op = pid ->
  start e = off -> off <= end_ e <= len old ->
  exists op', transformOperation resolver op [] (Some <$> prior) = Ok op' /\
    denotes op' (shift e sh) /\ FilePath op' = path /\ PipelineID op' = pid.
Proof.
  intros (R & P & O & B1 & B2 & _) D Hp Hi S E.
  pose proof (len_nonneg pre). pose proof (len_nonneg old). pose proof (len_nonneg (new_of rest)).
  destruct (transformLoop_ready resolver (len old) d path pid prior edits off sh op e)
    as (op' & T & D' & M1 & M2); try done; try lia.
  exists op'. unfold transformOperation, cloneOperationPtr. rewrite !Operation.op_clone_eq. simpl.
  rewrite T. split_and!; congruence.
Qed.

(** Appending the edit [a], which turns [pre ++ x ++ y] into [pre' ++ y]. *)
Lemma reached_snoc rest rest' off off' pre pre' prior edits sh op a :
  reached rest off pre prior edits sh ->
  denotes op a -> FilePath op = path -> PipelineID op = pid ->
  off <= off' -> 0 < end_ a <= off' + sh -> 0 <= start a <= end_ a ->
  off' + (sh + delta a) = len pre' -> ilen a <= d ->
  off' + len (old_of rest') <= len old -> len pre' + len (new_of rest') <= d ->
  valid (len (pre ++ old_of rest)) a ->
  edit_apply (pre ++ old_of rest) a = pre' ++ old_of rest' ->
  reached rest' off' pre' (prior ++ [op]) (edits ++ [a]) (sh + delta a).
Proof.
  intros (R & [P F] & O & B1 & B2 & A) D Hp Hi ? ? ? ? ? ? ? V E.
  pose proof (len_nonneg pre'). pose proof (len_nonneg (new_of rest')).
  pose proof (ready_lo _ _ _ _ R).
  unfold reached. split_and!; try done.
  - eapply ready_snoc; eauto; lia.
  - split; [by apply Forall2_app; [|constructor]|]. apply Forall_app. by split; [|constructor].
  - rewrite fmap_app, apply_app, A. simpl fmap. by rewrite (apply_denotes _ _ _ _ D V), E.
Qed.

Lemma equal_rest rest off n :
  forallb is_equal rest = true ->
  preciseLoop now path pid rest off n = [] /\ old_of rest = new_of rest.
Proof.
  revert off. induction rest as [|[t x] rest IH]; intros off; simpl; [done|].
  unfold is_equal at 1. simpl. destruct t; try done. simpl. intros E.
  destruct (IH (i64 (off + len x)) E) as [-> Eo]. split; [done|].
  rewrite old_of_cons, new_of_cons. simpl. by rewrite Eo.
Qed.

(** Keeping [x] moves it from the unread content to the written one. *)
Lemma reached_equal x rest off pre prior edits sh :
  reached (mkDiff DiffEqual x :: rest) off pre prior edits sh ->
  reached rest (off + len x) (pre ++ x) prior edits sh.
Proof.
  intros (R & P & O & B1 & B2 & A). pose proof (len_nonneg x).
  rewrite old_of_cons in *. rewrite new_of_cons in *. simpl in *.
  rewrite len_app in B1, B2. unfold reached. rewrite len_app, <- app_assoc.
  split_and!; try done; try lia. eapply ready_mono; [exact R|lia].
Qed.

Lemma reached_delete x rest off pre prior edits sh op :
  reached (mkDiff DiffDelete x :: rest) off pre prior edits sh ->
  0 < len x -> denotes op (Del (off + sh) (off + len x + sh)) ->
  FilePath op = path -> PipelineID op = pid ->
  reached rest (off + len x) pre (prior ++ [op])
    (edits ++ [Del (off + sh) (off + len x + sh)]) (sh - len x).
Proof.
  intros Re X D Hp Hi. pose proof Re as (R & P & O & B1 & B2 & A).
  rewrite old_of_cons in B1. rewrite new_of_cons in B2. simpl in B1, B2. rewrite len_app in B1.
  pose proof (len_nonneg pre). pose proof (len_nonneg (old_of rest)). pose proof (len_nonneg (new_of rest)).
  replace (sh - len x) with (sh + delta (Del (off + sh) (off + len x + sh))) by (simpl; lia).
  eapply reached_snoc; simpl; eauto; try lia.
  - rewrite old_of_cons. simpl. rewrite !len_app. lia.
  - rewrite old_of_cons. simpl. apply del_at; lia.
Qed.

Lemma reached_insert x rest off pre prior edits sh op :
  reached (mkDiff DiffInsert x :: rest) off pre prior edits sh ->
  0 < len pre -> denotes op (Ins (off + sh) x) ->
  FilePath op = path -> PipelineID op = pid ->
  reached rest off (pre ++ x) (prior ++ [op]) (edits ++ [Ins (off + sh) x]) (sh + len x).
Proof.
  intros Re X D Hp Hi. pose proof Re as (R & P & O & B1 & B2 & A).
  rewrite old_of_cons in B1. rewrite new_of_cons in B2. simpl in B1, B2. rewrite len_app in B2.
  pose proof (len_nonneg x). pose proof (len_nonneg (old_of rest)). pose proof (len_nonneg (new_of rest)).
  replace (sh + len x) with (sh + delta (Ins (off + sh) x)) by done.
  eapply reached_snoc; simpl; eauto; try (rewrite ?len_app; lia).
  - rewrite old_of_cons. simpl. rewrite !len_app. lia.
  - rewrite old_of_cons. simpl. rewrite ins_at by lia. by rewrite <- app_assoc.
Qed.

(** An operation of the script has the path, the pipeline and the edit the
    source gives it. *)
Lemma delete_denotes a b x n :
  denotes (cloneOperationPtr (Operation.NewOperation zero_hash path (Target.NewOffsetTarget a b)
    OpDelete [] x pid "" "" VectorClock.NewVectorClock (now n))) (Del a b).
Proof. unfold cloneOperationPtr. rewrite Operation.op_clone_eq. by split_and!. Qed.

Lemma insert_denotes a x n :
  denotes (cloneOperationPtr (Operation.NewOperation zero_hash path (Target.NewOffsetTarget a a)
    OpInsert x [] pid "" "" VectorClock.NewVectorClock (now n))) (Ins a x).
Proof. unfold cloneOperationPtr. rewrite Operation.op_clone_eq. by split_and!. Qed.

Lemma noop_denotes op e :
  denotes op e ->
  isNoOpOperation (Some op) = match e with Ins _ t => len t =? 0 | Del s e => s =? e end.
Proof.
  intros (_ & _ & _ & D). destruct e; destruct_and? D; simpl;
    repeat match goal with E : _ = _ |- _ => rewrite E; clear E end; done.
Qed.

Lemma len_zero (x : bytes) : len x = 0 -> x = [].
Proof. unfold len. destruct x; simpl; [done|lia]. Qed.

Lemma transformSourceOps_step op op' e l prior :
  transformOperation resolver op [] prior = Ok op' -> denotes op' e ->
  transformSourceOps resolver (op :: l) [] prior =
  if match e with Ins _ t => len t =? 0 | Del s e => s =? e end
  then transformSourceOps resolver l [] prior
  else transformSourceOps resolver l [] (prior ++ [Some op']).
Proof. intros T D. rewrite <- (noop_denotes _ _ D). simpl. by rewrite T. Qed.

Lemma script_rebuilds rest off n pre prior edits sh :
  reached rest off pre prior edits sh ->
  clear_start (0 <? len pre) rest = true ->
  exists ops,
    transformSourceOps resolver (preciseLoop now path pid rest off n) [] (Some <$> prior)
      = Ok (Some <$> ops) /\
    applyOperationsToContent old (Some <$> ops) = Ok (pre ++ new_of rest).
Proof.
  revert off n pre prior edits sh.
  induction rest as [|[t x] rest IH]; intros off n pre prior edits sh Re C.
  { exists prior. by destruct Re as (_ & _ & _ & _ & _ & A). }
  pose proof Re as (R & P & O & B1 & B2 & A). pose proof (ready_lo _ _ _ _ R) as Lo.
  pose proof bound as Bd.
  rewrite old_of_cons in B1. rewrite new_of_cons in B2 |- *.
  pose proof (len_nonneg x) as Nx. pose proof (len_nonneg pre) as Np.
  pose proof (len_nonneg (old_of rest)). pose proof (len_nonneg (new_of rest)).
  destruct t; simpl in B1, B2, C; rewrite ?len_app in B1; rewrite ?len_app in B2; cbn [preciseLoop DType Text].
  - rewrite (i64_id (off + len x)) by (unfold in_i64, two63 in *; lia).
    destruct (transform_next _ _ _ _ _ _ _ _ Re (delete_denotes off (off + len x) x n))
      as (op & T & D & Hp & Hi); [done|done|done|simpl; lia|].
    rewrite (transformSourceOps_step _ _ _ _ _ T D). simpl.
    destruct (Z.eqb_spec (off + sh) (off + len x + sh)) as [E|E].
    + assert (x = []) as -> by (apply len_zero; lia). rewrite Z.add_0_r. by eapply IH; [exact Re|].
    + rewrite <- (fmap_snoc Some prior op).
      eapply IH; [eapply reached_delete|]; eauto; lia.
  - destruct (transform_next _ _ _ _ _ _ _ _ Re (insert_denotes off x n))
      as (op & T & D & Hp & Hi); [done|done|done|simpl; lia|].
    rewrite (transformSourceOps_step _ _ _ _ _ T D). simpl.
    destruct (Z.eqb_spec (len x) 0) as [E|E].
    + assert (x = []) as -> by by apply len_zero. rewrite orb_true_r in C. by eapply IH; [exact Re|].
    + rewrite <- (fmap_snoc Some prior op), app_assoc. rewrite orb_false_r in C.
      destruct (Z.ltb_spec 0 (len pre)) as [L|L].
      * eapply IH; [eapply reached_insert; eauto|]. rewrite len_app.
        by rewrite (proj2 (Z.ltb_lt _ _)) by lia.
      * destruct (equal_rest rest off (S n) C) as [-> Eo]. simpl. eexists; split; [reflexivity|].
        rewrite fmap_app, apply_app, A. simpl fmap.
        rewrite (apply_denotes _ _ _ _ D) by (simpl; rewrite old_of_cons, len_app; simpl; lia).
        simpl. rewrite old_of_cons, ins_at, Eo by lia. simpl. by rewrite app_assoc.
  - rewrite (i64_id (off + len x)) by (unfold in_i64, two63 in *; lia).
    rewrite app_assoc. eapply IH; [by apply reached_equal|]. rewrite len_app.
    destruct (Z.ltb_spec 0 (len pre)), (Z.ltb_spec 0 (len x)), (Z.ltb_spec 0 (len pre + len x));
      simpl in C; try lia; done.
Qed.
End Script.

(* ------------------------------------------------------------------ *)
(** ** Correctness *)

(** The transformed operations of a change, and what they make of its old
    content. *)
Lemma transformed_change `{RangeOrder} engine now resolver m :
  let new := content_of (NewContent m) in let diffs := script engine (FOldContent m) new in
  FOperation m <> FileOpMkdir -> spells diffs (FOldContent m) new ->
  clear_start false diffs = true -> len (FOldContent m) + len new + len new < two63 ->
  exists ops, transformSourceOps resolver (preciseOperationsForModification engine now m) [] [] = Ok ops /\
    (if len ops =? 0 then Ok new else applyOperationsToContent (FOldContent m) ops) = Ok new.
Proof.
  intros new diffs Op [Eo En] C B. unfold preciseOperationsForModification.
  rewrite bool_decide_eq_false_2 by done. unfold preciseOperationsForChange. case_bool_decide as E.
  - by exists [].
  - destruct (script_rebuilds now resolver (OriginalPath m) "" (FOldContent m) (len new) B
      diffs 0 0 [] [] [] 0) as (ops & T & A); [|done|].
    + unfold reached. rewrite Eo, En. split_and!; try done; try lia.
      by constructor.
    + simpl in T. eexists. split; [exact T|]. destruct ops; [done|]. simpl len. rewrite A, En. by case_match.
Qed.

(** C23: a change merged onto the content it was made from, with nothing merged
    in between, gives exactly its new content, whatever the diff engine is, when
    for this change the script it leaves in the slice spells the old and the
    new content and no edit in it follows an insertion at offset 0, and the
    contents are not near 2^63 bytes long. *)
Theorem merge_rebuilds_change `{RangeOrder} engine now resolver m :
  let new := content_of (NewContent m) in let diffs := script engine (FOldContent m) new in
  FOperation m <> FileOpMkdir -> spells diffs (FOldContent m) new ->
  clear_start false diffs = true -> len (FOldContent m) + len new + len new < two63 ->
  mergedContent engine now resolver m [] (FOldContent m) = Ok new.
Proof.
  intros new diffs Op Sp C B. destruct (transformed_change engine now resolver m) as (ops & T & A); [done..|].
  unfold mergedContent. by rewrite T.
Qed.

(** An engine whose cleanup leaves the script as it is. *)
Definition plain_engine (diff_main : bytes -> bytes -> list Diff) : DiffEngine := mkEngine diff_main (fun diffs => (diffs, diffs)).

(** The script that replaces the whole content. *)
Definition replace_all (old new : bytes) : list Diff := [mkDiff DiffDelete old; mkDiff DiffInsert new].

Definition sample_change (old new : string) : FileModification :=
  mkFileModification "f" "" FileOpModify "durable" 0 zero_hash zero_hash (Some (str_bytes new)) (str_bytes old).

Lemma merge_rebuilds_change_witness :
  mergedContent (H := range_id) (plain_engine replace_all) (fun _ => 0) None (sample_change "hello" "help") []
    (str_bytes "hello") = Ok (str_bytes "help").
Proof.
  apply (merge_rebuilds_change (H := range_id) (plain_engine replace_all) (fun _ => 0) None (sample_change "hello" "help")).
  - discriminate.
  - split; reflexivity.
  - reflexivity.
  - reflexivity.
Defined.

(** The script of a change at both ends of a file. *)
Definition both_ends (old new : bytes) : list Diff :=
  [mkDiff DiffInsert (str_bytes "X"); mkDiff DiffEqual old; mkDiff DiffInsert (str_bytes "Y")].

(** After an insertion at the start of the file the later edits of the same
    change are applied at their old offsets: merging the change of [hello]
    into [XhelloY] onto [hello] itself gives [XhellYo]. *)
Theorem merge_corrupts_after_start :
  let m := sample_change "hello" "XhelloY" in
  spells (script (plain_engine both_ends) (FOldContent m) (content_of (NewContent m))) (FOldContent m) (content_of (NewContent m)) /\
  mergedContent (H := range_id) (plain_engine both_ends) (fun _ => 0) None m [] (FOldContent m)
    = Ok (str_bytes "XhellYo").
Proof. vm_compute. split_and!; reflexivity. Qed.

(** A cleanup in place that moves what is left of the script to the front and
    leaves the end of the slice as it was, with the result in the front. *)
Definition in_place (shorter : list Diff -> list Diff) (diffs : list Diff) : list Diff * list Diff :=
  let kept := shorter diffs in (kept, kept ++ drop (length kept) diffs).

(** The first equality taken into the edits around it. *)
Definition join_first (diffs : list Diff) : list Diff :=
  match diffs with
  | [mkDiff DiffDelete a; mkDiff DiffEqual b; mkDiff DiffDelete c; mkDiff DiffInsert d] =>
    [mkDiff DiffDelete (a ++ b ++ c); mkDiff DiffInsert (b ++ d)]
  | _ => diffs
  end.

Definition two_deletions (old new : bytes) : list Diff :=
  [mkDiff DiffDelete (take 1 old); mkDiff DiffEqual (take 1 (drop 1 old)); mkDiff DiffDelete (drop 2 old); mkDiff DiffInsert (drop 1 new)].

(** Both the script of the engine and the one its cleanup returns spell the
    change; the slice that the loop goes over does not, when the cleanup works
    in place, and merging the change onto its own old content then fails. *)
Theorem dropped_cleanup_corrupts :
  let engine := mkEngine two_deletions (in_place join_first) in
  let m := sample_change "abc" "bX" in let old := FOldContent m in let new := content_of (NewContent m) in
  spells (DiffMain engine old new) old new /\
  spells (DiffCleanupEfficiency engine (DiffMain engine old new)).1 old new /\
  mergedContent (H := range_id) engine (fun _ => 0) None m [] old <> Ok new.
Proof. vm_compute. split_and!; first [reflexivity|discriminate]. Qed.
