(* ===== verification/FileVersion.v ===== *)
(** * Versions of a file (core/versioning/file_version.go)

    A version is a value; the [*string] of its variant group is an [option].
    [SetVariant] and [AddOperation], which update the receiver, return it. *)

From S2P Require Import Prelude GoStd Ids.
From S2P Require Export VectorClock.

Module FileVersion.

Record FileVersion := mkFileVersion {
  ID : VersionID;
  FilePath : string;
  Parents : list VersionID;
  Operations : list OperationID;
  ContentHash_ : ContentHash;
  ContentSize : Z;
  Clock : VectorClock;
  Timestamp : Z;
  PipelineID : string;
  SessionID_ : SessionID;
  IsMerge : bool;
  VariantGroupID : option string;
  VariantLabel : string
}.

Section Ops.
Context `{RangeOrder}.

Definition buildMetadata (filePath : string) (parents : list VersionID) (pipelineID : string)
    (sessionID : SessionID) : bytes :=
  str_bytes filePath ++ mjoin parents ++ str_bytes pipelineID ++ str_bytes sessionID.

Definition cloneVersionIDs (ids : list VersionID) : list VersionID := ids.
Definition cloneOperationIDs (ids : list OperationID) : list OperationID := ids.

Definition NewFileVersion (filePath : string) (content : bytes) (parents : list VersionID)
    (operations : list OperationID) (pipelineID : string) (sessionID : SessionID)
    (clock : VectorClock) (now : Z) : FileVersion :=
  let contentHash := ComputeContentHash content in
  let metadata := buildMetadata filePath parents pipelineID sessionID in
  mkFileVersion (ComputeVersionID content metadata) filePath (cloneVersionIDs parents)
    (cloneOperationIDs operations) contentHash (len content) (VectorClock.Clone clock) now
    pipelineID sessionID (1 <? len parents) None "".

Definition Clone (fv : FileVersion) : FileVersion :=
  mkFileVersion (ID fv) (FilePath fv) (cloneVersionIDs (Parents fv))
    (cloneOperationIDs (Operations fv)) (ContentHash_ fv) (ContentSize fv)
    (VectorClock.Clone (Clock fv)) (Timestamp fv) (PipelineID fv) (SessionID_ fv) (IsMerge fv)
    (VariantGroupID fv) (VariantLabel fv).

Definition HasParent (fv : FileVersion) (id : VersionID) : bool :=
  existsb (fun p => bool_decide (p = id)) (Parents fv).

Definition IsRoot (fv : FileVersion) : bool := len (Parents fv) =? 0.
Definition IsVariant (fv : FileVersion) : bool :=
  match VariantGroupID fv with Some _ => true | None => false end.

Definition SetVariant (fv : FileVersion) (groupID label : string) : FileVersion :=
  mkFileVersion (ID fv) (FilePath fv) (Parents fv) (Operations fv) (ContentHash_ fv)
    (ContentSize fv) (Clock fv) (Timestamp fv) (PipelineID fv) (SessionID_ fv) (IsMerge fv)
    (Some groupID) label.

Definition AddOperation (fv : FileVersion) (opID : OperationID) : FileVersion :=
  mkFileVersion (ID fv) (FilePath fv) (Parents fv) (Operations fv ++ [opID]) (ContentHash_ fv)
    (ContentSize fv) (Clock fv) (Timestamp fv) (PipelineID fv) (SessionID_ fv) (IsMerge fv)
    (VariantGroupID fv) (VariantLabel fv).

(** Receivers and arguments are pointers: [None] is nil. *)
Definition Equal (fv other : option FileVersion) : bool :=
  match fv, other with
  | Some fv, Some other => bool_decide (ID fv = ID other)
  | None, None => true
  | _, _ => false
  end.
Definition HappensBefore (fv other : option FileVersion) : bool :=
  match fv, other with
  | Some fv, Some other => VectorClock.HappensBefore (Clock fv) (Clock other)
  | _, _ => false
  end.
Definition Concurrent (fv other : option FileVersion) : bool :=
  match fv, other with
  | Some fv, Some other => VectorClock.Concurrent (Clock fv) (Clock other)
  | _, _ => false
  end.

Lemma version_clone_eq fv : Clone fv = fv.
Proof. destruct fv. unfold Clone. simpl. by rewrite VectorClock.clock_clone_eq. Qed.

(** The hash behind a version's identifier has no separator between the
    content and the path: the bytes [x] may be the end of the content or
    the start of the path, and the two versions, whose contents and files
    differ, share one identifier. *)
Theorem version_id_unframed (x : string) path content parents ops pid sid clock now :
  ID (NewFileVersion path (content ++ str_bytes x) parents ops pid sid clock now) =
  ID (NewFileVersion (x +:+ path) content parents ops pid sid clock now).
Proof.
  unfold NewFileVersion, buildMetadata, ComputeVersionID. simpl.
  by rewrite str_bytes_app, <- !app_assoc.
Qed.
End Ops.
End FileVersion.
