(* ===== verification/BlobStore.v ===== *)
(** * The content-addressed blob store (core/versioning/blob_store.go)

    [MemoryBlobStore] keeps a map from hashes to contents and the sum of the
    sizes.  An operation under the write lock maps a store to a store. *)

From S2P Require Import Prelude GoStd Ids.

Module BlobStore.

Inductive blob_error := ErrBlobNotFound | ErrBlobExists.

Record MemoryBlobStore := mkStore {
  blobs : gmap ContentHash bytes;
  size_ : Z
}.

Definition NewMemoryBlobStore : MemoryBlobStore := mkStore ∅ 0.

Definition cloneBlobContent (content : bytes) : bytes := content.

Definition Get (s : MemoryBlobStore) (hash : ContentHash) : result blob_error bytes :=
  match blobs s !! hash with
  | None => Err ErrBlobNotFound
  | Some content => Ok (cloneBlobContent content)
  end.

Definition Put (s : MemoryBlobStore) (content : bytes) : MemoryBlobStore * ContentHash :=
  let hash := ComputeContentHash content in
  match blobs s !! hash with
  | Some _ => (s, hash)
  | None =>
    (mkStore (<[hash := cloneBlobContent content]> (blobs s)) (i64 (size_ s + len content)), hash)
  end.

Definition Has (s : MemoryBlobStore) (hash : ContentHash) : bool :=
  match blobs s !! hash with Some _ => true | None => false end.

Definition Delete (s : MemoryBlobStore) (hash : ContentHash)
  : MemoryBlobStore * result blob_error unit :=
  match blobs s !! hash with
  | None => (s, Err ErrBlobNotFound)
  | Some content =>
    (mkStore (delete hash (blobs s)) (i64 (size_ s - len content)), Ok tt)
  end.

Definition Size (s : MemoryBlobStore) : Z := size_ s.
Definition Count (s : MemoryBlobStore) : Z := Z.of_nat (size (blobs s)).
Definition Clear (s : MemoryBlobStore) : MemoryBlobStore := mkStore ∅ 0.
Definition Hashes `{RangeOrder} (s : MemoryBlobStore) : list ContentHash :=
  range_order 0 (map_to_list (blobs s)).*1.

(* ------------------------------------------------------------------ *)
(** ** Any sequence of calls *)

Inductive call :=
| CPut (content : bytes)
| CDelete (hash : ContentHash)
| CClear.

Definition exec (s : MemoryBlobStore) (c : call) : MemoryBlobStore :=
  match c with
  | CPut content => (Put s content).1
  | CDelete hash => (Delete s hash).1
  | CClear => Clear s
  end.

Definition run (cs : list call) : MemoryBlobStore := foldl exec NewMemoryBlobStore cs.

(** The number of bytes a map of blobs holds. *)
Definition total (m : gmap ContentHash bytes) : Z := map_fold (fun _ c acc => len c + acc) 0 m.

Definition wf (s : MemoryBlobStore) : Prop :=
  map_Forall (fun h c => ComputeContentHash c = h) (blobs s) /\ size_ s = i64 (total (blobs s)).

Lemma total_insert m h c : m !! h = None -> total (<[h := c]> m) = len c + total m.
Proof.
  intros N. unfold total. rewrite map_fold_insert_L; [done| |done]. intros. lia.
Qed.

Lemma total_delete m h c : m !! h = Some c -> total (delete h m) = total m - len c.
Proof.
  intros S. rewrite <- (insert_delete_id m h c S) at 2.
  rewrite total_insert by apply lookup_delete_eq. lia.
Qed.

Lemma total_nonneg m : 0 <= total m.
Proof.
  induction m as [|h c m N IH] using map_ind; [done|].
  rewrite total_insert by done. pose proof (len_nonneg c). lia.
Qed.

Lemma blob_exec_wf s c : wf s -> wf (exec s c).
Proof.
  intros [Hh Hs]. destruct c as [content|h|]; simpl; unfold Put, Delete.
  - destruct (blobs s !! _) eqn:E; simpl; [done|]. split; simpl.
    + by apply map_Forall_insert_2.
    + by rewrite Hs, total_insert, i64_add_l, Z.add_comm by done.
  - destruct (blobs s !! h) eqn:E; simpl; [|done]. split; simpl.
    + by apply map_Forall_delete.
    + by rewrite Hs, (total_delete _ _ _ E), i64_sub_l.
  - split; [apply map_Forall_empty|reflexivity].
Qed.

Lemma blob_run_wf cs : wf (run cs).
Proof.
  unfold run. assert (W : wf NewMemoryBlobStore) by (split; [apply map_Forall_empty|reflexivity]).
  revert W. generalize NewMemoryBlobStore. induction cs as [|c cs IH]; intros s W; simpl; [done|].
  apply IH, blob_exec_wf, W.
Qed.

(** After any sequence of calls a blob is stored under the SHA-256 of its
    content and the recorded size is the number of stored bytes modulo
    2^64, hence exact while the store holds less than 2^63 bytes. *)
Theorem blob_store_invariant cs :
  let s := run cs in
  (forall h c, Get s h = Ok c -> sha256 c = h) /\
  size_ s = i64 (total (blobs s)) /\ (total (blobs s) < two63 -> Size s = total (blobs s)).
Proof.
  intros s. destruct (blob_run_wf cs) as [Hh Hs]. fold s in Hh, Hs. split_and!; [|done|].
  - intros h c. unfold Get. destruct (blobs s !! h) as [c'|] eqn:E; [|done].
    intros [= <-]. by apply Hh.
  - intros B. unfold Size. rewrite Hs. apply i64_id. split; [|done].
    pose proof (total_nonneg (blobs s)). unfold two63. lia.
Qed.

Lemma blob_store_invariant_witness :
  let s := run [CPut (str_bytes "abc"); CPut (str_bytes "de"); CPut (str_bytes "abc")] in
  sha256 (str_bytes "de") = ComputeContentHash (str_bytes "de") /\ Size s = 5.
Proof.
  pose proof (blob_store_invariant [CPut (str_bytes "abc"); CPut (str_bytes "de"); CPut (str_bytes "abc")])
    as (A & _ & B).
  split; [reflexivity|]. rewrite B; vm_compute; reflexivity.
Defined.

(** [Put] followed by [Get] returns the content stored, unless the store
    holds a different content with the same SHA-256, which is then a
    collision of the hash; the other blobs are unchanged. *)
Theorem put_get cs content :
  let s := run cs in
  let '(s', h) := Put s content in
  (Get s' h = Ok content \/
   exists other, Get s h = Ok other /\ other <> content /\ sha256 other = sha256 content) /\
  (forall h', h' <> h -> Get s' h' = Get s h') /\ Has s' h = true.
Proof.
  intros s. destruct (blob_run_wf cs) as [Hh _]. fold s in Hh.
  unfold Put, Get, Has, ComputeContentHash in *.
  destruct (blobs s !! sha256 content) as [c|] eqn:E; simpl.
  - rewrite E. split_and!; try done. destruct (decide (c = content)) as [->|N]; [by left|].
    right. exists c. split_and!; try done. by apply Hh.
  - rewrite lookup_insert_eq. split_and!; [by left| |done].
    intros h' N. by rewrite lookup_insert_ne.
Qed.

End BlobStore.
