(* ===== verification/OperationLog.v ===== *)
(** * The operation log (core/versioning/operation_log.go)

    [MemoryOperationLog] appends operations to a slice and indexes them by
    identifier, base version and file.  Reading an operation by an index out
    of range would panic: the readers return an [option], [None] being the
    panic.  The specification is the plain list of the appended operations:
    every reader is a filter of that list. *)

From S2P Require Import Prelude Ids Operation.

Module OperationLog.

Record MemoryOperationLog := mkLog {
  operations : list Operation;
  byID : gmap OperationID Z;
  byVersion : gmap VersionID (list Z);
  byFile : gmap string (list Z)
}.

Section Ops.
Context `{RangeOrder}.

Definition NewMemoryOperationLog : MemoryOperationLog := mkLog [] ∅ ∅ ∅.

(** [m[k] = append(m[k], idx)] *)
Definition append_at `{Countable K} (m : gmap K (list Z)) (k : K) (idx : Z) : gmap K (list Z) :=
  <[k := default [] (m !! k) ++ [idx]]> m.

Definition indexOperation (l : MemoryOperationLog) (op : Operation) (idx : Z)
  : MemoryOperationLog :=
  mkLog (operations l) (<[ID op := idx]> (byID l))
    (append_at (byVersion l) (BaseVersion op) idx) (append_at (byFile l) (FilePath op) idx).

Definition Append (l : MemoryOperationLog) (op : Operation) : MemoryOperationLog :=
  let idx := len (operations l) in
  indexOperation
    (mkLog (operations l ++ [Operation.Clone op]) (byID l) (byVersion l) (byFile l)) op idx.

(** [l.operations[idx].Clone()] *)
Definition read (l : MemoryOperationLog) (idx : Z) : option Operation :=
  Operation.Clone <$> index (operations l) idx.

(** [Ok None] is [ErrOperationNotFound]. *)
Definition Get (l : MemoryOperationLog) (id : OperationID) : option (option Operation) :=
  match byID l !! id with
  | None => Some None
  | Some idx => match read l idx with Some op => Some (Some op) | None => None end
  end.

Fixpoint collectOperations (l : MemoryOperationLog) (indices : list Z) : option (list Operation) :=
  match indices with
  | [] => Some []
  | idx :: indices =>
    match read l idx with
    | None => None
    | Some op => (op ::.) <$> collectOperations l indices
    end
  end.

Definition GetByVersion (l : MemoryOperationLog) (versionID : VersionID) : option (list Operation) :=
  collectOperations l (default [] (byVersion l !! versionID)).

Definition effectiveOpLimit (total limit : Z) : Z :=
  if (0 <? limit) && (limit <? total) then limit else total.

(** The loop runs over the indices from the last to the first; [reversed] is
    what is left of them in that order, [room] is [count - len(ops)]. *)
Fixpoint collectReverse (l : MemoryOperationLog) (reversed : list Z) (room : nat)
  : option (list Operation) :=
  match reversed, room with
  | idx :: reversed, S room =>
    match read l idx with
    | None => None
    | Some op => (op ::.) <$> collectReverse l reversed room
    end
  | _, _ => Some []
  end.

Definition collectOperationsWithLimit (l : MemoryOperationLog) (indices : list Z) (limit : Z)
  : option (list Operation) :=
  let count := effectiveOpLimit (len indices) limit in
  collectReverse l (reverse indices) (Z.to_nat count).

Definition GetByFile (l : MemoryOperationLog) (filePath : string) (limit : Z)
  : option (list Operation) :=
  collectOperationsWithLimit l (default [] (byFile l !! filePath)) limit.

Fixpoint findIn (l : MemoryOperationLog) (versionID : VersionID) (indices : list Z) : option Z :=
  match indices with
  | [] => Some (-1)
  | idx :: indices =>
    match index (operations l) idx with
    | None => None
    | Some op =>
      if bool_decide (BaseVersion op = versionID) then Some idx else findIn l versionID indices
    end
  end.

Definition findVersionIndex (l : MemoryOperationLog) (versionID : VersionID) (filePath : string)
  : option Z :=
  findIn l versionID (default [] (byFile l !! filePath)).

Definition collectOpsAfterIndex (l : MemoryOperationLog) (filePath : string) (startIdx : Z)
  : option (list Operation) :=
  collectOperations l (filter (fun idx => startIdx < idx) (default [] (byFile l !! filePath))).

Definition GetSince (l : MemoryOperationLog) (versionID : VersionID) (filePath : string)
  : option (list Operation) :=
  match findVersionIndex l versionID filePath with
  | None => None
  | Some startIdx => collectOpsAfterIndex l filePath startIdx
  end.

Definition Count (l : MemoryOperationLog) : Z := len (operations l).
Definition Clear (l : MemoryOperationLog) : MemoryOperationLog := mkLog [] ∅ ∅ ∅.

(* ---------------------------------------------------------------- *)
(** ** The positions of the operations that satisfy a test *)

Fixpoint entries (P : Operation -> bool) (k : Z) (ops : list Operation) : list (Z * Operation) :=
  match ops with
  | [] => []
  | op :: ops => (if P op then [(k, op)] else []) ++ entries P (k + 1) ops
  end.

Definition selected (P : Operation -> bool) (ops : list Operation) : list Operation :=
  filter (fun op => P op = true) ops.

Lemma entries_snoc P k ops op :
  entries P k (ops ++ [op]) = entries P k ops ++ (if P op then [(k + len ops, op)] else []).
Proof.
  revert k. induction ops as [|o ops IH]; intros k; simpl.
  - by rewrite app_nil_r, Z.add_0_r.
  - rewrite IH, <- app_assoc. do 3 f_equal. destruct (P op); [|done]. do 2 f_equal.
    unfold len. simpl length. lia.
Qed.

Lemma entries_ops P k ops : (entries P k ops).*2 = selected P ops.
Proof.
  revert k. induction ops as [|o ops IH]; intros k; simpl; [done|].
  rewrite fmap_app, IH. unfold selected. destruct (P o) eqn:E; simpl.
  - by rewrite filter_cons_True.
  - by rewrite filter_cons_False by (by rewrite E).
Qed.

Lemma entries_read P ops k op : (k, op) ∈ entries P 0 ops -> index ops k = Some op.
Proof.
  cut (forall pre, (k, op) ∈ entries P (len pre) ops -> index (pre ++ ops) k = Some op).
  { intros K. apply (K []). }
  induction ops as [|o ops IH]; intros pre; simpl; [by rewrite elem_of_nil|].
  rewrite elem_of_app. intros [E|E].
  - destruct (P o); [|by apply elem_of_nil in E]. apply list_elem_of_singleton in E as [= -> ->].
    apply index_app_here.
  - replace (len pre + 1) with (len (pre ++ [o])) in E by (rewrite len_app; reflexivity).
    apply IH in E. by rewrite <- app_assoc in E.
Qed.

Lemma entries_ge P k ops : Forall (fun e => k <= e.1) (entries P k ops).
Proof.
  revert k. induction ops as [|o ops IH]; intros k; simpl; [constructor|].
  apply Forall_app. split.
  - destruct (P o); repeat constructor. simpl. lia.
  - eapply Forall_impl; [apply IH|]. simpl. lia.
Qed.

Lemma entries_sorted P k ops : StronglySorted (fun a b => a.1 < b.1) (entries P k ops).
Proof.
  revert k. induction ops as [|o ops IH]; intros k; simpl; [constructor|].
  destruct (P o); simpl; [|apply IH]. constructor; [apply IH|].
  eapply Forall_impl; [apply entries_ge|]. simpl. lia.
Qed.

(* ---------------------------------------------------------------- *)
(** ** The indices agree with the list *)

Definition of_version (v : VersionID) (op : Operation) : bool := bool_decide (BaseVersion op = v).
Definition of_file (f : string) (op : Operation) : bool := bool_decide (FilePath op = f).
Definition of_id (id : OperationID) (op : Operation) : bool := bool_decide (ID op = id).

Definition wf (l : MemoryOperationLog) : Prop :=
  (forall id, byID l !! id = last (entries (of_id id) 0 (operations l)).*1) /\
  (forall v, default [] (byVersion l !! v) = (entries (of_version v) 0 (operations l)).*1) /\
  (forall f, default [] (byFile l !! f) = (entries (of_file f) 0 (operations l)).*1).

(** The log after the operations [ops] were appended to an empty log. *)
Definition log_of (ops : list Operation) : MemoryOperationLog :=
  foldl Append NewMemoryOperationLog ops.

Lemma append_at_lookup `{Countable K} (m : gmap K (list Z)) k k' idx :
  default [] (append_at m k idx !! k') =
  default [] (m !! k') ++ (if bool_decide (k = k') then [idx] else []).
Proof.
  unfold append_at. case_bool_decide as E.
  - subst. by rewrite lookup_insert_eq.
  - by rewrite lookup_insert_ne, app_nil_r.
Qed.

Lemma Append_wf l op : wf l -> wf (Append l op).
Proof.
  intros (I & V & F). unfold wf, Append, indexOperation. simpl. rewrite Operation.op_clone_eq.
  split_and!; intros x; rewrite entries_snoc, fmap_app, Z.add_0_l.
  - unfold of_id at 2. case_bool_decide as E; simpl.
    + subst. by rewrite lookup_insert_eq, last_snoc.
    + by rewrite lookup_insert_ne, app_nil_r.
  - rewrite append_at_lookup, V. f_equal. unfold of_version. by case_bool_decide.
  - rewrite append_at_lookup, F. f_equal. unfold of_file. by case_bool_decide.
Qed.

Lemma log_of_wf ops : wf (log_of ops) /\ operations (log_of ops) = ops.
Proof.
  induction ops as [|op ops [W E]] using rev_ind; unfold log_of; [by split_and!|].
  rewrite foldl_app. fold (log_of ops). simpl. split; [by apply Append_wf|].
  by rewrite E, Operation.op_clone_eq.
Qed.

(** Reading a list of entries never panics and gives their operations. *)
Lemma collect_entries l es :
  Forall (fun e => index (operations l) e.1 = Some e.2) es ->
  collectOperations l es.*1 = Some es.*2.
Proof.
  induction 1 as [|[k op] es E _ IH]; [done|]. rewrite !fmap_cons. cbn [collectOperations].
  unfold read. simpl in E |- *. rewrite E, IH. simpl. by rewrite Operation.op_clone_eq.
Qed.

Lemma collectReverse_entries l es n :
  Forall (fun e => index (operations l) e.1 = Some e.2) es ->
  collectReverse l es.*1 n = Some (take n es.*2).
Proof.
  intros F. revert n. induction F as [|[k op] es E _ IH]; intros [|n]; try done.
  rewrite !fmap_cons. cbn [collectReverse take].
  unfold read. simpl in E |- *. rewrite E, IH. simpl. by rewrite Operation.op_clone_eq.
Qed.

Lemma entries_valid P ops :
  Forall (fun e => index ops e.1 = Some e.2) (entries P 0 ops).
Proof. apply Forall_forall. intros [k op]. apply entries_read. Qed.

(** The operations of a file after the first one based on [v], all of them
    when there is none. *)
Fixpoint after_first (P : Operation -> bool) (ops : list Operation) : option (list Operation) :=
  match ops with
  | [] => None
  | op :: ops => if P op then Some ops else after_first P ops
  end.

Lemma since_entries l v es lo :
  Forall (fun e => index (operations l) e.1 = Some e.2) es ->
  StronglySorted (fun a b => a.1 < b.1) es -> Forall (fun e => lo < e.1) es -> -1 <= lo ->
  exists start, findIn l v es.*1 = Some start /\
    match after_first (of_version v) es.*2 with
    | None => start = -1
    | Some rest => lo < start /\ exists es',
        rest = es'.*2 /\ filter (fun idx => start < idx) es.*1 = es'.*1 /\
        Forall (fun e => index (operations l) e.1 = Some e.2) es'
    end.
Proof.
  intros F S. revert lo. induction es as [|[k op] es IH]; intros lo L B; [by eexists|].
  rewrite !fmap_cons. cbn [findIn after_first fst snd].
  apply Forall_cons in F as [E F]. apply StronglySorted_inv in S as [S Sk].
  apply Forall_cons in L as [Lk L]. simpl in E, Lk. rewrite E. unfold of_version at 1.
  case_bool_decide as V.
  - exists k. split_and!; try done. exists es. split_and!; try done.
    rewrite filter_cons_False by lia. apply list_filter_all.
    apply Forall_fmap. exact Sk.
  - destruct (IH F S k) as (start & -> & M); [done|lia|]. exists start. split; [done|].
    destruct (after_first (of_version v) es.*2) as [rest|]; [|done].
    destruct M as (? & es' & -> & Fl & ?). split; [lia|]. exists es'. split_and!; try done.
    by rewrite filter_cons_False by lia.
Qed.

(** After any sequence of appends every reader is a plain filter of the
    appended operations, in order, and never reads out of range: [Get] gives
    the last operation with the identifier, [GetByVersion] those based on a
    version, [GetByFile] the newest of a file first, at most [limit] of
    them when [limit] is positive, [GetSince] those of a file after the
    first one based on a version. *)
Theorem log_refines_list ops :
  let l := log_of ops in
  (forall id, Get l id = Some (last (selected (of_id id) ops))) /\
  (forall v, GetByVersion l v = Some (selected (of_version v) ops)) /\
  (forall f limit, GetByFile l f limit =
    let found := reverse (selected (of_file f) ops) in
    Some (if 0 <? limit then take (Z.to_nat limit) found else found)) /\
  (forall v f, GetSince l v f =
    let found := selected (of_file f) ops in
    Some (default found (after_first (of_version v) found))) /\
  Count l = len ops.
Proof.
  intros l. destruct (log_of_wf ops) as [(I & V & F) E]. fold l in I, V, F, E.
  rewrite E in *.
  split_and!.
  - intros id. unfold Get. rewrite I, <- (entries_ops _ 0), !fmap_last.
    destruct (last (entries (of_id id) 0 ops)) as [[k op]|] eqn:L; simpl; [|done].
    unfold read. apply last_Some_elem_of, entries_read in L.
    rewrite E, L. simpl. by rewrite Operation.op_clone_eq.
  - intros v. unfold GetByVersion. rewrite V, collect_entries, entries_ops; [done|].
    rewrite E. apply entries_valid.
  - intros f limit. unfold GetByFile, collectOperationsWithLimit. rewrite F.
    rewrite <- fmap_reverse, collectReverse_entries.
    2:{ rewrite E. apply Forall_reverse, entries_valid. }
    rewrite fmap_reverse, entries_ops. f_equal. unfold effectiveOpLimit. rewrite len_fmap.
    assert (N : len (entries (of_file f) 0 ops) = len (selected (of_file f) ops)).
    { by rewrite <- (entries_ops _ 0), len_fmap. }
    rewrite N. unfold len. destruct (Z.ltb_spec 0 limit); simpl;
      [destruct (Z.ltb_spec limit (Z.of_nat (length (selected (of_file f) ops))))|];
      [done| |]; rewrite !take_ge; try done; rewrite length_reverse; lia.
  - intros v f. unfold GetSince, findVersionIndex, collectOpsAfterIndex. rewrite F.
    destruct (since_entries l v (entries (of_file f) 0 ops) (-1)) as (start & -> & M).
    { rewrite E. apply entries_valid. }
    { apply entries_sorted. }
    { eapply Forall_impl; [apply entries_ge|]. simpl. lia. }
    { lia. }
    rewrite (entries_ops _ 0) in M. simpl.
    destruct (after_first (of_version v) _) as [rest|]; simpl.
    + destruct M as (_ & es' & -> & -> & F'). by apply collect_entries.
    + subst start. rewrite list_filter_all.
      * rewrite collect_entries, entries_ops; [done|]. rewrite E. apply entries_valid.
      * apply Forall_fmap. eapply Forall_impl; [apply entries_ge|]. simpl. lia.
  - unfold Count. by rewrite E.
Qed.
End Ops.
End OperationLog.
