(* ===== verification/DagStore.v ===== *)
(** * The version graph (core/versioning/dag_store.go)

    [MemoryDAGStore] keeps every version with its parents, the newest version
    of each file, the children of each version and the versions of each file
    in order of arrival.  A map of pointers that were stored is a map of
    values; dereferencing a missing one would panic, which is [None] in the
    readers.  The breadth-first walk of [traverseAncestors] is a loop with
    fuel; [traverse_fuel] bounds the number of its iterations. *)

From S2P Require Import Prelude Ids.
From S2P Require Export FileVersion.

Module DagStore.
Import FileVersion.

Inductive dag_error :=
| ErrVersionNotFound | ErrVersionExists | ErrInvalidParent | ErrCycleDetected | ErrNoVersionsForFile.

Record MemoryDAGStore := mkStore {
  versions : gmap VersionID FileVersion;
  heads : gmap string VersionID;
  children : gmap VersionID (list VersionID);
  fileIndex : gmap string (list VersionID)
}.

Section Ops.
Context `{RangeOrder}.

Definition NewMemoryDAGStore : MemoryDAGStore := mkStore ∅ ∅ ∅ ∅.

Definition Has (s : MemoryDAGStore) (id : VersionID) : bool :=
  match versions s !! id with Some _ => true | None => false end.

Definition validateParents (s : MemoryDAGStore) (version : FileVersion) : bool :=
  forallb (Has s) (Parents version).

Definition storeVersion (s : MemoryDAGStore) (version : FileVersion) : MemoryDAGStore :=
  mkStore (<[ID version := Clone version]> (versions s)) (heads s) (children s) (fileIndex s).

Definition addChild (id : VersionID) (m : gmap VersionID (list VersionID)) (parentID : VersionID)
  : gmap VersionID (list VersionID) :=
  <[parentID := default [] (m !! parentID) ++ [id]]> m.

Definition updateChildrenIndex (s : MemoryDAGStore) (version : FileVersion) : MemoryDAGStore :=
  mkStore (versions s) (heads s) (foldl (addChild (ID version)) (children s) (Parents version))
    (fileIndex s).

Definition updateIndices (s : MemoryDAGStore) (version : FileVersion) : MemoryDAGStore :=
  let s := mkStore (versions s) (<[FilePath version := ID version]> (heads s)) (children s)
    (<[FilePath version := default [] (fileIndex s !! FilePath version) ++ [ID version]]>
      (fileIndex s)) in
  updateChildrenIndex s version.

Definition Add (s : MemoryDAGStore) (version : FileVersion) : result dag_error MemoryDAGStore :=
  if Has s (ID version) then Err ErrVersionExists
  else if negb (validateParents s version) then Err ErrInvalidParent
  else Ok (updateIndices (storeVersion s version) version).

Definition Get (s : MemoryDAGStore) (id : VersionID) : result dag_error FileVersion :=
  match versions s !! id with
  | None => Err ErrVersionNotFound
  | Some version => Ok (Clone version)
  end.

Definition GetHead (s : MemoryDAGStore) (filePath : string)
  : option (result dag_error FileVersion) :=
  match heads s !! filePath with
  | None => Some (Err ErrNoVersionsForFile)
  | Some headID => (fun version => Ok (Clone version)) <$> versions s !! headID
  end.

Definition effectiveLimit (total limit : Z) : Z :=
  if (0 <? limit) && (limit <? total) then limit else total.

Fixpoint collectReverse (s : MemoryDAGStore) (reversed : list VersionID) (room : nat)
  : option (list FileVersion) :=
  match reversed, room with
  | id :: reversed, S room =>
    match versions s !! id with
    | None => None
    | Some version => (Clone version ::.) <$> collectReverse s reversed room
    end
  | _, _ => Some []
  end.

Definition collectVersionsReverse (s : MemoryDAGStore) (ids : list VersionID) (limit : Z)
  : option (list FileVersion) :=
  collectReverse s (reverse ids) (Z.to_nat (effectiveLimit (len ids) limit)).

Definition GetHistory (s : MemoryDAGStore) (filePath : string) (limit : Z)
  : option (list FileVersion) :=
  let ids := default [] (fileIndex s !! filePath) in
  if len ids =? 0 then Some [] else collectVersionsReverse s ids limit.

Definition collectVersions (s : MemoryDAGStore) (ids : list VersionID) : list FileVersion :=
  omap (fun id => Clone <$> versions s !! id) ids.

Definition GetChildren (s : MemoryDAGStore) (id : VersionID) : list FileVersion :=
  collectVersions s (default [] (children s !! id)).

Record ancestorContext := mkContext {
  ancestors : list FileVersion;
  visited : gset VersionID;
  queue : list VersionID;
  depth : Z
}.

Definition hasWork (c : ancestorContext) : bool :=
  (0 <? len (queue c)) && ((depth c <? 0) || (len (ancestors c) <? depth c)).

Definition addAncestorIfExists (s : MemoryDAGStore) (ctx : ancestorContext) (parentID : VersionID)
  : ancestorContext :=
  match versions s !! parentID with
  | None => ctx
  | Some parent =>
    mkContext (ancestors ctx ++ [Clone parent]) (visited ctx) (queue ctx ++ Parents parent)
      (depth ctx)
  end.

Definition processNextAncestor (s : MemoryDAGStore) (ctx : ancestorContext) : ancestorContext :=
  match queue ctx with
  | [] => ctx
  | parentID :: queue =>
    if bool_decide (parentID ∈ visited ctx)
    then mkContext (ancestors ctx) (visited ctx) queue (depth ctx)
    else addAncestorIfExists s
      (mkContext (ancestors ctx) ({[parentID]} ∪ visited ctx) queue (depth ctx)) parentID
  end.

(** [for ctx.hasWork() { ... }], [None] when the fuel runs out. *)
Fixpoint traverse (fuel : nat) (s : MemoryDAGStore) (ctx : ancestorContext)
  : option ancestorContext :=
  if hasWork ctx then
    match fuel with
    | O => None
    | S fuel => traverse fuel s (processNextAncestor s ctx)
    end
  else Some ctx.

(** The parents of the versions not yet visited: what the queue can still
    receive. *)
Definition pending (s : MemoryDAGStore) (seen : gset VersionID) : nat :=
  map_fold (fun id v acc => if bool_decide (id ∈ seen) then acc else length (Parents v) + acc)%nat
    0%nat (versions s).

Definition traverse_fuel (s : MemoryDAGStore) (ctx : ancestorContext) : nat :=
  (length (queue ctx) + pending s (visited ctx))%nat.

Definition traverseAncestors (s : MemoryDAGStore) (start : FileVersion) (depth : Z)
  : option (list FileVersion) :=
  if depth =? 0 then Some []
  else
    let ctx := mkContext [] ∅ (Parents start) depth in
    ancestors <$> traverse (traverse_fuel s ctx) s ctx.

Definition GetAncestors (s : MemoryDAGStore) (id : VersionID) (depth : Z)
  : option (result dag_error (list FileVersion)) :=
  match versions s !! id with
  | None => Some (Err ErrVersionNotFound)
  | Some version => Ok <$> traverseAncestors s version depth
  end.

Definition Count (s : MemoryDAGStore) : Z := Z.of_nat (size (versions s)).
Definition Clear (s : MemoryDAGStore) : MemoryDAGStore := mkStore ∅ ∅ ∅ ∅.
Definition Files (s : MemoryDAGStore) : list string := range_keys 1 (heads s).

(* ---------------------------------------------------------------- *)
(** ** The graph and its invariant *)

Definition parent (s : MemoryDAGStore) (id p : VersionID) : Prop :=
  exists v, versions s !! id = Some v /\ p ∈ Parents v.

Definition file_ids (s : MemoryDAGStore) (f : string) : list VersionID :=
  default [] (fileIndex s !! f).
Definition child_ids (s : MemoryDAGStore) (p : VersionID) : list VersionID :=
  default [] (children s !! p).

Record wf (s : MemoryDAGStore) : Prop := {
  wf_id : forall id v, versions s !! id = Some v -> ID v = id;
  wf_parents : forall id p, parent s id p -> is_Some (versions s !! p);
  wf_acyclic : forall id, ~ tc (parent s) id id;
  wf_heads : forall f, heads s !! f = last (file_ids s f);
  wf_files : forall f id, id ∈ file_ids s f <->
    exists v, versions s !! id = Some v /\ FilePath v = f;
  wf_nodup : forall f, NoDup (file_ids s f);
  wf_children : forall p c, c ∈ child_ids s p <-> parent s c p
}.

Lemma Has_true s id : Has s id = true <-> is_Some (versions s !! id).
Proof. unfold Has. destruct (versions s !! id); split; try done. Qed.

Lemma validateParents_true s v :
  validateParents s v = true <-> forall p, p ∈ Parents v -> is_Some (versions s !! p).
Proof.
  unfold validateParents. rewrite forallb_forall. split; intros K p Hp.
  - apply Has_true, K. by apply list_elem_of_In.
  - apply Has_true, K. by apply list_elem_of_In.
Qed.

(** What [Add] does to each map when it succeeds. *)
Lemma addChild_fold id ps m p c :
  c ∈ default [] (foldl (addChild id) m ps !! p) <->
  c ∈ default [] (m !! p) \/ (c = id /\ p ∈ ps).
Proof.
  revert m. induction ps as [|q ps IH]; intros m; simpl; [set_solver|].
  rewrite IH. unfold addChild. destruct (decide (q = p)) as [->|N].
  - rewrite lookup_insert_eq. simpl. rewrite elem_of_app. set_solver.
  - rewrite lookup_insert_ne by done. set_solver.
Qed.

Section Added.
Variables (s : MemoryDAGStore) (v : FileVersion) (s' : MemoryDAGStore).
Hypothesis added : Add s v = Ok s'.

Lemma added_new : versions s !! ID v = None /\
  (forall p, p ∈ Parents v -> is_Some (versions s !! p)).
Proof.
  revert added. unfold Add. destruct (Has s (ID v)) eqn:E; [done|].
  destruct (validateParents s v) eqn:P; [|done]. intros _. split.
  - apply eq_None_not_Some. rewrite <- Has_true. congruence.
  - by apply validateParents_true.
Qed.

Lemma added_eq : s' = updateIndices (storeVersion s v) v.
Proof. revert added. unfold Add. by repeat case_match; intros [= <-]. Qed.

Lemma added_versions : versions s' = <[ID v := v]> (versions s).
Proof. rewrite added_eq. simpl. by rewrite version_clone_eq. Qed.

Lemma added_parent id p :
  parent s' id p <-> parent s id p \/ (id = ID v /\ p ∈ Parents v).
Proof.
  unfold parent. rewrite added_versions. destruct (decide (id = ID v)) as [->|N].
  - rewrite lookup_insert_eq. destruct added_new as [-> _]. naive_solver.
  - rewrite lookup_insert_ne by done. naive_solver.
Qed.

Lemma added_files f :
  file_ids s' f = file_ids s f ++ (if bool_decide (FilePath v = f) then [ID v] else []).
Proof.
  rewrite added_eq. unfold file_ids. simpl. case_bool_decide as E.
  - subst. by rewrite lookup_insert_eq.
  - by rewrite lookup_insert_ne, app_nil_r.
Qed.

(** A path of the new graph that starts at an old version is an old path:
    nothing points to the new version. *)
Lemma added_path x y : wf s -> tc (parent s') x y -> x <> ID v -> tc (parent s) x y.
Proof.
  intros W. destruct added_new as [N Ps].
  assert (T : forall a b, a <> ID v -> parent s' a b -> parent s a b /\ b <> ID v).
  { intros a b Na Hab. apply added_parent in Hab as [Hab|[? _]]; [|done]. split; [done|].
    intros ->. destruct (wf_parents _ W _ _ Hab). congruence. }
  induction 1 as [a b Hab|a b c Hab _ IH]; intros Na; destruct (T _ _ Na Hab).
  - by apply tc_once.
  - eapply tc_l; eauto.
Qed.

Lemma added_acyclic : wf s -> forall id, ~ tc (parent s') id id.
Proof.
  intros W id C. destruct added_new as [N Ps]. destruct (decide (id = ID v)) as [->|Ne].
  - apply tc_last in C as (y & _ & C). apply added_parent in C as [C|[_ C]].
    + destruct (wf_parents _ W _ _ C). congruence.
    + destruct (Ps _ C). congruence.
  - exact (wf_acyclic _ W _ (added_path _ _ W C Ne)).
Qed.

Lemma added_wf : wf s -> wf s'.
Proof.
  intros W. pose proof added_new as [N Ps]. split.
  - intros id w. rewrite added_versions. destruct (decide (id = ID v)) as [->|Ne].
    + rewrite lookup_insert_eq. by intros [= <-].
    + rewrite lookup_insert_ne by done. by apply wf_id.
  - intros id p Hp. rewrite added_versions. apply lookup_insert_is_Some'. right.
    apply added_parent in Hp as [Hp|[_ Hp]]; [by eapply wf_parents|by apply Ps].
  - by apply added_acyclic.
  - intros f. rewrite added_files, added_eq. simpl. case_bool_decide as E.
    + subst. by rewrite lookup_insert_eq, last_snoc.
    + rewrite lookup_insert_ne, app_nil_r by done. by apply wf_heads.
  - intros f id. rewrite added_files, elem_of_app, (wf_files _ W), added_versions.
    destruct (decide (id = ID v)) as [->|Ne].
    + rewrite lookup_insert_eq, N. case_bool_decide; set_solver.
    + rewrite lookup_insert_ne by done. case_bool_decide; set_solver.
  - intros f. rewrite added_files. apply NoDup_app. split_and!; [by apply wf_nodup| |].
    + intros id Hid. apply (wf_files _ W) in Hid as (w & Hw & _).
      case_bool_decide; [|set_solver]. rewrite list_elem_of_singleton. congruence.
    + case_bool_decide; [apply NoDup_singleton|constructor].
  - intros p c. unfold child_ids. rewrite added_parent, <- (wf_children _ W), added_eq. simpl.
    apply addChild_fold.
Qed.
End Added.

Inductive call := CAdd (v : FileVersion) | CClear.

Definition exec (s : MemoryDAGStore) (c : call) : MemoryDAGStore :=
  match c with
  | CAdd v => match Add s v with Ok s' => s' | Err _ => s end
  | CClear => Clear s
  end.

Definition run (cs : list call) : MemoryDAGStore := foldl exec NewMemoryDAGStore cs.

Lemma empty_wf : wf NewMemoryDAGStore.
Proof.
  assert (P : forall a b, ~ parent NewMemoryDAGStore a b).
  { intros a b (v & Hv & _). simpl in Hv. by rewrite lookup_empty in Hv. }
  split; unfold file_ids, child_ids; simpl; try (intros; by rewrite lookup_empty in * ).
  - intros id p Hp. by apply P in Hp.
  - intros id C. apply tc_last in C as (y & _ & C). by apply P in C.
  - intros f id. rewrite !lookup_empty. set_solver.
  - intros f. rewrite lookup_empty. constructor.
  - intros p c. rewrite lookup_empty. split; [set_solver|]. intros K. by apply P in K.
Qed.

Lemma dag_exec_wf s c : wf s -> wf (exec s c).
Proof.
  destruct c as [v|]; simpl; intros W; [|exact empty_wf].
  destruct (Add s v) eqn:E; [by eapply added_wf|done].
Qed.

Lemma dag_run_wf cs : wf (run cs).
Proof.
  unfold run. generalize empty_wf. generalize NewMemoryDAGStore.
  induction cs as [|c cs IH]; intros s W; simpl; [done|]. by apply IH, dag_exec_wf.
Qed.

(* ---------------------------------------------------------------- *)
(** ** The walk over the ancestors *)

Definition pend (m : gmap VersionID FileVersion) (seen : gset VersionID) : nat :=
  map_fold (fun id v acc => if bool_decide (id ∈ seen) then acc else length (Parents v) + acc)%nat
    0%nat m.

Lemma pend_insert m seen id v : m !! id = None ->
  pend (<[id := v]> m) seen =
  ((if bool_decide (id ∈ seen) then 0 else length (Parents v)) + pend m seen)%nat.
Proof.
  intros N. unfold pend. rewrite map_fold_insert_L; [by case_bool_decide| |done].
  intros. repeat case_bool_decide; lia.
Qed.

Lemma pend_visit_none m seen id : m !! id = None -> pend m ({[id]} ∪ seen) = pend m seen.
Proof.
  induction m as [|i v m N IH] using map_ind; intros E; [done|].
  apply lookup_insert_None in E as [E Ne]. rewrite !pend_insert, IH by done. f_equal.
  repeat case_bool_decide; set_solver.
Qed.

Lemma pend_visit m seen id v : m !! id = Some v -> id ∉ seen ->
  (length (Parents v) + pend m ({[id]} ∪ seen))%nat = pend m seen.
Proof.
  intros E N. rewrite <- (insert_delete_id m id v E).
  rewrite !pend_insert by apply lookup_delete_eq.
  rewrite pend_visit_none by apply lookup_delete_eq.
  rewrite bool_decide_eq_true_2 by set_solver. by rewrite bool_decide_eq_false_2.
Qed.

Lemma process_fuel s ctx :
  hasWork ctx = true -> traverse_fuel s ctx = S (traverse_fuel s (processNextAncestor s ctx)).
Proof.
  unfold hasWork, traverse_fuel, processNextAncestor. destruct ctx as [anc seen [|p q] d]; [done|].
  simpl. intros _. change (pending s ?x) with (pend (versions s) x).
  case_bool_decide as V; simpl; [done|].
  unfold addAncestorIfExists. destruct (versions s !! p) as [v|] eqn:E; simpl.
  - rewrite length_app, <- (pend_visit _ _ _ _ E V). unfold pending, pend. lia.
  - unfold pending. fold (pend (versions s) ({[p]} ∪ seen)). by rewrite pend_visit_none.
Qed.

(** The loop stops within its fuel. *)
Lemma traverse_total s ctx : exists out, traverse (traverse_fuel s ctx) s ctx = Some out.
Proof.
  remember (traverse_fuel s ctx) as n eqn:E. revert ctx E.
  induction n as [|n IH]; intros ctx E; simpl; destruct (hasWork ctx) eqn:W; eauto.
  - rewrite process_fuel in E by done. done.
  - apply IH. rewrite process_fuel in E by done. congruence.
Qed.

(** The invariant of the walk from [start]. *)
Record walked (s : MemoryDAGStore) (start : VersionID) (ctx : ancestorContext) : Prop := {
  walked_nodup : NoDup (ID <$> ancestors ctx);
  walked_visited : forall x, x ∈ visited ctx <-> x ∈ ID <$> ancestors ctx;
  walked_stored : Forall (fun a => versions s !! ID a = Some a) (ancestors ctx);
  walked_sound : forall x, x ∈ visited ctx \/ x ∈ queue ctx -> tc (parent s) start x;
  walked_closed : forall x p, x = start \/ x ∈ visited ctx -> parent s x p ->
    p ∈ visited ctx \/ p ∈ queue ctx
}.

Lemma walked_start s id v d :
  versions s !! id = Some v -> walked s id (mkContext [] ∅ (Parents v) d).
Proof.
  intros E. split; simpl; [constructor|set_solver|constructor| |].
  - intros x [Hx|Hx]; [set_solver|]. apply tc_once. by exists v.
  - intros x p [->|Hx] (w & Hw & Hp); [|set_solver]. right. congruence.
Qed.

Lemma walked_step s start ctx :
  wf s -> walked s start ctx -> walked s start (processNextAncestor s ctx).
Proof.
  intros W I. unfold processNextAncestor. destruct ctx as [anc seen [|p q] d]; [done|]. simpl.
  destruct I as [Nd Vi St So Cl]; simpl in *. case_bool_decide as V.
  - split; simpl; try done; [set_solver|]. intros x y Hx Hy.
    destruct (Cl x y Hx Hy) as [?|Hq]; [by left|]. apply elem_of_cons in Hq as [->|?]; auto.
  - assert (Tp : tc (parent s) start p) by (apply So; set_solver).
    assert (Ex : is_Some (versions s !! p)).
    { apply tc_last in Tp as (z & _ & Hz). by eapply wf_parents. }
    destruct Ex as [v E]. unfold addAncestorIfExists. simpl. rewrite E, version_clone_eq.
    pose proof (wf_id _ W _ _ E) as Ei. split; simpl.
    + rewrite fmap_app. apply NoDup_app. split_and!; [done| |apply NoDup_singleton].
      intros x Hx. apply Vi in Hx. simpl. rewrite list_elem_of_singleton. congruence.
    + intros x. rewrite fmap_app, elem_of_app, <- Vi. simpl. set_solver.
    + apply Forall_app. split; [done|]. constructor; [congruence|constructor].
    + intros x Hx. rewrite elem_of_union, elem_of_singleton, elem_of_app in Hx.
      destruct Hx as [[->|?]|[?|Hx]]; [done|apply So; set_solver..|].
      eapply tc_r; [exact Tp|]. by exists v.
    + intros x y Hx (w & Hw & Hy). rewrite elem_of_union, elem_of_singleton, elem_of_app.
      destruct (decide (x = p)) as [->|Ne]; [right; right; congruence|].
      destruct (Cl x y) as [?|Hq]; [set_solver|by exists w|set_solver|].
      apply elem_of_cons in Hq as [->|?]; auto.
Qed.

Lemma traverse_walked n s start ctx out :
  wf s -> walked s start ctx -> traverse n s ctx = Some out ->
  walked s start out /\ hasWork out = false /\ depth out = depth ctx.
Proof.
  intros W. revert ctx. induction n as [|n IH]; intros ctx I; simpl;
    destruct (hasWork ctx) eqn:E; try done; try (by intros [= <-]).
  intros T. apply IH in T as (? & ? & D); [|by apply walked_step]. split_and!; try done.
  rewrite D. unfold processNextAncestor, addAncestorIfExists. by repeat case_match.
Qed.

(** Stopping after [d] versions gives the first [d] of the whole walk. *)
Definition bounded (ctx : ancestorContext) (d : Z) : ancestorContext :=
  mkContext (ancestors ctx) (visited ctx) (queue ctx) d.

Lemma process_bounded s ctx d :
  processNextAncestor s (bounded ctx d) = bounded (processNextAncestor s ctx) d.
Proof.
  destruct ctx as [anc seen [|p q] ?]; [done|].
  unfold processNextAncestor, addAncestorIfExists, bounded. simpl.
  case_bool_decide; [done|]. simpl. by destruct (versions s !! p).
Qed.

Lemma process_grows s ctx : exists more,
  ancestors (processNextAncestor s ctx) = ancestors ctx ++ more /\ (length more <= 1)%nat.
Proof.
  unfold processNextAncestor, addAncestorIfExists.
  repeat case_match; simpl; try (eexists; split; [reflexivity|simpl; lia]).
  all: exists []; rewrite app_nil_r; simpl; split; [done|lia].
Qed.

Lemma traverse_grows n s ctx out :
  traverse n s ctx = Some out -> exists more, ancestors out = ancestors ctx ++ more.
Proof.
  revert ctx. induction n as [|n IH]; intros ctx; simpl; destruct (hasWork ctx); try done;
    try (intros [= <-]; exists []; by rewrite app_nil_r).
  intros T. destruct (IH _ T) as [m1 ->]. destruct (process_grows s ctx) as (m2 & -> & _).
  exists (m2 ++ m1). by rewrite app_assoc.
Qed.

Lemma traverse_bounded n s ctx out d :
  0 <= d -> depth ctx = -1 -> len (ancestors ctx) <= d -> traverse n s ctx = Some out ->
  exists out', traverse n s (bounded ctx d) = Some out' /\
    ancestors out' = take (Z.to_nat d) (ancestors out).
Proof.
  intros D. revert ctx. induction n as [|n IH]; intros ctx Dc L T.
  all: assert (Hw : hasWork (bounded ctx d) = hasWork ctx && (len (ancestors ctx) <? d)).
  1, 3: unfold hasWork; simpl; rewrite Dc; simpl;
    destruct (Z.ltb_spec d 0); [lia|]; simpl; by rewrite andb_true_r.
  all: pose proof T as T'; simpl in T' |- *; rewrite Hw; destruct (hasWork ctx) eqn:W; try done; simpl.
  1, 3: injection T' as <-; eexists; (split; [reflexivity|]); simpl;
    rewrite take_ge; [done|unfold len in L; lia].
  destruct (Z.ltb_spec (len (ancestors ctx)) d) as [Lt|Ge].
  - rewrite process_bounded. apply IH; [| |done].
    + unfold processNextAncestor, addAncestorIfExists. by repeat case_match.
    + destruct (process_grows s ctx) as (m & -> & Lm). rewrite len_app.
      unfold len in *. lia.
  - destruct (traverse_grows _ _ _ _ T) as [more ->]. eexists; split; [reflexivity|]. simpl.
    unfold len in *. rewrite take_app_le, take_ge by lia. done.
Qed.

(* ---------------------------------------------------------------- *)
(** ** Correctness *)

Lemma Get_ok s id v : Get s id = Ok v <-> versions s !! id = Some v.
Proof.
  unfold Get. destruct (versions s !! id); [|done]. rewrite version_clone_eq.
  split; by intros [= ->].
Qed.

(** The stored versions with the identifiers [ids], all of which exist. *)
Lemma collectReverse_stored s ids n :
  wf s -> (forall id, id ∈ ids -> is_Some (versions s !! id)) ->
  exists vs, collectReverse s ids n = Some vs /\ ID <$> vs = take n ids /\
    Forall (fun v => versions s !! ID v = Some v) vs.
Proof.
  intros W. revert n. induction ids as [|id ids IH]; intros n S; [by exists []; destruct n|].
  destruct n as [|n]; [by exists []|]. simpl.
  destruct (S id) as [v E]; [set_solver|]. rewrite E, version_clone_eq.
  destruct (IH n) as (vs & -> & Es & F); [set_solver|]. exists (v :: vs).
  pose proof (wf_id _ W _ _ E). split; [done|]. simpl. split; [by f_equal|].
  constructor; [congruence|done].
Qed.

Lemma history_stored s f limit : wf s ->
  exists vs, GetHistory s f limit = Some vs /\
    ID <$> vs = take (Z.to_nat (effectiveLimit (len (file_ids s f)) limit)) (reverse (file_ids s f)) /\
    Forall (fun v => versions s !! ID v = Some v) vs.
Proof.
  intros W. unfold GetHistory, collectVersionsReverse. fold (file_ids s f).
  destruct (Z.eqb_spec (len (file_ids s f)) 0) as [E|_].
  - exists []. split; [done|]. split; [|constructor].
    unfold len in E. destruct (file_ids s f); [|done]. by rewrite reverse_nil, take_nil.
  - apply collectReverse_stored; [done|]. intros id Hid.
    rewrite elem_of_reverse in Hid. apply (wf_files _ W) in Hid as (v & -> & _). done.
Qed.

(** Stored versions are determined by their identifiers. *)
Lemma stored_ids_inj s vs ws :
  Forall (fun v => versions s !! ID v = Some v) vs ->
  Forall (fun v => versions s !! ID v = Some v) ws -> ID <$> vs = ID <$> ws -> vs = ws.
Proof.
  intros F. revert ws. induction F as [|v vs E F IH]; intros [|w ws] G I; try done.
  apply Forall_cons in G as [Ew G]. injection I as I1 I2. f_equal; [congruence|by apply IH].
Qed.

(** [Add] is decided by its two checks, which leave the store as it was
    when they fail; when they succeed the version is stored and is the head
    of its file, and every other version and head is what it was. *)
Theorem add_functional s v :
  match Add s v with
  | Err e =>
    (e = ErrVersionExists /\ is_Some (versions s !! ID v)) \/
    (e = ErrInvalidParent /\ versions s !! ID v = None /\
      exists p, p ∈ Parents v /\ versions s !! p = None)
  | Ok s' =>
    versions s !! ID v = None /\ (forall p, p ∈ Parents v -> Has s p = true) /\
    Get s' (ID v) = Ok v /\ (forall id, id <> ID v -> Get s' id = Get s id) /\
    GetHead s' (FilePath v) = Some (Ok v) /\
    (forall f, f <> FilePath v -> heads s' !! f = heads s !! f) /\ Count s' = Count s + 1
  end.
Proof.
  destruct (Add s v) as [s'|e] eqn:A.
  - destruct (added_new _ _ _ A) as [N P]. pose proof (added_versions _ _ _ A) as E.
    unfold Get, GetHead, Count. rewrite E, lookup_insert_eq, version_clone_eq, map_size_insert_None by done.
    split_and!; try done; try lia.
    + intros p Hp. by apply Has_true, P.
    + intros id Hid. by rewrite lookup_insert_ne.
    + rewrite (added_eq _ _ _ A). simpl. rewrite !lookup_insert_eq. simpl. by rewrite version_clone_eq.
    + intros f Hf. rewrite (added_eq _ _ _ A). simpl. by rewrite lookup_insert_ne.
  - revert A. unfold Add. destruct (Has s (ID v)) eqn:Hs; simpl.
    + intros [= <-]. left. by rewrite <- Has_true.
    + destruct (validateParents s v) eqn:Ps; simpl; [done|]. intros [= <-]. right.
      split; [done|]. unfold Has in Hs. split; [by destruct (versions s !! ID v)|].
      unfold validateParents in Ps. apply forallb_exists_false in Ps as (p & Hp & Np).
      exists p. split; [done|]. unfold Has in Np. by destruct (versions s !! p).
Qed.

(** After any sequence of calls the parents of every version are stored,
    no version is its own ancestor, and [GetChildren] lists exactly the
    versions that name it as a parent. *)
Theorem dag_invariant cs :
  let s := run cs in
  (forall id v, Get s id = Ok v -> ID v = id /\ forall p, p ∈ Parents v -> Has s p = true) /\
  (forall id, ~ tc (parent s) id id) /\
  (forall p c, c ∈ ID <$> GetChildren s p <-> parent s c p).
Proof.
  intros s. pose proof (dag_run_wf cs) as W. fold s in W. split_and!.
  - intros id v E. apply Get_ok in E. split; [by eapply wf_id|]. intros p Hp.
    apply Has_true. eapply wf_parents; [done|]. by exists v.
  - by apply wf_acyclic.
  - intros p c. rewrite <- (wf_children _ W). unfold GetChildren, collectVersions.
    fold (child_ids s p). rewrite list_elem_of_fmap. split.
    + intros (v & -> & Hv). apply list_elem_of_omap in Hv as (id & Hid & E).
      destruct (versions s !! id) as [w|] eqn:Ew; [|done]. simpl in E.
      injection E as <-. rewrite version_clone_eq. by rewrite (wf_id _ W _ _ Ew).
    + intros Hc. pose proof Hc as (v & Ev & _)%(wf_children _ W). exists v.
      rewrite (wf_id _ W _ _ Ev). split; [done|]. apply list_elem_of_omap. exists c.
      by rewrite Ev; simpl; rewrite version_clone_eq.
Qed.

(** After any sequence of calls [GetHistory] gives the versions of a file
    without repetition, all of them when the limit is not positive, and its
    first element is what [GetHead] returns; neither dereferences nil. *)
Theorem history_exact cs f :
  let s := run cs in
  exists vs, GetHistory s f 0 = Some vs /\ NoDup (ID <$> vs) /\
    (forall v, v ∈ vs <-> Get s (ID v) = Ok v /\ FilePath v = f) /\
    GetHead s f = Some match vs with v :: _ => Ok v | [] => Err ErrNoVersionsForFile end /\
    (forall limit, 0 < limit -> GetHistory s f limit = Some (take (Z.to_nat limit) vs)).
Proof.
  intros s. pose proof (dag_run_wf cs) as W. fold s in W.
  destruct (history_stored s f 0 W) as (vs & G & I & F).
  unfold effectiveLimit in I. simpl in I. unfold len in I. rewrite Nat2Z.id in I.
  rewrite take_ge in I by by rewrite length_reverse.
  exists vs. split; [done|]. split_and!.
  - rewrite I, reverse_Permutation. by apply wf_nodup.
  - intros v. rewrite Get_ok. split.
    + intros Hv. rewrite Forall_forall in F. split; [by apply F|].
      assert (Hi : ID v ∈ file_ids s f) by (rewrite <- elem_of_reverse, <- I; by apply list_elem_of_fmap_2).
      apply (wf_files _ W) in Hi as (w & Hw & <-). specialize (F _ Hv). congruence.
    + intros [Ev Ef]. assert (Hi : ID v ∈ ID <$> vs).
      { rewrite I, elem_of_reverse. apply (wf_files _ W). by exists v. }
      apply list_elem_of_fmap in Hi as (w & Ei & Hw). rewrite Forall_forall in F.
      specialize (F _ Hw). replace v with w by congruence. done.
  - unfold GetHead. rewrite (wf_heads _ W), <- head_reverse, <- I. destruct vs as [|v vs]; simpl; [done|].
    apply Forall_cons in F as [Ev _]. by rewrite Ev; simpl; rewrite version_clone_eq.
  - intros limit L. destruct (history_stored s f limit W) as (ws & -> & J & F'). f_equal.
    apply stored_ids_inj with s; [done|by apply Forall_take|].
    rewrite fmap_take, I, J. unfold effectiveLimit, len.
    destruct (Z.ltb_spec 0 limit); [|lia]. simpl.
    destruct (Z.ltb_spec limit (Z.of_nat (length (file_ids s f)))); [done|].
    rewrite !take_ge; [done|rewrite length_reverse; lia..].
Qed.

(** The whole walk from a stored version. *)
Lemma ancestors_walk s id v : wf s -> versions s !! id = Some v ->
  exists ctx, traverse (traverse_fuel s (mkContext [] ∅ (Parents v) (-1))) s
      (mkContext [] ∅ (Parents v) (-1)) = Some ctx /\
    walked s id ctx /\ queue ctx = [].
Proof.
  intros W E. destruct (traverse_total s (mkContext [] ∅ (Parents v) (-1))) as [ctx T].
  exists ctx. split; [done|].
  destruct (traverse_walked _ _ _ _ _ W (walked_start _ _ _ _ E) T) as (I & Hw & D).
  split; [done|]. unfold hasWork in Hw. rewrite D in Hw. simpl in Hw. rewrite andb_true_r in Hw.
  by destruct (queue ctx).
Qed.

(** Everything reachable has been visited once the queue is empty. *)
Lemma walked_complete s id ctx x :
  walked s id ctx -> queue ctx = [] -> tc (parent s) id x -> x ∈ visited ctx.
Proof.
  intros I Q T. assert (K : forall a b, tc (parent s) a b -> a = id \/ a ∈ visited ctx -> b ∈ visited ctx).
  { induction 1 as [a b R|a b c R _ IH]; intros Ha;
      (destruct (walked_closed _ _ _ I a b Ha R) as [V|V]; [|rewrite Q in V; by apply elem_of_nil in V]).
    - done.
    - apply IH. by right. }
  eapply K; eauto.
Qed.

(** The walk over the ancestors of a stored version ends, returns each
    proper ancestor exactly once and nothing else, and a depth limit [d]
    keeps the first [d] of them. *)
Theorem ancestors_exact cs id v :
  Get (run cs) id = Ok v ->
  exists vs, GetAncestors (run cs) id (-1) = Some (Ok vs) /\ NoDup (ID <$> vs) /\
    (forall w, w ∈ vs <-> Get (run cs) (ID w) = Ok w /\ tc (parent (run cs)) id (ID w)) /\
    (forall d, 0 <= d -> GetAncestors (run cs) id d = Some (Ok (take (Z.to_nat d) vs))).
Proof.
  pose proof (dag_run_wf cs) as W. set (s := run cs) in *. intros E. apply Get_ok in E.
  destruct (ancestors_walk s id v W E) as (ctx & T & I & Q).
  exists (ancestors ctx). unfold GetAncestors, traverseAncestors. rewrite E. simpl.
  rewrite T. split_and!; [done|apply I| |].
  - intros w. rewrite Get_ok. pose proof (walked_stored _ _ _ I) as St.
    rewrite Forall_forall in St. split.
    + intros Hw. split; [by apply St|]. apply (walked_sound _ _ _ I). left.
      apply (walked_visited _ _ _ I). by apply list_elem_of_fmap_2.
    + intros [Ew Tw]. pose proof (walked_complete _ _ _ _ I Q Tw) as V.
      apply (walked_visited _ _ _ I) in V. apply list_elem_of_fmap in V as (u & Eu & Hu).
      specialize (St _ Hu). replace w with u by congruence. done.
  - intros d D. destruct (Z.eqb_spec d 0) as [->|N]; [done|].
    destruct (fun K L => traverse_bounded _ _ _ _ d D K L T) as (out & T' & A); [done|exact D|].
    change (bounded _ d) with (mkContext [] ∅ (Parents v) d) in T'.
    change (traverse_fuel s (mkContext [] ∅ (Parents v) d))
      with (traverse_fuel s (mkContext [] ∅ (Parents v) (-1))).
    rewrite T'. simpl. by rewrite A.
Qed.
End Ops.

(** A graph with a merge: 1 is the root, 2 and 3 its children, 4 merges them. *)
Definition sample_version (id : byte) (parents : list byte) : FileVersion :=
  mkFileVersion [id] "f" ((fun b => [b]) <$> parents) [] zero_hash 0 ∅ 0 "" "" false None "".
Definition sample_calls : list call :=
  [CAdd (sample_version x01 []); CAdd (sample_version x02 [x01]); CAdd (sample_version x03 [x01]);
   CAdd (sample_version x04 [x02; x03]); CAdd (sample_version x05 [x09])].

Lemma ancestors_exact_witness :
  exists vs, GetAncestors (H := range_id) (run (H := range_id) sample_calls) [x04] (-1) = Some (Ok vs) /\
    tc (parent (run (H := range_id) sample_calls)) [x04] [x01].
Proof.
  destruct (ancestors_exact (H := range_id) sample_calls [x04] (sample_version x04 [x02; x03]))
    as (vs & E & _ & M & _).
  - vm_compute. reflexivity.
  - exists vs. split; [exact E|]. apply (M (sample_version x01 [])).
    assert (Some (Ok vs) = Some (@Ok dag_error _ [sample_version x02 [x01]; sample_version x03 [x01];
      sample_version x01 []])) as [= ->].
    { rewrite <- E. vm_compute. reflexivity. }
    right. right. left.
Defined.
End DagStore.
