(* ===== verification/DagModel.v ===== *)
(** * Task graphs (core/dag/types.go, node.go, dag.go)

    A node keeps the configuration it was built from and its run-time state.
    The graph owns its nodes: the map of pointers is a map of values, and a
    method called on a node of the graph is an update of that entry.  The
    type [any] of contexts and outputs is a parameter; [uuid] is the
    identifier [uuid.New] returns.  Counts of elements in memory are
    unbounded integers. *)

From S2P Require Import Prelude.

Inductive NodeState :=
| NodeStatePending | NodeStateQueued | NodeStateWaitingBudget | NodeStateDispatched
| NodeStateAcked | NodeStateRunning | NodeStateSucceeded | NodeStateFailed
| NodeStateBlocked | NodeStateSkipped | NodeStateCancelled.

#[export] Instance NodeState_eq_dec : EqDecision NodeState.
Proof. solve_decision. Defined.

Inductive FailurePolicy := FailurePolicyFailFast | FailurePolicyContinue.

#[export] Instance FailurePolicy_eq_dec : EqDecision FailurePolicy.
Proof. solve_decision. Defined.

Inductive DAGState :=
| DAGStatePending | DAGStateRunning | DAGStateSucceeded | DAGStateFailed | DAGStateCancelled.

#[export] Instance DAGState_eq_dec : EqDecision DAGState.
Proof. solve_decision. Defined.

Inductive CollaborationMode := CollaborationSequential | CollaborationAdversarial.

#[export] Instance CollaborationMode_eq_dec : EqDecision CollaborationMode.
Proof. solve_decision. Defined.

Inductive dag_error :=
| ErrDAGNotFound | ErrDAGAlreadyRunning | ErrDAGNotRunning | ErrDAGCancelled | ErrNodeNotFound | ErrInvalidDAG
| ErrCyclicDependency | ErrMissingDependency | ErrEmptyDAG | ErrDuplicateNode | ErrNodeTimeout | ErrExecutorClosed
| ErrLayerRetry | ErrDispatchNotAcked | ErrNodeBudgetDeferred.

#[export] Instance dag_error_eq_dec : EqDecision dag_error.
Proof. solve_decision. Defined.

(** What [context.Context.Err] can be, apart from nil. *)
Inductive ctx_error := Canceled | DeadlineExceeded.

#[export] Instance ctx_error_eq_dec : EqDecision ctx_error.
Proof. solve_decision. Defined.

(** An error, as [errors.Is] and [errors.As] see it: its text, the sentinels
    of the package and of [context] in its chain, and the [Reason] and the
    [RetryAfter] of the [NodeDeferredError] in it. *)
Record error := mkError {
  text : string;
  is_dag : list dag_error;
  is_ctx : list ctx_error;
  deferred : option (string * Z)
}.

(** Durations are nanoseconds. *)
Definition NoTimeout : Z := -1.

Record ExecutionPolicy := mkPolicy {
  FailurePolicy_ : FailurePolicy;
  MaxConcurrency : Z;
  DefaultTimeout : Z;
  DefaultRetries : Z;
  RetryBackoff : Z
}.

Definition DefaultExecutionPolicy : ExecutionPolicy :=
  mkPolicy FailurePolicyFailFast 10 (5 * 60 * 1000000000) 0 1000000000.

Module DagModel.

Definition NodeState_String (s : NodeState) : string :=
  match s with
  | NodeStatePending => "pending"
  | NodeStateQueued => "queued"
  | NodeStateWaitingBudget => "waiting_budget"
  | NodeStateDispatched => "dispatched"
  | NodeStateAcked => "acked"
  | NodeStateRunning => "running"
  | NodeStateSucceeded => "succeeded"
  | NodeStateFailed => "failed"
  | NodeStateBlocked => "blocked"
  | NodeStateSkipped => "skipped"
  | NodeStateCancelled => "cancelled"
  end.

Definition nodeTerminalStates : list NodeState :=
  [NodeStateSucceeded; NodeStateFailed; NodeStateBlocked; NodeStateSkipped; NodeStateCancelled].

(** [NodeState.IsTerminal] *)
Definition IsTerminal (s : NodeState) : bool := bool_decide (s ∈ nodeTerminalStates).
(** [NodeState.IsSuccess] *)
Definition IsSuccess (s : NodeState) : bool := bool_decide (s = NodeStateSucceeded).

Definition FailurePolicy_String (p : FailurePolicy) : string :=
  match p with FailurePolicyFailFast => "fail_fast" | FailurePolicyContinue => "continue" end.

Definition DAGState_String (s : DAGState) : string :=
  match s with
  | DAGStatePending => "pending"
  | DAGStateRunning => "running"
  | DAGStateSucceeded => "succeeded"
  | DAGStateFailed => "failed"
  | DAGStateCancelled => "cancelled"
  end.

(** [DAGState.IsTerminal] *)
Definition DAGState_IsTerminal (s : DAGState) : bool :=
  bool_decide (s = DAGStateSucceeded) || bool_decide (s = DAGStateFailed) ||
  bool_decide (s = DAGStateCancelled).

Section Graph.
Context {any : Type}.

Record NodeConfig := mkConfig {
  ID : string;
  AgentType : string;
  Prompt : string;
  Context_ : gmap string any;
  Dependencies : list string;
  Timeout : Z;
  Retries : Z;
  Priority : Z;
  Metadata : gmap string any;
  CoAgents : list string;
  CollabMode : CollaborationMode;
  MaxReviewRounds : Z
}.

Record NodeResult := mkResult {
  NodeID : string;
  RState : NodeState;
  Output : option any;
  Error : option error;
  RStartTime : Z;
  EndTime : Z;
  Duration : Z;
  RRetries : Z;
  RMetadata : gmap string any
}.

Record Node := mkNode {
  config : NodeConfig;
  state : NodeState;
  nresult : option NodeResult;
  startTime : Z;
  retryCount : Z;
  dependents : list string;
  layer : Z
}.

(** The zero [time.Time] is 0. *)
Definition NewNode (cfg : NodeConfig) : Node := mkNode cfg NodeStatePending None 0 0 [] 0.

Definition ToConfig (n : Node) : NodeConfig := config n.

Definition dependencies (n : Node) : list string := Dependencies (config n).
Definition priority (n : Node) : Z := Priority (config n).

Definition SetTimeout (n : Node) (timeout : Z) : Node :=
  let c := config n in
  mkNode (mkConfig (ID c) (AgentType c) (Prompt c) (Context_ c) (Dependencies c) timeout (Retries c)
    (Priority c) (Metadata c) (CoAgents c) (CollabMode c) (MaxReviewRounds c))
    (state n) (nresult n) (startTime n) (retryCount n) (dependents n) (layer n).
Definition setContext (n : Node) (key : string) (value : any) : Node :=
  let c := config n in
  mkNode (mkConfig (ID c) (AgentType c) (Prompt c) (<[key := value]> (Context_ c)) (Dependencies c)
    (Timeout c) (Retries c) (Priority c) (Metadata c) (CoAgents c) (CollabMode c)
    (MaxReviewRounds c))
    (state n) (nresult n) (startTime n) (retryCount n) (dependents n) (layer n).

Definition IsCompound (n : Node) : bool := 0 <? len (CoAgents (config n)).

Definition SetState (n : Node) (s : NodeState) : Node :=
  mkNode (config n) s (nresult n) (startTime n) (retryCount n) (dependents n) (layer n).
Definition SetResult (n : Node) (r : option NodeResult) : Node :=
  mkNode (config n) (match r with Some r => RState r | None => state n end) r (startTime n)
    (retryCount n) (dependents n) (layer n).
Definition SetStartTime (n : Node) (t : Z) : Node :=
  mkNode (config n) (state n) (nresult n) t (retryCount n) (dependents n) (layer n).
Definition IncrementRetryCount (n : Node) : Node :=
  mkNode (config n) (state n) (nresult n) (startTime n) (i64 (retryCount n + 1)) (dependents n)
    (layer n).
Definition ResetRetryCount (n : Node) : Node :=
  mkNode (config n) (state n) (nresult n) (startTime n) 0 (dependents n) (layer n).
Definition setLayer (n : Node) (l : Z) : Node :=
  mkNode (config n) (state n) (nresult n) (startTime n) (retryCount n) (dependents n) l.
(** [node.dependents = ds] *)
Definition setDependents (n : Node) (ds : list string) : Node :=
  mkNode (config n) (state n) (nresult n) (startTime n) (retryCount n) ds (layer n).
Definition addDependent (n : Node) (id : string) : Node := setDependents n (dependents n ++ [id]).

Definition HasDependencies (n : Node) : bool := 0 <? len (dependencies n).
Definition HasDependents (n : Node) : bool := 0 <? len (dependents n).

Definition IsReady (n : Node) (nodeStates : gmap string NodeState) : bool :=
  forallb (fun depID =>
    match nodeStates !! depID with
    | Some st => bool_decide (st = NodeStateSucceeded)
    | None => false
    end) (dependencies n).

Definition isBlockingState (st : NodeState) : bool :=
  bool_decide (st = NodeStateFailed) || bool_decide (st = NodeStateBlocked) ||
  bool_decide (st = NodeStateCancelled) || bool_decide (st = NodeStateSkipped).

Definition isDependencyBlocked (nodeStates : gmap string NodeState) (depID : string) : bool :=
  match nodeStates !! depID with Some st => isBlockingState st | None => false end.

Definition IsBlocked (n : Node) (nodeStates : gmap string NodeState) : bool :=
  existsb (isDependencyBlocked nodeStates) (dependencies n).

Definition CanRetry (n : Node) : bool := retryCount n <? Retries (config n).

(** A shallow copy: the same value. *)
Definition Clone (n : Node) : Node :=
  mkNode (config n) (state n) (nresult n) (startTime n) (retryCount n) (dependents n) (layer n).

(* ------------------------------------------------------------------ *)
(** ** The graph *)

Record DAG := mkDAG {
  id : string;
  name : string;
  description : string;
  nodes : gmap string Node;
  executionOrder : list (list string);
  policy : ExecutionPolicy;
  metadata : gmap string any;
  validated : bool
}.

Definition NewDAGWithID (id name : string) (policy : ExecutionPolicy) : DAG :=
  mkDAG id name "" ∅ [] policy ∅ false.
Definition NewDAG (uuid name : string) (policy : ExecutionPolicy) : DAG :=
  mkDAG uuid name "" ∅ [] policy ∅ false.

(** [cfg.ID = id] *)
Definition withID (c : NodeConfig) (id : string) : NodeConfig :=
  mkConfig id (AgentType c) (Prompt c) (Context_ c) (Dependencies c) (Timeout c) (Retries c)
    (Priority c) (Metadata c) (CoAgents c) (CollabMode c) (MaxReviewRounds c).

(** The graph with other nodes, its execution order dropped. *)
Definition withNodes (d : DAG) (ns : gmap string Node) : DAG :=
  mkDAG (id d) (name d) (description d) ns [] (policy d) (metadata d) false.

Definition AddNode (d : DAG) (uuid : string) (cfg : NodeConfig) : result dag_error DAG :=
  let cfg := if bool_decide (ID cfg = "") then withID cfg uuid else cfg in
  match nodes d !! ID cfg with
  | Some _ => Err ErrDuplicateNode
  | None => Ok (withNodes d (<[ID cfg := NewNode cfg]> (nodes d)))
  end.

Definition GetNode (d : DAG) (id : string) : option Node := nodes d !! id.

Definition RemoveNode (d : DAG) (id : string) : result dag_error DAG :=
  match nodes d !! id with
  | None => Err ErrNodeNotFound
  | Some _ => Ok (withNodes d (delete id (nodes d)))
  end.

Definition NodeCount (d : DAG) : Z := Z.of_nat (size (nodes d)).
Definition ExecutionOrder (d : DAG) : list (list string) := executionOrder d.
Definition LayerCount (d : DAG) : Z := len (executionOrder d).
Definition NodesInLayer (d : DAG) (layer : Z) : list string :=
  if (layer <? 0) || (len (executionOrder d) <=? layer) then []
  else default [] (index (executionOrder d) layer).

Definition SetDescription (d : DAG) (desc : string) : DAG :=
  mkDAG (id d) (name d) desc (nodes d) (executionOrder d) (policy d) (metadata d) (validated d).
Definition SetPolicy (d : DAG) (p : ExecutionPolicy) : DAG :=
  mkDAG (id d) (name d) (description d) (nodes d) (executionOrder d) p (metadata d) (validated d).
Definition GetMetadata (d : DAG) (key : string) : option any := metadata d !! key.
Definition SetMetadata (d : DAG) (key : string) (value : any) : DAG :=
  mkDAG (id d) (name d) (description d) (nodes d) (executionOrder d) (policy d)
    (<[key := value]> (metadata d)) (validated d).

(** The graph with its nodes updated in place. *)
Definition onNodes (f : gmap string Node -> gmap string Node) (d : DAG) : DAG :=
  mkDAG (id d) (name d) (description d) (f (nodes d)) (executionOrder d) (policy d) (metadata d)
    (validated d).

Section Ranges.
Context `{RangeOrder}.

Definition Nodes (d : DAG) : list Node := (range_map 10 (nodes d)).*2.

Definition GetNodeStates (d : DAG) : gmap string NodeState :=
  foldl (fun result kv => <[kv.1 := state kv.2]> result) ∅ (range_map 11 (nodes d)).

Definition resetNode (n : Node) : Node := SetResult (SetState n NodeStatePending) None.
Definition ResetNodeStates (d : DAG) : DAG :=
  onNodes (fun ns => foldl (fun ns kv => alter resetNode kv.1 ns) ns (range_map 12 ns)) d.
End Ranges.
End Graph.

Arguments NodeConfig : clear implicits.
Arguments NodeResult : clear implicits.
Arguments Node : clear implicits.
Arguments DAG : clear implicits.
End DagModel.
