(* ===== verification/DagValidator.v ===== *)
(** * Validation of a task graph (core/dag/validator.go)

    [Validate] checks that the dependencies exist, links every node to its
    dependents, sorts the nodes topologically (Kahn's algorithm) and groups
    them into layers ordered by priority.  Reading a missing node or a layer
    out of range would panic: [None].  The loop of [processTopoQueue] has
    the number of nodes as fuel, which [kahn_runs] shows to be enough. *)

From S2P Require Import Prelude.
From S2P Require Export DagModel.

Module DagValidator.
Import DagModel.

Section Validate.
Context `{RangeOrder} `{SliceSort} {any : Type}.
Abbreviation Nodes := (gmap string (Node any)).

Definition validateDependencies (ns : Nodes) : bool :=
  forallb (fun kv => forallb (fun depID => bool_decide (is_Some (ns !! depID))) (dependencies kv.2))
    (range_map 20 ns).

Definition clearDependents (ns : Nodes) : Nodes :=
  foldl (fun ns kv => alter (fun node => setDependents node []) kv.1 ns) ns (range_map 21 ns).

Definition linkDependency (id : string) (ns : Nodes) (depID : string) : Nodes :=
  match ns !! depID with
  | Some depNode => <[depID := addDependent depNode id]> ns
  | None => ns
  end.

Definition populateDependents (ns : Nodes) : Nodes :=
  foldl (fun ns kv => foldl (linkDependency kv.1) ns (dependencies kv.2)) ns (range_map 22 ns).

Definition buildDependencyGraph (ns : Nodes) : Nodes := populateDependents (clearDependents ns).

Definition buildInDegreeMap (ns : Nodes) : gmap string Z :=
  foldl (fun inDegree kv => <[kv.1 := len (dependencies kv.2)]> inDegree) ∅ (range_map 23 ns).

Definition collectZeroInDegree (inDegree : gmap string Z) : list string :=
  foldl (fun queue kv => if kv.2 =? 0 then queue ++ [kv.1] else queue) [] (range_map 24 inDegree).

(** The zero value for a key that is absent. *)
Definition get (inDegree : gmap string Z) (id : string) : Z := default 0 (inDegree !! id).

Fixpoint enqueueLoop (ids : list string) (inDegree : gmap string Z) (queue : list string)
  : gmap string Z * list string :=
  match ids with
  | [] => (inDegree, queue)
  | depID :: ids =>
    let inDegree := <[depID := get inDegree depID - 1]> inDegree in
    enqueueLoop ids inDegree (if get inDegree depID =? 0 then queue ++ [depID] else queue)
  end.

Definition enqueueDependents (ns : Nodes) (nodeID : string) (inDegree : gmap string Z)
    (queue : list string) : option (gmap string Z * list string) :=
  (fun node => enqueueLoop (dependents node) inDegree queue) <$> ns !! nodeID.

Fixpoint processTopoQueue (fuel : nat) (ns : Nodes) (inDegree : gmap string Z)
    (queue result : list string) : option (list string) :=
  match queue, fuel with
  | [], _ => Some result
  | _, O => None
  | nodeID :: queue, S fuel =>
    match enqueueDependents ns nodeID inDegree queue with
    | None => None
    | Some (inDegree, queue) => processTopoQueue fuel ns inDegree queue (result ++ [nodeID])
    end
  end.

Definition hasCycle (order : list string) (ns : Nodes) : bool :=
  negb (Nat.eqb (length order) (size ns)).

Definition topologicalSort (ns : Nodes) : option (result dag_error (list string)) :=
  let inDegree := buildInDegreeMap ns in
  let queue := collectZeroInDegree inDegree in
  (fun result => if hasCycle result ns then Err ErrCyclicDependency else Ok result)
    <$> processTopoQueue (size ns) ns inDegree queue [].

Definition maxDepLayer (layerMap : gmap string Z) (deps : list string) : Z :=
  foldl (fun acc depID =>
    match layerMap !! depID with
    | Some layer => if acc <? layer then layer else acc
    | None => acc
    end) (-1) deps.

Definition resolveLayer (node : Node any) (layerMap : gmap string Z) : Z :=
  maxDepLayer layerMap (dependencies node) + 1.

Fixpoint buildLayerMap (order : list string) (ns : Nodes) (layerMap : gmap string Z)
  : option (Nodes * gmap string Z) :=
  match order with
  | [] => Some (ns, layerMap)
  | nodeID :: order =>
    match ns !! nodeID with
    | None => None
    | Some node =>
      let layer := resolveLayer node layerMap in
      buildLayerMap order (<[nodeID := setLayer node layer]> ns) (<[nodeID := layer]> layerMap)
    end
  end.

Definition maxLayer (layerMap : gmap string Z) : Z :=
  foldl (fun acc kv => if acc <? kv.2 then kv.2 else acc) 0 (range_map 25 layerMap).

Definition allocateLayers (layerMap : gmap string Z) : list (list string) :=
  replicate (Z.to_nat (maxLayer layerMap + 1)) [].

Fixpoint fillLoop (entries : list (string * Z)) (layers : list (list string))
  : option (list (list string)) :=
  match entries with
  | [] => Some layers
  | (nodeID, layer) :: entries =>
    match index layers layer with
    | None => None
    | Some l => fillLoop entries (<[Z.to_nat layer := l ++ [nodeID]]> layers)
    end
  end.

Definition fillLayers (layers : list (list string)) (layerMap : gmap string Z)
  : option (list (list string)) :=
  fillLoop (range_map 26 layerMap) layers.

Definition computeLayers (ns : Nodes) (order : list string)
  : option (Nodes * list (list string)) :=
  match buildLayerMap order ns ∅ with
  | None => None
  | Some (ns, layerMap) => (fun layers => (ns, layers)) <$> fillLayers (allocateLayers layerMap) layerMap
  end.

(** [d.nodes[id].priority]; every identifier of a layer names a node. *)
Definition prio (ns : Nodes) (id : string) : Z :=
  match ns !! id with Some node => priority node | None => 0 end.

Definition higherPriority (ns : Nodes) (a b : string) : bool := prio ns b <? prio ns a.

Definition sortLayersByPriority (ns : Nodes) (layers : list (list string)) : list (list string) :=
  sort_slice (higherPriority ns) <$> layers.

(** The graph with the nodes [ns], which keeps its order and its mark. *)
Definition setNodes (d : DAG any) (ns : Nodes) : DAG any := onNodes (fun _ => ns) d.

Definition setOrder (d : DAG any) (layers : list (list string)) : DAG any :=
  mkDAG (id d) (name d) (description d) (nodes d) layers (policy d) (metadata d) true.

(** The graph after the call and its error: a failed validation has already
    linked the nodes. *)
Definition Validate (d : DAG any) : option (DAG any * option dag_error) :=
  if bool_decide (nodes d = ∅) then Some (d, Some ErrEmptyDAG)
  else if negb (validateDependencies (nodes d)) then Some (d, Some ErrMissingDependency)
  else
    let d := setNodes d (buildDependencyGraph (nodes d)) in
    match topologicalSort (nodes d) with
    | None => None
    | Some (Err e) => Some (d, Some e)
    | Some (Ok order) =>
      match computeLayers (nodes d) order with
      | None => None
      | Some (ns, layers) =>
        Some (setOrder (setNodes d ns) (sortLayersByPriority ns layers), None)
      end
    end.

(** [temp.AddNode(node.ToConfig())] for every node, errors ignored. *)
Definition copyNodes (uuid : nat -> string) (d temp : DAG any) : DAG any :=
  foldl (fun temp (kn : nat * Node any) =>
    match AddNode temp (uuid kn.1) (ToConfig kn.2) with Ok temp => temp | Err _ => temp end)
    temp (imap pair (DagModel.Nodes d)).

Definition IsValid (uuid : nat -> string) (tempID : string) (d : DAG any) : option bool :=
  if bool_decide (nodes d = ∅) then Some false
  else
    (fun r => match r.2 with None => true | Some _ => false end)
      <$> Validate (copyNodes uuid d (NewDAG tempID "temp" (policy d))).
End Validate.
End DagValidator.
