(* ===== verification/KahnSort.v ===== *)
(** * Kahn's algorithm is a topological sort (core/dag/validator.go)

    Linking makes [dependents] the converse of [dependencies], with
    multiplicities; then the loop of [processTopoQueue] keeps, for every
    node, the number of its dependencies not yet in the result, and ends with
    all the nodes exactly when the dependencies have no cycle. *)

From S2P Require Import Prelude.
From S2P Require Export DagValidator.
Import DagModel DagValidator.

(** The number of occurrences of [x]. *)
Definition occ (x : string) (l : list string) : Z := len (filter (x =.) l).

Lemma occ_cons x y l : occ x (y :: l) = (if bool_decide (x = y) then 1 else 0) + occ x l.
Proof.
  unfold occ. case_bool_decide as E.
  - rewrite filter_cons_True by done. unfold len. simpl length. lia.
  - by rewrite filter_cons_False.
Qed.

Lemma occ_nil x : occ x [] = 0.
Proof. done. Qed.

Lemma occ_app x l k : occ x (l ++ k) = occ x l + occ x k.
Proof. unfold occ. by rewrite filter_app, len_app. Qed.

Lemma occ_nonneg x l : 0 <= occ x l.
Proof. apply len_nonneg. Qed.

Lemma occ_pos x l : 0 < occ x l <-> x ∈ l.
Proof.
  induction l as [|y l IH]; [by rewrite elem_of_nil|].
  rewrite occ_cons, elem_of_cons, <- IH. pose proof (occ_nonneg x l).
  case_bool_decide; [subst|]; split; try tauto; try lia; auto.
Qed.

Section Link.
Context `{RangeOrder} {any : Type}.
Abbreviation Nodes := (gmap string (Node any)).

(** [x] depends on [p]. *)
Definition depends (ns : Nodes) (x p : string) : Prop :=
  exists n, ns !! x = Some n /\ p ∈ dependencies n.

(** Every dependency names a node. *)
Definition closed (ns : Nodes) : Prop := forall x p, depends ns x p -> is_Some (ns !! p).

Lemma validateDependencies_true ns : validateDependencies ns = true <-> closed ns.
Proof.
  unfold validateDependencies, closed, depends. rewrite forallb_forall. split.
  - intros K x p (n & Hn & Hp). specialize (K (x, n)).
    rewrite <- list_elem_of_In, elem_of_range_map, forallb_forall in K.
    specialize (K Hn p). rewrite <- list_elem_of_In in K. apply K in Hp.
    by apply bool_decide_eq_true in Hp.
  - intros K [x n] Hn. apply list_elem_of_In, elem_of_range_map in Hn. apply forallb_forall.
    intros p Hp. apply list_elem_of_In in Hp. apply bool_decide_eq_true. eauto.
Qed.

Lemma validateDependencies_false ns :
  validateDependencies ns = false -> exists x p, depends ns x p /\ ns !! p = None.
Proof.
  intros K. apply forallb_exists_false in K as ([x n] & Hn & K).
  apply forallb_exists_false in K as (p & Hp & K). apply elem_of_range_map in Hn.
  apply bool_decide_eq_false in K. exists x, p. split; [by exists n|]. by apply eq_None_not_Some.
Qed.

Lemma clearDependents_eq (ns : Nodes) :
  clearDependents ns = (fun n => setDependents n []) <$> ns.
Proof. apply range_alter_eq. Qed.

Lemma linkDependency_fold id deps (ns : Nodes) p :
  foldl (linkDependency id) ns deps !! p =
  (fun n => setDependents n (dependents n ++ replicate (Z.to_nat (occ p deps)) id)) <$> ns !! p.
Proof.
  revert ns. induction deps as [|q deps IH]; intros ns; simpl.
  - destruct (ns !! p) as [[]|]; [|done]. simpl. unfold setDependents. simpl. by rewrite app_nil_r.
  - rewrite IH, occ_cons. pose proof (occ_nonneg p deps). unfold linkDependency.
    case_bool_decide as E; [subst q|].
    + rewrite Z2Nat.inj_add by lia. simpl.
      destruct (ns !! p) as [n|] eqn:Ep; [|by rewrite Ep].
      rewrite lookup_insert_eq. simpl. f_equal. unfold addDependent, setDependents. simpl.
      by rewrite <- app_assoc.
    + rewrite Z.add_0_l. destruct (ns !! q); [|done]. by rewrite lookup_insert_ne by congruence.
Qed.

(** The dependents that linking the entries [l] gives to [p]. *)
Definition links (p : string) (l : list (string * Node any)) : list string :=
  mjoin ((fun kv => replicate (Z.to_nat (occ p (dependencies kv.2))) kv.1) <$> l).

Lemma links_cons p kv l :
  links p (kv :: l) = replicate (Z.to_nat (occ p (dependencies kv.2))) kv.1 ++ links p l.
Proof. done. Qed.

Lemma populate_fold (l : list (string * Node any)) (ns : Nodes) p :
  foldl (fun ns kv => foldl (linkDependency kv.1) ns (dependencies kv.2)) ns l !! p =
  (fun n => setDependents n (dependents n ++ links p l)) <$> ns !! p.
Proof.
  revert ns. induction l as [|[x n] l IH]; intros ns; cbn [foldl].
  - destruct (ns !! p) as [[]|]; [|done]. simpl. unfold setDependents. simpl. by rewrite app_nil_r.
  - rewrite IH, linkDependency_fold. destruct (ns !! p) as [m|]; [|done]. simpl.
    unfold setDependents. simpl. by rewrite <- app_assoc.
Qed.

Lemma occ_replicate x n y : occ x (replicate n y) = if bool_decide (x = y) then Z.of_nat n else 0.
Proof.
  induction n as [|n IH]; [by case_bool_decide|]. simpl. rewrite occ_cons, IH.
  case_bool_decide; lia.
Qed.

(** The dependents of [p] list [x] as often as [x] lists [p]. *)
Definition linked (ns : Nodes) : Prop :=
  forall p n x, ns !! p = Some n ->
    occ x (dependents n) = match ns !! x with Some m => occ p (dependencies m) | None => 0 end.

Lemma occ_links (l : list (string * Node any)) p x :
  NoDup l.*1 ->
  occ x (links p l) =
  match (list_to_map l : Nodes) !! x with Some m => occ p (dependencies m) | None => 0 end.
Proof.
  induction l as [|[y m] l IH]; [done|]. cbn [fmap list_fmap fst snd]. intros [N ND]%NoDup_cons.
  rewrite list_to_map_cons, links_cons. cbn [fst snd].
  rewrite occ_app, occ_replicate, (IH ND). pose proof (occ_nonneg p (dependencies m)).
  case_bool_decide as E.
  - subst. rewrite lookup_insert_eq, not_elem_of_list_to_map_1 by done. lia.
  - by rewrite lookup_insert_ne by congruence.
Qed.

(** What linking does: only the dependents of a node change. *)
Lemma build_lookup (ns : Nodes) x : exists ds,
  buildDependencyGraph ns !! x = (fun n => setDependents n ds) <$> ns !! x /\
  forall y, occ y ds = match ns !! y with Some m => occ x (dependencies m) | None => 0 end.
Proof.
  unfold buildDependencyGraph, populateDependents.
  set (c := clearDependents ns).
  exists (links x (range_map 22 c)).
  split.
  - rewrite populate_fold. unfold c. rewrite clearDependents_eq, lookup_fmap.
    by destruct (ns !! x).
  - intros y. rewrite occ_links by apply NoDup_range_keys.
    assert (E : (list_to_map (range_map 22 c) : Nodes) = c).
    { rewrite <- (list_to_map_to_list c) at 2.
      apply list_to_map_proper; [apply NoDup_range_keys|apply range_map_perm]. }
    rewrite E. unfold c. rewrite clearDependents_eq, lookup_fmap. by destruct (ns !! y).
Qed.

Lemma build_linked (ns : Nodes) : linked (buildDependencyGraph ns).
Proof.
  intros p n x. destruct (build_lookup ns p) as (ds & E & O). rewrite E.
  destruct (ns !! p) as [m|]; simpl; [|done]. intros [= <-]. simpl. rewrite O.
  destruct (build_lookup ns x) as (ds' & E' & _). rewrite E'. by destruct (ns !! x).
Qed.

Lemma build_depends (ns : Nodes) x p : depends (buildDependencyGraph ns) x p <-> depends ns x p.
Proof.
  unfold depends. destruct (build_lookup ns x) as (ds & E & _). rewrite E.
  destruct (ns !! x) as [n|]; simpl; [|naive_solver]. split.
  - intros (? & [= <-] & K). by exists n.
  - intros (? & [= <-] & K). by eexists.
Qed.

Lemma build_is_Some (ns : Nodes) x : is_Some (buildDependencyGraph ns !! x) <-> is_Some (ns !! x).
Proof. destruct (build_lookup ns x) as (ds & E & _). rewrite E. by rewrite fmap_is_Some. Qed.
End Link.

(* ------------------------------------------------------------------ *)
(** ** The loop *)

Lemma get_insert m x v y : get (<[x := v]> m) y = if bool_decide (x = y) then v else get m y.
Proof.
  unfold get. case_bool_decide as E; [by subst; rewrite lookup_insert_eq|].
  by rewrite lookup_insert_ne.
Qed.

(** One node's dependents: each degree drops by its number of occurrences, and
    those that reach zero join the queue, once. *)
Lemma enqueueLoop_spec ds deg queue :
  let r := enqueueLoop ds deg queue in
  (forall x, get r.1 x = get deg x - occ x ds) /\
  exists new, r.2 = queue ++ new /\ NoDup new /\
    forall x, x ∈ new <-> 0 < get deg x <= occ x ds.
Proof.
  revert deg queue. induction ds as [|d ds IH]; intros deg queue.
  - split; [intros x; rewrite occ_nil; simpl; lia|].
    exists []. rewrite app_nil_r. split_and!; [done|constructor|].
    intros x. rewrite elem_of_nil, occ_nil. lia.
  - cbn zeta. cbn [enqueueLoop].
    destruct (IH (<[d := get deg d - 1]> deg)
      (if get (<[d := get deg d - 1]> deg) d =? 0 then queue ++ [d] else queue)) as (D & new & Q & ND & N).
    split.
    { intros x. rewrite D, get_insert, occ_cons. repeat case_bool_decide; subst; try done; lia. }
    rewrite Q. setoid_rewrite get_insert in N. rewrite get_insert, bool_decide_eq_true_2 by done.
    destruct (Z.eqb_spec (get deg d - 1) 0) as [Z0|Z0].
    + exists (d :: new). rewrite <- app_assoc. split_and!; [done| |].
      * apply NoDup_cons. split; [|done]. rewrite N, bool_decide_eq_true_2 by done. lia.
      * intros x. rewrite elem_of_cons, N, occ_cons. pose proof (occ_nonneg x ds).
        repeat case_bool_decide; subst; try done; intuition lia || congruence.
    + exists new. split_and!; [done..|]. intros x. rewrite N, occ_cons. pose proof (occ_nonneg x ds).
      repeat case_bool_decide; subst; try done; intuition lia || congruence.
Qed.

Section Kahn.
Context {any : Type}.
Variable ns : gmap string (Node any).
Hypothesis ns_linked : linked ns.
Hypothesis ns_closed : closed ns.

(** The dependencies in [ds] that are not yet in the result. *)
Definition remaining (result ds : list string) : Z := len (filter (fun p => p ∉ result) ds).

Lemma remaining_snoc result x ds :
  x ∉ result -> remaining (result ++ [x]) ds = remaining result ds - occ x ds.
Proof.
  intros N. unfold remaining. induction ds as [|d ds IH]; [done|].
  rewrite occ_cons. destruct (decide (d ∈ result)) as [Hd|Hd].
  - rewrite !filter_cons_False by set_solver. case_bool_decide; [by subst|]. lia.
  - rewrite (filter_cons_True (fun p => p ∉ result)), len_cons by done. case_bool_decide.
    + subst d. rewrite filter_cons_False by set_solver. lia.
    + rewrite filter_cons_True, len_cons by set_solver. lia.
Qed.

Lemma remaining_zero result ds : remaining result ds = 0 <-> forall p, p ∈ ds -> p ∈ result.
Proof.
  unfold remaining, len. induction ds as [|d ds IH]; [simpl; split; [set_solver|done]|].
  rewrite filter_cons. case_decide as E; simpl length.
  - split; [lia|]. intros K. exfalso. apply E, K. left.
  - rewrite IH. clear IH. split; [|set_solver]. intros K p [->|Hp]%elem_of_cons; [done|by apply K].
Qed.

(** The nodes of a list each come after their dependencies. *)
Inductive topo : list string -> Prop :=
| topo_nil : topo []
| topo_snoc l x : topo l -> (forall p, depends ns x p -> p ∈ l) -> topo (l ++ [x]).

(** Dependencies of a listed node are listed. *)
Lemma topo_closed l x p : topo l -> x ∈ l -> depends ns x p -> p ∈ l.
Proof.
  induction 1 as [|l y T IH D]; intros Hx Hp; [by apply elem_of_nil in Hx|].
  apply elem_of_app. left. apply elem_of_app in Hx as [Hx|Hx]; [by apply IH|].
  apply list_elem_of_singleton in Hx as ->. by apply D.
Qed.

Record kahn (deg : gmap string Z) (queue result : list string) : Prop := {
  kahn_deg : forall x n, ns !! x = Some n -> get deg x = remaining result (dependencies n);
  kahn_nodup : NoDup (result ++ queue);
  kahn_in : forall x, x ∈ result ++ queue -> exists n, ns !! x = Some n /\
    forall p, p ∈ dependencies n -> p ∈ result;
  kahn_ready : forall x, is_Some (ns !! x) -> get deg x = 0 -> x ∈ result ++ queue;
  kahn_topo : topo result
}.

Lemma kahn_size deg queue result :
  kahn deg queue result -> (length (result ++ queue) <= size ns)%nat.
Proof.
  intros K. rewrite <- length_map_to_list, <- (length_fmap fst (map_to_list ns)).
  apply submseteq_length, NoDup_submseteq; [apply K|].
  intros x Hx. destruct (kahn_in _ _ _ K x Hx) as (n & En & _).
  apply list_elem_of_fmap. exists (x, n). by rewrite elem_of_map_to_list.
Qed.

Lemma kahn_step deg x queue result n :
  kahn deg (x :: queue) result -> ns !! x = Some n ->
  let r := enqueueLoop (dependents n) deg queue in kahn r.1 r.2 (result ++ [x]).
Proof.
  intros K En r. destruct (enqueueLoop_spec (dependents n) deg queue) as (D & new & Q & ND & N).
  fold r in D, Q.
  assert (Nx : x ∉ result).
  { pose proof (kahn_nodup _ _ _ K) as Nd. apply NoDup_app in Nd as (_ & Nd & _).
    intros Hx. apply (Nd x Hx). left. }
  assert (L : forall y, occ y (dependents n) = match ns !! y with Some m => occ x (dependencies m) | None => 0 end).
  { intros y. by apply ns_linked. }
  assert (G : forall y m, ns !! y = Some m -> get r.1 y = remaining (result ++ [x]) (dependencies m)).
  { intros y m Em. rewrite D, L, Em, remaining_snoc by done. by rewrite (kahn_deg _ _ _ K y m Em). }
  assert (New : forall y, y ∈ new -> exists m, ns !! y = Some m /\ 0 < get deg y /\
    forall p, p ∈ dependencies m -> p ∈ result ++ [x]).
  { intros y Hy. apply N in Hy as [P1 P2]. rewrite L in P2. destruct (ns !! y) as [m|] eqn:Em; [|lia].
    exists m. split_and!; [done..|]. apply remaining_zero. rewrite <- (G _ _ Em), D, L, Em.
    pose proof (len_nonneg (filter (fun p => p ∉ result ++ [x]) (dependencies m))) as NN.
    fold (remaining (result ++ [x]) (dependencies m)) in NN. rewrite <- (G _ _ Em), D, L, Em in NN. lia. }
  assert (Perm : (result ++ [x]) ++ queue ++ new ≡ₚ (result ++ x :: queue) ++ new).
  { by rewrite <- !app_assoc. }
  split; rewrite ?Q.
  - exact G.
  - rewrite Perm. apply NoDup_app. split_and!; [apply K| |done].
    intros y Hy Hn. destruct (New y Hn) as (m & Em & Pos & _).
    destruct (kahn_in _ _ _ K y Hy) as (m' & Em' & Sub).
    rewrite (kahn_deg _ _ _ K y m' Em') in Pos. apply remaining_zero in Sub. lia.
  - intros y. rewrite Perm, elem_of_app. intros [Hy|Hy].
    + destruct (kahn_in _ _ _ K y Hy) as (m & Em & Sub). exists m. split; [done|]. set_solver.
    + destruct (New y Hy) as (m & Em & _ & Sub). eauto.
  - intros y [m Em] Z0. rewrite Perm, elem_of_app.
    destruct (decide (get deg y = 0)) as [E0|E0]; [left; by apply K|].
    right. apply N. rewrite D in Z0. pose proof (len_nonneg (filter (fun p => p ∉ result) (dependencies m))) as NN.
    fold (remaining result (dependencies m)) in NN. rewrite <- (kahn_deg _ _ _ K y m Em) in NN. lia.
  - apply topo_snoc; [apply K|]. intros p (m & Em & Hp).
    destruct (kahn_in _ _ _ K x) as (m' & Em' & Sub); [set_solver|].
    apply Sub. congruence.
Qed.

(** The number of nodes is enough fuel, and the loop stops with an empty
    queue. *)
Lemma kahn_runs fuel deg queue result :
  kahn deg queue result -> (size ns <= fuel + length result)%nat ->
  exists deg' out, processTopoQueue fuel ns deg queue result = Some out /\ kahn deg' [] out.
Proof.
  revert deg queue result. induction fuel as [|fuel IH]; intros deg queue result K F.
  all: destruct queue as [|x queue]; [by exists deg, result|].
  all: pose proof (kahn_size _ _ _ K) as S; rewrite length_app in S; simpl in S.
  - lia.
  - cbn [processTopoQueue]. unfold enqueueDependents.
    destruct (kahn_in _ _ _ K x) as (n & En & _); [set_solver|]. rewrite En. simpl.
    pose proof (kahn_step _ _ _ _ _ K En) as K'. cbn zeta in K'.
    destruct (enqueueLoop (dependents n) deg queue) as [deg' queue'].
    apply (IH _ _ _ K'). rewrite length_app. simpl. lia.
Qed.

Lemma topo_NoDup_no_cycle l :
  topo l -> NoDup l -> forall x, x ∈ l -> ~ tc (depends ns) x x.
Proof.
  intros T ND. assert (K : forall x y, tc (depends ns) x y -> x ∈ l ->
    exists l1 l2 l3, l = l1 ++ y :: l2 ++ x :: l3).
  { clear ND. induction T as [|l x T IH D]; [set_solver|].
    assert (M : forall a b, tc (depends ns) a b -> a ∈ l -> exists l1 l2 l3, l ++ [x] = l1 ++ b :: l2 ++ a :: l3).
    { intros a b Tab Ha. destruct (IH _ _ Tab Ha) as (l1 & l2 & l3 & ->).
      exists l1, l2, (l3 ++ [x]). by rewrite <- !app_assoc; simpl; rewrite <- app_assoc. }
    assert (I : forall a b, tc (depends ns) a b -> a ∈ l -> b ∈ l).
    { intros a b Tab Ha. destruct (IH _ _ Tab Ha) as (l1 & l2 & l3 & ->). set_solver. }
    intros a b Tab Ha. apply elem_of_app in Ha as [Ha|Ha]; [by apply M|].
    apply list_elem_of_singleton in Ha as ->. destruct (decide (x ∈ l)) as [Hx|Nx]; [by apply M|].
    assert (Hb : b ∈ l).
    { apply tc_first in Tab as (c & Dc & Rc). apply D in Dc.
      apply rtc_eq_tc in Rc as [->|Tc]; [done|by eapply I]. }
    apply list_elem_of_split in Hb as (l1 & l2 & ->). exists l1, l2, [].
    by rewrite <- app_assoc. }
  intros x Hx C. destruct (K x x C Hx) as (l1 & l2 & l3 & ->).
  apply NoDup_app in ND as (_ & _ & ND). apply NoDup_cons in ND as [N _]. set_solver.
Qed.

(** All the nodes are in the result, or there is a cycle among the others. *)
Lemma kahn_cycle deg result :
  kahn deg [] result -> length result <> size ns -> exists x, tc (depends ns) x x.
Proof.
  intros K Ne. set (left := filter (fun x => x ∉ result) (map_to_list ns).*1).
  apply (finite_cycle (depends ns) left).
  - intros E. apply Ne. pose proof (kahn_size _ _ _ K) as S. rewrite app_nil_r in S.
    enough (size ns <= length result)%nat by lia.
    rewrite <- length_map_to_list, <- (length_fmap fst (map_to_list ns)).
    apply submseteq_length, NoDup_submseteq; [apply NoDup_fst_map_to_list|].
    intros x Hx. destruct (decide (x ∈ result)) as [|N]; [done|].
    assert (Hl : x ∈ left) by by apply list_elem_of_filter. rewrite E in Hl. by apply elem_of_nil in Hl.
  - intros x Hx. apply list_elem_of_filter in Hx as [N Hx].
    apply list_elem_of_fmap in Hx as ([y n] & -> & Hn). apply elem_of_map_to_list in Hn. simpl in N.
    assert (Nz : remaining result (dependencies n) <> 0).
    { intros Z0. apply N. rewrite <- (app_nil_r result). apply (kahn_ready _ _ _ K); [by exists n|].
      by rewrite (kahn_deg _ _ _ K _ _ Hn). }
    destruct (filter (fun p => p ∉ result) (dependencies n)) as [|p l] eqn:E.
    { unfold remaining in Nz. by rewrite E in Nz. }
    assert (Hp : p ∈ filter (fun p => p ∉ result) (dependencies n)) by (rewrite E; left).
    apply list_elem_of_filter in Hp as [Np Hp]. exists p. split; [|by exists n].
    apply list_elem_of_filter. split; [done|]. destruct (ns_closed y p) as [m Em]; [by exists n|].
    apply list_elem_of_fmap. exists (p, m). by rewrite elem_of_map_to_list.
Qed.
End Kahn.
