(* ===== verification/DagLayers.v ===== *)
(** * The layers of a validated graph (core/dag/validator.go)

    [buildLayerMap] gives every node one more than the greatest layer of its
    dependencies; [fillLayers] groups the nodes by layer.  With the sort of
    [KahnSort] this gives the correctness of [Validate]. *)

From S2P Require Import Prelude.
From S2P Require Export KahnSort.
Import DagModel DagValidator.

Section MaxDep.
Variable lm : gmap string Z.

Lemma maxDep_fold deps acc :
  let r := foldl (fun acc depID => match lm !! depID with
    | Some layer => if acc <? layer then layer else acc | None => acc end) acc deps in
  acc <= r /\ (forall p l, p ∈ deps -> lm !! p = Some l -> l <= r) /\
  (r = acc \/ exists p, p ∈ deps /\ lm !! p = Some r).
Proof.
  revert acc. induction deps as [|d deps IH]; intros acc.
  - split_and!; [done| |by left]. by intros p l Hp%elem_of_nil.
  - cbn zeta. cbn [foldl].
    destruct (IH (match lm !! d with Some l => if acc <? l then l else acc | None => acc end)) as (A & B & C).
    destruct (lm !! d) as [l|] eqn:E; [destruct (Z.ltb_spec acc l)|]; split_and!; try lia;
      try (intros p l' [->|Hp]%elem_of_cons El'; [simplify_eq; try lia|by eapply B]);
      (destruct C as [C|(p & Hp & C)]; [|right; exists p; split; [by right|done]]).
    + right. exists d. split; [left|congruence].
    + by left.
    + by left.
Qed.

Lemma maxDepLayer_spec deps :
  -1 <= maxDepLayer lm deps /\
  (forall p l, p ∈ deps -> lm !! p = Some l -> l <= maxDepLayer lm deps) /\
  (maxDepLayer lm deps = -1 \/ exists p, p ∈ deps /\ lm !! p = Some (maxDepLayer lm deps)).
Proof. apply maxDep_fold. Qed.
End MaxDep.

Lemma maxDepLayer_ext lm lm' deps :
  (forall p, p ∈ deps -> lm !! p = lm' !! p) -> maxDepLayer lm deps = maxDepLayer lm' deps.
Proof.
  unfold maxDepLayer. generalize (-1). induction deps as [|d deps IH]; intros acc K; [done|].
  cbn [foldl]. rewrite (K d) by left. apply IH. intros p Hp. apply K. by right.
Qed.

Section Layers.
Context `{RangeOrder} `{SliceSort} {any : Type}.
Abbreviation Nodes := (gmap string (Node any)).

(** The layer map is defined on the nodes of [order] and gives each of them
    one more than the greatest layer of its dependencies. *)
Definition layered (ns : Nodes) (order : list string) (lm : gmap string Z) : Prop :=
  (forall x, x ∈ order <-> is_Some (lm !! x)) /\
  forall x n, x ∈ order -> ns !! x = Some n -> lm !! x = Some (maxDepLayer lm (dependencies n) + 1).

(** Layers change nothing else in the nodes. *)
Definition same_config (n m : Node any) : Prop := config m = config n /\ dependents m = dependents n.

Lemma buildLayerMap_spec (ns : Nodes) order :
  topo ns order -> NoDup order -> (forall x, x ∈ order -> is_Some (ns !! x)) ->
  forall rest, (forall x, x ∈ rest -> x ∉ order) ->
  exists ns' lm,
    buildLayerMap (order ++ rest) ns ∅ = buildLayerMap rest ns' lm /\ layered ns order lm /\
    forall x, match ns !! x with
      | None => ns' !! x = None
      | Some n => ns' !! x = Some (match lm !! x with Some l => setLayer n l | None => n end)
      end.
Proof.
  induction 1 as [|order x T IH D]; intros ND Ex rest Fr.
  - exists ns, ∅. split_and!; [done| |].
    + split; [intros x; rewrite lookup_empty; split; [set_solver|by intros []]|set_solver].
    + intros x. rewrite lookup_empty. by destruct (ns !! x).
  - apply NoDup_app in ND as (ND & Nx & _).
    assert (Nx' : x ∉ order) by (intros Hx; apply (Nx x Hx); left).
    destruct (IH ND) with (rest := [x] ++ rest) as (ns' & lm & E & [Dm L] & S); [set_solver| |].
    { intros y Hy Ho. apply elem_of_app in Hy as [Hy|Hy].
      - by apply list_elem_of_singleton in Hy as ->.
      - apply (Fr y Hy). set_solver. }
    rewrite <- app_assoc, E. cbn [app buildLayerMap].
    destruct (Ex x) as [n En]; [set_solver|]. pose proof (S x) as Sx. rewrite En in Sx.
    assert (Lx : lm !! x = None) by (apply eq_None_not_Some; by rewrite <- Dm).
    rewrite Lx in Sx. rewrite Sx. unfold resolveLayer.
    set (l := maxDepLayer lm (dependencies n) + 1).
    exists (<[x := setLayer n l]> ns'), (<[x := l]> lm). split_and!; [done| |].
    + assert (Ext : forall ds, (forall p, p ∈ ds -> p ∈ order) ->
        maxDepLayer (<[x := l]> lm) ds = maxDepLayer lm ds).
      { intros ds K. apply maxDepLayer_ext. intros p Hp. apply lookup_insert_ne. intros ->. auto. }
      split.
      * intros y. rewrite elem_of_app, list_elem_of_singleton, Dm.
        rewrite lookup_insert_is_Some'. naive_solver.
      * intros y m Hy Em. apply elem_of_app in Hy as [Hy|Hy].
        -- rewrite lookup_insert_ne, (L _ _ Hy Em), Ext; [done| |congruence].
           intros p Hp. apply (topo_closed ns order y p); [done..|by exists m].
        -- apply list_elem_of_singleton in Hy as ->. simplify_eq.
           rewrite lookup_insert_eq, Ext; [done|]. intros p Hp. apply D. by exists n.
    + intros y. specialize (S y). destruct (decide (x = y)) as [<-|Ne].
      * by rewrite En, !lookup_insert_eq.
      * destruct (ns !! y); by rewrite !lookup_insert_ne.
Qed.

Lemma layered_facts (ns : Nodes) order lm :
  topo ns order -> (forall x, x ∈ order <-> is_Some (ns !! x)) -> layered ns order lm ->
  forall x n, ns !! x = Some n -> exists l, lm !! x = Some l /\ 0 <= l /\
    (forall p, p ∈ dependencies n -> exists lp, lm !! p = Some lp /\ lp < l) /\
    (l = 0 \/ exists p, p ∈ dependencies n /\ lm !! p = Some (l - 1)).
Proof.
  intros T All [Dm L] x n En. assert (Hx : x ∈ order) by by apply All.
  destruct (maxDepLayer_spec lm (dependencies n)) as (Lo & Up & At).
  eexists. split; [by apply L|]. split_and!; [lia| |].
  - intros p Hp. assert (Ho : p ∈ order) by (apply (topo_closed ns order x); [done..|by exists n]).
    apply Dm in Ho as [lp Elp]. exists lp. split; [done|]. specialize (Up _ _ Hp Elp). lia.
  - destruct At as [->|(p & Hp & E)]; [by left|]. right. exists p. split; [done|].
    rewrite E. f_equal. lia.
Qed.

Lemma maxLayer_spec lm :
  0 <= maxLayer lm /\ (forall x l, lm !! x = Some l -> l <= maxLayer lm) /\
  (maxLayer lm = 0 \/ exists x, lm !! x = Some (maxLayer lm)).
Proof.
  unfold maxLayer.
  assert (K : forall (es : list (string * Z)) acc,
    let r := foldl (fun acc kv => if acc <? kv.2 then kv.2 else acc) acc es in
    acc <= r /\ (forall x l, (x, l) ∈ es -> l <= r) /\ (r = acc \/ exists x, (x, r) ∈ es)).
  { induction es as [|[y l] es IH]; intros acc.
    - split_and!; [done| |by left]. by intros x l Hp%elem_of_nil.
    - cbn zeta. cbn [foldl snd]. destruct (IH (if acc <? l then l else acc)) as (A & B & C).
      destruct (Z.ltb_spec acc l); split_and!; try lia;
        try (intros x l' [E|Hp]%elem_of_cons; [simplify_eq; lia|by eapply B]);
        (destruct C as [C|(x & C)]; [|right; exists x; by right]).
      + right. exists y. rewrite C. left.
      + by left. }
  destruct (K (range_map 25 lm) 0) as (A & B & C). split_and!; [done| |].
  - intros x l E. apply (B x). by apply elem_of_range_map.
  - destruct C as [C|(x & C)]; [by left|right]. exists x. by apply elem_of_range_map in C.
Qed.

Lemma fillLoop_spec entries layers :
  Forall (fun e => 0 <= e.2 < len layers) entries ->
  exists out, fillLoop entries layers = Some out /\ length out = length layers /\
    forall i, out !! i =
      (fun L => L ++ (filter (fun e => Z.to_nat e.2 = i) entries).*1) <$> layers !! i.
Proof.
  revert layers. induction entries as [|[x l] entries IH]; intros layers F.
  - exists layers. split_and!; [done..|]. intros i. destruct (layers !! i); [|done].
    simpl. by rewrite app_nil_r.
  - apply Forall_cons in F as [B F]. simpl in B. cbn [fillLoop]. unfold index.
    destruct (Z.ltb_spec l 0); [lia|].
    destruct (lookup_lt_is_Some_2 layers (Z.to_nat l)) as [L EL]; [unfold len in B; lia|].
    rewrite EL. destruct (IH (<[Z.to_nat l := L ++ [x]]> layers)) as (out & -> & Ln & S).
    { unfold len. by rewrite length_insert. }
    exists out. split_and!; [done|by rewrite Ln, length_insert|]. intros i. rewrite S.
    destruct (decide (Z.to_nat l = i)) as [<-|Ne].
    + rewrite list_lookup_insert_eq by (apply lookup_lt_Some in EL; done).
      rewrite EL, filter_cons_True by done. simpl. by rewrite <- app_assoc.
    + rewrite list_lookup_insert_ne, filter_cons_False by done. done.
Qed.

(** The layers before they are sorted. *)
Lemma fillLayers_spec lm :
  (forall x l, lm !! x = Some l -> 0 <= l) ->
  exists out, fillLayers (allocateLayers lm) lm = Some out /\ len out = maxLayer lm + 1 /\
    forall i L, out !! i = Some L ->
      NoDup L /\ forall x, x ∈ L <-> lm !! x = Some (Z.of_nat i).
Proof.
  intros Nn. destruct (maxLayer_spec lm) as (M0 & Up & _). unfold fillLayers, allocateLayers.
  destruct (fillLoop_spec (range_map 26 lm) (replicate (Z.to_nat (maxLayer lm + 1)) []))
    as (out & -> & Ln & S).
  { apply Forall_forall. intros [x l] Hx. apply elem_of_range_map in Hx. simpl.
    unfold len. rewrite length_replicate. specialize (Up _ _ Hx). specialize (Nn _ _ Hx). lia. }
  exists out. split_and!; [done| |].
  - unfold len. rewrite Ln, length_replicate. lia.
  - intros i L E. rewrite S in E. apply fmap_Some in E as (L0 & E0 & ->).
    apply lookup_replicate in E0 as [-> _]. simpl. split.
    + eapply sublist_NoDup; [apply (NoDup_range_keys 26 lm)|].
      apply (fmap_sublist fst), sublist_filter.
    + intros x. rewrite list_elem_of_fmap. split.
      * intros ([y l] & -> & Hy). apply list_elem_of_filter in Hy as [Ei Hy].
        apply elem_of_range_map in Hy. simpl in *. rewrite Hy. f_equal. specialize (Nn _ _ Hy). lia.
      * intros Ex. exists (x, Z.of_nat i). split; [done|]. apply list_elem_of_filter.
        rewrite elem_of_range_map. split; [simpl; lia|done].
Qed.

(** Some node lies on every layer up to the last. *)
Lemma layer_inhabited (ns : Nodes) (lm : gmap string Z) :
  (forall x n, ns !! x = Some n -> exists l, lm !! x = Some l /\ 0 <= l /\
    (l = 0 \/ exists p, p ∈ dependencies n /\ lm !! p = Some (l - 1))) ->
  (forall x, is_Some (lm !! x) -> is_Some (ns !! x)) ->
  forall (k : nat) x, lm !! x = Some (Z.of_nat k) ->
  forall i, (i <= k)%nat -> exists y, lm !! y = Some (Z.of_nat i).
Proof.
  intros K D k. induction k as [|k IH]; intros x Ex i Li.
  - exists x. by replace i with 0%nat by lia.
  - destruct (decide (i = S k)) as [->|Ne]; [by exists x|].
    destruct (D x) as [n En]; [by eexists|].
    destruct (K x n En) as (l & El & _ & [L0|(p & _ & Ep)]).
    + rewrite El in Ex. injection Ex as Ex. lia.
    + apply (IH p); [|lia]. rewrite Ep. rewrite El in Ex. injection Ex as ->. f_equal. lia.
Qed.

Lemma all_inhabited (ns : Nodes) (lm : gmap string Z) :
  ns <> ∅ ->
  (forall x n, ns !! x = Some n -> exists l, lm !! x = Some l /\ 0 <= l /\
    (l = 0 \/ exists p, p ∈ dependencies n /\ lm !! p = Some (l - 1))) ->
  (forall x, is_Some (lm !! x) -> is_Some (ns !! x)) ->
  forall i, Z.of_nat i <= maxLayer lm -> exists x, lm !! x = Some (Z.of_nat i).
Proof.
  intros Ne F Dn i Li. destruct (maxLayer_spec lm) as (M0 & Up & [Mz|[x Ex]]).
  - destruct (map_choose ns Ne) as (x & n & En). destruct (F x n En) as (l & El & ? & _).
    exists x. rewrite El. specialize (Up _ _ El). f_equal. lia.
  - apply (layer_inhabited ns lm F Dn (Z.to_nat (maxLayer lm)) x); [|lia].
    rewrite Ex. f_equal. lia.
Qed.

(* ------------------------------------------------------------------ *)
(** ** The state the sort starts from *)

Lemma InDegree_get (ns : Nodes) x :
  get (buildInDegreeMap ns) x = match ns !! x with Some n => len (dependencies n) | None => 0 end.
Proof.
  unfold buildInDegreeMap, get. rewrite (foldl_insert_map (fun n => len (dependencies n))).
  rewrite lookup_fmap. by destruct (ns !! x).
Qed.

Lemma collectZero_spec deg :
  NoDup (collectZeroInDegree deg) /\ forall x, x ∈ collectZeroInDegree deg <-> deg !! x = Some 0.
Proof.
  unfold collectZeroInDegree.
  assert (K : forall (es : list (string * Z)) acc,
    foldl (fun queue kv => if kv.2 =? 0 then queue ++ [kv.1] else queue) acc es =
    acc ++ (filter (fun e => e.2 = 0) es).*1).
  { induction es as [|[x l] es IH]; intros acc; cbn [foldl fst snd]; [by rewrite app_nil_r|].
    rewrite IH. destruct (Z.eqb_spec l 0).
    - rewrite filter_cons_True by done. simpl. by rewrite <- app_assoc.
    - by rewrite filter_cons_False. }
  rewrite K. simpl. split.
  - eapply sublist_NoDup; [apply (NoDup_range_keys 24 deg)|].
    apply (fmap_sublist fst), sublist_filter.
  - intros x. rewrite list_elem_of_fmap. split.
    + intros ([y l] & -> & Hy). apply list_elem_of_filter in Hy as [E Hy].
      apply elem_of_range_map in Hy. simpl in *. congruence.
    + intros E. exists (x, 0). split; [done|]. apply list_elem_of_filter.
      by rewrite elem_of_range_map.
Qed.

Lemma kahn_start (ns : Nodes) :
  kahn ns (buildInDegreeMap ns) (collectZeroInDegree (buildInDegreeMap ns)) [].
Proof.
  destruct (collectZero_spec (buildInDegreeMap ns)) as [ND C].
  assert (G : forall x n, ns !! x = Some n -> buildInDegreeMap ns !! x = Some (len (dependencies n))).
  { intros x n E. unfold buildInDegreeMap.
    rewrite (foldl_insert_map (fun n => len (dependencies n))), lookup_fmap. by rewrite E. }
  split; simpl.
  - intros x n E. rewrite InDegree_get, E. unfold remaining. rewrite list_filter_all; [done|].
    apply Forall_forall. intros p _. apply not_elem_of_nil.
  - done.
  - intros x Hx. apply C in Hx. destruct (ns !! x) as [n|] eqn:E.
    + rewrite (G _ _ E) in Hx. exists n. split; [done|]. injection Hx as Hx.
      unfold len in Hx. destruct (dependencies n); [|done]. by intros p Hp%elem_of_nil.
    + exfalso. unfold buildInDegreeMap in Hx.
      rewrite (foldl_insert_map (fun n => len (dependencies n))), lookup_fmap in Hx. by rewrite E in Hx.
  - intros x [n E] Z0. apply C. rewrite InDegree_get, E in Z0. by rewrite (G _ _ E), Z0.
  - constructor.
Qed.

(** The outcome of the sort of a linked graph whose dependencies exist. *)
Lemma topologicalSort_outcome (ns : Nodes) :
  linked ns -> closed ns ->
  (exists order, topologicalSort ns = Some (Ok order) /\ topo ns order /\ NoDup order /\
    forall x, x ∈ order <-> is_Some (ns !! x)) \/
  (topologicalSort ns = Some (Err ErrCyclicDependency) /\ exists x, tc (depends ns) x x).
Proof.
  intros Li Cl. destruct (kahn_runs ns Li Cl (size ns) _ _ _ (kahn_start ns)) as (deg & out & R & K); [simpl; lia|].
  unfold topologicalSort. rewrite R. simpl. unfold hasCycle.
  destruct (Nat.eqb_spec (length out) (size ns)) as [E|E]; simpl.
  - left. exists out. pose proof (kahn_nodup _ _ _ _ K) as ND. rewrite app_nil_r in ND.
    split_and!; [done|apply K|done|]. intros x. split.
    + intros Hx. destruct (kahn_in _ _ _ _ K x) as (n & -> & _); [by rewrite app_nil_r|done].
    + intros [n En]. assert (Sub : out ⊆+ (map_to_list ns).*1).
      { apply NoDup_submseteq; [done|]. intros y Hy.
        destruct (kahn_in _ _ _ _ K y) as (m & Em & _); [by rewrite app_nil_r|].
        apply list_elem_of_fmap. exists (y, m). by rewrite elem_of_map_to_list. }
      apply submseteq_length_Permutation in Sub; [|rewrite length_fmap, length_map_to_list; lia].
      rewrite Sub. apply list_elem_of_fmap. exists (x, n). by rewrite elem_of_map_to_list.
  - right. split; [done|]. by eapply kahn_cycle.
Qed.

(* ------------------------------------------------------------------ *)
(** ** Correctness *)

Definition in_layer (L : list (list string)) (i : nat) (x : string) : Prop :=
  exists layer, L !! i = Some layer /\ x ∈ layer.

(** What [Validate] promises: [L] is the execution order of the nodes [ns],
    which it leaves as [ns']. *)
Record schedule (ns ns' : Nodes) (L : list (list string)) : Prop := {
  sched_placed : forall x, is_Some (ns !! x) <-> exists i, in_layer L i x;
  sched_unique : forall i j x, in_layer L i x -> in_layer L j x -> i = j;
  sched_nodup : forall i layer, L !! i = Some layer -> NoDup layer /\ layer <> [];
  sched_earlier : forall i x p, in_layer L i x -> depends ns x p ->
    exists j, (j < i)%nat /\ in_layer L j p;
  sched_tight : forall i x, in_layer L (S i) x -> exists p, depends ns x p /\ in_layer L i p;
  sched_sorted : forall i layer, L !! i = Some layer ->
    StronglySorted (fun a b => prio ns b <= prio ns a) layer;
  sched_nodes : forall x n, ns !! x = Some n -> exists i n', in_layer L i x /\
    ns' !! x = Some n' /\ config n' = config n /\ state n' = state n /\ layer n' = Z.of_nat i /\
    forall y, occ y (dependents n') =
      match ns !! y with Some m => occ x (dependencies m) | None => 0 end;
  sched_known : forall x n', ns' !! x = Some n' -> is_Some (ns !! x)
}.

Lemma prio_sorted (ns : Nodes) l :
  StronglySorted (fun a b => prio ns b <= prio ns a) (sort_slice (higherPriority ns) l).
Proof.
  eapply (StronglySorted_weaken (not_after (higherPriority ns))).
  - intros a b. unfold not_after, higherPriority. lia.
  - apply sort_slice_sorted; unfold not_after, higherPriority; lia.
Qed.

(** The nodes of a layer, sorted, are those with that layer. *)
Lemma in_layer_sorted (ns : Nodes) layers (lm : gmap string Z) :
  len layers = maxLayer lm + 1 -> (forall x l, lm !! x = Some l -> 0 <= l) ->
  (forall i L, layers !! i = Some L -> NoDup L /\ forall x, x ∈ L <-> lm !! x = Some (Z.of_nat i)) ->
  forall i x, in_layer (sortLayersByPriority ns layers) i x <-> lm !! x = Some (Z.of_nat i).
Proof.
  intros Ln Nn S i x. unfold in_layer, sortLayersByPriority. setoid_rewrite list_lookup_fmap. split.
  - intros (l & E & Hx). apply fmap_Some in E as (L & E & ->). rewrite sort_slice_perm in Hx.
    by apply (S _ _ E).
  - intros E. destruct (maxLayer_spec lm) as (_ & Up & _). specialize (Up _ _ E).
    destruct (lookup_lt_is_Some_2 layers i) as [L EL]; [unfold len in Ln; lia|].
    exists (sort_slice (higherPriority ns) L). rewrite EL. split; [done|].
    rewrite sort_slice_perm. by apply (S _ _ EL).
Qed.

Lemma computeLayers_schedule (ns : Nodes) order :
  ns <> ∅ -> linked ns -> topo ns order -> NoDup order ->
  (forall x, x ∈ order <-> is_Some (ns !! x)) ->
  exists ns' layers, computeLayers ns order = Some (ns', layers) /\
    schedule ns ns' (sortLayersByPriority ns' layers).
Proof.
  intros Ne Li T ND All.
  destruct (buildLayerMap_spec ns order T ND) with (rest := @nil string)
    as (ns' & lm & B & Ly & Sp); [intros x; apply All|set_solver|].
  rewrite app_nil_r in B. simpl in B.
  pose proof (layered_facts ns order lm T All Ly) as F. destruct Ly as [Dm _].
  assert (Dn : forall x, is_Some (lm !! x) <-> is_Some (ns !! x)) by (intros x; by rewrite <- Dm).
  assert (Nn : forall x l, lm !! x = Some l -> 0 <= l).
  { intros x l E. destruct (Dn x) as [D _]. destruct D as [n En]; [by eexists|].
    destruct (F x n En) as (l' & E' & ? & _). congruence. }
  destruct (fillLayers_spec lm Nn) as (layers & Fl & Ln & S).
  exists ns', layers. unfold computeLayers. rewrite B, Fl. split; [done|].
  assert (I := in_layer_sorted ns' layers lm Ln Nn S).
  assert (Nat_ : forall x l, lm !! x = Some l -> lm !! x = Some (Z.of_nat (Z.to_nat l))).
  { intros x l E. rewrite Z2Nat.id; [done|by eapply Nn]. }
  split.
  - intros x. setoid_rewrite I. rewrite <- Dn. split; [intros [l E]; eauto|by intros [i E]; eexists].
  - intros i j x. rewrite !I. intros E1 E2. rewrite E1 in E2. injection E2. lia.
  - intros i l E. unfold sortLayersByPriority in E. rewrite list_lookup_fmap in E.
    apply fmap_Some in E as (L & EL & ->). destruct (S _ _ EL) as [NDL M].
    split; [by rewrite sort_slice_perm|]. intros En.
    destruct (all_inhabited ns lm Ne) with i as [x Ex].
    { intros x n En'. destruct (F x n En') as (l & ? & ? & _ & ?). eauto. }
    { intros x. apply Dn. }
    { apply lookup_lt_Some in EL. unfold len in Ln. lia. } apply M in Ex. rewrite <- (sort_slice_perm _ (higherPriority ns') L), En in Ex.
    by apply elem_of_nil in Ex.
  - intros i x p Hx (n & En & Hp). apply I in Hx. destruct (F x n En) as (l & El & _ & Ds & _).
    destruct (Ds p Hp) as (lp & Elp & Lt). exists (Z.to_nat lp). rewrite I. split; [|by apply Nat_].
    specialize (Nn _ _ Elp). rewrite Hx in El. injection El as <-. lia.
  - intros i x Hx. apply I in Hx. destruct (proj1 (Dn x)) as [n En]; [by eexists|].
    destruct (F x n En) as (l & El & _ & _ & At). rewrite Hx in El. injection El as <-.
    destruct At as [?|(p & Hp & Ep)]; [lia|]. exists p. split; [by exists n|]. apply I.
    rewrite Ep. f_equal. lia.
  - intros i l E. unfold sortLayersByPriority in E. rewrite list_lookup_fmap in E.
    apply fmap_Some in E as (L & EL & ->).
    eapply StronglySorted_weaken; [|apply prio_sorted]. intros a b.
    assert (P : forall c, prio ns' c = prio ns c).
    { intros c. unfold prio. specialize (Sp c). destruct (ns !! c); rewrite Sp; [|done]. by destruct (lm !! c). }
    simpl. by rewrite !P.
  - intros x n En. destruct (F x n En) as (l & El & _). exists (Z.to_nat l), (setLayer n l).
    specialize (Sp x). rewrite En, El in Sp. split_and!; [by apply I, Nat_|done..| |].
    + simpl. rewrite Z2Nat.id; [done|by eapply Nn].
    + intros y. simpl. by apply Li.
  - intros x n' En'. specialize (Sp x). destruct (ns !! x); [done|]. congruence.
Qed.
End Layers.
