(* ===== verification/DagCorrect.v ===== *)
(** * Correctness of graph validation and node gating (core/dag)

    [Validate] decides whether a graph is runnable and leaves a schedule;
    changing the nodes drops it.  The last part is about the state tests the
    executor gates a node with. *)

From S2P Require Import Prelude.
From S2P Require Export DagLayers.
Import DagModel DagValidator.

Section Correct.
Context `{RangeOrder} `{SliceSort} {any : Type}.

(** Linking leaves the edges, so it leaves paths. *)
Lemma build_tc (ns : gmap string (Node any)) x y :
  tc (depends (buildDependencyGraph ns)) x y <-> tc (depends ns) x y.
Proof.
  split; (induction 1 as [a b R|a b c R _ IH]; [apply tc_once|eapply tc_l; [|exact IH]]);
    by apply build_depends.
Qed.

Lemma build_closed (ns : gmap string (Node any)) :
  closed ns -> closed (buildDependencyGraph ns).
Proof. intros C x p D. apply build_is_Some, (C x). by apply build_depends. Qed.

Lemma build_nonempty (ns : gmap string (Node any)) : ns <> ∅ -> buildDependencyGraph ns <> ∅.
Proof.
  intros Ne E. destruct (map_choose ns Ne) as (x & n & En).
  destruct (proj2 (build_is_Some ns x)) as [m Em]; [by exists n|].
  rewrite E in Em. by rewrite lookup_empty in Em.
Qed.

(** A schedule of the linked nodes is one of the nodes. *)
Lemma schedule_build (ns ns' : gmap string (Node any)) L :
  schedule (buildDependencyGraph ns) ns' L -> schedule ns ns' L.
Proof.
  intros S.
  assert (P : forall x, prio (buildDependencyGraph ns) x = prio ns x).
  { intros x. unfold prio. destruct (build_lookup ns x) as (ds & -> & _). by destruct (ns !! x). }
  destruct S as [A B C D E F G K]. split; try done.
  - intros x. rewrite <- A. symmetry. apply build_is_Some.
  - intros i x p Hx Hp. apply (D i x p Hx). by apply build_depends.
  - intros i x Hx. destruct (E i x Hx) as (p & Hp & ?). exists p. by rewrite <- build_depends.
  - intros i l El. eapply StronglySorted_weaken; [|by apply (F i)]. intros a b. simpl. by rewrite !P.
  - intros x n En. destruct (build_lookup ns x) as (ds & Eb & O).
    rewrite En in Eb. simpl in Eb. destruct (G x _ Eb) as (i & n' & I & En' & Ec & Es & El & Eo).
    exists i, n'. split_and!; try done. intros y. rewrite Eo.
    destruct (build_lookup ns y) as (ds' & -> & _). by destruct (ns !! y).
  - intros x n' En'. apply build_is_Some. by eapply K.
Qed.

Lemma Validate_outcome (d : DAG any) :
  (Validate d = Some (d, Some ErrEmptyDAG) /\ nodes d = ∅) \/
  (Validate d = Some (d, Some ErrMissingDependency) /\ nodes d <> ∅ /\
    exists x p, depends (nodes d) x p /\ nodes d !! p = None) \/
  (nodes d <> ∅ /\ closed (nodes d) /\
    ((Validate d = Some (setNodes d (buildDependencyGraph (nodes d)), Some ErrCyclicDependency) /\
      exists x, tc (depends (nodes d)) x x) \/
     (exists d', Validate d = Some (d', None) /\ (forall x, ~ tc (depends (nodes d)) x x) /\
       validated d' = true /\ schedule (nodes d) (nodes d') (executionOrder d')))).
Proof.
  unfold Validate. case_bool_decide as Em; [by left|].
  destruct (validateDependencies (nodes d)) eqn:V; simpl.
  2:{ right. left. split_and!; try done. by apply validateDependencies_false. }
  right. right. apply validateDependencies_true in V. split_and!; try done.
  set (ns := buildDependencyGraph (nodes d)).
  destruct (topologicalSort_outcome ns) as [(order & -> & T & ND & All)|(-> & x & C)].
  - apply build_linked.
  - by apply build_closed.
  - right. destruct (computeLayers_schedule ns order) as (ns' & layers & -> & S); try done.
    { by apply build_nonempty. }
    { apply build_linked. }
    eexists. split; [reflexivity|]. split_and!; [|done|by apply schedule_build].
    intros x C. apply build_tc in C. fold ns in C. apply (topo_NoDup_no_cycle ns (build_linked _) (build_closed _ V) order T ND x); [|done].
    apply All. apply tc_first in C as (p & (n & En & _) & _). by exists n.
  - left. split; [done|]. exists x. by apply build_tc.
Qed.

(** C33: [Validate] always returns, and its verdict is exact: the graph is
    empty, or a dependency names no node, or the dependencies have a cycle,
    or none of these and the graph is marked as validated. *)
Theorem validate_decides (d : DAG any) :
  exists d' e, Validate d = Some (d', e) /\
    match e with
    | Some ErrEmptyDAG => nodes d = ∅
    | Some ErrMissingDependency => exists x p, depends (nodes d) x p /\ nodes d !! p = None
    | Some ErrCyclicDependency => closed (nodes d) /\ exists x, tc (depends (nodes d)) x x
    | None => nodes d <> ∅ /\ closed (nodes d) /\ (forall x, ~ tc (depends (nodes d)) x x) /\
        validated d' = true
    | _ => False
    end.
Proof.
  destruct (Validate_outcome d) as [[-> ?]|[(-> & _ & ?)|(? & ? & [[-> ?]|(d' & -> & ? & ? & _)])]];
    do 2 eexists; (split; [reflexivity|]); by eauto.
Qed.

(** C32: the execution order of a validated graph is a schedule: every node is
    on exactly one layer, once, no layer is empty, the dependencies of a node
    lie on earlier layers and one of them on the layer just before, each
    layer is in descending priority, and the nodes know their layer and
    their dependents. *)
Theorem validate_schedules (d d' : DAG any) :
  Validate d = Some (d', None) -> schedule (nodes d) (nodes d') (executionOrder d').
Proof.
  destruct (Validate_outcome d) as [[-> ?]|[(-> & _ & ?)|(? & ? & [[-> ?]|(d2 & -> & ? & ? & S)])]];
    by intros [= <-].
Qed.

(** [AddNode] and [RemoveNode] fail exactly on a taken, respectively
    unknown, identifier; otherwise only that node changes and the execution
    order and the mark of a past validation are dropped. *)
Theorem edit_invalidates (d : DAG any) uuid cfg id :
  let key := if bool_decide (ID cfg = "") then uuid else ID cfg in
  match AddNode d uuid cfg with
  | Err e => e = ErrDuplicateNode /\ is_Some (nodes d !! key)
  | Ok d' => nodes d !! key = None /\ validated d' = false /\ executionOrder d' = [] /\
      (exists n, nodes d' = <[key := n]> (nodes d) /\ state n = NodeStatePending /\ ID (config n) = key /\
        dependencies n = Dependencies cfg)
  end /\
  match RemoveNode d id with
  | Err e => e = ErrNodeNotFound /\ nodes d !! id = None
  | Ok d' => is_Some (nodes d !! id) /\ validated d' = false /\ executionOrder d' = [] /\
      nodes d' = delete id (nodes d)
  end.
Proof.
  intros key. split.
  - unfold AddNode.
    assert (K : ID (if bool_decide (ID cfg = "") then withID cfg uuid else cfg) = key).
    { unfold key. by case_bool_decide. }
    rewrite K. destruct (nodes d !! key) eqn:E; [done|]. split_and!; try done.
    eexists. split; [reflexivity|]. split_and!; [done|done|]. simpl. by case_bool_decide.
  - unfold RemoveNode. destruct (nodes d !! id) eqn:E; [|done]. by split_and!.
Qed.
(* ------------------------------------------------------------------ *)
(** ** Checking a copy *)

(** The nodes are stored under their own identifiers, none of them empty, as
    [AddNode] leaves them. *)
Definition keyed (d : DAG any) : Prop :=
  forall x n, nodes d !! x = Some n -> ID (config n) = x /\ x <> "".

Definition fresh (n : Node any) : Node any := NewNode (ToConfig n).

Lemma copy_fold uuid (l : list (string * Node any)) (k : nat) (temp : DAG any) :
  NoDup l.*1 -> Forall (fun kv => ID (config kv.2) = kv.1 /\ kv.1 <> "") l ->
  (forall x, x ∈ l.*1 -> nodes temp !! x = None) ->
  nodes (foldl (fun temp (kn : nat * Node any) =>
    match AddNode temp (uuid kn.1) (ToConfig kn.2) with Ok temp => temp | Err _ => temp end)
    temp (imap (fun i n => (k + i, n)%nat) l.*2)) =
  foldl (fun m kv => <[kv.1 := fresh kv.2]> m) (nodes temp) l.
Proof.
  revert k temp. induction l as [|[x n] l IH]; intros k temp ND F D; [done|].
  rewrite !fmap_cons in *.
  apply NoDup_cons in ND as [N ND]. apply Forall_cons in F as [[E Ne] F]. cbn [fst snd] in E, Ne, N.
  rewrite imap_cons. cbn [foldl fst snd].
  assert (A : AddNode temp (uuid (k + 0)%nat) (ToConfig n) =
    Ok (withNodes temp (<[x := fresh n]> (nodes temp)))).
  { unfold AddNode, ToConfig. rewrite bool_decide_eq_false_2 by congruence.
    rewrite E, (D x) by left. done. }
  rewrite A, (imap_ext _ (fun i n => (S k + i, n)%nat) l.*2).
  2:{ intros i m _. simpl. f_equal. lia. }
  rewrite IH; [done..|].
  intros y Hy. simpl. rewrite lookup_insert_ne; [|by intros ->]. apply D. by right.
Qed.

Lemma copyNodes_eq uuid t (d : DAG any) :
  keyed d -> nodes (copyNodes uuid d (NewDAG t "temp" (policy d))) = fresh <$> nodes d.
Proof.
  intros K. unfold copyNodes, DagModel.Nodes.
  etransitivity; [apply (copy_fold uuid (range_map 10 (nodes d)) 0)|].
  - apply NoDup_range_keys.
  - apply Forall_forall. intros [x n] Hx. apply elem_of_range_map in Hx. by apply K.
  - intros x _. apply lookup_empty.
  - apply foldl_insert_map.
Qed.

Lemma fresh_depends (ns : gmap string (Node any)) x p :
  depends (fresh <$> ns) x p <-> depends ns x p.
Proof.
  unfold depends. rewrite lookup_fmap. destruct (ns !! x) as [n|]; simpl; [|naive_solver].
  split; intros (m & [= <-] & Hp); by eexists.
Qed.

Lemma fresh_tc (ns : gmap string (Node any)) x y :
  tc (depends (fresh <$> ns)) x y <-> tc (depends ns) x y.
Proof.
  split; (induction 1 as [a b R|a b c R _ IH]; [apply tc_once|eapply tc_l; [|exact IH]]);
    by apply fresh_depends.
Qed.

Lemma fresh_closed (ns : gmap string (Node any)) : closed (fresh <$> ns) <-> closed ns.
Proof.
  unfold closed. setoid_rewrite fresh_depends. setoid_rewrite lookup_fmap.
  by setoid_rewrite fmap_is_Some.
Qed.

(** [IsValid], which validates a fresh copy, answers what [Validate] would
    on the graph itself. *)
Theorem is_valid_agrees uuid t (d : DAG any) :
  keyed d -> IsValid uuid t d = (fun r => match r.2 with None => true | Some _ => false end) <$> Validate d.
Proof.
  intros K. unfold IsValid. pose proof (copyNodes_eq uuid t d K) as E.
  set (c := copyNodes uuid d _) in *.
  destruct (Validate_outcome d) as [[-> Em]|[(-> & Ne & x & p & D & Mi)|(Ne & Cl & O)]].
  - by rewrite bool_decide_eq_true_2.
  - rewrite bool_decide_eq_false_2 by done.
    destruct (Validate_outcome c) as [[-> _]|[(-> & _ & _)|(_ & Cc & _)]]; try done.
    exfalso. rewrite E, fresh_closed in Cc. apply Cc in D. rewrite Mi in D. by destruct D.
  - rewrite bool_decide_eq_false_2 by done.
    destruct (Validate_outcome c) as [[_ Ec]|[(_ & _ & x & p & D & Mi)|(_ & _ & Oc)]].
    + rewrite E in Ec. by apply fmap_empty_inv in Ec.
    + rewrite E in D, Mi. rewrite fresh_depends in D. apply Cl in D. rewrite lookup_fmap in Mi.
      apply fmap_None in Mi. rewrite Mi in D. by destruct D.
    + rewrite E in Oc. destruct O as [[-> [x C]]|(d' & -> & A & _)],
        Oc as [[-> [y C']]|(c' & -> & A' & _)]; try done; exfalso.
      * apply (A' x). by apply fresh_tc.
      * apply (A y). by apply fresh_tc.
Qed.

(* ------------------------------------------------------------------ *)
(** ** The gate of a node *)

Lemma GetNodeStates_eq (d : DAG any) : GetNodeStates d = state <$> nodes d.
Proof. unfold GetNodeStates. apply (foldl_insert_map state). Qed.

Lemma IsReady_true (n : Node any) sts :
  IsReady n sts = true <-> forall p, p ∈ dependencies n -> sts !! p = Some NodeStateSucceeded.
Proof.
  unfold IsReady. rewrite forallb_forall. split.
  - intros K p Hp%list_elem_of_In. specialize (K p Hp). destruct (sts !! p); [|done].
    apply bool_decide_eq_true in K. by subst.
  - intros K p Hp%list_elem_of_In. by rewrite (K p Hp).
Qed.

Lemma IsBlocked_true (n : Node any) sts :
  IsBlocked n sts = true <->
  exists p st, p ∈ dependencies n /\ sts !! p = Some st /\ isBlockingState st = true.
Proof.
  unfold IsBlocked, isDependencyBlocked. rewrite existsb_exists. split.
  - intros (p & Hp%list_elem_of_In & B). destruct (sts !! p) as [st|] eqn:E; [|done]. eauto.
  - intros (p & st & Hp%list_elem_of_In & E & B). exists p. by rewrite E.
Qed.

Lemma terminal_cases st : IsTerminal st = negb (negb (bool_decide (st = NodeStateSucceeded)) && negb (isBlockingState st)).
Proof. by destruct st. Qed.

(** In a graph whose dependencies exist, once the dependencies of a node
    have all ended, the node is ready or blocked and not both: ready exactly
    when all of them succeeded. *)
Theorem gate_decides (d : DAG any) x n :
  closed (nodes d) -> nodes d !! x = Some n ->
  (forall p m, p ∈ dependencies n -> nodes d !! p = Some m -> IsTerminal (state m) = true) ->
  IsBlocked n (GetNodeStates d) = negb (IsReady n (GetNodeStates d)) /\
  (IsReady n (GetNodeStates d) = true <->
    forall p, p ∈ dependencies n -> state <$> nodes d !! p = Some NodeStateSucceeded).
Proof.
  intros C En Te. rewrite GetNodeStates_eq.
  assert (R : IsReady n (state <$> nodes d) = true <->
    forall p, p ∈ dependencies n -> state <$> nodes d !! p = Some NodeStateSucceeded).
  { rewrite IsReady_true. by setoid_rewrite lookup_fmap. }
  split; [|done]. destruct (IsReady n (state <$> nodes d)) eqn:E; simpl.
  - apply not_true_iff_false. rewrite IsBlocked_true. intros (p & st & Hp & Es & B).
    rewrite IsReady_true in E. rewrite (E p Hp) in Es. by injection Es as <-.
  - apply IsBlocked_true. apply forallb_exists_false in E as (p & Hp & E).
    destruct (C x p) as [m Em]; [by exists n|]. rewrite lookup_fmap, Em in E. simpl in E.
    exists p, (state m). rewrite lookup_fmap, Em. split_and!; try done.
    specialize (Te p m Hp Em). rewrite terminal_cases, E in Te. simpl in Te.
    by apply negb_true_iff, negb_false_iff in Te.
Qed.
End Correct.

(* ------------------------------------------------------------------ *)
(** ** Witnesses *)

Definition sample_config (id : string) (deps : list string) (p : Z) : NodeConfig unit :=
  mkConfig id "coder" "" ∅ deps 0 0 p ∅ [] CollaborationSequential 0.

(** A graph given by its configurations. *)
Definition graph (cfgs : list (NodeConfig unit)) : DAG unit :=
  foldl (fun d c => match AddNode d "" c with Ok d => d | Err _ => d end)
    (NewDAG "id" "sample" DefaultExecutionPolicy) cfgs.

Definition diamond : DAG unit :=
  graph [sample_config "test" ["left"; "right"] 0; sample_config "left" ["plan"] 1;
    sample_config "right" ["plan"; "plan"] 5; sample_config "plan" [] 0].

Definition validate_sample (d : DAG unit) : option (list (list string) * option dag_error) :=
  (fun r => (executionOrder r.1, r.2)) <$> Validate (H := range_id) (H0 := slice_merge_sort) d.

(** The model runs: a graph and its layers, a cycle, a missing dependency. *)
Example validate_runs :
  validate_sample diamond = Some ([["plan"]; ["right"; "left"]; ["test"]], None) /\
  validate_sample (graph [sample_config "a" ["b"] 0; sample_config "b" ["a"] 0; sample_config "c" [] 0])
    = Some ([], Some ErrCyclicDependency) /\
  validate_sample (graph [sample_config "a" ["b"] 0]) = Some ([], Some ErrMissingDependency).
Proof. vm_compute. done. Qed.

Lemma validate_schedules_witness :
  exists L, validate_sample diamond = Some (L, None) /\
    forall i j, in_layer L i "test" -> in_layer L j "plan" -> (j < i)%nat.
Proof.
  destruct (Validate (H := range_id) (H0 := slice_merge_sort) diamond) as [[d' e]|] eqn:V.
  2:{ vm_compute in V. discriminate. }
  assert (e = None) as -> by (vm_compute in V; congruence).
  exists (executionOrder d'). unfold validate_sample. rewrite V. split; [done|].
  pose proof (validate_schedules (H := range_id) (H0 := slice_merge_sort) diamond d' V) as S.
  intros i j Hi Hj.
  assert (D1 : depends (nodes diamond) "test" "left") by (eexists; split; [reflexivity|left]).
  assert (D2 : depends (nodes diamond) "left" "plan") by (eexists; split; [reflexivity|left]).
  destruct (sched_earlier _ _ _ S _ _ _ Hi D1) as (k & Lk & Hk).
  destruct (sched_earlier _ _ _ S _ _ _ Hk D2) as (l & Ll & Hl).
  rewrite (sched_unique _ _ _ S j l "plan" Hj Hl). lia.
Defined.

(** The diamond after its plan failed. *)
Definition failed_plan : DAG unit :=
  onNodes (alter (fun n => SetState n NodeStateFailed) "plan") diamond.

Lemma gate_decides_witness :
  exists n, nodes failed_plan !! "left" = Some n /\
    IsBlocked n (GetNodeStates (H := range_id) failed_plan) = true.
Proof.
  eexists. split; [reflexivity|].
  rewrite (proj1 (gate_decides (H := range_id) failed_plan "left" _ ltac:(
    apply (validateDependencies_true (H := range_id)); vm_compute; reflexivity) eq_refl
    ltac:(intros p m [->|Hp]%elem_of_cons Em; [vm_compute in Em; injection Em as <-; reflexivity|by apply elem_of_nil in Hp]))).
  vm_compute. reflexivity.
Defined.

Lemma is_valid_agrees_witness :
  IsValid (H := range_id) (H0 := slice_merge_sort) (fun _ => "uuid") "temp" diamond = Some true.
Proof.
  rewrite (is_valid_agrees (H := range_id) (H0 := slice_merge_sort) (fun _ => "uuid") "temp" diamond).
  - vm_compute. reflexivity.
  - unfold keyed. apply map_Forall_lookup. unfold diamond, graph. simpl. map_forall_now.
Defined.
