(* ===== verification/DagFailure.v ===== *)
(** * Failures of a layer (core/dag/failure_classifier.go, decision_gate.go)

    What a failure leaves to be run, and the gate that asks for a decision
    between two layers.  [dead] is the reference the loop of
    [propagateBlocked] is compared with: the nodes that a failure reaches. *)

From S2P Require Import Prelude DagModel DagCorrect.
Import DagModel.

Inductive FailureClass := FailureClassNone | FailureClassNonBlocking | FailureClassBlocking.

#[export] Instance FailureClass_eq_dec : EqDecision FailureClass.
Proof. solve_decision. Defined.

Module DagFailure.

Section Classify.
Context {any : Type}.
Implicit Types d : DAG any.

Definition hasAnyFailure (nodeResults : gmap string (NodeResult any)) : bool :=
  existsb (fun kv => bool_decide (RState kv.2 = NodeStateFailed)) (map_to_list nodeResults).

Definition buildStateMap (nodeResults : gmap string (NodeResult any)) : gmap string NodeState := RState <$> nodeResults.

(** [completedLayerIdx] is the index of a layer. *)
Definition collectRemainingNodes d (completedLayerIdx : Z) : list string :=
  concat (drop (Z.to_nat (completedLayerIdx + 1)) (ExecutionOrder d)).

(** [stateMap[id]]: an absent entry reads as the zero value. *)
Definition state_of (stateMap : gmap string NodeState) (id : string) : NodeState :=
  default NodeStatePending (stateMap !! id).

(** The body of the inner loop of [propagateBlocked]. *)
Definition blockNode d (st : gmap string NodeState * bool) (nodeID : string) : gmap string NodeState * bool :=
  let '(stateMap, changed) := st in
  if negb (bool_decide (state_of stateMap nodeID = NodeStatePending)) then st
  else match GetNode d nodeID with
    | None => st
    | Some node => if IsBlocked node stateMap then (<[nodeID := NodeStateBlocked]> stateMap, true) else st
    end.

(** The outer loop: at most [n] rounds. *)
Fixpoint blockRounds d (n : nat) (stateMap : gmap string NodeState) (remaining : list string) : gmap string NodeState :=
  match n with
  | O => stateMap
  | S n =>
    let '(stateMap, changed) := foldl (blockNode d) (stateMap, false) remaining in
    if changed then blockRounds d n stateMap remaining else stateMap
  end.
Definition propagateBlocked d (stateMap : gmap string NodeState) (remaining : list string) : gmap string NodeState :=
  blockRounds d (length remaining) stateMap remaining.

Definition anyViable (stateMap : gmap string NodeState) (remaining : list string) : bool :=
  existsb (fun nodeID => bool_decide (state_of stateMap nodeID = NodeStatePending)) remaining.

Definition ClassifyLayerFailures d (nodeResults : gmap string (NodeResult any)) (completedLayerIdx : Z) : FailureClass :=
  if negb (hasAnyFailure nodeResults) then FailureClassNone
  else
    let remaining := collectRemainingNodes d completedLayerIdx in
    if bool_decide (remaining = []) then FailureClassNone
    else
      let stateMap := propagateBlocked d (buildStateMap nodeResults) remaining in
      if anyViable stateMap remaining then FailureClassNonBlocking else FailureClassBlocking.

(* ------------------------------------------------------------------ *)
(** ** The nodes a failure reaches *)

Definition has_dep d (x p : string) : Prop := exists n, nodes d !! x = Some n /\ p ∈ dependencies n.

(** [dead d sm R x]: a chain of dependencies among the pending nodes of [R]
    leads from [x] to a node that did not succeed. *)
Inductive dead d (sm : gmap string NodeState) (R : list string) : string -> Prop :=
| dead_block x p st : x ∈ R -> state_of sm x = NodeStatePending -> has_dep d x p ->
    sm !! p = Some st -> isBlockingState st = true -> dead d sm R x
| dead_dep x p : x ∈ R -> state_of sm x = NodeStatePending -> has_dep d x p -> dead d sm R p -> dead d sm R x.

Section Rounds.
Context (d : DAG any) (sm : gmap string NodeState) (R : list string).

(** A state map between the first and the last: dead nodes are marked. *)
Definition marked (m : gmap string NodeState) : Prop :=
  forall x, m !! x = sm !! x \/ (dead d sm R x /\ m !! x = Some NodeStateBlocked).

(** The nodes still pending. *)
Definition pendings (m : gmap string NodeState) (l : list string) : nat :=
  length (filter (fun x => state_of m x = NodeStatePending) l).

Lemma pending_insert m x y : state_of (<[x := NodeStateBlocked]> m) y = NodeStatePending -> state_of m y = NodeStatePending.
Proof.
  unfold state_of. destruct (decide (x = y)) as [->|N]; [by rewrite lookup_insert_eq|by rewrite lookup_insert_ne].
Qed.

Lemma pendings_le m x l : (pendings (<[x := NodeStateBlocked]> m) l <= pendings m l)%nat.
Proof.
  unfold pendings. induction l as [|y l IH]; [done|]. rewrite !filter_cons. destruct (decide _) as [P|P].
  - rewrite decide_True by (by apply pending_insert in P). cbn [length]. lia.
  - destruct (decide _); cbn [length]; lia.
Qed.

Lemma pendings_lt m x l : x ∈ l -> state_of m x = NodeStatePending ->
  (pendings (<[x := NodeStateBlocked]> m) l < pendings m l)%nat.
Proof.
  intros Hx P. unfold pendings. induction l as [|y l IH]; [by apply elem_of_nil in Hx|].
  pose proof (pendings_le m x l) as Le. unfold pendings in Le. rewrite !filter_cons.
  destruct (decide (x = y)) as [<-|N].
  - rewrite (decide_True (P := state_of m x = NodeStatePending)) by done.
    rewrite decide_False by (unfold state_of; by rewrite lookup_insert_eq). cbn [length]. lia.
  - apply elem_of_cons in Hx as [->|Hx]; [done|]. specialize (IH Hx).
    unfold state_of in *. rewrite lookup_insert_ne by done. destruct (decide _); cbn [length]; lia.
Qed.

Lemma block_marked m x : marked m -> x ∈ R -> state_of m x = NodeStatePending ->
  (exists n, nodes d !! x = Some n /\ IsBlocked n m = true) -> dead d sm R x.
Proof.
  intros M Hx P (n & En & (p & st & Hp & Ep & B)%IsBlocked_true).
  assert (Px : state_of sm x = NodeStatePending).
  { unfold state_of in *. destruct (M x) as [E|[_ E]]; rewrite E in P; done. }
  destruct (M p) as [E|[D _]].
  - eapply dead_block; [done|done|by exists n|by rewrite <- E|done].
  - eapply dead_dep; [done|done|by exists n|done].
Qed.

(** One pass over the remaining nodes. *)
Lemma pass_spec l m c m' c' : marked m -> l ⊆ R -> foldl (blockNode d) (m, c) l = (m', c') ->
  marked m' /\ (pendings m' R <= pendings m R)%nat /\
  (c' = true -> c = true \/ (pendings m' R < pendings m R)%nat) /\
  (c' = false -> c = false /\ m' = m /\ forall x n, x ∈ l -> state_of m x = NodeStatePending -> nodes d !! x = Some n ->
    IsBlocked n m = false).
Proof.
  revert m c. induction l as [|x l IH]; intros m c M Sub E; cbn [foldl] in E.
  { injection E as <- <-. split_and!; [done|done|by left|]. intros ->. split_and!; [done|done|]. by intros x n Hx%elem_of_nil. }
  assert (Hx : x ∈ R) by set_solver. assert (Sub' : l ⊆ R) by set_solver.
  assert (Skip : blockNode d (m, c) x = (m, c) -> (forall n, state_of m x = NodeStatePending -> nodes d !! x = Some n ->
    IsBlocked n m = false) -> marked m' /\ (pendings m' R <= pendings m R)%nat /\
    (c' = true -> c = true \/ (pendings m' R < pendings m R)%nat) /\
    (c' = false -> c = false /\ m' = m /\ forall y n, y ∈ x :: l -> state_of m y = NodeStatePending -> nodes d !! y = Some n ->
      IsBlocked n m = false)).
  { intros Eb K. rewrite Eb in E. destruct (IH m c M Sub' E) as (? & ? & ? & F). split_and!; try done.
    intros C. destruct (F C) as (? & ? & G). split_and!; try done. intros y n [->|Hy]%elem_of_cons; eauto. }
  unfold blockNode in E at 2. unfold blockNode in Skip at 1. unfold GetNode in *.
  case_bool_decide as P; cbn [negb] in *; [|by apply Skip].
  destruct (nodes d !! x) as [n|] eqn:En; [|by apply Skip].
  destruct (IsBlocked n m) eqn:B; [|apply Skip; [done|by intros ? _ [= <-]]]. clear Skip.
  pose proof (pendings_lt m x R Hx P) as Lt.
  destruct (IH (<[x := NodeStateBlocked]> m) true) as (M' & Le & _ & F); [|done|done|].
  - intros y. destruct (decide (x = y)) as [<-|N]; [|by rewrite lookup_insert_ne].
    rewrite lookup_insert_eq. right. split; [|done]. apply (block_marked m); eauto.
  - split_and!; [done|lia|right; lia|]. intros C. by destruct (F C) as [? _].
Qed.

(** No pending node is blocked any more. *)
Definition stable (m : gmap string NodeState) : Prop :=
  forall x n, x ∈ R -> state_of m x = NodeStatePending -> nodes d !! x = Some n -> IsBlocked n m = false.

Lemma rounds_spec n m : marked m -> (pendings m R <= n)%nat ->
  marked (blockRounds d n m R) /\ stable (blockRounds d n m R).
Proof.
  revert m. induction n as [|n IH]; intros m M Le; cbn [blockRounds].
  - split; [done|]. intros x k Hx P. exfalso. unfold pendings in Le.
    assert (Hf : x ∈ filter (fun x => state_of m x = NodeStatePending) R) by by apply list_elem_of_filter.
    destruct (filter _ R); [by apply elem_of_nil in Hf|cbn [length] in Le; lia].
  - destruct (foldl (blockNode d) (m, false) R) as [m' c] eqn:E.
    destruct (pass_spec R m false m' c M ltac:(done) E) as (M' & _ & Lt & St). destruct c.
    + apply IH; [done|]. destruct (Lt eq_refl); [done|lia].
    + destruct (St eq_refl) as (_ & -> & K). split; [done|]. intros x k Hx. by apply K.
Qed.

Lemma stable_dead m x : marked m -> stable m -> dead d sm R x -> m !! x = Some NodeStateBlocked.
Proof.
  intros M St D. induction D as [x p st Hx P (n & En & Hp) Ep B|x p Hx P (n & En & Hp) _ IH].
  - destruct (M x) as [E|[_ E]]; [|done]. exfalso.
    assert (IsBlocked n m = true) as Bl; [|by rewrite (St x n) in Bl; [|done|unfold state_of in *; by rewrite E|done]].
    apply IsBlocked_true. destruct (M p) as [Em|[_ Em]]; [exists p, st; by rewrite Em|by exists p, NodeStateBlocked].
  - destruct (M x) as [E|[_ E]]; [|done]. exfalso.
    assert (IsBlocked n m = true) as Bl; [|by rewrite (St x n) in Bl; [|done|unfold state_of in *; by rewrite E|done]].
    apply IsBlocked_true. by exists p, NodeStateBlocked.
Qed.

(** The loop is the least fixed point. *)
Lemma propagate_spec x : x ∈ R ->
  (state_of (propagateBlocked d sm R) x = NodeStatePending <-> state_of sm x = NodeStatePending /\ ~ dead d sm R x).
Proof.
  intros Hx. destruct (rounds_spec (length R) sm) as [M St].
  - by left.
  - unfold pendings. apply length_filter.
  - unfold propagateBlocked. set (m := blockRounds _ _ _ _) in *. split.
    + intros P. split.
      * unfold state_of in *. destruct (M x) as [E|[_ E]]; rewrite E in P; done.
      * intros D. unfold state_of in P. by rewrite (stable_dead m x M St D) in P.
    + intros [P N]. unfold state_of in *. by destruct (M x) as [->|[D _]].
Qed.
End Rounds.

(** The class of a layer's failures is exact: none when nothing failed or
    nothing is left to run; blocking when every node left was settled before
    or is reached by a failure through dependencies that are left; and
    non-blocking when some node left is not. *)
Theorem classify_exact d nodeResults idx :
  let R := collectRemainingNodes d idx in
  let sm := buildStateMap nodeResults in
  let failed := exists x r, nodeResults !! x = Some r /\ RState r = NodeStateFailed in
  let viable x := x ∈ R /\ state_of sm x = NodeStatePending /\ ~ dead d sm R x in
  match ClassifyLayerFailures d nodeResults idx with
  | FailureClassNone => ~ failed \/ R = []
  | FailureClassNonBlocking => failed /\ exists x, viable x
  | FailureClassBlocking => failed /\ R <> [] /\ ~ exists x, viable x
  end.
Proof.
  intros R sm failed viable. unfold ClassifyLayerFailures. fold R sm.
  assert (F : hasAnyFailure nodeResults = true <-> failed).
  { unfold hasAnyFailure, failed. rewrite existsb_exists. split.
    - intros ([x r] & H%list_elem_of_In%elem_of_map_to_list & E%bool_decide_eq_true). eauto.
    - intros (x & r & E & Ef). exists (x, r). split; [by apply list_elem_of_In, elem_of_map_to_list|by apply bool_decide_eq_true]. }
  destruct (hasAnyFailure nodeResults) eqn:Eh; cbn [negb].
  2:{ left. intros Fa%F. done. }
  assert (Fa : failed) by by apply F. case_bool_decide as En; [by right|].
  assert (V : anyViable (propagateBlocked d sm R) R = true <-> exists x, viable x).
  { unfold anyViable, viable. rewrite existsb_exists. split.
    - intros (x & Hx%list_elem_of_In & P%bool_decide_eq_true). exists x. split; [done|]. by apply propagate_spec.
    - intros (x & Hx & K). exists x. split; [by apply list_elem_of_In|]. apply bool_decide_eq_true. by apply propagate_spec. }
  destruct (anyViable _ R) eqn:Ev; [split; [done|by apply V]|]. split_and!; [done|done|]. intros K%V. done.
Qed.

(* ------------------------------------------------------------------ *)
(** ** What is reported *)

Record FailedNodeSummary := mkSummary { SNodeID : string; SNodeName : string; SAgentType : string; SError : string }.

Section Summaries.
Context `{RangeOrder}.
(** [v.(string)] *)
Variable as_string : any -> option string.

Definition summarize d (kv : string * NodeResult any) : option FailedNodeSummary :=
  let '(nodeID, result) := kv in
  if negb (bool_decide (RState result = NodeStateFailed)) then None
  else
    node ← GetNode d nodeID;
    let errMsg := match Error result with Some e => text e | None => "" end in
    let name := default "" (v ← Metadata (config node) !! "name"; as_string v) in
    Some (mkSummary nodeID name (AgentType (config node)) errMsg).

Definition CollectFailedNodes d (nodeResults : gmap string (NodeResult any)) : list FailedNodeSummary :=
  omap (summarize d) (range_map 13 nodeResults).
End Summaries.
End Classify.

(* ------------------------------------------------------------------ *)
(** ** Decisions *)

Inductive DecisionKind := DecisionRetry | DecisionSkip | DecisionAbort.

(** What a gate returns: nil, [ErrLayerRetry], or another error. *)
Definition applyDecision (decision : DecisionKind) : option dag_error :=
  match decision with
  | DecisionRetry => Some ErrLayerRetry
  | DecisionSkip => None
  | DecisionAbort => Some ErrDAGCancelled
  end.

(** The channels a gate has made, each with the decision in its buffer of one
    place, and the one that waits for each graph. *)
Record DecisionGate := mkGate { chans : list (option DecisionKind); pending : gmap string nat }.

Definition NewDecisionGate : DecisionGate := mkGate [] ∅.

Definition ResolveDecision (g : DecisionGate) (dagID : string) (decision : DecisionKind) : DecisionGate :=
  match pending g !! dagID with
  | None => g
  | Some ch =>
    match chans g !! ch with
    | Some None => mkGate (<[ch := Some decision]> (chans g)) (pending g)
    | _ => g
    end
  end.

(** [handleBlocking] after the callback: registering the channel, ... *)
Definition register (g : DecisionGate) (dagID : string) : DecisionGate * nat :=
  (mkGate (chans g ++ [None]) (<[dagID := length (chans g)]> (pending g)), length (chans g)).

(** ... receiving from it, [None] while there is nothing, ... *)
Definition receive (g : DecisionGate) (ch : nat) : option (DecisionGate * DecisionKind) :=
  match chans g !! ch with
  | Some (Some decision) => Some (mkGate (<[ch := None]> (chans g)) (pending g), decision)
  | _ => None
  end.

(** ... and the deferred deletion. *)
Definition unregister (g : DecisionGate) (dagID : string) : DecisionGate :=
  mkGate (chans g) (delete dagID (pending g)).

Definition resolves (g : DecisionGate) (calls : list (string * DecisionKind)) : DecisionGate :=
  foldl (fun g c => ResolveDecision g c.1 c.2) g calls.

(** [handleBlocking]: the calls of [ResolveDecision] that come before the
    channel is registered, those of the request callback among them, and those
    before the select looks at it; the error of the context, if it has ended by
    then; and which case the select takes when both are ready.  The gate, and
    what is returned; [None] while the select has nothing to take. *)
Definition handleBlocking (g : DecisionGate) (dagID : string) (before after : list (string * DecisionKind))
    (ctx : option ctx_error) (takes_ctx : bool) : DecisionGate * option (option (dag_error + ctx_error)) :=
  let g := resolves g before in
  let '(g, ch) := register g dagID in
  let g := resolves g after in
  match (if takes_ctx then ctx else None), receive g ch, ctx with
  | Some e, _, _ | _, None, Some e => (unregister g dagID, Some (Some (inr e)))
  | None, Some (g, decision), _ => (unregister g dagID, Some (inl <$> applyDecision decision))
  | None, None, None => (g, None)
  end.

(** The gate function of a graph; the callbacks only observe. *)
Definition handleClassification (g : DecisionGate) (dagID : string) (class : FailureClass)
    (before after : list (string * DecisionKind)) (ctx : option ctx_error) (takes_ctx : bool)
  : DecisionGate * option (option (dag_error + ctx_error)) :=
  match class with
  | FailureClassNone | FailureClassNonBlocking => (g, Some None)
  | FailureClassBlocking => handleBlocking g dagID before after ctx takes_ctx
  end.

(** The first decision for a graph. *)
Fixpoint first_for (dagID : string) (calls : list (string * DecisionKind)) : option DecisionKind :=
  match calls with
  | [] => None
  | (x, k) :: calls => if bool_decide (x = dagID) then Some k else first_for dagID calls
  end.

(** Channels are made one by one. *)
Definition gate_wf (g : DecisionGate) : Prop := forall x c, pending g !! x = Some c -> (c < length (chans g))%nat.

Lemma ResolveDecision_frame g x k : pending (ResolveDecision g x k) = pending g /\
  length (chans (ResolveDecision g x k)) = length (chans g).
Proof. unfold ResolveDecision. repeat case_match; cbn; by rewrite ?length_insert. Qed.

Lemma resolves_frame g calls : pending (resolves g calls) = pending g /\ length (chans (resolves g calls)) = length (chans g).
Proof.
  unfold resolves. revert g. induction calls as [|[x k] calls IH]; intros g; [done|]. cbn [foldl fst snd].
  destruct (ResolveDecision_frame g x k) as [E1 E2]. by rewrite <- E1, <- E2.
Qed.

(** The buffer of the channel that waits for one graph only. *)
Lemma resolves_buffer g calls ch id b : pending g !! id = Some ch ->
  (forall x, pending g !! x = Some ch -> x = id) -> chans g !! ch = Some b ->
  chans (resolves g calls) !! ch = Some (match b with Some k => Some k | None => first_for id calls end).
Proof.
  unfold resolves. revert g b. induction calls as [|[x k] calls IH]; intros g b P U B; [by destruct b|]. cbn [foldl fst snd first_for].
  destruct (ResolveDecision_frame g x k) as [E _].
  assert (B' : chans (ResolveDecision g x k) !! ch = Some (match b with Some k => Some k | None => if bool_decide (x = id) then Some k else None end)).
  { unfold ResolveDecision. case_bool_decide as X.
    - subst x. rewrite P, B. destruct b; [done|]. cbn [chans]. apply list_lookup_insert_eq. by apply lookup_lt_Some in B.
    - destruct (pending g !! x) as [c|] eqn:Ex; [|by destruct b].
      destruct (decide (c = ch)) as [->|N]; [by destruct X; apply U|].
      destruct (chans g !! c) as [[]|]; [by destruct b| |by destruct b]. cbn [chans].
      rewrite list_lookup_insert_ne by done. by destruct b. }
  rewrite (IH _ _ ltac:(by rewrite E) ltac:(by rewrite E) B'). destruct b; [done|]. by case_bool_decide.
Qed.

(** A blocking failure waits for the first decision on its graph that
    comes after the channel is registered, and returns what it stands for, or
    the error of the context when that has ended and the select takes it;
    decisions that come earlier, as when the request callback itself
    decides, are dropped, and without another one the gate waits until its
    context ends. *)
Theorem gate_takes_decision g dagID before after ctx takes_ctx : gate_wf g ->
  snd (handleBlocking g dagID before after ctx takes_ctx) =
    match first_for dagID after, ctx with
    | Some k, None => Some (inl <$> applyDecision k)
    | Some k, Some e => Some (if takes_ctx then Some (inr e) else inl <$> applyDecision k)
    | None, Some e => Some (Some (inr e))
    | None, None => None
    end.
Proof.
  intros W. unfold handleBlocking, register. destruct (resolves_frame g before) as [E1 E2].
  set (g1 := resolves g before) in *. set (ch := length (chans g1)).
  pose proof (resolves_buffer (mkGate (chans g1 ++ [None]) (<[dagID := ch]> (pending g1))) after ch dagID None) as B.
  cbn [chans pending] in B. unfold receive. rewrite B.
  - destruct (first_for dagID after) as [k|], ctx, takes_ctx; done.
  - apply lookup_insert_eq.
  - intros x. destruct (decide (dagID = x)) as [<-|N]; [done|]. rewrite lookup_insert_ne by done. rewrite E1.
    intros K%W. unfold ch in K. lia.
  - rewrite lookup_app_r by done. unfold ch. by rewrite Nat.sub_diag.
Qed.

Lemma gate_takes_decision_witness :
  gate_wf NewDecisionGate /\
  snd (handleBlocking NewDecisionGate "d" [("d", DecisionAbort)] [("e", DecisionSkip); ("d", DecisionRetry)] None false) =
    Some (Some (inl ErrLayerRetry)) /\
  snd (handleBlocking NewDecisionGate "d" [("d", DecisionAbort)] [] None false) = None.
Proof.
  assert (W : gate_wf NewDecisionGate) by (intros x c E; discriminate). split; [exact W|]. split.
  - rewrite (gate_takes_decision _ _ _ _ _ _ W). reflexivity.
  - rewrite (gate_takes_decision _ _ _ _ _ _ W). reflexivity.
Defined.
End DagFailure.
