(* ===== verification/DagExecutor.v ===== *)
(** * Running a task graph (core/dag/executor.go)

    One call of [Execute] is a set of goroutines: the main one, which walks
    the layers; one per node it launches; those of the calls of [Cancel]; and
    the environment, which ends the context of the caller.  [step] runs one
    of them to its next access to shared state.  Accesses are grouped into a
    step where what comes between them makes no difference to the rest; the
    two writes of [recordNodeResult], and the check and the write of a
    cancellation, are steps of their own.  Taken together, though another
    goroutine could come between them, are the two contexts [isMidLayerHalt]
    looks at, and the states [GetNodeStates] collects.  A label names who moves and carries what comes from
    outside: the clock, the answer of the dispatcher and of the gate, whether
    the scope accepts a goroutine, which ready case a select takes.

    A layer context is a position in the list of all those made ([waves]),
    which also identifies the wait group and the first error of that run of
    [executeLayer].  Events are not modelled. *)

From S2P Require Semantic.
From S2P Require Import Prelude GoStd DagModel DagValidator DagFailure.
Import DagModel DagValidator.

Module DagExecutor.

(* ------------------------------------------------------------------ *)
(** ** Errors *)

Definition sentinel_text (e : dag_error) : string :=
  match e with
  | ErrDAGNotFound => "DAG not found"
  | ErrDAGAlreadyRunning => "DAG is already running"
  | ErrDAGNotRunning => "DAG is not running"
  | ErrDAGCancelled => "DAG was cancelled"
  | ErrNodeNotFound => "node not found"
  | ErrInvalidDAG => "invalid DAG"
  | ErrCyclicDependency => "cyclic dependency detected"
  | ErrMissingDependency => "missing dependency"
  | ErrEmptyDAG => "DAG has no nodes"
  | ErrDuplicateNode => "duplicate node ID"
  | ErrNodeTimeout => "node execution timed out"
  | ErrExecutorClosed => "executor is closed"
  | ErrLayerRetry => "layer retry requested"
  | ErrDispatchNotAcked => "dispatch not acknowledged"
  | ErrNodeBudgetDeferred => "node dispatch deferred pending budget"
  end.

Definition sentinel (e : dag_error) : error := mkError (sentinel_text e) [e] [] None.

(** [ctx.Err()] *)
Definition ctx_err (e : ctx_error) : error :=
  mkError (match e with Canceled => "context canceled" | DeadlineExceeded => "context deadline exceeded" end) [] [e] None.

(** [errors.Is] *)
Definition Is (e : error) (s : dag_error) : bool := bool_decide (s ∈ is_dag e).

Definition NodeDeferredError_Error (reason : string) (retryAfter : Z) : string :=
  if negb (bool_decide (reason = "")) then reason else sentinel_text ErrNodeBudgetDeferred.

(** A [NodeDeferredError], which unwraps to [ErrNodeBudgetDeferred]. *)
Definition NodeDeferredError (reason : string) (retryAfter : Z) : error :=
  mkError (NodeDeferredError_Error reason retryAfter) [ErrNodeBudgetDeferred] [] (Some (reason, retryAfter)).

Section Exec.
Context {any : Type}.
(** An integer as an [any]. *)
Variable of_int : Z -> any.

(* ------------------------------------------------------------------ *)
(** ** State *)

(** The context, the wait group and the first error of a run of a layer. *)
Record wave := mkWave { werr : option ctx_error; wfirst : bool }.

Record Executor := mkExecutor {
  epolicy : ExecutionPolicy;
  edag : DAG any;
  estate : DAGState;
  currentLayer : Z;
  estart : Z;
  nodeResults : gmap string (NodeResult any);
  nodesRunning : Z;
  cancelled : bool;
  ctx : option ctx_error;
  waves : list wave;
  layerCtx : option nat;
  sem : option nat;
  closed : bool;
  layerRetries : gmap Z Z;
  budgetRetry : gmap string Z
}.

Definition setDag (e : Executor) (d : DAG any) : Executor :=
  mkExecutor (epolicy e) d (estate e) (currentLayer e) (estart e) (nodeResults e) (nodesRunning e) (cancelled e)
    (ctx e) (waves e) (layerCtx e) (sem e) (closed e) (layerRetries e) (budgetRetry e).
Definition setState (e : Executor) (s : DAGState) : Executor :=
  mkExecutor (epolicy e) (edag e) s (currentLayer e) (estart e) (nodeResults e) (nodesRunning e) (cancelled e)
    (ctx e) (waves e) (layerCtx e) (sem e) (closed e) (layerRetries e) (budgetRetry e).
Definition setResults (e : Executor) (m : gmap string (NodeResult any)) : Executor :=
  mkExecutor (epolicy e) (edag e) (estate e) (currentLayer e) (estart e) m (nodesRunning e) (cancelled e) (ctx e)
    (waves e) (layerCtx e) (sem e) (closed e) (layerRetries e) (budgetRetry e).
Definition setRunning (e : Executor) (n : Z) : Executor :=
  mkExecutor (epolicy e) (edag e) (estate e) (currentLayer e) (estart e) (nodeResults e) n (cancelled e) (ctx e)
    (waves e) (layerCtx e) (sem e) (closed e) (layerRetries e) (budgetRetry e).
Definition setCancelled (e : Executor)  : Executor :=
  mkExecutor (epolicy e) (edag e) (estate e) (currentLayer e) (estart e) (nodeResults e) (nodesRunning e) true
    (ctx e) (waves e) (layerCtx e) (sem e) (closed e) (layerRetries e) (budgetRetry e).
Definition setContexts (e : Executor) (c : option ctx_error) (ws : list wave) : Executor :=
  mkExecutor (epolicy e) (edag e) (estate e) (currentLayer e) (estart e) (nodeResults e) (nodesRunning e)
    (cancelled e) c ws (layerCtx e) (sem e) (closed e) (layerRetries e) (budgetRetry e).
Definition setLayer (e : Executor) (l : Z) (c : option nat) (ws : list wave) : Executor :=
  mkExecutor (epolicy e) (edag e) (estate e) l (estart e) (nodeResults e) (nodesRunning e) (cancelled e) (ctx e)
    ws c (sem e) (closed e) (layerRetries e) (budgetRetry e).
Definition setSem (e : Executor) (n : option nat) : Executor :=
  mkExecutor (epolicy e) (edag e) (estate e) (currentLayer e) (estart e) (nodeResults e) (nodesRunning e)
    (cancelled e) (ctx e) (waves e) (layerCtx e) n (closed e) (layerRetries e) (budgetRetry e).
Definition setClosed (e : Executor)  : Executor :=
  mkExecutor (epolicy e) (edag e) (estate e) (currentLayer e) (estart e) (nodeResults e) (nodesRunning e)
    (cancelled e) (ctx e) (waves e) (layerCtx e) (sem e) true (layerRetries e) (budgetRetry e).
Definition setLayerRetries (e : Executor) (m : gmap Z Z) : Executor :=
  mkExecutor (epolicy e) (edag e) (estate e) (currentLayer e) (estart e) (nodeResults e) (nodesRunning e)
    (cancelled e) (ctx e) (waves e) (layerCtx e) (sem e) (closed e) m (budgetRetry e).
Definition setBudgetRetry (e : Executor) (m : gmap string Z) : Executor :=
  mkExecutor (epolicy e) (edag e) (estate e) (currentLayer e) (estart e) (nodeResults e) (nodesRunning e)
    (cancelled e) (ctx e) (waves e) (layerCtx e) (sem e) (closed e) (layerRetries e) m.

(** The goroutines of nodes: the parent results, the attempt, the last error
    and the context they hold. *)
Inductive gpc :=
| GStart
| GLoop (pr : gmap string (NodeResult any)) (attempt : Z) (lastErr : option error)
| GBackoff (pr : gmap string (NodeResult any)) (attempt : Z) (parent : option nat) (lastErr : option error)
| GDispatch (pr : gmap string (NodeResult any)) (attempt : Z)
| GCall (pr : gmap string (NodeResult any)) (attempt : Z) (parent : option nat)
| GRecord (result : NodeResult any) (err : option error)
| GSet (result : NodeResult any) (err : option error)
| GCheck (err : option error)
| GRelease
| GUncount
| GEnd.

(** [slot]: it has to give back a place of the semaphore; [counted]: it is
    one of [nodesRunning]. *)
Record go := mkGo { gnode : string; gwave : nat; slot : bool; counted : bool; gpc_ : gpc }.

Inductive layerOutcome := layerOutcomeContinue | layerOutcomeStop | layerOutcomeRetry.

Record DAGResult := mkDAGResult {
  DID : string;
  DState : DAGState;
  DResults : gmap string (NodeResult any);
  NodesSucceeded : Z;
  NodesFailed : Z;
  NodesSkipped : Z;
  DError : option error;
  DStart : Z;
  DEnd : Z;
  DDuration : Z
}.

(** The main goroutine, in the order of the code: [idx] is the layer, [w] its
    wave, [todo] the nodes left of the loop it is in. *)
Inductive mpc :=
| MLayers (idx : nat)
| MNode (idx w : nat) (todo : list string)
| MReady (idx w : nat) (x : string) (todo : list string)
| MBlock (idx w : nat) (x : string) (result : NodeResult any) (written : bool) (todo : list string)
| MAcquire (idx w : nat) (x : string) (todo : list string)
| MRun (idx w : nat) (x : string) (todo : list string)
| MJoin (idx w i : nat) (todo : list string)
| MWait (idx w : nat)
| MSweep (idx w : nat) (failed : bool) (snapshot : gmap string (NodeResult any)) (todo : list string)
| MMark (idx w : nat) (failed : bool) (snapshot : gmap string (NodeResult any)) (x : string) (result : NodeResult any)
    (written : bool) (todo : list string)
| MAfter (idx w : nat) (failed : bool)
| MBudget (idx w : nat) (deadline : Z)
| MGate (idx w : nat)
| MLeave (idx w : nat) (outcome : layerOutcome)
| MReset (idx : nat)
| MBuild
| MDone (result : DAGResult).

(** A call of [Cancel] in its loop over the nodes. *)
Inductive cpc :=
| CNext (todo : list string)
| CMark (x : string) (result : NodeResult any) (written : bool) (todo : list string).

(** [calls]: the calls of the dispatcher, newest first, with the parent
    results they got.  [abandoned]: a layer was left while goroutines of it
    were not finished. *)
Record sys := mkSys {
  exec : Executor;
  main : mpc;
  gos : list go;
  sweeps : list cpc;
  calls : list (string * gmap string (NodeResult any));
  abandoned : bool
}.

(* ------------------------------------------------------------------ *)
(** ** Contexts and nodes *)

(** Ending a context ends those made from it. *)
Definition end_wave (err : ctx_error) (v : wave) : wave :=
  mkWave (Some (default err (werr v))) (wfirst v).
Definition end_ctx (e : Executor) (err : ctx_error) : Executor :=
  match ctx e with
  | Some _ => e
  | None => setContexts e (Some err) (end_wave err <$> waves e)
  end.
Definition cancel_wave (e : Executor) (w : nat) : Executor :=
  setContexts e (ctx e) (alter (end_wave Canceled) w (waves e)).

(** [parent.Err()] *)
Definition parent_err (e : Executor) (parent : option nat) : option ctx_error :=
  match parent with
  | Some w => match waves e !! w with Some v => werr v | None => None end
  | None => ctx e
  end.

Definition activeNodeParentContext (e : Executor) : option nat := layerCtx e.

Definition update_node (e : Executor) (x : string) (f : Node any -> Node any) : Executor :=
  setDag e (onNodes (alter f x) (edag e)).

(** The two writes of [recordNodeResult]. *)
Definition write_result (e : Executor) (x : string) (r : NodeResult any) : Executor :=
  setResults e (<[x := r]> (nodeResults e)).
Definition write_node (e : Executor) (x : string) (r : NodeResult any) : Executor :=
  update_node e x (fun n => SetResult n (Some r)).

Definition blockedResult (x : string) (now : Z) : NodeResult any :=
  mkResult x NodeStateBlocked None None 0 now 0 0 ∅.
Definition cancelledResult (x : string) (now : Z) : NodeResult any :=
  mkResult x NodeStateCancelled None (Some (sentinel ErrDAGCancelled)) 0 now 0 0 ∅.

Definition resolveNodeTimeout (e : Executor) (n : Node any) : Z :=
  let timeout := Timeout (config n) in
  if timeout =? NoTimeout then NoTimeout
  else if timeout =? 0 then DefaultTimeout (epolicy e) else timeout.

Definition resolveNodeRetries (e : Executor) (n : Node any) : Z :=
  let maxRetries := Retries (config n) in
  if maxRetries =? 0 then DefaultRetries (epolicy e) else maxRetries.

Definition getParentResults (e : Executor) (n : Node any) : gmap string (NodeResult any) :=
  foldl (fun results depID => match nodeResults e !! depID with Some r => <[depID := r]> results | None => results end)
    ∅ (dependencies n).

(* ------------------------------------------------------------------ *)
(** ** What a dispatch gives *)

Definition failedDispatchResult (x : string) (err : error) (duration now : Z) : NodeResult any :=
  mkResult x NodeStateFailed None (Some err) 0 now (if 0 <? duration then duration else 0) 0 ∅.

Definition deferredDispatchResult (x : string) (reason : string) (retryAfter now : Z) : NodeResult any :=
  mkResult x NodeStateWaitingBudget None (Some (NodeDeferredError reason retryAfter)) 0 now 0 0
    (if 0 <? retryAfter then {["retry_after_ms" := of_int (Z.quot retryAfter 1000000)]} else ∅).

Definition failedNodeResult (n : Node any) (x : string) (err : option error) (now : Z) : NodeResult any :=
  mkResult x NodeStateFailed None err 0 now (now - startTime n) (retryCount n) ∅.

(** [dispatchNode] after the dispatcher has returned; [ctxErr] is the error
    of the context it was called with. *)
Definition dispatched (x : string) (n : Node any) (now : Z) (ctxErr : option ctx_error)
    (result : option (NodeResult any)) (err : option error) : option (NodeResult any) * option error :=
  match err with
  | None => (result, None)
  | Some e =>
    match deferred e with
    | Some (reason, after) => (Some (deferredDispatchResult x reason after now), Some (NodeDeferredError reason after))
    | None =>
      if bool_decide (DeadlineExceeded ∈ is_ctx e) ||
         (bool_decide (result = None) && bool_decide (ctxErr = Some DeadlineExceeded))
      then (Some (failedDispatchResult x (sentinel ErrNodeTimeout) (now - startTime n) now), Some (sentinel ErrNodeTimeout))
      else (result, Some e)
    end
  end.

(** [deferredDispatch]: the time to retry at, if the dispatch was deferred. *)
Definition deferredDispatch (err : option error) (now : Z) : option Z :=
  '(_, after) ← (e ← err; deferred e);
  Some (if 0 <? after then now + after else now).

Definition recordBudgetRetry (e : Executor) (x : string) (retryAt now : Z) : Executor :=
  setBudgetRetry e (<[x := if (retryAt =? 0) || (retryAt <? now) then now + RetryBackoff (epolicy e) else retryAt]>
    (budgetRetry e)).

Definition isDispatchSuccess (result : option (NodeResult any)) (err : option error) : bool :=
  match err, result with
  | None, Some r => IsSuccess (RState r)
  | _, _ => false
  end.

Definition dispatchError (err : option error) (result : option (NodeResult any)) : option error :=
  match result with
  | Some r => match Error r with Some e => Some e | None => err end
  | None => err
  end.

Definition isMidLayerHalt (e : Executor) : bool :=
  match ctx e with
  | Some _ => false
  | None => match layerCtx e with Some w => bool_decide (is_Some (parent_err e (Some w))) | None => false end
  end.

(** [e.cancelled.Store(true); e.cancel()] *)
Definition cancel_all (e : Executor) : Executor := end_ctx (setCancelled e) Canceled.

(** The executor, whether the loop of attempts ends, and the error otherwise. *)
Definition handleDispatchResult (e : Executor) (result : option (NodeResult any)) (err : option error)
  : Executor * bool * option error :=
  if bool_decide (option_map RState result = Some NodeStateCancelled) then
    if isMidLayerHalt e then (e, true, None) else (cancel_all e, true, None)
  else if match err with Some x => Is x ErrDAGCancelled | None => false end then (cancel_all e, true, None)
  else if isDispatchSuccess result err then (e, true, None)
  else (e, false, dispatchError err result).

(* ------------------------------------------------------------------ *)
(** ** The goroutine of a node *)

(** What comes from outside in a step of a goroutine: the clock (read twice),
    which case of the select of the backoff is taken, the answer of the
    dispatcher and whether the deadline of the node has passed before the
    context ended. *)
Record gchoice := mkG {
  g_now : Z;
  g_now2 : Z;
  g_timer : bool;
  g_reply : option (NodeResult any);
  g_err : option error;
  g_expired : bool
}.

(** There is no dispatcher: [dispatchNode] fails at once. *)
Variable dispatching : bool.

Definition with_pc (g : go) (pc : gpc) : go := mkGo (gnode g) (gwave g) (slot g) (counted g) pc.

(** [ctx.Err()] of the context [dispatchNode] made. *)
Definition node_ctx_err (e : Executor) (n : Node any) (parent : option nat) (expired : bool) : option ctx_error :=
  if (0 <? resolveNodeTimeout e n) && expired then Some DeadlineExceeded else parent_err e parent.

(** [executeNode] up to its end: the executor, the goroutine, and the call of
    the dispatcher it makes. *)
Definition stepAttempt (e : Executor) (n : Node any) (g : go) (c : gchoice)
  : option (Executor * go * option (gmap string (NodeResult any))) :=
  let x := gnode g in
  match gpc_ g with
  | GStart => Some (e, with_pc g (GLoop (getParentResults e n) 0 None), None)
  | GLoop pr attempt lastErr =>
    if resolveNodeRetries e n <? attempt then
      Some (e, with_pc g (GRecord (failedNodeResult n x lastErr (g_now c)) lastErr), None)
    else if cancelled e then
      Some (e, with_pc g (GRecord (cancelledResult x (g_now c)) (Some (sentinel ErrDAGCancelled))), None)
    else if attempt =? 0 then Some (e, with_pc g (GDispatch pr attempt), None)
    else Some (update_node e x IncrementRetryCount, with_pc g (GBackoff pr attempt (activeNodeParentContext e) lastErr), None)
  | GBackoff pr attempt parent lastErr =>
    if g_timer c then Some (e, with_pc g (GDispatch pr attempt), None)
    else match parent_err e parent with
      | Some err => Some (e, with_pc g (GRecord (cancelledResult x (g_now c)) (Some (ctx_err err))), None)
      | None => None
      end
  | GDispatch pr attempt =>
    let e := update_node e x (fun n => SetStartTime (SetState (SetState (SetState n NodeStateQueued) NodeStateDispatched)
      NodeStateRunning) (g_now c)) in
    Some (e, with_pc g (GCall pr attempt (activeNodeParentContext e)), if dispatching then Some pr else None)
  | GCall pr attempt parent =>
    let '(result, err) :=
      if dispatching then dispatched x n (g_now c) (node_ctx_err e n parent (g_expired c)) (g_reply c) (g_err c)
      else (Some (failedDispatchResult x (sentinel ErrNodeNotFound) 0 (g_now c)), Some (sentinel ErrNodeNotFound)) in
    match deferredDispatch err (g_now c) with
    | Some retryAt =>
      let e := recordBudgetRetry e x retryAt (g_now2 c) in
      Some (e, with_pc g (match result with Some r => GRecord r None | None => GCheck None end), None)
    | None =>
      let '(e, success, dispatchErr) := handleDispatchResult e result err in
      if success then Some (e, with_pc g (match result with Some r => GRecord r None | None => GCheck None end), None)
      else Some (e, with_pc g (GLoop pr (attempt + 1) dispatchErr), None)
    end
  | _ => None
  end.

(** [cancelLayerOnBlockingFailure] *)
Definition cancelLayerOnBlockingFailure (e : Executor) (x : string) : Executor :=
  match nodeResults e !! x with
  | Some result =>
    if bool_decide (RState result = NodeStateFailed) then
      match layerCtx e with
      | Some w =>
        if bool_decide (DagFailure.ClassifyLayerFailures (edag e) (nodeResults e) (currentLayer e) = FailureClassBlocking)
        then cancel_wave e w else e
      | None => e
      end
    else e
  | None => e
  end.

(** [errState.record] *)
Definition record_first (e : Executor) (w : nat) (err : option error) : Executor :=
  match err with
  | Some _ => setContexts e (ctx e) (alter (fun v => mkWave (werr v) true) w (waves e))
  | None => e
  end.

Definition releaseLayerSlot (e : Executor) : Executor := setSem e (Nat.pred <$> sem e).

(** The rest: recording, classification, and the deferred calls. *)
Definition stepFinish (e : Executor) (g : go) : option (Executor * go) :=
  let x := gnode g in
  match gpc_ g with
  | GRecord r err => Some (write_result e x r, with_pc g (GSet r err))
  | GSet r err => Some (write_node e x r, with_pc g (GCheck err))
  | GCheck err => Some (cancelLayerOnBlockingFailure (record_first e (gwave g) err) x, with_pc g GRelease)
  | GRelease =>
    Some (if slot g then releaseLayerSlot e else e, mkGo x (gwave g) false (counted g) GUncount)
  | GUncount =>
    Some (if counted g then setRunning e (nodesRunning e - 1) else e, mkGo x (gwave g) (slot g) false GEnd)
  | _ => None
  end.

Definition step_go (s : sys) (i : nat) (c : gchoice) : option sys :=
  g ← gos s !! i;
  match gpc_ g with
  | GStart | GLoop _ _ _ | GBackoff _ _ _ _ | GDispatch _ _ | GCall _ _ _ =>
    n ← GetNode (edag (exec s)) (gnode g);
    '(e, g', call) ← stepAttempt (exec s) n g c;
    Some (mkSys e (main s) (<[i := g']> (gos s)) (sweeps s)
      (match call with Some pr => (gnode g, pr) :: calls s | None => calls s end) (abandoned s))
  | _ =>
    '(e, g') ← stepFinish (exec s) g;
    Some (mkSys e (main s) (<[i := g']> (gos s)) (sweeps s) (calls s) (abandoned s))
  end.

(* ------------------------------------------------------------------ *)
(** ** The main goroutine *)

(** Whether the scope refuses the goroutine, the error of the gate, whether
    the wait for the budget succeeds. *)
Record mchoice := mkM { m_now : Z; m_reject : option error; m_gate : option error; m_wait : bool }.

(** There is a scope, a gate, a dispatcher that waits for the budget. *)
Variable scoped gated waits : bool.
Context `{RangeOrder}.

Definition maxLayerRetries : Z := 3.

Definition ended (g : go) : bool := match gpc_ g with GEnd => true | _ => false end.
(** The goroutines of a wave that [wg.Wait] waits for. *)
Definition unfinished (w : nat) (g : go) : bool := Nat.eqb (gwave g) w && negb (ended g).

(** The checks of [nodeForLayer] on a node that is not terminal. *)
Definition runnable (e : Executor) (n : Node any) : bool :=
  let nodeStates := GetNodeStates (edag e) in
  negb (IsBlocked n nodeStates) && IsReady n nodeStates.

(** [nodeForLayer] *)
Definition stepReady (s : sys) (idx w : nat) (x : string) (todo : list string) (now : Z) : mpc :=
  match GetNode (edag (exec s)) x with
  | None => MNode idx w todo
  | Some n =>
    if IsTerminal (state n) then MNode idx w todo
    else if runnable (exec s) n then MAcquire idx w x todo
    else MBlock idx w x (blockedResult x now) false todo
  end.

(** [acquireLayerSlot]: the error of the layer context, a place, or waiting. *)
Inductive acquired := AcquireErr | AcquireOk (e : Executor) | AcquireWait.
Definition acquireLayerSlot (e : Executor) : acquired :=
  match sem e with
  | None => AcquireOk e
  | Some k =>
    match parent_err e (activeNodeParentContext e) with
    | Some _ => AcquireErr
    | None => if Z.of_nat k <? MaxConcurrency (epolicy e) then AcquireOk (setSem e (Some (S k))) else AcquireWait
    end
  end.

(** [launchNodeExecution]: the goroutine, or the node that the scope refuses,
    which the main goroutine then records itself. *)
Definition launch (e : Executor) (w : nat) (x : string) (reject : option error) (now : Z) : Executor * go :=
  match scoped, reject with
  | true, Some err => (releaseLayerSlot e, mkGo x w false false (GRecord (failedDispatchResult x err 0 now) (Some err)))
  | _, _ => (setRunning e (nodesRunning e + 1), mkGo x w (bool_decide (is_Some (sem e))) true GStart)
  end.

(** The body of the loop of [nextBudgetRetry]. *)
Definition earlierRetry (e : Executor) (now : Z) (next : option Z) (x : string) : option Z :=
  match nodeResults e !! x with
  | Some r =>
    if bool_decide (RState r = NodeStateWaitingBudget) then
      let retryAt := default (now + RetryBackoff (epolicy e)) (budgetRetry e !! x) in
      match next with
      | None => Some retryAt
      | Some t => Some (if retryAt <? t then retryAt else t)
      end
    else next
  | None => next
  end.
Definition nextBudgetRetry (e : Executor) (now : Z) (layer : list string) : option Z :=
  foldl (earlierRetry e now) None layer.

(** The end of [waitForBudgetRetry]: [waitUntil] fails only when the context
    has ended. *)
Definition waitForBudgetRetry (e : Executor) (ok : bool) : option layerOutcome :=
  if ok then Some layerOutcomeRetry
  else if waits || bool_decide (is_Some (ctx e)) then Some layerOutcomeStop else None.

Definition checkLayerRetryBudget (e : Executor) (idx : nat) : Executor * layerOutcome :=
  let count := default 0 (layerRetries e !! Z.of_nat idx) + 1 in
  (setLayerRetries e (<[Z.of_nat idx := count]> (layerRetries e)),
   if maxLayerRetries <? count then layerOutcomeStop else layerOutcomeRetry).

Definition evaluateGateResult (e : Executor) (idx : nat) (gateErr : option error) : Executor * layerOutcome :=
  match (if gated then gateErr else None) with
  | None => (e, layerOutcomeContinue)
  | Some err => if Is err ErrLayerRetry then checkLayerRetryBudget e idx else (e, layerOutcomeStop)
  end.

(** The body of the loop of [resetLayerForRetry]. *)
Definition resetNodeForRetry (e : Executor) (x : string) : Executor :=
  match nodeResults e !! x with
  | None => e
  | Some r =>
    if negb (bool_decide (RState r = NodeStateFailed)) && negb (bool_decide (RState r = NodeStateWaitingBudget)) then e
    else match GetNode (edag e) x with
      | None => e
      | Some _ =>
        let e := update_node e x (fun n => SetState n NodeStatePending) in
        let e := if bool_decide (RState r = NodeStateFailed) then update_node e x ResetRetryCount else e in
        setBudgetRetry (setResults e (delete x (nodeResults e))) (delete x (budgetRetry e))
      end
  end.
Definition resetLayerForRetry (e : Executor) (layer : list string) : Executor := foldl resetNodeForRetry e layer.

(* ------------------------------------------------------------------ *)
(** ** The result *)

Definition newResultSnapshot (e : Executor) (now : Z) : DAGResult :=
  mkDAGResult (DagModel.id (edag e)) DAGStatePending ∅ 0 0 0 None (estart e) now (now - estart e).

Definition tallyNodeResult (result : DAGResult) (st : NodeState) : DAGResult :=
  let bump (s f k : Z) := mkDAGResult (DID result) (DState result) (DResults result) (NodesSucceeded result + s) (NodesFailed result + f)
    (NodesSkipped result + k) (DError result) (DStart result) (DEnd result) (DDuration result) in
  match st with
  | NodeStateSucceeded => bump 1 0 0
  | NodeStateFailed | NodeStateBlocked => bump 0 1 0
  | NodeStateSkipped | NodeStateCancelled => bump 0 0 1
  | _ => result
  end.

Definition wrapNodeFailure (r : NodeResult any) : error :=
  match Error r with
  | Some err => mkError (NodeID r +:+ ": " +:+ text err) (is_dag err) (is_ctx err) (deferred err)
  | None => mkError (NodeID r +:+ ": unknown error") [] [] None
  end.

(** [errors.Join] *)
Definition joinErrors (errs : list error) : error :=
  mkError (String.concat (String "010" EmptyString) (text <$> errs)) (errs ≫= is_dag) (errs ≫= is_ctx)
    (head (omap deferred errs)).

Definition buildNodeFailureError (results : gmap string (NodeResult any)) : error :=
  let errs := wrapNodeFailure <$> filter (fun r => RState r = NodeStateFailed) (range_map 14 results).*2 in
  if bool_decide (errs = []) then mkError "dag failed" [] [] None else joinErrors errs.

Definition incompleteNodeCountLocked (e : Executor) : Z :=
  len (filter (fun n => IsTerminal (state n) = false) (DagModel.Nodes (edag e))).

Definition applyResultState (e : Executor) (result : DAGResult) (incomplete : Z) : DAGResult :=
  let set st err := mkDAGResult (DID result) st (DResults result) (NodesSucceeded result) (NodesFailed result) (NodesSkipped result) err
    (DStart result) (DEnd result) (DDuration result) in
  if cancelled e || bool_decide (ctx e = Some Canceled) then set DAGStateCancelled (Some (sentinel ErrDAGCancelled))
  else match ctx e with
    | Some err => set DAGStateFailed (Some (ctx_err err))
    | None =>
      if 0 <? NodesFailed result then set DAGStateFailed (Some (buildNodeFailureError (DResults result)))
      else if 0 <? incomplete then
        set DAGStateFailed (Some (mkError ("dag incomplete: " +:+ Semantic.Semantic.print_uint incomplete +:+ " nodes unfinished") [] [] None))
      else set DAGStateSucceeded None
    end.

Definition buildResult (e : Executor) (now : Z) : Executor * DAGResult :=
  let result := newResultSnapshot e now in
  let result := foldl (fun r kv => tallyNodeResult (mkDAGResult (DID r) (DState r) (<[kv.1 := kv.2]> (DResults r)) (NodesSucceeded r)
    (NodesFailed r) (NodesSkipped r) (DError r) (DStart r) (DEnd r) (DDuration r)) (RState kv.2)) result (range_map 15 (nodeResults e)) in
  let result := applyResultState e result (incompleteNodeCountLocked e) in
  (setState e (DState result), result).

(* ------------------------------------------------------------------ *)
(** ** A step of the main goroutine *)

(** The start of [executeAndCheckLayer]. *)
Definition begin_layer (e : Executor) (idx : nat) : Executor * nat :=
  let w := length (waves e) in
  (setLayer e (Z.of_nat idx) (Some w) (waves e ++ [mkWave (ctx e) false]), w).

(** Its deferred function. *)
Definition end_layer (e : Executor) (w : nat) : Executor :=
  let e := cancel_wave e w in setLayer e (currentLayer e) None (waves e).

Definition layer_at (e : Executor) (idx : nat) : list string := default [] (ExecutionOrder (edag e) !! idx).

Definition wave_failed (e : Executor) (w : nat) : bool := match waves e !! w with Some v => wfirst v | None => false end.

(** The executor, the program counter, a goroutine it starts and whether it
    leaves the layer without waiting. *)
Definition step_main (s : sys) (c : mchoice) : option sys :=
  let e := exec s in
  let goto e pc := Some (mkSys e pc (gos s) (sweeps s) (calls s) (abandoned s)) in
  match main s with
  | MLayers idx =>
    if (length (ExecutionOrder (edag e)) <=? idx)%nat || cancelled e then goto e MBuild
    else let '(e, w) := begin_layer e idx in goto e (MNode idx w (layer_at e idx))
  | MNode idx w [] => goto e (MWait idx w)
  | MNode idx w (x :: todo) => goto e (if cancelled e then MWait idx w else MReady idx w x todo)
  | MReady idx w x todo => goto e (stepReady s idx w x todo (m_now c))
  | MBlock idx w x r false todo => goto (write_result e x r) (MBlock idx w x r true todo)
  | MBlock idx w x r true todo => goto (write_node e x r) (MNode idx w todo)
  | MAcquire idx w x todo =>
    match acquireLayerSlot e with
    | AcquireErr => Some (mkSys e (MSweep idx w true (nodeResults e) (layer_at e idx)) (gos s) (sweeps s) (calls s)
        (abandoned s || existsb (unfinished w) (gos s)))
    | AcquireOk e => goto e (MRun idx w x todo)
    | AcquireWait => None
    end
  | MRun idx w x todo =>
    let '(e, g) := launch e w x (m_reject c) (m_now c) in
    let pc := if scoped && counted g then MNode idx w todo else MJoin idx w (length (gos s)) todo in
    Some (mkSys e pc (gos s ++ [g]) (sweeps s) (calls s) (abandoned s))
  | MJoin idx w i todo =>
    g ← gos s !! i;
    if ended g then goto e (MNode idx w todo) else None
  | MWait idx w =>
    if existsb (unfinished w) (gos s) then None
    else goto e (MSweep idx w (wave_failed e w) (nodeResults e) (layer_at e idx))
  | MSweep idx w failed snapshot [] => goto e (MAfter idx w failed)
  | MSweep idx w failed snapshot (x :: todo) =>
    match snapshot !! x, GetNode (edag e) x with
    | None, Some n =>
      if IsTerminal (state n) then goto e (MSweep idx w failed snapshot todo)
      else goto e (MMark idx w failed snapshot x (cancelledResult x (m_now c)) false todo)
    | _, _ => goto e (MSweep idx w failed snapshot todo)
    end
  | MMark idx w failed snapshot x r false todo => goto (write_result e x r) (MMark idx w failed snapshot x r true todo)
  | MMark idx w failed snapshot x r true todo => goto (write_node e x r) (MSweep idx w failed snapshot todo)
  | MAfter idx w failed =>
    if failed && bool_decide (FailurePolicy_ (epolicy e) = FailurePolicyFailFast) then goto e (MLeave idx w layerOutcomeStop)
    else match nextBudgetRetry e (m_now c) (layer_at e idx) with
      | Some deadline => goto e (MBudget idx w deadline)
      | None => goto e (MGate idx w)
      end
  | MBudget idx w deadline => outcome ← waitForBudgetRetry e (m_wait c); goto e (MLeave idx w outcome)
  | MGate idx w => let '(e, outcome) := evaluateGateResult e idx (m_gate c) in goto e (MLeave idx w outcome)
  | MLeave idx w outcome =>
    goto (end_layer e w) match outcome with
      | layerOutcomeContinue => MLayers (S idx)
      | layerOutcomeStop => MBuild
      | layerOutcomeRetry => MReset idx
      end
  | MReset idx => goto (resetLayerForRetry e (layer_at e idx)) (MLayers idx)
  | MBuild => let '(e, r) := buildResult e (m_now c) in goto e (MDone r)
  | MDone _ => None
  end.

(* ------------------------------------------------------------------ *)
(** ** Calls from outside *)

(** [Cancel] up to its loop, which becomes a goroutine of its own: the clock
    is not read before a node is marked. *)
Definition Cancel (s : sys) : sys * option dag_error :=
  let e := exec s in
  if negb (bool_decide (estate e = DAGStateRunning)) then (s, Some ErrDAGNotRunning)
  else
    (mkSys (cancel_all e) (main s) (gos s) (sweeps s ++ [CNext ((fun n => ID (config n)) <$> DagModel.Nodes (edag e))])
       (calls s) (abandoned s), None).

(** A step of [cancelNonTerminalNodes]. *)
Definition step_sweep (s : sys) (j : nat) (now : Z) : option sys :=
  let e := exec s in
  let put e c := Some (mkSys e (main s) (gos s) (<[j := c]> (sweeps s)) (calls s) (abandoned s)) in
  c ← sweeps s !! j;
  match c with
  | CNext [] => None
  | CNext (x :: todo) =>
    match GetNode (edag e) x with
    | Some n => put e (if IsTerminal (state n) then CNext todo else CMark x (cancelledResult x now) false todo)
    | None => put e (CNext todo)
    end
  | CMark x r false todo => put (write_result e x r) (CMark x r true todo)
  | CMark x r true todo => put (write_node e x r) (CNext todo)
  end.

Definition MarkNodeAcked (e : Executor) (x : string) : Executor :=
  match GetNode (edag e) x with Some _ => update_node e x (fun n => SetState n NodeStateAcked) | None => e end.
Definition MarkNodeRunning (e : Executor) (x : string) (now : Z) : Executor :=
  match GetNode (edag e) x with
  | Some _ => update_node e x (fun n => SetStartTime (SetState n NodeStateRunning) now)
  | None => e
  end.

Definition Close (e : Executor) : Executor * option dag_error :=
  if closed e then (e, Some ErrExecutorClosed) else (end_ctx (setClosed e) Canceled, None).

(* ------------------------------------------------------------------ *)
(** ** The system *)

Inductive label :=
| LMain (c : mchoice)
| LGo (i : nat) (c : gchoice)
| LSweep (j : nat) (now : Z)
| LCancel
| LClose
| LContext (err : ctx_error)
| LAcked (x : string)
| LRunning (x : string) (now : Z).

Definition with_exec (s : sys) (e : Executor) : sys := mkSys e (main s) (gos s) (sweeps s) (calls s) (abandoned s).

Definition step (s : sys) (l : label) : option sys :=
  match l with
  | LMain c => step_main s c
  | LGo i c => step_go s i c
  | LSweep j now => step_sweep s j now
  | LCancel => Some (fst (Cancel s))
  | LClose => Some (with_exec s (fst (Close (exec s))))
  | LContext err => Some (with_exec s (end_ctx (exec s) err))
  | LAcked x => Some (with_exec s (MarkNodeAcked (exec s) x))
  | LRunning x now => Some (with_exec s (MarkNodeRunning (exec s) x now))
  end.

Definition run (s : sys) (ls : list label) : option sys := foldl (fun o l => s ← o; step s l) (Some s) ls.

(* ------------------------------------------------------------------ *)
(** ** The start *)

Context `{SliceSort}.

Definition NewExecutor (policy : ExecutionPolicy) (d : DAG any) : Executor :=
  mkExecutor policy d DAGStatePending 0 0 ∅ 0 false None [] None None false ∅ ∅.

Definition validateExecution (d : DAG any) : option (DAG any * option dag_error) :=
  if validated d then Some (d, None) else Validate d.

(** [configureSemaphore] *)
Definition configureSemaphore (e : Executor) : option nat :=
  if 0 <? MaxConcurrency (epolicy e) then Some O else sem e.

Definition initializeExecution (e : Executor) (d : DAG any) (parent : option ctx_error) (now : Z) : result dag_error Executor :=
  if bool_decide (estate e = DAGStateRunning) then Err ErrDAGAlreadyRunning
  else Ok (mkExecutor (epolicy e) (ResetNodeStates d) DAGStateRunning 0 now ∅ (nodesRunning e) false parent [] None
    (configureSemaphore e) (closed e) ∅ ∅).

(** [Execute] up to [executeLayers]; the graph is the one [Validate] leaves. *)
Definition Execute (e : Executor) (d : DAG any) (parent : option ctx_error) (now : Z) : option (result dag_error sys) :=
  if closed e then Some (Err ErrExecutorClosed)
  else
    '(d, verr) ← validateExecution d;
    match verr with
    | Some err => Some (Err err)
    | None =>
      match initializeExecution e d parent now with
      | Err err => Some (Err err)
      | Ok e => Some (Ok (mkSys e (MLayers 0) [] [] [] false))
      end
    end.
End Exec.

Arguments Executor : clear implicits.
Arguments sys : clear implicits.
Arguments gchoice : clear implicits.
Arguments label : clear implicits.
Arguments go : clear implicits.
Arguments gpc : clear implicits.
Arguments mpc : clear implicits.
Arguments cpc : clear implicits.
Arguments DAGResult : clear implicits.
End DagExecutor.
