(* ===== verification/DagExecInv.v ===== *)
(** * The executor: what every run keeps (core/dag/executor.go)

    The places of the semaphore and the count of running nodes are exact, so
    no more nodes run at once than the policy allows, and the executor is
    never stuck. *)

From S2P Require Import Prelude DagModel DagValidator DagFailure.
From S2P Require Export DagExecutor.
Import DagModel DagValidator DagExecutor.

Section Inv.
Context {any : Type} (of_int : Z -> any) (dispatching scoped gated waits : bool) `{RangeOrder} `{SliceSort}.

Abbreviation step := (step of_int dispatching scoped gated waits).
Abbreviation run := (run of_int dispatching scoped gated waits).

(** A property that every step keeps. *)
Lemma run_ind (I : sys any -> Prop) s ls s' :
  (forall s l s', I s -> l ∈ ls -> step s l = Some s' -> I s') -> I s -> run s ls = Some s' -> I s'.
Proof.
  intros K. unfold DagExecutor.run. revert s'. induction ls as [|l ls IH] using rev_ind; intros s' Is E.
  { by injection E as <-. }
  rewrite foldl_app in E. cbn [foldl] in E. apply bind_Some in E as (s1 & E1 & E2).
  apply (K s1 l s'); [|set_solver|done]. apply IH; [|done|done].
  intros t k t' It Hk. apply K; [done|set_solver].
Qed.

(* ------------------------------------------------------------------ *)
(** ** What the parts of a step leave alone *)

(** The policy, the semaphore and the count of running nodes. *)
Definition same_slots (e e' : Executor any) : Prop :=
  epolicy e' = epolicy e /\ sem e' = sem e /\ nodesRunning e' = nodesRunning e.

(** The graph but for the run-time state of its nodes. *)
Definition same_graph (e e' : Executor any) : Prop :=
  executionOrder (edag e') = executionOrder (edag e) /\ config <$> nodes (edag e') = config <$> nodes (edag e).

Lemma same_slots_refl e : same_slots e e.
Proof. done. Qed.
Lemma same_graph_refl e : same_graph e e.
Proof. done. Qed.
Lemma same_graph_trans e1 e2 e3 : same_graph e1 e2 -> same_graph e2 e3 -> same_graph e1 e3.
Proof. intros [A B] [A' B']. split; congruence. Qed.
Lemma same_slots_trans e1 e2 e3 : same_slots e1 e2 -> same_slots e2 e3 -> same_slots e1 e3.
Proof. intros (A & B & C) (A' & B' & C'). split_and!; congruence. Qed.

Lemma update_node_graph (e : Executor any) x f : (forall n, config (f n) = config n) -> same_graph e (update_node e x f).
Proof.
  intros K. split; [done|]. apply map_eq. intros y. cbn [update_node setDag edag onNodes nodes].
  rewrite !lookup_fmap. destruct (decide (x = y)) as [<-|N]; [rewrite lookup_alter_eq|by rewrite lookup_alter_ne].
  destruct (nodes (edag e) !! x); [cbn; by rewrite K|done].
Qed.

Lemma end_ctx_frame (e : Executor any) err : same_slots e (end_ctx e err) /\ edag (end_ctx e err) = edag e.
Proof. unfold end_ctx. by destruct (ctx e). Qed.

Lemma handle_frame e result err e' ok err' : handleDispatchResult (any := any) e result err = (e', ok, err') ->
  same_slots e e' /\ edag e' = edag e.
Proof.
  unfold handleDispatchResult, cancel_all. pose proof (end_ctx_frame (setCancelled e) Canceled) as [F1 F2].
  repeat case_match; intros [= <- <- <-]; try done.
Qed.

Lemma stepAttempt_frame e n g c e' g' call : stepAttempt of_int dispatching e n g c = Some (e', g', call) ->
  same_slots e e' /\ same_graph e e' /\ gnode g' = gnode g /\ gwave g' = gwave g /\ slot g' = slot g /\ counted g' = counted g.
Proof.
  unfold stepAttempt. destruct (gpc_ g) as [|pr a le|pr a p le|pr a|pr a p| | | | | |]; try done.
  - intros [= <- <- _]. done.
  - repeat case_match; intros [= <- <- _]; split_and!; try done. by apply update_node_graph.
  - repeat case_match; try done; intros [= <- <- _]; done.
  - intros [= <- <- _]. split_and!; try done. by apply update_node_graph.
  - destruct (if dispatching then _ else _) as [r er]. destruct (deferredDispatch er (g_now c)).
    + intros [= <- <- _]. done.
    + destruct (handleDispatchResult e r er) as [[e1 ok] de] eqn:E. apply handle_frame in E as [F1 F2].
      destruct ok; intros [= <- <- _]; split_and!; try apply F1; try done; unfold same_graph; by rewrite F2.
Qed.

Lemma check_frame (e : Executor any) x w err : same_slots e (cancelLayerOnBlockingFailure (record_first e w err) x) /\
  edag (cancelLayerOnBlockingFailure (record_first e w err) x) = edag e.
Proof. unfold cancelLayerOnBlockingFailure, record_first. destruct err; repeat case_match; done. Qed.

Lemma reset_frame (e : Executor any) layer : same_slots e (resetLayerForRetry e layer) /\ same_graph e (resetLayerForRetry e layer).
Proof.
  unfold resetLayerForRetry. revert e. induction layer as [|x layer IH]; intros e; [done|]. cbn [foldl].
  destruct (IH (resetNodeForRetry e x)) as [A B].
  assert (K : same_slots e (resetNodeForRetry e x) /\ same_graph e (resetNodeForRetry e x)).
  { unfold resetNodeForRetry. destruct (nodeResults e !! x) as [r|]; [|done]. destruct (_ && _); [done|].
    destruct (GetNode (edag e) x); [|done]. split; [by destruct (bool_decide _)|].
    destruct (bool_decide _); [|by apply update_node_graph].
    eapply same_graph_trans; [|by apply (update_node_graph (update_node e x (fun n => SetState n NodeStatePending)) x ResetRetryCount)].
    by apply update_node_graph. }
  destruct K. split; [by eapply same_slots_trans|by eapply same_graph_trans].
Qed.

(* ------------------------------------------------------------------ *)
(** ** Places and running nodes *)

(** The place the main goroutine holds for the node it is about to launch. *)
Definition main_slot (s : sys any) : nat :=
  match main s with MRun _ _ _ _ => match sem (exec s) with Some _ => 1 | None => 0 end | _ => 0 end.

(** A goroutine that attempts its node has a place, when they are limited; it
    gives it back, then stops being counted, then ends. *)
Definition attempting (g : go any) : bool :=
  match gpc_ g with GStart | GLoop _ _ _ | GBackoff _ _ _ _ | GDispatch _ _ | GCall _ _ _ => true | _ => false end.
Definition tidy (limited : bool) (g : go any) : Prop :=
  (attempting g = true -> slot g = limited) /\
  match gpc_ g with GUncount => slot g = false | GEnd => slot g = false /\ counted g = false | _ => True end.
Definition limited (e : Executor any) : bool := match sem e with Some _ => true | None => false end.

Record slots_ok (s : sys any) : Prop := {
  so_sem : match sem (exec s) with
    | Some k => k = (tally slot (gos s) + main_slot s)%nat /\ Z.of_nat k <= MaxConcurrency (epolicy (exec s)) /\ 0 < MaxConcurrency (epolicy (exec s))
    | None => MaxConcurrency (epolicy (exec s)) <= 0 /\ tally slot (gos s) = 0%nat
    end;
  so_running : nodesRunning (exec s) = Z.of_nat (tally counted (gos s));
  so_tidy : Forall (tidy (limited (exec s))) (gos s)
}.

(** Steps that touch neither. *)
Lemma slots_frame s s' : slots_ok s -> same_slots (exec s) (exec s') -> gos s' = gos s -> main_slot s' = main_slot s ->
  slots_ok s'.
Proof. intros [A B C] (E1 & E2 & E3) Eg Em. split; unfold limited in *; rewrite ?E1, ?E2, ?E3, ?Eg, ?Em; done. Qed.

Lemma slots_go s s' i g g' : slots_ok s -> gos s !! i = Some g -> gos s' = <[i := g']> (gos s) -> main s' = main s ->
  same_slots (exec s) (exec s') -> slot g' = slot g -> counted g' = counted g -> tidy (limited (exec s)) g' -> slots_ok s'.
Proof.
  intros [A B C] Eg Es Em (E1 & E2 & E3) Esl Eco T.
  pose proof (tally_insert slot _ _ _ g' Eg) as T1. pose proof (tally_insert counted _ _ _ g' Eg) as T2.
  rewrite Esl in T1. rewrite Eco in T2.
  split; unfold main_slot, limited in *; rewrite ?E1, ?E2, ?E3, ?Es, ?Em.
  - destruct (sem (exec s)) as [k|] eqn:Ek; unfold main_slot in A; rewrite ?Ek in A; [|lia].
    destruct A as [A1 A2]. split; [|done]. lia.
  - lia.
  - by apply Forall_insert.
Qed.

Lemma step_go_slots s i c s' : slots_ok s -> step_go of_int dispatching s i c = Some s' -> slots_ok s'.
Proof.
  intros S E. unfold step_go in E. apply bind_Some in E as (g & Eg & E).
  assert (T : tidy (limited (exec s)) g) by (destruct S as [_ _ C]; rewrite Forall_forall in C; by apply C, (list_elem_of_lookup_2 _ i)).
  assert (At : forall n e g' call, stepAttempt of_int dispatching (exec s) n g c = Some (e, g', call) ->
    slots_ok (mkSys e (main s) (<[i := g']> (gos s)) (sweeps s)
      (match call with Some pr => (gnode g, pr) :: calls s | None => calls s end) (abandoned s))).
  { intros n e g' call Ea. pose proof (stepAttempt_frame _ _ _ _ _ _ _ Ea) as (F1 & _ & F2 & F3 & F4 & F5).
    apply (slots_go s _ i g g'); try done. unfold stepAttempt in Ea. unfold tidy, attempting, with_pc in *.
    destruct (gpc_ g) as [|pr a le|pr a p le|pr a|pr a p| | | | | |]; try done; revert Ea;
      repeat case_match; intros Ea; try discriminate; injection Ea as <- <- _; simpl in *; (split; [intros _; by apply T|]); try done; by repeat case_match. }
  destruct S as [A B C] eqn:ES. clear ES.
  destruct (gpc_ g) eqn:Epc; try (apply bind_Some in E as (n & _ & E); apply bind_Some in E as ([[e g'] call] & Ea & E);
    injection E as <-; by apply (At n)); apply bind_Some in E as ([e g'] & Ea & E); injection E as <-;
    unfold stepFinish in Ea; rewrite Epc in Ea; try discriminate; injection Ea as <- <-.
  - by apply (slots_go s _ i g (with_pc g (GSet result err))).
  - by apply (slots_go s _ i g (with_pc g (GCheck err))).
  - apply (slots_go s _ i g (with_pc g GRelease)); try done. apply check_frame.
  - pose proof (tally_insert slot _ _ _ (mkGo (gnode g) (gwave g) false (counted g) GUncount) Eg) as T1.
    pose proof (tally_insert counted _ _ _ (mkGo (gnode g) (gwave g) false (counted g) GUncount) Eg) as T2.
    cbn [slot counted Nat.b2n] in T1, T2. split; unfold main_slot in *; cbn [exec main gos] in *.
    + destruct (slot g); cbn [releaseLayerSlot setSem sem epolicy Nat.b2n] in *.
      * destruct (sem (exec s)) as [k|]; cbn [fmap option_fmap option_map]; [|lia]. lia.
      * destruct (sem (exec s)) as [k|]; lia.
    + destruct (slot g); cbn [releaseLayerSlot setSem nodesRunning]; lia.
    + replace (limited _) with (limited (exec s)) by (destruct (slot g); [unfold limited; cbn; by destruct (sem (exec s))|done]).
      by apply Forall_insert.
  - destruct T as [_ T]. rewrite Epc in T.
    pose proof (tally_insert slot _ _ _ (mkGo (gnode g) (gwave g) (slot g) false GEnd) Eg) as T1.
    pose proof (tally_insert counted _ _ _ (mkGo (gnode g) (gwave g) (slot g) false GEnd) Eg) as T2.
    cbn [slot counted Nat.b2n] in T1, T2. split; unfold main_slot in *; cbn [exec main gos] in *.
    + destruct (counted g); cbn [setRunning sem epolicy] in *; destruct (sem (exec s)) as [k|]; lia.
    + destruct (counted g); cbn [setRunning nodesRunning Nat.b2n] in *; lia.
    + replace (limited _) with (limited (exec s)) by (by destruct (counted g)). by apply Forall_insert.
Qed.

(* ------------------------------------------------------------------ *)
(** ** The rules of the main goroutine *)

Definition goto (s : sys any) (e : Executor any) (pc : mpc any) : sys any :=
  mkSys e pc (gos s) (sweeps s) (calls s) (abandoned s).

(** The step function, one rule for each of its cases. *)
Inductive rule (s : sys any) (c : mchoice) : sys any -> Prop :=
| r_end idx : main s = MLayers idx -> (length (ExecutionOrder (edag (exec s))) <= idx)%nat \/ cancelled (exec s) = true ->
    rule s c (goto s (exec s) MBuild)
| r_begin idx : main s = MLayers idx -> (idx < length (ExecutionOrder (edag (exec s))))%nat -> cancelled (exec s) = false ->
    rule s c (goto s (fst (begin_layer (exec s) idx)) (MNode idx (length (waves (exec s))) (layer_at (exec s) idx)))
| r_stop idx w todo : main s = MNode idx w todo -> todo = [] \/ cancelled (exec s) = true -> rule s c (goto s (exec s) (MWait idx w))
| r_next idx w x todo : main s = MNode idx w (x :: todo) -> cancelled (exec s) = false ->
    rule s c (goto s (exec s) (MReady idx w x todo))
| r_skip idx w x todo : main s = MReady idx w x todo ->
    GetNode (edag (exec s)) x = None \/ (exists n, GetNode (edag (exec s)) x = Some n /\ IsTerminal (state n) = true) ->
    rule s c (goto s (exec s) (MNode idx w todo))
| r_ready idx w x todo n : main s = MReady idx w x todo -> GetNode (edag (exec s)) x = Some n ->
    IsTerminal (state n) = false -> runnable (exec s) n = true -> rule s c (goto s (exec s) (MAcquire idx w x todo))
| r_block idx w x todo n now : main s = MReady idx w x todo -> GetNode (edag (exec s)) x = Some n ->
    IsTerminal (state n) = false -> runnable (exec s) n = false ->
    rule s c (goto s (exec s) (MBlock idx w x (blockedResult x now) false todo))
| r_block1 idx w x r todo : main s = MBlock idx w x r false todo ->
    rule s c (goto s (write_result (exec s) x r) (MBlock idx w x r true todo))
| r_block2 idx w x r todo : main s = MBlock idx w x r true todo -> rule s c (goto s (write_node (exec s) x r) (MNode idx w todo))
| r_abandon idx w x todo : main s = MAcquire idx w x todo -> acquireLayerSlot (exec s) = AcquireErr ->
    rule s c (mkSys (exec s) (MSweep idx w true (nodeResults (exec s)) (layer_at (exec s) idx)) (gos s) (sweeps s) (calls s)
      (abandoned s || existsb (unfinished w) (gos s)))
| r_acquire idx w x todo e : main s = MAcquire idx w x todo -> acquireLayerSlot (exec s) = AcquireOk e ->
    rule s c (goto s e (MRun idx w x todo))
| r_run idx w x todo reject now : main s = MRun idx w x todo -> reject = m_reject c ->
    rule s c (mkSys (fst (launch scoped (exec s) w x reject now))
      (if scoped && counted (snd (launch scoped (exec s) w x reject now)) then MNode idx w todo else MJoin idx w (length (gos s)) todo)
      (gos s ++ [snd (launch scoped (exec s) w x reject now)]) (sweeps s) (calls s) (abandoned s))
| r_join idx w i todo g : main s = MJoin idx w i todo -> gos s !! i = Some g -> ended g = true ->
    rule s c (goto s (exec s) (MNode idx w todo))
| r_waited idx w : main s = MWait idx w -> existsb (unfinished w) (gos s) = false ->
    rule s c (goto s (exec s) (MSweep idx w (wave_failed (exec s) w) (nodeResults (exec s)) (layer_at (exec s) idx)))
| r_swept idx w f snap : main s = MSweep idx w f snap [] -> rule s c (goto s (exec s) (MAfter idx w f))
| r_sweep_skip idx w f snap x todo : main s = MSweep idx w f snap (x :: todo) -> rule s c (goto s (exec s) (MSweep idx w f snap todo))
| r_sweep_mark idx w f snap x todo n now : main s = MSweep idx w f snap (x :: todo) -> GetNode (edag (exec s)) x = Some n ->
    IsTerminal (state n) = false -> rule s c (goto s (exec s) (MMark idx w f snap x (cancelledResult x now) false todo))
| r_mark1 idx w f snap x r todo : main s = MMark idx w f snap x r false todo ->
    rule s c (goto s (write_result (exec s) x r) (MMark idx w f snap x r true todo))
| r_mark2 idx w f snap x r todo : main s = MMark idx w f snap x r true todo ->
    rule s c (goto s (write_node (exec s) x r) (MSweep idx w f snap todo))
| r_failfast idx w : main s = MAfter idx w true -> rule s c (goto s (exec s) (MLeave idx w layerOutcomeStop))
| r_defer idx w f now deadline : main s = MAfter idx w f -> nextBudgetRetry (exec s) now (layer_at (exec s) idx) = Some deadline ->
    rule s c (goto s (exec s) (MBudget idx w deadline))
| r_ask idx w f now : main s = MAfter idx w f -> nextBudgetRetry (exec s) now (layer_at (exec s) idx) = None ->
    rule s c (goto s (exec s) (MGate idx w))
| r_budget idx w deadline out : main s = MBudget idx w deadline -> out <> layerOutcomeContinue ->
    rule s c (goto s (exec s) (MLeave idx w out))
| r_gate idx w out : main s = MGate idx w -> out <> layerOutcomeRetry -> out = layerOutcomeContinue \/ m_gate c <> None -> rule s c (goto s (exec s) (MLeave idx w out))
| r_gate_retry idx w : main s = MGate idx w -> m_gate c <> None -> rule s c (goto s (fst (checkLayerRetryBudget (exec s) idx))
    (MLeave idx w (snd (checkLayerRetryBudget (exec s) idx))))
| r_leave idx w out : main s = MLeave idx w out -> rule s c (goto s (end_layer (exec s) w)
    match out with layerOutcomeContinue => MLayers (S idx) | layerOutcomeStop => MBuild | layerOutcomeRetry => MReset idx end)
| r_reset idx : main s = MReset idx -> rule s c (goto s (resetLayerForRetry (exec s) (layer_at (exec s) idx)) (MLayers idx))
| r_result now : main s = MBuild -> rule s c (goto s (fst (buildResult (exec s) now)) (MDone (snd (buildResult (exec s) now)))).

Lemma step_main_rule s c s' : step_main scoped gated waits s c = Some s' -> rule s c s'.
Proof.
  intros E. unfold step_main in E.
  destruct (main s) as [idx|idx w [|x todo]|idx w x todo|idx w x r [] todo|idx w x todo|idx w x todo|idx w i todo|idx w|
    idx w f snap [|x todo]|idx w f snap x r [] todo|idx w f|idx w deadline|idx w|idx w out|idx| |r] eqn:Em; cbv zeta in E;
    try (injection E as <-); eauto using rule.
  - destruct (_ || _) eqn:C.
    + injection E as <-. apply (r_end s c idx Em). apply orb_true_iff in C as [C|C]; [left; by apply Nat.leb_le|by right].
    + injection E as <-. apply orb_false_iff in C as [C1 C2]. apply (r_begin s c idx Em); [by apply Nat.leb_gt|done].
  - destruct (cancelled (exec s)) eqn:C; eauto using rule.
  - unfold stepReady. destruct (GetNode (edag (exec s)) x) as [n|] eqn:En; [|by apply (r_skip s c idx w x todo Em); left].
    destruct (IsTerminal (state n)) eqn:T; [by apply (r_skip s c idx w x todo Em); right; exists n|].
    destruct (runnable (exec s) n) eqn:R; [by apply (r_ready s c idx w x todo n)|by apply (r_block s c idx w x todo n)].
  - destruct (acquireLayerSlot (exec s)) eqn:A; try discriminate; injection E as <-; eauto using rule.
  - pose proof (r_run s c idx w x todo (m_reject c) (m_now c) Em eq_refl) as R. destruct (launch _ _ _ _ _ _) as [e g].
    by injection E as <-.
  - apply bind_Some in E as (g & Eg & E). destruct (ended g) eqn:Ee; [|discriminate]. injection E as <-. by apply (r_join s c idx w i todo g).
  - destruct (existsb _ _) eqn:Ex; [discriminate|]. injection E as <-. by apply r_waited.
  - destruct (snap !! x); [injection E as <-; eauto using rule|]. destruct (GetNode (edag (exec s)) x) as [n|] eqn:En; [|injection E as <-; eauto using rule].
    destruct (IsTerminal (state n)) eqn:T; injection E as <-; eauto using rule.
  - destruct (f && _) eqn:F; [injection E as <-; apply andb_true_iff in F as [-> _]; eauto using rule|].
    destruct (nextBudgetRetry _ _ _) eqn:N; injection E as <-; eauto using rule.
  - unfold waitForBudgetRetry in E. destruct (m_wait c); [injection E as <-; by eapply r_budget|].
    destruct (_ || _); [|discriminate]. injection E as <-; by eapply r_budget.
  - unfold evaluateGateResult in E. assert (Gc : (if gated then m_gate c else None) <> None -> m_gate c <> None) by (by destruct gated).
    destruct (if gated then _ else _) as [err|]; [|injection E as <-; eapply r_gate; [done|done|by left]].
    destruct (Is err ErrLayerRetry); injection E as <-; [by apply r_gate_retry, Gc|]. eapply r_gate; [done|done|right; by apply Gc].
  - exact (r_result s c (m_now c) Em).
  - discriminate.
Qed.

Lemma acquire_frame (e e' : Executor any) : acquireLayerSlot e = AcquireOk e' ->
  (sem e = None /\ e' = e) \/ exists k, sem e = Some k /\ Z.of_nat k < MaxConcurrency (epolicy e) /\ e' = setSem e (Some (S k)).
Proof.
  unfold acquireLayerSlot. destruct (sem e) as [k|]; [|intros [= <-]; by left]. destruct (parent_err _ _); [done|].
  destruct (Z.ltb_spec (Z.of_nat k) (MaxConcurrency (epolicy e))) as [L|]; [|done]. intros [= <-]. right. by exists k.
Qed.

Lemma rule_slots s c s' : slots_ok s -> rule s c s' -> slots_ok s'.
Proof.
  intros S R. destruct R as [| | | | | | | | | |idx w x todo e Em Ea|idx w x todo reject now Em| | | | | | | | | | | | | | |idx Em|].
  all: try (apply (slots_frame s); [done|done|done|]; unfold main_slot; cbn [goto main exec]; repeat case_match; congruence).
  - destruct S as [A B C]. unfold main_slot in A. rewrite Em in A.
    destruct (acquire_frame _ _ Ea) as [[Es ->]|(k & Es & L & ->)]; unfold limited in C; rewrite Es in A, C; split;
      unfold main_slot, limited; cbn [goto main exec gos setSem sem epolicy nodesRunning]; rewrite ?Es; try done; lia.
  - destruct S as [A B C]. unfold main_slot in A. rewrite Em in A.
    split; unfold main_slot; cbn [exec main gos]; rewrite ?tally_app, ?tally_one.
    + unfold launch. destruct scoped, reject; cbn [fst snd andb counted releaseLayerSlot setSem setRunning sem epolicy slot];
        destruct (sem (exec s)) as [k|]; cbn; lia.
    + unfold launch. destruct scoped, reject; cbn [fst snd releaseLayerSlot setSem setRunning nodesRunning counted Nat.b2n]; lia.
    + replace (limited _) with (limited (exec s)).
      2:{ unfold launch, limited. destruct scoped, reject; cbn; by destruct (sem (exec s)). }
      apply Forall_app. split; [done|]. constructor; [|constructor]. unfold launch, tidy, limited.
      destruct scoped, reject; cbn; (split; [|done]); try done; intros _; by destruct (sem (exec s)).
  - apply (slots_frame s); [done|apply reset_frame|done|]. unfold main_slot; cbn [goto main exec]. by rewrite Em.
Qed.

Lemma step_slots s l s' : slots_ok s -> step s l = Some s' -> slots_ok s'.
Proof.
  intros S E. destruct l as [c|i c|j now| | |err|x|x now]; cbn [DagExecutor.step] in E.
  - by eapply rule_slots, step_main_rule.
  - by eapply step_go_slots.
  - unfold step_sweep in E. apply bind_Some in E as (k & Ek & E).
    destruct k as [[|x todo]|x r [] todo]; cbv zeta in E; [done|..]; repeat case_match; injection E as <-;
      by apply (slots_frame s).
  - injection E as <-. unfold Cancel. destruct (negb _); [done|]. apply (slots_frame s); try done; cbn [fst exec gos].
    + by apply (end_ctx_frame (setCancelled (exec s)) Canceled).
    + unfold main_slot. cbn [fst exec main]. unfold cancel_all.
      destruct (end_ctx_frame (setCancelled (exec s)) Canceled) as [(_ & E2 & _) _]. by rewrite E2.
  - injection E as <-. unfold Close. destruct (closed (exec s)); [by destruct s|]. apply (slots_frame s); try done; cbn [fst exec gos with_exec].
    + by apply (end_ctx_frame (setClosed (exec s)) Canceled).
    + unfold main_slot. cbn [fst exec main with_exec].
      destruct (end_ctx_frame (setClosed (exec s)) Canceled) as [(_ & E2 & _) _]. by rewrite E2.
  - injection E as <-. destruct (end_ctx_frame (exec s) err) as [F _]. apply (slots_frame s); try done.
    unfold main_slot. cbn [exec main with_exec]. destruct F as (_ & E2 & _). by rewrite E2.
  - injection E as <-. unfold MarkNodeAcked. by destruct (GetNode _ x); apply (slots_frame s).
  - injection E as <-. unfold MarkNodeRunning. by destruct (GetNode _ x); apply (slots_frame s).
Qed.

(** An executor that has not run yet. *)
Definition fresh (e : Executor any) : Prop := nodesRunning e = 0 /\ sem e = None.

Lemma Execute_eq (e : Executor any) d parent now s : Execute e d parent now = Some (Ok s) ->
  exists d', validateExecution d = Some (d', None) /\
    s = mkSys (mkExecutor (epolicy e) (ResetNodeStates d') DAGStateRunning 0 now ∅ (nodesRunning e) false parent [] None
      (configureSemaphore e) (closed e) ∅ ∅) (MLayers 0) [] [] [] false.
Proof.
  unfold Execute. destruct (closed e) eqn:Ec; [done|]. destruct (validateExecution d) as [[d' [err|]]|]; cbn [mbind option_bind]; try done.
  unfold initializeExecution. case_bool_decide; [done|]. intros [= <-]. exists d'. by rewrite Ec.
Qed.

Lemma start_slots e d parent now s : fresh e -> Execute e d parent now = Some (Ok s) -> slots_ok s.
Proof.
  intros [F1 F2] E. apply Execute_eq in E as (d' & _ & ->). split; cbn [exec gos sem epolicy nodesRunning]; [|by rewrite F1|constructor].
  unfold configureSemaphore, main_slot. cbn [main]. rewrite F2. unfold tally. destruct (Z.ltb_spec 0 (MaxConcurrency (epolicy e))); cbn; lia.
Qed.

(** C30: however the goroutines interleave, whatever the dispatcher, the
    gate and the callers of [Cancel] do, at most [MaxConcurrency] goroutines
    hold a place, and those that attempt their node, from launch to the answer
    of the dispatcher, do; the count of running nodes is exact. *)
Theorem concurrency_bounded (e : Executor any) d parent now s ls s' :
  fresh e -> Execute e d parent now = Some (Ok s) -> run s ls = Some s' ->
  nodesRunning (exec s') = Z.of_nat (tally counted (gos s')) /\
  (0 < MaxConcurrency (epolicy (exec s')) ->
    Z.of_nat (tally attempting (gos s')) <= Z.of_nat (tally slot (gos s')) <= MaxConcurrency (epolicy (exec s'))).
Proof.
  intros F E R. assert (S : slots_ok s').
  { apply (run_ind slots_ok s ls); [intros; by eapply step_slots|by eapply start_slots|done]. }
  destruct S as [A B C]. split; [done|]. intros P. unfold limited in C. destruct (sem (exec s')) as [k|]; [|lia].
  split; [|lia]. apply inj_le, tally_le. intros g Hg At. rewrite Forall_forall in C. by apply C.
Qed.

(* ------------------------------------------------------------------ *)
(** ** The graph *)

(** No step changes the policy, the layers or what the nodes are. *)
Definition same_plan (e e' : Executor any) : Prop := epolicy e' = epolicy e /\ same_graph e e'.

Lemma same_plan_edag e e' : epolicy e' = epolicy e -> edag e' = edag e -> same_plan e e'.
Proof. intros E1 E2. split; [done|]. unfold same_graph. by rewrite E2. Qed.

Lemma rule_plan s c s' : rule s c s' -> same_plan (exec s) (exec s').
Proof.
  destruct 1 as [| | | | | | |idx w x r todo Em|idx w x r todo Em| |idx w x todo e Em Ea|idx w x todo reject now Em| | | | | |
    idx w f snap x r todo Em|idx w f snap x r todo Em| | | | | | |idx w out Em|idx Em|]; try done.
  - split; [done|]. by apply update_node_graph.
  - destruct (acquire_frame _ _ Ea) as [[Es ->]|(k & Es & L & ->)]; done.
  - unfold launch. by destruct scoped, reject.
  - split; [done|]. by apply update_node_graph.
  - split; [apply reset_frame|apply reset_frame].
Qed.

Lemma step_go_plan s i c s' : step_go of_int dispatching s i c = Some s' ->
  same_plan (exec s) (exec s') /\ main s' = main s /\ length (gos s') = length (gos s) /\
  exists g g', gos s !! i = Some g /\ gos s' = <[i := g']> (gos s) /\ gnode g' = gnode g.
Proof.
  intros E. unfold step_go in E. apply bind_Some in E as (g & Eg & E).
  assert (K : forall e g' cs, same_plan (exec s) e -> gnode g' = gnode g ->
    let t := mkSys e (main s) (<[i := g']> (gos s)) (sweeps s) cs (abandoned s) in
    same_plan (exec s) (exec t) /\ main t = main s /\ length (gos t) = length (gos s) /\
    exists g g', gos s !! i = Some g /\ gos t = <[i := g']> (gos s) /\ gnode g' = gnode g).
  { intros e g' cs P N t. split_and!; [done|done|by apply length_insert|]. by exists g, g'. }
  destruct (gpc_ g) eqn:Epc; try (apply bind_Some in E as (n & _ & E); apply bind_Some in E as ([[e g'] call] & Ea & E);
    injection E as <-; apply stepAttempt_frame in Ea as ((F0 & _) & F1 & F2 & _); by apply K);
    apply bind_Some in E as ([e g'] & Ea & E); injection E as <-; unfold stepFinish in Ea; rewrite Epc in Ea;
    try discriminate; injection Ea as <- <-; apply K; try done.
  - split; [done|]. by apply update_node_graph.
  - apply same_plan_edag; apply check_frame.
  - by destruct (slot g).
  - by destruct (counted g).
Qed.

Lemma step_plan s l s' : step s l = Some s' -> same_plan (exec s) (exec s').
Proof.
  intros E. destruct l as [c|i c|j now| | |err|x|x now]; cbn [DagExecutor.step] in E.
  - by eapply rule_plan, step_main_rule.
  - by eapply step_go_plan.
  - unfold step_sweep in E. apply bind_Some in E as (k & Ek & E).
    destruct k as [[|x todo]|x r [] todo]; cbv zeta in E; [done|..]; repeat case_match; injection E as <-; try done.
    split; [done|]. by apply update_node_graph.
  - injection E as <-. unfold Cancel. destruct (negb _); [done|]. cbn [fst exec].
    destruct (end_ctx_frame (setCancelled (exec s)) Canceled) as [(F & _) F']. by apply same_plan_edag.
  - injection E as <-. unfold Close. destruct (closed (exec s)); [done|]. cbn [fst exec with_exec].
    destruct (end_ctx_frame (setClosed (exec s)) Canceled) as [(F & _) F']. by apply same_plan_edag.
  - injection E as <-. destruct (end_ctx_frame (exec s) err) as [(F & _) F']. by apply same_plan_edag.
  - injection E as <-. unfold MarkNodeAcked. cbn [exec with_exec]. destruct (GetNode _ x); [|done]. split; [done|]. by apply update_node_graph.
  - injection E as <-. unfold MarkNodeRunning. cbn [exec with_exec]. destruct (GetNode _ x); [|done]. split; [done|]. by apply update_node_graph.
Qed.

Lemma same_plan_node (e e' : Executor any) x : same_plan e e' -> is_Some (nodes (edag e) !! x) -> is_Some (nodes (edag e') !! x).
Proof.
  intros (_ & _ & E) K. apply (f_equal (fun m => m !! x)) in E. rewrite !lookup_fmap in E.
  destruct (nodes (edag e') !! x); [done|]. destruct K as [n K]. by rewrite K in E.
Qed.

(* ------------------------------------------------------------------ *)
(** ** The executor is never stuck *)

Definition has_node (s : sys any) (x : string) : Prop := is_Some (nodes (edag (exec s)) !! x).

(** Goroutines and the main goroutine work on nodes of the graph. *)
Definition known (s : sys any) : Prop :=
  Forall (fun g => has_node s (gnode g)) (gos s) /\
  match main s with
  | MAcquire _ _ x _ | MRun _ _ x _ => has_node s x
  | MJoin _ _ i _ => (i < length (gos s))%nat
  | _ => True
  end.

Lemma step_known s l s' : known s -> step s l = Some s' -> known s'.
Proof.
  intros [Kg Km] E. pose proof (step_plan s l s' E) as P.
  assert (Kn : forall x, has_node s x -> has_node s' x) by (intros x; by apply same_plan_node).
  assert (Fg : forall l : list (go any), Forall (fun g => has_node s (gnode g)) l -> Forall (fun g => has_node s' (gnode g)) l).
  { intros k F. eapply Forall_impl; [exact F|]. intros g. apply Kn. }
  assert (Fm : forall t, main t = main s -> length (gos t) = length (gos s) -> gos t = gos s \/ True ->
    (forall x, has_node s x -> has_node t x) ->
    match main t with MAcquire _ _ x _ | MRun _ _ x _ => has_node t x | MJoin _ _ i _ => (i < length (gos t))%nat | _ => True end).
  { intros t Et Lt _ Kt. rewrite Et, Lt. destruct (main s); auto. }
  destruct l as [c|i c|j now| | |err|x|x now]; cbn [DagExecutor.step] in E.
  2:{ apply step_go_plan in E as (_ & Em & L & g & g' & Eg & Es & N). split; [|apply Fm; [done|done|by right|done]].
      rewrite Es. apply Forall_insert; [by apply Fg|]. rewrite N. apply Kn. rewrite Forall_forall in Kg.
      by apply Kg, (list_elem_of_lookup_2 _ i). }
  2:{ unfold step_sweep in E. apply bind_Some in E as (k & Ek & E).
      destruct k as [[|x todo]|x r [] todo]; cbv zeta in E; [done|..]; repeat case_match; injection E as <-;
        (split; [by apply Fg|apply Fm; [done|done|by left|done]]). }
  2:{ injection E as <-. unfold Cancel in *. destruct (negb _); [done|]. split; [by apply Fg|apply Fm; [done|done|by left|done]]. }
  2-5: injection E as <-; (split; [by apply Fg|apply Fm; [done|done|by left|done]]).
  apply step_main_rule in E. destruct E as [| | | | |idx w x todo n Em En| | | | |idx w x todo e Em Ea|idx w x todo reject now Em|
    | | | | | | | | | | | | |idx w out Em| |]; try (split; [by apply Fg|done]).
  - split; [by apply Fg|]. cbn. by exists n.
  - split; [by apply Fg|]. cbn [goto main]. apply Kn. by rewrite Em in Km.
  - rewrite Em in Km. split.
    + cbn [gos]. apply Forall_app. split; [by apply Fg|]. constructor; [|constructor]. apply Kn.
      unfold launch. by destruct scoped, reject.
    + cbn [main gos]. rewrite length_app. destruct (_ && _); [done|]. cbn. lia.
  - split; [by apply Fg|]. by destruct out.
Qed.

Lemma start_known (e : Executor any) d parent now s : Execute e d parent now = Some (Ok s) -> known s.
Proof. intros (d' & _ & ->)%Execute_eq. by split; [constructor|]. Qed.

(** The steps of the executor itself, with a dispatcher that does not defer. *)
Definition internal (l : label any) : bool := match l with LMain _ | LGo _ _ | LSweep _ _ => true | _ => false end.
Definition undeferred (l : label any) : bool :=
  match l with
  | LGo _ c => bool_decide ((e ← g_err c; deferred e) = None) && negb (bool_decide (option_map RState (g_reply c) = Some NodeStateWaitingBudget))
  | _ => true
  end.

Lemma go_progress s i g : gos s !! i = Some g -> has_node s (gnode g) -> ended g = false ->
  is_Some (step s (LGo i (mkG 0 0 true None None false))).
Proof.
  intros Eg [n En] Ne. cbn [DagExecutor.step]. unfold step_go. rewrite Eg. cbn [mbind option_bind]. unfold GetNode.
  unfold stepAttempt, stepFinish. destruct (gpc_ g) as [|pr a le|pr a p le|pr a|pr a p| | | | | |] eqn:Epc; rewrite ?En;
    cbn [mbind option_bind g_timer]; try (by eexists).
  - by repeat case_match; eexists.
  - destruct (if dispatching then _ else _) as [r er]. destruct (deferredDispatch er _); [by eexists|].
    destruct (handleDispatchResult _ _ _) as [[e1 []] de]; by eexists.
  - unfold ended in Ne. by rewrite Epc in Ne.
Qed.

Definition main_choice : mchoice := mkM 0 None None true.

(** What the main goroutine can wait for. *)
Lemma main_progress s : (forall r, main s <> MDone r) ->
  is_Some (step s (LMain main_choice)) \/
  (exists idx w x todo k, main s = MAcquire idx w x todo /\ sem (exec s) = Some k /\ MaxConcurrency (epolicy (exec s)) <= Z.of_nat k) \/
  (exists idx w i todo, main s = MJoin idx w i todo /\ forall g, gos s !! i = Some g -> ended g = false) \/
  (exists idx w, main s = MWait idx w /\ existsb (unfinished w) (gos s) = true).
Proof.
  intros Nd. cbn [DagExecutor.step]. unfold step_main.
  destruct (main s) as [idx|idx w [|x todo]|idx w x todo|idx w x r [] todo|idx w x todo|idx w x todo|idx w i todo|idx w|
    idx w f snap [|x todo]|idx w f snap x r [] todo|idx w f|idx w deadline|idx w|idx w out|idx| |r] eqn:Em; cbv zeta;
    try (by left; eexists); try (by left; repeat case_match; eexists).
  - destruct (acquireLayerSlot (exec s)) eqn:A; [by left; eexists|by left; eexists|]. right. left. unfold acquireLayerSlot in A.
    destruct (sem (exec s)) as [k|] eqn:Es; [|done]. destruct (parent_err _ _); [done|].
    destruct (Z.ltb_spec (Z.of_nat k) (MaxConcurrency (epolicy (exec s)))) as [|L]; [done|]. by exists idx, w, x, todo, k.
  - destruct (gos s !! i) as [g|] eqn:Eg.
    + destruct (ended g) eqn:Ee; cbn [mbind option_bind]; rewrite ?Ee; [by left; eexists|]. right. right. left. exists idx, w, i, todo.
      split; [done|]. intros g' E'. rewrite Eg in E'. by injection E' as <-.
    + right. right. left. exists idx, w, i, todo. split; [done|]. intros g' E'. by rewrite Eg in E'.
  - destruct (existsb _ _) eqn:Ex; [|by left; eexists]. right. right. right. by exists idx, w.
  - by destruct (Nd r).
Qed.

Lemma progress s : slots_ok s -> known s -> (forall r, main s <> MDone r) ->
  exists l, internal l = true /\ undeferred l = true /\ is_Some (step s l).
Proof.
  intros S [Kg Km] Nd. rewrite Forall_forall in Kg.
  assert (Go : forall i g, gos s !! i = Some g -> ended g = false ->
    exists l, internal l = true /\ undeferred l = true /\ is_Some (step s l)).
  { intros i g Eg Ne. eexists. split_and!; [| |apply (go_progress s i g Eg); [|done]]; [done|done|].
    by apply Kg, (list_elem_of_lookup_2 _ i). }
  destruct (main_progress s Nd) as [P|[(idx & w & x & todo & k & Em & Es & L)|[(idx & w & i & todo & Em & N)|(idx & w & Em & Ex)]]].
  - by exists (LMain main_choice).
  - destruct S as [A _ C]. unfold main_slot in A. rewrite Es, Em in A. destruct A as [A1 A2].
    assert (0 < tally slot (gos s))%nat as (i & g & Eg & Sg)%tally_pos by lia.
    apply (Go i g Eg). rewrite Forall_forall in C. specialize (C g ltac:(by eapply list_elem_of_lookup_2)). destruct C as [_ C].
    unfold ended. destruct (gpc_ g); try done. destruct C. congruence.
  - rewrite Em in Km. apply lookup_lt_is_Some in Km as [g Eg]. apply (Go i g Eg), (N g Eg).
  - apply existsb_exists in Ex as (g & [i Eg]%list_elem_of_In%list_elem_of_lookup & U). apply (Go i g Eg).
    unfold unfinished in U. apply andb_true_iff in U as [_ U]. by apply negb_true_iff.
Qed.
End Inv.
