(* ===== verification/DagExecTerm.v ===== *)
(** * The executor ends (core/dag/executor.go)

    Every step of the executor makes a measure of the work left smaller: the
    attempts left of each node, the nodes left of the layer, the layers left,
    each with the retries its gate still has.  Only a dispatcher that defers
    without end can keep it running. *)

From S2P Require Import Prelude DagModel DagValidator DagFailure.
From S2P Require Export DagExecInv.
Import DagModel DagValidator DagExecutor.

Section Term.
Context {any : Type} (of_int : Z -> any) (dispatching scoped gated waits : bool) `{RangeOrder} `{SliceSort}.

Abbreviation step := (step of_int dispatching scoped gated waits).
Abbreviation run := (run of_int dispatching scoped gated waits).

(* ------------------------------------------------------------------ *)
(** ** The work left *)

Section Cost.
Variable e : Executor any.

(** The attempts of a node from attempt [a] on. *)
Definition attempts_from (x : string) (a : Z) : nat :=
  match nodes (edag e) !! x with Some n => Z.to_nat (resolveNodeRetries e n + 1 - a) | None => 0 end.

Definition go_cost (g : go any) : nat :=
  let x := gnode g in
  match gpc_ g with
  | GStart => 7 + 4 * attempts_from x 0
  | GLoop _ a _ => 6 + 4 * attempts_from x a
  | GBackoff _ a _ _ => 9 + 4 * attempts_from x (a + 1)
  | GDispatch _ a => 8 + 4 * attempts_from x (a + 1)
  | GCall _ a _ => 7 + 4 * attempts_from x (a + 1)
  | GRecord _ _ => 5
  | GSet _ _ => 4
  | GCheck _ => 3
  | GRelease => 2
  | GUncount => 1
  | GEnd => 0
  end.

Definition node_cost (x : string) : nat := 14 + 4 * attempts_from x 0.
Definition nodes_cost (l : list string) : nat := sum_list_with node_cost l.

(** One run of a layer. *)
Definition layer_cost (idx : nat) : nat := 8 + nodes_cost (layer_at e idx) + 3 * length (layer_at e idx).

(** The retries the gate of a layer still has. *)
Definition tries (idx : nat) : nat := Z.to_nat (maxLayerRetries - default 0 (layerRetries e !! Z.of_nat idx)).

Definition from_layer (idx : nat) : nat :=
  sum_list_with (fun j => (tries j + 1) * layer_cost j)%nat (seq idx (length (ExecutionOrder (edag e)) - idx)).
(** What comes after this run of a layer. *)
Definition later (idx : nat) : nat := tries idx * layer_cost idx + from_layer (S idx).

Definition main_cost (m : mpc any) : nat :=
  match m with
  | MLayers idx => 2 + from_layer idx
  | MNode idx _ todo => 9 + nodes_cost todo + 3 * length (layer_at e idx) + later idx
  | MReady idx _ x todo => 8 + node_cost x + nodes_cost todo + 3 * length (layer_at e idx) + later idx
  | MBlock idx _ x _ false todo | MAcquire idx _ x todo =>
    7 + node_cost x + nodes_cost todo + 3 * length (layer_at e idx) + later idx
  | MBlock idx _ x _ true todo | MRun idx _ x todo =>
    6 + node_cost x + nodes_cost todo + 3 * length (layer_at e idx) + later idx
  | MJoin idx _ _ todo => 10 + nodes_cost todo + 3 * length (layer_at e idx) + later idx
  | MWait idx _ => 8 + 3 * length (layer_at e idx) + later idx
  | MSweep idx _ _ _ todo => 7 + 3 * length todo + later idx
  | MMark idx _ _ _ _ _ false todo => 9 + 3 * length todo + later idx
  | MMark idx _ _ _ _ _ true todo => 8 + 3 * length todo + later idx
  | MAfter idx _ _ => 6 + later idx
  | MBudget idx _ _ | MGate idx _ => 5 + later idx
  | MLeave idx _ layerOutcomeContinue => 3 + from_layer (S idx)
  | MLeave idx _ layerOutcomeStop => 2
  | MLeave idx _ layerOutcomeRetry => 4 + from_layer idx
  | MReset idx => 3 + from_layer idx
  | MBuild => 1
  | MDone _ => 0
  end.

Definition sweep_cost (c : cpc any) : nat :=
  match c with
  | CNext todo => 3 * length todo
  | CMark _ _ false todo => 2 + 3 * length todo
  | CMark _ _ true todo => 1 + 3 * length todo
  end.

Lemma from_layer_unfold idx : (from_layer idx <= layer_cost idx + later idx)%nat.
Proof.
  unfold from_layer, later, from_layer. destruct (length (ExecutionOrder (edag e)) - idx)%nat as [|k] eqn:K; [cbn; lia|].
  replace (length (ExecutionOrder (edag e)) - S idx)%nat with k by lia. cbn [seq sum_list_with]. lia.
Qed.
Lemma from_layer_here idx : (idx < length (ExecutionOrder (edag e)))%nat -> from_layer idx = (layer_cost idx + later idx)%nat.
Proof.
  intros L. unfold from_layer, later, from_layer. destruct (length (ExecutionOrder (edag e)) - idx)%nat as [|k] eqn:K; [lia|].
  replace (length (ExecutionOrder (edag e)) - S idx)%nat with k by lia. cbn [seq sum_list_with]. lia.
Qed.
End Cost.

Definition work (s : sys any) : nat :=
  main_cost (exec s) (main s) + sum_list_with (go_cost (exec s)) (gos s) + sum_list_with sweep_cost (sweeps s).

(* ------------------------------------------------------------------ *)
(** ** What the measure depends on *)

Lemma attempts_from_plan (e e' : Executor any) x a : same_plan e e' -> attempts_from e' x a = attempts_from e x a.
Proof.
  intros (P & _ & E). unfold attempts_from, resolveNodeRetries. rewrite P.
  apply (f_equal (fun m => m !! x)) in E. rewrite !lookup_fmap in E.
  destruct (nodes (edag e') !! x), (nodes (edag e) !! x); try done. cbn in E. injection E as ->. done.
Qed.

Lemma go_cost_plan (e e' : Executor any) g : same_plan e e' -> go_cost e' g = go_cost e g.
Proof. intros P. unfold go_cost. destruct (gpc_ g); by rewrite ?(attempts_from_plan e e'). Qed.

Lemma gos_cost_plan (e e' : Executor any) l : same_plan e e' -> sum_list_with (go_cost e') l = sum_list_with (go_cost e) l.
Proof. intros P. induction l as [|g l IH]; [done|]. cbn. by rewrite IH, (go_cost_plan e e'). Qed.

Lemma nodes_cost_plan (e e' : Executor any) l : same_plan e e' -> nodes_cost e' l = nodes_cost e l.
Proof.
  intros P. unfold nodes_cost. induction l as [|x l IH]; [done|]. cbn. rewrite IH. unfold node_cost.
  by rewrite (attempts_from_plan e e').
Qed.

Lemma layer_at_plan (e e' : Executor any) idx : same_plan e e' -> layer_at e' idx = layer_at e idx.
Proof. intros (_ & E & _). unfold layer_at, ExecutionOrder. by rewrite E. Qed.

Lemma layer_cost_plan (e e' : Executor any) idx : same_plan e e' -> layer_cost e' idx = layer_cost e idx.
Proof. intros P. unfold layer_cost. by rewrite (layer_at_plan e e'), (nodes_cost_plan e e'). Qed.

Lemma from_layer_plan (e e' : Executor any) idx : same_plan e e' ->
  (forall j, (idx <= j)%nat -> tries e' j = tries e j) -> from_layer e' idx = from_layer e idx.
Proof.
  intros P T. unfold from_layer. destruct P as (P0 & P1 & P2). unfold ExecutionOrder. rewrite P1.
  assert (K : forall l, (forall j, j ∈ l -> (idx <= j)%nat) ->
    sum_list_with (fun j => (tries e' j + 1) * layer_cost e' j)%nat l = sum_list_with (fun j => (tries e j + 1) * layer_cost e j)%nat l).
  { induction l as [|j l IH]; intros Ge; [done|]. cbn [sum_list_with]. rewrite IH by (intros i Hi; apply Ge; by right).
    rewrite T by (apply Ge; by left). by rewrite (layer_cost_plan e e'). }
  apply K. intros j [Hj _]%elem_of_seq. lia.
Qed.

Lemma later_plan (e e' : Executor any) idx : same_plan e e' -> layerRetries e' = layerRetries e -> later e' idx = later e idx.
Proof.
  intros P T. unfold later. rewrite (layer_cost_plan e e'), (from_layer_plan e e'); [|done|intros j _; unfold tries; by rewrite T|done].
  unfold tries. by rewrite T.
Qed.

Lemma main_cost_plan (e e' : Executor any) m : same_plan e e' -> layerRetries e' = layerRetries e -> main_cost e' m = main_cost e m.
Proof.
  intros P T. assert (F : forall i, from_layer e' i = from_layer e i) by (intros i; apply from_layer_plan; [done|]; intros j _; unfold tries; by rewrite T).
  unfold main_cost. destruct m as [| | |? ? ? ? []| | | | | |? ? ? ? ? ? []| | | |? ? []| | |]; unfold node_cost;
    rewrite ?F, ?(later_plan e e'), ?(nodes_cost_plan e e'), ?(layer_at_plan e e'), ?(attempts_from_plan e e'); done.
Qed.

Lemma sum_list_with_insert {A} (f : A -> nat) l i x y : l !! i = Some x ->
  (sum_list_with f (<[i := y]> l) + f x = sum_list_with f l + f y)%nat.
Proof.
  revert i. induction l as [|z l IH]; intros [|i] E; try done.
  - injection E as ->. change (<[0%nat := y]> (x :: l)) with (y :: l). cbn. lia.
  - specialize (IH i E). change (<[S i := y]> (z :: l)) with (z :: <[i := y]> l). cbn. lia.
Qed.

(* ------------------------------------------------------------------ *)
(** ** Every step has less left *)

Lemma end_ctx_retries (e : Executor any) err : layerRetries (end_ctx e err) = layerRetries e.
Proof. unfold end_ctx. by destruct (ctx e). Qed.

Lemma handle_retries (e : Executor any) r err e' ok de : handleDispatchResult e r err = (e', ok, de) -> layerRetries e' = layerRetries e.
Proof.
  unfold handleDispatchResult, cancel_all. pose proof (end_ctx_retries (setCancelled e) Canceled).
  repeat case_match; intros [= <- <- <-]; done.
Qed.

Lemma stepAttempt_work e n g c e' g' call : nodes (edag e) !! gnode g = Some n ->
  stepAttempt of_int dispatching e n g c = Some (e', g', call) ->
  layerRetries e' = layerRetries e /\ (go_cost e g' < go_cost e g)%nat.
Proof.
  intros En. unfold stepAttempt, go_cost, attempts_from.
  destruct (gpc_ g) as [|pr a le|pr a p le|pr a|pr a p| | | | | |] eqn:Epc; try done.
  - intros [= <- <- _]. cbn [gpc_ gnode with_pc]. rewrite En. split; [done|lia].
  - destruct (Z.ltb_spec (resolveNodeRetries e n) a) as [L|L].
    { intros [= <- <- _]. cbn [gpc_ gnode with_pc]. rewrite En. split; [done|lia]. }
    destruct (cancelled e), (a =? 0); intros [= <- <- _]; cbn [gpc_ gnode with_pc]; rewrite ?En; split; try done; lia.
  - destruct (g_timer c); [|destruct (parent_err e p); [|done]]; intros [= <- <- _]; cbn [gpc_ gnode with_pc]; rewrite ?En; split; try done; lia.
  - intros [= <- <- _]. cbn [gpc_ gnode with_pc]. rewrite En. split; [done|lia].
  - destruct (if dispatching then _ else _) as [r er]. destruct (deferredDispatch er (g_now c)).
    + intros [= <- <- _]. split; [done|]. destruct r; cbn [gpc_ gnode with_pc]; lia.
    + destruct (handleDispatchResult e r er) as [[e1 ok] de] eqn:E. apply handle_retries in E.
      destruct ok; intros [= <- <- _]; (split; [done|]); destruct r; cbn [gpc_ gnode with_pc]; rewrite ?En; lia.
Qed.

Lemma stepFinish_work e g e' g' : stepFinish (any := any) e g = Some (e', g') ->
  layerRetries e' = layerRetries e /\ (go_cost e g' < go_cost e g)%nat.
Proof.
  unfold stepFinish, go_cost. destruct (gpc_ g) eqn:Epc; try done; intros [= <- <-]; cbn [gpc_ gnode with_pc]; split; try lia; try done.
  - unfold cancelLayerOnBlockingFailure, record_first. destruct err; repeat case_match; done.
  - by destruct (slot g).
  - by destruct (counted g).
Qed.

Lemma step_go_work s i c s' : step_go of_int dispatching s i c = Some s' -> (work s' < work s)%nat.
Proof.
  intros E. pose proof (step_go_plan _ _ _ _ _ _ E) as (P & _). unfold step_go in E. apply bind_Some in E as (g & Eg & E).
  assert (K : forall e g' cs, same_plan (exec s) e -> layerRetries e = layerRetries (exec s) -> (go_cost (exec s) g' < go_cost (exec s) g)%nat ->
    (work (mkSys e (main s) (<[i := g']> (gos s)) (sweeps s) cs (abandoned s)) < work s)%nat).
  { intros e g' cs Pe Re L. unfold work. cbn [exec main gos sweeps]. rewrite (main_cost_plan (exec s) e), (gos_cost_plan (exec s) e) by done.
    pose proof (sum_list_with_insert (go_cost (exec s)) _ _ _ g' Eg). lia. }
  destruct (gpc_ g) eqn:Epc; try (apply bind_Some in E as (n & En & E); apply bind_Some in E as ([[e g'] call] & Ea & E);
    injection E as <-; apply stepAttempt_work in Ea as [Re L]; [by apply K|done]);
    apply bind_Some in E as ([e g'] & Ea & E); injection E as <-; apply stepFinish_work in Ea as [Re L]; by apply K.
Qed.

Lemma step_sweep_work s j now s' : step_sweep s j now = Some s' -> (work s' < work s)%nat.
Proof.
  intros E. unfold step_sweep in E. apply bind_Some in E as (k & Ek & E). cbv zeta in E.
  assert (K : forall e k', same_plan (exec s) e -> layerRetries e = layerRetries (exec s) -> (sweep_cost k' < sweep_cost k)%nat ->
    (work (mkSys e (main s) (gos s) (<[j := k']> (sweeps s)) (calls s) (abandoned s)) < work s)%nat).
  { intros e k' Pe Re L. unfold work. cbn [exec main gos sweeps]. rewrite (main_cost_plan (exec s) e), (gos_cost_plan (exec s) e) by done.
    pose proof (sum_list_with_insert sweep_cost _ _ _ k' Ek). lia. }
  destruct k as [[|x todo]|x r [] todo]; [done|..].
  - destruct (GetNode (edag (exec s)) x) as [n|]; injection E as <-; apply K; try done; [|cbn; lia].
    destruct (IsTerminal (state n)); cbn; lia.
  - injection E as <-. apply K; [|done|cbn; lia]. split; [done|]. by apply update_node_graph.
  - injection E as <-. apply K; [done|done|cbn; lia].
Qed.

Lemma tries_retry (e : Executor any) idx j : (idx < j)%nat -> tries (fst (checkLayerRetryBudget e idx)) j = tries e j.
Proof.
  intros L. unfold tries, checkLayerRetryBudget. cbn [fst setLayerRetries layerRetries]. by rewrite lookup_insert_ne by lia.
Qed.

Lemma gate_retry_work (e : Executor any) idx w :
  (main_cost (fst (checkLayerRetryBudget e idx)) (MLeave idx w (snd (checkLayerRetryBudget e idx))) < main_cost e (MGate idx w))%nat.
Proof.
  pose proof (from_layer_unfold (fst (checkLayerRetryBudget e idx)) idx) as U. unfold later in U.
  rewrite (from_layer_plan e _ (S idx)) in U by (try done; intros j Hj; apply tries_retry; lia).
  rewrite (layer_cost_plan e) in U by done.
  cbn [main_cost]. unfold later. destruct (checkLayerRetryBudget e idx) as [e' out] eqn:E. cbn [fst snd] in *.
  assert (T : out = layerOutcomeStop \/ out = layerOutcomeRetry /\ tries e idx = S (tries e' idx)).
  { unfold checkLayerRetryBudget in E. injection E as <- <-. unfold tries, maxLayerRetries.
    destruct (Z.ltb_spec 3 (default 0 (layerRetries e !! Z.of_nat idx) + 1)) as [|L]; [by left|right; split; [done|]].
    cbn [setLayerRetries layerRetries]. rewrite lookup_insert_eq. simpl. lia. }
  destruct T as [->|[-> T]]; rewrite ?T; lia.
Qed.

Lemma reset_retries (e : Executor any) layer : layerRetries (resetLayerForRetry e layer) = layerRetries e.
Proof.
  unfold resetLayerForRetry. revert e. induction layer as [|x layer IH]; intros e; [done|]. cbn [foldl]. rewrite IH.
  unfold resetNodeForRetry. repeat case_match; done.
Qed.

(** A step of the main goroutine, unless it retries a layer for the budget. *)
Lemma rule_work s c s' : rule scoped s c s' -> (forall idx w deadline, main s <> MBudget idx w deadline) -> (work s' < work s)%nat.
Proof.
  intros R Nb. pose proof (rule_plan _ _ _ _ R) as P.
  assert (K : gos s' = gos s -> sweeps s' = sweeps s -> (main_cost (exec s') (main s') < main_cost (exec s) (main s))%nat ->
    (work s' < work s)%nat).
  { intros Eg Es L. unfold work. rewrite Eg, Es, (gos_cost_plan (exec s) (exec s')) by done. lia. }
  assert (M : forall m, layerRetries (exec s') = layerRetries (exec s) -> main_cost (exec s') m = main_cost (exec s) m).
  { intros m E. by apply main_cost_plan. }
  destruct R as [idx Em Hl|idx Em Hl Hc|idx w todo Em Ht|idx w x todo Em Hc|idx w x todo Em Hn|idx w x todo n Em En Et Er|
    idx w x todo n now Em En Et Er|idx w x r todo Em|idx w x r todo Em|idx w x todo Em Ea|idx w x todo e Em Ea|
    idx w x todo reject now Em|idx w i todo g Em Eg Ee|idx w Em Ex|idx w f snap Em|idx w f snap x todo Em|idx w f snap x todo n now Em En Et|
    idx w f snap x r todo Em|idx w f snap x r todo Em|idx w Em|idx w f now deadline Em En|idx w f now Em En|idx w deadline out Em Ho|
    idx w out Em Ho|idx w Em|idx w out Em|idx Em|now Em]; cbn [goto exec main gos sweeps] in *.
  all: try (apply K; [done|done|]; cbn [goto exec main]; rewrite ?M by done; rewrite Em; cbn [main_cost nodes_cost sum_list_with length];
    unfold nodes_cost, node_cost; cbn [sum_list_with]; lia).
  - apply K; [done|done|]. cbn [goto exec main]. rewrite M by done. rewrite Em. cbn [main_cost].
    rewrite (from_layer_here (exec s)) by done. unfold layer_cost. lia.
  - assert (Er : layerRetries e = layerRetries (exec s)) by (by destruct (acquire_frame _ _ Ea) as [[_ ->]|(k & _ & _ & ->)]).
    apply K; [done|done|]. cbn [goto exec main]. rewrite M by done. rewrite Em. cbn [main_cost]. unfold node_cost. lia.
  - set (e := fst _) in *. set (g := snd _).
    assert (Eg : e = fst (launch scoped (exec s) w x reject now) /\ g = snd (launch scoped (exec s) w x reject now)) by done.
    assert (Er : layerRetries e = layerRetries (exec s)) by (subst e; unfold launch; by destruct scoped, reject).
    unfold work. cbn [exec main gos sweeps]. rewrite M by done. rewrite (gos_cost_plan (exec s) e) by done. rewrite Em, sum_list_with_app.
    cbn [sum_list_with]. assert (Gc : (go_cost (exec s) g <= 7 + 4 * attempts_from (exec s) x 0)%nat).
    { subst g. unfold launch, go_cost. destruct scoped, reject; cbn [snd gpc_ gnode]; lia. }
    destruct (_ && _); cbn [main_cost]; unfold node_cost; lia.
  - by destruct (Nb _ _ _ Em).
  - apply K; [done|done|]. cbn [goto exec main]. rewrite Em. destruct out; [| |done]; cbn [main_cost]; unfold later; lia.
  - apply K; [done|done|]. cbn [goto exec main]. rewrite Em. apply gate_retry_work.
  - apply K; [done|done|]. cbn [goto exec main]. rewrite M by done. rewrite Em. destruct out; cbn [main_cost]; lia.
  - apply K; [done|done|]. cbn [goto exec main]. rewrite M by apply reset_retries. rewrite Em. cbn [main_cost]. lia.
Qed.

(* ------------------------------------------------------------------ *)
(** ** Without deferrals *)

(** A result that does not wait for the budget. *)
Definition settled (r : NodeResult any) : Prop := RState r <> NodeStateWaitingBudget.

#[local] Hint Extern 0 (settled _) => discriminate : core.

Record no_deferral (s : sys any) : Prop := {
  nd_results : map_Forall (fun _ => settled) (nodeResults (exec s));
  nd_gos : Forall (fun g => match gpc_ g with GRecord r _ | GSet r _ => settled r | _ => True end) (gos s);
  nd_main : match main s with
    | MBlock _ _ _ r _ _ | MMark _ _ _ _ _ r _ _ => settled r
    | MBudget _ _ _ => False
    | _ => True
    end;
  nd_sweeps : Forall (fun c => match c with CMark _ r _ _ => settled r | _ => True end) (sweeps s)
}.

Lemma nextBudgetRetry_None (e : Executor any) now layer : map_Forall (fun _ => settled) (nodeResults e) ->
  nextBudgetRetry e now layer = None.
Proof.
  intros F. unfold nextBudgetRetry. induction layer as [|x layer IH]; [done|]. cbn [foldl].
  assert (E : earlierRetry e now None x = None).
  { unfold earlierRetry. destruct (nodeResults e !! x) as [r|] eqn:Er; [|done].
    rewrite bool_decide_eq_false_2; [done|]. by apply (F x). }
  by rewrite E.
Qed.

Lemma reset_results (e : Executor any) layer (P : string -> NodeResult any -> Prop) :
  map_Forall P (nodeResults e) -> map_Forall P (nodeResults (resetLayerForRetry e layer)).
Proof.
  unfold resetLayerForRetry. revert e. induction layer as [|x layer IH]; intros e F; [done|]. cbn [foldl]. apply IH.
  unfold resetNodeForRetry. destruct (nodeResults e !! x) as [r|] eqn:Er; [|done]. destruct (_ && _); [done|].
  destruct (GetNode (edag e) x); [|done]. cbn [setBudgetRetry setResults nodeResults].
  assert (E : forall b : bool, nodeResults (if b then update_node (update_node e x (fun n => SetState n NodeStatePending)) x ResetRetryCount
    else update_node e x (fun n => SetState n NodeStatePending)) = nodeResults e) by by intros [].
  rewrite E. by apply map_Forall_delete.
Qed.

Lemma rule_no_deferral s c s' : no_deferral s -> rule scoped s c s' -> no_deferral s'.
Proof.
  intros [A B C D] R. destruct R as [| | | | | |idx w x todo n now Em En Et Er|idx w x r todo Em| | |
    idx w x todo e Em Ea|idx w x todo reject now Em| | | | |idx w f snap x todo n now Em En Et|idx w f snap x r todo Em| | |
    idx w f now deadline Em En| | | | |idx w out Em|idx Em|].
  all: try (split; [exact A|exact B|exact I|exact D]).
  all: try (rewrite Em in C; split; [by apply map_Forall_insert_2|exact B|done|exact D]).
  all: try (rewrite Em in C; split; [exact A|exact B|exact C|exact D]).
  all: try (split; [exact A|exact B|done|exact D]).
  - destruct (acquire_frame _ _ Ea) as [[_ ->]|(k & _ & _ & ->)]; by split.
  - split; cbn [exec main gos sweeps]; [unfold launch; by destruct scoped, reject| |by destruct (_ && _)|done].
    apply Forall_app. split; [done|]. constructor; [|constructor]. unfold launch. by destruct scoped, reject.
  - rewrite nextBudgetRetry_None in En; done.
  - split; [exact A|exact B|by destruct out|exact D].
  - split; [by apply reset_results|exact B|exact I|exact D].
Qed.

Lemma end_ctx_results (e : Executor any) err : nodeResults (end_ctx e err) = nodeResults e.
Proof. unfold end_ctx. by destruct (ctx e). Qed.

Lemma handle_results (e : Executor any) r err e' ok de : handleDispatchResult e r err = (e', ok, de) -> nodeResults e' = nodeResults e.
Proof.
  unfold handleDispatchResult, cancel_all. pose proof (end_ctx_results (setCancelled e) Canceled).
  repeat case_match; intros [= <- <- <-]; done.
Qed.

Lemma stepAttempt_results e n g c e' g' call : stepAttempt of_int dispatching e n g c = Some (e', g', call) ->
  nodeResults e' = nodeResults e.
Proof.
  unfold stepAttempt. destruct (gpc_ g); try done.
  - by intros [= <- <- _].
  - repeat case_match; by intros [= <- <- _].
  - repeat case_match; try done; by intros [= <- <- _].
  - by intros [= <- <- _].
  - destruct (if dispatching then _ else _) as [r er]. destruct (deferredDispatch er (g_now c)); [by intros [= <- <- _]|].
    destruct (handleDispatchResult e r er) as [[e1 ok] de] eqn:E. apply handle_results in E.
    destruct ok; by intros [= <- <- _].
Qed.

(** An answer that is not a deferral does not leave a deferred result. *)
Lemma stepAttempt_settled e n g i c e' g' call : undeferred (LGo i c) = true ->
  stepAttempt of_int dispatching e n g c = Some (e', g', call) ->
  match gpc_ g' with GRecord r _ | GSet r _ => settled r | _ => True end.
Proof.
  intros [U1%bool_decide_eq_true U2%negb_true_iff%bool_decide_eq_false]%andb_true_iff. unfold stepAttempt.
  destruct (gpc_ g); try done.
  - by intros [= <- <- _].
  - destruct (resolveNodeRetries e n <? attempt), (cancelled e), (attempt =? 0); intros [= <- <- _]; cbn [gpc_ with_pc]; done.
  - destruct (g_timer c); [|destruct (parent_err e parent); [|done]]; intros [= <- <- _]; cbn [gpc_ with_pc]; done.
  - by intros [= <- <- _].
  - assert (K : exists r er, (if dispatching then dispatched of_int (gnode g) n (g_now c) (node_ctx_err e n parent (g_expired c)) (g_reply c) (g_err c)
      else (Some (failedDispatchResult (gnode g) (sentinel ErrNodeNotFound) 0 (g_now c)), Some (sentinel ErrNodeNotFound))) = (r, er) /\
      (er0 ← er; deferred er0) = None /\ match r with Some r => settled r | None => True end).
    { destruct dispatching; [|do 2 eexists; split; [done|by split]]. unfold dispatched.
      assert (S : match g_reply c with Some r => settled r | None => True end).
      { destruct (g_reply c); [|done]. unfold settled. cbn in U2. congruence. }
      destruct (g_err c) as [er|] eqn:Ee; [|do 2 eexists; split; [done|by split]]. cbn in U1. rewrite U1.
      destruct (_ || _); do 2 eexists; (split; [done|by split]). }
    destruct K as (r & er & -> & Ed & S). unfold deferredDispatch. rewrite Ed. cbn [mbind option_bind].
    destruct (handleDispatchResult e r er) as [[e1 ok] de]. destruct ok; intros [= <- <- _]; [by destruct r|done].
Qed.

Lemma step_no_deferral s l s' : no_deferral s -> undeferred l = true -> step s l = Some s' -> no_deferral s'.
Proof.
  intros N U E. destruct l as [c|i c|j now| | |err|x|x now]; cbn [DagExecutor.step] in E.
  - by eapply rule_no_deferral, step_main_rule.
  - destruct N as [A B C D]. unfold step_go in E. apply bind_Some in E as (g & Eg & E).
    destruct (gpc_ g) eqn:Epc; try (apply bind_Some in E as (n & En & E); apply bind_Some in E as ([[e g'] call] & Ea & E);
      injection E as <-; pose proof (stepAttempt_results _ _ _ _ _ _ _ Ea) as Er; pose proof (stepAttempt_settled _ _ _ _ _ _ _ _ U Ea);
      split; cbn [exec main gos sweeps]; [by rewrite Er|by apply Forall_insert|done|done]);
      apply bind_Some in E as ([e g'] & Ea & E); injection E as <-; unfold stepFinish in Ea; rewrite Epc in Ea; try discriminate;
      injection Ea as <- <-; assert (Sg : match gpc_ g with GRecord r _ | GSet r _ => settled r | _ => True end)
        by (rewrite Forall_forall in B; by apply B, (list_elem_of_lookup_2 _ i)); rewrite Epc in Sg;
      split; cbn [exec main gos sweeps]; try done; try by apply Forall_insert.
    + by apply map_Forall_insert_2.
    + unfold cancelLayerOnBlockingFailure, record_first. destruct err; repeat case_match; done.
    + by destruct (slot g).
    + by destruct (counted g).
  - destruct N as [A B C D]. unfold step_sweep in E. apply bind_Some in E as (k & Ek & E). cbv zeta in E.
    assert (Sk : match k with CMark _ r _ _ => settled r | _ => True end)
      by (rewrite Forall_forall in D; by apply D, (list_elem_of_lookup_2 _ j)).
    destruct k as [[|x todo]|x r [] todo]; [done|..].
    + destruct (GetNode (edag (exec s)) x) as [n|]; [destruct (IsTerminal (state n))|]; injection E as <-; split; try done;
        by apply Forall_insert.
    + injection E as <-. split; try done. by apply Forall_insert.
    + injection E as <-. split; try done; [by apply map_Forall_insert_2|by apply Forall_insert].
  - destruct N as [A B C D]. injection E as <-. unfold Cancel. destruct (negb _); [by split|]. split; cbn [fst exec main gos sweeps]; try done.
    + unfold cancel_all. by rewrite end_ctx_results.
    + apply Forall_app. split; [done|]. by repeat constructor.
  - destruct N as [A B C D]. injection E as <-. unfold Close. destruct (closed (exec s)); [by split|]. split; try done.
    cbn [fst exec with_exec]. by rewrite end_ctx_results.
  - destruct N as [A B C D]. injection E as <-. split; try done. cbn [exec with_exec]. by rewrite end_ctx_results.
  - destruct N as [A B C D]. injection E as <-. unfold MarkNodeAcked. by destruct (GetNode _ x); split.
  - destruct N as [A B C D]. injection E as <-. unfold MarkNodeRunning. by destruct (GetNode _ x); split.
Qed.

(** The executor has ended, or one of its goroutines can move, and wherever
    the next moves of its goroutines lead, it ends. *)
Inductive finishes (s : sys any) : Prop :=
| finishes_done r : main s = MDone r -> finishes s
| finishes_step : (exists l, internal l = true /\ undeferred l = true /\ is_Some (step s l)) ->
    (forall l s', internal l = true -> undeferred l = true -> step s l = Some s' -> finishes s') -> finishes s.

Lemma finishes_work n s : (work s <= n)%nat -> slots_ok s -> known s -> no_deferral s -> finishes s.
Proof.
  revert s. induction n as [n IH] using lt_wf_ind. intros s L S K N.
  destruct (main s) eqn:Em; try (eapply finishes_step; [by eapply progress; [..|rewrite Em]|]).
  17: by eapply finishes_done.
  all: intros l s' Il Ul E; assert (Lt : (work s' < work s)%nat) by (destruct l; try discriminate;
      [eapply rule_work; [by eapply step_main_rule|]; intros ? ? ? Eb; pose proof (nd_main s N) as C; by rewrite Eb in C
      |by eapply step_go_work|by eapply step_sweep_work]);
    apply (IH (work s')); [lia|done|by eapply step_slots|by eapply step_known|by eapply step_no_deferral].
Qed.

(** What holds in every run without deferrals. *)
Lemma undeferred_run (e : Executor any) d parent now s ls s' :
  fresh e -> Execute e d parent now = Some (Ok s) -> Forall (fun l => undeferred l = true) ls -> run s ls = Some s' ->
  slots_ok s' /\ known s' /\ no_deferral s'.
Proof.
  intros F E U R. rewrite Forall_forall in U.
  apply (run_ind of_int dispatching scoped gated waits (fun s => slots_ok s /\ known s /\ no_deferral s) s ls); [| |done].
  - intros t l t' (S & K & N) Hl Et. split_and!; [by eapply step_slots|by eapply step_known|].
    eapply step_no_deferral; [done|by apply U|done].
  - split_and!; [by eapply start_slots|by eapply start_known|]. apply Execute_eq in E as (d' & _ & ->).
    by split; [apply map_Forall_empty|constructor|..].
Qed.

(** C28: whatever happened before, calls of [Cancel] and [Close], a context
    that ended, refused launches, retries of the gate, [Execute] returns: its
    goroutines are never stuck, and whichever moves next, it ends, as long as
    the dispatcher does not defer a node for the budget. *)
Theorem execute_finishes (e : Executor any) d parent now s ls s' :
  fresh e -> Execute e d parent now = Some (Ok s) -> Forall (fun l => undeferred l = true) ls -> run s ls = Some s' ->
  finishes s'.
Proof.
  intros F E U R. destruct (undeferred_run e d parent now s ls s' F E U R) as (S & K & N).
  by apply (finishes_work (work s')).
Qed.
End Term.
