(* ===== verification/DagExecOrder.v ===== *)
(** * Nodes run after their dependencies (core/dag/executor.go)

    As long as nobody calls [Cancel] or changes the state of a node from
    outside, and no layer was left before its goroutines were finished, the
    dispatcher is called for a node only with the results of all its
    dependencies, and all of them succeeded. *)

From S2P Require Import Prelude DagModel DagValidator KahnSort DagLayers DagCorrect.
From S2P Require Export DagExecInv.
Import DagModel DagValidator DagExecutor.

Section Order.
Context {any : Type} (of_int : Z -> any) (dispatching scoped gated waits : bool) `{RangeOrder} `{SliceSort}.

Abbreviation step := (step of_int dispatching scoped gated waits).
Abbreviation run := (run of_int dispatching scoped gated waits).

(** What validation leaves: every node in one layer, after its dependencies. *)
Record planned (d : DAG any) : Prop := {
  pl_placed : forall x, is_Some (nodes d !! x) <-> exists i, in_layer (executionOrder d) i x;
  pl_unique : forall i j x, in_layer (executionOrder d) i x -> in_layer (executionOrder d) j x -> i = j;
  pl_nodup : forall i layer, executionOrder d !! i = Some layer -> NoDup layer;
  pl_earlier : forall i x p, in_layer (executionOrder d) i x -> depends (nodes d) x p ->
    exists j, (j < i)%nat /\ in_layer (executionOrder d) j p
}.

Section Views.
Variable e : Executor any.

Definition depends_on (x p : string) : Prop := depends (nodes (edag e)) x p.
Definition layered (idx : nat) (x : string) : Prop := in_layer (executionOrder (edag e)) idx x.
Definition succeeded (x : string) : Prop := state <$> nodes (edag e) !! x = Some NodeStateSucceeded.
Definition ready (x : string) : Prop := forall p, depends_on x p -> succeeded p.
Definition parents_ok (x : string) (pr : gmap string (NodeResult any)) : Prop :=
  forall p, depends_on x p -> exists r, pr !! p = Some r /\ RState r = NodeStateSucceeded.

(** A node that succeeded has a result that says so. *)
Definition sound_results : Prop :=
  forall x, succeeded x -> exists r, nodeResults e !! x = Some r /\ RState r = NodeStateSucceeded.

(** What a goroutine may rely on. *)
Definition good (g : go any) : Prop :=
  let x := gnode g in
  match gpc_ g with
  | GStart => ~ succeeded x /\ ready x
  | GLoop pr _ _ | GBackoff pr _ _ _ | GDispatch pr _ | GCall pr _ _ => ~ succeeded x /\ parents_ok x pr
  | GRecord r _ => ~ succeeded x
  | GSet r _ => ~ succeeded x /\ nodeResults e !! x = Some r
  | _ => True
  end.

(** ... and the main goroutine. *)
Definition main_good (m : mpc any) : Prop :=
  match m with
  | MAcquire _ _ x _ | MRun _ _ x _ => ~ succeeded x /\ ready x
  | MBlock _ _ x r false _ | MMark _ _ _ _ x r false _ => ~ succeeded x
  | MBlock _ _ x r true _ | MMark _ _ _ _ x r true _ => ~ succeeded x /\ nodeResults e !! x = Some r
  | _ => True
  end.
End Views.

(** Only node [y] and its result changed. *)
Definition touches (y : string) (e e' : Executor any) : Prop :=
  same_graph e e' /\ forall x, x <> y -> nodes (edag e') !! x = nodes (edag e) !! x /\ nodeResults e' !! x = nodeResults e !! x.

Lemma touches_none y (e e' : Executor any) : edag e' = edag e -> nodeResults e' = nodeResults e -> touches y e e'.
Proof. intros E1 E2. split; [unfold same_graph; by rewrite E1|]. intros x _. by rewrite E1, E2. Qed.

Lemma touches_node y (e : Executor any) f : (forall n, config (f n) = config n) -> touches y e (update_node e y f).
Proof.
  intros K. split; [by apply update_node_graph|]. intros x N. split; [|done].
  cbn [update_node setDag edag onNodes nodes]. by rewrite lookup_alter_ne.
Qed.

Lemma touches_result y (e : Executor any) r : touches y e (write_result e y r).
Proof. split; [done|]. intros x N. split; [done|]. cbn [write_result setResults nodeResults]. by rewrite lookup_insert_ne. Qed.

Lemma graph_depends (e e' : Executor any) x p : same_graph e e' -> depends_on e' x p <-> depends_on e x p.
Proof.
  intros [_ E]. apply (f_equal (fun m => m !! x)) in E. rewrite !lookup_fmap in E. unfold depends_on, depends, dependencies.
  destruct (nodes (edag e') !! x) as [n'|], (nodes (edag e) !! x) as [n|]; try done.
  cbn in E. injection E as E. split; intros (m & [= <-] & Hp); eexists; (split; [done|]); congruence.
Qed.

Lemma graph_layered (e e' : Executor any) i x : same_graph e e' -> layered e' i x <-> layered e i x.
Proof. intros [E _]. unfold layered. by rewrite E. Qed.

Lemma graph_planned (e e' : Executor any) : same_graph e e' -> planned (edag e) -> planned (edag e').
Proof.
  intros G [Z A B C]. pose proof G as [E Ec]. split; rewrite ?E; try done.
  - intros x. rewrite <- Z. apply (f_equal (fun m => m !! x)) in Ec. rewrite !lookup_fmap in Ec.
    destruct (nodes (edag e') !! x), (nodes (edag e) !! x); try done; by split; intros [].
  - intros i x p Hx Hp. apply (C i x p Hx). by apply (graph_depends e e').
Qed.

Lemma parents_frame (e e' : Executor any) x pr : same_graph e e' -> parents_ok e x pr -> parents_ok e' x pr.
Proof. intros G P p Hp. apply P. by apply (graph_depends e e'). Qed.

Lemma succeeded_frame y (e e' : Executor any) x : touches y e e' -> x <> y -> succeeded e' x <-> succeeded e x.
Proof. intros [_ T] N. unfold succeeded. by destruct (T x N) as [-> _]. Qed.

Lemma ready_frame y (e e' : Executor any) x : touches y e e' -> ~ depends_on e x y -> ready e x -> ready e' x.
Proof.
  intros T N R p Hp. apply (graph_depends e e') in Hp; [|apply T]. apply (succeeded_frame y e e'); [done| |by apply R].
  intros ->. done.
Qed.

Lemma good_frame y (e e' : Executor any) g : touches y e e' -> gnode g <> y -> ~ depends_on e (gnode g) y -> good e g -> good e' g.
Proof.
  intros T N D G. unfold good in *. pose proof (succeeded_frame y e e' (gnode g) T N) as S. destruct (T) as [Sg T'].
  destruct (T' _ N) as [_ Er]. destruct (gpc_ g); rewrite ?S, ?Er; try done.
  - split; [apply G|]. apply (ready_frame y e); [done|done|apply G].
  - split; [apply G|]. apply (parents_frame e); [done|apply G].
  - split; [apply G|]. apply (parents_frame e); [done|apply G].
  - split; [apply G|]. apply (parents_frame e); [done|apply G].
  - split; [apply G|]. apply (parents_frame e); [done|apply G].
Qed.

(** The node the main goroutine is at. *)
Definition main_node (m : mpc any) : option string :=
  match m with
  | MAcquire _ _ x _ | MRun _ _ x _ | MBlock _ _ x _ _ _ | MMark _ _ _ _ x _ _ _ => Some x
  | _ => None
  end.

Lemma main_good_frame y (e e' : Executor any) m : touches y e e' ->
  (forall x, main_node m = Some x -> x <> y /\ ~ depends_on e x y) -> main_good e m -> main_good e' m.
Proof.
  intros T N G. destruct m as [| | |idx w x r [] todo|idx w x todo|idx w x todo| | | |idx w f snap x r [] todo| | | | | | |]; try done;
    destruct (N x eq_refl) as [Nx Nd]; pose proof (succeeded_frame y e e' x T Nx) as S; destruct (T) as [_ T'];
    destruct (T' _ Nx) as [_ Er]; unfold main_good in *; rewrite ?S, ?Er; try done;
    (split; [apply G|]; apply (ready_frame y e); [done|done|apply G]).
Qed.

Lemma sound_frame y (e e' : Executor any) : touches y e e' -> sound_results e ->
  (succeeded e' y -> exists r, nodeResults e' !! y = Some r /\ RState r = NodeStateSucceeded) -> sound_results e'.
Proof.
  intros T S Y x Hx. destruct (decide (x = y)) as [->|N]; [by apply Y|]. destruct (T) as [_ T'].
  destruct (T' _ N) as [_ ->]. apply S. by apply (succeeded_frame y e e').
Qed.

(* ------------------------------------------------------------------ *)
(** ** A step of the goroutine of a node *)

Lemma getParentResults_ok (e : Executor any) x n : nodes (edag e) !! x = Some n -> sound_results e -> ready e x ->
  parents_ok e x (getParentResults e n).
Proof.
  intros En S R p (m & Em & Hp). rewrite En in Em. injection Em as <-. unfold getParentResults.
  destruct (S p) as (r & Er & Es); [apply R; by exists n|]. exists r. split; [|done].
  set (f := fun results depID => match nodeResults e !! depID with Some r => <[depID := r]> results | None => results end).
  assert (K : forall l (m : gmap string (NodeResult any)), (p ∈ l \/ m !! p = Some r) -> foldl f m l !! p = Some r).
  { induction l as [|y l IH]; intros m [Hl|Hm]; [by apply elem_of_nil in Hl|done|..]; cbn [foldl]; apply IH.
    - apply elem_of_cons in Hl as [->|Hl]; [right|by left]. unfold f. rewrite Er. apply lookup_insert_eq.
    - right. unfold f. destruct (nodeResults e !! y) as [ry|] eqn:Ey; [|done].
      destruct (decide (y = p)) as [->|N]; [rewrite lookup_insert_eq; congruence|by rewrite lookup_insert_ne]. }
  apply K. by left.
Qed.

Lemma not_succeeded_set (e : Executor any) x f : (forall n, state (f n) <> NodeStateSucceeded) -> ~ succeeded (update_node e x f) x.
Proof.
  intros K. unfold succeeded. cbn [update_node setDag edag onNodes nodes]. rewrite lookup_alter_eq.
  destruct (nodes (edag e) !! x) as [n|]; [|done]. cbn. intros [= E]. by apply (K n).
Qed.

Lemma update_same_state (e : Executor any) x f y : (forall n, state (f n) = state n) -> succeeded (update_node e x f) y <-> succeeded e y.
Proof.
  intros K. unfold succeeded. cbn [update_node setDag edag onNodes nodes]. destruct (decide (x = y)) as [<-|N].
  - rewrite lookup_alter_eq. destruct (nodes (edag e) !! x) as [n|]; [|done]. cbn. by rewrite K.
  - by rewrite lookup_alter_ne.
Qed.

Lemma handle_view (e : Executor any) r err e' ok de : handleDispatchResult e r err = (e', ok, de) ->
  edag e' = edag e /\ nodeResults e' = nodeResults e.
Proof.
  unfold handleDispatchResult, cancel_all, end_ctx. cbn [setCancelled ctx].
  repeat case_match; intros [= <- <- <-]; done.
Qed.

Lemma view_good (e e' : Executor any) g : edag e' = edag e -> nodeResults e' = nodeResults e -> good e g -> good e' g.
Proof. intros E1 E2. unfold good, succeeded, ready, parents_ok, depends_on, succeeded. by rewrite E1, E2. Qed.

Lemma stepAttempt_good (e : Executor any) n g c e' g' call : nodes (edag e) !! gnode g = Some n -> good e g -> sound_results e ->
  stepAttempt of_int dispatching e n g c = Some (e', g', call) ->
  touches (gnode g) e e' /\ good e' g' /\ sound_results e' /\ match call with Some pr => parents_ok e (gnode g) pr | None => True end.
Proof.
  intros En G S. unfold stepAttempt. unfold good in G. set (x := gnode g) in *.
  destruct (gpc_ g) as [|pr a le|pr a p le|pr a|pr a p| | | | | |] eqn:Epc; try done.
  - intros [= <- <- <-]. split_and!; [by apply touches_none| |done|done]. cbn. split; [apply G|]. by apply getParentResults_ok; [| |apply G].
  - destruct (resolveNodeRetries e n <? a); [intros [= <- <- <-]; split_and!; [by apply touches_none|apply G|done|done]|].
    destruct (cancelled e); [intros [= <- <- <-]; split_and!; [by apply touches_none|apply G|done|done]|].
    destruct (a =? 0); intros [= <- <- <-].
    { split_and!; [by apply touches_none|done|done|done]. }
    assert (T : touches x e (update_node e x IncrementRetryCount)) by by apply touches_node.
    assert (Su : forall y, succeeded (update_node e x IncrementRetryCount) y <-> succeeded e y) by (intros y; by apply update_same_state).
    split_and!; [done| |apply (sound_frame x e); [done|done|]; intros Y; apply S; by apply Su|done].
    cbn. fold x. rewrite Su. split; [apply G|]. apply (parents_frame e); [apply T|apply G].
  - destruct (g_timer c); [|destruct (parent_err e p); [|done]]; intros [= <- <- <-]; (split_and!; [by apply touches_none| |done|done]).
    + done.
    + apply G.
  - intros [= <- <- <-]. set (f := fun n => SetStartTime _ _).
    assert (T : touches x e (update_node e x f)) by by apply touches_node.
    assert (Ns : ~ succeeded (update_node e x f) x) by by apply not_succeeded_set.
    split_and!; [done| |by apply (sound_frame x e)|by destruct dispatching; [apply G|]].
    cbn. fold x. split; [done|]. apply (parents_frame e); [apply T|apply G].
  - destruct (if dispatching then _ else _) as [r er]. destruct (deferredDispatch er (g_now c)).
    + intros [= <- <- <-]. split_and!; [by apply touches_none|by destruct r; [apply G|]|done|done].
    + destruct (handleDispatchResult e r er) as [[e1 ok] de] eqn:Eh. apply handle_view in Eh as [E1 E2].
      assert (Sd : sound_results e1) by (unfold sound_results, succeeded in *; by rewrite E1, E2).
      assert (Gs : ~ succeeded e1 x) by (unfold succeeded; rewrite E1; apply G).
      destruct ok; intros [= <- <- <-]; (split_and!; [by apply touches_none| |done|done]); [by destruct r|].
      split; [done|]. apply (parents_frame e); [unfold same_graph; by rewrite E1|apply G].
Qed.

Lemma write_result_good (e : Executor any) x r : ~ succeeded e x -> sound_results e -> sound_results (write_result e x r).
Proof. intros N S. apply (sound_frame x e); [by apply touches_result|done|]. intros Y. by destruct N. Qed.

Lemma write_node_good (e : Executor any) x r : nodeResults e !! x = Some r -> sound_results e ->
  touches x e (write_node e x r) /\ sound_results (write_node e x r).
Proof.
  intros Er S. assert (T : touches x e (write_node e x r)) by by apply touches_node. split; [done|].
  apply (sound_frame x e); [done|done|]. intros Y. exists r. split; [done|]. revert Y. unfold succeeded.
  cbn [write_node update_node setDag edag onNodes nodes]. rewrite lookup_alter_eq.
  destruct (nodes (edag e) !! x); [|done]. cbn. by intros [= ->].
Qed.

Lemma check_view (e : Executor any) x w err : edag (cancelLayerOnBlockingFailure (record_first e w err) x) = edag e /\
  nodeResults (cancelLayerOnBlockingFailure (record_first e w err) x) = nodeResults e.
Proof. unfold cancelLayerOnBlockingFailure, record_first. destruct err; repeat case_match; done. Qed.

Lemma stepFinish_good (e : Executor any) g e' g' : good e g -> sound_results e -> stepFinish e g = Some (e', g') ->
  touches (gnode g) e e' /\ good e' g' /\ sound_results e'.
Proof.
  intros G S. unfold stepFinish. unfold good in G. destruct (gpc_ g) as [| | | | |r err|r err|err| | |]; try done; intros [= <- <-].
  - split_and!; [apply touches_result| |by apply write_result_good]. split; [done|]. apply lookup_insert_eq.
  - destruct (write_node_good e (gnode g) r) as [T Sn]; [apply G|done|]. by split_and!.
  - destruct (check_view e (gnode g) (gwave g) err) as [E1 E2]. split_and!; [by apply touches_none|done|].
    unfold sound_results, succeeded in *. by rewrite E1, E2.
  - split_and!; [by destruct (slot g); apply touches_none|done|by destruct (slot g)].
  - split_and!; [by destruct (counted g); apply touches_none|done|by destruct (counted g)].
Qed.

(* ------------------------------------------------------------------ *)
(** ** The invariant *)

(** The layer the main goroutine launches, its wave and the nodes left. *)
Definition launching (m : mpc any) : option (nat * nat * list string) :=
  match m with
  | MNode idx w todo | MJoin idx w _ todo => Some (idx, w, todo)
  | MReady idx w x todo | MBlock idx w x _ _ todo | MAcquire idx w x todo | MRun idx w x todo => Some (idx, w, x :: todo)
  | MWait idx w => Some (idx, w, [])
  | _ => None
  end.

(** The goroutines of the layer, and no others, are at work. *)
Definition phase_ok (e : Executor any) (ph : option (nat * nat * list string)) (l : list (go any)) : Prop :=
  match ph with
  | Some (idx, w, todo) => NoDup todo /\ (forall x, x ∈ todo -> layered e idx x) /\
      forall g, g ∈ l -> ended g = false -> gwave g = w /\ layered e idx (gnode g) /\ gnode g ∉ todo
  | None => forall g, g ∈ l -> ended g = true
  end.

Record orderly (s : sys any) : Prop := {
  or_plan : planned (edag (exec s));
  or_sound : sound_results (exec s);
  or_phase : phase_ok (exec s) (launching (main s)) (gos s);
  or_distinct : forall i j g g', gos s !! i = Some g -> gos s !! j = Some g' -> ended g = false -> ended g' = false ->
    gnode g = gnode g' -> i = j;
  or_gos : forall g, g ∈ gos s -> good (exec s) g;
  or_main : main_good (exec s) (main s);
  or_calls : Forall (fun c => parents_ok (exec s) c.1 c.2) (calls s);
  or_sweeps : sweeps s = []
}.

(** Nodes of one layer do not depend on each other. *)
Lemma layer_independent (e : Executor any) idx x y : planned (edag e) -> layered e idx x -> layered e idx y -> ~ depends_on e x y.
Proof.
  intros P Hx Hy D. destruct (pl_earlier _ P idx x y Hx D) as (j & Lj & Hj). pose proof (pl_unique _ P _ _ _ Hy Hj). lia.
Qed.

Lemma ended_good (e : Executor any) g : ended g = true -> good e g.
Proof. unfold ended, good. by destruct (gpc_ g). Qed.

Lemma main_node_launching m x : main_node m = Some x -> (exists idx w todo, launching m = Some (idx, w, x :: todo)) \/ launching m = None.
Proof. destruct m; try done; intros [= <-]; [left; cbn; eauto..|by right]. Qed.

Lemma phase_frame (e e' : Executor any) ph l : same_graph e e' -> phase_ok e ph l -> phase_ok e' ph l.
Proof.
  intros G. unfold phase_ok. destruct ph as [[[idx w] todo]|]; [|done]. intros (A & B & C). split_and!; [done|..].
  - intros x Hx. apply (graph_layered e e'); [done|by apply B].
  - intros g Hg E. destruct (C g Hg E) as (C1 & C2 & C3). split_and!; [done|by apply (graph_layered e e')|done].
Qed.

Lemma calls_frame (e e' : Executor any) (l : list (string * gmap string (NodeResult any))) : same_graph e e' ->
  Forall (fun c => parents_ok e c.1 c.2) l -> Forall (fun c => parents_ok e' c.1 c.2) l.
Proof. intros G F. eapply Forall_impl; [exact F|]. intros c. by apply parents_frame. Qed.

(** A step of goroutine [i]. *)
Lemma orderly_go s i g g' e' cs : orderly s -> gos s !! i = Some g -> ended g = false -> gnode g' = gnode g -> gwave g' = gwave g ->
  touches (gnode g) (exec s) e' -> good e' g' -> sound_results e' -> Forall (fun c => parents_ok (exec s) c.1 c.2) cs ->
  orderly (mkSys e' (main s) (<[i := g']> (gos s)) (sweeps s) cs (abandoned s)).
Proof.
  intros [A B C D G M F W] Eg Ne En Ew T Gg Sd Fc. pose proof (T) as [Sg _].
  assert (Lt : (i < length (gos s))%nat) by by eapply lookup_lt_Some.
  assert (Hg : g ∈ gos s) by by eapply list_elem_of_lookup_2.
  assert (In : forall k, k ∈ <[i := g']> (gos s) -> k = g' \/ exists j, j <> i /\ gos s !! j = Some k).
  { intros k [j Ej]%list_elem_of_lookup. destruct (decide (j = i)) as [->|N].
    - left. rewrite list_lookup_insert_eq in Ej by done. by injection Ej.
    - right. exists j. by rewrite list_lookup_insert_ne in Ej. }
  destruct (launching (main s)) as [[[idx w] todo]|] eqn:Ph; [|by rewrite (C g Hg) in Ne].
  destruct C as (C1 & C2 & C3). destruct (C3 g Hg Ne) as (Wg & Lg & Tg).
  split; cbn [exec main gos sweeps calls].
  - by apply (graph_planned (exec s)).
  - done.
  - rewrite Ph. apply (phase_frame (exec s)); [done|]. split_and!; [done|done|]. intros k Hk Nk.
    destruct (In k Hk) as [->|(j & _ & Ej)]; [rewrite En, Ew; by split_and!|]. by apply C3; [eapply list_elem_of_lookup_2|].
  - intros j k h h' Ej Ek Nh Nh' E.
    assert (Q : forall j h, <[i := g']> (gos s) !! j = Some h -> ended h = false -> exists h0, gos s !! j = Some h0 /\ ended h0 = false /\ gnode h0 = gnode h).
    { intros j0 h0 E0 N0. destruct (decide (j0 = i)) as [->|N].
      - rewrite list_lookup_insert_eq in E0 by done. injection E0 as <-. by exists g.
      - rewrite list_lookup_insert_ne in E0 by done. by exists h0. }
    destruct (Q j h Ej Nh) as (h1 & E1 & N1 & X1), (Q k h' Ek Nh') as (h2 & E2 & N2 & X2).
    apply (D j k h1 h2); try done. congruence.
  - intros k Hk. destruct (In k Hk) as [->|(j & Nj & Ej)]; [done|].
    assert (Hk' : k ∈ gos s) by by eapply list_elem_of_lookup_2.
    destruct (ended k) eqn:Ek; [by apply ended_good|]. destruct (C3 k Hk' Ek) as (_ & Lk & _).
    apply (good_frame (gnode g) (exec s)); [done| |by apply (layer_independent _ idx)|by apply G].
    intros X. apply Nj. by apply (D j i k g).
  - apply (main_good_frame (gnode g) (exec s)); [done| |done]. intros x Hx.
    destruct (main_node_launching _ _ Hx) as [(idx' & w' & todo' & Ph')|Ph']; rewrite Ph in Ph'; [|done]. injection Ph' as <- <- ->.
    split; [intros ->; apply Tg; by left|]. apply (layer_independent _ idx); [done|apply C2; by left|done].
  - by apply (calls_frame (exec s)).
  - done.
Qed.

Lemma step_go_orderly s i c s' : orderly s -> step_go of_int dispatching s i c = Some s' -> orderly s'.
Proof.
  intros O E. unfold step_go in E. apply bind_Some in E as (g & Eg & E).
  assert (Gg : good (exec s) g) by by apply (or_gos s O), (list_elem_of_lookup_2 _ i).
  pose proof (or_sound s O) as Sd. pose proof (or_calls s O) as Fc.
  destruct (gpc_ g) eqn:Epc; try (apply bind_Some in E as (n & En & E); apply bind_Some in E as ([[e g'] call] & Ea & E);
    injection E as <-; destruct (stepAttempt_frame _ _ _ _ _ _ _ _ _ Ea) as (_ & _ & F1 & F2 & _);
    destruct (stepAttempt_good _ _ _ _ _ _ _ En Gg Sd Ea) as (T & G' & Sd' & Pc);
    apply (orderly_go s i g); [done|done|unfold ended; by rewrite Epc|done..|by destruct call; [constructor|]]);
    apply bind_Some in E as ([e g'] & Ea & E); injection E as <-; destruct (stepFinish_good _ _ _ _ Gg Sd Ea) as (T & G' & Sd');
    unfold stepFinish in Ea; rewrite Epc in Ea; try discriminate; injection Ea as <- <-;
    by apply (orderly_go s i g); [done|done|unfold ended; by rewrite Epc|..].
Qed.

(* ------------------------------------------------------------------ *)
(** ** A step of the main goroutine *)

Lemma view_plan (e e' : Executor any) : edag e' = edag e -> same_graph e e'.
Proof. intros E. unfold same_graph. by rewrite E. Qed.

(** Moving on without a write to the nodes or their results. *)
Lemma orderly_goto s e pc : orderly s -> edag e = edag (exec s) -> nodeResults e = nodeResults (exec s) ->
  phase_ok (exec s) (launching pc) (gos s) -> main_good (exec s) pc -> orderly (goto s e pc).
Proof.
  intros [A B C D G M F W] E1 E2 Ph Mg. pose proof (view_plan _ _ E1) as Sg.
  assert (Su : forall x, succeeded e x <-> succeeded (exec s) x) by (intros x; unfold succeeded; by rewrite E1).
  split; cbn [goto exec main gos sweeps calls]; try done.
  - by rewrite E1.
  - intros x Hx%Su. rewrite E2. by apply B.
  - by apply (phase_frame (exec s)).
  - intros g Hg. apply (view_good (exec s)); [done|done|by apply G].
  - destruct pc as [| | |idx w x r [] todo|idx w x todo|idx w x todo| | | |idx w f snap x r [] todo| | | | | | |]; try done;
      unfold main_good in *; rewrite ?Su, ?E2; try done; (split; [apply Mg|]); intros p Hp%(graph_depends (exec s)); try done; apply Su; by apply Mg.
  - by apply (calls_frame (exec s)).
Qed.

(** A write of the main goroutine to its node. *)
Lemma orderly_write s e pc x : orderly s -> main_node (main s) = Some x -> touches x (exec s) e -> sound_results e ->
  phase_ok (exec s) (launching pc) (gos s) -> main_good e pc -> orderly (goto s e pc).
Proof.
  intros [A B C D G M F W] Nx T Sd Ph Mg. pose proof (T) as [Sg _].
  split; cbn [goto exec main gos sweeps calls]; try done.
  - by apply (graph_planned (exec s)).
  - by apply (phase_frame (exec s)).
  - intros g Hg. destruct (ended g) eqn:Eg; [by apply ended_good|].
    destruct (main_node_launching _ _ Nx) as [(idx & w & todo & Ph')|Ph']; rewrite Ph' in C; [|by rewrite (C g Hg) in Eg].
    destruct C as (_ & C2 & C3). destruct (C3 g Hg Eg) as (_ & Lg & Tg).
    apply (good_frame x (exec s)); [done| | |by apply G].
    + intros K. rewrite K in Tg. apply Tg. by left.
    + apply (layer_independent _ idx); [done|done|]. apply C2. by left.
  - by apply (calls_frame (exec s)).
Qed.

Lemma launching_tail (e : Executor any) idx w x todo l : phase_ok e (Some (idx, w, x :: todo)) l -> phase_ok e (Some (idx, w, todo)) l.
Proof.
  intros (A & B & C). apply NoDup_cons in A as [_ A]. split_and!; [done|intros y Hy; apply B; by right|].
  intros g Hg E. destruct (C g Hg E) as (C1 & C2 & C3). split_and!; [done|done|]. intros K. apply C3. by right.
Qed.

Lemma launching_done (e : Executor any) idx w todo l : phase_ok e (Some (idx, w, todo)) l -> existsb (unfinished w) l = false ->
  phase_ok e None l.
Proof.
  intros (_ & _ & C) Ex g Hg. destruct (ended g) eqn:E; [done|]. destruct (C g Hg E) as (Wg & _).
  assert (U : existsb (unfinished w) l = true); [|congruence]. apply existsb_exists. exists g.
  split; [by apply list_elem_of_In|]. unfold unfinished. by rewrite E, Wg, Nat.eqb_refl.
Qed.

Lemma runnable_ready (e : Executor any) x n : nodes (edag e) !! x = Some n -> runnable e n = true -> ready e x.
Proof.
  intros En. unfold runnable. rewrite GetNodeStates_eq. intros [_ R]%andb_true_iff. rewrite IsReady_true in R.
  intros p (m & Em & Hp). rewrite En in Em. injection Em as <-. specialize (R p Hp). by rewrite lookup_fmap in R.
Qed.

Lemma not_terminal (e : Executor any) x n : nodes (edag e) !! x = Some n -> IsTerminal (state n) = false -> ~ succeeded e x.
Proof. intros En T. unfold succeeded. rewrite En. cbn. intros [= E]. by rewrite E in T. Qed.

Lemma reset_sound (e : Executor any) layer : sound_results e -> sound_results (resetLayerForRetry e layer).
Proof.
  unfold resetLayerForRetry. revert e. induction layer as [|x layer IH]; intros e S; [done|]. cbn [foldl]. apply IH.
  unfold resetNodeForRetry. destruct (nodeResults e !! x) as [r|] eqn:Er; [|done]. destruct (_ && _); [done|].
  destruct (GetNode (edag e) x) as [n|]; [|done]. set (e1 := update_node e x (fun n => SetState n NodeStatePending)).
  assert (K : forall e2, nodeResults e2 = nodeResults e -> (succeeded e2 x -> succeeded e1 x) -> (forall y, y <> x -> succeeded e2 y -> succeeded e y) ->
    sound_results (setBudgetRetry (setResults e2 (delete x (nodeResults e2))) (delete x (budgetRetry e2)))).
  { intros e2 R2 S2 S3 y Hy. change (succeeded e2 y) in Hy. cbn [setBudgetRetry setResults nodeResults]. rewrite R2.
    destruct (decide (y = x)) as [->|N]; [by apply S2, not_succeeded_set in Hy|]. rewrite lookup_delete_ne by done. by apply S, S3. }
  assert (T : forall y, y <> x -> succeeded e1 y -> succeeded e y).
  { intros y N. by apply (succeeded_frame x e); [apply touches_node|]. }
  destruct (bool_decide (RState r = NodeStateFailed)); apply K; try done.
  - by apply update_same_state.
  - intros y N Hy. apply T; [done|]. by apply update_same_state in Hy.
Qed.

Lemma launch_view (e : Executor any) w x reject now : edag (fst (launch scoped e w x reject now)) = edag e /\
  nodeResults (fst (launch scoped e w x reject now)) = nodeResults e.
Proof. unfold launch. by destruct scoped, reject. Qed.

(** The goroutine of the node at hand joins those at work. *)
Lemma orderly_launch s idx w x todo e g pc : orderly s -> main s = MRun idx w x todo ->
  edag e = edag (exec s) -> nodeResults e = nodeResults (exec s) -> gnode g = x -> gwave g = w -> good (exec s) g ->
  launching pc = Some (idx, w, todo) -> (forall e, main_good e pc) ->
  orderly (mkSys e pc (gos s ++ [g]) (sweeps s) (calls s) (abandoned s)).
Proof.
  intros [A B C D G M F W] Em E1 E2 Gx Gw Gg Lp Mg. pose proof (view_plan _ _ E1) as Sg. rewrite Em in C. cbn [launching] in C.
  pose proof (launching_tail _ _ _ _ _ _ C) as (T1 & T2 & T3). destruct C as (C1 & C2 & C3). apply NoDup_cons in C1 as [Nx _].
  split; cbn [exec main gos sweeps calls]; try done.
  - by rewrite E1.
  - unfold sound_results, succeeded in *. by rewrite E1, E2.
  - rewrite Lp. apply (phase_frame (exec s)); [done|]. split_and!; [done|done|].
    intros h [Hh| ->%list_elem_of_singleton]%elem_of_app Eh; [by apply T3|]. rewrite Gx, Gw. split_and!; [done|apply C2; by left|done].
  - assert (K : forall j h, (gos s ++ [g]) !! j = Some h -> gos s !! j = Some h \/ (j = length (gos s) /\ h = g)).
    { intros j h Ej. apply lookup_app_Some in Ej as [Ej|[Lj Ej]]; [by left|right]. apply list_lookup_singleton_Some in Ej as [Z <-].
      split; [lia|done]. }
    intros i j h h' Ei Ej Nh Nh' E. destruct (K i h Ei) as [Ei'|[-> ->]], (K j h' Ej) as [Ej'|[-> ->]]; [by eapply D|exfalso..|done].
    + destruct (C3 h ltac:(by eapply list_elem_of_lookup_2) Nh) as (_ & _ & X). apply X. rewrite E, Gx. by left.
    + destruct (C3 h' ltac:(by eapply list_elem_of_lookup_2) Nh') as (_ & _ & X). apply X. rewrite <- E, Gx. by left.
  - intros h [Hh| ->%list_elem_of_singleton]%elem_of_app; (apply (view_good (exec s)); [done|done|]); [by apply G|done].
  - by apply (calls_frame (exec s)).
Qed.

Lemma rule_orderly s c s' : orderly s -> rule scoped s c s' -> abandoned s' = false -> orderly s'.
Proof.
  intros O R Ab. pose proof (or_phase s O) as Ph. pose proof (or_main s O) as Mg. pose proof (or_sound s O) as Sd.
  destruct R as [idx Em Hl|idx Em Hl Hc|idx w todo Em Ht|idx w x todo Em Hc|idx w x todo Em Hn|idx w x todo n Em En Et Er|
    idx w x todo n now Em En Et Er|idx w x r todo Em|idx w x r todo Em|idx w x todo Em Ea|idx w x todo e Em Ea|
    idx w x todo reject now Em|idx w i todo g Em Eg Ee|idx w Em Ex|idx w f snap Em|idx w f snap x todo Em|idx w f snap x todo n now Em En Et|
    idx w f snap x r todo Em|idx w f snap x r todo Em|idx w Em|idx w f now deadline Em En|idx w f now Em En|idx w deadline out Em Ho|
    idx w out Em Ho|idx w Em|idx w out Em|idx Em|now Em]; rewrite Em in Ph, Mg; cbn [launching] in Ph.
  all: try (apply orderly_goto; [done|done|done|exact Ph|exact I]).
  - apply orderly_goto; [done|done|done| |done]. apply lookup_lt_is_Some in Hl as [layer El].
    unfold layer_at. rewrite El. cbn [default from_option id]. split_and!; [by apply (pl_nodup _ (or_plan s O) idx)|by exists layer|].
    intros g Hg Eg. by rewrite (Ph g Hg) in Eg.
  - apply orderly_goto; [done..| |done]. destruct Ph as (_ & _ & C). split_and!; [constructor|by intros x Hx%elem_of_nil|].
    intros g Hg Eg. destruct (C g Hg Eg) as (C1 & C2 & _). split_and!; [done|done|apply not_elem_of_nil].
  - apply orderly_goto; [done..| |done]. by apply launching_tail in Ph.
  - apply orderly_goto; [done..|]. split; [by eapply not_terminal|by eapply runnable_ready].
  - apply orderly_goto; [done..|]. by eapply not_terminal.
  - apply (orderly_write s _ _ x); [done|by rewrite Em|apply touches_result|by apply write_result_good|done|].
    split; [done|]. apply lookup_insert_eq.
  - destruct (write_node_good (exec s) x r) as [T Sn]; [apply Mg|done|].
    apply (orderly_write s _ _ x); [done|by rewrite Em|done|done|by apply launching_tail in Ph|done].
  - cbn [abandoned] in Ab. apply orb_false_iff in Ab as [Ab Ex]. rewrite Ab, Ex.
    pose proof (orderly_goto s (exec s) (MSweep idx w true (nodeResults (exec s)) (layer_at (exec s) idx)) O eq_refl eq_refl) as K.
    unfold goto in K. rewrite Ab in K. apply K; [|done]. by apply (launching_done _ idx w (x :: todo)).
  - destruct (acquire_frame _ _ Ea) as [[_ ->]|(k & _ & _ & ->)]; by apply orderly_goto.
  - destruct (launch_view (exec s) w x reject now) as [V1 V2].
    apply (orderly_launch s idx w x todo); [done|done|done|done|unfold launch; by destruct scoped, reject..| | |].
    + unfold launch, good. destruct scoped, reject; cbn [snd gpc_ gnode]; try exact Mg. by apply Mg.
    + by destruct (_ && _).
    + intros e. by destruct (_ && _).
  - apply orderly_goto; [done..| |done]. by apply (launching_done _ idx w []).
  - apply orderly_goto; [done..|]. by eapply not_terminal.
  - apply (orderly_write s _ _ x); [done|by rewrite Em|apply touches_result|by apply write_result_good|done|].
    split; [done|]. apply lookup_insert_eq.
  - destruct (write_node_good (exec s) x r) as [T Sn]; [apply Mg|done|].
    by apply (orderly_write s _ _ x); [|rewrite Em|..].
  - apply orderly_goto; [done..| |]; by destruct out.
  - destruct (reset_frame (exec s) (layer_at (exec s) idx)) as [_ Gr]. destruct O as [A B C D G M F W]. rewrite Em in C.
    split; cbn [goto exec main gos sweeps calls]; try done.
    + by apply (graph_planned (exec s)).
    + by apply reset_sound.
    + intros g Hg. by apply ended_good, Ph.
    + by apply (calls_frame (exec s)).
Qed.

(** Nobody outside touches the nodes: no call of [Cancel], [MarkNodeAcked] or
    [MarkNodeRunning]. *)
Definition undisturbed (l : label any) : bool := match l with LCancel | LAcked _ | LRunning _ _ => false | _ => true end.

Lemma end_ctx_view (e : Executor any) err : edag (end_ctx e err) = edag e /\ nodeResults (end_ctx e err) = nodeResults e.
Proof. unfold end_ctx. by destruct (ctx e). Qed.

Lemma abandoned_mono s l s' : step s l = Some s' -> abandoned s' = false -> abandoned s = false.
Proof.
  intros E Ab. destruct l as [c|i c|j now| | |err|x|x now]; cbn [DagExecutor.step] in E; try (by injection E as <-).
  - apply step_main_rule in E. destruct E; try done. cbn [abandoned] in Ab. by apply orb_false_iff in Ab as [? _].
  - unfold step_go in E. apply bind_Some in E as (g & Eg & E).
    destruct (gpc_ g); try (apply bind_Some in E as (n & En & E); apply bind_Some in E as ([[e g'] call] & Ea & E); by injection E as <-);
      apply bind_Some in E as ([e g'] & Ea & E); by injection E as <-.
  - unfold step_sweep in E. apply bind_Some in E as (k & Ek & E). cbv zeta in E.
    destruct k as [[|x todo]|x r [] todo]; [done|..]; repeat case_match; by injection E as <-.
  - injection E as <-. unfold Cancel in Ab. by destruct (negb _).
Qed.

Lemma step_orderly s l s' : orderly s -> undisturbed l = true -> step s l = Some s' -> abandoned s' = false -> orderly s'.
Proof.
  intros O U E Ab. assert (K : forall e, edag e = edag (exec s) -> nodeResults e = nodeResults (exec s) -> orderly (with_exec s e)).
  { intros e E1 E2. apply (orderly_goto s e (main s)); [done|done|done|apply (or_phase s O)|apply (or_main s O)]. }
  destruct l as [c|i c|j now| | |err|x|x now]; cbn [DagExecutor.step] in E; try done.
  - eapply rule_orderly; [done|by eapply step_main_rule|done].
  - by eapply step_go_orderly.
  - unfold step_sweep in E. by rewrite (or_sweeps s O) in E.
  - injection E as <-. apply K; unfold Close; destruct (closed (exec s)); try done; by apply (end_ctx_view (setClosed (exec s))).
  - injection E as <-. apply K; by apply end_ctx_view.
Qed.

(* ------------------------------------------------------------------ *)
(** ** The start *)

Lemma reset_nodes (d : DAG any) x : nodes (ResetNodeStates d) !! x = resetNode <$> nodes d !! x.
Proof. unfold ResetNodeStates. cbn [onNodes nodes]. rewrite range_alter_eq. apply lookup_fmap. Qed.

Lemma reset_depends (d : DAG any) x p : depends (nodes (ResetNodeStates d)) x p <-> depends (nodes d) x p.
Proof.
  unfold depends. rewrite reset_nodes. destruct (nodes d !! x) as [n|]; cbn; [|by split; intros (? & ? & _)].
  split; intros (m & [= <-] & Hp); by eexists.
Qed.

Lemma schedule_planned (d d' : DAG any) : schedule (nodes d) (nodes d') (executionOrder d') -> planned d'.
Proof.
  intros S. split; [|apply (sched_unique _ _ _ S)|intros i l El; by apply (sched_nodup _ _ _ S i)|].
  { intros x. rewrite <- (sched_placed _ _ _ S x). split.
    - intros [n' En']. by apply (sched_known _ _ _ S x n').
    - intros [n En]. destruct (sched_nodes _ _ _ S x n En) as (j & m & _ & Em & _). by exists m. }
  intros i x p Hx (n' & En' & Hp). destruct (proj2 (sched_placed _ _ _ S x) (ex_intro _ i Hx)) as [n En].
  apply (sched_earlier _ _ _ S i x p Hx). exists n. split; [done|].
  destruct (sched_nodes _ _ _ S x n En) as (j & m & _ & Em & Ec & _). rewrite En' in Em. injection Em as <-.
  unfold dependencies in *. by rewrite <- Ec.
Qed.

Lemma start_orderly (e : Executor any) d parent now s : (validated d = true -> planned d) ->
  Execute e d parent now = Some (Ok s) -> orderly s.
Proof.
  intros V (d' & Vd & ->)%Execute_eq.
  assert (P : planned d').
  { unfold validateExecution in Vd. destruct (validated d) eqn:Ev; [injection Vd as <-; by apply V|].
    destruct (Validate_outcome d) as [[E ?]|[(E & _ & ?)|(? & ? & [[E ?]|(d2 & E & ? & ? & S)])]]; rewrite E in Vd; try done.
    injection Vd as <-. by eapply schedule_planned. }
  split; cbn [exec main gos sweeps calls edag]; try done.
  - destruct P as [Z A B C]. split; [|done|done|].
    { intros x. rewrite <- Z, reset_nodes. by rewrite fmap_is_Some. }
    intros i x p Hx Hp. exact (C i x p Hx (proj1 (reset_depends d' x p) Hp)).
  - intros x. unfold succeeded. cbn [edag]. rewrite reset_nodes. by destruct (nodes d' !! x).
  - by intros g Hg%elem_of_nil.
  - by intros g Hg%elem_of_nil.
Qed.

(** C27: as long as nobody calls [Cancel] or changes the state of a node from
    outside, and no layer was left before its goroutines were finished, every
    call of the dispatcher gets the results of all dependencies of its node,
    and all of them succeeded, in any interleaving, with retries, refused
    launches, deferrals and contexts that end. *)
Theorem dispatch_after_dependencies (e : Executor any) d parent now s ls s' :
  (validated d = true -> planned d) -> Execute e d parent now = Some (Ok s) ->
  Forall (fun l => undisturbed l = true) ls -> run s ls = Some s' -> abandoned s' = false ->
  Forall (fun c => forall p, depends (nodes (edag (exec s'))) c.1 p ->
    exists r, c.2 !! p = Some r /\ RState r = NodeStateSucceeded) (calls s').
Proof.
  intros V E U R Ab. rewrite Forall_forall in U.
  assert (O : abandoned s' = false -> orderly s').
  { apply (run_ind of_int dispatching scoped gated waits (fun s => abandoned s = false -> orderly s) s ls); [|by intros _; eapply start_orderly|done].
    intros t l t' I Hl Et At. eapply step_orderly; [apply I; by eapply abandoned_mono|by apply U|done|done]. }
  exact (or_calls s' (O Ab)).
Qed.
End Order.

(* ------------------------------------------------------------------ *)
(** ** What the executor returns

    The result is exact, whatever happened. *)

Section Result.
Context {any : Type} `{RangeOrder}.

(** The results whose state is of a kind. *)
Definition count (P : NodeState -> bool) (l : list (string * NodeResult any)) : Z := len (filter (fun kv => P (RState kv.2) = true) l).

Definition is_succeeded (st : NodeState) : bool := bool_decide (st = NodeStateSucceeded).
Definition is_failed (st : NodeState) : bool := bool_decide (st = NodeStateFailed) || bool_decide (st = NodeStateBlocked).
Definition is_skipped (st : NodeState) : bool := bool_decide (st = NodeStateSkipped) || bool_decide (st = NodeStateCancelled).

(** The body of the loop of [buildResult]. *)
Definition tally_step (r : DAGResult any) (kv : string * NodeResult any) : DAGResult any :=
  tallyNodeResult (mkDAGResult (DID r) (DState r) (<[kv.1 := kv.2]> (DResults r)) (NodesSucceeded r) (NodesFailed r) (NodesSkipped r)
    (DError r) (DStart r) (DEnd r) (DDuration r)) (RState kv.2).

Lemma count_cons P kv l : count P (kv :: l) = (if P (RState kv.2) then 1 else 0) + count P l.
Proof.
  unfold count. destruct (P (RState kv.2)) eqn:E.
  - rewrite filter_cons_True by done. apply len_cons.
  - rewrite filter_cons_False by congruence. lia.
Qed.

Lemma tally_spec l r : let r' := foldl tally_step r l in
  DResults r' = foldl (fun m kv => <[kv.1 := kv.2]> m) (DResults r) l /\
  NodesSucceeded r' = NodesSucceeded r + count is_succeeded l /\ NodesFailed r' = NodesFailed r + count is_failed l /\
  NodesSkipped r' = NodesSkipped r + count is_skipped l.
Proof.
  revert r. induction l as [|kv l IH]; intros r; [unfold count, len; simpl; split; [done|lia]|]. cbn [foldl].
  destruct (IH (tally_step r kv)) as (A & B & C & D). rewrite A, B, C, D, !count_cons. clear.
  unfold tally_step, tallyNodeResult. destruct (RState kv.2); cbn -[Z.add count]; (split; [done|]); simpl; lia.
Qed.

Lemma count_perm P l k : l ≡ₚ k -> count P l = count P k.
Proof. intros E. unfold count, len. by rewrite E. Qed.

Lemma count_zero P l : count P l <= 0 <-> forall kv, kv ∈ l -> P (RState kv.2) = false.
Proof.
  induction l as [|kv l IH]; [split; [by intros _ kv Hkv%elem_of_nil|unfold count, len; simpl; lia]|].
  rewrite count_cons. pose proof (len_nonneg (filter (fun kv => P (RState kv.2) = true) l)) as Nn. fold (count P l) in Nn.
  destruct (P (RState kv.2)) eqn:E; split; intros K.
  - lia.
  - specialize (K kv ltac:(by left)). congruence.
  - intros x [->|Hx]%elem_of_cons; [done|]. apply IH; [lia|done].
  - rewrite Z.add_0_l. apply IH. intros x Hx. apply K. by right.
Qed.

Lemma buildResult_tally (e : Executor any) now :
  buildResult e now = let r := applyResultState e (foldl tally_step (newResultSnapshot e now) (range_map 15 (nodeResults e)))
    (incompleteNodeCountLocked e) in (setState e (DState r), r).
Proof. done. Qed.

Lemma incomplete_zero (e : Executor any) : incompleteNodeCountLocked e <= 0 <->
  forall x n, nodes (edag e) !! x = Some n -> IsTerminal (state n) = true.
Proof.
  unfold incompleteNodeCountLocked, DagModel.Nodes. split.
  - intros L x n En. apply not_false_iff_true. intros T.
    assert (Hn : n ∈ filter (fun n => IsTerminal (state n) = false) (range_map 10 (nodes (edag e))).*2).
    { apply list_elem_of_filter. split; [done|]. apply list_elem_of_fmap. exists (x, n). split; [done|]. by apply elem_of_range_map. }
    destruct (filter _ _) as [|k l]; [by apply elem_of_nil in Hn|]. rewrite len_cons in L. pose proof (len_nonneg l). lia.
  - intros K. assert (E : filter (fun n => IsTerminal (state n) = false) (range_map 10 (nodes (edag e))).*2 = []); [|by rewrite E].
    apply elem_of_nil_inv. intros n [T ([x m] & -> & Hm)%list_elem_of_fmap]%list_elem_of_filter.
    apply elem_of_range_map in Hm. cbn [snd] in T. by rewrite (K x m Hm) in T.
Qed.

Lemma buildResult_spec (e : Executor any) now :
  let '(e', r) := buildResult e now in
  estate e' = DState r /\ DResults r = nodeResults e /\
  NodesSucceeded r = count is_succeeded (map_to_list (nodeResults e)) /\
  NodesFailed r = count is_failed (map_to_list (nodeResults e)) /\
  NodesSkipped r = count is_skipped (map_to_list (nodeResults e)) /\
  (DState r = DAGStateCancelled <-> cancelled e = true \/ ctx e = Some Canceled) /\
  (DState r = DAGStateSucceeded <-> cancelled e = false /\ ctx e = None /\
    (forall x r, nodeResults e !! x = Some r -> is_failed (RState r) = false) /\
    (forall x n, nodes (edag e) !! x = Some n -> IsTerminal (state n) = true)) /\
  (DState r <> DAGStateSucceeded -> is_Some (DError r)) /\ DAGState_IsTerminal (DState r) = true.
Proof.
  rewrite buildResult_tally. cbv zeta. set (r0 := newResultSnapshot e now).
  destruct (tally_spec (range_map 15 (nodeResults e)) r0) as (A & B & C & D). set (r := foldl tally_step _ _) in *.
  rewrite (count_perm _ _ _ (range_map_perm 15 (nodeResults e))) in B.
  rewrite (count_perm _ _ _ (range_map_perm 15 (nodeResults e))) in C.
  rewrite (count_perm _ _ _ (range_map_perm 15 (nodeResults e))) in D.
  cbn [r0 newResultSnapshot NodesSucceeded NodesFailed NodesSkipped DResults] in *.
  pose proof (range_copy_eq 15 (nodeResults e)) as Rc. unfold range_copy in Rc. rewrite Rc in A. rewrite !Z.add_0_l in *.
  assert (Fz : NodesFailed r <= 0 <-> forall x r, nodeResults e !! x = Some r -> is_failed (RState r) = false).
  { rewrite C, count_zero. split; [intros K x y Ey; apply (K (x, y)); by apply elem_of_map_to_list|].
    intros K [x y] Hy%elem_of_map_to_list. by apply (K x). }
  pose proof (incomplete_zero e) as Iz. unfold applyResultState.
  destruct (cancelled e || bool_decide (ctx e = Some Canceled)) eqn:Ca.
  { apply orb_true_iff in Ca. rewrite bool_decide_eq_true in Ca. cbn. split_and!; try done.
    split; [done|]. intros (K1 & K2 & _). destruct Ca; congruence. }
  apply orb_false_iff in Ca as [Ca Cc%bool_decide_eq_false]. destruct (ctx e) as [err|] eqn:Ec.
  { cbn. split_and!; try done; [|by split; [|intros (_ & ? & _)]]. split; [done|]. intros [?|[= ->]]; congruence. }
  destruct (Z.ltb_spec 0 (NodesFailed r)) as [Lf|Lf].
  { cbn. split_and!; try done; [split; [done|]; intros [?|?]; congruence|]. split; [done|]. intros (_ & _ & K%Fz & _). lia. }
  destruct (Z.ltb_spec 0 (incompleteNodeCountLocked e)) as [Li|Li]; cbn; split_and!; try done;
    try (split; [done|]; intros [?|?]; congruence).
  - split; [done|]. intros (_ & _ & _ & K%Iz). lia.
  - split; [intros _|done]. split_and!; [done|done|by apply Fz|by apply Iz].
Qed.
(** The result of an execution is exact: it has every recorded result,
    counts them by kind, and its state is cancelled when the execution was,
    failed when the context ended otherwise, a node failed or was blocked, or
    one is unfinished, and succeeded exactly when none of this is the case. *)
Theorem result_exact (e : Executor any) now :
  let '(e', r) := buildResult e now in
  estate e' = DState r /\ DResults r = nodeResults e /\
  NodesSucceeded r = count is_succeeded (map_to_list (nodeResults e)) /\
  NodesFailed r = count is_failed (map_to_list (nodeResults e)) /\
  NodesSkipped r = count is_skipped (map_to_list (nodeResults e)) /\
  (DState r = DAGStateCancelled <-> cancelled e = true \/ ctx e = Some Canceled) /\
  (DState r = DAGStateSucceeded <-> cancelled e = false /\ ctx e = None /\
    (forall x r, nodeResults e !! x = Some r -> is_failed (RState r) = false) /\
    (forall x n, nodes (edag e) !! x = Some n -> IsTerminal (state n) = true)) /\
  (DState r <> DAGStateSucceeded -> is_Some (DError r)) /\ DAGState_IsTerminal (DState r) = true.
Proof. exact (buildResult_spec e now). Qed.
End Result.
