(* ===== verification/DagExecSmooth.v ===== *)
(** * A run in which every node succeeds (core/dag/executor.go)

    When the dispatcher answers every call with success and nothing else
    interferes, the executor runs every node of the graph exactly once and
    reports success, whatever the interleaving. *)

From S2P Require Import Prelude DagModel DagValidator KahnSort DagLayers DagCorrect.
From S2P Require Export DagExecTerm DagExecOrder.
Import DagModel DagValidator DagExecutor.

Section Smooth.
Context {any : Type} (of_int : Z -> any) (scoped gated waits : bool) `{RangeOrder} `{SliceSort}.

Abbreviation step := (step of_int true scoped gated waits).
Abbreviation run := (run of_int true scoped gated waits).















(* ------------------------------------------------------------------ *)
(** ** A step of the main goroutine *)













(* ------------------------------------------------------------------ *)
(** ** Whole runs *)




End Smooth.
