(* ===== verification/DagExecCases.v ===== *)
(** * Runs of the executor (core/dag/executor.go)

    Concrete runs of [DagExecutor.step]: what the executor does on small
    graphs, and where it breaks its own comments. *)

From S2P Require Import Prelude DagModel DagValidator DagCorrect DagExecutor DagExecInv DagExecTerm DagExecOrder DagExecSmooth.
Import DagModel DagValidator DagExecutor.

Definition quick : gchoice unit := mkG 1 1 true None None false.
(** An answer of the dispatcher. *)
Definition reply (x : string) (st : NodeState) : gchoice unit :=
  mkG 1 1 true (Some (mkResult x st None None 0 1 0 0 ∅)) None false.
Definition go_on : mchoice := mkM 1 None None true.
Definition gate_says (err : dag_error) : mchoice := mkM 1 None (Some (sentinel err)) true.

Definition M (n : nat) : list (label unit) := replicate n (LMain go_on).
(** Goroutine [i], up to its call of the dispatcher, and after the answer. *)
Definition calls_out (i : nat) : list (label unit) := replicate 3 (LGo i quick).
Definition finishes (i : nat) : list (label unit) := replicate 5 (LGo i quick).

Definition policy_continue : ExecutionPolicy := mkPolicy FailurePolicyContinue 2 0 0 0.

(** [build] needs [plan]; [lint] stands alone. *)
Definition small : DAG unit := graph [sample_config "plan" [] 1; sample_config "lint" [] 0; sample_config "build" ["plan"] 0].

Definition started (p : ExecutionPolicy) (d : DAG unit) : option (sys unit) :=
  r ← Execute (H := range_id) (H0 := slice_merge_sort) (NewExecutor p d) d None 0;
  match r with Ok s => Some s | Err _ => None end.

Definition runs (p : ExecutionPolicy) (d : DAG unit) (ls : list (label unit)) : option (sys unit) :=
  s ← started p d; run (fun _ => tt) true true true false s ls (H := range_id).

Lemma runs_inv p d ls s' : runs p d ls = Some s' ->
  exists s, Execute (H := range_id) (H0 := slice_merge_sort) (NewExecutor p d) d None 0 = Some (Ok s) /\
    run (H := range_id) (fun _ => tt) true true true false s ls = Some s'.
Proof.
  unfold runs, started. intros (s & E & R)%bind_Some. exists s. split; [|done].
  apply bind_Some in E as ([err|t] & E & [= ->]). exact E.
Qed.

(** What one sees of the end. *)
Definition outcome (s : option (sys unit)) : option (DAGState * list (string * NodeState) * list string) :=
  s ← s;
  match main s with
  | MDone r => Some (DState r, map_to_list (RState <$> DResults r), reverse (calls s).*1)
  | _ => None
  end.

Definition retried : list (label unit) :=
  M 10 ++ calls_out 0 ++ calls_out 1 ++ [LGo 0 (reply "plan" NodeStateFailed)] ++ LGo 0 quick :: finishes 0 ++
  [LGo 1 (reply "lint" NodeStateCancelled)] ++ finishes 1 ++ M 5 ++ [LMain (gate_says ErrLayerRetry)] ++ M 10 ++
  calls_out 2 ++ [LGo 2 (reply "plan" NodeStateSucceeded)] ++ finishes 2 ++ M 13 ++
  calls_out 3 ++ [LGo 3 (reply "build" NodeStateSucceeded)] ++ finishes 3 ++ M 8.

(** The comment on the context of a layer says that a sibling halted by a
    failure is retried like a failed node.  It is not: [resetLayerForRetry]
    leaves a cancelled node as it is.  Here [plan] fails, [lint] is halted, the
    gate asks for a retry and [plan] then succeeds: the graph is reported to
    have succeeded, though [lint] was never run to its end. *)
Theorem retry_keeps_cancelled :
  outcome (runs policy_continue small retried) =
  Some (DAGStateSucceeded, [("build", NodeStateSucceeded); ("lint", NodeStateCancelled); ("plan", NodeStateSucceeded)],
    ["plan"; "lint"; "plan"; "build"]).
Proof. vm_compute. reflexivity. Qed.

(* ------------------------------------------------------------------ *)
(** ** A layer left early *)

Definition policy_single : ExecutionPolicy := mkPolicy FailurePolicyContinue 1 0 0 0.

(** The one place is taken by [plan] when the context ends: the main goroutine
    stops waiting for a place for [lint]. *)
Definition left_early : list (label unit) :=
  M 5 ++ calls_out 0 ++ M 2 ++ [LContext DeadlineExceeded] ++ M 25.
Definition late : list (label unit) := left_early ++ LGo 0 (reply "plan" NodeStateSucceeded) :: finishes 0.

(** What one sees of a node after the end, and of the goroutines. *)
Definition seen (s : option (sys unit)) (x : string) : option (option NodeState * option NodeState * Z) :=
  s ← s;
  match main s with
  | MDone r => Some (RState <$> DResults r !! x, RState <$> nodeResults (exec s) !! x, nodesRunning (exec s))
  | _ => None
  end.

(** [executeLayer] returns from a failed wait for a place without waiting
    for the goroutines it started.  [Execute] can so return while a node still
    runs: the result says [plan] was cancelled, and after the return the node
    goes on, ends well and changes the state of the executor. *)
Theorem execute_leaves_nodes :
  seen (runs policy_single small left_early) "plan" = Some (Some NodeStateCancelled, Some NodeStateCancelled, 1) /\
  seen (runs policy_single small late) "plan" = Some (Some NodeStateCancelled, Some NodeStateSucceeded, 0).
Proof. split; vm_compute; reflexivity. Qed.

(* ------------------------------------------------------------------ *)
(** ** The theorems on these runs *)

(** Every node succeeds at once. *)
Definition all_of (i : nat) (x : string) : list (label unit) := replicate 9 (LGo i (reply x NodeStateSucceeded)).
Definition straight : list (label unit) :=
  M 10 ++ all_of 1 "lint" ++ all_of 0 "plan" ++ M 13 ++ all_of 2 "build" ++ M 8.

Definition two_running : list (label unit) := M 10 ++ calls_out 0 ++ calls_out 1.

(** A run that goes through. *)
Lemma runs_through p d ls : bool_decide (is_Some (runs p d ls)) = true ->
  exists s s', Execute (H := range_id) (H0 := slice_merge_sort) (NewExecutor p d) d None 0 = Some (Ok s) /\
    run (H := range_id) (fun _ => tt) true true true false s ls = Some s' /\ runs p d ls = Some s'.
Proof. intros [s' E]%bool_decide_eq_true. destruct (runs_inv p d ls s' E) as (s & Es & R). by exists s, s'. Qed.

Lemma concurrency_bounded_witness : exists s', runs policy_continue small two_running = Some s' /\
  nodesRunning (exec s') = Z.of_nat (tally counted (gos s')) /\
  (0 < MaxConcurrency (epolicy (exec s')) ->
    Z.of_nat (tally attempting (gos s')) <= Z.of_nat (tally slot (gos s')) <= MaxConcurrency (epolicy (exec s'))).
Proof.
  destruct (runs_through policy_continue small two_running) as (s & s' & E & R & Rs); [vm_compute; reflexivity|].
  exists s'. split; [exact Rs|].
  apply (concurrency_bounded (H := range_id) (H0 := slice_merge_sort) (fun _ => tt) true true true false
    (NewExecutor policy_continue small) small None 0 s two_running s'); [split; reflexivity|exact E|exact R].
Defined.

Lemma execute_finishes_witness : exists s', runs policy_continue small two_running = Some s' /\
  DagExecTerm.finishes (H := range_id) (fun _ => tt) true true true false s'.
Proof.
  destruct (runs_through policy_continue small two_running) as (s & s' & E & R & Rs); [vm_compute; reflexivity|].
  exists s'. split; [exact Rs|].
  apply (execute_finishes (H := range_id) (H0 := slice_merge_sort) (fun _ => tt) true true true false
    (NewExecutor policy_continue small) small None 0 s two_running s'); [split; reflexivity|exact E| |exact R].
  repeat constructor.
Defined.

Lemma dispatch_after_dependencies_witness : exists s', runs policy_continue small straight = Some s' /\
  Forall (fun c => forall p, depends (nodes (edag (exec s'))) c.1 p ->
    exists r, c.2 !! p = Some r /\ RState r = NodeStateSucceeded) (calls s').
Proof.
  destruct (runs_through policy_continue small straight) as (s & s' & E & R & Rs); [vm_compute; reflexivity|].
  exists s'. split; [exact Rs|].
  apply (dispatch_after_dependencies (H := range_id) (H0 := slice_merge_sort) (fun _ => tt) true true true false
    (NewExecutor policy_continue small) small None 0 s straight s'); [discriminate|exact E| |exact R|].
  - repeat constructor.
  - assert (A : abandoned <$> runs policy_continue small straight = Some false) by (vm_compute; reflexivity).
    rewrite Rs in A. by injection A as A.
Defined.


