(* ===== verification/DagScheduler.v ===== *)
(** * The scheduler of task graphs (core/dag/scheduler.go)

    Any number of calls of [Submit] and [SubmitAndWait] share the places of a
    channel and a map of executions; each runs an executor, whose steps are
    those of [DagExecutor], so the whole is one system of goroutines.  A call
    moves from one access to shared state to the next.

    Every call submits a graph object of its own.  The gate and the scope are
    those the scheduler has throughout.  Events, their subscribers and the
    snapshots of [Status], [List] and [Stats] are not modelled. *)

From S2P Require Import Prelude DagModel DagValidator DagFailure DagExecutor.
Import DagModel DagValidator DagExecutor.

Module DagScheduler.
Section Scheduler.
Context {any : Type} (of_int : Z -> any) (dispatching scoped gated waits : bool) `{RangeOrder} `{SliceSort}.

(** [Execution]: the call that registered it, whose graph and executor it
    refers to, and the state and counts of its status. *)
Record DAGStatus := mkStatus { SState : DAGState; NodesTotal : Z; NodesCompleted : Z; SStart : Z }.
Record Execution := mkExecution { xcall : nat; Status : option DAGStatus }.

Inductive answer :=
| AError (err : dag_error) | AContext (err : ctx_error) | AScope | ASubmitted (id : string) | AResult (r : option (DAGResult any)).

(** Where a call is. *)
Inductive place :=
| PSlot                                  (* the select of [acquireDAGSlot] *)
| PValidate                              (* [validateDAG] *)
| PCreate                                (* [createExecutor] *)
| PRegister                              (* [registerExecution] *)
| PSpawn                                 (* [s.scope.Go] of [Submit] *)
| PGiveBack                              (* [releaseDAGSlot] after the scope refused *)
| PForget                                (* and [unregisterExecution] *)
| PBegin                                 (* [executor.Execute] up to its layers *)
| PExec                                  (* its layers *)
| PStatus (r : option (DAGResult any))   (* [updateExecutionStatus] of [Submit] *)
| PUnregister (a : answer)               (* the deferred call of [SubmitAndWait] *)
| PRelease (a : answer)                  (* the deferred [releaseDAGSlot] *)
| PDone (a : answer).

(** The executor of a call, before and after [Execute] has begun. *)
Inductive engine := XNone | XNew (e : Executor any) | XRun (x : DagExecutor.sys any).

(** [cwait]: it is [SubmitAndWait]; [cctx]: how its context has ended;
    [ccancelled]: [Cancel] or [Close] have reached its executor. *)
Record call := mkCall { cdag : DAG any; cwait : bool; cctx : option ctx_error; cengine : engine; ccancelled : bool; cplace : place }.

(** [slots]: the elements in [dagSem]; [closers]: calls of [Close] between the
    flag and the loop; [cancels]: the executions calls of [Cancel] have found
    and not cancelled yet. *)
Record Scheduler := mkScheduler {
  executions : gmap string Execution; maxConcurrentDAGs : nat; slots : nat; defaultPolicy : ExecutionPolicy; sclosed : bool;
  scalls : list call; closers : nat; cancels : list nat }.

Definition NewScheduler (maxConcurrent : Z) (policy : ExecutionPolicy) : Scheduler :=
  mkScheduler ∅ (Z.to_nat (if maxConcurrent <=? 0 then 10 else maxConcurrent)) 0 policy false [] 0 [].

(** The executor of a call moves. *)
Definition with_place (c : call) (p : place) : call := mkCall (cdag c) (cwait c) (cctx c) (cengine c) (ccancelled c) p.
Definition with_engine (c : call) (x : engine) (p : place) : call := mkCall (cdag c) (cwait c) (cctx c) x (ccancelled c) p.
Definition with_dag (c : call) (d : DAG any) (p : place) : call := mkCall d (cwait c) (cctx c) (cengine c) (ccancelled c) p.

Definition with_slots (s : Scheduler) (n : nat) : Scheduler :=
  mkScheduler (executions s) (maxConcurrentDAGs s) n (defaultPolicy s) (sclosed s) (scalls s) (closers s) (cancels s).
Definition with_executions (s : Scheduler) (m : gmap string Execution) : Scheduler :=
  mkScheduler m (maxConcurrentDAGs s) (slots s) (defaultPolicy s) (sclosed s) (scalls s) (closers s) (cancels s).
Definition with_calls (s : Scheduler) (l : list call) : Scheduler :=
  mkScheduler (executions s) (maxConcurrentDAGs s) (slots s) (defaultPolicy s) (sclosed s) l (closers s) (cancels s).
Definition put_call (s : Scheduler) (t : nat) (c : call) : Scheduler := with_calls s (<[t := c]> (scalls s)).

(** [Submit] and [SubmitAndWait] up to their first wait. *)
Definition Submit (s : Scheduler) (d : DAG any) (wait : bool) : Scheduler :=
  let c := mkCall d wait None XNone false (if sclosed s then PDone (AError ErrExecutorClosed) else PSlot) in
  with_calls s (scalls s ++ [c]).

(** The select; with both cases ready it may take either. *)
Definition acquireDAGSlot (s : Scheduler) (t : nat) (c : call) (take : bool) : option Scheduler :=
  if take then
    if (slots s <? maxConcurrentDAGs s)%nat then Some (put_call (with_slots s (S (slots s))) t (with_place c PValidate)) else None
  else
    match cctx c with
    | Some err => Some (put_call s t (with_place c (PDone (AContext err))))
    | None => None
    end.

Definition releaseDAGSlot (s : Scheduler) : option Scheduler :=
  match slots s with O => None | S n => Some (with_slots s n) end.

Definition validateDAG (s : Scheduler) (t : nat) (c : call) : option Scheduler :=
  if validated (cdag c) then Some (put_call s t (with_place c PCreate))
  else
    '(d, verr) ← Validate (cdag c);
    Some (put_call s t (with_dag c d (match verr with Some err => PRelease (AError err) | None => PCreate end))).

Definition createExecutor (s : Scheduler) (t : nat) (c : call) : Scheduler :=
  let policy := if MaxConcurrency (policy (cdag c)) =? 0 then defaultPolicy s else policy (cdag c) in
  put_call s t (with_engine c (XNew (NewExecutor policy (cdag c))) PRegister).

Definition registerExecution (s : Scheduler) (t : nat) (c : call) : Scheduler :=
  put_call (with_executions s (<[id (cdag c) := mkExecution t None]> (executions s))) t
    (with_place c (if negb (cwait c) && scoped then PSpawn else PBegin)).

Definition unregisterExecution (s : Scheduler) (dagID : string) : Scheduler := with_executions s (delete dagID (executions s)).

(** After [Execute]: [Submit] updates the status, [SubmitAndWait] unregisters. *)
Definition executed (c : call) (r : option (DAGResult any)) : place :=
  if cwait c then PUnregister (AResult r) else PStatus r.

(** [Execute] up to its layers; without a result it has failed. *)
Definition beginExecution (s : Scheduler) (t : nat) (c : call) (now : Z) : option Scheduler :=
  match cengine c with
  | XNew e =>
    r ← Execute e (cdag c) (cctx c) now;
    Some (put_call s t (match r with Ok x => with_engine c (XRun x) PExec | Err _ => with_place c (executed c None) end))
  | _ => None
  end.

Definition finishExecution (s : Scheduler) (t : nat) (c : call) : option Scheduler :=
  match cengine c with
  | XRun x => match main x with MDone r => Some (put_call s t (with_place c (executed c (Some r)))) | _ => None end
  | _ => None
  end.

Definition updateExecutionStatus (s : Scheduler) (t : nat) (c : call) (r : option (DAGResult any)) : Scheduler :=
  let s := put_call s t (with_place c (PRelease (ASubmitted (id (cdag c))))) in
  match r with
  | None => s
  | Some r =>
    match executions s !! id (cdag c) with
    | Some x =>
      let st := mkStatus (DState r) (Z.of_nat (size (nodes (cdag c)))) (i64 (i64 (NodesSucceeded r + NodesFailed r) + NodesSkipped r)) (DStart r) in
      with_executions s (<[id (cdag c) := mkExecution (xcall x) (Some st)]> (executions s))
    | None => s
    end
  end.

(** What comes from outside: which case of the select, whether the scope
    accepts the goroutine, the clock. *)
Record choice := mkChoice { c_take : bool; c_accept : bool; c_now : Z }.

Definition step_call (s : Scheduler) (t : nat) (ch : choice) : option Scheduler :=
  c ← scalls s !! t;
  match cplace c with
  | PSlot => acquireDAGSlot s t c (c_take ch)
  | PValidate => validateDAG s t c
  | PCreate => Some (createExecutor s t c)
  | PRegister => Some (registerExecution s t c)
  | PSpawn => Some (put_call s t (with_place c (if c_accept ch then PBegin else PGiveBack)))
  | PGiveBack => s ← releaseDAGSlot s; Some (put_call s t (with_place c PForget))
  | PForget => Some (put_call (unregisterExecution s (id (cdag c))) t (with_place c (PDone AScope)))
  | PBegin => beginExecution s t c (c_now ch)
  | PExec => finishExecution s t c
  | PStatus r => Some (updateExecutionStatus s t c r)
  | PUnregister a => Some (put_call (unregisterExecution s (id (cdag c))) t (with_place c (PRelease a)))
  | PRelease a => s ← releaseDAGSlot s; Some (put_call s t (with_place c (PDone a)))
  | PDone _ => None
  end.

(** [Executor.Cancel]: refused unless it is running. *)
Definition cancelExecutor (c : call) : call * option dag_error :=
  match cengine c with
  | XRun x => let '(x, err) := DagExecutor.Cancel x in (mkCall (cdag c) (cwait c) (cctx c) (XRun x) true (cplace c), err)
  | _ => (mkCall (cdag c) (cwait c) (cctx c) (cengine c) true (cplace c), Some ErrDAGNotRunning)
  end.

(** [Cancel] up to its call of the executor, ... *)
Definition Cancel (s : Scheduler) (dagID : string) : Scheduler * option dag_error :=
  match executions s !! dagID with
  | None => (s, Some ErrDAGNotFound)
  | Some x => (mkScheduler (executions s) (maxConcurrentDAGs s) (slots s) (defaultPolicy s) (sclosed s) (scalls s) (closers s) (cancels s ++ [xcall x]), None)
  end.
(** ... and that call. *)
Definition finishCancel (s : Scheduler) (i : nat) : option Scheduler :=
  t ← cancels s !! i;
  Some (mkScheduler (executions s) (maxConcurrentDAGs s) (slots s) (defaultPolicy s) (sclosed s)
    (alter (fun c => fst (cancelExecutor c)) t (scalls s)) (closers s) (delete i (cancels s))).

(** [Close] sets the flag, ... *)
Definition Close (s : Scheduler) : Scheduler * option dag_error :=
  if sclosed s then (s, Some ErrExecutorClosed)
  else (mkScheduler (executions s) (maxConcurrentDAGs s) (slots s) (defaultPolicy s) true (scalls s) (S (closers s)) (cancels s), None).
(** ... then cancels what is registered, under the lock of the map.  The
    executors are different ones, so the order makes no difference. *)
Definition cancelAll (s : Scheduler) : option Scheduler :=
  match closers s with
  | O => None
  | S n =>
    Some (mkScheduler ∅ (maxConcurrentDAGs s) (slots s) (defaultPolicy s) (sclosed s)
      (foldl (fun l (x : string * Execution) => alter (fun c => fst (cancelExecutor c)) (xcall x.2) l) (scalls s) (map_to_list (executions s)))
      n (cancels s))
  end.

(** The steps of an executor by itself. *)
Definition internal (l : DagExecutor.label any) : bool := match l with LMain _ | LGo _ _ | LSweep _ _ => true | _ => false end.

Definition step_engine (s : Scheduler) (t : nat) (l : DagExecutor.label any) : option Scheduler :=
  c ← scalls s !! t;
  match cengine c with
  | XRun x =>
    if internal l then
      x ← DagExecutor.step of_int dispatching scoped gated waits x l; Some (put_call s t (with_engine c (XRun x) (cplace c)))
    else None
  | _ => None
  end.

(** The context of a call ends, and with it that of its execution. *)
Definition endContext (s : Scheduler) (t : nat) (err : ctx_error) : option Scheduler :=
  c ← scalls s !! t;
  let c' := mkCall (cdag c) (cwait c) (Some (default err (cctx c)))
    (match cengine c with
     | XRun x => XRun (DagExecutor.with_exec x (end_ctx (exec x) err))
     | e => e
     end) (ccancelled c) (cplace c) in
  Some (put_call s t c').

Inductive label :=
| LSubmit (d : DAG any) (wait : bool) | LCall (t : nat) (ch : choice) | LEngine (t : nat) (l : DagExecutor.label any)
| LContextEnds (t : nat) (err : ctx_error) | LCancel (dagID : string) | LFinishCancel (i : nat) | LClose | LCancelAll.

Definition step (s : Scheduler) (l : label) : option Scheduler :=
  match l with
  | LSubmit d wait => Some (Submit s d wait)
  | LCall t ch => step_call s t ch
  | LEngine t l => step_engine s t l
  | LContextEnds t err => endContext s t err
  | LCancel dagID => Some (fst (Cancel s dagID))
  | LFinishCancel i => finishCancel s i
  | LClose => Some (fst (Close s))
  | LCancelAll => cancelAll s
  end.

Definition run (s : Scheduler) (ls : list label) : option Scheduler := foldl (fun o l => s ← o; step s l) (Some s) ls.
End Scheduler.
Arguments call : clear implicits.
Arguments Scheduler : clear implicits.
Arguments label : clear implicits.
Arguments engine : clear implicits.
Arguments place : clear implicits.
Arguments answer : clear implicits.
End DagScheduler.
