(* ===== verification/DagSchedProof.v ===== *)
(** * Many executions at once (core/dag/scheduler.go)

    The places of the scheduler are exact, and what holds of one execution
    holds of each of those that run side by side. *)

From S2P Require Import Prelude DagModel DagValidator KahnSort DagLayers DagCorrect DagFailure DagExecutor DagExecInv DagExecOrder DagScheduler.
From S2P Require DagExecCases.
Import DagModel DagValidator DagExecutor.
Import DagScheduler.

Module DagSchedProof.
(** One that counts makes the count positive. *)
Lemma tally_some {A} (f : A -> bool) l i x : l !! i = Some x -> f x = true -> (0 < tally f l)%nat.
Proof.
  intros E Fx. unfold tally. assert (I : x ∈ filter (fun y => f y = true) l) by (apply list_elem_of_filter; split; [done|by eapply list_elem_of_lookup_2]).
  destruct (filter _ l); [by apply not_elem_of_nil in I|cbn; lia].
Qed.

Section Proof.
Context {any : Type} (of_int : Z -> any) (dispatching scoped gated waits : bool) `{RangeOrder} `{SliceSort}.
#[local] Abbreviation step := (DagScheduler.step of_int dispatching scoped gated waits).
#[local] Abbreviation run := (DagScheduler.run of_int dispatching scoped gated waits).
#[local] Abbreviation estep := (DagExecutor.step of_int dispatching scoped gated waits).

(** It has a place in the channel. *)
Definition holding (c : call any) : bool :=
  match cplace c with PSlot | PForget | PDone _ => false | _ => true end.
Definition executing (c : call any) : bool := match cplace c with PExec => true | _ => false end.
Definition done_ (c : call any) : bool := match cplace c with PDone _ => true | _ => false end.

(** What goes with the place of a call. *)
Definition placed (c : call any) : Prop :=
  match cplace c with
  | PSlot | PValidate | PCreate => cengine c = XNone
  | PRegister | PSpawn | PGiveBack | PForget | PBegin => exists e, cengine c = XNew e
  | PExec => exists x, cengine c = XRun x
  | _ => True
  end.
Definition checked (c : call any) : Prop :=
  match cplace c with
  | PCreate | PRegister | PSpawn | PGiveBack | PForget | PBegin => validated (cdag c) = true
  | _ => True
  end.
Definition engine_ok (c : call any) : Prop :=
  match cengine c with
  | XNone => True
  | XNew e => fresh e /\ closed e = false /\ estate e = DAGStatePending
  | XRun x => slots_ok x /\ (ccancelled c = false -> abandoned x = false -> orderly x)
  end.
Record call_ok (c : call any) : Prop := {
  co_planned : validated (cdag c) = true -> planned (cdag c);
  co_placed : placed c;
  co_checked : checked c;
  co_engine : engine_ok c }.

Record places_ok (m : nat) (s : Scheduler any) : Prop := {
  po_max : maxConcurrentDAGs s = m;
  po_slots : slots s = tally holding (scalls s);
  po_cap : (slots s <= m)%nat;
  po_calls : Forall call_ok (scalls s) }.

(** The fields of the state after a call has moved. *)
#[local] Ltac fields :=
  unfold createExecutor, registerExecution, unregisterExecution, put_call, with_slots, with_executions, with_calls; cbv zeta;
  cbn [executions maxConcurrentDAGs slots defaultPolicy sclosed scalls closers cancels].

(** A call that moves, and what it does to the places. *)
Lemma put_ok m s t c c' n : places_ok m s -> scalls s !! t = Some c -> call_ok c' -> (n <= m)%nat ->
  (n + Nat.b2n (holding c) = slots s + Nat.b2n (holding c'))%nat ->
  forall ex dp cl cs cn, places_ok m (mkScheduler ex m n dp cl (<[t := c']> (scalls s)) cs cn).
Proof.
  intros [Em Es Cap F] E K Ln En ex dp cl cs cn.
  constructor; cbn [maxConcurrentDAGs slots scalls]; [done| |done|by apply Forall_insert].
  pose proof (tally_insert holding (scalls s) t c c' E). lia.
Qed.

(** When it keeps its place. *)
Lemma move_ok m s t c c' : places_ok m s -> scalls s !! t = Some c -> call_ok c' -> holding c' = holding c ->
  forall ex dp cl cs cn, places_ok m (mkScheduler ex m (slots s) dp cl (<[t := c']> (scalls s)) cs cn).
Proof. intros W E K Eh. apply (put_ok m s t c c' (slots s) W E K); [apply W|by rewrite Eh]. Qed.

Lemma call_ok_at m s t c : places_ok m s -> scalls s !! t = Some c -> call_ok c.
Proof. intros W E. pose proof (po_calls _ _ W) as F. rewrite Forall_forall in F. apply F. by eapply list_elem_of_lookup_2. Qed.

(** Validation plans the graph or refuses it. *)
Lemma validated_planned (d : DAG any) : validated d = false -> exists d' verr, Validate d = Some (d', verr) /\
  (validated d' = true -> planned d') /\ (verr = None -> validated d' = true).
Proof.
  intros V. destruct (Validate_outcome d) as [[E ?]|[(E & ? & ?)|(? & ? & [[E ?]|(d2 & E & ? & Vd & S)])]].
  - exists d, (Some ErrEmptyDAG). split; [done|]. split; [congruence|done].
  - exists d, (Some ErrMissingDependency). split; [done|]. split; [congruence|done].
  - eexists _, _. split; [done|]. split; [|done]. cbn. congruence.
  - exists d2, None. split; [done|]. split; [|done]. intros _. by eapply schedule_planned.
Qed.

Lemma submit_ok m s d wait : places_ok m s -> (validated d = true -> planned d) -> places_ok m (Submit s d wait).
Proof.
  intros [Em Es Cap F] P. unfold Submit. constructor; cbn [with_calls maxConcurrentDAGs slots scalls]; [done| |done|].
  - rewrite tally_app, tally_one, Es. unfold holding. cbn. destruct (sclosed s); cbn; lia.
  - apply Forall_app. split; [done|]. constructor; [|constructor]. constructor; cbn; try done; by destruct (sclosed s).
Qed.

(** What an executor does by itself. *)
Lemma engine_step (x x' : DagExecutor.sys any) l (b : bool) : slots_ok x -> (b = false -> abandoned x = false -> orderly x) -> undisturbed l = true ->
  estep x l = Some x' -> slots_ok x' /\ (b = false -> abandoned x' = false -> orderly x').
Proof.
  intros Sl Or U E. split; [by eapply step_slots|]. intros Eb Ab. eapply step_orderly; [|exact U|exact E|exact Ab].
  apply Or; [done|]. by eapply abandoned_mono.
Qed.

Lemma begin_ok (e : Executor any) d c now x : fresh e -> (validated d = true -> planned d) ->
  Execute e d c now = Some (Ok x) -> slots_ok x /\ orderly x.
Proof. intros F P E. split; [by eapply start_slots|by eapply start_orderly]. Qed.

(** Once the graph is validated and the executor new, [Execute] begins. *)
Lemma Execute_begins (e : Executor any) d c now : validated d = true -> closed e = false -> estate e = DAGStatePending ->
  exists x, Execute e d c now = Some (Ok x).
Proof.
  intros V C P. unfold Execute, validateExecution, initializeExecution. rewrite C, V. cbn.
  rewrite bool_decide_eq_false_2 by (rewrite P; discriminate). by eexists.
Qed.

(** A call keeps its invariant when only its place moves. *)
Lemma with_place_ok c p : call_ok c -> placed (with_place c p) -> checked (with_place c p) -> call_ok (with_place c p).
Proof. intros [A B C D]. by constructor. Qed.

Lemma release_ok m s t c p s' : places_ok m s -> scalls s !! t = Some c -> holding c = true -> call_ok (with_place c p) ->
  holding (with_place c p) = false -> (s1 ← releaseDAGSlot s; Some (put_call s1 t (with_place c p))) = Some s' -> places_ok m s'.
Proof.
  intros W E Hc K Hp St. unfold releaseDAGSlot in St. destruct (slots s) as [|n] eqn:Es; [done|]. cbn in St. injection St as <-.
  fields. rewrite (po_max _ _ W). apply (put_ok m s t c _ n W E K); [pose proof (po_cap _ _ W); lia|]. rewrite Hc, Hp, Es. cbn. lia.
Qed.

Lemma call_moves m s t ch s' : places_ok m s -> step_call scoped s t ch = Some s' -> places_ok m s'.
Proof.
  intros W St. unfold step_call in St. apply bind_Some in St as (c & E & St). pose proof (call_ok_at m s t c W E) as K.
  pose proof K as [Kp Kl Kc Ke]. pose proof (po_max _ _ W) as Em. unfold placed, checked, engine_ok in *.
  assert (Hc : holding c = match cplace c with PSlot | PForget | PDone _ => false | _ => true end) by done.
  destruct (cplace c) as [| | | | | | | | |r|a|a|a] eqn:Ep.
  - unfold acquireDAGSlot in St. destruct (c_take ch).
    + destruct (Nat.ltb_spec (slots s) (maxConcurrentDAGs s)); [|done]. injection St as <-. fields. rewrite Em.
      apply (put_ok m s t c _ _ W E); [by apply with_place_ok|lia|]. rewrite Hc. cbn. lia.
    + destruct (cctx c); [|done]. injection St as <-. fields. rewrite Em. by apply (move_ok m s t c); [done|done|apply with_place_ok|rewrite Hc].
  - unfold validateDAG in St. destruct (validated (cdag c)) eqn:V.
    + injection St as <-. fields. rewrite Em. by apply (move_ok m s t c); [done|done|apply with_place_ok|rewrite Hc].
    + destruct (validated_planned (cdag c) V) as (d' & verr & Ev & P1 & P2). rewrite Ev in St. injection St as <-. fields. rewrite Em.
      apply (move_ok m s t c); [done|done| |rewrite Hc; by destruct verr].
      constructor; unfold placed, checked, engine_ok; cbn; [done|by destruct verr|destruct verr; [done|by apply P2]|by rewrite Kl].
  - injection St as <-. fields. rewrite Em. apply (move_ok m s t c); [done|done| |by rewrite Hc].
    constructor; unfold placed, checked, engine_ok; cbn; [done|by eexists|done|by split].
  - injection St as <-. fields. rewrite Em. destruct Kl as [e Kl].
    apply (move_ok m s t c); [done|done| |rewrite Hc; cbn; by destruct (negb _ && _)].
    apply with_place_ok; [done|..]; unfold placed, checked; cbn; destruct (negb _ && _); try done; by exists e.
  - injection St as <-. fields. rewrite Em. destruct Kl as [e Kl]. apply (move_ok m s t c); [done|done| |rewrite Hc; cbn; by destruct (c_accept ch)].
    apply with_place_ok; [done|..]; unfold placed, checked; cbn; destruct (c_accept ch); try done; by exists e.
  - apply (release_ok m s t c PForget s' W E); [done| |done|done]. by apply with_place_ok.
  - injection St as <-. fields. rewrite Em. by apply (move_ok m s t c); [done|done|apply with_place_ok|rewrite Hc].
  - unfold beginExecution in St. destruct Kl as [e Kl]. rewrite Kl in St, Ke. destruct Ke as (Fr & Cl & Pe).
    destruct (Execute_begins e (cdag c) (cctx c) (c_now ch) Kc Cl Pe) as [x Ex]. rewrite Ex in St. injection St as <-. fields. rewrite Em.
    destruct (begin_ok e (cdag c) _ _ x Fr Kp Ex) as [S1 S2]. apply (move_ok m s t c); [done|done| |by rewrite Hc].
    constructor; unfold placed, checked, engine_ok; cbn; [done|by eexists|done|by split].
  - unfold finishExecution in St. destruct Kl as [x Kl]. rewrite Kl in St. destruct (main x); try done. injection St as <-. fields. rewrite Em.
    apply (move_ok m s t c); [done|done| |rewrite Hc; unfold executed; cbn; by destruct (cwait c)].
    apply with_place_ok; [done|..]; unfold placed, checked, executed; cbn; by destruct (cwait c).
  - injection St as <-. unfold updateExecutionStatus. assert (G : forall ex, places_ok m (mkScheduler ex m (slots s) (defaultPolicy s) (sclosed s)
        (<[t := with_place c (PRelease (ASubmitted (id (cdag c))))]> (scalls s)) (closers s) (cancels s))).
    { intros ex. apply (move_ok m s t c); [done|done|by apply with_place_ok|by rewrite Hc]. }
    destruct r as [r|]; [|fields; rewrite Em; apply G]. fields. destruct (executions s !! id (cdag c)); fields; rewrite Em; apply G.
  - injection St as <-. fields. rewrite Em. by apply (move_ok m s t c); [done|done|apply with_place_ok|rewrite Hc].
  - apply (release_ok m s t c (PDone a) s' W E); [done| |done|done]. by apply with_place_ok.
  - done.
Qed.

(** Cancelling an executor. *)
Lemma cancel_call c : call_ok c -> call_ok (fst (cancelExecutor c)) /\ holding (fst (cancelExecutor c)) = holding c.
Proof.
  intros [Kp Kl Kc Ke]. unfold cancelExecutor, placed, checked, engine_ok, holding in *. destruct (cengine c) as [|e|x] eqn:Ex; cbn.
  - split; [|done]. constructor; unfold placed, checked, engine_ok; cbn; done.
  - split; [|done]. constructor; unfold placed, checked, engine_ok; cbn; done.
  - destruct (DagExecutor.Cancel x) as [x' err] eqn:Ec. cbn. split; [|done]. destruct Ke as [Sl _].
    assert (Sl' : slots_ok x') by (apply (step_slots of_int dispatching scoped gated waits x DagExecutor.LCancel x' Sl); cbn; by rewrite Ec).
    constructor; unfold placed, checked, engine_ok; cbn; [done| |done|by split].
    destruct (cplace c); try done; destruct Kl as [? ?]; first [congruence|by eexists].
Qed.

Lemma alter_tally (f : call any -> call any) t l : (forall c, c ∈ l -> holding (f c) = holding c) -> tally holding (alter f t l) = tally holding l.
Proof.
  revert t. induction l as [|c l IH]; intros t K; [done|]. destruct t as [|t]; unfold alter; cbn [list_alter]; rewrite !tally_cons.
  - by rewrite K by left.
  - change (list_alter f t l) with (alter f t l). rewrite IH; [done|]. intros c' I. apply K. by right.
Qed.

Lemma cancel_at l t : Forall call_ok l -> Forall call_ok (alter (fun c => fst (cancelExecutor c)) t l) /\
  tally holding (alter (fun c => fst (cancelExecutor c)) t l) = tally holding l.
Proof.
  intros F. rewrite Forall_forall in F. split.
  - apply Forall_forall. intros c [i E]%list_elem_of_lookup. destruct (decide (i = t)) as [->|N].
    + rewrite list_lookup_alter_eq in E. apply fmap_Some in E as (c0 & E & ->). apply cancel_call, F. by eapply list_elem_of_lookup_2.
    + rewrite list_lookup_alter_ne in E by done. apply F. by eapply list_elem_of_lookup_2.
  - apply alter_tally. intros c I. by apply cancel_call, F.
Qed.

Lemma cancel_each (xs : list (string * Execution)) l : Forall call_ok l ->
  let l' := foldl (fun l (x : string * Execution) => alter (fun c => fst (cancelExecutor c)) (xcall x.2) l) l xs in
  Forall call_ok l' /\ tally holding l' = tally holding l.
Proof.
  cbn zeta. revert l. induction xs as [|x xs IH]; intros l F; [done|]. cbn [foldl]. destruct (cancel_at l (xcall x.2) F) as [F' E'].
  destruct (IH _ F') as [F2 E2]. split; [done|]. by rewrite E2.
Qed.

(** The graphs submitted as validated were left so by the validator. *)
Definition proper (l : label any) : Prop := match l with LSubmit d _ => validated d = true -> planned d | _ => True end.

Lemma sched_step_ok m s l s' : places_ok m s -> proper l -> step s l = Some s' -> places_ok m s'.
Proof.
  intros W P St. pose proof W as [Em Es Cap F]. destruct l as [d wait|t ch|t l|t err|dagID|i| |]; cbn [DagScheduler.step] in St.
  - injection St as <-. by apply submit_ok.
  - by eapply call_moves.
  - unfold step_engine in St. apply bind_Some in St as (c & E & St). pose proof (call_ok_at m s t c W E) as [Kp Kl Kc Ke].
    unfold engine_ok in Ke. destruct (cengine c) as [|e|x] eqn:Ex; try done. destruct (internal l) eqn:Il; [|done].
    apply bind_Some in St as (x' & Et & [= <-]). destruct Ke as [Sl Or].
    destruct (engine_step x x' l (ccancelled c) Sl Or) as [Sl' Or']; [by destruct l|done|]. fields. rewrite Em.
    apply (move_ok m s t c); [done|done| |done]. constructor; unfold placed, checked, engine_ok; cbn; [done| |done|done].
    unfold placed in Kl. rewrite Ex in Kl. destruct (cplace c); try done; destruct Kl as [? ?]; first [congruence|by eexists].
  - unfold endContext in St. apply bind_Some in St as (c & E & [= <-]). pose proof (call_ok_at m s t c W E) as [Kp Kl Kc Ke].
    fields. rewrite Em. apply (move_ok m s t c); [done|done| |done]. unfold engine_ok, placed in *.
    destruct (cengine c) as [|e|x] eqn:Ex; (constructor; unfold placed, checked, engine_ok; cbn; [done| |done|]); try done.
    + destruct (cplace c); try done; destruct Kl as [? ?]; first [congruence|by eexists].
    + destruct Ke as [Sl Or]. exact (engine_step x (with_exec x (end_ctx (exec x) err)) (LContext err) (ccancelled c) Sl Or eq_refl eq_refl).
  - injection St as <-. unfold Cancel. destruct (executions s !! dagID); [|done]. by constructor.
  - unfold finishCancel in St. apply bind_Some in St as (t & E & [= <-]). destruct (cancel_at (scalls s) t F) as [F' E'].
    constructor; cbn [maxConcurrentDAGs slots scalls]; [done|by rewrite E'|done|done].
  - injection St as <-. unfold Close. destruct (sclosed s); [done|]. by constructor.
  - unfold cancelAll in St. destruct (closers s); [done|]. injection St as <-. destruct (cancel_each (map_to_list (executions s)) (scalls s) F) as [F' E'].
    constructor; cbn [maxConcurrentDAGs slots scalls]; [done|by rewrite E'|done|done].
Qed.

Definition capacity (maxConcurrent : Z) : nat := Z.to_nat (if maxConcurrent <=? 0 then 10 else maxConcurrent).

Lemma sched_run_ok n p ls s : Forall proper ls -> run (NewScheduler n p) ls = Some s -> places_ok (capacity n) s.
Proof.
  unfold DagScheduler.run. revert s. induction ls as [|l ls IH] using rev_ind; intros s P E.
  - injection E as <-. constructor; cbn; [done|done|lia|constructor].
  - apply Forall_app in P as [P Pl]. apply Forall_cons in Pl as [Pl _]. rewrite foldl_app in E. cbn [foldl] in E. apply bind_Some in E as (s1 & E1 & E2).
    apply (sched_step_ok _ s1 l); [by apply IH|done|done].
Qed.

(** C15: whatever is submitted, cancelled and closed and however the goroutines
    interleave: the places taken are exactly those of the calls between
    acquiring and giving back, never more than the scheduler was made with,
    and none once all calls have returned; a call that waits for a place gets
    one as soon as one is free, and a call that holds one always goes on,
    except that it waits for its own execution. *)
Theorem dag_places_exact n p ls s : Forall proper ls -> run (NewScheduler n p) ls = Some s ->
  slots s = tally holding (scalls s) /\ (slots s <= capacity n)%nat /\
  (Forall (fun c => done_ c = true) (scalls s) -> slots s = O) /\
  (forall t c, scalls s !! t = Some c -> holding c = true \/ cplace c = PSlot /\ (slots s < capacity n)%nat ->
     cplace c = PExec \/ exists s', step s (LCall t (mkChoice true true 0)) = Some s') /\
  (forall t c, scalls s !! t = Some c -> cplace c = PExec ->
     exists x, cengine c = XRun x /\ forall r, main x = MDone r -> exists s', step s (LCall t (mkChoice true true 0)) = Some s').
Proof.
  intros P R. pose proof (sched_run_ok n p ls s P R) as W. pose proof W as [Em Es Cap F]. split; [done|]. split; [done|]. split; [|split].
  - intros D. rewrite Es. clear -D. induction D as [|c l D _ IH]; [done|]. rewrite tally_cons, IH. unfold done_, holding in *. by destruct (cplace c).
  - intros t c E Hc. destruct (call_ok_at _ s t c W E) as [Kp Kl Kc Ke]. cbn [DagScheduler.step]. unfold step_call. rewrite E. cbn [mbind option_bind].
    assert (Rl : holding c = true -> exists s1, releaseDAGSlot s = Some s1).
    { intros H1. unfold releaseDAGSlot. destruct (slots s) eqn:Z0; [|by eexists]. exfalso.
      pose proof (tally_some holding (scalls s) t c E H1). lia. }
    unfold holding, placed, checked, engine_ok in *. destruct (cplace c) eqn:Ep; try (by left); right; try by eexists.
    + unfold acquireDAGSlot. cbn [c_take]. rewrite Em. destruct (Nat.ltb_spec (slots s) (capacity n)); [by eexists|]. destruct Hc as [|[_ ?]]; [done|lia].
    + unfold validateDAG. destruct (validated (cdag c)) eqn:V; [by eexists|]. destruct (validated_planned (cdag c) V) as (d' & verr & -> & _). by eexists.
    + destruct (Rl eq_refl) as [s1 ->]. by eexists.
    + unfold beginExecution. destruct Kl as [e Kl]. rewrite Kl in *. destruct Ke as (Fr & Cl & Pe).
      destruct (Execute_begins e (cdag c) (cctx c) 0 Kc Cl Pe) as [x Ex]. cbn [c_now]. rewrite Ex. by eexists.
    + destruct (Rl eq_refl) as [s1 ->]. by eexists.
    + by destruct Hc as [|[? _]].
  - intros t c E Ep. pose proof (co_placed c (call_ok_at _ s t c W E)) as Kl. unfold placed in Kl. rewrite Ep in Kl. destruct Kl as [x Kl]. exists x. split; [done|].
    intros r Er. cbn [DagScheduler.step]. unfold step_call. rewrite E. cbn [mbind option_bind]. rewrite Ep. unfold finishExecution. rewrite Kl, Er. by eexists.
Qed.

(** The nodes an execution works on at once. *)
Definition working (c : call any) : nat := match cengine c with XRun x => tally attempting (gos x) | _ => 0 end.
Definition total (l : list (call any)) : nat := foldr (fun c n => working c + n)%nat O (filter (fun c => executing c = true) l).
Definition bounded_by (k : Z) (c : call any) : Prop :=
  executing c = true -> forall x, cengine c = XRun x -> 0 < MaxConcurrency (epolicy (exec x)) <= k.

(** The executions under way are never more than the scheduler was made
    with, and the goroutines that work on nodes of them are bounded by that
    times the largest concurrency their policies allow. *)
Theorem total_concurrency_bounded n p ls s k : Forall proper ls -> run (NewScheduler n p) ls = Some s -> 0 <= k ->
  Forall (bounded_by k) (scalls s) ->
  (tally executing (scalls s) <= capacity n)%nat /\ Z.of_nat (total (scalls s)) <= Z.of_nat (capacity n) * k.
Proof.
  intros P R Hk B. pose proof (sched_run_ok n p ls s P R) as [Em Es Cap F].
  assert (T : (tally executing (scalls s) <= tally holding (scalls s))%nat).
  { apply tally_le. intros c _. unfold executing, holding. by destruct (cplace c). }
  split; [lia|]. assert (K : Z.of_nat (total (scalls s)) <= Z.of_nat (tally executing (scalls s)) * k).
  { clear -F B Hk. induction (scalls s) as [|c l IH]; [done|]. apply Forall_cons in F as [Fc F]. apply Forall_cons in B as [Bc B].
    specialize (IH B F). unfold total in *. rewrite tally_cons. destruct (executing c) eqn:Ec.
    - rewrite filter_cons_True by done. cbn [foldr Nat.b2n]. assert (Wc : Z.of_nat (working c) <= k); [|lia].
      pose proof (co_engine c Fc) as Ke. pose proof (co_placed c Fc) as Kl. unfold engine_ok, placed, executing, working in *.
      destruct (cplace c) eqn:Ep; try done. destruct Kl as [x Ex]. rewrite Ex in *. destruct Ke as [[A _ C] _].
      destruct (Bc ltac:(unfold executing; by rewrite Ep) x Ex) as [B1 B2]. destruct (sem (exec x)) as [j|] eqn:Ej; [|lia].
      assert (tally attempting (gos x) <= tally slot (gos x))%nat; [|lia]. apply tally_le. intros g Hg At. rewrite Forall_forall in C.
      rewrite (proj1 (C g Hg) At). unfold limited. by rewrite Ej.
    - rewrite filter_cons_False by (by rewrite Ec). cbn. lia. }
  nia.
Qed.

(** Side by side with any others, an execution that neither [Cancel] nor
    [Close] has reached, and that left no layer early, has called the
    dispatcher for a node only with successful results of all dependencies. *)
Theorem scheduled_after_dependencies n p ls s t c x : Forall proper ls -> run (NewScheduler n p) ls = Some s ->
  scalls s !! t = Some c -> cengine c = XRun x -> ccancelled c = false -> abandoned x = false ->
  Forall (fun k => forall y, depends (nodes (edag (exec x))) k.1 y ->
    exists r, k.2 !! y = Some r /\ RState r = NodeStateSucceeded) (calls x).
Proof.
  intros P R E Ex Ec Ab. pose proof (sched_run_ok n p ls s P R) as W. pose proof (co_engine c (call_ok_at _ s t c W E)) as Ke.
  unfold engine_ok in Ke. rewrite Ex in Ke. exact (or_calls x (proj2 Ke Ec Ab)).
Qed.
End Proof.
End DagSchedProof.

(** * Runs of the scheduler of task graphs

    Concrete runs of [DagScheduler.step]: several executions side by side, and
    where the scheduler breaks its own comments. *)

Module DagSchedCases.
Import DagExecCases DagSchedProof.

#[local] Abbreviation srun := (DagScheduler.run (H := range_id) (H0 := slice_merge_sort) (fun _ => tt) true true true false).

Definition ch : choice := mkChoice true true 0.
Definition moves (t n : nat) : list (DagScheduler.label unit) := replicate n (LCall t ch).
Definition engine_runs (t : nat) (ls : list (DagExecutor.label unit)) : list (DagScheduler.label unit) := LEngine t <$> ls.

Definition new2 : Scheduler unit := NewScheduler 2 policy_continue.

(** What one sees: the places taken, what is registered and by which call,
    and for each call whether it is executing, whether it has returned and
    whether a cancellation has reached it. *)
Definition view (s : option (Scheduler unit)) : option (nat * list (string * nat) * list (bool * bool * bool)) :=
  s ← s;
  Some (slots s, (fun x : string * Execution => (x.1, xcall x.2)) <$> map_to_list (executions s),
    (fun c => (executing c, done_ c, ccancelled c)) <$> scalls s).

(** [Close] while a submission is between its test of the flag and its
    registration. *)
Definition close_between : list (DagScheduler.label unit) := [LSubmit small false; LClose; LCancelAll] ++ moves 0 6.

(** [Close] is to cancel all running executions; a submission that has
    passed the test of the flag is neither refused nor cancelled: it registers
    itself in the closed scheduler and runs to its end. *)
Theorem close_misses_submission :
  view (srun new2 close_between) = Some (1%nat, [("id", 0%nat)], [(true, false, false)]) /\
  (sclosed <$> srun new2 close_between) = Some true /\
  view (srun new2 (close_between ++ engine_runs 0 straight ++ moves 0 3)) = Some (0%nat, [("id", 0%nat)], [(false, true, false)]).
Proof. split; [vm_compute; reflexivity|]. split; vm_compute; reflexivity. Qed.

(** Two graphs with one identifier: the first is executing when the second,
    submitted with [SubmitAndWait], ends. *)
Definition same_name : list (DagScheduler.label unit) :=
  LSubmit small false :: moves 0 6 ++ LSubmit small true :: moves 1 5 ++ engine_runs 1 straight ++ moves 1 3.

(** The map of executions is not that of the active ones, as [List] says:
    an execution of [Submit] that has ended stays in it, and one that runs is
    taken out when [SubmitAndWait] of a graph with the same identifier ends,
    after which it can not be cancelled. *)
Theorem registry_wrong :
  view (srun new2 (LSubmit small false :: moves 0 6 ++ engine_runs 0 straight ++ moves 0 3)) = Some (0%nat, [("id", 0%nat)], [(false, true, false)]) /\
  view (srun new2 same_name) = Some (1%nat, [], [(true, false, false); (false, true, false)]) /\
  (snd <$> ((fun s => Cancel s "id") <$> srun new2 same_name)) = Some (Some ErrDAGNotFound).
Proof. split; [vm_compute; reflexivity|]. split; vm_compute; reflexivity. Qed.

(* ------------------------------------------------------------------ *)
(** ** The theorems on such runs *)

(** Two executions under way on two places, a third call waits. *)
Definition side_by_side : list (DagScheduler.label unit) :=
  [LSubmit small false; LSubmit small true; LSubmit small false] ++ moves 0 6 ++ moves 1 5 ++ engine_runs 0 two_running ++ engine_runs 1 two_running.

Lemma small_unvalidated : validated small = false.
Proof. reflexivity. Qed.

Lemma submit_proper w : proper (LSubmit small w).
Proof. intros V. rewrite small_unvalidated in V. discriminate V. Qed.

Lemma proper_side : Forall (proper (any := unit)) side_by_side.
Proof.
  unfold side_by_side, moves, engine_runs. repeat apply Forall_app_2; try (apply Forall_replicate; exact I).
  - repeat (constructor; [apply submit_proper|]). constructor.
  - apply Forall_fmap, Forall_true. done.
  - apply Forall_fmap, Forall_true. done.
Qed.

Definition side_state : Scheduler unit := default new2 (srun new2 side_by_side).
Lemma side_runs : srun new2 side_by_side = Some side_state.
Proof. vm_compute. reflexivity. Qed.

Lemma dag_places_exact_witness : view (Some side_state) = Some (2%nat, [("id", 1%nat)], [(true, false, false); (true, false, false); (false, false, false)]) /\
  slots side_state = tally holding (scalls side_state) /\ (slots side_state <= 2)%nat.
Proof.
  split; [vm_compute; reflexivity|].
  destruct (dag_places_exact (H := range_id) (H0 := slice_merge_sort) (fun _ => tt) true true true false 2 policy_continue side_by_side side_state proper_side side_runs)
    as (A & B & _). by split.
Defined.

Definition within (k : Z) (c : call unit) : bool :=
  match cengine c with XRun x => (0 <? MaxConcurrency (epolicy (exec x))) && (MaxConcurrency (epolicy (exec x)) <=? k) | _ => true end.
Lemma within_bounded k l : forallb (within k) l = true -> Forall (bounded_by k) l.
Proof.
  intros F. apply Forall_forall. intros c I. apply list_elem_of_In in I. pose proof (proj1 (forallb_forall _ _) F c I) as B.
  intros _ x Ex. unfold within in B. rewrite Ex in B. apply andb_true_iff in B as [B1 B2]. lia.
Qed.

Lemma total_concurrency_bounded_witness : total (scalls side_state) = 4%nat /\ tally executing (scalls side_state) = 2%nat /\ Z.of_nat (total (scalls side_state)) <= 20.
Proof.
  split; [vm_compute; reflexivity|]. split; [vm_compute; reflexivity|].
  destruct (total_concurrency_bounded (H := range_id) (H0 := slice_merge_sort) (fun _ => tt) true true true false 2 policy_continue side_by_side side_state 10
    proper_side side_runs ltac:(lia)) as [_ B]; [apply within_bounded; vm_compute; reflexivity|]. exact B.
Defined.

(** The second of them goes through while the first is under way. *)
Definition whole : list (DagScheduler.label unit) :=
  [LSubmit small false; LSubmit small true] ++ moves 0 6 ++ moves 1 5 ++ engine_runs 0 two_running ++ engine_runs 1 straight.
Definition whole_state : Scheduler unit := default new2 (srun new2 whole).
Lemma whole_runs : srun new2 whole = Some whole_state.
Proof. vm_compute. reflexivity. Qed.
Lemma proper_whole : Forall (proper (any := unit)) whole.
Proof.
  unfold whole, moves, engine_runs. repeat apply Forall_app_2; try (apply Forall_replicate; exact I).
  - repeat (constructor; [apply submit_proper|]). constructor.
  - apply Forall_fmap, Forall_true. done.
  - apply Forall_fmap, Forall_true. done.
Qed.

Lemma scheduled_after_dependencies_witness : exists c x, scalls whole_state !! 1%nat = Some c /\ cengine c = XRun x /\ (calls x).*1 = ["build"; "plan"; "lint"] /\ Forall (fun k => forall y, depends (nodes (edag (exec x))) k.1 y ->
    exists r, k.2 !! y = Some r /\ RState r = NodeStateSucceeded) (calls x).
Proof.
  destruct (scalls whole_state !! 1%nat) as [c|] eqn:Ec; [|vm_compute in Ec; discriminate Ec].
  assert (K : exists x, cengine c = XRun x /\ ccancelled c = false /\ abandoned x = false /\ (calls x).*1 = ["build"; "plan"; "lint"]).
  { assert (B : (match cengine c with XRun x => negb (ccancelled c) && negb (abandoned x) && bool_decide ((calls x).*1 = ["build"; "plan"; "lint"])
      | _ => false end) = true).
    { transitivity (match scalls whole_state !! 1%nat with Some c => match cengine c with
        XRun x => negb (ccancelled c) && negb (abandoned x) && bool_decide ((calls x).*1 = ["build"; "plan"; "lint"]) | _ => false end | None => false end).
      - by rewrite Ec.
      - vm_compute. reflexivity. }
    destruct (cengine c) as [| |x]; [done|done|]. apply andb_true_iff in B as [[B1 B2]%andb_true_iff B3].
    exists x. split; [done|]. split; [by destruct (ccancelled c)|]. split; [by destruct (abandoned x)|by apply bool_decide_eq_true in B3]. }
  destruct K as (x & Ex & C & Ab & Nm). exists c, x. split; [done|]. split; [done|]. split; [done|].
  exact (scheduled_after_dependencies (H := range_id) (H0 := slice_merge_sort) (fun _ => tt) true true true false 2 policy_continue whole whole_state 1 c x
    proper_whole whole_runs Ec Ex C Ab).
Defined.
End DagSchedCases.
