(* ===== verification/AgentSemaphore.v ===== *)
(** * The counting semaphore of an agent (core/concurrency/agent_semaphore.go)

    Permits with a queue of waiting calls, a limit that can grow and shrink,
    and calls that give up when their context ends.  Each operation of the
    source holds the lock of the semaphore, and is one step; a call of
    [Acquire] that has to wait is three: joining the queue, and then receiving
    from its channel or giving up. *)

From S2P Require Import Prelude.

Module AgentSemaphore.

(** [chans]: the channels made so far, each with whether its buffer of one
    place is full; [waiters]: the queue, of channels. *)
Record agentSemaphore := mkSem { free : Z; limit : Z; waiters : list nat; chans : list bool }.

Definition newAgentSemaphore (limit : Z) : agentSemaphore :=
  let limit := if limit <? 0 then 0 else limit in mkSem limit limit [] [].

Definition TryAcquire (s : agentSemaphore) : agentSemaphore * bool :=
  if 0 <? free s then (mkSem (i64 (free s - 1)) (limit s) (waiters s) (chans s), true) else (s, false).

(** [Acquire] up to its select: the channel it waits on, if it has to wait. *)
Definition enqueue (s : agentSemaphore) : agentSemaphore * option nat :=
  if 0 <? free s then (mkSem (i64 (free s - 1)) (limit s) (waiters s) (chans s), None)
  else (mkSem (free s) (limit s) (waiters s ++ [length (chans s)]) (chans s ++ [false]), Some (length (chans s))).

(** The loop that hands a permit to the first waiter whose channel takes it:
    the queue and channels left, and whether one did. *)
Fixpoint deliver (ws : list nat) (chans : list bool) : list nat * list bool * bool :=
  match ws with
  | [] => ([], chans, false)
  | next :: ws =>
    match chans !! next with
    | Some false => (ws, <[next := true]> chans, true)
    | _ => deliver ws chans
    end
  end.

Definition Release (s : agentSemaphore) : agentSemaphore :=
  let '(ws, cs, sent) := deliver (waiters s) (chans s) in
  if sent then mkSem (free s) (limit s) ws cs
  else
    let f := i64 (free s + 1) in
    mkSem (if limit s <? f then limit s else f) (limit s) ws cs.

(** [removeWaiterLocked] *)
Fixpoint removeWaiter (target : nat) (ws : list nat) : list nat :=
  match ws with
  | [] => []
  | ch :: ws => if Nat.eqb ch target then ws else ch :: removeWaiter target ws
  end.

(** The cases of the select of [Acquire]: a permit arrives, ... *)
Definition receive (s : agentSemaphore) (ch : nat) : option agentSemaphore :=
  match chans s !! ch with
  | Some true => Some (mkSem (free s) (limit s) (waiters s) (<[ch := false]> (chans s)))
  | _ => None
  end.

(** ... or the context has ended. *)
Definition giveUp (s : agentSemaphore) (ch : nat) : agentSemaphore :=
  match chans s !! ch with
  | Some true => Release (mkSem (free s) (limit s) (waiters s) (<[ch := false]> (chans s)))
  | _ => mkSem (free s) (limit s) (removeWaiter ch (waiters s)) (chans s)
  end.

(** The loop of [SetLimit] over the waiters, for [delta] new permits; a
    waiter whose channel is full uses none. *)
Fixpoint handOut (delta : Z) (ws : list nat) (chans : list bool) : Z * list nat * list bool :=
  match ws with
  | [] => (delta, [], chans)
  | next :: rest =>
    if 0 <? delta then
      match chans !! next with
      | Some false => handOut (i64 (delta - 1)) rest (<[next := true]> chans)
      | _ => handOut delta rest chans
      end
    else (delta, ws, chans)
  end.

Definition SetLimit (s : agentSemaphore) (n : Z) : agentSemaphore :=
  let n := if n <? 0 then 0 else n in
  let delta := i64 (n - limit s) in
  if 0 <? delta then
    let '(delta, ws, cs) := handOut delta (waiters s) (chans s) in
    let f := if 0 <? delta then (let f := i64 (free s + delta) in if n <? f then n else f) else free s in
    mkSem f n ws cs
  else if delta <? 0 then
    let f := i64 (free s + delta) in mkSem (if f <? 0 then 0 else f) n (waiters s) (chans s)
  else mkSem (free s) n (waiters s) (chans s).

Definition Limit (s : agentSemaphore) : Z := limit s.
Definition Waiters (s : agentSemaphore) : Z := len (waiters s).

(* ------------------------------------------------------------------ *)
(** ** Callers *)

(** [waiting]: the channels of the calls at their select; [held]: the permits
    callers have and have not given back. *)
Record sys := mkSys { sem : agentSemaphore; waiting : list nat; held : Z }.

Inductive label := LTry | LAcquire | LReceive (ch : nat) | LGiveUp (ch : nat) | LRelease | LSetLimit (n : Z).

(** Callers release only what they hold. *)
Definition step (s : sys) (l : label) : option sys :=
  match l with
  | LTry => let '(m, ok) := TryAcquire (sem s) in Some (mkSys m (waiting s) (if ok then held s + 1 else held s))
  | LAcquire =>
    match enqueue (sem s) with
    | (m, None) => Some (mkSys m (waiting s) (held s + 1))
    | (m, Some ch) => Some (mkSys m (waiting s ++ [ch]) (held s))
    end
  | LReceive ch =>
    if bool_decide (ch ∈ waiting s) then
      m ← receive (sem s) ch; Some (mkSys m (filter (fun c => c <> ch) (waiting s)) (held s + 1))
    else None
  | LGiveUp ch =>
    if bool_decide (ch ∈ waiting s) then Some (mkSys (giveUp (sem s) ch) (filter (fun c => c <> ch) (waiting s)) (held s))
    else None
  | LRelease => if 0 <? held s then Some (mkSys (Release (sem s)) (waiting s) (held s - 1)) else None
  | LSetLimit n => Some (mkSys (SetLimit (sem s) n) (waiting s) (held s))
  end.

Definition run (s : sys) (ls : list label) : option sys := foldl (fun o l => s ← o; step s l) (Some s) ls.

Definition start (limit : Z) : sys := mkSys (newAgentSemaphore limit) [] 0.

(** A permit that was sent and not received. *)
Definition sent (m : agentSemaphore) (ch : nat) : bool := bool_decide (chans m !! ch = Some true).
Definition in_flight (s : sys) : Z := Z.of_nat (tally (sent (sem s)) (waiting s)).
(** All the permits there are. *)
Definition permits (s : sys) : Z := held s + in_flight s + free (sem s).

(* ------------------------------------------------------------------ *)
(** ** The invariant *)

(** The calls that wait are those queued and those a permit was sent to. *)
Record sem_ok (s : sys) : Prop := {
  ok_queue : forall ch, ch ∈ waiters (sem s) <-> ch ∈ waiting s /\ chans (sem s) !! ch = Some false;
  ok_chans : forall ch, ch ∈ waiting s -> is_Some (chans (sem s) !! ch);
  ok_nodup : NoDup (waiters (sem s)) /\ NoDup (waiting s);
  ok_idle : waiters (sem s) <> [] -> free (sem s) = 0;
  ok_range : 0 <= free (sem s) <= limit (sem s) /\ limit (sem s) < two63 - 1;
  ok_held : 0 <= held s
}.

Lemma deliver_ok ws chans : (forall ch, ch ∈ ws -> chans !! ch = Some false) ->
  deliver ws chans = match ws with [] => ([], chans, false) | next :: ws => (ws, <[next := true]> chans, true) end.
Proof. intros K. destruct ws as [|next ws]; [done|]. cbn [deliver]. by rewrite (K next) by by left. Qed.

Lemma elem_removeWaiter ch target ws : NoDup ws -> ch ∈ removeWaiter target ws <-> ch ∈ ws /\ ch <> target.
Proof.
  induction ws as [|c ws IH]; intros N; [set_solver|]. apply NoDup_cons in N as [Nc N]. cbn [removeWaiter].
  destruct (Nat.eqb_spec c target) as [->|Ne]; rewrite ?elem_of_cons, ?IH by done; naive_solver.
Qed.

Lemma removeWaiter_sublist target ws : sublist (removeWaiter target ws) ws.
Proof.
  induction ws as [|c ws IH]; [done|]. cbn [removeWaiter]. destruct (Nat.eqb c target); [by apply sublist_cons|by apply sublist_skip].
Qed.

(** The permits sent do not change where the channels do not. *)
Lemma tally_ext {A} (f g : A -> bool) l : (forall x, x ∈ l -> f x = g x) -> tally f l = tally g l.
Proof. intros K. apply Nat.le_antisymm; apply tally_le; intros x Hx; rewrite (K x Hx); done. Qed.

Lemma tally_without (f : nat -> bool) ch l : NoDup l -> ch ∈ l ->
  (tally f (filter (fun c => c <> ch) l) + Nat.b2n (f ch) = tally f l)%nat.
Proof.
  induction l as [|c l IH]; intros N Hc; [by apply elem_of_nil in Hc|]. apply NoDup_cons in N as [Nc N].
  destruct (decide (c = ch)) as [->|Ne].
  - rewrite filter_cons_False by (intros K; by apply K). rewrite tally_cons. rewrite list_filter_all; [lia|].
    apply Forall_forall. by intros x Hx ->.
  - rewrite filter_cons_True by done. rewrite !tally_cons. apply elem_of_cons in Hc as [->|Hc]; [done|]. specialize (IH N Hc). lia.
Qed.

Lemma tally_mark ws (cs : list bool) ch : NoDup ws -> ch ∈ ws -> cs !! ch = Some false ->
  tally (fun c => bool_decide (<[ch := true]> cs !! c = Some true)) ws =
  S (tally (fun c => bool_decide (cs !! c = Some true)) ws).
Proof.
  intros N Hc Ec. pose proof (tally_without (fun c => bool_decide (<[ch := true]> cs !! c = Some true)) ch ws N Hc) as T1.
  pose proof (tally_without (fun c => bool_decide (cs !! c = Some true)) ch ws N Hc) as T2. cbv beta in T1, T2.
  rewrite list_lookup_insert_eq in T1 by by eapply lookup_lt_Some. rewrite Ec in T2.
  rewrite bool_decide_eq_true_2 in T1 by done. rewrite bool_decide_eq_false_2 in T2 by done. cbn [Nat.b2n] in T1, T2.
  rewrite (tally_ext _ (fun c => bool_decide (cs !! c = Some true)) (filter _ ws)) in T1; [lia|].
  intros c [Nc _]%list_elem_of_filter. by rewrite list_lookup_insert_ne.
Qed.

(* ------------------------------------------------------------------ *)
(** ** Handing out a permit *)

(** Sending a permit to the head of the queue. *)
Lemma send_ok s next ws h : sem_ok s -> 0 <= h -> waiters (sem s) = next :: ws ->
  let s' := mkSys (mkSem 0 (limit (sem s)) ws (<[next := true]> (chans (sem s)))) (waiting s) h in
  sem_ok s' /\ in_flight s' = in_flight s + 1 /\ free (sem s) = 0.
Proof.
  intros [Q C [N1 N2] I R H] Hh Ew s'. subst s'. rewrite Ew in *. pose proof N1 as N1'. apply NoDup_cons in N1' as [Nn N1'].
  destruct (proj1 (Q next) ltac:(by left)) as [Hn En].
  assert (F0 : free (sem s) = 0) by by apply I.
  assert (L : forall ch, <[next := true]> (chans (sem s)) !! ch = if decide (ch = next) then Some true else chans (sem s) !! ch).
  { intros ch. destruct (decide (ch = next)) as [->|Ne]; [rewrite list_lookup_insert_eq; [done|by eapply lookup_lt_Some]|by rewrite list_lookup_insert_ne]. }
  split_and!; [|unfold in_flight, sent; cbn [sem waiting chans]; rewrite (tally_mark _ _ next); [lia|done|done|done]|done].
  split; cbn [sem waiting held free limit waiters chans]; try done; [| |lia].
  - intros ch. rewrite L. specialize (Q ch). rewrite elem_of_cons in Q. destruct (decide (ch = next)) as [->|Ne]; [|naive_solver].
    split; [done|]. by intros [_ [=]].
  - intros ch Hch. rewrite L. destruct (decide (ch = next)); [by eexists|by apply C].
Qed.

Lemma Release_ok s h : sem_ok s -> 0 <= h -> let s' := mkSys (Release (sem s)) (waiting s) h in
  sem_ok s' /\ limit (sem s') = limit (sem s) /\
  match waiters (sem s) with
  | [] => in_flight s' = in_flight s /\ free (sem s') = Z.min (free (sem s) + 1) (limit (sem s))
  | next :: ws => in_flight s' = in_flight s + 1 /\ free (sem s) = 0 /\
    Release (sem s) = mkSem 0 (limit (sem s)) ws (<[next := true]> (chans (sem s)))
  end.
Proof.
  intros S Hh s'. subst s'. pose proof (ok_queue s S) as Q. pose proof (ok_range s S) as R. unfold Release.
  rewrite deliver_ok by (intros ch Hch; by apply Q). destruct (waiters (sem s)) as [|next ws] eqn:Ew.
  - rewrite i64_id by (unfold in_i64, two63 in *; lia). destruct S as [_ C [N1 N2] I _ H].
    destruct (Z.ltb_spec (limit (sem s)) (free (sem s) + 1)); (split; [|split; [done|split; [done|cbn; lia]]]);
      (split; cbn [sem waiting held free limit waiters chans]; try done; [by split; [constructor|]|lia]).
  - destruct (send_ok s next ws h S Hh Ew) as (A & B & F0). rewrite F0. by split_and!.
Qed.

(** The permits and the queue after [handOut]. *)
Lemma handOut_ok s delta : sem_ok s -> 0 <= delta < two63 ->
  let '(d, ws, cs) := handOut delta (waiters (sem s)) (chans (sem s)) in
  let s' := mkSys (mkSem (free (sem s)) (limit (sem s)) ws cs) (waiting s) (held s) in
  sem_ok s' /\ 0 <= d <= delta /\ in_flight s' = in_flight s + (delta - d) /\ (0 < d -> ws = []) /\
  len (waiters (sem s)) = (delta - d) + len ws /\ waiters (sem s) = take (Z.to_nat (delta - d)) (waiters (sem s)) ++ ws.
Proof.
  remember (waiters (sem s)) as q eqn:Ew. revert s delta Ew. induction q as [|next ws IH]; intros s delta Ew S D; cbn [handOut].
  - destruct s as [[f l w c] wt h]. cbn in *. subst w. split_and!; try done; try lia; by destruct (Z.to_nat _).
  - destruct (Z.ltb_spec 0 delta) as [P|P].
    2:{ destruct s as [[f l w c] wt h]. cbn in *. subst w. replace (Z.to_nat (delta - delta)) with 0%nat by lia.
        split_and!; try done; lia. }
    destruct (proj1 (ok_queue s S next) ltac:(rewrite <- Ew; by left)) as [_ En]. rewrite En.
    destruct (send_ok s next ws (held s) S (ok_held s S) (eq_sym Ew)) as (A & B & F0).
    rewrite i64_id by (unfold in_i64, two63 in *; lia).
    set (s1 := mkSys (mkSem 0 (limit (sem s)) ws (<[next:=true]> (chans (sem s)))) (waiting s) (held s)) in *.
    specialize (IH s1 (delta - 1) eq_refl A ltac:(lia)). cbn [s1 sem chans free limit waiting held] in IH.
    destruct (handOut (delta - 1) ws _) as [[d ws'] cs]. rewrite F0. destruct IH as (I1 & I2 & I3 & I4 & I6 & I5).
    split_and!; [done|lia|lia|rewrite I3, B; lia|done|rewrite len_cons; lia|].
    replace (Z.to_nat (delta - d)) with (1 + Z.to_nat (delta - 1 - d))%nat by lia. cbn [take app Nat.add]. by rewrite <- I5.
Qed.

Lemma relimit_ok s f n : sem_ok s -> 0 <= f <= n -> n < two63 - 1 -> (waiters (sem s) <> [] -> f = 0) ->
  sem_ok (mkSys (mkSem f n (waiters (sem s)) (chans (sem s))) (waiting s) (held s)).
Proof. intros [Q C N I R H] Hf Hn K. by split. Qed.

Lemma SetLimit_ok s n : sem_ok s -> n < two63 - 1 -> let s' := mkSys (SetLimit (sem s) n) (waiting s) (held s) in
  sem_ok s' /\ limit (sem s') = Z.max 0 n /\
  if bool_decide (limit (sem s) <= Z.max 0 n) then
    permits s' = permits s + (Z.max 0 n - limit (sem s)) /\
    waiters (sem s) = take (Z.to_nat (in_flight s' - in_flight s)) (waiters (sem s)) ++ waiters (sem s') /\
    in_flight s' - in_flight s = Z.min (len (waiters (sem s))) (Z.max 0 n - limit (sem s))
  else permits s' = permits s - Z.min (free (sem s)) (limit (sem s) - Z.max 0 n) /\ waiters (sem s') = waiters (sem s).
Proof.
  intros S Hn s'. subst s'. unfold SetLimit. pose proof (ok_range s S) as R. pose proof (len_nonneg (waiters (sem s))) as Ln.
  replace (if n <? 0 then 0 else n) with (Z.max 0 n) by (destruct (Z.ltb_spec n 0); lia).
  set (m := Z.max 0 n) in *. assert (Hm : 0 <= m < two63 - 1) by (unfold two63 in *; lia).
  rewrite (i64_id (m - limit (sem s))) by (unfold in_i64, two63 in *; lia). set (delta := m - limit (sem s)).
  destruct (Z.ltb_spec 0 delta) as [P|P].
  - pose proof (handOut_ok s delta S ltac:(unfold two63 in *; lia)) as K. rewrite bool_decide_eq_true_2 by lia.
    destruct (handOut delta _ _) as [[d ws] cs]. destruct K as (A & D & F & W & Lq & T).
    set (f := if 0 <? d then _ else _).
    assert (Ef : f = free (sem s) + d).
    { unfold f. destruct (Z.ltb_spec 0 d); [|lia]. rewrite i64_id by (unfold in_i64, two63 in *; lia). destruct (Z.ltb_spec m (free (sem s) + d)); lia. }
    clearbody f.
    assert (F' : forall x y, in_flight (mkSys (mkSem x y ws cs) (waiting s) (held s)) = in_flight s + (delta - d)) by done.
    split; [|split; [done|]].
    + apply (relimit_ok (mkSys (mkSem (free (sem s)) (limit (sem s)) ws cs) (waiting s) (held s))); [done|lia|lia|].
      cbn [sem waiters]. intros Nw. destruct (Z.ltb_spec 0 d); [by rewrite W in Nw|]. pose proof (ok_idle _ A Nw) as F0. cbn [sem free] in F0. lia.
    + unfold permits. rewrite !F'. cbn [held sem free waiters]. split; [lia|]. split.
      * by replace (in_flight s + (delta - d) - in_flight s) with (delta - d) by lia.
      * destruct (Z.ltb_spec 0 d); [rewrite W in Lq by done; change (len (@nil nat)) with 0 in Lq; lia|]. pose proof (len_nonneg ws). lia.
  - set (f := if delta <? 0 then _ else _).
    assert (E : f = mkSem (Z.max 0 (free (sem s) + delta)) m (waiters (sem s)) (chans (sem s))).
    { unfold f. destruct (Z.ltb_spec delta 0); [rewrite i64_id by (unfold in_i64, two63 in *; lia); destruct (Z.ltb_spec (free (sem s) + delta) 0)|];
        f_equal; lia. }
    rewrite E. clear f E. split; [|split; [done|]].
    + apply relimit_ok; [done|lia|lia|]. intros Nw. pose proof (ok_idle s S Nw). lia.
    + unfold permits. cbn [sem free held waiters]. change (in_flight (mkSys _ _ _)) with (in_flight s). case_bool_decide; [|split; [lia|done]].
      assert (delta = 0) by lia. replace (in_flight s - in_flight s) with 0 by lia. split_and!; [lia|done|lia].
Qed.

(* ------------------------------------------------------------------ *)
(** ** Every step *)

Definition small (l : label) : Prop := match l with LSetLimit n => n < two63 - 1 | _ => True end.

Lemma in_flight_sub s m wt h : chans m = chans (sem s) -> wt = waiting s -> in_flight (mkSys m wt h) = in_flight s.
Proof. intros E ->. unfold in_flight, sent. cbn [sem waiting]. by rewrite E. Qed.

Lemma TryAcquire_ok s : sem_ok s -> 0 < free (sem s) ->
  let s' := mkSys (mkSem (i64 (free (sem s) - 1)) (limit (sem s)) (waiters (sem s)) (chans (sem s))) (waiting s) (held s + 1) in
  sem_ok s' /\ limit (sem s') = limit (sem s) /\ permits s' = permits s.
Proof.
  intros S P s'. subst s'. pose proof (ok_range s S) as R. rewrite i64_id by (unfold in_i64, two63 in *; lia).
  split_and!; [|done|unfold permits; rewrite (in_flight_sub s); [cbn; lia|done|done]].
  destruct S as [Q C N I _ H]. split; cbn [sem waiting held free limit waiters chans]; try done; [|lia|lia].
  intros K. rewrite I in P by done. lia.
Qed.

Lemma enqueue_ok s : sem_ok s -> free (sem s) <= 0 ->
  let ch := length (chans (sem s)) in
  let s' := mkSys (mkSem (free (sem s)) (limit (sem s)) (waiters (sem s) ++ [ch]) (chans (sem s) ++ [false])) (waiting s ++ [ch]) (held s) in
  sem_ok s' /\ limit (sem s') = limit (sem s) /\ permits s' = permits s.
Proof.
  intros [Q C [N1 N2] I R H] P ch s'. subst s'.
  assert (Nw : ch ∉ waiting s) by (intros K; apply C, lookup_lt_is_Some in K; unfold ch in K; lia).
  assert (Old : forall c, c <> ch -> (chans (sem s) ++ [false]) !! c = chans (sem s) !! c).
  { intros c Nc. destruct (decide (c < length (chans (sem s)))%nat); [by apply lookup_app_l|].
    rewrite (proj2 (lookup_ge_None (chans (sem s)) c)) by lia. apply lookup_ge_None. rewrite length_app. cbn. unfold ch in Nc. lia. }
  assert (New : (chans (sem s) ++ [false]) !! ch = Some false) by (unfold ch; by rewrite lookup_app_r, Nat.sub_diag).
  assert (Wi : forall c, c ∈ waiting s -> c <> ch) by (intros c Hc ->; done).
  split; [|split; [done|]].
  - split; cbn [sem waiting held free limit waiters chans]; try done.
    + intros c. rewrite !elem_of_app, !list_elem_of_singleton, Q. destruct (decide (c = ch)) as [->|Nc]; [|rewrite Old by done]; naive_solver.
    + intros c [Hc| ->%list_elem_of_singleton]%elem_of_app; [rewrite Old by (by apply Wi); by apply C|by eexists].
    + split; (apply NoDup_app; split; [done|]; split; [|apply NoDup_singleton]; intros c Hc ->%list_elem_of_singleton); [by apply Q in Hc as [? _]|done].
    + intros _. lia.
  - unfold permits, in_flight. cbn [sem waiting held free]. rewrite tally_app, tally_one. unfold sent at 2. cbn [chans]. rewrite New.
    rewrite bool_decide_eq_false_2 by done. rewrite (tally_ext _ (sent (sem s))); [cbn; lia|].
    intros c Hc. unfold sent. cbn [chans]. by rewrite Old by by apply Wi.
Qed.

(** A call that stops waiting. *)
Lemma leave_ok s ch ws cs h : sem_ok s -> ch ∈ waiting s -> 0 <= h ->
  (forall c, c <> ch -> cs !! c = chans (sem s) !! c) -> (forall c, c ∈ ws <-> c ∈ waiters (sem s) /\ c <> ch) -> NoDup ws ->
  let s' := mkSys (mkSem (free (sem s)) (limit (sem s)) ws cs) (filter (fun c => c <> ch) (waiting s)) h in
  sem_ok s' /\ limit (sem s') = limit (sem s) /\ in_flight s' + Z.b2z (sent (sem s) ch) = in_flight s.
Proof.
  intros [Q C [N1 N2] I R H] Hc Hh Cs Ws Nw s'. subst s'. split; [|split; [done|]].
  - split; cbn [sem waiting held free limit waiters chans]; try done.
    + intros c. rewrite Ws, Q, list_elem_of_filter. split; [intros [[? ?] ?]; by rewrite Cs|intros [[? ?] K]; by rewrite Cs in K].
    + intros c [Nc Hc']%list_elem_of_filter. rewrite Cs by done. by apply C.
    + split; [done|by apply NoDup_filter].
    + intros K. apply I. intros E. apply K. apply elem_of_nil_inv. intros c [Hc' _]%Ws. rewrite E in Hc'. by apply elem_of_nil in Hc'.
  - unfold in_flight. cbn [sem waiting]. pose proof (tally_without (sent (sem s)) ch (waiting s) N2 Hc) as T.
    rewrite (tally_ext _ (sent (sem s))); [destruct (sent (sem s) ch); cbn in *; lia|].
    intros c [Nc _]%list_elem_of_filter. unfold sent. cbn [chans]. by rewrite Cs.
Qed.

Lemma Release_permits s h : sem_ok s -> 0 <= h -> let s' := mkSys (Release (sem s)) (waiting s) h in
  let p := h + in_flight s + free (sem s) + 1 in
  sem_ok s' /\ limit (sem s') = limit (sem s) /\
  (limit (sem s) <= p -> limit (sem s) <= permits s') /\ (limit (sem s) = p -> limit (sem s) = permits s').
Proof.
  intros S Hh s' p. destruct (Release_ok s h S Hh) as (A & B & C). split; [exact A|split; [exact B|]]. fold s' in A, B, C.
  unfold permits. change (held s') with h. pose proof (ok_range s S) as R. assert (0 <= in_flight s) by (unfold in_flight; lia).
  unfold p. destruct (waiters (sem s)) as [|next ws].
  - destruct C as [-> ->]. lia.
  - destruct C as (C1 & C2 & C3). rewrite C1. replace (free (sem s')) with 0; [lia|]. unfold s'. by rewrite C3.
Qed.

(** A call that gives up without a permit. *)
Lemma withdraw_ok s ch : sem_ok s -> ch ∈ waiting s -> chans (sem s) !! ch <> Some true ->
  let s' := mkSys (mkSem (free (sem s)) (limit (sem s)) (removeWaiter ch (waiters (sem s))) (chans (sem s)))
    (filter (fun c => c <> ch) (waiting s)) (held s) in
  sem_ok s' /\ limit (sem s') = limit (sem s) /\ permits s' = permits s.
Proof.
  intros S Hc Ec s'. destruct (leave_ok s ch (removeWaiter ch (waiters (sem s))) (chans (sem s)) (held s)) as (A & B & C); try done.
  - apply (ok_held s S).
  - intros c. apply elem_removeWaiter, (ok_nodup s S).
  - eapply sublist_NoDup; [apply (proj1 (ok_nodup s S))|apply removeWaiter_sublist].
  - split; [exact A|split; [exact B|]]. unfold permits. fold s' in C. change (held s') with (held s). change (free (sem s')) with (free (sem s)).
    unfold sent in C. rewrite bool_decide_eq_false_2 in C by done. cbn [Z.b2z] in C. lia.
Qed.

(** No step loses a permit, and only a shrinking makes more of them than the
    limit allows. *)
Lemma step_ok s l s' : sem_ok s -> small l -> step s l = Some s' ->
  sem_ok s' /\ (limit (sem s) <= permits s -> limit (sem s') <= permits s') /\
  ((match l with LSetLimit n => limit (sem s) <= n | _ => True end) -> limit (sem s) = permits s -> limit (sem s') = permits s').
Proof.
  intros S Sm E. pose proof (ok_range s S) as R. pose proof (ok_held s S) as H. destruct l as [| |ch|ch| |n]; cbn [step] in E.
  - unfold TryAcquire in E. destruct (Z.ltb_spec 0 (free (sem s))) as [P|P]; injection E as <-; [|by destruct s].
    destruct (TryAcquire_ok s S P) as (A & B & C). rewrite B, C. done.
  - unfold enqueue in E. destruct (Z.ltb_spec 0 (free (sem s))) as [P|P]; injection E as <-.
    + destruct (TryAcquire_ok s S P) as (A & B & C). rewrite B, C. done.
    + destruct (enqueue_ok s S P) as (A & B & C). rewrite B, C. done.
  - case_bool_decide as Hc; [|done]. apply bind_Some in E as (m & Er & [= <-]). unfold receive in Er.
    destruct (chans (sem s) !! ch) as [[]|] eqn:Ec; try done. injection Er as <-.
    destruct (leave_ok s ch (waiters (sem s)) (<[ch := false]> (chans (sem s))) (held s + 1)) as (A & B & C); try done; [lia| | |apply (ok_nodup s S)|].
    + intros c Nc. by rewrite list_lookup_insert_ne.
    + intros c. split; [intros Hq; split; [done|]; intros ->; apply (ok_queue s S) in Hq; destruct Hq; congruence|by intros [? _]].
    + split; [exact A|]. assert (Es : sent (sem s) ch = true) by (unfold sent; by apply bool_decide_eq_true). rewrite Es in C. cbn [Z.b2z] in C.
      rewrite B. unfold permits. cbn [held sem free]. split; intros; lia.
  - case_bool_decide as Hc; [|done]. injection E as <-. unfold giveUp. destruct (chans (sem s) !! ch) as [[]|] eqn:Ec.
    + destruct (leave_ok s ch (waiters (sem s)) (<[ch := false]> (chans (sem s))) (held s)) as (A & B & C); try done; [| |apply (ok_nodup s S)|].
      * intros c Nc. by rewrite list_lookup_insert_ne.
      * intros c. split; [intros Hq; split; [done|]; intros ->; apply (ok_queue s S) in Hq; destruct Hq; congruence|by intros [? _]].
      * assert (Es : sent (sem s) ch = true) by (unfold sent; by apply bool_decide_eq_true). rewrite Es in C. cbn [Z.b2z] in C.
        destruct (Release_permits _ (held s) A H) as (D & E1 & E2 & E3). cbn [sem free limit waiting] in E1, E2, E3.
        split; [exact D|]. cbn [sem]. rewrite E1. unfold permits at 1 3. split; [intros K; apply E2; lia|intros _ K; apply E3; lia].
    + destruct (withdraw_ok s ch S Hc ltac:(congruence)) as (A & B & C). rewrite B, C. done.
    + destruct (withdraw_ok s ch S Hc ltac:(congruence)) as (A & B & C). rewrite B, C. done.
  - destruct (Z.ltb_spec 0 (held s)) as [P|P]; [|done]. injection E as <-.
    destruct (Release_permits s (held s - 1) S ltac:(lia)) as (D & E1 & E2 & E3). split; [exact D|]. rewrite E1.
    unfold permits at 1 3. split; [intros K; apply E2; lia|intros _ K; apply E3; lia].
  - injection E as <-. destruct (SetLimit_ok s n S Sm) as (A & B & C). split; [exact A|]. rewrite B.
    case_bool_decide as Hl; destruct C as [C _]; rewrite C; split; intros; lia.
Qed.

Lemma start_ok lim : 0 <= lim < two63 - 1 -> sem_ok (start lim) /\ limit (sem (start lim)) = lim /\ permits (start lim) = lim.
Proof.
  intros L. unfold start, newAgentSemaphore. destruct (Z.ltb_spec lim 0); [lia|]. split; [|split; [done|unfold permits, in_flight, tally; cbn; lia]].
  split; cbn [sem waiting held free limit waiters chans]; try done; try lia.
  - intros ch. split; [by intros K%elem_of_nil|by intros [K%elem_of_nil _]].
  - by intros ch K%elem_of_nil.
  - split; constructor.
Qed.

(** The limits of the calls never fall. *)
Fixpoint grows (lim : Z) (ls : list label) : Prop :=
  match ls with
  | [] => True
  | LSetLimit n :: ls => lim <= n /\ grows n ls
  | _ :: ls => grows lim ls
  end.

Lemma run_cons s l ls : run s (l :: ls) = (s1 ← step s l; run s1 ls).
Proof.
  unfold run. cbn [foldl]. change (mbind (fun s0 => step s0 l) (Some s)) with (step s l). destruct (step s l); [done|]. cbn [mbind option_bind].
  induction ls as [|k ls IH]; [done|exact IH].
Qed.

Lemma step_limit s l s' : step s l = Some s' -> match l with LSetLimit n => limit (sem s') = Z.max 0 n | _ => limit (sem s') = limit (sem s) end.
Proof.
  assert (Re : forall m, limit (Release m) = limit m) by (intros m; unfold Release; destruct (deliver _ _) as [[? ?] []]; done).
  destruct l as [| |ch|ch| |n]; cbn [step]; unfold TryAcquire, enqueue, receive, giveUp; intros E.
  - destruct (0 <? _); by injection E as <-.
  - destruct (0 <? _); by injection E as <-.
  - case_bool_decide; [|done]. apply bind_Some in E as (m & Em & [= <-]). destruct (chans (sem s) !! ch) as [[]|]; try done. by injection Em as <-.
  - case_bool_decide; [|done]. injection E as <-. destruct (chans (sem s) !! ch) as [[]|]; cbn [sem]; rewrite ?Re; done.
  - destruct (0 <? _); [|done]. injection E as <-. apply Re.
  - injection E as <-. unfold SetLimit. cbn [sem]. destruct (0 <? _); [destruct (handOut _ _ _) as [[? ?] ?]|destruct (_ <? 0)]; cbn [limit];
      destruct (Z.ltb_spec n 0); lia.
Qed.

Lemma run_ok s ls s' : sem_ok s -> Forall small ls -> run s ls = Some s' -> limit (sem s) <= permits s ->
  sem_ok s' /\ limit (sem s') <= permits s' /\ (grows (limit (sem s)) ls -> limit (sem s) = permits s -> limit (sem s') = permits s').
Proof.
  revert s. induction ls as [|l ls IH]; intros s S F E L; [injection E as <-; done|]. apply Forall_cons in F as [Fl F].
  rewrite run_cons in E. apply bind_Some in E as (s1 & E1 & E2). destruct (step_ok s l s1 S Fl E1) as (A & B & C).
  destruct (IH s1 A F E2 (B L)) as (A' & B' & C'). split_and!; [done|done|]. intros G P. pose proof (step_limit s l s1 E1) as Sl.
  pose proof (ok_range s S) as R. destruct l as [| |ch|ch| |n]; cbn [grows] in G; apply C'; rewrite ?Sl; try done; try (by rewrite <- Sl; apply C).
  - destruct G as [G1 G2]. by rewrite Z.max_r by lia.
  - rewrite <- Sl. apply C; [apply G|done].
Qed.

(* ------------------------------------------------------------------ *)
(** ** What callers can rely on *)

(** C22: in any interleaving of calls, permits that race with contexts that end,
    and changes of the limit, no permit is lost: what callers hold, what is on
    its way to a waiting call and what is free are at least the limit; and
    while the limit never shrinks they are exactly the limit, so callers never
    hold more. *)
Theorem permits_conserved lim ls s : 0 <= lim < two63 - 1 -> Forall small ls -> run (start lim) ls = Some s ->
  limit (sem s) <= held s + in_flight s + free (sem s) /\ 0 <= free (sem s) <= limit (sem s) /\
  (grows lim ls -> held s + in_flight s + free (sem s) = limit (sem s) /\ 0 <= held s <= limit (sem s)).
Proof.
  intros L F R. destruct (start_ok lim L) as (S & E1 & E2).
  destruct (run_ok (start lim) ls s S F R) as (A & B & C); [lia|]. split; [exact B|]. pose proof (ok_range s A) as Rg. split; [apply Rg|].
  intros G. rewrite E1 in C. specialize (C G ltac:(lia)). unfold permits in C. pose proof (ok_held s A). assert (0 <= in_flight s) by (unfold in_flight; lia).
  lia.
Qed.

(** No call waits while a permit is free, a call that waits is in the
    queue or a permit has been sent to it, and each release serves the call
    that has waited longest; a call that gives up leaves the order of the
    others as it is, and a higher limit serves the first calls of the queue,
    as many as there are new permits. *)
Theorem waiters_served lim ls s : 0 <= lim < two63 - 1 -> Forall small ls -> run (start lim) ls = Some s ->
  (forall ch, ch ∈ waiting s -> sent (sem s) ch = true \/ ch ∈ waiters (sem s) /\ free (sem s) = 0) /\
  (forall ch ws s', waiters (sem s) = ch :: ws -> step s LRelease = Some s' -> sent (sem s') ch = true /\ waiters (sem s') = ws) /\
  (forall ch s', step s (LGiveUp ch) = Some s' -> sent (sem s) ch = false -> sublist (waiters (sem s')) (waiters (sem s))) /\
  (forall n s', limit (sem s) <= n < two63 - 1 -> step s (LSetLimit n) = Some s' ->
    waiters (sem s) = take (Z.to_nat (n - limit (sem s))) (waiters (sem s)) ++ waiters (sem s')).
Proof.
  intros L F R. destruct (start_ok lim L) as (S & E1 & E2). destruct (run_ok (start lim) ls s S F R) as (A & _ & _); [lia|]. split_and!.
  - intros ch Hc. destruct (ok_chans s A ch Hc) as [b Eb]. destruct b; [left; by apply bool_decide_eq_true|right].
    assert (Hq : ch ∈ waiters (sem s)) by by apply (ok_queue s A). split; [done|]. apply (ok_idle s A). intros E. rewrite E in Hq. by apply elem_of_nil in Hq.
  - intros ch ws s' Ew E. cbn [step] in E. destruct (Z.ltb_spec 0 (held s)); [|done]. injection E as <-. cbn [sem].
    pose proof (Release_ok s (held s - 1) A ltac:(lia)) as K. rewrite Ew in K. destruct K as (_ & _ & _ & _ & ->).
    split; [|done]. apply bool_decide_eq_true. cbn [chans]. apply list_lookup_insert_eq.
    destruct (proj1 (ok_queue s A ch) ltac:(rewrite Ew; by left)) as [_ Ec]. by eapply lookup_lt_Some.
  - intros ch s' E N. cbn [step] in E. case_bool_decide; [|done]. injection E as <-. unfold giveUp. unfold sent in N.
    apply bool_decide_eq_false in N. destruct (chans (sem s) !! ch) as [[]|]; [done|..]; apply removeWaiter_sublist.
  - intros n s' Hn E. cbn [step] in E. injection E as <-. pose proof (ok_range s A) as Rg.
    destruct (SetLimit_ok s n A ltac:(lia)) as (_ & _ & C). rewrite Z.max_r in C by lia. rewrite bool_decide_eq_true_2 in C by lia.
    destruct C as (_ & C1 & C2). rewrite C2 in C1. rewrite C1 at 1. f_equal.
    destruct (Z.min_spec (len (waiters (sem s))) (n - limit (sem s))) as [[Lt ->]|[Le ->]]; [|done].
    rewrite !take_ge; [done| |]; unfold len in *; lia.
Qed.

(** The semaphore at rest with [n] permits held. *)
Definition resting (n : Z) : sys := mkSys (mkSem 0 10 [] []) [] n.

Lemma run_app s ls ks : run s (ls ++ ks) = (s1 ← run s ls; run s1 ks).
Proof.
  revert s. induction ls as [|l ls IH]; intros s; [done|]. cbn [app]. rewrite !run_cons. destruct (step s l) as [s1|]; [apply IH|done].
Qed.

Lemma ratchet n : run (resting n) [LSetLimit 5; LSetLimit 10; LTry; LTry; LTry; LTry; LTry] = Some (resting (n + 5)).
Proof. transitivity (Some (resting (n + 1 + 1 + 1 + 1 + 1))); [reflexivity|]. do 2 f_equal. lia. Qed.

(** A limit that shrinks while permits are held takes none of them back,
    although the comment says they are reclaimed on [Release], and when it
    grows again it hands out as many new permits as it grew: with the limit
    never above 10, callers can hold any number of permits. *)
Theorem permits_ratchet (k : nat) : exists ls s,
  run (start 10) ls = Some s /\ Forall (fun l => match l with LSetLimit n => n <= 10 | _ => True end) ls /\
  limit (sem s) = 10 /\ held s = 10 + 5 * Z.of_nat k.
Proof.
  assert (K : exists ls, run (start 10) ls = Some (resting (10 + 5 * Z.of_nat k)) /\
    Forall (fun l => match l with LSetLimit n => n <= 10 | _ => True end) ls).
  { induction k as [|k (ls & R & F)].
    - exists (replicate 10 LTry). split; [reflexivity|]. by apply Forall_replicate.
    - exists (ls ++ [LSetLimit 5; LSetLimit 10; LTry; LTry; LTry; LTry; LTry]). split.
      + rewrite run_app, R. cbn [mbind option_bind]. rewrite ratchet. do 2 f_equal. lia.
      + apply Forall_app. split; [done|]. repeat constructor; lia. }
  destruct K as (ls & R & F). eexists ls, _. split; [exact R|]. done.
Qed.

(** Three calls for one permit: two wait; the first of them gives up, the
    second is served by a release; then the limit grows. *)
Definition queue_calls : list label := [LAcquire; LAcquire; LAcquire; LGiveUp 0; LRelease; LSetLimit 2; LTry].
Definition queued : sys := mkSys (mkSem 0 2 [] [false; true]) [1%nat] 1.
Definition two_wait : sys := mkSys (mkSem 0 1 [0%nat; 1%nat] [false; false]) [0%nat; 1%nat] 1.

Lemma permits_conserved_witness : run (start 1) queue_calls = Some queued /\
  limit (sem queued) <= held queued + in_flight queued + free (sem queued) /\ 0 <= free (sem queued) <= limit (sem queued) /\
  (grows 1 queue_calls -> held queued + in_flight queued + free (sem queued) = limit (sem queued) /\ 0 <= held queued <= limit (sem queued)).
Proof.
  assert (R : run (start 1) queue_calls = Some queued) by (vm_compute; reflexivity). split; [exact R|].
  apply (permits_conserved 1 queue_calls queued); [split; [lia|reflexivity]| |exact R]. repeat constructor.
Defined.

Lemma waiters_served_witness : run (start 1) [LAcquire; LAcquire; LAcquire] = Some two_wait /\
  exists s', step two_wait LRelease = Some s' /\ sent (sem s') 0 = true /\ waiters (sem s') = [1%nat].
Proof.
  assert (R : run (start 1) [LAcquire; LAcquire; LAcquire] = Some two_wait) by (vm_compute; reflexivity). split; [exact R|].
  exists (mkSys (mkSem 0 1 [1%nat] [true; false]) [0%nat; 1%nat] 0). split; [reflexivity|].
  apply (proj1 (proj2 (waiters_served 1 [LAcquire; LAcquire; LAcquire] two_wait ltac:(split; [lia|reflexivity]) ltac:(repeat constructor) R))); reflexivity.
Defined.
End AgentSemaphore.
