(* ===== verification/BoundedOverflow.v ===== *)
(** * The bounded buffer (core/concurrency/bounded_overflow.go)

    A ring of slots with a policy for when it is full.  The operations are
    functions of the buffer, with what they do to its condition variable; an
    access out of range is [None], as the code would panic.  Then the calls of
    any number of goroutines, with the lock, the queue of the condition
    variable and the two unlocked steps of [Close], as labelled steps. *)

From S2P Require Import Prelude.

Module BoundedOverflow.

(** [DropPolicy], an integer of which three values are named. *)
Definition DropOldest : Z := 0.
Definition DropNewest : Z := 1.
Definition Block : Z := 2.

Definition DropPolicy_String (dp : Z) : string :=
  if dp =? DropOldest then "DropOldest" else if dp =? DropNewest then "DropNewest" else if dp =? Block then "Block" else "Unknown".

(** What an operation does to the condition variable. *)
Inductive wake := Nobody | Signal | Broadcast.

Section Buffer.
Context {A : Type} (zero : A).

Record BoundedOverflow := mkBO {
  maxSize : nat; dropPolicy : Z; items : list A; head : nat; tail : nat; count : nat; droppedCount : Z; closed : bool }.

Definition NewBoundedOverflow (maxSize dropPolicy : Z) : BoundedOverflow :=
  let maxSize := Z.to_nat (if maxSize <=? 0 then 1 else maxSize) in
  mkBO maxSize dropPolicy (replicate maxSize zero) 0 0 0 0 false.

(** [bo.items[i] = x] *)
Definition store (l : list A) (i : nat) (x : A) : option (list A) :=
  if (i <? length l)%nat then Some (<[i := x]> l) else None.

(** The item goes to the tail. *)
Definition put (bo : BoundedOverflow) (item : A) : option BoundedOverflow :=
  l ← store (items bo) (tail bo) item;
  Some (mkBO (maxSize bo) (dropPolicy bo) l (head bo) ((tail bo + 1) mod maxSize bo) (count bo + 1) (droppedCount bo) (closed bo)).

(** [bo.droppedCount.Add(1)] *)
Definition drop_one (bo : BoundedOverflow) : BoundedOverflow :=
  mkBO (maxSize bo) (dropPolicy bo) (items bo) (head bo) (tail bo) (count bo) (i64 (droppedCount bo + 1)) (closed bo).

(** The item takes the place of the oldest. *)
Definition overwrite (bo : BoundedOverflow) (item : A) : option BoundedOverflow :=
  l ← store (items bo) (head bo) zero;
  l ← store l (head bo) item;
  let head := ((head bo + 1) mod maxSize bo)%nat in
  Some (drop_one (mkBO (maxSize bo) (dropPolicy bo) l head head (count bo) (droppedCount bo) (closed bo))).

(** [Add] up to its wait: the answer, or none when the call has to wait. *)
Definition Add (bo : BoundedOverflow) (item : A) : option (BoundedOverflow * wake * option bool) :=
  if closed bo then Some (bo, Nobody, Some false)
  else if (count bo <? maxSize bo)%nat then bo ← put bo item; Some (bo, Signal, Some true)
  else if dropPolicy bo =? DropOldest then bo ← overwrite bo item; Some (bo, Signal, Some true)
  else if dropPolicy bo =? DropNewest then Some (drop_one bo, Nobody, Some false)
  else if dropPolicy bo =? Block then Some (bo, Nobody, None)
  else Some (bo, Nobody, Some false).

(** One turn of the loop of [Add] and what follows it: none when it waits
    (again). *)
Definition addLoop (bo : BoundedOverflow) (item : A) : option (BoundedOverflow * wake * option bool) :=
  if (maxSize bo <=? count bo)%nat && negb (closed bo) then Some (bo, Nobody, None)
  else if closed bo then Some (bo, Nobody, Some false)
  else bo ← put bo item; Some (bo, Signal, Some true).

Definition TryAdd (bo : BoundedOverflow) (item : A) : option (BoundedOverflow * wake * bool) :=
  if closed bo then Some (bo, Nobody, false)
  else if (count bo <? maxSize bo)%nat then bo ← put bo item; Some (bo, Signal, true)
  else if dropPolicy bo =? DropOldest then bo ← overwrite bo item; Some (bo, Signal, true)
  else if dropPolicy bo =? DropNewest then Some (drop_one bo, Nobody, false)
  else if dropPolicy bo =? Block then Some (bo, Nobody, false)
  else Some (bo, Nobody, false).

Definition Take (bo : BoundedOverflow) : option (BoundedOverflow * wake * (A * bool)) :=
  if Nat.eqb (count bo) 0 then Some (bo, Nobody, (zero, false))
  else
    item ← items bo !! head bo;
    l ← store (items bo) (head bo) zero;
    Some (mkBO (maxSize bo) (dropPolicy bo) l ((head bo + 1) mod maxSize bo) (tail bo) (count bo - 1) (droppedCount bo) (closed bo),
          Signal, (item, true)).

(** The loop of [Drain], from [i], [n] turns before the end. *)
Fixpoint drainLoop (head maxSize : nat) (n i : nat) (l : list A) : option (list A * list A) :=
  match n with
  | O => Some (l, [])
  | S n =>
    let idx := ((head + i) mod maxSize)%nat in
    x ← l !! idx;
    l ← store l idx zero;
    '(l, result) ← drainLoop head maxSize n (S i) l;
    Some (l, x :: result)
  end.

Definition emptied (bo : BoundedOverflow) (l : list A) : BoundedOverflow :=
  mkBO (maxSize bo) (dropPolicy bo) l 0 0 0 (droppedCount bo) (closed bo).

(** A nil slice for an empty buffer. *)
Definition Drain (bo : BoundedOverflow) : option (BoundedOverflow * wake * list A) :=
  if Nat.eqb (count bo) 0 then Some (bo, Nobody, [])
  else
    '(l, result) ← drainLoop (head bo) (maxSize bo) (count bo) 0 (items bo);
    Some (emptied bo l, Broadcast, result).

Fixpoint clearLoop (head maxSize : nat) (n i : nat) (l : list A) : option (list A) :=
  match n with
  | O => Some l
  | S n => l ← store l ((head + i) mod maxSize) zero; clearLoop head maxSize n (S i) l
  end.

Definition Clear (bo : BoundedOverflow) : option (BoundedOverflow * wake) :=
  l ← clearLoop (head bo) (maxSize bo) (count bo) 0 (items bo);
  Some (emptied bo l, Broadcast).

Definition Peek (bo : BoundedOverflow) : option (A * bool) :=
  if Nat.eqb (count bo) 0 then Some (zero, false) else item ← items bo !! head bo; Some (item, true).

Definition Len (bo : BoundedOverflow) : nat := count bo.
Definition Cap (bo : BoundedOverflow) : nat := maxSize bo.
Definition IsFull (bo : BoundedOverflow) : bool := (maxSize bo <=? count bo)%nat.
Definition IsEmpty (bo : BoundedOverflow) : bool := Nat.eqb (count bo) 0.
Definition DroppedCount (bo : BoundedOverflow) : Z := droppedCount bo.
Definition ResetDroppedCount (bo : BoundedOverflow) : BoundedOverflow * Z :=
  (mkBO (maxSize bo) (dropPolicy bo) (items bo) (head bo) (tail bo) (count bo) 0 (closed bo), droppedCount bo).
Definition DropPolicy (bo : BoundedOverflow) : Z := dropPolicy bo.

(** The two steps of [Close], neither under the lock, are this store and a
    broadcast. *)
Definition Close_store (bo : BoundedOverflow) : BoundedOverflow :=
  mkBO (maxSize bo) (dropPolicy bo) (items bo) (head bo) (tail bo) (count bo) (droppedCount bo) true.
Definition IsClosed (bo : BoundedOverflow) : bool := closed bo.

Record BoundedOverflowStats := mkStats {
  Length : nat; Capacity : nat; SDroppedCount : Z; SIsFull : bool; SIsClosed : bool; SDropPolicy : Z }.
Definition Stats (bo : BoundedOverflow) : BoundedOverflowStats :=
  mkStats (count bo) (maxSize bo) (droppedCount bo) (maxSize bo <=? count bo)%nat (closed bo) (dropPolicy bo).

(* ------------------------------------------------------------------ *)
(** ** The ring as a list *)

(** The slot of the [i]-th item. *)
Definition slot (bo : BoundedOverflow) (i : nat) : nat := ((head bo + i) mod maxSize bo)%nat.
Definition contents (bo : BoundedOverflow) : list A := (fun i => default zero (items bo !! slot bo i)) <$> seq 0 (count bo).

Record bo_wf (bo : BoundedOverflow) : Prop := {
  wf_max : (0 < maxSize bo)%nat;
  wf_items : length (items bo) = maxSize bo;
  wf_head : (head bo < maxSize bo)%nat;
  wf_count : (count bo <= maxSize bo)%nat;
  wf_tail : tail bo = slot bo (count bo);
  (** The slots that hold no item hold nothing alive. *)
  wf_clear : forall j, (j < maxSize bo)%nat -> (forall i, (i < count bo)%nat -> slot bo i <> j) -> items bo !! j = Some zero }.

Lemma ring_index m h i : (h < m)%nat -> (i <= m)%nat -> ((h + i) mod m)%nat = if (h + i <? m)%nat then (h + i)%nat else (h + i - m)%nat.
Proof.
  intros H I. destruct (Nat.ltb_spec (h + i) m); [by apply Nat.mod_small|].
  replace (h + i)%nat with (h + i - m + 1 * m)%nat at 1 by lia. rewrite Nat.Div0.mod_add. apply Nat.mod_small. lia.
Qed.

Lemma ring_lt m h i : (0 < m)%nat -> ((h + i) mod m < m)%nat.
Proof. intros. apply Nat.mod_upper_bound. lia. Qed.

Lemma ring_inj m h i j : (h < m)%nat -> (i < m)%nat -> (j < m)%nat -> ((h + i) mod m = (h + j) mod m)%nat -> i = j.
Proof. intros H I J. rewrite !ring_index by lia. destruct (Nat.ltb_spec (h + i) m), (Nat.ltb_spec (h + j) m); lia. Qed.

(** Every slot is that of some index. *)
Lemma ring_surj m h j : (h < m)%nat -> (j < m)%nat -> exists i, (i < m)%nat /\ ((h + i) mod m)%nat = j.
Proof.
  intros H J. exists (if (h <=? j)%nat then j - h else m - h + j)%nat.
  destruct (Nat.leb_spec h j); (split; [lia|]); rewrite ring_index by lia; [destruct (Nat.ltb_spec (h + (j - h)) m); lia|].
  destruct (Nat.ltb_spec (h + (m - h + j)) m); lia.
Qed.

Lemma ring_shift m h i : (0 < m)%nat -> (((h + 1) mod m + i) mod m)%nat = ((h + S i) mod m)%nat.
Proof. intros. rewrite Nat.Div0.add_mod_idemp_l. f_equal. lia. Qed.

Lemma store_some l i x : (i < length l)%nat -> store l i x = Some (<[i := x]> l).
Proof. intros L. unfold store. by destruct (Nat.ltb_spec i (length l)); [|lia]. Qed.

Lemma slot_lt bo i : bo_wf bo -> (slot bo i < maxSize bo)%nat.
Proof. intros W. apply ring_lt, W. Qed.

Lemma slot_inj bo i j : bo_wf bo -> (i < maxSize bo)%nat -> (j < maxSize bo)%nat -> slot bo i = slot bo j -> i = j.
Proof. intros W I J. by apply ring_inj; [apply W|..]. Qed.

Lemma length_contents bo : length (contents bo) = count bo.
Proof. unfold contents. by rewrite length_fmap, length_seq. Qed.

Lemma contents_ext bo bo' : count bo = count bo' -> (forall i, (i < count bo)%nat -> items bo !! slot bo i = items bo' !! slot bo' i) ->
  contents bo = contents bo'.
Proof. intros C E. unfold contents. rewrite <- C. apply list_fmap_ext. intros k i K. apply lookup_seq in K as [-> L]. by rewrite E. Qed.

(** The fields no operation on the items changes. *)
Definition same_buffer (bo bo' : BoundedOverflow) : Prop :=
  maxSize bo' = maxSize bo /\ dropPolicy bo' = dropPolicy bo /\ closed bo' = closed bo.

Lemma put_spec bo x : bo_wf bo -> (count bo < maxSize bo)%nat ->
  exists bo', put bo x = Some bo' /\ bo_wf bo' /\ contents bo' = contents bo ++ [x] /\ same_buffer bo bo' /\ droppedCount bo' = droppedCount bo.
Proof.
  intros W L. pose proof W as [Wm Wi Wh Wc Wt Wz]. unfold put. pose proof (slot_lt bo (count bo) W) as Lt. rewrite <- Wt in Lt.
  rewrite store_some by lia. cbn [mbind option_bind]. eexists. split; [done|].
  assert (Sl : forall i, (i < count bo)%nat -> slot bo i <> tail bo).
  { intros i Li E. rewrite Wt in E. apply slot_inj in E; [lia|done|lia|lia]. }
  split; [constructor; cbn|split; [|done]].
  - done.
  - by rewrite length_insert.
  - done.
  - lia.
  - rewrite Wt. unfold slot. cbn. rewrite Nat.Div0.add_mod_idemp_l. f_equal. lia.
  - intros j Lj N. rewrite list_lookup_insert_ne; [apply Wz; [done|]; intros i Li; apply (N i); lia|].
    intros E. apply (N (count bo)); [lia|]. by rewrite <- E, Wt.
  - unfold contents. cbn. rewrite (Nat.add_1_r (count bo)), seq_S, fmap_app. cbn. f_equal.
    + apply list_fmap_ext. intros k i K. apply lookup_seq in K as [-> Lk]. cbn. rewrite list_lookup_insert_ne; [done|]. intros E. by apply (Sl k).
    + unfold slot at 1. cbn. fold (slot bo (count bo)). rewrite <- Wt, list_lookup_insert_eq by lia. done.
Qed.

Lemma overwrite_spec bo x : bo_wf bo -> count bo = maxSize bo ->
  exists bo', overwrite bo x = Some bo' /\ bo_wf bo' /\ contents bo' = drop 1 (contents bo) ++ [x] /\ same_buffer bo bo' /\
    droppedCount bo' = i64 (droppedCount bo + 1).
Proof.
  intros W C. pose proof W as [Wm Wi Wh Wc Wt Wz]. unfold overwrite. rewrite store_some by lia. cbn [mbind option_bind].
  rewrite store_some by (rewrite length_insert; lia). cbn [mbind option_bind]. rewrite list_insert_insert_eq. eexists. split; [done|].
  split; [constructor; cbn|split; [|done]].
  - done.
  - by rewrite length_insert.
  - by apply ring_lt.
  - done.
  - unfold slot. cbn. rewrite C, ring_shift by done. rewrite ring_index by lia. destruct (Nat.ltb_spec (head bo + 1) (maxSize bo)) as [L|L].
    + replace (head bo + S (maxSize bo))%nat with (head bo + 1 + 1 * maxSize bo)%nat by lia. by rewrite Nat.Div0.mod_add, Nat.mod_small.
    + replace (head bo + S (maxSize bo))%nat with (0 + 2 * maxSize bo)%nat by lia. rewrite Nat.Div0.mod_add, Nat.mod_small by lia. lia.
  - intros j Lj N. destruct (ring_surj (maxSize bo) ((head bo + 1) mod maxSize bo) j) as (i & Li & E); [by apply ring_lt|done|].
    destruct (N i); [lia|done].
  - apply list_eq. intros i. destruct (decide (i < maxSize bo)%nat) as [L|L].
    2:{ rewrite !lookup_ge_None_2; [done| |]; rewrite ?length_app, ?length_drop, ?length_contents; cbn; lia. }
    unfold contents at 1. cbn. rewrite list_lookup_fmap, lookup_seq_lt by lia. cbn. unfold slot at 1. cbn. rewrite ring_shift by done.
    fold (slot bo (S i)). destruct (decide (S i < maxSize bo)%nat) as [L'|L'].
    + rewrite lookup_app_l by (rewrite length_drop, length_contents; lia). rewrite lookup_drop. unfold contents.
      rewrite list_lookup_fmap, lookup_seq_lt by lia. cbn. rewrite list_lookup_insert_ne; [done|]. intros E.
      assert (E0 : slot bo 0 = slot bo (S i)) by (rewrite <- E; unfold slot; rewrite Nat.add_0_r; by apply Nat.mod_small).
      apply slot_inj in E0; [lia|done|lia|lia].
    + assert (i = maxSize bo - 1)%nat by lia. subst i. rewrite lookup_app_r by (rewrite length_drop, length_contents; lia).
      rewrite length_drop, length_contents, C. replace (maxSize bo - 1 - (maxSize bo - 1))%nat with O by lia. cbn.
      replace (slot bo (S (maxSize bo - 1))) with (head bo); [by rewrite list_lookup_insert_eq by lia|].
      unfold slot. replace (head bo + S (maxSize bo - 1))%nat with (head bo + 1 * maxSize bo)%nat by lia.
      by rewrite Nat.Div0.mod_add, Nat.mod_small.
Qed.

Lemma contents_cons bo : bo_wf bo -> (0 < count bo)%nat -> exists x, items bo !! head bo = Some x /\
  contents bo = x :: ((fun i => default zero (items bo !! slot bo (S i))) <$> seq 0 (count bo - 1)).
Proof.
  intros [Wm Wi Wh Wc Wt Wz] L. destruct (lookup_lt_is_Some_2 (items bo) (head bo)) as [x E]; [lia|]. exists x. split; [done|].
  unfold contents. destruct (count bo) as [|n] eqn:C; [lia|]. rewrite Nat.sub_1_r. cbn [seq fmap list_fmap Nat.pred]. f_equal.
  - unfold slot. rewrite Nat.add_0_r, Nat.mod_small by done. by rewrite E.
  - rewrite <- fmap_S_seq, <- list_fmap_compose. done.
Qed.

Lemma Take_spec bo : bo_wf bo -> match contents bo with
  | [] => Take bo = Some (bo, Nobody, (zero, false))
  | x :: rest => exists bo', Take bo = Some (bo', Signal, (x, true)) /\ bo_wf bo' /\ contents bo' = rest /\ same_buffer bo bo' /\
      droppedCount bo' = droppedCount bo
  end.
Proof.
  intros W. pose proof W as [Wm Wi Wh Wc Wt Wz]. unfold Take. destruct (Nat.eqb_spec (count bo) 0) as [C|C].
  { unfold contents. by rewrite C. }
  destruct (contents_cons bo W ltac:(lia)) as (x & E & ->). rewrite E. cbn [mbind option_bind]. rewrite store_some by lia. cbn [mbind option_bind].
  eexists. split; [done|]. assert (N : forall i, (S i < count bo)%nat -> slot bo (S i) <> head bo).
  { intros i Li Eq. assert (E0 : slot bo (S i) = slot bo 0) by (rewrite Eq; unfold slot; rewrite Nat.add_0_r; symmetry; by apply Nat.mod_small).
    apply slot_inj in E0; [lia|done|lia|lia]. }
  split; [constructor; cbn|split; [|done]].
  - done.
  - by rewrite length_insert.
  - by apply ring_lt.
  - lia.
  - rewrite Wt. unfold slot. cbn. rewrite ring_shift by done. do 2 f_equal. lia.
  - intros j Lj Nj. destruct (decide (j = head bo)) as [->|Nh]; [apply list_lookup_insert_eq; lia|]. rewrite list_lookup_insert_ne by done.
    apply Wz; [done|]. intros [|i] Li Eq.
    + apply Nh. rewrite <- Eq. unfold slot. rewrite Nat.add_0_r. by apply Nat.mod_small.
    + apply (Nj i); [lia|]. unfold slot. cbn. rewrite ring_shift by done. done.
  - unfold contents. cbn. apply list_fmap_ext. intros k i K. apply lookup_seq in K as [-> Lk]. cbn. unfold slot at 1. cbn. rewrite ring_shift by done.
    fold (slot bo (S k)). rewrite list_lookup_insert_ne; [done|]. intros Eq. apply (N k); [lia|done].
Qed.

Lemma clearLoop_spec h m n i l : (h < m)%nat -> length l = m -> (i + n <= m)%nat ->
  exists l', clearLoop h m n i l = Some l' /\ length l' = m /\
    (forall k, (i <= k < i + n)%nat -> l' !! ((h + k) mod m)%nat = Some zero) /\
    (forall j, (forall k, (i <= k < i + n)%nat -> ((h + k) mod m)%nat <> j) -> l' !! j = l !! j).
Proof.
  intros H. revert i l. induction n as [|n IH]; intros i l L B; cbn [clearLoop].
  { exists l. split; [done|]. split; [done|]. split; [lia|done]. }
  rewrite store_some by (rewrite L; apply ring_lt; lia). cbn [mbind option_bind].
  destruct (IH (S i) (<[((h + i) mod m)%nat := zero]> l)) as (l' & E & L' & Z' & K); [by rewrite length_insert|lia|].
  exists l'. split; [done|]. split; [done|]. split.
  - intros k Hk. destruct (decide (k = i)) as [->|N]; [|apply Z'; lia]. rewrite K.
    + apply list_lookup_insert_eq. rewrite L. apply ring_lt. lia.
    + intros k Hk' E'. apply ring_inj in E'; lia.
  - intros j N. rewrite K by (intros k Hk; apply N; lia). apply list_lookup_insert_ne. apply N. lia.
Qed.

Lemma drainLoop_spec h m n i l : (h < m)%nat -> length l = m -> (i + n <= m)%nat ->
  drainLoop h m n i l = (l' ← clearLoop h m n i l; Some (l', (fun k => default zero (l !! ((h + k) mod m)%nat)) <$> seq i n)).
Proof.
  intros H. revert i l. induction n as [|n IH]; intros i l L B; cbn [drainLoop clearLoop]; [done|].
  destruct (lookup_lt_is_Some_2 l ((h + i) mod m)%nat) as [x E]; [rewrite L; apply ring_lt; lia|].
  rewrite E. cbn [mbind option_bind]. rewrite store_some by (rewrite L; apply ring_lt; lia). cbn [mbind option_bind].
  rewrite IH by (rewrite ?length_insert; lia). destruct (clearLoop h m n (S i) _) as [l'|]; [|done]. cbn. rewrite E. cbn. do 3 f_equal.
  apply list_fmap_ext. intros k j K. apply lookup_seq in K as [-> Lk]. rewrite list_lookup_insert_ne; [done|].
  intros E'. apply ring_inj in E'; lia.
Qed.

Lemma clear_all bo : bo_wf bo -> exists l, clearLoop (head bo) (maxSize bo) (count bo) 0 (items bo) = Some l /\
  bo_wf (emptied bo l) /\ contents (emptied bo l) = [].
Proof.
  intros [Wm Wi Wh Wc Wt Wz]. destruct (clearLoop_spec (head bo) (maxSize bo) (count bo) 0 (items bo)) as (l & E & L & Z1 & Z2); [done|done|lia|].
  exists l. split; [done|]. split; [|done]. constructor; cbn; try done; try lia.
  - unfold slot. cbn. symmetry. by apply Nat.Div0.mod_0_l.
  - intros j Lj _. destruct (decide (Exists (fun k => slot bo k = j) (seq 0 (count bo)))) as [X|X].
    + apply Exists_exists in X as (k & I%elem_of_seq & <-). apply Z1. lia.
    + assert (N : forall k, (0 <= k < 0 + count bo)%nat -> slot bo k <> j).
      { intros k Hk E'. apply X, Exists_exists. exists k. split; [apply elem_of_seq; lia|done]. }
      rewrite Z2 by apply N. apply Wz; [done|]. intros i Li. apply N. lia.
Qed.

Lemma Drain_spec bo : bo_wf bo -> exists bo' w, Drain bo = Some (bo', w, contents bo) /\ bo_wf bo' /\ contents bo' = [] /\
  same_buffer bo bo' /\ droppedCount bo' = droppedCount bo /\ w = (match contents bo with [] => Nobody | _ => Broadcast end) /\ (w = Nobody -> bo' = bo).
Proof.
  intros W. unfold Drain. destruct (Nat.eqb_spec (count bo) 0) as [C|C].
  { exists bo, Nobody. unfold contents. rewrite C. cbn. done. }
  pose proof (wf_max _ W). pose proof (wf_count _ W). rewrite drainLoop_spec by (try apply W; lia).
  destruct (clear_all bo W) as (l & -> & W' & E'). cbn. exists (emptied bo l), Broadcast. split; [done|]. split; [done|]. split; [done|].
  split; [done|]. split; [done|]. split; [|done]. pose proof (length_contents bo). by destruct (contents bo).
Qed.

Lemma Clear_spec bo : bo_wf bo -> exists bo', Clear bo = Some (bo', Broadcast) /\ bo_wf bo' /\ contents bo' = [] /\ same_buffer bo bo' /\
  droppedCount bo' = droppedCount bo.
Proof. intros W. unfold Clear. destruct (clear_all bo W) as (l & -> & W' & E'). by exists (emptied bo l). Qed.

Lemma Peek_spec bo : bo_wf bo -> Peek bo = Some (match contents bo with [] => (zero, false) | x :: _ => (x, true) end).
Proof.
  intros W. unfold Peek. destruct (Nat.eqb_spec (count bo) 0) as [C|C]; [unfold contents; by rewrite C|].
  by destruct (contents_cons bo W ltac:(lia)) as (x & -> & ->).
Qed.

Lemma New_spec m p : let bo := NewBoundedOverflow m p in
  bo_wf bo /\ contents bo = [] /\ Z.of_nat (maxSize bo) = Z.max 1 m /\ dropPolicy bo = p /\ closed bo = false /\ droppedCount bo = 0.
Proof.
  unfold NewBoundedOverflow. set (n := Z.to_nat _). assert (P : Z.of_nat n = Z.max 1 m) by (unfold n; destruct (Z.leb_spec m 0); lia).
  cbn zeta. split; [|split; [done|]; split; [done|done]]. constructor; cbn; try lia.
  - by rewrite length_replicate.
  - unfold slot. cbn. symmetry. by apply Nat.Div0.mod_0_l.
  - intros j Lj _. by apply lookup_replicate_2.
Qed.

(* ------------------------------------------------------------------ *)
(** ** The bounded list it stands for *)

Record bounded := mkBounded { cap : nat; pol : Z; queue : list A; drops : Z; shut : bool }.

Inductive op := OAdd (x : A) | OTryAdd (x : A) | OTake | ODrain | OClear | OPeek | OLen | OStats | OReset | OClose.
Inductive ans := AAdded (r : option bool) | ATaken (x : A) (b : bool) | AAll (l : list A) | ALen (n : nat) | AStats (s : BoundedOverflowStats)
  | ADropped (n : Z) | ANone.

(** What an addition does: the answer, none when it has to wait. *)
Definition offer (s : bounded) (x : A) : bounded * option bool :=
  if shut s then (s, Some false)
  else if (length (queue s) <? cap s)%nat then (mkBounded (cap s) (pol s) (queue s ++ [x]) (drops s) false, Some true)
  else if pol s =? DropOldest then (mkBounded (cap s) (pol s) (drop 1 (queue s) ++ [x]) (i64 (drops s + 1)) false, Some true)
  else if pol s =? DropNewest then (mkBounded (cap s) (pol s) (queue s) (i64 (drops s + 1)) false, Some false)
  else if pol s =? Block then (s, None) else (s, Some false).

Definition spec_step (s : bounded) (o : op) : bounded * ans :=
  match o with
  | OAdd x => let '(s, r) := offer s x in (s, AAdded r)
  | OTryAdd x => let '(s, r) := offer s x in (s, AAdded (Some (default false r)))
  | OTake => match queue s with [] => (s, ATaken zero false) | x :: q => (mkBounded (cap s) (pol s) q (drops s) (shut s), ATaken x true) end
  | ODrain => (mkBounded (cap s) (pol s) [] (drops s) (shut s), AAll (queue s))
  | OClear => (mkBounded (cap s) (pol s) [] (drops s) (shut s), ANone)
  | OPeek => (s, match queue s with [] => ATaken zero false | x :: _ => ATaken x true end)
  | OLen => (s, ALen (length (queue s)))
  | OStats => (s, AStats (mkStats (length (queue s)) (cap s) (drops s) (cap s <=? length (queue s))%nat (shut s) (pol s)))
  | OReset => (mkBounded (cap s) (pol s) (queue s) 0 (shut s), ADropped (drops s))
  | OClose => (mkBounded (cap s) (pol s) (queue s) (drops s) true, ANone)
  end.

Definition impl_step (b : BoundedOverflow) (o : op) : option (BoundedOverflow * ans) :=
  match o with
  | OAdd x => '(b, _, r) ← Add b x; Some (b, AAdded r)
  | OTryAdd x => '(b, _, r) ← TryAdd b x; Some (b, AAdded (Some r))
  | OTake => '(b, _, r) ← Take b; Some (b, ATaken r.1 r.2)
  | ODrain => '(b, _, l) ← Drain b; Some (b, AAll l)
  | OClear => '(b, _) ← Clear b; Some (b, ANone)
  | OPeek => r ← Peek b; Some (b, ATaken r.1 r.2)
  | OLen => Some (b, ALen (Len b))
  | OStats => Some (b, AStats (Stats b))
  | OReset => let '(b, n) := ResetDroppedCount b in Some (b, ADropped n)
  | OClose => Some (Close_store b, ANone)
  end.

Fixpoint spec_run (s : bounded) (os : list op) : bounded * list ans :=
  match os with [] => (s, []) | o :: os => let '(s, a) := spec_step s o in let '(s, l) := spec_run s os in (s, a :: l) end.
Fixpoint impl_run (b : BoundedOverflow) (os : list op) : option (BoundedOverflow * list ans) :=
  match os with [] => Some (b, []) | o :: os => '(b, a) ← impl_step b o; '(b, l) ← impl_run b os; Some (b, a :: l) end.

Definition view (b : BoundedOverflow) : bounded := mkBounded (maxSize b) (dropPolicy b) (contents b) (droppedCount b) (closed b).

Lemma view_eq b b' q d : same_buffer b b' -> contents b' = q -> droppedCount b' = d ->
  view b' = mkBounded (maxSize b) (dropPolicy b) q d (closed b).
Proof. intros (E1 & E2 & E3) <- <-. unfold view. by rewrite E1, E2, E3. Qed.

Lemma Add_offer b x : bo_wf b -> exists b' w r, Add b x = Some (b', w, r) /\ bo_wf b' /\ offer (view b) x = (view b', r) /\
  (w = if bool_decide (r = Some true) then Signal else Nobody).
Proof.
  intros W. unfold Add, offer, view. cbn [shut queue cap pol drops]. rewrite length_contents. fold (view b). destruct (closed b) eqn:Ec; [by exists b, Nobody, (Some false)|].
  destruct (Nat.ltb_spec (count b) (maxSize b)) as [L|L].
  { destruct (put_spec b x W L) as (b' & -> & W' & Q & Sb & D). exists b', Signal, (Some true). split; [done|]. split; [done|]. split; [|done].
    fold (view b'). by rewrite (view_eq b b' _ _ Sb Q D), Ec. }
  destruct (Z.eqb_spec (dropPolicy b) DropOldest).
  { destruct (overwrite_spec b x W) as (b' & -> & W' & Q & Sb & D); [pose proof (wf_count _ W); lia|].
    exists b', Signal, (Some true). split; [done|]. split; [done|]. split; [|done]. fold (view b'). by rewrite (view_eq b b' _ _ Sb Q D), Ec. }
  destruct (Z.eqb_spec (dropPolicy b) DropNewest).
  { exists (drop_one b), Nobody, (Some false). split; [done|]. split; [by destruct W; constructor|]. split; [|done].
    fold (view (drop_one b)). rewrite (view_eq b (drop_one b) (contents b) (i64 (droppedCount b + 1))) by done. by rewrite Ec. }
  destruct (Z.eqb_spec (dropPolicy b) Block); [by exists b, Nobody, None|by exists b, Nobody, (Some false)].
Qed.

(** [TryAdd] is [Add] that answers false instead of waiting. *)
Lemma TryAdd_Add b x : TryAdd b x = ('(b', w, r) ← Add b x; Some (b', w, default false r)).
Proof.
  unfold TryAdd, Add. repeat case_match; try done; [by destruct (put b x)|by destruct (overwrite b x)].
Qed.

Lemma impl_spec b o : bo_wf b -> exists b' a, impl_step b o = Some (b', a) /\ bo_wf b' /\ spec_step (view b) o = (view b', a).
Proof.
  intros W. destruct o as [x|x| | | | | | | |]; cbn [impl_step spec_step].
  - destruct (Add_offer b x W) as (b' & w & r & -> & W' & -> & _). by exists b', (AAdded r).
  - rewrite TryAdd_Add. destruct (Add_offer b x W) as (b' & w & r & -> & W' & -> & _). by exists b', (AAdded (Some (default false r))).
  - pose proof (Take_spec b W) as K. cbn. destruct (contents b) as [|x q] eqn:Q.
    + rewrite K. exists b, (ATaken zero false). done.
    + destruct K as (b' & -> & W' & Q' & Sb & D). exists b', (ATaken x true). split; [done|]. split; [done|]. by rewrite (view_eq b b' _ _ Sb Q' D).
  - destruct (Drain_spec b W) as (b' & w & -> & W' & Q & Sb & D & _). exists b', (AAll (contents b)). split; [done|]. split; [done|].
    by rewrite (view_eq b b' _ _ Sb Q D).
  - destruct (Clear_spec b W) as (b' & -> & W' & Q & Sb & D). exists b', ANone. split; [done|]. split; [done|]. by rewrite (view_eq b b' _ _ Sb Q D).
  - rewrite (Peek_spec b W). cbn. destruct (contents b) as [|x q]; [by exists b, (ATaken zero false)|by exists b, (ATaken x true)].
  - exists b, (ALen (Len b)). split; [done|]. split; [done|]. cbn. by rewrite length_contents.
  - exists b, (AStats (Stats b)). split; [done|]. split; [done|]. cbn. by rewrite length_contents.
  - eexists _, _. split; [done|]. split; [by destruct W; constructor|done].
  - eexists _, _. split; [done|]. split; [by destruct W; constructor|done].
Qed.

Lemma run_refines b os : bo_wf b -> exists b' l, impl_run b os = Some (b', l) /\ bo_wf b' /\ spec_run (view b) os = (view b', l).
Proof.
  revert b. induction os as [|o os IH]; intros b W; cbn; [by exists b, []|].
  destruct (impl_spec b o W) as (b1 & a & -> & W1 & ->). cbn. destruct (IH b1 W1) as (b2 & l & -> & W2 & ->). by exists b2, (a :: l).
Qed.

(** C20: the ring of slots is a bounded list, for any calls one after another,
    any policy and any size asked for: no access goes out of range, every
    answer and every statistic is that of the list, what does not fit is
    dropped as the policy says and counted, and the slots that hold no item
    are cleared. *)
Theorem ring_refines m p os : exists b l, impl_run (NewBoundedOverflow m p) os = Some (b, l) /\ bo_wf b /\
  spec_run (mkBounded (Z.to_nat (Z.max 1 m)) p [] 0 false) os = (view b, l).
Proof.
  destruct (New_spec m p) as (W & C & M & P & Cl & D). destruct (run_refines _ os W) as (b & l & E & W' & S). exists b, l.
  split; [done|]. split; [done|]. rewrite <- S. f_equal. unfold view. rewrite C, P, Cl, D. f_equal. lia.
Qed.
End Buffer.
End BoundedOverflow.
