(* ===== verification/BoundedWait.v ===== *)
(** * Goroutines that share a bounded buffer

    The calls of core/concurrency/bounded_overflow.go as steps: an operation
    under the lock is one step, a call of [Add] that waits is several, and
    [Close], which takes no lock, is two that can fall anywhere. *)

From S2P Require Import Prelude BoundedOverflow.
Import BoundedOverflow.

Module BoundedWait.
Section Calls.
Context {A : Type} (zero : A).

(** A call of [Add] that waits: its number and its item. *)
Definition call : Type := (nat * A)%type.

(** Where the holder of the lock is in the loop of [Add]: before its test, or
    after it, at the call of [Wait]. *)
Inductive place := Testing | Parking.

(** [sleepers]: the calls in the queue of the condition variable, [awake]:
    those woken that want the lock, [pending]: the calls of [Close] between
    the store and the broadcast.  [entered] and [left]: the items that went
    into the buffer and out of it so far, in order. *)
Record sys := mkSys {
  buf : BoundedOverflow (A := A); lock : option (call * place); sleepers : list call; awake : list call; pending : nat;
  next : nat; entered : list A; left : list A; answers : list (nat * bool) }.

Definition start (maxSize dropPolicy : Z) : sys :=
  mkSys (NewBoundedOverflow zero maxSize dropPolicy) None [] [] 0 0 [] [] [].

(** Signal wakes the call that has slept longest, Broadcast all. *)
Definition wakes (w : wake) (sl aw : list call) : list call * list call :=
  match w, sl with
  | Nobody, _ => (sl, aw)
  | Signal, c :: sl => (sl, aw ++ [c])
  | Signal, [] => ([], aw)
  | Broadcast, _ => ([], aw ++ sl)
  end.

Inductive label := LAdd (x : A) | LTest | LPark | LResume (t : nat) | LTryAdd (x : A) | LTake | LDrain | LClear | LCloseStore | LBroadcast.

(** After an operation under the lock. *)
Definition after (s : sys) (b : BoundedOverflow) (w : wake) (lk : option (call * place)) (aw : list call) (next : nat)
    (entered left : list A) (answers : list (nat * bool)) : sys :=
  let '(sl, aw) := wakes w (sleepers s) aw in mkSys b lk sl aw (pending s) next entered left answers.

(** What an accepted addition moves: a full buffer loses its oldest item. *)
Definition pushed_out (b : BoundedOverflow (A := A)) : list A :=
  if (count b <? maxSize b)%nat then [] else take 1 (contents zero b).

Definition step_add (s : sys) (x : A) : option sys :=
  '(b, w, r) ← Add zero (buf s) x;
  Some (match r with
        | None => after s b w (Some ((next s, x), Testing)) (awake s) (S (next s)) (entered s) (left s) (answers s)
        | Some ok =>
          after s b w None (awake s) (S (next s)) (if ok : bool then entered s ++ [x] else entered s)
            (if ok then left s ++ pushed_out (buf s) else left s) (answers s ++ [(next s, ok)])
        end).

Definition step_try (s : sys) (x : A) : option sys :=
  '(b, w, ok) ← TryAdd zero (buf s) x;
  Some (after s b w None (awake s) (S (next s)) (if ok : bool then entered s ++ [x] else entered s)
          (if ok then left s ++ pushed_out (buf s) else left s) (answers s ++ [(next s, ok)])).

Definition step_test (s : sys) : option sys :=
  match lock s with
  | Some ((t, x), Testing) =>
    '(b, w, r) ← addLoop (buf s) x;
    Some (match r with
          | None => mkSys b (Some ((t, x), Parking)) (sleepers s) (awake s) (pending s) (next s) (entered s) (left s) (answers s)
          | Some ok => after s b w None (awake s) (next s) (if ok : bool then entered s ++ [x] else entered s) (left s) (answers s ++ [(t, ok)])
          end)
  | _ => None
  end.

(** [Wait]: the call joins the queue and gives the lock back. *)
Definition step_park (s : sys) : option sys :=
  match lock s with
  | Some (c, Parking) => Some (mkSys (buf s) None (sleepers s ++ [c]) (awake s) (pending s) (next s) (entered s) (left s) (answers s))
  | _ => None
  end.

Definition step_resume (s : sys) (t : nat) : option sys :=
  match lock s, find (fun c : call => Nat.eqb c.1 t) (awake s) with
  | None, Some c =>
    Some (mkSys (buf s) (Some (c, Testing)) (sleepers s) (filter (fun c' : call => c'.1 <> t) (awake s)) (pending s) (next s) (entered s) (left s) (answers s))
  | _, _ => None
  end.

(** The methods that take the lock can run while nobody has it. *)
Definition unlocked {B} (s : sys) (k : option B) : option B := match lock s with None => k | Some _ => None end.

Definition step (s : sys) (l : label) : option sys :=
  match l with
  | LAdd x => unlocked s (step_add s x)
  | LTest => step_test s
  | LPark => step_park s
  | LResume t => step_resume s t
  | LTryAdd x => unlocked s (step_try s x)
  | LTake => unlocked s (
      '(b, w, r) ← Take zero (buf s);
      Some (after s b w None (awake s) (next s) (entered s) (if r.2 : bool then left s ++ [r.1] else left s) (answers s)))
  | LDrain => unlocked s (
      '(b, w, l) ← Drain zero (buf s); Some (after s b w None (awake s) (next s) (entered s) (left s ++ l) (answers s)))
  | LClear => unlocked s (
      '(b, w) ← Clear zero (buf s);
      Some (after s b w None (awake s) (next s) (entered s) (left s ++ contents zero (buf s)) (answers s)))
  | LCloseStore => Some (mkSys (Close_store (buf s)) (lock s) (sleepers s) (awake s) (S (pending s)) (next s) (entered s) (left s) (answers s))
  | LBroadcast =>
    match pending s with
    | O => None
    | S n => Some (mkSys (buf s) (lock s) [] (awake s ++ sleepers s) n (next s) (entered s) (left s) (answers s))
    end
  end.

Definition run (s : sys) (ls : list label) : option sys := foldl (fun o l => s ← o; step s l) (Some s) ls.

(* ------------------------------------------------------------------ *)
(** ** The invariant *)

Definition room (s : sys) : nat := maxSize (buf s) - count (buf s).
Definition testing (s : sys) : nat := match lock s with Some (_, Testing) => 1 | _ => 0 end.
(** The numbers of the calls that wait. *)
Definition waiters (s : sys) : list nat :=
  (sleepers s ++ awake s ++ match lock s with Some (c, _) => [c] | None => [] end).*1.

Record wait_ok (m : nat) (p : Z) (s : sys) : Prop := {
  ok_buf : bo_wf zero (buf s);
  ok_params : maxSize (buf s) = m /\ dropPolicy (buf s) = p;
  ok_fifo : entered s = left s ++ contents zero (buf s);
  (** As many calls are awake as there are places, while others sleep. *)
  ok_wake : closed (buf s) = false -> sleepers s = [] \/ (room s <= length (awake s) + testing s)%nat;
  ok_park : forall c, lock s = Some (c, Parking) -> room s = O;
  ok_names : NoDup (waiters s) /\ forall t, t ∈ waiters s -> (t < next s)%nat;
  ok_block : p <> Block -> sleepers s = [] /\ awake s = [] /\ lock s = None }.

Lemma wait_start_ok m p : wait_ok (maxSize (NewBoundedOverflow zero m p)) p (start m p).
Proof.
  destruct (New_spec zero m p) as (W & C & _ & P & _ & _). constructor; cbn; try done.
  - by left.
  - split; [constructor|]. by intros t I%not_elem_of_nil.
Qed.

(** Waking keeps the calls that wait. *)
Lemma wakes_perm w sl aw : let '(sl', aw') := wakes w sl aw in sl' ++ aw' ≡ₚ sl ++ aw.
Proof.
  destruct w, sl as [|c sl]; cbn; try done.
  - rewrite app_assoc. by rewrite Permutation_app_comm.
  - by rewrite app_nil_r.
  - rewrite Permutation_app_comm. done.
Qed.

Lemma wakes_names w sl aw (rest : list call) : let '(sl', aw') := wakes w sl aw in (sl' ++ aw' ++ rest).*1 ≡ₚ (sl ++ aw ++ rest).*1.
Proof. pose proof (wakes_perm w sl aw) as P. destruct (wakes w sl aw) as [sl' aw']. by rewrite !(assoc_L (++)), P. Qed.

(** After an operation that gives the lock back. *)
Lemma after_ok m p s (b : BoundedOverflow (A := A)) w aw n e l an :
  bo_wf zero b -> maxSize b = m /\ dropPolicy b = p -> e = l ++ contents zero b ->
  (closed b = false -> w <> Broadcast -> sleepers s = [] \/ (maxSize b - count b <= length aw + (if w is Signal then 1 else 0))%nat) ->
  NoDup (sleepers s ++ aw).*1 -> (forall t, t ∈ (sleepers s ++ aw).*1 -> (t < n)%nat) -> (p <> Block -> sleepers s = [] /\ aw = []) ->
  wait_ok m p (after s b w None aw n e l an).
Proof.
  intros Wb Pb Fi Wk Nd Lt Bl. unfold after. pose proof (wakes_names w (sleepers s) aw []) as Pn.
  destruct (wakes w (sleepers s) aw) as [sl' aw'] eqn:Ew. constructor; cbn; try done.
  - intros Cb. specialize (Wk Cb). unfold room, testing. cbn. destruct w; cbn in Ew.
    + injection Ew as <- <-. by apply Wk.
    + destruct (sleepers s) as [|c sl] eqn:Es; injection Ew as <- <-; [by left|]. destruct Wk as [|K]; [done|done|]. right.
      rewrite length_app. cbn. lia.
    + injection Ew as <- <-. by left.
  - unfold waiters. cbn. rewrite app_nil_r in *. rewrite !app_nil_r in Pn. split; [by rewrite Pn|]. intros t. rewrite Pn. apply Lt.
  - intros Np. destruct (Bl Np) as [E1 E2]. rewrite E1, E2 in Ew. destruct w; injection Ew as <- <-; done.
Qed.

(** The parts of the invariant that matter while nobody has the lock. *)
Lemma unlocked_names m p s : wait_ok m p s -> lock s = None ->
  NoDup (sleepers s ++ awake s).*1 /\ (forall t, t ∈ (sleepers s ++ awake s).*1 -> (t < next s)%nat) /\
  (closed (buf s) = false -> sleepers s = [] \/ (room s <= length (awake s))%nat) /\ (p <> Block -> sleepers s = [] /\ awake s = []).
Proof.
  intros [_ _ _ Wk _ [Nd Lt] Bl] E. unfold waiters, testing in *. rewrite E, app_nil_r in *. rewrite Nat.add_0_r in Wk.
  split; [done|]. split; [done|]. split; [done|]. intros Np. by destruct (Bl Np) as (? & ? & _).
Qed.

Lemma same_params m p (b b' : BoundedOverflow (A := A)) : maxSize b = m /\ dropPolicy b = p -> same_buffer b b' -> maxSize b' = m /\ dropPolicy b' = p.
Proof. intros [<- <-] (-> & -> & _). done. Qed.

(** An addition that does not wait. *)
Lemma add_ok m p s b w ok n x : wait_ok m p s -> lock s = None -> (next s <= n)%nat -> Add zero (buf s) x = Some (b, w, Some ok) ->
  wait_ok m p (after s b w None (awake s) n (if ok : bool then entered s ++ [x] else entered s)
    (if ok then left s ++ pushed_out (buf s) else left s) (answers s ++ [(next s, ok)])).
Proof.
  intros W E Ln Ea. destruct (unlocked_names m p s W E) as (Nd & Lt & Wk & Bl). pose proof (ok_buf _ _ _ W) as Wb.
  pose proof (ok_params _ _ _ W) as Pb. pose proof (ok_fifo _ _ _ W) as Fi. unfold room in Wk. unfold Add in Ea. unfold pushed_out.
  destruct (closed (buf s)) eqn:Ec; [injection Ea as <- <- <-; apply after_ok; try done; [congruence|intros t I; specialize (Lt t I); lia]|].
  assert (Lt' : forall t, t ∈ (sleepers s ++ awake s).*1 -> (t < n)%nat) by (intros t I; specialize (Lt t I); lia).
  destruct (Nat.ltb_spec (count (buf s)) (maxSize (buf s))) as [L|L].
  { destruct (put_spec zero (buf s) x Wb L) as (b' & Ep & W' & Q & Sb & D). rewrite Ep in Ea. injection Ea as <- <- <-.
    apply after_ok; try done; [by eapply same_params|by rewrite app_nil_r, Q, Fi, app_assoc|].
    intros _ _. destruct (Wk eq_refl) as [|K]; [by left|right]. destruct Sb as (-> & _). pose proof (length_contents zero b') as L'.
    rewrite Q, length_app, length_contents in L'. cbn in L'. lia. }
  assert (Full : count (buf s) = maxSize (buf s)) by (pose proof (wf_count _ _ Wb); lia).
  destruct (Z.eqb_spec (dropPolicy (buf s)) DropOldest).
  { destruct (overwrite_spec zero (buf s) x Wb Full) as (b' & Ep & W' & Q & Sb & D). rewrite Ep in Ea. injection Ea as <- <- <-.
    apply after_ok; try done; [by eapply same_params|rewrite Q, Fi, <- !app_assoc; by rewrite (app_assoc (take 1 _)), take_drop|].
    intros _ _. right. destruct Sb as (-> & _). pose proof (length_contents zero b') as L'.
    rewrite Q, length_app, length_drop, length_contents in L'. cbn in L'. pose proof (wf_max _ _ Wb). lia. }
  destruct (Z.eqb_spec (dropPolicy (buf s)) DropNewest).
  { injection Ea as <- <- <-. apply after_ok; try done; [by destruct Wb; constructor|]. intros _ _. right. cbn. lia. }
  destruct (Z.eqb_spec (dropPolicy (buf s)) Block); [done|]. injection Ea as <- <- <-. apply after_ok; try done. intros _ _. right. lia.
Qed.

(** An addition waits on a full buffer with that policy, and changes nothing. *)
Lemma Add_waits (b b' : BoundedOverflow (A := A)) w x : Add zero b x = Some (b', w, None) ->
  b' = b /\ w = Nobody /\ dropPolicy b = Block /\ (maxSize b <= count b)%nat.
Proof.
  unfold Add. destruct (closed b); [done|]. destruct (Nat.ltb_spec (count b) (maxSize b)); [by destruct (put b x)|].
  destruct (dropPolicy b =? DropOldest); [by destruct (overwrite zero b x)|]. destruct (dropPolicy b =? DropNewest); [done|].
  destruct (Z.eqb_spec (dropPolicy b) Block); [|done]. by intros [= <- <-].
Qed.

Lemma start_add_ok m p s s' x : wait_ok m p s -> lock s = None -> step_add s x = Some s' -> wait_ok m p s'.
Proof.
  intros W E St. unfold step_add in St. destruct (Add zero (buf s) x) as [[[b w] [ok|]]|] eqn:Ea; [| |done]; cbn in St; injection St as <-.
  - apply (add_ok m p s b w ok (S (next s)) x W E); [lia|done].
  - destruct (unlocked_names m p s W E) as (Nd & Lt & Wk & Bl). pose proof (ok_params _ _ _ W) as Pb.
    destruct (Add_waits _ _ _ _ Ea) as (-> & -> & Pl & L). assert (R : room s = O) by (unfold room; lia).
    unfold after. cbn [wakes]. destruct W. constructor; cbn; try done.
    + intros C. destruct (Wk C); [by left|right; unfold room in *; cbn; lia].
    + unfold waiters. cbn. rewrite (assoc_L (++)), fmap_app. cbn. split.
      * apply NoDup_app. split; [done|]. split; [|apply NoDup_singleton]. intros t I J%list_elem_of_singleton. specialize (Lt t I). lia.
      * intros t [I|I%list_elem_of_singleton]%elem_of_app; [specialize (Lt t I)|]; lia.
    + intros Np. destruct Pb. congruence.
Qed.

Lemma try_add_ok m p s s' x : wait_ok m p s -> lock s = None -> step_try s x = Some s' -> wait_ok m p s'.
Proof.
  intros W E St. unfold step_try in St. rewrite TryAdd_Add in St.
  destruct (Add_offer zero (buf s) x (ok_buf _ _ _ W)) as (b & w & r & Ea & W' & Of & Ew). rewrite Ea in St. cbn in St. injection St as <-.
  destruct r as [ok|]; [apply (add_ok m p s b w ok (S (next s)) x W E); [lia|done]|]. cbn. cbn in Ew. subst w.
  destruct (Add_waits _ _ _ _ Ea) as (-> & _).
  destruct (unlocked_names m p s W E) as (Nd & Lt & Wk & Bl). apply after_ok; try done; try apply W.
  - intros C _. destruct (Wk C); [by left|right; unfold room in *; lia].
  - intros t I. specialize (Lt t I). lia.
Qed.

(** The names while a call has the lock. *)
Lemma locked_names m p s c pl : wait_ok m p s -> lock s = Some (c, pl) -> p = Block /\
  NoDup (sleepers s ++ awake s).*1 /\ (c.1 ∉ (sleepers s ++ awake s).*1) /\ (forall t, t ∈ (sleepers s ++ awake s).*1 -> (t < next s)%nat) /\ (c.1 < next s)%nat.
Proof.
  intros W E. split; [destruct (decide (p = Block)) as [|N]; [done|]; destruct (ok_block _ _ _ W N) as (_ & _ & ?); congruence|].
  destruct (ok_names _ _ _ W) as [Nd Lt]. unfold waiters in *. rewrite E in *. rewrite (assoc_L (++)), fmap_app in Nd, Lt. cbn in Nd, Lt.
  apply NoDup_app in Nd as (Nd & Dj & _). split; [done|]. split; [intros I; apply (Dj c.1 I); by left|].
  split; [intros t I; apply Lt; apply elem_of_app; by left|]. apply Lt. apply elem_of_app. right. by left.
Qed.

Lemma test_ok m p s s' : wait_ok m p s -> step_test s = Some s' -> wait_ok m p s'.
Proof.
  intros W St. unfold step_test in St. destruct (lock s) as [[[t x] [|]]|] eqn:El; try done.
  destruct (locked_names m p s _ _ W El) as (Pp & Nd & Nt & Lt & Ltt). pose proof (ok_buf _ _ _ W) as Wb. pose proof (ok_wake _ _ _ W) as Wk.
  unfold testing in Wk. rewrite El in Wk. unfold addLoop in St. destruct (Nat.leb_spec (maxSize (buf s)) (count (buf s))) as [L|L]; cbn [andb] in St.
  - destruct (closed (buf s)) eqn:Ec; cbn [mbind option_bind negb] in St; injection St as <-.
    + apply after_ok; try done; try apply W. congruence.
    + pose proof (ok_names _ _ _ W) as Nm. unfold waiters in Nm. rewrite El in Nm. destruct W. constructor; cbn; try done.
      * intros _. right. unfold room. cbn. lia.
      * intros _ _. unfold room. cbn. lia.
  - destruct (closed (buf s)) eqn:Ec; cbn [mbind option_bind negb] in St.
    + injection St as <-. apply after_ok; try done; try apply W. congruence.
    + destruct (put_spec zero (buf s) x Wb L) as (b' & Ep & W' & Q & Sb & D). rewrite Ep in St. cbn [mbind option_bind negb] in St. injection St as <-.
      apply after_ok; try done; [eapply same_params; [apply W|done]|by rewrite Q, (ok_fifo _ _ _ W), app_assoc|].
      intros _ _. destruct (Wk eq_refl) as [|K]; [by left|right]. unfold room in K. destruct Sb as (-> & _). pose proof (length_contents zero b') as L'.
      rewrite Q, length_app, length_contents in L'. cbn in L'. lia.
Qed.

Lemma park_ok m p s s' : wait_ok m p s -> step_park s = Some s' -> wait_ok m p s'.
Proof.
  intros W St. unfold step_park in St. destruct (lock s) as [[c [|]]|] eqn:El; try done. injection St as <-.
  destruct (locked_names m p s _ _ W El) as (Pp & _). pose proof (ok_names _ _ _ W) as [Nd Lt]. unfold waiters in Nd, Lt. rewrite El in Nd, Lt.
  assert (P : ((sleepers s ++ [c]) ++ awake s ++ []).*1 ≡ₚ (sleepers s ++ awake s ++ [c]).*1).
  { apply fmap_Permutation. rewrite app_nil_r, <- app_assoc. apply Permutation_app_head, Permutation_app_comm. }
  pose proof (ok_park _ _ _ W c El) as R. destruct W. constructor; cbn; try done.
  - intros _. right. unfold room in *. cbn in *. lia.
  - unfold waiters. cbn [lock sleepers awake next]. split; [by rewrite P|]. intros t. rewrite P. apply Lt.
Qed.

Lemma resume_ok m p s s' t : wait_ok m p s -> step_resume s t = Some s' -> wait_ok m p s'.
Proof.
  intros W St. unfold step_resume in St. destruct (lock s) eqn:El; [done|]. destruct (find _ (awake s)) as [c|] eqn:Ef; [|done]. injection St as <-.
  apply find_some in Ef as [I Et]. apply Nat.eqb_eq in Et. subst t. apply list_elem_of_In in I.
  destruct (unlocked_names m p s W El) as (Nd & Lt & Wk & Bl).
  assert (P : awake s ≡ₚ c :: filter (fun c' : call => c'.1 <> c.1) (awake s)).
  { rewrite fmap_app in Nd. apply NoDup_app in Nd as (_ & _ & Nd). clear -I Nd. induction (awake s) as [|a l IH]; [by apply not_elem_of_nil in I|].
    cbn in Nd. apply NoDup_cons in Nd as [Na Nd]. apply elem_of_cons in I as [->|I].
    - rewrite filter_cons_False by (intros N; by apply N). f_equiv. symmetry. rewrite list_filter_all; [done|]. apply Forall_forall.
      intros b Ib Eb. apply Na. rewrite <- Eb. apply list_elem_of_fmap. by exists b.
    - rewrite filter_cons_True; [rewrite (IH I Nd) at 1; apply perm_swap|]. intros E. apply Na. rewrite E. apply list_elem_of_fmap. by exists c. }
  assert (Pn : (sleepers s ++ filter (fun c' : call => c'.1 <> c.1) (awake s) ++ [c]).*1 ≡ₚ (sleepers s ++ awake s).*1).
  { apply fmap_Permutation. rewrite P at 2. apply Permutation_app_head. symmetry. apply Permutation_cons_append. }
  destruct W. constructor; cbn; try done.
  - intros C. destruct (Wk C) as [|K]; [by left|right]. apply Permutation_length in P. cbn in P. unfold testing, room in *. cbn. lia.
  - unfold waiters. cbn [lock sleepers awake next]. split; [by rewrite Pn|]. intros t'. rewrite Pn. apply Lt.
  - intros Np. destruct (Bl Np) as [_ E]. rewrite E in I. by apply not_elem_of_nil in I.
Qed.

Lemma take_ok m p s b w r : wait_ok m p s -> lock s = None -> Take zero (buf s) = Some (b, w, r) ->
  wait_ok m p (after s b w None (awake s) (next s) (entered s) (if r.2 : bool then left s ++ [r.1] else left s) (answers s)).
Proof.
  intros W E Et. destruct (unlocked_names m p s W E) as (Nd & Lt & Wk & Bl). pose proof (Take_spec zero (buf s) (ok_buf _ _ _ W)) as K.
  pose proof (length_contents zero (buf s)) as Lc. pose proof (ok_fifo _ _ _ W) as Fi. destruct (contents zero (buf s)) as [|x q] eqn:Q.
  - rewrite K in Et. injection Et as <- <- <-. apply after_ok; try done; try apply W. intros C _. destruct (Wk C); [by left|right; unfold room in *; lia].
  - destruct K as (b' & Et' & W' & Q' & Sb & D). rewrite Et' in Et. injection Et as <- <- <-.
    apply after_ok; try done; [eapply same_params; [apply W|done]|cbn; by rewrite Q', Fi, <- app_assoc|].
    intros C _. destruct Sb as (Em & _ & Ec). rewrite Ec in C. destruct (Wk C) as [|K]; [by left|right]. unfold room in K. rewrite Em.
    pose proof (length_contents zero b') as L'. rewrite Q' in L'. cbn in Lc. pose proof (wf_count _ _ (ok_buf _ _ _ W)). lia.
Qed.

Lemma call_step_ok m p s l s' : wait_ok m p s -> step s l = Some s' -> wait_ok m p s'.
Proof.
  intros W St. assert (U : forall B (k : option B) v, unlocked s k = Some v -> lock s = None /\ k = Some v)
    by (intros B k v; unfold unlocked; by destruct (lock s)).
  destruct l as [x| | |t|x| | | | |]; cbn [step] in St.
  - apply U in St as [E St]. by apply (start_add_ok m p s s' x).
  - by apply (test_ok m p s).
  - by apply (park_ok m p s).
  - by apply (resume_ok m p s s' t).
  - apply U in St as [E St]. by apply (try_add_ok m p s s' x).
  - apply U in St as [E St]. apply bind_Some in St as ([[b w] r] & Et & [= <-]). by apply take_ok.
  - apply U in St as [E St]. destruct (unlocked_names m p s W E) as (Nd & Lt & Wk & Bl).
    destruct (Drain_spec zero (buf s) (ok_buf _ _ _ W)) as (b' & w & Ed & W' & Q & Sb & D & Ew & K). rewrite Ed in St. injection St as <-.
    apply after_ok; try done; [eapply same_params; [apply W|done]|by rewrite Q, app_nil_r, (ok_fifo _ _ _ W)|].
    intros C Nw. destruct w; [|by destruct (contents zero (buf s))|done]. rewrite (K eq_refl) in *. destruct (Wk C); [by left|right; unfold room in *; lia].
  - apply U in St as [E St]. destruct (unlocked_names m p s W E) as (Nd & Lt & Wk & Bl).
    destruct (Clear_spec zero (buf s) (ok_buf _ _ _ W)) as (b' & Ed & W' & Q & Sb & D). rewrite Ed in St. injection St as <-.
    apply after_ok; try done; [eapply same_params; [apply W|done]|by rewrite Q, app_nil_r, (ok_fifo _ _ _ W)].
  - injection St as <-. destruct W as [[] ? ? ? ? ? ?]. constructor; try done.
  - destruct (pending s) as [|n]; [done|]. injection St as <-.
    assert (P : ([] ++ (awake s ++ sleepers s) ++ match lock s with Some (c, _) => [c] | None => [] end).*1 ≡ₚ waiters s).
    { apply fmap_Permutation. cbn. rewrite (assoc_L (++)). apply Permutation_app_tail, Permutation_app_comm. }
    destruct W as [? ? ? ? ? [Nd Lt] Bl]. constructor; cbn; try done.
    + intros _. by left.
    + unfold waiters in *. cbn [lock sleepers awake next]. split; [by rewrite P|]. intros t. rewrite P. apply Lt.
    + intros Np. destruct (Bl Np) as (-> & -> & ->). done.
Qed.

Lemma run_ok_wait m p s ls s' : wait_ok m p s -> run s ls = Some s' -> wait_ok m p s'.
Proof.
  unfold run. revert s. induction ls as [|l ls IH]; intros s W E; cbn in E; [by injection E as <-|].
  destruct (step s l) as [s1|] eqn:St; [by apply (IH s1); [apply (call_step_ok m p s l)|]|]. clear -E. exfalso. induction ls; [done|by apply IHls].
Qed.

(** C21: in any interleaving of calls, from a new buffer: items leave in the
    order they entered and the buffer never holds more than its size; whoever
    has the lock can go on; and while the buffer is open no call sleeps while
    there is room that no woken call is about to take, so when no goroutine
    can move by itself a call waits only on a full buffer, and only with the
    policy [Block]. *)
Theorem no_lost_wakeup m p ls s : run (start m p) ls = Some s ->
  entered s = left s ++ contents zero (buf s) /\ len (contents zero (buf s)) <= Z.max 1 m /\
  (exists s', step s (match lock s with None => LTake | Some (_, Testing) => LTest | Some (_, Parking) => LPark end) = Some s') /\
  (closed (buf s) = false -> sleepers s <> [] -> p = Block /\ (room s <= length (awake s) + testing s)%nat) /\
  (closed (buf s) = false -> sleepers s <> [] -> lock s = None -> awake s = [] -> len (contents zero (buf s)) = Z.max 1 m).
Proof.
  intros R. pose proof (run_ok_wait _ p _ ls s (wait_start_ok m p) R) as W. destruct (New_spec zero m p) as (_ & _ & Em & _).
  pose proof (ok_buf _ _ _ W) as Wb. destruct (ok_params _ _ _ W) as [Pm Pp]. pose proof (wf_count _ _ Wb) as Wc.
  assert (Lc : len (contents zero (buf s)) = Z.of_nat (count (buf s))) by (unfold len; by rewrite length_contents).
  split; [apply W|]. split; [rewrite Lc; lia|]. split; [|split].
  - destruct (lock s) as [[[t x] [|]]|] eqn:El; cbn [step].
    + unfold step_test. rewrite El. unfold addLoop. destruct (Nat.leb_spec (maxSize (buf s)) (count (buf s))), (closed (buf s)); cbn; try by eexists.
      destruct (put_spec zero (buf s) x Wb) as (b' & -> & _); [lia|]. by eexists.
    + unfold step_park. rewrite El. by eexists.
    + unfold unlocked. rewrite El. pose proof (Take_spec zero (buf s) Wb) as K. destruct (contents zero (buf s)); [rewrite K; by eexists|].
      destruct K as (b' & -> & _). by eexists.
  - intros C N. destruct (ok_wake _ _ _ W C) as [|K]; [done|]. split; [|done]. destruct (decide (p = Block)) as [|Np]; [done|].
    by destruct (ok_block _ _ _ W Np) as (? & _).
  - intros C N El Ea. destruct (ok_wake _ _ _ W C) as [|K]; [done|]. unfold testing, room in K. rewrite El, Ea in K. cbn in K. lia.
Qed.

(** A call that sleeps in a closed buffer, with no broadcast to come. *)
Definition stranded (c : call) (s : sys) : Prop := closed (buf s) = true /\ pending s = O /\ c ∈ sleepers s.
(** The calls that wake others: those that take items, and [Close]. *)
Definition rousing (l : label) : Prop := match l with LTake | LDrain | LClear | LCloseStore => True | _ => False end.

Lemma stranded_step c s l s' : stranded c s -> ~ rousing l -> step s l = Some s' -> stranded c s'.
Proof.
  intros (C & P & I) N St. assert (U : forall B (k : option B) v, unlocked s k = Some v -> k = Some v)
    by (intros B k v; unfold unlocked; by destruct (lock s)).
  destruct l as [x| | |t|x| | | | |]; try (by destruct N); cbn [step] in St.
  - apply U in St. unfold step_add, Add in St. rewrite C in St. cbn in St. injection St as <-. by split.
  - unfold step_test in St. destruct (lock s) as [[[t x] [|]]|]; try done. unfold addLoop in St. rewrite C, andb_false_r in St. cbn in St.
    injection St as <-. by split.
  - unfold step_park in St. destruct (lock s) as [[c' [|]]|]; try done. injection St as <-. split; [done|]. split; [done|].
    cbn. apply elem_of_app. by left.
  - unfold step_resume in St. destruct (lock s); [done|]. destruct (find _ (awake s)); [|done]. injection St as <-. by split.
  - apply U in St. unfold step_try, TryAdd in St. rewrite C in St. cbn in St. injection St as <-. by split.
  - rewrite P in St. done.
Qed.

(** The comment of [Close] says blocked additions return false, but it
    takes no lock: a [Close] that falls between the test of an addition and
    its wait wakes nobody, and the addition sleeps on, in a closed buffer,
    whatever is called, until items are taken or the buffer is closed again. *)
Theorem close_can_strand (x : A) : exists ls s, run (start 1 Block) ls = Some s /\ stranded (1%nat, x) s /\
  forall ks s', Forall (fun l => ~ rousing l) ks -> run s ks = Some s' -> stranded (1%nat, x) s'.
Proof.
  exists [LAdd x; LAdd x; LTest; LCloseStore; LBroadcast; LPark].
  exists (mkSys (mkBO 1 Block [x] 0 0 1 0 true) None [(1%nat, x)] [] 0 2 [x] [] [(0%nat, true)]). split; [vm_compute; reflexivity|].
  assert (K : forall c ks s s', stranded c s -> Forall (fun l => ~ rousing l) ks -> run s ks = Some s' -> stranded c s').
  { intros c ks. unfold run. induction ks as [|l ks IH]; intros s s' S F E; cbn in E; [by injection E as <-|].
    apply Forall_cons in F as [Fl F]. destruct (step s l) as [s1|] eqn:St; [apply (IH s1); [by apply (stranded_step c s l)|done..]|].
    exfalso. clear -E. induction ks; [done|by apply IHks]. }
  match goal with |- stranded _ ?t /\ _ => assert (S : stranded (1%nat, x) t) end.
  { split; [done|]. split; [done|]. cbn. by left. }
  split; [exact S|]. intros ks s' F E. by apply (K _ ks _ s' S).
Qed.
End Calls.

(** Two producers and a consumer on one place. *)
Definition two_calls : list (label (A := Z)) := [LAdd 1; LAdd 2; LTest; LPark; LTake; LTryAdd 3; LResume 1; LTest; LPark].
Definition waiting_state : sys (A := Z) :=
  mkSys (mkBO 1 Block [3] 0 0 1 0 false) None [(1%nat, 2)] [] 0 3 [1; 3] [1] [(0%nat, true); (2%nat, true)].

Lemma no_lost_wakeup_witness : run 0 (start 0 1 Block) two_calls = Some waiting_state /\ entered waiting_state = left waiting_state ++ contents 0 (buf waiting_state) /\ len (contents 0 (buf waiting_state)) = 1.
Proof.
  assert (R : run 0 (start 0 1 Block) two_calls = Some waiting_state) by (vm_compute; reflexivity). split; [exact R|].
  destruct (no_lost_wakeup 0 1 Block two_calls waiting_state R) as (F & _ & _ & _ & K). split; [exact F|].
  apply K; [reflexivity|discriminate|reflexivity|reflexivity].
Defined.
End BoundedWait.
