(* ===== verification/PriorityQueue.v ===== *)
(** * The priority queue of pipelines (core/concurrency/priority_queue.go)

    A binary heap in a slice, with the position of every pipeline in a map.
    An access out of range is [None], as the code would panic; the loops have
    fuel, the length of the slice. *)

From S2P Require Import Prelude.

Module PriorityQueue.

(** Of the runner, whether there is one; the cancel function is set when the
    scheduler starts a pipeline that has a runner, which is when the effect
    [EStart] is recorded.  The priority is the integer of [PipelinePriority]. *)
Record SchedulablePipeline := mkPipeline {
  PID : string; Priority : Z; SpawnTime : Z; Dependencies : list string; Runner : bool }.

#[export] Instance SchedulablePipeline_eq_dec : EqDecision SchedulablePipeline.
Proof. solve_decision. Defined.

Definition PriorityLow : Z := 0.
Definition PriorityNormal : Z := 1.
Definition PriorityHigh : Z := 2.
Definition PriorityCritical : Z := 3.

Record PipelinePriorityQueue := mkPQ { items : list SchedulablePipeline; index : gmap string nat }.

Definition NewPipelinePriorityQueue : PipelinePriorityQueue := mkPQ [] ∅.

(** The order of [less], on the pipelines. *)
Definition before (a b : SchedulablePipeline) : bool :=
  if negb (Priority a =? Priority b) then Priority b <? Priority a else SpawnTime a <? SpawnTime b.

Definition less (pq : PipelinePriorityQueue) (i j : nat) : option bool :=
  a ← items pq !! i; b ← items pq !! j; Some (before a b).

Definition swap (pq : PipelinePriorityQueue) (i j : nat) : option PipelinePriorityQueue :=
  a ← items pq !! i;
  b ← items pq !! j;
  Some (mkPQ (<[j := a]> (<[i := b]> (items pq))) (<[PID a := j]> (<[PID b := i]> (index pq)))).

Fixpoint heapUp (fuel : nat) (pq : PipelinePriorityQueue) (idx : nat) : option PipelinePriorityQueue :=
  match fuel with
  | O => None
  | S fuel =>
    if (0 <? idx)%nat then
      let parent := ((idx - 1) / 2)%nat in
      lt ← less pq idx parent;
      if lt : bool then pq ← swap pq idx parent; heapUp fuel pq parent else Some pq
    else Some pq
  end.

Definition findSmallest (pq : PipelinePriorityQueue) (current candidate : nat) : option nat :=
  if (candidate <? length (items pq))%nat then
    lt ← less pq candidate current; Some (if lt : bool then candidate else current)
  else Some current.

Fixpoint heapDown (fuel : nat) (pq : PipelinePriorityQueue) (idx : nat) : option PipelinePriorityQueue :=
  match fuel with
  | O => None
  | S fuel =>
    smallest ← findSmallest pq idx (2 * idx + 1);
    smallest ← findSmallest pq smallest (2 * idx + 2);
    if Nat.eqb smallest idx then Some pq
    else pq ← swap pq idx smallest; heapDown fuel pq smallest
  end.

(** Fuel for the loops. *)
Definition enough (pq : PipelinePriorityQueue) : nat := S (length (items pq)).

Definition Push (pq : PipelinePriorityQueue) (p : SchedulablePipeline) : option PipelinePriorityQueue :=
  let pq := mkPQ (items pq ++ [p]) (<[PID p := length (items pq)]> (index pq)) in
  heapUp (enough pq) pq (length (items pq) - 1).

Definition removeAtIndex (pq : PipelinePriorityQueue) (idx : nat) : option PipelinePriorityQueue :=
  let lastIdx := (length (items pq) - 1)%nat in
  x ← items pq !! idx;
  last ← items pq !! lastIdx;
  let index := delete (PID x) (index pq) in
  let pq :=
    if Nat.eqb idx lastIdx then mkPQ (take lastIdx (items pq)) index
    else mkPQ (take lastIdx (<[idx := last]> (items pq))) (<[PID last := idx]> index) in
  if (idx <? length (items pq))%nat then
    pq ← heapDown (enough pq) pq idx; heapUp (enough pq) pq idx
  else Some pq.

Definition Pop (pq : PipelinePriorityQueue) : option (PipelinePriorityQueue * option SchedulablePipeline) :=
  match items pq with
  | [] => Some (pq, None)
  | top :: _ => pq ← removeAtIndex pq 0; Some (pq, Some top)
  end.

Definition Peek (pq : PipelinePriorityQueue) : option SchedulablePipeline := head (items pq).

Definition Remove (pq : PipelinePriorityQueue) (id : string) : option (PipelinePriorityQueue * bool) :=
  match index pq !! id with
  | None => Some (pq, false)
  | Some idx => pq ← removeAtIndex pq idx; Some (pq, true)
  end.

Definition Len (pq : PipelinePriorityQueue) : Z := len (items pq).
Definition Contains (pq : PipelinePriorityQueue) (id : string) : bool := bool_decide (is_Some (index pq !! id)).
Definition All (pq : PipelinePriorityQueue) : list SchedulablePipeline := items pq.

(* ------------------------------------------------------------------ *)
(** ** The order *)

(** [a] may stand above [b]. *)
Definition above (a b : SchedulablePipeline) : Prop := before b a = false.

Lemma above_refl a : above a a.
Proof. unfold above, before. rewrite Z.eqb_refl. cbn. lia. Qed.
Lemma above_trans a b c : above a b -> above b c -> above a c.
Proof.
  unfold above, before. destruct (Z.eqb_spec (Priority b) (Priority a)), (Z.eqb_spec (Priority c) (Priority b)),
    (Z.eqb_spec (Priority c) (Priority a)); cbn; lia.
Qed.
Lemma above_total a b : above a b \/ above b a.
Proof. unfold above, before. rewrite (Z.eqb_sym (Priority b)). destruct (Z.eqb_spec (Priority a) (Priority b)); cbn; lia. Qed.
Lemma before_above a b : before a b = true -> above a b.
Proof. unfold above, before. rewrite (Z.eqb_sym (Priority b)). destruct (Z.eqb_spec (Priority a) (Priority b)); cbn; lia. Qed.

(* ------------------------------------------------------------------ *)
(** ** Positions *)

Definition par (i : nat) : nat := ((i - 1) / 2)%nat.

Lemma par_lt i : (0 < i)%nat -> (par i < i)%nat.
Proof. intros P. unfold par. apply Nat.Div0.div_lt_upper_bound. lia. Qed.
Lemma par_left k : par (2 * k + 1) = k.
Proof. unfold par. replace (2 * k + 1 - 1)%nat with (k * 2)%nat by lia. by apply Nat.div_mul. Qed.
Lemma par_right k : par (2 * k + 2) = k.
Proof. unfold par. replace (2 * k + 2 - 1)%nat with (1 + k * 2)%nat by lia. by rewrite Nat.div_add. Qed.
Lemma par_child i k : (0 < i)%nat -> par i = k -> i = (2 * k + 1)%nat \/ i = (2 * k + 2)%nat.
Proof.
  intros P <-. unfold par. pose proof (Nat.div_mod (i - 1) 2 ltac:(lia)). pose proof (Nat.mod_upper_bound (i - 1) 2 ltac:(lia)). lia.
Qed.

(** The item at [i] may stand above that at [j]. *)
Definition ordered (l : list SchedulablePipeline) (i j : nat) : Prop :=
  forall a b, l !! i = Some a -> l !! j = Some b -> above a b.

Definition heap (l : list SchedulablePipeline) : Prop := forall i, (0 < i)%nat -> ordered l (par i) i.

(** The item at [k] may be too high for its place, ... *)
Definition heap_up (l : list SchedulablePipeline) (k : nat) : Prop :=
  (forall i, (0 < i)%nat -> i <> k -> ordered l (par i) i) /\
  (forall i, (0 < i)%nat -> (0 < k)%nat -> par i = k -> ordered l (par k) i).
(** ... too low, ... *)
Definition heap_down (l : list SchedulablePipeline) (k : nat) : Prop :=
  (forall i, (0 < i)%nat -> par i <> k -> ordered l (par i) i) /\
  (forall i, (0 < i)%nat -> (0 < k)%nat -> par i = k -> ordered l (par k) i).
(** ... or both. *)
Definition heap_hole (l : list SchedulablePipeline) (k : nat) : Prop :=
  (forall i, (0 < i)%nat -> i <> k -> par i <> k -> ordered l (par i) i) /\
  (forall i, (0 < i)%nat -> (0 < k)%nat -> par i = k -> ordered l (par k) i).

(** The map gives the positions. *)
Definition indexed (pq : PipelinePriorityQueue) : Prop :=
  forall id i, index pq !! id = Some i <-> exists p, items pq !! i = Some p /\ PID p = id.
Definition pq_wf (pq : PipelinePriorityQueue) : Prop := heap (items pq) /\ indexed pq.

(* ------------------------------------------------------------------ *)
(** ** Exchanging two items *)

Definition exchanged (l : list SchedulablePipeline) (i j : nat) (a b : SchedulablePipeline) : list SchedulablePipeline :=
  <[j := a]> (<[i := b]> l).

Lemma exchanged_lookup l i j a b x : i <> j -> l !! i = Some a -> l !! j = Some b ->
  exchanged l i j a b !! x = if decide (x = i) then Some b else if decide (x = j) then Some a else l !! x.
Proof.
  intros N Ei Ej. unfold exchanged. assert (Li : (i < length l)%nat) by by eapply lookup_lt_Some.
  assert (Lj : (j < length l)%nat) by by eapply lookup_lt_Some.
  destruct (decide (x = i)) as [->|Ni]; [rewrite list_lookup_insert_ne by done; by apply list_lookup_insert_eq|].
  destruct (decide (x = j)) as [->|Nj]; [apply list_lookup_insert_eq; by rewrite length_insert|].
  by rewrite !list_lookup_insert_ne.
Qed.

Lemma exchanged_perm l i j a b : i <> j -> l !! i = Some a -> l !! j = Some b -> exchanged l i j a b ≡ₚ l.
Proof.
  intros N Ei Ej. apply Permutation_inj. split; [unfold exchanged; by rewrite !length_insert|].
  exists (fun x => if decide (x = i) then j else if decide (x = j) then i else x). split.
  - intros x y. repeat case_decide; congruence.
  - intros x. rewrite (exchanged_lookup l i j a b) by done. repeat case_decide; congruence.
Qed.

Lemma indexed_inj pq i j a b : indexed pq -> items pq !! i = Some a -> items pq !! j = Some b -> PID a = PID b -> i = j.
Proof.
  intros X Ei Ej E. assert (K1 : index pq !! PID a = Some i) by (apply X; eauto).
  assert (K2 : index pq !! PID a = Some j) by (apply X; eauto). congruence.
Qed.

Lemma swap_eq pq i j a b : items pq !! i = Some a -> items pq !! j = Some b ->
  swap pq i j = Some (mkPQ (exchanged (items pq) i j a b) (<[PID a := j]> (<[PID b := i]> (index pq)))).
Proof. intros Ei Ej. unfold swap. by rewrite Ei, Ej. Qed.

Lemma swap_indexed pq i j a b : i <> j -> items pq !! i = Some a -> items pq !! j = Some b -> indexed pq ->
  indexed (mkPQ (exchanged (items pq) i j a b) (<[PID a := j]> (<[PID b := i]> (index pq)))).
Proof.
  intros N Ei Ej X id x. cbn [items index]. rewrite (exchanged_lookup _ i j a b) by done.
  assert (Nab : PID a <> PID b) by (intros E; apply N; by apply (indexed_inj pq i j a b)).
  assert (K : forall y p, items pq !! y = Some p -> (PID p = PID a -> y = i) /\ (PID p = PID b -> y = j)).
  { intros y p Ey. split; intros E; by eapply indexed_inj. }
  destruct (decide (id = PID a)) as [->|Na]; [rewrite lookup_insert_eq|rewrite lookup_insert_ne by done; destruct (decide (id = PID b)) as [->|Nb];
    [rewrite lookup_insert_eq|rewrite lookup_insert_ne, (X id x) by done]].
  - split; [intros [= <-]; exists a; rewrite decide_False, decide_True by done; done|].
    intros (p & E & Ep). destruct (decide (x = i)) as [->|Ni]; [injection E as <-; congruence|]. destruct (decide (x = j)) as [->|Nj]; [done|].
    by destruct Ni; apply (K x p).
  - split; [intros [= <-]; exists b; by rewrite decide_True|].
    intros (p & E & Ep). destruct (decide (x = i)) as [->|Ni]; [done|]. destruct (decide (x = j)) as [->|Nj]; [injection E as <-; congruence|].
    by destruct Nj; apply (K x p).
  - split; intros (p & E & Ep).
    + destruct (decide (x = i)) as [->|Ni]; [rewrite Ei in E; injection E as <-; congruence|].
      destruct (decide (x = j)) as [->|Nj]; [rewrite Ej in E; injection E as <-; congruence|]. by exists p.
    + destruct (decide (x = i)) as [->|Ni]; [injection E as <-; congruence|].
      destruct (decide (x = j)) as [->|Nj]; [injection E as <-; congruence|]. by exists p.
Qed.

(* ------------------------------------------------------------------ *)
(** ** The loops *)

(** What one exchange does to the order: [p] is above [c] and they change
    places. *)
Lemma ordered_exchanged l i j a b x y : i <> j -> l !! i = Some a -> l !! j = Some b ->
  (forall u v, (if decide (x = i) then Some b else if decide (x = j) then Some a else l !! x) = Some u ->
     (if decide (y = i) then Some b else if decide (y = j) then Some a else l !! y) = Some v -> above u v) ->
  ordered (exchanged l i j a b) x y.
Proof. intros N Ei Ej K u v Eu Ev. rewrite (exchanged_lookup l i j a b) in Eu, Ev by done. by apply K. Qed.

(** An item that is higher than its parent changes places with it. *)
Lemma up_step l k a b : (0 < k)%nat -> heap_up l k -> l !! k = Some a -> l !! par k = Some b -> before a b = true ->
  heap_up (exchanged l k (par k) a b) (par k).
Proof.
  intros P [U G] Ea Eb Bf. pose proof (par_lt k P) as Lp. pose proof (before_above a b Bf) as Ab.
  assert (N : k <> par k) by lia. split.
  - intros i Pi Ni. apply ordered_exchanged; [done..|]. intros u v Eu Ev. pose proof (par_lt i Pi) as Li.
    destruct (decide (i = k)) as [->|Nk].
    + destruct (decide (par k = k)) as [E|_]; [lia|]. rewrite decide_True in Eu by done. injection Eu as <-. injection Ev as <-. done.
    + rewrite decide_False in Ev by done. destruct (decide (par i = k)) as [Ek|Nk'].
      * injection Eu as <-. by apply (G i Pi P Ek b v).
      * destruct (decide (par i = par k)) as [Ep|Np].
        { injection Eu as <-. apply (above_trans a b v); [done|]. apply (U i Pi Nk); [by rewrite Ep|done]. }
        by apply (U i Pi Nk u v).
  - intros i Pi Pp Ei. apply ordered_exchanged; [done..|]. intros u v Eu Ev. pose proof (par_lt (par k) Pp) as Lpp.
    rewrite decide_False in Eu by lia. rewrite decide_False in Eu by lia.
    assert (Ub : above u b) by (by apply (U (par k) Pp ltac:(lia) u b)).
    destruct (decide (i = k)) as [->|Nk]; [by injection Ev as <-|]. pose proof (par_lt i Pi).
    destruct (decide (i = par k)) as [->|Nk']; [lia|]. apply (above_trans u b v); [done|]. apply (U i Pi Nk); [by rewrite Ei|done].
Qed.

(** What the loops keep. *)
Definition same_items (pq pq' : PipelinePriorityQueue) : Prop := items pq' ≡ₚ items pq /\ indexed pq'.

Lemma heapUp_spec fuel pq k : (k < length (items pq))%nat -> (k < fuel)%nat -> heap_up (items pq) k -> indexed pq ->
  exists pq', heapUp fuel pq k = Some pq' /\ heap (items pq') /\ same_items pq pq'.
Proof.
  revert pq k. induction fuel as [|fuel IH]; intros pq k Lk Lf U X; [lia|]. cbn [heapUp]. destruct (Nat.ltb_spec 0 k) as [P|P].
  2:{ exists pq. split; [done|]. split; [|done]. intros i Pi. apply U; [done|lia]. }
  fold (par k). pose proof (par_lt k P) as Lp.
  destruct (lookup_lt_is_Some_2 (items pq) k Lk) as [a Ea]. destruct (lookup_lt_is_Some_2 (items pq) (par k) ltac:(lia)) as [b Eb].
  unfold less. rewrite Ea, Eb. cbn [mbind option_bind]. destruct (before a b) eqn:Bf.
  - rewrite (swap_eq pq k (par k) a b) by done. cbn [mbind option_bind].
    destruct (IH (mkPQ (exchanged (items pq) k (par k) a b) (<[PID a := par k]> (<[PID b := k]> (index pq)))) (par k)) as (pq' & E & H & S).
    + cbn [items]. unfold exchanged. rewrite !length_insert. lia.
    + lia.
    + by apply up_step.
    + apply swap_indexed; [lia|done..].
    + exists pq'. split; [exact E|]. split; [exact H|]. split; [|apply S]. rewrite (proj1 S). apply exchanged_perm; [lia|done..].
  - exists pq. split; [done|]. split; [|done]. intros i Pi. destruct (decide (i = k)) as [->|N]; [|by apply U].
    intros u v Eu Ev. rewrite Eb in Eu. rewrite Ea in Ev. injection Eu as <-. injection Ev as <-. exact Bf.
Qed.

Lemma smallest_spec pq k a : items pq !! k = Some a -> exists s c,
  (s ← findSmallest pq k (2 * k + 1); findSmallest pq s (2 * k + 2)) = Some s /\ items pq !! s = Some c /\ above c a /\
  (s = k \/ (0 < s)%nat /\ par s = k) /\
  (forall i u, (0 < i)%nat -> par i = k -> items pq !! i = Some u -> above c u).
Proof.
  intros Ek.
  assert (F : forall s c i, items pq !! s = Some c -> exists s' c', findSmallest pq s i = Some s' /\ items pq !! s' = Some c' /\ above c' c /\
    (s' = s \/ s' = i) /\ (forall u, items pq !! i = Some u -> above c' u)).
  { intros s c i Es. unfold findSmallest. destruct (Nat.ltb_spec i (length (items pq))) as [L|L].
    - destruct (lookup_lt_is_Some_2 (items pq) i L) as [d Ed]. unfold less. rewrite Ed, Es. cbn [mbind option_bind].
      destruct (before d c) eqn:Bf.
      + exists i, d. split_and!; [done|done|by apply before_above|by right|]. intros u [= <-]. apply above_refl.
      + exists s, c. split_and!; [done|done|apply above_refl|by left|]. by intros u [= <-].
    - exists s, c. split_and!; [done|done|apply above_refl|by left|]. intros u Eu%lookup_lt_Some. lia. }
  destruct (F k a (2 * k + 1)%nat Ek) as (s1 & c1 & E1 & L1 & A1 & D1 & U1).
  destruct (F s1 c1 (2 * k + 2)%nat L1) as (s2 & c2 & E2 & L2 & A2 & D2 & U2).
  exists s2, c2. rewrite E1. cbn [mbind option_bind]. split_and!; [done|done|by apply (above_trans c2 c1)| |].
  - destruct D2 as [->| ->]; [destruct D1 as [->| ->]; [by left|right]|right]; (split; [lia|]); [apply par_left|apply par_right].
  - intros i u Pi Ei Eu. destruct (par_child i k Pi Ei) as [->| ->]; [apply (above_trans c2 c1); [done|by apply U1]|by apply U2].
Qed.

(** An item that is lower than a child changes places with the higher child. *)
Lemma down_step l k s a c : heap_hole l k -> l !! k = Some a -> l !! s = Some c -> (0 < s)%nat -> par s = k ->
  above c a -> (forall i u, (0 < i)%nat -> par i = k -> l !! i = Some u -> above c u) -> heap_down (exchanged l k s a c) s.
Proof.
  intros [D G] Ea Ec Ps Es Ab Al. pose proof (par_lt s Ps) as Ls. assert (N : k <> s) by lia. split.
  - intros i Pi Ni. apply ordered_exchanged; [done..|]. intros u v Eu Ev. pose proof (par_lt i Pi) as Li.
    rewrite (decide_False (P := par i = s)) in Eu by done.
    destruct (decide (i = k)) as [->|Nk].
    + injection Ev as <-. rewrite decide_False in Eu by lia. by apply (G s Ps ltac:(lia) Es u c).
    + destruct (decide (par i = k)) as [Ek|Nk'].
      * injection Eu as <-. destruct (decide (i = s)) as [->|Ns]; [by injection Ev as <-|by apply (Al i v)].
      * destruct (decide (i = s)) as [->|Ns]; [done|]. by apply (D i Pi Nk Nk' u v).
  - intros i Pi _ Ei. apply ordered_exchanged; [done..|]. intros u v Eu Ev. pose proof (par_lt i Pi) as Li.
    rewrite decide_True in Eu by done. injection Eu as <-. rewrite decide_False in Ev by lia. rewrite decide_False in Ev by lia.
    apply (D i Pi ltac:(lia) ltac:(lia) c v); [by rewrite Ei|done].
Qed.

Lemma heap_down_hole l k : heap_down l k -> heap_hole l k.
Proof. intros [D G]. split; [|done]. intros i Pi _. by apply D. Qed.

Lemma heapDown_spec fuel pq k : (k < length (items pq))%nat -> (length (items pq) < fuel + k)%nat -> heap_hole (items pq) k -> indexed pq ->
  exists pq', heapDown fuel pq k = Some pq' /\ same_items pq pq' /\ heap_up (items pq') k /\ (heap_down (items pq) k -> heap (items pq')).
Proof.
  revert pq k. induction fuel as [|fuel IH]; intros pq k Lk Lf Ho X; [lia|]. cbn [heapDown].
  destruct (lookup_lt_is_Some_2 (items pq) k Lk) as [a Ea]. destruct (smallest_spec pq k a Ea) as (s & c & E & Es & Ab & Cs & Al).
  apply bind_Some in E as (s1 & E1 & E2). rewrite E1. cbn [mbind option_bind]. rewrite E2. cbn [mbind option_bind].
  destruct (Nat.eqb_spec s k) as [->|Ns].
  - rewrite Ea in Es. injection Es as <-. exists pq. split; [done|]. split; [done|]. split.
    + destruct Ho as [D G]. split; [|done]. intros i Pi Ni. destruct (decide (par i = k)) as [Ek|Nk]; [|by apply D].
      intros u v Eu Ev. rewrite Ek, Ea in Eu. injection Eu as <-. by apply (Al i).
    + intros [D _] i Pi. destruct (decide (par i = k)) as [Ek|Nk]; [|by apply D].
      intros u v Eu Ev. rewrite Ek, Ea in Eu. injection Eu as <-. by apply (Al i).
  - destruct Cs as [|[Ps Ek]]; [done|]. pose proof (par_lt s Ps) as Ls. rewrite (swap_eq pq k s a c) by done. cbn [mbind option_bind].
    set (pq1 := mkPQ _ _). assert (L1 : length (items pq1) = length (items pq)) by (cbn [items pq1]; unfold exchanged; by rewrite !length_insert).
    assert (D1 : heap_down (items pq1) s) by by apply (down_step (items pq) k s a c).
    destruct (IH pq1 s) as (pq' & E' & S' & _ & H'); [rewrite L1; by eapply lookup_lt_Some|lia|by apply heap_down_hole|by apply swap_indexed|].
    specialize (H' D1). exists pq'. split; [exact E'|]. split; [|split; [|done]].
    + split; [|apply S']. rewrite (proj1 S'). cbn [items pq1]. by apply exchanged_perm.
    + split; [by intros i Pi _; apply H'|]. intros i Pi Pk Ei u v Eu Ev. pose proof (par_lt i Pi) as Li.
      destruct (lookup_lt_is_Some_2 (items pq') k) as [m Em]; [apply lookup_lt_Some in Ev; lia|].
      apply (above_trans u m v); [by apply (H' k Pk)|]. apply (H' i Pi); [by rewrite Ei|done].
Qed.

(* ------------------------------------------------------------------ *)
(** ** Removing *)

(** The slice without its item at [idx], the last item in its place. *)
Definition plugged (l : list SchedulablePipeline) (idx : nat) (z : SchedulablePipeline) : list SchedulablePipeline :=
  take (length l - 1) (<[idx := z]> l).

Lemma plugged_lookup l idx z i : (idx < length l - 1)%nat ->
  plugged l idx z !! i = if decide (i < length l - 1)%nat then (if decide (i = idx) then Some z else l !! i) else None.
Proof.
  intros L. unfold plugged. destruct (decide (i < length l - 1)%nat) as [Li|Li].
  - rewrite lookup_take_lt by done. destruct (decide (i = idx)) as [->|N]; [apply list_lookup_insert_eq; lia|by apply list_lookup_insert_ne].
  - apply lookup_take_ge. lia.
Qed.

Lemma delete_insert_here (l : list SchedulablePipeline) i z : delete i (<[i := z]> l) = delete i l.
Proof. revert i. induction l as [|x l IH]; intros [|i]; try done. cbn. f_equal. apply IH. Qed.

Lemma plugged_perm l idx x z : l !! idx = Some x -> l !! (length l - 1)%nat = Some z -> (idx < length l - 1)%nat ->
  l ≡ₚ x :: plugged l idx z.
Proof.
  intros Ex Ez L. assert (E : l = take (length l - 1) l ++ [z]).
  { rewrite <- (take_drop (length l - 1) l) at 1. f_equal. rewrite (drop_S _ _ _ Ez). rewrite drop_ge by lia. done. }
  unfold plugged. rewrite take_insert_lt by done. set (m := take (length l - 1) l) in *.
  assert (Em : m !! idx = Some x) by (unfold m; by rewrite lookup_take_lt).
  assert (Lm : (idx < length m)%nat) by by eapply lookup_lt_Some.
  rewrite E. rewrite (delete_Permutation m idx x Em) at 1.
  rewrite (delete_Permutation (<[idx := z]> m) idx z) by by apply list_lookup_insert_eq.
  rewrite delete_insert_here. rewrite Permutation_app_comm. cbn. apply perm_swap.
Qed.

Lemma hole_plugged l idx x z : heap l -> l !! idx = Some x -> (idx < length l - 1)%nat -> heap_hole (plugged l idx z) idx.
Proof.
  intros Hl Ex L. split.
  - intros i Pi Ni Np u v. rewrite !plugged_lookup by done. rewrite !(decide_False (P := _ = idx)) by done. repeat case_decide; try done. by apply Hl.
  - intros i Pi Pk Ei u v. rewrite !plugged_lookup by done. pose proof (par_lt idx Pk). pose proof (par_lt i Pi).
    rewrite (decide_False (P := par idx = idx)) by lia. rewrite (decide_False (P := i = idx)) by lia. repeat case_decide; try done.
    intros Eu Ev. apply (above_trans u x v); [by apply (Hl idx Pk)|]. apply (Hl i Pi); [by rewrite Ei|done].
Qed.

Lemma indexed_plugged pq idx x z : indexed pq -> items pq !! idx = Some x -> items pq !! (length (items pq) - 1)%nat = Some z ->
  (idx < length (items pq) - 1)%nat ->
  indexed (mkPQ (plugged (items pq) idx z) (<[PID z := idx]> (delete (PID x) (index pq)))).
Proof.
  intros X Ex Ez L id i. cbn [items index]. rewrite plugged_lookup by done.
  assert (Nxz : PID x <> PID z) by (intros E; assert (idx = length (items pq) - 1)%nat by (by eapply indexed_inj); lia).
  assert (K : forall j p, items pq !! j = Some p -> (PID p = PID x -> j = idx) /\ (PID p = PID z -> j = (length (items pq) - 1)%nat)).
  { intros j p Ej. split; intros E; by eapply indexed_inj. }
  destruct (decide (id = PID z)) as [->|Nz]; [rewrite lookup_insert_eq|rewrite lookup_insert_ne by done].
  - split; [intros [= <-]; exists z; by rewrite !decide_True by done|]. intros (p & E & Ep).
    case_decide; [|done]. case_decide; [by subst|]. destruct (K i p E) as [_ K2]. specialize (K2 Ep). lia.
  - destruct (decide (id = PID x)) as [->|Nx]; [rewrite lookup_delete_eq|rewrite lookup_delete_ne, (X id i) by done].
    + split; [done|]. intros (p & E & Ep). case_decide; [|done]. case_decide as Ei; [congruence|]. by destruct Ei; apply (K i p).
    + split; intros (p & E & Ep).
      * exists p. assert (Ni : i <> idx) by (intros ->; rewrite Ex in E; congruence).
        assert (Nl : i <> (length (items pq) - 1)%nat) by (intros ->; rewrite Ez in E; congruence).
        apply lookup_lt_Some in E as Li. rewrite decide_True by lia. by rewrite decide_False.
      * case_decide; [|done]. case_decide; [congruence|]. by exists p.
Qed.

Lemma take_wf pq x : pq_wf pq -> items pq !! (length (items pq) - 1)%nat = Some x ->
  let pq' := mkPQ (take (length (items pq) - 1) (items pq)) (delete (PID x) (index pq)) in pq_wf pq' /\ items pq ≡ₚ x :: items pq'.
Proof.
  intros [Hp X] Ex pq'. subst pq'. set (n := (length (items pq) - 1)%nat) in *.
  assert (T : forall i, take n (items pq) !! i = if decide (i < n)%nat then items pq !! i else None).
  { intros i. case_decide; [by apply lookup_take_lt|apply lookup_take_ge; lia]. }
  split; [split|]; cbn [items index].
  - intros i Pi u v. rewrite !T. repeat case_decide; try done. by apply Hp.
  - intros id i. cbn [items index]. rewrite T. destruct (decide (id = PID x)) as [->|N]; [rewrite lookup_delete_eq|rewrite lookup_delete_ne, (X id i) by done].
    + split; [done|]. intros (p & E & Ep). case_decide; [|done]. assert (i = n) by (by eapply indexed_inj). lia.
    + split; intros (p & E & Ep); exists p; [|by case_decide].
      apply lookup_lt_Some in E as Li. assert (i <> n) by (intros ->; rewrite Ex in E; congruence). rewrite decide_True; [done|unfold n in *; lia].
  - rewrite <- (take_drop n (items pq)) at 1. rewrite (drop_S _ _ _ Ex). rewrite (drop_ge _ (S n)) by (unfold n; lia).
    by rewrite Permutation_app_comm.
Qed.

Lemma removeAtIndex_spec pq idx x : pq_wf pq -> items pq !! idx = Some x ->
  exists pq', removeAtIndex pq idx = Some pq' /\ pq_wf pq' /\ items pq ≡ₚ x :: items pq'.
Proof.
  intros W Ex. pose proof (lookup_lt_Some _ _ _ Ex) as Li. unfold removeAtIndex. rewrite Ex. cbn [mbind option_bind].
  destruct (lookup_lt_is_Some_2 (items pq) (length (items pq) - 1)) as [z Ez]; [lia|]. rewrite Ez. cbn [mbind option_bind].
  destruct (Nat.eqb_spec idx (length (items pq) - 1)) as [->|N].
  - rewrite Ex in Ez. injection Ez as <-. destruct (take_wf pq x W Ex) as [W' P]. cbn [items]. rewrite length_take.
    destruct (Nat.ltb_spec (length (items pq) - 1) ((length (items pq) - 1) `min` length (items pq))); [lia|]. eexists. split; [done|]. by split.
  - assert (L : (idx < length (items pq) - 1)%nat) by lia. destruct W as [Hp X]. fold (plugged (items pq) idx z).
    set (pq1 := mkPQ (plugged (items pq) idx z) (<[PID z := idx]> (delete (PID x) (index pq)))).
    assert (Ln : length (items pq1) = (length (items pq) - 1)%nat).
    { cbn [items pq1]. unfold plugged. rewrite length_take, length_insert. lia. }
    destruct (Nat.ltb_spec idx (length (items pq1))); [|lia].
    destruct (heapDown_spec (enough pq1) pq1 idx) as (pq2 & E2 & S2 & U2 & _); [lia|unfold enough; lia|by apply (hole_plugged _ idx x)|by apply indexed_plugged|].
    rewrite E2. cbn [mbind option_bind]. assert (Ln2 : length (items pq2) = length (items pq1)) by (by rewrite (proj1 S2)).
    destruct (heapUp_spec (enough pq2) pq2 idx) as (pq3 & E3 & H3 & S3); [lia|unfold enough; lia|done|apply S2|].
    exists pq3. split; [done|]. split; [split; [done|apply S3]|]. rewrite (proj1 S3), (proj1 S2). by apply plugged_perm.
Qed.

(* ------------------------------------------------------------------ *)
(** ** The operations *)

Lemma new_wf : pq_wf NewPipelinePriorityQueue.
Proof. split; [by intros i _ a b E|]. intros id i. split; [done|]. by intros (p & E & _). Qed.

Lemma Contains_spec pq id : pq_wf pq -> Contains pq id = true <-> exists p, p ∈ items pq /\ PID p = id.
Proof.
  intros [_ X]. unfold Contains. rewrite bool_decide_eq_true. split.
  - intros [i (p & E & Ep)%X]. exists p. split; [by eapply list_elem_of_lookup_2|done].
  - intros (p & [i E]%list_elem_of_lookup & Ep). exists i. apply X. by exists p.
Qed.

Lemma wf_NoDup pq : pq_wf pq -> NoDup (PID <$> items pq).
Proof.
  intros [_ X]. apply NoDup_alt. intros i j id Ei Ej. apply list_lookup_fmap_Some in Ei as (a & -> & Ea).
  apply list_lookup_fmap_Some in Ej as (b & E & Eb). by apply (indexed_inj pq i j a b).
Qed.

Lemma Push_spec pq p : pq_wf pq -> Contains pq (PID p) = false -> exists pq', Push pq p = Some pq' /\ pq_wf pq' /\ items pq' ≡ₚ p :: items pq.
Proof.
  intros W Nc. pose proof W as [Hp X]. unfold Push. set (pq1 := mkPQ _ _). set (n := length (items pq)).
  assert (L1 : length (items pq1) = S n) by (cbn [items pq1]; rewrite length_app; cbn; lia).
  assert (Old : forall i, i <> n -> items pq1 !! i = items pq !! i).
  { intros i Ni. cbn [items pq1]. destruct (decide (i < n)%nat); [by apply lookup_app_l|].
    rewrite (proj2 (lookup_ge_None (items pq) i)) by (unfold n in *; lia). apply lookup_ge_None. rewrite length_app. cbn. unfold n in *. lia. }
  assert (New : items pq1 !! n = Some p) by (cbn [items pq1]; unfold n; by rewrite lookup_app_r, Nat.sub_diag).
  assert (U : heap_up (items pq1) n).
  { split; [|intros i Pi Pn Ei u v _ Ev; pose proof (par_lt i Pi); apply lookup_lt_Some in Ev; lia].
    intros i Pi Ni u v. pose proof (par_lt i Pi). rewrite (Old i Ni). destruct (decide (par i = n)) as [E|Nn]; [|rewrite Old by done; by apply Hp].
    intros _ Ev%lookup_lt_Some. unfold n in E. lia. }
  assert (X1 : indexed pq1).
  { intros id i. cbn [index pq1]. destruct (decide (id = PID p)) as [->|Ni]; [rewrite lookup_insert_eq|rewrite lookup_insert_ne, (X id i) by done].
    - split; [intros [= <-]; by exists p|]. intros (q & E & Eq). destruct (decide (i = n)) as [->|Nn]; [done|]. rewrite Old in E by done.
      exfalso. assert (C : Contains pq (PID p) = true) by (apply Contains_spec; [done|]; exists q; split; [by eapply list_elem_of_lookup_2|done]). congruence.
    - split; intros (q & E & Eq); exists q; (destruct (decide (i = n)) as [->|Nn]; [|by rewrite Old in * by done]).
      + apply lookup_lt_Some in E. unfold n in E. lia.
      + congruence. }
  destruct (heapUp_spec (enough pq1) pq1 (length (items pq1) - 1)) as (pq' & E & Hp' & S); [lia|unfold enough; lia| |done|].
  { by replace (length (items pq1) - 1)%nat with n by lia. }
  exists pq'. split; [done|]. split; [split; [done|apply S]|]. rewrite (proj1 S). cbn [items pq1]. by rewrite Permutation_app_comm.
Qed.

Lemma heap_top l a : heap l -> l !! 0%nat = Some a -> forall i b, l !! i = Some b -> above a b.
Proof.
  intros Hp Ea i. induction i as [i IH] using lt_wf_ind. intros b Eb. destruct (decide (i = 0%nat)) as [->|N].
  - rewrite Ea in Eb. injection Eb as <-. apply above_refl.
  - pose proof (par_lt i ltac:(lia)) as Lp. destruct (lookup_lt_is_Some_2 l (par i)) as [c Ec]; [apply lookup_lt_Some in Eb; lia|].
    apply (above_trans a c b); [by apply (IH (par i))|]. by apply (Hp i ltac:(lia)).
Qed.

Lemma Pop_spec pq : pq_wf pq -> exists pq', pq_wf pq' /\ match items pq with
  | [] => Pop pq = Some (pq, None)
  | top :: _ => Pop pq = Some (pq', Some top) /\ items pq ≡ₚ top :: items pq' /\ Forall (above top) (items pq)
  end.
Proof.
  intros W. unfold Pop. destruct (items pq) as [|top rest] eqn:Ei; [by exists pq|].
  destruct (removeAtIndex_spec pq 0 top W) as (pq' & E & W' & P); [by rewrite Ei|]. exists pq'. split; [done|]. rewrite E.
  split; [done|]. rewrite <- Ei. split; [done|]. apply Forall_forall. intros b [i Eb]%list_elem_of_lookup.
  apply (heap_top (items pq) top (proj1 W) ltac:(by rewrite Ei) i b Eb).
Qed.

Lemma Remove_spec pq id : pq_wf pq -> exists pq' b, Remove pq id = Some (pq', b) /\ pq_wf pq' /\ b = Contains pq id /\
  if b : bool then exists p, PID p = id /\ items pq ≡ₚ p :: items pq' else pq' = pq.
Proof.
  intros W. unfold Remove, Contains. destruct (index pq !! id) as [idx|] eqn:E.
  - apply (proj2 W) in E as (p & Ep & Eid). destruct (removeAtIndex_spec pq idx p W Ep) as (pq' & Er & W' & P). rewrite Er.
    exists pq', true. split; [done|]. split; [done|]. split; [by rewrite bool_decide_eq_true_2|]. by exists p.
  - exists pq, false. split; [done|]. split; [done|]. split; [by rewrite bool_decide_eq_false_2|done].
Qed.

(* ------------------------------------------------------------------ *)
(** ** What a client relies on *)

(** The interface of a queue of ready pipelines: a bag of pipelines with
    distinct names, of which a highest one is taken. *)
Class ReadyQueue (Q : Type) := {
  q_items : Q -> list SchedulablePipeline;
  q_ok : Q -> Prop;
  q_new : Q;
  q_push : Q -> SchedulablePipeline -> option Q;
  q_pop : Q -> option (Q * option SchedulablePipeline);
  q_remove : Q -> string -> option (Q * bool);
  q_contains : Q -> string -> bool;
  q_len : Q -> Z;
  q_new_ok : q_ok q_new /\ q_items q_new = [];
  q_names : forall q, q_ok q -> NoDup (PID <$> q_items q);
  q_contains_ok : forall q id, q_ok q -> q_contains q id = true <-> exists p, p ∈ q_items q /\ PID p = id;
  q_len_ok : forall q, q_len q = len (q_items q);
  q_push_ok : forall q p, q_ok q -> q_contains q (PID p) = false ->
    exists q', q_push q p = Some q' /\ q_ok q' /\ q_items q' ≡ₚ p :: q_items q;
  q_pop_ok : forall q, q_ok q -> exists q' r, q_pop q = Some (q', r) /\ q_ok q' /\
    match r with
    | None => q_items q = [] /\ q' = q
    | Some p => q_items q ≡ₚ p :: q_items q' /\ Forall (above p) (q_items q)
    end;
  q_remove_ok : forall q id, q_ok q -> exists q' b, q_remove q id = Some (q', b) /\ q_ok q' /\ b = q_contains q id /\
    if b : bool then exists p, PID p = id /\ q_items q ≡ₚ p :: q_items q' else q' = q }.

Lemma pop_law pq : pq_wf pq -> exists pq' r, Pop pq = Some (pq', r) /\ pq_wf pq' /\
  match r with
  | None => items pq = [] /\ pq' = pq
  | Some p => items pq ≡ₚ p :: items pq' /\ Forall (above p) (items pq)
  end.
Proof.
  intros W. destruct (Pop_spec pq W) as (pq' & W' & K). destruct (items pq) as [|top rest] eqn:E.
  - exists pq, None. done.
  - destruct K as (Ep & P & F). exists pq', (Some top). done.
Qed.

#[export] Instance heap_queue : ReadyQueue PipelinePriorityQueue := {|
  q_items := items; q_ok := pq_wf; q_new := NewPipelinePriorityQueue; q_push := Push; q_pop := Pop; q_remove := Remove;
  q_contains := Contains; q_len := Len; q_new_ok := conj new_wf eq_refl; q_names := wf_NoDup; q_contains_ok := Contains_spec;
  q_len_ok := fun _ => eq_refl; q_push_ok := Push_spec; q_pop_ok := pop_law; q_remove_ok := Remove_spec |}.

(** The calls of a client, one after another. *)
Inductive call := CPush (p : SchedulablePipeline) | CPop | CRemove (id : string) | CContains (id : string) | CLen.
Inductive answer := ADone | APopped (p : option SchedulablePipeline) | AFound (b : bool) | ALen (n : Z).

Definition perform {Q} `{ReadyQueue Q} (q : Q) (c : call) : option (Q * answer) :=
  match c with
  | CPush p => q ← q_push q p; Some (q, ADone)
  | CPop => '(q, r) ← q_pop q; Some (q, APopped r)
  | CRemove id => '(q, b) ← q_remove q id; Some (q, AFound b)
  | CContains id => Some (q, AFound (q_contains q id))
  | CLen => Some (q, ALen (q_len q))
  end.

Fixpoint performs {Q} `{ReadyQueue Q} (q : Q) (cs : list call) : option (Q * list answer) :=
  match cs with
  | [] => Some (q, [])
  | c :: cs => '(q, a) ← perform q c; '(q, l) ← performs q cs; Some (q, a :: l)
  end.

(** The same calls on a bag. *)
Inductive bag_step : list SchedulablePipeline -> call -> answer -> list SchedulablePipeline -> Prop :=
| bag_push l p l' : l' ≡ₚ p :: l -> bag_step l (CPush p) ADone l'
| bag_pop l p l' : l ≡ₚ p :: l' -> Forall (above p) l -> bag_step l CPop (APopped (Some p)) l'
| bag_pop_empty : bag_step [] CPop (APopped None) []
| bag_remove l p l' : l ≡ₚ p :: l' -> bag_step l (CRemove (PID p)) (AFound true) l'
| bag_remove_none l id : id ∉ (PID <$> l) -> bag_step l (CRemove id) (AFound false) l
| bag_contains l id : bag_step l (CContains id) (AFound (bool_decide (id ∈ (PID <$> l)))) l
| bag_len l : bag_step l CLen (ALen (len l)) l.

Inductive bag_run : list SchedulablePipeline -> list call -> list answer -> list SchedulablePipeline -> Prop :=
| bag_nil l : bag_run l [] [] l
| bag_cons l c a l1 cs r l2 : bag_step l c a l1 -> bag_run l1 cs r l2 -> bag_run l (c :: cs) (a :: r) l2.

Fixpoint pushed (cs : list call) : list string :=
  match cs with
  | [] => []
  | CPush p :: cs => PID p :: pushed cs
  | _ :: cs => pushed cs
  end.

(** No call pushes a name that is in the queue when the call comes. *)
Fixpoint names_free {Q} `{ReadyQueue Q} (q : Q) (cs : list call) : bool :=
  match cs with
  | [] => true
  | c :: cs =>
    match c with CPush p => negb (q_contains q (PID p)) | _ => true end &&
    match perform q c with Some (q, _) => names_free q cs | None => true end
  end.

Section Interface.
Context {Q : Type} {RQ : ReadyQueue Q}.

Lemma q_contains_bool q id : q_ok q -> q_contains q id = bool_decide (id ∈ (PID <$> q_items q)).
Proof.
  intros W. apply eq_bool_prop_intro. rewrite bool_decide_spec, Is_true_true, (q_contains_ok q id W), list_elem_of_fmap.
  split; intros (p & A & B); by exists p.
Qed.

Lemma perform_bag q c : q_ok q -> (forall p, c = CPush p -> PID p ∉ (PID <$> q_items q)) ->
  exists q' a, perform q c = Some (q', a) /\ q_ok q' /\ bag_step (q_items q) c a (q_items q').
Proof.
  intros W N. destruct c as [p| |id|id|]; cbn [perform].
  - destruct (q_push_ok q p W) as (q' & E & W' & P).
    { rewrite q_contains_bool by done. by apply bool_decide_eq_false_2, N. }
    rewrite E. exists q', ADone. split; [done|]. split; [done|]. by constructor.
  - destruct (q_pop_ok q W) as (q' & r & E & W' & K). rewrite E. exists q', (APopped r). split; [done|]. split; [done|].
    destruct r as [p|]; [by destruct K; constructor|]. destruct K as [E0 ->]. rewrite E0. constructor.
  - destruct (q_remove_ok q id W) as (q' & b & E & W' & Eb & K). rewrite E. exists q', (AFound b). split; [done|]. split; [done|].
    destruct b; [destruct K as (p & <- & P); by constructor|]. subst q'. constructor. rewrite q_contains_bool in Eb by done.
    symmetry in Eb. by apply bool_decide_eq_false in Eb.
  - exists q, (AFound (q_contains q id)). split; [done|]. split; [done|]. rewrite q_contains_bool by done. constructor.
  - exists q, (ALen (q_len q)). split; [done|]. split; [done|]. rewrite q_len_ok. constructor.
Qed.

Lemma bag_step_names l c a l' id : bag_step l c a l' -> id ∈ (PID <$> l') -> id ∈ (PID <$> l) \/ exists p, c = CPush p /\ id = PID p.
Proof.
  destruct 1 as [l p l' P|l p l' P _| |l p l' P| | |]; try (by left).
  - rewrite P. cbn. intros [->|I]%elem_of_cons; [right; by exists p|by left].
  - rewrite P. intros I. left. cbn. by right.
  - rewrite P. intros I. left. cbn. by right.
Qed.

Lemma performs_bag cs q : q_ok q -> names_free q cs = true ->
  exists q' r, performs q cs = Some (q', r) /\ q_ok q' /\ bag_run (q_items q) cs r (q_items q').
Proof.
  revert q. induction cs as [|c cs IH]; intros q W F; cbn [performs]; [exists q, []; split; [done|]; split; [done|constructor]|].
  cbn [names_free] in F. apply andb_true_iff in F as [Fc F]. destruct (perform_bag q c W) as (q1 & a & E1 & W1 & B1).
  { intros p ->. rewrite q_contains_bool in Fc by done. apply negb_true_iff in Fc. by apply bool_decide_eq_false in Fc. }
  rewrite E1 in F |- *. cbn [mbind option_bind]. destruct (IH q1 W1 F) as (q2 & r & E2 & W2 & B2).
  rewrite E2. exists q2, (a :: r). split; [done|]. split; [done|]. by econstructor.
Qed.

(** Names pushed once are free. *)
Lemma pushed_once_free cs q : q_ok q -> NoDup (pushed cs) -> (forall id, id ∈ pushed cs -> id ∉ (PID <$> q_items q)) ->
  names_free q cs = true.
Proof.
  revert q. induction cs as [|c cs IH]; intros q W ND F; cbn [names_free]; [done|].
  assert (S : exists tl, pushed (c :: cs) = tl ++ pushed cs /\ forall p, c = CPush p -> tl = [PID p])
    by (destruct c as [p| | | |]; [exists [PID p]|exists []..]; split; try done; by intros ? [= ->]).
  destruct S as (tl & Et & Ht). rewrite Et in ND, F. apply NoDup_app in ND as (_ & Dj & ND).
  assert (Fc : forall p, c = CPush p -> PID p ∉ (PID <$> q_items q)) by (intros p ->; apply F; rewrite (Ht p) by done; by left).
  destruct (perform_bag q c W Fc) as (q1 & a & E1 & W1 & B1). rewrite E1. apply andb_true_iff. split.
  { destruct c as [p| | | |]; try done. rewrite q_contains_bool by done. by apply negb_true_iff, bool_decide_eq_false_2, Fc. }
  apply IH; [done..|]. intros id I J. destruct (bag_step_names _ _ _ _ id B1 J) as [K|(p & -> & ->)].
  - apply (F id); [apply elem_of_app; by right|done].
  - apply (Dj (PID p)); [rewrite (Ht p) by done; by left|done].
Qed.
End Interface.

(** C19: the heap in the slice, with its map of positions, is a bag of which a
    highest pipeline is taken.  Whatever the calls, as long as none pushes a
    pipeline whose name is in the queue at that moment (a name may come back
    after it was taken out or removed), none panics or runs past its loop's
    bound, every answer is that of the bag (Pop a pipeline no other goes
    before, Remove and Contains exact) and the slice stays a heap whose map
    gives every position. *)
Theorem queue_refines cs : names_free NewPipelinePriorityQueue cs = true ->
  exists pq r, performs NewPipelinePriorityQueue cs = Some (pq, r) /\ pq_wf pq /\ bag_run [] cs r (items pq).
Proof. intros F. exact (performs_bag (Q := PipelinePriorityQueue) cs NewPipelinePriorityQueue new_wf F). Qed.

(** Take everything out. *)
Fixpoint popAll (n : nat) (pq : PipelinePriorityQueue) : option (list SchedulablePipeline) :=
  match n with
  | O => Some []
  | S n =>
    '(pq, r) ← Pop pq;
    match r with None => Some [] | Some p => l ← popAll n pq; Some (p :: l) end
  end.

Lemma popAll_sorted n pq : pq_wf pq -> (length (items pq) <= n)%nat ->
  exists l, popAll n pq = Some l /\ l ≡ₚ items pq /\ Sorted above l /\ forall a, Forall (above a) (items pq) -> HdRel above a l.
Proof.
  revert pq. induction n as [|n IH]; intros pq W L; cbn [popAll].
  - destruct (items pq); [|cbn in L; lia]. exists []. split; [done|]. split; [done|]. split; [constructor|]. intros a _. constructor.
  - destruct (pop_law pq W) as (pq' & r & E & W' & K). rewrite E. cbn [mbind option_bind]. destruct r as [p|].
    2:{ destruct K as [-> _]. exists []. split; [done|]. split; [done|]. split; [constructor|]. intros a _. constructor. }
    destruct K as [P F]. destruct (IH pq' W') as (l & El & Pl & Sl & Hl).
    { apply Permutation_length in P. cbn in P. lia. }
    rewrite El. exists (p :: l). split; [done|]. split; [by rewrite Pl, <- P|]. split.
    + constructor; [done|]. apply Hl. rewrite P in F. by inversion F.
    + intros a Fa. constructor. rewrite P in Fa. by inversion Fa.
Qed.

(** Pushing pipelines with different names in any order and taking all of
    them out gives each once, the higher priority first and among equal
    priorities the one spawned first. *)
Theorem queue_sorts l : NoDup (PID <$> l) ->
  exists pq r, performs NewPipelinePriorityQueue (CPush <$> l) = Some (pq, r) /\
    exists out, popAll (length l) pq = Some out /\ out ≡ₚ l /\ Sorted above out.
Proof.
  intros ND. assert (Ep : pushed (CPush <$> l) = PID <$> l) by (clear ND; induction l as [|p l IH]; [done|]; cbn; by f_equal).
  destruct (performs_bag (Q := PipelinePriorityQueue) (CPush <$> l) NewPipelinePriorityQueue) as (pq & r & E & W & B);
    [apply new_wf|apply pushed_once_free; [apply new_wf|by rewrite Ep|intros id _ I; by apply not_elem_of_nil in I]|].
  exists pq, r. split; [exact E|]. cbn in B. assert (P : items pq ≡ₚ l).
  { clear -B. rewrite <- (app_nil_r l). change (items NewPipelinePriorityQueue) with (@nil SchedulablePipeline) in B.
    generalize dependent (@nil SchedulablePipeline). revert r. induction l as [|p l IH]; intros r k B; cbn in B; inversion B; subst; [done|].
    match goal with H : bag_step _ _ _ _ |- _ => inversion H; subst end. erewrite IH by done. cbn. rewrite Permutation_middle. by apply Permutation_app_head. }
  destruct (popAll_sorted (length l) pq W) as (out & Eo & Po & So & _); [by rewrite P|]. exists out. split; [done|]. split; [by rewrite Po|done].
Qed.

Section Sample.
Definition p1 : SchedulablePipeline := mkPipeline "a" 1 5 [] true.
Definition p2 : SchedulablePipeline := mkPipeline "b" 3 9 [] true.
Definition p3 : SchedulablePipeline := mkPipeline "c" 1 2 [] true.

Lemma queue_refines_witness :
  performs NewPipelinePriorityQueue [CPush p1; CPush p2; CPush p3; CRemove "a"; CPop; CLen; CPop; CPop] =
    Some (NewPipelinePriorityQueue, [ADone; ADone; ADone; AFound true; APopped (Some p2); ALen 1; APopped (Some p3); APopped None]) /\
  exists pq r, performs NewPipelinePriorityQueue [CPush p1; CPush p2; CPush p3; CPop; CPush p2; CPop] = Some (pq, r) /\ pq_wf pq /\
    bag_run [] [CPush p1; CPush p2; CPush p3; CPop; CPush p2; CPop] r (items pq).
Proof. split; [by vm_compute|]. apply queue_refines. vm_compute. reflexivity. Defined.

(** A name pushed a second time while it is in the queue: the map knows the
    second position only.  When one of the two is gone the other is still in
    the queue, but not found, not removed, and taken out all the same. *)
Theorem second_push_lost :
  performs NewPipelinePriorityQueue [CPush p1; CPush p1; CContains "a"; CRemove "a"; CLen; CContains "a"; CRemove "a"; CPop] =
    Some (NewPipelinePriorityQueue,
      [ADone; ADone; AFound true; AFound true; ALen 1; AFound false; AFound false; APopped (Some p1)]).
Proof. by vm_compute. Qed.

Lemma queue_sorts_witness : exists pq r, performs NewPipelinePriorityQueue (CPush <$> [p1; p2; p3]) = Some (pq, r) /\
  exists out, popAll 3 pq = Some out /\ out ≡ₚ [p1; p2; p3] /\ Sorted above out.
Proof. apply (queue_sorts [p1; p2; p3]). cbn. by repeat (constructor; [set_solver|]); constructor. Defined.
End Sample.
End PriorityQueue.
