(* ===== verification/PipelineScheduler.v ===== *)
(** * The pipeline scheduler (core/concurrency/scheduler.go)

    Pipelines wait for their dependencies, then for a place among at most
    [MaxConcurrent] active ones, the highest first.  Every method holds the
    lock of the scheduler and is one step.  The queue of ready pipelines is
    any [ReadyQueue]; [PriorityQueue.heap_queue] is the one of the code.  What the
    scheduler does to runners and contexts is recorded as effects. *)

From S2P Require Import Prelude PriorityQueue.
Import PriorityQueue.

Module PipelineScheduler.

Inductive sched_error := ErrPipelineNotFound | ErrCircularDependency | ErrSchedulerClosed | ErrPipelineAlreadyExists.

#[export] Instance sched_error_eq_dec : EqDecision sched_error.
Proof. solve_decision. Defined.

(** A runner started with a context of its own, that context cancelled, the
    runner stopped, the context of the scheduler cancelled. *)
Inductive effect := EStart (id : string) | ECancelCtx (id : string) | EStop (id : string) | ECancelAll.

Section Scheduler.
Context {Q : Type} {RQ : ReadyQueue Q}.

Record PipelineScheduler := mkSched {
  MaxConcurrent : Z; active : gmap string SchedulablePipeline; ready : Q; waiting : gmap string SchedulablePipeline;
  completed : gset string; closed : bool; effects : list effect }.

(** [numCPU]: the answer of [runtime.NumCPU]. *)
Definition NewPipelineScheduler (numCPU maxConcurrent : Z) : PipelineScheduler :=
  mkSched (if maxConcurrent <=? 0 then numCPU else maxConcurrent) ∅ q_new ∅ ∅ false [].

Definition pipelineExists (s : PipelineScheduler) (id : string) : bool :=
  match active s !! id with
  | Some _ => true
  | None => match waiting s !! id with Some _ => true | None => q_contains (ready s) id end
  end.

(** The walk over the waiting pipelines: whether a cycle was found, with the
    maps [visited] and [inStack]. *)
Definition walk : Type := (bool * gset string * gset string)%type.

Fixpoint checkDependencies (checkDependencyCycle : string -> gset string -> gset string -> option walk)
    (deps : list string) (visited inStack : gset string) : option walk :=
  match deps with
  | [] => Some (false, visited, inStack)
  | depID :: deps =>
    '(err, visited, inStack) ← checkDependencyCycle depID visited inStack;
    if err : bool then Some (true, visited, inStack) else checkDependencies checkDependencyCycle deps visited inStack
  end.

Definition checkDependencyCycle (checkCycle : string -> SchedulablePipeline -> gset string -> gset string -> option walk)
    (w : gmap string SchedulablePipeline) (depID : string) (visited inStack : gset string) : option walk :=
  if bool_decide (depID ∈ inStack) then Some (true, visited, inStack)
  else match w !! depID with
       | None => Some (false, visited, inStack)
       | Some wp => checkCycle depID wp visited inStack
       end.

Fixpoint checkCycle (fuel : nat) (w : gmap string SchedulablePipeline) (id : string) (p : SchedulablePipeline)
    (visited inStack : gset string) : option walk :=
  match fuel with
  | O => None
  | S fuel =>
    if bool_decide (id ∈ inStack) then Some (true, visited, inStack)
    else if bool_decide (id ∈ visited) then Some (false, visited, inStack)
    else
      '(err, visited, inStack) ←
        checkDependencies (checkDependencyCycle (checkCycle fuel w) w) (Dependencies p) ({[id]} ∪ visited) ({[id]} ∪ inStack);
      Some (err, visited, inStack ∖ {[id]})
  end.

(** Whether there is an error; the stack holds waiting pipelines and [p]. *)
Definition detectCircularDependency (s : PipelineScheduler) (p : SchedulablePipeline) : option bool :=
  '(err, _, _) ← checkCycle (2 + size (waiting s)) (waiting s) (PID p) p ∅ ∅; Some err.

Definition hasPendingDependencies (s : PipelineScheduler) (p : SchedulablePipeline) : bool :=
  existsb (fun depID => negb (bool_decide (depID ∈ completed s))) (Dependencies p).

Definition startPipeline (s : PipelineScheduler) (p : SchedulablePipeline) : PipelineScheduler :=
  mkSched (MaxConcurrent s) (<[PID p := p]> (active s)) (ready s) (waiting s) (completed s) (closed s)
    (effects s ++ if Runner p then [EStart (PID p)] else []).

Definition with_ready (s : PipelineScheduler) (q : Q) : PipelineScheduler :=
  mkSched (MaxConcurrent s) (active s) q (waiting s) (completed s) (closed s) (effects s).
Definition with_waiting (s : PipelineScheduler) (w : gmap string SchedulablePipeline) : PipelineScheduler :=
  mkSched (MaxConcurrent s) (active s) (ready s) w (completed s) (closed s) (effects s).

(** Each turn takes one from the queue. *)
Fixpoint scheduleNext (fuel : nat) (s : PipelineScheduler) : option PipelineScheduler :=
  match fuel with
  | O => None
  | S fuel =>
    if Z.of_nat (size (active s)) <? MaxConcurrent s then
      '(q, next) ← q_pop (ready s);
      match next with
      | None => Some (with_ready s q)
      | Some p => scheduleNext fuel (startPipeline (with_ready s q) p)
      end
    else Some s
  end.
Definition tryScheduleNext (s : PipelineScheduler) : option PipelineScheduler :=
  scheduleNext (S (length (q_items (ready s)))) s.

Definition enqueuePipeline (s : PipelineScheduler) (p : SchedulablePipeline) : option PipelineScheduler :=
  if hasPendingDependencies s p then Some (with_waiting s (<[PID p := p]> (waiting s)))
  else q ← q_push (ready s) p; tryScheduleNext (with_ready s q).

Definition Schedule (s : PipelineScheduler) (p : SchedulablePipeline) : option (PipelineScheduler * option sched_error) :=
  if closed s then Some (s, Some ErrSchedulerClosed)
  else if pipelineExists s (PID p) then Some (s, Some ErrPipelineAlreadyExists)
  else
    err ← detectCircularDependency s p;
    if err : bool then Some (s, Some ErrCircularDependency)
    else s ← enqueuePipeline s p; Some (s, None).

(** [ord]: the order in which the map is visited. *)
Fixpoint promoteWaitingPipelines (ord : list string) (s : PipelineScheduler) : option PipelineScheduler :=
  match ord with
  | [] => Some s
  | id :: ord =>
    match waiting s !! id with
    | Some wp =>
      if hasPendingDependencies s wp then promoteWaitingPipelines ord s
      else q ← q_push (ready s) wp; promoteWaitingPipelines ord (with_ready (with_waiting s (delete id (waiting s))) q)
    | None => promoteWaitingPipelines ord s
    end
  end.

Definition onPipelineComplete (ord : list string) (s : PipelineScheduler) : option PipelineScheduler :=
  s ← promoteWaitingPipelines ord s; tryScheduleNext s.

Definition NotifyComplete (ord : list string) (s : PipelineScheduler) (id : string) :
    option (PipelineScheduler * option sched_error) :=
  if closed s then Some (s, Some ErrSchedulerClosed)
  else match active s !! id with
       | None => Some (s, Some ErrPipelineNotFound)
       | Some _ =>
         s ← onPipelineComplete ord (mkSched (MaxConcurrent s) (delete id (active s)) (ready s) (waiting s)
               ({[id]} ∪ completed s) (closed s) (effects s));
         Some (s, None)
       end.

(** The cancel function of an active pipeline is set when it has a runner. *)
Definition stopActive (s : PipelineScheduler) (id : string) (p : SchedulablePipeline) : PipelineScheduler :=
  mkSched (MaxConcurrent s) (delete id (active s)) (ready s) (waiting s) (completed s) (closed s)
    (effects s ++ if Runner p then [ECancelCtx (PID p); EStop (PID p)] else []).

Definition cancelActive (s : PipelineScheduler) (id : string) : option (PipelineScheduler * bool) :=
  match active s !! id with
  | None => Some (s, false)
  | Some p => s ← tryScheduleNext (stopActive s id p); Some (s, true)
  end.
Definition cancelReady (s : PipelineScheduler) (id : string) : option (PipelineScheduler * bool) :=
  '(q, b) ← q_remove (ready s) id; Some (with_ready s q, b).
Definition cancelWaiting (s : PipelineScheduler) (id : string) : PipelineScheduler * bool :=
  match waiting s !! id with
  | Some _ => (with_waiting s (delete id (waiting s)), true)
  | None => (s, false)
  end.

Definition cancelPipeline (s : PipelineScheduler) (id : string) : option (PipelineScheduler * option sched_error) :=
  '(s, b) ← cancelActive s id;
  if b : bool then Some (s, None)
  else
    '(s, b) ← cancelReady s id;
    if b : bool then Some (s, None)
    else let '(s, b) := cancelWaiting s id in Some (s, if b then None else Some ErrPipelineNotFound).

Definition Cancel (s : PipelineScheduler) (id : string) : option (PipelineScheduler * option sched_error) :=
  if closed s then Some (s, Some ErrSchedulerClosed) else cancelPipeline s id.

Definition cancelAllActive (ord : list string) (s : PipelineScheduler) : PipelineScheduler :=
  foldl (fun s id => match active s !! id with Some p => stopActive s id p | None => s end) s ord.

Definition Close (ord : list string) (s : PipelineScheduler) : PipelineScheduler :=
  cancelAllActive ord (mkSched (MaxConcurrent s) (active s) (ready s) (waiting s) (completed s) true (effects s ++ [ECancelAll])).

Definition ActiveCount (s : PipelineScheduler) : Z := Z.of_nat (size (active s)).
Definition ReadyCount (s : PipelineScheduler) : Z := q_len (ready s).
Definition WaitingCount (s : PipelineScheduler) : Z := Z.of_nat (size (waiting s)).
Definition IsClosed (s : PipelineScheduler) : bool := closed s.

(** What callers do. *)
Inductive label := LSchedule (p : SchedulablePipeline) | LComplete (ord : list string) (id : string) | LCancel (id : string)
  | LClose (ord : list string).

Definition step (s : PipelineScheduler) (l : label) : option (PipelineScheduler * option sched_error) :=
  match l with
  | LSchedule p => Schedule s p
  | LComplete ord id => NotifyComplete ord s id
  | LCancel id => Cancel s id
  | LClose ord => Some (Close ord s, None)
  end.

Fixpoint run (s : PipelineScheduler) (ls : list label) : option PipelineScheduler :=
  match ls with
  | [] => Some s
  | l :: ls => '(s, _) ← step s l; run s ls
  end.
End Scheduler.
Arguments PipelineScheduler : clear implicits.
End PipelineScheduler.
