(* ===== verification/PipelineCycle.v ===== *)
(** * The search for cycles of the pipeline scheduler

    [checkCycle] finds a cycle exactly when there is one, within its fuel. *)

From S2P Require Import Prelude PriorityQueue PipelineScheduler.
Import PriorityQueue PipelineScheduler.

Module PipelineCycle.

(** A pipeline and what it depends on, among the waiting ones. *)
Definition edge (w : gmap string SchedulablePipeline) (a b : string) : Prop :=
  exists p, w !! a = Some p /\ b ∈ Dependencies p.
Definition acyclic (w : gmap string SchedulablePipeline) : Prop := forall a, ~ tc (edge w) a a.

Lemma edge_mono w w' a b : w ⊆ w' -> edge w a b -> edge w' a b.
Proof. intros S (p & E & I). exists p. split; [by eapply lookup_weaken|done]. Qed.

Lemma tc_mono w w' a b : w ⊆ w' -> tc (edge w) a b -> tc (edge w') a b.
Proof. intros S. induction 1 as [a b X|a b c X _ IH]; [apply tc_once; by eapply edge_mono|]. eapply tc_l; [by eapply edge_mono|done]. Qed.

Lemma acyclic_delete w id : acyclic w -> acyclic (delete id w).
Proof. intros A a T. apply (A a). eapply tc_mono; [apply delete_subseteq|done]. Qed.

Lemma acyclic_empty : acyclic ∅.
Proof. intros a T. assert (K : exists b, edge ∅ a b) by (inversion T; eauto). destruct K as (b & p & E & _). done. Qed.

Section Add.
Context (w : gmap string SchedulablePipeline) (r : string) (rp : SchedulablePipeline) (Nr : w !! r = None).
#[local] Abbreviation G := (<[r := rp]> w).

Lemma edge_other a b : a <> r -> edge G a b -> edge w a b.
Proof. intros N (p & E & I). rewrite lookup_insert_ne in E by done. by exists p. Qed.
Lemma edge_root b : edge G r b <-> b ∈ Dependencies rp.
Proof.
  split; [|intros I; exists rp; by rewrite lookup_insert_eq]. intros (p & E & I). rewrite lookup_insert_eq in E. by injection E as <-.
Qed.
Lemma tc_add a b : tc (edge w) a b -> tc (edge G) a b.
Proof. apply tc_mono. by apply insert_subseteq. Qed.

(** A path to the new pipeline, up to where it first arrives. *)
Lemma tc_to_root a b : tc (edge G) a b -> b = r -> a = r \/ tc (edge w) a r.
Proof.
  induction 1 as [a b X|a c b X _ IH]; intros ->; destruct (decide (a = r)) as [->|N]; try (by left); right; apply edge_other in X; try done.
  - by apply tc_once.
  - destruct IH as [->|T]; [done|by apply tc_once|by eapply tc_l].
Qed.

(** It is on a cycle when one of its dependencies leads back to it. *)
Lemma root_cycle : tc (edge G) r r <-> exists d, d ∈ Dependencies rp /\ (d = r \/ tc (edge w) d r).
Proof.
  split.
  - intros T. assert (K : exists d, edge G r d /\ (d = r \/ tc (edge G) d r)).
    { inversion T; subst; [by exists r; split; [|left]|]. eexists. split; [done|by right]. }
    destruct K as (d & X & K). exists d. split; [by apply edge_root|]. destruct K as [->|K]; [by left|by eapply tc_to_root].
  - intros (d & I & K). apply edge_root in I. destruct K as [->|K]; [by apply tc_once|]. eapply tc_l; [done|by apply tc_add].
Qed.

Lemma tc_split a b : tc (edge G) a b -> tc (edge w) a b \/ rtc (edge G) a r /\ rtc (edge G) r b.
Proof.
  induction 1 as [a b X|a c b X T IH]; (destruct (decide (a = r)) as [->|N]; [right; split; [done|]|pose proof (edge_other a _ N X) as Y]).
  - by apply rtc_once.
  - left. by apply tc_once.
  - eapply rtc_l; [done|by apply tc_rtc].
  - destruct IH as [IH|[A B]]; [left; by eapply tc_l|]. right. split; [by eapply rtc_l|done].
Qed.

Lemma acyclic_insert : acyclic w -> ~ tc (edge G) r r -> acyclic G.
Proof.
  intros A N a T. destruct (tc_split a a T) as [K|[K1 K2]]; [by apply (A a)|]. apply N.
  eapply tc_rtc_l; [exact K2|]. by eapply tc_rtc_r.
Qed.
End Add.

(* ------------------------------------------------------------------ *)
(** ** The walk *)

Lemma checkCycle_S fuel w id p visited inStack : checkCycle (S fuel) w id p visited inStack =
  if bool_decide (id ∈ inStack) then Some (true, visited, inStack)
  else if bool_decide (id ∈ visited) then Some (false, visited, inStack)
  else
    '(err, visited, inStack) ←
      checkDependencies (checkDependencyCycle (checkCycle fuel w) w) (Dependencies p) ({[id]} ∪ visited) ({[id]} ∪ inStack);
    Some (err, visited, inStack ∖ {[id]}).
Proof. done. Qed.

Section Walk.
Context (w : gmap string SchedulablePipeline) (r : string) (Nr : w !! r = None) (A : acyclic w).

(** What the walk has left behind does not lead to [r]. *)
Definition clean (visited inStack : gset string) : Prop := forall v, v ∈ visited -> v ∉ inStack -> ~ tc (edge w) v r.
Definition todo (inStack : gset string) : nat := size (({[r]} ∪ dom w) ∖ inStack).

Definition walks (fuel : nat) : Prop := forall id p visited inStack,
  w !! id = Some p -> r ∈ inStack -> (forall s, s ∈ inStack -> s <> r -> tc (edge w) s id) -> clean visited inStack ->
  (todo inStack < fuel)%nat ->
  exists err visited', checkCycle fuel w id p visited inStack = Some (err, visited', inStack) /\
    if err : bool then tc (edge w) id r else ~ tc (edge w) id r /\ clean visited' inStack.

Lemma no_edge a b : w !! a = None -> ~ tc (edge w) a b.
Proof. intros E T. assert (K : exists b, edge w a b) by (inversion T; eauto). destruct K as (c & p & E' & _). congruence. Qed.

Lemma dependencies_walk fuel deps visited inStack :
  walks fuel -> r ∈ inStack -> (forall s d, s ∈ inStack -> s <> r -> d ∈ deps -> tc (edge w) s d) -> clean visited inStack ->
  (todo inStack < fuel)%nat ->
  exists err visited', checkDependencies (checkDependencyCycle (checkCycle fuel w) w) deps visited inStack = Some (err, visited', inStack) /\
    if err : bool then exists d, d ∈ deps /\ (d = r \/ tc (edge w) d r)
    else (forall d, d ∈ deps -> d <> r /\ ~ tc (edge w) d r) /\ clean visited' inStack.
Proof.
  intros W Ir. revert visited. induction deps as [|d deps IH]; intros visited St Cl T; cbn [checkDependencies].
  { exists false, visited. split; [done|]. split; [|done]. by intros d I%not_elem_of_nil. }
  assert (K : exists err visited', checkDependencyCycle (checkCycle fuel w) w d visited inStack = Some (err, visited', inStack) /\
    if err : bool then d = r \/ tc (edge w) d r else (d <> r /\ ~ tc (edge w) d r) /\ clean visited' inStack).
  { unfold checkDependencyCycle. destruct (decide (d ∈ inStack)) as [I|N].
    - rewrite bool_decide_eq_true_2 by done. exists true, visited. split; [done|]. destruct (decide (d = r)) as [->|Nd]; [by left|].
      exfalso. apply (A d). apply St; [done..|by left].
    - rewrite bool_decide_eq_false_2 by done. destruct (w !! d) as [wp|] eqn:E.
      + destruct (W d wp visited inStack E Ir) as (err & vis' & -> & K); [intros s Is Ns; apply St; [done..|by left]|done|done|].
        exists err, vis'. split; [done|]. destruct err; [by right|]. destruct K as [K1 K2]. split; [|done]. split; [by intros ->|done].
      + exists false, visited. split; [done|]. split; [|done]. split; [by intros ->|by apply no_edge]. }
  destruct K as (err & vis' & E & K). rewrite E. cbn [mbind option_bind]. destruct err.
  - exists true, vis'. split; [done|]. exists d. split; [by left|done].
  - destruct K as [Kd Kc]. destruct (IH vis') as (err & vis2 & E2 & K2); [intros s d' Is Ns Id; apply St; [done..|by right]|done|done|].
    exists err, vis2. split; [exact E2|]. destruct err.
    + destruct K2 as (d' & Id & K2). exists d'. split; [by right|done].
    + split; [|apply K2]. intros d' [->|Id]%elem_of_cons; [done|]. by apply K2.
Qed.

Lemma todo_push id inStack : id ∈ {[r]} ∪ dom w -> id ∉ inStack -> (todo ({[id]} ∪ inStack) < todo inStack)%nat.
Proof using Type. clear Nr A. intros I N. unfold todo. apply subset_size. set_solver. Qed.

Lemma walks_all fuel : walks fuel.
Proof.
  induction fuel as [|fuel IH]; intros id p visited inStack E Ir St Cl T; [lia|]. cbn [checkCycle].
  assert (Nr' : id <> r) by congruence.
  assert (N : id ∉ inStack) by (intros I; apply (A id); by apply St).
  rewrite bool_decide_eq_false_2 by done. destruct (decide (id ∈ visited)) as [V|V].
  { rewrite bool_decide_eq_true_2 by done. exists false, visited. split; [done|]. split; [by apply Cl|done]. }
  rewrite bool_decide_eq_false_2 by done.
  assert (Dm : id ∈ {[r]} ∪ dom w) by (apply elem_of_union; right; by apply elem_of_dom_2 in E).
  destruct (dependencies_walk fuel (Dependencies p) ({[id]} ∪ visited) ({[id]} ∪ inStack) IH) as (err & vis' & Ew & K).
  - set_solver.
  - intros s d Is Ns Id. assert (X : edge w id d) by by exists p. apply elem_of_union in Is as [->%elem_of_singleton|Is]; [by apply tc_once|].
    eapply tc_r; [by apply St|done].
  - intros v Iv Nv. apply Cl; set_solver.
  - pose proof (todo_push id inStack Dm N). lia.
  - rewrite Ew. cbn [mbind option_bind]. exists err, vis'. split; [do 2 f_equal; set_solver|]. destruct err.
    + destruct K as (d & Id & K). assert (X : edge w id d) by by exists p. destruct K as [->|K]; [by apply tc_once|by eapply tc_l].
    + destruct K as [Kd Kc]. assert (Cid : ~ tc (edge w) id r).
      { intros X. assert (Y : exists d, edge w id d /\ (d = r \/ tc (edge w) d r)) by (inversion X; subst; eauto).
        destruct Y as (d & (p' & Ep & Id) & Y). rewrite E in Ep. injection Ep as <-. destruct (Kd d Id) as [K1 K2]. by destruct Y. }
      split; [done|]. intros v Iv Nv. destruct (decide (v = id)) as [->|Nv']; [done|]. apply Kc; set_solver.
Qed.
End Walk.

Lemma todo_size w r : w !! r = None -> todo w r ∅ = S (size w).
Proof.
  intros N. unfold todo. replace (({[r]} ∪ dom w) ∖ ∅) with ({[r]} ∪ dom w : gset string) by set_solver.
  rewrite size_union by (apply disjoint_singleton_l; by apply not_elem_of_dom). by rewrite size_singleton, size_dom.
Qed.

Section Detect.
Context {Q : Type} {RQ : ReadyQueue Q}.

Lemma detect_spec (s : PipelineScheduler Q) p : acyclic (waiting s) -> waiting s !! PID p = None ->
  exists err, detectCircularDependency s p = Some err /\
    (err = true <-> tc (edge (<[PID p := p]> (waiting s))) (PID p) (PID p)).
Proof.
  intros A N. unfold detectCircularDependency. change (2 + size (waiting s))%nat with (S (S (size (waiting s)))). rewrite checkCycle_S.
  rewrite bool_decide_eq_false_2 by set_solver.
  destruct (dependencies_walk (waiting s) (PID p) A (S (size (waiting s))) (Dependencies p) ({[PID p]} ∪ ∅) ({[PID p]} ∪ ∅))
    as (err & vis & E & K); [by apply (walks_all _ _ N A)|set_solver|set_solver|intros v; set_solver| |].
  { pose proof (todo_push (waiting s) (PID p) (PID p) ∅ ltac:(set_solver) ltac:(set_solver)) as T. rewrite todo_size in T by done. lia. }
  rewrite E. cbn [mbind option_bind]. exists err. split; [done|]. rewrite root_cycle by done. destruct err; [done|]. split; [done|].
  intros (d & Id & Kd). destruct (proj1 K d Id) as [K1 K2]. by destruct Kd.
Qed.
End Detect.
End PipelineCycle.
