(* ===== verification/PipelineSched.v ===== *)
(** * The pipeline scheduler keeps its promises

    Pipelines run after their dependencies, at most [MaxConcurrent] at a
    time, the highest first, and no place stays free while one is ready. *)

From S2P Require Import Prelude PriorityQueue PipelineScheduler PipelineCycle.
Import PriorityQueue PipelineScheduler PipelineCycle.

Module PipelineSched.
Section Sched.
Context {Q : Type} {RQ : ReadyQueue Q}.
Abbreviation sched := (PipelineScheduler Q).

(** All its dependencies have completed. *)
Definition deps_done (s : sched) (p : SchedulablePipeline) : Prop := forall d, d ∈ Dependencies p -> d ∈ completed s.

Lemma pending_spec s p : hasPendingDependencies s p = false <-> deps_done s p.
Proof.
  unfold hasPendingDependencies, deps_done. induction (Dependencies p) as [|d ds IH]; cbn.
  - split; [|done]. by intros _ d I%not_elem_of_nil.
  - rewrite orb_false_iff, negb_false_iff, bool_decide_eq_true, IH. split.
    + intros [A B] x [->|I]%elem_of_cons; [done|by apply B].
    + intros K. split; [apply K; by left|]. intros x I. apply K. by right.
Qed.

Lemma deps_done_mono (s s' : sched) p : completed s ⊆ completed s' -> deps_done s p -> deps_done s' p.
Proof. intros C D d I. by apply C, D. Qed.

(** What holds between the parts of an operation, ... *)
Record sched_pre (s : sched) : Prop := {
  pre_queue : q_ok (ready s);
  pre_max : 0 < MaxConcurrent s;
  pre_bound : Z.of_nat (size (active s)) <= MaxConcurrent s;
  pre_active : forall id p, active s !! id = Some p -> PID p = id /\ waiting s !! id = None /\ deps_done s p;
  pre_waiting : forall id p, waiting s !! id = Some p -> PID p = id;
  pre_ready : forall p, p ∈ q_items (ready s) -> active s !! PID p = None /\ waiting s !! PID p = None /\ deps_done s p;
  pre_acyclic : acyclic (waiting s) }.

(** ... and between operations. *)
Record sched_ok (s : sched) : Prop := {
  ok_pre : sched_pre s;
  ok_pending : forall id p, waiting s !! id = Some p -> ~ deps_done s p;
  ok_busy : closed s = false -> Z.of_nat (size (active s)) = MaxConcurrent s \/ q_items (ready s) = [];
  ok_closed : closed s = true -> active s = ∅ }.

(** The parts of the state that starting pipelines leaves alone. *)
Definition same_rest (s s' : sched) : Prop :=
  MaxConcurrent s' = MaxConcurrent s /\ waiting s' = waiting s /\ completed s' = completed s /\ closed s' = closed s.

Lemma same_rest_refl s : same_rest s s. Proof. done. Qed.
Lemma same_rest_trans s1 s2 s3 : same_rest s1 s2 -> same_rest s2 s3 -> same_rest s1 s3.
Proof. intros (A & B & C & D) (A' & B' & C' & D'). repeat split; congruence. Qed.

(** The effects of starting these pipelines. *)
Definition starts (l : list SchedulablePipeline) : list effect :=
  concat ((fun p => if Runner p then [EStart (PID p)] else []) <$> l).

(** The pipelines [l] have become active, in this order. *)
Record started (s : sched) (l : list SchedulablePipeline) (s' : sched) : Prop := {
  st_rest : same_rest s s';
  st_ready : q_items (ready s) ≡ₚ l ++ q_items (ready s');
  st_active : forall id p, active s' !! id = Some p <-> active s !! id = Some p \/ (p ∈ l /\ PID p = id);
  st_effects : effects s' = effects s ++ starts l;
  st_sorted : Sorted above l;
  st_first : forall p q, p ∈ l -> q ∈ q_items (ready s') -> above p q }.

Lemma start_one s p q : sched_pre s -> q_ok q -> q_items (ready s) ≡ₚ p :: q_items q -> Z.of_nat (size (active s)) < MaxConcurrent s ->
  sched_pre (startPipeline (with_ready s q) p) /\ active s !! PID p = None.
Proof.
  intros W Wq P L. destruct W as [wq wm wb wa ww wr wc].
  destruct (wr p) as (Na & Nw & Dp); [rewrite P; by left|]. split; [|done].
  constructor; cbn [startPipeline with_ready ready MaxConcurrent active waiting completed]; try done.
  - rewrite map_size_insert_None by done. lia.
  - intros id p' E. destruct (decide (id = PID p)) as [->|N]; [rewrite lookup_insert_eq in E; injection E as <-; done|].
    rewrite lookup_insert_ne in E by done. by apply wa.
  - intros p' I. destruct (wr p') as (Na' & Nw' & Dp'); [rewrite P; by right|]. split; [|done].
    rewrite lookup_insert_ne; [done|]. intros Eq. pose proof (q_names _ wq) as ND. rewrite P in ND. cbn in ND. apply NoDup_cons in ND as [Nd _].
    apply Nd. rewrite Eq. apply list_elem_of_fmap. by exists p'.
Qed.

Lemma scheduleNext_spec fuel s : sched_pre s -> (length (q_items (ready s)) < fuel)%nat ->
  exists s' l, scheduleNext fuel s = Some s' /\ sched_pre s' /\ started s l s' /\
    (Z.of_nat (size (active s')) = MaxConcurrent s' \/ q_items (ready s') = []).
Proof.
  revert s. induction fuel as [|fuel IH]; intros s W L; [lia|]. cbn [scheduleNext].
  assert (Stop : forall q, q_items (ready s) ≡ₚ q_items q -> started s [] (with_ready s q)).
  { intros q P. constructor; cbn; try done; [|by rewrite app_nil_r|by intros ? ? I%not_elem_of_nil].
    - intros id p. split; [by left|]. intros [E|[I _]]; [done|]. by apply not_elem_of_nil in I. }
  destruct (Z.ltb_spec (Z.of_nat (size (active s))) (MaxConcurrent s)) as [Lt|Ge].
  2:{ exists s, []. split; [done|]. split; [done|]. split; [by destruct s; apply Stop|]. left. pose proof (pre_bound s W). lia. }
  destruct (q_pop_ok (ready s) (pre_queue s W)) as (q & r & E & Wq & K). rewrite E. cbn [mbind option_bind]. destruct r as [p|].
  - destruct K as [P F]. destruct (start_one s p q W Wq P Lt) as [W1 Na].
    destruct (IH (startPipeline (with_ready s q) p) W1) as (s' & l & E' & W' & St & Full).
    { cbn. apply Permutation_length in P. cbn in P. lia. }
    exists s', (p :: l). split; [exact E'|]. split; [done|]. split; [|done]. destruct St as [sr sq sa se so sf]. cbn in sr, sq, sa, se.
    constructor; try done.
    + rewrite P, sq. done.
    + intros id p'. rewrite sa. destruct (decide (id = PID p)) as [->|N].
      * rewrite lookup_insert_eq, elem_of_cons. split; [intros [[= <-]|[I Ep]]; right; split; [by left|done|by right|done]|].
        intros [E1|[[->|I] Ep]]; [congruence|by left|by right].
      * rewrite lookup_insert_ne, elem_of_cons by done. split; [intros [E1|[I Ep]]; [by left|right; split; [by right|done]]|].
        intros [E1|[[->|I] Ep]]; [by left|congruence|by right].
    + rewrite se. unfold starts. cbn. by rewrite <- app_assoc.
    + constructor; [done|]. destruct l as [|p' l]; constructor. rewrite Forall_forall in F. apply F. rewrite P, sq. right. by left.
    + intros p' q' [->|I]%elem_of_cons Iq; [|by apply sf]. rewrite Forall_forall in F. apply F. rewrite P, sq. right. apply elem_of_app. by right.
  - destruct K as [E0 ->]. exists (with_ready s (ready s)), []. split; [done|]. split; [by destruct s|]. split; [by apply Stop|]. by right.
Qed.

Lemma tryScheduleNext_spec s : sched_pre s -> (closed s = false) -> (forall id p, waiting s !! id = Some p -> ~ deps_done s p) ->
  exists s' l, tryScheduleNext s = Some s' /\ sched_ok s' /\ started s l s'.
Proof.
  intros W Nc Pd. destruct (scheduleNext_spec (S (length (q_items (ready s)))) s W ltac:(lia)) as (s' & l & E & W' & St & Full).
  exists s', l. split; [done|]. split; [|done]. destruct (st_rest _ _ _ St) as (Em & Ew & Ec & Ecl). constructor.
  - done.
  - intros id p. rewrite Ew. intros Ep D. apply (Pd id p Ep). intros d I. rewrite <- Ec. by apply D.
  - done.
  - congruence.
Qed.

(* ------------------------------------------------------------------ *)
(** ** The operations *)

Lemma exists_spec s id : sched_pre s -> pipelineExists s id = false <->
  active s !! id = None /\ waiting s !! id = None /\ forall p, p ∈ q_items (ready s) -> PID p <> id.
Proof.
  intros W. unfold pipelineExists. destruct (active s !! id); [by split; [|intros (? & _)]|]. destruct (waiting s !! id); [by split; [|intros (_ & ? & _)]|].
  rewrite <- not_true_iff_false, (q_contains_ok _ id (pre_queue s W)). split.
  - intros K. split; [done|]. split; [done|]. intros p I E. apply K. by exists p.
  - intros (_ & _ & K) (p & I & E). by apply (K p).
Qed.

Lemma push_pre s p q : sched_pre s -> active s !! PID p = None -> waiting s !! PID p = None -> deps_done s p ->
  q_ok q -> q_items q ≡ₚ p :: q_items (ready s) -> sched_pre (with_ready s q).
Proof.
  intros [wq wm wb wa ww wr wc] Na Nw D Wq P. constructor; try done. intros p' I. cbn in I. rewrite P in I.
  apply elem_of_cons in I as [->|I]; [done|by apply wr].
Qed.

Lemma waiting_pre s w : sched_pre s -> w ⊆ waiting s -> acyclic w -> sched_pre (with_waiting s w).
Proof.
  intros [wq wm wb wa ww wr wc] S A. assert (N : forall id, waiting s !! id = None -> w !! id = None) by (intros id E; by eapply lookup_weaken_None).
  constructor; try done; cbn.
  - intros id p E. destruct (wa id p E) as (? & ? & ?). split; [done|]. split; [by apply N|done].
  - intros id p E. apply ww. by eapply lookup_weaken.
  - intros p I. destruct (wr p I) as (? & ? & ?). split; [done|]. split; [by apply N|done].
Qed.

(** The pipelines that wait no more, of those visited. *)
Definition freed (s : sched) (ord : list string) (id : string) (p : SchedulablePipeline) : Prop :=
  id ∈ ord /\ waiting s !! id = Some p /\ deps_done s p.

Record promoted (s : sched) (ord : list string) (s' : sched) : Prop := {
  pr_same : MaxConcurrent s' = MaxConcurrent s /\ active s' = active s /\ completed s' = completed s /\ closed s' = closed s /\
    effects s' = effects s;
  pr_waiting : forall id p, waiting s' !! id = Some p <-> waiting s !! id = Some p /\ ~ freed s ord id p;
  pr_ready : forall p, p ∈ q_items (ready s') <-> p ∈ q_items (ready s) \/ exists id, freed s ord id p }.

Lemma promoted_nil s : promoted s [] s.
Proof.
  assert (N : forall id p, ~ freed s [] id p) by (intros id p (I & _); by apply not_elem_of_nil in I).
  constructor; [done|intros id p; split; [intros E; split; [done|apply N]|by intros [E _]]|].
  intros p. split; [by left|]. intros [I|(id & F)]; [done|by destruct (N id p)].
Qed.

(** A visited pipeline stays, ... *)
Lemma promoted_stay s id ord s' : (forall p, waiting s !! id = Some p -> ~ deps_done s p) -> promoted s ord s' -> promoted s (id :: ord) s'.
Proof.
  intros N [S W R]. assert (F : forall x p, freed s (id :: ord) x p <-> freed s ord x p).
  { intros x p. unfold freed. rewrite elem_of_cons. split; [|naive_solver]. intros ([->|I] & E & D); [by destruct (N p E)|done]. }
  constructor; [done|intros x p; by rewrite F|]. intros p. rewrite R. by setoid_rewrite F.
Qed.

(** ... or moves to the queue. *)
Lemma promoted_move s id ord wp q s' : waiting s !! id = Some wp -> deps_done s wp -> q_items q ≡ₚ wp :: q_items (ready s) ->
  promoted (with_ready (with_waiting s (delete id (waiting s))) q) ord s' -> promoted s (id :: ord) s'.
Proof.
  intros E D P [S W R]. cbn in S, W, R.
  assert (F : forall x p, freed s (id :: ord) x p <-> (x = id /\ p = wp) \/ freed (with_ready (with_waiting s (delete id (waiting s))) q) ord x p).
  { intros x p. unfold freed. rewrite elem_of_cons. cbn. destruct (decide (x = id)) as [->|N].
    - rewrite lookup_delete_eq, E. split; [intros (_ & [= <-] & _); by left|]. intros [[_ ->]|(_ & ? & _)]; [|done]. split; [by left|done].
    - rewrite lookup_delete_ne by done. split; [|naive_solver]. intros ([->|I] & E' & D'); [done|by right]. }
  constructor; [done| |].
  - intros x p. rewrite W, F. destruct (decide (x = id)) as [->|N].
    + rewrite lookup_delete_eq, E. split; [by intros [? _]|]. intros [[= <-] K]. destruct K. by left.
    + rewrite lookup_delete_ne by done. split; intros [E' K]; (split; [done|]); [by intros [[? _]|K']|]. intros K'. apply K. by right.
  - intros p. rewrite R, P, elem_of_cons. setoid_rewrite F. split.
    + intros [[->|I]|(x & K)]; [right; exists id; by left|by left|right; exists x; by right].
    + intros [I|(x & [[-> ->]|K])]; [left; by right|left; by left|right; by exists x].
Qed.

Lemma promote_spec ord s : sched_pre s -> exists s', promoteWaitingPipelines ord s = Some s' /\ sched_pre s' /\ promoted s ord s'.
Proof.
  revert s. induction ord as [|id ord IH]; intros s W; cbn [promoteWaitingPipelines].
  { exists s. split; [done|]. split; [done|apply promoted_nil]. }
  destruct (waiting s !! id) as [wp|] eqn:E.
  2:{ destruct (IH s W) as (s' & E' & W' & K). exists s'. split; [done|]. split; [done|]. apply promoted_stay; [|done]. congruence. }
  destruct (hasPendingDependencies s wp) eqn:Hp.
  - destruct (IH s W) as (s' & E' & W' & K). exists s'. split; [done|]. split; [done|]. apply promoted_stay; [|done].
    intros p Ep D. apply pending_spec in D. congruence.
  - apply pending_spec in Hp. pose proof (pre_waiting s W id wp E) as Eid. subst id.
    assert (W1 : sched_pre (with_waiting s (delete (PID wp) (waiting s)))).
    { apply waiting_pre; [done|apply delete_subseteq|]. apply acyclic_delete, (pre_acyclic s W). }
    assert (Nq : q_contains (ready s) (PID wp) = false).
    { rewrite q_contains_bool by apply (pre_queue s W). apply bool_decide_eq_false_2. intros (p & Ep & I)%list_elem_of_fmap.
      destruct (pre_ready s W p I) as (_ & Nw & _). congruence. }
    destruct (q_push_ok (ready s) wp (pre_queue s W) Nq) as (q & Eq & Wq & P). rewrite Eq. cbn [mbind option_bind].
    assert (W2 : sched_pre (with_ready (with_waiting s (delete (PID wp) (waiting s))) q)).
    { apply (push_pre _ wp); [done| |apply lookup_delete_eq|done|done|done]. destruct (active s !! PID wp) as [p|] eqn:Ea; [|done].
      destruct (pre_active s W _ _ Ea) as (_ & Nw & _). cbn. congruence. }
    destruct (IH _ W2) as (s' & E' & W' & K). exists s'. split; [done|]. split; [done|]. by eapply promoted_move.
Qed.

(** What a call does, besides starting pipelines. *)
Lemma Schedule_spec s p : sched_ok s -> exists s' e, Schedule s p = Some (s', e) /\ sched_ok s' /\
  match e with
  | Some ErrSchedulerClosed => s' = s /\ closed s = true
  | Some ErrPipelineAlreadyExists => s' = s /\ closed s = false /\ pipelineExists s (PID p) = true
  | Some ErrCircularDependency => s' = s /\ closed s = false /\ pipelineExists s (PID p) = false /\
      tc (edge (<[PID p := p]> (waiting s))) (PID p) (PID p)
  | Some ErrPipelineNotFound => False
  | None => closed s = false /\ pipelineExists s (PID p) = false /\ ~ tc (edge (<[PID p := p]> (waiting s))) (PID p) (PID p) /\
      (~ deps_done s p /\ s' = with_waiting s (<[PID p := p]> (waiting s)) \/
       deps_done s p /\ exists q l, q_items q ≡ₚ p :: q_items (ready s) /\ sched_pre (with_ready s q) /\ started (with_ready s q) l s')
  end.
Proof.
  intros W. pose proof (ok_pre s W) as Wp. unfold Schedule. destruct (closed s) eqn:Ec; [by exists s, (Some ErrSchedulerClosed)|].
  destruct (pipelineExists s (PID p)) eqn:Ex; [by exists s, (Some ErrPipelineAlreadyExists)|].
  apply (exists_spec s (PID p) Wp) in Ex as Nx. destruct Nx as (Na & Nw & Nr).
  destruct (detect_spec s p (pre_acyclic s Wp) Nw) as (err & E & Cy). rewrite E. cbn [mbind option_bind]. destruct err.
  { exists s, (Some ErrCircularDependency). split; [done|]. split; [done|]. by rewrite <- Cy. }
  assert (Nt : ~ tc (edge (<[PID p := p]> (waiting s))) (PID p) (PID p)) by (intros T; by apply Cy in T).
  unfold enqueuePipeline. destruct (hasPendingDependencies s p) eqn:Hp.
  - assert (Nd : ~ deps_done s p) by (intros D; apply pending_spec in D; congruence).
    exists (with_waiting s (<[PID p := p]> (waiting s))), None. split; [done|]. split.
    2:{ split; [done|]. split; [done|]. split; [done|]. by left. }
    destruct W as [[wq wm wb wa ww wr wc] wp wbu wcl]. constructor; [constructor| | |]; try done; cbn.
    + intros id p' Ea. rewrite lookup_insert_ne; [by apply wa|]. intros <-. congruence.
    + intros id p' E'. destruct (decide (id = PID p)) as [->|N]; [rewrite lookup_insert_eq in E'; by injection E' as <-|].
      rewrite lookup_insert_ne in E' by done. by apply ww.
    + intros p' I. rewrite lookup_insert_ne; [by apply wr|]. intros Eq. by apply (Nr p' I).
    + by apply acyclic_insert.
    + intros id p' E'. destruct (decide (id = PID p)) as [->|N]; [rewrite lookup_insert_eq in E'; by injection E' as <-|].
      rewrite lookup_insert_ne in E' by done. by apply (wp id).
  - apply pending_spec in Hp. assert (Nq : q_contains (ready s) (PID p) = false).
    { rewrite q_contains_bool by apply (pre_queue s Wp). apply bool_decide_eq_false_2. intros (p' & Ep & I)%list_elem_of_fmap. by apply (Nr p' I). }
    destruct (q_push_ok (ready s) p (pre_queue s Wp) Nq) as (q & Eq & Wq & P). rewrite Eq. cbn [mbind option_bind].
    assert (W1 : sched_pre (with_ready s q)) by by eapply push_pre.
    destruct (tryScheduleNext_spec (with_ready s q) W1) as (s' & l & E' & W' & St); [done|apply (ok_pending s W)|].
    rewrite E'. cbn [mbind option_bind]. exists s', None. split; [done|]. split; [done|]. split; [done|]. split; [done|]. split; [done|]. right. split; [done|]. by exists q, l.
Qed.

(** The state in which [id] has just completed. *)
Definition finished (s : sched) (id : string) : sched :=
  mkSched (MaxConcurrent s) (delete id (active s)) (ready s) (waiting s) ({[id]} ∪ completed s) (closed s) (effects s).

Lemma delete_bound (m : gmap string SchedulablePipeline) id n : Z.of_nat (size m) <= n -> Z.of_nat (size (delete id m)) <= n.
Proof. rewrite map_size_delete. destruct (m !! id); simpl; lia. Qed.

Lemma finished_pre s id : sched_pre s -> sched_pre (finished s id).
Proof.
  assert (D : forall p, deps_done s p -> deps_done (finished s id) p) by (intros p; apply deps_done_mono; cbn; set_solver).
  intros [wq wm wb wa ww wr wc]. constructor; try done; cbn.
  - by apply delete_bound.
  - intros x p E. apply lookup_delete_Some in E as [_ E]. destruct (wa x p E) as (? & ? & ?). split; [done|]. split; [done|by apply D].
  - intros p I. destruct (wr p I) as (? & ? & ?). split; [|split; [done|by apply D]]. rewrite lookup_delete_None. by right.
Qed.

Lemma NotifyComplete_spec ord s id : sched_ok s -> (forall x, is_Some (waiting s !! x) -> x ∈ ord) ->
  exists s' e, NotifyComplete ord s id = Some (s', e) /\ sched_ok s' /\
  match e with
  | Some ErrSchedulerClosed => s' = s /\ closed s = true
  | Some ErrPipelineNotFound => s' = s /\ closed s = false /\ active s !! id = None
  | Some _ => False
  | None => closed s = false /\ is_Some (active s !! id) /\
      exists s1 l, promoted (finished s id) ord s1 /\ sched_pre s1 /\ started s1 l s'
  end.
Proof.
  intros W O. pose proof (ok_pre s W) as Wp. unfold NotifyComplete. destruct (closed s) eqn:Ec; [by exists s, (Some ErrSchedulerClosed)|].
  destruct (active s !! id) as [p|] eqn:Ea; [|by exists s, (Some ErrPipelineNotFound)].
  rewrite <- Ec. fold (finished s id). unfold onPipelineComplete.
  destruct (promote_spec ord _ (finished_pre s id Wp)) as (s1 & E1 & W1 & P1). rewrite E1. cbn [mbind option_bind].
  destruct (pr_same _ _ _ P1) as (Em & Eac & Eco & Ecl & Eef).
  destruct (tryScheduleNext_spec s1 W1) as (s' & l & E2 & W2 & St); [by rewrite Ecl| |].
  { intros x p' E D. apply (pr_waiting _ _ _ P1) in E as [E N]. apply N. split; [apply O; by exists p'|]. split; [done|].
    eapply deps_done_mono; [|exact D]. by rewrite Eco. }
  rewrite E2. cbn [mbind option_bind]. exists s', None. split; [done|]. split; [done|]. split; [done|]. split; [done|]. by exists s1, l.
Qed.

Lemma stop_pre s id p : sched_pre s -> sched_pre (stopActive s id p).
Proof.
  intros [wq wm wb wa ww wr wc]. constructor; try done; cbn.
  - by apply delete_bound.
  - intros x p' E. apply lookup_delete_Some in E as [_ E]. by apply wa.
  - intros p' I. destruct (wr p' I) as (? & ? & ?). split; [|done]. rewrite lookup_delete_None. by right.
Qed.

Lemma Cancel_spec s id : sched_ok s -> exists s' e, Cancel s id = Some (s', e) /\ sched_ok s' /\
  match e with
  | Some ErrSchedulerClosed => s' = s /\ closed s = true
  | Some ErrPipelineNotFound => s' = s /\ closed s = false /\ pipelineExists s id = false
  | Some _ => False
  | None => closed s = false /\
      ((exists p l, active s !! id = Some p /\ started (stopActive s id p) l s') \/
       (exists p q, active s !! id = None /\ PID p = id /\ q_items (ready s) ≡ₚ p :: q_items q /\ s' = with_ready s q) \/
       (exists p, active s !! id = None /\ waiting s !! id = Some p /\ s' = with_waiting s (delete id (waiting s))))
  end.
Proof.
  intros W. pose proof (ok_pre s W) as Wp. unfold Cancel. destruct (closed s) eqn:Ec; [by exists s, (Some ErrSchedulerClosed)|].
  unfold cancelPipeline, cancelActive. destruct (active s !! id) as [p|] eqn:Ea.
  { destruct (tryScheduleNext_spec (stopActive s id p) (stop_pre s id p Wp) Ec (ok_pending s W)) as (s' & l & E & W' & St).
    rewrite E. cbn [mbind option_bind]. exists s', None. split; [done|]. split; [done|]. split; [done|]. left. by exists p, l. }
  cbn [mbind option_bind]. unfold cancelReady. destruct (q_remove_ok (ready s) id (pre_queue s Wp)) as (q & b & E & Wq & Eb & K).
  rewrite E. cbn [mbind option_bind]. destruct b.
  { destruct K as (p & Ep & P). exists (with_ready s q), None. split; [done|]. split.
    - destruct W as [[wq wm wb wa ww wr wc] wp wbu wcl]. constructor; [constructor| | |]; try done; cbn.
      + intros p' I. apply wr. rewrite P. by right.
      + intros _. destruct (wbu Ec) as [|E0]; [by left|]. rewrite E0 in P. by apply Permutation_nil_cons in P.
    - split; [done|]. right. left. by exists p, q. }
  subst q. unfold cancelWaiting. cbn [with_ready waiting]. destruct (waiting s !! id) as [p|] eqn:Ew.
  - exists (with_waiting (with_ready s (ready s)) (delete id (waiting s))), None. split; [done|]. split.
    2:{ split; [done|]. right. right. by exists p. }
    constructor; [|intros x p' E'; cbn in E'; apply lookup_delete_Some in E' as [_ E']; by apply (ok_pending s W x)|apply (ok_busy s W)|apply (ok_closed s W)].
    apply (waiting_pre s); [done|apply delete_subseteq|]. apply acyclic_delete, (pre_acyclic s Wp).
  - exists (with_ready s (ready s)), (Some ErrPipelineNotFound). split; [done|]. destruct s. split; [done|]. split; [done|]. split; [done|].
    unfold pipelineExists. cbn in *. by rewrite Ea, Ew.
Qed.

Lemma cancelAll_spec ord s : sched_pre s -> let s' := cancelAllActive ord s in
  sched_pre s' /\ same_rest s s' /\ ready s' = ready s /\ (forall id, active s' !! id = if decide (id ∈ ord) then None else active s !! id).
Proof.
  cbn zeta. unfold cancelAllActive. revert s. induction ord as [|id ord IH]; intros s W; cbn [foldl].
  { split; [done|]. split; [done|]. split; [done|]. intros id. rewrite decide_False by apply not_elem_of_nil. done. }
  destruct (active s !! id) as [p|] eqn:Ea.
  - destruct (IH (stopActive s id p) (stop_pre s id p W)) as (W' & R & Er & Ac). split; [done|]. split; [done|]. split; [done|].
    intros x. rewrite Ac. cbn. destruct (decide (x = id)) as [->|N].
    + rewrite lookup_delete_eq. rewrite (decide_True (P := id ∈ id :: ord)) by by left. by case_decide.
    + rewrite lookup_delete_ne by done. repeat case_decide; set_solver.
  - destruct (IH s W) as (W' & R & Er & Ac). split; [done|]. split; [done|]. split; [done|]. intros x. rewrite Ac.
    destruct (decide (x = id)) as [->|N]; [by repeat case_decide|]. repeat case_decide; set_solver.
Qed.

Lemma Close_spec ord s : sched_ok s -> (forall x, is_Some (active s !! x) -> x ∈ ord) -> let s' := Close ord s in
  sched_ok s' /\ closed s' = true /\ active s' = ∅ /\ waiting s' = waiting s /\ completed s' = completed s /\ ready s' = ready s.
Proof.
  intros W O. cbn zeta. unfold Close. set (s0 := mkSched _ _ _ _ _ _ _).
  assert (W0 : sched_pre s0) by (destruct (ok_pre s W); by constructor).
  destruct (cancelAll_spec ord s0 W0) as (W' & (Em & Ew & Ec & Ecl) & Er & Ac).
  assert (E : active (cancelAllActive ord s0) = ∅).
  { apply map_eq. intros id. rewrite Ac, lookup_empty. case_decide as Hd; [done|]. cbn. destruct (active s !! id) eqn:Ea; [|done].
    destruct Hd. apply O. by rewrite Ea. }
  split; [|by rewrite Ecl, E, Ew, Ec, Er]. constructor; [done| |rewrite Ecl; intros K; discriminate K|done].
  intros id p. rewrite Ew. intros Ep D. apply (ok_pending s W id p Ep). intros d I. specialize (D d I). by rewrite Ec in D.
Qed.

(** The visits of a map: every key once. *)
Definition label_ok (s : sched) (l : label) : Prop :=
  match l with
  | LComplete ord _ => ord ≡ₚ (map_to_list (waiting s)).*1
  | LClose ord => ord ≡ₚ (map_to_list (active s)).*1
  | _ => True
  end.

Lemma visits (m : gmap string SchedulablePipeline) ord x : ord ≡ₚ (map_to_list m).*1 -> is_Some (m !! x) <-> x ∈ ord.
Proof.
  intros ->. rewrite list_elem_of_fmap. split.
  - intros [p E]. exists (x, p). split; [done|]. by apply elem_of_map_to_list.
  - intros ([y p] & -> & I). exists p. by apply elem_of_map_to_list in I.
Qed.

(** The states calls can lead to. *)
Inductive reach (numCPU maxConcurrent : Z) : sched -> Prop :=
| reach_new : reach numCPU maxConcurrent (NewPipelineScheduler numCPU maxConcurrent)
| reach_step s l s' e : reach numCPU maxConcurrent s -> label_ok s l -> step s l = Some (s', e) -> reach numCPU maxConcurrent s'.

Lemma new_ok n m : 0 < n -> sched_ok (NewPipelineScheduler n m : sched).
Proof.
  intros P. unfold NewPipelineScheduler. destruct q_new_ok as [Wq E0]. constructor; [constructor| | |]; cbn; try done.
  - destruct (Z.leb_spec m 0); lia.
  - rewrite map_size_empty. destruct (Z.leb_spec m 0); lia.
  - rewrite E0. by intros p I%not_elem_of_nil.
  - apply acyclic_empty.
  - intros _. right. done.
Qed.

Lemma started_max s l s' : started s l s' -> MaxConcurrent s' = MaxConcurrent s.
Proof. intros St. apply (st_rest _ _ _ St). Qed.

Lemma call_ok s l : sched_ok s -> label_ok s l -> exists s' e, step s l = Some (s', e) /\ sched_ok s' /\ MaxConcurrent s' = MaxConcurrent s.
Proof.
  intros W O. destruct l as [p|ord id|id|ord]; cbn [step].
  - destruct (Schedule_spec s p W) as (s' & e & E & W' & K). exists s', e. split; [done|]. split; [done|].
    destruct e as [[]|]; try (by destruct K as [-> _]); [done|]. destruct K as (_ & _ & _ & [[_ ->]|(_ & q & l & _ & _ & St)]); [done|]. apply (started_max _ _ _ St).
  - destruct (NotifyComplete_spec ord s id W) as (s' & e & E & W' & K); [intros x; by apply visits|]. exists s', e. split; [done|]. split; [done|].
    destruct e as [[]|]; try (by destruct K as [-> _]); try done. destruct K as (_ & _ & s1 & l & Pr & _ & St).
    rewrite (started_max _ _ _ St). apply (pr_same _ _ _ Pr).
  - destruct (Cancel_spec s id W) as (s' & e & E & W' & K). exists s', e. split; [done|]. split; [done|].
    destruct e as [[]|]; try (by destruct K as [-> _]); try done. destruct K as (_ & [(p & l & _ & St)|[(p & q & _ & _ & _ & ->)|(p & _ & _ & ->)]]); try done.
    apply (started_max _ _ _ St).
  - eexists _, None. split; [done|]. destruct (Close_spec ord s W) as (W' & _); [intros x; by apply visits|]. split; [done|].
    unfold Close. set (s0 := mkSched _ _ _ _ _ _ _). assert (W0 : sched_pre s0) by (destruct (ok_pre s W); by constructor).
    by destruct (cancelAll_spec ord s0 W0) as (_ & (-> & _) & _).
Qed.

Lemma reach_ok n m s : 0 < n -> reach n m s -> sched_ok s /\ MaxConcurrent s = if m <=? 0 then n else m.
Proof.
  intros P. induction 1 as [|s l s' e _ [W E] O St]; [split; [by apply new_ok|done]|].
  destruct (call_ok s l W O) as (s1 & e1 & St1 & W1 & E1). rewrite St in St1. injection St1 as <- <-. split; [done|congruence].
Qed.

(** Known to the scheduler. *)
Lemma known_spec s id : sched_pre s -> pipelineExists s id = true <->
  is_Some (active s !! id) \/ is_Some (waiting s !! id) \/ exists p, p ∈ q_items (ready s) /\ PID p = id.
Proof.
  intros W. unfold pipelineExists. destruct (active s !! id); [split; [by left|done]|]. destruct (waiting s !! id); [split; [right; by left|done]|].
  rewrite (q_contains_ok _ id (pre_queue s W)). split; [intros K; by do 2 right|]. by intros [[? ?]|[[? ?]|K]].
Qed.

(** Starting makes none known, ... *)
Lemma started_known s l s' id : sched_pre s -> sched_pre s' -> started s l s' -> pipelineExists s' id = true -> pipelineExists s id = true.
Proof.
  intros W W' [(_ & Ew & _) P A _ _ _]. rewrite (known_spec s), (known_spec s') by done. rewrite Ew.
  intros [[p [E|[I Ep]]%A]|[K|(p & I & Ep)]].
  - left. by exists p.
  - right. right. exists p. split; [rewrite P; apply elem_of_app; by left|done].
  - right. by left.
  - right. right. exists p. split; [rewrite P; apply elem_of_app; by right|done].
Qed.

(** ... nor does moving to the queue; *)
Lemma promoted_known s ord s' id : sched_pre s -> sched_pre s' -> promoted s ord s' -> pipelineExists s' id = true -> pipelineExists s id = true.
Proof.
  intros W W' [(_ & Ea & _) Pw Pr]. rewrite (known_spec s), (known_spec s') by done. rewrite Ea. intros [K|[[p [E _]%Pw]|(p & I & Ep)]].
  - by left.
  - right. left. by exists p.
  - apply Pr in I as [I|(x & _ & E & _)]; [right; right; by exists p|]. right. left. pose proof (pre_waiting s W x p E). subst. by exists p.
Qed.

(** a smaller state knows no more. *)
Lemma smaller_known s s' id : sched_pre s -> sched_pre s' -> (forall x, is_Some (active s' !! x) -> is_Some (active s !! x)) ->
  (forall x, is_Some (waiting s' !! x) -> is_Some (waiting s !! x)) -> (forall p, p ∈ q_items (ready s') -> p ∈ q_items (ready s)) ->
  pipelineExists s' id = true -> pipelineExists s id = true.
Proof. intros W W' A B C. rewrite (known_spec s), (known_spec s') by done. naive_solver. Qed.

Lemma delete_some (m : gmap string SchedulablePipeline) id x : is_Some (delete id m !! x) -> is_Some (m !! x).
Proof. intros [p E]. apply lookup_delete_Some in E as [_ E]. by exists p. Qed.

Lemma call_known s l s' e id : sched_ok s -> label_ok s l -> step s l = Some (s', e) -> (forall p, l = LSchedule p -> PID p <> id) ->
  pipelineExists s' id = true -> pipelineExists s id = true.
Proof.
  intros W O St N. pose proof (ok_pre s W) as Wp. destruct l as [p|ord x|x|ord]; cbn [step] in St.
  - specialize (N p eq_refl). destruct (Schedule_spec s p W) as (s1 & e1 & E & W' & K). rewrite St in E. injection E as <- <-.
    destruct e as [[]|]; try (by destruct K as [-> _]); [done|]. destruct K as (_ & _ & _ & [[_ ->]|(_ & q & l & P & W1 & Ss)]).
    + rewrite (known_spec _ _ (ok_pre _ W')), (known_spec _ _ Wp). cbn. by rewrite lookup_insert_ne.
    + intros K. apply (started_known (with_ready s q) l s' id W1 (ok_pre _ W') Ss) in K. rewrite (known_spec _ _ W1) in K. rewrite (known_spec _ _ Wp).
      destruct K as [K|[K|(p' & I & Ep)]]; [by left|right; by left|]. cbn in I. rewrite P in I. apply elem_of_cons in I as [->|I]; [done|]. right. right. by exists p'.
  - destruct (NotifyComplete_spec ord s x W) as (s1 & e1 & E & W' & K); [intros y; by apply visits|]. rewrite St in E. injection E as <- <-.
    destruct e as [[]|]; try (by destruct K as [-> _]); [done|done|]. destruct K as (_ & _ & s1 & l & Pr & W1 & Ss). intros K.
    apply (started_known s1 l s' id W1 (ok_pre _ W') Ss) in K. apply (promoted_known _ ord s1 id (finished_pre s x Wp) W1 Pr) in K.
    apply (smaller_known s (finished s x)); [done|by apply finished_pre|apply delete_some|done|done|done].
  - destruct (Cancel_spec s x W) as (s1 & e1 & E & W' & K). rewrite St in E. injection E as <- <-.
    destruct e as [[]|]; try (by destruct K as [-> _]); [done|done|].
    destruct K as (_ & [(p & l & _ & Ss)|[(p & q & _ & _ & P & ->)|(p & _ & _ & ->)]]); intros K.
    + apply (started_known (stopActive s x p) l s' id (stop_pre s x p Wp) (ok_pre _ W') Ss) in K.
      apply (smaller_known s (stopActive s x p)); [done|by apply stop_pre|apply delete_some|done|done|done].
    + apply (smaller_known s (with_ready s q)); [done|apply (ok_pre _ W')|done|done| |done]. intros p' I. rewrite P. by right.
    + apply (smaller_known s (with_waiting s (delete x (waiting s)))); [done|apply (ok_pre _ W')|done|apply delete_some|done|done].
  - injection St as <- <-. destruct (Close_spec ord s W) as (W' & _ & Ea & Ew & _ & Er); [intros x; by apply visits|].
    apply smaller_known; [done|apply (ok_pre _ W')| | |]; rewrite ?Ea, ?Ew, ?Er; try done. intros x [p E]. by rewrite lookup_empty in E.
Qed.

(** What has completed: what was active. *)
Lemma call_completed s l s' e id : sched_ok s -> label_ok s l -> step s l = Some (s', e) -> id ∈ completed s' ->
  id ∈ completed s \/ (exists ord, l = LComplete ord id) /\ is_Some (active s !! id).
Proof.
  intros W O St. destruct l as [p|ord x|x|ord]; cbn [step] in St.
  - destruct (Schedule_spec s p W) as (s1 & e1 & E & W' & K). rewrite St in E. injection E as <- <-.
    destruct e as [[]|]; try (destruct K as [-> _]; by left); [done|]. destruct K as (_ & _ & _ & [[_ ->]|(_ & q & l & P & _ & Ss)]); [by left|].
    destruct (st_rest _ _ _ Ss) as (_ & _ & -> & _). by left.
  - destruct (NotifyComplete_spec ord s x W) as (s1 & e1 & E & W' & K); [intros y; by apply visits|]. rewrite St in E. injection E as <- <-.
    destruct e as [[]|]; try (destruct K as [-> _]; by left); [done|done|]. destruct K as (_ & Ax & s1 & l & Pr & _ & Ss).
    destruct (st_rest _ _ _ Ss) as (_ & _ & -> & _). destruct (pr_same _ _ _ Pr) as (_ & _ & -> & _). cbn.
    intros [->%elem_of_singleton|I]%elem_of_union; [right; split; [by exists ord|done]|by left].
  - destruct (Cancel_spec s x W) as (s1 & e1 & E & W' & K). rewrite St in E. injection E as <- <-.
    destruct e as [[]|]; try (destruct K as [-> _]; by left); [done|done|].
    destruct K as (_ & [(p & l & _ & Ss)|[(p & q & _ & _ & P & ->)|(p & _ & _ & ->)]]); [|by left|by left].
    destruct (st_rest _ _ _ Ss) as (_ & _ & -> & _). by left.
  - injection St as <- <-. destruct (Close_spec ord s W) as (_ & _ & _ & _ & -> & _); [intros x; by apply visits|]. by left.
Qed.

(** A cancelled pipeline is not known any more. *)
Lemma cancelled_unknown s id s' : sched_ok s -> Cancel s id = Some (s', None) -> pipelineExists s' id = false.
Proof.
  intros W C. pose proof (ok_pre s W) as Wp. destruct (Cancel_spec s id W) as (t & e & E & W' & K). rewrite C in E. injection E as <- <-.
  apply not_true_iff_false. intros X.
  destruct K as (_ & [(p & l & Ea & Ss)|[(p & q & Na & Ep & P & ->)|(p & Na & Ew & ->)]]).
  - apply (started_known (stopActive s id p) l s' id (stop_pre s id p Wp) (ok_pre _ W') Ss) in X.
    rewrite (known_spec _ _ (stop_pre s id p Wp)) in X. cbn in X. rewrite lookup_delete_eq in X.
    destruct (pre_active s Wp id p Ea) as (_ & Nw & _). rewrite Nw in X. destruct X as [[? ?]|[[? ?]|(q & I & Eq)]]; [done..|].
    destruct (pre_ready s Wp q I) as (Nq & _). congruence.
  - rewrite (known_spec _ _ (ok_pre _ W')) in X. cbn in X. destruct (pre_ready s Wp p) as (_ & Nw & _); [rewrite P; by left|].
    rewrite Na in X. subst id. rewrite Nw in X. destruct X as [[? ?]|[[? ?]|(q' & I & Eq)]]; [done..|].
    pose proof (q_names _ (pre_queue s Wp)) as ND. rewrite P in ND. cbn in ND. apply NoDup_cons in ND as [Nd _]. apply Nd.
    rewrite <- Eq. apply list_elem_of_fmap. by exists q'.
  - rewrite (known_spec _ _ (ok_pre _ W')) in X. cbn in X. rewrite Na, lookup_delete_eq in X. destruct X as [[? ?]|[[? ?]|(q & I & Eq)]]; [done..|].
    destruct (pre_ready s Wp q I) as (_ & Nw & _). congruence.
Qed.

(** A dependency the scheduler does not know and has not seen complete. *)
Definition gone (s : sched) (id : string) : Prop := pipelineExists s id = false /\ id ∉ completed s.

Lemma gone_step s l s' e id : sched_ok s -> label_ok s l -> step s l = Some (s', e) -> (forall p, l = LSchedule p -> PID p <> id) ->
  gone s id -> gone s' id.
Proof.
  intros W O St N [G1 G2]. split.
  - apply not_true_iff_false. intros K. apply (call_known s l s' e id W O St N) in K. congruence.
  - intros I. apply (call_completed s l s' e id W O St) in I as [I|[_ A]]; [done|].
    assert (K : pipelineExists s id = true) by (apply known_spec; [apply (ok_pre s W)|by left]). congruence.
Qed.

(** A waiting pipeline waits, through others that wait, for something that
    has not completed and does not wait itself. *)
Lemma waits_for s id p : sched_ok s -> waiting s !! id = Some p ->
  exists m, (tc (edge (waiting s)) id m) /\ (m ∉ completed s) /\ waiting s !! m = None.
Proof.
  intros W. pose proof (pre_acyclic s (ok_pre s W)) as A.
  assert (K : forall n seen id p, NoDup seen -> (forall x, x ∈ seen -> is_Some (waiting s !! x) /\ (tc (edge (waiting s)) x id)) ->
    (size (waiting s) < n + length seen)%nat -> waiting s !! id = Some p ->
    exists m, (tc (edge (waiting s)) id m) /\ (m ∉ completed s) /\ waiting s !! m = None).
  { clear id p. intros n. induction n as [|n IH]; intros seen id p ND Sn L E.
    { exfalso. assert (I : (length seen <= size (dom (waiting s)))%nat); [|rewrite size_dom in I; lia].
      rewrite <- (size_list_to_set (C := gset string) seen ND). apply subseteq_size. intros x I%elem_of_list_to_set. apply elem_of_dom. by apply Sn. }
    assert (Pd : exists d, d ∈ Dependencies p /\ d ∉ completed s).
    { pose proof (ok_pending s W id p E) as N. destruct (decide (Exists (fun d => d ∉ completed s) (Dependencies p))) as [X|X].
      - apply Exists_exists in X as (d & I & X). by exists d.
      - destruct N. intros d I. destruct (decide (d ∈ completed s)); [done|]. destruct X. apply Exists_exists. by exists d. }
    destruct Pd as (d & I & Nd). assert (X : edge (waiting s) id d) by by exists p. destruct (waiting s !! d) as [dp|] eqn:Ed.
    2:{ exists d. split; [by apply tc_once|done]. }
    destruct (IH (id :: seen) d dp) as (m & T & K).
    - constructor; [|done]. intros Is. by apply (A id), Sn.
    - intros x [->|Is]%elem_of_cons; [split; [by rewrite E|by apply tc_once]|]. destruct (Sn x Is). split; [done|by eapply tc_r].
    - cbn. lia.
    - done.
    - exists m. split; [by eapply tc_l|done]. }
  intros E. apply (K (S (size (waiting s))) [] id p); [constructor|by intros x I%not_elem_of_nil|cbn; lia|done].
Qed.

(* ------------------------------------------------------------------ *)
(** ** What is promised *)

(** C16: whatever is called in whatever order, from a new scheduler (on a
    machine with a CPU): every call answers; at most the configured number of
    pipelines (the number of CPUs, when none is configured) are active;
    whatever is active or ready has all its dependencies completed, whatever
    waits has one that is not; no pipeline is in two places; as long as the
    scheduler is open no place is free while a pipeline is ready, and when it
    is closed none is active. *)
Theorem scheduler_safe n m s : 0 < n -> reach n m s ->
  Z.of_nat (size (active s)) <= (if m <=? 0 then n else m) /\
  (forall id p, active s !! id = Some p -> PID p = id /\ deps_done s p /\ waiting s !! id = None) /\
  (forall p, p ∈ q_items (ready s) -> deps_done s p /\ active s !! PID p = None /\ waiting s !! PID p = None) /\
  (forall id p, waiting s !! id = Some p -> PID p = id /\ ~ deps_done s p) /\
  NoDup (PID <$> q_items (ready s)) /\
  (if closed s then active s = ∅ else Z.of_nat (size (active s)) = (if m <=? 0 then n else m) \/ q_items (ready s) = []) /\
  (forall l, label_ok s l -> exists s' e, step s l = Some (s', e)).
Proof.
  intros P R. destruct (reach_ok n m s P R) as [W E]. pose proof (ok_pre s W) as [wq wm wb wa ww wr wc]. rewrite <- E.
  split; [done|]. split; [intros id p Ea; destruct (wa id p Ea) as (? & ? & ?); done|].
  split; [intros p I; destruct (wr p I) as (? & ? & ?); done|]. split; [intros id p Ew; split; [by apply ww|by apply (ok_pending s W id)]|].
  split; [by apply q_names|]. split; [destruct (closed s) eqn:Ec; [by apply ok_closed|by apply ok_busy]|].
  intros l O. destruct (call_ok s l W O) as (s' & e & St & _). by exists s', e.
Qed.

(** C17: a new pipeline is refused as circular exactly when it would depend on
    itself, directly or through pipelines that wait; otherwise it is accepted,
    to wait if one of its dependencies has not completed.  So the waiting
    pipelines never depend on each other in a circle. *)
Theorem cycle_exact n m s p : 0 < n -> reach n m s -> closed s = false -> pipelineExists s (PID p) = false ->
  acyclic (waiting s) /\
  exists s' e, Schedule s p = Some (s', e) /\ acyclic (waiting s') /\
    (e = Some ErrCircularDependency <-> tc (edge (<[PID p := p]> (waiting s))) (PID p) (PID p)) /\
    (e <> Some ErrCircularDependency -> e = None /\ (is_Some (waiting s' !! PID p) <-> ~ deps_done s p)).
Proof.
  intros P R Ec Ex. destruct (reach_ok n m s P R) as [W _]. split; [apply (pre_acyclic s (ok_pre s W))|].
  destruct (Schedule_spec s p W) as (s' & e & E & W' & K). exists s', e. split; [done|]. split; [apply (pre_acyclic s' (ok_pre s' W'))|].
  destruct e as [[]|]; try (destruct K as (? & ? & ?); congruence); [done|destruct K as (_ & _ & _ & T); done|destruct K as [_ K]; congruence|].
  destruct K as (_ & _ & Nt & K). split; [done|]. intros _. split; [done|].
  apply (exists_spec s (PID p) (ok_pre s W)) in Ex as (_ & Nw & _).
  destruct K as [[Nd ->]|(D & q & l & _ & _ & Ss)]; [cbn; by rewrite lookup_insert_eq|].
  destruct (st_rest _ _ _ Ss) as (_ & -> & _). cbn. rewrite Nw. split; [by intros [? ?]|done].
Qed.

(** Completing an active pipeline makes ready exactly the waiting ones
    whose last dependency it was, and fills the free places from all that are
    ready, the highest first (priority, then age): each is started once, in
    that order, and none that stays ready goes before one that was started. *)
Theorem completion_starts_highest n m s ord id p : 0 < n -> reach n m s -> closed s = false -> label_ok s (LComplete ord id) ->
  active s !! id = Some p ->
  exists s' l, NotifyComplete ord s id = Some (s', None) /\ completed s' = {[id]} ∪ completed s /\
    (forall q, q ∈ l \/ q ∈ q_items (ready s') <->
       q ∈ q_items (ready s) \/ exists x, waiting s !! x = Some q /\ deps_done s' q) /\
    (forall x q, active s' !! x = Some q <-> (x <> id /\ active s !! x = Some q) \/ (q ∈ l /\ PID q = x)) /\
    effects s' = effects s ++ starts l /\ Sorted above l /\ (forall a b, a ∈ l -> b ∈ q_items (ready s') -> above a b) /\
    (Z.of_nat (size (active s')) = MaxConcurrent s \/ q_items (ready s') = []).
Proof.
  intros P R Ec O Ea. destruct (reach_ok n m s P R) as [W _].
  destruct (NotifyComplete_spec ord s id W) as (s' & e & E & W' & K); [intros x; by apply visits|].
  destruct e as [[]|]; [destruct K as (_ & _ & ?); congruence|done|destruct K as [_ ?]; congruence|done|].
  destruct K as (_ & _ & s1 & l & Pr & _ & [(Em & Ew & Eco & Ecl) Pp A Ef So Fi]). destruct (pr_same _ _ _ Pr) as (Em1 & Ea1 & Eco1 & Ecl1 & Ef1).
  exists s', l. split; [done|]. split; [by rewrite Eco, Eco1|]. split; [|split; [|split; [|split; [done|split; [done|]]]]].
  - intros q. rewrite <- elem_of_app, <- Pp, (pr_ready _ _ _ Pr). unfold freed. cbn. split.
    + intros [I|(x & I & Ex & D)]; [by left|]. right. exists x. split; [done|]. eapply deps_done_mono; [|exact D]. cbn. by rewrite Eco, Eco1.
    + intros [I|(x & Ex & D)]; [by left|]. right. exists x. split; [apply (visits _ ord x O); by exists q|]. split; [done|].
      eapply deps_done_mono; [|exact D]. by rewrite Eco, Eco1.
  - intros x q. rewrite A, Ea1. cbn. rewrite lookup_delete_Some. naive_solver.
  - by rewrite Ef, Ef1.
  - rewrite <- Em1 at 1. rewrite <- Em. apply (ok_busy s' W'). rewrite Ecl, Ecl1. done.
Qed.

(** C18: a pipeline that waits does so, through others that wait, for one that
    has not completed and is active, ready, or not known to the scheduler;
    when nothing is active, only the last is possible.  So no set of pipelines
    can block itself. *)
Theorem waits_for_progress n m s id p : 0 < n -> reach n m s -> closed s = false -> waiting s !! id = Some p ->
  exists d, tc (edge (waiting s)) id d /\ (d ∉ completed s) /\ waiting s !! d = None /\
    (active s = ∅ -> pipelineExists s d = false).
Proof.
  intros P R Ec E. destruct (reach_ok n m s P R) as [W _]. destruct (waits_for s id p W E) as (d & T & Nc & Nw).
  exists d. split; [done|]. split; [done|]. split; [done|]. intros Ea. apply not_true_iff_false. rewrite (known_spec s d (ok_pre s W)).
  pose proof (pre_max s (ok_pre s W)). destruct (ok_busy s W Ec) as [B|B].
  - rewrite Ea, map_size_empty in B. lia.
  - rewrite Ea, Nw, B. intros [[? K]|[[? K]|(q & I%not_elem_of_nil & _)]]; [|done..]. by rewrite lookup_empty in K.
Qed.

(** Calls one after another, each map visited in some order. *)
Inductive runs : sched -> list label -> sched -> Prop :=
| runs_nil s : runs s [] s
| runs_cons s l s1 e ls s2 : label_ok s l -> step s l = Some (s1, e) -> runs s1 ls s2 -> runs s (l :: ls) s2.

(** Cancelling a pipeline does not touch those that depend on it: as long
    as it is not scheduled anew, nothing that depends on it ever becomes
    ready or active, whatever else is called; it stays uncompleted. *)
Theorem cancelled_dependency_strands n m s id s1 ls s2 : 0 < n -> reach n m s -> id ∉ completed s ->
  Cancel s id = Some (s1, None) -> runs s1 ls s2 -> (forall p, LSchedule p ∈ ls -> PID p <> id) ->
  (id ∉ completed s2) /\
  (forall x p, active s2 !! x = Some p -> id ∉ Dependencies p) /\
  (forall p, p ∈ q_items (ready s2) -> id ∉ Dependencies p).
Proof.
  intros P R Nc C Rn N. destruct (reach_ok n m s P R) as [W _].
  assert (G : sched_ok s1 /\ gone s1 id).
  { destruct (call_ok s (LCancel id) W I) as (t & e & E & W' & _). cbn in E. rewrite C in E. injection E as <- <-. split; [done|].
    split; [by apply (cancelled_unknown s id)|].
    intros J. apply (call_completed s (LCancel id) s1 None id W I C) in J as [?|[[? ?] _]]; done. }
  clear C W R Nc s. revert G N. induction Rn as [s|s l s1 e ls s2 O St Rn IH]; intros [W G] N.
  - split; [apply G|]. destruct (ok_pre s W) as [wq wm wb wa ww wr wc]. destruct G as [_ G].
    split; [intros x p E I; apply G; destruct (wa x p E) as (_ & _ & D); by apply D|].
    intros p J I. apply G. destruct (wr p J) as (_ & _ & D). by apply D.
  - apply IH.
    + split; [destruct (call_ok s l W O) as (t & e' & St' & W' & _); rewrite St in St'; by injection St' as <- <-|].
      apply (gone_step s l s1 e id W O St); [intros p ->; apply N; by left|done].
    + intros p I. apply N. by right.
Qed.

Lemma schedules_reach n m s ps s' : reach n m s -> run s (LSchedule <$> ps) = Some s' -> reach n m s'.
Proof.
  revert s. induction ps as [|p ps IH]; intros s R E; cbn in E; [by injection E as <-|].
  apply bind_Some in E as ([s1 e] & St & E). apply (IH s1); [by apply (reach_step n m s (LSchedule p) s1 e)|done].
Qed.
End Sched.

(* ------------------------------------------------------------------ *)
(** ** With the heap, one place, and a pipeline that waits for another *)

Definition pa : SchedulablePipeline := mkPipeline "a" 1 0 [] true.
Definition pb : SchedulablePipeline := mkPipeline "b" 2 1 ["a"] true.
Definition pc : SchedulablePipeline := mkPipeline "c" 3 2 [] false.
Definition new1 : PipelineScheduler PipelinePriorityQueue := NewPipelineScheduler 4 1.
(** [a] is active, [b] waits, [c] is ready. *)
Definition abc : PipelineScheduler PipelinePriorityQueue := default new1 (run new1 (LSchedule <$> [pa; pb; pc])).

Lemma abc_reach : reach 4 1 abc.
Proof. apply (schedules_reach 4 1 new1 [pa; pb; pc]); [constructor|]. by vm_compute. Qed.
Lemma abc_order : label_ok abc (LComplete ["b"] "a").
Proof. vm_compute. reflexivity. Qed.

Lemma scheduler_safe_witness : active abc !! "a" = Some pa /\ q_items (ready abc) = [pc] /\ waiting abc !! "b" = Some pb /\
  Z.of_nat (size (active abc)) <= 1 /\ (forall id p, waiting abc !! id = Some p -> PID p = id /\ ~ deps_done abc p).
Proof.
  split; [by vm_compute|]. split; [by vm_compute|]. split; [by vm_compute|].
  destruct (scheduler_safe 4 1 abc ltac:(lia) abc_reach) as (L & _ & _ & Wt & _). by split.
Defined.

(** [a], to be scheduled anew after it was cancelled, with [b] as its dependency. *)
Lemma cycle_exact_witness : exists s1, Cancel abc "a" = Some (s1, None) /\ reach 4 1 s1 /\
  exists s' e, Schedule s1 (mkPipeline "a" 1 0 ["b"] true) = Some (s', e) /\ e = Some ErrCircularDependency.
Proof.
  destruct (call_ok abc (LCancel "a")) as (s1 & e1 & E & _); [by apply (reach_ok 4 1 abc ltac:(lia) abc_reach)|done|].
  cbn in E. assert (E0 : e1 = None) by (vm_compute in E; by injection E as _ <-). subst e1. exists s1. split; [done|].
  assert (R : reach 4 1 s1) by (apply (reach_step 4 1 abc (LCancel "a") s1 None abc_reach); done). split; [done|].
  assert (E1 : closed s1 = false /\ pipelineExists s1 "a" = false /\ waiting s1 = {["b" := pb]}) by (vm_compute in E; injection E as <-; by vm_compute).
  destruct E1 as (C1 & X1 & W1).
  destruct (cycle_exact 4 1 s1 (mkPipeline "a" 1 0 ["b"] true) ltac:(lia) R C1 X1) as (_ & s' & e & E' & _ & K & _).
  exists s', e. split; [done|]. apply K. cbn [PID]. rewrite W1. apply (tc_l _ _ "b"); [|apply tc_once].
  - eexists. split; [apply lookup_insert_eq|]. by left.
  - exists pb. split; [by vm_compute|]. by left.
Defined.

Lemma completion_starts_highest_witness : exists s' l, NotifyComplete ["b"] abc "a" = Some (s', None) /\
  effects s' = effects abc ++ starts l /\ Sorted above l /\ active s' !! "c" = Some pc /\ q_items (ready s') = [pb].
Proof.
  destruct (completion_starts_highest 4 1 abc ["b"] "a" pa ltac:(lia) abc_reach ltac:(by vm_compute) abc_order ltac:(by vm_compute))
    as (s' & l & E & _ & _ & _ & Ef & So & _).
  exists s', l. split; [done|]. split; [done|]. split; [done|]. vm_compute in E. injection E as <-. split; by vm_compute.
Defined.

Lemma waits_for_progress_witness : exists d, tc (edge (waiting abc)) "b" d /\ (d ∉ completed abc) /\ waiting abc !! d = None.
Proof.
  destruct (waits_for_progress 4 1 abc "b" pb ltac:(lia) abc_reach ltac:(by vm_compute) ltac:(by vm_compute)) as (d & T & Nc & Nw & _).
  by exists d.
Defined.

Lemma cancelled_dependency_strands_witness : exists s1, Cancel abc "a" = Some (s1, None) /\ waiting s1 !! "b" = Some pb /\
  exists s2, runs s1 [LComplete ["b"] "c"] s2 /\ waiting s2 !! "b" = Some pb /\
    forall x p, active s2 !! x = Some p -> "a" ∉ Dependencies p.
Proof.
  set (s1 := default new1 (fst <$> Cancel abc "a")). assert (C : Cancel abc "a" = Some (s1, None)) by by vm_compute.
  set (s2 := default new1 (fst <$> NotifyComplete ["b"] s1 "c")).
  assert (Rn : runs s1 [LComplete ["b"] "c"] s2) by (apply (runs_cons _ _ s2 None); [by vm_compute|by vm_compute|constructor]).
  exists s1. split; [done|]. split; [by vm_compute|]. exists s2. split; [done|]. split; [by vm_compute|].
  apply (cancelled_dependency_strands 4 1 abc "a" s1 [LComplete ["b"] "c"] s2 ltac:(lia) abc_reach); [|done|done|].
  - apply (bool_decide_eq_false_1 _). by vm_compute.
  - intros p I. apply list_elem_of_singleton in I. discriminate I.
Defined.
End PipelineSched.
