(* ===== verification/CmtTree.v ===== *)
(** * The Cartesian Merkle tree (core/search/cmt/types.go, treap.go, merkle.go)

    A [*Node] is a tree, nil its leaf; every node is reachable from one root
    only, so the in-place updates of [Split], [Merge] and [Delete] are a
    rebuilding of the tree.  [shake128] is the parameter for the hash of
    golang.org/x/crypto/sha3.  A [time.Time] is its
    nanoseconds since 1970, without bound. *)

From S2P Require Import Prelude GoStd Ids.

Module CmtTree.

Definition HashSize : nat := 32.
Abbreviation Hash := bytes.
Definition zeroHash : Hash := replicate HashSize x00.

(** [Hash.IsZero], [Hash.String] *)
Definition Hash_IsZero (h : Hash) : bool := forallb (fun b => Byte.eqb b x00) h.
Definition Hash_String (h : Hash) : string := Hex.encode_to_string h.

Record FileInfo := mkInfo {
  Path : string;
  ContentHash : Hash;
  Size : Z;
  ModTime : Z;
  Permissions : Z;
  Indexed : bool;
  IndexedAt : Z
}.

Inductive info_error :=
| ErrFileInfoPathEmpty | ErrFileInfoContentHashZero | ErrFileInfoSizeNegative
| ErrFileInfoModTimeZero.

(** The zero [time.Time]: the first of January of the year 1. *)
Definition zeroTime : Z := -62135596800 * 1000000000.

Definition Validate (f : FileInfo) : option info_error :=
  if bool_decide (Path f = "") then Some ErrFileInfoPathEmpty
  else if Hash_IsZero (ContentHash f) then Some ErrFileInfoContentHashZero
  else if Size f <? 0 then Some ErrFileInfoSizeNegative
  else if ModTime f =? zeroTime then Some ErrFileInfoModTimeZero
  else None.

(** The method [Clone] of a [FileInfo] pointer, nil included. *)
Definition CloneInfo (f : option FileInfo) : option FileInfo :=
  match f with
  | None => None
  | Some f => Some (mkInfo (Path f) (ContentHash f) (Size f) (ModTime f) (Permissions f) (Indexed f)
      (IndexedAt f))
  end.

Inductive Node :=
| Nil
| Tree (Left : Node) (Key : string) (Priority : Z) (NHash : Hash) (Info : option FileInfo) (Right : Node).

Definition IsLeaf (n : Node) : bool :=
  match n with
  | Tree (Tree _ _ _ _ _ _) _ _ _ _ _ | Tree _ _ _ _ _ (Tree _ _ _ _ _ _) => false
  | _ => true
  end.

(** [Node.Size] *)
Fixpoint NodeSize (n : Node) : Z :=
  match n with
  | Nil => 0
  | Tree l _ _ _ _ r => i64 (i64 (1 + NodeSize l) + NodeSize r)
  end.

(* ------------------------------------------------------------------ *)
(** ** Hashes (merkle.go) *)

(** [writeChildHash] and [writeContentHash]: the bytes they write. *)
Definition childHash (child : Node) : bytes :=
  match child with Nil => zeroHash | Tree _ _ _ h _ _ => h end.
Definition infoHash (info : option FileInfo) : bytes :=
  match info with Some info => ContentHash info | None => zeroHash end.

(** The bytes [ComputeNodeHash] feeds to SHA-256. *)
Definition hashInput (l : Node) (key : string) (info : option FileInfo) (r : Node) : bytes :=
  childHash l ++ str_bytes key ++ infoHash info ++ childHash r.

Definition ComputeNodeHash (n : Node) : Hash :=
  match n with
  | Nil => zeroHash
  | Tree l key _ _ info r => copy32 (sha256 (hashInput l key info r))
  end.

Definition updateHash (n : Node) : Node :=
  match n with
  | Nil => Nil
  | Tree l key p _ info r => Tree l key p (ComputeNodeHash n) info r
  end.

Definition VerifyNodeHash (n : Node) : bool :=
  match n with
  | Nil => true
  | Tree _ _ _ h _ _ => bool_decide (ComputeNodeHash n = h)
  end.

(** [invalidPaths], grown in the order of the traversal. *)
Fixpoint verifySubtreeRecursive (n : Node) (invalidPaths : list string) : list string :=
  match n with
  | Nil => invalidPaths
  | Tree l key _ _ _ r =>
    let invalidPaths := verifySubtreeRecursive r (verifySubtreeRecursive l invalidPaths) in
    if VerifyNodeHash n then invalidPaths else invalidPaths ++ [key]
  end.

Definition VerifySubtree (n : Node) : bool * list string :=
  match n with
  | Nil => (true, [])
  | _ => let invalidPaths := verifySubtreeRecursive n [] in (len invalidPaths =? 0, invalidPaths)
  end.

Record VerificationResult := mkVerification {
  Valid : bool;
  TotalNodes : Z;
  InvalidNodes : Z;
  InvalidPaths : list string
}.

Fixpoint verifyRecursive (n : Node) (v : VerificationResult) : VerificationResult :=
  match n with
  | Nil => v
  | Tree l key _ _ _ r =>
    let v := mkVerification (Valid v) (i64 (TotalNodes v + 1)) (InvalidNodes v) (InvalidPaths v) in
    let v := verifyRecursive r (verifyRecursive l v) in
    if VerifyNodeHash n then v
    else mkVerification (Valid v) (TotalNodes v) (i64 (InvalidNodes v + 1)) (InvalidPaths v ++ [key])
  end.

(** [TreeVerifier.Verify] *)
Definition Verify (root : Node) : VerificationResult :=
  let v := verifyRecursive root (mkVerification false 0 0 []) in
  mkVerification (InvalidNodes v =? 0) (TotalNodes v) (InvalidNodes v) (InvalidPaths v).

(* ------------------------------------------------------------------ *)
(** ** Split and merge (treap.go) *)

Fixpoint Split (node : Node) (splitKey : string) : Node * Node :=
  match node with
  | Nil => (Nil, Nil)
  | Tree l key p h info r =>
    if String.leb splitKey key then
      let '(leftPart, rightPart) := Split l splitKey in
      (leftPart, updateHash (Tree rightPart key p h info r))
    else
      let '(leftPart, rightPart) := Split r splitKey in
      (updateHash (Tree l key p h info leftPart), rightPart)
  end.

(** A child whose stored hash is zero is hashed again. *)
Definition ensureChild (child : Node) : Node :=
  match child with
  | Nil => Nil
  | Tree _ _ _ h _ _ => if Hash_IsZero h then updateHash child else child
  end.
Definition ensureChildHashesComputed (node : Node) : Node :=
  match node with
  | Nil => Nil
  | Tree l key p h info r => Tree (ensureChild l) key p h info (ensureChild r)
  end.

(** The inner fixpoint is [Merge left] for the subtrees of [right]; the two
    branches are [mergeLeftDominant] and [mergeRightDominant]. *)
Fixpoint Merge (left : Node) : Node -> Node :=
  match left with
  | Nil => fun right => right
  | Tree ll lk lp lh li lr =>
    fix merge_left (right : Node) : Node :=
      match right with
      | Nil => left
      | Tree rl rk rp rh ri rr =>
        if rp <? lp then
          updateHash (ensureChildHashesComputed (Tree ll lk lp lh li (Merge lr right)))
        else
          updateHash (ensureChildHashesComputed (Tree (merge_left rl) rk rp rh ri rr))
      end
  end.

Definition Insert (root newNode : Node) : Node :=
  match newNode with
  | Nil => root
  | Tree _ key _ _ _ _ =>
    let newNode := updateHash newNode in
    match root with
    | Nil => newNode
    | _ => let '(lpart, rpart) := Split root key in Merge (Merge lpart newNode) rpart
    end
  end.

Fixpoint splitGreaterThan (node : Node) (key : string) : Node * Node :=
  match node with
  | Nil => (Nil, Nil)
  | Tree l k p h info r =>
    if String.eqb k key then (updateHash (Tree Nil k p h info Nil), Merge l r)
    else if String.ltb key k then
      let '(eq, gt) := splitGreaterThan l key in (eq, updateHash (Tree gt k p h info r))
    else (Nil, node)
  end.

Definition Delete (root : Node) (key : string) : Node :=
  match root with
  | Nil => Nil
  | _ =>
    let '(lpart, greaterOrEqual) := Split root key in
    let '(_, rpart) := splitGreaterThan greaterOrEqual key in
    Merge lpart rpart
  end.

Fixpoint Get (root : Node) (key : string) : Node :=
  match root with
  | Nil => Nil
  | Tree l k _ _ _ r =>
    if String.eqb key k then root
    else if String.ltb key k then Get l key
    else Get r key
  end.

Section Priority.
(** The first eight bytes SHAKE-128 derives from a key. *)
Variable shake128 : bytes -> bytes.

Definition ComputePriority (key : string) : Z := be_decode (shake128 (str_bytes key)).

Definition NewNode (key : string) (info : option FileInfo) : Node :=
  Tree Nil key (ComputePriority key) zeroHash info Nil.
End Priority.

(* ------------------------------------------------------------------ *)
(** ** In-order traversal (cmt.go) *)

Section Walk.
Context {acc : Type}.
(** The callback, which threads the state of its closure. *)
Variable fn : acc -> string -> option FileInfo -> acc * bool.

Fixpoint walkInOrder (n : Node) (a : acc) : acc * bool :=
  match n with
  | Nil => (a, true)
  | Tree l key _ _ info r =>
    let '(a, go) := walkInOrder l a in
    if negb go then (a, false)
    else
      let '(a, go) := fn a key info in
      if negb go then (a, false) else walkInOrder r a
  end.
End Walk.
End CmtTree.
