(* ===== verification/CmtTreap.v ===== *)
(** * The tree is a sorted map with one shape per content (core/search/cmt)

    [entries] lists a tree in order.  [Merge] concatenates, [Split] cuts at a
    key, so [Insert] and [Delete] are the insertion and the deletion of a
    finite map; [Get] reads it. *)

From S2P Require Import Prelude GoStd Ids.
From S2P Require Export CmtTree.
Import CmtTree.

Abbreviation entry := (string * option FileInfo)%type.

Fixpoint entries (t : Node) : list entry :=
  match t with
  | Nil => []
  | Tree l k _ _ i r => entries l ++ (k, i) :: entries r
  end.

Definition keys (t : Node) : list string := (entries t).*1.
Definition ordered (t : Node) : Prop := StronglySorted str_lt (keys t).
Definition contents (t : Node) : gmap string (option FileInfo) := list_to_map (entries t).

Lemma ordered_node l k p h i r :
  ordered (Tree l k p h i r) <->
  ordered l /\ ordered r /\ Forall (fun e => str_lt e.1 k) (entries l) /\
  Forall (fun e => str_lt k e.1) (entries r).
Proof.
  unfold ordered, keys. cbn [entries]. rewrite fmap_app, fmap_cons. cbn [fst].
  rewrite (StronglySorted_mid str_lt), !Forall_fmap. done.
Qed.

(* ------------------------------------------------------------------ *)
(** ** What the operations do to the entries *)

Lemma updateHash_entries t : entries (updateHash t) = entries t.
Proof. by destruct t. Qed.

Lemma ensureChild_entries t : entries (ensureChild t) = entries t.
Proof. destruct t; [done|]. simpl. by destruct (Hash_IsZero _). Qed.

Lemma ensure_entries t : entries (ensureChildHashesComputed t) = entries t.
Proof. destruct t; [done|]. simpl. by rewrite !ensureChild_entries. Qed.

Lemma Merge_entries a b : entries (Merge a b) = entries a ++ entries b.
Proof.
  revert b. induction a as [|ll _ lk lp lh li lr IHr]; intros b; [done|].
  induction b as [|rl IHl rk rp rh ri rr _]; [by rewrite app_nil_r|].
  cbn [Merge]. destruct (rp <? lp); rewrite updateHash_entries, ensure_entries.
  - cbn [entries]. rewrite IHr. by rewrite <- app_assoc.
  - cbn [entries]. cbn [Merge] in IHl. rewrite IHl. cbn [entries]. by rewrite <- !app_assoc.
Qed.

Lemma Split_entries t k :
  entries t = entries (Split t k).1 ++ entries (Split t k).2 /\
  (ordered t -> Forall (fun e => str_lt e.1 k) (entries (Split t k).1) /\
    Forall (fun e => ~ str_lt e.1 k) (entries (Split t k).2)).
Proof.
  induction t as [|l [El Ol] k' p h i r [Er Or]]; [done|]. cbn [Split].
  destruct (String.leb k k') eqn:C; [destruct (Split l k) as [a b]|destruct (Split r k) as [a b]];
    cbn [fst snd] in *; rewrite updateHash_entries; cbn [entries].
  - split; [rewrite El; by rewrite <- app_assoc|]. intros O.
    apply ordered_node in O as (O1 & _ & _ & O2). destruct (Ol O1) as [Fa Fb]. split; [done|].
    apply Forall_app. split; [done|]. str_order. constructor; [simpl; order_false|].
    eapply Forall_impl; [exact O2|]. simpl. intros e L1 L2. order_false.
  - split; [rewrite Er; by rewrite <- app_assoc|]. intros O.
    apply ordered_node in O as (_ & O1 & O2 & _). destruct (Or O1) as [Fa Fb]. split; [|done].
    str_order. apply Forall_app. split; [|constructor; [done|exact Fa]].
    eapply Forall_impl; [exact O2|]. simpl. intros e L. by eapply str_lt_trans.
Qed.

(** Of the nodes at or after [key], the second part keeps all but [key]. *)
Lemma splitGreaterThan_entries t key :
  ordered t -> Forall (fun e => ~ str_lt e.1 key) (entries t) ->
  entries (splitGreaterThan t key).2 = filter (fun e => e.1 <> key) (entries t).
Proof.
  induction t as [|l IHl k p h i r _]; [done|]. intros O F. cbn [splitGreaterThan entries].
  apply ordered_node in O as (O1 & O2 & F1 & F2). cbn [entries] in F.
  apply Forall_app in F as [Fl Fr]. apply Forall_cons in Fr as [Nk Fr]. cbn [fst] in Nk.
  assert (K : forall es, Forall (fun e => str_lt k e.1) es -> str_lt key k \/ k = key ->
    filter (fun e : entry => e.1 <> key) es = es).
  { intros es Fe C. apply list_filter_all. eapply Forall_impl; [exact Fe|].
    intros e Le E. destruct C as [C|C]; order_false. }
  rewrite filter_app. destruct (String.eqb_spec k key) as [->|Ne].
  - cbn [snd]. rewrite Merge_entries. rewrite filter_cons_False by (simpl; tauto).
    f_equal; symmetry; [|by apply K; [|right]].
    apply list_filter_all. apply Forall_forall. intros e He E. rewrite Forall_forall in F1.
    specialize (F1 e He). order_false.
  - destruct (String.ltb key k) eqn:C; str_order.
    + destruct (splitGreaterThan l key) as [eq gt]. cbn [snd] in *. rewrite updateHash_entries.
      cbn [entries]. rewrite IHl by done. f_equal. rewrite filter_cons_True by done. f_equal.
      symmetry. apply K; [done|by left].
    + destruct C as [C|C]; [congruence|done].
Qed.

(* ------------------------------------------------------------------ *)
(** ** The finite map *)

Lemma ordered_NoDup t : ordered t -> NoDup (keys t).
Proof.
  unfold ordered. induction 1 as [|k ks _ IH F]; [constructor|]. constructor; [|done].
  intros Hk. rewrite Forall_forall in F. specialize (F k Hk). order_false.
Qed.

Lemma elem_of_contents t k i : ordered t -> contents t !! k = Some i <-> (k, i) ∈ entries t.
Proof. intros O. symmetry. apply elem_of_list_to_map, ordered_NoDup, O. Qed.

Lemma Get_contents t key :
  ordered t ->
  match Get t key with
  | Nil => contents t !! key = None
  | Tree _ k _ _ i _ => k = key /\ contents t !! key = Some i
  end.
Proof.
  unfold contents. induction t as [|l IHl k p h i r IHr]; intros O; [done|].
  pose proof O as (O1 & O2 & F1 & F2)%ordered_node. cbn [Get entries].
  assert (ND := ordered_NoDup _ O). unfold keys in ND. cbn [entries] in ND.
  destruct (String.eqb_spec key k) as [->|Ne].
  - split; [done|]. apply elem_of_list_to_map_1; [done|]. set_solver.
  - destruct (String.ltb key k) eqn:C; str_order.
    + specialize (IHl O1). rewrite list_to_map_app.
      assert (N : (list_to_map ((k, i) :: entries r) : gmap string _) !! key = None).
      { apply not_elem_of_list_to_map_1. intros Hk. apply list_elem_of_fmap in Hk as (e & -> & He).
        apply elem_of_cons in He as [->|He]; [done|]. rewrite Forall_forall in F2.
        specialize (F2 e He). order_false. }
      destruct (Get l key); rewrite lookup_union; [by rewrite IHl, N|].
      destruct IHl as [-> ->]. split; [done|]. by rewrite N.
    + specialize (IHr O2). destruct C as [C|C]; [congruence|].
      assert (N : (list_to_map (entries l) : gmap string (option FileInfo)) !! key = None).
      { apply not_elem_of_list_to_map_1. intros Hk. apply list_elem_of_fmap in Hk as (e & -> & He).
        rewrite Forall_forall in F1. specialize (F1 e He). order_false. }
      rewrite list_to_map_app, list_to_map_cons.
      destruct (Get r key); rewrite lookup_union, N, (left_id_L None _), lookup_insert_ne by congruence; done.
Qed.

(** Sorted entries are determined by the map they make. *)
Lemma entries_unique t u : ordered t -> ordered u -> contents t = contents u -> entries t = entries u.
Proof.
  intros Ot Ou E.
  apply (StronglySorted_unique_strong (fun a b : entry => str_lt a.1 b.1)).
  - intros a b _ _ H1 H2. order_false.
  - by apply (StronglySorted_fmap fst) in Ot.
  - by apply (StronglySorted_fmap fst) in Ou.
  - rewrite <- (map_to_list_to_map (entries t)), <- (map_to_list_to_map (entries u))
      by (by apply ordered_NoDup). by unfold contents in E; rewrite E.
Qed.

Lemma ordered_entries t : ordered t <-> StronglySorted (fun a b : entry => str_lt a.1 b.1) (entries t).
Proof. apply (StronglySorted_fmap fst). Qed.

Section Priority.
Variable shake128 : bytes -> bytes.
Abbreviation ComputePriority := (ComputePriority shake128).
Abbreviation NewNode := (NewNode shake128).

Lemma Insert_entries t k i :
  entries (Insert t (NewNode k i)) = entries (Split t k).1 ++ (k, i) :: entries (Split t k).2.
Proof.
  unfold Insert, CmtTree.NewNode. destruct t as [|tl tk tp th ti tr]; [done|].
  destruct (Split (Tree tl tk tp th ti tr) k) as [a b]. cbn [fst snd].
  rewrite !Merge_entries, updateHash_entries. cbn [entries]. by rewrite <- app_assoc.
Qed.

Lemma Delete_entries t k :
  ordered t -> entries (Delete t k) = filter (fun e => e.1 <> k) (entries t).
Proof.
  intros O. destruct (Split_entries t k) as [E F]. destruct (F O) as [Fa Fb].
  assert (S : entries (Delete t k) = entries (Split t k).1 ++ entries (splitGreaterThan (Split t k).2 k).2).
  { unfold Delete. destruct t as [|tl tk tp th ti tr]; [done|].
    destruct (Split _ k) as [a b]. cbn [fst snd]. destruct (splitGreaterThan b k) as [eq gt].
    apply Merge_entries. }
  assert (Ob : ordered (Split t k).2).
  { apply ordered_entries. apply ordered_entries in O. rewrite E in O. by apply StronglySorted_app in O as (_ & _ & O). }
  rewrite S, E, filter_app, splitGreaterThan_entries by done. f_equal. symmetry.
  apply list_filter_all. eapply Forall_impl; [exact Fa|]. intros e Le Ek. order_false.
Qed.

Lemma Insert_ordered t k i :
  ordered t -> k ∉ keys t -> ordered (Insert t (NewNode k i)).
Proof.
  intros O N. destruct (Split_entries t k) as [E F]. destruct (F O) as [Fa Fb].
  apply ordered_entries. rewrite Insert_entries. apply ordered_entries in O. rewrite E in O.
  apply StronglySorted_app in O as (_ & Sa & Sb).
  apply StronglySorted_mid; [intros a b c; apply str_lt_trans|]. split_and!; try done.
  apply Forall_forall. intros e He. rewrite Forall_forall in Fb. specialize (Fb e He). simpl.
  destruct (str_lt_trichotomy k e.1) as [?|[->|?]]; [done| |done]. exfalso. apply N.
  unfold keys. rewrite E. apply list_elem_of_fmap_2. set_solver.
Qed.

Lemma Insert_contents t k i :
  ordered t -> k ∉ keys t -> contents (Insert t (NewNode k i)) = <[k := i]> (contents t).
Proof.
  intros O N. destruct (Split_entries t k) as [E _]. unfold contents.
  rewrite Insert_entries, E, !list_to_map_app, list_to_map_cons. symmetry. apply insert_union_r.
  apply not_elem_of_list_to_map_1. intros Hk. apply N. unfold keys. rewrite E, fmap_app. set_solver.
Qed.

Lemma Delete_ordered t k : ordered t -> ordered (Delete t k).
Proof.
  intros O. apply ordered_entries. rewrite Delete_entries by done.
  apply StronglySorted_filter. by apply ordered_entries.
Qed.

Lemma Delete_contents t k : ordered t -> contents (Delete t k) = delete k (contents t).
Proof.
  intros O. apply map_eq. intros x. apply option_eq. intros i.
  rewrite elem_of_contents by by apply Delete_ordered.
  rewrite Delete_entries, list_elem_of_filter, lookup_delete_Some, elem_of_contents by done. simpl.
  intuition.
Qed.
End Priority.
