(* ===== verification/CmtHash.v ===== *)
(** * Priorities, hashes and the shape of the tree (core/search/cmt)

    [good] is the invariant of every node: the priority of its key, the hash
    of its children, and the heap order, in which the greatest key wins a
    tie.  A good tree with sorted keys is determined by its entries
    ([canonical]), and its root hash determines their keys and content hashes
    up to a failure of SHA-256 on the inputs of its nodes
    ([same_hash_listing]). *)

From S2P Require Import Prelude GoStd Ids.
From S2P Require Export CmtTreap.
Import CmtTree.

Section Good.
Variable shake128 : bytes -> bytes.
Abbreviation ComputePriority := (ComputePriority shake128).
Abbreviation NewNode := (NewNode shake128).

(** The priority of the root is at most [q], respectively below [q]. *)
Definition below (q : Z) (t : Node) : Prop :=
  match t with Nil => True | Tree _ _ p _ _ _ => p <= q end.
Definition strictly_below (q : Z) (t : Node) : Prop :=
  match t with Nil => True | Tree _ _ p _ _ _ => p < q end.

Fixpoint good (t : Node) : Prop :=
  match t with
  | Nil => True
  | Tree l k p h i r =>
    p = ComputePriority k /\ h = ComputeNodeHash t /\ below p l /\ strictly_below p r /\
    good l /\ good r
  end.

Lemma updateHash_good l k h i r :
  below (ComputePriority k) l -> strictly_below (ComputePriority k) r -> good l -> good r ->
  good (updateHash (Tree l k (ComputePriority k) h i r)).
Proof. intros. by repeat split. Qed.

Lemma updateHash_id t : good t -> updateHash t = t.
Proof. destruct t; [done|]. simpl. by intros (_ & <- & _). Qed.

Lemma ensure_id l k p h i r :
  good l -> good r ->
  ensureChildHashesComputed (Tree l k p h i r) = Tree l k p h i r.
Proof.
  assert (K : forall t, good t -> ensureChild t = t).
  { intros [|tl tk tp th ti tr] G; [done|]. cbn [ensureChild]. destruct (Hash_IsZero th); [|done].
    by apply updateHash_id. }
  intros Gl Gr. cbn [ensureChildHashesComputed]. by rewrite !K.
Qed.

Lemma Split_good t k :
  good t ->
  good (Split t k).1 /\ good (Split t k).2 /\
  (forall q, below q t -> below q (Split t k).1 /\ below q (Split t k).2) /\
  (forall q, strictly_below q t -> strictly_below q (Split t k).1 /\ strictly_below q (Split t k).2).
Proof.
  induction t as [|l IHl k' p h i r IHr]; [done|]. intros (-> & _ & Bl & Br & Gl & Gr). cbn [Split].
  destruct (String.leb k k').
  - destruct (IHl Gl) as (Ga & Gb & Be & _). destruct (Be _ Bl) as [B1 B2].
    destruct (Split l k) as [a b]. cbn [fst snd] in *.
    split_and!; [done|by apply updateHash_good| |]; intros q Bq; (split; [|done]);
      destruct a; simpl in *; lia || done.
  - destruct (IHr Gr) as (Ga & Gb & _ & Be). destruct (Be _ Br) as [B1 B2].
    destruct (Split r k) as [a b]. cbn [fst snd] in *.
    split_and!; [by apply updateHash_good|done| |]; intros q Bq; (split; [done|]);
      destruct b; simpl in *; lia || done.
Qed.

Lemma Merge_good a b :
  good a -> good b ->
  good (Merge a b) /\ (forall q, below q a -> below q b -> below q (Merge a b)) /\
  (forall q, strictly_below q a -> strictly_below q b -> strictly_below q (Merge a b)).
Proof.
  revert b. induction a as [|ll _ lk lp lh li lr IHr]; intros b Ga Gb; [done|].
  induction b as [|rl IHl rk rp rh ri rr _]; [done|].
  pose proof Ga as (-> & _ & Bll & Blr & Gll & Glr). pose proof Gb as (-> & _ & Brl & Brr & Grl & Grr).
  cbn [Merge]. destruct (Z.ltb_spec (ComputePriority rk) (ComputePriority lk)) as [L|L].
  - destruct (IHr _ Glr Gb) as (G & _ & S). rewrite ensure_id by done. split_and!; [|done..].
    apply updateHash_good; [done| |done..]. by apply S.
  - destruct (IHl Grl) as (G & B & _). cbn [Merge] in G, B. rewrite ensure_id by done.
    split_and!; [|done..]. apply updateHash_good; [|done..]. by apply B.
Qed.

Lemma NewNode_good k i : good (updateHash (NewNode k i)).
Proof. by apply updateHash_good. Qed.

Lemma Insert_good t k i : good t -> good (Insert t (NewNode k i)).
Proof.
  intros G. pose proof (NewNode_good k i) as Gn. unfold Insert, CmtTree.NewNode in *.
  destruct t as [|tl tk tp th ti tr]; [exact Gn|].
  destruct (Split_good _ k G) as (Ga & Gb & _). destruct (Split _ k) as [a b]. cbn [fst snd] in *.
  apply Merge_good; [|done]. by apply Merge_good.
Qed.

Lemma splitGreaterThan_good t k :
  good t -> good (splitGreaterThan t k).2 /\
  (forall q, below q t -> below q (splitGreaterThan t k).2).
Proof.
  induction t as [|l IHl k' p h i r _]; [done|]. intros G. pose proof G as (-> & _ & Bl & Br & Gl & Gr).
  cbn [splitGreaterThan]. destruct (String.eqb k' k).
  - cbn [snd]. destruct (Merge_good l r Gl Gr) as (Gm & B & _). split; [done|].
    intros q Bq. simpl in Bq. apply B; [destruct l|destruct r]; simpl in *; lia || done.
  - destruct (String.ltb k k'); [|done]. destruct (IHl Gl) as [G' B'].
    destruct (splitGreaterThan l k) as [e g]. cbn [snd] in *. split; [|done].
    apply updateHash_good; [|done..]. by apply B'.
Qed.

Lemma Delete_good t k : good t -> good (Delete t k).
Proof.
  intros G. unfold Delete. destruct t as [|tl tk tp th ti tr]; [done|].
  destruct (Split_good _ k G) as (Ga & Gb & _). destruct (Split _ k) as [a b]. cbn [fst snd] in *.
  destruct (splitGreaterThan_good b k Gb) as [Gg _]. destruct (splitGreaterThan b k) as [e g].
  by apply Merge_good.
Qed.

(* ------------------------------------------------------------------ *)
(** ** One shape per content *)

Lemma below_all q t : good t -> below q t -> Forall (fun e => ComputePriority e.1 <= q) (entries t).
Proof.
  revert q. induction t as [|l IHl k p h i r IHr]; intros q; [constructor|].
  intros (-> & _ & Bl & Br & Gl & Gr) B. simpl in B. cbn [entries]. apply Forall_app. split.
  - apply IHl; [done|]. destruct l; simpl in *; lia || done.
  - constructor; [done|]. apply IHr; [done|]. destruct r; simpl in *; lia || done.
Qed.

Lemma strictly_below_all q t :
  good t -> strictly_below q t -> Forall (fun e => ComputePriority e.1 < q) (entries t).
Proof.
  intros G S. assert (B : below (q - 1) t) by (destruct t; simpl in *; lia || done).
  eapply Forall_impl; [by apply below_all|]. simpl. lia.
Qed.

(** The root of a good tree is the entry of greatest priority, the last one
    when several have it. *)
Lemma root_unique l k p h i r l' k' p' h' i' r' :
  good (Tree l k p h i r) -> good (Tree l' k' p' h' i' r') ->
  ordered (Tree l k p h i r) -> ordered (Tree l' k' p' h' i' r') ->
  entries (Tree l k p h i r) = entries (Tree l' k' p' h' i' r') -> ~ str_lt k k'.
Proof.
  intros (-> & _ & Bl & Br & Gl & Gr) (-> & _ & Bl' & Br' & Gl' & Gr') O O' E Lt.
  apply ordered_node in O as (_ & _ & Fl & Fr). apply ordered_node in O' as (_ & _ & Fl' & Fr').
  cbn [entries] in E.
  assert (H1 : (k', i') ∈ entries r).
  { assert (H : (k', i') ∈ entries l ++ (k, i) :: entries r) by (rewrite E; set_solver).
    apply elem_of_app in H as [H|H]; [|apply elem_of_cons in H as [[= -> ->]|H]; [order_false|done]].
    rewrite Forall_forall in Fl. specialize (Fl _ H). simpl in Fl. order_false. }
  assert (H2 : (k, i) ∈ entries l').
  { assert (H : (k, i) ∈ entries l' ++ (k', i') :: entries r') by (rewrite <- E; set_solver).
    apply elem_of_app in H as [H|H]; [done|apply elem_of_cons in H as [[= -> ->]|H]; [order_false|]].
    rewrite Forall_forall in Fr'. specialize (Fr' _ H). simpl in Fr'. order_false. }
  pose proof (strictly_below_all _ _ Gr Br) as A. rewrite Forall_forall in A. specialize (A _ H1).
  pose proof (below_all _ _ Gl' Bl') as B. rewrite Forall_forall in B. specialize (B _ H2).
  simpl in *. lia.
Qed.

Lemma canonical t u : good t -> good u -> ordered t -> ordered u -> entries t = entries u -> t = u.
Proof.
  revert u. induction t as [|l IHl k p h i r IHr]; intros [|l' k' p' h' i' r'] G G' O O' E.
  - done.
  - exfalso. cbn [entries] in E. by apply app_cons_not_nil in E.
  - exfalso. cbn [entries] in E. symmetry in E. by apply app_cons_not_nil in E.
  - assert (k = k') as <-.
    { destruct (str_lt_trichotomy k k') as [L|[?|L]]; [|done|]; exfalso; revert L;
        [by eapply root_unique|by eapply root_unique]. }
    pose proof G as (-> & Hh & _ & _ & Gl & Gr). pose proof G' as (-> & Hh' & _ & _ & Gl' & Gr').
    assert (ND : NoDup (keys (Tree l k (ComputePriority k) h i r))) by by apply ordered_NoDup.
    pose proof O as (O1 & O2 & _)%ordered_node. pose proof O' as (O1' & O2' & F1' & _)%ordered_node.
    cbn [entries] in E. unfold keys in ND. cbn [entries] in ND. rewrite fmap_app, fmap_cons in ND.
    apply NoDup_app in ND as (_ & N & _).
    assert (E' : entries l = entries l' /\ i = i' /\ entries r = entries r').
    { apply app_inj_key in E as (? & ? & ?); [done| |].
      - intros Hk. apply (N k Hk). left.
      - intros Hk. apply list_elem_of_fmap in Hk as (e & Ek & He). rewrite Forall_forall in F1'.
        specialize (F1' e He). simpl in Ek. rewrite <- Ek in F1'. order_false. }
    destruct E' as (El & <- & Er). apply IHl in El as <-; [|done..]. apply IHr in Er as <-; [|done..].
    cbn [ComputeNodeHash] in Hh, Hh'. congruence.
Qed.
End Good.

(* ------------------------------------------------------------------ *)
(** ** Verification *)

(** Every stored hash is the hash of its node. *)
Fixpoint hashed (t : Node) : Prop :=
  match t with
  | Nil => True
  | Tree l _ _ h _ r => h = ComputeNodeHash t /\ hashed l /\ hashed r
  end.

Lemma good_hashed shake t : good shake t -> hashed t.
Proof. induction t; [done|]. intros (_ & ? & _ & _ & ? & ?). by repeat split; auto. Qed.

(** The keys of the nodes whose stored hash is wrong, children first. *)
Fixpoint wrong (t : Node) : list string :=
  match t with
  | Nil => []
  | Tree l k _ _ _ r => wrong l ++ wrong r ++ (if VerifyNodeHash t then [] else [k])
  end.

Lemma verifySubtreeRecursive_eq t acc : verifySubtreeRecursive t acc = acc ++ wrong t.
Proof.
  revert acc. induction t as [|l IHl k p h i r IHr]; intros acc; [by rewrite app_nil_r|].
  cbn [verifySubtreeRecursive wrong]. rewrite IHl, IHr.
  destruct (VerifyNodeHash _); by rewrite ?app_nil_r, <- ?app_assoc.
Qed.

Lemma wrong_nil t : wrong t = [] <-> hashed t.
Proof.
  induction t as [|l IHl k p h i r IHr]; [done|]. cbn [wrong hashed]. rewrite !app_nil, IHl, IHr.
  unfold VerifyNodeHash. case_bool_decide as E; [by intuition|].
  split; [by intros (_ & _ & ?)|]. intros (? & _). by subst.
Qed.

Lemma hashed_verified t : hashed t -> VerifySubtree t = (true, []).
Proof.
  intros H. apply wrong_nil in H. destruct t as [|l k p h i r]; [done|]. unfold VerifySubtree.
  by rewrite verifySubtreeRecursive_eq, H.
Qed.

Lemma verifyRecursive_eq t v :
  in_i64 (InvalidNodes v) ->
  InvalidPaths (verifyRecursive t v) = InvalidPaths v ++ wrong t /\
  InvalidNodes (verifyRecursive t v) = i64 (InvalidNodes v + len (wrong t)).
Proof.
  revert v. induction t as [|l IHl k p h i r IHr]; intros v B.
  - rewrite app_nil_r. split; [done|]. change (len (wrong Nil)) with 0.
    by rewrite Z.add_0_r, i64_id.
  - cbn [verifyRecursive wrong].
    destruct (IHl (mkVerification (Valid v) (i64 (TotalNodes v + 1)) (InvalidNodes v) (InvalidPaths v)))
      as [P1 N1]; [done|].
    destruct (IHr (verifyRecursive l (mkVerification (Valid v) (i64 (TotalNodes v + 1)) (InvalidNodes v)
      (InvalidPaths v)))) as [P2 N2]; [rewrite N1; apply i64_range|].
    rewrite N1, i64_add_l in N2. rewrite P1 in P2. cbn [InvalidNodes InvalidPaths] in N2, P2.
    destruct (VerifyNodeHash _); cbn [InvalidNodes InvalidPaths];
      rewrite N2, P2, ?i64_add_l, !len_app, ?app_nil_r, <- ?app_assoc; (split; [done|]); f_equal;
      unfold len; simpl length; lia.
Qed.

(** Verification is exact: [VerifySubtree] and [TreeVerifier.Verify] report
    the same paths, those of the nodes whose stored hash is not the hash of
    their key, content and children; [VerifySubtree] accepts exactly the
    trees without such a node, and [Verify] agrees with it on any tree with
    less than 2^63 of them. *)
Theorem verify_exact t :
  VerifySubtree t = (bool_decide (wrong t = []), wrong t) /\
  InvalidPaths (Verify t) = wrong t /\
  ((VerifySubtree t).1 = true <-> hashed t) /\
  (len (wrong t) < two63 -> Valid (Verify t) = (VerifySubtree t).1).
Proof.
  assert (V : VerifySubtree t = (bool_decide (wrong t = []), wrong t)).
  { destruct t as [|l k p h i r]; [done|]. unfold VerifySubtree.
    rewrite verifySubtreeRecursive_eq. cbn [app]. f_equal. unfold len.
    destruct (wrong _); [done|]. by rewrite bool_decide_eq_false_2. }
  destruct (verifyRecursive_eq t (mkVerification false 0 0 [])) as [P N]; [done|].
  cbn [InvalidNodes InvalidPaths] in N, P.
  split_and!; [done|exact P| |].
  - rewrite V. cbn [fst]. rewrite bool_decide_eq_true. apply wrong_nil.
  - intros B. rewrite V. unfold Verify. cbn [Valid fst]. rewrite N. pose proof (len_nonneg (wrong t)).
    wrap_lia. unfold len. destruct (wrong t); [done|]. by rewrite bool_decide_eq_false_2.
Qed.

(** A leaf whose hash was overwritten. *)
Definition tampered : Node := Tree Nil "a" 7 (replicate 32 xff) None Nil.

Lemma verify_exact_witness : Valid (Verify tampered) = false /\ wrong tampered = ["a"].
Proof.
  destruct (verify_exact tampered) as (_ & _ & _ & V). split; [|vm_compute; reflexivity].
  rewrite V; vm_compute; reflexivity.
Defined.

(* ------------------------------------------------------------------ *)
(** ** The root hash binds the contents *)

(** The inputs of SHA-256 for the nodes of a tree. *)
Fixpoint inputs (t : Node) : list bytes :=
  match t with
  | Nil => []
  | Tree l k _ _ i r => hashInput l k i r :: inputs l ++ inputs r
  end.

(** Two different inputs met in the two trees have one hash, or an input met in
    one of them hashes to zero, the hash of an absent child. *)
Definition hash_broken (t u : Node) : Prop :=
  (exists x y, x ∈ inputs t /\ y ∈ inputs u /\ x <> y /\ sha256 x = sha256 y) \/
  (exists x, x ∈ inputs t ++ inputs u /\ sha256 x = zeroHash).

Definition listing (t : Node) : list (string * Hash) :=
  (fun e => (e.1, infoHash e.2)) <$> entries t.

(** Content hashes are 32 bytes long. *)
Definition sized (t : Node) : Prop := Forall (fun e : entry => hash_wf (infoHash e.2)) (entries t).

Lemma childHash_wf t : hashed t -> hash_wf (childHash t).
Proof. destruct t; [reflexivity|]. intros (-> & _). cbn [childHash ComputeNodeHash]. apply copy32_wf. Qed.

Lemma hash_eq t : hashed t -> childHash t = match t with
  | Nil => zeroHash | Tree l k _ _ i r => sha256 (hashInput l k i r) end.
Proof. destruct t; [done|]. intros (-> & _). cbn. apply copy32_id, sha256_wf. Qed.

(** The framing of a hash input: two hashes around it and a key of any length. *)
Lemma hashInput_inj l k i r l' k' i' r' :
  hash_wf (childHash l) -> hash_wf (childHash l') -> hash_wf (childHash r) -> hash_wf (childHash r') ->
  hash_wf (infoHash i) -> hash_wf (infoHash i') ->
  hashInput l k i r = hashInput l' k' i' r' ->
  childHash l = childHash l' /\ k = k' /\ infoHash i = infoHash i' /\ childHash r = childHash r'.
Proof.
  unfold hash_wf, hashInput. intros L L' R R' I I' E.
  apply app_inj_1 in E as [El E]; [|congruence]. rewrite !app_assoc in E.
  apply app_inj_2 in E as [E Er]; [|congruence]. apply app_inj_2 in E as [Ek Ei]; [|congruence].
  split_and!; [done|by apply (inj str_bytes)|done|done].
Qed.

Lemma sized_node l k p h i r : sized (Tree l k p h i r) -> sized l /\ hash_wf (infoHash i) /\ sized r.
Proof. unfold sized. cbn [entries]. rewrite Forall_app, Forall_cons. done. Qed.

Lemma hash_broken_sub t u t' u' :
  hash_broken t u -> inputs t ⊆ inputs t' -> inputs u ⊆ inputs u' -> hash_broken t' u'.
Proof.
  intros [(x & y & Hx & Hy & ? & ?)|(x & Hx & ?)] St Su; [left|right].
  - exists x, y. split_and!; auto.
  - exists x. split; [|done]. apply elem_of_app in Hx as [Hx|Hx]; apply elem_of_app; auto.
Qed.

Lemma same_hash_listing t u :
  hashed t -> hashed u -> sized t -> sized u -> childHash t = childHash u ->
  listing t = listing u \/ hash_broken t u.
Proof.
  revert u. induction t as [|l IHl k p h i r IHr]; intros [|l' k' p' h' i' r'] Ht Hu St Su E.
  - by left.
  - right. right. exists (hashInput l' k' i' r'). split; [left|].
    by rewrite (hash_eq _ Hu) in E.
  - right. right. exists (hashInput l k i r). split; [left|]. by rewrite (hash_eq _ Ht) in E.
  - rewrite (hash_eq _ Ht), (hash_eq _ Hu) in E.
    destruct (decide (hashInput l k i r = hashInput l' k' i' r')) as [Ei|Ne].
    2:{ right. left. exists (hashInput l k i r), (hashInput l' k' i' r'). split_and!; [left|left|done..]. }
    pose proof Ht as (_ & Hl & Hr). pose proof Hu as (_ & Hl' & Hr').
    apply sized_node in St as (Sl & Si & Sr). apply sized_node in Su as (Sl' & Si' & Sr').
    apply hashInput_inj in Ei as (El & -> & Eh & Er); try done; try by apply childHash_wf.
    destruct (IHl l') as [Ll|B]; [done..| |].
    + destruct (IHr r') as [Lr|B]; [done..| |].
      * left. unfold listing in *. cbn [entries]. rewrite !fmap_app, !fmap_cons. cbn [fst snd]. congruence.
      * right. eapply hash_broken_sub; [exact B|..]; cbn [inputs]; set_solver.
    + right. eapply hash_broken_sub; [exact B|..]; cbn [inputs]; set_solver.
Qed.

(* ------------------------------------------------------------------ *)
(** ** What the hash does not see *)

(** A tree whose file information is changed by [f]. *)
Fixpoint retag (f : option FileInfo -> option FileInfo) (t : Node) : Node :=
  match t with
  | Nil => Nil
  | Tree l k p h i r => Tree (retag f l) k p h (f i) (retag f r)
  end.

Lemma retag_entries f t : entries (retag f t) = prod_map id f <$> entries t.
Proof.
  induction t as [|l IHl k p h i r IHr]; [done|]. cbn [retag entries].
  by rewrite fmap_app, fmap_cons, IHl, IHr.
Qed.

Lemma retag_childHash f t : childHash (retag f t) = childHash t.
Proof. by destruct t. Qed.

Lemma retag_ordered f t : ordered t -> ordered (retag f t).
Proof.
  unfold ordered, keys. by rewrite retag_entries, <- list_fmap_compose.
Qed.

Lemma retag_good shake f t :
  (forall i, infoHash (f i) = infoHash i) -> good shake t -> good shake (retag f t).
Proof.
  intros K. induction t as [|l IHl k p h i r IHr]; [done|].
  intros (-> & Hh & Bl & Br & Gl & Gr). split_and!; auto.
  - rewrite Hh. cbn [ComputeNodeHash]. unfold hashInput. by rewrite !retag_childHash, K.
  - by destruct l.
  - by destruct r.
Qed.

Lemma retag_contents f t : contents (retag f t) = f <$> contents t.
Proof. unfold contents. rewrite retag_entries. apply list_to_map_fmap. Qed.

(** Two trees with the same keys and content hashes have the same root hash. *)
Lemma rootHash_retag shake f t u :
  (forall i, infoHash (f i) = infoHash i) ->
  good shake t -> good shake u -> ordered t -> ordered u ->
  contents t = f <$> contents u -> childHash t = childHash u.
Proof.
  intros K Gt Gu Ot Ou E. rewrite <- (retag_childHash f u). f_equal.
  apply (canonical shake); [done|by apply retag_good|done|by apply retag_ordered|].
  apply entries_unique; [done|by apply retag_ordered|]. by rewrite retag_contents.
Qed.
