(* ===== verification/CmtWal.v ===== *)
(** * The write-ahead log of the tree (core/search/cmt/wal.go)

    The log file is its bytes, and a read position the bytes that are left.
    Readers are functions in a state-and-error monad over that position, as
    [io.ReadFull] moves it.  What the operating system answers is an argument:
    [open_io], [write_io] and [truncate_io] are the outcomes of the calls of
    [os.File] in one operation, [Device] says whether reading past the last
    readable byte is the end of the file or an error that stays.  [Seek] fails
    on a closed file only. *)

From S2P Require Import Prelude GoStd Ids.
From S2P Require Export CmtTree.

Module CmtWal.
Import CmtTree.

(** The errors of the package, and any error of [os.File]. *)
Inductive wal_error :=
| ErrWALPathEmpty | ErrWALFileInfoNil | ErrWALKeyEmpty | ErrWALClosed | ErrFile.

Definition DefaultWALMaxSize : Z := 64 * 1024 * 1024.

Definition WALOpInsert : byte := x01.
Definition WALOpDelete : byte := x02.
Definition WALOpCheckpoint : byte := x03.
Definition WALOpTruncate : byte := x04.

Record WALEntry := mkEntry {
  Op : byte;
  Timestamp : Z;
  EKey : string;
  EInfo : option FileInfo;
  Checksum : Z
}.

Record WALConfig := mkWALConfig { WPath : string; SyncOnWrite : bool; MaxSize : Z }.

Record WAL := mkWAL {
  config : WALConfig;
  file : bytes;
  wsize : Z;
  closed : bool
}.

(* ------------------------------------------------------------------ *)
(** ** Encoding *)

Definition encodedFileInfoSize (info : FileInfo) : Z :=
  4 + len (str_bytes (Path info)) + 32 + 8 + 8 + 4 + 1.

(** The bytes written from [offset] on. *)
Definition encodeFileInfo (info : FileInfo) : bytes :=
  let pathBytes := str_bytes (Path info) in
  putU32 (len pathBytes) ++ pathBytes ++ copy32 (ContentHash info) ++ putU64 (Size info) ++
  putU64 (UnixNano (ModTime info)) ++ putU32 (Permissions info) ++
  [if Indexed info then x01 else x00].

Definition encodeInfoIf (op : byte) (info : option FileInfo) : bytes :=
  match info with
  | Some info => if Byte.eqb op WALOpInsert then encodeFileInfo info else []
  | None => []
  end.

(** The entry without its checksum. *)
Definition encodeBody (entry : WALEntry) : bytes :=
  let keyBytes := str_bytes (EKey entry) in
  [Op entry] ++ putU64 (Timestamp entry) ++ putU32 (len keyBytes) ++ keyBytes ++
  encodeInfoIf (Op entry) (EInfo entry).

Definition encodeEntry (entry : WALEntry) : bytes :=
  let buf := encodeBody entry in buf ++ putU32 (Crc32.checksum_ieee buf).

(* ------------------------------------------------------------------ *)
(** ** Decoding *)

Inductive read_error := EOF | ErrUnexpectedEOF | ErrRead | ErrWALCorrupted.

(** Whether the device fails at the last readable byte, now and later. *)
Class Device := read_fails : bool.

(** A device of which the file can be read to its end. *)
Definition healthy : Device := false.

Definition reader (A : Type) : Type := bytes -> result read_error A * bytes.

#[export] Instance reader_ret : MRet reader := fun A a f => (Ok a, f).
#[export] Instance reader_bind : MBind reader := fun A B k m f =>
  match m f with
  | (Ok a, f) => k a f
  | (Err e, f) => (Err e, f)
  end.

Section Decoding.
Context `{Device}.

(** [io.ReadFull] of [n] bytes: end of file only when nothing is left. *)
Definition ReadFull (n : Z) : reader bytes := fun f =>
  if n <=? 0 then (Ok [], f)
  else match f with
    | [] => (Err (if read_fails then ErrRead else EOF), [])
    | _ => if len f <? n then (Err (if read_fails then ErrRead else ErrUnexpectedEOF), [])
        else (Ok (take (Z.to_nat n) f), drop (Z.to_nat n) f)
    end.

Definition readFileInfo : reader FileInfo :=
  pathLenBuf ← ReadFull 4;
  let pathLen := be_decode pathLenBuf in
  pathBytes ← ReadFull pathLen;
  contentHash ← ReadFull 32;
  fixedBuf ← ReadFull 21;
  mret (mkInfo (bytes_str pathBytes) contentHash (i64 (be_decode (slice fixedBuf 0 8)))
    (i64 (be_decode (slice fixedBuf 8 16))) (be_decode (slice fixedBuf 16 20))
    (Byte.eqb (nth 20 fixedBuf x00) x01) zeroTime).

Definition encodeEntryForChecksum (entry : WALEntry) (header : bytes) (keyLen : Z) : bytes :=
  header ++ (if 0 <? keyLen then str_bytes (EKey entry) else []) ++
  encodeInfoIf (Op entry) (EInfo entry).

Definition verifyEntryChecksum (entry : WALEntry) (header : bytes) (keyLen : Z) : bool :=
  Crc32.checksum_ieee (encodeEntryForChecksum entry header keyLen) =? Checksum entry.

Definition readInfoIf (op : byte) : reader (option FileInfo) :=
  if Byte.eqb op WALOpInsert then (info ← readFileInfo; mret (Some info)) else mret None.

(** The end of [readEntry]. *)
Definition checkEntry (entry : WALEntry) (header : bytes) (keyLen : Z) : reader WALEntry := fun f =>
  if verifyEntryChecksum entry header keyLen then (Ok entry, f) else (Err ErrWALCorrupted, f).

Definition readEntry : reader WALEntry :=
  header ← ReadFull 13;
  let op := nth 0 header x00 in
  let timestamp := i64 (be_decode (slice header 1 9)) in
  let keyLen := be_decode (slice header 9 13) in
  keyBytes ← (if 0 <? keyLen then ReadFull keyLen else mret []);
  info ← readInfoIf op;
  crcBuf ← ReadFull 4;
  let entry := mkEntry op timestamp (bytes_str keyBytes) info (be_decode crcBuf) in
  checkEntry entry header keyLen.

(** The loop of [Recover] from a position; [None] when the fuel runs out. *)
Fixpoint recoverLoop (fuel : nat) (f : bytes) (entries : list WALEntry) : option (list WALEntry) :=
  match fuel with
  | O => None
  | S fuel =>
    match readEntry f with
    | (Err EOF, _) => Some entries
    | (Err _, f) => recoverLoop fuel f entries
    | (Ok entry, f) => recoverLoop fuel f (entries ++ [entry])
    end
  end.

End Decoding.

(* ------------------------------------------------------------------ *)
(** ** Operations *)

(** [os.OpenFile] and [file.Stat]: the contents found, or an error. *)
Definition open_io : Type := option bytes.

(** [file.Write] and [file.Sync]: all bytes written, an error after [n] of
    them, or an error of the synchronisation. *)
Inductive write_io := Written | WriteFails (n : nat) | SyncFails.

(** [file.Truncate], [file.Seek] and [file.Sync]. *)
Inductive truncate_io := Truncated | TruncateFails | SeekFails | TruncateSyncFails.

Definition NewWAL (c : WALConfig) (io : open_io) : result wal_error WAL :=
  if bool_decide (WPath c = "") then Err ErrWALPathEmpty
  else
    let c := if MaxSize c <=? 0 then mkWALConfig (WPath c) (SyncOnWrite c) DefaultWALMaxSize else c in
    match io with
    | None => Err ErrFile
    | Some contents => Ok (mkWAL c contents (len contents) false)
    end.

(** [io]: whether [file.Sync] and [file.Close] succeed. *)
Definition Close (w : WAL) (io : bool) : WAL * option wal_error :=
  if closed w then (w, None)
  else (mkWAL (config w) (file w) (wsize w) true, if io then None else Some ErrFile).

Definition writeEntry (w : WAL) (io : write_io) (entry : WALEntry) : WAL * option wal_error :=
  if closed w then (w, Some ErrWALClosed)
  else
    let data := encodeEntry entry in
    match io with
    | WriteFails n => (mkWAL (config w) (file w ++ take n data) (wsize w) (closed w), Some ErrFile)
    | _ =>
      let w := mkWAL (config w) (file w ++ data) (i64 (wsize w + len data)) (closed w) in
      if SyncOnWrite (config w) then (w, match io with SyncFails => Some ErrFile | _ => None end)
      else (w, None)
    end.

Definition LogInsert (w : WAL) (now : Z) (io : write_io) (key : string) (info : option FileInfo)
  : WAL * option wal_error :=
  if bool_decide (key = "") then (w, Some ErrWALKeyEmpty)
  else match info with
    | None => (w, Some ErrWALFileInfoNil)
    | Some _ => writeEntry w io (mkEntry WALOpInsert (UnixNano now) key info 0)
    end.

Definition LogDelete (w : WAL) (now : Z) (io : write_io) (key : string) : WAL * option wal_error :=
  if bool_decide (key = "") then (w, Some ErrWALKeyEmpty)
  else writeEntry w io (mkEntry WALOpDelete (UnixNano now) key None 0).

Definition Checkpoint (w : WAL) (now : Z) (io : write_io) : WAL * option wal_error :=
  writeEntry w io (mkEntry WALOpCheckpoint (UnixNano now) "" None 0).

Definition Truncate (w : WAL) (io : truncate_io) : WAL * option wal_error :=
  if closed w then (w, Some ErrWALClosed)
  else match io with
    | TruncateFails => (w, Some ErrFile)
    | SeekFails => (mkWAL (config w) [] (wsize w) (closed w), Some ErrFile)
    | _ =>
      let w := mkWAL (config w) [] 0 (closed w) in
      if SyncOnWrite (config w) then (w, match io with TruncateSyncFails => Some ErrFile | _ => None end)
      else (w, None)
    end.

(** [None] when the loop does not end.  Every iteration before the last reads
    at least one byte, unless the device fails. *)
Definition Recover `{Device} (w : WAL) : option (result wal_error (list WALEntry)) :=
  if closed w then Some (Err ErrFile)
  else Ok <$> recoverLoop (S (length (file w))) (file w) [].

Definition NeedsCheckpoint (w : WAL) : bool := MaxSize (config w) <? wsize w.
End CmtWal.
