(* ===== verification/CmtWalProof.v ===== *)
(** * What the log gives back (core/search/cmt/wal.go)

    [runs m s k]: the reader [m] consumes [s] and goes on as [k], and reading
    a proper prefix of [s] ends the file.  It is closed under the bind of the
    reader monad, so the round trip of an entry, the rejection of a damaged
    one and the fate of a torn one have one proof.  On a file that can be read
    to its end the loop of [Recover] ends, gives back the entries that were
    written, and drops the one a crash cut short.  What it does not do is
    remove the rest of that entry, after which the next entry is lost, and
    stop at an error of the device. *)

From S2P Require Import Prelude GoStd Ids.
From S2P Require Export CmtWal.
Import CmtTree CmtWal.

(** The device can be read to the end of the file. *)
#[export] Existing Instance healthy.

(** The two errors of a file that ends. *)
Definition at_end (e : read_error) : Prop := e = EOF \/ e = ErrUnexpectedEOF.

Definition runs {A} (m : reader A) (s : bytes) (k : reader A) : Prop :=
  (forall rest, m (s ++ rest) = k rest) /\
  (forall p q, s = p ++ q -> q <> [] -> exists e, m p = (Err e, []) /\ at_end e).

(** [m] consumes [s] and returns [v]. *)
Abbreviation reads m s v := (runs m s (mret v)).

Lemma runs_nil {A} (m : reader A) : runs m [] m.
Proof.
  split; [done|]. intros p q E Q. symmetry in E. by apply app_nil in E as [_ ->].
Qed.

Lemma runs_bind {A B} (m : reader A) (k : A -> reader B) s s' v r :
  reads m s v -> runs (k v) s' r -> runs (m ≫= k) (s ++ s') r.
Proof.
  intros [M1 M2] [K1 K2]. unfold mret, reader_ret in M1. split.
  - intros rest. unfold mbind, reader_bind. by rewrite <- app_assoc, M1.
  - intros p q E Q. unfold mbind, reader_bind.
    apply app_eq_inv in E as [(s1 & -> & ->)|(s1 & -> & ->)].
    + destruct (decide (s1 = [])) as [->|N].
      * rewrite app_nil_r in M1. pose proof (M1 []) as Z. rewrite app_nil_r in Z. rewrite Z.
        by apply (K2 [] s').
      * destruct (M2 p s1) as (e & -> & ?); [done..|]. eauto.
    + rewrite M1. by eapply K2.
Qed.

Lemma reads_full n s : len s = n -> reads (ReadFull n) s s.
Proof.
  intros L. split.
  - intros rest. unfold ReadFull. destruct (Z.leb_spec n 0) as [Z|Z].
    + assert (s = []) as -> by (destruct s; [done|rewrite len_cons in L; pose proof (len_nonneg s); lia]).
      done.
    + rewrite len_app. pose proof (len_nonneg rest).
      destruct (Z.ltb_spec (len s + len rest) n); [lia|].
      assert (Z.to_nat n = length s) as -> by (unfold len in L; lia).
      rewrite take_app_length, drop_app_length. destruct s; [change (0 = n) in L; lia|done].
  - intros p q -> Q. rewrite len_app in L. unfold ReadFull.
    assert (0 < len q) by (destruct q; [done|rewrite len_cons; pose proof (len_nonneg q); lia]).
    pose proof (len_nonneg p). destruct (Z.leb_spec n 0); [lia|].
    destruct p as [|b p]; [exists EOF; split; [done|by left]|].
    destruct (Z.ltb_spec (len (b :: p)) n); [|lia]. exists ErrUnexpectedEOF. split; [done|by right].
Qed.

(** A field of known bytes. *)
Lemma runs_field {B} n s (k : bytes -> reader B) s' r :
  len s = n -> runs (k s) s' r -> runs (ReadFull n ≫= k) (s ++ s') r.
Proof. intros L K. apply runs_bind with s; [by apply reads_full|done]. Qed.

(* ------------------------------------------------------------------ *)
(** ** An entry *)

(** The values a [FileInfo] and an entry of the code can have; the writers make
    an insertion with and the other entries without file information. *)
Definition info_wf (i : FileInfo) : Prop :=
  len (str_bytes (Path i)) < two32 /\ hash_wf (ContentHash i) /\ in_i64 (Size i) /\
  in_i64 (ModTime i) /\ in_u32 (Permissions i).

Definition entry_wf (e : WALEntry) : Prop :=
  len (str_bytes (EKey e)) < two32 /\ in_i64 (Timestamp e) /\
  match EInfo e with
  | Some i => Op e = WALOpInsert /\ info_wf i
  | None => Op e <> WALOpInsert
  end.

(** What the log keeps of a [FileInfo]: all but the time of its indexing. *)
Definition stored_info (i : FileInfo) : FileInfo :=
  mkInfo (Path i) (ContentHash i) (Size i) (ModTime i) (Permissions i) (Indexed i) zeroTime.

Definition stored (e : WALEntry) : WALEntry :=
  mkEntry (Op e) (Timestamp e) (EKey e) (stored_info <$> EInfo e) (Crc32.checksum_ieee (encodeBody e)).

Lemma info_reads i : info_wf i -> reads readFileInfo (encodeFileInfo i) (stored_info i).
Proof.
  intros (Lp & Hh & Bs & Bm & Bp). unfold readFileInfo, encodeFileInfo.
  apply runs_field; [by unfold len; rewrite length_putU32|].
  rewrite putU32_decode by by apply len_u32. apply runs_field; [done|].
  rewrite copy32_id by done. apply runs_field; [unfold len; by rewrite Hh|].
  set (fixed := putU64 (Size i) ++ putU64 (UnixNano (ModTime i)) ++ putU32 (Permissions i) ++
    [if Indexed i then x01 else x00]).
  rewrite <- (app_nil_r fixed).
  apply runs_field.
  { unfold fixed, len. rewrite !length_app, !length_putU64, length_putU32. reflexivity. }
  assert (S1 : slice fixed 0 8 = putU64 (Size i)).
  { unfold fixed, slice. rewrite drop_0. apply take_app_length'. by rewrite length_putU64. }
  assert (S2 : slice fixed 8 16 = putU64 (UnixNano (ModTime i))).
  { unfold fixed. rewrite slice_app_r by by rewrite length_putU64. apply take_app_length'. by rewrite length_putU64. }
  assert (S3 : slice fixed 16 20 = putU32 (Permissions i)).
  { unfold fixed. rewrite app_assoc, slice_app_r by by rewrite length_app, !length_putU64.
    apply take_app_length'. by rewrite length_putU32. }
  assert (S4 : nth 20 fixed x00 = if Indexed i then x01 else x00).
  { unfold fixed. rewrite !app_assoc.
    rewrite app_nth2 by (rewrite !length_app, !length_putU64, length_putU32; lia).
    rewrite !length_app, !length_putU64, length_putU32. reflexivity. }
  rewrite S1, S2, S3, S4. unfold UnixNano. rewrite (i64_id (ModTime i)) by done.
  rewrite !putU64_decode, putU32_decode, bytes_str_bytes by done.
  replace (Byte.eqb (if Indexed i then x01 else x00) x01) with (Indexed i) by by destruct (Indexed i).
  apply runs_nil.
Qed.

Lemma infoIf_reads e : entry_wf e ->
  reads (readInfoIf (Op e)) (encodeInfoIf (Op e) (EInfo e)) (stored_info <$> EInfo e).
Proof.
  intros (_ & _ & W). unfold readInfoIf, encodeInfoIf. destruct (EInfo e) as [i|].
  - destruct W as [-> W]. cbn [Byte.eqb]. rewrite <- (app_nil_r (encodeFileInfo i)).
    apply runs_bind with (stored_info i); [by apply info_reads|apply runs_nil].
  - destruct (Byte.eqb (Op e) WALOpInsert) eqn:E; [|apply runs_nil].
    by apply Byte.byte_dec_bl in E.
Qed.

(** The header [readEntry] reads first. *)
Definition header (e : WALEntry) : bytes :=
  [Op e] ++ putU64 (Timestamp e) ++ putU32 (len (str_bytes (EKey e))).

Lemma header_fields e : entry_wf e ->
  len (header e) = 13 /\ nth 0 (header e) x00 = Op e /\
  i64 (be_decode (slice (header e) 1 9)) = Timestamp e /\
  be_decode (slice (header e) 9 13) = len (str_bytes (EKey e)).
Proof.
  intros (Lk & Bt & _). unfold header, len at 1. rewrite !length_app, length_putU64, length_putU32.
  split_and!; [done|done| |].
  - rewrite slice_app_r by done. rewrite take_app_length' by by rewrite length_putU64.
    by apply putU64_decode.
  - rewrite app_assoc, slice_app_r by by rewrite length_app, length_putU64.
    rewrite take_ge by by rewrite length_putU32. apply putU32_decode. by apply len_u32.
Qed.

(** The entry as it is read with the checksum [c]. *)
Definition read_as (e : WALEntry) (c : Z) : WALEntry :=
  mkEntry (Op e) (Timestamp e) (EKey e) (stored_info <$> EInfo e) c.

Lemma entry_runs e c : entry_wf e -> in_u32 c ->
  runs readEntry (encodeBody e ++ putU32 c)
    (checkEntry (read_as e c) (header e) (len (str_bytes (EKey e)))).
Proof.
  intros W Bc. destruct (header_fields e W) as (Lh & Fo & Ft & Fk).
  assert (E : encodeBody e ++ putU32 c =
    header e ++ str_bytes (EKey e) ++ encodeInfoIf (Op e) (EInfo e) ++ putU32 c ++ []).
  { unfold encodeBody, header. rewrite app_nil_r. by rewrite <- !app_assoc. }
  rewrite E. unfold readEntry. apply runs_field; [done|]. rewrite Fo, Ft, Fk.
  apply runs_bind with (str_bytes (EKey e)).
  { pose proof (len_nonneg (str_bytes (EKey e))). destruct (Z.ltb_spec 0 (len (str_bytes (EKey e)))).
    - by apply reads_full.
    - assert (str_bytes (EKey e) = []) as ->; [|apply runs_nil].
      destruct (str_bytes (EKey e)) as [|b l]; [done|]. rewrite len_cons in *. pose proof (len_nonneg l). lia. }
  apply runs_bind with (stored_info <$> EInfo e); [by apply infoIf_reads|].
  apply runs_field; [by unfold len; rewrite length_putU32|].
  rewrite bytes_str_bytes, putU32_decode by done. apply runs_nil.
Qed.

Lemma checksum_data e c : entry_wf e ->
  encodeEntryForChecksum (read_as e c) (header e) (len (str_bytes (EKey e))) = encodeBody e.
Proof.
  intros (_ & _ & W). unfold encodeEntryForChecksum, read_as, encodeBody, header. cbn [Op EKey EInfo].
  rewrite <- !app_assoc. do 3 f_equal. pose proof (len_nonneg (str_bytes (EKey e))).
  f_equal.
  - destruct (Z.ltb_spec 0 (len (str_bytes (EKey e)))); [done|].
    destruct (str_bytes (EKey e)) as [|b l]; [done|]. rewrite len_cons in *. pose proof (len_nonneg l). lia.
  - by destruct (EInfo e).
Qed.

(** Reading back an entry, and a proper prefix of it. *)
Lemma entry_stored e : entry_wf e ->
  (forall rest, readEntry (encodeEntry e ++ rest) = (Ok (stored e), rest)) /\
  (forall p q, encodeEntry e = p ++ q -> q <> [] ->
    exists err, readEntry p = (Err err, []) /\ at_end err).
Proof.
  intros W. destruct (entry_runs e (Crc32.checksum_ieee (encodeBody e)) W) as [R T];
    [apply Crc32.checksum_range|]. unfold encodeEntry. split; [|exact T].
  intros rest. rewrite R. unfold checkEntry, verifyEntryChecksum.
  rewrite checksum_data by done. cbn [Checksum read_as]. by rewrite Z.eqb_refl.
Qed.

(** An entry written to the log is read back as it was, except for the time
    of indexing, and the reader stops just after it; the same bytes with any
    other checksum are rejected as corrupted and skipped; and an entry of which
    the end is missing reads as the end of the file. *)
Theorem wal_entry_roundtrip e :
  entry_wf e ->
  (forall rest, readEntry (encodeEntry e ++ rest) = (Ok (stored e), rest)) /\
  (forall c rest, in_u32 c -> c <> Crc32.checksum_ieee (encodeBody e) ->
    readEntry (encodeBody e ++ putU32 c ++ rest) = (Err ErrWALCorrupted, rest)) /\
  (forall p q, encodeEntry e = p ++ q -> q <> [] ->
    exists err, readEntry p = (Err err, []) /\ at_end err).
Proof.
  intros W. split_and!; [by apply entry_stored| |by apply entry_stored].
  intros c rest Bc Ne. destruct (entry_runs e c W Bc) as [R _]. rewrite app_assoc, R.
  unfold checkEntry, verifyEntryChecksum. rewrite checksum_data by done. cbn [Checksum read_as].
  by rewrite (proj2 (Z.eqb_neq _ _)).
Qed.

Definition sample_info : FileInfo := mkInfo "a/b.go" (sha256 []) 12 1700000000 420 true 99.
Definition sample_entry : WALEntry := mkEntry WALOpInsert 1700000001 "a/b.go" (Some sample_info) 0.

Lemma sample_entry_wf : entry_wf sample_entry.
Proof. by repeat split; vm_compute. Qed.

Lemma wal_entry_roundtrip_witness :
  readEntry (encodeEntry sample_entry) = (Ok (stored sample_entry), []).
Proof.
  destruct (wal_entry_roundtrip sample_entry sample_entry_wf) as [R _].
  rewrite <- (app_nil_r (encodeEntry sample_entry)) at 1. apply R.
Defined.

(* ------------------------------------------------------------------ *)
(** ** Termination *)

(** A reader never gives bytes back. *)
Definition shrinks {A} (m : reader A) : Prop := forall f, (length (m f).2 <= length f)%nat.

Lemma shrinks_ret {A} (v : A) : shrinks (mret v).
Proof. intros f. done. Qed.

Lemma shrinks_bind {A B} (m : reader A) (k : A -> reader B) :
  shrinks m -> (forall v, shrinks (k v)) -> shrinks (m ≫= k).
Proof.
  intros M K f. unfold mbind, reader_bind. specialize (M f). destruct (m f) as [[v|e] f']; simpl in *; [|done].
  specialize (K v f'). lia.
Qed.

Lemma shrinks_full n : shrinks (ReadFull n).
Proof.
  intros f. unfold ReadFull. destruct (n <=? 0); [done|]. destruct f as [|b f]; [done|].
  destruct (_ <? n); simpl; [lia|]. rewrite length_drop. simpl. lia.
Qed.

Lemma shrinks_if {A} (b : bool) (m k : reader A) : shrinks m -> shrinks k -> shrinks (if b then m else k).
Proof. by destruct b. Qed.

Lemma shrinks_check e h k : shrinks (checkEntry e h k).
Proof. intros f. unfold checkEntry. by destruct (verifyEntryChecksum _ _ _). Qed.

Create HintDb shrink.
#[local] Hint Resolve shrinks_ret shrinks_bind shrinks_full shrinks_if shrinks_check : shrink.

Lemma shrinks_info : shrinks readFileInfo.
Proof. unfold readFileInfo. auto 10 with shrink. Qed.
Lemma shrinks_infoIf op : shrinks (readInfoIf op).
Proof. unfold readInfoIf. pose proof shrinks_info. auto with shrink. Qed.

(** Reading an entry uses up at least one byte of a file that has one. *)
Lemma readEntry_progress f : f <> [] -> (length (readEntry f).2 < length f)%nat.
Proof.
  intros N. unfold readEntry, mbind at 1, reader_bind at 1.
  assert (P : (length (ReadFull 13 f).2 < length f)%nat).
  { unfold ReadFull. simpl (13 <=? 0). destruct f as [|b f]; [done|].
    destruct (_ <? 13); simpl; [lia|]. rewrite length_drop. simpl. lia. }
  destruct (ReadFull 13 f) as [[h|e] f'] eqn:E; simpl in P; [|done].
  match goal with |- (length (?m f').2 < _)%nat => enough (shrinks m) as S by (specialize (S f'); lia) end.
  pose proof shrinks_infoIf. auto 10 with shrink.
Qed.

Lemma readEntry_nil : readEntry [] = (Err EOF, []).
Proof. done. Qed.

Lemma recoverLoop_total fuel f acc : (length f < fuel)%nat -> exists es, recoverLoop fuel f acc = Some es.
Proof.
  revert f acc. induction fuel as [|fuel IH]; intros f acc L; [lia|]. cbn [recoverLoop].
  destruct f as [|b f]; [rewrite readEntry_nil; eauto|].
  pose proof (readEntry_progress (b :: f)) as P. destruct (readEntry (b :: f)) as [[e|[| | |]] f'];
    eauto; apply IH; simpl in *; specialize (P ltac:(done)); lia.
Qed.

(** The loop of [Recover] ends on every file, however damaged, that can be
    read to its end. *)
Theorem recover_terminates w : exists r, Recover w = Some r.
Proof.
  unfold Recover. destruct (closed w); [eauto|].
  destruct (recoverLoop_total (S (length (file w))) (file w) []) as [es ->]; [lia|]. eauto.
Qed.

(** A failing device: its readers do not report the end of the file. *)
Definition failing : Device := true.

Definition endless {A} (m : reader A) : Prop := forall f f', m f <> (Err EOF, f').

Lemma endless_ret {A} (v : A) : endless (mret v).
Proof. done. Qed.

Lemma endless_bind {A B} (m : reader A) (k : A -> reader B) :
  endless m -> (forall v, endless (k v)) -> endless (m ≫= k).
Proof.
  intros M K f f'. unfold mbind, reader_bind. specialize (M f). destruct (m f) as [[v|e] g]; [apply K|].
  intros [= -> ->]. by eapply M.
Qed.

Lemma endless_full n : endless (ReadFull (H := failing) n).
Proof. intros f f'. unfold ReadFull. destruct (n <=? 0); [done|]. destruct f; [done|]. by case_match. Qed.

Lemma endless_if {A} (b : bool) (m k : reader A) : endless m -> endless k -> endless (if b then m else k).
Proof. by destruct b. Qed.

Lemma endless_check e h k : endless (checkEntry e h k).
Proof. intros f f'. unfold checkEntry. by destruct (verifyEntryChecksum _ _ _). Qed.

Create HintDb endless.
#[local] Hint Resolve endless_ret endless_bind endless_full endless_if endless_check : endless.

Lemma endless_info : endless (readFileInfo (H := failing)).
Proof. unfold readFileInfo. auto 10 with endless. Qed.
#[local] Hint Resolve endless_info : endless.
Lemma endless_entry : endless (readEntry (H := failing)).
Proof. unfold readEntry, readInfoIf. auto 15 with endless. Qed.

(** On a device that fails to read at some byte of the file, and goes on
    failing, the loop of [Recover] never ends: it skips every error but the
    end of the file, which it does not see. *)
Theorem read_error_diverges fuel f es : recoverLoop (H := failing) fuel f es = None.
Proof.
  revert f es. induction fuel as [|fuel IH]; intros f es; [done|]. cbn [recoverLoop].
  destruct (readEntry f) as [[e|e] f'] eqn:E; [apply IH|].
  destruct e; try apply IH. by apply endless_entry in E.
Qed.

(* ------------------------------------------------------------------ *)
(** ** The entries that come back *)

Lemma recoverLoop_entry fuel e rest acc : entry_wf e ->
  recoverLoop (S fuel) (encodeEntry e ++ rest) acc = recoverLoop fuel rest (acc ++ [stored e]).
Proof. intros W. cbn [recoverLoop]. destruct (entry_stored e W) as [R _]. by rewrite R. Qed.

(** Bytes that end in the middle of an entry. *)
Definition torn (p : bytes) : Prop :=
  p = [] \/ exists e q, entry_wf e /\ encodeEntry e = p ++ q /\ q <> [].

Lemma recoverLoop_torn fuel p acc : torn p -> (length p < fuel)%nat -> recoverLoop fuel p acc = Some acc.
Proof.
  intros [->|(e & q & W & E & Q)] L.
  - destruct fuel; [lia|done].
  - destruct p as [|b p]; [by destruct fuel; [lia|]|].
    destruct (proj2 (entry_stored e W) _ _ E Q) as (err & R & [->| ->]).
    + destruct fuel as [|fuel]; [lia|]. cbn [recoverLoop]. by rewrite R.
    + destruct fuel as [|[|fuel]]; [simpl in L; lia..|]. cbn [recoverLoop]. by rewrite R, readEntry_nil.
Qed.

Definition log (es : list WALEntry) : bytes := mjoin (encodeEntry <$> es).

Lemma recoverLoop_log es fuel p acc :
  Forall entry_wf es -> torn p -> (length (log es ++ p) < fuel)%nat ->
  recoverLoop fuel (log es ++ p) acc = Some (acc ++ (stored <$> es)).
Proof.
  intros W T. revert fuel acc. induction W as [|e es We W IH]; intros fuel acc L.
  - rewrite app_nil_r. by apply recoverLoop_torn.
  - change (log (e :: es)) with (encodeEntry e ++ log es) in *. rewrite <- app_assoc in *.
    destruct fuel as [|fuel]; [lia|]. rewrite recoverLoop_entry, IH by
      (done || (rewrite length_app in L; assert (0 < length (encodeEntry e))%nat by
        (unfold encodeEntry, encodeBody; rewrite !length_app; simpl; lia); lia)).
    rewrite fmap_cons. by rewrite <- app_assoc.
Qed.

(** The log gives back exactly the entries written to it, in order; when
    the file ends in the middle of one more entry, that entry alone is
    missing. *)
Theorem recover_log w es p :
  closed w = false -> file w = log es ++ p -> Forall entry_wf es -> torn p ->
  Recover w = Some (Ok (stored <$> es)).
Proof.
  intros C E W T. unfold Recover. rewrite C, E, recoverLoop_log by (done || lia). done.
Qed.

Definition sample_config : WALConfig := mkWALConfig "wal" true 100.
Definition torn_file : bytes := take 40 (encodeEntry sample_entry).

Lemma torn_file_torn : torn torn_file.
Proof.
  right. exists sample_entry, (drop 40 (encodeEntry sample_entry)). split_and!.
  - apply sample_entry_wf.
  - symmetry. apply take_drop.
  - intros E. apply (f_equal length) in E. vm_compute in E. done.
Qed.

Lemma recover_log_witness :
  Recover (mkWAL sample_config (log [sample_entry] ++ torn_file) 0 false) = Some (Ok [stored sample_entry]).
Proof.
  apply (recover_log (mkWAL sample_config (log [sample_entry] ++ torn_file) 0 false) [sample_entry] torn_file).
  - reflexivity.
  - reflexivity.
  - repeat constructor; apply sample_entry_wf.
  - apply torn_file_torn.
Defined.

(** [Recover] leaves the bytes of an entry cut short in the file, and the
    next entry, written after them without an error, is lost: the following
    recovery reads it as the rest of the torn one.  A write that fails halfway
    does the same: the call reports its error, the next one reports none, and
    neither entry comes back. *)
Theorem append_after_torn_is_lost :
  let crashed := mkWAL sample_config torn_file 40 false in
  Recover crashed = Some (Ok []) /\
  (exists w, LogInsert crashed 5 Written "new.go" (Some sample_info) = (w, None) /\ Recover w = Some (Ok [])) /\
  (let fresh := mkWAL sample_config [] 0 false in
   exists w w', LogInsert fresh 5 (WriteFails 40) "a/b.go" (Some sample_info) = (w, Some ErrFile) /\
     LogInsert w 6 Written "new.go" (Some sample_info) = (w', None) /\ Recover w' = Some (Ok [])).
Proof.
  split_and!; [vm_compute; reflexivity| |].
  - eexists. split; [reflexivity|]. vm_compute. reflexivity.
  - do 2 eexists. split_and!; [reflexivity|reflexivity|]. vm_compute. reflexivity.
Qed.
