(* ===== verification/Cmt.v ===== *)
(** * The file manifest (core/search/cmt/cmt.go)

    A [CMT] is a tree, a counter and a log.  [Insert] writes to the log and
    then, under the lock, to the tree; the two halves are [logInsert] and
    [insertInternal].  The abstract state is a finite map from paths to file
    information ([view]). *)

From S2P Require Import Prelude GoStd Ids.
From S2P Require Export CmtHash CmtWalProof.
Import CmtTree CmtWal.

Module Cmt.
Section Manifest.
Variable shake128 : bytes -> bytes.

Record CMT := mkCMT {
  root : Node;
  size_ : Z;
  wal : WAL
}.

Record CMTConfig := mkCMTConfig { WALPath : string; StoragePath : string; SyncOnWrite_ : bool }.

Definition NewCMTWithWAL (w : WAL) : CMT := mkCMT Nil 0 w.

Definition NewCMT (c : CMTConfig) (io : open_io) : result wal_error CMT :=
  match NewWAL (mkWALConfig (WALPath c) (SyncOnWrite_ c) 0) io with
  | Err e => Err e
  | Ok w => Ok (mkCMT Nil 0 w)
  end.

(** The manifest with its log changed by an operation of the log. *)
Definition onWal (c : CMT) (r : WAL * option wal_error) : CMT * option wal_error :=
  (mkCMT (root c) (size_ c) r.1, r.2).

Definition keyExists (c : CMT) (key : string) : bool :=
  match CmtTree.Get (root c) key with Nil => false | _ => true end.

Definition logInsert (c : CMT) (now : Z) (io : write_io) (key : string) (info : option FileInfo)
  : CMT * option wal_error := onWal c (LogInsert (wal c) now io key info).

Definition insertInternal (c : CMT) (key : string) (info : option FileInfo) : CMT :=
  let existed := keyExists c key in
  let r := if existed then CmtTree.Delete (root c) key else root c in
  let newNode := NewNode shake128 key (CloneInfo info) in
  mkCMT (CmtTree.Insert r newNode) (if existed then size_ c else i64 (size_ c + 1)) (wal c).

Definition Insert (c : CMT) (now : Z) (io : write_io) (key : string) (info : option FileInfo)
  : CMT * option wal_error :=
  match logInsert c now io key info with
  | (c, Some e) => (c, Some e)
  | (c, None) => (insertInternal c key info, None)
  end.

Definition Update := Insert.

Definition logDelete (c : CMT) (now : Z) (io : write_io) (key : string) : CMT * option wal_error :=
  onWal c (LogDelete (wal c) now io key).

Definition deleteInternal (c : CMT) (key : string) : CMT :=
  let existed := keyExists c key in
  mkCMT (CmtTree.Delete (root c) key) (if existed then i64 (size_ c - 1) else size_ c) (wal c).

Definition Delete (c : CMT) (now : Z) (io : write_io) (key : string) : CMT * option wal_error :=
  match logDelete c now io key with
  | (c, Some e) => (c, Some e)
  | (c, None) => (deleteInternal c key, None)
  end.

Definition Get (c : CMT) (key : string) : option FileInfo :=
  match CmtTree.Get (root c) key with
  | Nil => None
  | Tree _ _ _ _ info _ => CloneInfo info
  end.

Definition RootHash (c : CMT) : Hash :=
  match root c with Nil => zeroHash | Tree _ _ _ h _ _ => h end.

Definition Size (c : CMT) : Z := size_ c.

Definition Walk {acc} (c : CMT) (fn : acc -> string -> option FileInfo -> acc * bool) (a : acc) : acc :=
  (walkInOrder fn (root c) a).1.

Definition Checkpoint (c : CMT) (now : Z) (io : write_io) : CMT * option wal_error :=
  onWal c (CmtWal.Checkpoint (wal c) now io).

Definition replayEntry (c : CMT) (entry : WALEntry) : CMT :=
  if Byte.eqb (Op entry) WALOpInsert then insertInternal c (EKey entry) (EInfo entry)
  else if Byte.eqb (Op entry) WALOpDelete then deleteInternal c (EKey entry)
  else c.

Definition replayEntries (c : CMT) (entries : list WALEntry) : CMT := foldl replayEntry c entries.

(** [None] when the loop of the log does not end. *)
Definition Recover `{Device} (c : CMT) : option (CMT * option wal_error) :=
  (fun r => match r with Err e => (c, Some e) | Ok entries => (replayEntries c entries, None) end)
    <$> CmtWal.Recover (wal c).

Definition Close (c : CMT) (io : bool) : CMT * option wal_error := onWal c (CmtWal.Close (wal c) io).

(* ------------------------------------------------------------------ *)
(** ** The tree refines a finite map *)

Record wf (c : CMT) : Prop := {
  wf_ordered : ordered (root c);
  wf_good : good shake128 (root c);
  wf_size : size_ c = i64 (Z.of_nat (size (contents (root c))))
}.

Lemma keyExists_eq c key : wf c -> keyExists c key = bool_decide (is_Some (contents (root c) !! key)).
Proof.
  intros W. unfold keyExists. pose proof (Get_contents (root c) key (wf_ordered c W)) as G.
  destruct (CmtTree.Get _ _).
  - rewrite G. symmetry. apply bool_decide_eq_false. by intros [].
  - destruct G as [_ ->]. symmetry. by apply bool_decide_eq_true.
Qed.

Lemma CloneInfo_eq i : CloneInfo i = i.
Proof. destruct i as [[]|]; done. Qed.

Lemma not_in_keys t key : ordered t -> contents t !! key = None -> key ∉ keys t.
Proof. intros _ E. by apply not_elem_of_list_to_map. Qed.

Lemma insertInternal_wf c key info : wf c ->
  wf (insertInternal c key info) /\
  contents (root (insertInternal c key info)) = <[key := info]> (contents (root c)) /\
  wal (insertInternal c key info) = wal c.
Proof.
  intros W. pose proof W as [O G S]. unfold insertInternal. rewrite keyExists_eq, CloneInfo_eq by done.
  case_bool_decide as E; cbn [root wal].
  - assert (O' := Delete_ordered (root c) key O). assert (C' := Delete_contents (root c) key O).
    assert (N : key ∉ keys (CmtTree.Delete (root c) key)).
    { apply not_in_keys; [done|]. rewrite C'. apply lookup_delete_eq. }
    assert (C : contents (CmtTree.Insert (CmtTree.Delete (root c) key) (NewNode shake128 key info)) =
      <[key := info]> (contents (root c))).
    { rewrite Insert_contents, C' by done. apply insert_delete_eq. }
    split_and!; [|done..]. split; cbn [root size_].
    + by apply Insert_ordered.
    + by apply Insert_good, Delete_good.
    + rewrite C, S, map_size_insert_Some by done. done.
  - apply eq_None_not_Some in E. pose proof (not_in_keys _ _ O E) as N.
    split_and!; [|by apply Insert_contents|done]. split; cbn [root size_].
    + by apply Insert_ordered.
    + by apply Insert_good.
    + rewrite Insert_contents, S, map_size_insert_None, i64_add_l by done. f_equal. lia.
Qed.

Lemma deleteInternal_wf c key : wf c ->
  wf (deleteInternal c key) /\
  contents (root (deleteInternal c key)) = delete key (contents (root c)) /\
  wal (deleteInternal c key) = wal c.
Proof.
  intros W. pose proof W as [O G S]. unfold deleteInternal. rewrite keyExists_eq by done. cbn [root wal].
  split_and!; [|by apply Delete_contents|done]. split; cbn [root size_].
  - by apply Delete_ordered.
  - by apply Delete_good.
  - rewrite Delete_contents by done. case_bool_decide as E.
    + rewrite S, i64_sub_l, map_size_delete_Some by done. f_equal.
      destruct E as [i E].
      assert (size (contents (root c)) <> 0)%nat.
      { intros Z0. apply map_size_empty_inv in Z0. rewrite Z0 in E. by rewrite lookup_empty in E. }
      lia.
    + apply eq_None_not_Some in E. by rewrite map_size_delete_None.
Qed.

(* ------------------------------------------------------------------ *)
(** ** Any sequence of calls *)

Inductive call :=
| CInsert (key : string) (info : option FileInfo)
| CDelete (key : string)
| CCheckpoint.

(** The time of a call and the outcome of its file operations. *)
Record env := mkEnv { now : Z; io : write_io }.

Definition exec (c : CMT) (e : env) (o : call) : CMT * option wal_error :=
  match o with
  | CInsert key info => Insert c (now e) (io e) key info
  | CDelete key => Delete c (now e) (io e) key
  | CCheckpoint => Checkpoint c (now e) (io e)
  end.

Definition exec_all (c : CMT) (calls : list (env * call)) : CMT :=
  foldl (fun c call => (exec c call.1 call.2).1) c calls.

(** The error of the arguments of a call. *)
Definition arg_error (o : call) : option wal_error :=
  match o with
  | CInsert key info =>
    if bool_decide (key = "") then Some ErrWALKeyEmpty
    else match info with None => Some ErrWALFileInfoNil | Some _ => None end
  | CDelete key => if bool_decide (key = "") then Some ErrWALKeyEmpty else None
  | CCheckpoint => None
  end.

(** The error of the file of an open log, which synchronises if [sync]. *)
Definition io_error (sync : bool) (io : write_io) : option wal_error :=
  match io with
  | Written => None
  | WriteFails _ => Some ErrFile
  | SyncFails => if sync then Some ErrFile else None
  end.

Definition call_error (sync : bool) (e : env) (o : call) : option wal_error :=
  match arg_error o with Some err => Some err | None => io_error sync (io e) end.

(** The abstract state: what a call does to the map from paths to files. *)
Definition view_call (sync : bool) (m : gmap string FileInfo) (call : env * call) : gmap string FileInfo :=
  match call_error sync call.1 call.2, call.2 with
  | Some _, _ => m
  | None, CInsert key (Some info) => <[key := info]> m
  | None, CDelete key => delete key m
  | None, _ => m
  end.

Definition view (sync : bool) (calls : list (env * call)) : gmap string FileInfo :=
  foldl (view_call sync) ∅ calls.

(** The entry of a call, and what of it gets into the file. *)
Definition call_entry (now : Z) (o : call) : WALEntry :=
  match o with
  | CInsert key info => mkEntry WALOpInsert (UnixNano now) key info 0
  | CDelete key => mkEntry WALOpDelete (UnixNano now) key None 0
  | CCheckpoint => mkEntry WALOpCheckpoint (UnixNano now) "" None 0
  end.

Definition call_bytes (call : env * call) : bytes :=
  match arg_error call.2 with
  | Some _ => []
  | None =>
    let data := encodeEntry (call_entry (now call.1) call.2) in
    match io call.1 with WriteFails n => take n data | _ => data end
  end.

(** The entries of the calls with valid arguments. *)
Definition call_entries (calls : list (env * call)) : list WALEntry :=
  (fun call => call_entry (now call.1) call.2) <$> filter (fun call => arg_error call.2 = None) calls.

(** The sizes and times of a call are those the Go types hold. *)
Definition call_ok (o : call) : Prop :=
  match o with
  | CInsert key (Some info) => len (str_bytes key) < two32 /\ info_wf info
  | CDelete key => len (str_bytes key) < two32
  | _ => True
  end.

(** An open manifest, with a synchronised log if [sync], whose tree holds [m]
    and whose file is [f]. *)
Record holds (c : CMT) (sync : bool) (m : gmap string FileInfo) (f : bytes) : Prop := {
  holds_wf : wf c;
  holds_contents : contents (root c) = Some <$> m;
  holds_file : file (wal c) = f;
  holds_open : closed (wal c) = false;
  holds_sync : SyncOnWrite (config (wal c)) = sync
}.

(** What [writeEntry] does to an open log. *)
Lemma writeEntry_open w io e : closed w = false ->
  let data := encodeEntry e in
  let r := writeEntry w io e in
  r.2 = io_error (SyncOnWrite (config w)) io /\ closed r.1 = false /\ config r.1 = config w /\
  file r.1 = file w ++ match io with WriteFails n => take n data | _ => data end.
Proof.
  intros C data r. unfold r, writeEntry. rewrite C. fold data. generalize data. clear data r. intros data.
  cbn [config]. destruct io, (SyncOnWrite (config w)); split_and!; done.
Qed.

Lemma onWal_holds c sync m f r : holds c sync m f ->
  closed r.1 = false -> config r.1 = config (wal c) -> holds (onWal c r).1 sync m (file r.1).
Proof. intros [[] C F Op <-] ? E. by split; [split| | | |rewrite <- E]. Qed.

Lemma insertInternal_holds c sync m f key info : holds c sync m f ->
  holds (insertInternal c key (Some info)) sync (<[key := info]> m) f.
Proof.
  intros [W C F Op Y]. destruct (insertInternal_wf c key (Some info) W) as (W' & C' & L).
  split; [done|by rewrite C', C, fmap_insert|by rewrite L..].
Qed.

Lemma deleteInternal_holds c sync m f key : holds c sync m f ->
  holds (deleteInternal c key) sync (delete key m) f.
Proof.
  intros [W C F Op Y]. destruct (deleteInternal_wf c key W) as (W' & C' & L).
  split; [done|by rewrite C', C, fmap_delete|by rewrite L..].
Qed.

Lemma exec_holds c sync m f e o : holds c sync m f ->
  (exec c e o).2 = call_error sync e o /\
  holds (exec c e o).1 sync (view_call sync m (e, o)) (f ++ call_bytes (e, o)).
Proof.
  intros Hc. pose proof (holds_sync _ _ _ _ Hc) as Y. pose proof (holds_file _ _ _ _ Hc) as F.
  assert (N : holds (onWal c (wal c, None)).1 sync m (f ++ [])).
  { rewrite app_nil_r, <- F. eapply (onWal_holds c sync m f (wal c, None)); [done|apply Hc|done]. }
  pose proof (writeEntry_open (wal c) (io e) (call_entry (now e) o) (holds_open _ _ _ _ Hc)) as (E & O & K & B).
  assert (H := onWal_holds c sync m f _ Hc O K). rewrite B, F in H. rewrite Y in E.
  unfold view_call, call_bytes, call_error. cbn [fst snd].
  destruct o as [key info|key|]; cbn [arg_error exec call_entry] in *.
  - unfold Insert, logInsert, LogInsert. case_bool_decide; [by split|].
    destruct info as [info|]; [|by split]. destruct (writeEntry _ _ _) as [w r]. cbn [onWal fst snd] in *.
    rewrite E. destruct (io_error sync (io e)); (split; [done|]); [done|].
    by apply insertInternal_holds.
  - unfold Delete, logDelete, LogDelete. case_bool_decide; [by split|].
    destruct (writeEntry _ _ _) as [w r]. cbn [onWal fst snd] in *. rewrite E.
    destruct (io_error sync (io e)); (split; [done|]); [done|]. by apply deleteInternal_holds.
  - unfold Checkpoint, CmtWal.Checkpoint. split; [done|]. by destruct (io_error sync (io e)).
Qed.

(** An open log with nothing in it. *)
Definition empty_log (w : WAL) : Prop := file w = [] /\ closed w = false.

(** Whether the log of [w] is synchronised. *)
Abbreviation synced w := (SyncOnWrite (config w)).

Lemma new_holds w : empty_log w -> holds (NewCMTWithWAL w) (synced w) ∅ [].
Proof.
  intros [F O]. split; [|by rewrite fmap_empty|done..]. split; [constructor|done|done].
Qed.

Lemma exec_all_holds w calls : empty_log w ->
  holds (exec_all (NewCMTWithWAL w) calls) (synced w) (view (synced w) calls) (calls ≫= call_bytes).
Proof.
  intros E. induction calls as [|[e o] calls IH] using rev_ind; [by apply new_holds|].
  unfold exec_all, view. rewrite !foldl_app, bind_app. cbn [foldl fst snd].
  fold (exec_all (NewCMTWithWAL w) calls). fold (view (synced w) calls).
  destruct (exec_holds _ _ _ _ e o IH) as [_ H].
  cbn [mbind list_bind]. by rewrite app_nil_r.
Qed.

(** The file after calls of which every write succeeds. *)
Lemma call_bytes_log calls : Forall (fun call => io call.1 = Written) calls ->
  calls ≫= call_bytes = log (call_entries calls).
Proof.
  induction 1 as [|[e o] calls W F IH]; [done|]. rewrite bind_cons, IH. unfold call_entries, call_bytes.
  cbn [fst snd] in *. rewrite W. destruct (arg_error o) eqn:A.
  - by rewrite filter_cons_False by (simpl; congruence).
  - by rewrite filter_cons_True by done.
Qed.

(* ------------------------------------------------------------------ *)
(** ** Correctness *)

Lemma holds_Get c sync m f key : holds c sync m f -> Get c key = m !! key.
Proof.
  intros [W C _ _ _]. unfold Get. pose proof (Get_contents (root c) key (wf_ordered c W)) as G.
  rewrite C, lookup_fmap in G. destruct (CmtTree.Get _ _).
  - destruct (m !! key); [done|done].
  - destruct G as [_ G]. rewrite CloneInfo_eq. destruct (m !! key); simpl in G; congruence.
Qed.

(** The callback that collects what it is given. *)
Definition collect (a : list entry) (key : string) (info : option FileInfo) : list entry * bool :=
  (a ++ [(key, info)], true).

Lemma walk_collect t a : walkInOrder collect t a = (a ++ entries t, true).
Proof.
  revert a. induction t as [|l IHl k p h i r IHr]; intros a; [by rewrite app_nil_r|].
  cbn [walkInOrder entries]. rewrite IHl. cbn [negb collect]. unfold collect at 1. cbn [negb].
  rewrite IHr. by rewrite <- !app_assoc.
Qed.

(** C34: after any sequence of calls, whatever the file system answers, the
    manifest is the finite map of the calls that succeeded: a call fails
    exactly on an empty key, a missing file information or an error of the
    file, [Get] looks the map up, [Size] counts it, [Walk] visits it in the
    order of the keys, each once, and the tree passes its verification. *)
Theorem manifest_refines_map w calls :
  empty_log w ->
  let c := exec_all (NewCMTWithWAL w) calls in
  let m := view (synced w) calls in
  (forall e o, (exec c e o).2 = call_error (synced w) e o) /\
  (forall key, Get c key = m !! key) /\
  Size c = i64 (Z.of_nat (size m)) /\
  (exists es, Walk c collect [] = es /\ StronglySorted str_lt es.*1 /\
    es ≡ₚ prod_map id Some <$> map_to_list m) /\
  VerifySubtree (root c) = (true, []).
Proof.
  intros E c m. pose proof (exec_all_holds w calls E) as Hc. fold c m in Hc. split_and!.
  - intros e o. by eapply exec_holds.
  - intros key. by eapply holds_Get.
  - unfold Size. rewrite (wf_size _ (holds_wf _ _ _ _ Hc)), (holds_contents _ _ _ _ Hc).
    by rewrite map_size_fmap.
  - exists (entries (root c)). unfold Walk. rewrite walk_collect. split_and!; [done|apply Hc|].
    rewrite <- map_to_list_fmap, <- (holds_contents _ _ _ _ Hc). symmetry.
    apply map_to_list_to_map, ordered_NoDup, Hc.
  - by eapply hashed_verified, good_hashed, (wf_good _ (holds_wf _ _ _ _ Hc)).
Qed.

Lemma holds_tree c c' sync sync' m f f' : holds c sync m f -> holds c' sync' m f' -> root c = root c'.
Proof.
  intros [[O G _] C _ _ _] [[O' G' _] C' _ _ _]. apply (canonical shake128); [done..|].
  apply entries_unique; [done..|]. congruence.
Qed.

(** C36: the root hash is independent of the history: two manifests that hold
    the same files have the same tree, hash for hash, whatever calls and in
    whatever order led to it. *)
Theorem root_hash_canonical w w' calls calls' :
  empty_log w -> empty_log w' -> view (synced w) calls = view (synced w') calls' ->
  let c := exec_all (NewCMTWithWAL w) calls in
  let c' := exec_all (NewCMTWithWAL w') calls' in
  root c = root c' /\ RootHash c = RootHash c'.
Proof.
  intros E E' V c c'. assert (R : root c = root c').
  { eapply holds_tree; [by apply exec_all_holds|]. rewrite V. by apply exec_all_holds. }
  split; [done|]. unfold RootHash. by rewrite R.
Qed.

Lemma view_ok sync calls : Forall (fun call => call_ok call.2) calls ->
  map_Forall (fun _ info => info_wf info) (view sync calls).
Proof.
  induction calls as [|[e o] calls IH] using rev_ind; [intros _; apply map_Forall_empty|].
  intros [F Ho]%Forall_app. apply Forall_cons in Ho as [Ho _]. specialize (IH F).
  unfold view. rewrite foldl_app. cbn [foldl]. fold (view sync calls). unfold view_call. cbn [fst snd].
  destruct (call_error sync e o); [done|]. destruct o as [key [info|]|key|]; try done.
  - apply map_Forall_insert_2; [apply Ho|done].
  - by apply map_Forall_delete.
Qed.

Lemma holds_sized c sync m f : holds c sync m f -> map_Forall (fun _ info => info_wf info) m -> sized (root c).
Proof.
  intros [[O _ _] C _ _ _] F. apply Forall_forall. intros [k i] Hi.
  apply elem_of_contents in Hi; [|done]. rewrite C, lookup_fmap in Hi.
  destruct (m !! k) as [info|] eqn:E; [|done]. injection Hi as <-.
  by destruct (F _ _ E) as (_ & ? & _).
Qed.

Lemma holds_listing c sync m f : holds c sync m f ->
  (list_to_map (listing (root c)) : gmap string Hash) = ContentHash <$> m.
Proof.
  intros [_ C _ _ _]. unfold listing.
  rewrite (list_to_map_fmap infoHash (entries (root c))). fold (contents (root c)).
  rewrite C, <- map_fmap_compose. done.
Qed.

(** C37: the root hash binds the contents: two manifests with equal root hashes
    hold the same paths with the same content hashes, unless among the hash
    inputs of their nodes are two different ones with one SHA-256 value, or
    one that hashes to zero. *)
Theorem root_hash_binds w w' calls calls' :
  empty_log w -> empty_log w' ->
  Forall (fun call => call_ok call.2) calls -> Forall (fun call => call_ok call.2) calls' ->
  let c := exec_all (NewCMTWithWAL w) calls in
  let c' := exec_all (NewCMTWithWAL w') calls' in
  RootHash c = RootHash c' ->
  ContentHash <$> view (synced w) calls = ContentHash <$> view (synced w') calls' \/
    hash_broken (root c) (root c').
Proof.
  intros E E' F F' c c' R.
  pose proof (exec_all_holds w calls E) as Hc. fold c in Hc.
  pose proof (exec_all_holds w' calls' E') as Hc'. fold c' in Hc'.
  destruct (same_hash_listing (root c) (root c')) as [L|B]; [..|left|by right].
  - eapply good_hashed, (wf_good _ (holds_wf _ _ _ _ Hc)).
  - eapply good_hashed, (wf_good _ (holds_wf _ _ _ _ Hc')).
  - eapply holds_sized; [done|by apply view_ok].
  - eapply holds_sized; [done|by apply view_ok].
  - exact R.
  - rewrite <- (holds_listing _ _ _ _ Hc), <- (holds_listing _ _ _ _ Hc'). by rewrite L.
Qed.

(* ------------------------------------------------------------------ *)
(** ** Recovery *)

Lemma call_entry_wf now o : call_ok o -> arg_error o = None -> entry_wf (call_entry now o).
Proof.
  intros K N. destruct o as [key [info|]|key|]; unfold arg_error in N; try (by case_bool_decide).
  - destruct K as [L I]. split_and!; [done|apply i64_range|done].
  - split_and!; [done|apply i64_range|done].
  - split_and!; [done|apply i64_range|done].
Qed.

Lemma call_entries_wf calls :
  Forall (fun call => call_ok call.2) calls -> Forall entry_wf (call_entries calls).
Proof.
  intros F. unfold call_entries. apply Forall_fmap. apply Forall_forall. intros [e o] Hc.
  apply list_elem_of_filter in Hc as [N Hc]. rewrite Forall_forall in F.
  apply call_entry_wf; [by apply (F _ Hc)|done].
Qed.

(** Replaying what the log gives back for a call does the call again. *)
Lemma replay_call c m e o sync :
  wf c -> contents (root c) = Some <$> (stored_info <$> m) -> arg_error o = None -> io e = Written ->
  wf (replayEntry c (stored (call_entry (now e) o))) /\
  contents (root (replayEntry c (stored (call_entry (now e) o)))) =
    Some <$> (stored_info <$> view_call sync m (e, o)).
Proof.
  intros W C N Wr. unfold view_call, call_error. cbn [fst snd]. rewrite N, Wr. cbn [io_error].
  destruct o as [key [info|]|key|]; unfold arg_error in N.
  - destruct (insertInternal_wf c key (Some (stored_info info)) W) as (W' & C' & _).
    change (replayEntry c _) with (insertInternal c key (Some (stored_info info))).
    split; [done|]. by rewrite C', C, !fmap_insert.
  - by case_bool_decide.
  - destruct (deleteInternal_wf c key W) as (W' & C' & _).
    change (replayEntry c _) with (deleteInternal c key).
    split; [done|]. by rewrite C', C, !fmap_delete.
  - change (replayEntry c _) with c. done.
Qed.

Lemma replay_contents w sync calls : Forall (fun call => io call.1 = Written) calls ->
  let c := replayEntries (NewCMTWithWAL w) (stored <$> call_entries calls) in
  wf c /\ contents (root c) = Some <$> (stored_info <$> view sync calls).
Proof.
  induction calls as [|[e o] calls IH] using rev_ind.
  - intros _. split; [by split; [constructor|done|done]|]. unfold view. simpl. by rewrite !fmap_empty.
  - intros [F Wr]%Forall_app. apply Forall_cons in Wr as [Wr _]. destruct (IH F) as [W C].
    cbn zeta. unfold call_entries, view. rewrite filter_app, !fmap_app, foldl_app. cbn [foldl].
    fold (call_entries calls). fold (view sync calls). unfold replayEntries. rewrite foldl_app.
    fold (replayEntries (NewCMTWithWAL w) (stored <$> call_entries calls)).
    destruct (arg_error o) as [err|] eqn:Er.
    + rewrite filter_cons_False by (simpl; congruence). unfold view_call, call_error. cbn [fst snd].
      by rewrite Er.
    + rewrite filter_cons_True by done. by apply replay_call.
Qed.

(** C35: recovering a fresh manifest from the log of another, whose log was
    empty at first and of which every write and every Sync succeeded, rebuilds
    it, also when a crash cut the log in the middle of a further entry: the
    same files up to the times of indexing, which the log does not keep, with
    the same root hash and size.  The times of modification are such as fit in
    64 bits of nanoseconds ([call_ok]; the zero time is none). *)
Theorem recover_rebuilds w calls p w' :
  empty_log w -> Forall (fun call => call_ok call.2) calls ->
  Forall (fun call => io call.1 = Written) calls -> torn p ->
  let c := exec_all (NewCMTWithWAL w) calls in
  closed w' = false -> file w' = file (wal c) ++ p ->
  exists c', Recover (NewCMTWithWAL w') = Some (c', None) /\
    (forall key, Get c' key = stored_info <$> Get c key) /\ Size c' = Size c /\
    RootHash c' = RootHash c.
Proof.
  intros E F Wr T c Cl Ef. pose proof (exec_all_holds w calls E) as Hc. fold c in Hc.
  destruct (replay_contents w' (synced w) calls Wr) as [W C]. set (c' := replayEntries _ _) in *.
  exists c'. unfold Recover. cbn [wal NewCMTWithWAL].
  rewrite (recover_log w' (call_entries calls) p) by
    (done || (by apply call_entries_wf) ||
     (by rewrite Ef, (holds_file _ _ _ _ Hc), call_bytes_log)).
  split; [done|]. split_and!.
  - intros key. rewrite (holds_Get _ _ _ _ _ Hc).
    assert (H' : holds (mkCMT (root c') (size_ c') (mkWAL (config w') [] 0 false)) (synced w')
      (stored_info <$> view (synced w) calls) []) by by split; [destruct W; split|..].
    rewrite <- lookup_fmap, <- (holds_Get _ _ _ _ key H'). done.
  - unfold Size. rewrite (wf_size _ W), (wf_size _ (holds_wf _ _ _ _ Hc)), C, (holds_contents _ _ _ _ Hc).
    by rewrite !map_size_fmap.
  - unfold RootHash.
    apply (rootHash_retag shake128 (fmap stored_info)); [by intros [[]|]|apply W|apply Hc|apply W|apply Hc|].
    rewrite C, (holds_contents _ _ _ _ Hc), <- !map_fmap_compose. done.
Qed.
End Manifest.

(* ------------------------------------------------------------------ *)
(** ** Two callers *)

Definition Size_of (i : option FileInfo) : option Z := CmtTree.Size <$> i.

Definition info_a : FileInfo := mkInfo "f" (sha256 []) 1 0 420 false 0.
Definition info_b : FileInfo := mkInfo "f" (sha256 []) 2 0 420 false 0.
Definition open_wal : WAL := mkWAL (mkWALConfig "wal" true 100) [] 0 false.

(** A manifest with two files, reached in two ways. *)
Definition at_ (now : Z) : env := mkEnv now Written.
Definition calls_ab : list (env * call) :=
  [(at_ 1, CInsert "f" (Some info_a)); (mkEnv 2 SyncFails, CDelete "f"); (at_ 3, CInsert "g" (Some info_b))].
Definition calls_ba : list (env * call) :=
  [(at_ 1, CInsert "g" (Some info_a)); (at_ 2, CInsert "" None); (at_ 3, CInsert "f" (Some info_a));
   (at_ 4, CDelete "g"); (at_ 5, CInsert "g" (Some info_b))].

Lemma manifest_refines_map_witness :
  Get (exec_all id (NewCMTWithWAL open_wal) calls_ba) "g" = Some info_b.
Proof.
  destruct (manifest_refines_map id open_wal calls_ba) as (_ & G & _); [done|].
  rewrite G. vm_compute. reflexivity.
Defined.

Lemma root_hash_canonical_witness :
  RootHash (exec_all id (NewCMTWithWAL open_wal) calls_ab) =
    RootHash (exec_all id (NewCMTWithWAL open_wal) calls_ba).
Proof.
  refine (proj2 (root_hash_canonical id open_wal open_wal calls_ab calls_ba _ _ _)); [done..|].
  vm_compute. reflexivity.
Defined.

Lemma calls_ok : Forall (fun call => call_ok call.2) calls_ab /\ Forall (fun call => call_ok call.2) calls_ba.
Proof.
  split; repeat apply Forall_cons_2; (apply Forall_nil_2 || cbn [call_ok snd]; try done);
    unfold info_wf; split_and?; vm_compute; done.
Qed.

Lemma root_hash_binds_witness :
  let c := exec_all id (NewCMTWithWAL open_wal) calls_ab in
  let c' := exec_all id (NewCMTWithWAL open_wal) calls_ba in
  ContentHash <$> view true calls_ab = ContentHash <$> view true calls_ba \/ hash_broken (root c) (root c').
Proof.
  apply (root_hash_binds id open_wal open_wal calls_ab calls_ba); [done|done|apply calls_ok|apply calls_ok|].
  vm_compute. reflexivity.
Defined.

Lemma recover_rebuilds_witness :
  exists c', Recover id (NewCMTWithWAL (wal (exec_all id (NewCMTWithWAL open_wal) calls_ba))) = Some (c', None) /\
    Get c' "f" = Some (stored_info info_a).
Proof.
  destruct (recover_rebuilds id open_wal calls_ba []
    (wal (exec_all id (NewCMTWithWAL open_wal) calls_ba))) as (c' & R & G & _);
    [done|apply calls_ok|by repeat constructor|by left|done|by rewrite app_nil_r|].
  exists c'. split; [exact R|]. rewrite G. vm_compute. reflexivity.
Defined.

(** The steps of two concurrent calls [Insert "f" info_a] and
    [Insert "f" info_b]: both write to the log, in this order, and then take
    the lock of the tree in the other order. *)
Definition race : CMT * option (CMT * option wal_error) :=
  let shake := fun b => b in
  let c := (logInsert (NewCMTWithWAL open_wal) 1 Written "f" (Some info_a)).1 in
  let c := (logInsert c 2 Written "f" (Some info_b)).1 in
  let c := insertInternal shake c "f" (Some info_b) in
  let c := insertInternal shake c "f" (Some info_a) in
  (c, Recover shake (NewCMTWithWAL (wal c))).

(** The order of the log is not the order of the tree: after two
    overlapping calls of [Insert] for one path, both of which succeed, the
    manifest holds one of the files and a recovery from its log the other. *)
Theorem log_order_races :
  exists c c', race = (c, Some (c', None)) /\
    Size_of (Get c "f") = Some 1 /\ Size_of (Get c' "f") = Some 2.
Proof. do 2 eexists. split; [vm_compute; reflexivity|]. split; vm_compute; reflexivity. Qed.

(** A call that reports an error can take effect later: when the entry is
    written and its synchronisation fails, [Insert] returns the error and
    leaves the tree, but a recovery from the log has the file. *)
Theorem failed_insert_recovered :
  let shake := fun b => b in
  exists c c', Insert shake (NewCMTWithWAL open_wal) 1 SyncFails "f" (Some info_a) = (c, Some ErrFile) /\
    Get c "f" = None /\
    Recover shake (NewCMTWithWAL (wal c)) = Some (c', None) /\
    Size_of (Get c' "f") = Some 1.
Proof. do 2 eexists. split_and!; [reflexivity|reflexivity|vm_compute; reflexivity|vm_compute; reflexivity]. Qed.
End Cmt.
