(* ===== verification/CmtRecovery.v ===== *)
(** * Rebuilding a lost tree (core/search/cmt/recovery.go)

    A recovery tries the log, the file system and git, in this order.  The
    file system is a tree of directory entries that [walkDir], the walk of
    [filepath.WalkDir], visits; a path below the root is the list of its
    names.  [ctx] gives the answer of every call of [ctx.Err], by its number.
    The list of the files that [git ls-files] prints is an argument. *)

From S2P Require Import Prelude GoStd Ids.
From S2P Require Export Cmt.
Import CmtTree CmtWal.

Module CmtRecovery.

Inductive recovery_error := ErrCanceled | ErrDeadlineExceeded | ErrNotExist | ErrOther | ErrWal (e : wal_error).

Inductive RecoverySource := RecoverySourceWAL | RecoverySourceFilesystem | RecoverySourceGit.

Record RecoveryResult := mkResult {
  Success : bool;
  Source : RecoverySource;
  RecoveredAt : Z;
  FilesRecovered : Z;
  Errors : list recovery_error
}.

(* ------------------------------------------------------------------ *)
(** ** The file system *)

(** What [os.Stat] and reading give for a file. *)
Record file_data := mkFile { bytes_of : bytes; mtime : Z; perm : Z }.

(** A file that cannot be read has no data; the entries of a directory are in
    the order of [os.ReadDir], which may stop with an error. *)
Inductive dir_entry :=
| File (name : string) (data : option file_data)
| Dir (name : string) (dirs : list dir_entry) (failed : bool).

Definition Name (d : dir_entry) : string := match d with File n _ | Dir n _ _ => n end.
Definition IsDir (d : dir_entry) : bool := match d with File _ _ => false | Dir _ _ _ => true end.

Inductive walk_error := SkipDir | WalkErr (e : recovery_error).

Section Walk.
Context {S : Type}.
(** The callback: the names below the root, the entry and whether the call
    reports a failed [ReadDir]. *)
Variable fn : list string -> dir_entry -> bool -> S -> S * option walk_error.

Fixpoint walkDir (path : list string) (d : dir_entry) (s : S) : S * option walk_error :=
  match fn path d false s with
  | (s, Some e) => (s, match e, d with SkipDir, Dir _ _ _ => None | _, _ => Some e end)
  | (s, None) =>
    match d with
    | File _ _ => (s, None)
    | Dir _ dirs failed =>
      match (if failed then fn path d true s else (s, None)) with
      | (s, Some SkipDir) => (s, None)
      | (s, Some e) => (s, Some e)
      | (s, None) =>
        (fix walkEntries (dirs : list dir_entry) (s : S) : S * option walk_error :=
          match dirs with
          | [] => (s, None)
          | d1 :: dirs =>
            match walkDir (path ++ [Name d1]) d1 s with
            | (s, None) => walkEntries dirs s
            | (s, Some SkipDir) => (s, None)
            | (s, Some e) => (s, Some e)
            end
          end) dirs s
      end
    end
  end.

Definition WalkDir (root : dir_entry) (s : S) : S * option walk_error :=
  match walkDir [] root s with
  | (s, Some SkipDir) => (s, None)
  | r => r
  end.
End Walk.

(** [filepath.Rel] of a path below the root. *)
Definition Rel (path : list string) : string :=
  match path with [] => "." | _ => String.concat "/" path end.

Definition isHidden (name : string) : bool := String.prefix "." name.

(* ------------------------------------------------------------------ *)
(** ** The three sources *)

Section Recovery.
Variable shake128 : bytes -> bytes.
Variable ctx : nat -> option recovery_error.

Definition applyInsert (root : Node) (entry : WALEntry) : Node :=
  match EInfo entry with
  | None => root
  | Some info => CmtTree.Insert root (NewNode shake128 (EKey entry) (Some info))
  end.

Definition applyWALEntry (root : Node) (entry : WALEntry) : Node :=
  if Byte.eqb (Op entry) WALOpInsert then applyInsert root entry
  else if Byte.eqb (Op entry) WALOpDelete then CmtTree.Delete root (EKey entry)
  else root.

(** The loop of [replayWALEntries] from the call number [n] of [ctx.Err]. *)
Fixpoint replayLoop (n : nat) (entries : list WALEntry) (root : Node) : Node * option recovery_error :=
  match entries with
  | [] => (root, None)
  | entry :: entries =>
    match ctx n with
    | Some e => (root, Some e)
    | None => replayLoop (S n) entries (applyWALEntry root entry)
    end
  end.

Definition replayWALEntries `{Device} (w : WAL) : option (Node * option recovery_error) :=
  (fun r => match r with Err e => (Nil, Some (ErrWal e)) | Ok entries => replayLoop 0 entries Nil end)
    <$> CmtWal.Recover w.

(** [exists_]: [os.Stat] finds the log.  [None] when reading the log does not
    end. *)
Definition RecoverFromWAL `{Device} (walPath : string) (exists_ : bool) (io : open_io)
  : option (Node * option recovery_error) :=
  if negb exists_ then Some (Nil, Some ErrNotExist)
  else match NewWAL (mkWALConfig walPath false 0) io with
    | Err e => Some (Nil, Some (ErrWal e))
    | Ok w => replayWALEntries w
    end.

Definition createFileInfo (relPath : string) (data : option file_data) : option FileInfo :=
  (fun f => mkInfo relPath (sha256 (bytes_of f)) (len (bytes_of f)) (mtime f) (perm f) false zeroTime)
    <$> data.

Definition addFileToTree (path : list string) (data : option file_data) (root : Node) : Node :=
  match createFileInfo (Rel path) data with
  | None => root
  | Some info => CmtTree.Insert root (NewNode shake128 (Rel path) (Some info))
  end.

Definition skipHiddenEntry (d : dir_entry) : option walk_error :=
  if IsDir d then Some SkipDir else None.

Definition handleEntry (path : list string) (d : dir_entry) (root : Node) : Node * option walk_error :=
  if isHidden (Name d) then (root, skipHiddenEntry d)
  else match d with
    | Dir _ _ _ => (root, None)
    | File _ data => (addFileToTree path data root, None)
    end.

(** The state of the walk: the tree and the number of calls of [ctx.Err]. *)
Definition processFilesystemEntry (path : list string) (d : dir_entry) (failed : bool)
    (s : Node * nat) : (Node * nat) * option walk_error :=
  if failed then (s, None)
  else match ctx s.2 with
    | Some e => ((s.1, S s.2), Some (WalkErr e))
    | None => let '(root, e) := handleEntry path d s.1 in ((root, S s.2), e)
    end.

Definition filterWalkError (e : option walk_error) : option recovery_error :=
  match e with
  | Some (WalkErr ErrCanceled) | Some (WalkErr ErrDeadlineExceeded) | None => None
  | Some (WalkErr e) => Some e
  | Some SkipDir => Some ErrOther
  end.

Definition scanFilesystem (n : nat) (disk : dir_entry) : (Node * nat) * option recovery_error :=
  let '(s, e) := WalkDir processFilesystemEntry disk (Nil, n) in (s, filterWalkError e).

(** [disk] is the root path: [None] when [os.Stat] fails. *)
Definition RecoverFromFilesystem (n : nat) (disk : option dir_entry)
  : (Node * nat) * option recovery_error :=
  match disk with
  | None => ((Nil, n), Some ErrOther)
  | Some (File _ _) => ((Nil, n), Some ErrNotExist)
  | Some d => scanFilesystem n d
  end.

(** [stat_]: the data of a file below the root. *)
Definition tryAddGitFile (stat_ : string -> option file_data) (relPath : string) : Node :=
  match createFileInfo relPath (stat_ relPath) with
  | None => Nil
  | Some info => NewNode shake128 relPath (Some info)
  end.

Fixpoint buildTreeFromGitFiles (stat_ : string -> option file_data) (n : nat) (files : list string)
    (root : Node) : Node * option recovery_error :=
  match files with
  | [] => (root, None)
  | relPath :: files =>
    match ctx n with
    | Some e => (root, Some e)
    | None =>
      buildTreeFromGitFiles stat_ (S n) files
        match tryAddGitFile stat_ relPath with
        | Nil => root
        | node => CmtTree.Insert root node
        end
    end
  end.

(** [files]: what [git ls-files] lists, or its error; [repo]: the directory has
    a directory [.git]. *)
Definition RecoverFromGit (stat_ : string -> option file_data) (n : nat) (repo : bool)
    (files : result recovery_error (list string)) : Node * option recovery_error :=
  if negb repo then (Nil, Some ErrNotExist)
  else match files with
    | Err e => (Nil, Some e)
    | Ok files => buildTreeFromGitFiles stat_ n files Nil
    end.
End Recovery.

(* ------------------------------------------------------------------ *)
(** ** The order of the sources *)

Definition countNodes (n : Node) : Z := NodeSize n.

(** The new errors and, when the attempt counts as a success, its tree. *)
Definition checkRecoverySuccess (attempt : Node * option recovery_error) (needsRoot : bool)
    (errors : list recovery_error) : list recovery_error * option Node :=
  match attempt with
  | (_, Some e) => (errors ++ [e], None)
  | (Nil, None) => (errors, if needsRoot then None else Some Nil)
  | (root, None) => (errors, Some root)
  end.

(** The attempts, in the order of the sources; with no success, the last error. *)
Fixpoint tryLoop (sources : list (Node * option recovery_error * RecoverySource * bool))
    (errors : list recovery_error) (lastErr : option recovery_error)
  : list recovery_error * (Node * RecoverySource * option recovery_error) :=
  match sources with
  | [] => (errors, (Nil, RecoverySourceWAL, lastErr))
  | (attempt, source, needsRoot) :: sources =>
    match checkRecoverySuccess attempt needsRoot errors with
    | (errors, Some root) => (errors, (root, source, None))
    | (errors, None) =>
      tryLoop sources errors (match attempt.2 with Some e => Some e | None => lastErr end)
    end
  end.

Definition tryAllSources (fromWAL fromFilesystem fromGit : Node * option recovery_error) :=
  tryLoop [(fromWAL, RecoverySourceWAL, true); (fromFilesystem, RecoverySourceFilesystem, false);
    (fromGit, RecoverySourceGit, false)] [] None.

(** [CMTRecovery.Recover] from the outcomes of its three sources; the error it
    returns is always nil. *)
Definition Recover (now : Z) (fromWAL fromFilesystem fromGit : Node * option recovery_error)
  : Node * RecoveryResult :=
  match tryAllSources fromWAL fromFilesystem fromGit with
  | (errors, (root, source, None)) => (root, mkResult true source now (countNodes root) errors)
  | (errors, (_, _, Some _)) => (Nil, mkResult false RecoverySourceWAL now 0 errors)
  end.

(* ------------------------------------------------------------------ *)
(** ** The walk finds the visible files *)

(** The files below an entry that no hidden name leads to, with their names
    below it, and those of them that can be read. *)
Fixpoint leaves (d : dir_entry) : list (list string * option file_data) :=
  match d with
  | File _ data => [([], data)]
  | Dir _ dirs _ =>
    dirs ≫= fun d1 => if isHidden (Name d1) then [] else prod_map (cons (Name d1)) id <$> leaves d1
  end.

Definition files (d : dir_entry) : list (list string * file_data) :=
  omap (fun f => pair f.1 <$> f.2) (leaves d).

Lemma dir_entry_rect' (P : dir_entry -> Prop) :
  (forall n f, P (File n f)) -> (forall n dirs b, Forall P dirs -> P (Dir n dirs b)) -> forall d, P d.
Proof.
  intros F D. fix IH 1. intros [n f|n dirs b]; [apply F|]. apply D.
  induction dirs as [|d dirs IHd]; constructor; [apply IH|apply IHd].
Qed.

Lemma elem_of_files d p f : (p, f) ∈ files d <-> (p, Some f) ∈ leaves d.
Proof.
  unfold files. rewrite list_elem_of_omap. split.
  - intros ([q o] & H & E). destruct o; [|done]. by injection E as -> ->.
  - intros H. by exists (p, Some f).
Qed.

(** A walk that counts its calls, skips what is hidden and takes every file
    with [g], whatever [ReadDir] reports. *)
Section Fold.
Context {A : Type}.
Variable g : list string -> option file_data -> A -> A.
Variable fn : list string -> dir_entry -> bool -> A * nat -> (A * nat) * option walk_error.
Hypothesis fn_failed : forall path d s, fn path d true s = (s, None).
Hypothesis fn_entry : forall path d a n, fn path d false (a, n) =
  if isHidden (Name d) then ((a, S n), skipHiddenEntry d)
  else match d with Dir _ _ _ => ((a, S n), None) | File _ data => ((g path data a, S n), None) end.

Definition take_all (path : list string) (fs : list (list string * option file_data)) (a : A) : A :=
  foldl (fun a f => g (path ++ f.1) f.2 a) a fs.

Lemma take_all_cons path n fs a :
  take_all path (prod_map (cons n) id <$> fs) a = take_all (path ++ [n]) fs a.
Proof.
  unfold take_all. revert a. induction fs as [|[p f] fs IH]; intros a; [done|].
  rewrite fmap_cons. cbn [foldl fst snd prod_map]. rewrite IH. by rewrite <- app_assoc.
Qed.

Lemma walkDir_leaves d path a n :
  exists n', walkDir fn path d (a, n) =
    ((if isHidden (Name d) then a else take_all path (leaves d) a, n'), None).
Proof.
  revert path a n. induction d as [name f|name dirs failed IH] using dir_entry_rect'; intros path a n;
    cbn [walkDir]; rewrite fn_entry; cbn [Name leaves].
  - destruct (isHidden name); eexists; [reflexivity|]. unfold take_all. cbn [foldl fst snd].
    by rewrite app_nil_r.
  - destruct (isHidden name); [eexists; reflexivity|].
    assert (E : (if failed then fn path (Dir name dirs failed) true (a, S n) else (a, S n, None)) =
      (a, S n, None)) by by destruct failed.
    rewrite E. generalize (S n). clear E n. revert a.
    induction IH as [|d dirs Hd F IHd]; intros a n; [by eexists|].
    destruct (Hd (path ++ [Name d]) a n) as [n' ->]. rewrite bind_cons. unfold take_all at 2.
    rewrite foldl_app. destruct (isHidden (Name d)); [apply IHd|].
    fold (take_all path (prod_map (cons (Name d)) id <$> leaves d) a). rewrite take_all_cons. apply IHd.
Qed.
End Fold.

Section Exact.
Variable shake128 : bytes -> bytes.
(** The recovery is not cancelled. *)
Definition no_ctx : nat -> option recovery_error := fun _ => None.
Abbreviation process := (processFilesystemEntry shake128 no_ctx).

(** The tree with the files of a list added. *)
Definition add_files (path : list string) (fs : list (list string * file_data)) (t : Node) : Node :=
  foldl (fun t f => addFileToTree shake128 (path ++ f.1) (Some f.2) t) t fs.

(** The walk adds the files below an entry to the tree. *)
Lemma walkDir_files d path t n :
  exists n', walkDir process path d (t, n) =
    ((if isHidden (Name d) then t else add_files path (files d) t, n'), None).
Proof.
  assert (E : take_all (addFileToTree shake128) path (leaves d) t = add_files path (files d) t).
  { unfold files, take_all, add_files. revert t. induction (leaves d) as [|[p [f|]] fs IH]; intros t; [done| |];
      cbn [omap list_omap fmap option_fmap option_map fst snd foldl]; by rewrite IH. }
  rewrite <- E. apply walkDir_leaves; [done|]. intros path' d' a k.
  unfold processFilesystemEntry, handleEntry, no_ctx. cbn [fst snd].
  by destruct (isHidden (Name d')), d'.
Qed.

(* ------------------------------------------------------------------ *)
(** ** Paths *)

(** The file at a path below an entry, reached by names that are not hidden. *)
Inductive leaf_at : dir_entry -> list string -> option file_data -> Prop :=
| at_file n f : leaf_at (File n f) [] f
| at_dir n dirs b d p f :
    d ∈ dirs -> isHidden (Name d) = false -> leaf_at d p f -> leaf_at (Dir n dirs b) (Name d :: p) f.

Definition at_path (d : dir_entry) (p : list string) (f : file_data) : Prop := leaf_at d p (Some f).

Lemma elem_of_leaves d p f : (p, f) ∈ leaves d <-> leaf_at d p f.
Proof.
  split.
  - revert p. induction d as [n g|n dirs b IH] using dir_entry_rect'; intros p; cbn [leaves].
    + intros [= -> ->]%list_elem_of_singleton. constructor.
    + intros (d & Hp & Hd)%list_elem_of_bind. rewrite Forall_forall in IH.
      destruct (isHidden (Name d)) eqn:Hn; [by apply not_elem_of_nil in Hp|].
      apply list_elem_of_fmap in Hp as ([q g] & [= -> ->] & Hq). econstructor; [done..|].
      by apply (IH d Hd).
  - induction 1 as [n f|n dirs b d p f Hd Hn _ IH]; [by left|]. cbn [leaves].
    apply list_elem_of_bind. exists d. rewrite Hn. split; [|done].
    apply list_elem_of_fmap. by exists (p, f).
Qed.

(** Names as a file system has them: no separator in a name, and the names of a
    directory distinct. *)
Definition no_slash (name : string) : Prop := "/"%char ∉ list_ascii_of_string name.
Inductive well_named : dir_entry -> Prop :=
| wn_file n f : well_named (File n f)
| wn_dir n dirs b : NoDup (Name <$> dirs) ->
    Forall (fun d => no_slash (Name d)) dirs -> Forall well_named dirs -> well_named (Dir n dirs b).

Lemma leaf_at_names d p f : well_named d -> leaf_at d p f -> Forall no_slash p.
Proof.
  intros W H. induction H as [n f|n dirs b d p f Hd Hn _ IH]; [constructor|].
  inversion W as [|? ? ? _ F G]; subst. rewrite Forall_forall in F, G. constructor; auto.
Qed.

Lemma leaves_NoDup d : well_named d -> NoDup (leaves d).*1.
Proof.
  induction d as [n f|n dirs b IH] using dir_entry_rect'; cbn [leaves]; [intros _; apply NoDup_singleton|].
  intros W. inversion W as [|? ? ? N _ F]; subst. clear W. induction dirs as [|d dirs IHd]; [constructor|].
  apply Forall_cons in IH as [Hd IH]. apply Forall_cons in F as [W F].
  rewrite fmap_cons in N. apply NoDup_cons in N as [Nd N]. rewrite bind_cons, fmap_app.
  apply NoDup_app. split_and!; [| |by apply IHd].
  - destruct (isHidden (Name d)); [constructor|]. rewrite <- list_fmap_compose.
    change (fst ∘ prod_map (cons (Name d)) id) with (cons (Name d) ∘ @fst (list string) (option file_data)).
    rewrite list_fmap_compose. apply (NoDup_fmap_2 _). by apply Hd.
  - intros p Hp Hq. apply Nd.
    assert (exists q, p = Name d :: q) as [q ->].
    { destruct (isHidden (Name d)); [by apply not_elem_of_nil in Hp|].
      rewrite <- list_fmap_compose in Hp. apply list_elem_of_fmap in Hp as (x & -> & _). by eexists. }
    apply list_elem_of_fmap in Hq as ([q' g] & E & Hq). simpl in E. subst q'.
    apply list_elem_of_bind in Hq as (d' & Hq & Hd'). destruct (isHidden (Name d')); [by apply not_elem_of_nil in Hq|].
    apply list_elem_of_fmap in Hq as ([q2 g2] & [= -> _ _] & _). by apply list_elem_of_fmap_2.
Qed.

Lemma files_NoDup d : well_named d -> NoDup (files d).*1.
Proof.
  intros W. pose proof (leaves_NoDup d W) as N. unfold files.
  induction (leaves d) as [|[p o] fs IH]; [constructor|]. rewrite fmap_cons in N. apply NoDup_cons in N as [Np N].
  destruct o as [f|]; [|by apply IH]. simpl in *.
  apply NoDup_cons. split; [|by apply IH]. intros ([q f'] & -> & H)%list_elem_of_fmap. apply Np.
  apply list_elem_of_omap in H as ([q' [f2|]] & H & [= -> _]). apply list_elem_of_fmap. by exists (q, Some f2).
Qed.

Lemma slash_cut a b x y : no_slash a -> no_slash b ->
  a +:+ String "/" x = b +:+ String "/" y -> a = b /\ x = y.
Proof.
  unfold no_slash. revert b. induction a as [|c a IH]; intros [|c' b] Ha Hb E; cbn in *.
  - by injection E as ->.
  - injection E as <- _. set_solver.
  - injection E as -> _. set_solver.
  - injection E as <- E. destruct (IH b) as [-> ->]; [set_solver..|done|done].
Qed.

Lemma slash_in a x : ~ no_slash (a +:+ String "/" x).
Proof. intros H. apply H. clear H. induction a as [|c a IH]; [by left|right; exact IH]. Qed.

Lemma concat_inj p q : p <> [] -> q <> [] -> Forall no_slash p -> Forall no_slash q ->
  String.concat "/" p = String.concat "/" q -> p = q.
Proof.
  revert q. induction p as [|a p IH]; [done|]. intros [|b q] _ Q Fp Fq; [done|].
  apply Forall_cons in Fp as [Na Fp]. apply Forall_cons in Fq as [Nb Fq].
  destruct p as [|a' p], q as [|b' q].
  - by intros [= ->].
  - intros E. cbn in E. subst. by apply slash_in in Na.
  - intros E. cbn in E. subst. by apply slash_in in Nb.
  - intros E. apply slash_cut in E as [-> E]; [|done..]. f_equal. by apply IH.
Qed.
(* ------------------------------------------------------------------ *)
(** ** The tree of a list of files *)

Definition insert_all (t : Node) (es : list entry) : Node :=
  foldl (fun t e => CmtTree.Insert t (NewNode shake128 e.1 e.2)) t es.

Lemma insert_all_spec es t :
  good shake128 t -> ordered t -> NoDup es.*1 -> (forall k, k ∈ es.*1 -> k ∉ keys t) ->
  good shake128 (insert_all t es) /\ ordered (insert_all t es) /\
  (forall k i, (k, i) ∈ entries (insert_all t es) <-> (k, i) ∈ es \/ (k, i) ∈ entries t).
Proof.
  revert t. induction es as [|[k i] es IH]; intros t G O N D; [set_solver|].
  rewrite fmap_cons in N, D. apply NoDup_cons in N as [Nk N]. cbn [fst] in *.
  assert (Kt : k ∉ keys t) by (apply D; left).
  assert (E : forall k' i', (k', i') ∈ entries (CmtTree.Insert t (NewNode shake128 k i)) <->
    (k', i') = (k, i) \/ (k', i') ∈ entries t).
  { intros k' i'. rewrite Insert_entries. destruct (Split_entries t k) as [-> _].
    rewrite !elem_of_app, elem_of_cons. tauto. }
  destruct (IH (CmtTree.Insert t (NewNode shake128 k i))) as (G' & O' & E').
  - by apply Insert_good.
  - by apply Insert_ordered.
  - done.
  - intros k' Hk' Ht. apply list_elem_of_fmap in Ht as ([k2 i2] & -> & Ht). apply E in Ht as [[= -> ->]|Ht].
    + done.
    + apply (D k2); [by right|]. by apply (list_elem_of_fmap_2 fst) in Ht.
  - split_and!; [done|done|]. intros k' i'. unfold insert_all in *. cbn [foldl fst snd].
    rewrite E', E, elem_of_cons. tauto.
Qed.

Definition file_entry (f : list string * file_data) : entry :=
  (Rel f.1, createFileInfo (Rel f.1) (Some f.2)).

Lemma add_files_insert_all fs t : add_files [] fs t = insert_all t (file_entry <$> fs).
Proof. unfold add_files, insert_all. revert t. induction fs as [|f fs IH]; [done|]. intros t. apply IH. Qed.
End Exact.

Lemma dir_paths n dirs b p f : leaf_at (Dir n dirs b) p f -> p <> [].
Proof. by inversion 1. Qed.

(** The path below a directory, as [filepath.Rel] gives it, names one file. *)
Lemma Rel_inj n dirs b p q f g : well_named (Dir n dirs b) ->
  leaf_at (Dir n dirs b) p f -> leaf_at (Dir n dirs b) q g -> Rel p = Rel q -> p = q.
Proof.
  intros W Hp Hq E. pose proof (dir_paths _ _ _ _ _ Hp) as Np. pose proof (dir_paths _ _ _ _ _ Hq) as Nq.
  apply concat_inj; [done|done|by eapply leaf_at_names|by eapply leaf_at_names|].
  destruct p, q; try done.
Qed.

Lemma file_entries_NoDup n dirs b : well_named (Dir n dirs b) ->
  NoDup (file_entry <$> files (Dir n dirs b)).*1.
Proof.
  intros W. rewrite <- list_fmap_compose.
  change (fst ∘ file_entry) with (Rel ∘ @fst (list string) file_data). rewrite list_fmap_compose.
  apply (NoDup_fmap_2_strong Rel); [|by apply files_NoDup].
  intros p q ([p' f] & -> & Hp)%list_elem_of_fmap ([q' g] & -> & Hq)%list_elem_of_fmap E. cbn [fst] in *.
  apply elem_of_files, elem_of_leaves in Hp, Hq. by eapply Rel_inj.
Qed.

(** What an uncancelled scan of the file system makes. *)
Lemma scan_tree shake128 n name dirs b :
  let disk := Dir name dirs b in
  well_named disk -> isHidden name = false ->
  exists t n', RecoverFromFilesystem shake128 no_ctx n (Some disk) = ((t, n'), None) /\
    good shake128 t /\ ordered t /\
    (forall k i, (k, i) ∈ entries t <-> (k, i) ∈ file_entry <$> files disk).
Proof.
  intros disk W H. unfold RecoverFromFilesystem, scanFilesystem, WalkDir, disk.
  destruct (walkDir_files shake128 disk [] Nil n) as [n' E]. unfold disk in *. rewrite E. cbn [Name]. rewrite H.
  rewrite add_files_insert_all.
  destruct (insert_all_spec shake128 (file_entry <$> files disk) Nil) as (G & O & K);
    [done|constructor|by apply file_entries_NoDup|by intros ? _ ?%not_elem_of_nil|].
  do 2 eexists. split_and!; [done|exact G|exact O|]. intros k i. etransitivity; [apply K|].
  split; [|by left]. by intros [?|?%not_elem_of_nil].
Qed.

(** A scan of the file system that is not cancelled rebuilds exactly the
    visible files: [Get] on the tree finds a path if and only if a readable
    file is there and no hidden name leads to it, with the hash and the size
    of its bytes; the tree passes its verification. *)
Theorem filesystem_recovery_exact shake128 n name dirs b :
  let disk := Dir name dirs b in
  well_named disk -> isHidden name = false ->
  exists t n', RecoverFromFilesystem shake128 no_ctx n (Some disk) = ((t, n'), None) /\
    VerifySubtree t = (true, []) /\
    (forall p f, at_path disk p f -> exists l k q h r,
      CmtTree.Get t (Rel p) = Tree l k q h (Some (mkInfo (Rel p) (sha256 (bytes_of f)) (len (bytes_of f))
        (mtime f) (perm f) false zeroTime)) r) /\
    (forall key, CmtTree.Get t key <> Nil -> exists p f, at_path disk p f /\ key = Rel p).
Proof.
  intros disk W H. destruct (scan_tree shake128 n name dirs b W H) as (t & n' & E & G & O & K).
  exists t, n'. split_and!; [exact E| | |].
  - by eapply hashed_verified, good_hashed.
  - intros p f Hp. pose proof (Get_contents t (Rel p) O) as C.
    assert (Ct : contents t !! Rel p = Some (createFileInfo (Rel p) (Some f))).
    { apply elem_of_contents; [done|]. apply K. apply list_elem_of_fmap. exists (p, f).
      split; [done|]. by apply elem_of_files, elem_of_leaves. }
    destruct (CmtTree.Get t (Rel p)) as [|l k q h i r]; [by rewrite Ct in C|].
    destruct C as [_ C]. rewrite Ct in C. injection C as <-. by repeat eexists.
  - intros key N. pose proof (Get_contents t key O) as C.
    destruct (CmtTree.Get t key) as [|l k q h i r]; [done|]. destruct C as [_ C].
    apply elem_of_contents in C; [|done]. apply K in C.
    apply list_elem_of_fmap in C as ([p f] & [= -> _] & Hp). apply elem_of_files, elem_of_leaves in Hp. by exists p, f.
Qed.

(** A small project: two files, one hidden and one without permission to read. *)
Definition a_file (text : string) : file_data := mkFile (str_bytes text) 5 420.
Definition project : dir_entry :=
  Dir "app" [Dir ".git" [File "HEAD" (Some (a_file "ref"))] false; File "a.go" (Some (a_file "package a"));
    File "secret" None; Dir "sub" [File "b.go" (Some (a_file "package b"))] true] false.

Lemma project_well_named : well_named project.
Proof.
  repeat first [constructor | by apply bool_decide_eq_true; vm_compute; reflexivity];
    unfold no_slash; apply (bool_decide_eq_true_1 _); vm_compute; reflexivity.
Qed.

Lemma filesystem_recovery_exact_witness :
  exists t n', RecoverFromFilesystem id no_ctx 0 (Some project) = ((t, n'), None) /\
    CmtTree.Get t "sub/b.go" <> Nil /\ VerifySubtree t = (true, []).
Proof.
  destruct (filesystem_recovery_exact id 0 "app" _ false project_well_named eq_refl) as (t & n' & R & V & F & _).
  exists t, n'. split_and!; [exact R| |exact V].
  destruct (F ["sub"; "b.go"] (a_file "package b")) as (l & k & q & h & r & E).
  - change ["sub"; "b.go"] with (Name (Dir "sub" [File "b.go" (Some (a_file "package b"))] true) :: ["b.go"]).
    apply at_dir; [set_solver|done|].
    change ["b.go"] with (Name (File "b.go" (Some (a_file "package b"))) :: []).
    apply at_dir; [set_solver|done|constructor].
  - change (Rel _) with "sub/b.go" in E. rewrite E. discriminate.
Defined.

(* ------------------------------------------------------------------ *)
(** ** Replaying a log *)

(** Every insertion is of a path the manifest does not hold at that point. *)
Fixpoint fresh (shake128 : bytes -> bytes) (c : Cmt.CMT) (es : list WALEntry) : Prop :=
  match es with
  | [] => True
  | e :: es =>
    (Op e = WALOpInsert -> EInfo e <> None /\ Cmt.keyExists c (EKey e) = false) /\
    fresh shake128 (Cmt.replayEntry shake128 c e) es
  end.

Lemma replayLoop_fresh shake128 n es c :
  fresh shake128 c es ->
  replayLoop shake128 no_ctx n es (Cmt.root c) = (Cmt.root (Cmt.replayEntries shake128 c es), None).
Proof.
  revert n c. induction es as [|e es IH]; intros n c F; [done|]. destruct F as [Fe F].
  etransitivity; [|exact (IH (S n) _ F)]. cbn [replayLoop]. unfold no_ctx at 1. f_equal.
  unfold applyWALEntry, Cmt.replayEntry.
  destruct (Byte.eqb (Op e) WALOpInsert) eqn:E; [|destruct (Byte.eqb (Op e) WALOpDelete); reflexivity].
  apply Byte.byte_dec_bl in E. destruct (Fe E) as [N K]. unfold applyInsert, Cmt.insertInternal. rewrite K.
  by destruct (EInfo e) as [[]|].
Qed.

(** Replaying a log in which no insertion is of a path that is present gives
    the tree that [CMT.Recover] gives for the same log. *)
Theorem wal_recovery_agrees shake128 w es :
  CmtWal.Recover w = Some (Ok es) -> fresh shake128 (Cmt.NewCMTWithWAL w) es ->
  exists c, Cmt.Recover shake128 (Cmt.NewCMTWithWAL w) = Some (c, None) /\
    replayWALEntries shake128 no_ctx w = Some (Cmt.root c, None).
Proof.
  intros R F. eexists. unfold Cmt.Recover, replayWALEntries. cbn [Cmt.wal Cmt.NewCMTWithWAL]. rewrite R.
  split; [reflexivity|]. cbn [fmap option_fmap option_map]. f_equal.
  by apply (replayLoop_fresh shake128 0 es (Cmt.NewCMTWithWAL w)).
Qed.

Definition log_of (calls : list Cmt.call) : WAL :=
  Cmt.wal (Cmt.exec_all id (Cmt.NewCMTWithWAL Cmt.open_wal) (pair (Cmt.at_ 1) <$> calls)).

(** A log whose insertions are fresh. *)
Definition fresh_log : WAL :=
  log_of [Cmt.CInsert "f" (Some Cmt.info_a); Cmt.CDelete "f"; Cmt.CInsert "f" (Some Cmt.info_b)].

Definition tree_size (r : option (Cmt.CMT * option wal_error)) : Z :=
  match r with Some (c, _) => NodeSize (Cmt.root c) | None => 0 end.

Lemma wal_recovery_agrees_witness : exists t,
  replayWALEntries id no_ctx fresh_log = Some (t, None) /\ NodeSize t = 1.
Proof.
  destruct (wal_recovery_agrees id fresh_log (stored <$> Cmt.call_entries (pair (Cmt.at_ 1) <$>
    [Cmt.CInsert "f" (Some Cmt.info_a); Cmt.CDelete "f"; Cmt.CInsert "f" (Some Cmt.info_b)]))) as (c & R & E).
  - vm_compute. reflexivity.
  - cbn [fresh fmap list_fmap]. repeat split; try discriminate; vm_compute; reflexivity.
  - exists (Cmt.root c). split; [exact E|]. apply (f_equal tree_size) in R.
    transitivity (tree_size (Cmt.Recover id (Cmt.NewCMTWithWAL fresh_log))); [by rewrite R|].
    vm_compute. reflexivity.
Defined.

(** After an update of a file the replay differs from the manifest:
    [applyInsert] does not remove the old node, so the tree has two nodes for
    the path and counts two files; and a deletion that follows removes one of
    them, so that the deleted file is still there. *)
Theorem wal_recovery_resurrects :
  let twice := [Cmt.CInsert "f" (Some Cmt.info_a); Cmt.CInsert "f" (Some Cmt.info_b)] in
  let recovered calls := replayWALEntries id no_ctx (log_of calls) in
  (exists t, recovered twice = Some (t, None) /\ keys t = ["f"; "f"] /\
    FilesRecovered (Recover 0 (t, None) (Nil, None) (Nil, None)).2 = 2) /\
  (exists t, recovered (twice ++ [Cmt.CDelete "f"]) = Some (t, None) /\ keys t = ["f"]) /\
  (exists c, Cmt.Recover id (Cmt.NewCMTWithWAL (log_of (twice ++ [Cmt.CDelete "f"]))) = Some (c, None) /\
    Cmt.Size c = 0).
Proof.
  cbn zeta. split; [|split].
  - eexists. split; [vm_compute; reflexivity|]. split; vm_compute; reflexivity.
  - eexists. split; vm_compute; reflexivity.
  - eexists. split; vm_compute; reflexivity.
Qed.

(* ------------------------------------------------------------------ *)
(** ** The outcome of a recovery *)

(** The outcome of [Recover] from those of its sources: the log when it
    gives a tree, else the file system when it gives no error, else git when
    it gives none, with the errors of the sources before; it fails only when
    the file system and git both fail, and then reports all errors. *)
Theorem recover_prefers wal fs git now :
  let errs (a : Node * option recovery_error) := option_list a.2 in
  Recover now wal fs git =
    match wal, fs.2, git.2 with
    | (Tree _ _ _ _ _ _ as t, None), _, _ => (t, mkResult true RecoverySourceWAL now (countNodes t) [])
    | _, None, _ => (fs.1, mkResult true RecoverySourceFilesystem now (countNodes fs.1) (errs wal))
    | _, _, None => (git.1, mkResult true RecoverySourceGit now (countNodes git.1) (errs wal ++ errs fs))
    | _, _, _ => (Nil, mkResult false RecoverySourceWAL now 0 (errs wal ++ errs fs ++ errs git))
    end.
Proof.
  destruct wal as [[] [ew|]], fs as [[] [ef|]], git as [[] [eg|]]; reflexivity.
Qed.

(** A success can be empty-handed: a scan that is cancelled reports the
    files seen so far as a complete recovery, and a scan from a root whose
    own name starts with a dot, such as [.], skips everything below it. *)
Theorem scan_incomplete :
  let cancelled n := match n with O => None | S _ => Some ErrCanceled end in
  let dot := Dir "." [File "a.go" (Some (a_file "package a"))] false in
  let outcome ctx disk := Recover 0 (Nil, Some ErrNotExist)
    (let r := RecoverFromFilesystem id ctx 0 (Some disk) in (r.1.1, r.2)) (Nil, None) in
  (exists p f, at_path project p f) /\
  outcome cancelled project = (Nil, mkResult true RecoverySourceFilesystem 0 0 [ErrNotExist]) /\
  (exists p f, at_path dot p f) /\
  outcome no_ctx dot = (Nil, mkResult true RecoverySourceFilesystem 0 0 [ErrNotExist]).
Proof.
  split_and!; [|reflexivity| |reflexivity].
  - exists [Name (File "a.go" (Some (a_file "package a")))], (a_file "package a").
    apply at_dir; [set_solver|done|constructor].
  - exists [Name (File "a.go" (Some (a_file "package a")))], (a_file "package a").
    apply at_dir; [set_solver|done|constructor].
Qed.
End CmtRecovery.
