(* ===== verification/CmtIntegrity.v ===== *)
(** * Comparing a tree with the disk (core/search/cmt/integrity.go)

    [IntegrityChecker.Check] checks every file of the tree against the disk,
    with a pool of workers that share a channel of work; then it walks the
    disk for files that the tree does not have and verifies the hashes of the
    nodes.  The pool is a transition system ([step]) over its channels; the
    walk goes on with the context that the pool left ([walk_ctx]); the disk
    does not change during a check. *)

From S2P Require Import Prelude GoStd Ids CmtRecovery.
Import CmtTree.

Module CmtIntegrity.
Import CmtRecovery.

Inductive IssueType := IssueMissing | IssueExtra | IssueModified | IssueMerkleHash.

Record IntegrityIssue := mkIssue { Type_ : IssueType; Path : string; Details : string }.

#[global] Instance IssueType_eq_dec : EqDecision IssueType.
Proof. solve_decision. Defined.
#[global] Instance IntegrityIssue_eq_dec : EqDecision IntegrityIssue.
Proof. solve_decision. Defined.

Record IntegrityReport := mkReport {
  Valid : bool;
  TotalFiles : Z;
  Issues : list IntegrityIssue;
  CheckedAt : Z;
  Duration : Z
}.

(** The root path is not part of the record: paths are below it. *)
Record IntegrityChecker := mkChecker { root : Node; workers : Z }.

Definition NewIntegrityChecker (root : Node) (workers NumCPU : Z) : IntegrityChecker :=
  mkChecker root (if workers <=? 0 then NumCPU else workers).

(** [integrityWorkItem] *)
Abbreviation item := (string * FileInfo)%type.

(* ------------------------------------------------------------------ *)
(** ** One file *)

(** What [os.Stat] and then reading give for a path; errors by their text. *)
Inductive stat_result :=
| NotExist
| StatError (text : string)
| Directory
| Regular (content : result string bytes).

Section Checker.
(** [os.Stat] of a path below the root. *)
Variable Stat : string -> stat_result.

Definition handleStatError (path : string) (text : option string) : IntegrityIssue :=
  match text with
  | None => mkIssue IssueMissing path "file not found on disk"
  | Some text => mkIssue IssueMissing path text
  end.

Definition computeFileHash (content : result string bytes) : result string Hash :=
  match content with Err e => Err e | Ok b => Ok (sha256 b) end.

(** [None]: the code dereferences a nil [info]. *)
Definition verifyFileHash (path : string) (content : result string bytes) (info : option FileInfo)
  : option (option IntegrityIssue) :=
  match computeFileHash content with
  | Err e => Some (Some (mkIssue IssueModified path ("failed to read file: " ++ e)))
  | Ok currentHash =>
    match info with
    | None => None
    | Some info =>
      if bool_decide (currentHash = ContentHash info) then Some None
      else Some (Some (mkIssue IssueModified path "content hash mismatch"))
    end
  end.

Definition checkSingleFile (path : string) (info : option FileInfo) : option (option IntegrityIssue) :=
  match Stat path with
  | NotExist => Some (Some (handleStatError path None))
  | StatError text => Some (Some (handleStatError path (Some text)))
  | Directory => Some None
  | Regular content => verifyFileHash path content info
  end.

(** [ctxErr]: the answer of [ctx.Err]. *)
Definition CheckFile (c : IntegrityChecker) (ctxErr : option recovery_error) (path : string)
  : option (option IntegrityIssue * option recovery_error) :=
  match ctxErr with
  | Some e => Some (None, Some e)
  | None =>
    match CmtTree.Get (root c) path with
    | Nil => Some (None, None)
    | Tree _ _ _ _ info _ => (fun i => (i, None)) <$> checkSingleFile path info
    end
  end.

(* ------------------------------------------------------------------ *)
(** ** The pool *)

Inductive worker :=
| Idle                    (* at the receive of the loop *)
| Holds (x : item)        (* about to call [ctx.Err] *)
| Checks (x : item)       (* checking the file and sending the result *)
| Gone.

(** [cap]: the capacity of [results]; [canceled]: what [ctx.Err] gives. *)
Record pool := mkPool {
  work : list item;
  crew : list worker;
  cap : nat;
  results : list (option IntegrityIssue);
  closed : bool;
  errChan : option recovery_error;
  issues : list IntegrityIssue;
  collected : bool;
  canceled : option recovery_error
}.

(** The channel of work holds every item, in the order of the map, and is
    closed. *)
Definition createWorkChannel `{RangeOrder} (paths : gmap string FileInfo) : list item := range_map 0 paths.

Definition startWorkers (n : nat) (ctxErr : option recovery_error) (queue : list item) : pool :=
  mkPool queue (replicate n Idle) (length queue) [] false None [] false ctxErr.

(** [checkFilesParallel] begins with this pool and returns its [outcome]. *)
Definition checkFilesParallel `{RangeOrder} (c : IntegrityChecker) (ctxErr : option recovery_error)
    (paths : gmap string FileInfo) : pool :=
  startWorkers (Z.to_nat (workers c)) ctxErr (createWorkChannel paths).

Definition set_crew (s : pool) (i : nat) (x : worker) : pool :=
  mkPool (work s) (<[i := x]> (crew s)) (cap s) (results s) (closed s) (errChan s) (issues s) (collected s) (canceled s).
Definition set_work (s : pool) (w : list item) : pool :=
  mkPool w (crew s) (cap s) (results s) (closed s) (errChan s) (issues s) (collected s) (canceled s).
Definition set_results (s : pool) (r : list (option IntegrityIssue)) : pool :=
  mkPool (work s) (crew s) (cap s) r (closed s) (errChan s) (issues s) (collected s) (canceled s).

(** A send to a channel of capacity one that gives up when it is full. *)
Definition sendError (s : pool) (e : recovery_error) : pool :=
  mkPool (work s) (crew s) (cap s) (results s) (closed s)
    (match errChan s with None => Some e | Some _ => errChan s end) (issues s) (collected s) (canceled s).

Inductive label :=
| Receive (i : nat)       (* a worker at the head of its loop *)
| AskCtx (i : nat)        (* it calls [ctx.Err] *)
| Send (i : nat)          (* it sends the result of its file *)
| CloseResults            (* the goroutine that waits for the workers *)
| Collect                 (* an iteration of [collectResults] *)
| Cancel (e : recovery_error).

Definition step (s : pool) (l : label) : option pool :=
  match l with
  | Receive i =>
    match crew s !! i, work s with
    | Some Idle, x :: w => Some (set_crew (set_work s w) i (Holds x))
    | Some Idle, [] => Some (set_crew s i Gone)
    | _, _ => None
    end
  | AskCtx i =>
    match crew s !! i with
    | Some (Holds x) =>
      match canceled s with
      | Some e => Some (set_crew (sendError s e) i Gone)
      | None => Some (set_crew s i (Checks x))
      end
    | _ => None
    end
  | Send i =>
    match crew s !! i with
    | Some (Checks x) =>
      if (length (results s) <? cap s)%nat then
        match checkSingleFile x.1 (Some x.2) with
        | Some r => Some (set_crew (set_results s (results s ++ [r])) i Idle)
        | None => None
        end
      else None
    | _ => None
    end
  | CloseResults =>
    if closed s then None
    else if forallb (fun w => match w with Gone => true | _ => false end) (crew s)
    then Some (mkPool (work s) (crew s) (cap s) (results s) true (errChan s) (issues s) (collected s) (canceled s))
    else None
  | Collect =>
    if collected s then None
    else match results s with
      | r :: rs => Some (mkPool (work s) (crew s) (cap s) rs (closed s) (errChan s)
          (issues s ++ option_list r) (collected s) (canceled s))
      | [] => if closed s
        then Some (mkPool (work s) (crew s) (cap s) [] true (errChan s) (issues s) true (canceled s))
        else None
      end
  | Cancel e =>
    match canceled s with
    | Some _ => None
    | None => Some (mkPool (work s) (crew s) (cap s) (results s) (closed s) (errChan s) (issues s) (collected s) (Some e))
    end
  end.

Fixpoint run (s : pool) (ls : list label) : option pool :=
  match ls with [] => Some s | l :: ls => s' ← step s l; run s' ls end.

(** It returns when the results are collected. *)
Definition outcome (s : pool) : option (list IntegrityIssue * option recovery_error) :=
  if collected s then Some (issues s, errChan s) else None.
End Checker.

(* ------------------------------------------------------------------ *)
(** ** The whole check *)

Fixpoint collectPathsRecursive (node : Node) (paths : gmap string FileInfo) : gmap string FileInfo :=
  match node with
  | Nil => paths
  | Tree l key _ _ info r =>
    let paths := match info with Some info => <[key := info]> paths | None => paths end in
    collectPathsRecursive r (collectPathsRecursive l paths)
  end.

Definition collectTreePaths (c : IntegrityChecker) : gmap string FileInfo :=
  collectPathsRecursive (root c) ∅.

Definition recordExtraFile (treePaths : gmap string FileInfo) (relPath : string)
    (issues : list IntegrityIssue) : list IntegrityIssue :=
  match treePaths !! relPath with
  | Some _ => issues
  | None => issues ++ [mkIssue IssueExtra relPath "file not tracked in tree"]
  end.

Definition checkIfExtraFile (treePaths : gmap string FileInfo) (path : list string) (d : dir_entry)
    (issues : list IntegrityIssue) : list IntegrityIssue * option walk_error :=
  if isHidden (Name d) then (issues, skipHiddenEntry d)
  else if IsDir d then (issues, None)
  else (recordExtraFile treePaths (Rel path) issues, None).

(** The state of the walk: the issues and the number of calls of [ctx.Err]. *)
Definition processExtraFilesEntry (ctx : nat -> option recovery_error) (treePaths : gmap string FileInfo)
    (path : list string) (d : dir_entry) (failed : bool) (s : list IntegrityIssue * nat)
  : (list IntegrityIssue * nat) * option walk_error :=
  if failed then (s, None)
  else match ctx s.2 with
    | Some e => ((s.1, S s.2), Some (WalkErr e))
    | None => let '(issues, e) := checkIfExtraFile treePaths path d s.1 in ((issues, S s.2), e)
    end.

Definition filterContextError (e : option walk_error) : option recovery_error :=
  match e with
  | Some (WalkErr ErrCanceled) | Some (WalkErr ErrDeadlineExceeded) | None => None
  | Some (WalkErr e) => Some e
  | Some SkipDir => Some ErrOther
  end.

(** [disk] is the root path: [None] when it cannot be read, and the callback
    then ignores the error. *)
Definition findExtraFiles (ctx : nat -> option recovery_error) (disk : option dir_entry)
    (treePaths : gmap string FileInfo) : list IntegrityIssue * option recovery_error :=
  match disk with
  | None => ([], None)
  | Some d =>
    let '((issues, _), e) := WalkDir (processExtraFilesEntry ctx treePaths) d ([], O) in
    (issues, filterContextError e)
  end.

Fixpoint checkMerkleRecursive (node : Node) (issues : list IntegrityIssue) : list IntegrityIssue :=
  match node with
  | Nil => issues
  | Tree l key _ _ _ r =>
    let issues := checkMerkleRecursive r (checkMerkleRecursive l issues) in
    if VerifyNodeHash node then issues else issues ++ [mkIssue IssueMerkleHash key "merkle hash mismatch"]
  end.

Definition checkMerkleHashes (c : IntegrityChecker) : list IntegrityIssue := checkMerkleRecursive (root c) [].

(** The context during the walk, by the number of calls of [ctx.Err]: canceled
    if the pool left it so, or else from the call that [later] names. *)
Definition walk_ctx (s : pool) (later : option (nat * recovery_error)) (n : nat) : option recovery_error :=
  match canceled s, later with
  | Some e, _ => Some e
  | None, Some (k, e) => if (k <=? n)%nat then Some e else None
  | None, None => None
  end.

(** [files]: what [checkFilesParallel] returns. *)
Definition gatherAllIssues (c : IntegrityChecker) (files : list IntegrityIssue * option recovery_error)
    (ctx : nat -> option recovery_error) (disk : option dir_entry) (treePaths : gmap string FileInfo)
  : result recovery_error (list IntegrityIssue) :=
  match files with
  | (_, Some e) => Err e
  | (fileIssues, None) =>
    match findExtraFiles ctx disk treePaths with
    | (_, Some e) => Err e
    | (extraIssues, None) => Ok (fileIssues ++ extraIssues ++ checkMerkleHashes c)
    end
  end.

Definition initReport (start : Z) : IntegrityReport := mkReport true 0 [] start 0.

Definition finalizeReport (report : IntegrityReport) (took : Z) : IntegrityReport :=
  mkReport (len (Issues report) =? 0) (TotalFiles report) (Issues report) (CheckedAt report) took.

(** The check with [s], the state of its pool; [None] while the pool has no
    result.  Pool and walk have one context. *)
Definition Check_ (c : IntegrityChecker) (start took : Z) (s : pool) (later : option (nat * recovery_error))
    (disk : option dir_entry) : option (result recovery_error IntegrityReport) :=
  let report := initReport start in
  match root c with
  | Nil => Some (Ok (finalizeReport report took))
  | _ =>
    let treePaths := collectTreePaths c in
    files ← outcome s;
    Some (match gatherAllIssues c files (walk_ctx s later) disk treePaths with
      | Err e => Err e
      | Ok issues =>
        Ok (finalizeReport (mkReport (Valid report) (len (map_to_list treePaths)) issues (CheckedAt report)
          (Duration report)) took)
      end)
  end.

(* ------------------------------------------------------------------ *)
(** ** What the pool returns *)

Section Exact.
Variable Stat : string -> stat_result.
Abbreviation step := (step Stat).
Abbreviation run := (run Stat).

(** The issues of one file of the tree. *)
Definition verdict (x : item) : list IntegrityIssue :=
  match checkSingleFile Stat x.1 (Some x.2) with Some (Some i) => [i] | _ => [] end.

Lemma checkSingleFile_some path info :
  exists r, checkSingleFile Stat path (Some info) = Some r /\ option_list r = verdict (path, info).
Proof.
  unfold verdict, checkSingleFile, verifyFileHash. cbn [fst snd].
  destruct (Stat path) as [| | |[]]; cbn [computeFileHash];
    try (by eexists; split; [reflexivity|]); case_bool_decide; by eexists.
Qed.

Definition held (w : worker) : list item := match w with Holds x | Checks x => [x] | _ => [] end.

(** The steps a worker has before its next receive, that one and the sends to
    the collector included. *)
Definition steps_left (w : worker) : nat :=
  match w with Idle => 1 | Holds _ => 4 | Checks _ => 3 | Gone => 0 end.
Definition measure (s : pool) : nat :=
  4 * length (work s) + sum_list_with steps_left (crew s) + length (results s) +
  Nat.b2n (negb (closed s)) + Nat.b2n (negb (collected s)) +
  (if canceled s is Some _ then 0 else 1).

Lemma crew_split (ws : list worker) i w : ws !! i = Some w ->
  exists l1 l2, ws = l1 ++ w :: l2 /\ forall w', <[i := w']> ws = l1 ++ w' :: l2.
Proof.
  intros H. exists (take i ws), (drop (S i) ws). split; [by symmetry; apply take_drop_middle|].
  intros w'. apply insert_take_drop. by eapply lookup_lt_Some.
Qed.

(** Every step makes the measure smaller. *)
Lemma step_measure s l s' : step s l = Some s' -> (measure s' < measure s)%nat.
Proof.
  destruct l as [i|i|i| | |e]; cbn [CmtIntegrity.step].
  1-3: destruct (crew s !! i) as [w|] eqn:E; [|done]; apply crew_split in E as (l1 & l2 & E & I);
    destruct w as [|x|x|]; try done.
  - destruct (work s) as [|y ys] eqn:W; intros [= <-]; unfold measure; cbn; rewrite I, E, W, !sum_list_with_app;
      cbn [sum_list_with steps_left length]; lia.
  - destruct (canceled s) eqn:C; intros [= <-]; unfold measure; cbn; rewrite I, E, C, !sum_list_with_app;
      cbn [sum_list_with steps_left]; lia.
  - destruct (_ <? _)%nat; [|done]. destruct (checkSingleFile _ _ _); [|done]. intros [= <-]. unfold measure.
    cbn. rewrite I, E, !sum_list_with_app, length_app. cbn [sum_list_with steps_left length]. lia.
  - destruct (closed s) eqn:C; [done|]. destruct (forallb _ _); [|done]. intros [= <-]. unfold measure. cbn.
    rewrite C. cbn. lia.
  - destruct (collected s) eqn:C; [done|]. destruct (results s) eqn:R; [destruct (closed s) eqn:Cl; [|done]|];
      intros [= <-]; unfold measure; cbn; rewrite ?C, ?R, ?Cl; cbn; lia.
  - destruct (canceled s) eqn:C; [done|]. intros [= <-]. unfold measure. cbn. rewrite C. cbn. lia.
Qed.

Lemma run_measure ls s s' : run s ls = Some s' -> (length ls + measure s' <= measure s)%nat.
Proof.
  revert s. induction ls as [|l ls IH]; intros s; cbn [CmtIntegrity.run length]; [intros [= ->]; lia|].
  intros (s1 & H & R)%bind_Some. apply step_measure in H. apply IH in R. lia.
Qed.

(** The files done and those that a canceled worker dropped, with what the
    pool still has, are the files of the tree. *)
Record inv (W : list item) (s : pool) : Prop := {
  inv_items : exists did lost,
    did ++ lost ++ (crew s ≫= held) ++ work s ≡ₚ W /\ (lost <> [] -> errChan s <> None) /\
    issues s ++ (results s ≫= option_list) ≡ₚ did ≫= verdict /\ (length (results s) <= length did)%nat;
  inv_cap : cap s = length W;
  inv_err : forall e, errChan s = Some e -> canceled s = Some e;
  inv_gone : Gone ∈ crew s -> work s = [] \/ errChan s <> None;
  inv_closed : closed s = true -> Forall (eq Gone) (crew s);
  inv_collected : collected s = true -> closed s = true /\ results s = [];
  inv_crew : crew s <> []
}.

Lemma inv_start n ctxErr W : (0 < n)%nat -> inv W (startWorkers n ctxErr W).
Proof.
  intros N. split; try done; cbn.
  - exists [], []. cbn. split_and!; try done. induction n as [|[|n] IH]; [lia|done|]. apply IH. lia.
  - intros H%elem_of_replicate. by destruct H.
  - by destruct n; [lia|].
Qed.

(** A worker that is not gone keeps the results open. *)
Lemma not_closed W s i w : inv W s -> crew s !! i = Some w -> w <> Gone -> closed s = false /\ collected s = false.
Proof.
  intros I E N. assert (closed s = false).
  { destruct (closed s) eqn:C; [|done]. pose proof (inv_closed _ _ I C) as F. rewrite Forall_lookup in F.
    by destruct N; symmetry; eapply F. }
  split; [done|]. destruct (collected s) eqn:C; [|done]. apply (inv_collected _ _ I) in C as [? _]. congruence.
Qed.

Lemma crew_held ws l1 l2 (w : worker) : ws = l1 ++ w :: l2 -> ws ≫= held ≡ₚ held w ++ (l1 ++ l2) ≫= held.
Proof. intros ->. rewrite !bind_app, bind_cons. solve_Permutation. Qed.

Lemma still_gone l1 l2 (w w' : worker) : w' <> Gone -> Gone ∈ l1 ++ w' :: l2 -> Gone ∈ l1 ++ w :: l2.
Proof. rewrite !elem_of_app, !elem_of_cons. intros N [?|[?|?]]; [by left|by destruct N|by right; right]. Qed.

Lemma receive_inv W s s' i : inv W s -> step s (Receive i) = Some s' -> inv W s'.
Proof.
  intros V. cbn [CmtIntegrity.step]. destruct (crew s !! i) as [[]|] eqn:E; try done.
  destruct (not_closed W s i _ V E ltac:(done)) as [C1 C2].
  destruct (crew_split _ _ _ E) as (l1 & l2 & Ec & I). destruct V as [Hi Hc He Hg Hcl Hco Hn].
  destruct Hi as (did & lost & P & L & R & Len). rewrite (crew_held _ _ _ _ Ec) in P.
  destruct (work s) as [|x ys] eqn:Ew; intros [= <-]; split; cbn; rewrite ?I; try done; try congruence.
  - exists did, lost. rewrite (crew_held _ l1 l2 Gone eq_refl), Ew. done.
  - intros _. rewrite Ew. by left.
  - by destruct l1.
  - exists did, lost. rewrite (crew_held _ l1 l2 (Holds x) eq_refl). split_and!; try done.
    rewrite <- P. cbn. solve_Permutation.
  - intros G. rewrite Ec in Hg. apply (still_gone _ _ Idle) in G; [|done]. destruct (Hg G); [done|by right].
  - by destruct l1.
Qed.

Lemma ask_inv W s s' i : inv W s -> step s (AskCtx i) = Some s' -> inv W s'.
Proof.
  intros V. cbn [CmtIntegrity.step]. destruct (crew s !! i) as [[|x| |]|] eqn:E; try done.
  destruct (not_closed W s i _ V E ltac:(done)) as [C1 C2].
  destruct (crew_split _ _ _ E) as (l1 & l2 & Ec & I). destruct V as [Hi Hc He Hg Hcl Hco Hn].
  destruct Hi as (did & lost & P & L & R & Len). rewrite (crew_held _ _ _ _ Ec) in P.
  destruct (canceled s) as [e|] eqn:Ca; intros [= <-]; split; cbn; rewrite ?I; try done; try congruence.
  - exists did, (x :: lost). rewrite (crew_held _ l1 l2 Gone eq_refl). split_and!; try done.
    + rewrite <- P. cbn. solve_Permutation.
    + by destruct (errChan s).
  - intros e'. destruct (errChan s) eqn:Er; [|congruence]. intros [= ->]. rewrite Ca. by apply He.
  - intros _. right. by destruct (errChan s).
  - by destruct l1.
  - exists did, lost. by rewrite (crew_held _ l1 l2 (Checks x) eq_refl).
  - by rewrite Ca.
  - rewrite Ec in Hg. intros G. by apply Hg, (still_gone _ _ _ (Checks x)).
  - by destruct l1.
Qed.

Lemma send_inv W s s' i : inv W s -> step s (Send i) = Some s' -> inv W s'.
Proof.
  intros V. cbn [CmtIntegrity.step]. destruct (crew s !! i) as [[| |[p f]|]|] eqn:E; try done.
  destruct (not_closed W s i _ V E ltac:(done)) as [C1 C2].
  destruct (crew_split _ _ _ E) as (l1 & l2 & Ec & I). destruct V as [Hi Hc He Hg Hcl Hco Hn].
  destruct Hi as (did & lost & P & L & R & Len). rewrite (crew_held _ _ _ _ Ec) in P.
  destruct (_ <? _)%nat; [|done]. cbn [fst snd]. destruct (checkSingleFile_some p f) as (r & -> & Hr).
  intros [= <-]; split; cbn; rewrite ?I; try done; try congruence.
  - exists (did ++ [(p, f)]), lost. rewrite (crew_held _ l1 l2 Idle eq_refl), !bind_app, !length_app.
    split_and!; try done.
    + rewrite bind_app in P. rewrite <- P. cbn. solve_Permutation.
    + rewrite app_assoc, R. cbn. by rewrite !app_nil_r, Hr.
    + cbn. lia.
  - rewrite Ec in Hg. intros G. by apply Hg, (still_gone _ _ _ Idle).
  - by destruct l1.
Qed.

Lemma all_gone ws : forallb (fun w => match w with Gone => true | _ => false end) ws = true <-> Forall (eq Gone) ws.
Proof.
  rewrite forallb_forall, Forall_forall. setoid_rewrite list_elem_of_In.
  split; intros H x Hx; specialize (H x Hx); by destruct x.
Qed.

Lemma step_inv W s l s' : inv W s -> step s l = Some s' -> inv W s'.
Proof.
  intros V. destruct l as [i|i|i| | |e]; [by apply receive_inv|by apply ask_inv|by apply send_inv|..];
    cbn [CmtIntegrity.step]; destruct V as [Hi Hc He Hg Hcl Hco Hn].
  - destruct (closed s) eqn:C; [done|]. destruct (forallb _ _) eqn:F; [|done]. apply all_gone in F.
    intros [= <-]. split; try done. cbn. intros D. by apply Hco in D as [? ?].
  - destruct (collected s) eqn:D; [done|]. destruct (results s) as [|r rs] eqn:R.
    + destruct (closed s) eqn:C; [|done]. intros [= <-]. split; try done; cbn; by rewrite ?R in *.
    + intros [= <-]. split; try done. destruct Hi as (did & lost & P & L & Q & Len). exists did, lost.
      split_and!; try done; cbn in *; [|lia]. by rewrite <- app_assoc.
  - destruct (canceled s) eqn:C; [done|]. intros [= <-]. split; try done. cbn. intros e' H%He. congruence.
Qed.

Lemma run_inv W ls s s' : inv W s -> run s ls = Some s' -> inv W s'.
Proof.
  revert s. induction ls as [|l ls IH]; intros s I; cbn [CmtIntegrity.run]; [by intros [= <-]|].
  intros (s1 & H & R)%bind_Some. apply (IH s1); [|done]. by eapply step_inv.
Qed.

(** A pool that has not finished can move. *)
Lemma pool_moves W s : inv W s -> collected s = false -> exists l s', (forall e, l <> Cancel e) /\ step s l = Some s'.
Proof.
  intros V C. destruct (closed s) eqn:Cl.
  { exists Collect. cbn [CmtIntegrity.step]. rewrite C, Cl. destruct (results s); by eexists. }
  destruct (forallb (fun w => match w with Gone => true | _ => false end) (crew s)) eqn:F.
  { exists CloseResults. cbn [CmtIntegrity.step]. rewrite Cl, F. by eexists. }
  destruct (forallb_exists_false _ _ F) as (w & Hw & Gw). apply list_elem_of_lookup in Hw as [i E].
  destruct w as [|x|[p f]|]; [..|done].
  - exists (Receive i). cbn [CmtIntegrity.step]. rewrite E. destruct (work s); by eexists.
  - exists (AskCtx i). cbn [CmtIntegrity.step]. rewrite E. destruct (canceled s); by eexists.
  - exists (Send i). cbn [CmtIntegrity.step]. rewrite E. cbn [fst snd].
    destruct (checkSingleFile_some p f) as (r & -> & _). destruct (Nat.ltb_spec (length (results s)) (cap s)) as [|L]; [by eexists|].
    exfalso. destruct (inv_items _ _ V) as (did & lost & P & _ & _ & Len). destruct (crew_split _ _ _ E) as (l1 & l2 & Ec & _).
    rewrite (crew_held _ _ _ _ Ec) in P. apply Permutation_length in P. rewrite (inv_cap _ _ V) in L.
    rewrite !length_app in P. cbn in P. lia.
Qed.

(** The pool, whatever the interleaving of its workers, of the collector and
    of a cancellation: it cannot run for ever nor stop before its result, and
    the result is the issues of all the files, each checked once, or the error
    of the context. *)
Theorem pool_exact n ctxErr W ls s :
  (0 < n)%nat -> run (startWorkers n ctxErr W) ls = Some s ->
  (length ls <= 4 * length W + n + 3)%nat /\
  match outcome s with
  | None => exists l s', (forall e, l <> Cancel e) /\ step s l = Some s'
  | Some (issues, None) => issues ≡ₚ W ≫= verdict
  | Some (_, Some e) => canceled s = Some e
  end.
Proof.
  intros N R. pose proof (run_inv _ _ _ _ (inv_start n ctxErr W N) R) as V. split.
  - apply run_measure in R. revert R. unfold measure at 2. cbn.
    assert (sum_list_with steps_left (replicate n Idle) = n) as -> by (clear; induction n; cbn; lia).
    destruct ctxErr; lia.
  - unfold outcome. destruct (collected s) eqn:C; [|by eapply pool_moves].
    destruct (errChan s) as [e|] eqn:E; [by eapply inv_err|].
    destruct (inv_collected _ _ V C) as [Cl R0]. pose proof (inv_closed _ _ V Cl) as F.
    destruct (inv_items _ _ V) as (did & lost & P & L & Q & _). rewrite R0 in Q. cbn in Q. rewrite app_nil_r in Q.
    assert (lost = []) as -> by (destruct lost; [done|by destruct L]).
    assert (crew s ≫= held = []) as H by (clear -F; induction F as [|w ws <- F IH]; [done|exact IH]).
    assert (work s = []) as Ew.
    { destruct (inv_gone _ _ V) as [|]; [|done|done]. pose proof (inv_crew _ _ V). destruct F as [|w ws <- F]; [done|left]. }
    rewrite H, Ew in P. cbn in P. rewrite app_nil_r in P. by rewrite Q, P.
Qed.
End Exact.

(* ------------------------------------------------------------------ *)
(** ** The files of the tree, the untracked files and the hashes *)

(** The files of the tree: the nodes that have information. *)
Definition tracked (t : Node) : gmap string FileInfo := omap id (contents t).

Lemma collect_lookup t m k : NoDup (keys t) ->
  collectPathsRecursive t m !! k =
    match contents t !! k with Some (Some i) => Some i | _ => m !! k end.
Proof.
  unfold keys, contents. revert m. induction t as [|l IHl k0 p h i r IHr]; intros m N; [done|].
  cbn [entries collectPathsRecursive] in *. rewrite fmap_app, fmap_cons in N.
  apply NoDup_app in N as (Nl & D & [N0 Nr]%NoDup_cons). rewrite IHr, IHl by done.
  rewrite list_to_map_app, list_to_map_cons, lookup_union. cbn [fst] in *. destruct (decide (k = k0)) as [->|Ne].
  - rewrite lookup_insert_eq, !not_elem_of_list_to_map_1; [|by intros H; destruct (D _ H); left|done].
    destruct i; [by rewrite lookup_insert_eq|done].
  - rewrite lookup_insert_ne by done.
    assert ((if i is Some info then <[k0:=info]> m else m) !! k = m !! k) as ->
      by (destruct i; [by rewrite lookup_insert_ne|done]).
    destruct (list_to_map (entries l) !! k) as [o|] eqn:El.
    + apply elem_of_list_to_map_2, (list_elem_of_fmap_2 fst) in El. rewrite (not_elem_of_list_to_map_1 (entries r)); [by destruct o|].
      intros H. destruct (D _ El). by right.
    + by destruct (list_to_map (entries r) !! k).
Qed.

Lemma collectTreePaths_eq c : ordered (root c) -> collectTreePaths c = tracked (root c).
Proof.
  intros O. apply map_eq. intros k. unfold collectTreePaths, tracked.
  rewrite collect_lookup by by apply ordered_NoDup. rewrite lookup_omap, lookup_empty.
  by destruct (contents (root c) !! k) as [[]|].
Qed.

Definition extra (relPath : string) : IntegrityIssue := mkIssue IssueExtra relPath "file not tracked in tree".
Definition bad_hash (key : string) : IntegrityIssue := mkIssue IssueMerkleHash key "merkle hash mismatch".

(** The entries that a walk visits, in its order: the path of a file that is
    visible, and nothing for a directory or what is hidden. *)
Fixpoint visits_below (path : list string) (d : dir_entry) : list (option string) :=
  if isHidden (Name d) then [None]
  else match d with
    | File _ _ => [Some (Rel path)]
    | Dir _ dirs _ => None :: (dirs ≫= fun d1 => visits_below (path ++ [Name d1]) d1)
    end.
Definition visits (disk : option dir_entry) : list (option string) :=
  match disk with Some d => visits_below [] d | None => [] end.

(** The visible files: below a root that can be read and is not hidden itself. *)
Definition visible (disk : option dir_entry) (p : list string) (f : option file_data) : Prop :=
  match disk with Some d => isHidden (Name d) = false /\ leaf_at d p f | None => False end.

(** The files that the tree does not have, among the entries visited. *)
Definition untracked (t : Node) (visited : list (option string)) : list string :=
  filter (fun k => tracked t !! k = None) (omap id visited).

Lemma visits_leaves path d : omap id (visits_below path d) =
  if isHidden (Name d) then [] else (fun f => Rel (path ++ f.1)) <$> leaves d.
Proof.
  revert path. induction d as [name f|name dirs b IH] using dir_entry_rect'; intros path; cbn [visits_below Name leaves];
    (destruct (isHidden name); [done|]); [cbn; by rewrite app_nil_r|].
  cbn [omap list_omap id]. induction IH as [|d dirs Hd F IHd]; [done|]. rewrite !bind_cons, omap_app, Hd, IHd, fmap_app.
  f_equal. destruct (isHidden (Name d)); [done|]. rewrite <- list_fmap_compose. apply list_fmap_ext. intros ? [p f] _.
  cbn. by rewrite <- app_assoc.
Qed.

Lemma elem_of_visits disk k : k ∈ omap id (visits disk) <-> exists p f, k = Rel p /\ visible disk p f.
Proof.
  destruct disk as [d|]; cbn [visits visible]; [|split; [by intros ?%not_elem_of_nil|naive_solver]].
  rewrite visits_leaves. destruct (isHidden (Name d)); [split; [by intros ?%not_elem_of_nil|naive_solver]|].
  rewrite list_elem_of_fmap. setoid_rewrite <- elem_of_leaves. split.
  - intros ([p f] & -> & Hp). by exists p, f.
  - intros (p & f & -> & _ & Hp). by exists (p, f).
Qed.

(** The walk, over the entries that it visits. *)
Section Walk.
Variable ctx : nat -> option recovery_error.
Variable m : gmap string FileInfo.

Fixpoint walk_list (v : list (option string)) (s : list IntegrityIssue * nat)
  : (list IntegrityIssue * nat) * option walk_error :=
  match v with
  | [] => (s, None)
  | x :: v =>
    match ctx s.2 with
    | Some e => ((s.1, S s.2), Some (WalkErr e))
    | None => walk_list v (match x with Some k => recordExtraFile m k s.1 | None => s.1 end, S s.2)
    end
  end.

Lemma walk_list_app v1 v2 s : walk_list (v1 ++ v2) s =
  match walk_list v1 s with (s', None) => walk_list v2 s' | r => r end.
Proof. revert s. induction v1 as [|x v1 IH]; intros s; [done|]. cbn [app walk_list]. by destruct (ctx s.2). Qed.

Lemma walk_list_skip v s s' : walk_list v s <> (s', Some SkipDir).
Proof. revert s. induction v as [|x v IH]; intros s; [done|]. cbn [walk_list]. by destruct (ctx s.2). Qed.

Lemma walkDir_visits path d s :
  walkDir (processExtraFilesEntry ctx m) path d s = walk_list (visits_below path d) s.
Proof.
  revert path s. induction d as [name f|name dirs b IH] using dir_entry_rect'; intros path s; cbn [walkDir visits_below Name];
    unfold processExtraFilesEntry at 1, checkIfExtraFile; cbn [Name IsDir].
  - destruct (isHidden name); cbn [walk_list]; by destruct (ctx s.2).
  - destruct (isHidden name); cbn [walk_list]; (destruct (ctx s.2); [done|]); [done|].
    assert (E : (if b then processExtraFilesEntry ctx m path (Dir name dirs b) true (s.1, S s.2) else ((s.1, S s.2), None)) =
      ((s.1, S s.2), None)) by by destruct b.
    rewrite E. generalize (s.1, S s.2). clear E s. induction IH as [|d dirs Hd F IHd]; intros s; [done|].
    rewrite bind_cons, walk_list_app, Hd. destruct (walk_list _ s) as [s' [[|e]|]] eqn:W; [by apply walk_list_skip in W|done|apply IHd].
Qed.

Lemma findExtraFiles_visits disk : findExtraFiles ctx disk m =
  let '((issues, _), e) := walk_list (visits disk) ([], O) in (issues, filterContextError e).
Proof.
  destruct disk as [d|]; [|done]. unfold findExtraFiles, WalkDir. rewrite walkDir_visits. cbn [visits].
  destruct (walk_list (visits_below [] d) ([], O)) as [[i n] [[|e]|]] eqn:W; [by apply walk_list_skip in W|done..].
Qed.
End Walk.

(** The entries that the walk visits before it meets the end of the context. *)
Definition visited (s : pool) (later : option (nat * recovery_error)) (disk : option dir_entry)
  : list (option string) :=
  match canceled s, later with
  | Some _, _ => []
  | None, Some (k, _) => take k (visits disk)
  | None, None => visits disk
  end.

(** A context ends with one of these errors. *)
Definition context_ends (s : pool) (later : option (nat * recovery_error)) : Prop :=
  forall n e, walk_ctx s later n = Some e -> e = ErrCanceled \/ e = ErrDeadlineExceeded.

Lemma walk_list_cut s later m v n acc : context_ends s later ->
  exists n' e, walk_list (walk_ctx s later) m v (acc, n) = ((acc ++ (extra <$> filter (fun k => m !! k = None)
    (omap id (match canceled s, later with
      | Some _, _ => [] | None, Some (k, _) => take (k - n) v | None, None => v end))), n'), e) /\
    filterContextError e = None.
Proof.
  intros C. revert n acc. induction v as [|x v IH]; intros n acc; cbn [walk_list fst snd].
  { exists n, None. split; [|done]. destruct (canceled s), later as [[]|]; rewrite ?take_nil; by rewrite app_nil_r. }
  destruct (walk_ctx s later n) as [e|] eqn:E.
  - pose proof (C _ _ E) as Ce. exists (S n), (Some (WalkErr e)). split; [|by destruct Ce as [-> | ->]].
    unfold walk_ctx in E. destruct (canceled s), later as [[k e']|]; try done; try (by rewrite app_nil_r).
    destruct (Nat.leb_spec k n); [|done]. replace (k - n)%nat with O by lia. by rewrite app_nil_r.
  - set (acc' := match x with Some k => recordExtraFile m k acc | None => acc end).
    destruct (IH (S n) acc') as (n' & e & -> & Fe). exists n', e. split; [|done]. f_equal. f_equal.
    assert (Ea : forall w, acc' ++ (extra <$> filter (fun k => m !! k = None) (omap id w)) =
      acc ++ (extra <$> filter (fun k => m !! k = None) (omap id (x :: w)))).
    { intros w. subst acc'. destruct x as [k|]; [|done]. cbn [omap list_omap id]. rewrite filter_cons. unfold recordExtraFile.
      destruct (m !! k) eqn:Ek; case_decide; try congruence. by rewrite <- app_assoc. }
    rewrite Ea. unfold walk_ctx in E. destruct (canceled s), later as [[k e']|]; try done.
    destruct (Nat.leb_spec k n); [done|]. replace (k - n)%nat with (S (k - S n)) by lia. done.
Qed.

Lemma findExtraFiles_eq t s later disk : context_ends s later ->
  findExtraFiles (walk_ctx s later) disk (tracked t) = (extra <$> untracked t (visited s later disk), None).
Proof.
  intros C. rewrite findExtraFiles_visits. destruct (walk_list_cut s later (tracked t) (visits disk) O [] C) as (n' & e & -> & ->).
  unfold visited, untracked. cbn [app]. destruct (canceled s), later as [[k ?]|]; try done. by rewrite Nat.sub_0_r.
Qed.

Lemma checkMerkleRecursive_eq t acc : checkMerkleRecursive t acc = acc ++ (bad_hash <$> wrong t).
Proof.
  revert acc. induction t as [|l IHl k p h i r IHr]; intros acc; [by rewrite app_nil_r|].
  cbn [checkMerkleRecursive wrong]. rewrite IHl, IHr, !fmap_app.
  destruct (VerifyNodeHash _); by rewrite ?app_nil_r, <- ?app_assoc.
Qed.

(* ------------------------------------------------------------------ *)
(** ** The check *)

(** The tree agrees with the disk: the content of every file of the tree is
    the one on disk, unless a directory has taken its place; every visible
    file is in the tree; and the hashes of the nodes are right. *)
Record intact (Stat : string -> stat_result) (t : Node) (disk : option dir_entry) : Prop := {
  intact_files : forall k info, contents t !! k = Some (Some info) ->
    Stat k = Directory \/ exists b, Stat k = Regular (Ok b) /\ sha256 b = ContentHash info;
  intact_tracked : forall p f, visible disk p f -> exists info, contents t !! Rel p = Some (Some info);
  intact_hashes : hashed t
}.

Lemma verdict_nil Stat k info : verdict Stat (k, info) = [] <->
  Stat k = Directory \/ exists b, Stat k = Regular (Ok b) /\ sha256 b = ContentHash info.
Proof.
  unfold verdict, checkSingleFile, verifyFileHash. cbn [fst snd].
  destruct (Stat k) as [| | |[e|b]]; cbn [computeFileHash]; try case_bool_decide as E; naive_solver.
Qed.

Lemma tracked_lookup t k info : tracked t !! k = Some info <-> contents t !! k = Some (Some info).
Proof. unfold tracked. rewrite lookup_omap. destruct (contents t !! k) as [[]|]; naive_solver. Qed.

Lemma tracked_none t k : tracked t !! k = None <-> ~ exists info, contents t !! k = Some (Some info).
Proof.
  rewrite eq_None_not_Some. unfold is_Some. by setoid_rewrite tracked_lookup.
Qed.

Lemma fmap_empty {A B} (f : A -> B) l : f <$> l = [] <-> l = [].
Proof. by destruct l. Qed.

Lemma intact_iff Stat t disk :
  intact Stat t disk <->
  (map_to_list (tracked t) ≫= verdict Stat) = [] /\ untracked t (visits disk) = [] /\ wrong t = [].
Proof.
  rewrite wrong_nil. unfold untracked. split.
  - intros [F T Hh]. split_and!; [| |done].
    + apply elem_of_nil_inv. intros i ([k info] & Hi & Hk)%list_elem_of_bind.
      apply elem_of_map_to_list, tracked_lookup, F, verdict_nil in Hk. rewrite Hk in Hi. by apply not_elem_of_nil in Hi.
    + apply elem_of_nil_inv. intros k [N (q & g & -> & Hq)%elem_of_visits]%list_elem_of_filter.
      apply T in Hq. by apply tracked_none in N.
  - intros (F & T & Hh). split; [| |done].
    + intros k info H. apply verdict_nil. apply tracked_lookup, elem_of_map_to_list in H.
      apply elem_of_nil_inv. intros i Hi. apply (not_elem_of_nil i). rewrite <- F. apply list_elem_of_bind. by exists (k, info).
    + intros p f H. destruct (tracked t !! Rel p) as [info|] eqn:E; [exists info; by apply tracked_lookup|].
      exfalso. apply (not_elem_of_nil (Rel p)). rewrite <- T. apply list_elem_of_filter. split; [done|].
      apply elem_of_visits. by exists p, f.
Qed.

(** The report of a check whose pool ended without an error, from any run of
    the pool. *)
Lemma report_exact `{RangeOrder} Stat c start took ctxErr ls s later disk fileIssues :
  ordered (root c) -> root c <> Nil -> 0 < workers c -> context_ends s later ->
  run Stat (checkFilesParallel c ctxErr (collectTreePaths c)) ls = Some s ->
  outcome s = Some (fileIssues, None) ->
  exists rep, Check_ c start took s later disk = Some (Ok rep) /\
    Issues rep ≡ₚ (map_to_list (tracked (root c)) ≫= verdict Stat) ++
      (extra <$> untracked (root c) (visited s later disk)) ++ (bad_hash <$> wrong (root c)) /\
    TotalFiles rep = Z.of_nat (size (tracked (root c))) /\
    (Valid rep = true <-> Issues rep = []).
Proof.
  intros O N Wk Ce R Out.
  destruct (pool_exact Stat (Z.to_nat (workers c)) _ _ _ _ ltac:(lia) R) as [_ P]. rewrite Out in P.
  unfold createWorkChannel in P. rewrite range_map_perm, collectTreePaths_eq in P by done.
  set (all := fileIssues ++ (extra <$> untracked (root c) (visited s later disk)) ++ (bad_hash <$> wrong (root c))).
  exists (mkReport (len all =? 0) (len (map_to_list (tracked (root c)))) all start took).
  split_and!; [|unfold all; cbn [Issues]; by rewrite P|by rewrite <- length_map_to_list|].
  - unfold Check_, gatherAllIssues, checkMerkleHashes. rewrite Out. cbn [mbind option_bind].
    rewrite collectTreePaths_eq, findExtraFiles_eq, checkMerkleRecursive_eq by done. by destruct (root c).
  - cbn [Valid Issues]. rewrite Z.eqb_eq. unfold len. destruct all; [done|]. split; [|done]. cbn [length]. lia.
Qed.

(** C14: A check of a tree with nodes, by at least one worker, is exact,
    whatever the interleaving of its workers, the order of the map and the
    call at which the context of the check ends, in the pool or in the walk.
    Its pool cannot run for ever, and until it has its result it can go on. If
    the result is an error, it is the one of the context, and the check
    returns it. If not, the check returns a report (contexts end with
    [ErrCanceled] or [ErrDeadlineExceeded], which the walk takes for success).
    It has, once each, an issue for every file of the tree whose content is
    not the one on disk, where a directory in its place is none; for every
    untracked file among the entries that the walk visited before the end of
    the context ([visited], all of them if it does not end); and for every
    node with a wrong hash. It counts the files of the tree, and it says that
    the tree is valid exactly when it has no issue. If the context does not
    end, that is exactly when tree and disk agree: the walk visits the files
    below a root that can be read and whose own name is not hidden, by names
    that are not hidden ([visible]). *)
Theorem check_exact `{RangeOrder} Stat c start took ctxErr ls s later disk :
  let report := Check_ c start took s later disk in
  ordered (root c) -> root c <> Nil -> 0 < workers c -> context_ends s later ->
  run Stat (checkFilesParallel c ctxErr (collectTreePaths c)) ls = Some s ->
  Z.of_nat (length ls) <= 4 * Z.of_nat (size (tracked (root c))) + workers c + 3 /\
  match outcome s with
  | None => report = None /\ exists l s', (forall e, l <> Cancel e) /\ step Stat s l = Some s'
  | Some (_, Some e) => canceled s = Some e /\ report = Some (Err e)
  | Some (_, None) => exists rep, report = Some (Ok rep) /\
      Issues rep ≡ₚ (map_to_list (tracked (root c)) ≫= verdict Stat) ++
        (extra <$> untracked (root c) (visited s later disk)) ++ (bad_hash <$> wrong (root c)) /\
      TotalFiles rep = Z.of_nat (size (tracked (root c))) /\
      (Valid rep = true <-> Issues rep = []) /\
      (canceled s = None -> later = None -> Valid rep = true <-> intact Stat (root c) disk)
  end.
Proof.
  intros report O N Wk Ce R.
  destruct (pool_exact Stat (Z.to_nat (workers c)) _ _ _ _ ltac:(lia) R) as [L P]. split.
  { unfold createWorkChannel in L. rewrite range_map_perm, collectTreePaths_eq, length_map_to_list in L by done. lia. }
  assert (Er : outcome s = None -> report = None).
  { intros Out. unfold report, Check_. rewrite Out. by destruct (root c). }
  destruct (outcome s) as [[is_ [e|]]|] eqn:Out; [|clear P|by auto].
  { split; [done|]. unfold report, Check_. rewrite Out. by destruct (root c). }
  destruct (report_exact Stat c start took ctxErr ls s later disk is_ O N Wk Ce R Out) as (rep & E & P & T & V).
  exists rep. split_and!; [done..|]. intros C ->. rewrite V, intact_iff, <- Permutation_nil_r, P. unfold visited. rewrite C.
  by rewrite Permutation_nil_r, !app_nil, !fmap_empty.
Qed.

(* ------------------------------------------------------------------ *)
(** ** A check after a recovery *)

(** [os.Stat] and reading give the files of the disk. *)
Definition serves (Stat : string -> stat_result) (disk : dir_entry) : Prop :=
  forall p f, leaf_at disk p (Some f) -> Stat (Rel p) = Regular (Ok (bytes_of f)).

Definition file_item (f : list string * file_data) : item :=
  (Rel f.1, mkInfo (Rel f.1) (sha256 (bytes_of f.2)) (len (bytes_of f.2)) (mtime f.2) (perm f.2) false zeroTime).

Lemma file_items_NoDup n dirs b : well_named (Dir n dirs b) -> NoDup (file_item <$> files (Dir n dirs b)).*1.
Proof.
  intros W. pose proof (file_entries_NoDup _ _ _ W) as N. rewrite <- list_fmap_compose in N. rewrite <- list_fmap_compose. exact N.
Qed.

Lemma tracked_scan t disk : ordered t -> NoDup (file_item <$> files disk).*1 ->
  (forall k i, (k, i) ∈ entries t <-> (k, i) ∈ file_entry <$> files disk) ->
  tracked t = list_to_map (file_item <$> files disk).
Proof.
  intros O N K. apply map_eq. intros k. apply option_eq. intros info.
  rewrite tracked_lookup, elem_of_contents, K, <- elem_of_list_to_map, !list_elem_of_fmap by done.
  split; intros (f & E & Hf); exists f; (split; [|done]); unfold file_item, file_entry in *; cbn in *; congruence.
Qed.

Lemma untracked_scan t n dirs b : well_named (Dir n dirs b) -> isHidden n = false ->
  tracked t = list_to_map (file_item <$> files (Dir n dirs b)) ->
  untracked t (visits (Some (Dir n dirs b))) =
    Rel ∘ fst <$> filter (fun f => f.2 = None) (leaves (Dir n dirs b)).
Proof.
  intros W Hn E. unfold untracked, visits. rewrite visits_leaves. cbn [Name]. rewrite Hn.
  change (fun f : list string * option file_data => Rel ([] ++ f.1)) with (Rel ∘ @fst (list string) (option file_data)).
  set (disk := Dir n dirs b) in *.
  assert (F : Forall (fun f => tracked t !! Rel f.1 = None <-> f.2 = None) (leaves disk)).
  { apply Forall_forall. intros [p [f|]] Hp; cbn [fst snd]; rewrite E, <- not_elem_of_list_to_map.
    - split; [|done]. intros []. apply list_elem_of_fmap. exists (file_item (p, f)). split; [done|].
      by apply list_elem_of_fmap_2, elem_of_files.
    - split; [done|]. intros _ (? & Eq & ([q g] & -> & Hq)%list_elem_of_fmap)%list_elem_of_fmap.
      apply elem_of_files in Hq. assert (p = q) as ->.
      { by eapply (Rel_inj n dirs b); [done|apply elem_of_leaves..|]. }
      pose proof (leaves_NoDup _ W) as Nd.
      apply (elem_of_list_to_map (M := gmap (list string)) _ _ _ Nd) in Hp, Hq. congruence. }
  induction F as [|f fs Hf F IH]; [done|]. rewrite fmap_cons, !filter_cons. cbn [compose].
  destruct (decide (f.2 = None)), (decide (tracked t !! _ = None)); try tauto; by rewrite ?fmap_cons, IH.
Qed.

Lemma verdict_scan Stat disk info_of : serves Stat disk -> (forall x, x ∈ info_of -> x ∈ file_item <$> files disk) ->
  info_of ≫= verdict Stat = [].
Proof.
  intros Sv F. apply elem_of_nil_inv. intros i (x & Hi & Hx)%list_elem_of_bind.
  apply F, list_elem_of_fmap in Hx as ([p f] & -> & Hf). apply elem_of_files, elem_of_leaves in Hf.
  unfold file_item in Hi. cbn [fst snd] in Hi.
  assert (N : verdict Stat (Rel p, mkInfo (Rel p) (sha256 (bytes_of f)) (len (bytes_of f)) (mtime f) (perm f) false zeroTime) = [])
    by (apply verdict_nil; right; exists (bytes_of f); split; [by apply Sv|done]).
  rewrite N in Hi. by apply not_elem_of_nil in Hi.
Qed.

(** A tree that a scan of the disk made, checked against the same disk: the
    report has no issue but the files that could not be read, which the scan
    left out and the check finds untracked; it counts the files that could. *)
Theorem recovered_checks `{RangeOrder} shake128 Stat n w start took ctxErr ls s fileIssues name dirs b :
  let disk := Dir name dirs b in
  let c := mkChecker (RecoverFromFilesystem shake128 no_ctx n (Some disk)).1.1 w in
  well_named disk -> isHidden name = false -> serves Stat disk -> files disk <> [] -> 0 < w ->
  run Stat (checkFilesParallel c ctxErr (collectTreePaths c)) ls = Some s ->
  outcome s = Some (fileIssues, None) -> canceled s = None ->
  exists rep, Check_ c start took s None (Some disk) = Some (Ok rep) /\
    Issues rep ≡ₚ extra ∘ Rel ∘ fst <$> filter (fun f => f.2 = None) (leaves disk) /\
    TotalFiles rep = len (files disk) /\
    (Valid rep = true <-> forall p f, leaf_at disk p f -> f <> None).
Proof.
  intros disk c W Hn Sv Ne Hw R Out Cs. destruct (scan_tree shake128 n name dirs b W Hn) as (t & n' & E & G & O & K).
  assert (Ec : c = mkChecker t w) by (unfold c, disk; by rewrite E). clearbody c. subst c.
  pose proof (file_items_NoDup _ _ _ W) as N. pose proof (tracked_scan t disk O N K) as T.
  assert (Nt : t <> Nil).
  { intros ->. destruct (files disk) as [|f fs] eqn:F; [done|]. apply (not_elem_of_nil (file_entry f)).
    change [] with (entries Nil). destruct (file_entry f) as [k i] eqn:Ef. apply K. unfold disk in F. rewrite F, <- Ef. left. }
  assert (Ce : context_ends s None) by (intros k e; unfold walk_ctx; by rewrite Cs).
  destruct (report_exact Stat (mkChecker t w) start took ctxErr ls s None (Some disk) fileIssues O Nt Hw Ce R Out) as (rep & Er & P & Tf & V).
  unfold visited in P. rewrite Cs in P. cbn [root] in *. rewrite (verdict_scan Stat disk) in P; [|done|].
  2:{ intros x. rewrite T, map_to_list_to_map by done. done. }
  assert (wrong t = []) as Hw' by by eapply wrong_nil, good_hashed.
  unfold disk in P. rewrite Hw', (untracked_scan t _ _ _ W Hn T), <- !list_fmap_compose in P. cbn [app fmap list_fmap] in P. rewrite app_nil_r in P.
  exists rep. split_and!; [exact Er|exact P| |].
  - rewrite Tf, T, map_size_list_to_map by done. by rewrite length_fmap.
  - rewrite V, <- Permutation_nil_r, P, Permutation_nil_r, fmap_empty. split.
    + intros Em p f Hp ->. apply elem_of_leaves in Hp. apply (not_elem_of_nil (p, @None file_data)). fold disk in Hp.
      rewrite <- Em. by apply list_elem_of_filter.
    + intros F. apply elem_of_nil_inv. intros [p f] [Hf Hp]%list_elem_of_filter. apply elem_of_leaves in Hp.
      by apply (F p f).
Qed.

(** [CheckFile] gives, for a file of the tree, the issue that [Check] reports;
    for any other path none; and for a node without information it crashes
    when the file on disk can be read. *)
Theorem CheckFile_agrees Stat c path : ordered (root c) ->
  CheckFile Stat c None path =
    match contents (root c) !! path with
    | None => Some (None, None)
    | Some (Some info) => Some (head (verdict Stat (path, info)), None)
    | Some None => match Stat path with
      | Regular (Ok _) => None
      | Regular (Err e) => Some (Some (mkIssue IssueModified path ("failed to read file: " ++ e)), None)
      | Directory => Some (None, None)
      | StatError e => Some (Some (mkIssue IssueMissing path e), None)
      | NotExist => Some (Some (mkIssue IssueMissing path "file not found on disk"), None)
      end
    end.
Proof.
  intros O. unfold CheckFile. pose proof (Get_contents (root c) path O) as G.
  destruct (CmtTree.Get (root c) path) as [|l k p h [info|] r]; [by rewrite G|..]; destruct G as [_ ->].
  - destruct (checkSingleFile_some Stat path info) as (x & -> & <-). by destruct x.
  - unfold checkSingleFile. by destruct (Stat path) as [| | |[]].
Qed.

(* ------------------------------------------------------------------ *)
(** ** A small check *)

Definition stat_leaves (disk : dir_entry) (key : string) : stat_result :=
  match (list_to_map (prod_map Rel id <$> leaves disk) : gmap string (option file_data)) !! key with
  | None => NotExist
  | Some None => Regular (Err "permission denied")
  | Some (Some f) => Regular (Ok (bytes_of f))
  end.

Lemma stat_leaves_serves n dirs b : well_named (Dir n dirs b) -> serves (stat_leaves (Dir n dirs b)) (Dir n dirs b).
Proof.
  intros W p f Hp. set (disk := Dir n dirs b) in *. unfold stat_leaves.
  assert (list_to_map (prod_map Rel id <$> leaves disk) !! Rel p = Some (Some f)) as ->; [|done].
  apply elem_of_list_to_map.
  - rewrite <- list_fmap_compose. change (fst ∘ prod_map Rel id) with (Rel ∘ @fst (list string) (option file_data)).
    rewrite list_fmap_compose. apply (NoDup_fmap_2_strong Rel); [|by apply leaves_NoDup].
    intros x y ([x' g] & -> & Hx)%list_elem_of_fmap ([y' h] & -> & Hy)%list_elem_of_fmap E.
    apply elem_of_leaves in Hx, Hy. by eapply Rel_inj.
  - apply list_elem_of_fmap. exists (p, Some f). split; [done|]. by apply elem_of_leaves.
Qed.

(** The tree of the project, and the project after an edit, a removal and an
    addition. *)
Definition project_tree : Node := (RecoverFromFilesystem id no_ctx 0 (Some project)).1.1.
Definition edited : dir_entry :=
  Dir "app" [File "a.go" (Some (a_file "package main")); File "c.go" (Some (a_file "package c"))] false.

(** A worker takes both files, the other finds none. *)
Definition two_files : list label :=
  [Receive 0; AskCtx 0; Send 0; Receive 0; Receive 1; AskCtx 0; Collect; Send 0; Receive 0; CloseResults;
   Collect; Collect].

(** The project with a file that the tree does not have. *)
Definition grown : dir_entry :=
  match project with
  | Dir n dirs b => Dir n (File "0.go" (Some (a_file "package zero")) :: dirs) b
  | f => f
  end.

Lemma check_exact_witness :
  let c := mkChecker project_tree 2 in
  exists s rep, run (stat_leaves edited) (checkFilesParallel (H := range_id) c None (collectTreePaths c)) two_files = Some s /\
    Check_ c 0 0 s None (Some edited) = Some (Ok rep) /\ Valid rep = false /\
    Issues rep ≡ₚ [mkIssue IssueModified "a.go" "content hash mismatch";
      mkIssue IssueMissing "sub/b.go" "file not found on disk"; extra "c.go"].
Proof.
  intros c. destruct (scan_tree id 0 "app" _ false project_well_named eq_refl) as (t & n' & E & _ & O & _).
  assert (Et : root c = t) by (unfold c, project_tree, project; cbn [root]; by rewrite E).
  rewrite <- Et in O.
  destruct (run (stat_leaves edited) (checkFilesParallel (H := range_id) c None (collectTreePaths c)) two_files) as [s1|] eqn:R;
    [|vm_compute in R; discriminate].
  assert (Cs : canceled s1 = None) by (vm_compute in R; injection R as <-; reflexivity).
  assert (Ce : context_ends s1 None) by (intros k e; unfold walk_ctx; by rewrite Cs).
  destruct (check_exact (H := range_id) (stat_leaves edited) c 0 0 None two_files s1 None (Some edited) O
    ltac:(vm_compute; discriminate) eq_refl Ce R) as [_ C].
  assert (Out : outcome s1 = Some (issues s1, None)) by (vm_compute in R; injection R as <-; vm_compute; reflexivity).
  rewrite Out in C. destruct C as (rep & Er & P & _ & _ & V).
  exists s1, rep. split_and!; [done|exact Er| |].
  - apply not_true_is_false. intros Vt. apply V in Vt as [_ F _]; [|done..].
    destruct (F ["c.go"] (Some (a_file "package c"))) as [info F1].
    { split; [reflexivity|]. apply elem_of_leaves. vm_compute. right. left. }
    vm_compute in F1. discriminate.
  - rewrite P. unfold visited. rewrite Cs. vm_compute. apply perm_swap.
Defined.

(** What a check does not see.  A tree without nodes is valid whatever is on
    the disk; a directory in the place of a file of the tree is no issue; a
    check whose context ends while it looks for untracked files reports those
    seen so far as all of them, also when the context had ended after the last
    worker asked; and below a root whose own name starts with a dot, such as
    [.], nothing is untracked. *)
Theorem check_blind :
  let valid := Some (Ok (mkReport true 2 [] 0 0)) in
  let c := mkChecker project_tree 2 in
  let dot := Dir "." [File "new.go" (Some (a_file "package new"))] false in
  let check ls later disk := s ← run (stat_leaves grown)
      (checkFilesParallel (H := range_id) c None (collectTreePaths c)) ls;
    Check_ c 0 0 s later (Some disk) in
  (forall w start took s later disk,
    Check_ (mkChecker Nil w) start took s later disk = Some (Ok (mkReport true 0 [] start took))) /\
  (forall Stat k info, Stat k = Directory -> verdict Stat (k, info) = []) /\
  check (two_files ++ [Cancel ErrCanceled]) None grown = valid /\
  check two_files (Some (1%nat, ErrDeadlineExceeded)) grown = valid /\
  check two_files None grown = Some (Ok (mkReport false 2 [extra "0.go"; extra "secret"] 0 0)) /\
  check two_files None dot = valid /\ leaf_at dot ["new.go"] (Some (a_file "package new")).
Proof.
  split_and!; [done| |vm_compute; reflexivity..|].
  - intros Stat k info E. apply verdict_nil. by left.
  - apply elem_of_leaves. vm_compute. left.
Qed.
End CmtIntegrity.
