(* ===== verification/MemoryWal.v ===== *)
(** * The semantic log of the global draft (core/versioning/memory_versioned_wal.go)

    Every merge appends a delta entry with the next minor version, every flush
    a checkpoint with the next major one.  The log keeps an index in the order
    of arrival and the entries by version; the specification is the list of
    the appended entries. *)

From S2P Require Import Prelude Ids.
From S2P Require Export MergePrecise Semantic.

(** A [uint8]; the last constructor stands for the values without a name. *)
Inductive WALEntryKind := WALEntryKindDelta | WALEntryKindCheckpoint | WALEntryKindOther (b : byte).

#[export] Instance WALEntryKind_eq_dec : EqDecision WALEntryKind.
Proof. solve_decision. Defined.

Record VersionedWALEntry := mkWALEntry {
  Kind : WALEntryKind;
  Version : SemanticVersion;
  EPipelineID : string;
  ETimestamp : Z;
  Deltas : list WALFileDelta;
  CRC32 : Z
}.

Record VersionIndex := mkIndex {
  IVersion : SemanticVersion;
  Filename : string;
  IKind : WALEntryKind;
  IPipelineID : string;
  ITimestamp : Z
}.

Module MemoryWal.
Import Semantic.

Inductive wal_error := ErrVersionedWALClosed | ErrVersionNotFoundInWAL | ErrMissingIndexedEntry.

Record MemoryVersionedWAL := mkWAL {
  index : list VersionIndex;
  entries : gmap SemanticVersion VersionedWALEntry;
  current : SemanticVersion;
  nextSeq : Z;
  closed : bool
}.

Definition NewMemoryVersionedWAL : MemoryVersionedWAL := mkWAL [] ∅ VersionZero 0 false.

Definition cloneWALFileDeltas (deltas : list WALFileDelta) : list WALFileDelta :=
  (fun d => mkWALFileDelta (DPath d) (DOp d) (Operation.cloneBytes (DNewContent d))
    (Operation.cloneBytes (DOldContent d))) <$> deltas.

Definition cloneVersionedWALEntry (e : VersionedWALEntry) : VersionedWALEntry :=
  mkWALEntry (Kind e) (Version e) (EPipelineID e) (ETimestamp e) (cloneWALFileDeltas (Deltas e)) (CRC32 e).

Definition appendEntryLocked (w : MemoryVersionedWAL) (now : Z) (kind : WALEntryKind)
    (ver : SemanticVersion) (pipelineID : string) (deltas : list WALFileDelta)
  : MemoryVersionedWAL * SemanticVersion :=
  let entry := mkWALEntry kind ver pipelineID now (cloneWALFileDeltas deltas) 0 in
  (mkWAL (index w ++ [mkIndex ver "" kind pipelineID (ETimestamp entry)]) (<[ver := entry]> (entries w))
    ver (u64 (nextSeq w + 1)) (closed w), ver).

Definition AppendDelta (w : MemoryVersionedWAL) (now : Z) (pipelineID : string) (deltas : list WALFileDelta)
  : result wal_error (MemoryVersionedWAL * SemanticVersion) :=
  if closed w then Err ErrVersionedWALClosed
  else Ok (appendEntryLocked w now WALEntryKindDelta (BumpMinor (current w)) pipelineID deltas).

Definition AppendCheckpoint (w : MemoryVersionedWAL) (now : Z) (deltas : list WALFileDelta)
  : result wal_error (MemoryVersionedWAL * SemanticVersion) :=
  if closed w then Err ErrVersionedWALClosed
  else Ok (appendEntryLocked w now WALEntryKindCheckpoint (BumpMajor (current w)) "" deltas).

Definition GetEntry (w : MemoryVersionedWAL) (ver : SemanticVersion) : result wal_error VersionedWALEntry :=
  if closed w then Err ErrVersionedWALClosed
  else match entries w !! ver with
    | None => Err ErrVersionNotFoundInWAL
    | Some entry => Ok (cloneVersionedWALEntry entry)
    end.

(** The loop of the two readers over the index; [skip] is the condition of its
    [continue]. *)
Fixpoint collect (skip : SemanticVersion -> bool) (es : gmap SemanticVersion VersionedWALEntry)
    (idxs : list VersionIndex) (result : list VersionedWALEntry)
  : Prelude.result wal_error (list VersionedWALEntry) :=
  match idxs with
  | [] => Ok result
  | idx :: idxs =>
    if skip (IVersion idx) then collect skip es idxs result
    else match es !! IVersion idx with
      | None => Err ErrMissingIndexedEntry
      | Some entry => collect skip es idxs (result ++ [cloneVersionedWALEntry entry])
      end
  end.

Definition GetDeltasSince (w : MemoryVersionedWAL) (ver : SemanticVersion)
  : result wal_error (list VersionedWALEntry) :=
  if closed w then Err ErrVersionedWALClosed
  else collect (fun v => Compare v ver <=? 0) (entries w) (index w) [].

Definition GetDeltasInRange (w : MemoryVersionedWAL) (from to : SemanticVersion)
  : result wal_error (list VersionedWALEntry) :=
  if closed w then Err ErrVersionedWALClosed
  else collect (fun v => (Compare v from <? 0) || (0 <? Compare v to)) (entries w) (index w) [].

Definition CurrentVersion (w : MemoryVersionedWAL) : SemanticVersion := current w.

(** The loop from the end of the index. *)
Fixpoint latest (idxs : list VersionIndex) : option SemanticVersion :=
  match idxs with
  | [] => None
  | idx :: idxs =>
    if bool_decide (IKind idx = WALEntryKindCheckpoint) then Some (IVersion idx) else latest idxs
  end.

Definition LatestCheckpoint (w : MemoryVersionedWAL) : SemanticVersion * bool :=
  match latest (reverse (index w)) with
  | Some v => (v, true)
  | None => (VersionZero, false)
  end.

Definition Compact (w : MemoryVersionedWAL) : option wal_error :=
  if closed w then Some ErrVersionedWALClosed else None.

Definition IndexLen (w : MemoryVersionedWAL) : Z := len (index w).

Definition Close (w : MemoryVersionedWAL) : MemoryVersionedWAL :=
  mkWAL (index w) (entries w) (current w) (nextSeq w) true.

(* ------------------------------------------------------------------ *)
(** ** The list of the appended entries *)

(** A call at the time [now]. *)
Inductive call :=
| CDelta (now : Z) (pipelineID : string) (deltas : list WALFileDelta)
| CCheckpoint (now : Z) (deltas : list WALFileDelta).

Definition exec (w : MemoryVersionedWAL) (c : call) : MemoryVersionedWAL :=
  match (match c with
    | CDelta now pid deltas => AppendDelta w now pid deltas
    | CCheckpoint now deltas => AppendCheckpoint w now deltas
    end) with
  | Ok (w, _) => w
  | Err _ => w
  end.

Definition wal_of (cs : list call) : MemoryVersionedWAL := foldl exec NewMemoryVersionedWAL cs.

(** The version of the last entry, zero without one. *)
Definition head_version (es : list VersionedWALEntry) : SemanticVersion :=
  match last es with Some e => Version e | None => VersionZero end.

Definition next_entry (v : SemanticVersion) (c : call) : VersionedWALEntry :=
  match c with
  | CDelta now pid deltas => mkWALEntry WALEntryKindDelta (BumpMinor v) pid now deltas 0
  | CCheckpoint now deltas => mkWALEntry WALEntryKindCheckpoint (BumpMajor v) "" now deltas 0
  end.

(** The specification: the calls, stamped with their versions. *)
Definition appended (cs : list call) : list VersionedWALEntry :=
  foldl (fun es c => es ++ [next_entry (head_version es) c]) [] cs.

Lemma cloneDeltas_eq ds : cloneWALFileDeltas ds = ds.
Proof. unfold cloneWALFileDeltas. rewrite <- (list_fmap_id ds) at 2. apply list_fmap_ext. by intros ? []. Qed.

Lemma cloneEntry_eq e : cloneVersionedWALEntry e = e.
Proof. unfold cloneVersionedWALEntry. rewrite cloneDeltas_eq. by destruct e. Qed.

Definition index_of (e : VersionedWALEntry) : VersionIndex :=
  mkIndex (Version e) "" (Kind e) (EPipelineID e) (ETimestamp e).

(** The components of a version are at most [n]. *)
Definition bounded (n : Z) (v : SemanticVersion) : Prop := 0 <= Major v <= n /\ 0 <= Minor v <= n.

(** An open log that holds the entries [es]. *)
Record holds (w : MemoryVersionedWAL) (es : list VersionedWALEntry) : Prop := {
  holds_index : index w = index_of <$> es;
  holds_entries : entries w = list_to_map ((fun e => (Version e, e)) <$> es);
  holds_current : current w = head_version es;
  holds_sorted : StronglySorted lt (Version <$> es);
  holds_bound : Forall (bounded (len es)) (Version <$> es);
  holds_open : closed w = false
}.

Lemma head_version_snoc es e : head_version (es ++ [e]) = Version e.
Proof. unfold head_version. by rewrite last_snoc. Qed.

Lemma head_version_cases es : (es = [] /\ head_version es = VersionZero) \/ head_version es ∈ Version <$> es.
Proof.
  unfold head_version. destruct (last es) as [e|] eqn:E.
  - right. apply list_elem_of_fmap_2. by apply last_Some_elem_of.
  - left. by apply last_None in E.
Qed.

(** The next version is above all others. *)
Lemma next_version n es c :
  StronglySorted lt (Version <$> es) -> Forall (bounded n) (Version <$> es) -> 0 <= n < two32 - 1 ->
  let v := Version (next_entry (head_version es) c) in
  bounded (n + 1) v /\ Forall (fun u => lt u v) (Version <$> es).
Proof.
  intros S B L v.
  assert (H0 : bounded n (head_version es)).
  { destruct (head_version_cases es) as [[_ ->]|Hv]; [split; cbn; lia|]. rewrite Forall_forall in B. by apply B. }
  destruct H0 as [H0 H1].
  assert (Hl : lt (head_version es) v).
  { unfold v, lt. destruct c; cbn [next_entry Version BumpMinor BumpMajor Major Minor]; wrap_lia. }
  split.
  { unfold v. destruct c; split; cbn [next_entry Version BumpMinor BumpMajor Major Minor]; wrap_lia. }
  apply Forall_forall. intros u Hu.
  destruct (es) as [|e es' _] using rev_ind; [by apply not_elem_of_nil in Hu|].
  rewrite head_version_snoc in Hl. rewrite fmap_app in S, Hu.
  apply StronglySorted_app in S as (F & _). apply elem_of_app in Hu as [Hu|Hu].
  - eapply version_lt_trans; [|exact Hl]. apply F; [done|]. by left.
  - by apply list_elem_of_singleton in Hu as ->.
Qed.

Lemma holds_append w es c :
  holds w es -> len es < two32 - 1 -> holds (exec w c) (es ++ [next_entry (head_version es) c]).
Proof.
  intros [I E C S B O] L.
  pose proof (len_nonneg es) as Ln. destruct (next_version (len es) es c S B) as [Bn F]; [lia|]. set (e := next_entry _ c) in *.
  assert (X : exec w c = mkWAL (index w ++ [index_of e]) (<[Version e := e]> (entries w)) (Version e)
    (u64 (nextSeq w + 1)) false).
  { unfold exec. destruct c; unfold AppendDelta, AppendCheckpoint; rewrite O, C;
      unfold appendEntryLocked; by rewrite cloneDeltas_eq, O. }
  rewrite X. split; cbn [index entries current closed].
  - by rewrite I, fmap_app.
  - rewrite E, fmap_app, list_to_map_app. cbn [fmap list_fmap list_to_map foldr uncurry fst snd].
    rewrite insert_empty. symmetry.
    rewrite insert_union_singleton_r; [done|]. apply not_elem_of_list_to_map_1.
    rewrite <- list_fmap_compose. change (fst ∘ (fun e => (Version e, e))) with Version. intros Hv.
    rewrite Forall_forall in F. by apply (version_lt_irrefl (Version e)), F.
  - by rewrite head_version_snoc.
  - rewrite fmap_app. apply StronglySorted_app. split_and!; [|done|repeat constructor].
    intros u v Hu Hv. apply list_elem_of_singleton in Hv as ->. rewrite Forall_forall in F. by apply F.
  - rewrite fmap_app, len_app. change (len [e]) with 1. apply Forall_app. split.
    + eapply Forall_impl; [exact B|]. unfold bounded. lia.
    + constructor; [exact Bn|constructor].
  - done.
Qed.

Lemma appended_snoc cs c :
  appended (cs ++ [c]) = appended cs ++ [next_entry (head_version (appended cs)) c].
Proof. unfold appended. by rewrite foldl_app. Qed.

Lemma length_appended cs : len (appended cs) = len cs.
Proof.
  induction cs as [|c cs IH] using rev_ind; [done|]. rewrite appended_snoc, !len_app, IH. done.
Qed.

Lemma wal_of_holds cs : len cs < two32 -> holds (wal_of cs) (appended cs).
Proof.
  induction cs as [|c cs IH] using rev_ind.
  - intros _. by split; constructor.
  - rewrite len_app. change (len [c]) with 1. intros L. pose proof (len_nonneg cs).
    unfold wal_of. rewrite foldl_app, appended_snoc. apply holds_append; [apply IH; lia|].
    rewrite length_appended. lia.
Qed.

Lemma holds_lookup w es e : holds w es -> e ∈ es -> entries w !! Version e = Some e.
Proof.
  intros H He. rewrite (holds_entries _ _ H). apply elem_of_list_to_map_1.
  - rewrite <- list_fmap_compose. pose proof (holds_sorted _ _ H) as S.
    change (fst ∘ (fun e => (Version e, e))) with Version.
    induction S as [|v vs _ IH F]; constructor; [|done]. intros Hv. rewrite Forall_forall in F.
    by apply (version_lt_irrefl v), F.
  - apply list_elem_of_fmap. by exists e.
Qed.

Lemma collect_holds w es skip idxs acc :
  holds w es -> idxs ⊆ es ->
  collect skip (entries w) (index_of <$> idxs) acc =
    Ok (acc ++ filter (fun e => skip (Version e) = false) idxs).
Proof.
  intros H.
  revert acc. induction idxs as [|e idxs IH]; intros acc Sub; [by rewrite app_nil_r|].
  assert (L : entries w !! Version e = Some e) by (apply (holds_lookup w es e H), Sub; by left).
  rewrite fmap_cons. cbn [collect index_of IVersion]. destruct (skip (Version e)) eqn:K.
  - rewrite IH by set_solver. by rewrite filter_cons_False by congruence.
  - rewrite L, cloneEntry_eq, IH by set_solver. rewrite filter_cons_True by done. by rewrite <- app_assoc.
Qed.

Lemma latest_holds es :
  latest (reverse (index_of <$> es)) = Version <$> last (filter (fun e => Kind e = WALEntryKindCheckpoint) es).
Proof.
  induction es as [|e es IH] using rev_ind; [done|].
  rewrite fmap_app, reverse_app, filter_app. change (reverse (index_of <$> [e])) with [index_of e].
  cbn [app latest index_of IKind IVersion]. case_bool_decide as K.
  - rewrite filter_cons_True by done. rewrite filter_nil. by rewrite last_snoc.
  - rewrite filter_cons_False by done. rewrite filter_nil. by rewrite app_nil_r.
Qed.

(** After any calls, fewer than 2^32, the log is the list of the appended
    entries: their versions grow strictly, [GetDeltasSince] and
    [GetDeltasInRange] are filters of the list by version, [GetEntry] finds
    an entry exactly when its version is in the list, and the current version
    and the latest checkpoint are those of the last entry and the last
    checkpoint. *)
Theorem wal_refines_list cs :
  len cs < two32 ->
  let w := wal_of cs in
  let es := appended cs in
  StronglySorted lt (Version <$> es) /\
  (forall v, GetDeltasSince w v = Ok (filter (fun e => lt v (Version e)) es)) /\
  (forall u v, GetDeltasInRange w u v =
    Ok (filter (fun e => ~ lt (Version e) u /\ ~ lt v (Version e)) es)) /\
  (forall v e, GetEntry w v = Ok e <-> e ∈ es /\ Version e = v) /\
  CurrentVersion w = head_version es /\ IndexLen w = len es /\
  LatestCheckpoint w = match last (filter (fun e => Kind e = WALEntryKindCheckpoint) es) with
    | Some e => (Version e, true) | None => (VersionZero, false) end.
Proof.
  intros L w es. pose proof (wal_of_holds cs L) as H. fold w es in H.
  pose proof H as [I E C S B O]. split_and!.
  - done.
  - intros v. unfold GetDeltasSince. rewrite O, I, (collect_holds w es) by done. f_equal.
    apply list_filter_iff. intros e. by rewrite Z.leb_gt, Compare_gt.
  - intros u v. unfold GetDeltasInRange. rewrite O, I, (collect_holds w es) by done. f_equal.
    apply list_filter_iff. intros e. by rewrite orb_false_iff, !Z.ltb_nlt, Compare_lt, Compare_gt.
  - intros v e. unfold GetEntry. rewrite O. split.
    + destruct (entries w !! v) as [e'|] eqn:G; [|done]. intros [= <-]. rewrite cloneEntry_eq.
      rewrite E in G. apply elem_of_list_to_map_2, list_elem_of_fmap in G as (x & [= -> ->] & ?). done.
    + intros [He <-]. by rewrite (holds_lookup w es e H He), cloneEntry_eq.
  - done.
  - unfold IndexLen. by rewrite I, len_fmap.
  - unfold LatestCheckpoint. rewrite I, latest_holds. by destruct (last _).
Qed.

(** Two merges with a flush between them. *)
Definition sample_calls : list call := [CDelta 1 "p" []; CCheckpoint 2 []; CDelta 3 "q" []].

Lemma wal_refines_list_witness :
  GetDeltasSince (wal_of sample_calls) (mkVersion 0 1) =
    Ok [mkWALEntry WALEntryKindCheckpoint (mkVersion 1 0) "" 2 [] 0;
        mkWALEntry WALEntryKindDelta (mkVersion 1 1) "q" 3 [] 0].
Proof.
  destruct (wal_refines_list sample_calls) as (_ & D & _); [reflexivity|]. rewrite D. vm_compute. reflexivity.
Defined.
End MemoryWal.
