(* ===== verification/Vfs.v ===== *)
(** * The overlay file system (core/versioning/vfs.go)

    A [PipelineVFS] stages writes and deletions over a base it reads from: the
    disk, a [vfsBaseFS] or a [baseReader], of which [readBase] is the one in
    use.  The functions of the package that compute a path or a label from
    the configuration are fields of [VFSEnv], as are the permission checker,
    the version store and the memory reservation.  A content is a [byte_slice],
    which may be nil: the snapshot of a path takes a nil content for none. *)

From S2P Require Import Prelude Ids.
From S2P Require Export MergePrecise.

Inductive vfs_error :=
| ErrVFSClosed | ErrFileNotFound | ErrFileExists | ErrPermissionDenied | ErrPathOutsideBounds
| ErrMemoryBudgetExceeded | ErrBase (msg : string).

(** What reading the base gives. *)
Inductive base_read := Found (content : bytes) | Missing | Failed (msg : string).

Record VFSEnv := mkEnv {
  readBase : string -> base_read;
  (** [None]: nothing there; else whether it is a directory. *)
  statBase : string -> result string (option bool);
  (** [resolvePath], given the visible paths. *)
  resolvePath : gset string -> string -> result vfs_error string;
  CheckFileRead : string -> option vfs_error;
  CheckFileWrite : string -> option vfs_error;
  CheckFileDelete : string -> option vfs_error;
  ReadOnly : bool;
  getBaseVersion : string -> VersionID;
  getStagingPath : string -> string;
  classifyWorkspaceMutation : string -> bool -> string;
  (** The directories from below the working directory down to a path. *)
  segments : string -> list string;
  (** Whether the reservation can be resized to a number of bytes. *)
  Resize : Z -> bool
}.

Record PipelineVFS := mkVFS {
  closed : bool;
  modifications : gmap string FileModification;
  stagedContent : gmap string byte_slice;
  deletedPaths : gset string;
  baseVersions : gmap string VersionID;
  workingContent : gmap string byte_slice;
  visiblePaths : gset string;
  createdDirs : gset string
}.

Module Vfs.
Section Vfs.
Context `{RangeOrder}.
Variable env : VFSEnv.

Definition NewPipelineVFS : PipelineVFS := mkVFS false ∅ ∅ ∅ ∅ ∅ ∅ ∅.

Definition readExistingContent (v : PipelineVFS) (absPath : string) : result vfs_error bytes :=
  match workingContent v !! absPath with
  | Some content => Ok (content_of content)
  | None =>
    match readBase env absPath with
    | Found content => Ok content
    | Missing => Err ErrFileNotFound
    | Failed msg => Err (ErrBase msg)
    end
  end.

Definition readContent (v : PipelineVFS) (absPath : string) : result vfs_error bytes :=
  if bool_decide (absPath ∈ deletedPaths v) then Err ErrFileNotFound
  else match stagedContent v !! absPath with
    | Some content => Ok (content_of content)
    | None => readExistingContent v absPath
    end.

Definition Read (v : PipelineVFS) (path : string) : result vfs_error bytes :=
  if closed v then Err ErrVFSClosed
  else match resolvePath env (visiblePaths v) path with
    | Err e => Err e
    | Ok absPath =>
      match CheckFileRead env absPath with
      | Some e => Err e
      | None => readContent v absPath
      end
    end.

Definition checkWritePrereqs (v : PipelineVFS) : option vfs_error :=
  if closed v then Some ErrVFSClosed
  else if ReadOnly env then Some ErrPermissionDenied
  else None.

(* ------------------------------------------------------------------ *)
(** ** The memory budget *)

Definition overlayMemoryBytesLocked (v : PipelineVFS) : Z :=
  let total := foldl (fun t kv => i64 (t + len (content_of kv.2))) 0 (range_map 40 (stagedContent v)) in
  let total := foldl (fun t kv => i64 (t + len (content_of kv.2))) total (range_map 41 (workingContent v)) in
  foldl (fun t kv => i64 (t + i64 (len (content_of (NewContent kv.2)) + len (FOldContent kv.2)))) total
    (range_map 42 (modifications v)).

Definition reconcileOverlayMemoryLocked (v : PipelineVFS) : bool := Resize env (overlayMemoryBytesLocked v).

Record overlayStateSnapshot := mkSnapshot {
  spath : string;
  staged : option bytes;
  sdeleted : bool;
  visible : bool;
  modification : option FileModification;
  baseVersion : option VersionID;
  working : option bytes
}.

(** A nil content, which a missing one reads as, is not present. *)
Definition cloneOptionalBytes (content : byte_slice) : option bytes :=
  match content with None => None | Some content => Some (Operation.cloneBytes content) end.

Definition captureOverlayState (v : PipelineVFS) (path : string) : overlayStateSnapshot :=
  mkSnapshot path (cloneOptionalBytes (default None (stagedContent v !! path))) (bool_decide (path ∈ deletedPaths v))
    (bool_decide (path ∈ visiblePaths v)) (modifications v !! path) (baseVersions v !! path)
    (cloneOptionalBytes (default None (workingContent v !! path))).

Definition restoreBytesEntry (dst : gmap string byte_slice) (path : string) (content : option bytes) : gmap string byte_slice :=
  match content with Some content => <[path := Some content]> dst | None => delete path dst end.
(** [restoreModificationEntry], [restoreVersionEntry] *)
Definition restoreEntry {A} (dst : gmap string A) (path : string) (content : option A) : gmap string A :=
  match content with Some content => <[path := content]> dst | None => delete path dst end.
(** [restoreBoolEntry], [restoreVisibleEntry] *)
Definition restoreMember (dst : gset string) (path : string) (present : bool) : gset string :=
  if present then {[path]} ∪ dst else dst ∖ {[path]}.

Definition restoreOverlayState (v : PipelineVFS) (previous : overlayStateSnapshot) : PipelineVFS :=
  let path := spath previous in
  mkVFS (closed v) (restoreEntry (modifications v) path (modification previous))
    (restoreBytesEntry (stagedContent v) path (staged previous))
    (restoreMember (deletedPaths v) path (sdeleted previous))
    (restoreEntry (baseVersions v) path (baseVersion previous))
    (restoreBytesEntry (workingContent v) path (working previous))
    (restoreMember (visiblePaths v) path (visible previous)) (createdDirs v).

Definition commitOverlayState (v : PipelineVFS) (previous : overlayStateSnapshot)
  : PipelineVFS * option vfs_error :=
  if reconcileOverlayMemoryLocked v then (v, None)
  else (restoreOverlayState v previous, Some ErrMemoryBudgetExceeded).

(* ------------------------------------------------------------------ *)
(** ** Writing and deleting *)

(** The overlay with the path no longer deleted. *)
Definition undelete (v : PipelineVFS) (path : string) : PipelineVFS :=
  mkVFS (closed v) (modifications v) (stagedContent v) (deletedPaths v ∖ {[path]}) (baseVersions v)
    (workingContent v) (visiblePaths v) (createdDirs v).

Definition determineWriteOp (v : PipelineVFS) (absPath : string) : PipelineVFS * FileOp * bytes :=
  if bool_decide (absPath ∈ deletedPaths v) then (undelete v absPath, FileOpCreate, [])
  else match stagedContent v !! absPath with
    | Some _ => (v, FileOpModify, [])
    | None =>
      match readExistingContent v absPath with
      | Err ErrFileNotFound => (v, FileOpCreate, [])
      | Err _ => (v, FileOpModify, [])
      | Ok existing => (v, FileOpModify, existing)
      end
    end.

Definition stageWrite (v : PipelineVFS) (now : Z) (absPath : string) (content : byte_slice)
  : PipelineVFS * option vfs_error :=
  let prev := captureOverlayState v absPath in
  let '(v, op, oldContent) := determineWriteOp v absPath in
  let baseVersion := getBaseVersion env absPath in
  let contentHash := ComputeContentHash (content_of content) in
  let m := mkFileModification absPath (getStagingPath env absPath) op
    (classifyWorkspaceMutation env absPath false) now contentHash baseVersion
    content oldContent in
  commitOverlayState
    (mkVFS (closed v) (<[absPath := m]> (modifications v)) (<[absPath := content]> (stagedContent v))
      (deletedPaths v ∖ {[absPath]}) (<[absPath := baseVersion]> (baseVersions v)) (workingContent v)
      ({[absPath]} ∪ visiblePaths v) (createdDirs v)) prev.

Definition Write (v : PipelineVFS) (now : Z) (path : string) (content : byte_slice)
  : PipelineVFS * option vfs_error :=
  match checkWritePrereqs v with
  | Some e => (v, Some e)
  | None =>
    match resolvePath env (visiblePaths v) path with
    | Err e => (v, Some e)
    | Ok absPath =>
      match CheckFileWrite env absPath with
      | Some e => (v, Some e)
      | None => stageWrite v now absPath content
      end
    end
  end.

(** A staged content is no longer staged after the call. *)
Definition getDeleteContent (v : PipelineVFS) (absPath : string) : PipelineVFS * result vfs_error bytes :=
  match stagedContent v !! absPath with
  | Some content =>
    (mkVFS (closed v) (modifications v) (delete absPath (stagedContent v)) (deletedPaths v) (baseVersions v)
      (workingContent v) (visiblePaths v) (createdDirs v), Ok (content_of content))
  | None => (v, readExistingContent v absPath)
  end.

Definition stageDelete (v : PipelineVFS) (now : Z) (absPath : string) : PipelineVFS * option vfs_error :=
  let prev := captureOverlayState v absPath in
  match getDeleteContent v absPath with
  | (v, Err e) => (v, Some e)
  | (v, Ok oldContent) =>
    let baseVersion := getBaseVersion env absPath in
    let m := mkFileModification absPath "" FileOpDelete (classifyWorkspaceMutation env absPath false) now
      zero_hash baseVersion None oldContent in
    commitOverlayState
      (mkVFS (closed v) (<[absPath := m]> (modifications v)) (stagedContent v)
        ({[absPath]} ∪ deletedPaths v) (<[absPath := baseVersion]> (baseVersions v)) (workingContent v)
        ({[absPath]} ∪ visiblePaths v) (createdDirs v)) prev
  end.

Definition Delete (v : PipelineVFS) (now : Z) (path : string) : PipelineVFS * option vfs_error :=
  match checkWritePrereqs v with
  | Some e => (v, Some e)
  | None =>
    match resolvePath env (visiblePaths v) path with
    | Err e => (v, Some e)
    | Ok absPath =>
      match CheckFileDelete env absPath with
      | Some e => (v, Some e)
      | None => stageDelete v now absPath
      end
    end
  end.

(** [path] is absolute and clean. *)
Definition SeedFile (v : PipelineVFS) (path : string) (content : byte_slice) : PipelineVFS :=
  if bool_decide (path = "") then v
  else
    let prev := captureOverlayState v path in
    (commitOverlayState
      (mkVFS (closed v) (modifications v) (stagedContent v) (deletedPaths v) (baseVersions v)
        (<[path := content]> (workingContent v)) ({[path]} ∪ visiblePaths v)
        (createdDirs v)) prev).1.

Definition GetModifications (v : PipelineVFS) : list FileModification := (range_map 43 (modifications v)).*2.

Definition ResetOverlay (v : PipelineVFS) : PipelineVFS := mkVFS (closed v) ∅ ∅ ∅ ∅ ∅ ∅ ∅.

Definition Close (v : PipelineVFS) : PipelineVFS :=
  if closed v then v else mkVFS true ∅ ∅ ∅ ∅ ∅ ∅ ∅.

(* ------------------------------------------------------------------ *)
(** ** Directories *)

Definition visibleCandidatePathsLocked (v : PipelineVFS) : gset string :=
  visiblePaths v ∪ dom (stagedContent v) ∪ createdDirs v.

Definition hasVisibleDescendantLocked (v : PipelineVFS) (path : string) : bool :=
  existsb (fun candidate => negb (bool_decide (candidate ∈ deletedPaths v)) &&
    String.prefix (path +:+ "/") candidate) (elements (visibleCandidatePathsLocked v)).

(** Whether the path exists, and is a directory. *)
Definition pathState (v : PipelineVFS) (absPath : string) : result vfs_error (option bool) :=
  if bool_decide (absPath ∈ deletedPaths v) then Ok None
  else if bool_decide (absPath ∈ createdDirs v) then Ok (Some true)
  else if bool_decide (is_Some (stagedContent v !! absPath)) then Ok (Some false)
  else if bool_decide (is_Some (workingContent v !! absPath)) then Ok (Some false)
  else if hasVisibleDescendantLocked v absPath then Ok (Some true)
  else match statBase env absPath with
    | Ok s => Ok s
    | Err msg => Err (ErrBase msg)
    end.

Definition stageDir (v : PipelineVFS) (now : Z) (dirPath : string) : PipelineVFS :=
  let m := mkFileModification dirPath "" FileOpMkdir (classifyWorkspaceMutation env dirPath true) now
    zero_hash zero_hash None [] in
  mkVFS (closed v) (<[dirPath := m]> (modifications v)) (stagedContent v) (deletedPaths v) (baseVersions v)
    (workingContent v) ({[dirPath]} ∪ visiblePaths v) ({[dirPath]} ∪ createdDirs v).

Fixpoint stageDirs (v : PipelineVFS) (now : Z) (dirs : list string) : PipelineVFS * option vfs_error :=
  match dirs with
  | [] => (v, None)
  | dirPath :: dirs =>
    match pathState v dirPath with
    | Err e => (v, Some e)
    | Ok (Some false) => (v, Some ErrFileExists)
    | Ok (Some true) => stageDirs v now dirs
    | Ok None => stageDirs (stageDir v now dirPath) now dirs
    end
  end.

Definition stageMkdirAll (v : PipelineVFS) (now : Z) (absPath : string) : PipelineVFS * option vfs_error :=
  stageDirs v now (segments env absPath).

Definition MkdirAll (v : PipelineVFS) (now : Z) (path : string) : PipelineVFS * option vfs_error :=
  match checkWritePrereqs v with
  | Some e => (v, Some e)
  | None =>
    match resolvePath env (visiblePaths v) path with
    | Err e => (v, Some e)
    | Ok absPath =>
      match CheckFileWrite env absPath with
      | Some e => (v, Some e)
      | None => stageMkdirAll v now absPath
      end
    end
  end.
End Vfs.
End Vfs.
