(* ===== verification/VfsProof.v ===== *)
(** * What the overlay keeps (core/versioning/vfs.go)

    A call either fails and leaves the overlay as it was, also when the memory
    budget is exhausted after the maps were written, or changes the content of
    one path.  The one thing such a rollback loses is a nil content:
    [forget_nil].  The modifications of an overlay tell the whole difference
    to its base. *)

From S2P Require Import Prelude Ids.
From S2P Require Export Vfs.
Import Vfs.

(* ------------------------------------------------------------------ *)
(** ** Rolling back *)

Lemma restoreEntry_eq {A} (m m' : gmap string A) p :
  (forall q, q <> p -> m' !! q = m !! q) -> restoreEntry m' p (m !! p) = m.
Proof.
  intros E. apply map_eq. intros q. unfold restoreEntry. destruct (m !! p) as [c|] eqn:G.
  - destruct (decide (q = p)) as [->|N]; [by rewrite lookup_insert_eq|].
    rewrite lookup_insert_ne by done. by apply E.
  - destruct (decide (q = p)) as [->|N]; [by rewrite lookup_delete_eq|].
    rewrite lookup_delete_ne by done. by apply E.
Qed.

(** A map without the nil content at a path. *)
Definition drop_nil (m : gmap string byte_slice) (p : string) : gmap string byte_slice :=
  match m !! p with Some None => delete p m | _ => m end.

Lemma restoreBytesEntry_eq (m m' : gmap string byte_slice) p :
  (forall q, q <> p -> m' !! q = m !! q) -> restoreBytesEntry m' p (cloneOptionalBytes (default None (m !! p))) = drop_nil m p.
Proof.
  intros E. apply map_eq. intros q. unfold restoreBytesEntry, drop_nil. pose proof (E q) as Eq.
  destruct (m !! p) as [[c|]|] eqn:G; cbn [default cloneOptionalBytes from_option id];
    (destruct (decide (q = p)) as [->|N]; [rewrite ?lookup_insert_eq, ?lookup_delete_eq|]).
  all: try by rewrite ?G.
  all: by rewrite ?lookup_insert_ne, ?lookup_delete_ne, Eq by done.
Qed.

Lemma restoreMember_eq (s s' : gset string) p :
  (forall q, q <> p -> q ∈ s' <-> q ∈ s) -> restoreMember s' p (bool_decide (p ∈ s)) = s.
Proof.
  intros E. apply set_eq. intros q. unfold restoreMember.
  destruct (decide (q = p)) as [->|N]; [|specialize (E q N)]; case_bool_decide; set_solver.
Qed.

(** [v'] differs from [v] at [p] only. *)
Record same_but (p : string) (v v' : PipelineVFS) : Prop := {
  sb_closed : closed v' = closed v;
  sb_dirs : createdDirs v' = createdDirs v;
  sb_mods : forall q, q <> p -> modifications v' !! q = modifications v !! q;
  sb_staged : forall q, q <> p -> stagedContent v' !! q = stagedContent v !! q;
  sb_deleted : forall q, q <> p -> q ∈ deletedPaths v' <-> q ∈ deletedPaths v;
  sb_base : forall q, q <> p -> baseVersions v' !! q = baseVersions v !! q;
  sb_working : forall q, q <> p -> workingContent v' !! q = workingContent v !! q;
  sb_visible : forall q, q <> p -> q ∈ visiblePaths v' <-> q ∈ visiblePaths v
}.

(** The overlay with the content of a path forgotten if it is nil. *)
Definition forget_nil (v : PipelineVFS) (p : string) : PipelineVFS :=
  mkVFS (closed v) (modifications v) (drop_nil (stagedContent v) p) (deletedPaths v) (baseVersions v)
    (drop_nil (workingContent v) p) (visiblePaths v) (createdDirs v).

(** A content of the path that is nil, staged or seeded. *)
Definition nil_at (v : PipelineVFS) (p : string) : Prop :=
  stagedContent v !! p = Some None \/ workingContent v !! p = Some None.

#[export] Instance nil_at_dec v p : Decision (nil_at v p).
Proof. unfold nil_at. apply _. Defined.

Lemma forget_nil_same v p : ~ nil_at v p -> forget_nil v p = v.
Proof.
  intros N. unfold forget_nil, drop_nil. destruct v as [? ? st ? ? wk ? ?]. cbn in *.
  destruct (st !! p) as [[]|] eqn:E1, (wk !! p) as [[]|] eqn:E2; try done; destruct N; unfold nil_at; cbn; auto.
Qed.

Lemma restore_eq p v v' : same_but p v v' -> restoreOverlayState v' (captureOverlayState v p) = forget_nil v p.
Proof.
  intros [Ec Ed Em Es Edel Eb Ew Ev]. unfold restoreOverlayState, captureOverlayState.
  cbn [spath staged sdeleted visible modification baseVersion working].
  by rewrite Ec, Ed, !restoreBytesEntry_eq, !restoreEntry_eq, !restoreMember_eq by done.
Qed.

Section Proof.
Context `{RangeOrder}.
Variable env : VFSEnv.
Abbreviation readContent := (readContent env).
Abbreviation readExistingContent := (readExistingContent env).
Abbreviation Write := (Write env).
Abbreviation Delete := (Delete env).
Abbreviation commitOverlayState := (commitOverlayState env).

Lemma commit_cases p v v' : same_but p v v' ->
  commitOverlayState v' (captureOverlayState v p) = (v', None) \/
  commitOverlayState v' (captureOverlayState v p) = (forget_nil v p, Some ErrMemoryBudgetExceeded).
Proof.
  intros S. unfold commitOverlayState. destruct (reconcileOverlayMemoryLocked _ _); [by left|right].
  by rewrite restore_eq.
Qed.

(** The staged write and deletion, without the budget. *)
Definition written (v : PipelineVFS) (now : Z) (p : string) (c : byte_slice) : PipelineVFS :=
  let '(_, op, old) := determineWriteOp env v p in
  mkVFS (closed v)
    (<[p := mkFileModification p (getStagingPath env p) op (classifyWorkspaceMutation env p false) now
      (ComputeContentHash (content_of c)) (getBaseVersion env p) c old]> (modifications v))
    (<[p := c]> (stagedContent v)) (deletedPaths v ∖ {[p]}) (<[p := getBaseVersion env p]> (baseVersions v))
    (workingContent v) ({[p]} ∪ visiblePaths v) (createdDirs v).

Definition removed (v : PipelineVFS) (now : Z) (p : string) (old : bytes) : PipelineVFS :=
  mkVFS (closed v)
    (<[p := mkFileModification p "" FileOpDelete (classifyWorkspaceMutation env p false) now zero_hash
      (getBaseVersion env p) None old]> (modifications v))
    (delete p (stagedContent v)) ({[p]} ∪ deletedPaths v) (<[p := getBaseVersion env p]> (baseVersions v))
    (workingContent v) ({[p]} ∪ visiblePaths v) (createdDirs v).

Lemma stageWrite_eq v now p c :
  stageWrite env v now p c = (written v now p c, None) \/
  stageWrite env v now p c = (forget_nil v p, Some ErrMemoryBudgetExceeded).
Proof.
  unfold stageWrite.
  assert (K : forall v1 op old, determineWriteOp env v p = (v1, op, old) ->
    closed v1 = closed v /\ modifications v1 = modifications v /\ stagedContent v1 = stagedContent v /\
    deletedPaths v1 ∖ {[p]} = deletedPaths v ∖ {[p]} /\ baseVersions v1 = baseVersions v /\
    workingContent v1 = workingContent v /\ visiblePaths v1 = visiblePaths v /\ createdDirs v1 = createdDirs v).
  { intros v1 op old. unfold determineWriteOp. case_bool_decide; [intros [= <- _ _]|].
    - unfold undelete. cbn. split_and!; try done. set_solver.
    - repeat case_match; by intros [= <- _ _]. }
  pose proof (K (determineWriteOp env v p).1.1 (determineWriteOp env v p).1.2 (determineWriteOp env v p).2) as (E1 & E2 & E3 & E4 & E5 & E6 & E7 & E8);
    [by destruct (determineWriteOp env v p) as [[]]|]. clear K.
  unfold written. destruct (determineWriteOp env v p) as [[v1 op] old]. cbn [fst snd] in *.
  rewrite E1, E2, E3, E4, E5, E6, E7, E8. apply commit_cases.
  split; cbn; try done; intros q N; rewrite ?lookup_insert_ne by done; (done || set_solver).
Qed.

Lemma stageDelete_eq v now p :
  match stagedContent v !! p, readExistingContent v p with
  | None, Err e => stageDelete env v now p = (v, Some e)
  | Some old, _ =>
    stageDelete env v now p = (removed v now p (content_of old), None) \/
    stageDelete env v now p = (forget_nil v p, Some ErrMemoryBudgetExceeded)
  | None, Ok old =>
    stageDelete env v now p = (removed v now p old, None) \/
    stageDelete env v now p = (forget_nil v p, Some ErrMemoryBudgetExceeded)
  end.
Proof.
  unfold stageDelete, getDeleteContent, removed. destruct (stagedContent v !! p) as [c|] eqn:S.
  - cbn [closed modifications stagedContent deletedPaths baseVersions workingContent visiblePaths createdDirs].
    apply commit_cases.
    split; cbn; try done; intros q N; rewrite ?lookup_insert_ne, ?lookup_delete_ne by done; (done || set_solver).
  - destruct (readExistingContent v p) as [c|e]; [|done].
    rewrite (delete_id _ _ S). apply commit_cases.
    split; cbn; try done; intros q N; rewrite ?lookup_insert_ne by done; (done || set_solver).
Qed.

Lemma written_read v now p c q :
  readContent (written v now p c) q = if decide (q = p) then Ok (content_of c) else readContent v q.
Proof.
  unfold written, Vfs.readContent. destruct (determineWriteOp env v p) as [[v1 op] old].
  cbn [stagedContent deletedPaths workingContent]. destruct (decide (q = p)) as [->|N].
  - rewrite bool_decide_eq_false_2 by set_solver. by rewrite lookup_insert_eq.
  - rewrite lookup_insert_ne by done. rewrite (bool_decide_ext _ (q ∈ deletedPaths v)) by set_solver. done.
Qed.

Lemma removed_read v now p old q :
  readContent (removed v now p old) q = if decide (q = p) then Err ErrFileNotFound else readContent v q.
Proof.
  unfold removed, Vfs.readContent. cbn [stagedContent deletedPaths workingContent].
  destruct (decide (q = p)) as [->|N].
  - by rewrite bool_decide_eq_true_2 by set_solver.
  - rewrite lookup_delete_ne by done. rewrite (bool_decide_ext _ (q ∈ deletedPaths v)) by set_solver. done.
Qed.

(** What is left of [v] by a call of a path that failed with [e]. *)
Definition restored (v v' : PipelineVFS) (path : string) (e : vfs_error) : Prop :=
  v' = v \/ e = ErrMemoryBudgetExceeded /\
    exists p, resolvePath env (visiblePaths v) path = Ok p /\ nil_at v p /\ v' = forget_nil v p.

Lemma restored_at v p path : resolvePath env (visiblePaths v) path = Ok p -> restored v (forget_nil v p) path ErrMemoryBudgetExceeded.
Proof.
  intros R. destruct (decide (nil_at v p)) as [N|N]; [right; split; [done|by exists p]|left; by apply forget_nil_same].
Qed.

(** C39: [Write] and [Delete] are atomic up to nil contents: when they fail the
    overlay is exactly what it was, for whatever reason they fail, but for one:
    when the memory budget is exhausted, and the path they resolve to holds a
    nil content, this is forgotten.  When they succeed the path reads as the
    new content, respectively as not found, and every other path reads as
    before. *)
Theorem writes_atomic v now path c :
  match Write v now path c with
  | (v', Some e) => restored v v' path e
  | (v', None) => exists p, resolvePath env (visiblePaths v) path = Ok p /\ readContent v' p = Ok (content_of c) /\
      forall q, q <> p -> readContent v' q = readContent v q
  end /\
  match Delete v now path with
  | (v', Some e) => restored v v' path e
  | (v', None) => exists p, resolvePath env (visiblePaths v) path = Ok p /\
      readContent v' p = Err ErrFileNotFound /\ forall q, q <> p -> readContent v' q = readContent v q
  end.
Proof.
  split.
  - unfold Vfs.Write. destruct (checkWritePrereqs _ _); [by left|].
    destruct (resolvePath _ _ _) as [p|] eqn:Rp; [|by left]. destruct (CheckFileWrite _ _); [by left|].
    destruct (stageWrite_eq v now p c) as [-> | ->]; [|by apply restored_at]. exists p. split; [done|].
    split; [|intros q N]; rewrite written_read; by case_decide.
  - unfold Vfs.Delete. destruct (checkWritePrereqs _ _); [by left|].
    destruct (resolvePath _ _ _) as [p|] eqn:Rp; [|by left]. destruct (CheckFileDelete _ _); [by left|].
    assert (K : forall old, exists p0, (Ok p : result vfs_error string) = Ok p0 /\
      readContent (removed v now p old) p0 = Err ErrFileNotFound /\
      forall q, q <> p0 -> readContent (removed v now p old) q = readContent v q).
    { intros old. exists p. split; [done|]. split; [|intros q N]; rewrite removed_read; by case_decide. }
    pose proof (stageDelete_eq v now p) as D.
    destruct (stagedContent v !! p) as [old|]; [|destruct (readExistingContent v p) as [old|]];
      try destruct D as [-> | ->]; try rewrite D; first [by left | by apply restored_at | apply K].
Qed.
(* ------------------------------------------------------------------ *)
(** ** What the modifications say *)

(** The path reads from the base without an error other than that it is
    missing. *)
Definition readable (v : PipelineVFS) (p : string) : Prop :=
  readExistingContent v p = Err ErrFileNotFound \/ exists c, readExistingContent v p = Ok c.

(** A modification tells what became of a path of the base. *)
Definition tells (v : PipelineVFS) (p : string) (m : FileModification) : Prop :=
  OriginalPath m = p /\
  match FOperation m with
  | FileOpCreate => readExistingContent v p = Err ErrFileNotFound /\ FOldContent m = [] /\
      readContent v p = Ok (content_of (NewContent m))
  | FileOpModify => readExistingContent v p = Ok (FOldContent m) /\ readContent v p = Ok (content_of (NewContent m))
  | FileOpDelete => readContent v p = Err ErrFileNotFound
  | FileOpMkdir => False
  end.

(** The modifications tell the whole difference to the base. *)
Definition faithful (v : PipelineVFS) : Prop :=
  forall p, match modifications v !! p with
    | Some m => tells v p m
    | None => readContent v p = readExistingContent v p
    end.

(** A path not written nor deleted before. *)
Definition fresh (v : PipelineVFS) (path : string) : Prop :=
  match resolvePath env (visiblePaths v) path with
  | Ok p => (p ∉ deletedPaths v) /\ stagedContent v !! p = None /\ readable v p
  | Err _ => True
  end.

(** The overlays in which no path is written after it was written or deleted,
    nor a nil content. *)
Inductive once : PipelineVFS -> Prop :=
| once_new : once NewPipelineVFS
| once_write v now path c : once v -> fresh v path -> once (Write v now path (Some c)).1
| once_delete v now path : once v -> once (Delete v now path).1.

Lemma tells_same v v' p m :
  readExistingContent v' p = readExistingContent v p -> readContent v' p = readContent v p ->
  tells v p m -> tells v' p m.
Proof. intros E R. unfold tells. by rewrite E, R. Qed.

Lemma written_existing v now p c q : readExistingContent (written v now p c) q = readExistingContent v q.
Proof. unfold written, Vfs.readExistingContent. by destruct (determineWriteOp env v p) as [[v1 op] old]. Qed.

Lemma written_mods v now p c q : q <> p -> modifications (written v now p c) !! q = modifications v !! q.
Proof.
  intros N. unfold written. destruct (determineWriteOp env v p) as [[v1 op] old]. by apply lookup_insert_ne.
Qed.

Lemma written_faithful v now p c :
  faithful v -> (p ∉ deletedPaths v) -> stagedContent v !! p = None -> readable v p ->
  faithful (written v now p c).
Proof.
  intros F D S R q. pose proof (written_existing v now p c q) as E. pose proof (written_read v now p c q) as Rd.
  destruct (decide (q = p)) as [->|N].
  - unfold written in *. destruct (determineWriteOp env v p) as [[v1 op] old] eqn:Op.
    cbn [modifications] in *. rewrite lookup_insert_eq. revert Op. unfold determineWriteOp.
    rewrite bool_decide_eq_false_2, S by done.
    destruct R as [R|[c0 R]]; rewrite R; intros [= <- <- <-]; unfold tells; cbn [OriginalPath FOperation
      FOldContent NewContent]; rewrite E, R, Rd; by split_and!.
  - specialize (F q). rewrite written_mods by done. rewrite E, Rd.
    destruct (modifications v !! q); [by apply (tells_same v)|done].
Qed.

Lemma removed_faithful v now p old : faithful v -> faithful (removed v now p old).
Proof.
  intros F q. pose proof (removed_read v now p old q) as Rd. unfold removed in *. cbn [modifications] in *.
  destruct (decide (q = p)) as [->|N].
  - rewrite lookup_insert_eq. by split.
  - specialize (F q). rewrite lookup_insert_ne by done.
    destruct (modifications v !! q); [by apply (tells_same v)|by rewrite Rd].
Qed.

Lemma written_nil v now p c q : ~ nil_at v q -> ~ nil_at (written v now p (Some c)) q.
Proof.
  unfold nil_at, written. destruct (determineWriteOp env v p) as [[v1 op] old]. cbn [stagedContent workingContent].
  destruct (decide (q = p)) as [->|N]; [rewrite lookup_insert_eq|by rewrite lookup_insert_ne]. intros W [?|?]; [done|]. destruct W; by right.
Qed.

Lemma removed_nil v now p old q : ~ nil_at v q -> ~ nil_at (removed v now p old) q.
Proof.
  unfold nil_at, removed. cbn [stagedContent workingContent]. intros W [[_ ?]%lookup_delete_Some|?]; destruct W; first [by left | by right].
Qed.

Lemma once_no_nil v : once v -> forall q, ~ nil_at v q.
Proof.
  induction 1 as [|v now path c _ IH _|v now path _ IH]; intros q.
  - unfold nil_at. cbn. rewrite !lookup_empty. by intros [].
  - unfold Vfs.Write. destruct (checkWritePrereqs _ _); [done|].
    destruct (resolvePath _ _ _) as [p|]; [|done]. destruct (CheckFileWrite _ _); [done|].
    destruct (stageWrite_eq v now p (Some c)) as [-> | ->]; [by apply written_nil|]. cbn [fst]. by rewrite forget_nil_same.
  - unfold Vfs.Delete. destruct (checkWritePrereqs _ _); [done|].
    destruct (resolvePath _ _ _) as [p|]; [|done]. destruct (CheckFileDelete _ _); [done|].
    pose proof (stageDelete_eq v now p) as D.
    destruct (stagedContent v !! p) as [old|]; [|destruct (readExistingContent v p) as [old|]];
      try destruct D as [-> | ->]; try rewrite D; cbn [fst]; first [by apply removed_nil | by rewrite forget_nil_same | done].
Qed.

Lemma once_faithful v : once v -> faithful v.
Proof.
  induction 1 as [|v now path c O IH Fr|v now path O IH].
  - intros p. cbn [NewPipelineVFS modifications]. rewrite lookup_empty. unfold Vfs.readContent.
    cbn [NewPipelineVFS deletedPaths stagedContent]. by rewrite bool_decide_eq_false_2, lookup_empty by set_solver.
  - unfold Vfs.Write, fresh in *. destruct (checkWritePrereqs _ _); [done|].
    destruct (resolvePath _ _ _) as [p|]; [|done]. destruct (CheckFileWrite _ _); [done|].
    destruct (stageWrite_eq v now p (Some c)) as [-> | ->]; [|cbn [fst]; by rewrite forget_nil_same by (by apply once_no_nil)].
    destruct Fr as (D & S & R). by apply written_faithful.
  - unfold Vfs.Delete. destruct (checkWritePrereqs _ _); [done|].
    destruct (resolvePath _ _ _) as [p|]; [|done]. destruct (CheckFileDelete _ _); [done|].
    pose proof (stageDelete_eq v now p) as D.
    destruct (stagedContent v !! p) as [old|]; [|destruct (readExistingContent v p) as [old|]];
      try destruct D as [-> | ->]; try rewrite D; cbn [fst];
      first [done | by apply removed_faithful | by rewrite forget_nil_same by (by apply once_no_nil)].
Qed.

(** When no path is written a second time, nor after its deletion, the
    modifications an overlay hands out tell its whole difference to the base:
    a created or modified path is there with the content the base has for it
    and the one the overlay reads, a deleted path as deleted, and any other
    path reads as in the base. *)
Lemma modifications_faithful v :
  once v ->
  (forall m, m ∈ GetModifications v -> tells v (OriginalPath m) m) /\
  (forall p, (forall m, m ∈ GetModifications v -> OriginalPath m <> p) ->
    readContent v p = readExistingContent v p) /\
  NoDup (OriginalPath <$> GetModifications v).
Proof.
  intros O. pose proof (once_faithful v O) as F.
  assert (G : forall m, m ∈ GetModifications v <-> exists p, modifications v !! p = Some m).
  { intros m. unfold GetModifications. rewrite list_elem_of_fmap. split.
    - intros ([p m'] & -> & Hm). exists p. by apply elem_of_range_map in Hm.
    - intros [p Hm]. exists (p, m). split; [done|]. by apply elem_of_range_map. }
  assert (T : forall p m, modifications v !! p = Some m -> tells v p m).
  { intros p m Hm. specialize (F p). by rewrite Hm in F. }
  split_and!.
  - intros m (p & Hm)%G. pose proof (T _ _ Hm) as K. pose proof K as [-> _]. done.
  - intros p Np. specialize (F p). destruct (modifications v !! p) as [m|] eqn:Hm; [|done].
    destruct (Np m); [apply G; eauto|by destruct (T _ _ Hm)].
  - unfold GetModifications. rewrite <- list_fmap_compose.
    rewrite (list_fmap_ext _ fst); [apply NoDup_range_keys|].
    intros i [p m] Hi. apply list_elem_of_lookup_2, elem_of_range_map in Hi. by destruct (T _ _ Hi).
Qed.
End Proof.
