(* ===== verification/VfsTx.v ===== *)
(** * Transactions of the overlay and what it shows (core/versioning/vfs.go)

    [Module VfsTx]: [BeginTransaction] and the methods of [pipelineTx]; a
    transaction is a pointer, so the transactions live in a list beside the
    overlay.  [Module VfsShow]: existence, [Stat] and the listings.  The
    sources below the overlay are here apart: a base file system, a reader and
    the disk, of which [readBase] is the first there is. *)

From S2P Require Import Prelude Ids.
From S2P Require Export VfsProof.
Import Vfs.

Inductive dir_read := Listed (names : list string) | NoDir | ListFailed (msg : string).

(** What [fs.FileInfo] says here. *)
Record StatInfo := mkStat { SDir : bool; SSize : Z }.

(** [vfsBaseFS] *)
Record base_fs := mkBaseFS {
  fsRead : string -> base_read;
  fsExists : string -> result vfs_error bool;
  fsList : string -> dir_read;
  fsStat : string -> result vfs_error StatInfo
}.

Record Sources := mkSources {
  baseFS : option base_fs;
  baseReader : option (string -> base_read);
  osDisk : base_fs
}.

Module VfsTx.

Inductive tx_error := ErrVFSInTransaction | ErrTransactionAborted | InVFS (e : vfs_error).

(** [None]: a nil map, which a rollback leaves. *)
Record pipelineTx := mkTx {
  tx_staged : option (gmap string byte_slice);
  tx_deleted : option (gset string);
  committed : bool
}.

Record TxVFS := mkTxVFS {
  overlay : PipelineVFS;
  inTransaction : bool;
  currentTx : option nat;
  txs : list pipelineTx
}.

Section Tx.
Context `{RangeOrder}.
Variable env : VFSEnv.
Variable src : Sources.

Definition NewTxVFS : TxVFS := mkTxVFS NewPipelineVFS false None [].

Definition BeginTransaction (s : TxVFS) : TxVFS * result tx_error nat :=
  if closed (overlay s) then (s, Err (InVFS ErrVFSClosed))
  else if inTransaction s then (s, Err ErrVFSInTransaction)
  else
    let i := length (txs s) in
    (mkTxVFS (overlay s) true (Some i) (txs s ++ [mkTx (Some ∅) (Some ∅) false]), Ok i).

Definition set_tx (s : TxVFS) (i : nat) (tx : pipelineTx) : TxVFS :=
  mkTxVFS (overlay s) (inTransaction s) (currentTx s) (<[i := tx]> (txs s)).
Definition set_overlay (s : TxVFS) (v : PipelineVFS) : TxVFS :=
  mkTxVFS v (inTransaction s) (currentTx s) (txs s).

(** A transaction reads below the overlay with the reader or from the disk,
    never from the base file system. *)
Definition below (p : string) : base_read :=
  match baseReader src with Some reader => reader p | None => fsRead (osDisk src) p end.

Definition tx_readContent (v : PipelineVFS) (tx : pipelineTx) (absPath : string) : result vfs_error bytes :=
  if bool_decide (absPath ∈ default ∅ (tx_deleted tx)) then Err ErrFileNotFound
  else match default ∅ (tx_staged tx) !! absPath with
    | Some content => Ok (content_of content)
    | None =>
      match stagedContent v !! absPath with
      | Some content => Ok (content_of content)
      | None =>
        match workingContent v !! absPath with
        | Some content => Ok (content_of content)
        | None =>
          match below absPath with
          | Found content => Ok content
          | Missing => Err ErrFileNotFound
          | Failed msg => Err (ErrBase msg)
          end
        end
      end
    end.

(** In the methods, [None] is a panic: a write to a nil map. *)
Definition tx_Read (s : TxVFS) (i : nat) (path : string) : option (result vfs_error bytes) :=
  (fun tx => match resolvePath env (visiblePaths (overlay s)) path with
    | Err e => Err e
    | Ok absPath => tx_readContent (overlay s) tx absPath
    end) <$> txs s !! i.

Definition show_path (v : PipelineVFS) (p : string) : PipelineVFS :=
  mkVFS (closed v) (modifications v) (stagedContent v) (deletedPaths v) (baseVersions v) (workingContent v)
    ({[p]} ∪ visiblePaths v) (createdDirs v).

Definition tx_Write (s : TxVFS) (i : nat) (path : string) (content : byte_slice) : option (TxVFS * option vfs_error) :=
  tx ← txs s !! i;
  if ReadOnly env then Some (s, Some ErrPermissionDenied)
  else match resolvePath env (visiblePaths (overlay s)) path with
    | Err e => Some (s, Some e)
    | Ok absPath =>
      match CheckFileWrite env absPath with
      | Some e => Some (s, Some e)
      | None =>
        if closed (overlay s) then None
        else match tx_staged tx with
          | None => None
          | Some staged =>
            Some (set_tx (set_overlay s (show_path (overlay s) absPath)) i
              (mkTx (Some (<[absPath := content]> staged))
                ((fun d => d ∖ {[absPath]}) <$> tx_deleted tx) (committed tx)), None)
          end
      end
    end.

Definition tx_Delete (s : TxVFS) (i : nat) (path : string) : option (TxVFS * option vfs_error) :=
  tx ← txs s !! i;
  if ReadOnly env then Some (s, Some ErrPermissionDenied)
  else match resolvePath env (visiblePaths (overlay s)) path with
    | Err e => Some (s, Some e)
    | Ok absPath =>
      match CheckFileDelete env absPath with
      | Some e => Some (s, Some e)
      | None =>
        if closed (overlay s) then None
        else match tx_deleted tx with
          | None => None
          | Some deleted =>
            Some (set_tx (set_overlay s (show_path (overlay s) absPath)) i
              (mkTx (delete absPath <$> tx_staged tx) (Some ({[absPath]} ∪ deleted)) (committed tx)), None)
          end
      end
    end.

(** [now]: the clock, by the path that is written. *)
Fixpoint commitWrites (v : PipelineVFS) (now : string -> Z) (l : list (string * byte_slice))
  : option (PipelineVFS * option vfs_error) :=
  match l with
  | [] => Some (v, None)
  | (path, content) :: l =>
    if closed v then None
    else match stageWrite env v (now path) path content with
      | (v, Some e) => Some (v, Some e)
      | (v, None) => commitWrites v now l
      end
  end.

Fixpoint commitDeletes (v : PipelineVFS) (now : string -> Z) (l : list string)
  : option (PipelineVFS * option vfs_error) :=
  match l with
  | [] => Some (v, None)
  | path :: l =>
    if closed v && is_ok (getDeleteContent env v path).2 then None
    else match stageDelete env v (now path) path with
      | (v, Some ErrFileNotFound) | (v, None) => commitDeletes v now l
      | (v, Some e) => Some (v, Some e)
      end
  end.

Definition finalize (s : TxVFS) (i : nat) (tx : pipelineTx) : TxVFS :=
  set_tx (mkTxVFS (overlay s) false None (txs s)) i (mkTx (tx_staged tx) (tx_deleted tx) true).

Definition Commit (s : TxVFS) (i : nat) (now : string -> Z) : option (TxVFS * option tx_error) :=
  tx ← txs s !! i;
  if committed tx then Some (s, Some ErrTransactionAborted)
  else match commitWrites (overlay s) now (range_map 44 (default ∅ (tx_staged tx))) with
    | None => None
    | Some (v, Some e) => Some (set_overlay s v, Some (InVFS e))
    | Some (v, None) =>
      match commitDeletes v now (range_order 45 (elements (default ∅ (tx_deleted tx)))) with
      | None => None
      | Some (v, Some e) => Some (set_overlay s v, Some (InVFS e))
      | Some (v, None) => Some (finalize (set_overlay s v) i tx, None)
      end
    end.

Definition Rollback (s : TxVFS) (i : nat) : TxVFS :=
  set_tx (mkTxVFS (overlay s) false None (txs s)) i (mkTx None None true).

(* ------------------------------------------------------------------ *)
(** ** A transaction from its beginning *)

Inductive tx_op := TWrite (path : string) (content : byte_slice) | TDelete (path : string).

Definition op_path (o : tx_op) : string := match o with TWrite p _ | TDelete p => p end.
Definition op_content (o : tx_op) : option bytes := match o with TWrite _ c => Some (content_of c) | TDelete _ => None end.

Definition tx_step (s : TxVFS) (i : nat) (o : tx_op) : option (TxVFS * option vfs_error) :=
  match o with TWrite path content => tx_Write s i path content | TDelete path => tx_Delete s i path end.

(** The changes asked for, in order: of a path to a content, or to none.  A
    call that fails asks for none. *)
Fixpoint tx_run (s : TxVFS) (i : nat) (ops : list tx_op)
  : option (TxVFS * list (string * option bytes)) :=
  match ops with
  | [] => Some (s, [])
  | o :: ops =>
    '(s1, r) ← tx_step s i o;
    '(s2, changes) ← tx_run s1 i ops;
    Some (s2, match r, resolvePath env (visiblePaths (overlay s)) (op_path o) with
      | None, Ok p => (p, op_content o) :: changes
      | _, _ => changes
      end)
  end.
End Tx.
End VfsTx.

Module VfsTxProof.
Import VfsTx.
Section Proof.
Context `{RangeOrder}.
Variable env : VFSEnv.
Variable src : Sources.
Abbreviation readContent := (Vfs.readContent env).

(** What a path reads as when the changes [m] are over [r]. *)
Definition over (m : gmap string (option bytes)) (p : string) (r : result vfs_error bytes) : result vfs_error bytes :=
  match m !! p with Some (Some c) => Ok c | Some None => Err ErrFileNotFound | None => r end.

(** The last of the changes of each path. *)
Definition effect (changes : list (string * option bytes)) : gmap string (option bytes) :=
  foldl (fun m c => <[c.1 := c.2]> m) ∅ changes.

(** What a transaction has pending. *)
Definition pending (w : gmap string byte_slice) (d : gset string) (p : string) : option (option bytes) :=
  if bool_decide (p ∈ d) then Some None else (fun c => Some (content_of c)) <$> w !! p.

(** An open transaction whose pending changes are [m]. *)
Definition holds (tx : pipelineTx) (m : gmap string (option bytes)) : Prop :=
  committed tx = false /\ exists w d, tx_staged tx = Some w /\ tx_deleted tx = Some d /\
    (forall p, p ∈ d -> w !! p = None) /\ forall p, m !! p = pending w d p.

(** [v'] has at a path what [v] has there, as far as reading goes. *)
Definition same_at (v v' : PipelineVFS) (p : string) : Prop :=
  (p ∈ deletedPaths v' <-> p ∈ deletedPaths v) /\ stagedContent v' !! p = stagedContent v !! p /\
  workingContent v' !! p = workingContent v !! p.

(** What a path reads as when its content is forgotten if it is nil. *)
Definition forgotten (v : PipelineVFS) (p : string) : result vfs_error bytes := readContent (forget_nil v p) p.

Lemma same_at_refl v p : same_at v v p.
Proof. done. Qed.

Lemma same_at_trans v1 v2 v3 p : same_at v1 v2 p -> same_at v2 v3 p -> same_at v1 v3 p.
Proof. intros (D1 & S1 & W1) (D2 & S2 & W2). split; [tauto|]. by rewrite S2, W2. Qed.

Definition no_nil (o : option byte_slice) : option byte_slice := match o with Some None => None | _ => o end.

Lemma drop_nil_lookup (m : gmap string byte_slice) p : drop_nil m p !! p = no_nil (m !! p).
Proof. unfold drop_nil. destruct (m !! p) as [[c|]|] eqn:E; [done|by rewrite lookup_delete_eq|done]. Qed.

Lemma same_at_reads v v' p : same_at v v' p -> readContent v' p = readContent v p /\ forgotten v' p = forgotten v p.
Proof.
  intros (D & S & W). unfold forgotten, Vfs.readContent, readExistingContent, forget_nil.
  cbn [stagedContent workingContent deletedPaths]. by rewrite !drop_nil_lookup, S, W, (bool_decide_ext _ _ D).
Qed.

Lemma forget_nil_at v p q : q <> p -> same_at v (forget_nil v p) q.
Proof.
  intros N. unfold same_at, forget_nil, drop_nil. cbn [stagedContent workingContent deletedPaths]. split; [done|].
  split; repeat case_match; by rewrite ?lookup_delete_ne.
Qed.

Lemma forgotten_same v p : ~ nil_at v p -> forgotten v p = readContent v p.
Proof. intros N. unfold forgotten. by rewrite forget_nil_same. Qed.

(** What a staged call that failed leaves to be read. *)
Lemma failed_read v v' p : v' = v \/ v' = forget_nil v p ->
  forall q, readContent v' q = readContent v q \/ q = p /\ readContent v' q = forgotten v q.
Proof.
  intros [-> | ->] q; [by left|]. destruct (decide (q = p)) as [->|N]; [by right|left]. by apply same_at_reads, forget_nil_at.
Qed.

Lemma holds_write tx m p c w d : holds tx m -> tx_staged tx = Some w -> tx_deleted tx = Some d ->
  holds (mkTx (Some (<[p := c]> w)) (Some (d ∖ {[p]})) (committed tx)) (<[p := Some (content_of c)]> m).
Proof.
  intros (C & w' & d' & Ew & Ed & D & M) Ew' Ed'. assert (w' = w) as -> by congruence. assert (d' = d) as -> by congruence.
  split; [done|]. exists (<[p := c]> w), (d ∖ {[p]}). split_and!; [done..| |].
  - intros q Hq. rewrite lookup_insert_ne by set_solver. apply D. set_solver.
  - intros q. unfold pending. destruct (decide (q = p)) as [->|N].
    + rewrite !lookup_insert_eq. by rewrite bool_decide_eq_false_2 by set_solver.
    + rewrite !lookup_insert_ne by done. rewrite M. unfold pending.
      by rewrite (bool_decide_ext (q ∈ d ∖ {[p]}) (q ∈ d)) by set_solver.
Qed.

Lemma holds_delete tx m p w d : holds tx m -> tx_staged tx = Some w -> tx_deleted tx = Some d ->
  holds (mkTx (Some (delete p w)) (Some ({[p]} ∪ d)) (committed tx)) (<[p := None]> m).
Proof.
  intros (C & w' & d' & Ew & Ed & D & M) Ew' Ed'. assert (w' = w) as -> by congruence. assert (d' = d) as -> by congruence.
  split; [done|]. exists (delete p w), ({[p]} ∪ d). split_and!; [done..| |].
  - intros q Hq. destruct (decide (q = p)) as [->|N]; [apply lookup_delete_eq|].
    rewrite lookup_delete_ne by done. apply D. set_solver.
  - intros q. unfold pending. destruct (decide (q = p)) as [->|N].
    + rewrite lookup_insert_eq. by rewrite bool_decide_eq_true_2 by set_solver.
    + rewrite lookup_insert_ne, lookup_delete_ne, M by done. unfold pending.
      by rewrite (bool_decide_ext (q ∈ {[p]} ∪ d) (q ∈ d)) by set_solver.
Qed.

(** The overlay is open, its transaction [i] is the current one and has [m]
    pending, and at every path it is as [v0] was. *)
Record during (s : TxVFS) (i : nat) (m : gmap string (option bytes)) (v0 : PipelineVFS) : Prop := {
  du_open : closed (overlay s) = false;
  du_in : inTransaction s = true;
  du_tx : exists tx, txs s !! i = Some tx /\ holds tx m;
  du_same : forall p, same_at v0 (overlay s) p
}.

Lemma step_during s i m v0 o : during s i m v0 ->
  exists s' r, tx_step env s i o = Some (s', r) /\
    match r, resolvePath env (visiblePaths (overlay s)) (op_path o) with
    | None, Ok p => during s' i (<[p := op_content o]> m) v0
    | None, Err _ => False
    | Some _, _ => s' = s
    end.
Proof.
  intros [Op In (tx & Ht & Hh) Rd]. pose proof Hh as (C & w & d & Ew & Ed & _).
  assert (K : forall p tx' m', holds tx' m' -> during (set_tx (set_overlay s (show_path (overlay s) p)) i tx') i m' v0).
  { intros p tx' m' Hh'. split; [done|done| |done]. exists tx'. split; [|done].
    apply list_lookup_insert_eq. by eapply lookup_lt_Some. }
  destruct o as [path c|path]; cbn [tx_step op_path op_content]; unfold tx_Write, tx_Delete; rewrite Ht; cbn [mbind option_bind];
    (destruct (ReadOnly env); [by do 2 eexists|]);
    (destruct (resolvePath _ _ _) as [p|e]; [|by do 2 eexists]).
  - destruct (CheckFileWrite env p); [by do 2 eexists|]. rewrite Op, Ew, Ed.
    do 2 eexists. split; [reflexivity|]. apply K. by apply holds_write.
  - destruct (CheckFileDelete env p); [by do 2 eexists|]. rewrite Op, Ew, Ed.
    do 2 eexists. split; [reflexivity|]. apply K. by apply holds_delete.
Qed.

Lemma run_during ops s i m v0 : during s i m v0 ->
  exists s' changes, tx_run env s i ops = Some (s', changes) /\
    during s' i (foldl (fun m c => <[c.1 := c.2]> m) m changes) v0.
Proof.
  revert s m. induction ops as [|o ops IH]; intros s m D; [by do 2 eexists|].
  destruct (step_during s i m v0 o D) as (s1 & r & E & K). cbn [tx_run]. rewrite E. cbn [mbind option_bind].
  destruct r as [e|]; [subst s1|destruct (resolvePath _ _ _) as [p|]; [|done]].
  - destruct (IH s m D) as (s2 & ch & -> & D2). cbn. by do 2 eexists.
  - destruct (IH s1 _ K) as (s2 & ch & -> & D2). cbn. by do 2 eexists.
Qed.

(* ------------------------------------------------------------------ *)
(** ** Committing *)

Lemma written_closed v now p c : closed (written env v now p c) = closed v.
Proof. unfold written. by destruct (determineWriteOp env v p) as [[]]. Qed.

Lemma written_at v now p c q : q <> p -> same_at v (written env v now p c) q.
Proof.
  intros N. unfold written. destruct (determineWriteOp env v p) as [[v1 op] old]. unfold same_at. cbn [stagedContent workingContent deletedPaths].
  split; [set_solver|]. by rewrite lookup_insert_ne.
Qed.

Lemma removed_at v now p old q : q <> p -> same_at v (removed env v now p old) q.
Proof. intros N. unfold same_at, removed. cbn [stagedContent workingContent deletedPaths]. split; [set_solver|]. by rewrite lookup_delete_ne. Qed.

(** What a part of a commit over the paths [ps], of which the first [done] were
    committed, leaves: [new] there, and elsewhere what was; but a nil content
    may be forgotten at a path at which it failed. *)
Record part (v v' : PipelineVFS) (failed : bool) (ps done : list string) (new : string -> option (result vfs_error bytes)) : Prop := {
  pa_open : closed v' = false;
  pa_prefix : done `prefix_of` ps;
  pa_all : failed = false -> done = ps;
  pa_new : forall p, is_Some (new p) <-> p ∈ done;
  pa_reads : forall p, readContent v' p = default (readContent v p) (new p) \/
    failed = true /\ p ∈ ps /\ (p ∉ done) /\ readContent v' p = forgotten v p;
  pa_at : forall p, failed = false -> p ∉ done -> same_at v v' p
}.

Lemma part_failed v v' p ps : closed v = false -> v' = v \/ v' = forget_nil v p -> part v v' true (p :: ps) [] (fun _ => None).
Proof.
  intros Op F. split; try done; [by destruct F as [-> | ->]|apply prefix_nil|by intros q; split; [intros []|intros ?%not_elem_of_nil]|].
  intros q. destruct (failed_read v v' p F q) as [E|[-> E]]; [by left|right]. split_and!; [done|by left|by apply not_elem_of_nil|done].
Qed.

Lemma part_cons v v1 v' failed p ps done new r : p ∉ ps -> readContent v1 p = r -> (forall q, q <> p -> same_at v v1 q) ->
  part v1 v' failed ps done new -> part v v' failed (p :: ps) (p :: done) (fun q => if decide (q = p) then Some r else new q).
Proof.
  intros Np Rp At [Op Pre All New Rd Same]. assert (Nd : p ∉ done) by (intros I; apply Np; destruct Pre as [k ->]; apply elem_of_app; by left).
  split; [done|by apply prefix_cons|by intros ->%All| | |].
  - intros q. rewrite elem_of_cons. destruct (decide (q = p)) as [->|N]; [by split; [left|]|]. rewrite New. naive_solver.
  - intros q. destruct (decide (q = p)) as [->|N].
    + left. destruct (Rd p) as [->|(_ & I & _)]; [|done]. destruct (new p) eqn:E; [|done]. destruct Nd. apply New. by eexists.
    + destruct (same_at_reads _ _ _ (At q N)) as [<- <-]. destruct (Rd q) as [?|(F & I & Nq & ?)]; [by left|right].
      split_and!; [done|by right|by rewrite not_elem_of_cons|done].
  - intros q F Nq. apply not_elem_of_cons in Nq as [Nq Nq']. eapply same_at_trans; [by apply At|by apply Same].
Qed.

Lemma part_nil v : closed v = false -> part v v false [] [] (fun _ => None).
Proof. intros Op. split; try done; [|by left]. intros q. by split; [intros []|intros ?%not_elem_of_nil]. Qed.

Definition is_failed (r : option vfs_error) : bool := match r with Some _ => true | None => false end.

(** The writes of a commit that were done, before the first that fails. *)
Lemma commitWrites_read l v now : closed v = false -> NoDup l.*1 ->
  exists v' r done new, commitWrites env v now l = Some (v', r) /\ part v v' (is_failed r) l.*1 done new /\
    forall p x, new p = Some x -> exists c, (p, c) ∈ l /\ x = Ok (content_of c).
Proof.
  revert v. induction l as [|[p c] l IH]; intros v Op N; [exists v, None, [], (fun _ => None); split_and!; [done|by apply part_nil|done]|].
  apply NoDup_cons in N as [Np N]. cbn [commitWrites]. rewrite Op.
  destruct (stageWrite_eq env v (now p) p c) as [-> | ->].
  - destruct (IH (written env v (now p) p c)) as (v' & r & dn & new & E & Pt & K); [by rewrite written_closed|done|].
    exists v', r, (p :: dn), (fun q => if decide (q = p) then Some (Ok (content_of c)) else new q). split; [done|]. split.
    + apply (part_cons v (written env v (now p) p c)); [done|rewrite written_read; by case_decide|by intros; apply written_at|done].
    + intros q x. case_decide as Q; [intros [= <-]; subst; exists c; split; [by left|done]|].
      intros (c' & I & ->)%K. exists c'. split; [by right|done].
  - exists (forget_nil v p), (Some ErrMemoryBudgetExceeded), [], (fun _ => None). split_and!; [done| |done]. apply part_failed; [done|by right].
Qed.

Lemma stageDelete_read v now p : closed v = false ->
  match stageDelete env v now p with
  | (v', Some ErrFileNotFound) | (v', None) => closed v' = false /\ readContent v' p = Err ErrFileNotFound /\ forall q, q <> p -> same_at v v' q
  | (v', Some _) => v' = v \/ v' = forget_nil v p
  end.
Proof.
  intros Op. pose proof (stageDelete_eq env v now p) as D.
  assert (K : forall old, closed (removed env v now p old) = false /\ readContent (removed env v now p old) p = Err ErrFileNotFound /\
    forall q, q <> p -> same_at v (removed env v now p old) q).
  { intros old. split; [done|]. split; [rewrite removed_read; by case_decide|by intros; apply removed_at]. }
  destruct (stagedContent v !! p) as [old|] eqn:S; [by destruct D as [-> | ->]; [|right]|].
  destruct (readExistingContent env v p) as [old|e] eqn:E; [by destruct D as [-> | ->]; [|right]|]. rewrite D.
  destruct e; try by left. split; [done|]. split; [|done].
  unfold Vfs.readContent. rewrite S, E. by case_bool_decide.
Qed.

Lemma commitDeletes_read l v now : closed v = false -> NoDup l ->
  exists v' r done new, commitDeletes env v now l = Some (v', r) /\ part v v' (is_failed r) l done new /\
    forall p x, new p = Some x -> x = Err ErrFileNotFound.
Proof.
  revert v. induction l as [|p l IH]; intros v Op N; [exists v, None, [], (fun _ => None); split_and!; [done|by apply part_nil|done]|].
  apply NoDup_cons in N as [Np N]. cbn [commitDeletes]. rewrite Op. cbn [andb]. pose proof (stageDelete_read v (now p) p Op) as D.
  assert (K : forall v1, closed v1 = false /\ readContent v1 p = Err ErrFileNotFound /\ (forall q, q <> p -> same_at v v1 q) ->
    exists v' r done new, commitDeletes env v1 now l = Some (v', r) /\ part v v' (is_failed r) (p :: l) done new /\
    forall q x, new q = Some x -> x = Err ErrFileNotFound).
  { intros v1 (O1 & R1 & At). destruct (IH v1 O1 N) as (v' & r & dn & new & E & Pt & K).
    exists v', r, (p :: dn), (fun q => if decide (q = p) then Some (Err ErrFileNotFound) else new q). split; [done|].
    split; [by apply (part_cons v v1)|]. intros q x. case_decide; [by intros [= <-]|apply K]. }
  assert (B : forall v1 e, v1 = v \/ v1 = forget_nil v p -> exists v' r done new, Some (v1, Some e) = Some (v', r) /\
    part v v' (is_failed r) (p :: l) done new /\ forall q x, new q = Some x -> x = Err (E := vfs_error) (A := bytes) ErrFileNotFound).
  { intros v1 e F. exists v1, (Some e), [], (fun _ => None). split_and!; [done|by apply part_failed|done]. }
  destruct (stageDelete env v (now p) p) as [v1 [[]|]]; first [by apply K | by apply B].
Qed.

(** A part of the pending changes of the right kind, over what was there. *)
Lemma pending_over w d m p r : (forall q, q ∈ d -> w !! q = None) -> (forall q, m !! q = pending w d q) ->
  (if bool_decide (p ∈ d) then Err ErrFileNotFound else match w !! p with Some c => Ok (content_of c) | None => r end) = over m p r.
Proof. intros D M. unfold over. rewrite M. unfold pending. case_bool_decide; [done|]. by destruct (w !! p). Qed.

(** What the writes of a commit make of a path, and then its deletions. *)
Lemma writes_over w d m v0 v v1 failed done new p : (forall q, same_at v0 v q) -> (forall q, q ∈ d -> w !! q = None) -> (forall q, m !! q = pending w d q) ->
  part v v1 failed (range_map 44 w).*1 done new -> (forall p x, new p = Some x -> exists c, (p, c) ∈ range_map 44 w /\ x = Ok (content_of c)) ->
  (is_Some (new p) -> readContent v1 p = over m p (readContent v0 p)) /\
  (new p = None -> readContent v1 p = readContent v0 p \/ failed = true /\ is_Some (m !! p) /\ readContent v1 p = forgotten v0 p).
Proof.
  intros Same D M Pt K. destruct (same_at_reads _ _ _ (Same p)) as [Eb Ef].
  assert (Mp : p ∈ (range_map 44 w).*1 -> is_Some (m !! p)).
  { intros I. apply (elem_of_range_keys 44) in I as [c Hc]. rewrite M. unfold pending. rewrite Hc. case_bool_decide; by eexists. }
  destruct (pa_reads _ _ _ _ _ _ Pt p) as [E|(F & I & Nd & E)]; split.
  - intros [x Hx]. rewrite E, Hx. destruct (K p x Hx) as (c & I & ->). apply elem_of_range_map in I. cbn [default from_option id].
    unfold over. rewrite M. unfold pending. rewrite bool_decide_eq_false_2 by (intros Id; by rewrite D in I). by rewrite I.
  - intros N. left. by rewrite E, N, Eb.
  - intros Hs. by apply (pa_new _ _ _ _ _ _ Pt) in Hs.
  - intros _. right. split; [done|]. split; [by apply Mp|]. by rewrite E, Ef.
Qed.

Lemma commit_during s i m v0 now : during s i m v0 ->
  exists s' r, Commit env s i now = Some (s', r) /\
    match r with
    | None => inTransaction s' = false /\ forall p, readContent (overlay s') p = over m p (readContent v0 p)
    | Some _ => inTransaction s' = true /\ forall p, readContent (overlay s') p = readContent v0 p \/
        readContent (overlay s') p = over m p (readContent v0 p) \/ is_Some (m !! p) /\ readContent (overlay s') p = forgotten v0 p
    end.
Proof.
  intros [Op In (tx & Ht & C & w & d & Ew & Ed & D & M) Same]. unfold Commit. rewrite Ht. cbn [mbind option_bind].
  rewrite C, Ew, Ed. cbn [from_option id].
  destruct (commitWrites_read (range_map 44 w) (overlay s) now Op (NoDup_range_keys 44 w)) as (v1 & r1 & d1 & n1 & -> & P1 & K1).
  pose proof (fun p => writes_over w d m v0 _ v1 _ d1 n1 p Same D M P1 K1) as W1.
  destruct r1 as [e|].
  { do 2 eexists. split; [reflexivity|]. split; [done|]. intros p. cbn [overlay set_overlay]. destruct (W1 p) as [Ws Wn].
    destruct (n1 p); [right; left; apply Ws; by eexists|]. destruct (Wn eq_refl) as [?|(_ & ?)]; [by left|by right; right]. }
  destruct (commitDeletes_read (range_order 45 (elements d)) v1 now) as (v2 & r2 & d2 & n2 & -> & P2 & K2);
    [apply P1|rewrite range_order_perm; apply NoDup_elements|].
  assert (Dl : forall p, p ∈ range_order 45 (elements d) <-> p ∈ d) by (intros p; by rewrite range_order_perm, elem_of_elements).
  assert (R1 : forall p, readContent v1 p = if bool_decide (p ∈ d) then readContent v0 p else over m p (readContent v0 p)).
  { intros p. destruct (W1 p) as [Ws Wn]. pose proof (pa_new _ _ _ _ _ _ P1 p) as Np. rewrite (pa_all _ _ _ _ _ _ P1 eq_refl) in Np. fold (range_keys 44 w) in Np. rewrite elem_of_range_keys in Np.
    destruct (n1 p) as [x|] eqn:E.
    - rewrite bool_decide_eq_false_2; [apply Ws; by eexists|]. intros I. destruct (proj1 Np) as [c Hc]; [by eexists|]. by rewrite D in Hc.
    - destruct (Wn eq_refl) as [->|(F & _)]; [|done]. case_bool_decide as B; [done|]. unfold over. rewrite M. unfold pending.
      rewrite bool_decide_eq_false_2 by done. destruct (w !! p) eqn:Hw; [|done]. destruct (proj2 Np) as [? ?]; [by eexists|done]. }
  assert (Rd : forall p, p ∈ d -> over m p (readContent v0 p) = Err ErrFileNotFound /\ is_Some (m !! p) /\ forgotten v1 p = forgotten v0 p).
  { intros p I. assert (Mp : m !! p = Some None) by (rewrite M; unfold pending; by rewrite bool_decide_eq_true_2). unfold over. rewrite Mp. split_and!; [done|by eexists|].
    apply same_at_reads. eapply same_at_trans; [apply Same|]. apply (pa_at _ _ _ _ _ _ P1); [done|].
    rewrite (pa_all _ _ _ _ _ _ P1 eq_refl). fold (range_keys 44 w). rewrite elem_of_range_keys. intros [c Hc]. by rewrite D in Hc. }
  assert (R2 : forall p, (p ∈ d2 /\ p ∈ d -> readContent v2 p = over m p (readContent v0 p)) /\ (p ∉ d2 -> readContent v2 p = readContent v1 p \/
    is_failed r2 = true /\ p ∈ d /\ readContent v2 p = forgotten v0 p)).
  { intros p. pose proof (pa_new _ _ _ _ _ _ P2 p) as Np. destruct (pa_reads _ _ _ _ _ _ P2 p) as [E|(F & I & Nd & E)]; split.
    - intros [I Id]. apply Np in I as [x Hx]. rewrite E, Hx, (K2 p x Hx). symmetry. by apply Rd.
    - intros N. left. rewrite E. destruct (n2 p) eqn:Hn; [|done]. destruct N. apply Np. by eexists.
    - by intros [].
    - intros _. right. apply Dl in I. split_and!; [done..|]. rewrite E. by apply Rd. }
  assert (In2 : forall p, p ∈ d2 -> p ∈ d).
  { intros p Hp. apply Dl. destruct (pa_prefix _ _ _ _ _ _ P2) as [k ->]. apply elem_of_app. by left. }
  destruct r2 as [e|]; do 2 eexists; (split; [reflexivity|]); cbn [overlay set_overlay finalize set_tx]; (split; [done|]); intros p;
    destruct (R2 p) as [Ry Rn], (decide (p ∈ d2)) as [I|N].
  - right. left. apply Ry. by split; [|apply In2].
  - destruct (Rn N) as [->|(_ & I & E)]; [rewrite R1; case_bool_decide; [by left|by right; left]|right; right; split; [by apply Rd|done]].
  - apply Ry. by split; [|apply In2].
  - destruct (Rn N) as [->|(F & _)]; [|done]. rewrite R1, bool_decide_eq_false_2; [done|].
    by rewrite <- Dl, <- (pa_all _ _ _ _ _ _ P2 eq_refl).
Qed.

(** C38: A transaction of an open overlay, from its beginning, with any writes
    and deletions of its own while nothing else happens to the overlay: they
    do not panic and leave what every path of the overlay reads as; the
    transaction itself reads a path it changed as its last change made it.  A
    commit that succeeds makes every such path of the overlay read as its
    last change, and no other path read differently; after a commit that
    fails each path reads as before or as the transaction made it, but that a
    nil content of a path it changed may be forgotten, and the transaction is
    open still.  After a rollback every path reads as before. *)
Theorem transaction_exact s s0 i ops :
  BeginTransaction s = (s0, Ok i) ->
  exists s1 changes, tx_run env s0 i ops = Some (s1, changes) /\
    let m := effect changes in let base := readContent (overlay s) in
    (forall p, readContent (overlay s1) p = base p) /\
    (forall path p c, resolvePath env (visiblePaths (overlay s1)) path = Ok p -> m !! p = Some c ->
      tx_Read env src s1 i path = Some (match c with Some c => Ok c | None => Err ErrFileNotFound end)) /\
    (forall now, exists s2 r, Commit env s1 i now = Some (s2, r) /\
      match r with
      | None => inTransaction s2 = false /\ forall p, readContent (overlay s2) p = over m p (base p)
      | Some _ => inTransaction s2 = true /\ forall p,
          readContent (overlay s2) p = base p \/ readContent (overlay s2) p = over m p (base p) \/
          is_Some (m !! p) /\ nil_at (overlay s) p /\ readContent (overlay s2) p = forgotten (overlay s) p
      end) /\
    inTransaction (Rollback s1 i) = false /\
    (forall p, readContent (overlay (Rollback s1 i)) p = base p).
Proof.
  unfold BeginTransaction. destruct (closed (overlay s)) eqn:Op; [done|]. destruct (inTransaction s); [done|]. intros [= <- <-].
  destruct (run_during ops (mkTxVFS (overlay s) true (Some (length (txs s))) (txs s ++ [mkTx (Some ∅) (Some ∅) false]))
    (length (txs s)) ∅ (overlay s)) as (s1 & ch & E & D).
  { split; [done|done| |done]. exists (mkTx (Some ∅) (Some ∅) false). split; [by apply list_lookup_middle|].
    split; [done|]. exists ∅, ∅. split_and!; [done..|]. intros p. unfold pending. rewrite !lookup_empty. by case_bool_decide. }
  exists s1, ch. split; [exact E|]. fold (effect ch) in D. cbn zeta.
  assert (B : forall p, readContent (overlay s1) p = readContent (overlay s) p) by (intros p; apply same_at_reads, D).
  split_and!; [done| | |done|done].
  - intros path p c Rp Hm. destruct D as [_ _ (tx & Ht & _ & w & d & Ew & Ed & _ & M) _]. unfold tx_Read. rewrite Ht. cbn.
    rewrite Rp. unfold tx_readContent. rewrite Ew, Ed. cbn [from_option id]. rewrite M in Hm. unfold pending in Hm.
    case_bool_decide; [by injection Hm as <-|]. destruct (w !! p); [|done]. by injection Hm as <-.
  - intros now. destruct (commit_during s1 _ _ _ now D) as (s2 & r & Ec & K). exists s2, r. split; [done|].
    destruct r; [|done]. destruct K as [K1 K]. split; [done|]. intros p. destruct (K p) as [?|[?|[Mp F]]]; [by left|by right; left|].
    destruct (decide (nil_at (overlay s) p)); [by right; right|left]. by rewrite F, forgotten_same.
Qed.
End Proof.
End VfsTxProof.

(* ------------------------------------------------------------------ *)
(** ** What the overlay shows *)

Module VfsShow.
Section Show.
Context `{RangeOrder}.
Variable env : VFSEnv.
Variable src : Sources.
(** Whether the configuration has a list of allowed paths. *)
Variable hasSparseWorkspace : bool.

Definition existsOnDisk (absPath : string) : result vfs_error bool := fsExists (osDisk src) absPath.

Definition pathExists (v : PipelineVFS) (absPath : string) : result vfs_error bool :=
  if bool_decide (absPath ∈ deletedPaths v) then Ok false
  else if bool_decide (absPath ∈ createdDirs v) then Ok true
  else if bool_decide (is_Some (stagedContent v !! absPath)) then Ok true
  else if bool_decide (is_Some (workingContent v !! absPath)) then Ok true
  else if hasVisibleDescendantLocked v absPath then Ok true
  else match baseFS src with
    | Some b => fsExists b absPath
    | None =>
      match (if bool_decide (absPath ∈ visiblePaths v) then baseReader src else None) with
      | Some reader =>
        match reader absPath with
        | Found _ => Ok true
        | Missing => Ok false
        | Failed msg => Err (ErrBase msg)
        end
      | None => existsOnDisk absPath
      end
    end.

Definition Exists (v : PipelineVFS) (path : string) : result vfs_error bool :=
  if closed v then Err ErrVFSClosed
  else match resolvePath env (visiblePaths v) path with
    | Err e => Err e
    | Ok absPath => pathExists v absPath
    end.

(** Of the information, whether it is a directory and the size. *)
Definition Stat (v : PipelineVFS) (path : string) : result vfs_error StatInfo :=
  if closed v then Err ErrVFSClosed
  else match resolvePath env (visiblePaths v) path with
    | Err e => Err e
    | Ok absPath =>
      match CheckFileRead env absPath with
      | Some e => Err e
      | None =>
        if bool_decide (absPath ∈ createdDirs v) then Ok (mkStat true 0)
        else match stagedContent v !! absPath with
          | Some content => Ok (mkStat false (len (content_of content)))
          | None =>
            match workingContent v !! absPath with
            | Some content => Ok (mkStat false (len (content_of content)))
            | None =>
              if hasVisibleDescendantLocked v absPath then Ok (mkStat true 0)
              else fsStat (match baseFS src with Some b => b | None => osDisk src end) absPath
            end
          end
      end
    end.

(** [path] is absolute and clean. *)
Definition RegisterVisiblePath (v : PipelineVFS) (path : string) : option PipelineVFS :=
  if bool_decide (path = "") then Some v
  else if closed v then None
  else Some (VfsTx.show_path v path).

(* ------------------------------------------------------------------ *)
(** ** Paths, absolute and clean *)

(** What is before the last slash and after it. *)
Fixpoint split_last (p : string) : option (string * string) :=
  match p with
  | EmptyString => None
  | String c p =>
    match split_last p with
    | Some (dir, base) => Some (String c dir, base)
    | None => if Ascii.eqb c "/" then Some ("", p) else None
    end
  end.

(** [filepath.Dir], [filepath.Base] and [filepath.Join]. *)
Definition path_dir (p : string) : string :=
  match split_last p with Some ("", _) | None => "/" | Some (dir, _) => dir end.
Definition path_base (p : string) : string :=
  match split_last p with Some (_, "") => "/" | Some (_, base) => base | None => p end.
Definition path_join (dir name : string) : string :=
  if bool_decide (dir = "/") then "/" +:+ name else dir +:+ "/" +:+ name.

(** [filepath.Rel] of a path strictly below a directory. *)
Definition rel_below (dir path : string) : option string :=
  let pre := path_join dir "" in
  if bool_decide (path = dir) then None
  else if String.prefix pre path
  then Some (substring (String.length pre) (String.length path - String.length pre) path)
  else None.

Fixpoint first_name (rel : string) : string :=
  match rel with
  | EmptyString => EmptyString
  | String c rel => if Ascii.eqb c "/" then EmptyString else String c (first_name rel)
  end.

(** The rest of [isUnderPath] once [Rel] has given a path. *)
Definition isUnderPath (path base : string) : bool :=
  bool_decide (path = base) ||
  match rel_below base path with Some rel => negb (String.prefix ".." rel) | None => false end.

(* ------------------------------------------------------------------ *)
(** ** Listing *)

(** An iteration of the loops: the name of a path, unless it is there. *)
Definition add_name (f : string -> option string) (files : list string) (p : string) : list string :=
  match f p with
  | Some name => if bool_decide (name ∈ files) then files else files ++ [name]
  | None => files
  end.

Definition filterListedNames (v : PipelineVFS) (entries : list string) (absDir : string) : list string :=
  filter (fun name => path_join absDir name ∉ deletedPaths v) entries.

Definition mapReadDirErr (v : PipelineVFS) (absDir : string) (r : dir_read) : result vfs_error (list string) :=
  match r with
  | Listed entries => Ok (filterListedNames v entries absDir)
  | NoDir => Err ErrFileNotFound
  | ListFailed msg => Err (ErrBase msg)
  end.

Definition listDiskFiles (v : PipelineVFS) (absDir : string) : result vfs_error (list string) :=
  mapReadDirErr v absDir (fsList (osDisk src) absDir).

Definition listBaseFiles (v : PipelineVFS) (absDir : string) : result vfs_error (list string) :=
  match baseFS src with
  | Some b => mapReadDirErr v absDir (fsList b absDir)
  | None => listDiskFiles v absDir
  end.

(** The name of a path that is in the directory. *)
Definition child (absDir p : string) : option string :=
  if bool_decide (path_dir p = absDir) then Some (path_base p) else None.

Definition addStagedFiles (v : PipelineVFS) (files : list string) (absDir : string) : list string :=
  foldl (add_name (child absDir)) files (range_keys 46 (stagedContent v)).

Definition addCreatedDirs (v : PipelineVFS) (files : list string) (absDir : string) : list string :=
  foldl (add_name (child absDir)) files (range_order 47 (elements (createdDirs v))).

(** The name that the sparse listing of a directory shows for a path. *)
Definition visible_name (v : PipelineVFS) (absDir p : string) : option string :=
  if bool_decide (p ∈ deletedPaths v) then None
  else match rel_below absDir p with
    | None => None
    | Some rel => if String.prefix ".." rel then None else Some (first_name rel)
    end.

Definition listVisibleEntries (v : PipelineVFS) (absDir : string) : list string :=
  sort_strings (foldl (add_name (visible_name v absDir)) []
    (range_order 48 (elements (visibleCandidatePathsLocked v)))).

Definition List_ (v : PipelineVFS) (dir : string) : result vfs_error (list string) :=
  if closed v then Err ErrVFSClosed
  else match resolvePath env (visiblePaths v) dir with
    | Err e => Err e
    | Ok absDir =>
      if hasSparseWorkspace then Ok (listVisibleEntries v absDir)
      else
        match (match listBaseFiles v absDir with
          | Ok files => Ok files
          | Err e =>
            match pathState env v absDir with
            | Err e' => Err e'
            | Ok (Some true) => Ok []
            | Ok _ => Err e
            end
          end) with
        | Err e => Err e
        | Ok files => Ok (sort_strings (addCreatedDirs v (addStagedFiles v files absDir) absDir))
        end
    end.

(** [root] is absolute and clean. *)
Definition VisiblePaths (v : PipelineVFS) (root : string) : list string :=
  sort_strings (filter (fun p => (p ∉ deletedPaths v) /\ isUnderPath p root = true)
    (range_order 49 (elements (visibleCandidatePathsLocked v)))).

Definition KnownFileCount (v : PipelineVFS) : Z := Z.of_nat (size (visibleCandidatePathsLocked v)).

(* ------------------------------------------------------------------ *)
(** ** The listings are exact *)

Lemma add_name_spec f l files n : NoDup files ->
  NoDup (foldl (add_name f) files l) /\
  (n ∈ foldl (add_name f) files l <-> n ∈ files \/ exists p, p ∈ l /\ f p = Some n).
Proof.
  revert files. induction l as [|p l IH]; intros files N; cbn [foldl].
  { split; [done|]. split; [by left|]. intros [?|(p & Hp & _)]; [done|by apply not_elem_of_nil in Hp]. }
  assert (K : NoDup (add_name f files p) /\ forall n, n ∈ add_name f files p <-> n ∈ files \/ f p = Some n).
  { unfold add_name. destruct (f p) as [name|]; [|naive_solver]. case_bool_decide as Hn; [naive_solver|].
    split; [|set_solver]. apply NoDup_app. split_and!; [done| |apply NoDup_singleton]. set_solver. }
  destruct K as [N' K]. destruct (IH _ N') as [N2 E]. split; [done|]. rewrite E, K. setoid_rewrite elem_of_cons. naive_solver.
Qed.

Lemma sorted_NoDup_spec l (P : string -> Prop) : NoDup l -> (forall n, n ∈ l <-> P n) ->
  StronglySorted (fun a b => a = b \/ str_lt a b) (sort_strings l) /\ NoDup (sort_strings l) /\
  (forall n, n ∈ sort_strings l <-> P n).
Proof.
  intros N E. split_and!; [apply sort_strings_sorted|by rewrite sort_strings_perm|].
  intros n. by rewrite sort_strings_perm.
Qed.

Lemma addStagedFiles_spec v files absDir n : NoDup files ->
  NoDup (addStagedFiles v files absDir) /\
  (n ∈ addStagedFiles v files absDir <-> n ∈ files \/ exists p, is_Some (stagedContent v !! p) /\ child absDir p = Some n).
Proof.
  intros N. destruct (add_name_spec (child absDir) (range_keys 46 (stagedContent v)) files n N) as [N' E].
  split; [done|]. unfold addStagedFiles. rewrite E. by setoid_rewrite elem_of_range_keys.
Qed.

Lemma addCreatedDirs_spec v files absDir n : NoDup files ->
  NoDup (addCreatedDirs v files absDir) /\
  (n ∈ addCreatedDirs v files absDir <-> n ∈ files \/ exists p, p ∈ createdDirs v /\ child absDir p = Some n).
Proof.
  intros N. destruct (add_name_spec (child absDir) (range_order 47 (elements (createdDirs v))) files n N) as [N' E].
  split; [done|]. unfold addCreatedDirs. rewrite E. setoid_rewrite range_order_perm. by setoid_rewrite elem_of_elements.
Qed.

(** The entries of the base, none when there is no directory. *)
Definition base_names (absDir : string) : list string :=
  match fsList (match baseFS src with Some b => b | None => osDisk src end) absDir with
  | Listed entries => entries | _ => [] end.

Lemma listBaseFiles_eq v absDir :
  match listBaseFiles v absDir with
  | Ok files => files = filterListedNames v (base_names absDir) absDir
  | Err _ => base_names absDir = []
  end.
Proof.
  unfold listBaseFiles, listDiskFiles, base_names.
  destruct (baseFS src) as [b|]; by destruct (fsList _ absDir).
Qed.

(** A listing is sorted, has no name twice, and has exactly the names of what
    is there: of the base without what was deleted, of the staged files and
    of the directories made; or, in a sparse workspace, the first name below
    the directory of every path that is visible. *)
Theorem list_exact v dir names : (forall absDir, NoDup (base_names absDir)) -> List_ v dir = Ok names ->
  exists absDir, resolvePath env (visiblePaths v) dir = Ok absDir /\
    StronglySorted (fun a b => a = b \/ str_lt a b) names /\ NoDup names /\
    forall n, n ∈ names <->
      if hasSparseWorkspace
      then exists p, p ∈ visibleCandidatePathsLocked v /\ visible_name v absDir p = Some n
      else (n ∈ base_names absDir /\ path_join absDir n ∉ deletedPaths v) \/
        (exists p, is_Some (stagedContent v !! p) /\ child absDir p = Some n) \/
        (exists p, p ∈ createdDirs v /\ child absDir p = Some n).
Proof.
  intros Nb. unfold List_. destruct (closed v); [done|]. destruct (resolvePath _ _ _) as [absDir|]; [|done].
  destruct hasSparseWorkspace.
  - intros [= <-]. exists absDir. split; [done|]. apply sorted_NoDup_spec; [by apply add_name_spec, NoDup_nil_2|].
    intros n. rewrite (proj2 (add_name_spec _ _ [] n NoDup_nil_2)). setoid_rewrite range_order_perm. setoid_rewrite elem_of_elements.
    split; [|by right]. by intros [?%not_elem_of_nil|].
  - intros E. exists absDir. split; [done|].
    assert (exists files, names = sort_strings (addCreatedDirs v (addStagedFiles v files absDir) absDir) /\
      files = filterListedNames v (base_names absDir) absDir) as (files & -> & ->).
    { pose proof (listBaseFiles_eq v absDir) as B. destruct (listBaseFiles v absDir) as [files|e].
      - injection E as <-. by eexists.
      - rewrite B. destruct (pathState env v absDir) as [[[]|]|]; try done. injection E as <-. by exists []. }
    assert (N : NoDup (filterListedNames v (base_names absDir) absDir)) by apply NoDup_filter, Nb.
    apply sorted_NoDup_spec; [by apply addCreatedDirs_spec, addStagedFiles_spec|]. intros n.
    rewrite (proj2 (addCreatedDirs_spec _ _ _ _ (proj1 (addStagedFiles_spec v _ absDir n N)))).
    rewrite (proj2 (addStagedFiles_spec _ _ _ _ N)). unfold filterListedNames. rewrite list_elem_of_filter. tauto.
Qed.
End Show.
End VfsShow.

(* ------------------------------------------------------------------ *)
(** ** Small overlays *)

Module VfsTxCases.
Import VfsTx VfsTxProof VfsShow.
#[local] Existing Instance range_id.

Example paths : path_dir "/w/a.go" = "/w" /\ path_base "/w/a.go" = "a.go" /\ path_dir "/w" = "/" /\
  path_join "/" "w" = "/w" /\ rel_below "/w" "/w/sub/b.go" = Some "sub/b.go" /\ first_name "sub/b.go" = "sub".
Proof. vm_compute. done. Qed.

Definition text (s : string) : bytes := str_bytes s.
Definition file (s : string) : byte_slice := Some (text s).
Definition read_of (files : gmap string bytes) (p : string) : base_read :=
  match files !! p with Some c => Found c | None => Missing end.
Definition fs_of (files : gmap string bytes) : base_fs :=
  mkBaseFS (read_of files) (fun p => Ok (bool_decide (is_Some (files !! p)))) (fun _ => NoDir)
    (fun p => match files !! p with Some c => Ok (mkStat false (len c)) | None => Err ErrFileNotFound end).

(** A workspace of files, in which the agent may read what [may] says and the
    overlay takes [limit] bytes. *)
Definition env_of (files : gmap string bytes) (may : string -> bool) (limit : Z) : VFSEnv :=
  mkEnv (read_of files) (fun _ => Ok None) (fun _ p => Ok p)
    (fun p => if may p then None else Some ErrPermissionDenied) (fun _ => None) (fun _ => None) false
    (fun _ => zero_hash) (fun p => p) (fun _ _ => "") (fun p => [p]) (fun n => n <=? limit).

Definition on_disk : gmap string bytes := {["/w/a.go" := text "package a"; "/w/secret" := text "key"]}.
Definition here : VFSEnv := env_of on_disk (fun p => negb (String.eqb p "/w/secret")) 100.
Definition plain : Sources := mkSources None None (fs_of on_disk).

Definition begun (v : PipelineVFS) : TxVFS := (BeginTransaction (mkTxVFS v false None [])).1.
Definition change : list tx_op :=
  [TWrite "/w/a.go" (file "package b"); TWrite "/w/new.go" (file "package n"); TDelete "/w/a.go"].

Lemma transaction_exact_witness : exists s1 changes s2,
  tx_run here (begun NewPipelineVFS) 0 change = Some (s1, changes) /\
  tx_Read here plain s1 0 "/w/new.go" = Some (Ok (text "package n")) /\
  Commit here s1 0 (fun _ => 0) = Some (s2, None) /\
  readContent here (overlay s1) "/w/a.go" = Ok (text "package a") /\
  readContent here (overlay s2) "/w/a.go" = Err ErrFileNotFound.
Proof.
  destruct (transaction_exact here plain NewTxVFS (begun NewPipelineVFS) 0 change eq_refl)
    as (s1 & ch & E & Base & Rd & Cm & _).
  assert (E2 : exists s2, Commit here s1 0 (fun _ => 0) = Some (s2, None))
    by (vm_compute in E; injection E as <- <-; eexists; vm_compute; reflexivity).
  assert (M : effect ch !! "/w/new.go" = Some (Some (text "package n")) /\ effect ch !! "/w/a.go" = Some None)
    by (vm_compute in E; injection E as _ <-; split; vm_compute; reflexivity).
  destruct E2 as [s2 E2]. destruct M as [M1 M2]. exists s1, ch, s2.
  split; [exact E|]. split; [exact (Rd "/w/new.go" "/w/new.go" _ eq_refl M1)|]. split; [exact E2|].
  split; [rewrite Base; vm_compute; reflexivity|].
  destruct (Cm (fun _ => 0)) as (s3 & r & E3 & K). rewrite E3 in E2. injection E2 as -> ->.
  destruct K as [_ K]. rewrite K. unfold over. by rewrite M2.
Defined.

(** What a transaction reads: a file that the overlay deleted; a file that the
    agent may not read; and the disk where the overlay has a base file system
    that differs from it. *)
Theorem tx_reads_past :
  let deleted := begun (Delete here NewPipelineVFS 0 "/w/a.go").1 in
  let based := mkSources (Some (fs_of {["/w/a.go" := text "package draft"]})) None (fs_of on_disk) in
  let draft := env_of {["/w/a.go" := text "package draft"]} (fun _ => true) 100 in
  (Read here (overlay deleted) "/w/a.go" = Err ErrFileNotFound /\
   tx_Read here plain deleted 0 "/w/a.go" = Some (Ok (text "package a"))) /\
  (Read here NewPipelineVFS "/w/secret" = Err ErrPermissionDenied /\
   tx_Read here plain (begun NewPipelineVFS) 0 "/w/secret" = Some (Ok (text "key"))) /\
  (Read draft NewPipelineVFS "/w/a.go" = Ok (text "package draft") /\
   tx_Read draft based (begun NewPipelineVFS) 0 "/w/a.go" = Some (Ok (text "package a"))).
Proof. vm_compute. done. Qed.

(** The state after a call and what the call returned. *)
Definition after {A} (r : option (TxVFS * A)) : TxVFS := match r with Some (s, _) => s | None => NewTxVFS end.
Definition said {A} (r : option (TxVFS * A)) : option A := snd <$> r.

(** A commit that fails halfway leaves the writes it did, and a rollback after
    it does not undo them. *)
Theorem commit_not_atomic :
  let small := env_of on_disk (fun _ => true) 40 in
  let s1 := after (tx_run small (begun NewPipelineVFS) 0
    [TWrite "/w/x" (file "twelve bytes"); TWrite "/w/y" (file "twelve bytes")]) in
  let s2 := after (Commit small s1 0 (fun _ => 0)) in
  let reads s := (fun p => is_ok (readContent small (overlay s) p)) <$> ["/w/x"; "/w/y"] in
  reads s1 = [false; false] /\ said (Commit small s1 0 (fun _ => 0)) = Some (Some (InVFS ErrMemoryBudgetExceeded)) /\
  tally id (reads s2) = 1%nat /\ reads (Rollback s2 0) = reads s2.
Proof. vm_compute. done. Qed.

(** A write that the budget refuses loses the nil content of its path, staged
    before: the file that was emptied reads as on the disk again, while the
    modification of the overlay still says that it is empty.  An empty content
    that is not nil is kept; and in a commit that fails the same happens. *)
Theorem nil_content_lost :
  let big := file (String.concat "" (replicate 20 "0123456789")) in
  let emptied c := (Write here NewPipelineVFS 0 "/w/a.go" c).1 in
  let failed c := Write here (emptied c) 0 "/w/a.go" big in
  let s1 := after (tx_run here (begun (emptied None)) 0 [TWrite "/w/a.go" big]) in
  let s2 := after (Commit here s1 0 (fun _ => 0)) in
  readContent here (emptied None) "/w/a.go" = Ok [] /\
  (failed None).2 = Some ErrMemoryBudgetExceeded /\ readContent here (failed None).1 "/w/a.go" = Ok (text "package a") /\
  (fun m => content_of (NewContent m)) <$> GetModifications (failed None).1 = [[]] /\
  (failed (Some [])).2 = Some ErrMemoryBudgetExceeded /\ readContent here (failed (Some [])).1 "/w/a.go" = Ok [] /\
  readContent here (overlay s1) "/w/a.go" = Ok [] /\ readContent here (overlay s2) "/w/a.go" = Ok (text "package a").
Proof. vm_compute. done. Qed.

(** The end of a transaction, and of the overlay: a write after the commit is accepted and lost; a
    write after the rollback panics, and so does one when the overlay was
    closed in between; and a rollback of a transaction that has
    ended lets another one begin beside one that is open. *)
Theorem ended_transactions :
  let s1 := after (Commit here (begun NewPipelineVFS) 0 (fun _ => 0)) in
  let w := tx_Write here s1 0 "/w/x" (file "x") in
  let s2 := (BeginTransaction s1).1 in
  (said w = Some None /\ said (Commit here (after w) 0 (fun _ => 0)) = Some (Some ErrTransactionAborted)) /\
  tx_Write here (Rollback (begun NewPipelineVFS) 0) 0 "/w/x" (file "x") = None /\
  tx_Write here (set_overlay (begun NewPipelineVFS) (Close (overlay (begun NewPipelineVFS)))) 0 "/w/x" (file "x") = None /\
  ((BeginTransaction s1).2 = Ok 1%nat /\ (BeginTransaction s2).2 = Err ErrVFSInTransaction /\
    (BeginTransaction (Rollback s2 0)).2 = Ok 2%nat).
Proof. vm_compute. done. Qed.

(** What the overlay shows: a sparse workspace lists a file that was only ever
    written in a transaction that was rolled back, although the file does not
    exist; [Stat] finds a file that was deleted; and a sparse listing leaves
    out a file whose name starts with two dots. *)
Theorem shown_wrongly :
  (let v := overlay (Rollback (after (tx_run here (begun NewPipelineVFS) 0 [TWrite "/w/x" (file "x")])) 0) in
    List_ here plain true v "/w" = Ok ["x"] /\ Exists here plain v "/w/x" = Ok false) /\
  (let v := (Delete here NewPipelineVFS 0 "/w/a.go").1 in
    Exists here plain v "/w/a.go" = Ok false /\ Stat here plain v "/w/a.go" = Ok (mkStat false 9)) /\
  (let v := (Write here NewPipelineVFS 0 "/w/..rc" (file "x")).1 in
    List_ here plain true v "/w" = Ok [] /\ Exists here plain v "/w/..rc" = Ok true).
Proof. vm_compute. done. Qed.
End VfsTxCases.
