(* ===== verification/MergePipe.v ===== *)
(** * Merging a pipeline into the global draft (core/versioning/merge_pipe.go,
      merge_pipe_precise.go)

    A merge takes the registration of the pipeline, transforms its
    modifications against the deltas logged since the base, writes the results
    into the global draft one by one and appends the deltas to the log.  The
    pipe serves one request at a time, so a merge is one step on its state:
    the draft, the log and the registrations. *)

From S2P Require Import Prelude Ids.
From S2P Require Export MergeChange MemoryWal VfsProof.
Import Vfs.

Inductive pipe_error :=
| ErrMergePipeClosed | ErrMergePipelineNotFound | ErrMergePipelineExists
| ErrMerge (e : merge_error) | ErrVFS (e : vfs_error) | ErrWAL (e : MemoryWal.wal_error).

Record transformedFileMod := mkTransformed {
  mod_ : FileModification;
  ops : list (option Operation)
}.

Record MergePipe := mkPipe {
  globalVFS : PipelineVFS;
  wal : MemoryWal.MemoryVersionedWAL;
  pipelines : gmap string SemanticVersion;
  pclosed : bool
}.

Module MergePipe.
Section Pipe.
Context `{RangeOrder}.
Variable engine : DiffEngine.
Variable now : nat -> Z.
Variable resolver : option (Conflict -> result string (option Resolution)).
Variable env : VFSEnv.
Abbreviation preciseOperationsForDelta := (MergePrecise.preciseOperationsForDelta engine now).
Abbreviation preciseOperationsForModification := (MergePrecise.preciseOperationsForModification engine now).
Abbreviation transformSourceOps := (MergePrecise.transformSourceOps resolver).

Definition NewMergePipe (draft : PipelineVFS) (w : MemoryWal.MemoryVersionedWAL) : MergePipe :=
  mkPipe draft w ∅ false.

Definition RegisterPipelineAt (mp : MergePipe) (pipelineID : string) (base : SemanticVersion)
  : result pipe_error MergePipe :=
  if pclosed mp then Err ErrMergePipeClosed
  else match pipelines mp !! pipelineID with
    | Some _ => Err ErrMergePipelineExists
    | None => Ok (mkPipe (globalVFS mp) (wal mp) (<[pipelineID := base]> (pipelines mp)) (pclosed mp))
    end.

Definition RegisterPipeline (mp : MergePipe) (pipelineID : string) : result pipe_error MergePipe :=
  RegisterPipelineAt mp pipelineID (MemoryWal.CurrentVersion (wal mp)).

Definition UnregisterPipeline (mp : MergePipe) (pipelineID : string) : MergePipe :=
  mkPipe (globalVFS mp) (wal mp) (delete pipelineID (pipelines mp)) (pclosed mp).

Definition Stop (mp : MergePipe) : MergePipe := mkPipe (globalVFS mp) (wal mp) (pipelines mp) true.

(* ------------------------------------------------------------------ *)
(** ** Transforming *)

(** The operations of the logged deltas, by path, in the order of the log. *)
Definition accOpsByPath (accumulated : list VersionedWALEntry) : gmap string (list (option Operation)) :=
  foldl (fun acc entry =>
    foldl (fun acc d =>
      <[DPath d := default [] (acc !! DPath d) ++ (Some <$> preciseOperationsForDelta d (EPipelineID entry))]> acc)
      acc (Deltas entry)) ∅ accumulated.

(** The loop over the modifications. *)
Fixpoint transformLoop (acc : gmap string (list (option Operation))) (mods : list FileModification)
    (result : list transformedFileMod) : Prelude.result pipe_error (list transformedFileMod) :=
  match mods with
  | [] => Ok result
  | m :: mods =>
    match transformSourceOps (preciseOperationsForModification m) (default [] (acc !! OriginalPath m)) [] with
    | Err e => Err (ErrMerge e)
    | Ok transformed => transformLoop acc mods (result ++ [mkTransformed m transformed])
    end
  end.

Definition transformMods (mp : MergePipe) (mods : list FileModification) (base : SemanticVersion)
  : result pipe_error (list transformedFileMod) :=
  match MemoryWal.GetDeltasSince (wal mp) base with
  | Err e => Err (ErrWAL e)
  | Ok accumulated => transformLoop (accOpsByPath accumulated) mods []
  end.

(* ------------------------------------------------------------------ *)
(** ** Applying *)

Definition readDraftContent (target : PipelineVFS) (path : string) : result vfs_error (bytes * bool) :=
  match Read env target path with
  | Ok content => Ok (content, true)
  | Err ErrFileNotFound => Ok ([], false)
  | Err e => Err e
  end.

Definition walDeltaOpForGlobalWrite (exists_ : bool) : WALDeltaOp :=
  if exists_ then WALDeltaOpModify else WALDeltaOpCreate.

(** The [targetContent] of the default branch of [applyTransformedModToVFS].
    What operations were applied to is not nil: [transformMods] gives
    operations that are not nil. *)
Definition targetContent (tm : transformedFileMod) (current : bytes) : result merge_error byte_slice :=
  if len (ops tm) =? 0 then Ok (NewContent (mod_ tm))
  else match MergePrecise.applyOperationsToContent current (ops tm) with
    | Ok content => Ok (Some content)
    | Err e => Err e
    end.

(** The rest of the branch. *)
Definition writeTransformed (target : PipelineVFS) (t : Z) (tm : transformedFileMod) (current : bytes)
    (exists_ : bool) : PipelineVFS * result pipe_error (option WALFileDelta) :=
  let m := mod_ tm in
  match targetContent tm current with
  | Err e => (target, Err (ErrMerge e))
  | Ok content =>
    if exists_ && bool_decide (current = content_of content) then (target, Ok None)
    else if negb exists_ && bool_decide (content_of content = []) && negb (bool_decide (FOperation m = FileOpCreate))
    then (target, Ok None)
    else match Write env target t (OriginalPath m) content with
      | (target, Some e) => (target, Err (ErrVFS e))
      | (target, None) =>
        (target, Ok (Some (mkWALFileDelta (OriginalPath m) (walDeltaOpForGlobalWrite exists_) (content_of content) current)))
      end
  end.

(** The draft after the call, and the delta, if there is one. *)
Definition applyTransformedModToVFS (target : PipelineVFS) (t : Z) (tm : transformedFileMod)
  : PipelineVFS * result pipe_error (option WALFileDelta) :=
  let m := mod_ tm in
  match readDraftContent target (OriginalPath m) with
  | Err e => (target, Err (ErrVFS e))
  | Ok (current, exists_) =>
    match FOperation m with
    | FileOpMkdir =>
      match MkdirAll env target t (OriginalPath m) with
      | (target, None) | (target, Some ErrFileExists) =>
        (target, Ok (Some (mkWALFileDelta (OriginalPath m) WALDeltaOpMkdir [] [])))
      | (target, Some e) => (target, Err (ErrVFS e))
      end
    | FileOpDelete =>
      if negb exists_ then (target, Ok None)
      else match Delete env target t (OriginalPath m) with
        | (target, None) | (target, Some ErrFileNotFound) =>
          (target, Ok (Some (mkWALFileDelta (OriginalPath m) WALDeltaOpDelete [] current)))
        | (target, Some e) => (target, Err (ErrVFS e))
        end
    | _ => writeTransformed target t tm current exists_
    end
  end.

(** The loop of [applyToGlobal]; on an error the draft keeps what was applied. *)
Fixpoint applyToGlobal (target : PipelineVFS) (t : Z) (mods : list transformedFileMod)
    (deltas : list WALFileDelta) : PipelineVFS * result pipe_error (list WALFileDelta) :=
  match mods with
  | [] => (target, Ok deltas)
  | tm :: mods =>
    match applyTransformedModToVFS target t tm with
    | (target, Err e) => (target, Err e)
    | (target, Ok None) => applyToGlobal target t mods deltas
    | (target, Ok (Some delta)) => applyToGlobal target t mods (deltas ++ [delta])
    end
  end.

Definition executeMerge (mp : MergePipe) (t : Z) (pipelineID : string) (mods : list FileModification)
  : MergePipe * result pipe_error SemanticVersion :=
  match pipelines mp !! pipelineID with
  | None => (mp, Err ErrMergePipelineNotFound)
  | Some baseVersion =>
    let mp := UnregisterPipeline mp pipelineID in
    if len mods =? 0 then (mp, Ok (MemoryWal.CurrentVersion (wal mp)))
    else match transformMods mp mods baseVersion with
      | Err e => (mp, Err e)
      | Ok transformed =>
        match applyToGlobal (globalVFS mp) t transformed [] with
        | (draft, Err e) => (mkPipe draft (wal mp) (pipelines mp) (pclosed mp), Err e)
        | (draft, Ok deltas) =>
          match MemoryWal.AppendDelta (wal mp) t pipelineID deltas with
          | Err e => (mkPipe draft (wal mp) (pipelines mp) (pclosed mp), Err (ErrWAL e))
          | Ok (w, ver) => (mkPipe draft w (pipelines mp) (pclosed mp), Ok ver)
          end
        end
      end
  end.

(** [Merge] with a context that is not cancelled. *)
Definition Merge (mp : MergePipe) (t : Z) (pipelineID : string) (mods : list FileModification)
  : MergePipe * result pipe_error SemanticVersion :=
  if pclosed mp then (mp, Err ErrMergePipeClosed) else executeMerge mp t pipelineID mods.
End Pipe.
End MergePipe.
