(* ===== verification/MergePipeProof.v ===== *)
(** * What a merge does to the draft (core/versioning/merge_pipe.go)

    A pipeline's overlay, merged into a draft that has not changed since the
    pipeline started, makes the draft read as the overlay.  The theorem needs
    that no path is written twice: the last part shows what happens else, and
    what a merge that fails halfway leaves behind. *)

From S2P Require Import Prelude Ids.
From S2P Require Export MergePipe.
Import Vfs MergePipe.

(** A draft that may be read and written everywhere, on paths that are
    resolved already. *)
Record permissive (env : VFSEnv) : Prop := {
  perm_resolve : forall vis p, resolvePath env vis p = Ok p;
  perm_read : forall p, CheckFileRead env p = None;
  perm_write : forall p, CheckFileWrite env p = None;
  perm_delete : forall p, CheckFileDelete env p = None;
  perm_rw : ReadOnly env = false;
  perm_resize : forall n, Resize env n = true
}.

Section Publish.
Context `{RangeOrder}.
Variable engine : DiffEngine.
Variable now : nat -> Z.
Variable resolver : option (Conflict -> result string (option Resolution)).
Variable env : VFSEnv.
Hypothesis free : permissive env.
Abbreviation readContent := (readContent env).
Abbreviation applyTransformedModToVFS := (applyTransformedModToVFS env).
Abbreviation applyToGlobal := (applyToGlobal env).

Lemma free_Read v p : closed v = false -> Read env v p = readContent v p.
Proof. intros C. unfold Read. by rewrite C, (perm_resolve _ free), (perm_read _ free). Qed.

Lemma free_commit v prev : commitOverlayState env v prev = (v, None).
Proof. unfold commitOverlayState, reconcileOverlayMemoryLocked. by rewrite (perm_resize _ free). Qed.

Lemma free_Write v t p c : closed v = false -> Write env v t p c = (written env v t p c, None).
Proof.
  intros C. unfold Write, checkWritePrereqs.
  rewrite C, (perm_rw _ free), (perm_resolve _ free), (perm_write _ free).
  destruct (stageWrite_eq env v t p c) as [?|E]; [done|]. exfalso. revert E. unfold stageWrite.
  destruct (determineWriteOp env v p) as [[? ?] ?]. by rewrite free_commit.
Qed.

Lemma free_Delete v t p c : closed v = false -> readContent v p = Ok c ->
  exists old, Delete env v t p = (removed env v t p old, None).
Proof.
  intros C R. unfold Delete, checkWritePrereqs.
  rewrite C, (perm_rw _ free), (perm_resolve _ free), (perm_delete _ free).
  pose proof (stageDelete_eq env v t p) as D. revert R. unfold Vfs.readContent.
  case_bool_decide; [done|].
  assert (K : (stageDelete env v t p).2 <> Some ErrMemoryBudgetExceeded).
  { unfold stageDelete. destruct (getDeleteContent env v p) as [w [o|e]] eqn:G; [by rewrite free_commit|].
    cbn [snd]. intros [= ->]. revert G. unfold getDeleteContent, readExistingContent. by repeat case_match. }
  destruct (stagedContent v !! p) as [o|]; [|intros E; rewrite E in D];
    destruct D as [D|D]; rewrite D in K |- *; try done; eauto.
Qed.

(** What the path of a modification reads after it is applied. *)
Definition outcome (m : FileModification) : result vfs_error bytes :=
  match FOperation m with FileOpDelete => Err ErrFileNotFound | _ => Ok (content_of (NewContent m)) end.

(** The draft is as the modification found it. *)
Definition told (v : PipelineVFS) (m : FileModification) : Prop :=
  match FOperation m with
  | FileOpCreate => readContent v (OriginalPath m) = Err ErrFileNotFound /\ FOldContent m = []
  | FileOpModify => readContent v (OriginalPath m) = Ok (FOldContent m)
  | FileOpDelete => readContent v (OriginalPath m) = Err ErrFileNotFound \/
      exists c, readContent v (OriginalPath m) = Ok c
  | FileOpMkdir => False
  end.

Definition rebuilt (tm : transformedFileMod) : Prop :=
  (if len (ops tm) =? 0 then Ok (content_of (NewContent (mod_ tm)))
   else MergePrecise.applyOperationsToContent (FOldContent (mod_ tm)) (ops tm)) = Ok (content_of (NewContent (mod_ tm))).

Lemma rebuilt_target tm : rebuilt tm -> exists c, targetContent tm (FOldContent (mod_ tm)) = Ok c /\ content_of c = content_of (NewContent (mod_ tm)).
Proof.
  unfold rebuilt, targetContent. destruct (len (ops tm) =? 0); [by eexists|]. intros ->. by eexists.
Qed.

(** The draft reads as before but at [p]. *)
Definition updated (v v' : PipelineVFS) (p : string) (r : result vfs_error bytes) : Prop :=
  closed v' = false /\ forall q, readContent v' q = if decide (q = p) then r else readContent v q.

Lemma updated_same v p : closed v = false -> updated v v p (readContent v p).
Proof. intros C. split; [done|]. intros q. by case_decide; subst. Qed.

Lemma updated_written v t p c : closed v = false -> updated v (written env v t p c) p (Ok (content_of c)).
Proof.
  intros C. split; [|intros q; apply written_read].
  unfold written. by destruct (determineWriteOp env v p) as [[? ?] ?].
Qed.

Lemma updated_removed v t p old : closed v = false -> updated v (removed env v t p old) p (Err ErrFileNotFound).
Proof. intros C. split; [done|]. intros q. apply removed_read. Qed.

Lemma free_readDraft v p : closed v = false ->
  readDraftContent env v p = match readContent v p with
    | Ok c => Ok (c, true) | Err ErrFileNotFound => Ok ([], false) | Err e => Err e end.
Proof. intros C. unfold readDraftContent. by rewrite free_Read. Qed.

Lemma apply_told v t tm :
  closed v = false -> told v (mod_ tm) -> rebuilt tm ->
  exists v' d, applyTransformedModToVFS v t tm = (v', Ok d) /\
    updated v v' (OriginalPath (mod_ tm)) (outcome (mod_ tm)).
Proof.
  intros C T R. unfold MergePipe.applyTransformedModToVFS, told, outcome in *. set (m := mod_ tm) in *.
  rewrite free_readDraft by done. destruct (FOperation m) eqn:Op.
  - destruct T as [-> Old], (rebuilt_target tm R) as (c & Ec & Nc). fold m in Ec, Nc. rewrite <- Nc. rewrite Old in Ec. unfold writeTransformed. fold m.
    rewrite Ec, Op. cbn [andb negb].
    rewrite andb_false_r, free_Write by done. do 2 eexists. split; [reflexivity|]. by apply updated_written.
  - destruct (rebuilt_target tm R) as (c & Ec & Nc). fold m in Ec, Nc. rewrite <- Nc. rewrite T. unfold writeTransformed. fold m. rewrite Ec. cbn [andb negb].
    case_bool_decide as E.
    + do 2 eexists. split; [reflexivity|]. rewrite <- E, <- T. by apply updated_same.
    + rewrite free_Write by done. do 2 eexists. split; [reflexivity|]. by apply updated_written.
  - destruct T as [T|[c T]].
    + rewrite T. do 2 eexists. split; [reflexivity|]. rewrite <- T. by apply updated_same.
    + rewrite T. cbn [negb]. destruct (free_Delete v t (OriginalPath m) c) as [old ->]; [done..|].
      do 2 eexists. split; [reflexivity|]. by apply updated_removed.
  - done.
Qed.

Lemma told_updated v v' p r m : updated v v' p r -> OriginalPath m <> p -> told v m -> told v' m.
Proof.
  intros [_ U] N. specialize (U (OriginalPath m)). rewrite decide_False in U by done.
  unfold told. by rewrite U.
Qed.

Definition path_of (tm : transformedFileMod) : string := OriginalPath (mod_ tm).

Lemma apply_all tms v t acc :
  closed v = false -> NoDup (path_of <$> tms) -> Forall (fun tm => told v (mod_ tm) /\ rebuilt tm) tms ->
  exists v' ds, applyToGlobal v t tms acc = (v', Ok ds) /\ closed v' = false /\
    (forall tm, tm ∈ tms -> readContent v' (path_of tm) = outcome (mod_ tm)) /\
    (forall q, q ∉ path_of <$> tms -> readContent v' q = readContent v q).
Proof.
  revert v acc. induction tms as [|tm tms IH]; intros v acc C N F.
  - do 2 eexists. split_and!; [reflexivity|done|by intros ? ?%not_elem_of_nil|done].
  - rewrite fmap_cons in N. apply NoDup_cons in N as [Np N]. apply Forall_cons in F as [[T R] F].
    destruct (apply_told v t tm C T R) as (v1 & d & E & U). pose proof U as [C1 U1].
    destruct (IH v1 (match d with Some d => acc ++ [d] | None => acc end) C1 N) as (v' & ds & E' & C' & I & O).
    { rewrite Forall_forall in F |- *. intros x Hx. destruct (F x Hx) as [Tx Rx]. split; [|done].
      eapply told_updated; [exact U| |done]. intros Q. apply Np. change (path_of tm) with (OriginalPath (mod_ tm)). rewrite <- Q.
      by apply (list_elem_of_fmap_2 path_of). }
    exists v', ds. split_and!; [|done| |].
    + cbn [MergePipe.applyToGlobal]. rewrite E. destruct d; exact E'.
    + intros x [->|Hx]%elem_of_cons; [|by apply I]. rewrite O by done. unfold path_of.
      by rewrite U1, decide_True.
    + intros q Hq. rewrite fmap_cons in Hq. rewrite O by set_solver. rewrite U1. case_decide; [|done].
      subst. set_solver.
Qed.

(** A change whose merge rebuilds it: the script the diff engine leaves spells
    its contents, and no edit in it follows an insertion at offset 0. *)
Definition mergeable (m : FileModification) : Prop :=
  let new := content_of (NewContent m) in let diffs := script engine (FOldContent m) new in
  spells diffs (FOldContent m) new /\ clear_start false diffs = true /\
  len (FOldContent m) + len new + len new < two63.

#[export] Instance mergeable_dec m : Decision (mergeable m).
Proof. unfold mergeable, spells. apply _. Defined.

Lemma transform_all mods acc :
  Forall (fun m => FOperation m <> FileOpMkdir /\ mergeable m) mods ->
  exists tms, transformLoop engine now resolver ∅ mods acc = Ok (acc ++ tms) /\
    mod_ <$> tms = mods /\ Forall rebuilt tms.
Proof.
  revert acc. induction mods as [|m mods IH]; intros acc F.
  - exists []. split; [by rewrite app_nil_r|]. by split.
  - apply Forall_cons in F as [(Op & Sp & Cs & B) F].
    destruct (transformed_change engine now resolver m) as (os & T & A); [done..|].
    destruct (IH (acc ++ [mkTransformed m os]) F) as (tms & E & M & R).
    exists (mkTransformed m os :: tms). split_and!.
    + cbn [transformLoop]. rewrite lookup_empty. cbn [default]. rewrite T, E. by rewrite <- app_assoc.
    + by rewrite fmap_cons, M.
    + by constructor.
Qed.
(** C24: a merge publishes a pipeline that changed something: when nothing was
    merged since the base, the draft is open, resolves, permits and has memory
    for every path, and reads as the base of the pipeline, no path of which
    was written after it was written or deleted, and when every change it made
    is [mergeable], the merge succeeds, and the draft then reads at every path
    exactly as the overlay of the pipeline did. *)
Theorem merge_publishes_pipeline penv mp t pid base p :
  pclosed mp = false -> closed (globalVFS mp) = false ->
  pipelines mp !! pid = Some base -> MemoryWal.GetDeltasSince (wal mp) base = Ok [] ->
  once penv p ->
  (forall q, readExistingContent penv p q = readContent (globalVFS mp) q) ->
  (forall q, readable penv p q) ->
  GetModifications p <> [] -> Forall mergeable (GetModifications p) ->
  exists mp' ver, Merge engine now resolver env mp t pid (GetModifications p) = (mp', Ok ver) /\
    (forall q, readContent (globalVFS mp') q = Vfs.readContent penv p q) /\
    pipelines mp' !! pid = None /\
    MemoryWal.CurrentVersion (wal mp') = Semantic.BumpMinor (MemoryWal.CurrentVersion (wal mp)).
Proof.
  intros Pc Gc Pid Wal On Base Rd Ne Mg. destruct (modifications_faithful penv p On) as (T & Rest & N).
  set (mods := GetModifications p) in *.
  assert (Mk : Forall (fun m => FOperation m <> FileOpMkdir /\ mergeable m) mods).
  { rewrite Forall_forall in Mg |- *. intros m Hm. split; [|by apply Mg]. destruct (T m Hm) as [_ K]. intros E. by rewrite E in K. }
  destruct (transform_all mods [] Mk) as (tms & E & M & R). cbn [app] in E.
  destruct (apply_all tms (globalVFS mp) t []) as (draft & ds & Ea & Ca & I & O); [done| | |].
  { rewrite <- M, <- list_fmap_compose in N. exact N. }
  { rewrite Forall_forall in R |- *. intros tm Htm. split; [|by apply R].
    assert (Hm : mod_ tm ∈ mods) by (rewrite <- M; by apply list_elem_of_fmap_2).
    destruct (T _ Hm) as [_ K]. unfold told. destruct (FOperation (mod_ tm)); rewrite <- ?Base; [by destruct K as (? & ? & _)|by destruct K| |done].
    destruct (Rd (OriginalPath (mod_ tm))); [by left|by right]. }
  assert (Wc : MemoryWal.closed (wal mp) = false).
  { revert Wal. unfold MemoryWal.GetDeltasSince. by destruct (MemoryWal.closed _). }
  do 2 eexists. split.
  - unfold Merge, executeMerge. rewrite Pc, Pid. destruct (Z.eqb_spec (len mods) 0) as [Z|_].
    { exfalso. apply Ne. by destruct mods. }
    unfold transformMods. cbn [wal UnregisterPipeline globalVFS pipelines pclosed]. rewrite Wal.
    cbn [accOpsByPath foldl]. rewrite E, Ea. unfold MemoryWal.AppendDelta. rewrite Wc. reflexivity.
  - cbn [globalVFS pipelines wal]. split_and!; [|apply lookup_delete_eq|done].
    intros q. destruct (decide (q ∈ path_of <$> tms)) as [Hq|Hq].
    + apply list_elem_of_fmap in Hq as (tm & -> & Htm). rewrite I by done.
      assert (Hm : mod_ tm ∈ mods) by (rewrite <- M; by apply list_elem_of_fmap_2).
      destruct (T _ Hm) as [_ K]. unfold outcome, path_of. by destruct (FOperation (mod_ tm)); [destruct K as (_ & _ & ->)|destruct K as [_ ->]|rewrite K|].
    + rewrite O by done. rewrite <- Base. symmetry. apply Rest. intros m Hm <-. apply Hq.
      rewrite <- M in Hm. apply list_elem_of_fmap in Hm as (tm & -> & Htm). by apply (list_elem_of_fmap_2 path_of).
Qed.
End Publish.

(* ------------------------------------------------------------------ *)
(** ** Concrete runs *)

(** The script that replaces the whole content. *)
Definition whole (old new : bytes) : list Diff :=
  filter (fun d => Text d <> []) [mkDiff DiffDelete old; mkDiff DiffInsert new].

(** A file system below the draft, on which some paths cannot be written. *)
Definition env_over (read : string -> base_read) (denied : option string) : VFSEnv :=
  mkEnv read (fun _ => Ok None) (fun _ p => Ok p) (fun _ => None)
    (fun p => if bool_decide (Some p = denied) then Some ErrPermissionDenied else None) (fun _ => None) false
    (fun _ => zero_hash) (fun _ => "") (fun _ _ => "durable") (fun _ => []) (fun _ => true).

Definition disk (p : string) : base_read :=
  if bool_decide (p = "f") then Found (str_bytes "old") else Missing.

Definition draft_env : VFSEnv := env_over disk None.

(** The base of a pipeline: the draft. *)
Definition draft_base (draft : PipelineVFS) (p : string) : base_read :=
  match readContent draft_env draft p with
  | Ok c => Found c
  | Err ErrFileNotFound => Missing
  | Err _ => Failed "draft"
  end.
Definition pipeline_env : VFSEnv := env_over (draft_base NewPipelineVFS) None.

(** A pipe on the untouched draft with the pipeline [p] registered. *)
Definition pipe : MergePipe :=
  mkPipe NewPipelineVFS MemoryWal.NewMemoryVersionedWAL {["p" := Semantic.VersionZero]} false.

Definition write (v : PipelineVFS) (path text : string) : PipelineVFS :=
  (Write (H := range_id) pipeline_env v 1 path (Some (str_bytes text))).1.

Definition merge (e : VFSEnv) (mp : MergePipe) (v : PipelineVFS) : MergePipe * result pipe_error SemanticVersion :=
  Merge (H := range_id) (plain_engine whole) (fun _ => 0) None e mp 2 "p" (GetModifications (H := range_id) v).

(** What the draft reads at a path. *)
Definition reads (e : VFSEnv) (mp : MergePipe) (path : string) : option string :=
  match readContent e (globalVFS mp) path with Ok c => Some (bytes_str c) | Err _ => None end.

(** An overlay with one file changed and one created. *)
Definition changed : PipelineVFS := write (write NewPipelineVFS "f" "new") "g" "text".

Lemma changed_once : once (H := range_id) pipeline_env changed.
Proof.
  apply once_write; [apply once_write; [apply once_new|]|].
  - split_and!; [set_solver|done|]. right. exists (str_bytes "old"). reflexivity.
  - split_and!; [vm_compute; set_solver|reflexivity|]. left. reflexivity.
Qed.

Lemma draft_free : permissive draft_env.
Proof. by split. Qed.

Lemma same_base q :
  readExistingContent pipeline_env changed q = readContent draft_env NewPipelineVFS q /\
  readable pipeline_env changed q.
Proof.
  assert (E : readExistingContent pipeline_env changed q = match draft_base NewPipelineVFS q with
    | Found c => Ok c | Missing => Err ErrFileNotFound | Failed m => Err (ErrBase m) end) by reflexivity.
  unfold readable. rewrite E.
  assert (D : readContent draft_env NewPipelineVFS q = match disk q with
    | Found c => Ok c | Missing => Err ErrFileNotFound | Failed m => Err (ErrBase m) end) by reflexivity.
  unfold draft_base. rewrite D. unfold disk. case_bool_decide; (split; [done|]); [right; by eexists|by left].
Qed.

Lemma changed_mergeable : Forall (mergeable (plain_engine whole)) (GetModifications (H := range_id) changed).
Proof. apply (bool_decide_eq_true_1 _). vm_compute. reflexivity. Qed.

Lemma merge_publishes_pipeline_witness :
  exists mp, (merge draft_env pipe changed).1 = mp /\
    readContent draft_env (globalVFS mp) "f" = Ok (str_bytes "new").
Proof.
  eexists. split; [reflexivity|].
  destruct (merge_publishes_pipeline (H := range_id) (plain_engine whole) (fun _ => 0) None draft_env draft_free
    pipeline_env pipe 2 "p" Semantic.VersionZero changed) as (mp & ver & M & R & _).
  - reflexivity.
  - reflexivity.
  - reflexivity.
  - reflexivity.
  - exact changed_once.
  - intros q. apply same_base.
  - intros q. apply same_base.
  - vm_compute. discriminate.
  - exact changed_mergeable.
  - unfold merge. rewrite M, R. vm_compute. reflexivity.
Defined.

(** Writing a file twice corrupts it: the second write forgets the content
    of the base, so the merge takes the new content for an insertion and puts
    it in front of the old one; so does writing a file after deleting it. *)
Theorem second_write_corrupts :
  let twice := write (write NewPipelineVFS "f" "new1") "f" "new2" in
  let again := write (Delete (H := range_id) pipeline_env NewPipelineVFS 1 "f").1 "f" "new" in
  readContent pipeline_env twice "f" = Ok (str_bytes "new2") /\
  (exists ver, (merge draft_env pipe twice).2 = Ok ver) /\
  reads draft_env (merge draft_env pipe twice).1 "f" = Some "new2old" /\
  readContent pipeline_env again "f" = Ok (str_bytes "new") /\
  reads draft_env (merge draft_env pipe again).1 "f" = Some "newold".
Proof. cbn zeta. split; [|split; [eexists|split; [|split]]]; vm_compute; reflexivity. Qed.

(** A merge that fails is not undone: the modifications before the one that
    cannot be written stay in the draft, the log has no entry for them, so
    later merges are not transformed against them, and the pipeline is no
    longer registered, so the merge cannot be tried again. *)
Theorem failed_merge_unlogged :
  let e := env_over disk (Some "f") in
  let '(mp, r) := merge e pipe changed in
  r = Err (ErrVFS ErrPermissionDenied) /\
  reads e pipe "g" = None /\ reads e mp "g" = Some "text" /\
  MemoryWal.GetDeltasSince (wal mp) Semantic.VersionZero = Ok [] /\
  (merge e mp changed).2 = Err ErrMergePipelineNotFound.
Proof. vm_compute. repeat split. Qed.
