(* ===== verification/WalEntry.v ===== *)
(** * The binary form of a log entry (core/versioning/wal_entry.go)

    A header of 25 bytes (kind, version, time, checksum and length of the
    payload) and a payload (pipeline and deltas, every field after its
    length).  All lengths are [uint32]s and wrap.  A slice out of range is a
    panic: [None]. *)

From S2P Require Import Prelude GoStd Ids.
From S2P Require Export MemoryWal.

(** What a call gives: a value or an error, or [None], a run-time panic. *)
Definition checked (E A : Type) : Type := option (result E A).

#[export] Instance checked_ret E : MRet (checked E) := fun A a => Some (Ok a).
#[export] Instance checked_bind E : MBind (checked E) := fun A B f m =>
  match m with
  | Some (Ok a) => f a
  | Some (Err e) => Some (Err e)
  | None => None
  end.

Definition fail {E A} (e : E) : checked E A := Some (Err e).
(** A value the run-time checks. *)
Definition within {E A} (o : option A) : checked E A := match o with Some a => Some (Ok a) | None => None end.

(** [b[i:j]] with its bounds checks. *)
Definition slice_at (b : bytes) (i j : Z) : option bytes :=
  if (0 <=? i) && (i <=? j) && (j <=? len b) then Some (slice b (Z.to_nat i) (Z.to_nat j)) else None.

Inductive wal_entry_error := ErrWALEntryCorrupted | ErrWALEntryTruncated | ErrWALEntryCRCMismatch.

Module WalEntry.
Import Semantic.

(** [byte(k)] and [WALEntryKind(b)] *)
Definition kind_byte (k : WALEntryKind) : byte :=
  match k with WALEntryKindDelta => x01 | WALEntryKindCheckpoint => x02 | WALEntryKindOther b => b end.
Definition byte_kind (b : byte) : WALEntryKind :=
  match b with x01 => WALEntryKindDelta | x02 => WALEntryKindCheckpoint | b => WALEntryKindOther b end.

(** [byte(op)] and [WALDeltaOp(b)] *)
Definition op_byte (o : WALDeltaOp) : byte :=
  match o with
  | WALDeltaOpCreate => x00 | WALDeltaOpModify => x01 | WALDeltaOpDelete => x02 | WALDeltaOpMkdir => x03
  | WALDeltaOpOther b => b
  end.
Definition byte_op (b : byte) : WALDeltaOp :=
  match b with
  | x00 => WALDeltaOpCreate | x01 => WALDeltaOpModify | x02 => WALDeltaOpDelete | x03 => WALDeltaOpMkdir
  | b => WALDeltaOpOther b
  end.

Definition WALDeltaOpFromFileOp (op : FileOp) : WALDeltaOp :=
  match op with
  | FileOpCreate => WALDeltaOpCreate
  | FileOpModify => WALDeltaOpModify
  | FileOpDelete => WALDeltaOpDelete
  | FileOpMkdir => WALDeltaOpMkdir
  end.

Definition walEntryHeaderSize : Z := 1 + 4 + 4 + 8 + 4 + 4.

(* ------------------------------------------------------------------ *)
(** ** Encoding *)

Definition appendUint32 (buf : bytes) (v : Z) : bytes := buf ++ putU32 v.

Definition encodeLenPrefixed (buf data : bytes) : bytes := appendUint32 buf (len data) ++ data.

(** The body of the loop over the deltas. *)
Definition encodeDelta (buf : bytes) (d : WALFileDelta) : bytes :=
  let buf := encodeLenPrefixed buf (str_bytes (DPath d)) in
  let buf := buf ++ [op_byte (DOp d)] in
  let buf := encodeLenPrefixed buf (DNewContent d) in
  encodeLenPrefixed buf (DOldContent d).

Definition encodeWALPayload (e : VersionedWALEntry) : bytes :=
  let buf := encodeLenPrefixed [] (str_bytes (EPipelineID e)) in
  let buf := appendUint32 buf (len (Deltas e)) in
  foldl encodeDelta buf (Deltas e).

Definition EncodeWALEntry (e : VersionedWALEntry) : bytes :=
  let payload := encodeWALPayload e in
  let crc := Crc32.checksum_ieee payload in
  [kind_byte (Kind e)] ++ putU32 (Major (Version e)) ++ putU32 (Minor (Version e)) ++
  putU64 (UnixNano (ETimestamp e)) ++ putU32 crc ++ putU32 (len payload) ++ payload.

(* ------------------------------------------------------------------ *)
(** ** Decoding *)

(** [binary.BigEndian.Uint32(b[i:i+4])], and [Uint64] of eight bytes *)
Definition uint_at (b : bytes) (i n : Z) : checked wal_entry_error Z :=
  b ← within (slice_at b i (i + n)); mret (be_decode b).

(** The data and the number of bytes read. *)
Definition decodeLenPrefixed (buf : bytes) (off : Z) : checked wal_entry_error (bytes * Z) :=
  if len buf <? off + 4 then fail ErrWALEntryCorrupted
  else
    length ← uint_at buf off 4;
    let off := off + 4 in
    let end_ := off + length in
    if len buf <? end_ then fail ErrWALEntryCorrupted
    else result ← within (slice_at buf off end_); mret (result, 4 + length).

(** The body of the loop: a delta and the offset after it. *)
Definition decodeDelta (data : bytes) (off : Z) : checked wal_entry_error (WALFileDelta * Z) :=
  '(path, n) ← decodeLenPrefixed data off;
  let off := off + n in
  if len data <=? off then fail ErrWALEntryCorrupted
  else
    op ← within (index data off);
    let off := off + 1 in
    '(newContent, n) ← decodeLenPrefixed data off;
    let off := off + n in
    '(oldContent, n) ← decodeLenPrefixed data off;
    mret (mkWALFileDelta (bytes_str path) (byte_op op) newContent oldContent, off + n).

(** [count] rounds of the loop. *)
Fixpoint decodeDeltas (count : nat) (data : bytes) (off : Z) (deltas : list WALFileDelta)
  : checked wal_entry_error (list WALFileDelta) :=
  match count with
  | O => mret deltas
  | S count => '(d, off) ← decodeDelta data off; decodeDeltas count data off (deltas ++ [d])
  end.

Definition decodeWALPayload (data : bytes) : checked wal_entry_error (string * list WALFileDelta) :=
  '(pipelineID, off) ← decodeLenPrefixed data 0;
  if len data <? off + 4 then fail ErrWALEntryCorrupted
  else
    deltaCount ← uint_at data off 4;
    deltas ← decodeDeltas (Z.to_nat deltaCount) data (off + 4) [];
    mret (bytes_str pipelineID, deltas).

(** The end of the payload is computed in [uint32]. *)
Definition DecodeWALEntry (data : bytes) : checked wal_entry_error VersionedWALEntry :=
  if len data <? walEntryHeaderSize then fail ErrWALEntryTruncated
  else
    kind ← within (index data 0);
    major ← uint_at data 1 4;
    minor ← uint_at data 5 4;
    tsNano ← uint_at data 9 8;
    storedCRC ← uint_at data 17 4;
    payloadLen ← uint_at data 21 4;
    if u32 (len data - walEntryHeaderSize) <? payloadLen then fail ErrWALEntryTruncated
    else
      payload ← within (slice_at data walEntryHeaderSize (u32 (walEntryHeaderSize + payloadLen)));
      if negb (Crc32.checksum_ieee payload =? storedCRC) then fail ErrWALEntryCRCMismatch
      else
        '(pipelineID, deltas) ← decodeWALPayload payload;
        mret (mkWALEntry (byte_kind kind) (mkVersion major minor) pipelineID (i64 tsNano) deltas storedCRC).

(* ------------------------------------------------------------------ *)
(** ** Entries that can be written *)

(** The values the fields of the code can have; the payload shorter than
    2^32 bytes. *)
Record entry_wf (e : VersionedWALEntry) : Prop := {
  wf_version : version_wf (Version e);
  wf_time : in_i64 (ETimestamp e);
  wf_kind : byte_kind (kind_byte (Kind e)) = Kind e;
  wf_ops : Forall (fun d => byte_op (op_byte (DOp d)) = DOp d) (Deltas e);
  wf_payload : len (encodeWALPayload e) < two32 - walEntryHeaderSize
}.

(** The entry with the checksum of its payload, as it is read. *)
Definition stamped (e : VersionedWALEntry) : VersionedWALEntry :=
  mkWALEntry (Kind e) (Version e) (EPipelineID e) (ETimestamp e) (Deltas e)
    (Crc32.checksum_ieee (encodeWALPayload e)).
End WalEntry.
