(* ===== verification/WalEntryProof.v ===== *)
(** * What is decoded (core/versioning/wal_entry.go)

    [DecodeWALEntry] accepts exactly the frames of well-formed entries, also
    with bytes after the deltas or after the frame; it never panics on fewer
    than 2^32 bytes, and it does on a payload of the last 25 lengths a
    [uint32] can name. *)

From S2P Require Import Prelude GoStd Ids.
From S2P Require Export WalEntry.
Import Semantic WalEntry.

(* ------------------------------------------------------------------ *)
(** ** Slices *)

Lemma slice_at_mid pre mid post : slice_at (pre ++ mid ++ post) (len pre) (len pre + len mid) = Some mid.
Proof.
  unfold slice_at. rewrite !len_app. pose proof (len_nonneg pre). pose proof (len_nonneg mid).
  pose proof (len_nonneg post). rewrite !(proj2 (Z.leb_le _ _)) by lia. cbn [andb]. f_equal.
  rewrite slice_app_r by (unfold len; lia). apply take_app_length'. unfold len in *. lia.
Qed.

Lemma slice_at_Some b i j : 0 <= i <= j -> j <= len b ->
  exists pre s post, b = pre ++ s ++ post /\ len pre = i /\ len s = j - i /\ slice_at b i j = Some s.
Proof.
  intros I J. exists (take (Z.to_nat i) b), (slice b (Z.to_nat i) (Z.to_nat j)), (drop (Z.to_nat j) b).
  unfold slice_at, slice, len in *. rewrite !(proj2 (Z.leb_le _ _)) by lia.
  rewrite !length_take, length_drop. split_and!; [|lia|lia|done].
  rewrite <- (take_drop (Z.to_nat i) b) at 1. f_equal.
  rewrite <- (take_drop (Z.to_nat j - Z.to_nat i) (drop (Z.to_nat i) b)) at 1. f_equal.
  rewrite drop_drop. f_equal. lia.
Qed.

Lemma index_Some {A} (b : list A) i : 0 <= i < len b -> exists pre x post, b = pre ++ x :: post /\ len pre = i.
Proof.
  intros I. unfold len in *. destruct (lookup_lt_is_Some_2 b (Z.to_nat i)) as [x E]; [lia|].
  exists (take (Z.to_nat i) b), x, (drop (S (Z.to_nat i)) b). rewrite length_take. split; [|lia].
  by rewrite take_drop_middle.
Qed.

Lemma uint_at_mid pre mid post n : len mid = n ->
  uint_at (pre ++ mid ++ post) (len pre) n = Some (Ok (be_decode mid)).
Proof. intros <-. unfold uint_at. by rewrite slice_at_mid. Qed.

Lemma len_putU32 z : len (putU32 z) = 4.
Proof. unfold len. by rewrite length_putU32. Qed.
Lemma len_putU64 z : len (putU64 z) = 8.
Proof. unfold len. by rewrite length_putU64. Qed.

(** Four bytes are the encoding of a number. *)
Lemma four_bytes b : len b = 4 -> b = putU32 (be_decode b) /\ in_u32 (be_decode b).
Proof.
  unfold len. intros L. assert (length b = 4%nat) as L' by lia.
  pose proof (be_decode_range b) as R. rewrite L' in R. change (256 ^ Z.of_nat 4) with two32 in R.
  split; [|exact R]. unfold putU32. rewrite u32_id by exact R. rewrite <- L'. symmetry. apply be_encode_decode.
Qed.

Lemma eight_bytes b : len b = 8 -> b = putU64 (i64 (be_decode b)).
Proof.
  unfold len. intros L. assert (length b = 8%nat) as L' by lia.
  pose proof (be_decode_range b) as R. rewrite L' in R. change (256 ^ Z.of_nat 8) with two64 in R.
  unfold putU64. rewrite <- (be_encode_decode b) at 1. rewrite L'. f_equal.
  unfold i64, u64. rewrite Zminus_mod_idemp_l.
  replace (be_decode b + two63 - two63) with (be_decode b) by lia. by rewrite Z.mod_small.
Qed.

(* ------------------------------------------------------------------ *)
(** ** Fields *)

Definition field_bytes (d : bytes) : bytes := putU32 (len d) ++ d.

Lemma len_field d : len (field_bytes d) = 4 + len d.
Proof. unfold field_bytes. by rewrite len_app, len_putU32. Qed.

Lemma field_read pre d post : len d < two32 ->
  decodeLenPrefixed (pre ++ field_bytes d ++ post) (len pre) = Some (Ok (d, 4 + len d)).
Proof.
  intros L. unfold decodeLenPrefixed, field_bytes. pose proof (len_nonneg post). pose proof (len_nonneg d).
  rewrite !len_app, len_putU32. destruct (Z.ltb_spec (len pre + (4 + len d + len post)) (len pre + 4)); [lia|].
  rewrite <- (app_assoc (putU32 _)), uint_at_mid by apply len_putU32.
  rewrite putU32_decode by by apply len_u32. cbn [mbind checked_bind].
  destruct (Z.ltb_spec (len pre + (4 + len d + len post)) (len pre + 4 + len d)); [lia|].
  rewrite app_assoc. replace (len pre + 4) with (len (pre ++ putU32 (len d))) by by rewrite len_app, len_putU32.
  by rewrite slice_at_mid.
Qed.

Lemma field_at data off pre d post : data = pre ++ field_bytes d ++ post -> off = len pre -> len d < two32 ->
  decodeLenPrefixed data off = Some (Ok (d, 4 + len d)).
Proof. intros -> ->. apply field_read. Qed.

(** The reader gives a field that is there, or an error. *)
Lemma field_read_inv b off r : 0 <= off -> decodeLenPrefixed b off = r ->
  r = Some (Err ErrWALEntryCorrupted) \/
  exists pre d post, r = Some (Ok (d, 4 + len d)) /\ b = pre ++ field_bytes d ++ post /\ len pre = off /\ len d < two32.
Proof.
  intros O <-. unfold decodeLenPrefixed. destruct (Z.ltb_spec (len b) (off + 4)); [by left|].
  destruct (slice_at_Some b off (off + 4)) as (pre & s & post & -> & Lp & Ls & E); [lia..|].
  unfold uint_at. rewrite E. cbn [mbind checked_bind within mret checked_ret].
  destruct (four_bytes s) as [Es Rs]; [lia|]. destruct Rs as [R1 R2].
  destruct (Z.ltb_spec (len (pre ++ s ++ post)) (off + 4 + be_decode s)) as [|L]; [by left|right].
  destruct (slice_at_Some (pre ++ s ++ post) (off + 4) (off + 4 + be_decode s)) as (p & d & q & E' & Lp' & Ld & ->); [lia..|].
  assert (p = pre ++ s /\ post = d ++ q) as [-> ->].
  { rewrite app_assoc in E'. apply app_inj_1 in E' as [<- <-]; [done|].
    unfold len in *. rewrite length_app. lia. }
  exists pre, d, q. cbn [mbind checked_bind within mret checked_ret].
  replace (be_decode s) with (len d) in * by lia.
  split_and!; [done| |lia|lia]. unfold field_bytes. rewrite <- Es. by rewrite <- app_assoc.
Qed.

Definition delta_bytes (d : WALFileDelta) : bytes :=
  field_bytes (str_bytes (DPath d)) ++ [op_byte (DOp d)] ++ field_bytes (DNewContent d) ++ field_bytes (DOldContent d).

Lemma encodeDelta_eq buf d : encodeDelta buf d = buf ++ delta_bytes d.
Proof. unfold encodeDelta, encodeLenPrefixed, appendUint32, delta_bytes, field_bytes. by rewrite <- !app_assoc. Qed.

Definition payload_bytes (pid : string) (ds : list WALFileDelta) : bytes :=
  field_bytes (str_bytes pid) ++ putU32 (len ds) ++ (ds ≫= delta_bytes).

Lemma encodeWALPayload_eq e : encodeWALPayload e = payload_bytes (EPipelineID e) (Deltas e).
Proof.
  unfold encodeWALPayload, payload_bytes, encodeLenPrefixed, appendUint32. rewrite app_nil_l, app_assoc.
  change (putU32 (len (str_bytes (EPipelineID e))) ++ str_bytes (EPipelineID e)) with (field_bytes (str_bytes (EPipelineID e))).
  generalize (field_bytes (str_bytes (EPipelineID e)) ++ putU32 (len (Deltas e))). induction (Deltas e) as [|d ds IH]; intros b; simpl.
  - by rewrite app_nil_r.
  - by rewrite IH, encodeDelta_eq, <- app_assoc.
Qed.

(** The readable deltas. *)
Definition delta_wf (d : WALFileDelta) : Prop :=
  byte_op (op_byte (DOp d)) = DOp d /\ len (delta_bytes d) < two32.

Lemma byte_op_byte b : byte_op (op_byte (byte_op b)) = byte_op b /\ op_byte (byte_op b) = b.
Proof. by destruct b. Qed.
Lemma byte_kind_byte b : byte_kind (kind_byte (byte_kind b)) = byte_kind b /\ kind_byte (byte_kind b) = b.
Proof. by destruct b. Qed.

Lemma delta_read pre d post : delta_wf d ->
  decodeDelta (pre ++ delta_bytes d ++ post) (len pre) = Some (Ok (d, len pre + len (delta_bytes d))).
Proof.
  intros [O L]. unfold decodeDelta. revert L.
  set (fp := str_bytes (DPath d)). set (fn := DNewContent d). set (fo := DOldContent d).
  assert (E : delta_bytes d = field_bytes fp ++ [op_byte (DOp d)] ++ field_bytes fn ++ field_bytes fo) by done.
  intros L. assert (Ld : len (delta_bytes d) = 4 + len fp + 1 + (4 + len fn) + (4 + len fo)).
  { rewrite E, !len_app, !len_field. change (len [op_byte (DOp d)]) with 1. lia. }
  rewrite Ld in *. rewrite E.
  pose proof (len_nonneg fp). pose proof (len_nonneg fn). pose proof (len_nonneg fo). pose proof (len_nonneg post).
  rewrite <- !app_assoc. cbn [app]. set (data := pre ++ _).
  assert (Ed : len data = len pre + (4 + len fp) + 1 + (4 + len fn) + (4 + len fo) + len post).
  { unfold data. rewrite !len_app, len_cons, !len_app, !len_field. lia. }
  rewrite (field_at data (len pre) pre fp _ eq_refl) by lia. cbn [mbind checked_bind].
  rewrite Ed, (proj2 (Z.leb_gt _ _)) by lia.
  set (pre1 := pre ++ field_bytes fp). assert (L1 : len pre1 = len pre + (4 + len fp)) by (unfold pre1; by rewrite len_app, len_field).
  assert (I : index data (len pre + (4 + len fp)) = Some (op_byte (DOp d))).
  { unfold data. rewrite app_assoc. fold pre1. rewrite <- L1. apply index_app_here. }
  rewrite I. cbn [within mbind checked_bind].
  rewrite (field_at data _ (pre1 ++ [op_byte (DOp d)]) fn (field_bytes fo ++ post));
    [|unfold data, pre1; by rewrite <- !app_assoc|rewrite len_app, L1; done|lia]. cbn [mbind checked_bind].
  rewrite (field_at data _ ((pre1 ++ [op_byte (DOp d)]) ++ field_bytes fn) fo post);
    [|unfold data, pre1; by rewrite <- !app_assoc|rewrite !len_app, L1, len_field; done|lia].
  cbn [mbind checked_bind mret checked_ret]. unfold fp, fn, fo. rewrite bytes_str_bytes, O.
  unfold mret, checked_ret. do 3 f_equal; [by destruct d|lia].
Qed.

(** The reader of a delta gives one that is there, or an error. *)
Lemma delta_read_inv b off r : 0 <= off -> decodeDelta b off = r ->
  r = Some (Err ErrWALEntryCorrupted) \/
  exists pre d post, r = Some (Ok (d, off + len (delta_bytes d))) /\ b = pre ++ delta_bytes d ++ post /\
    len pre = off /\ byte_op (op_byte (DOp d)) = DOp d.
Proof.
  intros O <-. unfold decodeDelta.
  destruct (field_read_inv b off _ O eq_refl) as [-> |(pre & fp & post & -> & -> & Lp & Lf)]; [by left|].
  cbn [mbind checked_bind]. pose proof (len_nonneg fp).
  destruct (Z.leb_spec (len (pre ++ field_bytes fp ++ post)) (off + (4 + len fp))) as [|B]; [by left|].
  destruct post as [|o post].
  { exfalso. rewrite !len_app, len_field in B. change (len []) with 0 in B. lia. }
  rewrite (app_assoc pre). set (pre1 := pre ++ field_bytes fp).
  assert (L1 : off + (4 + len fp) = len pre1) by (unfold pre1; rewrite len_app, len_field; lia).
  rewrite L1, index_app_here. cbn [within mbind checked_bind]. pose proof (len_nonneg pre1).
  replace (pre1 ++ o :: post) with ((pre1 ++ [o]) ++ post) by by rewrite <- app_assoc.
  destruct (field_read_inv ((pre1 ++ [o]) ++ post) (len pre1 + 1) _ ltac:(lia) eq_refl)
    as [-> |(p2 & fn & q2 & -> & E2 & L2 & _)]; [by left|]. cbn [mbind checked_bind].
  apply app_inj_1 in E2 as [<- ->]; [|unfold len in *; rewrite length_app; simpl; lia].
  rewrite (app_assoc (pre1 ++ [o])). pose proof (len_nonneg fn).
  destruct (field_read_inv (((pre1 ++ [o]) ++ field_bytes fn) ++ q2) (len pre1 + 1 + (4 + len fn)) _ ltac:(lia) eq_refl)
    as [-> |(p3 & fo & q3 & -> & E3 & L3 & _)]; [by left|right]. cbn [mbind checked_bind mret checked_ret].
  assert (Lp3 : len p3 = len ((pre1 ++ [o]) ++ field_bytes fn)).
  { rewrite L3, len_app, len_field, L2. lia. }
  apply app_inj_1 in E3 as [<- ->]; [|unfold len in Lp3; lia].
  destruct (byte_op_byte o) as [Bo Oo].
  exists pre, (mkWALFileDelta (bytes_str fp) (byte_op o) fn fo), q3. split_and!; [| |done|done].
  - unfold mret, checked_ret, delta_bytes. cbn [DPath DOp DNewContent DOldContent]. do 3 f_equal.
    rewrite str_bytes_str, !len_app, !len_field. change (len [_]) with 1. lia.
  - unfold delta_bytes, pre1. cbn [DPath DOp DNewContent DOldContent]. rewrite str_bytes_str, Oo. by rewrite <- !app_assoc.
Qed.

(* ------------------------------------------------------------------ *)
(** ** Payloads *)

Lemma deltas_read ds pre post acc : Forall delta_wf ds ->
  decodeDeltas (length ds) (pre ++ (ds ≫= delta_bytes) ++ post) (len pre) acc = Some (Ok (acc ++ ds)).
Proof.
  intros F. revert pre acc. induction F as [|d ds W _ IH]; intros pre acc; cbn [length decodeDeltas mbind list_bind].
  - by rewrite app_nil_r.
  - change (mbind (M := list) delta_bytes ds) with (ds ≫= delta_bytes).
    rewrite <- (app_assoc (delta_bytes d)), delta_read by done. cbn [mbind checked_bind].
    rewrite app_assoc. replace (len pre + len (delta_bytes d)) with (len (pre ++ delta_bytes d)) by by rewrite len_app.
    rewrite IH. by rewrite <- app_assoc.
Qed.

Lemma deltas_read_inv n b off acc r : 0 <= off -> decodeDeltas n b off acc = r ->
  r = Some (Err ErrWALEntryCorrupted) \/ exists ds, r = Some (Ok (acc ++ ds)) /\ length ds = n /\
    Forall (fun d => byte_op (op_byte (DOp d)) = DOp d) ds /\
    (off <= len b -> exists pre post, b = pre ++ (ds ≫= delta_bytes) ++ post /\ len pre = off).
Proof.
  revert off acc r. induction n as [|n IH]; intros off acc r O; cbn [decodeDeltas]; intros <-.
  - right. exists []. split_and!; [by rewrite app_nil_r|done|constructor|]. intros Lo. cbn [mbind list_bind app].
    exists (take (Z.to_nat off) b), (drop (Z.to_nat off) b). unfold len in *. rewrite length_take, take_drop. split; [done|lia].
  - destruct (delta_read_inv b off _ O eq_refl) as [-> |(pre & d & post & -> & -> & Lp & Wd)]; [by left|].
    cbn [mbind checked_bind]. pose proof (len_nonneg (delta_bytes d)).
    destruct (IH (off + len (delta_bytes d)) (acc ++ [d]) _ ltac:(lia) eq_refl) as [-> |(ds & -> & Ln & F & K)]; [by left|right].
    exists (d :: ds). split_and!; [by rewrite <- app_assoc|by simpl; rewrite Ln|by constructor|]. intros _.
    destruct K as (p & q & E & Lq). { rewrite !len_app. pose proof (len_nonneg post). lia. }
    rewrite app_assoc in E. apply app_inj_1 in E as [<- ->]; [|unfold len in *; rewrite length_app; lia].
    exists pre, q. split; [|done]. cbn [mbind list_bind]. by rewrite <- !app_assoc.
Qed.

Lemma len_delta_bytes d : 13 <= len (delta_bytes d).
Proof.
  unfold delta_bytes. rewrite !len_app, !len_field. change (len [_]) with 1.
  pose proof (len_nonneg (str_bytes (DPath d))). pose proof (len_nonneg (DNewContent d)).
  pose proof (len_nonneg (DOldContent d)). lia.
Qed.

Lemma len_deltas ds : len ds <= len (ds ≫= delta_bytes) /\ Forall (fun d => len (delta_bytes d) <= len (ds ≫= delta_bytes)) ds.
Proof.
  induction ds as [|d ds [IH1 IH2]]; [by split|]. rewrite bind_cons, len_app, len_cons. pose proof (len_delta_bytes d).
  split; [lia|]. pose proof (len_nonneg (ds ≫= delta_bytes)). constructor; [lia|]. eapply Forall_impl; [exact IH2|]. simpl. lia.
Qed.

Lemma payload_read pid ds slack :
  Forall (fun d => byte_op (op_byte (DOp d)) = DOp d) ds -> len (payload_bytes pid ds) < two32 ->
  decodeWALPayload (payload_bytes pid ds ++ slack) = Some (Ok (pid, ds)).
Proof.
  intros F L. unfold payload_bytes in *. rewrite !len_app, len_field, len_putU32 in L.
  destruct (len_deltas ds) as [D1 D2]. pose proof (len_nonneg (ds ≫= delta_bytes)).
  pose proof (len_nonneg (str_bytes pid)). pose proof (len_nonneg ds). pose proof (len_nonneg slack).
  unfold decodeWALPayload. set (fp := str_bytes pid) in *. set (data := _ ++ slack).
  assert (Ed : data = field_bytes fp ++ putU32 (len ds) ++ (ds ≫= delta_bytes) ++ slack) by (unfold data; by rewrite <- !app_assoc).
  rewrite (field_at data 0 [] fp _ Ed) by done || lia. cbn [mbind checked_bind].
  rewrite (proj2 (Z.ltb_ge _ _)) by (rewrite Ed, !len_app, len_field, len_putU32; lia).
  rewrite Ed. replace (4 + len fp) with (len (field_bytes fp)) by apply len_field.
  rewrite uint_at_mid by apply len_putU32. rewrite putU32_decode by by apply len_u32; lia. cbn [mbind checked_bind].
  unfold len at 1. rewrite Nat2Z.id, app_assoc.
  replace (len (field_bytes fp) + 4) with (len (field_bytes fp ++ putU32 (len ds))) by by rewrite len_app, len_putU32.
  rewrite deltas_read; [unfold fp; cbn [mbind checked_bind mret checked_ret app]; by rewrite bytes_str_bytes|].
  apply Forall_forall. intros d Hd. rewrite Forall_forall in F, D2. split; [by apply F|]. specialize (D2 d Hd). simpl in D2. lia.
Qed.

Lemma payload_read_inv data r : decodeWALPayload data = r ->
  r = Some (Err ErrWALEntryCorrupted) \/ exists pid ds slack, r = Some (Ok (pid, ds)) /\
    data = payload_bytes pid ds ++ slack /\ Forall (fun d => byte_op (op_byte (DOp d)) = DOp d) ds.
Proof.
  intros <-. unfold decodeWALPayload.
  destruct (field_read_inv data 0 _ ltac:(lia) eq_refl) as [-> |(pre & fp & post & -> & -> & Lp & _)]; [by left|].
  cbn [mbind checked_bind]. assert (pre = []) as -> by (destruct pre; [done|unfold len in Lp; simpl in Lp; lia]).
  cbn [app]. destruct (Z.ltb_spec (len (field_bytes fp ++ post)) (4 + len fp + 4)) as [|B]; [by left|].
  destruct (slice_at_Some (field_bytes fp ++ post) (4 + len fp) (4 + len fp + 4)) as (p & s & q & E & Lp2 & Ls & Es);
    [pose proof (len_nonneg fp); lia..|].
  unfold uint_at. rewrite Es. cbn [mbind checked_bind within mret checked_ret].
  apply app_inj_1 in E as [<- ->]; [|rewrite <- len_field in Lp2; unfold len in Lp2; lia].
  destruct (four_bytes s) as [Ep Rs]; [lia|]. pose proof (len_nonneg fp).
  destruct (deltas_read_inv (Z.to_nat (be_decode s)) (field_bytes fp ++ s ++ q) (4 + len fp + 4) [] _ ltac:(lia) eq_refl)
    as [-> |(ds & -> & Ln & F & K)]; [by left|right]. cbn [mbind checked_bind mret checked_ret app].
  destruct K as (p & slack & E & Lp3); [rewrite !len_app; pose proof (len_nonneg q); rewrite len_field; lia|].
  rewrite app_assoc in E. apply app_inj_1 in E as [<- ->].
  2:{ unfold len in *. rewrite length_app. pose proof (len_field fp). unfold len in *. lia. }
  exists (bytes_str fp), ds, slack. split_and!; [done| |done].
  unfold payload_bytes. rewrite str_bytes_str. rewrite <- !app_assoc. do 2 f_equal.
  rewrite Ep at 1. f_equal. unfold len. destruct Rs. lia.
Qed.

(* ------------------------------------------------------------------ *)
(** ** Headers *)

Lemma split_at_len (b : bytes) n : 0 <= n <= len b -> exists p q, b = p ++ q /\ len p = n.
Proof.
  intros L. exists (take (Z.to_nat n) b), (drop (Z.to_nat n) b). rewrite take_drop. split; [done|].
  unfold len in *. rewrite length_take. lia.
Qed.

(** A header and what follows it. *)
Record header (data : bytes) (k : byte) (a b t c l body : bytes) : Prop := {
  hd_data : data = [k] ++ a ++ b ++ t ++ c ++ l ++ body;
  hd_a : len a = 4; hd_b : len b = 4; hd_t : len t = 8; hd_c : len c = 4; hd_l : len l = 4
}.

Lemma header_split data : walEntryHeaderSize <= len data -> exists k a b t c l body, header data k a b t c l body.
Proof.
  change walEntryHeaderSize with 25. intros L. destruct data as [|k d0]; [unfold len in L; simpl in L; lia|].
  rewrite len_cons in L.
  destruct (split_at_len d0 4) as (a & d1 & -> & La); [lia|]. rewrite len_app in L.
  destruct (split_at_len d1 4) as (b & d2 & -> & Lb); [lia|]. rewrite len_app in L.
  destruct (split_at_len d2 8) as (t & d3 & -> & Lt); [lia|]. rewrite len_app in L.
  destruct (split_at_len d3 4) as (c & d4 & -> & Lc); [lia|]. rewrite len_app in L.
  destruct (split_at_len d4 4) as (l & body & -> & Ll); [lia|].
  by exists k, a, b, t, c, l, body.
Qed.

Lemma uint_at_eq data pre mid post off n : data = pre ++ mid ++ post -> len pre = off -> len mid = n ->
  uint_at data off n = Some (Ok (be_decode mid)).
Proof. intros -> <- L. by apply uint_at_mid. Qed.

(** The function past its header. *)
Definition decode_body (k : byte) (a b t c l body : bytes) : checked wal_entry_error VersionedWALEntry :=
  if u32 (len body) <? be_decode l then fail ErrWALEntryTruncated
  else
    payload ← (if len body <? u32 (walEntryHeaderSize + be_decode l) - walEntryHeaderSize then None
      else if u32 (walEntryHeaderSize + be_decode l) <? walEntryHeaderSize then None
      else Some (Ok (take (Z.to_nat (u32 (walEntryHeaderSize + be_decode l) - walEntryHeaderSize)) body)));
    if negb (Crc32.checksum_ieee payload =? be_decode c) then fail ErrWALEntryCRCMismatch
    else
      '(pipelineID, deltas) ← decodeWALPayload payload;
      mret (mkWALEntry (byte_kind k) (mkVersion (be_decode a) (be_decode b)) pipelineID (i64 (be_decode t)) deltas
        (be_decode c)).

Lemma decode_header data k a b t c l body : header data k a b t c l body ->
  DecodeWALEntry data = decode_body k a b t c l body.
Proof.
  intros [E La Lb Lt Lc Ll]. pose proof (len_nonneg body) as Nb.
  assert (Ed : len data = 25 + len body).
  { rewrite E, !len_app, La, Lb, Lt, Lc, Ll. change (len [k]) with 1. lia. }
  unfold DecodeWALEntry, decode_body. change walEntryHeaderSize with 25. rewrite (proj2 (Z.ltb_ge _ _)) by lia.
  assert (I : index data 0 = Some k) by by rewrite E. rewrite I. cbn [within mbind checked_bind].
  rewrite (uint_at_eq data [k] a (b ++ t ++ c ++ l ++ body) 1 4 E eq_refl La). cbn [mbind checked_bind].
  rewrite (uint_at_eq data ([k] ++ a) b (t ++ c ++ l ++ body) 5 4);
    [|rewrite E; by rewrite <- !app_assoc|rewrite len_app, La; done|done]. cbn [mbind checked_bind].
  rewrite (uint_at_eq data ([k] ++ a ++ b) t (c ++ l ++ body) 9 8);
    [|rewrite E; by rewrite <- !app_assoc|rewrite !len_app, La, Lb; done|done]. cbn [mbind checked_bind].
  rewrite (uint_at_eq data ([k] ++ a ++ b ++ t) c (l ++ body) 17 4);
    [|rewrite E; by rewrite <- !app_assoc|rewrite !len_app, La, Lb, Lt; done|done]. cbn [mbind checked_bind].
  rewrite (uint_at_eq data ([k] ++ a ++ b ++ t ++ c) l body 21 4);
    [|rewrite E; by rewrite <- !app_assoc|rewrite !len_app, La, Lb, Lt, Lc; done|done]. cbn [mbind checked_bind].
  rewrite Ed. replace (25 + len body - 25) with (len body) by lia.
  destruct (u32 (len body) <? be_decode l); [done|]. unfold slice_at. rewrite Ed.
  set (e := u32 (25 + be_decode l)). change (0 <=? 25) with true. cbn [andb].
  destruct (Z.ltb_spec (len body) (e - 25)).
  { rewrite (proj2 (Z.leb_gt e _)) by lia. by rewrite andb_false_r. }
  destruct (Z.ltb_spec e 25); [by rewrite (proj2 (Z.leb_gt 25 _)) by lia|].
  rewrite !(proj2 (Z.leb_le _ _)) by lia. cbn [andb within mbind checked_bind].
  assert (S : slice data (Z.to_nat 25) (Z.to_nat e) = take (Z.to_nat (e - 25)) body).
  { unfold slice. replace (Z.to_nat e - Z.to_nat 25)%nat with (Z.to_nat (e - 25)) by lia. f_equal.
    replace data with (([k] ++ a ++ b ++ t ++ c ++ l) ++ body) by (rewrite E; by rewrite <- !app_assoc).
    apply drop_app_length'. unfold len in *. rewrite !length_app. simpl. lia. }
  by rewrite S.
Qed.

(** The frame of an entry around any payload. *)
Definition frame (e : VersionedWALEntry) (payload : bytes) : bytes :=
  [kind_byte (Kind e)] ++ putU32 (Major (Version e)) ++ putU32 (Minor (Version e)) ++
  putU64 (UnixNano (ETimestamp e)) ++ putU32 (Crc32.checksum_ieee payload) ++ putU32 (len payload) ++ payload.

Lemma frame_header e payload rest : header (frame e payload ++ rest) (kind_byte (Kind e))
  (putU32 (Major (Version e))) (putU32 (Minor (Version e))) (putU64 (UnixNano (ETimestamp e)))
  (putU32 (Crc32.checksum_ieee payload)) (putU32 (len payload)) (payload ++ rest).
Proof.
  split; [unfold frame; by rewrite <- !app_assoc|apply len_putU32|apply len_putU32|apply len_putU64|
    apply len_putU32|apply len_putU32].
Qed.

Lemma len_frame e payload : len (frame e payload) = walEntryHeaderSize + len payload.
Proof. unfold frame. rewrite !len_app, !len_putU32, len_putU64. change (len [_]) with 1. unfold walEntryHeaderSize. lia. Qed.

(** The fields of an entry have the values of their types. *)
Record fields_wf (e : VersionedWALEntry) : Prop := {
  fw_version : version_wf (Version e);
  fw_time : in_i64 (ETimestamp e);
  fw_kind : byte_kind (kind_byte (Kind e)) = Kind e;
  fw_ops : Forall (fun d => byte_op (op_byte (DOp d)) = DOp d) (Deltas e)
}.

Lemma decode_frame e slack rest : fields_wf e ->
  len (encodeWALPayload e ++ slack) < two32 - walEntryHeaderSize -> len (encodeWALPayload e ++ slack ++ rest) < two32 ->
  DecodeWALEntry (frame e (encodeWALPayload e ++ slack) ++ rest) =
    Some (Ok (mkWALEntry (Kind e) (Version e) (EPipelineID e) (ETimestamp e) (Deltas e)
      (Crc32.checksum_ieee (encodeWALPayload e ++ slack)))).
Proof.
  intros [[Va Vi] Ti K Ops] L L'. rewrite app_assoc in L'. set (p := encodeWALPayload e ++ slack) in *.
  rewrite (decode_header _ _ _ _ _ _ _ _ (frame_header e p rest)). unfold decode_body.
  pose proof (len_nonneg p). pose proof (len_nonneg (p ++ rest)). pose proof (len_nonneg rest).
  rewrite (putU32_decode (len p)) by by apply len_u32; unfold walEntryHeaderSize in L; lia.
  rewrite (u32_id (len (p ++ rest))) by (unfold in_u32; lia). rewrite (u32_id (_ + _)) by (unfold in_u32, walEntryHeaderSize in *; lia).
  rewrite len_app. rewrite !(proj2 (Z.ltb_ge _ _)) by lia. cbn [mbind checked_bind].
  replace (walEntryHeaderSize + len p - walEntryHeaderSize) with (len p) by lia.
  rewrite take_app_length' by (unfold len; lia). rewrite putU32_decode by apply Crc32.checksum_range.
  rewrite Z.eqb_refl. cbn [negb]. unfold p. rewrite encodeWALPayload_eq, payload_read; [|done|].
  2:{ unfold p in L. rewrite encodeWALPayload_eq, len_app in L. pose proof (len_nonneg slack). unfold walEntryHeaderSize in L. lia. }
  cbn [mbind checked_bind mret checked_ret]. rewrite K, !putU32_decode by done. unfold UnixNano. rewrite (i64_id (ETimestamp e)) by done.
  rewrite putU64_decode by done. by destruct (Version e).
Qed.

Lemma decode_body_inv k a b t c l body e : len body < two32 - walEntryHeaderSize -> len l = 4 ->
  decode_body k a b t c l body = Some (Ok e) ->
  exists slack rest, body = (encodeWALPayload e ++ slack) ++ rest /\
    be_decode l = len (encodeWALPayload e ++ slack) /\ be_decode c = Crc32.checksum_ieee (encodeWALPayload e ++ slack) /\
    e = mkWALEntry (byte_kind k) (mkVersion (be_decode a) (be_decode b)) (EPipelineID e) (i64 (be_decode t)) (Deltas e) (be_decode c) /\
    Forall (fun d => byte_op (op_byte (DOp d)) = DOp d) (Deltas e).
Proof.
  intros L Ll. pose proof (len_nonneg body). unfold decode_body. destruct (four_bytes l Ll) as [_ [R1 R2]].
  rewrite (u32_id (len body)) by (unfold in_u32, walEntryHeaderSize in *; lia).
  destruct (Z.ltb_spec (len body) (be_decode l)); [done|].
  rewrite (u32_id (_ + _)) by (unfold in_u32, walEntryHeaderSize in *; lia).
  rewrite !(proj2 (Z.ltb_ge _ _)) by lia. cbn [mbind checked_bind].
  replace (walEntryHeaderSize + be_decode l - walEntryHeaderSize) with (be_decode l) by lia.
  set (p := take (Z.to_nat (be_decode l)) body).
  destruct (Z.eqb_spec (Crc32.checksum_ieee p) (be_decode c)) as [Ec|]; [|done]. cbn [negb].
  destruct (payload_read_inv p _ eq_refl) as [-> |(pid & ds & slack & -> & Ep & F)]; [done|].
  cbn [mbind checked_bind mret checked_ret]. intros [= <-]. exists slack, (drop (Z.to_nat (be_decode l)) body).
  rewrite encodeWALPayload_eq. cbn [EPipelineID Deltas]. rewrite <- Ep. unfold p. rewrite take_drop.
  split_and!; [done| |done|done|done]. unfold len in *. rewrite length_take. lia.
Qed.

Lemma decode_body_total k a b t c l body : len body < two32 - walEntryHeaderSize -> len l = 4 ->
  decode_body k a b t c l body <> None.
Proof.
  intros L Ll. pose proof (len_nonneg body). unfold decode_body. destruct (four_bytes l Ll) as [_ [R1 R2]].
  rewrite (u32_id (len body)) by (unfold in_u32, walEntryHeaderSize in *; lia).
  destruct (Z.ltb_spec (len body) (be_decode l)); [done|].
  rewrite (u32_id (_ + _)) by (unfold in_u32, walEntryHeaderSize in *; lia).
  rewrite !(proj2 (Z.ltb_ge _ _)) by lia. cbn [mbind checked_bind].
  destruct (negb _); [done|].
  by destruct (payload_read_inv (take (Z.to_nat (walEntryHeaderSize + be_decode l - walEntryHeaderSize)) body) _ eq_refl)
    as [-> |(pid & ds & slack & -> & _)].
Qed.

(* ------------------------------------------------------------------ *)
(** ** What is accepted *)

(** C40: what is decoded from fewer than 2^32 bytes is well formed, and exactly
    the frames of well-formed entries are decoded: the bytes are the frame of
    the entry, possibly with bytes after its deltas, which its checksum
    covers, and after the frame. *)
Theorem decode_exact data e : len data < two32 ->
  DecodeWALEntry data = Some (Ok e) <->
  fields_wf e /\ exists slack rest, data = frame e (encodeWALPayload e ++ slack) ++ rest /\
    CRC32 e = Crc32.checksum_ieee (encodeWALPayload e ++ slack).
Proof.
  intros L. split.
  - intros D. destruct (Z.ltb_spec (len data) walEntryHeaderSize) as [S|S].
    { unfold DecodeWALEntry in D. by rewrite (proj2 (Z.ltb_lt _ _)) in D. }
    destruct (header_split data S) as (k & a & b & t & c & l & body & H). pose proof H as [E La Lb Lt Lc Ll].
    rewrite (decode_header _ _ _ _ _ _ _ _ H) in D.
    assert (Lbody : len body < two32 - walEntryHeaderSize).
    { rewrite E, !len_app, La, Lb, Lt, Lc, Ll in L. change (len [k]) with 1 in L. unfold walEntryHeaderSize. lia. }
    destruct (decode_body_inv k a b t c l body e Lbody Ll D) as (slack & rest & -> & El & Ec & Ee & F).
    destruct (four_bytes a La) as [Ea Ra], (four_bytes b Lb) as [Eb Rb], (four_bytes l Ll) as [El' _], (four_bytes c Lc) as [Ec' _].
    destruct (byte_kind_byte k) as [Kk Bk].
    assert (Ev : Version e = mkVersion (be_decode a) (be_decode b)) by by rewrite Ee.
    assert (Ek : Kind e = byte_kind k) by by rewrite Ee.
    assert (Et : ETimestamp e = i64 (be_decode t)) by by rewrite Ee.
    split.
    + split; [by rewrite Ev|rewrite Et; apply i64_range|by rewrite Ek|done].
    + exists slack, rest. split; [|rewrite Ee at 1; exact Ec]. rewrite E. unfold frame.
      rewrite <- El, <- Ec, <- Ec', <- El', Ek, Bk, Ev, Et. cbn [Major Minor]. rewrite <- Ea, <- Eb. unfold UnixNano.
      rewrite i64_id by apply i64_range. rewrite <- (eight_bytes t Lt). by rewrite <- !app_assoc.
  - intros (W & slack & rest & -> & Ec). rewrite len_app, len_frame in L. pose proof (len_nonneg rest).
    rewrite decode_frame; [|done|lia|rewrite app_assoc, len_app; unfold walEntryHeaderSize in L; lia]. rewrite <- Ec. by destruct e.
Qed.

(** Fewer bytes than the frame has. *)
Lemma decode_cut e payload pre suf : frame e payload = pre ++ suf -> suf <> [] ->
  len payload < two32 - walEntryHeaderSize -> DecodeWALEntry pre = Some (Err ErrWALEntryTruncated).
Proof.
  intros E Ns L. destruct (Z.ltb_spec (len pre) walEntryHeaderSize) as [S|S].
  { unfold DecodeWALEntry. by rewrite (proj2 (Z.ltb_lt _ _)). }
  pose proof (frame_header e payload []) as F. rewrite !app_nil_r in F.
  destruct (header_split pre S) as (k & a & b & t & c & l & body & H). rewrite (decode_header _ _ _ _ _ _ _ _ H).
  destruct H as [Ep La Lb Lt Lc Ll]. destruct F as [Ef Fa Fb Ft Fc Fl]. rewrite Ef, Ep, <- !app_assoc in E.
  do 5 (apply app_inj_1 in E as [_ E]; [|unfold len in *; simpl; lia]).
  apply app_inj_1 in E as [<- E]; [|unfold len in *; lia].
  assert (Lb' : len body < len payload).
  { rewrite E, len_app. destruct suf; [done|]. rewrite len_cons. pose proof (len_nonneg suf). lia. }
  pose proof (len_nonneg body). unfold decode_body, walEntryHeaderSize in *.
  rewrite putU32_decode by by apply len_u32; lia. rewrite u32_id by (unfold in_u32; lia).
  by rewrite (proj2 (Z.ltb_lt _ _)).
Qed.

Lemma entry_roundtrip_eq e : entry_wf e -> DecodeWALEntry (EncodeWALEntry e) = Some (Ok (stamped e)).
Proof.
  intros [V T K O L]. pose proof (decode_frame e [] []) as D. rewrite !app_nil_r in D. apply D; [done|done|].
  unfold walEntryHeaderSize in L. lia.
Qed.

(** A well-formed entry whose payload is shorter than 2^32 - 25 bytes is
    read back as it was written, with the checksum of its payload, and every
    proper prefix of its bytes is reported as truncated. *)
Theorem entry_roundtrip e : entry_wf e ->
  DecodeWALEntry (EncodeWALEntry e) = Some (Ok (stamped e)) /\
  forall pre suf, EncodeWALEntry e = pre ++ suf -> suf <> [] ->
    DecodeWALEntry pre = Some (Err ErrWALEntryTruncated).
Proof.
  intros W. split; [by apply entry_roundtrip_eq|]. destruct W as [V T K O L].
  intros pre suf E Ns. by apply (decode_cut e (encodeWALPayload e) pre suf).
Qed.

Definition sample_entry : VersionedWALEntry :=
  mkWALEntry WALEntryKindDelta (mkVersion 1 2) "p" 7
    [mkWALFileDelta "f" WALDeltaOpModify [x61] [x62]; mkWALFileDelta "d" WALDeltaOpMkdir [] []] 0.

Lemma sample_wal_entry_wf : entry_wf sample_entry.
Proof. split; try done. repeat constructor. Qed.

Lemma entry_roundtrip_witness :
  DecodeWALEntry (EncodeWALEntry sample_entry) = Some (Ok (stamped sample_entry)) /\
  DecodeWALEntry (take 40 (EncodeWALEntry sample_entry)) = Some (Err ErrWALEntryTruncated).
Proof.
  destruct (entry_roundtrip sample_entry sample_wal_entry_wf) as [R T]. split; [exact R|].
  apply (T _ (drop 40 (EncodeWALEntry sample_entry))); [by rewrite take_drop|]. vm_compute. discriminate.
Defined.

Lemma decode_exact_witness :
  fields_wf (stamped sample_entry) /\ exists slack rest,
    EncodeWALEntry sample_entry = frame (stamped sample_entry) (encodeWALPayload (stamped sample_entry) ++ slack) ++ rest.
Proof.
  destruct (proj1 (decode_exact (EncodeWALEntry sample_entry) (stamped sample_entry) eq_refl)) as (W & slack & rest & E & _).
  - vm_compute. reflexivity.
  - split; [exact W|]. by exists slack, rest.
Defined.

(** Fewer than 2^32 bytes are always decoded or rejected, without a slice
    out of range; but an entry with a payload of 2^32 - 25 up to 2^32 - 1
    bytes, which is written without an error, makes the reader panic: the end
    of its payload wraps around. *)
Theorem decode_bounds :
  (forall data, len data < two32 -> DecodeWALEntry data <> None) /\
  (forall e, two32 - walEntryHeaderSize <= len (encodeWALPayload e) < two32 ->
    DecodeWALEntry (EncodeWALEntry e) = None).
Proof.
  split.
  - intros data L. destruct (Z.ltb_spec (len data) walEntryHeaderSize) as [S|S].
    { unfold DecodeWALEntry. by rewrite (proj2 (Z.ltb_lt _ _)). }
    destruct (header_split data S) as (k & a & b & t & c & l & body & H). rewrite (decode_header _ _ _ _ _ _ _ _ H).
    destruct H as [E La Lb Lt Lc Ll]. apply decode_body_total; [|done].
    rewrite E, !len_app, La, Lb, Lt, Lc, Ll in L. change (len [k]) with 1 in L. unfold walEntryHeaderSize. lia.
  - intros e L. pose proof (frame_header e (encodeWALPayload e) []) as F. rewrite !app_nil_r in F.
    change (EncodeWALEntry e) with (frame e (encodeWALPayload e)). rewrite (decode_header _ _ _ _ _ _ _ _ F).
    set (p := encodeWALPayload e) in *. change walEntryHeaderSize with 25 in *. unfold decode_body.
    assert (R : in_u32 (len p)) by (split; [apply len_nonneg|apply L]).
    rewrite putU32_decode, (u32_id (len p)), Z.ltb_irrefl by done. change walEntryHeaderSize with 25.
    assert (W : u32 (25 + len p) = 25 + len p - two32).
    { unfold u32, two32 in *. symmetry. apply Z.mod_unique with (q := 1); lia. }
    rewrite W. unfold two32 in *. rewrite (proj2 (Z.ltb_ge (len p) _)) by lia.
    by rewrite (proj2 (Z.ltb_lt (25 + _ - _) 25)) by lia.
Qed.
