(* ===== verification/DiskWal.v ===== *)
(** * The semantic log on disk (core/versioning/versioned_wal.go)

    One file per entry, replaced as a whole by renaming a temporary file, and
    an index of the newest entries in [index.json].  The directory is a map
    from the names of its regular files to their bytes; the outcomes of the
    file operations are arguments.  A crash in the middle of a call leaves the
    directory as the call with the corresponding outcome does.  The JSON form
    of the index is the class [IndexJSON]. *)

From Stdlib Require Import Decimal DecimalString DecimalN.
From S2P Require Import Prelude GoStd Ids.
From S2P Require Export WalEntryProof.
Import Semantic WalEntry.

Abbreviation disk := (gmap string bytes).

(** What [encoding/json] can represent: versions and times are those of the
    types of the code, other bytes than ASCII in a string may be replaced. *)
Definition plain (idx : VersionIndex) : Prop :=
  version_wf (IVersion idx) /\ in_i64 (ITimestamp idx) /\
  Forall (fun b => byte_to_Z b < 128) (str_bytes (IPipelineID idx)) /\
  Forall (fun b => byte_to_Z b < 128) (str_bytes (Filename idx)).

#[export] Instance version_wf_dec v : Decision (version_wf v).
Proof. unfold version_wf. apply _. Defined.
#[export] Instance plain_dec idx : Decision (plain idx).
Proof. unfold plain. apply _. Defined.

(** [json.Marshal] and [json.Unmarshal] of an index. *)
Class IndexJSON := {
  Marshal : list VersionIndex -> option bytes;
  Unmarshal : bytes -> option (list VersionIndex);
  Unmarshal_Marshal l : Forall plain l -> exists b, Marshal l = Some b /\ Unmarshal b = Some l
}.

(** Replacing a file: writing its bytes to a temporary file, of which a
    failure leaves the first [k] or nothing, and renaming that, after the
    failure of which it is removed, if it can be. *)
Inductive replace_io := Replaced | WriteFails (k : option nat) | RenameFails (removed : bool).

Definition replace (d : disk) (io : replace_io) (name : string) (data : bytes) : disk * bool :=
  let tmp := name +:+ ".tmp" in
  match io with
  | Replaced => (<[name := data]> (delete tmp d), true)
  | WriteFails None => (d, false)
  | WriteFails (Some k) => (<[tmp := take k data]> d, false)
  | RenameFails removed => (if removed then delete tmp d else <[tmp := data]> d, false)
  end.

Module DiskWal.

Inductive wal_error :=
| ErrVersionedWALClosed | ErrVersionNotFoundInWAL | ErrMkdir | ErrReadDir | ErrRead | ErrWrite | ErrMarshal
| ErrDecode (e : wal_entry_error).

Record VersionedWALConfig := mkConfig { RetainedMajors : Z; MaxIndexEntries : Z }.

Record VersionedWAL := mkWAL {
  dir : disk;
  windex : list VersionIndex;
  current : SemanticVersion;
  nextSeq : Z;
  closed : bool;
  retained : Z;
  maxIndex : Z
}.

Definition DefaultRetainedMajors : Z := 10.
Definition DefaultMaxIndexEntries : Z := 1000.

(* ------------------------------------------------------------------ *)
(** ** File names *)

(** [fmt.Sprintf("%06d", seq)] *)
Definition pad6 (s : string) : string :=
  bytes_str (replicate (6 - length (str_bytes s)) x30) +:+ s.

Definition kind_ext (kind : WALEntryKind) : string :=
  if bool_decide (kind = WALEntryKindCheckpoint) then "chkpt" else "delta".

Definition entryFilename (seq : Z) (kind : WALEntryKind) : string :=
  pad6 (print_uint seq) +:+ "." +:+ kind_ext kind.

(** [strings.SplitN(name, ".", 2)], when it has two parts. *)
Fixpoint cut_dot (s : string) : option (string * string) :=
  match s with
  | EmptyString => None
  | String c s =>
    if Ascii.eqb c "." then Some ("", s)
    else match cut_dot s with Some (a, b) => Some (String c a, b) | None => None end
  end.

(** [strconv.ParseUint(s, 10, 64)]: the value, and whether there is no error. *)
Definition ParseUint64 (s : string) : Z * bool :=
  match NilZero.uint_of_string s with
  | Some d => let n := Z.of_N (N.of_uint d) in if n <? two64 then (n, true) else (two64 - 1, false)
  | None => (0, false)
  end.

Record walFileInfo := mkFile { fname : string; fseq : Z; fkind : WALEntryKind }.

Definition parseWALFilename (name : string) : option walFileInfo :=
  match cut_dot name with
  | None => None
  | Some (base, ext) =>
    match (if bool_decide (ext = "delta") then Some WALEntryKindDelta
           else if bool_decide (ext = "chkpt") then Some WALEntryKindCheckpoint else None) with
    | None => None
    | Some kind => let '(seq, ok) := ParseUint64 base in if ok then Some (mkFile name seq kind) else None
    end
  end.

Definition seqFromFilename (name : string) : Z :=
  match cut_dot name with Some (base, _) => (ParseUint64 base).1 | None => 0 end.

(* ------------------------------------------------------------------ *)
(** ** Files *)

Section Json.
Context `{IndexJSON} `{SliceSort}.

(** [reads]: which of the files there are can be read. *)
Definition readEntryFile (reads : string -> bool) (w : VersionedWAL) (filename : string)
  : checked wal_error VersionedWALEntry :=
  match dir w !! filename with
  | Some data =>
    if reads filename then
      match DecodeWALEntry data with
      | Some (Ok e) => Some (Ok e)
      | Some (Err e) => Some (Err (ErrDecode e))
      | None => None
      end
    else fail ErrRead
  | None => fail ErrRead
  end.

Definition setDir (w : VersionedWAL) (d : disk) : VersionedWAL :=
  mkWAL d (windex w) (current w) (nextSeq w) (closed w) (retained w) (maxIndex w).
Definition setIndex (w : VersionedWAL) (idx : list VersionIndex) : VersionedWAL :=
  mkWAL (dir w) idx (current w) (nextSeq w) (closed w) (retained w) (maxIndex w).

Definition writeEntryFile (w : VersionedWAL) (io : replace_io) (filename : string) (entry : VersionedWALEntry)
  : VersionedWAL * option wal_error :=
  let '(d, ok) := replace (dir w) io filename (EncodeWALEntry entry) in
  (setDir w d, if ok then None else Some ErrWrite).

Definition persistIndex (w : VersionedWAL) (io : replace_io) : VersionedWAL * option wal_error :=
  match Marshal (windex w) with
  | None => (w, Some ErrMarshal)
  | Some data =>
    let '(d, ok) := replace (dir w) io "index.json" data in
    (setDir w d, if ok then None else Some ErrWrite)
  end.

Fixpoint find_index (idxs : list VersionIndex) (ver : SemanticVersion) : option VersionIndex :=
  match idxs with
  | [] => None
  | idx :: idxs => if bool_decide (IVersion idx = ver) then Some idx else find_index idxs ver
  end.
Definition findIndex (w : VersionedWAL) (ver : SemanticVersion) : option VersionIndex := find_index (windex w) ver.

Definition evictOldIndexEntries (w : VersionedWAL) : VersionedWAL :=
  if len (windex w) <=? maxIndex w then w
  else setIndex w (drop (Z.to_nat (len (windex w) - maxIndex w)) (windex w)).

(** The body of the loop of [recoverStateFromIndex]. *)
Definition recoverStep (st : SemanticVersion * Z) (idx : VersionIndex) : SemanticVersion * Z :=
  let '(cur, seq) := st in
  (if 0 <? Compare (IVersion idx) cur then IVersion idx else cur,
   let s := seqFromFilename (Filename idx) in if seq <? s then s else seq).

Definition recoverStateFromIndex (w : VersionedWAL) : VersionedWAL :=
  let '(cur, seq) := foldl recoverStep (VersionZero, 0) (windex w) in
  mkWAL (dir w) (windex w) cur seq (closed w) (retained w) (maxIndex w).

(* ------------------------------------------------------------------ *)
(** ** Opening *)

(** [os.ReadDir], which sorts by name. *)
Definition ReadDir (d : disk) : list string := sort_slice String.ltb (elements (dom d)).

(** The loop over the sorted files: entries that cannot be read are skipped. *)
Fixpoint rebuildLoop (reads : string -> bool) (w : VersionedWAL) (files : list walFileInfo)
    (idx : list VersionIndex) : option (list VersionIndex) :=
  match files with
  | [] => Some idx
  | f :: files =>
    match readEntryFile reads w (fname f) with
    | None => None
    | Some (Err _) => rebuildLoop reads w files idx
    | Some (Ok entry) =>
      rebuildLoop reads w files (idx ++ [mkIndex (Version entry) (fname f) (Kind entry) (EPipelineID entry) (ETimestamp entry)])
    end
  end.

Definition rebuildIndexFromDir (w : VersionedWAL) (reads : string -> bool) (readdir : bool) (io : replace_io)
  : option (VersionedWAL * option wal_error) :=
  if negb readdir then Some (w, Some ErrReadDir)
  else
    let files := sort_slice (fun a b => fseq a <? fseq b) (omap parseWALFilename (ReadDir (dir w))) in
    idx ← rebuildLoop reads w files [];
    Some (persistIndex (recoverStateFromIndex (setIndex w idx)) io).

Definition loadIndex (w : VersionedWAL) (reads : string -> bool) (readdir : bool) (io : replace_io)
  : option (VersionedWAL * option wal_error) :=
  match (if reads "index.json" then data ← dir w !! "index.json"; Unmarshal data else None) with
  | None => rebuildIndexFromDir w reads readdir io
  | Some entries => Some (recoverStateFromIndex (setIndex w entries), None)
  end.

(** The directory left, and the log. *)
Definition OpenVersionedWAL (cfg : VersionedWALConfig) (d : disk) (mkdir : bool) (reads : string -> bool)
    (readdir : bool) (io : replace_io) : option (disk * result wal_error VersionedWAL) :=
  let ret := if RetainedMajors cfg <=? 0 then DefaultRetainedMajors else RetainedMajors cfg in
  let maxIdx := if MaxIndexEntries cfg <=? 0 then DefaultMaxIndexEntries else MaxIndexEntries cfg in
  if negb mkdir then Some (d, Err ErrMkdir)
  else
    '(w, e) ← loadIndex (mkWAL d [] VersionZero 0 false ret maxIdx) reads readdir io;
    Some (dir w, match e with None => Ok w | Some e => Err e end).

(* ------------------------------------------------------------------ *)
(** ** Appending *)

Definition appendEntry (w : VersionedWAL) (now : Z) (io1 io2 : replace_io) (kind : WALEntryKind)
    (ver : SemanticVersion) (pipelineID : string) (deltas : list WALFileDelta)
  : VersionedWAL * (SemanticVersion * option wal_error) :=
  let seq := u64 (nextSeq w + 1) in
  let filename := entryFilename seq kind in
  let entry := mkWALEntry kind ver pipelineID now deltas 0 in
  match writeEntryFile w io1 filename entry with
  | (w, Some e) =>
    (mkWAL (dir w) (windex w) (current w) (u64 (seq - 1)) (closed w) (retained w) (maxIndex w), (VersionZero, Some e))
  | (w, None) =>
    let w := mkWAL (dir w) (windex w ++ [mkIndex ver filename kind pipelineID (ETimestamp entry)]) ver seq
      (closed w) (retained w) (maxIndex w) in
    let '(w, e) := persistIndex (evictOldIndexEntries w) io2 in
    (w, (ver, e))
  end.

Definition AppendDelta (w : VersionedWAL) (now : Z) (io1 io2 : replace_io) (pipelineID : string)
    (deltas : list WALFileDelta) : VersionedWAL * (SemanticVersion * option wal_error) :=
  if closed w then (w, (VersionZero, Some ErrVersionedWALClosed))
  else appendEntry w now io1 io2 WALEntryKindDelta (BumpMinor (current w)) pipelineID deltas.

Definition AppendCheckpoint (w : VersionedWAL) (now : Z) (io1 io2 : replace_io) (deltas : list WALFileDelta)
  : VersionedWAL * (SemanticVersion * option wal_error) :=
  if closed w then (w, (VersionZero, Some ErrVersionedWALClosed))
  else appendEntry w now io1 io2 WALEntryKindCheckpoint (BumpMajor (current w)) "" deltas.

(* ------------------------------------------------------------------ *)
(** ** Reading *)

Definition GetEntry (reads : string -> bool) (w : VersionedWAL) (ver : SemanticVersion)
  : checked wal_error VersionedWALEntry :=
  if closed w then fail ErrVersionedWALClosed
  else match findIndex w ver with
    | None => fail ErrVersionNotFoundInWAL
    | Some idx => readEntryFile reads w (Filename idx)
    end.

(** The loop of the two readers; [want] is the condition of its [if]. *)
Fixpoint collect (want : SemanticVersion -> bool) (reads : string -> bool) (w : VersionedWAL)
    (idxs : list VersionIndex) (result : list VersionedWALEntry) : checked wal_error (list VersionedWALEntry) :=
  match idxs with
  | [] => mret result
  | idx :: idxs =>
    if want (IVersion idx) then
      entry ← readEntryFile reads w (Filename idx);
      collect want reads w idxs (result ++ [entry])
    else collect want reads w idxs result
  end.

Definition GetDeltasSince (reads : string -> bool) (w : VersionedWAL) (ver : SemanticVersion)
  : checked wal_error (list VersionedWALEntry) :=
  if closed w then fail ErrVersionedWALClosed
  else collect (fun v => 0 <? Compare v ver) reads w (windex w) [].

Definition GetDeltasInRange (reads : string -> bool) (w : VersionedWAL) (from to : SemanticVersion)
  : checked wal_error (list VersionedWALEntry) :=
  if closed w then fail ErrVersionedWALClosed
  else collect (fun v => (0 <=? Compare v from) && (Compare v to <=? 0)) reads w (windex w) [].

Definition CurrentVersion (w : VersionedWAL) : SemanticVersion := current w.

Definition LatestCheckpoint (w : VersionedWAL) : SemanticVersion * bool :=
  match MemoryWal.latest (reverse (windex w)) with
  | Some v => (v, true)
  | None => (VersionZero, false)
  end.

Definition IndexLen (w : VersionedWAL) : Z := len (windex w).

(* ------------------------------------------------------------------ *)
(** ** Compaction *)

(** The loop: the directory, and the index entries kept; [removes] tells which
    files can be removed. *)
Fixpoint compactLoop (removes : string -> bool) (cutoffMajor : Z) (idxs : list VersionIndex) (d : disk)
    (kept : list VersionIndex) : disk * list VersionIndex :=
  match idxs with
  | [] => (d, kept)
  | idx :: idxs =>
    if Major (IVersion idx) <? cutoffMajor then
      compactLoop removes cutoffMajor idxs (if removes (Filename idx) then delete (Filename idx) d else d) kept
    else compactLoop removes cutoffMajor idxs d (kept ++ [idx])
  end.

Definition Compact (w : VersionedWAL) (removes : string -> bool) (io : replace_io)
  : VersionedWAL * option wal_error :=
  if closed w then (w, Some ErrVersionedWALClosed)
  else if Major (current w) <=? u32 (retained w) then (w, None)
  else
    let cutoffMajor := u32 (Major (current w) - u32 (retained w)) in
    let '(d, kept) := compactLoop removes cutoffMajor (windex w) (dir w) [] in
    persistIndex (setIndex (setDir w d) kept) io.

Definition Close (w : VersionedWAL) (io : replace_io) : VersionedWAL * option wal_error :=
  if closed w then (w, None)
  else persistIndex (mkWAL (dir w) (windex w) (current w) (nextSeq w) true (retained w) (maxIndex w)) io.
End Json.
End DiskWal.
