(* ===== verification/DiskWalProof.v ===== *)
(** * What the log on disk keeps (core/versioning/versioned_wal.go)

    The specification has two lists of entries: those of the index in memory
    and those of the index on disk, which a new process starts from.  Whatever
    fails, an append adds its entry to both, to the first only, or to neither. *)

From Stdlib Require Import Decimal DecimalString DecimalN.
From S2P Require Import Prelude GoStd Ids.
From S2P Require Export DiskWal.
Import Semantic WalEntry DiskWal.

(* ------------------------------------------------------------------ *)
(** ** File names *)

Lemma str_app_assoc (a b c : string) : (a +:+ b) +:+ c = a +:+ b +:+ c.
Proof.
  induction a as [|x a IH]; [done|].
  change (String x ((a +:+ b) +:+ c) = String x (a +:+ b +:+ c)). by rewrite IH.
Qed.

Lemma uint_zeros n d : N.of_uint (Nat.iter n D0 d) = N.of_uint d.
Proof. by induction n as [|n IH]. Qed.

Lemma string_zeros n d :
  bytes_str (replicate n x30) +:+ NilEmpty.string_of_uint d = NilEmpty.string_of_uint (Nat.iter n D0 d).
Proof.
  induction n as [|n IH]; [done|].
  change (String "0" (bytes_str (replicate n x30) +:+ NilEmpty.string_of_uint d) =
    String "0" (NilEmpty.string_of_uint (Nat.iter n D0 d))). by rewrite IH.
Qed.

Lemma uint_string d : d <> Nil -> NilZero.string_of_uint d = NilEmpty.string_of_uint d.
Proof. by destruct d. Qed.

Lemma pad6_print z : exists d, pad6 (print_uint z) = NilZero.string_of_uint d /\ d <> Nil /\
  N.of_uint d = Z.to_N z.
Proof.
  unfold pad6, print_uint. set (n := (6 - _)%nat). pose proof (to_uint_nonnil (Z.to_N z)) as N.
  exists (Nat.iter n D0 (N.to_uint (Z.to_N z))).
  assert (N' : Nat.iter n D0 (N.to_uint (Z.to_N z)) <> Nil) by (by destruct n).
  rewrite !uint_string by done. split_and!; [apply string_zeros|done|]. by rewrite uint_zeros, Unsigned.of_to.
Qed.

Lemma cut_digits s t : digits s -> cut_dot (s +:+ "." +:+ t) = Some (s, t).
Proof.
  induction s as [|c s IH]; [done|]. intros H. apply Forall_cons in H as [Hc H].
  change (String c s +:+ "." +:+ t) with (String c (s +:+ "." +:+ t)). cbn [cut_dot].
  destruct (Ascii.eqb_spec c "."); [subst; exfalso; revert Hc; apply (bool_decide_eq_false_1 _); vm_compute; reflexivity|].
  by rewrite (IH H).
Qed.

Lemma parse_pad6 z : in_u64 z -> ParseUint64 (pad6 (print_uint z)) = (z, true) /\ digits (pad6 (print_uint z)).
Proof.
  intros B. destruct (pad6_print z) as (d & -> & N & E). split.
  - unfold ParseUint64. rewrite NilZero.usu by done. rewrite E, Z2N.id by apply B.
    destruct B as [_ B]. by rewrite (proj2 (Z.ltb_lt _ _)).
  - rewrite uint_string by done. apply digits_empty.
Qed.

Lemma cut_filename q k : in_u64 q -> cut_dot (entryFilename q k) = Some (pad6 (print_uint q), kind_ext k).
Proof. intros B. unfold entryFilename. apply cut_digits. by apply parse_pad6. Qed.

Lemma seq_filename q k : in_u64 q -> seqFromFilename (entryFilename q k) = q.
Proof. intros B. unfold seqFromFilename. rewrite cut_filename by done. by destruct (parse_pad6 q B) as [-> _]. Qed.

Lemma filename_inj q q' k k' : in_u64 q -> in_u64 q' -> entryFilename q k = entryFilename q' k' -> q = q'.
Proof. intros B B' E. rewrite <- (seq_filename q k B), E. by apply seq_filename. Qed.

(** Neither the index nor a temporary file has the name of an entry. *)
Lemma filename_not_index q k : in_u64 q -> entryFilename q k <> "index.json" /\ entryFilename q k <> "index.json.tmp".
Proof.
  intros B. split; intros E; apply (f_equal cut_dot) in E; rewrite cut_filename in E by done;
    apply (f_equal (option_map snd)) in E; cbn in E; unfold kind_ext in E; by destruct (bool_decide _).
Qed.

Lemma filename_not_tmp q q' k k' : in_u64 q -> in_u64 q' -> entryFilename q k <> entryFilename q' k' +:+ ".tmp".
Proof.
  intros B B' E. assert (C : cut_dot (entryFilename q' k' +:+ ".tmp") = Some (pad6 (print_uint q'), kind_ext k' +:+ ".tmp")).
  { unfold entryFilename. rewrite !str_app_assoc. apply cut_digits. by apply parse_pad6. }
  apply (f_equal cut_dot) in E. rewrite cut_filename, C in E by done. injection E as _ E.
  unfold kind_ext in E. by repeat destruct (bool_decide _).
Qed.

Lemma index_not_tmp q k : in_u64 q -> entryFilename q k +:+ ".tmp" <> "index.json".
Proof.
  intros B E. apply (f_equal cut_dot) in E. revert E. unfold entryFilename.
  rewrite !str_app_assoc, cut_digits by by apply parse_pad6. intros E. injection E as _ E. unfold kind_ext in E. by destruct (bool_decide _).
Qed.

(* ------------------------------------------------------------------ *)
(** ** Replacing a file *)

Lemma replace_other d io name data k : k <> name -> k <> name +:+ ".tmp" -> (replace d io name data).1 !! k = d !! k.
Proof.
  intros N T. destruct io as [|[n|]|[]]; cbn [replace fst]; rewrite ?lookup_insert_ne, ?lookup_delete_ne by done; done.
Qed.

Lemma str_app_tmp s : s <> s +:+ ".tmp".
Proof.
  intros E. apply (f_equal (fun s => len (str_bytes s))) in E. rewrite str_bytes_app, len_app in E.
  change (len (str_bytes ".tmp")) with 4 in E. lia.
Qed.

Lemma replace_self d io name data :
  (replace d io name data).1 !! name = match io with Replaced => Some data | _ => d !! name end.
Proof.
  pose proof (str_app_tmp name). destruct io as [|[n|]|[]]; cbn [replace fst];
    rewrite ?lookup_insert_eq, ?lookup_insert_ne, ?lookup_delete_ne by done; done.
Qed.

Lemma replace_ok d io name data : (replace d io name data).2 = match io with Replaced => true | _ => false end.
Proof. by destruct io as [|[n|]|[]]. Qed.

(* ------------------------------------------------------------------ *)
(** ** The specification *)

(** The entries of the index in memory and of the one on disk. *)
Record spec := mkSpec { mem : list VersionedWALEntry; per : list VersionedWALEntry }.

Inductive call :=
| CDelta (now : Z) (pipelineID : string) (deltas : list WALFileDelta) (io1 io2 : replace_io)
| CCheckpoint (now : Z) (deltas : list WALFileDelta) (io1 io2 : replace_io)
| CCompact (removes : string -> bool)
| CReopen.

(** The entry the next append writes. *)
Definition next (es : list VersionedWALEntry) (c : MemoryWal.call) : VersionedWALEntry :=
  stamped (MemoryWal.next_entry (MemoryWal.head_version es) c).

(** The last [n] elements. *)
Definition newest {A} (n : Z) (l : list A) : list A := drop (Z.to_nat (len l - n)) l.

Definition spec_append (cap : Z) (io1 io2 : replace_io) (e : VersionedWALEntry) (s : spec) : spec :=
  match io1 with
  | Replaced =>
    let m := newest cap (mem s ++ [e]) in
    mkSpec m (match io2 with Replaced => m | _ => per s end)
  | _ => s
  end.

(** The entries of the last [ret] major versions and the current one. *)
Definition recent (ret : Z) (es : list VersionedWALEntry) : list VersionedWALEntry :=
  filter (fun e => Major (MemoryWal.head_version es) - ret <= Major (Version e)) es.

Definition spec_exec (cap ret : Z) (s : spec) (c : call) : spec :=
  match c with
  | CDelta now pid ds io1 io2 => spec_append cap io1 io2 (next (mem s) (MemoryWal.CDelta now pid ds)) s
  | CCheckpoint now ds io1 io2 => spec_append cap io1 io2 (next (mem s) (MemoryWal.CCheckpoint now ds)) s
  | CCompact _ =>
    if Major (MemoryWal.head_version (mem s)) <=? ret then s else mkSpec (recent ret (mem s)) (recent ret (mem s))
  | CReopen => mkSpec (per s) (per s)
  end.

Definition ascii_only (s : string) : Prop := Forall (fun b => byte_to_Z b < 128) (str_bytes s).

#[export] Instance ascii_only_dec s : Decision (ascii_only s).
Proof. unfold ascii_only. apply _. Defined.

(** The arguments of an append of which the entry can be written. *)
Definition append_wf (now : Z) (pid : string) (ds : list WALFileDelta) : Prop :=
  in_i64 now /\ ascii_only pid /\ Forall (fun d => byte_op (op_byte (DOp d)) = DOp d) ds /\
  len (payload_bytes pid ds) < two32 - walEntryHeaderSize.

Definition call_wf (c : call) : Prop :=
  match c with
  | CDelta now pid ds _ _ => append_wf now pid ds
  | CCheckpoint now ds _ _ => append_wf now "" ds
  | _ => True
  end.

#[export] Instance append_wf_dec now pid ds : Decision (append_wf now pid ds).
Proof. unfold append_wf. apply _. Defined.
#[export] Instance call_wf_dec c : Decision (call_wf c).
Proof. destruct c; cbn [call_wf]; apply _. Defined.

(* ------------------------------------------------------------------ *)
(** ** Records of the directory *)

(** A sequence number and the entry of its file. *)
Abbreviation rec := (Z * VersionedWALEntry)%type.

Definition idx_of (r : rec) : VersionIndex :=
  mkIndex (Version r.2) (entryFilename r.1 (Kind r.2)) (Kind r.2) (EPipelineID r.2) (ETimestamp r.2).

Definition on_disk (d : disk) (r : rec) : Prop :=
  d !! entryFilename r.1 (Kind r.2) = Some (EncodeWALEntry r.2).

(** Entries as they are read back. *)
Definition entry_ok (e : VersionedWALEntry) : Prop := entry_wf e /\ stamped e = e /\ ascii_only (EPipelineID e).

Definition ver (r : rec) : SemanticVersion := Version r.2.

(** The records of an index: their files are there, sequence numbers and
    versions grow. *)
Record listed (d : disk) (n hi cap : Z) (rs : list rec) : Prop := {
  l_disk : Forall (on_disk d) rs;
  l_seqs : StronglySorted Z.lt rs.*1;
  l_range : Forall (fun q => 0 < q <= hi) rs.*1;
  l_versions : StronglySorted lt (ver <$> rs);
  l_bound : Forall (MemoryWal.bounded n) (ver <$> rs);
  l_ok : Forall entry_ok rs.*2;
  l_len : len rs <= cap
}.

Lemma listed_frame d d' n n' hi hi' cap rs : listed d n hi cap rs -> n <= n' -> hi <= hi' ->
  (forall r, r ∈ rs -> d' !! entryFilename r.1 (Kind r.2) = d !! entryFilename r.1 (Kind r.2)) ->
  listed d' n' hi' cap rs.
Proof.
  intros [D S R V B O L] N Hi K. split; try done.
  - rewrite Forall_forall in D |- *. intros r Hr. unfold on_disk. rewrite K by done. by apply D.
  - eapply Forall_impl; [exact R|]. simpl. lia.
  - eapply Forall_impl; [exact B|]. unfold MemoryWal.bounded. lia.
Qed.

Lemma StronglySorted_drop {A} (R : A -> A -> Prop) k (l : list A) : StronglySorted R l -> StronglySorted R (drop k l).
Proof.
  revert l. induction k as [|k IH]; intros [|x l] S; try done. cbn [drop]. apply IH.
  by apply StronglySorted_inv in S as [S _].
Qed.

Lemma newest_fmap {A B} (f : A -> B) n l : newest n (f <$> l) = f <$> newest n l.
Proof. unfold newest. by rewrite len_fmap, fmap_drop. Qed.

Lemma len_newest {A} n (l : list A) : 0 <= n -> len (newest n l) <= n.
Proof. intros N. unfold newest, len in *. rewrite length_drop. lia. Qed.

(** The record of the next file. *)
Lemma listed_snoc d n hi cap rs e : listed d n hi cap rs -> 0 <= hi -> 0 <= cap -> on_disk d (hi + 1, e) -> entry_ok e ->
  MemoryWal.bounded (n + 1) (Version e) -> Forall (fun u => lt u (Version e)) (ver <$> rs) ->
  listed d (n + 1) (hi + 1) cap (newest cap (rs ++ [(hi + 1, e)])).
Proof.
  intros [D S R V B O L] Hi C De Oe Be Fe. set (r := (hi + 1, e)).
  assert (S' : StronglySorted Z.lt (rs ++ [r]).*1).
  { rewrite fmap_app. apply StronglySorted_app. split_and!; [|done|repeat constructor].
    intros x y Hx ->%list_elem_of_singleton. rewrite Forall_forall in R. specialize (R x Hx). simpl in *. lia. }
  assert (V' : StronglySorted lt (ver <$> rs ++ [r])).
  { rewrite fmap_app. apply StronglySorted_app. split_and!; [|done|repeat constructor].
    intros x y Hx ->%list_elem_of_singleton. rewrite Forall_forall in Fe. by apply Fe. }
  assert (F : Forall (on_disk d) (rs ++ [r])) by (apply Forall_app; by repeat constructor).
  assert (R' : Forall (fun q => 0 < q <= hi + 1) (rs ++ [r]).*1).
  { rewrite fmap_app. apply Forall_app. split; [eapply Forall_impl; [exact R|]; simpl; lia|].
    constructor; [simpl; lia|constructor]. }
  assert (B' : Forall (MemoryWal.bounded (n + 1)) (ver <$> rs ++ [r])).
  { rewrite fmap_app. apply Forall_app. split; [eapply Forall_impl; [exact B|]; unfold MemoryWal.bounded; lia|].
    constructor; [exact Be|constructor]. }
  assert (O' : Forall entry_ok (rs ++ [r]).*2) by (rewrite fmap_app; apply Forall_app; split; [exact O|constructor; [exact Oe|constructor]]).
  unfold newest. split; rewrite ?fmap_drop; auto using StronglySorted_drop, Forall_drop. by apply len_newest.
Qed.

Lemma listed_sub d n hi cap rs (P : rec -> Prop) `{forall r, Decision (P r)} :
  listed d n hi cap rs -> listed d n hi cap (filter P rs).
Proof.
  intros [D S R V B O L].
  assert (K : forall {A} (f : rec -> A) (Q : A -> Prop), Forall Q (f <$> rs) -> Forall Q (f <$> filter P rs)).
  { intros A f Q. rewrite !Forall_fmap, !Forall_forall. intros F r [_ Hr]%list_elem_of_filter. by apply F. }
  split; eauto.
  - rewrite Forall_forall in D |- *. intros r [_ Hr]%list_elem_of_filter. by apply D.
  - rewrite StronglySorted_fmap in S |- *. by apply StronglySorted_filter.
  - rewrite StronglySorted_fmap in V |- *. by apply StronglySorted_filter.
  - unfold len in *. pose proof (length_filter P rs). lia.
Qed.

(* ------------------------------------------------------------------ *)
(** ** The invariant *)

Section Wal.
Context `{IndexJSON} `{SliceSort}.
Variable cfg : VersionedWALConfig.

Definition cap : Z := if MaxIndexEntries cfg <=? 0 then DefaultMaxIndexEntries else MaxIndexEntries cfg.
Definition ret : Z := if RetainedMajors cfg <=? 0 then DefaultRetainedMajors else RetainedMajors cfg.

Lemma cap_pos : 0 < cap.
Proof. unfold cap. destruct (Z.leb_spec (MaxIndexEntries cfg) 0); unfold DefaultMaxIndexEntries; lia. Qed.

(** A process that opens the directory with every file operation succeeding. *)
Definition reopen (d : disk) : option (disk * result wal_error VersionedWAL) :=
  OpenVersionedWAL cfg d true (fun _ => true) true Replaced.

Definition exec (w : VersionedWAL) (c : call) : VersionedWAL :=
  match c with
  | CDelta now pid ds io1 io2 => (AppendDelta w now io1 io2 pid ds).1
  | CCheckpoint now ds io1 io2 => (AppendCheckpoint w now io1 io2 ds).1
  | CCompact removes => (Compact w removes Replaced).1
  | CReopen => match reopen (dir w) with Some (_, Ok w) => w | _ => w end
  end.

(** The log of an empty directory. *)
Definition opened : VersionedWAL := match reopen ∅ with Some (_, Ok w) => w | _ => mkWAL ∅ [] VersionZero 0 true 0 0 end.

Record sound (n : Z) (w : VersionedWAL) (s : spec) (rm rp : list rec) : Prop := {
  so_mem : mem s = rm.*2;
  so_per : per s = rp.*2;
  so_index : windex w = idx_of <$> rm;
  so_json : exists b, dir w !! "index.json" = Some b /\ Unmarshal b = Some (idx_of <$> rp);
  so_listed_mem : listed (dir w) n (nextSeq w) cap rm;
  so_listed_per : listed (dir w) n (nextSeq w) cap rp;
  so_current : current w = MemoryWal.head_version (mem s);
  so_seq : 0 <= nextSeq w <= n;
  so_open : closed w = false;
  so_ret : retained w = ret;
  so_cap : maxIndex w = cap
}.

Lemma ascii_digits s : digits s -> ascii_only s.
Proof.
  intros D. eapply Forall_impl; [exact D|]. intros b.
  unfold digit. rewrite !elem_of_cons, elem_of_nil. intros H1.
  repeat (destruct H1 as [->|H1]; [done|]). done.
Qed.

Lemma ascii_filename q k : in_u64 q -> ascii_only (entryFilename q k).
Proof.
  intros B. destruct (parse_pad6 q B) as [_ D]. apply ascii_digits in D. unfold entryFilename, ascii_only in *.
  rewrite !str_bytes_app. apply Forall_app. split; [exact D|]. unfold kind_ext.
  destruct (bool_decide _); apply (bool_decide_eq_true_1 _); reflexivity.
Qed.

Lemma listed_range d n hi rs r : listed d n hi cap rs -> hi < two32 -> r ∈ rs -> in_u64 r.1 /\ 0 < r.1 <= hi.
Proof.
  intros L Hi Hr. pose proof (l_range _ _ _ _ _ L) as R. rewrite Forall_fmap, Forall_forall in R.
  specialize (R r Hr). simpl in R. split; [|exact R]. unfold in_u64, two64, two32 in *. lia.
Qed.

Lemma listed_plain d n hi rs : listed d n hi cap rs -> n < two32 -> hi < two32 -> Forall plain (idx_of <$> rs).
Proof.
  intros L N Hi. apply Forall_fmap, Forall_forall. intros r Hr. destruct (listed_range _ _ _ _ _ L Hi Hr) as [B _].
  destruct L as [_ _ _ _ Bd O _]. rewrite Forall_fmap, Forall_forall in Bd. rewrite Forall_fmap, Forall_forall in O. specialize (Bd r Hr). specialize (O r Hr).
  simpl in Bd, O. destruct O as ([V T _ _ _] & _ & A). unfold plain, idx_of. simpl.
  split_and!; [exact V|exact T|exact A|by apply ascii_filename].
Qed.

(** Persisting the index of known records. *)
Lemma persist_spec w io rs : windex w = idx_of <$> rs -> Forall plain (idx_of <$> rs) ->
  let w' := (persistIndex w io).1 in
  windex w' = windex w /\ current w' = current w /\ nextSeq w' = nextSeq w /\ closed w' = closed w /\
  retained w' = retained w /\ maxIndex w' = maxIndex w /\
  (forall k, k <> "index.json" -> k <> "index.json.tmp" -> dir w' !! k = dir w !! k) /\
  match io with
  | Replaced => exists b, dir w' !! "index.json" = Some b /\ Unmarshal b = Some (idx_of <$> rs)
  | _ => dir w' !! "index.json" = dir w !! "index.json"
  end.
Proof.
  intros I P. unfold persistIndex. rewrite I. destruct (Unmarshal_Marshal _ P) as (b & -> & U).
  pose proof (fun k => replace_other (dir w) io "index.json" b k) as O.
  pose proof (replace_self (dir w) io "index.json" b) as S.
  destruct (replace (dir w) io "index.json" b) as [d ok]. cbn [fst setDir windex current nextSeq closed retained maxIndex dir] in *.
  split_and!; try done. rewrite S. destruct io; [by exists b|done..].
Qed.

(** The checksum is not written. *)
Lemma encode_stamped e : EncodeWALEntry (stamped e) = EncodeWALEntry e.
Proof. done. Qed.
Lemma stamped_stamped e : stamped (stamped e) = stamped e.
Proof. done. Qed.

Lemma next_ok es c pid now ds : c = MemoryWal.CDelta now pid ds \/ (c = MemoryWal.CCheckpoint now ds /\ pid = "") ->
  append_wf now pid ds -> version_wf (Version (MemoryWal.next_entry (MemoryWal.head_version es) c)) ->
  entry_ok (next es c).
Proof.
  intros C (T & A & O & L) V. unfold next. destruct C as [-> |[-> ->]]; unfold entry_ok; split_and!;
    try (split; rewrite ?encodeWALPayload_eq); done.
Qed.

(** A replacement of the next file keeps the files of a list. *)
Lemma listed_replace d n hi rs io k data : listed d n hi cap rs -> 0 <= hi < two32 - 1 ->
  forall r, r ∈ rs -> (replace d io (entryFilename (hi + 1) k) data).1 !! entryFilename r.1 (Kind r.2) =
    d !! entryFilename r.1 (Kind r.2).
Proof.
  intros L Hi r Hr. destruct (listed_range _ _ _ _ _ L ltac:(lia) Hr) as [B R].
  assert (B' : in_u64 (hi + 1)) by (unfold in_u64, two64, two32 in *; lia).
  apply replace_other; [|by apply filename_not_tmp]. intros E. apply filename_inj in E; [lia|done|done].
Qed.

Lemma json_replace d hi io k data : 0 <= hi < two32 - 1 ->
  (replace d io (entryFilename (hi + 1) k) data).1 !! "index.json" = d !! "index.json".
Proof.
  intros Hi. assert (B : in_u64 (hi + 1)) by (unfold in_u64, two64, two32 in *; lia).
  apply replace_other; [apply not_eq_sym; by apply filename_not_index|apply not_eq_sym; by apply index_not_tmp].
Qed.

(** An index written over known records. *)
Lemma listed_persist w io n hi rs rs' : windex w = idx_of <$> rs -> Forall plain (idx_of <$> rs) ->
  listed (dir w) n hi cap rs' -> hi < two32 -> listed (dir (persistIndex w io).1) n hi cap rs'.
Proof.
  intros I P L Hi. destruct (persist_spec w io rs I P) as (_ & _ & _ & _ & _ & _ & O & _).
  apply (listed_frame (dir w) _ n n hi hi); [done|lia|lia|]. intros r Hr.
  destruct (listed_range _ _ _ _ _ L Hi Hr) as [B _]. by apply O; apply filename_not_index.
Qed.

Lemma evict_eq w rs : windex w = idx_of <$> rs -> evictOldIndexEntries w = setIndex w (idx_of <$> newest (maxIndex w) rs).
Proof.
  intros I. unfold evictOldIndexEntries, newest. rewrite I, len_fmap.
  destruct (Z.leb_spec (len rs) (maxIndex w)).
  - replace (Z.to_nat (len rs - maxIndex w)) with 0%nat by lia. rewrite drop_0, <- I. by destruct w.
  - by rewrite fmap_drop.
Qed.

Lemma head_version_newest es e : 0 < cap -> MemoryWal.head_version (newest cap (es ++ [e])) = Version e.
Proof.
  intros C. unfold newest. rewrite drop_app_le; [apply MemoryWal.head_version_snoc|].
  rewrite len_app. change (len [e]) with 1. unfold len. lia.
Qed.

(** A directory that keeps the files of an index and the index. *)
Definition keeps (d d' : disk) (rs : list rec) : Prop :=
  d' !! "index.json" = d !! "index.json" /\
  forall r, r ∈ rs -> d' !! entryFilename r.1 (Kind r.2) = d !! entryFilename r.1 (Kind r.2).

Lemma keeps_listed d d' n n' hi hi' rs rs' : keeps d d' rs -> rs' ⊆ rs -> n <= n' -> hi <= hi' ->
  listed d n hi cap rs' -> listed d' n' hi' cap rs'.
Proof. intros [_ K] S N Hi L. apply (listed_frame d d' n n' hi hi'); auto. Qed.

Lemma sound_keeps n w s rm rp d : sound n w s rm rp -> keeps (dir w) d (rm ++ rp) ->
  sound (n + 1) (setDir w d) s rm rp.
Proof.
  intros [Sm Sp Si Sj Lm Lp Sc Sq So Sr Sk] K. pose proof K as [J _].
  split; cbn [dir windex current nextSeq closed retained maxIndex setDir]; try done.
  - by rewrite J.
  - apply (keeps_listed (dir w) d n _ (nextSeq w) _ (rm ++ rp)); [done|set_solver|lia|lia|done].
  - apply (keeps_listed (dir w) d n _ (nextSeq w) _ (rm ++ rp)); [done|set_solver|lia|lia|done].
  - lia.
Qed.

(** The log after the file of an entry is written. *)
Definition pushed (w : VersionedWAL) (d : disk) (e : VersionedWALEntry) : VersionedWAL :=
  let q := nextSeq w + 1 in
  mkWAL d (windex w ++ [idx_of (q, e)]) (Version e) q (closed w) (retained w) (maxIndex w).

Lemma pushed_sound n w s rm rp c d io2 : sound n w s rm rp -> n < two32 - 1 ->
  let e := next (mem s) c in
  entry_ok e -> keeps (dir w) d (rm ++ rp) -> on_disk d (nextSeq w + 1, e) ->
  exists rm' rp', sound (n + 1) (persistIndex (evictOldIndexEntries (pushed w d e)) io2).1
    (spec_append cap Replaced io2 e s) rm' rp'.
Proof.
  intros [Sm Sp Si Sj Lm Lp Sc Sq So Sr Sk] N e Ok K De. set (q := nextSeq w + 1) in *.
  set (rs := newest cap (rm ++ [(q, e)])). set (w1 := pushed w d e).
  assert (I1 : windex w1 = idx_of <$> (rm ++ [(q, e)])) by (rewrite fmap_app, <- Si; done).
  rewrite (evict_eq w1 _ I1). replace (maxIndex w1) with cap by done. fold rs. set (w2 := setIndex w1 (idx_of <$> rs)).
  assert (Vm : ver <$> rm = Version <$> mem s) by (rewrite Sm, <- list_fmap_compose; done).
  pose proof cap_pos as Cp.
  assert (Ls : listed d (n + 1) q cap rs).
  { destruct (MemoryWal.next_version n (mem s) c) as [Bn Fn]; [rewrite <- Vm; apply Lm|rewrite <- Vm; apply Lm|lia|].
    apply (listed_snoc d n (nextSeq w)); [|lia|lia|exact De|done|done|by rewrite Vm].
    apply (keeps_listed (dir w) d n _ (nextSeq w) _ (rm ++ rp)); [done|set_solver|lia|lia|done]. }
  assert (Lp2 : listed d (n + 1) q cap rp)
    by (apply (keeps_listed (dir w) d n _ (nextSeq w) _ (rm ++ rp)); [done|set_solver|lia|lia|done]).
  assert (Q : q < two32) by (unfold q; lia).
  assert (Pl : Forall plain (idx_of <$> rs)) by (apply (listed_plain d (n + 1) q); [exact Ls|lia|done]).
  pose proof (persist_spec w2 io2 rs eq_refl Pl) as P.
  pose proof (listed_persist w2 io2 (n + 1) q rs rs eq_refl Pl Ls Q) as Ls3.
  pose proof (listed_persist w2 io2 (n + 1) q rs rp eq_refl Pl Lp2 Q) as Lp3.
  destruct (persistIndex w2 io2) as [w3 err]. cbn [fst] in *. destruct P as (K1 & K2 & K3 & K4 & K5 & K6 & _ & K7).
  assert (M : newest cap (mem s ++ [e]) = rs.*2) by (unfold rs; rewrite <- newest_fmap, fmap_app, Sm; done).
  exists rs, (match io2 with Replaced => rs | _ => rp end).
  split; cbn [spec_append mem per]; rewrite ?K1, ?K2, ?K3, ?K4, ?K5, ?K6; try done.
  - by destruct io2.
  - destruct K as [J _]. destruct io2; [exact K7|..]; rewrite K7; cbn [w2 w1 setIndex pushed dir]; rewrite J; exact Sj.
  - by destruct io2.
  - by rewrite head_version_newest.
  - cbn [w2 w1 setIndex pushed nextSeq]. lia.
Qed.

Lemma append_sound n w s rm rp c io1 io2 : sound n w s rm rp -> n < two32 - 1 ->
  let e := MemoryWal.next_entry (MemoryWal.head_version (mem s)) c in
  entry_ok (stamped e) -> CRC32 e = 0 ->
  exists rm' rp', sound (n + 1)
    (appendEntry w (ETimestamp e) io1 io2 (Kind e) (Version e) (EPipelineID e) (Deltas e)).1
    (spec_append cap io1 io2 (stamped e) s) rm' rp'.
Proof.
  intros S N e Ok Crc. pose proof S as [_ _ _ _ Lm Lp _ Sq _ _ _].
  assert (Hi : 0 <= nextSeq w < two32 - 1) by lia. unfold appendEntry, writeEntryFile.
  rewrite (u64_id (nextSeq w + 1)) by (unfold in_u64, two64, two32 in *; lia).
  replace (mkWALEntry (Kind e) (Version e) (EPipelineID e) (ETimestamp e) (Deltas e) 0) with e
    by (rewrite <- Crc; by destruct e).
  set (fn := entryFilename (nextSeq w + 1) (Kind e)).
  assert (K : keeps (dir w) (replace (dir w) io1 fn (EncodeWALEntry e)).1 (rm ++ rp)).
  { split; [by apply json_replace|]. intros r [Hr|Hr]%elem_of_app; [by apply (listed_replace _ n _ rm)|by apply (listed_replace _ n _ rp)]. }
  pose proof (replace_self (dir w) io1 fn (EncodeWALEntry e)) as Self.
  pose proof (replace_ok (dir w) io1 fn (EncodeWALEntry e)) as Rok.
  destruct (replace (dir w) io1 fn (EncodeWALEntry e)) as [d ok]. cbn [fst snd] in *. subst ok.
  destruct io1.
  - destruct (pushed_sound n w s rm rp c d io2 S N Ok K Self) as (rm' & rp' & S'). exists rm', rp'.
    revert S'. change (stamped e) with (next (mem s) c). unfold pushed, idx_of. cbn [fst snd setDir windex closed retained maxIndex].
    by destruct (persistIndex _ io2).
  - exists rm, rp. cbn [fst spec_append setDir dir windex current closed retained maxIndex].
    replace (u64 (nextSeq w + 1 - 1)) with (nextSeq w) by (rewrite u64_id; unfold in_u64, two64, two32 in *; lia).
    by apply sound_keeps.
  - exists rm, rp. cbn [fst spec_append setDir dir windex current closed retained maxIndex].
    replace (u64 (nextSeq w + 1 - 1)) with (nextSeq w) by (rewrite u64_id; unfold in_u64, two64, two32 in *; lia).
    by apply sound_keeps.
Qed.

(* ------------------------------------------------------------------ *)
(** ** Compaction and reopening *)

(** A record that is kept. *)
Definition kept (cutoff : Z) (r : rec) : Prop := cutoff <= Major (ver r).

#[local] Instance kept_dec cutoff r : Decision (kept cutoff r).
Proof. unfold kept. apply _. Defined.

Lemma compactLoop_eq removes cutoff rs d acc : exists d',
  compactLoop removes cutoff (idx_of <$> rs) d acc = (d', acc ++ (idx_of <$> filter (kept cutoff) rs)) /\
  forall k, (forall r, r ∈ rs -> ~ kept cutoff r -> k <> entryFilename r.1 (Kind r.2)) -> d' !! k = d !! k.
Proof.
  revert d acc. induction rs as [|r rs IH]; intros d acc.
  - exists d. by rewrite app_nil_r.
  - rewrite fmap_cons. cbn [compactLoop idx_of IVersion Filename].
    destruct (Z.ltb_spec (Major (Version r.2)) cutoff) as [L|L].
    + destruct (IH (if removes (entryFilename r.1 (Kind r.2)) then delete (entryFilename r.1 (Kind r.2)) d else d) acc) as (d' & E & K).
      exists d'. rewrite filter_cons_False by (unfold kept, ver; lia). split; [exact E|]. intros k N.
      rewrite K by (intros x Hx; apply N; by right). destruct (removes _); [|done].
      apply lookup_delete_ne. apply not_eq_sym, N; [by left|]. unfold kept, ver. lia.
    + destruct (IH d (acc ++ [idx_of r])) as (d' & E & K). exists d'.
      rewrite filter_cons_True by (unfold kept, ver; lia). split; [by rewrite E, <- app_assoc|].
      intros k N. apply K. intros x Hx. apply N. by right.
Qed.

Lemma seqs_inj d n hi rs r r' : listed d n hi cap rs -> r ∈ rs -> r' ∈ rs -> r.1 = r'.1 -> r = r'.
Proof.
  intros [_ S _ _ _ _ _] Hr Hr' E. induction rs as [|x rs IH]; [by apply not_elem_of_nil in Hr|].
  rewrite fmap_cons in S. apply StronglySorted_inv in S as [S F]. rewrite Forall_fmap, Forall_forall in F.
  apply elem_of_cons in Hr as [->|Hr], Hr' as [->|Hr']; [done|..|by apply IH].
  - specialize (F r' Hr'). simpl in F. lia.
  - specialize (F r Hr). simpl in F. lia.
Qed.

Lemma versions_inj d n hi rs r r' : listed d n hi cap rs -> r ∈ rs -> r' ∈ rs -> ver r = ver r' -> r = r'.
Proof.
  intros [_ _ _ V _ _ _] Hr Hr' E. induction rs as [|x rs IH]; [by apply not_elem_of_nil in Hr|].
  rewrite fmap_cons in V. apply StronglySorted_inv in V as [V F]. rewrite Forall_fmap, Forall_forall in F.
  apply elem_of_cons in Hr as [->|Hr], Hr' as [->|Hr']; [done|..|by apply IH]; exfalso.
  - specialize (F r' Hr'). cbn in F. rewrite E in F. by apply version_lt_irrefl in F.
  - specialize (F r Hr). cbn in F. rewrite E in F. by apply version_lt_irrefl in F.
Qed.

Lemma head_version_recent r es : 0 <= r -> MemoryWal.head_version (recent r es) = MemoryWal.head_version es.
Proof.
  intros R. unfold recent. destruct (es) as [|e l _] using rev_ind; [done|]. rewrite MemoryWal.head_version_snoc, filter_app.
  rewrite filter_cons_True by lia. rewrite filter_nil. apply MemoryWal.head_version_snoc.
Qed.

Lemma bounded_head d n hi rs : listed d n hi cap rs -> 0 <= n -> MemoryWal.bounded n (MemoryWal.head_version rs.*2).
Proof.
  intros L N. destruct (MemoryWal.head_version_cases rs.*2) as [[_ ->]|Hv]; [split; cbn; lia|].
  pose proof (l_bound _ _ _ _ _ L) as B. rewrite Forall_forall in B. apply B. by rewrite <- list_fmap_compose in Hv.
Qed.

Lemma compact_sound n w s rm rp removes : sound n w s rm rp -> n < two32 - 1 ->
  exists rm' rp', sound (n + 1) (Compact w removes Replaced).1 (spec_exec cap (u32 ret) s (CCompact removes)) rm' rp'.
Proof.
  intros S N. pose proof S as [Sm Sp Si Sj Lm Lp Sc Sq So Sr Sk]. unfold Compact. cbn [spec_exec].
  rewrite So, Sc, Sr. destruct (Z.leb_spec (Major (MemoryWal.head_version (mem s))) (u32 ret)) as [|Lt].
  { exists rm, rp. replace w with (setDir w (dir w)) by (by destruct w). by apply sound_keeps. }
  pose proof (bounded_head _ _ _ _ Lm ltac:(lia)) as Bh. rewrite <- Sm in Bh. destruct Bh as [Bh _].
  assert (R0 : 0 <= u32 ret) by apply Z.mod_pos_bound, eq_refl.
  rewrite (u32_id (_ - _)) by (unfold in_u32; lia). set (cut := Major _ - u32 ret). rewrite Si.
  destruct (compactLoop_eq removes cut rm (dir w) []) as (d & E & K). rewrite E, app_nil_l. clear E.
  set (rs := filter (kept cut) rm). assert (Hi : nextSeq w < two32) by lia.
  assert (Es : recent (u32 ret) (mem s) = rs.*2).
  { unfold recent, rs. rewrite Sm. fold cut. unfold cut. rewrite Sm. generalize (Major (MemoryWal.head_version rm.*2) - u32 ret). intros z.
    clear. induction rm as [|r l IH]; [done|]. rewrite fmap_cons. destruct (decide (kept z r)) as [Y|Y].
    - rewrite filter_cons_True by exact Y. rewrite (filter_cons_True _ r) by exact Y. rewrite fmap_cons. by rewrite IH.
    - rewrite filter_cons_False by exact Y. by rewrite (filter_cons_False _ r) by exact Y. }
  assert (Ls : listed d (n + 1) (nextSeq w) cap rs).
  { apply (listed_frame (dir w) d n _ (nextSeq w) _); [by apply listed_sub|lia|lia|].
    intros r [Kr Hr]%list_elem_of_filter. apply K. intros r' Hr' N' Eq.
    destruct (listed_range _ _ _ _ _ Lm Hi Hr) as [B _], (listed_range _ _ _ _ _ Lm Hi Hr') as [B' _].
    apply filename_inj in Eq; [|done|done]. by rewrite (seqs_inj _ _ _ _ r r' Lm Hr Hr' Eq) in Kr. }
  assert (Pl : Forall plain (idx_of <$> rs)) by (apply (listed_plain d (n + 1) (nextSeq w)); [exact Ls|lia|lia]).
  set (w1 := setIndex (setDir w d) (idx_of <$> rs)).
  pose proof (persist_spec w1 Replaced rs eq_refl Pl) as P.
  pose proof (listed_persist w1 Replaced (n + 1) (nextSeq w) rs rs eq_refl Pl Ls Hi) as Ls3.
  destruct (persistIndex w1 Replaced) as [w3 err]. cbn [fst] in *. destruct P as (K1 & K2 & K3 & K4 & K5 & K6 & _ & K7).
  exists rs, rs. split; cbn [mem per]; rewrite ?K1, ?K2, ?K3, ?K4, ?K5, ?K6; try done.
  - cbn [w1 setIndex setDir current]. by rewrite head_version_recent.
  - cbn [w1 setIndex setDir nextSeq]. lia.
Qed.

(** The state recovered from a known index. *)
Lemma recover_eq d n hi rs : listed d n hi cap rs -> hi < two32 ->
  foldl recoverStep (VersionZero, 0) (idx_of <$> rs) = (MemoryWal.head_version rs.*2, default 0 (last rs.*1)).
Proof.
  intros L Hi. assert (K : forall r, r ∈ rs -> in_u64 r.1 /\ 0 < r.1).
  { intros r Hr. destruct (listed_range _ _ _ _ _ L Hi Hr) as [B R]. split; [done|lia]. }
  destruct L as [_ S _ V B _ _]. induction rs as [|r rs IH] using rev_ind; [done|].
  rewrite !fmap_app in *. apply StronglySorted_app in S as (S1 & S & _), V as (V1 & V & _). apply Forall_app in B as [B Br].
  rewrite foldl_app, IH by (done || (intros x Hx; apply K; set_solver)). cbn [fmap list_fmap foldl recoverStep idx_of IVersion Filename].
  destruct (K r) as [Kr Kp]; [set_solver|]. rewrite seq_filename, last_snoc, MemoryWal.head_version_snoc by done. cbn [default].
  f_equal.
  - destruct (Z.ltb_spec 0 (Compare (Version r.2) (MemoryWal.head_version rs.*2))) as [|Le]; [done|].
    destruct (MemoryWal.head_version_cases rs.*2) as [[_ E]|Hv].
    + rewrite E in *. apply Forall_inv in Br. destruct Br as [Ba Bi]. unfold ver in Ba, Bi.
      destruct (Compare_spec (Version r.2) VersionZero) as [[_ X]|[[_ X]|[X _]]]; [|by rewrite X|lia].
      unfold lt in X. cbn in X. lia.
    + exfalso. assert (X : lt (MemoryWal.head_version rs.*2) (Version r.2)).
      { apply (V1 _ (ver r)); [|by left]. by rewrite <- list_fmap_compose in Hv. }
      apply Compare_gt in X. lia.
  - destruct (last rs.*1) as [q|] eqn:E; cbn [default]; [|by rewrite (proj2 (Z.ltb_lt _ _))].
    assert (q < r.1) by (apply (S1 q r.1); [by apply last_Some_elem_of|by left]). by rewrite (proj2 (Z.ltb_lt _ _)).
Qed.

Lemma reopen_sound n w s rm rp : sound n w s rm rp -> n < two32 - 1 ->
  sound (n + 1) (exec w CReopen) (spec_exec cap (u32 ret) s CReopen) rp rp.
Proof.
  intros [Sm Sp Si (b & Jb & Ju) Lm Lp Sc Sq So Sr Sk] N. cbn [exec spec_exec].
  unfold reopen, OpenVersionedWAL, loadIndex. cbn [negb dir]. rewrite Jb. cbn [mbind option_bind]. rewrite Ju.
  fold cap ret. unfold recoverStateFromIndex. cbn [setIndex dir windex closed retained maxIndex].
  rewrite (recover_eq (dir w) n (nextSeq w)) by (done || lia). cbn [mbind option_bind].
  assert (Hq : Forall (fun q => 0 < q <= default 0 (last rp.*1)) rp.*1 /\ 0 <= default 0 (last rp.*1) <= nextSeq w).
  { destruct Lp as [_ S R _ _ _ _]. destruct (rp.*1) as [|q l _] using rev_ind; [cbn; split; [constructor|lia]|].
    rewrite last_snoc. cbn [default from_option id]. apply StronglySorted_app in S as (S & _ & _). rewrite Forall_app in R.
    destruct R as [R Rq]. apply Forall_inv in Rq. cbn beta in Rq. split; [|lia]. apply Forall_app. split; [|repeat constructor; lia].
    rewrite Forall_forall in R |- *. intros x Hx. specialize (R x Hx). specialize (S x q Hx ltac:(by left)). cbn beta in R. lia. }
  destruct Hq as [Hq Hq0].
  assert (L : listed (dir w) (n + 1) (default 0 (last rp.*1)) cap rp).
  { pose proof (listed_frame (dir w) (dir w) n (n + 1) (nextSeq w) (nextSeq w) cap rp Lp ltac:(lia) ltac:(lia) ltac:(done)) as [].
    by split. }
  split; cbn [dir windex current nextSeq closed retained maxIndex mem per]; try done.
  - by exists b.
  - by rewrite Sp.
  - lia.
Qed.

Lemma listed_nil d n hi : 0 < cap -> listed d n hi cap [].
Proof. intros C. split; cbn; first [apply List.Forall_nil|apply SSorted_nil|unfold len; simpl; lia]. Qed.

Lemma opened_sound : sound 0 opened (mkSpec [] []) [] [].
Proof.
  unfold opened, reopen, OpenVersionedWAL, loadIndex. cbn [negb dir]. rewrite lookup_empty. cbn [mbind option_bind].
  unfold rebuildIndexFromDir. cbn [negb dir]. unfold ReadDir. rewrite dom_empty_L, elements_empty.
  assert (E : forall A (less : A -> A -> bool), sort_slice less [] = []).
  { intros A less. apply Permutation_nil_r, sort_slice_perm. }
  rewrite E. change (omap parseWALFilename []) with (@nil walFileInfo). rewrite E. cbn [rebuildLoop mbind option_bind]. fold cap ret.
  set (w0 := recoverStateFromIndex _). pose proof (persist_spec w0 Replaced [] eq_refl ltac:(constructor)) as P.
  unfold persistIndex in *. destruct (Unmarshal_Marshal [] ltac:(constructor)) as (b & M & U).
  change (windex w0) with (@nil VersionIndex) in *. rewrite M in *. cbn [replace fst] in *.
  destruct P as (K1 & K2 & K3 & K4 & K5 & K6 & _ & K7). pose proof cap_pos.
  split; cbn [mem per]; try done; by apply listed_nil.
Qed.

Definition run (cs : list call) : VersionedWAL := foldl exec opened cs.
Definition spec_run (cs : list call) : spec := foldl (spec_exec cap (u32 ret)) (mkSpec [] []) cs.

Lemma step_sound n w s rm rp c : sound n w s rm rp -> call_wf c -> n < two32 - 1 ->
  exists rm' rp', sound (n + 1) (exec w c) (spec_exec cap (u32 ret) s c) rm' rp'.
Proof.
  intros S W N. pose proof S as [Sm _ _ _ Lm _ Sc Sq So _ _].
  assert (Vw : forall c, version_wf (Version (MemoryWal.next_entry (MemoryWal.head_version (mem s)) c))).
  { intros c0. pose proof (bounded_head _ _ _ _ Lm ltac:(lia)) as [Ba Bi]. rewrite <- Sm in Ba, Bi.
    destruct c0; split; cbn [MemoryWal.next_entry Version BumpMinor BumpMajor Major Minor]; unfold in_u32; wrap_lia. }
  destruct c as [now pid ds io1 io2|now ds io1 io2|removes|].
  - pose proof (append_sound n w s rm rp (MemoryWal.CDelta now pid ds) io1 io2 S N) as A.
    cbn [exec spec_exec]. unfold AppendDelta. rewrite So, Sc. apply A; [|done].
    apply (next_ok (mem s) _ pid now ds); [by left|done|apply Vw].
  - pose proof (append_sound n w s rm rp (MemoryWal.CCheckpoint now ds) io1 io2 S N) as A.
    cbn [exec spec_exec]. unfold AppendCheckpoint. rewrite So, Sc. apply A; [|done].
    apply (next_ok (mem s) _ "" now ds); [by right|done|apply Vw].
  - by apply (compact_sound n w s rm rp).
  - exists rp, rp. by apply (reopen_sound n w s rm rp).
Qed.

Lemma run_sound cs : Forall call_wf cs -> len cs < two32 - 1 -> exists rm rp, sound (len cs) (run cs) (spec_run cs) rm rp.
Proof.
  induction cs as [|c cs IH] using rev_ind; intros W L.
  - exists [], []. apply opened_sound.
  - rewrite len_app in *. change (len [c]) with 1 in *. apply Forall_app in W as [W Wc]. apply Forall_inv in Wc.
    destruct IH as (rm & rp & S); [done|lia|]. unfold run, spec_run in *. rewrite !foldl_app. cbn [foldl].
    apply (step_sound _ _ _ rm rp); [done|done|lia].
Qed.

(* ------------------------------------------------------------------ *)
(** ** The readers *)

(** Every file can be read. *)
Definition readable : string -> bool := fun _ => true.

Lemma read_record w n hi rs r : listed (dir w) n hi cap rs -> r ∈ rs ->
  readEntryFile readable w (entryFilename r.1 (Kind r.2)) = Some (Ok r.2).
Proof.
  intros [D _ _ _ _ O _] Hr. rewrite Forall_forall in D. rewrite Forall_fmap, Forall_forall in O.
  unfold readEntryFile. rewrite (D r Hr). cbn [readable]. destruct (O r Hr) as (W & St & _).
  by rewrite (entry_roundtrip_eq r.2 W), St.
Qed.

Lemma collect_records w n hi rs sub want acc : listed (dir w) n hi cap rs -> sub ⊆ rs ->
  collect want readable w (idx_of <$> sub) acc = Some (Ok (acc ++ filter (fun e => want (Version e) = true) sub.*2)).
Proof.
  intros L. revert acc. induction sub as [|r sub IH]; intros acc Sub; [by rewrite app_nil_r|].
  rewrite !fmap_cons. cbn [collect idx_of IVersion Filename]. destruct (want (Version r.2)) eqn:Wv.
  - rewrite (read_record w n hi rs r) by (done || set_solver). cbn [mbind checked_bind].
    rewrite IH by set_solver. rewrite filter_cons_True by done. by rewrite <- app_assoc.
  - rewrite IH by set_solver. by rewrite filter_cons_False by congruence.
Qed.

Lemma find_records rs v : NoDup (ver <$> rs) ->
  match find_index (idx_of <$> rs) v with
  | Some idx => exists r, r ∈ rs /\ ver r = v /\ idx = idx_of r
  | None => forall r, r ∈ rs -> ver r <> v
  end.
Proof.
  induction rs as [|r rs IH]; intros ND; [by intros r Hr%elem_of_nil|]. rewrite fmap_cons in *. apply NoDup_cons in ND as [Nr ND].
  cbn [find_index idx_of IVersion]. case_bool_decide as E; [exists r; split; [by left|done]|].
  specialize (IH ND). destruct (find_index _ v) as [idx|].
  - destruct IH as (x & Hx & Ev & ->). exists x. split; [by right|done].
  - intros x [->|Hx]%elem_of_cons; [done|by apply IH].
Qed.

Lemma latest_records rs : MemoryWal.latest (reverse (idx_of <$> rs)) =
  MemoryWal.latest (reverse (MemoryWal.index_of <$> rs.*2)).
Proof.
  rewrite <- list_fmap_compose, <- !fmap_reverse. induction (reverse rs) as [|r l IH]; [done|].
  rewrite !fmap_cons. cbn [MemoryWal.latest idx_of MemoryWal.index_of IKind IVersion compose]. by rewrite IH.
Qed.

(** C31: after any calls, fewer than 2^32, with any outcome of the file
    operations of the appends, the log shows the entries of the specification:
    an append whose entry file or index cannot be written adds its entry to
    the memory only or not at all, a successful one also to the disk, and
    reopening the directory gives the entries the disk has.  The versions grow
    strictly and every reader is a filter by version; the index is bounded. *)
Theorem disk_refines_spec cs : Forall call_wf cs -> len cs < two32 - 1 ->
  let w := run cs in
  let es := mem (spec_run cs) in
  StronglySorted lt (Version <$> es) /\
  (forall v, GetDeltasSince readable w v = Some (Ok (filter (fun e => lt v (Version e)) es))) /\
  (forall u v, GetDeltasInRange readable w u v =
    Some (Ok (filter (fun e => ~ lt (Version e) u /\ ~ lt v (Version e)) es))) /\
  (forall v e, GetEntry readable w v = Some (Ok e) <-> e ∈ es /\ Version e = v) /\
  CurrentVersion w = MemoryWal.head_version es /\ IndexLen w = len es /\ len es <= cap.
Proof.
  intros W L w es. destruct (run_sound cs W L) as (rm & rp & [Sm _ Si _ Lm _ Sc _ So _ _]).
  fold w es in Sm, Si, Lm, Sc, So. pose proof Lm as [_ _ _ V _ _ Ll]. pose proof (len_fmap snd rm) as Lf.
  split_and!.
  - rewrite Sm, <- list_fmap_compose. exact V.
  - intros v. unfold GetDeltasSince. rewrite So, Si, (collect_records w _ _ rm) by done. do 2 f_equal. rewrite Sm.
    apply list_filter_iff. intros e. by rewrite Z.ltb_lt, Compare_gt.
  - intros u v. unfold GetDeltasInRange. rewrite So, Si, (collect_records w _ _ rm) by done. do 2 f_equal. rewrite Sm.
    apply list_filter_iff. intros e. rewrite andb_true_iff, !Z.leb_le, <- Compare_lt, <- Compare_gt. lia.
  - intros v e. unfold GetEntry, findIndex. rewrite So, Si, Sm.
    assert (ND : NoDup (ver <$> rm)).
    { clear -V. induction V as [|x l _ IH F]; constructor; [|done]. intros Hx. rewrite Forall_forall in F.
      by apply (version_lt_irrefl x), F. }
    pose proof (find_records rm v ND) as K. destruct (find_index _ v) as [idx|].
    + destruct K as (r & Hr & Ev & ->). cbn [idx_of Filename]. rewrite (read_record w _ _ rm r Lm Hr). split.
      * intros [= <-]. split; [by apply (list_elem_of_fmap_2 snd)|exact Ev].
      * intros [He Ee]. apply list_elem_of_fmap in He as (r' & -> & Hr').
        by rewrite (versions_inj _ _ _ _ r r' Lm Hr Hr') by (unfold ver in *; congruence).
    + split; [done|]. intros [He Ee]. apply list_elem_of_fmap in He as (r & -> & Hr). by destruct (K r Hr).
  - exact Sc.
  - unfold IndexLen. rewrite Si, Sm. by rewrite !len_fmap.
  - rewrite Sm, len_fmap. exact Ll.
Qed.
End Wal.

(* ------------------------------------------------------------------ *)
(** ** A representation of the index *)

(** The bits of the code of a countable type, as bytes. *)
Fixpoint pos_bytes (p : positive) : bytes :=
  match p with xH => [] | xO p => x00 :: pos_bytes p | xI p => x01 :: pos_bytes p end.
Fixpoint bytes_pos (b : bytes) : positive :=
  match b with [] => xH | x :: b => if bool_decide (x = x00) then xO (bytes_pos b) else xI (bytes_pos b) end.

Lemma bytes_pos_bytes p : bytes_pos (pos_bytes p) = p.
Proof. induction p as [p IH|p IH|]; cbn [pos_bytes bytes_pos]; [..|done]; by rewrite IH. Qed.

#[export] Instance WALEntryKind_countable : Countable WALEntryKind.
Proof.
  apply (inj_countable' (fun k => match k with WALEntryKindDelta => inl true | WALEntryKindCheckpoint => inl false
      | WALEntryKindOther b => inr b end)
    (fun x : bool + byte => match x with inl true => WALEntryKindDelta | inl false => WALEntryKindCheckpoint
      | inr b => WALEntryKindOther b end)). by intros [].
Defined.
#[export] Instance VersionIndex_eq_dec : EqDecision VersionIndex.
Proof. solve_decision. Defined.
#[export] Instance VersionIndex_countable : Countable VersionIndex.
Proof.
  apply (inj_countable' (fun i => (IVersion i, Filename i, IKind i, IPipelineID i, ITimestamp i))
    (fun '(v, f, k, p, t) => mkIndex v f k p t)). by intros [].
Defined.

Definition index_code : IndexJSON.
Proof.
  refine {| Marshal l := Some (pos_bytes (encode l)); Unmarshal b := decode (bytes_pos b) |}.
  intros l _. eexists. split; [done|]. by rewrite bytes_pos_bytes, decode_encode.
Defined.

Definition sample_cfg : VersionedWALConfig := mkConfig 1 2.
Definition sample_calls : list call :=
  [CDelta 5 "p" [mkWALFileDelta "f" WALDeltaOpCreate [x61] []] Replaced Replaced;
   CDelta 6 "q" [] (RenameFails false) Replaced;
   CCheckpoint 7 [] Replaced Replaced;
   CCheckpoint 8 [] Replaced (WriteFails None);
   CReopen;
   CCheckpoint 9 [mkWALFileDelta "g" WALDeltaOpDelete [] [x62]] Replaced Replaced;
   CCompact readable].

Lemma disk_refines_spec_witness :
  Forall call_wf sample_calls /\ len sample_calls < two32 - 1 /\
  GetDeltasSince readable (run sample_cfg sample_calls (H := index_code) (H0 := slice_merge_sort)) VersionZero =
    Some (Ok (filter (fun e => lt VersionZero (Version e)) (mem (spec_run sample_cfg sample_calls)))) /\
  (Version <$> mem (spec_run sample_cfg sample_calls)) = [mkVersion 1 0; mkVersion 2 0].
Proof.
  assert (W : Forall call_wf sample_calls) by (apply (bool_decide_eq_true_1 _); vm_compute; reflexivity).
  assert (L : len sample_calls < two32 - 1) by (vm_compute; reflexivity).
  destruct (disk_refines_spec sample_cfg (H := index_code) (H0 := slice_merge_sort) sample_calls W L) as (_ & D & _).
  split; [exact W|]. split; [exact L|]. split; [exact (D VersionZero)|]. vm_compute; reflexivity.
Defined.

(* ------------------------------------------------------------------ *)
(** ** Where the log loses entries *)

(** Three checkpoints. *)
Definition three : list call :=
  [CCheckpoint 1 [] Replaced Replaced; CCheckpoint 2 [] Replaced Replaced; CCheckpoint 3 [] Replaced Replaced].

(** The entry of one of them. *)
Definition entry_three (k : Z) : VersionedWALEntry :=
  stamped (mkWALEntry WALEntryKindCheckpoint (mkVersion k 0) "" k [] 0).

Section Losses.
Context `{IndexJSON} `{SliceSort}.

(** Reopening the directory a call has left. *)
Definition reopened (cfg : VersionedWALConfig) (w : VersionedWAL) : VersionedWAL := exec cfg w CReopen.

Lemma seqs_three q1 q2 q3 : StronglySorted Z.lt [q1; q2; q3] -> Forall (fun q => 0 < q <= 3) [q1; q2; q3] ->
  q1 = 1 /\ q2 = 2 /\ q3 = 3.
Proof.
  intros S R. rewrite !Forall_cons in R. apply StronglySorted_inv in S as [S F1]. apply StronglySorted_inv in S as [_ F2].
  rewrite !Forall_cons in F1, F2. lia.
Qed.

Lemma persist_torn w : dir (persistIndex w (WriteFails None)).1 = dir w.
Proof. unfold persistIndex. by destruct (Marshal (windex w)). Qed.

(** What reading the index gives. *)
Lemma reopened_eq cfg w b idxs : dir w !! "index.json" = Some b -> Unmarshal b = Some idxs ->
  dir (reopened cfg w) = dir w /\ windex (reopened cfg w) = idxs /\ closed (reopened cfg w) = false.
Proof.
  intros J U. unfold reopened, exec, reopen, OpenVersionedWAL, loadIndex. cbn [negb dir]. rewrite J. cbn [mbind option_bind].
  rewrite U. unfold recoverStateFromIndex. by destruct (foldl _ _ _).
Qed.

(** The records of an index that shows the three. *)
Lemma three_records w hi cap rs e1 e2 e3 : listed (dir w) 3 hi cap rs -> hi <= 3 -> rs.*2 = [e1; e2; e3] ->
  rs = [(1, e1); (2, e2); (3, e3)].
Proof.
  intros [_ S R _ _ _ _] Hi E. destruct rs as [|[q1 f1] [|[q2 f2] [|[q3 f3] [|]]]]; try done. injection E as -> -> ->.
  change ([(q1, e1); (q2, e2); (q3, e3)].*1) with [q1; q2; q3] in *.
  destruct (seqs_three q1 q2 q3) as (-> & -> & ->); [done| |done]. eapply Forall_impl; [exact R|]. simpl. lia.
Qed.

(** [Compact] removes the files of the entries before it writes the index
    without them.  When that fails, or the process dies in between, a process
    that opens the directory reads the old index, and every reader that needs
    one of these entries fails instead of giving the others. *)
Theorem interrupted_compaction :
  let w := (Compact (run (mkConfig 1 5) three) readable (WriteFails None)).1 in
  let w' := reopened (mkConfig 1 5) w in
  (Version <$> mem (spec_run (mkConfig 1 5) three)) = [mkVersion 1 0; mkVersion 2 0; mkVersion 3 0] /\
  IndexLen w' = 3 /\ GetDeltasSince readable w' VersionZero = fail ErrRead /\
  GetEntry readable w' (mkVersion 1 0) = fail ErrRead.
Proof.
  intros w w'. split; [vm_compute; reflexivity|].
  assert (W : Forall call_wf three) by (apply (bool_decide_eq_true_1 _); vm_compute; reflexivity).
  destruct (run_sound (mkConfig 1 5) three W ltac:(vm_compute; reflexivity)) as (rm & rp & S).
  subst w w'. revert S. generalize (run (mkConfig 1 5) three) as w. intros w.
  intros [Sm Sp Si (b & Jb & Ju) Lm Lp Sc Sq So Sr Sk].
  assert (Sc' : current w = mkVersion 3 0) by (rewrite Sc; vm_compute; reflexivity).
  assert (M : mem (spec_run (mkConfig 1 5) three) = [entry_three 1; entry_three 2; entry_three 3] /\
    per (spec_run (mkConfig 1 5) three) = [entry_three 1; entry_three 2; entry_three 3]) by (vm_compute; done).
  destruct M as [Mm Mp]. rewrite Sm in Mm. rewrite Sp in Mp.
  pose proof (three_records _ _ _ _ _ _ _ Lm ltac:(apply Sq) Mm) as ->. pose proof (three_records _ _ _ _ _ _ _ Lp ltac:(apply Sq) Mp) as ->.
  assert (E : dir (Compact w readable (WriteFails None)).1 = delete "000001.chkpt" (dir w)).
  { unfold Compact. rewrite So, Sc', Sr, Si. set (l := compactLoop _ _ _ _ _).
    assert (C : l.1 = delete "000001.chkpt" (dir w)) by (vm_compute; reflexivity).
    replace (Major (mkVersion 3 0) <=? _) with false by reflexivity. destruct l as [d l']. cbn [fst] in C. subst d.
    by rewrite persist_torn. }
  revert E. generalize (Compact w readable (WriteFails None)).1. intros w1 E.
  rewrite <- (lookup_delete_ne (dir w) "000001.chkpt" "index.json") in Jb by done. rewrite <- E in Jb.
  destruct (reopened_eq (mkConfig 1 5) w1 b _ Jb Ju) as (Ed & Ei & Ec).
  unfold IndexLen, GetDeltasSince, GetEntry, findIndex. rewrite Ei, Ec.
  assert (R : readEntryFile readable (reopened (mkConfig 1 5) w1) "000001.chkpt" = fail ErrRead).
  { unfold readEntryFile. by rewrite Ed, E, lookup_delete_eq. }
  revert R. generalize (reopened (mkConfig 1 5) w1). intros w2 R.
  assert (R' : readEntryFile readable w2 (Filename (idx_of (1, entry_three 1))) = fail ErrRead) by exact R.
  split; [reflexivity|]. split; [|exact R].
  rewrite fmap_cons. cbn [collect]. rewrite R'. reflexivity.
Qed.
End Losses.
