(* ===== verification/DraftLog.v ===== *)
(** * The draft is its log (core/versioning/merge_pipe.go)

    As long as no merge fails halfway, replaying the deltas of the log over
    the content the draft started with gives the content of the draft, for
    any calls of the pipe and any operations the merges transform. *)

From S2P Require Import Prelude Ids.
From S2P Require Export MergePipeProof.
Import Vfs MergePipe.

(** What a delta makes of the content at [q]. *)
Definition replay_delta (q : string) (r : result vfs_error bytes) (d : WALFileDelta) : result vfs_error bytes :=
  if bool_decide (DPath d = q) then
    match DOp d with
    | WALDeltaOpCreate | WALDeltaOpModify => Ok (DNewContent d)
    | WALDeltaOpDelete => Err ErrFileNotFound
    | WALDeltaOpMkdir | WALDeltaOpOther _ => r
    end
  else r.

Definition replay (q : string) (r : result vfs_error bytes) (ds : list WALFileDelta) : result vfs_error bytes :=
  foldl (replay_delta q) r ds.

Lemma replay_app q r ds es : replay q r (ds ++ es) = replay q (replay q r ds) es.
Proof. apply foldl_app. Qed.

Lemma replay_some q r d :
  replay q r (option_list (Some d)) = if decide (q = DPath d) then replay_delta (DPath d) r d else r.
Proof.
  change (replay_delta q r d = if decide (q = DPath d) then replay_delta (DPath d) r d else r).
  destruct (decide (q = DPath d)) as [->|N]; [done|]. unfold replay_delta. by rewrite bool_decide_eq_false_2.
Qed.

Lemma replay_delta_self d r :
  replay_delta (DPath d) r d =
    match DOp d with
    | WALDeltaOpCreate | WALDeltaOpModify => Ok (DNewContent d)
    | WALDeltaOpDelete => Err ErrFileNotFound
    | WALDeltaOpMkdir | WALDeltaOpOther _ => r
    end.
Proof. unfold replay_delta. by rewrite bool_decide_eq_true_2. Qed.

Section DraftLog.
Context `{RangeOrder}.
Variable engine : DiffEngine.
Variable now : nat -> Z.
Variable resolver : option (Conflict -> result string (option Resolution)).
Variable env : VFSEnv.
(** Paths are resolved already, and the permission checker does not claim that
    a file is missing. *)
Hypothesis resolved : forall vis p, resolvePath env vis p = Ok p.
Hypothesis honest : forall p, CheckFileDelete env p <> Some ErrFileNotFound.
Abbreviation readContent := (readContent env).

Lemma Write_written v t p c v' : Write env v t p c = (v', None) -> v' = written env v t p c.
Proof.
  unfold Write. destruct (checkWritePrereqs env v); [done|]. rewrite resolved.
  destruct (CheckFileWrite env p); [done|]. by destruct (stageWrite_eq env v t p c) as [-> | ->]; intros [= <-].
Qed.

Lemma Delete_removed v t p c v' r : readContent v p = Ok c ->
  Delete env v t p = (v', r) -> r = None \/ r = Some ErrFileNotFound ->
  exists old, v' = removed env v t p old.
Proof.
  intros Rd D Hr. revert D. unfold Delete, checkWritePrereqs. destruct (closed v).
  { intros [= <- <-]. by destruct Hr. }
  destruct (ReadOnly env); [intros [= <- <-]; by destruct Hr|]. rewrite resolved.
  pose proof (honest p) as Hp. destruct (CheckFileDelete env p).
  { intros [= <- <-]. destruct Hr as [|[= ->]]; done. }
  pose proof (stageDelete_eq env v t p) as D. revert Rd D. unfold Vfs.readContent. case_bool_decide; [done|].
  destruct (stagedContent v !! p) as [o|]; [intros _|intros E; rewrite E]; intros [-> | ->];
    intros [= <- <-]; destruct Hr as [?|?]; try done; eauto.
Qed.

Lemma stageDirs_read v t dirs q : readContent (stageDirs env v t dirs).1 q = readContent v q.
Proof.
  revert v. induction dirs as [|d dirs IH]; intros v; [done|]. cbn [stageDirs].
  destruct (pathState env v d) as [[[]|]|]; try done. by rewrite IH.
Qed.

Lemma MkdirAll_read v t p q : readContent (MkdirAll env v t p).1 q = readContent v q.
Proof.
  unfold MkdirAll. destruct (checkWritePrereqs env v); [done|]. rewrite resolved.
  destruct (CheckFileWrite env p); [done|]. apply stageDirs_read.
Qed.

Lemma Read_content v p r : Read env v p = Ok r -> readContent v p = Ok r.
Proof. unfold Read. destruct (closed v); [done|]. rewrite resolved. by destruct (CheckFileRead env p). Qed.

Lemma readDraft_content v p c : readDraftContent env v p = Ok (c, true) -> readContent v p = Ok c.
Proof.
  unfold readDraftContent. destruct (Read env v p) as [r|[]] eqn:E; try done. intros [= <-]. by apply Read_content.
Qed.

Lemma writeTransformed_replay v t tm current b v' d q :
  writeTransformed env v t tm current b = (v', Ok d) ->
  readContent v' q = replay q (readContent v q) (option_list d).
Proof.
  unfold writeTransformed. destruct (targetContent tm current) as [c|]; [|done].
  destruct (b && _); [by intros [= <- <-]|]. destruct (negb b && _ && _); [by intros [= <- <-]|].
  destruct (Write env v t _ c) as [w [e|]] eqn:W; [done|]. intros [= <- <-]. apply Write_written in W as ->.
  rewrite written_read, replay_some, replay_delta_self. by destruct b.
Qed.

Lemma apply_replay v t tm v' d q :
  applyTransformedModToVFS env v t tm = (v', Ok d) ->
  readContent v' q = replay q (readContent v q) (option_list d).
Proof.
  unfold applyTransformedModToVFS. set (p := OriginalPath (mod_ tm)).
  destruct (readDraftContent env v p) as [[c b]|] eqn:Rd; [|done].
  destruct (FOperation (mod_ tm)); [apply writeTransformed_replay|apply writeTransformed_replay| |].
  - destruct b; [|by intros [= <- <-]]. cbn [negb].
    apply readDraft_content in Rd. intros E.
    destruct (Delete env v t p) as [w r] eqn:D.
    assert (Hd : (r = None \/ r = Some ErrFileNotFound) /\ v' = w /\ d = Some (mkWALFileDelta p WALDeltaOpDelete [] c)).
    { destruct r as [[]|]; try done; injection E as <- <-; auto. }
    destruct Hd as (Hr & -> & ->). destruct (Delete_removed _ _ _ _ _ _ Rd D Hr) as [old ->].
    by rewrite removed_read, replay_some, replay_delta_self.
  - pose proof (MkdirAll_read v t p q) as M. destruct (MkdirAll env v t p) as [w r]. cbn [fst] in M.
    intros E. assert (Hd : v' = w /\ d = Some (mkWALFileDelta p WALDeltaOpMkdir [] [])).
    { destruct r as [[]|]; try done; by injection E as <- <-. }
    destruct Hd as [-> ->]. rewrite M, replay_some, replay_delta_self. by destruct (decide _).
Qed.

Lemma applyToGlobal_replay tms v t acc v' ds :
  applyToGlobal env v t tms acc = (v', Ok ds) ->
  exists new, ds = acc ++ new /\ forall q, readContent v' q = replay q (readContent v q) new.
Proof.
  revert v acc. induction tms as [|tm tms IH]; intros v acc; cbn [applyToGlobal].
  - intros [= <- <-]. exists []. by rewrite app_nil_r.
  - destruct (applyTransformedModToVFS env v t tm) as [v1 [d|e]] eqn:E; [|done].
    intros A. assert (K : exists new, ds = (acc ++ option_list d) ++ new /\
      forall q, readContent v' q = replay q (readContent v1 q) new).
    { apply (IH v1). destruct d; [exact A|]. cbn [option_list]. by rewrite app_nil_r. }
    destruct K as (new & -> & K). exists (option_list d ++ new). split; [by rewrite app_assoc|].
    intros q. rewrite K, (apply_replay _ _ _ _ _ q E). by rewrite replay_app.
Qed.

(** The states of a pipe after calls of which no merge failed halfway; [n]
    counts the merges. *)
Inductive reach : MergePipe -> nat -> Prop :=
| reach_new : reach (NewMergePipe NewPipelineVFS MemoryWal.NewMemoryVersionedWAL) 0
| reach_register mp n pid base mp' :
    reach mp n -> RegisterPipelineAt mp pid base = Ok mp' -> reach mp' n
| reach_unregister mp n pid : reach mp n -> reach (UnregisterPipeline mp pid) n
| reach_stop mp n : reach mp n -> reach (Stop mp) n
| reach_merge mp n t pid mods mp' r :
    reach mp n -> Merge engine now resolver env mp t pid mods = (mp', r) ->
    (exists ver, r = Ok ver) \/ globalVFS mp' = globalVFS mp ->
    reach mp' (S n).

Lemma Merge_log mp t pid mods mp' r :
  Merge engine now resolver env mp t pid mods = (mp', r) ->
  (exists ver, r = Ok ver) \/ globalVFS mp' = globalVFS mp ->
  (wal mp' = wal mp /\ globalVFS mp' = globalVFS mp) \/
  exists ds, wal mp' = MemoryWal.exec (wal mp) (MemoryWal.CDelta t pid ds) /\ MemoryWal.closed (wal mp) = false /\
    forall q, readContent (globalVFS mp') q = replay q (readContent (globalVFS mp) q) ds.
Proof.
  unfold Merge. destruct (pclosed mp); [intros [= <- <-]; by left|]. unfold executeMerge.
  destruct (pipelines mp !! pid) as [base|]; [|intros [= <- <-]; by left]. cbn [wal globalVFS UnregisterPipeline pipelines pclosed].
  destruct (len mods =? 0); [intros [= <- <-]; by left|].
  destruct (transformMods _ _ _ _ _ _) as [tms|]; [|intros [= <- <-]; by left].
  destruct (applyToGlobal env (globalVFS mp) t tms []) as [draft [ds|]] eqn:A.
  - unfold MemoryWal.AppendDelta. destruct (MemoryWal.closed (wal mp)) eqn:C.
    + intros [= <- <-] [[? ?]|E]; [done|]. by left.
    + intros [= <- <-] _. right. destruct (applyToGlobal_replay _ _ _ _ _ _ A) as (new & E & K).
      cbn [app] in E. subst. exists new. split_and!; [|done|apply K].
      cbn [wal]. unfold MemoryWal.exec, MemoryWal.AppendDelta. rewrite C.
      unfold MemoryWal.appendEntryLocked. by rewrite C.
  - intros [= <- <-] [[? ?]|E]; [done|]. by left.
Qed.

(** The log holds the entries [es], all above the zero version, and replaying
    them gives the draft. *)
Record logged (mp : MergePipe) (es : list VersionedWALEntry) : Prop := {
  logged_holds : MemoryWal.holds (wal mp) es;
  logged_above : Forall (fun v => Semantic.lt Semantic.VersionZero v) (Version <$> es);
  logged_draft : forall q,
    readContent (globalVFS mp) q = replay q (readContent NewPipelineVFS q) (es ≫= Deltas)
}.

Lemma logged_same mp mp' es :
  wal mp' = wal mp -> globalVFS mp' = globalVFS mp -> logged mp es -> logged mp' es.
Proof. intros E G [A B D]. by split; rewrite ?E, ?G. Qed.

Lemma logged_append mp mp' es t pid ds :
  wal mp' = MemoryWal.exec (wal mp) (MemoryWal.CDelta t pid ds) ->
  (forall q, readContent (globalVFS mp') q = replay q (readContent (globalVFS mp) q) ds) ->
  len es < two32 - 1 -> logged mp es ->
  logged mp' (es ++ [MemoryWal.next_entry (MemoryWal.head_version es) (MemoryWal.CDelta t pid ds)]).
Proof.
  intros W G L [A B D]. pose proof A as [_ _ _ S Bd _]. split.
  - rewrite W. by apply MemoryWal.holds_append.
  - rewrite fmap_app. apply Forall_app. split; [done|]. constructor; [|constructor].
    pose proof (len_nonneg es).
    destruct (MemoryWal.next_version (len es) es (MemoryWal.CDelta t pid ds) S Bd) as [_ F]; [lia|].
    destruct (MemoryWal.head_version_cases es) as [[-> ->]|Hv].
    { right. by vm_compute. }
    rewrite Forall_forall in B, F. exact (Semantic.version_lt_trans _ _ _ (B _ Hv) (F _ Hv)).
  - intros q. rewrite G, D, bind_app, replay_app. cbn [mbind list_bind]. by rewrite app_nil_r.
Qed.

Lemma reach_logged mp n :
  reach mp n -> Z.of_nat n < two32 -> exists es, logged mp es /\ len es <= Z.of_nat n.
Proof.
  induction 1 as [|mp n pid base mp' _ IH R|mp n pid _ IH|mp n _ IH|mp n t pid mods mp' r _ IH M Out]; intros B.
  - exists []. split; [|done]. split; [|constructor|done]. by split; constructor.
  - destruct (IH B) as (es & L & Ln). exists es. split; [|done]. revert R. unfold RegisterPipelineAt.
    destruct (pclosed mp); [done|]. destruct (pipelines mp !! pid); [done|]. intros [= <-].
    by apply (logged_same mp).
  - destruct (IH B) as (es & L & Ln). exists es. by split; [apply (logged_same mp)|].
  - destruct (IH B) as (es & L & Ln). exists es. by split; [apply (logged_same mp)|].
  - destruct IH as (es & L & Ln); [lia|].
    destruct (Merge_log mp t pid mods mp' r M Out) as [[W G]|(ds & W & _ & G)].
    + exists es. split; [by apply (logged_same mp)|lia].
    + eexists. split; [apply (logged_append mp mp' es t pid ds W G); [lia|done]|].
      rewrite len_app. change (len [_]) with 1. lia.
Qed.

(** C25: the draft is its log: after any calls of the pipe, with any requests,
    as long as no merge failed after it had changed the draft
    ([failed_merge_unlogged]), there were fewer than 2^32 merges, the checker
    of permissions reports no missing file and paths come as [resolvePath]
    gives them, every path of the draft reads as replaying all deltas of the
    log, in their order, over what the path read at the start. *)
Theorem draft_is_log mp n :
  reach mp n -> Z.of_nat n < two32 ->
  exists es, MemoryWal.GetDeltasSince (wal mp) Semantic.VersionZero = Ok es /\
    forall q, readContent (globalVFS mp) q = replay q (readContent NewPipelineVFS q) (es ≫= Deltas).
Proof.
  intros R B. destruct (reach_logged mp n R B) as (es & [A Ab D] & _). exists es. split; [|done].
  unfold MemoryWal.GetDeltasSince. rewrite (MemoryWal.holds_open _ _ A), (MemoryWal.holds_index _ _ A).
  rewrite (MemoryWal.collect_holds (wal mp) es) by done. f_equal. cbn [app].
  rewrite Forall_fmap in Ab. clear A D. induction Ab as [|e es' He _ IH]; [done|].
  rewrite filter_cons_True; [by rewrite IH|]. apply Z.leb_gt. by apply Semantic.Compare_gt.
Qed.
End DraftLog.

(** A pipe after the pipeline of [changed] was merged. *)
Definition merged_pipe : MergePipe :=
  let mp := NewMergePipe NewPipelineVFS MemoryWal.NewMemoryVersionedWAL in
  match RegisterPipelineAt mp "p" Semantic.VersionZero with
  | Ok mp => (merge draft_env mp changed).1
  | Err _ => mp
  end.

Lemma draft_is_log_witness :
  exists es, MemoryWal.GetDeltasSince (wal merged_pipe) Semantic.VersionZero = Ok es /\
    replay "f" (Ok (str_bytes "old")) (es ≫= Deltas) = Ok (str_bytes "new").
Proof.
  destruct (draft_is_log (H := range_id) (plain_engine whole) (fun _ => 0) None draft_env
    (fun _ _ => eq_refl) (fun _ E => ltac:(discriminate E)) merged_pipe 1) as (es & E & R).
  - eapply reach_merge.
    + eapply (reach_register _ _ _ _ _ _ "p" Semantic.VersionZero); [apply reach_new|reflexivity].
    + apply surjective_pairing.
    + left. eexists. vm_compute. reflexivity.
  - reflexivity.
  - exists es. split; [done|]. specialize (R "f"). vm_compute in R |- *. exact (eq_sym R).
Defined.
