(* ===== verification/Atomics.v ===== *)
(** * Goroutines made of atomic actions

    For the parts of core that share memory without one lock around each
    operation: a call is a program whose actions (atomic loads, stores and
    compare-and-swaps, taking a mutex, a part under the mutex) happen one at a
    time, any call next.  The same program runs alone or interleaved.  The
    second half is the discipline of a mutex: programs that take it, use what
    it guards and give it back never get stuck. *)

From S2P Require Import Prelude.

Module Atomics.

(** What one action does: it may have to wait, and it may panic. *)
Inductive outcome (X : Type) : Type :=
| Moves (x : X)
| Waits
| Panics.
Arguments Moves {X} _.
Arguments Waits {X}.
Arguments Panics {X}.

(** A program of actions; the readings of the clock come from outside. *)
Inductive prog (act : Type -> Type) (A : Type) : Type :=
| Ret (a : A)
| Now (k : Z -> prog act A)
| Do (R : Type) (a : act R) (k : R -> prog act A).
Arguments Ret {act A} _.
Arguments Now {act A} _.
Arguments Do {act A R} _ _.

Fixpoint bind {act A B} (p : prog act A) (f : A -> prog act B) : prog act B :=
  match p with
  | Ret a => f a
  | Now k => Now (fun t => bind (k t) f)
  | Do a k => Do a (fun r => bind (k r) f)
  end.

#[export] Instance prog_ret act : MRet (prog act) := fun A a => Ret a.
#[export] Instance prog_bind act : MBind (prog act) := fun A B f p => bind p f.

Definition now {act} : prog act Z := Now Ret.
Definition call {act R} (a : act R) : prog act R := Do a Ret.

(** What an action is to the mutex. *)
Inductive role := Locks | Unlocks | Guarded | Plain.

Lemma sum_list_insert ns i n n' : ns !! i = Some n -> (sum_list (<[i := n']> ns) + n = sum_list ns + n')%nat.
Proof.
  revert i. induction ns as [|m ns IH]; intros [|i] L; try done.
  - injection L as ->. change (<[0%nat := n']> (n :: ns)) with (n' :: ns). cbn. lia.
  - specialize (IH i L). change (<[S i := n']> (m :: ns)) with (m :: <[i := n']> ns). cbn. unfold id in *. lia.
Qed.

Section Shared.
Context {act : Type -> Type} {mem : Type}.
Context (perform : forall R, act R -> mem -> outcome (mem * R)).

(** A program alone, with the readings of the clock it will get. *)
Fixpoint exec {A} (p : prog act A) (ts : list Z) (m : mem) : outcome (mem * A) :=
  match p with
  | Ret a => Moves (m, a)
  | Now k => match ts with t :: ts => exec (k t) ts m | [] => Waits end
  | Do a k => match perform _ a m with Moves (m, r) => exec (k r) ts m | Waits => Waits | Panics => Panics end
  end.

(** The next action of a program, at time [t]. *)
Definition advance {A} (p : prog act A) (t : Z) (m : mem) : outcome (mem * prog act A) :=
  match p with
  | Ret _ => Waits
  | Now k => Moves (m, k t)
  | Do a k => match perform _ a m with Moves (m, r) => Moves (m, k r) | Waits => Waits | Panics => Panics end
  end.

(** Calls side by side: a call starts, or the [i]-th moves. *)
Inductive label (A : Type) := Start (p : prog act A) | Step (i : nat) (t : Z).
Arguments Start {A} _.
Arguments Step {A} _ _.

Definition pool (A : Type) : Type := (mem * list (prog act A))%type.

Definition step {A} (s : pool A) (l : label A) : outcome (pool A) :=
  match l with
  | Start p => Moves (s.1, s.2 ++ [p])
  | Step i t =>
    match s.2 !! i with
    | Some p => match advance p t s.1 with Moves (m, p) => Moves (m, <[i := p]> s.2) | Waits => Waits | Panics => Panics end
    | None => Waits
    end
  end.

Fixpoint run {A} (s : pool A) (ls : list (label A)) : outcome (pool A) :=
  match ls with
  | [] => Moves s
  | l :: ls => match step s l with Moves s => run s ls | Waits => Waits | Panics => Panics end
  end.

Definition finished {A} (p : prog act A) : bool := match p with Ret _ => true | _ => false end.

(* ------------------------------------------------------------------ *)
(** ** Programs of bounded length *)

Fixpoint within {A} (n : nat) (p : prog act A) : Prop :=
  match p with
  | Ret _ => True
  | Now k => exists n', n = S n' /\ forall t, within n' (k t)
  | Do a k => exists n', n = S n' /\ forall r, within n' (k r)
  end.

Definition steps {A} (ls : list (label A)) : nat := tally (fun l => match l with Step _ _ => true | _ => false end) ls.
Definition starts {A} (ls : list (label A)) : nat := tally (fun l => match l with Start _ => true | _ => false end) ls.

(** The number of actions the programs have left. *)
Definition left_within {A} (n : nat) (ps : list (prog act A)) : Prop := exists ns, Forall2 within ns ps /\ (sum_list ns <= n)%nat.

Lemma advance_within {A} (p : prog act A) t m m' p' n :
  advance p t m = Moves (m', p') -> within n p -> exists n', n = S n' /\ within n' p'.
Proof.
  destruct p as [a|k|R a k]; cbn; [done|intros [= <- <-]|destruct (perform R a m) as [[m1 r]| |]; intros [= <- <-]];
    intros (n' & -> & K); by exists n'.
Qed.

Lemma run_steps {A} (d n : nat) (s s' : pool A) ls :
  (forall p, Start p ∈ ls -> within d p) -> left_within n s.2 -> run s ls = Moves s' ->
  (steps ls <= n + d * starts ls)%nat.
Proof.
  revert s n. induction ls as [|l ls IH]; intros s n D L R; [cbn; lia|].
  cbn [run] in R. destruct (step s l) as [s1| |] eqn:E; try done.
  assert (D' : forall p, Start p ∈ ls -> within d p) by (intros p P; apply D; by right).
  destruct L as (ns & F & B). unfold steps, starts in *. rewrite !tally_cons. destruct l as [p|i t]; cbn [step] in E.
  - injection E as <-. specialize (IH (s.1, s.2 ++ [p]) (n + d)%nat D'). cbn [fst snd Nat.b2n] in *.
    eapply Nat.le_trans; [apply IH; [|exact R]|lia].
    exists (ns ++ [d]). split; [|rewrite sum_list_with_app; cbn; lia].
    apply Forall2_app; [done|]. repeat constructor. apply D. by left.
  - destruct (s.2 !! i) as [p|] eqn:L; [|done]. destruct (advance p t s.1) as [[m p']| |] eqn:Ad; try done.
    injection E as <-. destruct (Forall2_lookup_r _ _ _ _ _ F L) as (m0 & Lm & W).
    destruct (advance_within _ _ _ _ _ _ Ad W) as (n' & -> & W'). pose proof (sum_list_insert ns i _ n' Lm) as Su.
    specialize (IH (m, <[i := p']> s.2) (n - 1)%nat D'). cbn [fst snd Nat.b2n] in *.
    assert (1 <= n)%nat by lia. enough (steps ls <= n - 1 + d * starts ls)%nat by (unfold steps, starts in *; lia).
    apply IH; [|exact R]. exists (<[i := n']> ns). split; [by apply Forall2_insert|lia].
Qed.

(* ------------------------------------------------------------------ *)
(** ** One mutex *)

Context (rolof : forall R, act R -> role) (locked : mem -> bool).
(** What every action keeps, and what each allows itself to do. *)
Context (good : mem -> Prop) (change : mem -> mem -> Prop) (fits : forall R, act R -> Prop).

(** [h]: whether the program holds the mutex. *)
Fixpoint brackets {A} (h : bool) (p : prog act A) : Prop :=
  match p with
  | Ret _ => h = false
  | Now k => forall t, brackets h (k t)
  | Do a k =>
    fits _ a /\
    match rolof _ a with
    | Locks => h = false /\ forall r, brackets true (k r)
    | Unlocks => h = true /\ forall r, brackets false (k r)
    | Guarded => h = true /\ forall r, brackets true (k r)
    | Plain => forall r, brackets h (k r)
    end
  end.

(** What the memory has to do for the discipline to work. *)
Record mutex_laws : Prop := {
  law_lock : forall R (a : act R) m, good m -> fits _ a -> rolof _ a = Locks ->
    if locked m then perform _ a m = Waits else exists m' r, perform _ a m = Moves (m', r) /\ locked m' = true;
  law_unlock : forall R (a : act R) m, good m -> fits _ a -> rolof _ a = Unlocks -> locked m = true ->
    exists m' r, perform _ a m = Moves (m', r) /\ locked m' = false;
  law_other : forall R (a : act R) m, good m -> fits _ a -> (rolof _ a = Plain \/ rolof _ a = Guarded /\ locked m = true) ->
    exists m' r, perform _ a m = Moves (m', r) /\ locked m' = locked m;
  law_good : forall R (a : act R) m m' r, good m -> fits _ a -> perform _ a m = Moves (m', r) -> good m' /\ change m m';
  law_still : forall m, good m -> change m m
}.

Record disciplined {A} (s : pool A) (hs : list bool) : Prop := {
  dis_good : good s.1;
  dis_brackets : Forall2 brackets hs s.2;
  dis_one : tally id hs = Nat.b2n (locked s.1)
}.

Context (laws : mutex_laws).

(** Where a program that is not finished stands. *)
Lemma advance_outcome {A} (p : prog act A) h t m :
  good m -> brackets h p -> (h = true -> locked m = true) ->
  match advance p t m with
  | Panics => False
  | Waits => finished p = true \/ h = false /\ locked m = true
  | Moves (m', p') => good m' /\ change m m' /\ exists h', brackets h' p' /\
      (Nat.b2n h' + Nat.b2n (locked m) = Nat.b2n h + Nat.b2n (locked m'))%nat
  end.
Proof.
  intros G B H. destruct p as [a|k|R a k]; cbn in *; [by left| |].
  - split; [done|]. split; [by apply law_still|]. by exists h.
  - destruct B as [Fi B]. assert (K : forall m' r, perform R a m = Moves (m', r) -> good m' /\ change m m')
      by (intros; by eapply law_good). destruct (rolof R a) eqn:Ro.
    + destruct B as [-> B]. pose proof (law_lock laws _ _ _ G Fi Ro) as L. destruct (locked m); [rewrite L; by right|].
      destruct L as (m' & r & E & L). rewrite E. destruct (K _ _ E). repeat split; try done. exists true. by rewrite L.
    + destruct B as [-> B]. destruct (law_unlock laws _ _ _ G Fi Ro (H eq_refl)) as (m' & r & E & L).
      rewrite E. destruct (K _ _ E). repeat split; try done. exists false. rewrite L, (H eq_refl). done.
    + destruct B as [-> B]. destruct (law_other laws _ _ _ G Fi (or_intror (conj Ro (H eq_refl)))) as (m' & r & E & L).
      rewrite E. destruct (K _ _ E). repeat split; try done. exists true. by rewrite L.
    + destruct (law_other laws _ _ _ G Fi (or_introl Ro)) as (m' & r & E & L).
      rewrite E. destruct (K _ _ E). repeat split; try done. exists h. by rewrite L.
Qed.

Lemma dis_holder {A} (s : pool A) hs i h : disciplined s hs -> hs !! i = Some h -> h = true -> locked s.1 = true.
Proof.
  intros D L ->. pose proof (tally_insert id hs i true false L) as T. rewrite (dis_one _ _ D) in T.
  cbn in T. destruct (locked s.1); [done|cbn in T; lia].
Qed.

Lemma step_disciplined {A} (s : pool A) hs l : disciplined s hs -> (forall p, l = Start p -> brackets false p) ->
  match step s l with
  | Panics => False
  | Waits => True
  | Moves s' => change s.1 s'.1 /\ exists hs', disciplined s' hs'
  end.
Proof.
  intros D N. destruct l as [p|i t]; cbn [step].
  - split; [apply law_still, (dis_good _ _ D); done|]. exists (hs ++ [false]). destruct D as [G B O]. constructor; cbn [fst snd]; [done| |].
    + apply Forall2_app; [done|]. repeat constructor. by apply N.
    + rewrite tally_app, tally_one, O. cbn. lia.
  - destruct (s.2 !! i) as [p|] eqn:L; [|done]. destruct (Forall2_lookup_r _ _ _ _ _ (dis_brackets _ _ D) L) as (h & Lh & B).
    pose proof (advance_outcome p h t s.1 (dis_good _ _ D) B (dis_holder _ _ _ _ D Lh)) as P.
    destruct (advance p t s.1) as [[m' p']| |]; [|done|done]. destruct P as (G & C & h' & B' & Eq). split; [done|].
    exists (<[i := h']> hs). destruct D as [_ Bs O]. constructor; cbn [fst snd]; [done|by apply Forall2_insert|].
    pose proof (tally_insert id hs i h h' Lh). unfold id in *. lia.
Qed.

Lemma run_disciplined {A} (s : pool A) hs ls : disciplined s hs -> (forall p, Start p ∈ ls -> brackets false p) ->
  match run s ls with
  | Panics => False
  | Waits => True
  | Moves s' => exists hs', disciplined s' hs'
  end.
Proof.
  revert s hs. induction ls as [|l ls IH]; intros s hs D N; [by exists hs|]. cbn [run].
  pose proof (step_disciplined s hs l D (fun p E => N p ltac:(subst; by left))) as P. destruct (step s l) as [s1| |]; try done.
  destruct P as (_ & hs1 & D1). apply (IH _ _ D1). intros p I. apply N. by right.
Qed.

(** Unless all calls have returned, one can move. *)
Lemma disciplined_moves {A} (s : pool A) hs t : disciplined s hs -> (exists p, p ∈ s.2 /\ finished p = false) ->
  exists i s', step s (Step i t) = Moves s'.
Proof.
  intros D (p & I & U). apply list_elem_of_lookup in I as [i L].
  assert (M : forall j q hj, s.2 !! j = Some q -> hs !! j = Some hj -> finished q = false -> (hj = true \/ locked s.1 = false) ->
    exists s', step s (Step j t) = Moves s').
  { intros j q hj Lq Lj Uq Hj. pose proof (Forall2_lookup_lr _ _ _ _ _ _ (dis_brackets _ _ D) Lj Lq) as B.
    pose proof (advance_outcome q hj t s.1 (dis_good _ _ D) B (dis_holder _ _ _ _ D Lj)) as P. cbn [step]. rewrite Lq.
    destruct (advance q t s.1) as [[m' p']| |]; [by eexists| |done]. destruct P as [P|[P1 P2]]; [congruence|].
    destruct Hj; congruence. }
  destruct (locked s.1) eqn:Lk.
  - destruct (tally_pos id hs) as (j & hj & Lj & T); [rewrite (dis_one _ _ D), Lk; cbn; lia|]. unfold id in T. subst hj.
    destruct (Forall2_lookup_l _ _ _ _ _ (dis_brackets _ _ D) Lj) as (q & Lq & B). exists j.
    apply (M j q true Lq Lj); [|by left]. by destruct q.
  - destruct (Forall2_lookup_r _ _ _ _ _ (dis_brackets _ _ D) L) as (h & Lh & B). exists i. apply (M i p h); [done..|by right].
Qed.

End Shared.
Arguments Start {act A} _.
Arguments Step {act A} _ _.

End Atomics.
