(* ===== verification/CircuitBreaker.v ===== *)
(** * Circuit breakers (core/errors/circuit_breaker.go, circuit_registry.go)

    A breaker closes a resource off after too many failures, lets calls probe
    it after a cooldown, and opens it again after enough successes.  [Allow]
    runs without the lock, on atomic cells; [RecordResult] holds the mutex but
    works on the same cells.  The methods are programs of atomic actions
    ([Atomics]); the mutex guards the window of the last results. *)

From Stdlib Require Import Floats.SpecFloat.
From S2P Require Import Prelude Atomics.

(* ------------------------------------------------------------------ *)
(** ** Further number types: [int32] and [float64]

    [float64] is binary64 of IEEE 754, by the executable specification of
    floating point of the Standard Library: rounding is to nearest, ties to
    even, as Go computes. *)

Module Numbers.

Definition two31 : Z := 2147483648.
Definition i32 (z : Z) : Z := (z + two31) mod two32 - two31.
Definition in_i32 (z : Z) : Prop := - two31 <= z < two31.

Lemma i32_id z : in_i32 z -> i32 z = z.
Proof. unfold i32, in_i32, two31, two32. intros H. rewrite Z.mod_small; lia. Qed.

Definition float64 : Type := spec_float.

(** [float64(n)] *)
Definition f64_of_Z (n : Z) : float64 := binary_normalize 53 1024 n 0 false.
Definition f64_add : float64 -> float64 -> float64 := SFadd 53 1024.
Definition f64_mul : float64 -> float64 -> float64 := SFmul 53 1024.
Definition f64_div : float64 -> float64 -> float64 := SFdiv 53 1024.
Definition f64_leb : float64 -> float64 -> bool := SFleb.

(** The constant [p/q], rounded once as the compiler does: the integers used
    below are exact. *)
Definition f64_const (p q : Z) : float64 := f64_div (f64_of_Z p) (f64_of_Z q).

(** [int64(x)] of a finite number in range: the part after the point is cut
    off.  Outside of the range Go leaves the result open. *)
Definition f64_to_i64 (x : float64) : option Z :=
  match x with
  | S754_zero _ => Some 0
  | S754_finite s m e =>
    let n := if e <? 0 then Z.pos m / 2 ^ (- e) else Z.pos m * 2 ^ e in
    let z := if s then - n else n in
    if (- two63 <=? z) && (z <? two63) then Some z else None
  | _ => None
  end.

Example tenth_of_three : f64_leb (f64_const 3 10) (f64_div (f64_of_Z 3) (f64_of_Z 10)) = true.
Proof. vm_compute. reflexivity. Qed.

Example truncates : f64_to_i64 (f64_mul (f64_of_Z 10) (f64_const 3 4)) = Some 7.
Proof. vm_compute. reflexivity. Qed.

End Numbers.

Import Numbers Atomics.

Module CircuitBreaker.

Definition CircuitClosed : Z := 0.
Definition CircuitOpen : Z := 1.
Definition CircuitHalfOpen : Z := 2.

Definition String_ (s : Z) : string :=
  if s =? CircuitClosed then "closed" else if s =? CircuitOpen then "open"
  else if s =? CircuitHalfOpen then "half_open" else "unknown".

Record CircuitBreakerConfig := mkConfig {
  ConsecutiveFailures : Z; FailureRateThreshold : float64; RateWindowSize : Z; CooldownDuration : Z;
  SuccessThreshold : Z; NotifyOnStateChange : bool }.

(** [time.Second], in nanoseconds. *)
Definition Second : Z := 1000000000.

Definition DefaultCircuitBreakerConfig : CircuitBreakerConfig := mkConfig 3 (f64_const 1 2) 20 (30 * Second) 3 true.

(** [locked]: the mutex. *)
Record breaker := mkBreaker {
  state : Z; failures : Z; successes : Z; lastStateChange : Z; config : CircuitBreakerConfig; resourceID : string;
  locked : bool; recentResults : list bool; windowIndex : Z }.

Definition initializeWindow (w : list bool) : list bool := (fun _ => true) <$> w.

(** [None]: making the window panics, its size is negative. *)
Definition NewCircuitBreaker (resourceID : string) (config : CircuitBreakerConfig) (now : Z) : option breaker :=
  if RateWindowSize config <? 0 then None
  else Some (mkBreaker CircuitClosed 0 0 (UnixNano now) config resourceID false
               (initializeWindow (replicate (Z.to_nat (RateWindowSize config)) false)) 0).

(* ------------------------------------------------------------------ *)
(** ** The actions on a breaker *)

(** The cells with atomic access: three of 32 bits, one of 64. *)
Inductive cell := CState | CFailures | CSuccesses | CLast.

(** [Window f]: a part under the mutex that works on the window and its
    index; [None] is a panic. *)
Inductive action : Type -> Type :=
| Load (c : cell) : action Z
| Store (c : cell) (v : Z) : action unit
| Add (c : cell) (n : Z) : action Z
| Cas (c : cell) (old new : Z) : action bool
| Lock : action unit
| Unlock : action unit
| Window (R : Type) (f : list bool -> Z -> option (list bool * Z * R)) : action R.
Arguments Window {R} f.

Definition get (c : cell) (b : breaker) : Z :=
  match c with CState => state b | CFailures => failures b | CSuccesses => successes b | CLast => lastStateChange b end.

Definition set (c : cell) (v : Z) (b : breaker) : breaker :=
  match b with
  | mkBreaker st fl su la cfg id lk r i =>
    match c with
    | CState => mkBreaker v fl su la cfg id lk r i
    | CFailures => mkBreaker st v su la cfg id lk r i
    | CSuccesses => mkBreaker st fl v la cfg id lk r i
    | CLast => mkBreaker st fl su v cfg id lk r i
    end
  end.

Definition wrap (c : cell) (v : Z) : Z := match c with CLast => i64 v | _ => i32 v end.

Definition set_lock (lk : bool) (b : breaker) : breaker :=
  mkBreaker (state b) (failures b) (successes b) (lastStateChange b) (config b) (resourceID b) lk (recentResults b) (windowIndex b).

Definition set_window (r : list bool) (i : Z) (b : breaker) : breaker :=
  mkBreaker (state b) (failures b) (successes b) (lastStateChange b) (config b) (resourceID b) (locked b) r i.

Definition perform (R : Type) (a : action R) (b : breaker) : outcome (breaker * R) :=
  match a in action R return outcome (breaker * R) with
  | Load c => Moves (b, get c b)
  | Store c v => Moves (set c v b, tt)
  | Add c n => let v := wrap c (get c b + n) in Moves (set c v b, v)
  | Cas c old new => if get c b =? old then Moves (set c new b, true) else Moves (b, false)
  | Lock => if locked b then Waits else Moves (set_lock true b, tt)
  | Unlock => if locked b then Moves (set_lock false b, tt) else Panics
  | Window f =>
    match f (recentResults b) (windowIndex b) with
    | Some (r, i, x) => Moves (set_window r i b, x)
    | None => Panics
    end
  end.

Abbreviation cprog := (prog action).

(* ------------------------------------------------------------------ *)
(** ** The methods *)

Definition State : cprog Z := call (Load CState).
Definition Failures : cprog Z := call (Load CFailures).

Definition checkCooldownExpired (cfg : CircuitBreakerConfig) : cprog bool :=
  lastChange ← call (Load CLast);
  t ← now;
  let elapsed := i64 (UnixNano t - lastChange) in
  if elapsed <? CooldownDuration cfg then mret false
  else
    won ← call (Cas CState CircuitOpen CircuitHalfOpen);
    if won : bool then
      t ← now;
      _ ← call (Store CLast (UnixNano t));
      _ ← call (Store CSuccesses 0);
      mret true
    else mret true.

Definition Allow (cfg : CircuitBreakerConfig) : cprog bool :=
  state ← call (Load CState);
  if state =? CircuitClosed then mret true
  else if state =? CircuitOpen then checkCooldownExpired cfg
  else if state =? CircuitHalfOpen then mret true
  else mret true.

Definition recordToWindow (success : bool) (r : list bool) (i : Z) : option (list bool * Z * unit) :=
  if (0 <=? i) && (i <? len r) then Some (<[Z.to_nat i := success]> r, (i + 1) mod len r, tt) else None.

Definition calculateFailureRate (r : list bool) : float64 :=
  if len r =? 0 then f64_of_Z 0
  else f64_div (f64_of_Z (Z.of_nat (tally negb r))) (f64_of_Z (len r)).

Definition transitionToCAS (fromState toState : Z) : cprog bool :=
  ok ← call (Cas CState fromState toState);
  if ok : bool then
    t ← now;
    _ ← call (Store CLast (UnixNano t));
    if toState =? CircuitClosed then
      _ ← call (Store CFailures 0);
      _ ← call (Store CSuccesses 0);
      mret true
    else if toState =? CircuitHalfOpen then
      _ ← call (Store CSuccesses 0);
      mret true
    else mret true
  else mret false.

Definition recordSuccessLocked (cfg : CircuitBreakerConfig) : cprog unit :=
  _ ← call (Store CFailures 0);
  state ← call (Load CState);
  if state =? CircuitHalfOpen then
    newSuccesses ← call (Add CSuccesses 1);
    if SuccessThreshold cfg <=? newSuccesses then
      _ ← transitionToCAS CircuitHalfOpen CircuitClosed; mret tt
    else mret tt
  else mret tt.

Definition shouldTrip (cfg : CircuitBreakerConfig) (failures : Z) (failureRate : float64) : bool :=
  if ConsecutiveFailures cfg <=? failures then true
  else f64_leb (FailureRateThreshold cfg) failureRate.

Definition recordFailureLocked (cfg : CircuitBreakerConfig) (failureRate : float64) : cprog unit :=
  newFailures ← call (Add CFailures 1);
  _ ← call (Store CSuccesses 0);
  state ← call (Load CState);
  if state =? CircuitHalfOpen then
    _ ← transitionToCAS CircuitHalfOpen CircuitOpen; mret tt
  else if (state =? CircuitClosed) && shouldTrip cfg newFailures failureRate then
    _ ← transitionToCAS CircuitClosed CircuitOpen; mret tt
  else mret tt.

Definition RecordResult (cfg : CircuitBreakerConfig) (success : bool) : cprog unit :=
  _ ← call Lock;
  _ ← call (Window (recordToWindow success));
  failureRate ← call (Window (fun r i => Some (r, i, calculateFailureRate r)));
  _ ← (if success then recordSuccessLocked cfg else recordFailureLocked cfg failureRate);
  call Unlock.

Definition transitionToForced (state : Z) : cprog unit :=
  _ ← call (Store CState state);
  t ← now;
  _ ← call (Store CLast (UnixNano t));
  if state =? CircuitClosed then
    _ ← call (Store CFailures 0);
    call (Store CSuccesses 0)
  else if state =? CircuitHalfOpen then call (Store CSuccesses 0)
  else mret tt.

Definition ForceReset : cprog unit :=
  _ ← call Lock;
  _ ← call (Window (fun r i => Some (initializeWindow r, i, tt)));
  _ ← call Unlock;
  transitionToForced CircuitClosed.

Definition FailureRate : cprog float64 :=
  _ ← call Lock;
  rate ← call (Window (fun r i => Some (r, i, calculateFailureRate r)));
  _ ← call Unlock;
  mret rate.

Definition LastStateChange : cprog Z := call (Load CLast).

(** The calls of a client, with one type of answer. *)
Inductive request := RAllow | RRecord (success : bool) | RForceReset | RState | RFailures | RFailureRate | RLastStateChange.
Inductive reply := Allowed (b : bool) | Done | Number (z : Z) | Rate (f : float64).

Definition serve (cfg : CircuitBreakerConfig) (r : request) : cprog reply :=
  match r with
  | RAllow => b ← Allow cfg; mret (Allowed b)
  | RRecord s => _ ← RecordResult cfg s; mret Done
  | RForceReset => _ ← ForceReset; mret Done
  | RState => z ← State; mret (Number z)
  | RFailures => z ← Failures; mret (Number z)
  | RFailureRate => f ← FailureRate; mret (Rate f)
  | RLastStateChange => z ← LastStateChange; mret (Number z)
  end.

End CircuitBreaker.
