(* ===== verification/BreakerProof.v ===== *)
(** * What a circuit breaker promises

    Called one at a time, a breaker is an automaton over the log of results.
    Called by many goroutines at once, its state still follows its diagram, no
    call gets stuck, and the window stays in bounds; but a call can get through
    before the cooldown is over. *)

From S2P Require Import Prelude Atomics CircuitBreaker.
Import Numbers Atomics CircuitBreaker.

Module BreakerProof.

(* ------------------------------------------------------------------ *)
(** ** The automaton *)

Inductive mode := Closed | Open | HalfOpen (probes : Z).

(** [since]: the time of the last change; [log]: the results recorded since
    the breaker was made or reset, oldest first. *)
Record automaton := mkAuto { mode_of : mode; since : Z; log : list bool }.

Definition code (m : mode) : Z := match m with Closed => CircuitClosed | Open => CircuitOpen | HalfOpen _ => CircuitHalfOpen end.

(** The failures at the end of the log. *)
Definition streak (log : list bool) : nat := foldl (fun n ok => if ok : bool then O else S n) O log.

(** The last [RateWindowSize] results, successes before the first. *)
Definition recent (n : nat) (log : list bool) : list bool := drop (length log) (replicate n true ++ log).

Section Spec.
Context (cfg : CircuitBreakerConfig).
Definition size_ : nat := Z.to_nat (RateWindowSize cfg).

Definition rate (log : list bool) : float64 := calculateFailureRate (recent size_ log).

(** Three failures in a row or so, or too many among the last. *)
Definition trips (log : list bool) : bool :=
  (ConsecutiveFailures cfg <=? Z.of_nat (streak log)) || f64_leb (FailureRateThreshold cfg) (rate log).

Definition after_result (s : automaton) (ok : bool) (t : Z) : automaton :=
  let log := log s ++ [ok] in
  match mode_of s, ok with
  | HalfOpen n, true => if SuccessThreshold cfg <=? n + 1 then mkAuto Closed t log else mkAuto (HalfOpen (n + 1)) (since s) log
  | HalfOpen _, false => mkAuto Open t log
  | Closed, false => if trips log then mkAuto Open t log else mkAuto Closed (since s) log
  | m, _ => mkAuto m (since s) log
  end.

(** [t1], [t2]: the readings of the clock during the request. *)
Definition respond (s : automaton) (r : request) (t1 t2 : Z) : automaton * reply :=
  match r with
  | RAllow =>
    match mode_of s with
    | Open => if t1 - since s <? CooldownDuration cfg then (s, Allowed false) else (mkAuto (HalfOpen 0) t2 (log s), Allowed true)
    | _ => (s, Allowed true)
    end
  | RRecord ok => (after_result s ok t1, Done)
  | RForceReset => (mkAuto Closed t1 [], Done)
  | RState => (s, Number (code (mode_of s)))
  | RFailures => (s, Number (Z.of_nat (streak (log s))))
  | RFailureRate => (s, Rate (rate (log s)))
  | RLastStateChange => (s, Number (since s))
  end.
End Spec.

(** Requests one after the other, each with its readings. *)
Definition request_at : Type := (request * Z * Z)%type.

Fixpoint serve_all (b : breaker) (rs : list request_at) : outcome (breaker * list reply) :=
  match rs with
  | [] => Moves (b, [])
  | (r, t1, t2) :: rs =>
    match exec perform (serve (config b) r) [t1; t2] b with
    | Moves (b, x) => match serve_all b rs with Moves (b, xs) => Moves (b, x :: xs) | Waits => Waits | Panics => Panics end
    | Waits => Waits
    | Panics => Panics
    end
  end.

Fixpoint respond_all (cfg : CircuitBreakerConfig) (s : automaton) (rs : list request_at) : automaton * list reply :=
  match rs with
  | [] => (s, [])
  | (r, t1, t2) :: rs => let '(s, x) := respond cfg s r t1 t2 in let '(s, xs) := respond_all cfg s rs in (s, x :: xs)
  end.

(* ------------------------------------------------------------------ *)
(** ** The window is a ring *)

#[local] Arguments recent : simpl never.
#[local] Arguments streak : simpl never.
#[local] Arguments calculateFailureRate : simpl never.

Definition unroll (r : list bool) (i : nat) : list bool := drop i r ++ take i r.

#[local] Arguments unroll : simpl never.

Lemma tally_unroll r i : tally negb (unroll r i) = tally negb r.
Proof. unfold unroll. rewrite <- (take_drop i r) at 3. rewrite !tally_app. lia. Qed.

Lemma length_unroll r i : length (unroll r i) = length r.
Proof. unfold unroll. rewrite <- (take_drop i r) at 3. rewrite !length_app. lia. Qed.

Lemma rate_unroll r i : calculateFailureRate (unroll r i) = calculateFailureRate r.
Proof. unfold calculateFailureRate, len. by rewrite tally_unroll, length_unroll. Qed.

Lemma unroll_record r i ok : (i < length r)%nat ->
  unroll (<[i := ok]> r) (if Nat.eqb (S i) (length r) then 0 else S i)%nat = drop 1 (unroll r i) ++ [ok].
Proof.
  intros H. destruct (lookup_lt_is_Some_2 r i H) as [x L].
  assert (Lt : length (take i r) = i) by (rewrite length_take; lia).
  assert (I : <[i := ok]> r = (take i r ++ [ok]) ++ drop (S i) r) by (rewrite <- app_assoc; by apply insert_take_drop).
  assert (U : drop 1 (unroll r i) = drop (S i) r ++ take i r) by (unfold unroll; by rewrite (drop_S r x i L)).
  rewrite U. unfold unroll. destruct (Nat.eqb_spec (S i) (length r)) as [E|E].
  - rewrite drop_0, take_0, app_nil_r, I, (drop_ge r (S i)) by lia. by rewrite app_nil_r.
  - assert (K : length (take i r ++ [ok]) = S i) by (rewrite length_app, Lt; cbn; lia).
    assert (drop (S i) (<[i := ok]> r) = drop (S i) r) as -> by (rewrite I, <- K at 1; apply drop_app_length).
    assert (take (S i) (<[i := ok]> r) = take i r ++ [ok]) as -> by (rewrite I, <- K at 1; apply take_app_length).
    by rewrite app_assoc.
Qed.

Lemma recent_snoc n log ok : (0 < n)%nat -> recent n (log ++ [ok]) = drop 1 (recent n log) ++ [ok].
Proof.
  intros H. unfold recent. rewrite length_app, drop_drop. cbn [length]. rewrite app_assoc.
  rewrite drop_app_le; [done|]. rewrite length_app, length_replicate. lia.
Qed.

Lemma streak_snoc log ok : streak (log ++ [ok]) = if ok then O else S (streak log).
Proof. unfold streak. by rewrite foldl_app. Qed.

Lemma streak_le log : (streak log <= length log)%nat.
Proof.
  induction log as [|ok log IH] using rev_ind; [done|]. rewrite streak_snoc, length_app. cbn. destruct ok; lia.
Qed.

(* ------------------------------------------------------------------ *)
(** ** One call at a time *)

Definition clock (t : Z) : Prop := 0 <= t < two63.

Record represents (b : breaker) (s : automaton) : Prop := {
  rep_state : state b = code (mode_of s);
  rep_since : lastStateChange b = since s /\ clock (since s);
  rep_failures : failures b = Z.of_nat (streak (log s));
  rep_probes : forall n, mode_of s = HalfOpen n -> successes b = n /\ 0 <= n <= len (log s);
  rep_free : locked b = false;
  rep_index : 0 <= windowIndex b < len (recentResults b) /\ length (recentResults b) = size_ (config b);
  rep_window : unroll (recentResults b) (Z.to_nat (windowIndex b)) = recent (size_ (config b)) (log s)
}.

Definition answers_as (b : breaker) (s : automaton) (r : request) (t1 t2 : Z) : Prop :=
  exists b', exec perform (serve (config b) r) [t1; t2] b = Moves (b', (respond (config b) s r t1 t2).2) /\
    represents b' (respond (config b) s r t1 t2).1 /\ config b' = config b.

Lemma elapsed_exact t u : clock t -> clock u -> i64 (UnixNano t - u) = t - u.
Proof. unfold clock, UnixNano. intros H K. rewrite (i64_id t), i64_id; unfold in_i64, two63 in *; lia. Qed.

Lemma nano_exact t : clock t -> UnixNano t = t.
Proof. unfold clock, UnixNano. intros H. apply i64_id. unfold in_i64, two63 in *; lia. Qed.

(** A request that reads only. *)
Lemma answers_still b s r t1 t2 : represents b s ->
  (respond (config b) s r t1 t2).1 = s ->
  exec perform (serve (config b) r) [t1; t2] b = Moves (b, (respond (config b) s r t1 t2).2) ->
  answers_as b s r t1 t2.
Proof. intros R E X. exists b. by rewrite X, E. Qed.

Lemma answers_allow b s t1 t2 : represents b s -> clock t1 -> clock t2 -> answers_as b s RAllow t1 t2.
Proof.
  intros R C1 C2. destruct R as [St [Si Cs] Fa Pr Fr Ix Wi]. destruct b as [st fl su la cfg id lk w i]. destruct s as [m si lg]. cbn in *. subst.
  destruct m as [| |n]; [by apply answers_still| |by apply answers_still].
  unfold answers_as. cbn. rewrite elapsed_exact by done. destruct (t1 - si <? CooldownDuration cfg) eqn:E; cbn.
  - eexists. split; [reflexivity|]. by split.
  - rewrite nano_exact by done. eexists. split; [reflexivity|]. split; [|done]. constructor; try done. cbn. intros ? [= <-]. pose proof (len_nonneg lg). lia.
Qed.

Lemma initialize_replicate w : initializeWindow w = replicate (length w) true.
Proof. unfold initializeWindow. induction w as [|x w IH]; [done|]. cbn. f_equal. exact IH. Qed.

Lemma unroll_replicate n i : (i <= n)%nat -> unroll (replicate n true) i = replicate n true.
Proof.
  intros H. unfold unroll. rewrite drop_replicate, take_replicate, <- replicate_add. f_equal. lia.
Qed.

Lemma recent_nil n : recent n [] = replicate n true.
Proof. unfold recent. cbn [length]. by rewrite drop_0, app_nil_r. Qed.

Lemma answers_reset b s t1 t2 : represents b s -> clock t1 -> answers_as b s RForceReset t1 t2.
Proof.
  intros R C1. destruct R as [St [Si Cs] Fa Pr Fr [Ix Sz] Wi]. destruct b as [st fl su la cfg id lk w i]. cbn in *. subst.
  unfold answers_as. cbn. rewrite nano_exact by done. eexists. split; [reflexivity|]. split; [|done]. constructor; try done; cbn.
  - rewrite initialize_replicate. unfold len in *. rewrite length_replicate. by split.
  - rewrite initialize_replicate, unroll_replicate, recent_nil by (unfold len in *; lia). by rewrite Sz.
Qed.

(** The window after a result. *)
Lemma window_record w i ok n log : 0 <= i < len w -> length w = n -> unroll w (Z.to_nat i) = recent n log ->
  exists i', recordToWindow ok w i = Some (<[Z.to_nat i := ok]> w, i', tt) /\ 0 <= i' < len w /\
    unroll (<[Z.to_nat i := ok]> w) (Z.to_nat i') = recent n (log ++ [ok]).
Proof.
  intros H Ln U. exists ((i + 1) mod len w). unfold recordToWindow, len in *.
  rewrite (proj2 (Z.leb_le 0 i)), (proj2 (Z.ltb_lt i _)) by lia. split; [done|]. split; [apply Z.mod_pos_bound; lia|].
  rewrite recent_snoc by lia. rewrite <- U, <- unroll_record by lia. f_equal.
  destruct (Nat.eqb_spec (S (Z.to_nat i)) (length w)) as [E|E].
  - replace (i + 1) with (Z.of_nat (length w)) by lia. by rewrite Z.mod_same by lia.
  - rewrite Z.mod_small by lia. lia.
Qed.

Lemma answers_success b s t1 t2 : represents b s -> clock t1 -> len (log s) + 1 < two31 -> answers_as b s (RRecord true) t1 t2.
Proof.
  intros R C1 B. destruct R as [St [Si Cs] Fa Pr Fr [Ix Sz] Wi]. destruct b as [st fl su la cfg id lk w i]. destruct s as [m si lg]. cbn in *. subst.
  destruct (window_record w i true _ lg Ix Sz Wi) as (i' & Re & Ix' & U). pose proof (len_nonneg lg) as P0.
  assert (Fin : 0 <= i' < len (<[Z.to_nat i:=true]> w) /\ length (<[Z.to_nat i:=true]> w) = size_ cfg)
    by (unfold len in *; by rewrite length_insert).
  unfold answers_as. destruct m as [| |n]; cbn; rewrite Re; cbn.
  1-2: eexists; split; [reflexivity|]; split; [|done]; constructor; try done; cbn; by rewrite streak_snoc.
  destruct (Pr n eq_refl) as [-> Pn]. rewrite i32_id by (unfold in_i32, two31 in *; lia).
  destruct (SuccessThreshold cfg <=? n + 1) eqn:E; cbn.
  - rewrite nano_exact by done. eexists; split; [reflexivity|]; split; [|done]; constructor; try done; cbn. by rewrite streak_snoc.
  - eexists; split; [reflexivity|]; split; [|done]; constructor; try done; cbn; [by rewrite streak_snoc|].
    intros ? [= <-]. rewrite len_app. unfold len in *. cbn. lia.
Qed.

Lemma answers_failure b s t1 t2 : represents b s -> clock t1 -> len (log s) + 1 < two31 -> answers_as b s (RRecord false) t1 t2.
Proof.
  intros R C1 B. destruct R as [St [Si Cs] Fa Pr Fr [Ix Sz] Wi]. destruct b as [st fl su la cfg id lk w i]. destruct s as [m si lg]. cbn in *. subst.
  destruct (window_record w i false _ lg Ix Sz Wi) as (i' & Re & Ix' & U). pose proof (streak_le lg) as P0.
  assert (Fin : 0 <= i' < len (<[Z.to_nat i:=false]> w) /\ length (<[Z.to_nat i:=false]> w) = size_ cfg)
    by (unfold len in *; by rewrite length_insert).
  assert (St : i32 (Z.of_nat (streak lg) + 1) = Z.of_nat (streak (lg ++ [false]))).
  { rewrite streak_snoc, i32_id by (unfold in_i32, two31, len in *; lia). lia. }
  unfold answers_as. destruct m as [| |n]; cbn; rewrite Re; cbn; rewrite St.
  - unfold shouldTrip, trips, rate, after_result. rewrite <- U, rate_unroll. cbn [mode_of log since].
    destruct (ConsecutiveFailures cfg <=? _) eqn:E; cbn; [|destruct (f64_leb _ _) eqn:E2; cbn].
    all: rewrite ?nano_exact by done; eexists; split; [reflexivity|]; split; [|done]; constructor; done.
  - eexists; split; [reflexivity|]; split; [|done]; constructor; done.
  - rewrite nano_exact by done. eexists; split; [reflexivity|]; split; [|done]; constructor; done.
Qed.

Lemma answers b s r t1 t2 : represents b s -> clock t1 -> clock t2 -> len (log s) + 1 < two31 -> answers_as b s r t1 t2.
Proof.
  intros R C1 C2 B. destruct r as [|[]| | | | |].
  - by apply answers_allow.
  - by apply answers_success.
  - by apply answers_failure.
  - by apply answers_reset.
  - apply answers_still; [done..|]. cbn. by rewrite (rep_state _ _ R).
  - apply answers_still; [done..|]. cbn. by rewrite (rep_failures _ _ R).
  - apply answers_still; [done..|]. destruct R as [_ _ _ _ Fr _ Wi]. destruct b. cbn in *. subst. cbn. unfold rate.
    by rewrite <- Wi, rate_unroll.
  - apply answers_still; [done..|]. cbn. by rewrite (proj1 (rep_since _ _ R)).
Qed.

Lemma log_grows cfg s r t1 t2 : len (log (respond cfg s r t1 t2).1) <= len (log s) + 1.
Proof.
  destruct s as [m si lg]. destruct r as [|ok| | | | |]; cbn; try lia.
  - destruct m; try destruct (_ <? _); cbn; lia.
  - assert (len (lg ++ [ok]) = len lg + 1) by (rewrite len_app; unfold len; cbn; lia).
    unfold after_result. destruct m as [| |n], ok; cbn; try destruct (trips _ _); try destruct (_ <=? _); cbn; lia.
  - pose proof (len_nonneg lg). unfold len at 1. cbn. lia.
Qed.

Lemma serve_all_answers rs : forall b s, represents b s ->
  Forall (fun '(_, t1, t2) => clock t1 /\ clock t2) rs -> len (log s) + len rs < two31 ->
  exists b', serve_all b rs = Moves (b', (respond_all (config b) s rs).2) /\ represents b' (respond_all (config b) s rs).1.
Proof.
  induction rs as [|[[r t1] t2] rs IH]; intros b s R F B; [by exists b|]. apply Forall_cons in F as [[C1 C2] F].
  rewrite len_cons in B. pose proof (len_nonneg rs). pose proof (log_grows (config b) s r t1 t2) as G.
  destruct (answers b s r t1 t2 R C1 C2 ltac:(lia)) as (b1 & E & R1 & Cf).
  destruct (IH b1 _ R1 F ltac:(lia)) as (b2 & E2 & R2). rewrite Cf in E2, R2. cbn [serve_all respond_all]. rewrite E, E2.
  destruct (respond (config b) s r t1 t2) as [s1 x]. cbn [fst snd] in *.
  destruct (respond_all (config b) s1 rs) as [s2 xs]. by exists b2.
Qed.

Lemma represents_new id cfg t b : 0 < RateWindowSize cfg -> clock t -> NewCircuitBreaker id cfg t = Some b ->
  config b = cfg /\ represents b (mkAuto Closed t []).
Proof.
  intros W C. unfold NewCircuitBreaker. rewrite (proj2 (Z.ltb_ge _ _)) by lia. intros [= <-].
  rewrite initialize_replicate, length_replicate. split; [done|]. constructor; cbn; try done.
  - rewrite nano_exact by done. done.
  - unfold len, size_. rewrite length_replicate. lia.
Qed.

(** C12: Called one request at a time, a breaker never panics and answers as
    the automaton over the log of results: closed it trips on the configured
    failures in a row or on their rate among the last results, open it refuses
    every call until the cooldown is over, half open it closes after the
    configured successes and opens again on a failure.  The window may have
    any positive size; the requests are fewer than 2^31. *)
Theorem breaker_refines id cfg t rs :
  0 < RateWindowSize cfg -> clock t -> Forall (fun '(_, t1, t2) => clock t1 /\ clock t2) rs -> len rs < two31 ->
  exists b b', NewCircuitBreaker id cfg t = Some b /\
    serve_all b rs = Moves (b', (respond_all cfg (mkAuto Closed t []) rs).2) /\
    represents b' (respond_all cfg (mkAuto Closed t []) rs).1.
Proof.
  intros W C F B. assert (exists b, NewCircuitBreaker id cfg t = Some b) as [b N].
  { unfold NewCircuitBreaker. rewrite (proj2 (Z.ltb_ge _ _)) by lia. by eexists. }
  destruct (represents_new id cfg t b W C N) as [Cf R]. destruct (serve_all_answers rs b _ R F ltac:(done)) as (b' & E & R').
  rewrite Cf in E, R'. by exists b, b'.
Qed.

(** Three failures, a refusal, a probe after the cooldown, three successes. *)
Definition story : list request_at :=
  [(RRecord false, 1, 0); (RRecord false, 2, 0); (RRecord false, 3, 0); (RState, 4, 0); (RAllow, 5, 5); (RAllow, 30 * Second + 3, 30 * Second + 4);
   (RState, 0, 0); (RRecord true, 40 * Second, 0); (RRecord true, 41 * Second, 0); (RRecord true, 42 * Second, 0); (RState, 0, 0)].

Lemma breaker_refines_witness :
  (respond_all DefaultCircuitBreakerConfig (mkAuto Closed 0 []) story).2 =
    [Done; Done; Done; Number 1; Allowed false; Allowed true; Number 2; Done; Done; Done; Number 0] /\
  exists b b', NewCircuitBreaker "llm" DefaultCircuitBreakerConfig 0 = Some b /\
    serve_all b story = Moves (b', (respond_all DefaultCircuitBreakerConfig (mkAuto Closed 0 []) story).2) /\
    represents b' (respond_all DefaultCircuitBreakerConfig (mkAuto Closed 0 []) story).1.
Proof.
  split; [vm_compute; reflexivity|]. apply (breaker_refines "llm" DefaultCircuitBreakerConfig 0 story).
  - reflexivity.
  - unfold clock, two63. lia.
  - repeat constructor; vm_compute; congruence.
  - vm_compute. reflexivity.
Defined.

(* ------------------------------------------------------------------ *)
(** ** Any number of calls at once *)

Definition rolof (R : Type) (a : action R) : role :=
  match a with Lock => Locks | Unlock => Unlocks | Window _ => Guarded | _ => Plain end.

(** The diagram of the states; a reset closes from any state. *)
Definition legal (resets : bool) (s s' : Z) : Prop :=
  s' = s \/ (s = CircuitClosed /\ s' = CircuitOpen) \/ (s = CircuitOpen /\ s' = CircuitHalfOpen) \/
  (s = CircuitHalfOpen /\ (s' = CircuitOpen \/ s' = CircuitClosed)) \/ (resets = true /\ s' = CircuitClosed).

Definition sound (b : breaker) : Prop :=
  0 <= windowIndex b < len (recentResults b) /\ len (recentResults b) = RateWindowSize (config b).

Definition follows (resets : bool) (b b' : breaker) : Prop := legal resets (state b) (state b') /\ config b' = config b.

(** The actions of the methods. *)
Definition fits (resets : bool) (R : Type) (a : action R) : Prop :=
  match a with
  | Store CState v => resets = true /\ v = CircuitClosed
  | Add CState _ => False
  | Cas CState old new => legal resets old new
  | Window f => forall r i, 0 <= i < len r -> exists r' i' x, f r i = Some (r', i', x) /\ len r' = len r /\ 0 <= i' < len r
  | _ => True
  end.

Lemma breaker_mutex resets : mutex_laws perform rolof locked sound (follows resets) (fits resets).
Proof.
  constructor.
  - intros R a b G F. destruct a; try done. intros _. cbn. destruct (locked b); [done|]. by eexists _, _.
  - intros R a b G F. destruct a; try done. intros _ L. cbn. rewrite L. by eexists _, _.
  - intros R a b G F. destruct a as [c|c v|c n|c o n| | |R f]; cbn; intros [K|[K K2]]; try done.
    + by eexists _, _.
    + destruct b, c; by eexists _, _.
    + destruct b, c; [done|by eexists _, _..].
    + destruct b, c; cbn; destruct (_ =? _); by eexists _, _.
    + destruct (F _ _ (proj1 G)) as (r' & i' & x & E & _). rewrite E. by eexists _, _.
  - intros R a b b' r G F E. assert (L0 : legal resets (state b) (state b)) by (by left). destruct a as [c|c v|c n|c o n| | |R f]; cbn in E.
    + injection E as <- <-. done.
    + injection E as <- <-. destruct b, c; try done. destruct F as [-> ->]. split; [done|split; [unfold legal; cbn; tauto|done]].
    + injection E as <- <-. destruct b, c; done.
    + destruct b, c; cbn in E; match type of E with context [?x =? o] => destruct (Z.eqb_spec x o) as [->|] end; injection E as <- <-; done.
    + destruct (locked b); [done|]. injection E as <- <-. done.
    + destruct (locked b); [|done]. injection E as <- <-. done.
    + destruct (F _ _ (proj1 G)) as (r' & i' & x & Ef & Lr & Ir). rewrite Ef in E. injection E as <- <-. destruct G as [_ G].
      unfold sound, follows; cbn. rewrite Lr. done.
  - intros b _. split; [by left|done].
Qed.

Lemma window_fits ok r i : 0 <= i < len r ->
  exists r' i' x, recordToWindow ok r i = Some (r', i', x) /\ len r' = len r /\ 0 <= i' < len r.
Proof.
  intros H. unfold recordToWindow. rewrite (proj2 (Z.leb_le 0 i)), (proj2 (Z.ltb_lt i _)) by lia.
  eexists _, _, _. split; [reflexivity|]. split; [unfold len; by rewrite length_insert|]. apply Z.mod_pos_bound. lia.
Qed.

Lemma initialize_fits r i : 0 <= i < len r ->
  exists r' i' x, Some (initializeWindow r, i, tt) = Some (r', i', x) /\ len r' = len r /\ 0 <= i' < len r.
Proof. intros H. eexists _, _, _. split; [reflexivity|]. split; [apply len_fmap|done]. Qed.

Lemma read_fits {A} (x : list bool -> A) r i : 0 <= i < len r ->
  exists r' i' y, Some (r, i, x r) = Some (r', i', y) /\ len r' = len r /\ 0 <= i' < len r.
Proof. intros H. by eexists _, _, _. Qed.

(** The discipline and the length of a method, by cases on its tests. *)
Ltac brackets_now :=
  repeat (cbn; match goal with
  | |- _ /\ _ => split
  | |- forall _, _ => intros
  | |- context [if ?b then _ else _] => destruct b
  | |- context [match ?s with | 0 => _ | _ => _ end] => destruct s
  end); try done; try (unfold legal; tauto).

Ltac within_now :=
  repeat (cbn; match goal with
  | |- True => exact I
  | |- exists n', _ = S n' /\ _ => eexists; split; [reflexivity|]; intros
  | |- context [if ?b then _ else _] => destruct b
  end).

Lemma serve_brackets resets cfg r : (r = RForceReset -> resets = true) -> brackets rolof (fits resets) false (serve cfg r).
Proof.
  intros H. destruct r as [|[]| | | | |]; brackets_now; try by (apply window_fits || apply initialize_fits || apply read_fits).
  all: by apply H.
Qed.

Lemma serve_within cfg r : within 12 (serve cfg r).
Proof. destruct r as [|[]| | | | |]; within_now. Qed.

(** Goroutines that call the methods: a call starts, or one moves. *)
Inductive event := Call (r : request) | Move (i : nat) (t : Z).

Definition label_of (cfg : CircuitBreakerConfig) (e : event) : label reply :=
  match e with Call r => Start (serve cfg r) | Move i t => Step i t end.

Definition run_events (b : breaker) (es : list event) : outcome (pool reply) := run perform (b, []) (label_of (config b) <$> es).

Definition calls (es : list event) : nat := tally (fun e => match e with Call _ => true | Move _ _ => false end) es.

Lemma started resets cfg (es : list event) p : (Call RForceReset ∈ es -> resets = true) -> Start p ∈ label_of cfg <$> es ->
  brackets rolof (fits resets) false p /\ within 12 p.
Proof.
  intros H I. apply list_elem_of_fmap in I as ([r|i t] & E & I); [|done]. cbn in E.
  assert (p = serve cfg r) as -> by congruence. split; [|apply serve_within]. apply serve_brackets. intros ->. by apply H.
Qed.

Lemma steps_calls cfg (es : list event) : (steps (label_of cfg <$> es) + calls es = length es)%nat /\ starts (label_of cfg <$> es) = calls es.
Proof.
  unfold steps, starts, calls. induction es as [|[r|i t] es [IH1 IH2]]; [done|..]; rewrite fmap_cons, !tally_cons; cbn; lia.
Qed.

Lemma new_disciplined resets id cfg t b : 0 < RateWindowSize cfg -> NewCircuitBreaker id cfg t = Some b ->
  config b = cfg /\ disciplined (A := reply) rolof locked sound (fits resets) (b, []) [].
Proof.
  intros W. unfold NewCircuitBreaker. rewrite (proj2 (Z.ltb_ge _ _)) by lia. intros [= <-]. split; [done|].
  rewrite initialize_replicate, length_replicate. constructor; [|constructor|done].
  unfold sound, len; cbn. rewrite length_replicate. lia.
Qed.

(** C13: Whatever calls run at once and however their atomic steps interleave,
    no call panics and the window and its index stay in bounds; every step
    moves the state along its diagram (closed to open, open to half open, half
    open to either; only a reset closes from open); while a call has not
    returned one of them can move, and each returns within twelve steps. *)
Theorem breaker_concurrent resets id cfg t b es :
  0 < RateWindowSize cfg -> NewCircuitBreaker id cfg t = Some b -> (Call RForceReset ∈ es -> resets = true) ->
  match run_events b es with
  | Panics => False
  | Waits => True
  | Moves s =>
    sound s.1 /\
    (forall i u s', step perform s (Step i u) = Moves s' -> legal resets (state s.1) (state s'.1)) /\
    (forall u, (exists p, p ∈ s.2 /\ finished p = false) -> exists i s', step perform s (Step i u) = Moves s') /\
    (length es <= 13 * calls es)%nat
  end.
Proof.
  intros W N C. destruct (new_disciplined resets id cfg t b W N) as [Cf D].
  pose proof (run_disciplined _ _ _ _ _ _ (breaker_mutex resets) _ _ (label_of cfg <$> es) D) as R.
  unfold run_events. rewrite Cf. destruct (run perform (b, []) _) as [s| |] eqn:E; [|done|].
  - destruct R as [hs D']; [intros p I; by eapply started|].
    split; [apply (dis_good _ _ _ _ _ _ D')|]. split; [|split].
    + intros i u s' St. pose proof (step_disciplined _ _ _ _ _ _ (breaker_mutex resets) s hs (Step i u) D') as P.
      rewrite St in P. apply P. done.
    + intros u U. by eapply disciplined_moves; [apply breaker_mutex| |].
    + pose proof (run_steps perform 12 0 (b, []) s (label_of cfg <$> es)) as Q. destruct (steps_calls cfg es) as [S1 S2].
      rewrite S2 in Q. specialize (Q (fun p I => proj2 (started resets cfg es p C I))).
      assert (left_within 0 (@nil (cprog reply))) as L by (exists []; by split). specialize (Q L E). lia.
  - apply R. intros p I. by eapply started.
Qed.

(** A failure and a call at once. *)
Definition at_once : list event := [Call (RRecord false); Call RAllow; Move 0 0; Move 1 0; Move 0 0].

Lemma breaker_concurrent_witness : exists b, NewCircuitBreaker "llm" DefaultCircuitBreakerConfig 0 = Some b /\
  match run_events b at_once with
  | Panics => False
  | Waits => True
  | Moves s =>
    sound s.1 /\
    (forall i u s', step perform s (Step i u) = Moves s' -> legal false (state s.1) (state s'.1)) /\
    (forall u, (exists p, p ∈ s.2 /\ finished p = false) -> exists i s', step perform s (Step i u) = Moves s') /\
    (length at_once <= 13 * calls at_once)%nat
  end.
Proof.
  eexists. split; [reflexivity|]. eapply (breaker_concurrent false "llm" DefaultCircuitBreakerConfig 0); [reflexivity..|].
  unfold at_once. intros I. set_unfold in I. naive_solver.
Defined.

(** The default breaker, closed for a minute, opens on the third failure; a
    call that reads the cells between the swap of the state and the store of
    its time is let through although the cooldown has only begun. *)
Definition minute_later : Z := 60 * Second.

Definition early : list event := [Call (RRecord false); Call RAllow] ++ replicate 7 (Move 0 minute_later) ++ replicate 7 (Move 1 minute_later).

Definition two_failures : outcome (breaker * list reply) :=
  match NewCircuitBreaker "llm" DefaultCircuitBreakerConfig 0 with
  | Some b => serve_all b [(RRecord false, minute_later, 0); (RRecord false, minute_later, 0)]
  | None => Waits
  end.

Theorem cooldown_bypassed :
  match two_failures with
  | Moves (b, _) =>
    match run_events b early with
    | Moves (b', ps) => ps !! 1%nat = Some (Ret (Allowed true)) /\ state b = CircuitClosed /\ state b' = CircuitHalfOpen
    | _ => False
    end
  | _ => False
  end.
Proof. vm_compute. repeat split. Qed.

(** A breaker with no window panics on its first result, although the failure
    rate has a case for it. *)
Theorem empty_window_panics id thr cd ok : exists b,
  NewCircuitBreaker id (mkConfig 3 thr 0 cd 3 true) 0 = Some b /\
  exec perform (RecordResult (config b) ok) [] b = Panics /\ calculateFailureRate (recentResults b) = f64_of_Z 0.
Proof. eexists. split; [reflexivity|]. by destruct ok. Qed.

End BreakerProof.
