(* ===== verification/CircuitRegistry.v ===== *)
(** * The registry of circuit breakers (core/errors/circuit_registry.go)

    One breaker per resource, made on first use with the defaults of the type
    of the resource.  Breakers are shared: the registry keeps pointers into a
    heap.  The lookup and the insertion of a new breaker are two atomic
    operations of a [sync.Map], so goroutines can meet between them. *)

From S2P Require Import Prelude Atomics CircuitBreaker BreakerProof.
Import Numbers Atomics CircuitBreaker.

Module CircuitRegistry.

Definition ResourceLLM : string := "llm".
Definition ResourceFile : string := "file".
Definition ResourceNetwork : string := "network".
Definition ResourceSubprocess : string := "subprocess".

Record CircuitRegistry := mkRegistry {
  heap : list breaker; breakers : gmap string nat; defaultConfigs : gmap string CircuitBreakerConfig }.

Definition initDefaultConfigs : gmap string CircuitBreakerConfig :=
  list_to_map [
    (ResourceLLM, mkConfig 5 (f64_const 5 10) 20 (30 * Second) 3 true);
    (ResourceFile, mkConfig 2 (f64_const 3 10) 10 (10 * Second) 3 true);
    (ResourceNetwork, mkConfig 3 (f64_const 5 10) 20 (30 * Second) 3 true);
    (ResourceSubprocess, mkConfig 3 (f64_const 4 10) 15 (20 * Second) 3 true)].

Definition NewCircuitRegistry : CircuitRegistry := mkRegistry [] ∅ initDefaultConfigs.

Definition hasPrefix (s prefix : string) : bool :=
  if (String.length s <? String.length prefix)%nat then false
  else String.eqb (String.substring 0 (String.length prefix) s) prefix.

Definition extractResourceType (resourceID : string) : string :=
  match List.find (hasPrefix resourceID) [ResourceLLM; ResourceFile; ResourceNetwork; ResourceSubprocess] with
  | Some prefix => prefix
  | None => ""
  end.

Definition resolveDefaultConfig (r : CircuitRegistry) (resourceID : string) : CircuitBreakerConfig :=
  match defaultConfigs r !! extractResourceType resourceID with
  | Some config => config
  | None => DefaultCircuitBreakerConfig
  end.

(** [breakers.LoadOrStore] with a new breaker: the one the map has. *)
Definition loadOrStore (r : CircuitRegistry) (resourceID : string) (newCB : breaker) : CircuitRegistry * nat :=
  let p := length (heap r) in
  match breakers r !! resourceID with
  | Some actual => (mkRegistry (heap r ++ [newCB]) (breakers r) (defaultConfigs r), actual)
  | None => (mkRegistry (heap r ++ [newCB]) (<[resourceID := p]> (breakers r)) (defaultConfigs r), p)
  end.

(** The second half of [Get] and [GetOrCreate]; [None] where making the
    breaker panics. *)
Definition create (r : CircuitRegistry) (resourceID : string) (config : CircuitBreakerConfig) (now : Z) :
    option (CircuitRegistry * nat) :=
  newCB ← NewCircuitBreaker resourceID config now;
  Some (loadOrStore r resourceID newCB).

Definition getOrCreate (r : CircuitRegistry) (resourceID : string) (now : Z) : option (CircuitRegistry * nat) :=
  create r resourceID (resolveDefaultConfig r resourceID) now.

Definition Get (r : CircuitRegistry) (resourceID : string) (now : Z) : option (CircuitRegistry * nat) :=
  match breakers r !! resourceID with
  | Some cb => Some (r, cb)
  | None => getOrCreate r resourceID now
  end.

Definition GetOrCreate (r : CircuitRegistry) (resourceID : string) (config : CircuitBreakerConfig) (now : Z) :
    option (CircuitRegistry * nat) :=
  match breakers r !! resourceID with
  | Some cb => Some (r, cb)
  | None => create r resourceID config now
  end.

Definition Remove (r : CircuitRegistry) (resourceID : string) : CircuitRegistry :=
  mkRegistry (heap r) (delete resourceID (breakers r)) (defaultConfigs r).

(** A call of a method on a breaker, with nobody else at it. *)
Definition invoke {A} (m : prog action A) (ts : list Z) (p : nat) (r : CircuitRegistry) : outcome (CircuitRegistry * A) :=
  match heap r !! p with
  | Some b =>
    match exec perform m ts b with
    | Moves (b, a) => Moves (mkRegistry (<[p := b]> (heap r)) (breakers r) (defaultConfigs r), a)
    | Waits => Waits
    | Panics => Panics
    end
  | None => Panics
  end.

Definition Reset_ (r : CircuitRegistry) (resourceID : string) (now : Z) : outcome CircuitRegistry :=
  match breakers r !! resourceID with
  | Some cb => match invoke ForceReset [now] cb r with Moves (r, _) => Moves r | Waits => Waits | Panics => Panics end
  | None => Moves r
  end.

(** The loop of [ResetAll], with a reading of the clock for each breaker. *)
Fixpoint resetLoop (r : CircuitRegistry) (ps : list nat) (now : nat -> Z) : outcome CircuitRegistry :=
  match ps with
  | [] => Moves r
  | p :: ps =>
    match invoke ForceReset [now p] p r with Moves (r, _) => resetLoop r ps now | Waits => Waits | Panics => Panics end
  end.

Section Range.
Context `{RangeOrder}.

Definition AllBreakers (r : CircuitRegistry) : list nat := (range_map 50 (breakers r)).*2.

Definition ResetAll (r : CircuitRegistry) (now : nat -> Z) : outcome CircuitRegistry :=
  resetLoop r (AllBreakers r) now.

Definition Count (r : CircuitRegistry) : Z := len (range_map 51 (breakers r)).

Definition isOpen (r : CircuitRegistry) (p : nat) : bool :=
  match heap r !! p with Some b => state b =? CircuitOpen | None => false end.

Definition OpenBreakers (r : CircuitRegistry) : list nat :=
  filter (fun p => isOpen r p = true) (AllBreakers r).

Definition DefaultConfigs (r : CircuitRegistry) : gmap string CircuitBreakerConfig :=
  range_copy 52 (defaultConfigs r).
End Range.

(* ------------------------------------------------------------------ *)
(** ** The defaults *)

(** The threshold of the failure rate of a resource, in tenths. *)
Definition tenths (resourceID : string) : Z :=
  let t := extractResourceType resourceID in
  if String.eqb t ResourceFile then 3 else if String.eqb t ResourceSubprocess then 4 else 5.

Lemma resource_types id : extractResourceType id ∈ ["llm"; "file"; "network"; "subprocess"; ""].
Proof.
  unfold extractResourceType. destruct (List.find _ _) as [p|] eqn:E; [|set_solver].
  apply List.find_some in E as [I _]. cbn in I. set_solver.
Qed.

(** The comparison of floating-point numbers is exact on the counts that a
    window of the defaults can have. *)
Definition exact_up_to (cfg : CircuitBreakerConfig) (p : Z) : bool :=
  forallb (fun n =>
    Bool.eqb (f64_leb (FailureRateThreshold cfg) (f64_div (f64_of_Z (Z.of_nat n)) (f64_of_Z (RateWindowSize cfg))))
      (p * RateWindowSize cfg <=? 10 * Z.of_nat n)) (seq 0 (S (Z.to_nat (RateWindowSize cfg)))).

Lemma exact_up_to_rate cfg p w : exact_up_to cfg p = true -> 0 < RateWindowSize cfg -> len w = RateWindowSize cfg ->
  f64_leb (FailureRateThreshold cfg) (calculateFailureRate w) = (p * len w <=? 10 * Z.of_nat (tally negb w)).
Proof.
  intros E W L. unfold exact_up_to in E. rewrite forallb_forall in E. unfold calculateFailureRate.
  rewrite (proj2 (Z.eqb_neq (len w) 0)) by lia. rewrite L. apply eqb_prop, E. apply in_seq.
  assert (tally negb w <= length w)%nat; [|unfold len in L; lia].
  unfold tally. apply length_filter.
Qed.

Lemma default_configs id : let cfg := resolveDefaultConfig NewCircuitRegistry id in
  exact_up_to cfg (tenths id) = true /\ 0 < RateWindowSize cfg.
Proof.
  unfold resolveDefaultConfig, tenths. pose proof (resource_types id) as I. set_unfold in I.
  destruct I as [E|[E|[E|[E|[E|[]]]]]]; rewrite E; vm_compute; done.
Qed.

(** A breaker made with the defaults of its resource trips exactly when
    the configured failures in a row are reached or the failures in the window
    reach the threshold (5/10, 3/10 for files, 4/10 for subprocesses) of its
    size, without error of rounding. *)
Theorem defaults_exact id w failures :
  let cfg := resolveDefaultConfig NewCircuitRegistry id in
  len w = RateWindowSize cfg ->
  shouldTrip cfg failures (calculateFailureRate w) =
    (ConsecutiveFailures cfg <=? failures) || (tenths id * len w <=? 10 * Z.of_nat (tally negb w)).
Proof.
  intros cfg L. destruct (default_configs id) as [E W]. fold cfg in E, W. unfold shouldTrip.
  rewrite (exact_up_to_rate cfg _ w E W L). by destruct (ConsecutiveFailures _ <=? _).
Qed.

(** Three failures among ten results, with successes between them. *)
Lemma defaults_exact_witness :
  let w := [false; true; false; true; false; true; true; true; true; true] in
  len w = 10 /\ shouldTrip (resolveDefaultConfig NewCircuitRegistry "file:/tmp/x") 1 (calculateFailureRate w) = true /\
  shouldTrip (resolveDefaultConfig NewCircuitRegistry "file:/tmp/x") 1 (calculateFailureRate w) =
    (2 <=? 1) || (3 * len w <=? 10 * Z.of_nat (tally negb w)).
Proof. split; [reflexivity|]. split; [vm_compute; reflexivity|]. apply (defaults_exact "file:/tmp/x"). reflexivity. Defined.

(* ------------------------------------------------------------------ *)
(** ** One breaker per resource *)

(** Goroutines in [Get] and [GetOrCreate], between the lookup and the
    insertion: the resource and the configuration each is to use. *)
Record clients := mkClients { reg : CircuitRegistry; pending : gmap nat (string * CircuitBreakerConfig); got : list (string * nat) }.

Inductive event :=
| ELookup (g : nat) (id : string) (cfg : option CircuitBreakerConfig)
| EInsert (g : nat) (now : Z)
| EMethod (A : Type) (m : prog action A) (ts : list Z) (p : nat).

Definition happens (s : clients) (e : event) : outcome clients :=
  match e with
  | ELookup g id cfg =>
    match breakers (reg s) !! id with
    | Some cb => Moves (mkClients (reg s) (pending s) (got s ++ [(id, cb)]))
    | None => Moves (mkClients (reg s) (<[g := (id, default (resolveDefaultConfig (reg s) id) cfg)]> (pending s)) (got s))
    end
  | EInsert g now =>
    match pending s !! g with
    | Some (id, cfg) =>
      match create (reg s) id cfg now with
      | Some (r, cb) => Moves (mkClients r (delete g (pending s)) (got s ++ [(id, cb)]))
      | None => Panics
      end
    | None => Waits
    end
  | EMethod _ m ts p => match invoke m ts p (reg s) with Moves (r, _) => Moves (mkClients r (pending s) (got s)) | Waits => Waits | Panics => Panics end
  end.

Fixpoint happen (s : clients) (es : list event) : outcome clients :=
  match es with
  | [] => Moves s
  | e :: es => match happens s e with Moves s => happen s es | Waits => Waits | Panics => Panics end
  end.

Definition given (s : clients) : Prop :=
  (forall id cb, (id, cb) ∈ got s -> breakers (reg s) !! id = Some cb) /\
  (forall id cb, breakers (reg s) !! id = Some cb -> exists b, heap (reg s) !! cb = Some b /\ resourceID b = id).

Lemma perform_id R (a : action R) b b' r : perform R a b = Moves (b', r) -> resourceID b' = resourceID b.
Proof.
  destruct a as [c|c v|c n|c o n| | |R f]; cbn; intros E.
  - by injection E as <- <-.
  - injection E as <- <-. by destruct b, c.
  - injection E as <- <-. by destruct b, c.
  - destruct (_ =? _); injection E as <- <-; [by destruct b, c|done].
  - destruct (locked b); [done|]. by injection E as <- <-.
  - destruct (locked b); [|done]. by injection E as <- <-.
  - destruct (f _ _) as [[[w i] x]|]; [|done]. by injection E as <- <-.
Qed.

Lemma exec_id {A} (p : prog action A) ts b b' a : exec perform p ts b = Moves (b', a) -> resourceID b' = resourceID b.
Proof.
  revert ts b. induction p as [a0|k IH|R x k IH]; intros ts b; cbn [exec].
  - by intros [= <- <-].
  - destruct ts as [|t ts]; [done|]. apply IH.
  - destruct (perform R x b) as [[b1 r]| |] eqn:E; [|done|done]. intros H. rewrite (IH _ _ _ H). by eapply perform_id.
Qed.

Lemma happens_given s e s' : given s -> happens s e = Moves s' -> given s'.
Proof.
  intros [G1 G2]. destruct e as [g id cfg|g now|A m ts p]; cbn [happens].
  - destruct (breakers (reg s) !! id) as [cb|] eqn:B; intros [= <-]; split; cbn [reg got]; try done.
    intros id' cb' [I|I%list_elem_of_singleton]%elem_of_app; [by apply G1|by simplify_eq].
  - destruct (pending s !! g) as [[id cfg]|]; [|done]. unfold create. destruct (NewCircuitBreaker id cfg now) as [b|] eqn:N; [|done].
    assert (Nid : resourceID b = id) by (unfold NewCircuitBreaker in N; destruct (_ <? 0); [done|by injection N as <-]).
    assert (K : forall p b0, heap (reg s) !! p = Some b0 -> (heap (reg s) ++ [b]) !! p = Some b0)
      by (intros; by apply lookup_app_l_Some).
    cbn. unfold loadOrStore. destruct (breakers (reg s) !! id) as [cb|] eqn:B; intros [= <-]; split; cbn [reg got heap breakers].
    + intros id' cb' [I|I%list_elem_of_singleton]%elem_of_app; [by apply G1|by simplify_eq].
    + intros id' cb' L. destruct (G2 _ _ L) as (b0 & L0 & E). by exists b0; split; [apply K|].
    + intros id' cb' [I|I%list_elem_of_singleton]%elem_of_app; [|simplify_eq; by rewrite lookup_insert_eq].
      specialize (G1 _ _ I). rewrite lookup_insert_ne; [done|congruence].
    + intros id' cb'. destruct (decide (id' = id)) as [->|Ne].
      * rewrite lookup_insert_eq. intros [= <-]. exists b. by rewrite list_lookup_middle.
      * rewrite lookup_insert_ne by done. intros L. destruct (G2 _ _ L) as (b0 & L0 & E). by exists b0; split; [apply K|].
  - unfold invoke. destruct (heap (reg s) !! p) as [b|] eqn:L; [|done].
    destruct (exec perform m ts b) as [[b' a]| |] eqn:E; intros [= <-]. split; cbn [reg got heap breakers]; [done|].
    intros id cb B. destruct (G2 _ _ B) as (b0 & L0 & E0). destruct (decide (cb = p)) as [->|Ne].
    + exists b'. rewrite list_lookup_insert_eq by (by eapply lookup_lt_Some). split; [done|]. rewrite (exec_id _ _ _ _ _ E). congruence.
    + exists b0. by rewrite list_lookup_insert_ne.
Qed.

(** However the lookups and insertions of goroutines that ask for breakers
    interleave with each other and with the use of the breakers, all that ask
    for a resource get the same breaker, and those that ask for different
    resources get different ones, as long as none is removed. *)
Theorem one_breaker es s id id' p q :
  happen (mkClients NewCircuitRegistry ∅ []) es = Moves s -> (id, p) ∈ got s -> (id', q) ∈ got s ->
  (p = q <-> id = id') /\ exists b, heap (reg s) !! p = Some b /\ resourceID b = id.
Proof.
  intros R Ip Iq. assert (given s) as [G1 G2].
  { assert (given (mkClients NewCircuitRegistry ∅ [])) as G by (split; intros ?? I; set_solver).
    revert R G. generalize (mkClients NewCircuitRegistry ∅ []). induction es as [|e es IH]; intros s0; cbn [happen].
    - by intros [= ->].
    - destruct (happens s0 e) as [s1| |] eqn:E; [|done|done]. intros R G. by eapply IH; [|eapply happens_given]. }
  pose proof (G1 _ _ Ip) as Bp. pose proof (G1 _ _ Iq) as Bq.
  destruct (G2 _ _ Bp) as (b & Lb & Eb). destruct (G2 _ _ Bq) as (c & Lc & Ec).
  split; [|by exists b]. split; intros ->; congruence.
Qed.

(** Two goroutines find no breaker; both make one, and both get the first. *)
Definition two_gets : list event := [ELookup 1 "llm:x" None; ELookup 2 "llm:x" None; EInsert 2 5; EInsert 1 6].

Lemma one_breaker_witness : exists s, happen (mkClients NewCircuitRegistry ∅ []) two_gets = Moves s /\ length (heap (reg s)) = 2%nat /\
  got s = [("llm:x", 0%nat); ("llm:x", 0%nat)] /\
  ((0%nat = 0%nat <-> "llm:x" = "llm:x") /\ exists b, heap (reg s) !! 0%nat = Some b /\ resourceID b = "llm:x").
Proof.
  eexists. split; [reflexivity|]. split; [reflexivity|]. split; [reflexivity|].
  eapply (one_breaker two_gets); [reflexivity|left|left].
Defined.

End CircuitRegistry.
