(* ===== verification/WalRecord.v ===== *)
(** * The entries of the write-ahead log (core/concurrency/wal_entry.go)

    An entry is a header of sequence number, time, type and length, then the
    payload and a checksum. *)

From S2P Require Import Prelude GoStd.

Module WalRecord.

Definition EntryCheckpoint : byte := x00.
Definition EntryStateChange : byte := x01.
Definition EntryLLMRequest : byte := x02.
Definition EntryLLMResponse : byte := x03.
Definition EntryFileChange : byte := x04.
Definition EntryWeightObservation : byte := x05.
Definition EntryGPObservation : byte := x06.
Definition EntryThresholdFeedback : byte := x07.
Definition EntryDecayFeedback : byte := x08.

Definition entryTypeNames : list (byte * string) := [
  (EntryCheckpoint, "checkpoint"); (EntryStateChange, "state_change"); (EntryLLMRequest, "llm_request");
  (EntryLLMResponse, "llm_response"); (EntryFileChange, "file_change"); (EntryWeightObservation, "weight_observation");
  (EntryGPObservation, "gp_observation"); (EntryThresholdFeedback, "threshold_feedback"); (EntryDecayFeedback, "decay_feedback")].

Definition EntryType_String (e : byte) : string :=
  match List.find (fun p => Byte.eqb p.1 e) entryTypeNames with Some p => p.2 | None => "unknown" end.

(** [Timestamp]: nanoseconds since 1970. *)
Record WALEntry := mkEntry { Sequence : Z; Timestamp : Z; Type_ : byte; Payload : bytes }.

Definition sequenceSize : nat := 8.
Definition timestampSize : nat := 8.
Definition typeSize : nat := 1.
Definition payloadLenSize : nat := 4.
Definition entryHeaderSize : nat := sequenceSize + timestampSize + typeSize + payloadLenSize.
Definition crcSize : nat := 4.

Inductive entry_error := ErrCorruptedEntry | ErrInvalidCRC | ErrShortRead.

(** The buffer up to the checksum. *)
Definition encodeBody (e : WALEntry) : bytes :=
  putU64 (Sequence e) ++ putU64 (UnixNano (Timestamp e)) ++ [Type_ e] ++ putU32 (len (Payload e)) ++ Payload e.

Definition Encode (e : WALEntry) : bytes :=
  let buf := encodeBody e in buf ++ putU32 (Crc32.checksum_ieee buf).

(** The payload length in a header. *)
Definition payloadLen (data : bytes) : nat := Z.to_nat (be_decode (slice data (entryHeaderSize - payloadLenSize) entryHeaderSize)).

Definition DecodeWALEntry (data : bytes) : result entry_error WALEntry :=
  if (length data <? entryHeaderSize + crcSize)%nat then Err ErrShortRead
  else
    let n := payloadLen data in
    let totalLen := (entryHeaderSize + n + crcSize)%nat in
    if (length data <? totalLen)%nat then Err ErrShortRead
    else
      let dataWithoutCRC := take (entryHeaderSize + n) data in
      let storedCRC := be_decode (slice data (entryHeaderSize + n) (entryHeaderSize + n + 4)) in
      let computedCRC := Crc32.checksum_ieee dataWithoutCRC in
      if storedCRC =? computedCRC then
        Ok (mkEntry (be_decode (slice data 0 8)) (i64 (be_decode (slice data 8 16))) (nth 16 data x00)
              (slice data entryHeaderSize (entryHeaderSize + n)))
      else Err ErrInvalidCRC.

Definition EntrySize (payloadLen : nat) : nat := entryHeaderSize + payloadLen + crcSize.

Definition ReadEntrySize (header : bytes) : result entry_error nat :=
  if (length header <? entryHeaderSize)%nat then Err ErrShortRead else Ok (EntrySize (payloadLen header)).

(* ------------------------------------------------------------------ *)
(** ** Encoding and decoding *)

(** What of an entry is written. *)
Definition stamped (e : WALEntry) : WALEntry := mkEntry (u64 (Sequence e)) (UnixNano (Timestamp e)) (Type_ e) (Payload e).

Definition fits (e : WALEntry) : Prop := len (Payload e) < two32.

(** A header and what follows it. *)
Definition header (e : WALEntry) : bytes :=
  putU64 (Sequence e) ++ putU64 (UnixNano (Timestamp e)) ++ [Type_ e] ++ putU32 (len (Payload e)).

Lemma length_header e : length (header e) = entryHeaderSize.
Proof. unfold header. by rewrite !length_app, !length_putU64, length_putU32. Qed.

Lemma encode_header e : Encode e = header e ++ Payload e ++ putU32 (Crc32.checksum_ieee (encodeBody e)).
Proof. unfold Encode, encodeBody, header. by rewrite <- !app_assoc. Qed.

Lemma length_encode e : length (Encode e) = EntrySize (length (Payload e)).
Proof.
  rewrite encode_header, !length_app, length_header, length_putU32. unfold EntrySize, crcSize. lia.
Qed.

Lemma slice_mid a b c i j : i = length a -> j = (i + length b)%nat -> slice (a ++ b ++ c) i j = b.
Proof. intros -> ->. rewrite slice_app_r by done. rewrite Nat.add_comm, Nat.add_sub. by rewrite take_app_length. Qed.

Lemma payloadLen_header e rest : fits e -> payloadLen (header e ++ rest) = length (Payload e).
Proof.
  intros F. unfold payloadLen, header. rewrite !app_assoc, <- app_assoc.
  rewrite slice_mid by (by rewrite ?length_app, ?length_putU64, ?length_putU32).
  rewrite putU32_decode by (by apply len_u32). unfold len. lia.
Qed.

Lemma encode_body e : Encode e = encodeBody e ++ putU32 (Crc32.checksum_ieee (encodeBody e)) ++ [].
Proof. unfold Encode. by rewrite app_nil_r. Qed.

Lemma length_body e : length (encodeBody e) = (entryHeaderSize + length (Payload e))%nat.
Proof. unfold encodeBody. by rewrite !length_app, !length_putU64, length_putU32. Qed.

(** An entry is read back as it was written. *)
Lemma record_decode_encode e : fits e -> DecodeWALEntry (Encode e) = Ok (stamped e).
Proof.
  intros F. unfold DecodeWALEntry. cbn zeta. rewrite length_encode. unfold EntrySize.
  rewrite (proj2 (Nat.ltb_ge _ _)) by lia.
  assert (P : payloadLen (Encode e) = length (Payload e)) by (rewrite encode_header; by apply payloadLen_header).
  rewrite P, Nat.ltb_irrefl, <- length_body.
  assert (T : take (length (encodeBody e)) (Encode e) = encodeBody e) by (rewrite encode_body; apply take_app_length).
  assert (C : slice (Encode e) (length (encodeBody e)) (length (encodeBody e) + 4) = putU32 (Crc32.checksum_ieee (encodeBody e)))
    by (rewrite encode_body; by rewrite slice_mid by (by rewrite ?length_putU32)).
  rewrite T, C, putU32_decode by apply Crc32.checksum_range. rewrite Z.eqb_refl. unfold stamped. f_equal.
  assert (E : Encode e = [] ++ putU64 (Sequence e) ++ putU64 (UnixNano (Timestamp e)) ++ [Type_ e] ++ (putU32 (len (Payload e)) ++ Payload e ++ putU32 (Crc32.checksum_ieee (encodeBody e))))
    by (by rewrite encode_header; unfold header; rewrite <- !app_assoc).
  f_equal.
  - rewrite E, slice_mid by (by rewrite ?length_putU64). unfold putU64. rewrite be_decode_u64. apply u64_id, u64_range.
  - rewrite E, app_assoc, slice_mid by (by rewrite ?length_app, ?length_putU64). apply putU64_decode, i64_range.
  - rewrite encode_header. by rewrite slice_mid; rewrite ?length_header, ?length_body.
Qed.

(* ------------------------------------------------------------------ *)
(** ** Reading the entries of a file *)

(** What [readEntryData] of wal.go finds at a position: nothing that is
    whole, or the bytes of an entry and the position after it. *)
Definition readEntryData (f : bytes) : option (bytes * bytes) :=
  if (length f <? entryHeaderSize)%nat then None
  else
    match ReadEntrySize (take entryHeaderSize f) with
    | Err _ => None
    | Ok totalSize => if (length f <? totalSize)%nat then None else Some (take totalSize f, drop totalSize f)
    end.

(** The loop of [readEntriesFromReader]; an entry that cannot be decoded is
    passed over.  [None]: the fuel has run out. *)
Fixpoint readLoop (fuel : nat) (f : bytes) : option (list WALEntry) :=
  match fuel with
  | O => None
  | S fuel =>
    match readEntryData f with
    | None => Some []
    | Some (data, f) =>
      es ← readLoop fuel f;
      Some (match DecodeWALEntry data with Ok e => e :: es | Err _ => es end)
    end
  end.

Definition readEntriesFromReader (f : bytes) : list WALEntry := default [] (readLoop (S (length f)) f).

Lemma readEntryData_shorter f d g : readEntryData f = Some (d, g) -> f = d ++ g /\ (entryHeaderSize <= length d)%nat.
Proof.
  unfold readEntryData. destruct (Nat.ltb_spec (length f) entryHeaderSize); [done|]. unfold ReadEntrySize.
  rewrite length_take_le by done. rewrite Nat.ltb_irrefl. destruct (Nat.ltb_spec (length f) (EntrySize (payloadLen (take entryHeaderSize f)))); [done|].
  intros [= <- <-]. rewrite take_drop. split; [done|]. rewrite length_take_le by done. unfold EntrySize. lia.
Qed.

Lemma readLoop_fuel n f : (length f < n)%nat -> is_Some (readLoop n f).
Proof.
  revert f. induction n as [|n IH]; intros f L; [lia|]. cbn [readLoop].
  destruct (readEntryData f) as [[d g]|] eqn:E; [|by eexists]. apply readEntryData_shorter in E as [-> H].
  rewrite length_app in L. unfold entryHeaderSize, sequenceSize in H. cbn in H. destruct (IH g) as [es ->]; [lia|]. by eexists.
Qed.

Lemma readLoop_more n m f es : readLoop n f = Some es -> (n <= m)%nat -> readLoop m f = Some es.
Proof.
  revert m f es. induction n as [|n IH]; intros [|m] f es R L; try done; [lia|]. cbn [readLoop] in *.
  destruct (readEntryData f) as [[d g]|]; [|done]. destruct (readLoop n g) as [es'|] eqn:E; [|done].
  rewrite (IH m g es' E ltac:(lia)). done.
Qed.

Lemma read_step f d g : readEntryData f = Some (d, g) ->
  readEntriesFromReader f = match DecodeWALEntry d with Ok e => e :: readEntriesFromReader g | Err _ => readEntriesFromReader g end.
Proof.
  intros E. pose proof (readEntryData_shorter _ _ _ E) as [-> H].
  destruct (readLoop_fuel (S (length g)) g ltac:(lia)) as [es Es].
  assert (readEntriesFromReader g = es) as -> by (unfold readEntriesFromReader; by rewrite Es).
  unfold readEntriesFromReader. cbn [readLoop]. rewrite E, (readLoop_more _ (length (d ++ g)) _ _ Es); [by destruct (DecodeWALEntry d)|].
  rewrite length_app. unfold entryHeaderSize, sequenceSize in H. cbn in H. lia.
Qed.

Lemma readEntryData_whole d rest n : (entryHeaderSize <= length d)%nat -> payloadLen d = n -> length d = EntrySize n ->
  readEntryData (d ++ rest) = Some (d, rest).
Proof.
  intros H P L. unfold readEntryData, ReadEntrySize. rewrite length_app.
  rewrite (proj2 (Nat.ltb_ge _ _)) by lia. rewrite length_take_le by (rewrite length_app; lia). rewrite Nat.ltb_irrefl.
  assert (payloadLen (take entryHeaderSize (d ++ rest)) = n) as ->.
  { rewrite <- P. unfold payloadLen, slice. rewrite take_app_le by done. f_equal. f_equal.
    rewrite skipn_firstn_comm, take_take. reflexivity. }
  rewrite <- L. rewrite (proj2 (Nat.ltb_ge _ _)) by lia. by rewrite take_app_length, drop_app_length.
Qed.

Lemma read_encode e rest : fits e -> readEntriesFromReader (Encode e ++ rest) = stamped e :: readEntriesFromReader rest.
Proof.
  intros F. rewrite (read_step _ (Encode e) rest); [by rewrite record_decode_encode|].
  apply (readEntryData_whole _ _ (length (Payload e))).
  - rewrite length_encode. unfold EntrySize. lia.
  - rewrite encode_header. by apply payloadLen_header.
  - apply length_encode.
Qed.

(** A file that ends within an entry ends with the entry before. *)
Lemma read_torn e p : fits e -> p `prefix_of` Encode e -> p <> Encode e -> readEntriesFromReader p = [].
Proof.
  intros F [q E] N. assert (length p < length (Encode e))%nat as L.
  { rewrite E, length_app. destruct q; [by rewrite app_nil_r in E|cbn; lia]. }
  unfold readEntriesFromReader. cbn [readLoop]. enough (readEntryData p = None) as -> by done.
  unfold readEntryData. destruct (Nat.ltb_spec (length p) entryHeaderSize); [done|]. unfold ReadEntrySize.
  rewrite length_take_le by done. rewrite Nat.ltb_irrefl.
  assert (take entryHeaderSize p = header e) as ->.
  { rewrite <- (take_app_le p q) by done. rewrite <- E, encode_header, <- (length_header e). apply take_app_length. }
  rewrite <- (app_nil_r (header e)), payloadLen_header by done. rewrite length_encode in L.
  by rewrite (proj2 (Nat.ltb_lt _ _)).
Qed.

Lemma read_all es rest : Forall fits es ->
  readEntriesFromReader ((es ≫= Encode) ++ rest) = (stamped <$> es) ++ readEntriesFromReader rest.
Proof.
  induction 1 as [|e es F _ IH]; [done|].
  change ((e :: es) ≫= Encode) with (Encode e ++ (es ≫= Encode)). rewrite <- app_assoc, read_encode by done. by rewrite IH.
Qed.

(** An entry damaged after its header costs itself only. *)
Lemma read_damaged e d rest : fits e -> length d = length (Encode e) -> take entryHeaderSize d = header e ->
  (exists err, DecodeWALEntry d = Err err) -> readEntriesFromReader (d ++ rest) = readEntriesFromReader rest.
Proof.
  intros F L H [err D]. rewrite (read_step _ d rest); [by rewrite D|]. rewrite length_encode in L.
  apply (readEntryData_whole _ _ (length (Payload e))); [rewrite L; unfold EntrySize; lia| |done].
  rewrite <- (take_drop entryHeaderSize d), H. by apply payloadLen_header.
Qed.

(** C4: a file of entries, of which the last is cut short and another one is
    damaged behind its header, so that its length field still tells where the
    next one begins and its decoding fails, is read as the entries as they
    were written but those two. *)
Theorem damage_contained es e d fs e' p : Forall fits es -> fits e -> Forall fits fs -> fits e' ->
  length d = length (Encode e) -> take entryHeaderSize d = header e -> (exists err, DecodeWALEntry d = Err err) ->
  p `prefix_of` Encode e' -> p <> Encode e' ->
  readEntriesFromReader ((es ≫= Encode) ++ d ++ (fs ≫= Encode) ++ p) = (stamped <$> es) ++ (stamped <$> fs).
Proof.
  intros Fes Fe Ffs Fe' L H D P N. rewrite read_all by done. f_equal. rewrite (read_damaged e) by done.
  by rewrite read_all, (read_torn e' p), app_nil_r.
Qed.

(** Two entries around one of which the payload was changed, and three bytes
    of a fourth. *)
Lemma damage_contained_witness :
  let a := mkEntry 1 5 EntryStateChange [x41] in
  let b := mkEntry 2 6 EntryFileChange [x42] in
  let c := mkEntry 3 7 EntryFileChange [x43] in
  readEntriesFromReader (([a] ≫= Encode) ++ <[21%nat := x00]> (Encode b) ++ ([c] ≫= Encode) ++ [x00; x00; x00]) = (stamped <$> [a]) ++ (stamped <$> [c]).
Proof.
  intros a b c. apply (damage_contained [a] b _ [c] a); try done; try (repeat constructor; reflexivity); try (vm_compute; congruence).
  - by exists ErrInvalidCRC; vm_compute.
  - by exists (drop 3 (Encode a)); vm_compute.
Defined.

End WalRecord.
