(* ===== verification/WriteAheadLog.v ===== *)
(** * The write-ahead log of a session (core/concurrency/wal.go)

    Entries are appended to numbered segment files through a buffered writer
    and made durable by [fsync], on every append, after an interval, or in the
    background.  The disk is part of the state: of each file its bytes and how
    many of them are durable.  System calls take their outcomes from a list,
    so any of them can fail; the list exhausted, they succeed.  A segment that
    can be opened and not be read to its end gives the entries before the
    failure, and no error. *)

From S2P Require Import Prelude GoStd WalRecord Semantic.
From Stdlib Require Import DecimalString.
Import WalRecord Semantic.

Module WriteAheadLog.

Inductive wal_error := ErrWALClosed | ErrIO.

Definition SyncEveryWrite : Z := 0.
Definition SyncBatched : Z := 1.
Definition SyncPeriodic : Z := 2.

Record WALConfig := mkConfig { MaxSegmentSize : Z; SyncMode : Z; SyncInterval : Z }.

Definition DefaultWALConfig : WALConfig := mkConfig (64 * 1024 * 1024) SyncBatched (100 * 1000000).

(** [durable]: how many bytes survive a power failure for certain. *)
Record file := mkFile { content : bytes; durable : nat }.

(** The files of the directory of the log, by name. *)
Abbreviation disk := (gmap string file).

(** [currentFile]: the file that is open, none when it was closed.  [buffer]
    and [failed]: the [bufio.Writer], of which the first error stays. *)
Record WriteAheadLog := mkWAL {
  config : WALConfig; dir : disk; currentFile : option string; buffer : bytes; failed : bool; sequence : Z; segmentSeq : Z;
  segmentSize : Z; closed : bool; pendingSync : bool; lastSyncTime : Z }.

(* ------------------------------------------------------------------ *)
(** ** System calls *)

(** A call succeeds, or fails after [n] bytes.  The open and the reads of a
    segment have one outcome: [Fails]: it cannot be opened; [Cut]: a read fails
    after [n] bytes. *)
Inductive outcome := Fine | Fails (n : nat) | Cut (n : nat).

Definition state : Type := (WriteAheadLog * list outcome)%type.
Definition io (A : Type) : Type := state -> result wal_error A * state.

#[export] Instance io_ret : MRet io := fun A a s => (Ok a, s).
#[export] Instance io_bind : MBind io := fun A B k m s =>
  match m s with
  | (Ok a, s) => k a s
  | (Err e, s) => (Err e, s)
  end.

Definition fail {A} (e : wal_error) : io A := fun s => (Err e, s).
Definition get {A} (f : WriteAheadLog -> A) : io A := fun s => (Ok (f s.1), s).
Definition modify (f : WriteAheadLog -> WriteAheadLog) : io unit := fun s => (Ok tt, (f s.1, s.2)).
(** The error of a call as a value. *)
Definition attempt {A} (m : io A) : io (option wal_error) := fun s =>
  match m s with (Ok _, s) => (Ok None, s) | (Err e, s) => (Ok (Some e), s) end.
Definition next_outcome : io outcome := fun s =>
  match s.2 with o :: os => (Ok o, (s.1, os)) | [] => (Ok Fine, s) end.

Definition set_dir (d : disk) (w : WriteAheadLog) : WriteAheadLog :=
  mkWAL (config w) d (currentFile w) (buffer w) (failed w) (sequence w) (segmentSeq w) (segmentSize w) (closed w) (pendingSync w) (lastSyncTime w).
Definition set_file (f : option string) (w : WriteAheadLog) : WriteAheadLog :=
  mkWAL (config w) (dir w) f (buffer w) (failed w) (sequence w) (segmentSeq w) (segmentSize w) (closed w) (pendingSync w) (lastSyncTime w).
Definition set_writer (b : bytes) (e : bool) (w : WriteAheadLog) : WriteAheadLog :=
  mkWAL (config w) (dir w) (currentFile w) b e (sequence w) (segmentSeq w) (segmentSize w) (closed w) (pendingSync w) (lastSyncTime w).
Definition set_sequence (n : Z) (w : WriteAheadLog) : WriteAheadLog :=
  mkWAL (config w) (dir w) (currentFile w) (buffer w) (failed w) n (segmentSeq w) (segmentSize w) (closed w) (pendingSync w) (lastSyncTime w).
Definition set_segment (n size : Z) (w : WriteAheadLog) : WriteAheadLog :=
  mkWAL (config w) (dir w) (currentFile w) (buffer w) (failed w) (sequence w) n size (closed w) (pendingSync w) (lastSyncTime w).
Definition set_closed (w : WriteAheadLog) : WriteAheadLog :=
  mkWAL (config w) (dir w) (currentFile w) (buffer w) (failed w) (sequence w) (segmentSeq w) (segmentSize w) true (pendingSync w) (lastSyncTime w).
Definition set_pending (p : bool) (w : WriteAheadLog) : WriteAheadLog :=
  mkWAL (config w) (dir w) (currentFile w) (buffer w) (failed w) (sequence w) (segmentSeq w) (segmentSize w) (closed w) p (lastSyncTime w).
Definition set_time (t : Z) (w : WriteAheadLog) : WriteAheadLog :=
  mkWAL (config w) (dir w) (currentFile w) (buffer w) (failed w) (sequence w) (segmentSeq w) (segmentSize w) (closed w) (pendingSync w) t.

Definition append_to (p : bytes) (f : file) : file := mkFile (content f ++ p) (durable f).
Definition make_durable (f : file) : file := mkFile (content f) (length (content f)).

(** [currentFile.Write]: the bytes written; [Ok] when all were. *)
Definition file_Write (p : bytes) : io (result nat unit) :=
  f ← get currentFile;
  match f with
  | None => mret (Err O)
  | Some name =>
    o ← next_outcome;
    match o with
    | Fine => _ ← modify (fun w => set_dir (alter (append_to p) name (dir w)) w); mret (Ok tt)
    | Fails n | Cut n => _ ← modify (fun w => set_dir (alter (append_to (take n p)) name (dir w)) w); mret (Err n)
    end
  end.

(** [currentFile.Sync] *)
Definition file_Sync : io unit :=
  f ← get currentFile;
  match f with
  | None => fail ErrIO
  | Some name =>
    o ← next_outcome;
    match o with
    | Fine => modify (fun w => set_dir (alter make_durable name (dir w)) w)
    | _ => fail ErrIO
    end
  end.

(** [currentFile.Close]: the file is closed also when this reports an error. *)
Definition file_Close : io unit :=
  f ← get currentFile;
  match f with
  | None => fail ErrIO
  | Some _ =>
    o ← next_outcome;
    _ ← modify (set_file None);
    match o with Fine => mret tt | _ => fail ErrIO end
  end.

(* ------------------------------------------------------------------ *)
(** ** The buffered writer *)

Definition bufferSize : nat := Z.to_nat (64 * 1024).

(** [writer.Flush] *)
Definition writer_Flush : io unit :=
  e ← get failed;
  b ← get buffer;
  if e : bool then fail ErrIO
  else match b with
    | [] => mret tt
    | _ =>
      r ← file_Write b;
      match r with
      | Ok _ => modify (set_writer [] false)
      | Err n => _ ← modify (set_writer (drop n b) true); fail ErrIO
      end
    end.

(** A write as large as the buffer goes past it. *)
Definition write_through (p : bytes) : io unit :=
  r ← file_Write p;
  match r with
  | Ok _ => mret tt
  | Err _ => _ ← modify (fun w => set_writer (buffer w) true w); fail ErrIO
  end.

(** [writer.Write]; after the buffer was flushed once it is empty. *)
Definition writer_Write (p : bytes) : io unit :=
  e ← get failed;
  b ← get buffer;
  let available := (bufferSize - length b)%nat in
  if e : bool then fail ErrIO
  else if (length p <=? available)%nat then modify (set_writer (b ++ p) false)
  else match b with
    | [] => write_through p
    | _ =>
      _ ← modify (set_writer (b ++ take available p) false);
      _ ← writer_Flush;
      let rest := drop available p in
      if (length rest <=? bufferSize)%nat then modify (set_writer rest false) else write_through rest
    end.

(* ------------------------------------------------------------------ *)
(** ** Segments *)

(** [strconv.ParseUint(s, 10, 64)] *)
Definition ParseUint64 (s : string) : option Z :=
  match NilZero.uint_of_string s with
  | Some d => let n := Z.of_N (N.of_uint d) in if n <? two64 then Some n else None
  | None => None
  end.

Definition isValidSegmentName (name : string) : bool :=
  String.prefix "wal-" name && String.eqb (String.substring (String.length name - 4) 4 name) ".log".

Definition parseSegmentName (name : string) : option Z :=
  if isValidSegmentName name then ParseUint64 (String.substring 4 (String.length name - 8) name) else None.

Definition segmentPath (seq : Z) : string := "wal-" +:+ print_uint seq +:+ ".log".

Definition extractSegmentSequences (d : disk) : list Z := omap parseSegmentName (map_to_list d).*1.

Definition initializeSegment (name : string) : io unit :=
  o ← next_outcome;
  match o with
  | Fine =>
    d ← get dir;
    _ ← modify (set_file (Some name));
    _ ← modify (set_writer [] false);
    modify (fun w => set_segment (segmentSeq w) (match d !! name with Some f => len (content f) | None => 0 end) w)
  | _ => fail ErrIO
  end.

Definition openCurrentSegment : io unit :=
  seq ← get segmentSeq;
  let name := segmentPath seq in
  o ← next_outcome;
  match o with
  | Fine =>
    _ ← modify (fun w => set_dir (match dir w !! name with Some _ => dir w | None => <[name := mkFile [] 0]> (dir w) end) w);
    initializeSegment name
  | _ => fail ErrIO
  end.

Section Sorted.
Context `{SliceSort}.

Definition listSegments : io (list Z) :=
  o ← next_outcome;
  match o with
  | Fine => d ← get dir; mret (sort_slice Z.ltb (extractSegmentSequences d))
  | _ => fail ErrIO
  end.

Definition readSegment (seq : Z) : io (list WALEntry) :=
  o ← next_outcome;
  d ← get dir;
  match d !! segmentPath seq, o with
  | Some f, Fine => mret (readEntriesFromReader (content f))
  | Some f, Cut n => mret (readEntriesFromReader (take n (content f)))
  | _, _ => fail ErrIO
  end.

Definition loadSequenceFromSegments (segments : list Z) : io unit :=
  match last segments with
  | None => mret tt
  | Some lastSegment =>
    _ ← modify (fun w => set_segment (u64 (lastSegment + 1)) (segmentSize w) w);
    entries ← readSegment lastSegment;
    match last entries with
    | Some e => modify (set_sequence (Sequence e))
    | None => mret tt
    end
  end.

Definition initializeEmptySequence : io unit :=
  modify (fun w => set_segment 1 (segmentSize w) (set_sequence 0 w)).

Definition loadSequence : io unit :=
  segments ← listSegments;
  match segments with
  | [] => initializeEmptySequence
  | _ => loadSequenceFromSegments segments
  end.

Definition initialize : io unit := _ ← loadSequence; openCurrentSegment.

(** The first outcome is that of [MkdirAll]. *)
Definition NewWriteAheadLog (config : WALConfig) (d : disk) (outcomes : list outcome) : result wal_error unit * state :=
  (o ← next_outcome; match o with Fine => initialize | _ => fail ErrIO end)
    (mkWAL config d None [] false 0 0 0 false false (-62135596800 * 1000000000), outcomes).

(* ------------------------------------------------------------------ *)
(** ** Appending *)

(** [time.Time.Sub] saturates. *)
Definition Sub (t u : Z) : Z := Z.max (- two63) (Z.min (two63 - 1) (t - u)).

Definition syncLocked (now : Z) : io unit :=
  p ← get pendingSync;
  if negb p then mret tt
  else
    _ ← writer_Flush;
    _ ← file_Sync;
    _ ← modify (set_pending false);
    modify (set_time now).

Definition syncIfIntervalElapsed (now now' : Z) : io unit :=
  w ← get id;
  if SyncInterval (config w) <=? Sub now (lastSyncTime w) then syncLocked now' else mret tt.

Definition syncIfNeeded (now now' : Z) : io unit :=
  w ← get id;
  if SyncMode (config w) =? SyncEveryWrite then syncLocked now'
  else if SyncMode (config w) =? SyncBatched then syncIfIntervalElapsed now now'
  else mret tt.

Definition writeEntry (data : bytes) : io unit :=
  _ ← writer_Write data;
  _ ← modify (fun w => set_segment (segmentSeq w) (i64 (segmentSize w + len data)) w);
  modify (set_pending true).

Definition rotateSegment (now : Z) : io unit :=
  _ ← syncLocked now;
  _ ← file_Close;
  _ ← modify (fun w => set_segment (u64 (segmentSeq w + 1)) 0 w);
  openCurrentSegment.

Definition rotateIfNeeded (dataLen : Z) (now : Z) : io unit :=
  w ← get id;
  if i64 (segmentSize w + dataLen) <=? MaxSegmentSize (config w) then mret tt else rotateSegment now.

(** The number and, if it has none, the time of an entry. *)
Definition prepareEntry (entry : WALEntry) (now : Z) : io WALEntry :=
  w ← get id;
  let seq := u64 (sequence w + 1) in
  _ ← modify (set_sequence seq);
  mret (mkEntry seq (if Timestamp entry =? -62135596800 * 1000000000 then now else Timestamp entry) (Type_ entry) (Payload entry)).

(** The part of [Append] under the lock; [now]: the readings of the clock in
    their order. *)
Definition appendLocked (entry : WALEntry) (now : nat -> Z) : io (Z * option wal_error) :=
  entry ← prepareEntry entry (now 0%nat);
  let data := Encode entry in
  _ ← rotateIfNeeded (len data) (now 1%nat);
  _ ← writeEntry data;
  seq ← get sequence;
  err ← attempt (syncIfNeeded (now 2%nat) (now 3%nat));
  mret (seq, err).

(** The pair of values the method returns. *)
Definition returned (r : result wal_error (Z * option wal_error)) : Z * option wal_error :=
  match r with Ok p => p | Err e => (0, Some e) end.

Definition Append (s : state) (entry : WALEntry) (now : nat -> Z) : state * (Z * option wal_error) :=
  if closed s.1 then (s, (0, Some ErrWALClosed))
  else let '(r, s) := appendLocked entry now s in (s, returned r).

(* ------------------------------------------------------------------ *)
(** ** Synchronising *)

(** The two halves of [syncWithDoubleBuffer], of which only the first holds
    the lock of the writers: whether there was anything to do, ... *)
Definition sync_flush : io bool :=
  p ← get pendingSync;
  if negb p then mret false
  else
    _ ← writer_Flush;
    _ ← modify (set_pending false);
    mret true.

(** ... and the call of [fsync] on the file that is then the current one. *)
Definition sync_fsync (now : Z) : io unit :=
  _ ← file_Sync;
  modify (set_time now).

Definition syncWithDoubleBuffer (now : Z) : io unit :=
  p ← sync_flush;
  if p : bool then sync_fsync now else mret tt.

Definition error_of {A} (r : result wal_error A) : option wal_error := match r with Ok _ => None | Err e => Some e end.

Definition Sync (s : state) (now : Z) : state * option wal_error :=
  if closed s.1 then (s, Some ErrWALClosed)
  else let '(r, s) := syncWithDoubleBuffer now s in (s, error_of r).

(** The background goroutine drops the error of [fsync]. *)
Definition trySyncPending (now : Z) (s : state) : state :=
  match sync_flush s with
  | (Ok true, s) => (modify (set_time now) (file_Sync s).2).2
  | (_, s) => s
  end.

(* ------------------------------------------------------------------ *)
(** ** Reading *)

Definition readSegmentEntriesFrom (minSeq seg : Z) : io (list WALEntry) := fun s =>
  match readSegment seg s with
  | (Ok entries, s) => (Ok (filter (fun e => minSeq <= Sequence e) entries), s)
  | (Err _, s) => (Ok [], s)
  end.

Fixpoint collectEntriesFrom (segments : list Z) (minSeq : Z) : io (list WALEntry) :=
  match segments with
  | [] => mret []
  | seg :: segments =>
    entries ← readSegmentEntriesFrom minSeq seg;
    result ← collectEntriesFrom segments minSeq;
    mret (entries ++ result)
  end.

Definition ReadFrom (s : state) (sequence : Z) : state * result wal_error (list WALEntry) :=
  if closed s.1 then (s, Err ErrWALClosed)
  else let '(r, s) := (segments ← listSegments; collectEntriesFrom segments sequence) s in (s, r).

Definition ReadAll (s : state) : state * result wal_error (list WALEntry) := ReadFrom s 0.

(** The segments and the entries an iterator has left. *)
Record WALIterator := mkIter { segments_left : list Z; entries_left : list WALEntry }.

Definition Iterator (s : state) : state * result wal_error WALIterator :=
  if closed s.1 then (s, Err ErrWALClosed)
  else let '(r, s) := (segments ← listSegments; mret (mkIter segments [])) s in (s, r).

(** The loop of [Next], over the segments. *)
Fixpoint nextLoop (segments : list Z) (entries : list WALEntry) : io (option WALEntry * WALIterator) :=
  match entries, segments with
  | e :: entries, _ => mret (Some e, mkIter segments entries)
  | [], [] => mret (None, mkIter [] [])
  | [], seg :: segments => fun s =>
    match readSegment seg s with
    | (Ok entries, s) => nextLoop segments entries s
    | (Err _, s) => nextLoop segments [] s
    end
  end.

Definition Next (it : WALIterator) (s : state) : result wal_error (option WALEntry * WALIterator) * state :=
  nextLoop (segments_left it) (entries_left it) s.

(* ------------------------------------------------------------------ *)
(** ** Truncating and closing *)

Definition getSegmentLastSequence (seg : Z) : io Z := fun s =>
  match readSegment seg s with
  | (Ok entries, s) => (Ok (match last entries with Some e => Sequence e | None => 0 end), s)
  | (Err _, s) => (Ok 0, s)
  end.

Definition maybeRemoveSegment (beforeSeq seg : Z) : io unit :=
  w ← get id;
  if segmentSeq w <=? seg then mret tt
  else
    lastSeq ← getSegmentLastSequence seg;
    if (lastSeq =? 0) || (beforeSeq <=? lastSeq) then mret tt
    else
      o ← next_outcome;
      match o with
      | Fine => modify (fun w => set_dir (delete (segmentPath seg) (dir w)) w)
      | _ => fail ErrIO
      end.

Fixpoint truncateOldSegments (segments : list Z) (beforeSeq : Z) : io unit :=
  match segments with
  | [] => mret tt
  | seg :: segments => _ ← maybeRemoveSegment beforeSeq seg; truncateOldSegments segments beforeSeq
  end.

Definition Truncate (s : state) (beforeSequence : Z) : state * option wal_error :=
  if closed s.1 then (s, Some ErrWALClosed)
  else let '(r, s) := (segments ← listSegments; truncateOldSegments segments beforeSequence) s in (s, error_of r).

Definition CurrentSequence (s : state) : Z := sequence s.1.

(** The end of [Close], after the background goroutine, if there is one, has
    synchronised for the last time. *)
Definition closeLocked (now : Z) : io unit := _ ← syncLocked now; file_Close.

Definition stopPeriodicSync (now : Z) (s : state) : state :=
  if SyncMode (config s.1) =? SyncPeriodic then trySyncPending now s else s.

Definition Close (s : state) (now : Z) : state * option wal_error :=
  if closed s.1 then (s, Some ErrWALClosed)
  else
    let s := stopPeriodicSync now (set_closed s.1, s.2) in
    let '(r, s) := closeLocked now s in (s, error_of r).

End Sorted.

(* ------------------------------------------------------------------ *)
(** ** Power failures *)

(** What a power failure leaves of a file: its durable bytes and as many more
    as it happens. *)
Definition survives (n : nat) (f : file) : file :=
  let kept := take (Nat.max (durable f) n) (content f) in mkFile kept (length kept).

(** Creating a file is taken to be durable. *)
Definition power_failure (keep : string -> nat) (d : disk) : disk := map_imap (fun name f => Some (survives (keep name) f)) d.

End WriteAheadLog.
