(* ===== verification/WriteAheadLogDisk.v ===== *)
(** * What a disk holds of a write-ahead log

    The segments of a directory as a list of entries each, of which so many
    are durable ([segment]).  The description survives power failures as it
    is: what a file can lose is between its durable entries and its entries.
    The names of segments, their listing and their reading are exact for it. *)

From S2P Require Import Prelude GoStd WalRecord Semantic WriteAheadLog.
From Stdlib Require Import DecimalString DecimalFacts DecimalN.
Import WalRecord Semantic WriteAheadLog.

Module WriteAheadLogDisk.

(* ------------------------------------------------------------------ *)
(** ** The names of segments *)

Lemma substring_skip a b m : String.substring (String.length a) m (a +:+ b) = String.substring 0 m b.
Proof. induction a as [|c a IH]; [done|]. exact IH. Qed.

Lemma substring_keep a b : String.substring 0 (String.length a) (a +:+ b) = a.
Proof.
  induction a as [|c a IH]; [by destruct b|].
  change (String c (String.substring 0 (String.length a) (a +:+ b)) = String c a). by rewrite IH.
Qed.

Lemma string_length_app a b : String.length (a +:+ b) = (String.length a + String.length b)%nat.
Proof.
  induction a as [|c a IH]; [done|].
  change (S (String.length (a +:+ b)) = S (String.length a + String.length b))%nat. by rewrite IH.
Qed.

Lemma string_app_assoc (a b c : string) : (a +:+ b) +:+ c = a +:+ b +:+ c.
Proof.
  induction a as [|x a IH]; [done|].
  change (String x ((a +:+ b) +:+ c) = String x (a +:+ b +:+ c)). by rewrite IH.
Qed.

Lemma parse_print_u64 z : in_u64 z -> ParseUint64 (print_uint z) = Some z.
Proof.
  intros B. unfold ParseUint64, print_uint. rewrite NilZero.usu by apply to_uint_nonnil.
  rewrite Unsigned.of_to, Z2N.id by (unfold in_u64 in B; lia).
  unfold in_u64 in B. destruct (Z.ltb_spec z two64); [done|lia].
Qed.

(** The name made for a segment is read back as its number. *)
Lemma parse_segmentPath k : in_u64 k -> parseSegmentName (segmentPath k) = Some k.
Proof.
  intros B. unfold parseSegmentName, isValidSegmentName, segmentPath.
  assert (String.prefix "wal-" ("wal-" +:+ print_uint k +:+ ".log") = true) as -> by (cbn; by destruct (print_uint k +:+ ".log")).
  rewrite !string_length_app. change (String.length "wal-") with 4%nat. change (String.length ".log") with 4%nat.
  replace (4 + (String.length (print_uint k) + 4) - 4)%nat with (String.length ("wal-" +:+ print_uint k)) by (rewrite string_length_app; cbn; lia).
  rewrite <- string_app_assoc at 1. rewrite substring_skip. cbn [andb String.eqb String.substring].
  replace (4 + (String.length (print_uint k) + 4) - 8)%nat with (String.length (print_uint k)) by lia.
  change 4%nat with (String.length "wal-") at 1. rewrite substring_skip, substring_keep. by apply parse_print_u64.
Qed.

Lemma segmentPath_inj j k : in_u64 j -> in_u64 k -> segmentPath j = segmentPath k -> j = k.
Proof. intros J K E. apply parse_segmentPath in J, K. rewrite E in J. congruence. Qed.

(* ------------------------------------------------------------------ *)
(** ** Entries and bytes *)

(** The entries as they are on the disk. *)
Definition whole (e : WALEntry) : Prop := fits e /\ stamped e = e.

Definition encoded (es : list WALEntry) : bytes := es ≫= Encode.

Lemma record_encode_stamped e : Encode (stamped e) = Encode e.
Proof.
  assert (U : forall z, putU64 (u64 z) = putU64 z) by (intros z; unfold putU64; by rewrite (u64_id (u64 z)) by apply u64_range).
  assert (N : forall t, UnixNano (UnixNano t) = UnixNano t) by (intros t; unfold UnixNano; apply i64_id, i64_range).
  unfold Encode, encodeBody, stamped. cbn [Sequence Timestamp Type_ Payload]. by rewrite U, N.
Qed.

Lemma whole_stamped e : fits e -> whole (stamped e).
Proof.
  intros F. split; [done|]. unfold stamped. cbn. f_equal; [apply u64_id, u64_range|unfold UnixNano; apply i64_id, i64_range].
Qed.

Lemma encoded_app es fs : encoded (es ++ fs) = encoded es ++ encoded fs.
Proof. apply bind_app. Qed.

Lemma encoded_one e : encoded [e] = Encode e.
Proof. apply List.app_nil_r. Qed.

Lemma encode_nonempty e : Encode e <> [].
Proof. intros E. pose proof (length_encode e) as L. rewrite E in L. unfold EntrySize, entryHeaderSize, sequenceSize in L. cbn in L. lia. Qed.

(** The beginning of a file is read as a beginning of its entries. *)
Lemma read_prefix es p : Forall whole es -> p `prefix_of` encoded es ->
  exists es', readEntriesFromReader p = es' /\ es' `prefix_of` es /\
    (forall ds, ds `prefix_of` es -> (length (encoded ds) <= length p)%nat -> ds `prefix_of` es').
Proof.
  intros W. revert p. induction W as [|e es [Fe Se] W IH]; intros p P.
  - apply prefix_nil_inv in P as ->. exists []. split; [done|]. split; [done|]. intros ds D _. by apply prefix_nil_inv in D as ->.
  - change (encoded (e :: es)) with (Encode e ++ encoded es) in P. destruct (decide (length p < length (Encode e))%nat) as [L|L].
    + exists []. split; [apply (read_torn e p Fe)|].
      * destruct P as [q Q]. exists (drop (length p) (Encode e)). rewrite <- (take_drop (length p) (Encode e)) at 1.
        f_equal. rewrite <- (take_app_le (Encode e) (encoded es)) by lia. rewrite Q. apply take_app_length.
      * intros ->. lia.
      * split; [apply prefix_nil|]. intros [|d ds] D Ld; [done|exfalso].
        assert (d = e) as -> by (by apply prefix_cons_inv_1 in D). change (encoded (e :: ds)) with (Encode e ++ encoded ds) in Ld.
        rewrite length_app in Ld. lia.
    + assert (exists q, p = Encode e ++ q /\ q `prefix_of` encoded es) as (q & -> & Q).
      { destruct P as [r R]. exists (drop (length (Encode e)) p).
        assert (T : take (length (Encode e)) p = Encode e).
        { rewrite <- (take_app_le p r) by lia. rewrite <- R. apply take_app_length. }
        split; [rewrite <- T at 1; by rewrite take_drop|]. exists r. rewrite <- (drop_app_le p r) by lia.
        rewrite <- R. by rewrite drop_app_length. }
      destruct (IH q Q) as (es' & E & P' & D'). exists (e :: es'). rewrite read_encode, Se, E by done.
      split; [done|]. split; [by apply prefix_cons|]. intros [|d ds] D Ld; [apply prefix_nil|].
      assert (d = e) as -> by (by apply prefix_cons_inv_1 in D). apply prefix_cons, D'; [by apply prefix_cons_inv_2 in D|].
      change (encoded (e :: ds)) with (Encode e ++ encoded ds) in Ld. rewrite !length_app in Ld. lia.
Qed.

(* ------------------------------------------------------------------ *)
(** ** Segments *)

(** [safe_n]: how many of the entries are durable. *)
Record segment := mkSeg { num : Z; entries : list WALEntry; safe_n : nat }.

Definition safe_entries (g : segment) : list WALEntry := take (safe_n g) (entries g).

(** The file can lack a part of the entries, but not of the durable ones. *)
Record holds (f : file) (g : segment) : Prop := {
  holds_whole : Forall whole (entries g);
  holds_content : content f `prefix_of` encoded (entries g);
  holds_safe : (length (encoded (safe_entries g)) <= durable f <= length (content f))%nat;
  holds_count : (safe_n g <= length (entries g))%nat
}.

Record disk_ok (d : disk) (G : list segment) : Prop := {
  disk_files : forall g, g ∈ G -> in_u64 (num g) /\ exists f, d !! segmentPath (num g) = Some f /\ holds f g;
  disk_names : forall name f, d !! name = Some f -> exists g, g ∈ G /\ name = segmentPath (num g);
  disk_sorted : StronglySorted Z.lt (num <$> G)
}.

Lemma survives_holds n f g : holds f g -> holds (survives n f) g.
Proof.
  intros [W C S N]. unfold survives. constructor; cbn [content durable]; [done| |..|done].
  - etransitivity; [apply prefix_take|done].
  - rewrite length_take. lia.
Qed.

(** A power failure costs nothing that was known to be durable. *)
Lemma power_failure_ok keep d G : disk_ok d G -> disk_ok (power_failure keep d) G.
Proof.
  intros [F N S]. constructor; [|..|done].
  - intros g I. destruct (F g I) as (B & f & L & H). split; [done|]. exists (survives (keep (segmentPath (num g))) f).
    split; [|by apply survives_holds]. unfold power_failure in *. by rewrite map_lookup_imap, L.
  - intros name f L. unfold power_failure in *. rewrite map_lookup_imap in L. destruct (d !! name) as [f0|] eqn:E; [|done]. by apply (N name f0).
Qed.


Lemma disk_unique d G g h : disk_ok d G -> g ∈ G -> h ∈ G -> num g = num h -> g = h.
Proof.
  intros [_ _ S] Ig Ih E. apply list_elem_of_split in Ig as (l & r & ->).
  rewrite fmap_app, fmap_cons in S. apply (StronglySorted_mid Z.lt) in S as (_ & _ & Fl & Fr).
  rewrite Forall_fmap, Forall_forall in Fl, Fr. apply elem_of_app in Ih as [I|[I|I]%elem_of_cons]; [|done|].
  - specialize (Fl h I). cbn in Fl. lia.
  - specialize (Fr h I). cbn in Fr. lia.
Qed.

(** The names in the directory are those of the segments. *)
Lemma disk_listing d G : disk_ok d G -> (map_to_list d).*1 ≡ₚ (fun g => segmentPath (num g)) <$> G.
Proof.
  intros D. pose proof D as [F N S]. apply NoDup_Permutation.
  - apply NoDup_fst_map_to_list.
  - assert (ND : NoDup (num <$> G)).
    { clear -S. induction S as [|x l _ IH H]; constructor; [|done]. intros I. rewrite Forall_forall in H. specialize (H x I). lia. }
    apply NoDup_fmap_1 in ND as NG. apply NoDup_fmap_2_strong; [|done].
    intros g h Ig Ih E. apply (disk_unique d G); [done..|].
    apply segmentPath_inj; [by apply F|by apply F|done].
  - intros name. rewrite !list_elem_of_fmap. split.
    + intros ([k f] & -> & I). apply elem_of_map_to_list in I. destruct (N k f I) as (g & Ig & ->). by exists g.
    + intros (g & -> & Ig). destruct (F g Ig) as (_ & f & L & _). exists (segmentPath (num g), f). split; [done|by apply elem_of_map_to_list].
Qed.

Lemma extract_segments d G : disk_ok d G -> extractSegmentSequences d ≡ₚ num <$> G.
Proof.
  intros D. unfold extractSegmentSequences. rewrite (disk_listing d G D). destruct D as [F _ _]. apply reflexive_eq.
  induction G as [|g G IH]; [done|]. cbn. rewrite parse_segmentPath by (apply F; left). f_equal. apply IH. intros h I. apply F. by right.
Qed.

Lemma sort_segments `{SliceSort} d G : disk_ok d G -> sort_slice Z.ltb (extractSegmentSequences d) = num <$> G.
Proof.
  intros D. apply (StronglySorted_unique Z.le).
  - eapply StronglySorted_weaken; [|apply sort_slice_sorted].
    + intros a b. unfold not_after. cbn. lia.
    + intros a b. lia.
    + intros a b c. unfold not_after. lia.
  - eapply StronglySorted_weaken; [|apply (disk_sorted _ _ D)]. intros a b. cbn. lia.
  - rewrite sort_slice_perm. by apply extract_segments.
Qed.

(* ------------------------------------------------------------------ *)
(** ** Reading a disk *)

Definition all_entries (G : list segment) : list WALEntry := G ≫= entries.
Definition all_safe (G : list segment) : list WALEntry := G ≫= safe_entries.

(** What a file gives. *)
Lemma holds_read f g : holds f g ->
  safe_entries g `prefix_of` readEntriesFromReader (content f) /\ readEntriesFromReader (content f) `prefix_of` entries g.
Proof.
  intros [W C S N]. destruct (read_prefix _ _ W C) as (es' & -> & P & D). split; [|done].
  apply D; [apply prefix_take|]. lia.
Qed.

Definition readable (d : disk) (g : segment) : list WALEntry :=
  match d !! segmentPath (num g) with Some f => readEntriesFromReader (content f) | None => [] end.

(** The segments of a part of a disk, read with no failure. *)
Lemma collect_ok w G H minSeq : disk_ok (dir w) G -> (forall g, g ∈ H -> g ∈ G) ->
  collectEntriesFrom (num <$> H) minSeq (w, []) = (Ok (filter (fun e => minSeq <= Sequence e) (H ≫= readable (dir w))), (w, [])) /\
  sublist (all_safe H) (H ≫= readable (dir w)) /\ sublist (H ≫= readable (dir w)) (all_entries H).
Proof.
  intros D. induction H as [|g H IH]; intros I; [done|].
  destruct IH as (E & S1 & S2); [intros h Ih; apply I; by right|].
  destruct (disk_files _ _ D g (I g ltac:(left))) as (_ & f & Lf & Hf). destruct (holds_read f g Hf) as [R1 R2].
  assert (Rg : readable (dir w) g = readEntriesFromReader (content f)) by (unfold readable; by rewrite Lf).
  change ((g :: H) ≫= readable (dir w)) with (readable (dir w) g ++ (H ≫= readable (dir w))). rewrite Rg. split.
  - rewrite fmap_cons. cbn [collectEntriesFrom]. unfold mbind, io_bind, readSegmentEntriesFrom, readSegment, mbind, io_bind, next_outcome, get, mret, io_ret.
    cbn [fst snd]. rewrite Lf. cbn [fst snd]. unfold mbind in E. rewrite E. by rewrite filter_app.
  - split; apply sublist_app; [by apply prefix_sublist|done|by apply prefix_sublist|done].
Qed.

Lemma read_ok `{SliceSort} w G minSeq : disk_ok (dir w) G -> closed w = false ->
  ReadFrom (w, []) minSeq = ((w, []), Ok (filter (fun e => minSeq <= Sequence e) (G ≫= readable (dir w)))) /\
  sublist (all_safe G) (G ≫= readable (dir w)) /\ sublist (G ≫= readable (dir w)) (all_entries G).
Proof.
  intros D C. destruct (collect_ok w G G minSeq D (fun g I => I)) as (E & S). split; [|done].
  set (L := G ≫= readable (dir w)) in *. unfold ReadFrom. cbn [fst]. rewrite C.
  unfold listSegments, mbind, io_bind, next_outcome, get, mret, io_ret. cbn [fst snd].
  rewrite (sort_segments _ G D). by rewrite E.
Qed.

(* ------------------------------------------------------------------ *)
(** ** Writing to the last segment *)

(** The file of the last segment changes, and its description with it. *)
Lemma disk_update h d G0 g g' f : disk_ok d (G0 ++ [g]) -> num g' = num g ->
  d !! segmentPath (num g) = Some f -> holds (h f) g' -> disk_ok (alter h (segmentPath (num g)) d) (G0 ++ [g']).
Proof.
  intros D E L Hf. pose proof D as [F N S]. assert (Ig : g ∈ G0 ++ [g]) by (apply elem_of_app; right; left).
  assert (Bg : in_u64 (num g)) by (by apply F). constructor.
  - intros k [Ik| ->%list_elem_of_singleton]%elem_of_app.
    + destruct (F k) as (Bk & fk & Lk & Hk); [apply elem_of_app; by left|]. split; [done|].
      exists fk. split; [|done]. rewrite lookup_alter_ne; [done|]. intros P. apply segmentPath_inj in P; [|done..].
      rewrite fmap_app in S. apply (StronglySorted_mid Z.lt) in S as (_ & _ & Fl & _).
      rewrite Forall_fmap, Forall_forall in Fl. specialize (Fl k Ik). cbn in Fl. lia.
    + rewrite E. split; [done|]. exists (h f). split; [|done]. by rewrite lookup_alter_eq, L.
  - intros name f0 L0. assert (exists f1, d !! name = Some f1) as [f1 L1].
    { destruct (decide (name = segmentPath (num g))) as [->|Ne]; [by exists f|]. rewrite lookup_alter_ne in L0 by done. by exists f0. }
    destruct (N name f1 L1) as (k & [Ik| ->%list_elem_of_singleton]%elem_of_app & ->).
    + exists k. split; [apply elem_of_app; by left|done].
    + exists g'. split; [apply elem_of_app; right; left|by rewrite E].
  - rewrite fmap_app in *. cbn [fmap list_fmap] in *. by rewrite E.
Qed.

(** The last segment has a part of more entries. *)
Lemma holds_more f g p es : holds f g -> Forall whole es -> entries g `prefix_of` es -> content f ++ p `prefix_of` encoded es ->
  holds (append_to p f) (mkSeg (num g) es (safe_n g)).
Proof.
  intros [W C S N] We [r ->] P. constructor; cbn [entries safe_n content durable append_to]; [done|done|..].
  - assert (safe_entries (mkSeg (num g) (entries g ++ r) (safe_n g)) = safe_entries g) as ->
      by (unfold safe_entries; cbn; by rewrite take_app_le).
    rewrite length_app. lia.
  - rewrite length_app. lia.
Qed.

Lemma holds_durable f g : holds f g -> content f = encoded (entries g) ->
  holds (make_durable f) (mkSeg (num g) (entries g) (length (entries g))).
Proof.
  intros [W C S N] E. constructor; cbn [entries safe_n content durable make_durable]; [done|done| |done].
  unfold safe_entries. cbn [entries safe_n]. rewrite firstn_all, <- E. lia.
Qed.

Lemma disk_new d G k : disk_ok d G -> in_u64 k -> Forall (fun g => num g < k) G ->
  d !! segmentPath k = None /\ disk_ok (<[segmentPath k := mkFile [] 0]> d) (G ++ [mkSeg k [] 0]).
Proof.
  intros D B Fl. pose proof D as [F N S]. rewrite Forall_forall in Fl.
  assert (No : d !! segmentPath k = None).
  { destruct (d !! segmentPath k) as [f|] eqn:L; [|done]. destruct (N _ _ L) as (g & Ig & E).
    apply segmentPath_inj in E; [|done|by apply F]. specialize (Fl g Ig). cbn in Fl. lia. }
  split; [done|]. constructor.
  - intros g [Ig| ->%list_elem_of_singleton]%elem_of_app.
    + destruct (F g Ig) as (Bg & f & L & Hf). split; [done|]. exists f. split; [|done]. rewrite lookup_insert_ne; [done|]. intros E. by rewrite E, L in No.
    + split; [done|]. exists (mkFile [] 0). split; [apply lookup_insert_eq|]. constructor; cbn; [constructor|done|lia|lia].
  - intros name f L. destruct (decide (name = segmentPath k)) as [->|Ne].
    + exists (mkSeg k [] 0). split; [apply elem_of_app; right; left|done].
    + rewrite lookup_insert_ne in L by done. destruct (N _ _ L) as (g & Ig & ->). exists g. split; [apply elem_of_app; by left|done].
  - rewrite fmap_app. cbn [fmap list_fmap num]. apply (StronglySorted_mid Z.lt). split; [done|]. split; [constructor|]. split; [|constructor].
    apply Forall_fmap, Forall_forall. exact Fl.
Qed.

End WriteAheadLogDisk.
