(* ===== verification/WriteAheadLogProof.v ===== *)
(** * What the write-ahead log keeps

    Any calls of the methods, with any failure of the system calls, restarts
    and power failures in between: the entries acknowledged before a
    successful synchronisation are read back, in order, and nothing else than
    what was appended.  The invariant relates the log to the segments of its
    disk ([WriteAheadLogDisk]); each function of the log is proved once, with
    all outcomes of its system calls. *)

From S2P Require Import Prelude GoStd WalRecord Semantic WriteAheadLog WriteAheadLogDisk.
Import WalRecord WriteAheadLog WriteAheadLogDisk.

Module WriteAheadLogProof.

Ltac io := cbv [mbind io_bind mret io_ret get modify fail next_outcome attempt id]; cbn [fst snd].

(* ------------------------------------------------------------------ *)
(** ** The invariant *)

(** [A]: the entries acknowledged since the log was opened and those known to
    be safe then; [S]: the entries known to be safe. *)
Record inv (w : WriteAheadLog) (G : list segment) (A S : list WALEntry) : Prop := {
  inv_disk : disk_ok (dir w) G;
  inv_bound : Forall (fun g => num g <= segmentSeq w) G /\ in_u64 (segmentSeq w);
  inv_safe : sublist S (all_safe G);
  inv_acked : pendingSync w = false -> sublist A (all_safe G);
  inv_file : match currentFile w with
    | None => pendingSync w = true -> failed w = true \/ buffer w <> []
    | Some name => name = segmentPath (segmentSeq w) /\ exists G0 g f,
        G = G0 ++ [g] /\ num g = segmentSeq w /\ dir w !! name = Some f /\
        (failed w = false -> content f ++ buffer w = encoded (entries g) /\ sublist A (all_safe G0 ++ entries g))
    end
}.

(** The fields a synchronisation does not touch. *)
Definition kept (w w' : WriteAheadLog) : Prop :=
  config w' = config w /\ sequence w' = sequence w /\ segmentSeq w' = segmentSeq w /\ segmentSize w' = segmentSize w /\
  closed w' = closed w /\ currentFile w' = currentFile w.

Lemma kept_refl w : kept w w. Proof. done. Qed.
Lemma kept_trans w1 w2 w3 : kept w1 w2 -> kept w2 w3 -> kept w1 w3.
Proof. unfold kept. intuition congruence. Qed.

Lemma all_safe_snoc G g : all_safe (G ++ [g]) = all_safe G ++ safe_entries g.
Proof. unfold all_safe. rewrite bind_app. cbn. by rewrite app_nil_r. Qed.

Lemma all_entries_snoc G g : all_entries (G ++ [g]) = all_entries G ++ entries g.
Proof. unfold all_entries. rewrite bind_app. cbn. by rewrite app_nil_r. Qed.

(** The file of the log when it is open. *)
Lemma inv_open w G A S name : inv w G A S -> currentFile w = Some name -> exists G0 g f,
  G = G0 ++ [g] /\ num g = segmentSeq w /\ name = segmentPath (num g) /\ dir w !! name = Some f /\ holds f g /\
  (failed w = false -> content f ++ buffer w = encoded (entries g) /\ sublist A (all_safe G0 ++ entries g)).
Proof.
  intros [D B Sa Ac Fi] E. rewrite E in Fi. destruct Fi as (-> & G0 & g & f & -> & Ng & L & K).
  exists G0, g, f. destruct (disk_files _ _ D g) as (_ & f' & L' & H); [apply elem_of_app; right; left|].
  rewrite Ng in L'. assert (f' = f) as -> by congruence. by rewrite Ng.
Qed.

(** Only the writer changed, to one that has failed. *)
Lemma inv_failed w G A S b : inv w G A S -> inv (set_writer b true w) G A S.
Proof.
  intros [D B Sa Ac Fi]. constructor; cbn; [done..|]. destruct (currentFile w) as [name|]; [|by left].
  destruct Fi as (-> & G0 & g & f & E & N & L & _). split; [done|]. by exists G0, g, f.
Qed.

Lemma inv_weaken w G A S A' S' : inv w G A S -> sublist A' A -> sublist S' S -> inv w G A' S'.
Proof.
  intros [D B Sa Ac Fi] HA HS. constructor; [done..| | |].
  - by etransitivity.
  - intros P. etransitivity; [done|by apply Ac].
  - destruct (currentFile w); [|done]. destruct Fi as (-> & G0 & g & f & E & N & L & K). split; [done|].
    exists G0, g, f. split; [done|]. split; [done|]. split; [done|]. intros F. destruct (K F) as [K1 K2]. split; [done|]. by etransitivity.
Qed.

(* ------------------------------------------------------------------ *)
(** ** Synchronising *)

(** Bytes that go to the file of the log. *)
Lemma write_part w G0 g f p es name A S b e :
  inv w (G0 ++ [g]) A S -> currentFile w = Some name -> name = segmentPath (num g) -> num g = segmentSeq w -> dir w !! name = Some f -> holds f g ->
  Forall whole es -> entries g `prefix_of` es -> content f ++ p `prefix_of` encoded es ->
  (e = false -> content f ++ p ++ b = encoded es) -> sublist A (all_safe G0 ++ es) \/ e = true ->
  inv (set_writer b e (set_dir (alter (append_to p) name (dir w)) w)) (G0 ++ [mkSeg (num g) es (safe_n g)]) A S.
Proof.
  intros [D [B1 B2] Sa Ac Fi] Cf -> Ng L H W P C Eb HA. pose proof (holds_more f g p es H W P C) as H'.
  assert (Se : safe_entries (mkSeg (num g) es (safe_n g)) = safe_entries g).
  { destruct P as [r ->]. unfold safe_entries. cbn. by rewrite take_app_le by apply (holds_count _ _ H). }
  assert (Sg : all_safe (G0 ++ [mkSeg (num g) es (safe_n g)]) = all_safe (G0 ++ [g])) by (by rewrite !all_safe_snoc, Se).
  constructor; cbn; rewrite ?Sg; [by apply (disk_update (append_to p) _ _ g _ f)| |done|done|].
  - split; [|done]. apply Forall_app in B1 as [B1 _]. apply Forall_app. split; [done|]. repeat constructor. cbn. lia.
  - rewrite Cf. split; [by rewrite Ng|]. exists G0, (mkSeg (num g) es (safe_n g)), (append_to p f). split; [done|]. split; [done|].
    split; [by rewrite lookup_alter_eq, L|]. intros ->. cbn. rewrite <- app_assoc. split; [by apply Eb|]. by destruct HA.
Qed.

Lemma flush_inv w os G A S : inv w G A S ->
  match writer_Flush (w, os) with
  | (r, (w', os')) =>
    inv w' G A S /\ kept w w' /\ pendingSync w' = pendingSync w /\ (os = [] -> os' = []) /\
    (r = Ok tt -> failed w' = false /\ buffer w' = [] /\ (currentFile w = None -> failed w = false /\ buffer w = []))
  end.
Proof.
  intros H. unfold writer_Flush. io. destruct (failed w) eqn:Ef; [done|]. destruct (buffer w) as [|x b] eqn:Eb; [done|].
  unfold file_Write. io. destruct (currentFile w) as [name|] eqn:Ec.
  2:{ cbn. split; [by apply inv_failed|]. split; [by unfold kept; cbn; rewrite Ec|]. done. }
  destruct (inv_open w G A S name H Ec) as (G0 & g & f & -> & Ng & Nm & L & Hf & K). destruct (K Ef) as [K1 K2].
  assert (Hg : mkSeg (num g) (entries g) (safe_n g) = g) by (by destruct g).
  destruct os as [|[|n|n] os]; cbn; split.
  1, 3: pose proof (write_part w G0 g f (x :: b) (entries g) name A S [] false H Ec Nm Ng L Hf (holds_whole _ _ Hf) ltac:(done)) as W;
    rewrite Hg in W; apply W; [rewrite <- K1, Eb; done|intros _; by rewrite app_nil_r, <- K1, Eb|by left].
  1, 2: split; [by unfold kept; cbn; rewrite Ec|done].
  1, 3: pose proof (write_part w G0 g f (take n (x :: b)) (entries g) name A S (drop n (x :: b)) true H Ec Nm Ng L Hf (holds_whole _ _ Hf) ltac:(done)) as W;
    rewrite Hg in W; apply W; [rewrite <- K1, Eb; apply prefix_app, prefix_take|done|by right].
  all: split; [by unfold kept; cbn; rewrite Ec|done].
Qed.

Lemma inv_durable w G A S name : inv w G A S -> currentFile w = Some name -> failed w = false -> buffer w = [] ->
  exists G', all_entries G' = all_entries G /\ sublist A (all_safe G') /\ inv (set_dir (alter make_durable name (dir w)) w) G' A S.
Proof.
  intros H Ec Ef Eb. destruct (inv_open w G A S name H Ec) as (G0 & g & f & -> & Ng & -> & L & Hf & K).
  destruct (K Ef) as [K1 K2]. rewrite Eb, app_nil_r in K1. set (g' := mkSeg (num g) (entries g) (length (entries g))).
  assert (Sg : safe_entries g' = entries g) by (unfold safe_entries; cbn; by rewrite firstn_all).
  exists (G0 ++ [g']). split; [by rewrite !all_entries_snoc|]. rewrite all_safe_snoc, Sg. split; [done|].
  pose proof (holds_durable f g Hf K1) as H'. destruct H as [D [B1 B2] Sa Ac Fi].
  assert (Mono : sublist (all_safe (G0 ++ [g])) (all_safe (G0 ++ [g']))).
  { rewrite !all_safe_snoc, Sg. apply sublist_app; [done|]. apply sublist_take. }
  constructor; cbn; [by apply (disk_update make_durable _ _ g g' f)| |by etransitivity| |].
  - split; [|done]. apply Forall_app in B1 as [B1 _]. apply Forall_app. split; [done|]. repeat constructor. cbn. lia.
  - intros P. etransitivity; [by apply Ac|done].
  - rewrite Ec. split; [by rewrite Ng|]. exists G0, g', (make_durable f). split; [done|]. split; [done|].
    split; [by rewrite lookup_alter_eq, L|]. intros _. cbn. by rewrite Eb, app_nil_r.
Qed.

Lemma inv_synced w G A S t : inv w G A S -> sublist A (all_safe G) -> inv (set_time t (set_pending false w)) G A S.
Proof. intros [D B Sa Ac Fi] HA. constructor; cbn; [done..|]. by destruct (currentFile w). Qed.

Lemma inv_all_safe w G A S : inv w G A S -> sublist A (all_safe G) -> inv w G A A.
Proof. by intros []. Qed.

(** What a synchronisation under the lock leaves: when it succeeds, all that
    was acknowledged is safe. *)
Lemma syncLocked_inv t w os G A S : inv w G A S ->
  match syncLocked t (w, os) with
  | (r, (w', os')) => exists G', all_entries G' = all_entries G /\ kept w w' /\ inv w' G' A S /\
    (is_ok r = true -> pendingSync w' = false /\ sublist A (all_safe G'))
  end.
Proof.
  intros H. unfold syncLocked. io. destruct (pendingSync w) eqn:Ep; cbn [negb].
  2:{ exists G. split; [done|]. split; [done|]. split; [done|]. intros _. split; [done|]. by apply H. }
  pose proof (flush_inv w os G A S H) as F. destruct (writer_Flush (w, os)) as [[[]|e] [w1 os1]]; destruct F as (H1 & K1 & P1 & _ & R1).
  2:{ by exists G. }
  destruct (R1 eq_refl) as (F1 & B1 & C1). unfold file_Sync. io. destruct (currentFile w1) as [name|] eqn:Ec; [|by exists G].
  destruct (inv_durable w1 G A S name H1 Ec F1 B1) as (G' & E' & S' & I').
  destruct os1 as [|[|n|n] os1]; [..|by exists G|by exists G]; exists G'; (split; [done|]; split; [done|]; split; [by apply inv_synced|done]).
Qed.

(** [Sync] and the background goroutine, when their system calls succeed. *)
Lemma doubleBuffer_inv t w G A S : inv w G A S ->
  match syncWithDoubleBuffer t (w, []) with
  | (r, (w', os')) => exists G', all_entries G' = all_entries G /\ kept w w' /\ inv w' G' A S /\ (is_ok r = true -> sublist A (all_safe G'))
  end /\
  exists G', all_entries G' = all_entries G /\ kept w (trySyncPending t (w, [])).1 /\ inv (trySyncPending t (w, [])).1 G' A S.
Proof.
  intros H. unfold syncWithDoubleBuffer, trySyncPending, sync_flush, sync_fsync. io. destruct (pendingSync w) eqn:Ep; cbn [negb].
  2:{ split; exists G; (split; [done|]; split; [done|]); [|done]. split; [done|]. intros _. by apply H. }
  pose proof (flush_inv w [] G A S H) as F. destruct (writer_Flush (w, [])) as [[[]|e] [w1 os1]]; destruct F as (H1 & K1 & P1 & O1 & R1).
  2:{ by split; exists G. }
  rewrite (O1 eq_refl). destruct (R1 eq_refl) as (F1 & B1 & C1). unfold file_Sync. io. cbn.
  destruct (currentFile w1) as [name|] eqn:Ec.
  - destruct (inv_durable w1 G A S name H1 Ec F1 B1) as (G' & E' & S' & I').
    pose proof (inv_synced _ G' A S t I' S') as W.
    split; exists G'; (split; [done|]; split; [unfold kept in *; cbn; rewrite Ec in *; tauto|]); [split; [exact W|done]|exact W].
  - exfalso. destruct K1 as (_ & _ & _ & _ & _ & K1). rewrite Ec in K1. destruct (C1 (eq_sym K1)) as [Fw Bw].
    destruct H as [_ _ _ _ Fi]. rewrite <- K1 in Fi. destruct (Fi Ep); congruence.
Qed.

(* ------------------------------------------------------------------ *)
(** ** Appending *)

Lemma inv_pending w G A S A' : inv w G A S -> currentFile w = None -> failed w = true \/ buffer w <> [] ->
  inv (set_pending true w) G A' S.
Proof. intros [D B Sa Ac Fi] E F. constructor; cbn; [done..|]. by rewrite E. Qed.

(** An entry that is on its way into the open file: [p] has gone there, and
    [b] is in the buffer unless the writer has failed. *)
Lemma write_entry_part w G0 g f e p b err name A S :
  inv w (G0 ++ [g]) A S -> currentFile w = Some name -> name = segmentPath (num g) -> num g = segmentSeq w -> dir w !! name = Some f -> holds f g ->
  whole e -> content f ++ p `prefix_of` encoded (entries g ++ [e]) ->
  (err = false -> content f ++ p ++ b = encoded (entries g ++ [e]) /\ sublist A (all_safe G0 ++ entries g)) ->
  let w' := set_writer b err (set_dir (alter (append_to p) name (dir w)) w) in
  let G' := G0 ++ [mkSeg (num g) (entries g ++ [e]) (safe_n g)] in
  inv w' G' A S /\ (err = false -> inv (set_pending true w') G' (A ++ [e]) S).
Proof.
  intros H Ec Nm Ng L Hf We P K w' G'.
  assert (Wes : Forall whole (entries g ++ [e])) by (apply Forall_app; split; [apply Hf|by constructor]).
  assert (H' : inv w' G' A S).
  { apply (write_part w G0 g f p (entries g ++ [e]) name A S b err); try done; [by apply prefix_app_r| |].
    - intros E. by apply K.
    - destruct err; [by right|left]. rewrite app_assoc. apply sublist_inserts_r. by apply K. }
  split; [done|]. intros E. destruct (K E) as [K1 K2]. destruct H' as [D B Sa Ac Fi].
  constructor; cbn in *; [done..|]. rewrite Ec in *. destruct Fi as (-> & G1 & g1 & f1 & EG & N1 & L1 & K'). split; [done|].
  exists G1, g1, f1. split; [done|]. split; [done|]. split; [done|]. intros E'. destruct (K' E') as [K3 _]. split; [done|].
  apply app_inj_tail in EG as [<- <-]. cbn. rewrite app_assoc. by apply sublist_app.
Qed.

Definition grows (G G' : list segment) (e : WALEntry) : Prop :=
  all_entries G' = all_entries G \/ all_entries G' = all_entries G ++ [e].

Lemma grows_snoc G0 g e n : grows (G0 ++ [g]) (G0 ++ [mkSeg (num g) (entries g ++ [e]) n]) e.
Proof. right. rewrite !all_entries_snoc. cbn. by rewrite app_assoc. Qed.

(** The outcome of a write: the entry is in the log, or the writer has failed. *)
Definition wrote (w : WriteAheadLog) (G : list segment) (A S : list WALEntry) (e : WALEntry) (r : result wal_error unit) (w' : WriteAheadLog) : Prop :=
  exists G', grows G G' e /\ kept w w' /\ inv w' G' A S /\ (is_ok r = true -> inv (set_pending true w') G' (A ++ [e]) S).

Lemma flush_closed w os : failed w = false -> currentFile w = None -> buffer w <> [] ->
  writer_Flush (w, os) = (Err ErrIO, (set_writer (buffer w) true w, os)).
Proof.
  intros F C B. unfold writer_Flush. io. rewrite F. destruct (buffer w) as [|x b]; [done|]. unfold file_Write. io. by rewrite C.
Qed.

Lemma through_closed p w os : currentFile w = None -> write_through p (w, os) = (Err ErrIO, (set_writer (buffer w) true w, os)).
Proof. intros C. unfold write_through, file_Write. io. by rewrite C. Qed.

Lemma append_nonempty b e : b ++ Encode e <> [].
Proof. intros E. apply app_nil in E as [_ E]. by apply (encode_nonempty e). Qed.

(** The log whose file could not be opened takes entries, which go nowhere. *)
Lemma write_closed w os G A S e : inv w G A S -> failed w = false -> currentFile w = None ->
  match writer_Write (Encode e) (w, os) with (r, (w', _)) => wrote w G A S e r w' end.
Proof.
  intros H Ef Ec. assert (Kd : forall b er, kept w (set_writer b er w)) by (intros; unfold kept; cbn; rewrite Ec; done).
  assert (Failed : forall b, wrote w G A S e (Err ErrIO) (set_writer b true w)).
  { intros b. exists G. split; [by left|]. split; [apply Kd|]. split; [by apply inv_failed|done]. }
  unfold writer_Write. io. rewrite Ef. destruct (Nat.leb_spec (length (Encode e)) (bufferSize - length (buffer w))) as [Le|Gt].
  - exists G. split; [by left|]. split; [apply Kd|]. assert (I : inv (set_writer (buffer w ++ Encode e) false w) G A S).
    { destruct H as [D B Sa Ac Fi]. constructor; cbn; [done..|]. rewrite Ec. intros _. right. apply append_nonempty. }
    split; [done|]. intros _. eapply inv_pending; [done|done|]. right. apply append_nonempty.
  - destruct (buffer w) as [|x b] eqn:Eb.
    + rewrite through_closed by done. apply Failed.
    + rewrite flush_closed by done. apply Failed.
Qed.

Lemma file_open p w os name : currentFile w = Some name -> exists os',
  file_Write p (w, os) = (Ok (Ok tt), (set_dir (alter (append_to p) name (dir w)) w, os')) \/
  exists n, file_Write p (w, os) = (Ok (Err n), (set_dir (alter (append_to (take n p)) name (dir w)) w, os')).
Proof.
  intros C. unfold file_Write. io. rewrite C. destruct os as [|[|n|n] os]; cbn.
  - exists []. by left.
  - exists os. by left.
  - exists os. right. by exists n.
  - exists os. right. by exists n.
Qed.

Lemma append_nil name (d : disk) : alter (append_to []) name d = d.
Proof.
  apply map_eq. intros i. destruct (decide (i = name)) as [->|N]; [|by rewrite lookup_alter_ne].
  rewrite lookup_alter_eq. destruct (d !! name) as [[c n]|]; [|done]. cbn. unfold append_to. cbn. by rewrite app_nil_r.
Qed.

Lemma append_append p q name (d : disk) : alter (append_to q) name (alter (append_to p) name d) = alter (append_to (p ++ q)) name d.
Proof.
  apply map_eq. intros i. destruct (decide (i = name)) as [->|N]; [|by rewrite !lookup_alter_ne].
  rewrite !lookup_alter_eq. destruct (d !! name) as [[c n]|]; [|done]. cbn. unfold append_to. cbn. by rewrite app_assoc.
Qed.

Lemma set_same w b er : buffer w = b -> failed w = er -> set_writer b er w = w.
Proof. destruct w. cbn. by intros -> ->. Qed.

(** The log whose file is open. *)
Lemma write_open w os G A S e name : inv w G A S -> whole e -> failed w = false -> currentFile w = Some name ->
  match writer_Write (Encode e) (w, os) with (r, (w', _)) => wrote w G A S e r w' end.
Proof.
  intros H We Ef Ec. destruct (inv_open w G A S name H Ec) as (G0 & g & f & -> & Ng & Nm & L & Hf & K). destruct (K Ef) as [K1 K2].
  assert (Kd : forall h b er, kept w (set_writer b er (set_dir (alter h name (dir w)) w))) by (intros; unfold kept; cbn; done).
  assert (En : encoded (entries g ++ [e]) = content f ++ buffer w ++ Encode e) by (by rewrite encoded_app, encoded_one, <- K1, app_assoc).
  assert (Part : forall p b err r, content f ++ p `prefix_of` encoded (entries g ++ [e]) -> (err = false -> p ++ b = buffer w ++ Encode e) ->
    (is_ok r = true -> err = false) -> wrote w (G0 ++ [g]) A S e r (set_writer b err (set_dir (alter (append_to p) name (dir w)) w))).
  { intros p b err r P Eb Er. eexists. split; [apply grows_snoc|]. split; [apply Kd|].
    destruct (write_entry_part w G0 g f e p b err name A S H Ec Nm Ng L Hf We P) as [W1 W2].
    - intros E. split; [by rewrite En, (Eb E)|done].
    - split; [exact W1|]. intros R. by apply W2, Er. }
  unfold writer_Write. io. rewrite Ef. destruct (Nat.leb_spec (length (Encode e)) (bufferSize - length (buffer w))) as [Le|Gt].
  { specialize (Part [] (buffer w ++ Encode e) false (Ok tt)). rewrite append_nil in Part. cbn [app] in Part.
    replace (set_dir (dir w) w) with w in Part by (by destruct w). apply Part; [|done|done].
    rewrite En, app_nil_r. by apply prefix_app_r. }
  set (k := (bufferSize - length (buffer w))%nat). destruct (buffer w) as [|x b] eqn:Eb.
  - unfold write_through. io. destruct (file_open (Encode e) w os name Ec) as (os' & [-> |(n & ->)]); cbn.
    + specialize (Part (Encode e) [] false (Ok tt)). rewrite set_same in Part by done. apply Part; [by rewrite En|by rewrite app_nil_r|done].
    + rewrite Eb. apply (Part (take n (Encode e)) [] true); [|done|done]. rewrite En. apply prefix_app, prefix_take.
  - set (q := (x :: b) ++ take k (Encode e)). unfold writer_Flush. io. cbn [failed buffer set_writer].
    assert (Eq : q ++ drop k (Encode e) = (x :: b) ++ Encode e) by (unfold q; by rewrite <- app_assoc, take_drop).
    assert (Pq : forall p, content f ++ q ++ take p (drop k (Encode e)) `prefix_of` encoded (entries g ++ [e])).
    { intros p. rewrite En, <- Eq. do 2 apply prefix_app. apply prefix_take. }
    pose proof (Pq O) as Pq0. rewrite take_0, app_nil_r in Pq0.
    destruct q as [|y q'] eqn:Dq; [done|]. rewrite <- Dq in *. clear Dq.
    destruct (file_open q (set_writer q false w) os name Ec) as (os' & [-> |(n & ->)]); cbn [fst snd].
    2:{ apply (Part (take n q) (drop n q) true); [|done|done]. etransitivity; [|exact Pq0]. apply prefix_app, prefix_take. }
    destruct (length (drop k (Encode e)) <=? bufferSize)%nat; [by apply (Part q (drop k (Encode e)) false)|].
    unfold write_through. io. match goal with |- context [file_Write ?p (?w2, os')] => set (w2' := w2) end.
    destruct (file_open (drop k (Encode e)) w2' os' name Ec) as (os2 & [-> |(n & ->)]); cbn [fst snd].
    + specialize (Part (q ++ drop k (Encode e)) [] false (Ok tt)). rewrite <- append_append in Part. apply Part; [by rewrite En, Eq|by rewrite app_nil_r|done].
    + specialize (Part (q ++ take n (drop k (Encode e))) [] true (Err ErrIO)). rewrite <- append_append in Part. apply Part; done.
Qed.

(** What the calls of the clients do not change. *)
Definition same_log (w w' : WriteAheadLog) : Prop := config w' = config w /\ closed w' = closed w /\ sequence w' = sequence w.

Lemma kept_same w w' : kept w w' -> same_log w w' /\ segmentSeq w' = segmentSeq w.
Proof. unfold kept, same_log. tauto. Qed.

Lemma inv_segment_size w G A S n : inv w G A S -> inv (set_segment (segmentSeq w) n w) G A S.
Proof. by intros []. Qed.

Lemma inv_sequence w G A S n : inv w G A S -> inv (set_sequence n w) G A S.
Proof. by intros []. Qed.

Lemma writeEntry_inv w os G A S e : inv w G A S -> whole e ->
  match writeEntry (Encode e) (w, os) with
  | (r, (w', _)) => exists G', grows G G' e /\ same_log w w' /\ segmentSeq w' = segmentSeq w /\ inv w' G' (if is_ok r then A ++ [e] else A) S
  end.
Proof.
  intros H We. assert (K : match writer_Write (Encode e) (w, os) with (r, (w', _)) => wrote w G A S e r w' end).
  { destruct (failed w) eqn:Ef.
    - unfold writer_Write. io. rewrite Ef. exists G. split; [by left|]. done.
    - destruct (currentFile w) eqn:Ec; [by eapply write_open|by apply write_closed]. }
  unfold writeEntry. io. destruct (writer_Write (Encode e) (w, os)) as [[[]|err] [w1 os1]]; destruct K as (G' & Gr & [Sm Sq]%kept_same & I1 & I2).
  - exists G'. cbn. split; [done|]. split; [exact Sm|]. split; [done|]. specialize (I2 eq_refl). apply (inv_segment_size _ _ _ _ (i64 (segmentSize w1 + len (Encode e)))) in I2. exact I2.
  - by exists G'.
Qed.

(** A new segment for a log whose file is closed. *)
Lemma openCurrentSegment_inv w os G A S : disk_ok (dir w) G -> Forall (fun g => num g < segmentSeq w) G -> in_u64 (segmentSeq w) ->
  sublist A (all_safe G) -> sublist S (all_safe G) -> currentFile w = None -> pendingSync w = false ->
  match openCurrentSegment (w, os) with
  | (r, (w', os')) => exists G',
    all_entries G' = all_entries G /\ same_log w w' /\ segmentSeq w' = segmentSeq w /\ inv w' G' A S /\ (os = [] -> r = Ok tt /\ os' = [])
  end.
Proof.
  intros D Fl B HA HS Ec Ep. destruct (disk_new (dir w) G (segmentSeq w) D B Fl) as [No D'].
  assert (Sn : all_safe (G ++ [mkSeg (segmentSeq w) [] 0]) = all_safe G) by (rewrite all_safe_snoc; apply app_nil_r).
  assert (En : all_entries (G ++ [mkSeg (segmentSeq w) [] 0]) = all_entries G) by (rewrite all_entries_snoc; apply app_nil_r).
  assert (Fl' : Forall (fun g => num g <= segmentSeq w) G) by (eapply Forall_impl; [exact Fl|]; cbn; lia).
  assert (I0 : inv w G A S) by (constructor; [done..|]; rewrite Ec; congruence).
  assert (Fn : Forall (fun g => num g <= segmentSeq w) (G ++ [mkSeg (segmentSeq w) [] 0])) by (apply Forall_app; split; [done|]; repeat constructor; cbn; lia).
  assert (Opened : forall n, inv (set_segment (segmentSeq w) n (set_writer [] false (set_file (Some (segmentPath (segmentSeq w)))
      (set_dir (<[segmentPath (segmentSeq w) := mkFile [] 0]> (dir w)) w)))) (G ++ [mkSeg (segmentSeq w) [] 0]) A S).
  { intros n. constructor; cbn; [done|done|by rewrite Sn|by rewrite Sn|]. split; [done|]. exists G, (mkSeg (segmentSeq w) [] 0), (mkFile [] 0).
    split; [done|]. split; [done|]. split; [by rewrite lookup_insert_eq|]. intros _. cbn. split; [done|]. by rewrite app_nil_r. }
  assert (Unopened : inv (set_dir (<[segmentPath (segmentSeq w) := mkFile [] 0]> (dir w)) w) (G ++ [mkSeg (segmentSeq w) [] 0]) A S).
  { constructor; cbn; [done|done|by rewrite Sn|by rewrite Sn|]. rewrite Ec. congruence. }
  unfold openCurrentSegment, initializeSegment. io. destruct os as [|[|n|n] os]; cbn; rewrite ?No, ?lookup_insert_eq.
  - by exists (G ++ [mkSeg (segmentSeq w) [] 0]).
  - destruct os as [|[|n|n] os]; cbn; exists (G ++ [mkSeg (segmentSeq w) [] 0]); by rewrite ?lookup_insert_eq.
  - by exists G.
  - by exists G.
Qed.

Lemma file_Close_inv w os G A S : inv w G A S -> pendingSync w = false ->
  match file_Close (w, os) with (r, (w', _)) => same_log w w' /\ segmentSeq w' = segmentSeq w /\ dir w' = dir w /\ pendingSync w' = false /\
    currentFile w' = None end.
Proof.
  intros H P. unfold file_Close. io. destruct (currentFile w) eqn:Ec; [|done]. by destruct os as [|[|n|n] os].
Qed.

Lemma inv_unopened w w' G A S : inv w G A S -> pendingSync w = false -> segmentSeq w' = segmentSeq w -> dir w' = dir w ->
  pendingSync w' = false -> currentFile w' = None -> inv w' G A S.
Proof.
  intros [D B Sa Ac Fi] P E1 E2 E3 E4. constructor; rewrite ?E1, ?E2, ?E3; try done; [by intros; apply Ac|]. rewrite E4. done.
Qed.

Lemma rotateSegment_inv t w os G A S : inv w G A S -> segmentSeq w + 1 < two64 ->
  match rotateSegment t (w, os) with
  | (r, (w', _)) => exists G', all_entries G' = all_entries G /\ same_log w w' /\ segmentSeq w' <= segmentSeq w + 1 /\ inv w' G' A S
  end.
Proof.
  intros H B. unfold rotateSegment. io. pose proof (syncLocked_inv t w os G A S H) as K.
  destruct (syncLocked t (w, os)) as [[[]|e] [w1 os1]]; destruct K as (G1 & E1 & [Sm1 Sq1]%kept_same & I1 & P1);
    [|by exists G1; split; [done|]; split; [done|]; split; [lia|]].
  destruct (P1 eq_refl) as [P1' S1]. pose proof (file_Close_inv w1 os1 G1 A S I1 P1') as C.
  destruct (file_Close (w1, os1)) as [[[]|e] [w2 os2]]; destruct C as (Sm2 & Sq2 & Dr2 & P2 & C2).
  2:{ exists G1. split; [done|]. split; [unfold same_log in *; intuition congruence|]. split; [lia|]. by eapply inv_unopened. }
  destruct I1 as [D1 [B1 R1] Sa1 _ _]. unfold in_u64 in R1. cbn [fst snd]. rewrite u64_id by (unfold in_u64; lia).
  pose proof (openCurrentSegment_inv (set_segment (segmentSeq w2 + 1) 0 w2) os2 G1 A S) as O. cbn in O.
  rewrite Dr2 in O. specialize (O D1 ltac:(eapply Forall_impl; [exact B1|]; cbn; lia) ltac:(unfold in_u64; lia) S1 Sa1 C2 P2).
  destruct (openCurrentSegment _) as [r [w3 os3]]. destruct O as (G2 & E2 & Sm3 & Sq3 & I3 & _).
  exists G2. split; [congruence|]. split; [unfold same_log in *; cbn in *; intuition congruence|]. split; [cbn in Sq3; lia|done].
Qed.

Lemma rotateIfNeeded_inv n t w os G A S : inv w G A S -> segmentSeq w + 1 < two64 ->
  match rotateIfNeeded n t (w, os) with
  | (r, (w', _)) => exists G', all_entries G' = all_entries G /\ same_log w w' /\ segmentSeq w' <= segmentSeq w + 1 /\ inv w' G' A S
  end.
Proof.
  intros H B. unfold rotateIfNeeded. io. destruct (_ <=? _); [|by apply rotateSegment_inv].
  exists G. split; [done|]. split; [done|]. split; [lia|done].
Qed.

Lemma syncIfNeeded_inv t t' w os G A S : inv w G A S ->
  match syncIfNeeded t t' (w, os) with
  | (r, (w', _)) => exists G', all_entries G' = all_entries G /\ kept w w' /\ inv w' G' A S /\
      (is_ok r = true -> SyncMode (config w) = SyncEveryWrite -> sublist A (all_safe G'))
  end.
Proof.
  intros H. unfold syncIfNeeded, syncIfIntervalElapsed. io.
  assert (K : match syncLocked t' (w, os) with (r, (w', _)) => exists G', all_entries G' = all_entries G /\ kept w w' /\ inv w' G' A S /\
      (is_ok r = true -> SyncMode (config w) = SyncEveryWrite -> sublist A (all_safe G')) end).
  { pose proof (syncLocked_inv t' w os G A S H) as K. destruct (syncLocked t' (w, os)) as [r [w' os']].
    destruct K as (G' & E & K & I & P). exists G'. split; [done|]. split; [done|]. split; [done|]. intros R _. by apply P. }
  destruct (Z.eqb_spec (SyncMode (config w)) SyncEveryWrite) as [E|N]; [exact K|].
  assert (Still : exists G', all_entries G' = all_entries G /\ kept w w /\ inv w G' A S /\
      (true = true -> SyncMode (config w) = SyncEveryWrite -> sublist A (all_safe G'))) by (by exists G).
  destruct (SyncMode (config w) =? SyncBatched); [|exact Still]. destruct (_ <=? _); [exact K|exact Still].
Qed.

(** The entry an append would write. *)
Definition prepared (w : WriteAheadLog) (entry : WALEntry) (now : nat -> Z) : WALEntry :=
  match prepareEntry entry (now 0%nat) (w, []) with (Ok e, _) => stamped e | _ => entry end.

(** What an append leaves, whatever it returns. *)
Definition appended (w w' : WriteAheadLog) (G : list segment) (A S : list WALEntry) (e : WALEntry) (answer : Z * option wal_error) : Prop :=
  exists G', grows G G' e /\ config w' = config w /\ closed w' = closed w /\ segmentSeq w' <= segmentSeq w + 1 /\
    inv w' G' (match answer.2 with None => A ++ [e] | Some _ => A end) S /\
    (answer.2 = None -> SyncMode (config w) = SyncEveryWrite -> sublist (A ++ [e]) (all_safe G')).

Lemma appendLocked_inv entry now w os G A S : inv w G A S -> fits entry -> segmentSeq w + 1 < two64 ->
  match appendLocked entry now (w, os) with (r, (w', _)) => appended w w' G A S (prepared w entry now) (returned r) end.
Proof.
  intros H Fe B. unfold appendLocked, prepared. io. unfold prepareEntry. io. cbn [snd]. set (seq := u64 (sequence w + 1)). set (e := mkEntry seq _ _ _).
  assert (We : whole (stamped e)) by (by apply whole_stamped). rewrite <- (record_encode_stamped e).
  pose proof (rotateIfNeeded_inv (len (Encode (stamped e))) (now 1%nat) (set_sequence seq w) os G A S (inv_sequence w G A S seq H) B) as R.
  destruct (rotateIfNeeded _ _ _) as [[[]|err] [w1 os1]]; destruct R as (G1 & E1 & (C1 & L1 & _) & Sq1 & I1).
  2:{ exists G1. split; [by left|]. cbn in *. done. }
  pose proof (writeEntry_inv w1 os1 G1 A S (stamped e) I1 We) as W. cbn [fst snd].
  destruct (writeEntry _ _) as [[[]|err] [w2 os2]]; destruct W as (G2 & Gr2 & (C2 & L2 & _) & Sq2 & I2).
  2:{ exists G2. unfold grows in *. rewrite E1 in Gr2. split; [done|]. cbn in *. split; [congruence|]. split; [congruence|]. split; [lia|done]. }
  pose proof (syncIfNeeded_inv (now 2%nat) (now 3%nat) w2 os2 G2 _ S I2) as Y. cbn [fst snd].
  assert (Gr : forall G3, all_entries G3 = all_entries G2 -> grows G G3 (stamped e)) by (unfold grows in *; intros G3 ->; by rewrite <- E1).
  destruct (syncIfNeeded _ _ _) as [[[]|err] [w3 os3]]; destruct Y as (G3 & E3 & (C3 & _ & Sq3 & _ & L3 & _) & I3 & K3);
    exists G3; (split; [by apply Gr|]); cbn in *; (split; [congruence|]; split; [congruence|]; split; [lia|]); [|split; [|done]].
  - split; [done|]. intros _ Md. apply K3; [done|congruence].
  - eapply inv_weaken; [exact I3| |done]. by apply sublist_inserts_r.
Qed.

(* ------------------------------------------------------------------ *)
(** ** Opening a log *)

Section Sorted.
Context `{SliceSort}.

(** What is left on the disk of the entries known to be safe. *)
Definition disk_has (d : disk) (G : list segment) (S : list WALEntry) (n : Z) : Prop :=
  disk_ok d G /\ sublist S (all_safe G) /\ Forall (fun g => num g <= n) G.

(** Where [loadSequence] puts the next segment. *)
Definition next_segment (G : list segment) : Z := match last G with Some g => num g + 1 | None => 1 end.

Lemma next_segment_after d G n : disk_ok d G -> 0 <= n < two64 - 1 -> Forall (fun g => num g <= n) G ->
  Forall (fun g => num g < next_segment G) G /\ 0 < next_segment G <= n + 1.
Proof.
  intros D B F. unfold next_segment. destruct G as [|g G _] using rev_ind; [split; [constructor|cbn; lia]|].
  rewrite last_snoc. destruct D as [Df _ S]. rewrite fmap_app in S. apply (StronglySorted_mid Z.lt) in S as (_ & _ & Fl & _).
  rewrite Forall_fmap in Fl. destruct (Df g) as [Bg _]; [apply elem_of_app; right; left|]. unfold in_u64 in Bg.
  apply Forall_app in F as [_ F]. apply Forall_cons in F as [F _]. split; [|lia].
  apply Forall_app. split; [eapply Forall_impl; [exact Fl|]; cbn; lia|]. repeat constructor. lia.
Qed.

(** The fields of a log that is being opened. *)
Definition opening (w w' : WriteAheadLog) : Prop :=
  dir w' = dir w /\ config w' = config w /\ closed w' = closed w /\ currentFile w' = currentFile w /\ pendingSync w' = pendingSync w.

Lemma loadFrom_inv w os G g : disk_ok (dir w) (G ++ [g]) -> num g + 1 < two64 ->
  match loadSequenceFromSegments (num <$> (G ++ [g])) (w, os) with
  | (r, (w', os')) => opening w w' /\ segmentSeq w' = num g + 1 /\ (os = [] -> r = Ok tt /\ os' = [])
  end.
Proof.
  intros D B. destruct (disk_files _ _ D g) as ([B0 _] & f & L & _); [apply elem_of_app; right; left|].
  unfold loadSequenceFromSegments. rewrite fmap_app. cbn [fmap list_fmap]. rewrite last_snoc, u64_id by (unfold in_u64; lia).
  unfold readSegment. io. destruct os as [|[|k|k] os]; cbn [fst snd dir set_segment]; rewrite ?L; cbn [fst snd]; try done.
  all: by destruct (last (readEntriesFromReader _)).
Qed.

Lemma loadSequence_inv w os G n : disk_ok (dir w) G -> 0 <= n < two64 - 1 -> Forall (fun g => num g <= n) G ->
  match loadSequence (w, os) with
  | (r, (w', os')) => opening w w' /\ (is_ok r = true -> segmentSeq w' = next_segment G) /\ (os = [] -> r = Ok tt /\ os' = [])
  end.
Proof.
  intros D B F. unfold loadSequence, listSegments. io.
  assert (K : forall os', match (match num <$> G with [] => initializeEmptySequence | _ => loadSequenceFromSegments (num <$> G) end) (w, os') with
    | (r, (w', os2)) => opening w w' /\ (is_ok r = true -> segmentSeq w' = next_segment G) /\ (os' = [] -> r = Ok tt /\ os2 = [])
    end).
  { intros os'. destruct G as [|g G _] using rev_ind; [by cbn|]. destruct (num <$> G ++ [g]) as [|z zs] eqn:Ez; [by destruct G|]. rewrite <- Ez.
    apply Forall_app in F as [_ F]. apply Forall_cons in F as [F _].
    pose proof (loadFrom_inv w os' G g D ltac:(lia)) as K. destruct (loadSequenceFromSegments _ _) as [r [w' os2]].
    destruct K as (K1 & K2 & K3). split; [done|]. split; [|done]. intros _. unfold next_segment. by rewrite last_snoc. }
  destruct os as [|[|k|k] os]; cbn [fst snd]; [..|done|done]; rewrite (sort_segments _ G D).
  - specialize (K []). by destruct (num <$> G).
  - specialize (K os). destruct ((match num <$> G with [] => initializeEmptySequence | _ => _ end) (w, os)) as [r [w' os2]].
    destruct K as (K1 & K2 & _). split; [done|]. by split.
Qed.

Lemma new_inv cfg d os G S n : disk_has d G S n -> 0 <= n < two64 - 1 ->
  match NewWriteAheadLog cfg d os with
  | (r, (w', os')) => exists G', all_entries G' = all_entries G /\ disk_has (dir w') G' S (n + 1) /\
      (is_ok r = true -> inv w' G' S S /\ config w' = cfg /\ closed w' = false /\ segmentSeq w' <= n + 1) /\
      (os = [] -> r = Ok tt)
  end.
Proof.
  intros (D & HS & F) B. destruct (next_segment_after _ _ _ D B F) as [Nx1 Nx2].
  assert (Fn : forall m, n <= m -> Forall (fun g => num g <= m) G) by (intros m Hm; eapply Forall_impl; [exact F|]; cbn; lia).
  unfold NewWriteAheadLog, initialize. io. set (w0 := mkWAL _ _ _ _ _ _ _ _ _ _ _).
  assert (Main : forall os', match (let (r, s) := loadSequence (w0, os') in match r with Ok _ => openCurrentSegment s | Err e => (Err e, s) end) with
    | (r, (w', os2)) => exists G', all_entries G' = all_entries G /\ disk_has (dir w') G' S (n + 1) /\
      (is_ok r = true -> inv w' G' S S /\ config w' = cfg /\ closed w' = false /\ segmentSeq w' <= n + 1) /\ (os' = [] -> r = Ok tt) end).
  { intros os'. pose proof (loadSequence_inv w0 os' G n D B F) as K. destruct (loadSequence (w0, os')) as [[[]|e] [w1 os1]];
      destruct K as ((E1 & E2 & E3 & E4 & E5) & K2 & K3).
    2:{ exists G. rewrite E1. split; [done|]. split; [split; [done|]; split; [done|apply Fn; lia]|]. split; [done|]. intros ->. by destruct K3. }
    specialize (K2 eq_refl). pose proof (openCurrentSegment_inv w1 os1 G S S) as O. rewrite E1, E4, E5, K2 in O.
    specialize (O D Nx1 ltac:(unfold in_u64; lia) HS HS eq_refl eq_refl). destruct (openCurrentSegment (w1, os1)) as [r [w2 os2]].
    destruct O as (G2 & A2 & (C2 & L2 & _) & Sq2 & I2 & O2). exists G2. split; [done|]. split.
    - split; [apply I2|]. split; [apply I2|]. destruct I2 as [_ [Fb _] _ _ _]. eapply Forall_impl; [exact Fb|]. cbn. lia.
    - split; [intros _; split; [done|]; split; [by rewrite C2, E2|]; split; [by rewrite L2, E3|lia]|].
      intros ->. destruct (K3 eq_refl) as [_ ->]. by apply O2. }
  destruct os as [|[|k|k] os]; cbn [fst snd].
  - apply (Main []).
  - specialize (Main os). destruct (let (r, s) := loadSequence (w0, os) in match r with Ok _ => openCurrentSegment s | Err e => (Err e, s) end) as [r [w' os2]]. destruct Main as (G' & M1 & M2 & M3 & M4). by exists G'.
  - exists G. split; [done|]. split; [split; [done|]; split; [done|apply Fn; lia]|]. done.
  - exists G. split; [done|]. split; [split; [done|]; split; [done|apply Fn; lia]|]. done.
Qed.
(* ------------------------------------------------------------------ *)
(** ** Any calls, failures and restarts *)

(** [acked]: the entries whose append returned no error since the last
    restart, and those known to be safe then; [safe]: the entries that a
    synchronisation has answered for; [issued]: all that were given. *)
Record system := mkSys { wal : WriteAheadLog; running : bool; acked : list WALEntry; safe : list WALEntry; issued : list WALEntry }.

(** [Restart None]: the process ends, however, and starts again; [Some keep]:
    the power fails. *)
Inductive op :=
| OAppend (entry : WALEntry) (now : nat -> Z) (os : list outcome)
| OSync (t : Z)
| OBackground (t : Z)
| OClose (t : Z)
| ORestart (keep : option (string -> nat)) (cfg : WALConfig) (os : list outcome).

Definition no_log : WriteAheadLog := mkWAL DefaultWALConfig ∅ None [] false 0 0 0 true false 0.
Definition start : system := mkSys no_log false [] [] [].

Definition perform (s : system) (o : op) : system :=
  let w := wal s in
  match o with
  | ORestart keep cfg os =>
    let d := match keep with None => dir w | Some keep => power_failure keep (dir w) end in
    let '(r, (w, _)) := NewWriteAheadLog cfg d os in
    mkSys w (is_ok r) (safe s) (safe s) (issued s)
  | _ =>
    if running s && negb (closed w) then
      match o with
      | OAppend entry now os =>
        let '((w', _), answer) := Append (w, os) entry now in
        let e := prepared w entry now in
        let acked' := match answer.2 with None => acked s ++ [e] | Some _ => acked s end in
        mkSys w' true acked'
          (match answer.2 with None => if SyncMode (config w) =? SyncEveryWrite then acked' else safe s | Some _ => safe s end) (issued s ++ [e])
      | OSync t =>
        let '((w', _), answer) := Sync (w, []) t in
        mkSys w' true (acked s) (match answer with None => acked s | Some _ => safe s end) (issued s)
      | OBackground t => mkSys (trySyncPending t (w, [])).1 true (acked s) (safe s) (issued s)
      | OClose t =>
        let '((w', _), answer) := Close (w, []) t in
        mkSys w' true (acked s) (match answer with None => acked s | Some _ => safe s end) (issued s)
      | _ => s
      end
    else s
  end.

Definition performs (s : system) (os : list op) : system := foldl perform s os.

Definition op_fits (o : op) : Prop := match o with OAppend entry _ _ => fits entry | _ => True end.

(** [n]: the number of operations so far. *)
Definition sys_ok (n : Z) (s : system) : Prop := exists G,
  disk_has (dir (wal s)) G (safe s) n /\ sublist (all_entries G) (issued s) /\ sublist (safe s) (acked s) /\
  (running s = true -> closed (wal s) = false -> inv (wal s) G (acked s) (safe s) /\ segmentSeq (wal s) <= n).

Lemma inv_disk_has w G A S n : inv w G A S -> segmentSeq w <= n -> disk_has (dir w) G S n.
Proof. intros [D [B _] Sa _ _] L. split; [done|]. split; [done|]. eapply Forall_impl; [exact B|]. cbn. lia. Qed.

Lemma disk_has_weaken d G S n m : disk_has d G S n -> n <= m -> disk_has d G S m.
Proof. intros (D & HS & F) L. split; [done|]. split; [done|]. eapply Forall_impl; [exact F|]. cbn. lia. Qed.

Lemma sys_ok_weaken n m s : sys_ok n s -> n <= m -> sys_ok m s.
Proof.
  intros (G & D & I & SA & R) L. exists G. split; [by eapply disk_has_weaken|]. split; [done|]. split; [done|].
  intros R1 R2. destruct (R R1 R2). split; [done|lia].
Qed.

(** The state a call leaves, from the invariant of its log. *)
Lemma sys_ok_running n w G A S I : inv w G A S -> segmentSeq w <= n -> sublist (all_entries G) I -> sublist S A ->
  sys_ok n (mkSys w true A S I).
Proof. intros Hi L HI HS. exists G. split; [by eapply inv_disk_has|]. done. Qed.

Lemma sys_ok_closed n w G A S I A' : inv w G A S -> closed w = true -> segmentSeq w <= n -> sublist (all_entries G) I -> sublist S A' ->
  sys_ok n (mkSys w true A' S I).
Proof. intros Hi C L HI HS. exists G. split; [by eapply inv_disk_has|]. split; [done|]. split; [done|]. cbn. congruence. Qed.

Lemma grows_issued G G' e I : grows G G' e -> sublist (all_entries G) I -> sublist (all_entries G') (I ++ [e]).
Proof. intros [->| ->] Hi; [by apply sublist_inserts_r|by apply sublist_app]. Qed.

Lemma append_step n s entry now os : sys_ok n s -> 0 <= n < two64 - 1 -> fits entry -> running s = true -> closed (wal s) = false ->
  sys_ok (n + 1) (perform s (OAppend entry now os)).
Proof.
  intros (G & D & I & SA & R) B Fe Ru Cl. destruct (R Ru Cl) as [Hi L]. unfold perform. rewrite Ru, Cl. cbn [andb negb].
  unfold Append. cbn [fst]. rewrite Cl. pose proof (appendLocked_inv entry now (wal s) os G _ _ Hi Fe ltac:(lia)) as K.
  destruct (appendLocked entry now (wal s, os)) as [r [w' os']]. destruct K as (G' & Gr & C & Lo & Sq & I' & Sy).
  pose proof (grows_issued _ _ _ _ Gr I) as Is. destruct (returned r) as [q [err|]]; cbn [snd] in *.
  - eapply sys_ok_running; [exact I'|lia|done|done].
  - assert (SA' : sublist (safe s) (acked s ++ [prepared (wal s) entry now])) by (by apply sublist_inserts_r).
    destruct (Z.eqb_spec (SyncMode (config (wal s))) SyncEveryWrite) as [E|_]; [|eapply sys_ok_running; [exact I'|lia|done|done]].
    eapply sys_ok_running; [eapply inv_all_safe; [exact I'|by apply Sy]|lia|done|done].
Qed.

Lemma sync_step n s t : sys_ok n s -> running s = true -> closed (wal s) = false ->
  sys_ok n (perform s (OSync t)) /\ sys_ok n (perform s (OBackground t)).
Proof.
  intros (G & D & I & SA & R) Ru Cl. destruct (R Ru Cl) as [Hi L]. unfold perform. rewrite Ru, Cl. cbn [andb negb].
  unfold Sync. cbn [fst]. rewrite Cl. destruct (doubleBuffer_inv t (wal s) G _ _ Hi) as [K1 (G2 & E2 & [_ Sq2]%kept_same & I2)]. split.
  - destruct (syncWithDoubleBuffer t (wal s, [])) as [r [w' os']]. destruct K1 as (G1 & E1 & [_ Sq1]%kept_same & I1 & S1).
    destruct r as [[]|e]; cbn [error_of].
    + eapply sys_ok_running; [eapply inv_all_safe; [exact I1|by apply S1]|lia|by rewrite E1|done].
    + eapply sys_ok_running; [exact I1|lia|by rewrite E1|done].
  - eapply sys_ok_running; [exact I2|lia|by rewrite E2|done].
Qed.

(** A call of [Close], which ends the log whatever it returns. *)
Lemma close_step n s t : sys_ok n s -> running s = true -> closed (wal s) = false -> sys_ok n (perform s (OClose t)).
Proof.
  intros (G & D & I & SA & R) Ru Cl. destruct (R Ru Cl) as [Hi L]. unfold perform. rewrite Ru, Cl. cbn [andb negb].
  unfold Close. cbn [fst snd]. rewrite Cl. set (w0 := set_closed (wal s)).
  assert (Hi0 : inv w0 G (acked s) (safe s)) by (by destruct Hi).
  assert (exists w1 G1, stopPeriodicSync t (w0, []) = (w1, (stopPeriodicSync t (w0, [])).2) /\ all_entries G1 = all_entries G /\ kept w0 w1 /\
    inv w1 G1 (acked s) (safe s)) as (w1 & G1 & -> & E1 & K1 & I1).
  { unfold stopPeriodicSync. destruct (_ =? _); [|by exists w0, G].
    destruct (doubleBuffer_inv t w0 G _ _ Hi0) as [_ (G2 & E2 & K2 & I2)]. exists (trySyncPending t (w0, [])).1, G2. by destruct (trySyncPending t (w0, [])). }
  unfold closeLocked. io. generalize (stopPeriodicSync t (w0, [])).2. intros os.
  pose proof (syncLocked_inv t w1 os G1 _ _ I1) as Y. destruct (syncLocked t (w1, os)) as [r [w2 os2]]. destruct Y as (G2 & E2 & K2 & I2 & S2).
  pose proof (kept_trans _ _ _ K1 K2) as (_ & _ & Sq & _ & Lo & _). cbn in Sq, Lo.
  assert (Is : sublist (all_entries G2) (issued s)) by (by rewrite E2, E1).
  destruct r as [[]|e]; cbn [error_of]; [|eapply sys_ok_closed; [exact I2|done|lia|done|done]].
  destruct (S2 eq_refl) as [P2 A2]. pose proof (file_Close_inv w2 os2 G2 _ _ I2 P2) as C. destruct (file_Close (w2, os2)) as [r3 [w3 os3]].
  destruct C as ((_ & Lo3 & _) & Sq3 & Dr3 & P3 & C3). pose proof (inv_unopened _ w3 _ _ _ I2 P2 Sq3 Dr3 P3 C3) as I3.
  assert (closed w3 = true) by congruence.
  destruct r3; cbn [error_of]; (eapply sys_ok_closed; [|done|lia|done|]); [by eapply inv_all_safe|done|exact I3|done].
Qed.

Lemma restart_step n s keep cfg os : sys_ok n s -> 0 <= n < two64 - 1 -> sys_ok (n + 1) (perform s (ORestart keep cfg os)).
Proof.
  intros (G & D & I & SA & R) B. unfold perform.
  assert (D' : disk_has (match keep with None => dir (wal s) | Some keep => power_failure keep (dir (wal s)) end) G (safe s) n).
  { destruct keep; [|done]. destruct D as (D1 & D2 & D3). split; [by apply power_failure_ok|done]. }
  pose proof (new_inv cfg _ os G (safe s) n D' B) as K. destruct (NewWriteAheadLog cfg _ os) as [r [w' os']].
  destruct K as (G' & E & Dn & Rn & _). exists G'. cbn. split; [done|]. split; [by rewrite E|]. split; [done|].
  intros Rr _. destruct (Rn Rr) as (In & _ & _ & Sq). done.
Qed.

Lemma perform_ok n s o : sys_ok n s -> 0 <= n < two64 - 1 -> op_fits o -> sys_ok (n + 1) (perform s o).
Proof.
  intros K B F. destruct o as [entry now os|t|t|t|keep cfg os]; [..|by apply restart_step];
    destruct (running s && negb (closed (wal s))) eqn:E; try (unfold perform; rewrite E; eapply sys_ok_weaken; [done|lia]);
    apply andb_true_iff in E as [E1 E2%negb_true_iff].
  - by apply append_step.
  - eapply sys_ok_weaken; [by apply sync_step|lia].
  - eapply sys_ok_weaken; [by apply sync_step|lia].
  - eapply sys_ok_weaken; [by apply close_step|lia].
Qed.

Lemma performs_ok os : forall n s, sys_ok n s -> 0 <= n -> n + len os < two64 -> Forall op_fits os -> sys_ok (n + len os) (performs s os).
Proof.
  induction os as [|o os IH]; intros n s K B L F; [unfold len; cbn; by rewrite Z.add_0_r|].
  apply Forall_cons in F as [F1 F2]. rewrite len_cons in *. pose proof (len_nonneg os).
  replace (n + (1 + len os)) with (n + 1 + len os) by lia. apply IH; [|lia|lia|done]. apply perform_ok; [done|lia|done].
Qed.

Lemma log_start_ok : sys_ok 0 start.
Proof. exists []. split; [|done]. split; [|done]. constructor; [intros g I; set_solver|done|constructor]. Qed.

(** C2: after any appends, of payloads below 2^32 bytes, synchronisations,
    restarts and power failures, fewer than 2^64 together, with any failure of
    the system calls of the appends and of the openings, a running log reads
    back, in order, every entry that a synchronisation has answered for and
    nothing that was not appended; so exactly what was appended, when a
    synchronisation has answered for all of it. The calls come one after
    another; the system calls of [Sync], of [Close] and of the background
    goroutine succeed ([failed_sync_forgotten] and [rotation_outruns_sync] are
    what happens otherwise), and the last reading meets no failure. *)
Theorem log_keeps os minSeq : Forall op_fits os -> len os < two64 ->
  let s := performs start os in
  running s = true -> closed (wal s) = false ->
  exists L, ReadFrom (wal s, []) minSeq = ((wal s, []), Ok (filter (fun e => minSeq <= Sequence e) L)) /\
    sublist (safe s) L /\ sublist L (issued s) /\ (safe s = issued s -> L = issued s).
Proof.
  intros F B s Ru Cl. destruct (performs_ok os 0 start log_start_ok ltac:(lia) B F) as (G & D & I & SA & R). fold s in D, I, SA, R.
  destruct (R Ru Cl) as [Hi _]. destruct (read_ok (wal s) G minSeq (inv_disk _ _ _ _ Hi) Cl) as (E & L1 & L2).
  set (L := G ≫= readable (dir (wal s))) in *. exists L. assert (S1 : sublist (safe s) L) by (etransitivity; [apply Hi|done]). assert (S2 : sublist L (issued s)) by (by etransitivity).
  split; [done|]. split; [done|]. split; [done|]. intros Eq. apply (anti_symm sublist); [done|]. by rewrite <- Eq.
Qed.

End Sorted.

End WriteAheadLogProof.
