(* ===== verification/WriteAheadLogCases.v ===== *)
(** * Truncation, and where the write-ahead log breaks its promises

    Truncation removes only what it may.  Then concrete runs: sequence numbers
    that start again, failed reads, failed and misplaced synchronisations that
    are reported as successes, and appends that succeed into a closed file. *)

From S2P Require Import Prelude GoStd WalRecord Semantic WriteAheadLog WriteAheadLogDisk WriteAheadLogProof.
Import WalRecord WriteAheadLog WriteAheadLogDisk WriteAheadLogProof.

Module WriteAheadLogCases.

Section Sorted.
Context `{SliceSort}.

(* ------------------------------------------------------------------ *)
(** ** Truncation *)

Definition from (b : Z) (es : list WALEntry) : list WALEntry := filter (fun e => b <= Sequence e) es.

Definition increasing (es : list WALEntry) : Prop := StronglySorted Z.lt (Sequence <$> es).

Lemma from_old b es e : increasing es -> last es = Some e -> Sequence e < b -> from b es = [].
Proof.
  intros I L B. unfold increasing in I. destruct es as [|e' es _] using rev_ind; [done|]. rewrite last_snoc in L. injection L as ->.
  rewrite fmap_app in I. apply (StronglySorted_mid Z.lt) in I as (_ & _ & F & _). rewrite Forall_fmap, Forall_forall in F.
  unfold from. rewrite filter_app. rewrite filter_cons_False by (cbn; lia). rewrite app_nil_r.
  apply elem_of_nil_inv. intros x [B' Ix]%list_elem_of_filter. specialize (F x Ix). cbn in F. lia.
Qed.

(** The files from which entries are read in the order of their numbers. *)
Definition ordered (d : disk) : Prop := forall name f, d !! name = Some f -> increasing (readEntriesFromReader (content f)).

Definition without (k : Z) (G : list segment) : list segment := filter (fun g => num g <> k) G.

Lemma delete_ok d G k : disk_ok d G -> in_u64 k -> disk_ok (delete (segmentPath k) d) (without k G).
Proof.
  intros [F N S] B. constructor.
  - intros g [Ng Ig]%list_elem_of_filter. destruct (F g Ig) as (Bg & f & L & Hf). split; [done|]. exists f.
    split; [|done]. rewrite lookup_delete_ne; [done|]. intros E. by apply segmentPath_inj in E.
  - intros name f L. apply lookup_delete_Some in L as [Ne L]. destruct (N _ _ L) as (g & Ig & ->). exists g.
    split; [|done]. apply list_elem_of_filter. split; [|done]. congruence.
  - unfold without. apply StronglySorted_fmap, StronglySorted_filter. by apply (StronglySorted_fmap num Z.lt G).
Qed.

(** Removing a segment whose last entry is old does not show from there on. *)
Lemma delete_view d G k b f e : disk_ok d G -> in_u64 k -> ordered d -> d !! segmentPath k = Some f ->
  last (readEntriesFromReader (content f)) = Some e -> Sequence e < b ->
  from b (without k G ≫= readable (delete (segmentPath k) d)) = from b (G ≫= readable d).
Proof.
  intros D B O L La Lt. destruct D as [F _ _]. induction G as [|g G IH]; [done|].
  assert (F' : forall h, h ∈ G -> in_u64 (num h) /\ exists f, d !! segmentPath (num h) = Some f /\ holds f h) by (intros; apply F; by right).
  destruct (F g) as (Bg & _); [left|]. specialize (IH F').
  change ((g :: G) ≫= readable d) with (readable d g ++ (G ≫= readable d)). unfold from in *. rewrite filter_app.
  unfold without. destruct (decide (num g = k)) as [E|Ne].
  - rewrite filter_cons_False by (intros Ne; by apply Ne). fold (without k G). rewrite IH.
    assert (filter (fun e => b <= Sequence e) (readable d g) = []) as ->; [|done].
    unfold readable. rewrite E, L. by apply (from_old b _ e); [apply (O _ _ L)| |].
  - rewrite filter_cons_True by done. fold (without k G).
    change ((g :: without k G) ≫= readable (delete (segmentPath k) d)) with
      (readable (delete (segmentPath k) d) g ++ (without k G ≫= readable (delete (segmentPath k) d))).
    rewrite filter_app, IH. f_equal. unfold readable. rewrite lookup_delete_ne; [done|]. intros E. by apply segmentPath_inj in E.
Qed.

(** What a truncation leaves, whenever it stops. *)
Definition truncated (w w' : WriteAheadLog) (G : list segment) (b : Z) : Prop := exists G',
  disk_ok (dir w') G' /\ ordered (dir w') /\ from b (G' ≫= readable (dir w')) = from b (G ≫= readable (dir w)) /\
  kept w w' /\ (forall name, currentFile w = Some name -> name = segmentPath (segmentSeq w) -> dir w' !! name = dir w !! name).

Lemma truncated_refl w G b : disk_ok (dir w) G -> ordered (dir w) -> truncated w w G b.
Proof. intros D O. by exists G. Qed.

(** The outcomes in which no segment that is opened fails to be read whole. *)
Definition whole_reads (os : list outcome) : Prop := Forall (fun o => match o with Cut _ => False | _ => True end) os.

Lemma maybeRemove_ok w os G b seg : disk_ok (dir w) G -> ordered (dir w) -> in_u64 seg -> in_u64 (segmentSeq w) -> whole_reads os ->
  match maybeRemoveSegment b seg (w, os) with (r, (w', os')) => truncated w w' G b /\ whole_reads os' end.
Proof.
  intros D O B Bs Wr. unfold maybeRemoveSegment, getSegmentLastSequence, readSegment. io.
  destruct (Z.leb_spec (segmentSeq w) seg) as [Le|Gt]; [split; [by apply truncated_refl|done]|].
  assert (K : forall os', whole_reads os' -> match (let lastSeq := match dir w !! segmentPath seg with
      Some f => match last (readEntriesFromReader (content f)) with Some e => Sequence e | None => 0 end | None => 0 end in
      (if (lastSeq =? 0) || (b <=? lastSeq) then mret tt else
       o ← next_outcome; match o with Fine => modify (fun w => set_dir (delete (segmentPath seg) (dir w)) w) | _ => fail ErrIO end) : io unit) (w, os')
    with (r, (w', os2)) => truncated w w' G b /\ whole_reads os2 end).
  { intros os' Wo. cbn zeta. destruct (dir w !! segmentPath seg) as [f|] eqn:L; [|split; [by apply truncated_refl|done]].
    destruct (last _) as [e|] eqn:La; [|split; [by apply truncated_refl|done]].
    destruct ((Sequence e =? 0) || (b <=? Sequence e)) eqn:T; [split; [by apply truncated_refl|done]|].
    apply orb_false_iff in T as [_ T%Z.leb_gt]. assert (R : truncated w (set_dir (delete (segmentPath seg) (dir w)) w) G b).
    { exists (without seg G). cbn. split; [by apply delete_ok|]. split.
      - intros name f' L'. apply lookup_delete_Some in L' as [_ L']. by apply (O name).
      - split; [by eapply delete_view|]. split; [done|]. intros name _ ->. rewrite lookup_delete_ne; [done|].
        intros E. apply segmentPath_inj in E; [lia|done..]. }
    io. destruct os' as [|[|k|k] os']; cbn; [done| |..]; apply Forall_cons in Wo as [? Wo]; (split; [first [exact R|by apply truncated_refl]|done]). }
  io. destruct os as [|[|k|k] os]; cbn [fst snd].
  4:{ by apply Forall_cons in Wr as [[] _]. }
  3:{ apply Forall_cons in Wr as [_ Wr]. destruct (dir w !! segmentPath seg); (split; [by apply truncated_refl|done]). }
  - specialize (K [] Wr). cbv [mbind io_bind mret io_ret get modify fail next_outcome] in K. cbn [fst snd] in K. by destruct (dir w !! segmentPath seg) as [f|].
  - apply Forall_cons in Wr as [_ Wr]. specialize (K os Wr). cbv [mbind io_bind mret io_ret get modify fail next_outcome] in K. cbn [fst snd] in K.
    by destruct (dir w !! segmentPath seg) as [f|].
Qed.

Lemma truncated_trans w1 w2 w3 G b : truncated w1 w2 G b -> (forall G', disk_ok (dir w2) G' -> ordered (dir w2) -> truncated w2 w3 G' b) -> truncated w1 w3 G b.
Proof.
  intros (G2 & D2 & O2 & E2 & K2 & C2) T. destruct (T G2 D2 O2) as (G3 & D3 & O3 & E3 & K3 & C3). exists G3.
  split; [done|]. split; [done|]. split; [by rewrite E3|]. split; [by eapply kept_trans|].
  intros name Cu E. destruct K2 as (_ & _ & Sq & _ & _ & Cf). rewrite C3; [by apply C2|congruence|congruence].
Qed.

Lemma truncateOld_ok b segs : forall w os G, disk_ok (dir w) G -> ordered (dir w) -> Forall in_u64 segs -> in_u64 (segmentSeq w) -> whole_reads os ->
  match truncateOldSegments segs b (w, os) with (r, (w', _)) => truncated w w' G b end.
Proof.
  induction segs as [|seg segs IH]; intros w os G D O B Bs Wr; [by apply truncated_refl|]. apply Forall_cons in B as [B1 B2].
  cbn [truncateOldSegments]. io. pose proof (maybeRemove_ok w os G b seg D O B1 Bs Wr) as K.
  destruct (maybeRemoveSegment b seg (w, os)) as [[[]|e] [w1 os1]]; destruct K as [K Wr1]; [|exact K].
  assert (Sq : segmentSeq w1 = segmentSeq w) by (destruct K as (_ & _ & _ & _ & (_ & _ & Sq & _) & _); done).
  specialize (fun G' D' O' => IH w1 os1 G' D' O' B2 ltac:(by rewrite Sq) Wr1).
  destruct (truncateOldSegments segs b (w1, os1)) as [r [w2 os2]]. by eapply truncated_trans.
Qed.

(** C3: truncating below a number, on an open log on which anything was done
    before and in whose files the entries stand in the order of their numbers,
    removes nothing that is read from that number on, and never the segment
    that is written, when the listing, any opening of a segment and any
    removal may fail, but each segment that is opened is read to its end. *)
Theorem truncate_keeps ops os b : Forall op_fits ops -> len ops < two64 ->
  let w := wal (performs start ops) in
  running (performs start ops) = true -> closed w = false -> ordered (dir w) -> whole_reads os ->
  let w' := (Truncate (w, os) b).1.1 in
  (ReadFrom (w', []) b).2 = (ReadFrom (w, []) b).2 /\
  (forall name, currentFile w = Some name -> dir w' !! name = dir w !! name).
Proof.
  intros F B w Ru Cl O Wr. destruct (performs_ok ops 0 start log_start_ok ltac:(lia) B F) as (G & _ & _ & _ & R). fold w in R.
  destruct (R Ru Cl) as [Hi _]. pose proof (inv_disk _ _ _ _ Hi) as D. destruct (inv_bound _ _ _ _ Hi) as [_ Bs].
  assert (T : truncated w (Truncate (w, os) b).1.1 G b).
  { unfold Truncate, listSegments. cbn [fst]. rewrite Cl. io.
    assert (Bg : Forall in_u64 (num <$> G)) by (apply Forall_fmap, Forall_forall; intros g I; by apply (disk_files _ _ D g)).
    destruct os as [|[|k|k] os]; cbn [fst snd]; [..|by apply truncated_refl|by apply truncated_refl]; rewrite (sort_segments _ G D).
    - pose proof (truncateOld_ok b _ w [] G D O Bg Bs Wr) as K. by destruct (truncateOldSegments _ b (w, [])) as [r [w1 os1]].
    - apply Forall_cons in Wr as [_ Wr]. pose proof (truncateOld_ok b _ w os G D O Bg Bs Wr) as K. by destruct (truncateOldSegments _ b (w, os)) as [r [w1 os1]]. }
  cbn zeta. destruct T as (G' & D' & _ & E & (_ & _ & _ & _ & Cl' & _) & Cu). split.
  - destruct (read_ok w G b D Cl) as (-> & _). destruct (read_ok _ G' b D' ltac:(congruence)) as (-> & _). cbn [snd]. f_equal. exact E.
  - intros name Cn. apply Cu; [done|]. destruct (inv_open w G _ _ name Hi Cn) as (_ & g & _ & _ & Ng & -> & _). by rewrite Ng.
Qed.

End Sorted.

(* ------------------------------------------------------------------ *)
(** ** Concrete runs *)

#[local] Existing Instance slice_merge_sort.

(** An entry of 27 bytes. *)
Definition entry (payload : byte) : WALEntry := mkEntry 0 7 EntryStateChange [payload; payload].
Definition clock (i : nat) : Z := 5.
Definition every_write : WALConfig := mkConfig 1000 SyncEveryWrite 0.
Definition periodic (size : Z) : WALConfig := mkConfig size SyncPeriodic 100.
Definition lost : string -> nat := fun _ => O.

(** The second append is written and not synchronised. *)
Definition eventful : list op :=
  [ORestart None every_write []; OAppend (entry x41) clock []; OAppend (entry x42) clock [Fine; Fails 0];
   OAppend (entry x43) clock []; OAppend (entry x44) clock [Fails 9]; ORestart (Some lost) every_write []].

Lemma log_keeps_witness :
  running (performs start eventful) = true /\ (Payload <$> safe (performs start eventful)) = [[x41; x41]; [x43; x43]] /\
  exists L, ReadFrom (wal (performs start eventful), []) 2 =
      ((wal (performs start eventful), []), Ok (filter (fun e => 2 <= Sequence e) L)) /\
    sublist (safe (performs start eventful)) L /\ sublist L (issued (performs start eventful)) /\
    (safe (performs start eventful) = issued (performs start eventful) -> L = issued (performs start eventful)).
Proof.
  split; [vm_compute; reflexivity|]. split; [vm_compute; reflexivity|].
  apply (log_keeps eventful 2); [repeat constructor|vm_compute; reflexivity..].
Defined.

(** Three entries in three segments. *)
Definition three_segments : list op :=
  [ORestart None (mkConfig 30 SyncEveryWrite 0) []; OAppend (entry x41) clock []; OAppend (entry x42) clock []; OAppend (entry x43) clock []].

Definition orderedb (d : disk) : bool :=
  forallb (fun p : string * file => bool_decide (StronglySorted Z.lt (Sequence <$> readEntriesFromReader (content p.2)))) (map_to_list d).

Lemma orderedb_ordered d : orderedb d = true -> ordered d.
Proof.
  intros K name f L. unfold orderedb in K. rewrite forallb_forall in K. specialize (K (name, f)). apply bool_decide_eq_true in K; [done|].
  apply list_elem_of_In. by apply elem_of_map_to_list.
Qed.

Definition may_fail : list outcome := [Fine; Fine; Fine; Fails 0].

Lemma truncate_keeps_witness :
  size (dir (Truncate (wal (performs start three_segments), may_fail) 2).1.1) = 2%nat /\
  (ReadFrom ((Truncate (wal (performs start three_segments), may_fail) 2).1.1, []) 2).2 = (ReadFrom (wal (performs start three_segments), []) 2).2 /\
  (forall name, currentFile (wal (performs start three_segments)) = Some name ->
    dir (Truncate (wal (performs start three_segments), may_fail) 2).1.1 !! name = dir (wal (performs start three_segments)) !! name).
Proof.
  split; [vm_compute; reflexivity|].
  apply (truncate_keeps three_segments may_fail 2); [repeat constructor|vm_compute; reflexivity..|apply orderedb_ordered; vm_compute; reflexivity|repeat constructor].
Defined.

(** Three entries, the first two in one segment. *)
Definition two_segments : list op :=
  [ORestart None (mkConfig 60 SyncEveryWrite 0) []; OAppend (entry x41) clock []; OAppend (entry x42) clock []; OAppend (entry x43) clock []].

Definition numbers (w : WriteAheadLog) : option (list Z) :=
  match (ReadAll (w, [])).2 with Ok es => Some (Sequence <$> es) | Err _ => None end.

(** A segment of which a read fails is taken to end there, and no error is
    seen: a truncation below 2 removes it with the entry 2; and an opening of
    the log goes on with a number that is used already. *)
Theorem failed_read_taken_for_end :
  let w := wal (performs start two_segments) in
  let t := Truncate (w, [Fine; Cut 30]) 2 in
  let (r, s) := NewWriteAheadLog every_write (dir (wal (performs start (take 3 two_segments)))) [Fine; Fine; Cut 30] in
  numbers w = Some [1; 2; 3] /\ t.2 = None /\ numbers t.1.1 = Some [3] /\
  r = Ok tt /\ (Append s (entry x43) clock).2 = (2, None) /\ numbers (Append s (entry x43) clock).1.1 = Some [1; 2; 2].
Proof. vm_compute. repeat split. Qed.

(** Opened twice without an append in between, the log starts again at 1: the
    number of the last entry is looked for in the last segment only, which the
    first opening left empty. *)
Definition reopened : list op :=
  [ORestart None every_write []; OAppend (entry x41) clock []; OAppend (entry x42) clock []; OClose 0;
   ORestart None every_write []; OClose 0; ORestart None every_write []; OAppend (entry x43) clock []].

Theorem numbers_restart :
  match (ReadAll (wal (performs start reopened), [])).2 with
  | Ok es => (Sequence <$> es) = [1; 2; 1]
  | Err _ => False
  end.
Proof. vm_compute. reflexivity. Qed.

(** [Sync] clears the flag before [fsync]: when that fails, the next [Sync]
    has nothing to do and reports success, and the entry can be lost. *)
Definition one_pending (size : Z) : WriteAheadLog := wal (performs start [ORestart None (periodic size) []; OAppend (entry x41) clock []]).

Theorem failed_sync_forgotten :
  let '((w1, _), first) := Sync (one_pending 1000, [Fine; Fails 0]) 0 in
  let '((w2, _), second) := Sync (w1, []) 0 in
  first = Some ErrIO /\ second = None /\
  (ReadAll (NewWriteAheadLog every_write (power_failure lost (dir w2)) []).2).2 = Ok [].
Proof. vm_compute. repeat split. Qed.

(** A [Sync] that is overtaken by the rotation of its segment synchronises the
    new one: it succeeds, no system call fails, and the entry can be lost. *)
Theorem rotation_outruns_sync :
  let '(flushed, s1) := sync_flush (one_pending 30, []) in
  let '(s2, second) := Append s1 (entry x42) clock in
  let '(synced, s3) := sync_fsync 0 s2 in
  flushed = Ok true /\ second = (2, None) /\ synced = Ok tt /\
  (ReadAll (NewWriteAheadLog every_write (power_failure lost (dir s3.1)) []).2).2 = Ok [].
Proof. vm_compute. repeat split. Qed.

(** After a rotation that could not open the new segment, appends succeed
    without a file to go to. *)
Theorem append_without_file :
  let '(s1, _) := Sync (one_pending 30, []) 0 in
  let '((w2, _), second) := Append (s1.1, [Fine; Fails 0]) (entry x42) clock in
  let '(s3, third) := Append (w2, []) (entry x43) clock in
  second = (0, Some ErrIO) /\ third = (3, None) /\ currentFile s3.1 = None.
Proof. vm_compute. repeat split. Qed.

(** An append that has tested the flag when [Close] runs succeeds, and its
    entry is in no file. *)
Theorem append_after_close :
  let '(s1, closing) := Close (one_pending 1000, []) 0 in
  let '(r, s2) := appendLocked (entry x42) clock s1 in
  closing = None /\ returned r = (2, None) /\
  match (ReadAll (NewWriteAheadLog every_write (dir s2.1) []).2).2 with Ok es => (Payload <$> es) = [[x41; x41]] | Err _ => False end.
Proof. vm_compute. repeat split. Qed.

End WriteAheadLogCases.
