(* ===== verification/ControlEntry.v ===== *)
(** * Decisions on the control log (core/versioning/control_entry.go)

    A header of 25 bytes (kind, number, time, length and checksum of the
    payload) and a payload that depends on the kind.  The decoders thread the
    offset as the source does.  A slice out of range is a panic: [None]. *)

From S2P Require Import Prelude GoStd WalEntry Semantic.
Import Semantic WalEntry.

Inductive ControlEntryKind :=
| ControlKindCommitQueueEnqueue | ControlKindCommitQueueMarkAccepted | ControlKindCommitQueueMarkRejected
| ControlKindCommitQueueMarkSuperseded | ControlKindCommitQueueMarkCommitted | ControlKindCommitQueueAbandon
| ControlKindRetentionRetain | ControlKindRetentionRelease | ControlKindRetentionAdvanceWaterLine
| ControlKindReplicaSpawned | ControlKindReplicaDecided | ControlKindReplicaCrashed
| ControlKindSessionOpenEpoch | ControlKindSessionCloseEpoch
| ControlKindReplicaOverlayWrite | ControlKindReplicaOverlayDelete
| ControlKindReplicaOverlaySealed | ControlKindReplicaOverlayAbandoned
| ControlKindOther (b : byte).

Inductive ReplicaDecision := ReplicaDecisionAccepted | ReplicaDecisionRejected | ReplicaDecisionOther (b : byte).

#[export] Instance ControlEntryKind_eq_dec : EqDecision ControlEntryKind.
Proof. solve_decision. Defined.

Record ControlEntryPayload := mkPayload {
  PMergedVersion : SemanticVersion; PPipelineID : string; PBasePath : list string; PBaseVersion : SemanticVersion;
  PPathCount : Z; PReplicaID : string; PRejectionReason : string; PConcerns : list string; PSupersedorVer : SemanticVersion;
  PRetentionVersion : SemanticVersion; PRetentionHolderID : string; PWaterLine : SemanticVersion;
  PReplicaMergeVersion : SemanticVersion; PReplicaAgentType : string; PReplicaDecision : ReplicaDecision;
  PReplicaDecisionText : string; PEpochMarker : string; POverlayPath : string; POverlayContent : bytes; POverlayWriter : string }.

(** The payload of which no field is set. *)
Definition emptyPayload : ControlEntryPayload :=
  mkPayload VersionZero "" [] VersionZero 0 "" "" [] VersionZero VersionZero "" VersionZero VersionZero ""
    (ReplicaDecisionOther x00) "" "" "" [] "".

Record ControlEntry := mkControlEntry { CSeq : Z; CKind : ControlEntryKind; CTimestamp : Z; CPayload : ControlEntryPayload }.

Inductive control_entry_error :=
  ErrControlEntryCorrupted | ErrControlEntryTruncated | ErrControlEntryCRCMismatch | ErrControlEntryUnknownKind.

Module ControlEntry.

(* ------------------------------------------------------------------ *)
(** ** Payloads of which some fields are set *)

Definition enqueuePayload (merged base : SemanticVersion) (pid : string) (count : Z) (paths : list string) : ControlEntryPayload :=
  mkPayload merged pid paths base count "" "" [] VersionZero VersionZero "" VersionZero VersionZero ""
    (ReplicaDecisionOther x00) "" "" "" [] "".
(** The version, the replica, the reason, the concerns and the supersedor. *)
Definition queuePayload (ver : SemanticVersion) (replica reason : string) (concerns : list string) (sup : SemanticVersion)
  : ControlEntryPayload :=
  mkPayload ver "" [] VersionZero 0 replica reason concerns sup VersionZero "" VersionZero VersionZero ""
    (ReplicaDecisionOther x00) "" "" "" [] "".
Definition retentionPayload (ver : SemanticVersion) (holder : string) (line : SemanticVersion) : ControlEntryPayload :=
  mkPayload VersionZero "" [] VersionZero 0 "" "" [] VersionZero ver holder line VersionZero ""
    (ReplicaDecisionOther x00) "" "" "" [] "".
Definition replicaPayload (ver : SemanticVersion) (agent replica : string) (d : ReplicaDecision) (text reason : string)
  (concerns : list string) : ControlEntryPayload :=
  mkPayload VersionZero "" [] VersionZero 0 replica reason concerns VersionZero VersionZero "" VersionZero ver agent
    d text "" "" [] "".
Definition epochPayload (marker : string) : ControlEntryPayload :=
  mkPayload VersionZero "" [] VersionZero 0 "" "" [] VersionZero VersionZero "" VersionZero VersionZero ""
    (ReplicaDecisionOther x00) "" marker "" [] "".
Definition overlayPayload (ver : SemanticVersion) (replica path : string) (content : bytes) (writer : string) : ControlEntryPayload :=
  mkPayload VersionZero "" [] VersionZero 0 replica "" [] VersionZero VersionZero "" VersionZero ver ""
    (ReplicaDecisionOther x00) "" "" path content writer.

(* ------------------------------------------------------------------ *)
(** ** Bytes *)

(** [byte(kind)] and [ControlEntryKind(b)] *)
Definition kind_byte (k : ControlEntryKind) : byte :=
  match k with
  | ControlKindCommitQueueEnqueue => x01 | ControlKindCommitQueueMarkAccepted => x02
  | ControlKindCommitQueueMarkRejected => x03 | ControlKindCommitQueueMarkSuperseded => x04
  | ControlKindCommitQueueMarkCommitted => x05 | ControlKindCommitQueueAbandon => x06
  | ControlKindRetentionRetain => x0a | ControlKindRetentionRelease => x0b
  | ControlKindRetentionAdvanceWaterLine => x0c
  | ControlKindReplicaSpawned => x14 | ControlKindReplicaDecided => x15 | ControlKindReplicaCrashed => x16
  | ControlKindSessionOpenEpoch => x1e | ControlKindSessionCloseEpoch => x1f
  | ControlKindReplicaOverlayWrite => x28 | ControlKindReplicaOverlayDelete => x29
  | ControlKindReplicaOverlaySealed => x2a | ControlKindReplicaOverlayAbandoned => x2b
  | ControlKindOther b => b
  end.
Definition byte_kind (b : byte) : ControlEntryKind :=
  match b with
  | x01 => ControlKindCommitQueueEnqueue | x02 => ControlKindCommitQueueMarkAccepted
  | x03 => ControlKindCommitQueueMarkRejected | x04 => ControlKindCommitQueueMarkSuperseded
  | x05 => ControlKindCommitQueueMarkCommitted | x06 => ControlKindCommitQueueAbandon
  | x0a => ControlKindRetentionRetain | x0b => ControlKindRetentionRelease
  | x0c => ControlKindRetentionAdvanceWaterLine
  | x14 => ControlKindReplicaSpawned | x15 => ControlKindReplicaDecided | x16 => ControlKindReplicaCrashed
  | x1e => ControlKindSessionOpenEpoch | x1f => ControlKindSessionCloseEpoch
  | x28 => ControlKindReplicaOverlayWrite | x29 => ControlKindReplicaOverlayDelete
  | x2a => ControlKindReplicaOverlaySealed | x2b => ControlKindReplicaOverlayAbandoned
  | b => ControlKindOther b
  end.

(** [byte(decision)] and [ReplicaDecision(b)] *)
Definition decision_byte (d : ReplicaDecision) : byte :=
  match d with ReplicaDecisionAccepted => x01 | ReplicaDecisionRejected => x02 | ReplicaDecisionOther b => b end.
Definition byte_decision (b : byte) : ReplicaDecision :=
  match b with x01 => ReplicaDecisionAccepted | x02 => ReplicaDecisionRejected | b => ReplicaDecisionOther b end.

Definition controlEntryHeaderSize : Z := 1 + 8 + 8 + 4 + 4.

(* ------------------------------------------------------------------ *)
(** ** Encoding *)

Definition encodeSemanticVersion (buf : bytes) (v : SemanticVersion) : bytes :=
  appendUint32 (appendUint32 buf (Major v)) (Minor v).

Definition encodeString (buf : bytes) (s : string) : bytes := encodeLenPrefixed buf (str_bytes s).

(** The number of strings and the loop over them. *)
Definition encodeStrings (buf : bytes) (l : list string) : bytes := foldl encodeString (appendUint32 buf (len l)) l.

Definition encodeEnqueue (p : ControlEntryPayload) : bytes :=
  let buf := encodeSemanticVersion [] (PMergedVersion p) in
  let buf := encodeSemanticVersion buf (PBaseVersion p) in
  let buf := encodeString buf (PPipelineID p) in
  let buf := appendUint32 buf (PPathCount p) in
  encodeStrings buf (PBasePath p).

Definition encodeMarkAccepted (p : ControlEntryPayload) : bytes :=
  let buf := encodeSemanticVersion [] (PMergedVersion p) in
  encodeString buf (PReplicaID p).

Definition encodeMarkRejected (p : ControlEntryPayload) : bytes :=
  let buf := encodeSemanticVersion [] (PMergedVersion p) in
  let buf := encodeString buf (PReplicaID p) in
  let buf := encodeString buf (PRejectionReason p) in
  encodeStrings buf (PConcerns p).

Definition encodeMarkSuperseded (p : ControlEntryPayload) : bytes :=
  let buf := encodeSemanticVersion [] (PMergedVersion p) in
  encodeSemanticVersion buf (PSupersedorVer p).

Definition encodeCommitQueueVersion (p : ControlEntryPayload) : bytes := encodeSemanticVersion [] (PMergedVersion p).

Definition encodeAbandon (p : ControlEntryPayload) : bytes :=
  let buf := encodeSemanticVersion [] (PMergedVersion p) in
  encodeString buf (PRejectionReason p).

Definition encodeRetention (p : ControlEntryPayload) : bytes :=
  let buf := encodeSemanticVersion [] (PRetentionVersion p) in
  encodeString buf (PRetentionHolderID p).

Definition encodeWaterLine (p : ControlEntryPayload) : bytes := encodeSemanticVersion [] (PWaterLine p).

Definition encodeReplicaSpawned (p : ControlEntryPayload) : bytes :=
  let buf := encodeSemanticVersion [] (PReplicaMergeVersion p) in
  let buf := encodeString buf (PReplicaAgentType p) in
  encodeString buf (PReplicaID p).

Definition encodeReplicaDecided (p : ControlEntryPayload) : bytes :=
  let buf := encodeSemanticVersion [] (PReplicaMergeVersion p) in
  let buf := encodeString buf (PReplicaID p) in
  let buf := buf ++ [decision_byte (PReplicaDecision p)] in
  let buf := encodeString buf (PReplicaDecisionText p) in
  encodeStrings buf (PConcerns p).

Definition encodeReplicaCrashed (p : ControlEntryPayload) : bytes :=
  let buf := encodeSemanticVersion [] (PReplicaMergeVersion p) in
  let buf := encodeString buf (PReplicaID p) in
  encodeString buf (PRejectionReason p).

Definition encodeEpoch (p : ControlEntryPayload) : bytes := encodeString [] (PEpochMarker p).

Definition encodeOverlayWrite (p : ControlEntryPayload) : bytes :=
  let buf := encodeSemanticVersion [] (PReplicaMergeVersion p) in
  let buf := encodeString buf (PReplicaID p) in
  let buf := encodeString buf (POverlayPath p) in
  let buf := encodeLenPrefixed buf (POverlayContent p) in
  encodeString buf (POverlayWriter p).

Definition encodeOverlayDelete (p : ControlEntryPayload) : bytes :=
  let buf := encodeSemanticVersion [] (PReplicaMergeVersion p) in
  let buf := encodeString buf (PReplicaID p) in
  let buf := encodeString buf (POverlayPath p) in
  encodeString buf (POverlayWriter p).

Definition encodeOverlayTerminal (p : ControlEntryPayload) : bytes :=
  let buf := encodeSemanticVersion [] (PReplicaMergeVersion p) in
  encodeString buf (PReplicaID p).

Definition encodeControlPayload (kind : ControlEntryKind) (p : ControlEntryPayload) : bytes :=
  match kind with
  | ControlKindCommitQueueEnqueue => encodeEnqueue p
  | ControlKindCommitQueueMarkAccepted => encodeMarkAccepted p
  | ControlKindCommitQueueMarkRejected => encodeMarkRejected p
  | ControlKindCommitQueueMarkSuperseded => encodeMarkSuperseded p
  | ControlKindCommitQueueMarkCommitted => encodeCommitQueueVersion p
  | ControlKindCommitQueueAbandon => encodeAbandon p
  | ControlKindRetentionRetain | ControlKindRetentionRelease => encodeRetention p
  | ControlKindRetentionAdvanceWaterLine => encodeWaterLine p
  | ControlKindReplicaSpawned => encodeReplicaSpawned p
  | ControlKindReplicaDecided => encodeReplicaDecided p
  | ControlKindReplicaCrashed => encodeReplicaCrashed p
  | ControlKindSessionOpenEpoch | ControlKindSessionCloseEpoch => encodeEpoch p
  | ControlKindReplicaOverlayWrite => encodeOverlayWrite p
  | ControlKindReplicaOverlayDelete => encodeOverlayDelete p
  | ControlKindReplicaOverlaySealed | ControlKindReplicaOverlayAbandoned => encodeOverlayTerminal p
  | ControlKindOther _ => []
  end.

Definition EncodeControlEntry (e : ControlEntry) : bytes :=
  let payload := encodeControlPayload (CKind e) (CPayload e) in
  let crc := Crc32.checksum_ieee payload in
  [kind_byte (CKind e)] ++ putU64 (CSeq e) ++ putU64 (UnixNano (CTimestamp e)) ++ putU32 (len payload) ++ putU32 crc ++ payload.

(* ------------------------------------------------------------------ *)
(** ** Decoding *)

(** Any error of a field is [ErrControlEntryCorrupted]. *)
Definition field {E A} (r : checked E A) : checked control_entry_error A :=
  match r with
  | Some (Ok a) => Some (Ok a)
  | Some (Err _) => Some (Err ErrControlEntryCorrupted)
  | None => None
  end.

Definition decodeSemanticVersion (data : bytes) (off : Z) : checked control_entry_error (SemanticVersion * Z) :=
  if len data <? off + 8 then fail ErrControlEntryCorrupted
  else
    major ← field (uint_at data off 4);
    minor ← field (uint_at data (off + 4) 4);
    mret (mkVersion major minor, off + 8).

(** A field as a string, and the offset after it. *)
Definition decodeString (data : bytes) (off : Z) : checked control_entry_error (string * Z) :=
  '(raw, n) ← field (decodeLenPrefixed data off);
  mret (bytes_str raw, off + n).

(** [n] rounds of the loop over strings. *)
Fixpoint decodeStrings (n : nat) (data : bytes) (off : Z) (acc : list string) : checked control_entry_error (list string) :=
  match n with
  | O => mret acc
  | S n => '(s, off) ← decodeString data off; decodeStrings n data off (acc ++ [s])
  end.

(** A number of strings, with its bounds check, and the strings. *)
Definition decodeCounted (data : bytes) (off : Z) : checked control_entry_error (list string) :=
  if len data <? off + 4 then fail ErrControlEntryCorrupted
  else count ← field (uint_at data off 4); decodeStrings (Z.to_nat count) data (off + 4) [].

Definition decodeEnqueue (data : bytes) : checked control_entry_error ControlEntryPayload :=
  '(merged, off) ← decodeSemanticVersion data 0;
  '(base, off) ← decodeSemanticVersion data off;
  '(pid, off) ← decodeString data off;
  if len data <? off + 8 then fail ErrControlEntryCorrupted
  else
    count ← field (uint_at data off 4);
    let off := off + 4 in
    pathLen ← field (uint_at data off 4);
    let off := off + 4 in
    paths ← decodeStrings (Z.to_nat pathLen) data off [];
    mret (enqueuePayload merged base pid count paths).

Definition decodeMarkAccepted (data : bytes) : checked control_entry_error ControlEntryPayload :=
  '(ver, off) ← decodeSemanticVersion data 0;
  '(replica, _) ← decodeString data off;
  mret (queuePayload ver replica "" [] VersionZero).

Definition decodeMarkRejected (data : bytes) : checked control_entry_error ControlEntryPayload :=
  '(ver, off) ← decodeSemanticVersion data 0;
  '(replica, off) ← decodeString data off;
  '(reason, off) ← decodeString data off;
  concerns ← decodeCounted data off;
  mret (queuePayload ver replica reason concerns VersionZero).

Definition decodeMarkSuperseded (data : bytes) : checked control_entry_error ControlEntryPayload :=
  '(ver, off) ← decodeSemanticVersion data 0;
  '(sup, _) ← decodeSemanticVersion data off;
  mret (queuePayload ver "" "" [] sup).

Definition decodeCommitQueueVersion (data : bytes) : checked control_entry_error ControlEntryPayload :=
  '(ver, _) ← decodeSemanticVersion data 0;
  mret (queuePayload ver "" "" [] VersionZero).

Definition decodeAbandon (data : bytes) : checked control_entry_error ControlEntryPayload :=
  '(ver, off) ← decodeSemanticVersion data 0;
  '(reason, _) ← decodeString data off;
  mret (queuePayload ver "" reason [] VersionZero).

Definition decodeRetention (data : bytes) : checked control_entry_error ControlEntryPayload :=
  '(ver, off) ← decodeSemanticVersion data 0;
  '(holder, _) ← decodeString data off;
  mret (retentionPayload ver holder VersionZero).

Definition decodeWaterLine (data : bytes) : checked control_entry_error ControlEntryPayload :=
  '(ver, _) ← decodeSemanticVersion data 0;
  mret (retentionPayload VersionZero "" ver).

Definition decodeReplicaSpawned (data : bytes) : checked control_entry_error ControlEntryPayload :=
  '(ver, off) ← decodeSemanticVersion data 0;
  '(agent, off) ← decodeString data off;
  '(replica, _) ← decodeString data off;
  mret (replicaPayload ver agent replica (ReplicaDecisionOther x00) "" "" []).

Definition decodeReplicaDecided (data : bytes) : checked control_entry_error ControlEntryPayload :=
  '(ver, off) ← decodeSemanticVersion data 0;
  '(replica, off) ← decodeString data off;
  if len data <=? off then fail ErrControlEntryCorrupted
  else
    d ← within (index data off);
    let off := off + 1 in
    '(text, off) ← decodeString data off;
    concerns ← decodeCounted data off;
    mret (replicaPayload ver "" replica (byte_decision d) text "" concerns).

Definition decodeReplicaCrashed (data : bytes) : checked control_entry_error ControlEntryPayload :=
  '(ver, off) ← decodeSemanticVersion data 0;
  '(replica, off) ← decodeString data off;
  '(reason, _) ← decodeString data off;
  mret (replicaPayload ver "" replica (ReplicaDecisionOther x00) "" reason []).

Definition decodeEpoch (data : bytes) : checked control_entry_error ControlEntryPayload :=
  '(marker, _) ← decodeString data 0;
  mret (epochPayload marker).

Definition decodeOverlayWrite (data : bytes) : checked control_entry_error ControlEntryPayload :=
  '(ver, off) ← decodeSemanticVersion data 0;
  '(replica, off) ← decodeString data off;
  '(path, off) ← decodeString data off;
  '(content, n) ← field (decodeLenPrefixed data off);
  let off := off + n in
  '(writer, _) ← decodeString data off;
  mret (overlayPayload ver replica path content writer).

Definition decodeOverlayDelete (data : bytes) : checked control_entry_error ControlEntryPayload :=
  '(ver, off) ← decodeSemanticVersion data 0;
  '(replica, off) ← decodeString data off;
  '(path, off) ← decodeString data off;
  '(writer, _) ← decodeString data off;
  mret (overlayPayload ver replica path [] writer).

Definition decodeOverlayTerminal (data : bytes) : checked control_entry_error ControlEntryPayload :=
  '(ver, off) ← decodeSemanticVersion data 0;
  '(replica, _) ← decodeString data off;
  mret (overlayPayload ver replica "" [] "").

Definition decodeControlPayload (kind : ControlEntryKind) (data : bytes) : checked control_entry_error ControlEntryPayload :=
  match kind with
  | ControlKindCommitQueueEnqueue => decodeEnqueue data
  | ControlKindCommitQueueMarkAccepted => decodeMarkAccepted data
  | ControlKindCommitQueueMarkRejected => decodeMarkRejected data
  | ControlKindCommitQueueMarkSuperseded => decodeMarkSuperseded data
  | ControlKindCommitQueueMarkCommitted => decodeCommitQueueVersion data
  | ControlKindCommitQueueAbandon => decodeAbandon data
  | ControlKindRetentionRetain | ControlKindRetentionRelease => decodeRetention data
  | ControlKindRetentionAdvanceWaterLine => decodeWaterLine data
  | ControlKindReplicaSpawned => decodeReplicaSpawned data
  | ControlKindReplicaDecided => decodeReplicaDecided data
  | ControlKindReplicaCrashed => decodeReplicaCrashed data
  | ControlKindSessionOpenEpoch | ControlKindSessionCloseEpoch => decodeEpoch data
  | ControlKindReplicaOverlayWrite => decodeOverlayWrite data
  | ControlKindReplicaOverlayDelete => decodeOverlayDelete data
  | ControlKindReplicaOverlaySealed | ControlKindReplicaOverlayAbandoned => decodeOverlayTerminal data
  | ControlKindOther _ => fail ErrControlEntryUnknownKind
  end.

(** The entry and the bytes it takes; the lengths are compared as
    [uint32]s. *)
Definition DecodeControlEntry (data : bytes) : checked control_entry_error (ControlEntry * Z) :=
  if len data <? controlEntryHeaderSize then fail ErrControlEntryTruncated
  else
    kind ← within (index data 0);
    seq ← field (uint_at data 1 8);
    tsNano ← field (uint_at data 9 8);
    payloadLen ← field (uint_at data 17 4);
    storedCRC ← field (uint_at data 21 4);
    if u32 (len data - controlEntryHeaderSize) <? payloadLen then fail ErrControlEntryTruncated
    else
      payload ← within (slice_at data controlEntryHeaderSize (controlEntryHeaderSize + payloadLen));
      if negb (Crc32.checksum_ieee payload =? storedCRC) then fail ErrControlEntryCRCMismatch
      else
        decoded ← decodeControlPayload (byte_kind kind) payload;
        mret (mkControlEntry seq (byte_kind kind) (i64 tsNano) decoded, controlEntryHeaderSize + payloadLen).
End ControlEntry.
