(* ===== verification/ControlEntryProof.v ===== *)
(** * What is read from the control log (core/versioning/control_entry.go)

    An entry of any kind is read back with the fields its kind writes, also
    with bytes after it; a part of an entry is recognised as such; and the
    decoder panics on no input. *)

From S2P Require Import Prelude GoStd WalEntry WalEntryProof Semantic.
From S2P Require Export ControlEntry.
Import Semantic WalEntry ControlEntry.

(* ------------------------------------------------------------------ *)
(** ** What a kind writes *)

(** The fields of the payload the kind writes. *)
Definition written (k : ControlEntryKind) (p : ControlEntryPayload) : ControlEntryPayload :=
  match k with
  | ControlKindCommitQueueEnqueue =>
    enqueuePayload (PMergedVersion p) (PBaseVersion p) (PPipelineID p) (PPathCount p) (PBasePath p)
  | ControlKindCommitQueueMarkAccepted => queuePayload (PMergedVersion p) (PReplicaID p) "" [] VersionZero
  | ControlKindCommitQueueMarkRejected =>
    queuePayload (PMergedVersion p) (PReplicaID p) (PRejectionReason p) (PConcerns p) VersionZero
  | ControlKindCommitQueueMarkSuperseded => queuePayload (PMergedVersion p) "" "" [] (PSupersedorVer p)
  | ControlKindCommitQueueMarkCommitted => queuePayload (PMergedVersion p) "" "" [] VersionZero
  | ControlKindCommitQueueAbandon => queuePayload (PMergedVersion p) "" (PRejectionReason p) [] VersionZero
  | ControlKindRetentionRetain | ControlKindRetentionRelease =>
    retentionPayload (PRetentionVersion p) (PRetentionHolderID p) VersionZero
  | ControlKindRetentionAdvanceWaterLine => retentionPayload VersionZero "" (PWaterLine p)
  | ControlKindReplicaSpawned =>
    replicaPayload (PReplicaMergeVersion p) (PReplicaAgentType p) (PReplicaID p) (ReplicaDecisionOther x00) "" "" []
  | ControlKindReplicaDecided =>
    replicaPayload (PReplicaMergeVersion p) "" (PReplicaID p) (PReplicaDecision p) (PReplicaDecisionText p) "" (PConcerns p)
  | ControlKindReplicaCrashed =>
    replicaPayload (PReplicaMergeVersion p) "" (PReplicaID p) (ReplicaDecisionOther x00) "" (PRejectionReason p) []
  | ControlKindSessionOpenEpoch | ControlKindSessionCloseEpoch => epochPayload (PEpochMarker p)
  | ControlKindReplicaOverlayWrite =>
    overlayPayload (PReplicaMergeVersion p) (PReplicaID p) (POverlayPath p) (POverlayContent p) (POverlayWriter p)
  | ControlKindReplicaOverlayDelete =>
    overlayPayload (PReplicaMergeVersion p) (PReplicaID p) (POverlayPath p) [] (POverlayWriter p)
  | ControlKindReplicaOverlaySealed | ControlKindReplicaOverlayAbandoned =>
    overlayPayload (PReplicaMergeVersion p) (PReplicaID p) "" [] ""
  | ControlKindOther _ => emptyPayload
  end.

Definition known (k : ControlEntryKind) : Prop := match k with ControlKindOther _ => False | _ => True end.

(** The fields have the values of their types. *)
Record payload_wf (p : ControlEntryPayload) : Prop := {
  pw_merged : version_wf (PMergedVersion p);
  pw_base : version_wf (PBaseVersion p);
  pw_sup : version_wf (PSupersedorVer p);
  pw_retention : version_wf (PRetentionVersion p);
  pw_line : version_wf (PWaterLine p);
  pw_replica : version_wf (PReplicaMergeVersion p);
  pw_count : in_u32 (PPathCount p);
  pw_decision : byte_decision (decision_byte (PReplicaDecision p)) = PReplicaDecision p
}.

Record entry_fits (e : ControlEntry) : Prop := {
  ef_kind : known (CKind e);
  ef_seq : in_u64 (CSeq e);
  ef_time : in_i64 (CTimestamp e);
  ef_payload : payload_wf (CPayload e);
  ef_len : len (EncodeControlEntry e) < two32
}.

Definition read_back (e : ControlEntry) : ControlEntry :=
  mkControlEntry (CSeq e) (CKind e) (CTimestamp e) (written (CKind e) (CPayload e)).

(* ------------------------------------------------------------------ *)
(** ** Reading at an offset *)

(** At [off], [rest] is left of [data]. *)
Definition left_at (data : bytes) (off : Z) (rest : bytes) : Prop := exists pre, data = pre ++ rest /\ len pre = off.

Lemma left_start data : left_at data 0 data.
Proof. by exists []. Qed.
Lemma left_skip data off a rest : left_at data off (a ++ rest) -> left_at data (off + len a) rest.
Proof. intros (pre & -> & <-). exists (pre ++ a). by rewrite len_app, <- app_assoc. Qed.
Lemma left_len data off rest : left_at data off rest -> len data = off + len rest /\ 0 <= off.
Proof. intros (pre & -> & <-). rewrite len_app. split; [done|apply len_nonneg]. Qed.

Definition version_bytes (v : SemanticVersion) : bytes := putU32 (Major v) ++ putU32 (Minor v).
Definition string_bytes (s : string) : bytes := field_bytes (str_bytes s).
Definition strings_bytes (l : list string) : bytes := putU32 (len l) ++ (l ≫= string_bytes).

Lemma read_uint data off mid rest : left_at data off (mid ++ rest) ->
  uint_at data off (len mid) = Some (Ok (be_decode mid)).
Proof. intros (pre & -> & <-). by apply uint_at_mid. Qed.

Lemma read_u32 data off z rest : in_u32 z -> left_at data off (putU32 z ++ rest) ->
  uint_at data off 4 = Some (Ok z) /\ left_at data (off + 4) rest.
Proof.
  intros B L. split.
  - rewrite <- (len_putU32 z) at 1. rewrite (read_uint _ _ _ _ L). by rewrite putU32_decode.
  - rewrite <- (len_putU32 z). by apply left_skip.
Qed.

Lemma read_version data off v rest : version_wf v -> left_at data off (version_bytes v ++ rest) ->
  decodeSemanticVersion data off = Some (Ok (v, off + 8)) /\ left_at data (off + 8) rest.
Proof.
  intros [Wa Wi] L. destruct (left_len _ _ _ L) as [E _]. pose proof (len_nonneg rest).
  unfold decodeSemanticVersion. rewrite E. unfold version_bytes in *. rewrite !len_app, !len_putU32.
  rewrite (proj2 (Z.ltb_ge _ _)) by lia. rewrite <- app_assoc in L.
  destruct (read_u32 _ _ _ _ Wa L) as [-> L1]. destruct (read_u32 _ _ _ _ Wi L1) as [R L2].
  cbn [field mbind checked_bind]. rewrite R. cbn [field mbind checked_bind mret checked_ret].
  split; [by destruct v|]. by replace (off + 8) with (off + 4 + 4) by lia.
Qed.

Lemma field_short data off d rest : len data < two32 -> left_at data off (field_bytes d ++ rest) -> len d < two32.
Proof.
  intros B L. destruct (left_len _ _ _ L) as [E O]. rewrite E, len_app, len_field in B. pose proof (len_nonneg rest). lia.
Qed.

Lemma read_field data off d rest : len data < two32 -> left_at data off (field_bytes d ++ rest) ->
  field (decodeLenPrefixed data off) = Some (Ok (d, 4 + len d)) /\ left_at data (off + (4 + len d)) rest.
Proof.
  intros B L. pose proof (field_short _ _ _ _ B L) as S. split.
  - destruct L as (pre & -> & <-). by rewrite (field_read pre d rest S).
  - rewrite <- len_field. by apply left_skip.
Qed.

Lemma read_string data off s rest : len data < two32 -> left_at data off (string_bytes s ++ rest) ->
  decodeString data off = Some (Ok (s, off + (4 + len (str_bytes s)))) /\ left_at data (off + (4 + len (str_bytes s))) rest.
Proof.
  intros B L. unfold decodeString. destruct (read_field _ _ _ _ B L) as [-> L']. split; [|done].
  cbn [mbind checked_bind mret checked_ret]. by rewrite bytes_str_bytes.
Qed.

Lemma read_strings data l : len data < two32 -> forall off rest acc, left_at data off ((l ≫= string_bytes) ++ rest) ->
  decodeStrings (length l) data off acc = Some (Ok (acc ++ l)).
Proof.
  intros B. induction l as [|s l IH]; intros off rest acc L; [by rewrite app_nil_r|].
  cbn [length decodeStrings]. rewrite bind_cons, <- app_assoc in L. destruct (read_string _ _ _ _ B L) as [-> L'].
  cbn [mbind checked_bind]. rewrite (IH _ _ _ L'). by rewrite <- app_assoc.
Qed.

Lemma len_strings l : len l <= len (l ≫= string_bytes).
Proof.
  induction l as [|s l IH]; [done|]. rewrite bind_cons, len_cons, len_app. unfold string_bytes at 1. rewrite len_field.
  pose proof (len_nonneg (str_bytes s)). lia.
Qed.

(** A counted list read in two steps, the count first. *)
Lemma read_list data off l rest : len data < two32 -> left_at data off (strings_bytes l ++ rest) ->
  off + 4 <= len data /\ uint_at data off 4 = Some (Ok (len l)) /\
  decodeStrings (Z.to_nat (len l)) data (off + 4) [] = Some (Ok l).
Proof.
  intros B L. destruct (left_len _ _ _ L) as [E O]. unfold strings_bytes in *. rewrite !len_app, len_putU32 in E.
  pose proof (len_strings l). pose proof (len_nonneg rest). pose proof (len_nonneg l). rewrite <- app_assoc in L.
  destruct (read_u32 data off (len l) _ ltac:(unfold in_u32; lia) L) as [-> L']. split_and!; [lia|done|].
  unfold len at 1. rewrite Nat2Z.id. by apply (read_strings data l B _ rest).
Qed.

Lemma read_counted data off l rest : len data < two32 -> left_at data off (strings_bytes l ++ rest) ->
  decodeCounted data off = Some (Ok l).
Proof.
  intros B L. destruct (read_list _ _ _ _ B L) as (S & R & D). unfold decodeCounted.
  rewrite (proj2 (Z.ltb_ge _ _)) by lia. rewrite R. cbn [field mbind checked_bind]. exact D.
Qed.

(* ------------------------------------------------------------------ *)
(** ** Payloads *)

Lemma encodeStrings_eq buf l : encodeStrings buf l = buf ++ strings_bytes l.
Proof.
  unfold encodeStrings, strings_bytes, appendUint32. rewrite app_assoc. generalize (buf ++ putU32 (len l)).
  induction l as [|s l IH]; intros b; simpl; [by rewrite app_nil_r|]. rewrite IH. unfold encodeString, encodeLenPrefixed, appendUint32.
  unfold string_bytes at 2, field_bytes. by rewrite <- !app_assoc.
Qed.
Lemma encodeString_eq buf s : encodeString buf s = buf ++ string_bytes s.
Proof. unfold encodeString, encodeLenPrefixed, appendUint32, string_bytes, field_bytes. by rewrite <- app_assoc. Qed.
Lemma encodeField_eq buf d : encodeLenPrefixed buf d = buf ++ field_bytes d.
Proof. unfold encodeLenPrefixed, appendUint32, field_bytes. by rewrite <- app_assoc. Qed.
Lemma encodeVersion_eq buf v : encodeSemanticVersion buf v = buf ++ version_bytes v.
Proof. unfold encodeSemanticVersion, appendUint32, version_bytes. by rewrite <- app_assoc. Qed.

Create Rewrite HintDb control_bytes.
#[local] Hint Rewrite encodeStrings_eq encodeString_eq encodeField_eq encodeVersion_eq : control_bytes.

(** Put the bytes that are left to the right. *)
Ltac payload_bytes L :=
  autorewrite with control_bytes in L; rewrite <- ?app_assoc in L; cbn [app] in L.

(** The next field the decoder reads, of the data of which [L] says what is
    left. *)
Ltac read_one L :=
  let L' := fresh "L" in
  lazymatch type of L with
  | left_at ?d ?o (version_bytes ?v ++ ?r) =>
    let R := fresh "R" in destruct (read_version d o v r ltac:(done) L) as [R L']; rewrite R; clear R L; rename L' into L
  | left_at ?d ?o (string_bytes ?s ++ ?r) =>
    let R := fresh "R" in destruct (read_string d o s r ltac:(done) L) as [R L']; rewrite R; clear R L; rename L' into L
  | left_at ?d ?o (field_bytes ?s ++ ?r) =>
    let R := fresh "R" in destruct (read_field d o s r ltac:(done) L) as [R L']; rewrite R; clear R L; rename L' into L
  | left_at ?d ?o (strings_bytes ?s ++ ?r) => rewrite (read_counted d o s r ltac:(done) L); clear L
  end; cbn [mbind checked_bind mret checked_ret].

Lemma enqueue_read p data rest : payload_wf p -> len data < two32 -> left_at data 0 (encodeEnqueue p ++ rest) ->
  decodeEnqueue data = Some (Ok (written ControlKindCommitQueueEnqueue p)).
Proof.
  intros [M Ba _ _ _ _ C _] B L. unfold decodeEnqueue. unfold encodeEnqueue, appendUint32 in L. payload_bytes L.
  repeat read_one L. destruct (read_u32 _ _ _ _ C L) as [R1 L1]. destruct (read_list _ _ _ _ B L1) as (S & R2 & D).
  rewrite (proj2 (Z.ltb_ge _ _)) by lia. rewrite R1. cbn [field mbind checked_bind]. rewrite R2. cbn [field mbind checked_bind].
  by rewrite D.
Qed.

Lemma decided_read p data rest : payload_wf p -> len data < two32 -> left_at data 0 (encodeReplicaDecided p ++ rest) ->
  decodeReplicaDecided data = Some (Ok (written ControlKindReplicaDecided p)).
Proof.
  intros [_ _ _ _ _ M _ D] B L. unfold decodeReplicaDecided. unfold encodeReplicaDecided in L. payload_bytes L.
  repeat read_one L. destruct (left_len _ _ _ L) as [E O]. rewrite len_cons in E.
  match type of E with _ = _ + (1 + len ?x) => pose proof (len_nonneg x) end. rewrite (proj2 (Z.leb_gt _ _)) by lia.
  match type of L with left_at _ ?o (?d :: ?r) => assert (I : index data o = Some d) by
    (destruct L as (pre & -> & <-); apply index_app_here); rewrite I; apply (left_skip data o [d] r) in L end.
  cbn [within mbind checked_bind]. change (len [_]) with 1 in L. repeat read_one L. by rewrite D.
Qed.

(** Any payload, with any bytes after it. *)
Lemma payload_read_back k p rest : known k -> payload_wf p -> len (encodeControlPayload k p ++ rest) < two32 ->
  decodeControlPayload k (encodeControlPayload k p ++ rest) = Some (Ok (written k p)).
Proof.
  intros K W. remember (encodeControlPayload k p ++ rest) as data eqn:E. intros B.
  assert (L : left_at data 0 (encodeControlPayload k p ++ rest)) by (rewrite <- E; apply left_start). clear E.
  destruct (decide (k = ControlKindCommitQueueEnqueue)) as [-> |N1]; [by apply enqueue_read with rest|].
  destruct (decide (k = ControlKindReplicaDecided)) as [-> |N2]; [by apply decided_read with rest|].
  destruct W, k; cbn [decodeControlPayload encodeControlPayload] in *; try done.
  all: lazymatch goal with |- ?d _ = _ => unfold d end.
  all: unfold encodeMarkAccepted, encodeMarkRejected, encodeMarkSuperseded, encodeCommitQueueVersion, encodeAbandon,
    encodeRetention, encodeWaterLine, encodeReplicaSpawned, encodeReplicaCrashed, encodeEpoch, encodeOverlayWrite,
    encodeOverlayDelete, encodeOverlayTerminal in L; payload_bytes L; repeat read_one L; done.
Qed.

(* ------------------------------------------------------------------ *)
(** ** Entries *)

(** The bytes of a header and a payload. *)
Definition entry_bytes (k : byte) (seq ts len_ crc payload : bytes) : bytes := [k] ++ seq ++ ts ++ len_ ++ crc ++ payload.

Lemma bytes_known b : known (byte_kind b) -> kind_byte (byte_kind b) = b.
Proof. by destruct b. Qed.
Lemma kind_known k : known k -> byte_kind (kind_byte k) = k.
Proof. by destruct k. Qed.

(** The function past its header. *)
Definition decode_rest (k : byte) (seq ts l crc : Z) (body : bytes) : checked control_entry_error (ControlEntry * Z) :=
  if u32 (len body) <? l then fail ErrControlEntryTruncated
  else
    let payload := take (Z.to_nat l) body in
    if negb (Crc32.checksum_ieee payload =? crc) then fail ErrControlEntryCRCMismatch
    else
      decoded ← decodeControlPayload (byte_kind k) payload;
      mret (mkControlEntry seq (byte_kind k) (i64 ts) decoded, controlEntryHeaderSize + l).

Lemma decode_past_header k a t l c body : len a = 8 -> len t = 8 -> len l = 4 -> len c = 4 ->
  DecodeControlEntry (entry_bytes k a t l c body) = decode_rest k (be_decode a) (be_decode t) (be_decode l) (be_decode c) body.
Proof.
  intros La Lt Ll Lc. unfold DecodeControlEntry, decode_rest. remember (entry_bytes k a t l c body) as data eqn:E.
  assert (L : left_at data 0 ([k] ++ a ++ t ++ l ++ c ++ body)) by (rewrite E; apply left_start). clear E.
  assert (Ed : len data = 25 + len body) by (destruct (left_len _ _ _ L) as [-> _]; rewrite !len_app, La, Lt, Ll, Lc; change (len [k]) with 1; lia).
  pose proof (len_nonneg body) as Nb. change controlEntryHeaderSize with 25. rewrite (proj2 (Z.ltb_ge _ _)) by lia.
  assert (I : index data 0 = Some k) by (destruct L as (pre & -> & Lp); rewrite <- Lp; apply index_app_here).
  rewrite I. cbn [within mbind checked_bind]. apply left_skip in L. change (0 + len [k]) with 1 in L.
  pose proof (read_uint _ _ _ _ L) as R1. rewrite La in R1. rewrite R1. cbn [field mbind checked_bind]. apply left_skip in L. rewrite La in L.
  pose proof (read_uint _ _ _ _ L) as R2. rewrite Lt in R2. change (1 + 8) with 9 in *. rewrite R2. cbn [field mbind checked_bind].
  apply left_skip in L. rewrite Lt in L. pose proof (read_uint _ _ _ _ L) as R3. rewrite Ll in R3. change (9 + 8) with 17 in *. rewrite R3.
  cbn [field mbind checked_bind]. apply left_skip in L. rewrite Ll in L. pose proof (read_uint _ _ _ _ L) as R4. rewrite Lc in R4.
  change (17 + 4) with 21 in *. rewrite R4. cbn [field mbind checked_bind]. apply left_skip in L. rewrite Lc in L. change (21 + 4) with 25 in L.
  rewrite Ed. replace (25 + len body - 25) with (len body) by lia.
  destruct (four_bytes l Ll) as [_ [R _]]. destruct (Z.ltb_spec (u32 (len body)) (be_decode l)) as [|U]; [done|].
  assert (W : be_decode l <= len body) by (pose proof (Z.mod_le (len body) two32 Nb eq_refl); unfold u32 in U; lia).
  assert (S : slice_at data 25 (25 + be_decode l) = Some (take (Z.to_nat (be_decode l)) body)).
  { destruct L as (pre & -> & Lp). unfold slice_at. rewrite len_app, Lp. rewrite !(proj2 (Z.leb_le _ _)) by lia. cbn [andb]. f_equal.
    rewrite slice_app_r by (unfold len in Lp; lia). f_equal. lia. }
  by rewrite S.
Qed.

Lemma encode_entry e : EncodeControlEntry e =
  entry_bytes (kind_byte (CKind e)) (putU64 (CSeq e)) (putU64 (UnixNano (CTimestamp e)))
    (putU32 (len (encodeControlPayload (CKind e) (CPayload e))))
    (putU32 (Crc32.checksum_ieee (encodeControlPayload (CKind e) (CPayload e))))
    (encodeControlPayload (CKind e) (CPayload e)).
Proof. done. Qed.

Lemma entry_bytes_app k a t l c body rest : entry_bytes k a t l c body ++ rest = entry_bytes k a t l c (body ++ rest).
Proof. unfold entry_bytes. by rewrite <- !app_assoc. Qed.

Lemma len_encode e : len (EncodeControlEntry e) = controlEntryHeaderSize + len (encodeControlPayload (CKind e) (CPayload e)).
Proof.
  rewrite encode_entry. unfold entry_bytes. rewrite !len_app, !len_putU64, !len_putU32. change (len [_]) with 1.
  unfold controlEntryHeaderSize. lia.
Qed.

Lemma encode_takes e : (0 < length (EncodeControlEntry e))%nat.
Proof.
  pose proof (len_encode e) as L. pose proof (len_nonneg (encodeControlPayload (CKind e) (CPayload e))).
  unfold len, controlEntryHeaderSize in *. lia.
Qed.

Lemma putU64_unsigned z : in_u64 z -> be_decode (putU64 z) = z.
Proof. intros B. unfold putU64. rewrite be_decode_u64. by rewrite !u64_id by (by rewrite ?u64_id). Qed.

(** An entry with anything after it. *)
Lemma entry_read e rest : entry_fits e -> len (EncodeControlEntry e ++ rest) < two32 + controlEntryHeaderSize ->
  DecodeControlEntry (EncodeControlEntry e ++ rest) = Some (Ok (read_back e, len (EncodeControlEntry e))).
Proof.
  intros [K S T P L] B. rewrite len_app, len_encode in *. rewrite encode_entry, entry_bytes_app.
  rewrite decode_past_header; [|apply len_putU64|apply len_putU64|apply len_putU32|apply len_putU32]. unfold decode_rest.
  set (p := encodeControlPayload (CKind e) (CPayload e)) in *. pose proof (len_nonneg p). pose proof (len_nonneg rest).
  unfold controlEntryHeaderSize in L. rewrite (putU32_decode (len p)) by (unfold in_u32; lia).
  rewrite len_app, (u32_id (_ + _)) by (unfold in_u32; unfold controlEntryHeaderSize in B; lia).
  rewrite (proj2 (Z.ltb_ge _ _)) by lia. cbn zeta. rewrite take_app_length' by (unfold len; lia).
  rewrite putU32_decode by apply Crc32.checksum_range. rewrite Z.eqb_refl. cbn [negb]. rewrite kind_known by done.
  pose proof (payload_read_back (CKind e) (CPayload e) [] K P) as R. rewrite app_nil_r in R. fold p in R. rewrite R by lia.
  cbn [mbind checked_bind mret checked_ret]. rewrite putU64_unsigned by done. unfold UnixNano. rewrite (i64_id (CTimestamp e)) by done.
  by rewrite putU64_decode.
Qed.

(** A part of an entry is not one. *)
Lemma entry_cut e p : len (EncodeControlEntry e) < two32 -> p `prefix_of` EncodeControlEntry e -> p <> EncodeControlEntry e ->
  DecodeControlEntry p = Some (Err ErrControlEntryTruncated).
Proof.
  intros B [q E] N. destruct (Z.ltb_spec (len p) controlEntryHeaderSize) as [S|S].
  { unfold DecodeControlEntry. by rewrite (proj2 (Z.ltb_lt _ _)). }
  assert (Nq : 0 < len q) by (destruct q; [by rewrite app_nil_r in E|rewrite len_cons; pose proof (len_nonneg q); lia]).
  pose proof (len_encode e) as Le. rewrite encode_entry in E, B, Le. set (pl := encodeControlPayload (CKind e) (CPayload e)) in *.
  set (hd := [kind_byte (CKind e)] ++ putU64 (CSeq e) ++ putU64 (UnixNano (CTimestamp e)) ++ putU32 (len pl) ++ putU32 (Crc32.checksum_ieee pl)).
  assert (Hh : len hd = controlEntryHeaderSize) by (unfold hd; rewrite !len_app, !len_putU64, !len_putU32; done).
  assert (E' : hd ++ pl = p ++ q) by (rewrite <- E; unfold hd, entry_bytes; by rewrite <- !app_assoc).
  assert (exists b, p = hd ++ b /\ pl = b ++ q) as (b & -> & Eb).
  { apply app_eq_inv in E' as [(k & Ek & Eq)|(k & Ek & Eq)]; [|by exists k]. rewrite Ek, len_app in Hh. pose proof (len_nonneg k).
    destruct k; [|rewrite len_cons in Hh; pose proof (len_nonneg k); lia].
    exists []. rewrite app_nil_r. rewrite app_nil_r in Ek. by rewrite <- Ek. }
  replace (hd ++ b) with (entry_bytes (kind_byte (CKind e)) (putU64 (CSeq e)) (putU64 (UnixNano (CTimestamp e)))
    (putU32 (len pl)) (putU32 (Crc32.checksum_ieee pl)) b) by (unfold hd, entry_bytes; by rewrite <- !app_assoc).
  rewrite decode_past_header; [|apply len_putU64|apply len_putU64|apply len_putU32|apply len_putU32].
  assert (Lb : len pl = len b + len q) by (by rewrite Eb at 1; rewrite len_app). pose proof (len_nonneg b). unfold controlEntryHeaderSize in Le.
  rewrite Le in B. unfold decode_rest. rewrite putU32_decode by (unfold in_u32; lia). rewrite u32_id by (unfold in_u32; lia).
  by rewrite (proj2 (Z.ltb_lt _ _)) by lia.
Qed.

(* ------------------------------------------------------------------ *)
(** ** No panic *)

Definition returns {E A} (r : checked E A) : Prop := r <> None.
(** It returns, and the offset it gives is one. *)
Definition goes_on {E A} (r : checked E (A * Z)) : Prop :=
  match r with Some (Ok (_, off)) => 0 <= off | Some (Err _) => True | None => False end.

Lemma returns_bind {E A B} (m : checked E A) (f : A -> checked E B) : returns m -> (forall a, returns (f a)) -> returns (m ≫= f).
Proof. destruct m as [[a|e]|]; [by intros _ F; apply F|done|done]. Qed.
Lemma goes_bind {E A B} (m : checked E (A * Z)) (f : A * Z -> checked E B) :
  goes_on m -> (forall a off, 0 <= off -> returns (f (a, off))) -> returns (m ≫= f).
Proof. destruct m as [[[a o]|e]|]; [by intros O F; apply F|done|done]. Qed.

Lemma uint_returns data off n : 0 <= off -> 0 <= n -> off + n <= len data -> returns (field (E := wal_entry_error) (uint_at data off n)).
Proof.
  intros O N B. destruct (slice_at_Some data off (off + n)) as (? & s & ? & _ & _ & _ & E); [lia..|]. unfold uint_at. by rewrite E.
Qed.

Lemma version_goes data off : 0 <= off -> goes_on (decodeSemanticVersion data off).
Proof.
  intros O. unfold decodeSemanticVersion. destruct (Z.ltb_spec (len data) (off + 8)); [done|].
  pose proof (uint_returns data off 4 ltac:(lia) ltac:(lia) ltac:(lia)) as R1.
  pose proof (uint_returns data (off + 4) 4 ltac:(lia) ltac:(lia) ltac:(lia)) as R2.
  destruct (field (uint_at data off 4)) as [[a|]|]; [|done|by destruct R1]. cbn [mbind checked_bind].
  destruct (field (uint_at data (off + 4) 4)) as [[b|]|]; [|done|by destruct R2]. cbn. lia.
Qed.

Lemma field_goes data off : 0 <= off -> match field (decodeLenPrefixed data off) with
  | Some (Ok (_, n)) => 0 <= n | Some (Err _) => True | None => False end.
Proof.
  intros O. destruct (field_read_inv data off _ O eq_refl) as [-> |(_ & d & _ & -> & _)]; cbn; [done|]. pose proof (len_nonneg d). lia.
Qed.

Lemma string_goes data off : 0 <= off -> goes_on (decodeString data off).
Proof.
  intros O. unfold decodeString. pose proof (field_goes data off O) as G.
  destruct (field (decodeLenPrefixed data off)) as [[[raw n]|]|]; cbn; [lia|done|done].
Qed.

Lemma strings_return n data : forall off acc, 0 <= off -> returns (decodeStrings n data off acc).
Proof.
  induction n as [|n IH]; intros off acc O; [done|]. cbn [decodeStrings]. apply goes_bind; [by apply string_goes|].
  intros s o Oo. by apply IH.
Qed.

Lemma counted_returns data off : 0 <= off -> returns (decodeCounted data off).
Proof.
  intros O. unfold decodeCounted. destruct (Z.ltb_spec (len data) (off + 4)); [done|].
  apply returns_bind; [apply uint_returns; lia|]. intros c. apply strings_return. lia.
Qed.

(** The next step of a decoder returns. *)
Ltac step_returns :=
  lazymatch goal with
  | |- returns (decodeSemanticVersion _ _ ≫= _) => apply goes_bind; [apply version_goes; lia|intros ? ? ?]
  | |- returns (decodeString _ _ ≫= _) => apply goes_bind; [apply string_goes; lia|intros ? ? ?]
  | |- returns (decodeCounted _ _ ≫= _) => apply returns_bind; [apply counted_returns; lia|intros ?]
  | |- returns (decodeStrings _ _ _ _ ≫= _) => apply returns_bind; [apply strings_return; lia|intros ?]
  | |- returns (field (uint_at _ _ _) ≫= _) => apply returns_bind; [apply uint_returns; lia|intros ?]
  | |- returns (if ?a <? ?b then _ else _) => destruct (Z.ltb_spec a b); [done|]
  | |- returns (if ?a <=? ?b then _ else _) => destruct (Z.leb_spec a b); [done|]
  end.

Lemma payload_returns k data : returns (decodeControlPayload k data).
Proof.
  destruct k; cbn [decodeControlPayload]; try done.
  all: lazymatch goal with |- returns (?d _) => unfold d end.
  all: repeat step_returns; try done.
  - match goal with |- returns (within (index _ ?off) ≫= _) =>
      destruct (index_Some data off ltac:(lia)) as (pre & x & post & -> & <-); rewrite index_app_here; cbn [within mbind checked_bind];
      pose proof (len_nonneg pre) end. repeat step_returns. done.
  - match goal with |- returns (field (decodeLenPrefixed _ ?off) ≫= _) => pose proof (field_goes data off ltac:(lia)) as G;
      destruct (field (decodeLenPrefixed data off)) as [[[raw n]|]|]; [cbn [mbind checked_bind]|done|done] end. by repeat step_returns.
Qed.

Lemma decode_returns data : returns (DecodeControlEntry data).
Proof.
  destruct (Z.ltb_spec (len data) controlEntryHeaderSize) as [S|S]; [unfold DecodeControlEntry; by rewrite (proj2 (Z.ltb_lt _ _))|].
  unfold controlEntryHeaderSize in S. destruct data as [|k d0]; [done|]. rewrite len_cons in S.
  destruct (split_at_len d0 8) as (a & d1 & -> & La); [lia|]. rewrite len_app in S.
  destruct (split_at_len d1 8) as (t & d2 & -> & Lt); [lia|]. rewrite len_app in S.
  destruct (split_at_len d2 4) as (l & d3 & -> & Ll); [lia|]. rewrite len_app in S.
  destruct (split_at_len d3 4) as (c & body & -> & Lc); [lia|].
  change (k :: ?x) with ([k] ++ x). change ([k] ++ a ++ t ++ l ++ c ++ body) with (entry_bytes k a t l c body).
  rewrite decode_past_header by done. unfold decode_rest. repeat case_match; try done. apply returns_bind; [apply payload_returns|done].
Qed.

(* ------------------------------------------------------------------ *)
(** ** Claims *)

(** An entry of any kind is read back from a log as it was written, as far
    as its kind writes fields, and the bytes after it are left; a part of it
    is recognised as cut short; and whatever the bytes are, the decoder gives
    an entry or an error. *)
Theorem control_entry_roundtrip e rest p data : entry_fits e -> len (EncodeControlEntry e ++ rest) < two32 ->
  p `prefix_of` EncodeControlEntry e -> p <> EncodeControlEntry e ->
  DecodeControlEntry (EncodeControlEntry e ++ rest) = Some (Ok (read_back e, len (EncodeControlEntry e))) /\
  DecodeControlEntry p = Some (Err ErrControlEntryTruncated) /\ DecodeControlEntry data <> None.
Proof.
  intros F B P N. split; [apply entry_read; [done|unfold controlEntryHeaderSize; lia]|]. split; [|apply decode_returns].
  apply (entry_cut e); [apply F|done|done].
Qed.

Definition sample_control : ControlEntry :=
  mkControlEntry 7 ControlKindReplicaDecided 1700000000
    (replicaPayload (mkVersion 1 4) "ignored" "replica-1" ReplicaDecisionRejected "no" "" ["late"; ""]).

Lemma sample_control_fits : entry_fits sample_control.
Proof. repeat (split; cbn); (reflexivity || (unfold in_u64, in_i64, in_u32; cbn; lia) || done || (vm_compute; congruence)). Qed.

(** A rejection with two concerns. *)
Lemma control_entry_roundtrip_witness :
  DecodeControlEntry (EncodeControlEntry sample_control ++ [x00]) = Some (Ok (read_back sample_control, len (EncodeControlEntry sample_control))) /\
  DecodeControlEntry (take 30 (EncodeControlEntry sample_control)) = Some (Err ErrControlEntryTruncated) /\ DecodeControlEntry [x09] <> None.
Proof.
  apply (control_entry_roundtrip sample_control [x00] (take 30 (EncodeControlEntry sample_control)) [x09] sample_control_fits);
    [reflexivity|apply prefix_take|vm_compute; congruence].
Defined.

(** A log of more than 4 GiB: the entry at its head is taken for one cut
    short, whatever it is, since the length of what is left wraps. *)
Lemma log_past_4GiB k a t l c body : len a = 8 -> len t = 8 -> len l = 4 -> len c = 4 ->
  two32 <= len body < two32 + be_decode l -> be_decode l < two32 -> 
  DecodeControlEntry (entry_bytes k a t l c body) = Some (Err ErrControlEntryTruncated).
Proof.
  intros La Lt Ll Lc B W. rewrite decode_past_header by done. unfold decode_rest, u32.
  assert (E : len body mod two32 = len body - two32) by (symmetry; apply (Z.mod_unique_pos _ _ 1); lia).
  rewrite E. by rewrite (proj2 (Z.ltb_lt _ _)) by lia.
Qed.
