(* ===== verification/ControlWal.v ===== *)
(** * The control log of a session (core/versioning/control_wal.go)

    One file to which decisions are appended, each followed by [fsync].  The
    file is part of the state: its bytes and how many of them are durable.
    What the system calls of an operation do is an argument.  Every operation
    ends with the file position at the end of the file (seeking in a regular
    file does not fail), so a write is an append.  A truncation is taken to be
    durable. *)

From S2P Require Import Prelude GoStd WalEntry ControlEntryProof.
Import ControlEntry.

Module ControlWal.

Inductive control_wal_error := ErrControlWALClosed | ErrIO.

(** [durable]: how many bytes survive a power failure for certain. *)
Record logfile := mkFile { content : bytes; durable : nat }.

(** [closed] also when the log could not be opened. *)
Record ControlWAL := mkControlWAL { log : logfile; nextSeq : Z; closed : bool }.

(** The write of an append can stop after [n] bytes. *)
Inductive append_outcome := AppendFine | WriteFails (n : nat) | SyncFails.
Inductive open_outcome := OpenFine | MkdirFails | OpenFails | ReadFails | TruncateFails.

(* ------------------------------------------------------------------ *)
(** ** Reading *)

(** The offset, the highest number, the end of the last entry and whether
    there was one; an entry takes at least a byte, so the bytes are fuel
    enough.  [None]: a panic. *)
Fixpoint scan_loop (fuel : nat) (data : bytes) (off maxSeq lastOK : Z) (haveOK : bool) : option (Z * Z * Z * bool) :=
  match fuel with
  | O => None
  | S fuel =>
    if off <? len data then
      match DecodeControlEntry (drop (Z.to_nat off) data) with
      | Some (Ok (entry, consumed)) =>
        let maxSeq := if maxSeq <? CSeq entry then CSeq entry else maxSeq in
        let off := off + consumed in
        scan_loop fuel data off maxSeq off true
      | Some (Err _) => Some (off, maxSeq, lastOK, haveOK)
      | None => None
      end
    else Some (off, maxSeq, lastOK, haveOK)
  end.

(** [file.Truncate] *)
Definition truncate (n : nat) (f : logfile) : logfile := mkFile (take n (content f)) (min n (durable f)).

(** The next number and the file without what follows the last entry. *)
Definition scanNextSeq (f : logfile) (o : open_outcome) : option (result control_wal_error (Z * logfile)) :=
  match o with
  | ReadFails => Some (Err ErrIO)
  | _ =>
    let data := content f in
    match scan_loop (S (length data)) data 0 0 0 false with
    | None => None
    | Some (off, maxSeq, lastOK, haveOK) =>
      let next := if haveOK then u64 (maxSeq + 1) else 1 in
      if off <? len data then
        match o with
        | TruncateFails => Some (Err ErrIO)
        | _ => Some (Ok (next, truncate (Z.to_nat lastOK) f))
        end
      else Some (Ok (next, f))
    end
  end.

(** On the file that is there, or on a new one, which is empty. *)
Definition OpenControlWAL (f : logfile) (o : open_outcome) : option (result control_wal_error ControlWAL) :=
  match o with
  | MkdirFails | OpenFails => Some (Err ErrIO)
  | _ =>
    match scanNextSeq f o with
    | None => None
    | Some (Err e) => Some (Err e)
    | Some (Ok (seq, f)) => Some (Ok (mkControlWAL f seq false))
    end
  end.

(** [fn] on the entries from [off] on. *)
Fixpoint replay_loop {S E} (fn : ControlEntry -> S -> result E S) (fuel : nat) (data : bytes) (off : Z) (s : S)
  : option (result E S) :=
  match fuel with
  | O => None
  | Datatypes.S fuel =>
    if off <? len data then
      match DecodeControlEntry (drop (Z.to_nat off) data) with
      | Some (Ok (entry, consumed)) =>
        match fn entry s with
        | Err e => Some (Err e)
        | Ok s => replay_loop fn fuel data (off + consumed) s
        end
      | Some (Err _) => Some (Ok s)
      | None => None
      end
    else Some (Ok s)
  end.

(** [readable]: the file can be read. *)
Definition Replay {S E} (w : ControlWAL) (readable : bool) (fn : ControlEntry -> S -> result E S) (s : S)
  : option (result (control_wal_error + E) S) :=
  if closed w then Some (Err (inl ErrControlWALClosed))
  else if readable then
    match replay_loop fn (Datatypes.S (length (content (log w)))) (content (log w)) 0 s with
    | None => None
    | Some (Ok s) => Some (Ok s)
    | Some (Err e) => Some (Err (inr e))
    end
  else Some (Err (inl ErrIO)).

(* ------------------------------------------------------------------ *)
(** ** Writing *)

(** [now]: the time of the call. *)
Definition Append (w : ControlWAL) (o : append_outcome) (now : Z) (kind : ControlEntryKind) (payload : ControlEntryPayload)
  : result control_wal_error Z * ControlWAL :=
  if closed w then (Err ErrControlWALClosed, w)
  else
    let seq := nextSeq w in
    let entry := mkControlEntry seq kind now payload in
    let buf := EncodeControlEntry entry in
    let f := log w in
    match o with
    | WriteFails n => (Err ErrIO, mkControlWAL (mkFile (content f ++ take n buf) (durable f)) seq false)
    | SyncFails => (Err ErrIO, mkControlWAL (mkFile (content f ++ buf) (durable f)) seq false)
    | AppendFine =>
      let f := mkFile (content f ++ buf) (length (content f ++ buf)) in
      (Ok seq, mkControlWAL f (u64 (seq + 1)) false)
    end.

Definition NextSeq (w : ControlWAL) : Z := nextSeq w.

(** Closing the file can report an error, the log is closed then too. *)
Definition Close (w : ControlWAL) (fails : bool) : option control_wal_error * ControlWAL :=
  if closed w then (None, w)
  else ((if fails then Some ErrIO else None), mkControlWAL (log w) (nextSeq w) true).

(* ------------------------------------------------------------------ *)
(** ** Runs *)

(** The power fails and some bytes past the durable ones survive: [k] of the
    file, or all the durable ones. *)
Definition power_failure (k : nat) (f : logfile) : logfile :=
  let n := min (max (durable f) k) (length (content f)) in mkFile (take n (content f)) n.

(** What happens to the log.  [OReopen k o]: the process ends without closing
    it, with the power when [k] is given, and another one opens it. *)
Inductive op :=
| OAppend (o : append_outcome) (now : Z) (kind : ControlEntryKind) (payload : ControlEntryPayload)
| OClose (fails : bool)
| OReopen (k : option nat) (o : open_outcome).

(** The log and the entries that were acknowledged. *)
Definition perform (s : ControlWAL * list ControlEntry) (a : op) : ControlWAL * list ControlEntry :=
  let w := s.1 in
  match a with
  | OAppend o now kind payload =>
    match Append w o now kind payload with
    | (Ok seq, w) => (w, s.2 ++ [mkControlEntry seq kind now payload])
    | (Err _, w) => (w, s.2)
    end
  | OClose fails => ((Close w fails).2, s.2)
  | OReopen k o =>
    let f := match k with Some k => power_failure k (log w) | None => log w end in
    match OpenControlWAL f o with
    | Some (Ok w) => (w, s.2)
    | _ => (mkControlWAL f (nextSeq w) true, s.2)
    end
  end.

Definition performs (s : ControlWAL * list ControlEntry) (l : list op) : ControlWAL * list ControlEntry := foldl perform s l.

(** A log that is opened for the first time. *)
Definition fresh : ControlWAL := mkControlWAL (mkFile [] 0) 1 false.

(** The entries a replay of the file gives. *)
Definition entries (w : ControlWAL) : option (list ControlEntry) :=
  match Replay (mkControlWAL (log w) (nextSeq w) false) true (E := Empty_set) (fun e l => Ok (l ++ [e])) [] with
  | Some (Ok l) => Some l
  | _ => None
  end.
End ControlWal.
