(* ===== verification/ControlWalProof.v ===== *)
(** * What the control log keeps (core/versioning/control_wal.go)

    An entry that was acknowledged is read after any failures, also of the
    power, as long as nothing is appended behind a write that stopped halfway;
    and what happens when something is. *)

From S2P Require Import Prelude GoStd WalEntry WalEntryProof Semantic ControlEntryProof.
From S2P Require Export ControlWal.
Import ControlEntry ControlWal.

Module ControlWalProof.

Definition bytes_of (es : list ControlEntry) : bytes := es ≫= EncodeControlEntry.

(** A part of an entry. *)
Definition torn (g : bytes) : Prop :=
  exists e, len (EncodeControlEntry e) < two32 /\ g `prefix_of` EncodeControlEntry e /\ g <> EncodeControlEntry e.

Lemma torn_decode g : torn g -> DecodeControlEntry g = Some (Err ErrControlEntryTruncated).
Proof. intros (e & B & P & N). by apply (entry_cut e). Qed.

Lemma torn_nil : torn [].
Proof. exists sample_control. split; [done|]. split; [apply prefix_nil|done]. Qed.

Lemma torn_prefix g h : torn g -> h `prefix_of` g -> torn h.
Proof.
  intros (e & B & P & N) Ph. exists e. split; [done|]. split; [by etransitivity|]. intros ->. destruct N. by apply (anti_symm prefix).
Qed.

Lemma bytes_of_app a b : bytes_of (a ++ b) = bytes_of a ++ bytes_of b.
Proof. apply bind_app. Qed.

(** What is left of entries and a torn one when the end is cut off. *)
Lemma prefix_entries es g p : Forall (fun e => len (EncodeControlEntry e) < two32) es -> torn g -> p `prefix_of` bytes_of es ++ g ->
  exists es' h, p = bytes_of es' ++ h /\ torn h /\ es' `prefix_of` es.
Proof.
  intros F T. revert p. induction es as [|e es IH]; intros p P.
  { exists [], p. split; [done|]. split; [by apply (torn_prefix g)|done]. }
  apply Forall_cons in F as [Fe F]. unfold bytes_of in P. rewrite bind_cons, <- app_assoc in P.
  destruct (decide (EncodeControlEntry e `prefix_of` p)) as [[q ->]|N].
  - apply prefix_app_inv in P. destruct (IH F q P) as (es' & h & -> & Th & Pe).
    exists (e :: es'), h. split; [unfold bytes_of; by rewrite bind_cons, <- app_assoc|]. split; [done|by apply prefix_cons].
  - exists [], p. split; [done|]. split; [|apply prefix_nil]. exists e. split; [done|].
    destruct (prefix_weak_total p (EncodeControlEntry e) _ P (prefix_app_r _ _ _ (reflexivity _))) as [W|W]; [|done].
    split; [done|]. by intros ->.
Qed.

(* ------------------------------------------------------------------ *)
(** ** Reading a file of entries *)

Lemma drop_len {A} (pre rest : list A) : drop (Z.to_nat (len pre)) (pre ++ rest) = rest.
Proof. apply drop_app_length'. unfold len. lia. Qed.

Definition max_seq (m : Z) (es : list ControlEntry) : Z := foldl (fun m e => Z.max m (CSeq e)) m es.

Lemma bytes_cons e es : bytes_of (e :: es) = EncodeControlEntry e ++ bytes_of es.
Proof. done. Qed.

(** One entry of a file, read at its offset. *)
Lemma read_next pre e es g : entry_fits e -> len (pre ++ bytes_of (e :: es) ++ g) < two32 ->
  (len pre <? len (pre ++ bytes_of (e :: es) ++ g)) = true /\
  DecodeControlEntry (drop (Z.to_nat (len pre)) (pre ++ bytes_of (e :: es) ++ g)) = Some (Ok (read_back e, len (EncodeControlEntry e))).
Proof.
  intros F B. rewrite drop_len. rewrite bytes_cons, !len_app in *. pose proof (encode_takes e). pose proof (len_nonneg pre).
  pose proof (len_nonneg (bytes_of es)). pose proof (len_nonneg g). split; [apply Z.ltb_lt; assert (0 < len (EncodeControlEntry e)) by (unfold len; lia); lia|].
  rewrite <- app_assoc. apply entry_read; [done|]. rewrite !len_app. unfold controlEntryHeaderSize. lia.
Qed.

Lemma read_end pre g : torn g ->
  (len pre <? len (pre ++ g)) = false /\ g = [] \/
  (len pre <? len (pre ++ g)) = true /\ DecodeControlEntry (drop (Z.to_nat (len pre)) (pre ++ g)) = Some (Err ErrControlEntryTruncated).
Proof.
  intros T. rewrite len_app. destruct g as [|b g]; [left; split; [apply Z.ltb_ge; change (len []) with 0; lia|done]|right].
  rewrite drop_len. split; [apply Z.ltb_lt; rewrite len_cons; pose proof (len_nonneg g); lia|by apply torn_decode].
Qed.

Lemma scan_entries es g : Forall entry_fits es -> torn g -> forall pre fuel m h, len (pre ++ bytes_of es ++ g) < two32 ->
  (length es < fuel)%nat ->
  scan_loop fuel (pre ++ bytes_of es ++ g) (len pre) m (len pre) h =
    Some (len (pre ++ bytes_of es), max_seq m es, len (pre ++ bytes_of es), h || negb (bool_decide (es = []))).
Proof.
  intros F T. induction es as [|e es IH]; intros pre fuel m h B Fu; (destruct fuel as [|fuel]; [cbn in Fu; lia|]).
  - cbn [bytes_of mbind list_bind app]. rewrite app_nil_r, orb_false_r. cbn [scan_loop].
    by destruct (read_end pre g T) as [[-> _]|[-> ->]].
  - apply Forall_cons in F as [Fe F]. destruct (read_next pre e es g Fe B) as [L D]. cbn [scan_loop]. rewrite L, D.
    rewrite bytes_cons, <- app_assoc, app_assoc in *. rewrite <- len_app. cbn [read_back CSeq] in *.
    replace (if m <? CSeq e then CSeq e else m) with (Z.max m (CSeq e)) by (destruct (Z.ltb_spec m (CSeq e)); lia).
    rewrite IH by (done || (cbn in Fu; lia)). rewrite <- app_assoc. by rewrite orb_true_r.
Qed.

(** [fn] on each entry until one fails. *)
Fixpoint run_all {S E} (fn : ControlEntry -> S -> result E S) (es : list ControlEntry) (s : S) : result E S :=
  match es with
  | [] => Ok s
  | e :: es => match fn e s with Ok s => run_all fn es s | Err x => Err x end
  end.

Lemma replay_entries {S E} (fn : ControlEntry -> S -> result E S) es g : Forall entry_fits es -> torn g -> forall pre fuel s,
  len (pre ++ bytes_of es ++ g) < two32 -> (length es < fuel)%nat ->
  replay_loop fn fuel (pre ++ bytes_of es ++ g) (len pre) s = Some (run_all fn (read_back <$> es) s).
Proof.
  intros F T. induction es as [|e es IH]; intros pre fuel s B Fu; (destruct fuel as [|fuel]; [cbn in Fu; lia|]).
  - cbn [bytes_of mbind list_bind app fmap list_fmap run_all replay_loop]. by destruct (read_end pre g T) as [[-> _]|[-> ->]].
  - apply Forall_cons in F as [Fe F]. destruct (read_next pre e es g Fe B) as [L D]. cbn [replay_loop]. rewrite L, D.
    rewrite bytes_cons, <- app_assoc, app_assoc in *. rewrite <- len_app. rewrite fmap_cons. cbn [run_all].
    destruct (fn (read_back e) s) as [s'|x]; [|done]. apply IH; [done|done|cbn in Fu; lia].
Qed.

Lemma fuel_enough es g : (length es < Datatypes.S (length (bytes_of es ++ g)))%nat.
Proof.
  rewrite length_app. induction es as [|e es IH]; [cbn; lia|]. rewrite bytes_cons, length_app. pose proof (encode_takes e).
  cbn [length] in *. lia.
Qed.

Lemma Replay_eq {S E} w (fn : ControlEntry -> S -> result E S) s es g : closed w = false -> content (log w) = bytes_of es ++ g ->
  Forall entry_fits es -> torn g -> len (content (log w)) < two32 ->
  Replay w true fn s = Some (match run_all fn (read_back <$> es) s with Ok s => Ok s | Err e => Err (inr e) end).
Proof.
  intros C E' F T B. unfold Replay. rewrite C, E' in *. change 0 with (len (@nil byte)).
  change (bytes_of es ++ g) with ([] ++ bytes_of es ++ g) at 2.
  rewrite (replay_entries fn es g F T [] _ s B (fuel_enough es g)). by destruct (run_all fn _ s).
Qed.

Lemma collect es l : run_all (E := Empty_set) (fun e l => Ok (l ++ [e])) es l = Ok (l ++ es).
Proof. revert l. induction es as [|e es IH]; intros l; [by rewrite app_nil_r|]. cbn. rewrite IH. by rewrite <- app_assoc. Qed.

Lemma entries_eq w es g : content (log w) = bytes_of es ++ g -> Forall entry_fits es -> torn g -> len (content (log w)) < two32 ->
  entries w = Some (read_back <$> es).
Proof.
  intros E F T B. unfold entries. rewrite (Replay_eq _ _ [] es g); [|done..]. by rewrite collect.
Qed.

(* ------------------------------------------------------------------ *)
(** ** Opening *)

Definition next_number (es : list ControlEntry) : Z := if bool_decide (es = []) then 1 else u64 (max_seq 0 es + 1).

Lemma open_eq f o es g : content f = bytes_of es ++ g -> Forall entry_fits es -> torn g -> len (content f) < two32 ->
  OpenControlWAL f o = Some (Err ErrIO) /\ o <> OpenFine \/
  OpenControlWAL f o = Some (Ok (mkControlWAL (mkFile (bytes_of es) (min (length (bytes_of es)) (durable f))) (next_number es) false)) \/
  OpenControlWAL f o = Some (Ok (mkControlWAL f (next_number es) false)) /\ g = [].
Proof.
  intros E F T B. unfold OpenControlWAL, scanNextSeq.
  assert (Sc : scan_loop (Datatypes.S (length (content f))) (content f) 0 0 0 false =
    Some (len (bytes_of es), max_seq 0 es, len (bytes_of es), negb (bool_decide (es = [])))).
  { rewrite E in *. exact (scan_entries es g F T [] _ 0 false B (fuel_enough es g)). }
  assert (N : (if negb (bool_decide (es = [])) then u64 (max_seq 0 es + 1) else 1) = next_number es)
    by (unfold next_number; by destruct (bool_decide _)).
  assert (Cut : take (Z.to_nat (len (bytes_of es))) (content f) = bytes_of es)
    by (rewrite E; apply take_app_length'; unfold len; lia).
  destruct (Z.ltb_spec (len (bytes_of es)) (len (content f))) as [L|L].
  - destruct o; (try by left); rewrite Sc, N; (try by left); (rewrite (proj2 (Z.ltb_lt _ _)) by done);
      (try by left); right; left; unfold truncate; rewrite Cut; do 5 f_equal; unfold len; lia.
  - assert (g = []) as -> by (rewrite E, len_app in L; destruct g as [|b g]; [done|]; rewrite len_cons in L; pose proof (len_nonneg g); lia).
    destruct o; (try by left); rewrite Sc, N; (rewrite (proj2 (Z.ltb_ge _ _)) by done); by right; right.
Qed.

Lemma max_seq_bound es : forall m, m <= max_seq m es /\ Forall (fun e => CSeq e <= max_seq m es) es /\
  (forall b, m <= b -> Forall (fun e => CSeq e <= b) es -> max_seq m es <= b).
Proof.
  induction es as [|e es IH]; intros m; [split; [done|split; [constructor|by intros b]]|].
  destruct (IH (Z.max m (CSeq e))) as (M & A & U). cbn [max_seq foldl]. change (foldl _ ?x es) with (max_seq x es). split; [lia|].
  split; [constructor; [lia|done]|]. intros b Mb Fb. apply Forall_cons in Fb as [Eb Fb]. apply U; [lia|done].
Qed.

(* ------------------------------------------------------------------ *)
(** ** The invariant *)

(** The numbers are at most the places of the entries. *)
Definition numbered (es : list ControlEntry) : Prop := forall i e, es !! i = Some e -> 1 <= CSeq e <= Z.of_nat i + 1.

Lemma numbered_prefix es es' : es' `prefix_of` es -> numbered es -> numbered es'.
Proof. intros P N i e L. apply (N i e). by eapply prefix_lookup_Some. Qed.

Lemma numbered_bound es : numbered es -> Forall (fun e => CSeq e <= len es) es.
Proof. intros N. apply Forall_lookup. intros i e L. pose proof (N i e L). apply lookup_lt_Some in L. unfold len. lia. Qed.

Lemma numbered_snoc es e : numbered es -> 1 <= CSeq e <= 1 + len es -> numbered (es ++ [e]).
Proof.
  intros N B i x. rewrite lookup_app_Some. intros [L|[Hi L]]; [by apply N|]. apply list_lookup_singleton_Some in L as [I <-].
  unfold len in B. lia.
Qed.

Lemma next_number_bound es : numbered es -> len es < two32 ->
  1 <= next_number es <= 1 + len es /\ Forall (fun e => CSeq e < next_number es) es.
Proof.
  intros N B. unfold next_number. case_bool_decide as E; [subst; split; [unfold len; cbn; lia|constructor]|].
  destruct (max_seq_bound es 0) as (M & A & U). pose proof (U (len es) (len_nonneg es) (numbered_bound es N)) as Up.
  rewrite u64_id by (unfold in_u64, two64; unfold two32 in B; lia). split; [lia|]. eapply Forall_impl; [exact A|]. cbn. lia.
Qed.

(** [issued]: the entries that may be in the file; [es]: those in the file,
    of which [ds] are durable; [g]: a torn one at the end. *)
Record holds (issued : ControlEntry -> Prop) (dirty : bool) (volume : Z) (w : ControlWAL) (acks es ds : list ControlEntry) (g : bytes) : Prop := {
  h_content : content (log w) = bytes_of es ++ g;
  h_fits : Forall entry_fits es;
  h_torn : torn g;
  h_clean : closed w = false -> dirty = false -> g = [];
  h_durable : ds `prefix_of` es /\ (length (bytes_of ds) <= durable (log w) <= length (content (log w)))%nat;
  h_acks : acks `sublist_of` ds;
  h_numbered : numbered es;
  h_next : closed w = false -> 1 <= nextSeq w <= 1 + len es /\ Forall (fun e => CSeq e < nextSeq w) acks;
  h_sorted : StronglySorted Z.lt (CSeq <$> acks);
  h_volume : len (content (log w)) <= volume;
  h_issued : Forall issued es
}.

Lemma holds_weaken (I J : ControlEntry -> Prop) dirty v v' w acks es ds g : (forall e, I e -> J e) -> v <= v' ->
  holds I dirty v w acks es ds g -> holds J dirty v' w acks es ds g.
Proof. intros IJ V []. split; try done; [lia|by eapply Forall_impl]. Qed.

Lemma count_volume es g : (length es <= length (bytes_of es ++ g))%nat.
Proof. pose proof (fuel_enough es g). lia. Qed.

(* ------------------------------------------------------------------ *)
(** ** The operations *)

Definition is_torn (o : append_outcome) : bool := match o with WriteFails n => negb (n =? 0)%nat | _ => false end.

(** Whether a torn write may be at the end of the file. *)
Definition dirty_after (dirty : bool) (a : op) : bool :=
  match a with OAppend o _ _ _ => is_torn o | OClose _ => dirty | OReopen _ OpenFine => false | OReopen _ _ => dirty end.

Definition is_append (a : op) : bool := match a with OAppend _ _ _ _ => true | _ => false end.

(** Nothing is appended behind a torn write before the log is opened again. *)
Fixpoint careful (dirty : bool) (ops : list op) : Prop :=
  match ops with
  | [] => True
  | a :: ops => (is_append a = true -> dirty = false) /\ careful (dirty_after dirty a) ops
  end.

(** The bytes an operation can add; they do not depend on the number. *)
Definition bytes_added (a : op) : Z :=
  match a with OAppend _ now kind payload => len (EncodeControlEntry (mkControlEntry 0 kind now payload)) | _ => 0 end.
Definition volume (ops : list op) : Z := foldr (fun a v => bytes_added a + v) 0 ops.

Definition op_fits (a : op) : Prop :=
  match a with OAppend _ now kind payload => known kind /\ payload_wf payload /\ in_i64 now | _ => True end.

(** The entry was given to one of the calls. *)
Definition issued_by (ops : list op) (e : ControlEntry) : Prop :=
  exists o, OAppend o (CTimestamp e) (CKind e) (CPayload e) ∈ ops.

Lemma sorted_snoc l x : StronglySorted Z.lt l -> Forall (fun y => y < x) l -> StronglySorted Z.lt (l ++ [x]).
Proof.
  induction 1 as [|y l S IH F]; intros B; [repeat constructor|]. apply Forall_cons in B as [By B]. cbn. constructor; [by apply IH|].
  apply Forall_app; split; [done|by constructor].
Qed.

Section append.
Context (I : ControlEntry -> Prop) (v : Z) (w : ControlWAL) (acks es ds : list ControlEntry) (now : Z)
  (kind : ControlEntryKind) (payload : ControlEntryPayload).
Let entry := mkControlEntry (nextSeq w) kind now payload.
Context (D : holds I false v w acks es ds []) (Op : closed w = false) (Ie : I entry)
  (K : known kind) (P : payload_wf payload) (T : in_i64 now) (B : v + len (EncodeControlEntry entry) < two32).

Lemma new_fits : entry_fits entry.
Proof.
  pose proof (h_next _ _ _ _ _ _ _ _ D Op) as [N _]. pose proof (h_volume _ _ _ _ _ _ _ _ D) as V.
  rewrite (h_content _ _ _ _ _ _ _ _ D) in V. pose proof (count_volume es []) as C. pose proof (len_nonneg (bytes_of es ++ [])).
  split; [done| |done|done|]; [|lia]. cbn [CSeq entry].
  unfold in_u64, two64. unfold len, two32 in *. lia.
Qed.

Let f' d := mkFile (content (log w) ++ EncodeControlEntry entry) d.

(** The entry is in the file, and it is the last. *)
Lemma whole_holds d dirty ds' acks' n : (length (bytes_of ds') <= d <= length (content (log w) ++ EncodeControlEntry entry))%nat ->
  ds' `prefix_of` es ++ [entry] -> acks' `sublist_of` ds' -> nextSeq w <= n <= 1 + nextSeq w -> Forall (fun e => CSeq e < n) acks' ->
  StronglySorted Z.lt (CSeq <$> acks') ->
  holds I dirty (v + len (EncodeControlEntry entry)) (mkControlWAL (f' d) n false) acks' (es ++ [entry]) ds' [].
Proof.
  intros Dd Pd Sa Bn Fa Sd. destruct (h_next _ _ _ _ _ _ _ _ D Op) as [N _]. split; cbn [log content durable f' closed nextSeq].
  - rewrite (h_content _ _ _ _ _ _ _ _ D), bytes_of_app, bytes_cons. change (bytes_of []) with (@nil byte). by rewrite !app_nil_r.
  - apply Forall_app. split; [apply D|constructor; [apply new_fits|done]].
  - apply torn_nil.
  - done.
  - done.
  - done.
  - apply numbered_snoc; [apply D|]. done.
  - intros _. rewrite len_app. change (len [entry]) with 1. split; [lia|done].
  - done.
  - rewrite len_app. pose proof (h_volume _ _ _ _ _ _ _ _ D). lia.
  - apply Forall_app. split; [apply D|by constructor].
Qed.

Lemma append_holds o : exists es' ds' g',
  holds I (is_torn o) (v + len (EncodeControlEntry entry)) (Append w o now kind payload).2
    (match (Append w o now kind payload).1 with Ok seq => acks ++ [mkControlEntry seq kind now payload] | Err _ => acks end) es' ds' g'.
Proof.
  pose proof (h_durable _ _ _ _ _ _ _ _ D) as [Pd Bd]. destruct (h_next _ _ _ _ _ _ _ _ D Op) as [N Fn].
  pose proof new_fits as Fe. pose proof (h_content _ _ _ _ _ _ _ _ D) as E. rewrite app_nil_r in E.
  assert (Keep : forall d dirty, (durable (log w) = d)%nat ->
    holds I dirty (v + len (EncodeControlEntry entry)) (mkControlWAL (f' d) (nextSeq w) false) acks (es ++ [entry]) ds []).
  { intros d dirty <-. apply whole_holds; [rewrite length_app; lia|by apply prefix_app_r|apply D|lia|done|apply D]. }
  unfold Append. rewrite Op. fold entry. cbn zeta. destruct o as [|n|].
  - exists (es ++ [entry]), (es ++ [entry]), []. cbn [fst snd is_torn].
    pose proof (count_volume es []) as C. pose proof (h_volume _ _ _ _ _ _ _ _ D) as V. rewrite E in V. rewrite app_nil_r in C.
    pose proof (len_nonneg (EncodeControlEntry entry)).
    rewrite u64_id by (unfold in_u64, two64; unfold len, two32 in *; lia).
    apply whole_holds; [rewrite bytes_of_app, E; cbn; rewrite app_nil_r; lia|done|..].
    + apply sublist_app; [|done]. etransitivity; [apply D|]. by apply prefix_sublist.
    + lia.
    + apply Forall_app. split; [eapply Forall_impl; [exact Fn|]; cbn; lia|constructor; [cbn; lia|done]].
    + rewrite fmap_app. apply sorted_snoc; [apply D|]. by apply Forall_fmap.
  - destruct (decide (length (EncodeControlEntry entry) <= n)%nat) as [L|L].
    + rewrite take_ge by done. exists (es ++ [entry]), ds, []. by apply Keep.
    + exists es, ds, (take n (EncodeControlEntry entry)). cbn [fst snd is_torn].
      split; cbn [log content durable closed nextSeq]; try apply D.
      * by rewrite E.
      * exists entry. split; [apply Fe|]. split; [apply prefix_take|]. intros X. apply (f_equal length) in X. rewrite length_take in X. lia.
      * intros _ Z0. by destruct n.
      * split; [done|]. rewrite length_app. lia.
      * done.
      * rewrite len_app. pose proof (h_volume _ _ _ _ _ _ _ _ D). assert (len (take n (EncodeControlEntry entry)) <= len (EncodeControlEntry entry)) by (unfold len; rewrite length_take; lia). lia.
  - exists (es ++ [entry]), ds, []. by apply Keep.
Qed.
End append.

Lemma len_same_payload e e' : CKind e = CKind e' -> CPayload e = CPayload e' -> len (EncodeControlEntry e) = len (EncodeControlEntry e').
Proof. intros K P. by rewrite !len_encode, K, P. Qed.

Lemma take_past {A} (n : nat) (a b : list A) : (length a <= n)%nat -> take n (a ++ b) = a ++ take (n - length a) b.
Proof. intros L. rewrite take_app. by rewrite take_ge. Qed.

(** The file when the process has ended. *)
Definition survivor (k : option nat) (f : logfile) : logfile := match k with Some k => power_failure k f | None => f end.

Lemma survivor_holds I dirty v w acks es ds g k : holds I dirty v w acks es ds g ->
  exists es' h, holds I dirty v (mkControlWAL (survivor k (log w)) (nextSeq w) true) acks es' ds h.
Proof.
  intros D. pose proof (h_durable _ _ _ _ _ _ _ _ D) as [Pd Bd]. destruct k as [k|]; [|exists es, g; destruct D; by split].
  cbn [survivor]. unfold power_failure. set (n := (max (durable (log w)) k `min` length (content (log w)))%nat). destruct Pd as [rs ->].
  pose proof (h_content _ _ _ _ _ _ _ _ D) as E. rewrite bytes_of_app, <- app_assoc in E.
  pose proof (h_fits _ _ _ _ _ _ _ _ D) as F. pose proof (h_issued _ _ _ _ _ _ _ _ D) as Is. apply Forall_app in F as [Fd F], Is as [Id Is].
  destruct (prefix_entries rs g (take (n - length (bytes_of ds)) (bytes_of rs ++ g))) as (rs' & h & Ep & Th & [rs2 ->]);
    [eapply Forall_impl; [exact F|by intros x []]|apply D|apply prefix_take|]. apply Forall_app in F as [F _], Is as [Is _].
  exists (ds ++ rs'), h. split; cbn [log content durable closed]; try done.
  - by rewrite E, take_past, Ep, bytes_of_app, <- app_assoc by lia.
  - by apply Forall_app.
  - split; [by apply prefix_app_r|]. rewrite length_take. lia.
  - apply D.
  - apply (numbered_prefix (ds ++ rs' ++ rs2)); [rewrite app_assoc; by apply prefix_app_r|apply D].
  - apply D.
  - etransitivity; [|apply D]. unfold len. rewrite length_take. lia.
  - by apply Forall_app.
Qed.

Lemma open_holds I dirty v f n acks es ds g o : holds I dirty v (mkControlWAL f n true) acks es ds g -> v < two32 ->
  OpenControlWAL f o = Some (Err ErrIO) /\ o <> OpenFine \/
  exists w', OpenControlWAL f o = Some (Ok w') /\ closed w' = false /\ holds I false v w' acks es ds [].
Proof.
  intros D B. pose proof (h_content _ _ _ _ _ _ _ _ D) as E. pose proof (h_volume _ _ _ _ _ _ _ _ D) as V. cbn [log] in E, V.
  pose proof (h_durable _ _ _ _ _ _ _ _ D) as [Pd Bd]. cbn [log] in Bd.
  assert (Le : len (bytes_of es) <= len (content f)) by (rewrite E, len_app; pose proof (len_nonneg g); lia).
  assert (Ce : len es < two32) by (pose proof (count_volume es []) as C; rewrite app_nil_r in C; unfold len in *; lia).
  destruct (next_number_bound es (h_numbered _ _ _ _ _ _ _ _ D) Ce) as [Nb Nf].
  assert (Fa : Forall (fun e => CSeq e < next_number es) acks).
  { rewrite Forall_forall in Nf |- *. intros e Ha. apply Nf. eapply elem_of_sublist; [|by apply prefix_sublist].
    eapply elem_of_sublist; [exact Ha|apply D]. }
  assert (Dd : (length (bytes_of ds) <= length (bytes_of es))%nat).
  { destruct Pd as [r ->]. rewrite bytes_of_app, length_app. lia. }
  destruct (open_eq f o es g E) as [N|[O|[O ->]]]; [apply D|apply D|lia|by left|right..]; eexists; (split; [exact O|]);
    (split; [done|]); split; cbn [log content durable closed nextSeq]; try apply D; try done; try (by rewrite app_nil_r); try apply torn_nil.
  - split; [done|]. lia.
  - lia.
Qed.

Lemma perform_holds ops dirty v w acks es ds g a : holds (issued_by ops) dirty v w acks es ds g -> op_fits a ->
  v + bytes_added a < two32 -> 0 <= v -> (is_append a = true -> dirty = false) ->
  exists es' ds' g', holds (issued_by (ops ++ [a])) (dirty_after dirty a) (v + bytes_added a) (perform (w, acks) a).1 (perform (w, acks) a).2 es' ds' g'.
Proof.
  intros D F B V0 Cr.
  assert (W : forall e, issued_by ops e -> issued_by (ops ++ [a]) e) by (intros e [o E]; exists o; apply elem_of_app; by left).
  destruct a as [o now kind payload|fails|k o]; cbn [perform fst snd dirty_after bytes_added] in *.
  - rewrite Cr in * by done. destruct (closed w) eqn:Cl.
    + exists es, ds, g. unfold Append. rewrite Cl. cbn [fst snd].
      assert (holds (issued_by ops) (is_torn o) v w acks es ds g) as D' by (destruct D; split; try done; by rewrite Cl).
      eapply holds_weaken; [exact W| |exact D']. pose proof (len_nonneg (EncodeControlEntry (mkControlEntry 0 kind now payload))). lia.
    + rewrite (h_clean _ _ _ _ _ _ _ _ D Cl eq_refl) in D. destruct F as (K & P & T).
      pose proof (len_same_payload (mkControlEntry (nextSeq w) kind now payload) (mkControlEntry 0 kind now payload) eq_refl eq_refl) as Ln.
      rewrite <- Ln in *. eapply holds_weaken with (J := issued_by (ops ++ [OAppend o now kind payload])) in D; [|exact W|reflexivity].
      destruct (append_holds _ _ _ _ _ _ now kind payload D Cl) with (o := o) as (es' & ds' & g' & A); [|done..|].
      { exists o. cbn. apply elem_of_app. right. by apply list_elem_of_singleton. }
      exists es', ds', g'. by destruct (Append w o now kind payload) as [[seq|e] w'].
  - exists es, ds, g. rewrite Z.add_0_r. apply (holds_weaken (issued_by ops) _ _ v); [done|done|]. unfold Close.
    destruct (closed w) eqn:Cl; cbn [snd]; [done|]. destruct D. by split.
  - rewrite Z.add_0_r in *. destruct (survivor_holds _ _ _ _ _ _ _ _ k D) as (es' & h & D'). change (match k with Some k => power_failure k (log w) | None => log w end) with (survivor k (log w)).
    destruct (open_holds _ _ _ _ _ _ _ _ _ o D' B) as [[-> N]|(w' & -> & Cl & Dw)].
    + exists es', ds, h. cbn [fst snd]. apply (holds_weaken (issued_by ops) _ _ v); [done|done|]. by destruct o.
    + exists es', ds, []. cbn [fst snd]. apply (holds_weaken (issued_by ops) _ _ v); [done|done|]. destruct Dw; by split.
Qed.

Lemma performs_hold ops : forall done_ w acks v es ds g dirty, holds (issued_by done_) dirty v w acks es ds g -> 0 <= v ->
  Forall op_fits ops -> v + volume ops < two32 -> careful dirty ops ->
  exists dirty' es' ds' g', holds (issued_by (done_ ++ ops)) dirty' (v + volume ops) (performs (w, acks) ops).1 (performs (w, acks) ops).2 es' ds' g'.
Proof.
  induction ops as [|a ops IH]; intros dn w acks v es ds g dirty D V F B C; [exists dirty, es, ds, g; by rewrite app_nil_r, Z.add_0_r|].
  apply Forall_cons in F as [Fa F]. destruct C as [Ca C]. cbn [volume foldr] in B |- *. change (foldr _ 0 ops) with (volume ops) in *.
  assert (0 <= bytes_added a) by (destruct a; [apply len_nonneg|done|done]).
  assert (0 <= volume ops).
  { clear. induction ops as [|a ops IH]; [done|]. cbn [volume foldr]. change (foldr _ 0 ops) with (volume ops).
    assert (0 <= bytes_added a) by (destruct a; [apply len_nonneg|done|done]). lia. }
  destruct (perform_holds dn dirty v w acks es ds g a D Fa) as (es1 & ds1 & g1 & D1); [lia|done|done|].
  cbn [performs foldl]. destruct (perform (w, acks) a) as [w1 acks1]. cbn [fst snd] in D1.
  destruct (IH _ w1 acks1 _ es1 ds1 g1 _ D1) as (d' & es' & ds' & g' & D'); [lia|done|lia|done|].
  exists d', es', ds', g'. rewrite <- app_assoc in D'. by rewrite Z.add_assoc.
Qed.

Lemma fresh_holds : holds (issued_by []) false 0 fresh [] [] [] [].
Proof.
  split; [done|by constructor|apply torn_nil|done|split; [done|cbn; lia]|done|by intros i e E| |apply SSorted_nil|done|by constructor].
  intros _. split; [unfold len; cbn; lia|constructor].
Qed.

(* ------------------------------------------------------------------ *)
(** ** Claims *)

(** C8: whatever fails, processes ending and the power included, the log can
    be opened afterwards and a replay gives every acknowledged entry, in the
    order they were acknowledged, among entries that were all appended; the
    numbers that were acknowledged increase; provided nothing is appended
    behind a write that stopped halfway before the log is opened again. *)
Theorem control_log_keeps ops k : Forall op_fits ops -> volume ops < two32 -> careful false ops ->
  let (w, acks) := performs (fresh, []) ops in
  exists w' es, OpenControlWAL (survivor k (log w)) OpenFine = Some (Ok w') /\
    entries w' = Some (read_back <$> es) /\ acks `sublist_of` es /\ Forall (issued_by ops) es /\
    StronglySorted Z.lt (CSeq <$> acks) /\ Forall (fun e => CSeq e < nextSeq w') acks.
Proof.
  intros F B C. destruct (performs_hold ops [] fresh [] 0 [] [] [] false fresh_holds) as (d & es & ds & g & D); [done|done|lia|done|].
  destruct (performs (fresh, []) ops) as [w acks]. cbn [fst snd app] in D.
  destruct (survivor_holds _ _ _ _ _ _ _ _ k D) as (es' & h & D').
  destruct (open_holds _ _ _ _ _ _ _ _ _ OpenFine D' ltac:(lia)) as [[_ N]|(w' & O & Cl & Dw)]; [done|].
  exists w', es'. split; [done|]. split; [|split].
  - apply (entries_eq _ _ []); [apply Dw|apply Dw|apply Dw|]. pose proof (h_volume _ _ _ _ _ _ _ _ Dw). lia.
  - etransitivity; [apply Dw|]. apply prefix_sublist, Dw.
  - split; [apply Dw|]. split; [apply Dw|]. by apply (h_next _ _ _ _ _ _ _ _ Dw).
Qed.

Definition kept_ops : list op :=
  [OAppend AppendFine 5 ControlKindCommitQueueMarkCommitted (queuePayload (Semantic.BumpMinor Semantic.VersionZero) "" "" [] Semantic.VersionZero);
   OAppend SyncFails 6 ControlKindSessionCloseEpoch (epochPayload "late");
   OReopen (Some 40%nat) TruncateFails;
   OReopen None OpenFine;
   OAppend AppendFine 7 ControlKindSessionOpenEpoch (epochPayload "again");
   OAppend (WriteFails 3) 8 ControlKindSessionCloseEpoch (epochPayload "torn")].

(** A failed synchronisation, of which the power failure leaves seven bytes,
    an opening that fails, and a torn write at the end. *)
Lemma control_log_keeps_witness :
  let (w, acks) := performs (fresh, []) kept_ops in
  exists w' es, OpenControlWAL (survivor None (log w)) OpenFine = Some (Ok w') /\
    entries w' = Some (read_back <$> es) /\ acks `sublist_of` es /\ Forall (issued_by kept_ops) es /\
    StronglySorted Z.lt (CSeq <$> acks) /\ Forall (fun e => CSeq e < nextSeq w') acks.
Proof.
  apply (control_log_keeps kept_ops None); [|reflexivity|cbn; tauto].
  repeat constructor; vm_compute; congruence.
Defined.

(** Three entries, of which the second is torn and the third acknowledged. *)
Definition lost_ops : list op :=
  [OAppend AppendFine 5 ControlKindSessionOpenEpoch (epochPayload "a");
   OAppend (WriteFails 10) 6 ControlKindSessionCloseEpoch (epochPayload "b");
   OAppend AppendFine 7 ControlKindSessionCloseEpoch (epochPayload "c");
   OReopen None OpenFine].

(** The third entry was synchronised and acknowledged, and the next
    opening removes it from the file, since it stands behind a torn one. *)
Theorem acknowledged_entry_lost :
  List.map CSeq (performs (fresh, []) lost_ops).2 = [1; 2] /\
  option_map (List.map CTimestamp) (entries (performs (fresh, []) lost_ops).1) = Some [5] /\
  closed (performs (fresh, []) lost_ops).1 = false.
Proof. by vm_compute. Qed.

(** A transition refused because the log could not be synchronised is in
    the log all the same, and the next one has its number. *)
Theorem refused_entry_kept :
  let ops := [OAppend SyncFails 5 ControlKindSessionOpenEpoch (epochPayload "refused");
              OAppend AppendFine 6 ControlKindSessionCloseEpoch (epochPayload "taken"); OReopen (Some O) OpenFine] in
  List.map CTimestamp (performs (fresh, []) ops).2 = [6] /\
  option_map (List.map (fun e => (CSeq e, CTimestamp e))) (entries (performs (fresh, []) ops).1) = Some [(1, 5); (1, 6)].
Proof. by vm_compute. Qed.
End ControlWalProof.
