(* ===== verification/ControlLog.v ===== *)
(** * What a component expects of the control log

    The commit queue, the retention of copies and the lifecycle of replicas
    append to one log before they change, and are rebuilt from it.  They are
    written against this interface; the log of control_wal.go implements it. *)

From S2P Require Import Prelude GoStd Semantic WalEntry ControlEntryProof ControlWalProof.
Import ControlEntry ControlWal ControlWalProof.

(** [w.Append] without the number, which nobody uses, and the entries a replay
    gives. *)
Class ControlLog (W : Type) := {
  log_append : W -> ControlEntryKind -> ControlEntryPayload -> result control_wal_error unit * W;
  logged : W -> list ControlEntry
}.

(** [log_sound]: an entry that is refused leaves nothing; [log_small]: short
    enough to be read. *)
Class ControlLogLaws (W : Type) `{ControlLog W} := {
  log_sound : W -> Prop;
  log_small : W -> Prop;
  append_small w k p r w' : log_append w k p = (r, w') -> log_small w' -> log_small w;
  append_taken w k p w' : log_sound w -> known k -> payload_wf p -> log_append w k p = (Ok tt, w') -> log_small w' ->
    log_sound w' /\ exists seq t, in_i64 t /\ logged w' = logged w ++ [mkControlEntry seq k t (written k p)];
  append_refused w k p e w' : log_sound w -> log_append w k p = (Err e, w') -> log_sound w' /\ logged w' = logged w
}.

(** Both components of a [walAppend]: no log, or the error of the log. *)
Definition walAppend {W} `{ControlLog W} (wal : option W) (kind : ControlEntryKind) (payload : ControlEntryPayload)
  : result control_wal_error unit * option W :=
  match wal with
  | None => (Ok tt, None)
  | Some w => let (r, w) := log_append w kind payload in (r, Some w)
  end.

Lemma walAppend_Some {W} `{ControlLog W} (w : W) kind payload :
  walAppend (Some w) kind payload = ((log_append w kind payload).1, Some (log_append w kind payload).2).
Proof. unfold walAppend. by destruct (log_append w kind payload). Qed.

(** The results of the calls and the state after them. *)
Fixpoint runs {S O R} (step : S -> O -> R * S) (s : S) (ops : list O) : list R * S :=
  match ops with
  | [] => ([], s)
  | o :: ops => let (r, s) := step s o in let (rs, s) := runs step s ops in (r :: rs, s)
  end.

(* ------------------------------------------------------------------ *)
(** ** The log of control_wal.go *)

(** The log, and the outcome and the time of every append to come; when none
    is left they succeed. *)
Definition session_log : Type := (ControlWAL * list (append_outcome * Z))%type.

Definition session_append (l : session_log) (kind : ControlEntryKind) (payload : ControlEntryPayload)
  : result control_wal_error unit * session_log :=
  let '(o, now, rest) := match l.2 with (o, now) :: rest => (o, now, rest) | [] => (AppendFine, 0, []) end in
  match Append l.1 o now kind payload with
  | (Ok _, w) => (Ok tt, (w, rest))
  | (Err e, w) => (Err e, (w, rest))
  end.

#[export] Instance session_control_log : ControlLog session_log := {
  log_append := session_append;
  logged l := default [] (entries l.1)
}.

(** A file of whole entries, all durable; the appends to come fail without a
    trace. *)
Definition session_sound (l : session_log) : Prop :=
  (exists es, content (log l.1) = bytes_of es /\ Forall entry_fits es /\ (closed l.1 = false -> 1 <= nextSeq l.1 <= 1 + len es)) /\
  (len (content (log l.1)) < two32 /\ durable (log l.1) = length (content (log l.1))) /\
  Forall (fun on => in_i64 on.2 /\ (on.1 = AppendFine \/ on.1 = WriteFails 0)) l.2.

Lemma logged_eq (l : session_log) es : content (log l.1) = bytes_of es -> Forall entry_fits es -> len (content (log l.1)) < two32 ->
  logged l = read_back <$> es.
Proof. intros E F B. cbn [logged session_control_log]. rewrite (entries_eq l.1 es []); [done|by rewrite app_nil_r|done|apply torn_nil|done]. Qed.

Lemma read_back_entry seq k t p : known k -> read_back (mkControlEntry seq k t p) = mkControlEntry seq k t (written k p).
Proof. done. Qed.

#[export] Program Instance session_control_laws : ControlLogLaws session_log := {
  log_sound := session_sound;
  log_small l := len (content (log l.1)) < two32
}.
Next Obligation.
  intros [w os] k p r w' A B. cbn [log_append session_control_log] in A. unfold session_append in A. cbn [fst snd] in *.
  destruct (match os with (o, now) :: rest => (o, now, rest) | [] => (AppendFine, 0, []) end) as [[o now] rest].
  assert (len (content (log w)) <= len (content (log (Append w o now k p).2))).
  { unfold Append. destruct (closed w); [done|]. destruct o; cbn; rewrite len_app; pose proof (len_nonneg (EncodeControlEntry (mkControlEntry (nextSeq w) k now p)));
      try lia; (etransitivity; [|apply Z.add_le_mono_l, len_nonneg]); lia. }
  destruct (Append w o now k p) as [[seq|e] w1]; injection A as <- <-; cbn in *; lia.
Qed.
Next Obligation.
  intros [w os] k p w' [(es & E & F & N) [[B Dur] O]] K P A B'. cbn [log_append session_control_log] in A. unfold session_append in A. cbn [fst snd] in *.
  assert (exists o now rest, (match os with (o, now) :: rest => (o, now, rest) | [] => (AppendFine, 0, []) end) = (o, now, rest) /\ in_i64 now /\
    (o = AppendFine \/ o = WriteFails 0) /\ Forall (fun on => in_i64 on.2 /\ (on.1 = AppendFine \/ on.1 = WriteFails 0)) rest) as (o & now & rest & Eo & T & Oo & Or).
  { destruct os as [|[o now] os]; [exists AppendFine, 0, []; split_and!; [done|unfold in_i64, two63; lia|by left|constructor]|].
    apply Forall_cons in O as [[T O] Or]. by exists o, now, os. }
  rewrite Eo in A. unfold Append in A. destruct (closed w) eqn:Cl; [done|]. destruct Oo as [-> | ->]; [|done]. injection A as <-. cbn [fst snd log content] in B'.
  pose proof (N eq_refl) as Nw. pose proof (count_volume es []) as C. rewrite app_nil_r, <- E in C. set (e := mkControlEntry (nextSeq w) k now p) in *.
  assert (Fe : entry_fits e).
  { split; [done|cbn; unfold in_u64, two64; unfold len, two32 in *; lia|done|done|]. rewrite len_app in B'. pose proof (len_nonneg (content (log w))). lia. }
  assert (E' : content (log w) ++ EncodeControlEntry e = bytes_of (es ++ [e])) by (rewrite bytes_of_app, E; cbn; by rewrite app_nil_r).
  assert (F' : Forall entry_fits (es ++ [e])) by (apply Forall_app; split; [done|by constructor]).
  split.
  - split; [|split; [split; done|done]]. exists (es ++ [e]). cbn [fst snd log content nextSeq]. split; [done|]. split; [done|]. intros _.
    rewrite len_app. change (len [e]) with 1. rewrite u64_id by (unfold in_u64, two64; unfold len, two32 in *; lia). lia.
  - exists (nextSeq w), now. split; [done|]. rewrite (logged_eq (w, os) es E F B), (logged_eq _ (es ++ [e])); [|exact E'|done|exact B']. by rewrite fmap_app.
Qed.
Next Obligation.
  intros [w os] k p e w' S A. cbn [log_append session_control_log] in A. unfold session_append in A. cbn [fst snd] in *.
  destruct os as [|[o now] os]; unfold Append in A.
  - destruct (closed w) eqn:Cl; [|done]. by injection A as <- <-.
  - assert (S' : session_sound (w, os)) by (destruct S as (X & B & O); apply Forall_cons in O as [_ O]; by split).
    destruct (closed w) eqn:Cl; [by injection A as <- <-|]. destruct S as (X & B & O). apply Forall_cons in O as [[_ O] _]. cbn [fst] in O.
    destruct O as [-> | ->]; [done|]. injection A as <- <-. rewrite ?take_0, app_nil_r. split; [|done].
    destruct X as (es & E & F & N). split; [|by destruct S' as (_ & ? & ?)]. exists es. split_and!; [done|done|]. intros _. by apply N.
Qed.
