(* ===== verification/CommitQueue.v ===== *)
(** * The commit queue (core/versioning/commit_queue.go, merge_descriptor.go)

    Merges wait in arrival order for their audit and for the disk.  The list
    and the map of the queue point to the same entries, which live in a heap.
    Every transition is appended to the control log before it is made. *)

From S2P Require Import Prelude GoStd Semantic ControlEntryProof ControlWal ControlLog.
Import Semantic ControlEntry ControlWal.

Record PipelineInspectorCertificate := mkCertificate {
  DeclaredScope : string; OpenConcerns : list string; Summary : string; TesterVerdict : string }.

Record MergeDescriptor := mkDescriptor {
  MPipelineID : string; MBaseVersion : SemanticVersion; MergedVersion : SemanticVersion; MPaths : list string; MPathCount : Z;
  MergedAt : Z; PipelineCertificate : PipelineInspectorCertificate; AuditAddendum : bool; SupersedesVersion : SemanticVersion }.

Inductive CommitState :=
  CommitStateAuditing | CommitStateAccepted | CommitStateRejected | CommitStateSuperseded | CommitStateCommitted | CommitStateAbandoned.

#[export] Instance CommitState_eq_dec : EqDecision CommitState.
Proof. solve_decision. Defined.

Record CommitEntry := mkCommitEntry {
  Descriptor : MergeDescriptor; State : CommitState; RejectionReason : string; BigPictureConcerns : list string;
  SupersededBy : SemanticVersion; AuditReplicaID : string; EnqueuedAt : Z; TerminalAt : Z }.

Inductive CommitQueueEventKind :=
  CommitQueueEventEnqueued | CommitQueueEventDecided | CommitQueueEventSuperseded | CommitQueueEventCommitted | CommitQueueEventAbandoned.

Record CommitQueueEvent := mkEvent {
  EvKind : CommitQueueEventKind; EvMergedVersion : SemanticVersion; EvDescriptor : MergeDescriptor; EvState : CommitState;
  EvReplicaID : string; EvSupersedorVer : SemanticVersion }.

Module CommitQueue.

(* ------------------------------------------------------------------ *)
(** ** Subscribers *)

(** [cells] and [count]: the slice of the channels and its length; what stands
    behind the length is left of channels that were removed.  A channel holds
    64 events.  [panicked]: an event was sent to a closed channel. *)
Record channel := mkChannel { queued : list CommitQueueEvent; chanClosed : bool }.
Record Subscribers := mkSubscribers { cells : list nat; count : nat; chans : list channel; panicked : bool }.

Definition noSubscribers : Subscribers := mkSubscribers [] 0 [] false.

Definition send (c : nat) (ev : CommitQueueEvent) (s : Subscribers) : Subscribers :=
  match chans s !! c with
  | None => s
  | Some ch =>
    if chanClosed ch then mkSubscribers (cells s) (count s) (chans s) true
    else if (length (queued ch) <? 64)%nat
      then mkSubscribers (cells s) (count s) (<[c := mkChannel (queued ch ++ [ev]) false]> (chans s)) (panicked s)
      else s
  end.

(** The round [i] of the loop over the first [n] cells as they are then. *)
Fixpoint emit_rounds (n i : nat) (ev : CommitQueueEvent) (s : Subscribers) : Subscribers :=
  match n with
  | O => s
  | S n => emit_rounds n (S i) ev (match cells s !! i with Some c => send c ev s | None => s end)
  end.

Definition emit (ev : CommitQueueEvent) (s : Subscribers) : Subscribers := emit_rounds (count s) 0 ev s.

Definition Subscribe (s : Subscribers) : nat * Subscribers :=
  let ch := length (chans s) in
  (ch, mkSubscribers (take (count s) (cells s) ++ [ch]) (S (count s)) (chans s ++ [mkChannel [] false]) (panicked s)).

(** The channels behind the first [ch] move down in the same array, the last
    cell stays as it is. *)
Definition unsubscribe (ch : nat) (s : Subscribers) : Subscribers :=
  match list_find (eq ch) (take (count s) (cells s)) with
  | Some (i, _) =>
    mkSubscribers (take i (cells s) ++ drop (S i) (take (count s) (cells s)) ++ drop (pred (count s)) (cells s)) (pred (count s))
      (alter (fun c => mkChannel (queued c) true) ch (chans s)) (panicked s)
  | None => s
  end.

(* ------------------------------------------------------------------ *)
(** ** The queue *)

Record CommitQueue := mkQueue {
  heap : gmap nat CommitEntry; allocated : nat; entries : list nat; byVer : gmap SemanticVersion nat; subscribers : Subscribers }.

Definition NewCommitQueue : CommitQueue := mkQueue ∅ 0 [] ∅ noSubscribers.

Inductive queue_error :=
| NotInQueue (ver : SemanticVersion)
| WrongState (ver : SemanticVersion) (s : CommitState)
| AlreadyTerminal (ver : SemanticVersion) (s : CommitState)
| SupersedorMissing (ver : SemanticVersion)
| WalFailed (e : control_wal_error).

(** The pointer [q.byVer[ver]] and the entry it points to. *)
Definition entry_at (q : CommitQueue) (ver : SemanticVersion) : option (nat * CommitEntry) :=
  match byVer q !! ver with
  | Some r => match heap q !! r with Some e => Some (r, e) | None => None end
  | None => None
  end.

Definition set_entry (r : nat) (e : CommitEntry) (q : CommitQueue) : CommitQueue :=
  mkQueue (<[r := e]> (heap q)) (allocated q) (entries q) (byVer q) (subscribers q).
(** [append(q.entries, entry)] and [q.byVer[ver] = entry] of a new entry. *)
Definition add_entry (ver : SemanticVersion) (e : CommitEntry) (q : CommitQueue) : nat * CommitQueue :=
  let r := allocated q in
  (r, mkQueue (<[r := e]> (heap q)) (S r) (entries q ++ [r]) (<[ver := r]> (byVer q)) (subscribers q)).
Definition notify (ev : CommitQueueEvent) (q : CommitQueue) : CommitQueue :=
  mkQueue (heap q) (allocated q) (entries q) (byVer q) (emit ev (subscribers q)).

(** The changes the transitions make to an entry. *)
Definition accept (replica : string) (e : CommitEntry) : CommitEntry :=
  mkCommitEntry (Descriptor e) CommitStateAccepted (RejectionReason e) (BigPictureConcerns e) (SupersededBy e) replica (EnqueuedAt e) (TerminalAt e).
Definition reject (replica reason : string) (concerns : list string) (e : CommitEntry) : CommitEntry :=
  mkCommitEntry (Descriptor e) CommitStateRejected reason (match concerns with [] => BigPictureConcerns e | _ => concerns end)
    (SupersededBy e) replica (EnqueuedAt e) (TerminalAt e).
Definition supersede (sup : SemanticVersion) (e : CommitEntry) : CommitEntry :=
  mkCommitEntry (Descriptor e) CommitStateSuperseded (RejectionReason e) (BigPictureConcerns e) sup (AuditReplicaID e) (EnqueuedAt e) (TerminalAt e).
Definition commit (now : Z) (e : CommitEntry) : CommitEntry :=
  mkCommitEntry (Descriptor e) CommitStateCommitted (RejectionReason e) (BigPictureConcerns e) (SupersededBy e) (AuditReplicaID e) (EnqueuedAt e) now.
Definition abandon (reason : string) (now : Z) (e : CommitEntry) : CommitEntry :=
  mkCommitEntry (Descriptor e) CommitStateAbandoned (if String.eqb (RejectionReason e) "" then reason else RejectionReason e)
    (BigPictureConcerns e) (SupersededBy e) (AuditReplicaID e) (EnqueuedAt e) now.

Definition new_entry (d : MergeDescriptor) (now : Z) : CommitEntry :=
  mkCommitEntry d CommitStateAuditing "" [] VersionZero "" now 0.

Definition State_terminal (s : CommitState) : bool :=
  match s with CommitStateCommitted | CommitStateAbandoned => true | _ => false end.

Section operations.
Context {W : Type} `{ControlLog W}.

(** The queue and the log it shares with other components. *)
Definition state : Type := (CommitQueue * option W)%type.

(** Append, then [k] on the queue; nothing when the append fails. *)
Definition logged_then {A} (kind : ControlEntryKind) (payload : ControlEntryPayload) (s : state) (k : CommitQueue -> A * CommitQueue)
  : result queue_error A * state :=
  match walAppend s.2 kind payload with
  | (Err e, w) => (Err (WalFailed e), (s.1, w))
  | (Ok _, w) => let (a, q) := k s.1 in (Ok a, (q, w))
  end.

(** The pointer to the entry. *)
Definition Enqueue (s : state) (desc : MergeDescriptor) (now : Z) : result queue_error nat * state :=
  match byVer s.1 !! MergedVersion desc with
  | Some existing => (Ok existing, s)
  | None =>
    logged_then ControlKindCommitQueueEnqueue
      (enqueuePayload (MergedVersion desc) (MBaseVersion desc) (MPipelineID desc) (u32 (MPathCount desc)) (MPaths desc)) s
      (fun q => let (r, q) := add_entry (MergedVersion desc) (new_entry desc now) q in
        (r, notify (mkEvent CommitQueueEventEnqueued (MergedVersion desc) desc CommitStateAuditing "" VersionZero) q))
  end.

Definition MarkAccepted (s : state) (ver : SemanticVersion) (replicaID : string) : result queue_error unit * state :=
  match entry_at s.1 ver with
  | None => (Err (NotInQueue ver), s)
  | Some (r, e) =>
    if negb (bool_decide (State e = CommitStateAuditing)) then (Err (WrongState ver (State e)), s)
    else logged_then ControlKindCommitQueueMarkAccepted (queuePayload ver replicaID "" [] VersionZero) s (fun q =>
      (tt, notify (mkEvent CommitQueueEventDecided ver (Descriptor e) CommitStateAccepted replicaID VersionZero) (set_entry r (accept replicaID e) q)))
  end.

Definition MarkRejected (s : state) (ver : SemanticVersion) (replicaID reason : string) (concerns : list string)
  : result queue_error unit * state :=
  match entry_at s.1 ver with
  | None => (Err (NotInQueue ver), s)
  | Some (r, e) =>
    if negb (bool_decide (State e = CommitStateAuditing)) then (Err (WrongState ver (State e)), s)
    else logged_then ControlKindCommitQueueMarkRejected (queuePayload ver replicaID reason concerns VersionZero) s (fun q =>
      (tt, notify (mkEvent CommitQueueEventDecided ver (Descriptor e) CommitStateRejected replicaID VersionZero)
        (set_entry r (reject replicaID reason concerns e) q)))
  end.

Definition MarkSuperseded (s : state) (rejectedVer supersedorVer : SemanticVersion) : result queue_error unit * state :=
  match entry_at s.1 rejectedVer with
  | None => (Err (NotInQueue rejectedVer), s)
  | Some (r, e) =>
    if negb (bool_decide (State e = CommitStateRejected)) then (Err (WrongState rejectedVer (State e)), s)
    else match byVer s.1 !! supersedorVer with
      | None => (Err (SupersedorMissing supersedorVer), s)
      | Some _ =>
        logged_then ControlKindCommitQueueMarkSuperseded (queuePayload rejectedVer "" "" [] supersedorVer) s (fun q =>
          (tt, notify (mkEvent CommitQueueEventSuperseded rejectedVer (Descriptor e) CommitStateSuperseded "" supersedorVer)
            (set_entry r (supersede supersedorVer e) q)))
      end
  end.

Definition MarkCommitted (s : state) (ver : SemanticVersion) (now : Z) : result queue_error unit * state :=
  match entry_at s.1 ver with
  | None => (Err (NotInQueue ver), s)
  | Some (r, e) =>
    match State e with
    | CommitStateAccepted | CommitStateSuperseded =>
      logged_then ControlKindCommitQueueMarkCommitted (queuePayload ver "" "" [] VersionZero) s (fun q =>
        (tt, notify (mkEvent CommitQueueEventCommitted ver (Descriptor e) CommitStateCommitted "" VersionZero) (set_entry r (commit now e) q)))
    | st => (Err (WrongState ver st), s)
    end
  end.

Definition Abandon (s : state) (ver : SemanticVersion) (reason : string) (now : Z) : result queue_error unit * state :=
  match entry_at s.1 ver with
  | None => (Err (NotInQueue ver), s)
  | Some (r, e) =>
    if State_terminal (State e) then (Err (AlreadyTerminal ver (State e)), s)
    else logged_then ControlKindCommitQueueAbandon (queuePayload ver "" reason [] VersionZero) s (fun q =>
      (tt, notify (mkEvent CommitQueueEventAbandoned ver (Descriptor e) CommitStateAbandoned "" VersionZero) (set_entry r (abandon reason now e) q)))
  end.
End operations.

(* ------------------------------------------------------------------ *)
(** ** Reading, and removing the head *)

Definition Lookup (q : CommitQueue) (ver : SemanticVersion) : option CommitEntry := snd <$> entry_at q ver.

(** A pointer of the list leads nowhere: a nil dereference. *)
Definition Snapshot (q : CommitQueue) : option (list CommitEntry) := mapM (fun r => heap q !! r) (entries q).

Definition Head (q : CommitQueue) : option CommitEntry :=
  match entries q with [] => None | r :: _ => heap q !! r end.

Definition removable (s : CommitState) : bool :=
  match s with CommitStateCommitted | CommitStateAbandoned | CommitStateSuperseded => true | _ => false end.

Definition Advance (q : CommitQueue) : option CommitEntry * CommitQueue :=
  match entries q with
  | [] => (None, q)
  | r :: rest =>
    match heap q !! r with
    | None => (None, q)
    | Some head =>
      if removable (State head)
      then (Some head, mkQueue (heap q) (allocated q) rest (delete (MergedVersion (Descriptor head)) (byVer q)) (subscribers q))
      else (None, q)
    end
  end.

Definition depth_of (p : CommitState -> bool) (q : CommitQueue) : Z :=
  len (filter (fun r => match heap q !! r with Some e => p (State e) | None => false end = true) (entries q)).

Definition DepthAuditing (q : CommitQueue) : Z := depth_of (fun s => bool_decide (s = CommitStateAuditing)) q.
Definition DepthBlocked (q : CommitQueue) : Z := depth_of (fun s => bool_decide (s = CommitStateRejected)) q.
Definition Depth (q : CommitQueue) : Z := len (entries q).
Definition DepthNonTerminal (q : CommitQueue) : Z := depth_of (fun s => negb (State_terminal s)) q.

(* ------------------------------------------------------------------ *)
(** ** Replay *)

(** The descriptor of a replayed entry: that of the log of merges, or what the
    entry of the control log has. *)
Definition minimal_descriptor (e : ControlEntry) : MergeDescriptor :=
  let p := CPayload e in
  mkDescriptor (PPipelineID p) (PBaseVersion p) (PMergedVersion p) (PBasePath p) (PPathCount p) (CTimestamp e)
    (mkCertificate "" [] "" "") false VersionZero.

Definition restore_reject (replica reason : string) (concerns : list string) (e : CommitEntry) : CommitEntry :=
  mkCommitEntry (Descriptor e) CommitStateRejected reason concerns (SupersededBy e) replica (EnqueuedAt e) (TerminalAt e).

(** [f] on the entry of a version, of which the queue must have one. *)
Definition restore (q : CommitQueue) (ver : SemanticVersion) (f : CommitEntry -> CommitEntry) : result queue_error CommitQueue :=
  match entry_at q ver with
  | None => Err (NotInQueue ver)
  | Some (r, e) => Ok (set_entry r (f e) q)
  end.

Definition ApplyControlEntry (mergeLookup : SemanticVersion -> option MergeDescriptor) (e : ControlEntry) (q : CommitQueue)
  : result queue_error CommitQueue :=
  let p := CPayload e in
  let ver := PMergedVersion p in
  match CKind e with
  | ControlKindCommitQueueEnqueue =>
    match byVer q !! ver with
    | Some _ => Ok q
    | None =>
      let desc := match mergeLookup ver with Some desc => desc | None => minimal_descriptor e end in
      Ok (add_entry ver (new_entry desc (CTimestamp e)) q).2
    end
  | ControlKindCommitQueueMarkAccepted => restore q ver (accept (PReplicaID p))
  | ControlKindCommitQueueMarkRejected => restore q ver (restore_reject (PReplicaID p) (PRejectionReason p) (PConcerns p))
  | ControlKindCommitQueueMarkSuperseded => restore q ver (supersede (PSupersedorVer p))
  | ControlKindCommitQueueMarkCommitted => restore q ver (commit (CTimestamp e))
  | ControlKindCommitQueueAbandon => restore q ver (abandon (PRejectionReason p) (CTimestamp e))
  | _ => Ok q
  end.

(** The log of merges, in which [findByMergedVersion] takes the first. *)
Definition findByMergedVersion (descriptors : list MergeDescriptor) (ver : SemanticVersion) : option MergeDescriptor :=
  snd <$> list_find (fun d => MergedVersion d = ver) descriptors.

(* ------------------------------------------------------------------ *)
(** ** Calls *)

Inductive qop :=
| QEnqueue (d : MergeDescriptor) (now : Z)
| QAccept (ver : SemanticVersion) (replica : string)
| QReject (ver : SemanticVersion) (replica reason : string) (concerns : list string)
| QSupersede (rejected supersedor : SemanticVersion)
| QCommit (ver : SemanticVersion) (now : Z)
| QAbandon (ver : SemanticVersion) (reason : string) (now : Z)
| QAdvance.

(** The result, and the entry [Advance] removes. *)
Definition perform {W} `{ControlLog W} (s : state) (o : qop) : result queue_error (option CommitEntry) * state :=
  let unit_of (r : result queue_error unit * state) := match r.1 with Ok _ => Ok None | Err e => Err e end in
  match o with
  | QEnqueue d now => let r := Enqueue s d now in (match r.1 with Ok _ => Ok None | Err e => Err e end, r.2)
  | QAccept ver replica => let r := MarkAccepted s ver replica in (unit_of r, r.2)
  | QReject ver replica reason concerns => let r := MarkRejected s ver replica reason concerns in (unit_of r, r.2)
  | QSupersede v sup => let r := MarkSuperseded s v sup in (unit_of r, r.2)
  | QCommit ver now => let r := MarkCommitted s ver now in (unit_of r, r.2)
  | QAbandon ver reason now => let r := Abandon s ver reason now in (unit_of r, r.2)
  | QAdvance => let (e, q) := Advance s.1 in (Ok e, (q, s.2))
  end.
End CommitQueue.
