(* ===== verification/CommitQueueProof.v ===== *)
(** * What the commit queue promises (core/versioning/commit_queue.go)

    The queue refines a list of entries; merges leave it in the order they
    arrived; and replaying its log gives back the list, with the entries that
    had left it in front. *)

From S2P Require Import Prelude GoStd Semantic ControlEntryProof ControlWal ControlLog.
From S2P Require Export CommitQueue.
Import Semantic ControlEntry ControlWal CommitQueue.

Module CommitQueueProof.

Definition ver (e : CommitEntry) : SemanticVersion := MergedVersion (Descriptor e).
(** The entries in arrival order. *)
Definition view (q : CommitQueue) : list CommitEntry := omap (fun r => heap q !! r) (entries q).

(* ------------------------------------------------------------------ *)
(** ** Lists of entries *)

Definition find_ver (v : SemanticVersion) (l : list CommitEntry) : option CommitEntry := snd <$> list_find (fun e => ver e = v) l.
Definition update (v : SemanticVersion) (f : CommitEntry -> CommitEntry) (l : list CommitEntry) : list CommitEntry :=
  (fun e => if decide (ver e = v) then f e else e) <$> l.

Lemma find_ver_None v l : find_ver v l = None <-> v ∉ ver <$> l.
Proof.
  unfold find_ver. rewrite fmap_None, list_find_None, Forall_forall, list_elem_of_fmap. split; [|by intros N x I E; apply N; exists x].
  intros F (e & -> & I). by apply (F e I).
Qed.

Lemma find_ver_Some v l e : NoDup (ver <$> l) -> find_ver v l = Some e <-> e ∈ l /\ ver e = v.
Proof.
  intros N. unfold find_ver. rewrite fmap_Some. split.
  - intros ([i x] & F & ->). apply list_find_Some in F as (L & V & _). split; [by eapply list_elem_of_lookup_2|done].
  - intros [I V]. destruct (list_find (fun e => ver e = v) l) as [[i x]|] eqn:F.
    + exists (i, x). split; [done|]. apply list_find_Some in F as (L & Vx & _). apply list_elem_of_lookup_1 in I as [j J].
      assert (i = j) as ->; [|cbn; congruence]. eapply (NoDup_lookup _ _ _ v N); rewrite list_lookup_fmap; [rewrite L|rewrite J]; cbn; by f_equal.
    + apply list_find_None in F. rewrite Forall_forall in F. by destruct (F e I).
Qed.

Lemma update_ver v f l : (forall e, ver (f e) = ver e) -> ver <$> update v f l = ver <$> l.
Proof. intros P. unfold update. rewrite <- list_fmap_compose. apply list_fmap_ext. intros i e _. cbn. by case_decide. Qed.

Lemma update_absent v f l : v ∉ ver <$> l -> update v f l = l.
Proof.
  intros N. unfold update. rewrite <- (list_fmap_id l) at 2. apply Forall_fmap_ext_1, Forall_forall. intros e I. case_decide; [|done].
  subst. destruct N. by apply list_elem_of_fmap_2.
Qed.

Lemma update_app v f l k : update v f (l ++ k) = update v f l ++ update v f k.
Proof. apply fmap_app. Qed.

(* ------------------------------------------------------------------ *)
(** ** The heap and the map *)

Record queue_wf (q : CommitQueue) : Prop := {
  wf_refs : NoDup (entries q);
  wf_alloc : forall r, r ∈ entries q -> (r < allocated q)%nat;
  wf_at : forall r, r ∈ entries q -> exists e, heap q !! r = Some e /\ byVer q !! ver e = Some r;
  wf_by : forall v r, byVer q !! v = Some r -> r ∈ entries q /\ exists e, heap q !! r = Some e /\ ver e = v
}.

Lemma empty_queue_wf : queue_wf NewCommitQueue.
Proof. split; cbn; try (by intros ? ?%elem_of_nil); [apply NoDup_nil_2|]. intros v r E. by rewrite lookup_empty in E. Qed.

Lemma view_elem q e : queue_wf q -> e ∈ view q <-> exists r, r ∈ entries q /\ heap q !! r = Some e.
Proof. intros Q. unfold view. by rewrite list_elem_of_omap. Qed.

(** The entries are found at their versions. *)
Lemma entry_at_Some q v r e : queue_wf q -> entry_at q v = Some (r, e) ->
  byVer q !! v = Some r /\ r ∈ entries q /\ heap q !! r = Some e /\ ver e = v.
Proof.
  intros Q. unfold entry_at. destruct (byVer q !! v) as [r'|] eqn:B; [|done]. destruct (wf_by q Q v r' B) as (I & e' & E & V).
  rewrite E. by intros [= -> ->].
Qed.

Lemma view_nodup q : queue_wf q -> NoDup (ver <$> view q).
Proof.
  intros Q. assert (forall l, l `sublist_of` entries q -> NoDup (ver <$> omap (fun r => heap q !! r) l)) as G; [|by apply G].
  induction l as [|r l IH]; intros S; [constructor|]. assert (Sl : l `sublist_of` entries q) by (etransitivity; [|exact S]; by constructor).
  assert (Ir : r ∈ entries q) by (eapply elem_of_sublist; [|exact S]; by left). cbn. destruct (wf_at q Q r Ir) as (e & E & B).
  change (heap q !! r) with (heap q !! r). rewrite E. cbn. constructor; [|by apply IH].
  rewrite list_elem_of_fmap. intros (e' & V & I). apply list_elem_of_omap in I as (r' & Ir' & E').
  assert (I' : r' ∈ entries q) by (by eapply elem_of_sublist). destruct (wf_at q Q r' I') as (e2 & E2 & B2). rewrite E' in E2. injection E2 as <-.
  rewrite <- V, B in B2. injection B2 as ->. assert (N : NoDup (r' :: l)) by (eapply sublist_NoDup; [apply Q|done]). by apply NoDup_cons in N as [N _].
Qed.

Lemma byVer_view q v : queue_wf q -> (exists r, byVer q !! v = Some r) <-> v ∈ ver <$> view q.
Proof.
  intros Q. rewrite list_elem_of_fmap. split.
  - intros [r B]. destruct (wf_by q Q v r B) as (I & e & E & V). exists e. split; [done|]. apply view_elem; [done|]. by exists r.
  - intros (e & -> & I). apply view_elem in I as (r & I & E); [|done]. destruct (wf_at q Q r I) as (e' & E' & B). exists r. congruence.
Qed.

Lemma entry_at_view q v : queue_wf q -> snd <$> entry_at q v = find_ver v (view q).
Proof.
  intros Q. destruct (entry_at q v) as [[r e]|] eqn:E; cbn; symmetry.
  - destruct (entry_at_Some q v r e Q E) as (B & I & Eh & V). apply find_ver_Some; [by apply view_nodup|]. split; [|done].
    apply view_elem; [done|]. by exists r.
  - apply find_ver_None. intros I. apply byVer_view in I as [r B]; [|done]. unfold entry_at in E. rewrite B in E.
    destruct (wf_by q Q v r B) as (_ & e & Eh & _). by rewrite Eh in E.
Qed.

(** Two pointers of the list lead to entries of different versions. *)
Lemma refs_inj q r r' e e' : queue_wf q -> r ∈ entries q -> r' ∈ entries q -> heap q !! r = Some e -> heap q !! r' = Some e' ->
  ver e = ver e' -> r = r'.
Proof.
  intros Q I I' E E' V. destruct (wf_at q Q r I) as (x & Ex & B), (wf_at q Q r' I') as (x' & Ex' & B'). congruence.
Qed.

Lemma set_view q v r e f : queue_wf q -> entry_at q v = Some (r, e) -> ver (f e) = ver e ->
  view (set_entry r (f e) q) = update v f (view q).
Proof.
  intros Q E Vf. destruct (entry_at_Some q v r e Q E) as (B & I & Eh & V). unfold view, set_entry. cbn [entries heap].
  assert (G : forall l, (forall x, x ∈ l -> x ∈ entries q) -> omap (fun x => <[r:=f e]> (heap q) !! x) l =
    update v f (omap (fun x => heap q !! x) l)); [|by apply G].
  unfold update.
  induction l as [|x l IH]; intros S; [done|]. assert (Sx : x ∈ entries q) by (apply S; by left).
  specialize (IH (fun y Hy => S y (list_elem_of_further _ _ _ Hy))). cbn. destruct (wf_at q Q x Sx) as (ex & Ex & Bx).
  destruct (decide (x = r)) as [-> |Nx].
  - rewrite lookup_insert, Eh. cbn. rewrite IH. case_decide; [|done]. by rewrite decide_True by done.
  - rewrite lookup_insert_ne, Ex by done. cbn. rewrite IH. rewrite decide_False; [done|].
    intros Vx. destruct Nx. apply (refs_inj q x r ex e Q Sx I Ex Eh). congruence.
Qed.

Lemma set_wf q v r e e' : queue_wf q -> entry_at q v = Some (r, e) -> ver e' = ver e -> queue_wf (set_entry r e' q).
Proof.
  intros Q E Ve. destruct (entry_at_Some q v r e Q E) as (B & I & Eh & V). split; cbn [set_entry entries allocated heap byVer]; [apply Q|apply Q|..].
  - intros x Ix. destruct (decide (x = r)) as [-> |N]; [exists e'; rewrite lookup_insert, decide_True by done; split; [done|congruence]|].
    rewrite lookup_insert_ne by done. by apply (wf_at q Q).
  - intros w x Bx. destruct (wf_by q Q w x Bx) as (Ix & ex & Ex & Vx). split; [done|].
    destruct (decide (x = r)) as [-> |N]; [exists e'; rewrite lookup_insert, decide_True by done; split; [done|congruence]|].
    rewrite lookup_insert_ne by done. by exists ex.
Qed.

Lemma notify_view ev q : view (notify ev q) = view q.
Proof. done. Qed.
Lemma notify_wf ev q : queue_wf q -> queue_wf (notify ev q).
Proof. by intros []. Qed.

Lemma add_view q v e : queue_wf q -> view (add_entry v e q).2 = view q ++ [e].
Proof.
  intros Q. unfold view, add_entry. cbn [snd entries heap]. rewrite omap_app. cbn. rewrite lookup_insert, decide_True by done. f_equal.
  assert (G : forall l, (forall x, x ∈ l -> x ∈ entries q) -> omap (M := list) (fun x => <[allocated q:=e]> (heap q) !! x) l = omap (M := list) (fun x => heap q !! x) l);
    [|by apply G].
  induction l as [|x l IH]; intros S; [done|]. cbn. rewrite IH by (intros y Hy; apply S; by right).
  rewrite lookup_insert_ne; [done|]. intros X. pose proof (wf_alloc q Q x (S x (list_elem_of_here _ _))). lia.
Qed.

Lemma add_wf q v e : queue_wf q -> byVer q !! v = None -> ver e = v -> queue_wf (add_entry v e q).2.
Proof.
  intros Q B Ve. assert (Na : allocated q ∉ entries q) by (intros I; pose proof (wf_alloc q Q _ I); lia).
  split; unfold add_entry; cbn [snd entries heap allocated byVer].
  - apply NoDup_app. split; [apply Q|]. split; [|apply NoDup_singleton]. intros x I ->%list_elem_of_singleton. done.
  - intros r [I|I%list_elem_of_singleton]%elem_of_app; [pose proof (wf_alloc q Q r I); lia|lia].
  - intros r [I|I%list_elem_of_singleton]%elem_of_app.
    + destruct (wf_at q Q r I) as (e' & E & B'). exists e'. split; (rewrite lookup_insert_ne; [done|]); [by intros <-|intros X; congruence].
    + subst r. exists e. rewrite lookup_insert, decide_True by done. split; [done|]. by rewrite Ve, lookup_insert, decide_True.
  - intros w r Br. destruct (decide (w = v)) as [-> |N].
    + rewrite lookup_insert, decide_True in Br by done. injection Br as <-. split; [apply elem_of_app; right; by apply list_elem_of_singleton|].
      exists e. by rewrite lookup_insert, decide_True.
    + rewrite lookup_insert_ne in Br by done. destruct (wf_by q Q w r Br) as (I & e' & E & V). split; [by apply elem_of_app; left|].
      exists e'. rewrite lookup_insert_ne; [done|by intros <-].
Qed.

(** [Advance] on the list. *)
Definition advance (l : list CommitEntry) : option CommitEntry * list CommitEntry :=
  match l with e :: l' => if removable (State e) then (Some e, l') else (None, l) | [] => (None, []) end.

Lemma Advance_view q : queue_wf q ->
  (Advance q).1 = (advance (view q)).1 /\ view (Advance q).2 = (advance (view q)).2 /\ queue_wf (Advance q).2.
Proof.
  intros Q. unfold Advance, advance. pose proof (wf_refs q Q) as N. unfold view. destruct (entries q) as [|r rest] eqn:En; [cbn [fst snd]; by rewrite En|].
  destruct (wf_at q Q r ltac:(rewrite En; by left)) as (e & E & B). apply NoDup_cons in N as [Nr N]. rewrite E. cbn. rewrite E. cbn.
  destruct (removable (State e)); [|cbn [fst snd]; rewrite En; cbn; by rewrite E]. cbn [fst snd entries heap]. split; [done|]. split; [done|].
  assert (Sub : forall x, x ∈ rest -> x ∈ entries q) by (intros x I; rewrite En; by right).
  split; cbn [entries heap allocated byVer]; [done|intros x I; by apply (wf_alloc q Q), Sub|..].
  - intros x I. destruct (wf_at q Q x (Sub x I)) as (ex & Ex & Bx). exists ex. split; [done|]. rewrite lookup_delete_ne; [done|].
    intros V. fold (ver e) in V. rewrite <- V in Bx. rewrite B in Bx. by injection Bx as ->.
  - intros v x Bx. apply lookup_delete_Some in Bx as [Nv Bx]. destruct (wf_by q Q v x Bx) as (I & ex & Ex & V). split; [|by exists ex].
    rewrite En in I. apply elem_of_cons in I as [-> |I]; [|done]. rewrite E in Ex. injection Ex as <-. by destruct Nv.
Qed.

(* ------------------------------------------------------------------ *)
(** ** The specification: a list of entries and a log *)

(** What a call does to the list: it is done, or it changes the list once this
    is in the log. *)
Inductive plan :=
| Done (r : result queue_error (option CommitEntry)) (l : list CommitEntry)
| Logged (kind : ControlEntryKind) (payload : ControlEntryPayload) (l : list CommitEntry).

(** The entry of [v] changes by [f], unless [refused]. *)
Definition mark (v : SemanticVersion) (refused : CommitEntry -> option queue_error) (kind : ControlEntryKind)
  (payload : ControlEntryPayload) (f : CommitEntry -> CommitEntry) (l : list CommitEntry) : plan :=
  match find_ver v l with
  | None => Done (Err (NotInQueue v)) l
  | Some e => match refused e with Some err => Done (Err err) l | None => Logged kind payload (update v f l) end
  end.

Definition unless (ok : bool) (e : queue_error) : option queue_error := if ok then None else Some e.
Definition is_state (s : CommitState) (e : CommitEntry) : bool := bool_decide (State e = s).

Definition plan_of (o : qop) (l : list CommitEntry) : plan :=
  match o with
  | QEnqueue d now =>
    match find_ver (MergedVersion d) l with
    | Some _ => Done (Ok None) l
    | None => Logged ControlKindCommitQueueEnqueue
        (enqueuePayload (MergedVersion d) (MBaseVersion d) (MPipelineID d) (u32 (MPathCount d)) (MPaths d)) (l ++ [new_entry d now])
    end
  | QAccept v replica =>
    mark v (fun e => unless (is_state CommitStateAuditing e) (WrongState v (State e))) ControlKindCommitQueueMarkAccepted
      (queuePayload v replica "" [] VersionZero) (accept replica) l
  | QReject v replica reason concerns =>
    mark v (fun e => unless (is_state CommitStateAuditing e) (WrongState v (State e))) ControlKindCommitQueueMarkRejected
      (queuePayload v replica reason concerns VersionZero) (reject replica reason concerns) l
  | QSupersede v sup =>
    mark v (fun e => if is_state CommitStateRejected e
        then unless (bool_decide (is_Some (find_ver sup l))) (SupersedorMissing sup) else Some (WrongState v (State e)))
      ControlKindCommitQueueMarkSuperseded (queuePayload v "" "" [] sup) (supersede sup) l
  | QCommit v now =>
    mark v (fun e => unless (is_state CommitStateAccepted e || is_state CommitStateSuperseded e) (WrongState v (State e)))
      ControlKindCommitQueueMarkCommitted (queuePayload v "" "" [] VersionZero) (commit now) l
  | QAbandon v reason now =>
    mark v (fun e => unless (negb (State_terminal (State e))) (AlreadyTerminal v (State e))) ControlKindCommitQueueAbandon
      (queuePayload v "" reason [] VersionZero) (abandon reason now) l
  | QAdvance => let (e, l') := advance l in Done (Ok e) l'
  end.

Section spec.
Context {W : Type} `{ControlLog W}.

Definition spec_step (s : list CommitEntry * option W) (o : qop) : result queue_error (option CommitEntry) * (list CommitEntry * option W) :=
  match plan_of o s.1 with
  | Done r l => (r, (l, s.2))
  | Logged kind payload l =>
    match walAppend s.2 kind payload with
    | (Ok _, w) => (Ok None, (l, w))
    | (Err e, w) => (Err (WalFailed e), (s.1, w))
    end
  end.

(** The queue stands for the list. *)
Definition represents (s : @state W) (t : list CommitEntry * option W) : Prop := queue_wf s.1 /\ view s.1 = t.1 /\ s.2 = t.2.

(** A transition of an entry, on both sides. *)
Lemma mark_refines (s : @state W) v refused kind payload f ev (out : result queue_error unit * @state W) :
  queue_wf s.1 -> (forall e, ver (f e) = ver e) ->
  out = match entry_at s.1 v with
        | None => (Err (NotInQueue v), s)
        | Some (r, e) => match refused e with
          | Some err => (Err err, s)
          | None => logged_then kind payload s (fun q => (tt, notify (ev e) (set_entry r (f e) q)))
          end
        end ->
  let t := match mark v refused kind payload f (view s.1) with
    | Done r l => (r, (l, s.2))
    | Logged kind payload l => match walAppend s.2 kind payload with
      | (Ok _, w) => (Ok None, (l, w)) | (Err e, w) => (Err (WalFailed e), (view s.1, w)) end
    end in
  match out.1 with Ok _ => Ok None | Err e => Err e end = t.1 /\ represents out.2 t.2.
Proof.
  intros Q Vf ->. unfold mark. rewrite <- entry_at_view by done. destruct (entry_at s.1 v) as [[r e]|] eqn:E; cbn [fmap option_fmap option_map snd]; [|done].
  destruct (refused e); [done|]. unfold logged_then. destruct (walAppend s.2 kind payload) as [[u|x] w]; [|done]. cbn [fst snd].
  split; [done|]. split; [apply notify_wf; by apply (set_wf _ v r e)|]. split; [|done]. by apply set_view.
Qed.

Lemma perform_refines (s : @state W) t o : represents s t ->
  (perform s o).1 = (spec_step t o).1 /\ represents (perform s o).2 (spec_step t o).2.
Proof.
  destruct t as [l w]. intros (Q & V & L). cbn [fst snd] in V, L. subst l w. unfold spec_step. cbn [fst snd].
  destruct o as [d now|v replica|v replica reason concerns|v sup|v now|v reason now|]; cbn [perform plan_of].
  - rewrite <- entry_at_view by done. unfold Enqueue. destruct (byVer s.1 !! MergedVersion d) as [r|] eqn:B.
    + destruct (wf_by _ Q _ _ B) as (I & e & E & V). unfold entry_at. rewrite B, E. cbn. done.
    + unfold entry_at. rewrite B. cbn [fmap option_fmap option_map]. unfold logged_then.
      destruct (walAppend s.2 _ _) as [[u|x] w]; [|done]. cbn [fst snd]. unfold add_entry. split; [done|].
      split; [apply notify_wf; by apply (add_wf _ (MergedVersion d) (new_entry d now))|]. split; [|done].
      exact (add_view _ (MergedVersion d) (new_entry d now) Q).
  - apply (mark_refines s v _ _ _ _ (fun e => mkEvent CommitQueueEventDecided v (Descriptor e) CommitStateAccepted replica VersionZero)); [done..|].
    unfold MarkAccepted, unless, is_state. destruct (entry_at s.1 v) as [[r e]|]; [|done]. by destruct (bool_decide _).
  - apply (mark_refines s v _ _ _ _ (fun e => mkEvent CommitQueueEventDecided v (Descriptor e) CommitStateRejected replica VersionZero)); [done..|].
    unfold MarkRejected, unless, is_state. destruct (entry_at s.1 v) as [[r e]|]; [|done]. by destruct (bool_decide _).
  - apply (mark_refines s v _ _ _ _ (fun e => mkEvent CommitQueueEventSuperseded v (Descriptor e) CommitStateSuperseded "" sup)); [done..|].
    unfold MarkSuperseded, unless, is_state. destruct (entry_at s.1 v) as [[r e]|]; [|done]. destruct (bool_decide (State e = _)); [|done]. cbn [negb].
    rewrite <- entry_at_view by done. unfold entry_at. destruct (byVer s.1 !! sup) as [r'|] eqn:B; [|by rewrite bool_decide_eq_false_2 by (intros [? [=]])].
    destruct (wf_by _ Q _ _ B) as (_ & e' & E & _). rewrite E. by rewrite bool_decide_eq_true_2 by by eexists.
  - apply (mark_refines s v _ _ _ _ (fun e => mkEvent CommitQueueEventCommitted v (Descriptor e) CommitStateCommitted "" VersionZero)); [done..|].
    unfold MarkCommitted, unless, is_state. destruct (entry_at s.1 v) as [[r e]|]; [|done]. by destruct (State e).
  - apply (mark_refines s v _ _ _ _ (fun e => mkEvent CommitQueueEventAbandoned v (Descriptor e) CommitStateAbandoned "" VersionZero)); [done..|].
    unfold Abandon, unless. destruct (entry_at s.1 v) as [[r e]|]; [|done]. by destruct (State_terminal (State e)).
  - destruct (Advance_view s.1 Q) as (A & V & Q'). destruct (Advance s.1) as [e q], (advance (view s.1)) as [e' l']. cbn [fst snd] in *.
    subst. done.
Qed.

Lemma runs_refine ops : forall (s : @state W) t, represents s t ->
  (runs perform s ops).1 = (runs spec_step t ops).1 /\ represents (runs perform s ops).2 (runs spec_step t ops).2.
Proof.
  induction ops as [|o ops IH]; intros s t R; [done|]. cbn [runs]. destruct (perform_refines s t o R) as [E R'].
  destruct (perform s o) as [r s'], (spec_step t o) as [r' t']. cbn [fst snd] in *. destruct (IH s' t' R') as [E2 R2].
  destruct (runs perform s' ops), (runs spec_step t' ops). cbn [fst snd] in *. split; [by f_equal|done].
Qed.

Lemma new_represents w : represents (NewCommitQueue, w) ([], w).
Proof. split; [apply empty_queue_wf|done]. Qed.

(** The depths of the queue, counted on the list. *)
Lemma depth_view p q : queue_wf q -> depth_of p q = len (List.filter (fun e => p (State e)) (view q)).
Proof.
  intros Q. unfold depth_of, view. assert (G : forall l, (forall x, x ∈ l -> x ∈ entries q) ->
    len (filter (fun r => match heap q !! r with Some e => p (State e) | None => false end = true) l) =
    len (List.filter (fun e => p (State e)) (omap (fun r => heap q !! r) l))); [|by apply G].
  induction l as [|x l IH]; intros S; [done|]. destruct (wf_at q Q x (S x (list_elem_of_here _ _))) as (e & E & _).
  rewrite filter_cons. cbn [omap list_omap]. change (list_omap _ _ _ l) with (omap (fun r => heap q !! r) l). rewrite E. cbn [List.filter].
  specialize (IH (fun y Hy => S y (list_elem_of_further _ _ _ Hy))). destruct (p (State e)) eqn:P; [|by rewrite decide_False].
  rewrite decide_True by done. rewrite !len_cons. by rewrite IH.
Qed.

Lemma Snapshot_view q : queue_wf q -> Snapshot q = Some (view q).
Proof.
  intros Q. unfold Snapshot, view. assert (G : forall l, (forall x, x ∈ l -> x ∈ entries q) ->
    mapM (fun r => heap q !! r) l = Some (omap (fun r => heap q !! r) l)); [|by apply G].
  induction l as [|x l IH]; intros S; [done|]. destruct (wf_at q Q x (S x (list_elem_of_here _ _))) as (e & E & _).
  cbn. rewrite E. cbn. by rewrite (IH (fun y Hy => S y (list_elem_of_further _ _ _ Hy))).
Qed.

Lemma Head_view q : queue_wf q -> Head q = head (view q).
Proof.
  intros Q. unfold Head, view. destruct (entries q) as [|r rest] eqn:En; [done|].
  destruct (wf_at q Q r ltac:(rewrite En; by left)) as (e & E & _). cbn. by rewrite E.
Qed.
End spec.

(** C7: the queue, with its heap, its list and its map, is a list of entries:
    every call gives the result it has on the list, with any failures of the
    log, and the readers show the list, in the order of arrival. *)
Theorem commit_queue_refines {W} `{ControlLog W} (w : option W) ops :
  let (results, s) := runs perform (NewCommitQueue, w) ops in
  let (results', t) := runs spec_step ([], w) ops in
  results = results' /\ s.2 = t.2 /\ Snapshot s.1 = Some t.1 /\ Head s.1 = head t.1 /\ Depth s.1 = len t.1 /\
  (forall v, Lookup s.1 v = find_ver v t.1) /\ (forall p, depth_of p s.1 = len (List.filter (fun e => p (State e)) t.1)).
Proof.
  destruct (runs_refine ops _ _ (new_represents w)) as [E (Q & V & L)].
  destruct (runs perform _ ops) as [rs s], (runs spec_step _ ops) as [rs' t]. cbn [fst snd] in *. rewrite <- V.
  split; [done|]. split; [done|]. split; [by apply Snapshot_view|]. split; [by apply Head_view|]. split; [|split].
  - pose proof (Snapshot_view s.1 Q) as Sn. apply mapM_Some in Sn. unfold Depth, len. by rewrite (Forall2_length _ _ _ Sn).
  - intros v. by apply entry_at_view.
  - intros p. by apply depth_view.
Qed.
End CommitQueueProof.

(** * What a reopened queue shows

    Removing the head is not logged.  So the log of a queue, replayed, gives
    the entries that had left the queue, in front, and those that are in it. *)

Module CommitQueueReplay.
Import CommitQueueProof.

(* ------------------------------------------------------------------ *)
(** ** Replay on lists *)

Section replay.
Context (merges : list MergeDescriptor).
Let lookup := findByMergedVersion merges.

Lemma findByMergedVersion_ver v d : lookup v = Some d -> MergedVersion d = v.
Proof. unfold lookup, findByMergedVersion. intros ([i x] & F & ->)%fmap_Some. by apply list_find_Some in F as (_ & V & _). Qed.

(** The descriptor a replay gives an entry enqueued with [d]. *)
Definition restored (t : Z) (d : MergeDescriptor) : MergeDescriptor :=
  match lookup (MergedVersion d) with
  | Some d' => d'
  | None => mkDescriptor (MPipelineID d) (MBaseVersion d) (MergedVersion d) (MPaths d) (u32 (MPathCount d)) t (mkCertificate "" [] "" "") false VersionZero
  end.

Definition replay_step (l : list CommitEntry) (e : ControlEntry) : option (list CommitEntry) :=
  let p := CPayload e in
  let v := PMergedVersion p in
  let mark f := match find_ver v l with None => None | Some _ => Some (update v f l) end in
  match CKind e with
  | ControlKindCommitQueueEnqueue =>
    match find_ver v l with
    | Some _ => Some l
    | None => Some (l ++ [new_entry (match lookup v with Some d => d | None => minimal_descriptor e end) (CTimestamp e)])
    end
  | ControlKindCommitQueueMarkAccepted => mark (accept (PReplicaID p))
  | ControlKindCommitQueueMarkRejected => mark (restore_reject (PReplicaID p) (PRejectionReason p) (PConcerns p))
  | ControlKindCommitQueueMarkSuperseded => mark (supersede (PSupersedorVer p))
  | ControlKindCommitQueueMarkCommitted => mark (commit (CTimestamp e))
  | ControlKindCommitQueueAbandon => mark (abandon (PRejectionReason p) (CTimestamp e))
  | _ => Some l
  end.

Lemma restore_view q v f : queue_wf q -> (forall e, ver (f e) = ver e) ->
  match restore q v f with
  | Ok q' => queue_wf q' /\ exists e, find_ver v (view q) = Some e /\ view q' = update v f (view q)
  | Err _ => find_ver v (view q) = None
  end.
Proof.
  intros Q Vf. unfold restore. rewrite <- entry_at_view by done. destruct (entry_at q v) as [[r e]|] eqn:E; [|done]. cbn.
  split; [by apply (set_wf _ v r e)|]. exists e. split; [done|]. by apply set_view.
Qed.

(** [ApplyControlEntry] on the list. *)
Lemma apply_view q e : queue_wf q ->
  match ApplyControlEntry lookup e q with
  | Ok q' => queue_wf q' /\ replay_step (view q) e = Some (view q')
  | Err _ => replay_step (view q) e = None
  end.
Proof.
  intros Q. unfold ApplyControlEntry, replay_step.
  assert (R : forall f, (forall e, ver (f e) = ver e) ->
    match restore q (PMergedVersion (CPayload e)) f with
    | Ok q' => queue_wf q' /\ match find_ver (PMergedVersion (CPayload e)) (view q) with None => None
        | Some _ => Some (update (PMergedVersion (CPayload e)) f (view q)) end = Some (view q')
    | Err _ => match find_ver (PMergedVersion (CPayload e)) (view q) with None => None
        | Some _ => Some (update (PMergedVersion (CPayload e)) f (view q)) end = None
    end).
  { intros f Vf. pose proof (restore_view q (PMergedVersion (CPayload e)) f Q Vf) as R.
    destruct (restore q _ f) as [q'|x]; [|by rewrite R]. destruct R as (Q' & x & -> & ->). done. }
  destruct (CKind e); try (split; [done|reflexivity]); try (by apply R).
  destruct (byVer q !! PMergedVersion (CPayload e)) as [r|] eqn:B.
  - destruct (wf_by q Q _ r B) as (_ & x & Ex & _). rewrite <- entry_at_view by done. unfold entry_at. by rewrite B, Ex.
  - rewrite <- entry_at_view by done. unfold entry_at. rewrite B. cbn [fmap option_fmap option_map]. split; [|by rewrite add_view].
    apply add_wf; [done|done|]. unfold ver, new_entry. cbn [Descriptor].
    destruct (lookup (PMergedVersion (CPayload e))) as [d|] eqn:L; [by apply findByMergedVersion_ver|done].
Qed.

(** An entry and what a replay makes of it: the times are those of the log. *)
Record same (e' e : CommitEntry) : Prop := {
  s_desc : exists t, Descriptor e' = restored t (Descriptor e);
  s_state : State e' = State e;
  s_reason : RejectionReason e' = RejectionReason e;
  s_concerns : BigPictureConcerns e' = BigPictureConcerns e;
  s_sup : SupersededBy e' = SupersededBy e;
  s_replica : AuditReplicaID e' = AuditReplicaID e
}.

Lemma same_ver e' e : same e' e -> ver e' = ver e.
Proof.
  intros [[t D] _ _ _ _ _]. unfold ver. rewrite D. unfold restored.
  destruct (lookup (MergedVersion (Descriptor e))) as [d|] eqn:L; [by apply findByMergedVersion_ver|done].
Qed.

Lemma same_vers l' l : Forall2 same l' l -> ver <$> l' = ver <$> l.
Proof. induction 1 as [|e' e l' l S _ IH]; [done|]. rewrite !fmap_cons, IH. f_equal. by apply same_ver. Qed.

(** The changes of the queue and of the replay agree. *)
Lemma same_accept r e' e : same e' e -> same (accept r e') (accept r e).
Proof. by intros []. Qed.
Lemma same_reject r x c e' e : same e' e -> BigPictureConcerns e = [] -> same (restore_reject r x c e') (reject r x c e).
Proof. intros [] C. split; try done. cbn. by destruct c. Qed.
Lemma same_supersede v e' e : same e' e -> same (supersede v e') (supersede v e).
Proof. by intros []. Qed.
Lemma same_commit t' t e' e : same e' e -> same (commit t' e') (commit t e).
Proof. by intros []. Qed.
Lemma same_abandon r t' t e' e : same e' e -> same (abandon r t' e') (abandon r t e).
Proof. intros [D S R C U A]. split; try done. cbn. by rewrite R. Qed.

Lemma same_update v f f' e l' l : NoDup (ver <$> l) -> find_ver v l = Some e -> (forall x, same x e -> same (f' x) (f e)) ->
  Forall2 same l' l -> Forall2 same (update v f' l') (update v f l).
Proof.
  intros N F S A. rewrite Forall2_same_length_lookup in A |- *. destruct A as [Ln A]. unfold update. rewrite !length_fmap. split; [done|].
  intros i x' x Lx' Lx. rewrite list_lookup_fmap_Some in Lx', Lx. destruct Lx' as (y' & -> & Ly'), Lx as (y & -> & Ly).
  pose proof (A i y' y Ly' Ly) as Sy. rewrite (same_ver y' y Sy). case_decide as V; [|done].
  assert (E : find_ver v l = Some y) by (apply find_ver_Some; [done|split; [by eapply list_elem_of_lookup_2|done]]).
  rewrite F in E. injection E as <-. by apply S.
Qed.

Definition replay_list (l : list CommitEntry) (es : list ControlEntry) : option (list CommitEntry) :=
  foldl (fun ol e => ol ≫= fun l => replay_step l e) (Some l) es.

Lemma replay_snoc l es e : replay_list l (es ++ [e]) = replay_list l es ≫= fun l => replay_step l e.
Proof. unfold replay_list. by rewrite foldl_app. Qed.

(** An entry that waits for its audit was not rejected. *)
Definition clean (e : CommitEntry) : Prop := State e = CommitStateAuditing -> RejectionReason e = "" /\ BigPictureConcerns e = [].

(** [gone]: what has left the queue; [l]: what is in it; [es]: its log. *)
Record recorded (gone l : list CommitEntry) (es : list ControlEntry) : Prop := {
  r_replay : exists l', replay_list [] es = Some l' /\ Forall2 same l' (gone ++ l);
  r_nodup : NoDup (ver <$> gone ++ l);
  r_clean : Forall clean l
}.

Lemma find_same v l' l : Forall2 same l' l -> find_ver v l' = None <-> find_ver v l = None.
Proof. intros S. by rewrite !find_ver_None, (same_vers l' l S). Qed.

(** A transition that is logged. *)
Lemma recorded_mark gone l es e v f f' x : recorded gone l es -> find_ver v l = Some x ->
  (forall y, ver (f y) = ver y) -> (forall y, State (f y) <> CommitStateAuditing) -> (forall y, same y x -> same (f' y) (f x)) ->
  (forall l', replay_step l' e = match find_ver v l' with None => None | Some _ => Some (update v f' l') end) ->
  recorded gone (update v f l) (es ++ [e]).
Proof.
  intros [(l' & R & S) N C] F Vf Sf Sm Re.
  pose proof N as Nl. rewrite fmap_app in Nl. apply NoDup_app in Nl as (_ & Ng & Nl).
  assert (Fg : find_ver v (gone ++ l) = Some x).
  { apply find_ver_Some; [done|]. apply find_ver_Some in F as [I V]; [|done]. split; [by apply elem_of_app; right|done]. }
  assert (Ug : update v f (gone ++ l) = gone ++ update v f l).
  { rewrite update_app. f_equal. apply update_absent. intros I. apply (Ng v I). apply find_ver_Some in F as [Ix <-]; [|done].
    by apply list_elem_of_fmap_2. }
  split.
  - exists (update v f' l'). rewrite replay_snoc, R. cbn [mbind option_bind]. rewrite Re.
    destruct (find_ver v l') as [y|] eqn:Fy; [|apply (find_same v l' _ S) in Fy; by rewrite Fg in Fy]. split; [done|].
    rewrite <- Ug. by apply (same_update v f f' x).
  - rewrite <- Ug. by rewrite update_ver.
  - unfold update. apply Forall_fmap, Forall_forall. intros y I. cbn. case_decide; [|by rewrite Forall_forall in C; apply C].
    intros E. by destruct (Sf y).
Qed.

(** A merge that joins the queue. *)
Lemma recorded_enqueue gone l es d now seq t : recorded gone l es -> MergedVersion d ∉ ver <$> gone ++ l ->
  recorded gone (l ++ [new_entry d now]) (es ++ [mkControlEntry seq ControlKindCommitQueueEnqueue t
    (enqueuePayload (MergedVersion d) (MBaseVersion d) (MPipelineID d) (u32 (MPathCount d)) (MPaths d))]).
Proof.
  intros [(l' & R & S) N C] F. split.
  - exists (l' ++ [new_entry (restored t d) t]). rewrite replay_snoc, R. cbn [mbind option_bind].
    assert (Fl : find_ver (MergedVersion d) l' = None) by (apply (find_same _ _ _ S); by apply find_ver_None).
    unfold replay_step. cbn [CKind CPayload PMergedVersion enqueuePayload CTimestamp]. rewrite Fl. unfold restored, minimal_descriptor.
    split; [by destruct (lookup (MergedVersion d))|]. rewrite app_assoc. apply Forall2_app; [done|]. constructor; [|constructor].
    split; try done. by exists t.
  - rewrite app_assoc, fmap_app. apply NoDup_app. split; [done|]. split; [|apply NoDup_singleton].
    intros x I ->%list_elem_of_singleton. done.
  - apply Forall_app. split; [done|]. by constructor.
Qed.

Lemma recorded_advance gone l es e l' : recorded gone l es -> advance l = (Some e, l') -> recorded (gone ++ [e]) l' es.
Proof.
  intros [R N C] A. unfold advance in A. destruct l as [|x l]; [done|]. destruct (removable (State x)); [|done]. injection A as <- <-.
  split; [by rewrite <- app_assoc|by rewrite <- app_assoc|by apply Forall_cons in C as [_ C]].
Qed.

(** A merge that had left the queue does not come again. *)
Definition comes_anew (gone : list CommitEntry) (o : qop) : Prop :=
  match o with QEnqueue d _ => MergedVersion d ∉ ver <$> gone | _ => True end.

(** The fields of the code have the values of their types. *)
Definition op_wf (o : qop) : Prop :=
  match o with
  | QEnqueue d _ => version_wf (MergedVersion d) /\ version_wf (MBaseVersion d)
  | QAccept v _ | QReject v _ _ _ | QCommit v _ | QAbandon v _ _ => version_wf v
  | QSupersede v sup => version_wf v /\ version_wf sup
  | QAdvance => True
  end.

Lemma plan_mark v refused kind payload f l k p l2 : mark v refused kind payload f l = Logged k p l2 ->
  exists x, find_ver v l = Some x /\ refused x = None /\ k = kind /\ p = payload /\ l2 = update v f l.
Proof.
  unfold mark. destruct (find_ver v l) as [x|]; [|done]. destruct (refused x) eqn:R; [done|]. intros [= <- <- <-]. by exists x.
Qed.

Lemma unless_None b e : unless b e = None -> b = true.
Proof. by destruct b. Qed.

Lemma recorded_plan gone l es o k p l2 : recorded gone l es -> comes_anew gone o -> plan_of o l = Logged k p l2 ->
  forall seq t, recorded gone l2 (es ++ [mkControlEntry seq k t (written k p)]).
Proof.
  intros R An P seq t. destruct o as [d now|v rep|v rep reason concerns|v sup|v now|v reason now|]; cbn [plan_of] in P;
    [|apply plan_mark in P as (x & F & G & -> & -> & ->)..|].
  - destruct (find_ver (MergedVersion d) l) eqn:F; [done|]. injection P as <- <- <-. apply recorded_enqueue; [done|].
    rewrite fmap_app, elem_of_app. apply find_ver_None in F. by intros [I|I].
  - apply (recorded_mark gone l es _ v _ (accept rep) x); try done. intros y. by apply same_accept.
  - apply (recorded_mark gone l es _ v _ (restore_reject rep reason concerns) x); try done. intros y Sy. apply same_reject; [done|].
    apply unless_None, bool_decide_eq_true in G. pose proof (r_nodup _ _ _ R) as N. rewrite fmap_app in N. apply NoDup_app in N as (_ & _ & N).
    apply find_ver_Some in F as [I _]; [|done]. pose proof (r_clean _ _ _ R) as C. rewrite Forall_forall in C. by apply C.
  - apply (recorded_mark gone l es _ v _ (supersede sup) x); try done. intros y. by apply same_supersede.
  - apply (recorded_mark gone l es _ v _ (commit t) x); try done. intros y. by apply same_commit.
  - apply (recorded_mark gone l es _ v _ (abandon reason t) x); try done. intros y. by apply same_abandon.
  - by destruct (advance l).
Qed.

(** The entries of other components change nothing. *)
Definition queue_kind (k : ControlEntryKind) : bool :=
  match k with
  | ControlKindCommitQueueEnqueue | ControlKindCommitQueueMarkAccepted | ControlKindCommitQueueMarkRejected
  | ControlKindCommitQueueMarkSuperseded | ControlKindCommitQueueMarkCommitted | ControlKindCommitQueueAbandon => true
  | _ => false
  end.

Lemma recorded_other gone l es e : recorded gone l es -> queue_kind (CKind e) = false -> recorded gone l (es ++ [e]).
Proof.
  intros [(l' & R & S) N C] K. split; [|done|done]. exists l'. rewrite replay_snoc, R. cbn [mbind option_bind]. split; [|done].
  unfold replay_step. by destruct (CKind e).
Qed.

Lemma recorded_new : recorded [] [] [].
Proof. split; [exists []; split; [done|constructor]|apply NoDup_nil_2|constructor]. Qed.

Definition popped (r : result queue_error (option CommitEntry)) : list CommitEntry :=
  match r with Ok (Some e) => [e] | _ => [] end.

Lemma queue_plan_payload o l k p l2 : op_wf o -> plan_of o l = Logged k p l2 -> known k /\ payload_wf p /\ queue_kind k = true.
Proof.
  assert (Z0 : version_wf VersionZero) by (split; done). intros W P.
  assert (Q : forall v rep reason concerns sup, version_wf v -> version_wf sup -> payload_wf (queuePayload v rep reason concerns sup))
    by (intros; split; done).
  destruct o as [d now|v rep|v rep reason concerns|v sup|v now|v reason now|]; cbn [plan_of op_wf] in *;
    [|apply plan_mark in P as (x & _ & _ & -> & -> & _); split; [done|split; [apply Q; tauto|done]]..|].
  - destruct (find_ver _ l); [done|]. injection P as <- <- <-. split; [done|]. split; [|done]. destruct W. split; try done. unfold in_u32, u32. apply Z.mod_pos_bound. done.
  - by destruct (advance l).
Qed.

Lemma plan_done o l r l2 : plan_of o l = Done r l2 -> popped r = [] /\ l2 = l \/ exists e, r = Ok (Some e) /\ advance l = (Some e, l2).
Proof.
  intros P. destruct o; cbn [plan_of] in P; unfold mark in P; repeat case_match; try done; try (by injection P as <- <-; left).
  - injection P as <- <-. match goal with A : advance l = (?o, _) |- _ => destruct o as [e|]; [right; by exists e|left] end.
    split; [done|]. unfold advance in *. repeat case_match; simplify_eq; done.
Qed.

(** A call of the queue, on a log that keeps its laws. *)
Lemma recorded_step {W} `{L : ControlLogLaws W} gone l (w w' : W) o r l2 : recorded gone l (logged w) -> log_sound w -> op_wf o -> comes_anew gone o ->
  spec_step (l, Some w) o = (r, (l2, Some w')) -> log_small w' -> recorded (gone ++ popped r) l2 (logged w') /\ log_sound w'.
Proof.
  intros R S Wf An E Sm. unfold spec_step in E. cbn [fst snd] in E. destruct (plan_of o l) as [r0 l0|k p l0] eqn:P.
  - injection E as <- <- <-. split; [|done]. destruct (plan_done o l r0 l0 P) as [[-> ->]|(e & -> & A)]; [by rewrite app_nil_r|].
    by apply (recorded_advance _ l).
  - destruct (queue_plan_payload o l k p l0 Wf P) as (K & Pw & _). rewrite walAppend_Some in E.
    destruct (log_append w k p) as [[[]|x] w1] eqn:A; cbn [fst snd] in E; injection E as <- <- <-; rewrite app_nil_r.
    + destruct (append_taken w k p w1 S K Pw A Sm) as (S' & seq & t & _ & ->). split; [|done]. by apply (recorded_plan gone l _ o).
    + by destruct (append_refused w k p x w1 S A) as (S' & ->).
Qed.
End replay.
End CommitQueueReplay.
