(* ===== verification/CopyRetention.v ===== *)
(** * References on the copies of merges (core/versioning/copy_retention.go)

    Holders keep the copy of a version alive; copies below the water line that
    nobody holds are released.  Every change is appended to the control log
    before it is made. *)

From S2P Require Import Prelude GoStd Semantic ControlEntryProof ControlWal ControlLog.
Import Semantic ControlEntry ControlWal.

Module CopyRetention.

(** A version that is not in [refs] has the count 0. *)
Record CopyRetention := mkRetention {
  refs : gmap SemanticVersion Z; holders : gmap string SemanticVersion; waterLine : SemanticVersion; waterAt : Z }.

Definition NewCopyRetention : CopyRetention := mkRetention ∅ ∅ VersionZero 0.

Definition RefCount (r : CopyRetention) (ver : SemanticVersion) : Z := default 0 (refs r !! ver).
Definition WaterLine (r : CopyRetention) : SemanticVersion := waterLine r.

(** One reference less, if there is one; a count of 0 is deleted. *)
Definition decrement (ver : SemanticVersion) (m : gmap SemanticVersion Z) : gmap SemanticVersion Z :=
  let n := default 0 (m !! ver) in
  if 0 <? n then (if n - 1 =? 0 then delete ver m else <[ver := n - 1]> m) else m.
Definition increment (ver : SemanticVersion) (m : gmap SemanticVersion Z) : gmap SemanticVersion Z :=
  <[ver := default 0 (m !! ver) + 1]> m.

(** The holder holds [ver] from now on, and what it held no longer. *)
Definition hold (ver : SemanticVersion) (holderID : string) (r : CopyRetention) : CopyRetention :=
  let m := match holders r !! holderID with Some existing => decrement existing (refs r) | None => refs r end in
  mkRetention (increment ver m) (<[holderID := ver]> (holders r)) (waterLine r) (waterAt r).
Definition drop_hold (ver : SemanticVersion) (holderID : string) (r : CopyRetention) : CopyRetention :=
  mkRetention (decrement ver (refs r)) (delete holderID (holders r)) (waterLine r) (waterAt r).
Definition raise (line : SemanticVersion) (now : Z) (r : CopyRetention) : CopyRetention :=
  mkRetention (refs r) (holders r) line now.

Definition collectReleasableLocked (r : CopyRetention) (knownVersions : list SemanticVersion) : list SemanticVersion :=
  List.filter (fun ver => negb (0 <=? Compare ver (waterLine r)) && negb (0 <? RefCount r ver)) knownVersions.

Record CopyRetentionSnapshot := mkSnapshot {
  SWaterLine : SemanticVersion; SWaterLineAt : Z; STrackedCopies : Z; SHolders : Z; SRefsByVersion : gmap SemanticVersion Z }.

Definition Snapshot (r : CopyRetention) : CopyRetentionSnapshot :=
  mkSnapshot (waterLine r) (waterAt r) (Z.of_nat (size (refs r))) (Z.of_nat (size (holders r))) (refs r).

Section operations.
Context {W : Type} `{ControlLog W}.

Definition state : Type := (CopyRetention * option W)%type.

Definition Retain (s : state) (ver : SemanticVersion) (holderID : string) : result control_wal_error unit * state :=
  if bool_decide (holders s.1 !! holderID = Some ver) then (Ok tt, s)
  else match walAppend s.2 ControlKindRetentionRetain (retentionPayload ver holderID VersionZero) with
    | (Err e, w) => (Err e, (s.1, w))
    | (Ok _, w) => (Ok tt, (hold ver holderID s.1, w))
    end.

Definition Release (s : state) (holderID : string) : result control_wal_error unit * state :=
  match holders s.1 !! holderID with
  | None => (Ok tt, s)
  | Some ver =>
    match walAppend s.2 ControlKindRetentionRelease (retentionPayload ver holderID VersionZero) with
    | (Err e, w) => (Err e, (s.1, w))
    | (Ok _, w) => (Ok tt, (drop_hold ver holderID s.1, w))
    end
  end.

(** The versions that are released, of which the callback is told when there
    are any. *)
Definition AdvanceWaterLine (s : state) (newLine : SemanticVersion) (knownVersions : list SemanticVersion) (now : Z)
  : result control_wal_error (list SemanticVersion) * state :=
  if Compare newLine (waterLine s.1) <=? 0 then (Ok [], s)
  else match walAppend s.2 ControlKindRetentionAdvanceWaterLine (retentionPayload VersionZero "" newLine) with
    | (Err e, w) => (Err e, (s.1, w))
    | (Ok _, w) => let r := raise newLine now s.1 in (Ok (collectReleasableLocked r knownVersions), (r, w))
    end.
End operations.

Definition ApplyControlEntry (r : CopyRetention) (e : ControlEntry) : CopyRetention :=
  let p := CPayload e in
  match CKind e with
  | ControlKindRetentionRetain =>
    if bool_decide (holders r !! PRetentionHolderID p = Some (PRetentionVersion p)) then r
    else hold (PRetentionVersion p) (PRetentionHolderID p) r
  | ControlKindRetentionRelease =>
    match holders r !! PRetentionHolderID p with
    | Some ver => drop_hold ver (PRetentionHolderID p) r
    | None => r
    end
  | ControlKindRetentionAdvanceWaterLine =>
    if 0 <? Compare (PWaterLine p) (waterLine r) then raise (PWaterLine p) (CTimestamp e) r else r
  | _ => r
  end.

(* ------------------------------------------------------------------ *)
(** ** Calls *)

Inductive rop :=
| RRetain (ver : SemanticVersion) (holderID : string)
| RRelease (holderID : string)
| RAdvance (newLine : SemanticVersion) (known : list SemanticVersion) (now : Z).

(** The result with the versions that are released. *)
Definition perform {W} `{ControlLog W} (s : state) (o : rop) : result control_wal_error (list SemanticVersion) * state :=
  match o with
  | RRetain ver holderID => let r := Retain s ver holderID in ((match r.1 with Ok _ => Ok [] | Err e => Err e end), r.2)
  | RRelease holderID => let r := Release s holderID in ((match r.1 with Ok _ => Ok [] | Err e => Err e end), r.2)
  | RAdvance line known now => AdvanceWaterLine s line known now
  end.
End CopyRetention.

(** * What the retention of copies promises

    The count of a version is the number of its holders; what is released lies
    below the water line and nobody holds it; and a replay of the log gives
    the same references and water line. *)

Module CopyRetentionProof.
Import CopyRetention.

(** How many hold a version. *)
Definition held (v : SemanticVersion) (m : gmap string SemanticVersion) : Z := Z.of_nat (size (filter (fun kv => kv.2 = v) m)).

Lemma held_nonneg v m : 0 <= held v m.
Proof. unfold held. lia. Qed.

Lemma held_insert v h w m : m !! h = None -> held v (<[h := w]> m) = held v m + (if decide (w = v) then 1 else 0).
Proof.
  intros N. unfold held. destruct (decide (w = v)) as [-> |D].
  - rewrite map_filter_insert_True by done. rewrite map_size_insert_None; [lia|]. apply map_lookup_filter_None. by left.
  - rewrite map_filter_insert_False by done. rewrite delete_id by done. lia.
Qed.

Lemma held_delete v h w m : m !! h = Some w -> held v (delete h m) = held v m - (if decide (w = v) then 1 else 0).
Proof.
  intros E. rewrite <- (insert_id m h w E) at 2. rewrite <- insert_delete_eq. rewrite held_insert by apply lookup_delete_eq. lia.
Qed.

Definition counted (n : Z) : option Z := if n =? 0 then None else Some n.

Record retention_wf (r : CopyRetention) : Prop := { wf_counts : forall v, refs r !! v = counted (held v (holders r)) }.

Lemma counts_exact r v : retention_wf r -> RefCount r v = held v (holders r).
Proof. intros [C]. unfold RefCount. rewrite C. unfold counted. by destruct (Z.eqb_spec (held v (holders r)) 0) as [-> |]. Qed.

Lemma decrement_counted v w m n : (forall u, m !! u = counted (n u)) -> 0 < n w -> (forall u, 0 <= n u) ->
  decrement w m !! v = counted (n v - (if decide (w = v) then 1 else 0)).
Proof.
  intros C P Nn. unfold decrement. rewrite (C w). unfold counted at 1 2 3. destruct (Z.eqb_spec (n w) 0); [lia|]. cbn [from_option]. unfold id.
  rewrite (proj2 (Z.ltb_lt _ _)) by done. unfold counted. destruct (decide (w = v)) as [<-|D].
  - destruct (Z.eqb_spec (n w - 1) 0); [by rewrite lookup_delete_eq|by rewrite lookup_insert_eq].
  - rewrite Z.sub_0_r. destruct (n w - 1 =? 0); [rewrite lookup_delete_ne by done|rewrite lookup_insert_ne by done]; apply C.
Qed.

Lemma increment_counted v w m n : (forall u, m !! u = counted (n u)) -> (forall u, 0 <= n u) ->
  increment w m !! v = counted (n v + (if decide (w = v) then 1 else 0)).
Proof.
  intros C Nn. unfold increment. rewrite (C w). pose proof (Nn w). destruct (decide (w = v)) as [<-|D].
  - rewrite lookup_insert_eq. unfold counted. destruct (Z.eqb_spec (n w + 1) 0); [lia|]. destruct (Z.eqb_spec (n w) 0) as [-> |]; done.
  - rewrite lookup_insert_ne, Z.add_0_r by done. apply C.
Qed.

Lemma held_positive h w m : m !! h = Some w -> 0 < held w m.
Proof.
  intros E. pose proof (held_nonneg w (delete h m)). rewrite (held_delete w h w m E), decide_True in H by done. lia.
Qed.

Lemma empty_retention_wf : retention_wf NewCopyRetention.
Proof. split. intros v. cbn. rewrite lookup_empty. unfold held. by rewrite map_filter_empty, map_size_empty. Qed.

Lemma hold_wf v h r : retention_wf r -> retention_wf (hold v h r).
Proof.
  intros [C]. split. intros u. unfold hold. cbn [refs holders]. destruct (holders r !! h) as [w|] eqn:E.
  - rewrite <- insert_delete_eq, held_insert by apply lookup_delete_eq. rewrite (held_delete u h w _ E).
    apply (increment_counted u v _ (fun x => held x (holders r) - (if decide (w = x) then 1 else 0))).
    + intros x. apply (decrement_counted x w _ (fun x => held x (holders r))); [done|by apply (held_positive h)|intros; apply held_nonneg].
    + intros x. cbn. pose proof (held_nonneg x (delete h (holders r))) as N. by rewrite (held_delete x h w _ E) in N.
  - rewrite held_insert by done. apply (increment_counted u v _ (fun x => held x (holders r))); [done|intros; apply held_nonneg].
Qed.

Lemma drop_wf h w r : retention_wf r -> holders r !! h = Some w -> retention_wf (drop_hold w h r).
Proof.
  intros [C] E. split. intros u. unfold drop_hold. cbn [refs holders]. rewrite (held_delete u h w _ E).
  apply (decrement_counted u w _ (fun x => held x (holders r))); [done|by apply (held_positive h)|intros; apply held_nonneg].
Qed.

(* ------------------------------------------------------------------ *)
(** ** What a call does *)

(** Nothing, or a change once this is in the log. *)
Inductive plan :=
| Idle
| Logged (kind : ControlEntryKind) (payload : ControlEntryPayload) (r : CopyRetention) (released : list SemanticVersion).

Definition plan_of (o : rop) (r : CopyRetention) : plan :=
  match o with
  | RRetain v h =>
    if bool_decide (holders r !! h = Some v) then Idle
    else Logged ControlKindRetentionRetain (retentionPayload v h VersionZero) (hold v h r) []
  | RRelease h =>
    match holders r !! h with
    | None => Idle
    | Some v => Logged ControlKindRetentionRelease (retentionPayload v h VersionZero) (drop_hold v h r) []
    end
  | RAdvance line known now =>
    if Compare line (waterLine r) <=? 0 then Idle
    else Logged ControlKindRetentionAdvanceWaterLine (retentionPayload VersionZero "" line) (raise line now r)
      (collectReleasableLocked (raise line now r) known)
  end.

Lemma retention_perform_plan {W} `{ControlLog W} (s : @state W) o : perform s o =
  match plan_of o s.1 with
  | Idle => (Ok [], s)
  | Logged kind payload r released =>
    match walAppend s.2 kind payload with
    | (Err e, w) => (Err e, (s.1, w))
    | (Ok _, w) => (Ok released, (r, w))
    end
  end.
Proof.
  destruct o as [v h|h|line known now]; cbn [perform plan_of].
  - unfold Retain. destruct (bool_decide _); [done|]. by destruct (walAppend s.2 _ _) as [[[]|e] w].
  - unfold Release. destruct (holders s.1 !! h); [|done]. by destruct (walAppend s.2 _ _) as [[[]|e] w].
  - unfold AdvanceWaterLine. destruct (_ <=? 0); [done|]. by destruct (walAppend s.2 _ _) as [[[]|e] w].
Qed.

Lemma plan_wf o r kind payload r' released : retention_wf r -> plan_of o r = Logged kind payload r' released -> retention_wf r'.
Proof.
  intros Wf P. destruct o as [v h|h|line known now]; cbn [plan_of] in P; case_match; try done; injection P as <- <- <- <-.
  - by apply hold_wf.
  - by apply drop_wf.
  - destruct Wf as [C]. by split.
Qed.

Lemma perform_wf {W} `{ControlLog W} (s : @state W) o : retention_wf s.1 -> retention_wf (perform s o).2.1.
Proof.
  intros Wf. rewrite retention_perform_plan. destruct (plan_of o s.1) as [|k p r rel] eqn:P; [done|].
  destruct (walAppend s.2 k p) as [[u|e] w]; [|done]. by apply (plan_wf o s.1 k p r rel).
Qed.

Lemma runs_wf {W} `{ControlLog W} ops : forall s : @state W, retention_wf s.1 -> retention_wf (runs perform s ops).2.1.
Proof.
  induction ops as [|o ops IH]; intros s Wf; [done|]. cbn [runs]. pose proof (perform_wf s o Wf) as Wf'.
  destruct (perform s o) as [r s']. specialize (IH s' Wf'). by destruct (runs perform s' ops).
Qed.

Lemma held_none v m : held v m <= 0 <-> forall h, m !! h <> Some v.
Proof.
  split; [intros L h E; pose proof (held_positive h v m E); lia|]. intros N. unfold held.
  rewrite map_empty_filter_2; [by rewrite map_size_empty|]. intros h w E. cbn. intros ->. by apply (N h).
Qed.

(* ------------------------------------------------------------------ *)
(** ** Replay *)

(** But for the time of the water line. *)
Definition same (r' r : CopyRetention) : Prop := refs r' = refs r /\ holders r' = holders r /\ waterLine r' = waterLine r.

Lemma retention_plan_replay o r kind payload r' released x seq t : plan_of o r = Logged kind payload r' released -> same x r ->
  same (ApplyControlEntry x (mkControlEntry seq kind t (written kind payload))) r'.
Proof.
  intros P (E1 & E2 & E3). destruct o as [v h|h|line known now]; cbn [plan_of] in P.
  - destruct (bool_decide _) eqn:B; [done|]. injection P as <- <- <- <-. unfold ApplyControlEntry. cbn. rewrite E2, B.
    unfold same, hold. cbn. by rewrite E1, E2.
  - destruct (holders r !! h) eqn:B; [|done]. injection P as <- <- <- <-. unfold ApplyControlEntry. cbn. rewrite E2, B.
    unfold same, drop_hold. cbn. by rewrite E1, E2.
  - destruct (Z.leb_spec (Compare line (waterLine r)) 0); [done|]. injection P as <- <- <- <-. unfold ApplyControlEntry. cbn.
    rewrite E3, (proj2 (Z.ltb_lt _ _)) by done. done.
Qed.

Definition retention_kind (k : ControlEntryKind) : bool :=
  match k with ControlKindRetentionRetain | ControlKindRetentionRelease | ControlKindRetentionAdvanceWaterLine => true | _ => false end.

Lemma retention_apply_other r e : retention_kind (CKind e) = false -> ApplyControlEntry r e = r.
Proof. unfold ApplyControlEntry. by destruct (CKind e). Qed.

(** The versions of a state and of a call are pairs of [uint32]s. *)
Definition rop_wf (o : rop) : Prop :=
  match o with RRetain v _ => version_wf v | RRelease _ => True | RAdvance line _ _ => version_wf line end.
Definition versions_wf (r : CopyRetention) : Prop := forall h v, holders r !! h = Some v -> version_wf v.

Lemma retention_plan_payload o r kind payload r' released : rop_wf o -> versions_wf r -> plan_of o r = Logged kind payload r' released ->
  known kind /\ payload_wf payload /\ retention_kind kind = true /\ versions_wf r'.
Proof.
  assert (Z0 : version_wf VersionZero) by (split; done). intros Wf Vs P.
  destruct o as [v h|h|line known now]; cbn [plan_of] in P; case_match; try done; injection P as <- <- <- <-; split_and!; try done.
  - intros h' u E. destruct (decide (h' = h)) as [-> |N]; cbn in E; [rewrite lookup_insert_eq in E; by injection E as <-|].
    rewrite lookup_insert_ne in E by done. by apply (Vs h').
  - split; try done. cbn. by eapply Vs.
  - intros h' u E. cbn in E. apply lookup_delete_Some in E as [_ E]. by apply (Vs h').
Qed.

(* ------------------------------------------------------------------ *)
(** ** Claims *)

(** C10: after any calls, with any failures of the log, the count of a version
    is the number of its holders; and raising the water line releases, of the
    versions it is told, exactly those below the new line that nobody holds,
    and is the only way the line moves. *)
Theorem retention_exact {W} `{ControlLog W} (w : option W) ops :
  let s := (runs perform (NewCopyRetention, w) ops).2 in
  (forall v, RefCount s.1 v = held v (holders s.1)) /\
  (forall o, WaterLine (perform s o).2.1 = WaterLine s.1 \/ 0 < Compare (WaterLine (perform s o).2.1) (WaterLine s.1)) /\
  (forall line known now, match AdvanceWaterLine s line known now with
   | (Ok released, s') =>
     released = [] /\ s' = s /\ Compare line (WaterLine s.1) <= 0 \/
     WaterLine s'.1 = line /\ forall v, v ∈ released <-> v ∈ known /\ Compare v line < 0 /\ forall h, holders s.1 !! h <> Some v
   | (Err _, s') => s'.1 = s.1
   end).
Proof.
  set (s := (runs perform _ ops).2). pose proof (runs_wf ops (NewCopyRetention, w) empty_retention_wf) as Wf. fold s in Wf.
  split; [intros v; by apply counts_exact|]. split.
  - intros o. rewrite retention_perform_plan. destruct (plan_of o s.1) as [|k p r rel] eqn:P; [by left|].
    destruct (walAppend s.2 k p) as [[u|e] w']; [|by left]. cbn [fst snd]. destruct o; cbn [plan_of] in P; case_match; try done.
    + injection P as <- <- <- <-. by left.
    + injection P as <- <- <- <-. by left.
    + injection P as <- <- <- <-. right. cbn. by apply Z.leb_gt.
  - intros line known now. unfold AdvanceWaterLine. destruct (Z.leb_spec (Compare line (waterLine s.1)) 0) as [L|L]; [by left|].
    destruct (walAppend s.2 _ _) as [[u|e] w']; [|done]. right. split; [done|]. intros v. unfold collectReleasableLocked.
    rewrite <- held_none, <- (counts_exact s.1 v Wf). rewrite list_elem_of_In, filter_In, <- list_elem_of_In.
    change (RefCount (raise line now s.1) v) with (RefCount s.1 v). change (waterLine (raise line now s.1)) with line.
    rewrite andb_true_iff, !negb_true_iff, Z.leb_gt, Z.ltb_ge. done.
Qed.
End CopyRetentionProof.
