(* ===== verification/ReplicaLifecycle.v ===== *)
(** * The lifecycle of audit replicas (core/versioning/replica_lifecycle.go)

    A replica is spawned for a merge and decides or crashes.  Every transition
    is appended to the control log before it is made. *)

From S2P Require Import Prelude GoStd Semantic ControlEntryProof ControlWal ControlLog.
Import Semantic ControlEntry ControlWal.

Inductive ReplicaLifecycleState := ReplicaLifecycleInFlight | ReplicaLifecycleDecided | ReplicaLifecycleCrashed.

#[export] Instance ReplicaLifecycleState_eq_dec : EqDecision ReplicaLifecycleState.
Proof. solve_decision. Defined.

Record ReplicaLifecycleEntry := mkReplica {
  LReplicaID : string; LAgentType : string; LMergedVersion : SemanticVersion; LState : ReplicaLifecycleState;
  LDecision : ReplicaDecision; LDecisionText : string; LConcerns : list string; LCrashReason : string;
  LSpawnedAt : Z; LResolvedAt : Z }.

Module ReplicaLifecycle.

(** The replicas by their identifiers. *)
Abbreviation ReplicaLifecycleLog := (gmap string ReplicaLifecycleEntry).

Definition NewReplicaLifecycleLog : ReplicaLifecycleLog := ∅.

Inductive lifecycle_error :=
| UnknownReplica (id : string)
| NotInFlight (id : string) (s : ReplicaLifecycleState)
| WalFailed (e : control_wal_error).

Definition spawned (id agent : string) (ver : SemanticVersion) (now : Z) : ReplicaLifecycleEntry :=
  mkReplica id agent ver ReplicaLifecycleInFlight (ReplicaDecisionOther x00) "" [] "" now 0.
Definition decided (d : ReplicaDecision) (text : string) (concerns : list string) (now : Z) (e : ReplicaLifecycleEntry) : ReplicaLifecycleEntry :=
  mkReplica (LReplicaID e) (LAgentType e) (LMergedVersion e) ReplicaLifecycleDecided d text concerns (LCrashReason e) (LSpawnedAt e) now.
Definition crashed (reason : string) (now : Z) (e : ReplicaLifecycleEntry) : ReplicaLifecycleEntry :=
  mkReplica (LReplicaID e) (LAgentType e) (LMergedVersion e) ReplicaLifecycleCrashed (LDecision e) (LDecisionText e) (LConcerns e) reason (LSpawnedAt e) now.

Section operations.
Context {W : Type} `{ControlLog W}.

Definition state : Type := (ReplicaLifecycleLog * option W)%type.

Definition RecordSpawned (s : state) (id agent : string) (ver : SemanticVersion) (now : Z) : result lifecycle_error unit * state :=
  match walAppend s.2 ControlKindReplicaSpawned (replicaPayload ver agent id (ReplicaDecisionOther x00) "" "" []) with
  | (Err e, w) => (Err (WalFailed e), (s.1, w))
  | (Ok _, w) => (Ok tt, (<[id := spawned id agent ver now]> s.1, w))
  end.

Definition RecordDecided (s : state) (id : string) (d : ReplicaDecision) (text : string) (concerns : list string) (now : Z)
  : result lifecycle_error unit * state :=
  match s.1 !! id with
  | None => (Err (UnknownReplica id), s)
  | Some e =>
    if negb (bool_decide (LState e = ReplicaLifecycleInFlight)) then (Err (NotInFlight id (LState e)), s)
    else match walAppend s.2 ControlKindReplicaDecided (replicaPayload (LMergedVersion e) "" id d text "" concerns) with
      | (Err x, w) => (Err (WalFailed x), (s.1, w))
      | (Ok _, w) => (Ok tt, (<[id := decided d text concerns now e]> s.1, w))
      end
  end.

Definition RecordCrashed (s : state) (id reason : string) (now : Z) : result lifecycle_error unit * state :=
  match s.1 !! id with
  | None => (Err (UnknownReplica id), s)
  | Some e =>
    if negb (bool_decide (LState e = ReplicaLifecycleInFlight)) then (Err (NotInFlight id (LState e)), s)
    else match walAppend s.2 ControlKindReplicaCrashed (replicaPayload (LMergedVersion e) "" id (ReplicaDecisionOther x00) "" reason []) with
      | (Err x, w) => (Err (WalFailed x), (s.1, w))
      | (Ok _, w) => (Ok tt, (<[id := crashed reason now e]> s.1, w))
      end
  end.
End operations.

Definition Lookup (l : ReplicaLifecycleLog) (id : string) : option ReplicaLifecycleEntry := l !! id.

(** In the order the map is visited. *)
Definition InFlight `{RangeOrder} (site : nat) (l : ReplicaLifecycleLog) : list ReplicaLifecycleEntry :=
  List.filter (fun e => bool_decide (LState e = ReplicaLifecycleInFlight)) (range_map site l).*2.

(** The entry that is resolved; one that was not spawned is made up. *)
Definition known_or (l : ReplicaLifecycleLog) (e : ControlEntry) : ReplicaLifecycleEntry :=
  let p := CPayload e in
  match l !! PReplicaID p with
  | Some x => x
  | None => mkReplica (PReplicaID p) "" (PReplicaMergeVersion p) ReplicaLifecycleInFlight (ReplicaDecisionOther x00) "" [] "" (CTimestamp e) 0
  end.

Definition ApplyControlEntry (l : ReplicaLifecycleLog) (e : ControlEntry) : ReplicaLifecycleLog :=
  let p := CPayload e in
  let id := PReplicaID p in
  match CKind e with
  | ControlKindReplicaSpawned => <[id := spawned id (PReplicaAgentType p) (PReplicaMergeVersion p) (CTimestamp e)]> l
  | ControlKindReplicaDecided =>
    <[id := decided (PReplicaDecision p) (PReplicaDecisionText p) (PConcerns p) (CTimestamp e) (known_or l e)]> l
  | ControlKindReplicaCrashed => <[id := crashed (PRejectionReason p) (CTimestamp e) (known_or l e)]> l
  | _ => l
  end.

(* ------------------------------------------------------------------ *)
(** ** Calls *)

Inductive lop :=
| LSpawn (id agent : string) (ver : SemanticVersion) (now : Z)
| LDecide (id : string) (d : ReplicaDecision) (text : string) (concerns : list string) (now : Z)
| LCrash (id reason : string) (now : Z).

Definition perform {W} `{ControlLog W} (s : state) (o : lop) : result lifecycle_error unit * state :=
  match o with
  | LSpawn id agent ver now => RecordSpawned s id agent ver now
  | LDecide id d text concerns now => RecordDecided s id d text concerns now
  | LCrash id reason now => RecordCrashed s id reason now
  end.

(** What a call does: it is refused, or changes the replicas once this is in
    the log. *)
Inductive plan :=
| Refused (e : lifecycle_error)
| Logged (kind : ControlEntryKind) (payload : ControlEntryPayload) (l : ReplicaLifecycleLog).

Definition resolve (l : ReplicaLifecycleLog) (id : string) (kind : ControlEntryKind) (payload : ReplicaLifecycleEntry -> ControlEntryPayload)
  (f : ReplicaLifecycleEntry -> ReplicaLifecycleEntry) : plan :=
  match l !! id with
  | None => Refused (UnknownReplica id)
  | Some e =>
    if negb (bool_decide (LState e = ReplicaLifecycleInFlight)) then Refused (NotInFlight id (LState e))
    else Logged kind (payload e) (<[id := f e]> l)
  end.

Definition plan_of (o : lop) (l : ReplicaLifecycleLog) : plan :=
  match o with
  | LSpawn id agent ver now =>
    Logged ControlKindReplicaSpawned (replicaPayload ver agent id (ReplicaDecisionOther x00) "" "" []) (<[id := spawned id agent ver now]> l)
  | LDecide id d text concerns now =>
    resolve l id ControlKindReplicaDecided (fun e => replicaPayload (LMergedVersion e) "" id d text "" concerns) (decided d text concerns now)
  | LCrash id reason now =>
    resolve l id ControlKindReplicaCrashed (fun e => replicaPayload (LMergedVersion e) "" id (ReplicaDecisionOther x00) "" reason [])
      (crashed reason now)
  end.

Lemma lifecycle_perform_plan {W} `{ControlLog W} (s : @state W) o : perform s o =
  match plan_of o s.1 with
  | Refused e => (Err e, s)
  | Logged kind payload l =>
    match walAppend s.2 kind payload with
    | (Err e, w) => (Err (WalFailed e), (s.1, w))
    | (Ok _, w) => (Ok tt, (l, w))
    end
  end.
Proof.
  destruct o as [id agent v now|id d text concerns now|id reason now]; cbn [perform plan_of]; [done|unfold RecordDecided, resolve|unfold RecordCrashed, resolve];
    (destruct (s.1 !! id) as [e|]; [|done]); by destruct (bool_decide _).
Qed.

(** But for the times. *)
Definition untimed (e : ReplicaLifecycleEntry) : ReplicaLifecycleEntry :=
  mkReplica (LReplicaID e) (LAgentType e) (LMergedVersion e) (LState e) (LDecision e) (LDecisionText e) (LConcerns e) (LCrashReason e) 0 0.
Definition same (l' l : ReplicaLifecycleLog) : Prop := forall id, untimed <$> l' !! id = untimed <$> l !! id.

Lemma same_insert l' l id e' e : same l' l -> untimed e' = untimed e -> same (<[id := e']> l') (<[id := e]> l).
Proof.
  intros S E k. destruct (decide (k = id)) as [-> |N]; [by rewrite !lookup_insert_eq; cbn; f_equal|].
  by rewrite !lookup_insert_ne by done.
Qed.

Lemma same_lookup l' l id e : same l' l -> l !! id = Some e -> exists e', l' !! id = Some e' /\ untimed e' = untimed e.
Proof. intros S E. specialize (S id). rewrite E in S. destruct (l' !! id) as [e'|]; [|done]. exists e'. split; [done|]. cbn in S. congruence. Qed.

Lemma resolve_Logged l id kind payload f k p l2 : resolve l id kind payload f = Logged k p l2 ->
  exists e, l !! id = Some e /\ k = kind /\ p = payload e /\ l2 = <[id := f e]> l.
Proof. unfold resolve. destruct (l !! id) as [e|]; [|done]. destruct (negb _); [done|]. intros [= <- <- <-]. by exists e. Qed.

(** A replay of what a call logs does the same. *)
Lemma lifecycle_plan_replay o l kind payload l2 x seq t : plan_of o l = Logged kind payload l2 -> same x l ->
  same (ApplyControlEntry x (mkControlEntry seq kind t (written kind payload))) l2.
Proof.
  intros P S. destruct o as [id agent v now|id d text concerns now|id reason now]; cbn [plan_of] in P;
    [injection P as <- <- <-; by apply same_insert|apply resolve_Logged in P as (e & E & -> & -> & ->)..];
    destruct (same_lookup x l id e S E) as (e' & E' & U); unfold ApplyControlEntry, known_or;
    cbn [CKind CPayload CTimestamp written PReplicaID replicaPayload PReplicaDecision PReplicaDecisionText PConcerns PRejectionReason];
    rewrite E'; (apply same_insert; [done|]); injection U; intros; unfold untimed, decided, crashed; cbn; congruence.
Qed.

Definition lifecycle_kind (k : ControlEntryKind) : bool :=
  match k with ControlKindReplicaSpawned | ControlKindReplicaDecided | ControlKindReplicaCrashed => true | _ => false end.

Lemma lifecycle_apply_other l e : lifecycle_kind (CKind e) = false -> ApplyControlEntry l e = l.
Proof. unfold ApplyControlEntry. by destruct (CKind e). Qed.

(** The values of the types of the code. *)
Definition lop_wf (o : lop) : Prop :=
  match o with
  | LSpawn _ _ v _ => version_wf v
  | LDecide _ d _ _ _ => byte_decision (decision_byte d) = d
  | LCrash _ _ _ => True
  end.
Definition versions_wf (l : ReplicaLifecycleLog) : Prop := forall id e, l !! id = Some e -> version_wf (LMergedVersion e).

Lemma lifecycle_plan_payload o l kind payload l2 : lop_wf o -> versions_wf l -> plan_of o l = Logged kind payload l2 ->
  known kind /\ payload_wf payload /\ lifecycle_kind kind = true /\ versions_wf l2.
Proof.
  assert (Z0 : version_wf VersionZero) by (split; done). intros Wf Vs P.
  assert (I : forall id e, version_wf (LMergedVersion e) -> versions_wf (<[id := e]> l)).
  { intros id e V id' x E. destruct (decide (id' = id)) as [-> |N]; [rewrite lookup_insert_eq in E; by injection E as <-|].
    rewrite lookup_insert_ne in E by done. by apply (Vs id'). }
  destruct o as [id agent v now|id d text concerns now|id reason now]; cbn [plan_of lop_wf] in *;
    [injection P as <- <- <-|(apply resolve_Logged in P as (e & E & -> & -> & ->); pose proof (Vs id e E)) ..];
    (split; [done|]); (split; [by split|]); (split; [done|]); by apply I.
Qed.

(** Spawning a replica a second time is not without effect, in memory: one
    that had decided is in flight again, and its decision is forgotten. *)
Theorem spawned_again_forgets : forall id agent ver now,
  let s := runs perform (NewReplicaLifecycleLog, None (A := session_log))
    [LSpawn id agent ver now; LDecide id ReplicaDecisionRejected "no" ["late"] now; LSpawn id agent ver now] in
  s.1 = [Ok tt; Ok tt; Ok tt] /\ fmap LState (Lookup s.2.1 id) = Some ReplicaLifecycleInFlight /\
  fmap LDecisionText (Lookup s.2.1 id) = Some "".
Proof.
  intros id agent ver now. cbn [runs perform RecordSpawned RecordDecided walAppend fst snd]. unfold RecordDecided. cbn [fst snd walAppend].
  rewrite lookup_insert_eq. cbn [spawned LState]. rewrite bool_decide_eq_true_2 by done. cbn [negb fst snd]. unfold Lookup, RecordSpawned. cbn [walAppend fst snd].
  by rewrite !lookup_insert_eq.
Qed.
End ReplicaLifecycle.
