(* ===== verification/ReplicaVfs.v ===== *)
(** * The overlays of audits (core/versioning/replica_vfs.go, session_vfs.go)

    Every merge has an overlay its audit reads and writes; behind it stand the
    overlays of the merges before it, and the disk.  An overlay is shared by
    the session, by the calls that have a handle on it and by the overlays in
    front of it: overlays live in a list, and a handle is an index.  An index
    out of range stands for nil. *)

From S2P Require Import Prelude GoStd Semantic ControlEntryProof ControlWal ControlLog CommitQueue.
From S2P Require Vfs.
Import Semantic ControlEntry.

Record FileInfo := mkInfo { Name : string; Size : Z; ModTime : Z }.

(** [vfsBaseFS]; that a file is missing is [ErrFileNotFound]. *)
Class BaseFS (B : Type) := {
  ReadFile : B -> string -> result Vfs.vfs_error bytes;
  BaseExists : B -> string -> result Vfs.vfs_error bool;
  BaseListDir : B -> string -> result Vfs.vfs_error (list string);
  BaseStat : B -> string -> result Vfs.vfs_error FileInfo
}.

Inductive replica_error :=
| ErrReplicaVFSSealed | ErrReplicaVFSAbandoned | ErrReplicaVFSConfig | EmptyPath | WalFailed (e : ControlWal.control_wal_error).

Record ReplicaVFSDiff := mkDiff { DMergedVersion : SemanticVersion; DWrites : gmap string bytes; DDeletes : list string }.

(** [diskBase] and [hasWal]: whether there is one; the session has one disk
    and one log.  A cache or set of reads that is nil is empty.  [createdAt],
    which nothing reads, is left out. *)
Record ReplicaVFS := mkReplicaVFS {
  mergedVersion : SemanticVersion; replicaID : string; parent : option nat; diskBase : bool; hasWal : bool;
  writes : gmap string bytes; deletes : gset string; owned : gset string;
  readCache : gmap string bytes; chainReads : gset string;
  isSealed : bool; abandoned : bool; sealedDiff : option ReplicaVFSDiff; sealedAt : Z }.

Module ReplicaVfs.

Inductive readResolve := readResolveMiss | readResolveHit (content : bytes) | readResolveShadowed.

(** [ReplicaVFSConfig] *)
Definition NewReplicaVFS (ver : SemanticVersion) (id : string) (par : option nat) (disk log : bool) : result replica_error ReplicaVFS :=
  if bool_decide (par = None) && negb disk then Err ErrReplicaVFSConfig
  else if bool_decide (id = "") then Err ErrReplicaVFSConfig
  else Ok (mkReplicaVFS ver id par disk log ∅ ∅ ∅ ∅ ∅ false false None 0).

(* ------------------------------------------------------------------ *)
(** ** One overlay *)

Definition lookupLocal (l : ReplicaVFS) (path : string) : option bytes :=
  if bool_decide (path ∈ deletes l) then None else writes l !! path.

Definition set_reads (cache : gmap string bytes) (reads : gset string) (l : ReplicaVFS) : ReplicaVFS :=
  mkReplicaVFS (mergedVersion l) (replicaID l) (parent l) (diskBase l) (hasWal l) (writes l) (deletes l) (owned l)
    cache reads (isSealed l) (abandoned l) (sealedDiff l) (sealedAt l).

Definition recordChainRead (path : string) (l : ReplicaVFS) : ReplicaVFS :=
  if bool_decide (path = "") then l else set_reads (readCache l) ({[path]} ∪ chainReads l) l.

Definition lookupReadCache (l : ReplicaVFS) (path : string) : option bytes := readCache l !! path.

Definition readCacheMaxPaths : nat := 512.

Definition populateReadCache (path : string) (content : bytes) (l : ReplicaVFS) : ReplicaVFS :=
  if isSealed l || abandoned l then l
  else
    let cache := if (readCacheMaxPaths <=? size (readCache l))%nat then ∅ else readCache l in
    set_reads (<[path := content]> cache) (chainReads l) l.

Definition invalidateReadCache (l : ReplicaVFS) : ReplicaVFS := set_reads ∅ (chainReads l) l.

Definition set_overlay (w : gmap string bytes) (d o : gset string) (cache : gmap string bytes) (l : ReplicaVFS) : ReplicaVFS :=
  mkReplicaVFS (mergedVersion l) (replicaID l) (parent l) (diskBase l) (hasWal l) w d o
    cache (chainReads l) (isSealed l) (abandoned l) (sealedDiff l) (sealedAt l).

(** What [Write] and [Delete] do under the lock. *)
Definition apply_write (path : string) (content : bytes) (l : ReplicaVFS) : ReplicaVFS :=
  set_overlay (<[path := content]> (writes l)) (deletes l ∖ {[path]}) ({[path]} ∪ owned l) (delete path (readCache l)) l.
Definition apply_delete (path : string) (l : ReplicaVFS) : ReplicaVFS :=
  set_overlay (delete path (writes l)) ({[path]} ∪ deletes l) ({[path]} ∪ owned l) (delete path (readCache l)) l.

Definition set_sealed (diff : option ReplicaVFSDiff) (now : Z) (l : ReplicaVFS) : ReplicaVFS :=
  mkReplicaVFS (mergedVersion l) (replicaID l) (parent l) (diskBase l) (hasWal l) (writes l) (deletes l) (owned l)
    (readCache l) (chainReads l) true (abandoned l) diff now.
Definition set_abandoned (l : ReplicaVFS) : ReplicaVFS :=
  mkReplicaVFS (mergedVersion l) (replicaID l) (parent l) (diskBase l) (hasWal l) (writes l) (deletes l) (owned l)
    (readCache l) (chainReads l) (isSealed l) true (sealedDiff l) (sealedAt l).

Definition diff_of (l : ReplicaVFS) : ReplicaVFSDiff := mkDiff (mergedVersion l) (writes l) (sort_strings (elements (deletes l))).

Definition OwnedPaths (l : ReplicaVFS) : list string := sort_strings (elements (owned l)).
(** In the order the map is visited. *)
Definition ChainReads (l : ReplicaVFS) : list string := elements (chainReads l).

(** A replay keeps the cache, which is empty then. *)
Definition ApplyControlEntry (e : ControlEntry) (l : ReplicaVFS) : ReplicaVFS :=
  let p := CPayload e in
  if negb (bool_decide (PReplicaID p = replicaID l)) then l
  else match CKind e with
  | ControlKindReplicaOverlayWrite =>
    set_overlay (<[POverlayPath p := POverlayContent p]> (writes l)) (deletes l ∖ {[POverlayPath p]}) ({[POverlayPath p]} ∪ owned l) (readCache l) l
  | ControlKindReplicaOverlayDelete =>
    set_overlay (delete (POverlayPath p) (writes l)) ({[POverlayPath p]} ∪ deletes l) ({[POverlayPath p]} ∪ owned l) (readCache l) l
  | ControlKindReplicaOverlaySealed => set_sealed (sealedDiff l) (CTimestamp e) l
  | ControlKindReplicaOverlayAbandoned => set_abandoned l
  | _ => l
  end.

Definition pathInDir (path dir : string) : bool :=
  if bool_decide (dir = "") || bool_decide (dir = ".") then true
  else if (String.length path <=? String.length dir)%nat then false
  else if negb (bool_decide (substring 0 (String.length dir) path = dir)) then false
  else bool_decide (String.get (String.length dir) path = Some "/"%char).

(** A disk that does not fail, as a map; the times are not kept. *)
#[export] Instance map_disk : BaseFS (gmap string bytes) := {
  ReadFile d path := match d !! path with Some content => Ok content | None => Err Vfs.ErrFileNotFound end;
  BaseExists d path := Ok (bool_decide (is_Some (d !! path)));
  BaseListDir d dir := Ok (elements (filter (fun path => pathInDir path dir = true) (dom d)));
  BaseStat d path := match d !! path with Some content => Ok (mkInfo path (len content) 0) | None => Err Vfs.ErrFileNotFound end
}.

(* ------------------------------------------------------------------ *)
(** ** The overlays and the disk behind them *)

Record Layers {B : Type} := mkLayers { layers : list ReplicaVFS; disk : B }.
Arguments Layers : clear implicits.

Definition update {B} (r : nat) (f : ReplicaVFS -> ReplicaVFS) (s : Layers B) : Layers B := mkLayers B (alter f r (layers s)) (disk s).

(** A parent is older than the overlay, so the index is fuel enough. *)
Fixpoint readThroughChain {B} (fuel : nat) (s : Layers B) (r : nat) (path : string) : readResolve :=
  match fuel, layers s !! r with
  | S fuel, Some l =>
    let up := match parent l with Some p => readThroughChain fuel s p path | None => readResolveMiss end in
    if abandoned l then up
    else if bool_decide (path ∈ deletes l) then readResolveShadowed
    else match writes l !! path with
    | Some content => readResolveHit content
    | None => up
    end
  | _, _ => readResolveMiss
  end.

Section disk.
Context {B : Type} `{BaseFS B}.

Definition Read (s : Layers B) (r : nat) (path : string) : result Vfs.vfs_error bytes * Layers B :=
  match layers s !! r with
  | None => (Err Vfs.ErrFileNotFound, s)
  | Some l =>
    match (if abandoned l then None else lookupLocal l path) with
    | Some content => (Ok content, s)
    | None =>
      match lookupReadCache l path with
      | Some cached => (Ok cached, update r (recordChainRead path) s)
      | None =>
        match readThroughChain (S r) s r path with
        | readResolveHit content => (Ok content, update r (fun l => populateReadCache path content (recordChainRead path l)) s)
        | readResolveShadowed => (Err Vfs.ErrFileNotFound, update r (recordChainRead path) s)
        | readResolveMiss =>
          if diskBase l then
            match ReadFile (disk s) path with
            | Ok raw => (Ok raw, update r (fun l => populateReadCache path raw (recordChainRead path l)) s)
            | Err Vfs.ErrFileNotFound => (Err Vfs.ErrFileNotFound, update r (recordChainRead path) s)
            | Err e => (Err e, s)
            end
          else (Err Vfs.ErrFileNotFound, s)
        end
      end
    end
  end.

Definition Exists (s : Layers B) (r : nat) (path : string) : result Vfs.vfs_error bool :=
  match layers s !! r with
  | None => Ok false
  | Some l =>
    match readThroughChain (S r) s r path with
    | readResolveHit _ => Ok true
    | readResolveShadowed => Ok false
    | readResolveMiss => if diskBase l then BaseExists (disk s) path else Ok false
    end
  end.

Fixpoint Stat (fuel : nat) (s : Layers B) (r : nat) (path : string) (now : Z) : result Vfs.vfs_error FileInfo :=
  match fuel, layers s !! r with
  | S fuel, Some l =>
    if abandoned l then
      match parent l with
      | Some p => Stat fuel s p path now
      | None => if diskBase l then BaseStat (disk s) path else Err Vfs.ErrFileNotFound
      end
    else if bool_decide (path ∈ deletes l) then Err Vfs.ErrFileNotFound
    else match (match parent l with Some p => Stat fuel s p path now | None => Err Vfs.ErrFileNotFound end) with
      | Ok info => Ok info
      | Err _ =>
        match (if diskBase l then BaseStat (disk s) path else Err Vfs.ErrFileNotFound) with
        | Ok info => Ok info
        | Err _ =>
          match writes l !! path with
          | Some content => Ok (mkInfo path (len content) now)
          | None => Err Vfs.ErrFileNotFound
          end
        end
      end
  | _, _ => Err Vfs.ErrFileNotFound
  end.

(** What the listing of the disk adds, if there is one and it succeeds. *)
Definition listed (on : bool) (d : B) (dir : string) : gset string :=
  if on then match BaseListDir d dir with Ok entries => list_to_set entries | Err _ => ∅ end else ∅.

Fixpoint collectListDir (fuel : nat) (s : Layers B) (r : nat) (dir : string) (visible : gset string) : gset string :=
  match fuel, layers s !! r with
  | S fuel, Some l =>
    if abandoned l then
      match parent l with
      | Some p => collectListDir fuel s p dir visible
      | None => visible ∪ listed (diskBase l) (disk s) dir
      end
    else
      let visible := visible ∪ filter (fun path => pathInDir path dir = true /\ path ∉ deletes l) (dom (writes l)) in
      let inherited := (match parent l with Some p => collectListDir fuel s p dir ∅ | None => ∅ end) ∪ listed (diskBase l) (disk s) dir in
      visible ∪ (inherited ∖ deletes l)
  | _, _ => visible
  end.

Definition ListDir (s : Layers B) (r : nat) (dir : string) : result Vfs.vfs_error (list string) :=
  match layers s !! r with
  | None => Err Vfs.ErrFileNotFound
  | Some _ => Ok (sort_strings (elements (collectListDir (S r) s r dir ∅)))
  end.

(* ------------------------------------------------------------------ *)
(** ** Changes *)

Context {W : Type} `{ControlLog W}.

Definition state : Type := (Layers B * option W)%type.

(** The tests of [Write] and [Delete] before the log is written. *)
Definition refused (l : ReplicaVFS) (path : string) : option replica_error :=
  if isSealed l then Some ErrReplicaVFSSealed
  else if abandoned l then Some ErrReplicaVFSAbandoned
  else if bool_decide (path = "") then Some EmptyPath
  else None.

(** The log of the session, if the overlay has it. *)
Definition replica_append (l : ReplicaVFS) (w : option W) (kind : ControlEntryKind) (payload : ControlEntryPayload)
  : result ControlWal.control_wal_error unit * option W := if hasWal l then walAppend w kind payload else (Ok tt, w).

(** The part of [Write] before it takes the lock. *)
Definition log_write (t : state) (r : nat) (writerID path : string) (content : bytes) : option replica_error * state :=
  match layers t.1 !! r with
  | None => (Some ErrReplicaVFSConfig, t)
  | Some l =>
    match refused l path with
    | Some e => (Some e, t)
    | None =>
      match replica_append l t.2 ControlKindReplicaOverlayWrite (overlayPayload (mergedVersion l) (replicaID l) path content writerID) with
      | (Err e, w) => (Some (WalFailed e), (t.1, w))
      | (Ok _, w) => (None, (t.1, w))
      end
    end
  end.

Definition Write (t : state) (r : nat) (writerID path : string) (content : bytes) : option replica_error * state :=
  match log_write t r writerID path content with
  | (Some e, t) => (Some e, t)
  | (None, t) => (None, (update r (apply_write path content) t.1, t.2))
  end.

Definition Delete (t : state) (r : nat) (writerID path : string) : option replica_error * state :=
  match layers t.1 !! r with
  | None => (Some ErrReplicaVFSConfig, t)
  | Some l =>
    match refused l path with
    | Some e => (Some e, t)
    | None =>
      match replica_append l t.2 ControlKindReplicaOverlayDelete (overlayPayload (mergedVersion l) (replicaID l) path [] writerID) with
      | (Err e, w) => (Some (WalFailed e), (t.1, w))
      | (Ok _, w) => (None, (update r (apply_delete path) t.1, w))
      end
    end
  end.

Definition terminalPayload (l : ReplicaVFS) : ControlEntryPayload := overlayPayload (mergedVersion l) (replicaID l) "" [] "".

Definition Seal (t : state) (r : nat) (now : Z) : result replica_error ReplicaVFSDiff * state :=
  match layers t.1 !! r with
  | None => (Err ErrReplicaVFSConfig, t)
  | Some l =>
    if abandoned l then (Err ErrReplicaVFSAbandoned, t)
    else match (if isSealed l then sealedDiff l else None) with
    | Some diff => (Ok diff, t)
    | None =>
      let diff := diff_of l in
      match replica_append l t.2 ControlKindReplicaOverlaySealed (terminalPayload l) with
      | (Err e, w) => (Err (WalFailed e), (t.1, w))
      | (Ok _, w) => (Ok diff, (update r (set_sealed (Some diff) now) t.1, w))
      end
    end
  end.

Definition Abandon (t : state) (r : nat) : option replica_error * state :=
  match layers t.1 !! r with
  | None => (Some ErrReplicaVFSConfig, t)
  | Some l =>
    if abandoned l then (None, t)
    else match replica_append l t.2 ControlKindReplicaOverlayAbandoned (terminalPayload l) with
    | (Err e, w) => (Some (WalFailed e), (t.1, w))
    | (Ok _, w) => (None, (update r (fun l => invalidateReadCache (set_abandoned l)) t.1, w))
    end
  end.
End disk.
End ReplicaVfs.

(** * The overlays a session tracks (core/versioning/session_vfs.go) *)

Module AuditSession.
Import ReplicaVfs.

Inductive audit_error := SessionClosed | Replica (e : replica_error).

(** [replicaVFSByVersion] and the log of merges.  The session has a disk and,
    unless it lives in memory only, a control log. *)
Record Audits {B : Type} := mkAudits {
  store : Layers B; replicaVFSByVersion : gmap SemanticVersion nat; merges : list MergeDescriptor; closed : bool }.
Arguments Audits : clear implicits.

Section session.
Context {B : Type} `{BaseFS B}.

Definition NewAudits (d : B) (ms : list MergeDescriptor) : Audits B := mkAudits B (mkLayers B [] d) ∅ ms false.

Definition set_store (st : Layers B) (s : Audits B) : Audits B := mkAudits B st (replicaVFSByVersion s) (merges s) (closed s).
Definition set_tracked (m : gmap SemanticVersion nat) (s : Audits B) : Audits B := mkAudits B (store s) m (merges s) (closed s).

(** The loop from the last merge to the first. *)
Fixpoint parentLoop (s : Audits B) (ver : SemanticVersion) (descs : list MergeDescriptor) : option nat :=
  match descs with
  | [] => None
  | d :: descs =>
    if 0 <=? Compare (MergedVersion d) ver then parentLoop s ver descs
    else match replicaVFSByVersion s !! MergedVersion d with
    | Some r =>
      match layers (store s) !! r with
      | Some l => if abandoned l then parentLoop s ver descs else Some r
      | None => parentLoop s ver descs
      end
    | None => parentLoop s ver descs
    end
  end.
Definition auditParent (s : Audits B) (ver : SemanticVersion) : option nat := parentLoop s ver (reverse (merges s)).

(** A new overlay, which the session tracks. *)
Definition track (ver : SemanticVersion) (id : string) (log : bool) (s : Audits B) : result audit_error nat * Audits B :=
  match NewReplicaVFS ver id (auditParent s ver) true log with
  | Err e => (Err (Replica e), s)
  | Ok l =>
    let r := length (layers (store s)) in
    (Ok r, mkAudits B (mkLayers B (layers (store s) ++ [l]) (disk (store s))) (<[ver := r]> (replicaVFSByVersion s)) (merges s) (closed s))
  end.

Definition BeginAuditReplicaVFS (s : Audits B) (ver : SemanticVersion) (id : string) : result audit_error nat * Audits B :=
  if closed s then (Err SessionClosed, s)
  else match replicaVFSByVersion s !! ver with
  | Some r => (Ok r, s)
  | None => track ver id true s
  end.

Definition LookupAuditReplicaVFS (s : Audits B) (ver : SemanticVersion) : option nat := replicaVFSByVersion s !! ver.
Definition ReleaseAuditReplicaVFS (s : Audits B) (ver : SemanticVersion) : Audits B := set_tracked (delete ver (replicaVFSByVersion s)) s.

(** An overlay that is created by a replay has no log. *)
Definition applyOverlayControlEntryLocked (e : ControlEntry) (s : Audits B) : result audit_error (Audits B) :=
  let p := CPayload e in
  let ver := PReplicaMergeVersion p in
  match (match replicaVFSByVersion s !! ver with Some r => (Ok r, s) | None => track ver (PReplicaID p) false s end) with
  | (Err x, _) => Err x
  | (Ok r, s) => Ok (set_store (ReplicaVfs.update r (ApplyControlEntry e) (store s)) s)
  end.

Context {W : Type} `{ControlLog W}.

Definition astate : Type := (Audits B * option W)%type.

(** A call on an overlay. *)
Definition on_store {A} (f : ReplicaVfs.state (B := B) (W := W) -> A * ReplicaVfs.state (B := B) (W := W)) (t : astate) : A * astate :=
  let '(a, (st, w)) := f (store t.1, t.2) in (a, (set_store st t.1, w)).

(** The versions that are tracked, which then are not, and their overlays. *)
Fixpoint takeReleased (released : list SemanticVersion) (m : gmap SemanticVersion nat) : list nat * gmap SemanticVersion nat :=
  match released with
  | [] => ([], m)
  | ver :: released =>
    match m !! ver with
    | Some r => let '(rs, m) := takeReleased released (delete ver m) in (r :: rs, m)
    | None => takeReleased released m
    end
  end.

(** The second loop; errors are logged only. *)
Definition abandonReleased (t : astate) (r : nat) : astate :=
  match layers (store t.1) !! r with
  | Some l => if isSealed l || abandoned l then t else (on_store (fun st => Abandon st r) t).2
  | None => t
  end.

(** What is archived of the overlays is not modelled. *)
Definition releaseAuditReplicaVFSBatch (t : astate) (released : list SemanticVersion) : astate :=
  let '(rs, m) := takeReleased released (replicaVFSByVersion t.1) in
  foldl abandonReleased (set_tracked m t.1, t.2) rs.

(* ------------------------------------------------------------------ *)
(** ** Calls *)

(** [AMerged]: a merge is recorded.  [ADisk]: the resolver wrote the disk. *)
Inductive aop :=
| ABegin (ver : SemanticVersion) (id : string)
| ARead (r : nat) (path : string)
| AWrite (r : nat) (writerID path : string) (content : bytes)
| ADelete (r : nat) (writerID path : string)
| ASeal (r : nat) (now : Z)
| AAbandon (r : nat)
| ARelease (ver : SemanticVersion)
| AReleased (released : list SemanticVersion)
| AMerged (d : MergeDescriptor)
| ADisk (d : B)
| AClose.

Definition perform (t : astate) (o : aop) : astate :=
  match o with
  | ABegin ver id => ((BeginAuditReplicaVFS t.1 ver id).2, t.2)
  | ARead r path => (set_store (Read (store t.1) r path).2 t.1, t.2)
  | AWrite r writerID path content => (on_store (fun st => Write st r writerID path content) t).2
  | ADelete r writerID path => (on_store (fun st => Delete st r writerID path) t).2
  | ASeal r now => (on_store (fun st => Seal st r now) t).2
  | AAbandon r => (on_store (fun st => Abandon st r) t).2
  | ARelease ver => (ReleaseAuditReplicaVFS t.1 ver, t.2)
  | AReleased released => releaseAuditReplicaVFSBatch t released
  | AMerged d => (mkAudits B (store t.1) (replicaVFSByVersion t.1) (merges t.1 ++ [d]) (closed t.1), t.2)
  | ADisk d => (set_store (mkLayers B (layers (store t.1)) d) t.1, t.2)
  | AClose => (mkAudits B (store t.1) (replicaVFSByVersion t.1) (merges t.1) true, t.2)
  end.

Definition performs (t : astate) (ops : list aop) : astate := foldl perform t ops.
End session.
End AuditSession.
