(* ===== verification/ReplicaVfsProof.v ===== *)
(** * What the overlays of audits promise (core/versioning/replica_vfs.go, session_vfs.go)

    An overlay shows the disk with the changes of the overlays behind it and
    its own, in order; what was read is kept, and is right as long as nothing
    behind changes it; a sealed overlay stays as it was sealed; and a replay
    of the log gives every overlay its content back. *)

From S2P Require Import Prelude GoStd Semantic ControlEntryProof ControlWal ControlLog CommitQueue.
From S2P Require Vfs.
From S2P Require Export ReplicaVfs.
Import Semantic ControlEntry ReplicaVfs AuditSession.

Module ReplicaVfsProof.

Section disk.
Context {B : Type} `{BaseFS B}.

(* ------------------------------------------------------------------ *)
(** ** What an overlay shows *)

(** The indices of an overlay and of those behind it. *)
Fixpoint ancestry_from (fuel : nat) (s : Layers B) (r : nat) : list nat :=
  match fuel, layers s !! r with
  | S fuel, Some l => r :: match parent l with Some p => ancestry_from fuel s p | None => [] end
  | _, _ => []
  end.
Definition ancestry (s : Layers B) (r : nat) : list nat := ancestry_from (S r) s r.

(** What an overlay makes of what is seen of a path behind it. *)
Definition act (path : string) (l : ReplicaVFS) (below : result Vfs.vfs_error bytes) : result Vfs.vfs_error bytes :=
  if abandoned l then below
  else if bool_decide (path ∈ deletes l) then Err Vfs.ErrFileNotFound
  else match writes l !! path with Some content => Ok content | None => below end.

(** The disk, changed by the overlays from the one that is farthest behind. *)
Definition view (s : Layers B) (r : nat) (path : string) : result Vfs.vfs_error bytes :=
  foldr (act path) (ReadFile (disk s) path) (omap (M := list) (fun i => layers s !! i) (ancestry s r)).

Definition layers_wf (s : Layers B) : Prop :=
  forall r l, layers s !! r = Some l -> diskBase l = true /\ forall p, parent l = Some p -> (p < r)%nat.

Lemma ancestry_fuel (s : Layers B) : layers_wf s -> forall n m r, (r < n)%nat -> (r < m)%nat -> ancestry_from n s r = ancestry_from m s r.
Proof.
  intros Wf n. induction n as [|n IH]; intros m r Ln Lm; [lia|]. destruct m as [|m]; [lia|]. cbn [ancestry_from].
  destruct (layers s !! r) as [l|] eqn:E; [|done]. destruct (parent l) as [p|] eqn:P; [|done]. f_equal.
  destruct (Wf r l E) as [_ K]. specialize (K p P). apply IH; lia.
Qed.

Lemma ancestry_eq (s : Layers B) r l : layers_wf s -> layers s !! r = Some l ->
  ancestry s r = r :: match parent l with Some p => ancestry s p | None => [] end.
Proof.
  intros Wf E. unfold ancestry at 1. cbn [ancestry_from]. rewrite E. destruct (parent l) as [p|] eqn:P; [|done]. f_equal.
  destruct (Wf r l E) as [_ K]. specialize (K p P). apply ancestry_fuel; [done|lia|lia].
Qed.

Lemma ancestry_le (s : Layers B) : layers_wf s -> forall n r j, j ∈ ancestry_from n s r -> (j <= r)%nat.
Proof.
  intros Wf n. induction n as [|n IH]; intros r j I; [by apply elem_of_nil in I|]. cbn [ancestry_from] in I.
  destruct (layers s !! r) as [l|] eqn:E; [|by apply elem_of_nil in I]. apply elem_of_cons in I as [->|I]; [done|].
  destruct (parent l) as [p|] eqn:P; [|by apply elem_of_nil in I]. destruct (Wf r l E) as [_ K]. specialize (K p P).
  specialize (IH p j I). lia.
Qed.

Lemma overlay_view_eq (s : Layers B) r l path : layers_wf s -> layers s !! r = Some l ->
  view s r path = act path l (match parent l with Some p => view s p path | None => ReadFile (disk s) path end).
Proof. intros Wf E. unfold view. rewrite (ancestry_eq s r l Wf E). cbn [omap list_omap]. rewrite E. cbn [foldr]. by destruct (parent l). Qed.

(** The walk finds what is seen, or nothing before the disk. *)
Lemma walk_view (s : Layers B) path : layers_wf s -> forall n r l, (r < n)%nat -> layers s !! r = Some l ->
  view s r path = match readThroughChain n s r path with
    | readResolveHit c => Ok c | readResolveShadowed => Err Vfs.ErrFileNotFound | readResolveMiss => ReadFile (disk s) path end.
Proof.
  intros Wf n. induction n as [|n IH]; intros r l Ln E; [lia|]. rewrite (overlay_view_eq s r l path Wf E). cbn [readThroughChain]. rewrite E.
  assert (U : match parent l with Some p => view s p path | None => ReadFile (disk s) path end =
    match (match parent l with Some p => readThroughChain n s p path | None => readResolveMiss end) with
    | readResolveHit c => Ok c | readResolveShadowed => Err Vfs.ErrFileNotFound | readResolveMiss => ReadFile (disk s) path end).
  { destruct (parent l) as [p|] eqn:P; [|done]. destruct (Wf r l E) as [_ K]. specialize (K p P).
    assert (exists l', layers s !! p = Some l') as [l' E'] by (apply lookup_lt_is_Some; apply lookup_lt_Some in E; lia).
    apply (IH p l'); [lia|done]. }
  rewrite U. unfold act. destruct (abandoned l); [done|]. case_bool_decide; [done|]. by destruct (writes l !! path).
Qed.

(* ------------------------------------------------------------------ *)
(** ** Changes of an overlay *)

Lemma layers_update (s : Layers B) r f j : layers (update r f s) !! j = (if decide (j = r) then f <$> layers s !! j else layers s !! j).
Proof. unfold update. cbn [layers]. rewrite list_lookup_alter. repeat case_decide; congruence. Qed.

Lemma update_wf (s : Layers B) r f : (forall l, parent (f l) = parent l /\ diskBase (f l) = diskBase l) -> layers_wf s -> layers_wf (update r f s).
Proof.
  intros K Wf j l E. rewrite layers_update in E. case_decide as D; [|by apply (Wf j)].
  apply fmap_Some in E as (l0 & E & ->). destruct (K l0) as [-> ->]. by apply (Wf j).
Qed.

Lemma update_ancestry (s : Layers B) r f : (forall l, parent (f l) = parent l) -> forall n j, ancestry_from n (update r f s) j = ancestry_from n s j.
Proof.
  intros K n. induction n as [|n IH]; intros j; [done|]. cbn [ancestry_from]. rewrite layers_update. case_decide as D.
  - destruct (layers s !! j) as [l|]; [|done]. cbn. rewrite K. f_equal. destruct (parent l); [apply IH|done].
  - destruct (layers s !! j) as [l|]; [|done]. f_equal. destruct (parent l); [apply IH|done].
Qed.

(** A change of an overlay that does not touch a path, or that is not behind. *)
Lemma update_view (s : Layers B) r f path j : (forall l, parent (f l) = parent l) ->
  (r ∈ ancestry s j -> forall l below, layers s !! r = Some l -> act path (f l) below = act path l below) ->
  view (update r f s) j path = view s j path.
Proof.
  intros K A. unfold view, ancestry in *. rewrite update_ancestry by done. cbn [disk update].
  revert A. generalize (ancestry_from (S j) s j) as idx. intros idx A. induction idx as [|i idx IH]; [done|]. cbn [omap list_omap].
  rewrite layers_update. case_decide as D.
  - subst i. destruct (layers s !! r) as [l|] eqn:E; cbn; [|apply IH; intros I; apply A; by right].
    rewrite (A ltac:(by left) l _ eq_refl). f_equal. apply IH. intros I. apply A. by right.
  - destruct (layers s !! i) as [l|]; cbn; [f_equal|]; apply IH; intros I; apply A; by right.
Qed.

Lemma act_set_reads (c : gmap string bytes) (q : gset string) path l below : act path (set_reads c q l) below = act path l below.
Proof. done. Qed.
Lemma act_other path l below w d o c : w !! path = writes l !! path -> (path ∈ d <-> path ∈ deletes l) ->
  act path (set_overlay w d o c l) below = act path l below.
Proof. intros W D. unfold act. cbn. rewrite W. destruct (abandoned l); [done|]. by rewrite (bool_decide_ext _ _ D). Qed.

(* ------------------------------------------------------------------ *)
(** ** What the calls do, one after the other *)

Context {W : Type} `{ControlLog W}.

#[local] Abbreviation state := (ReplicaVfs.state (B := B) (W := W)).

Inductive move : state -> state -> Prop :=
| move_record s w r path : move (s, w) (update r (recordChainRead path) s, w)
| move_cache s w r path c : view s r path = Ok c ->
    move (s, w) (update r (fun l => populateReadCache path c (recordChainRead path l)) s, w)
| move_failed s w r l k p e w' : layers s !! r = Some l -> replica_append l w k p = (Err e, w') -> move (s, w) (s, w')
| move_write s w r l writer path c w' : layers s !! r = Some l -> refused l path = None ->
    replica_append l w ControlKindReplicaOverlayWrite (overlayPayload (mergedVersion l) (replicaID l) path c writer) = (Ok tt, w') ->
    move (s, w) (update r (apply_write path c) s, w')
| move_delete s w r l writer path w' : layers s !! r = Some l -> refused l path = None ->
    replica_append l w ControlKindReplicaOverlayDelete (overlayPayload (mergedVersion l) (replicaID l) path [] writer) = (Ok tt, w') ->
    move (s, w) (update r (apply_delete path) s, w')
| move_seal s w r l now w' : layers s !! r = Some l -> abandoned l = false -> (isSealed l = true -> sealedDiff l = None) ->
    replica_append l w ControlKindReplicaOverlaySealed (terminalPayload l) = (Ok tt, w') ->
    move (s, w) (update r (set_sealed (Some (diff_of l)) now) s, w')
| move_abandon s w r l w' : layers s !! r = Some l -> abandoned l = false ->
    replica_append l w ControlKindReplicaOverlayAbandoned (terminalPayload l) = (Ok tt, w') ->
    move (s, w) (update r (fun l => invalidateReadCache (set_abandoned l)) s, w')
| move_new s w l ver id par : NewReplicaVFS ver id par true true = Ok l -> (forall p, par = Some p -> (p < length (layers s))%nat) ->
    move (s, w) (mkLayers B (layers s ++ [l]) (disk s), w)
| move_disk s w d : move (s, w) (mkLayers B (layers s) d, w).

Lemma NewReplicaVFS_eq ver id par disk log l : NewReplicaVFS ver id par disk log = Ok l ->
  l = mkReplicaVFS ver id par disk log ∅ ∅ ∅ ∅ ∅ false false None 0 /\ id <> "".
Proof.
  unfold NewReplicaVFS. destruct (_ && _); [done|]. case_bool_decide; [done|]. by intros [= <-].
Qed.

Lemma reads_keep path c l : exists cache reads, populateReadCache path c (recordChainRead path l) = set_reads cache reads l.
Proof.
  unfold populateReadCache, recordChainRead. case_bool_decide; destruct (isSealed _ || abandoned _); cbn; eauto.
  exists (readCache l), (chainReads l). by destruct l.
Qed.
Lemma record_keeps path l : exists reads, recordChainRead path l = set_reads (readCache l) reads l.
Proof. unfold recordChainRead. case_bool_decide; [|by eexists]. exists (chainReads l). by destruct l. Qed.

Lemma move_wf t t' : move t t' -> layers_wf t.1 -> layers_wf t'.1.
Proof.
  intros M Wf. destruct M; cbn [fst] in *; try done; try (apply update_wf; [|done]; intros l0; try done).
  - by destruct (record_keeps path l0) as [reads ->].
  - by destruct (reads_keep path c l0) as (cache & reads & ->).
  - apply NewReplicaVFS_eq in H1 as [-> _]. intros r l E. apply lookup_app_Some in E as [E|[Lr E]]; [by apply (Wf r)|]. cbn [layers] in *.
    apply list_lookup_singleton_Some in E as [Er <-]. split; [done|]. cbn. intros p P. specialize (H2 p P). lia.
Qed.

Lemma Read_move (s : Layers B) (w : option W) r path : layers_wf s -> rtc move (s, w) ((Read s r path).2, w).
Proof.
  intros Wf. unfold Read. destruct (layers s !! r) as [l|] eqn:E; [|done]. destruct (if abandoned l then None else lookupLocal l path); [done|].
  destruct (lookupReadCache l path); [apply rtc_once, move_record|]. pose proof (walk_view s path Wf (S r) r l ltac:(lia) E) as V.
  destruct (readThroughChain (S r) s r path) as [|c|].
  - destruct (diskBase l); [|done]. destruct (ReadFile (disk s) path) as [c|[]]; try done; apply rtc_once; [by apply move_cache|apply move_record].
  - by apply rtc_once, move_cache.
  - apply rtc_once, move_record.
Qed.

Lemma Write_move (t : state) r writer path c : rtc move t (Write t r writer path c).2.
Proof.
  destruct t as [s w]. unfold Write, log_write. cbn [fst snd]. destruct (layers s !! r) as [l|] eqn:E; [|done].
  destruct (refused l path) eqn:R; [done|]. destruct (replica_append l w _ _) as [[[]|e] w'] eqn:A; cbn; apply rtc_once.
  - by eapply move_write.
  - by eapply move_failed.
Qed.
Lemma Delete_move (t : state) r writer path : rtc move t (Delete t r writer path).2.
Proof.
  destruct t as [s w]. unfold Delete. cbn [fst snd]. destruct (layers s !! r) as [l|] eqn:E; [|done].
  destruct (refused l path) eqn:R; [done|]. destruct (replica_append l w _ _) as [[[]|e] w'] eqn:A; cbn; apply rtc_once.
  - by eapply move_delete.
  - by eapply move_failed.
Qed.
Lemma Seal_move (t : state) r now : rtc move t (Seal t r now).2.
Proof.
  destruct t as [s w]. unfold Seal. cbn [fst snd]. destruct (layers s !! r) as [l|] eqn:E; [|done]. destruct (abandoned l) eqn:Ab; [done|].
  destruct (if isSealed l then sealedDiff l else None) eqn:D; [done|].
  destruct (replica_append l w _ _) as [[[]|e] w'] eqn:A; cbn; apply rtc_once; [|by eapply move_failed].
  eapply move_seal; try done. intros Se. by rewrite Se in D.
Qed.
Lemma Abandon_move (t : state) r : rtc move t (Abandon t r).2.
Proof.
  destruct t as [s w]. unfold Abandon. cbn [fst snd]. destruct (layers s !! r) as [l|] eqn:E; [|done]. destruct (abandoned l) eqn:Ab; [done|].
  destruct (replica_append l w _ _) as [[[]|e] w'] eqn:A; cbn; apply rtc_once; [by eapply move_abandon|by eapply move_failed].
Qed.

(** What the session tracks are overlays. *)
Definition tracked_ok (s : Audits B) : Prop := forall ver r, replicaVFSByVersion s !! ver = Some r -> (r < length (layers (store s)))%nat.

Lemma parentLoop_bound (s : Audits B) ver ds r : tracked_ok s -> parentLoop s ver ds = Some r -> (r < length (layers (store s)))%nat.
Proof.
  intros T. induction ds as [|d ds IH]; [done|]. cbn [parentLoop]. destruct (0 <=? _); [done|].
  destruct (replicaVFSByVersion s !! MergedVersion d) as [r'|] eqn:E; [|done]. destruct (layers (store s) !! r') as [l|]; [|done].
  destruct (abandoned l); [done|]. intros [= <-]. by eapply T.
Qed.

Lemma Begin_move (s : Audits B) (w : option W) ver id : tracked_ok s ->
  rtc move (store s, w) (store (BeginAuditReplicaVFS s ver id).2, w) /\ tracked_ok (BeginAuditReplicaVFS s ver id).2.
Proof.
  intros T. unfold BeginAuditReplicaVFS. destruct (closed s); [done|]. destruct (replicaVFSByVersion s !! ver); [done|].
  unfold track. destruct (NewReplicaVFS ver id (auditParent s ver) true true) as [l|e] eqn:E; [|done]. cbn. split.
  - apply rtc_once. eapply move_new; [exact E|]. intros p P. by apply (parentLoop_bound s ver (reverse (merges s)) p T).
  - intros v r. cbn. rewrite length_app. intros [[_ <-]|[_ V]]%lookup_insert_Some; [cbn; lia|]. specialize (T v r V). cbn. lia.
Qed.

Lemma moves_length (t t' : state) : rtc move t t' -> (length (layers t.1) <= length (layers t'.1))%nat.
Proof.
  induction 1 as [|t u t' M _ IH]; [done|]. etransitivity; [|exact IH]. destruct M; cbn; rewrite ?length_alter, ?length_app; lia.
Qed.

Lemma tracked_after (s : Audits B) st : tracked_ok s -> (length (layers (store s)) <= length (layers st))%nat -> tracked_ok (set_store st s).
Proof. intros T L v r V. cbn in *. specialize (T v r V). lia. Qed.

Lemma on_store_eq {A} (f : state -> A * state) (t : astate (B := B) (W := W)) :
  on_store f t = ((f (store t.1, t.2)).1, (set_store (f (store t.1, t.2)).2.1 t.1, (f (store t.1, t.2)).2.2)).
Proof. unfold on_store. by destruct (f (store t.1, t.2)) as [a [st w]]. Qed.

(** The overlays and the log of a session. *)
Definition under (t : astate (B := B) (W := W)) : state := (store t.1, t.2).

Lemma on_store_move {A} (f : state -> A * state) (t : astate (B := B) (W := W)) : (forall u, rtc move u (f u).2) -> tracked_ok t.1 ->
  rtc move (under t) (under (on_store f t).2) /\ tracked_ok (on_store f t).2.1 /\
  replicaVFSByVersion (on_store f t).2.1 = replicaVFSByVersion t.1.
Proof.
  intros K T. rewrite on_store_eq. cbn. specialize (K (under t)). unfold under in *. destruct (f (store t.1, t.2)) as [a [st w]]. cbn in *.
  split; [done|]. split; [|done]. apply tracked_after; [done|]. apply (moves_length _ _ K).
Qed.

Lemma abandonReleased_move (t : astate (B := B) (W := W)) rs : tracked_ok t.1 ->
  rtc move (under t) (under (foldl abandonReleased t rs)) /\ tracked_ok (foldl abandonReleased t rs).1.
Proof.
  revert t. induction rs as [|r rs IH]; intros t T; [done|]. cbn [foldl]. unfold abandonReleased at 2 4.
  destruct (layers (store t.1) !! r) as [l|]; [|by apply IH]. destruct (isSealed l || abandoned l); [by apply IH|].
  destruct (on_store_move (fun st => Abandon st r) t (fun u => Abandon_move u r) T) as (M & T' & _). destruct (IH _ T') as [M2 T2].
  split; [by etransitivity|done].
Qed.

Lemma takeReleased_sub vs m : forall ver r, (takeReleased vs m).2 !! ver = Some r -> m !! ver = Some r.
Proof.
  revert m. induction vs as [|v vs IH]; intros m ver r E; [done|]. cbn [takeReleased] in E. destruct (m !! v); [|by apply IH].
  destruct (takeReleased vs (delete v m)) as [rs m'] eqn:T. cbn [snd] in E. specialize (IH (delete v m) ver r). rewrite T in IH.
  by apply IH, lookup_delete_Some in E as [_ E].
Qed.

Lemma perform_moves (t : astate (B := B) (W := W)) o : layers_wf (store t.1) -> tracked_ok t.1 ->
  rtc move (under t) (under (perform t o)) /\ tracked_ok (perform t o).1.
Proof.
  intros Wf T. unfold under. destruct o; cbn [perform].
  - by apply Begin_move.
  - pose proof (Read_move (store t.1) t.2 r path Wf) as M. split; [exact M|]. apply tracked_after; [done|]. apply (moves_length _ _ M).
  - destruct (on_store_move (fun st => Write st r writerID path content) t) as (M & T' & _); [intros; apply Write_move|done|done].
  - destruct (on_store_move (fun st => Delete st r writerID path) t) as (M & T' & _); [intros; apply Delete_move|done|done].
  - destruct (on_store_move (fun st => Seal st r now) t) as (M & T' & _); [intros; apply Seal_move|done|done].
  - destruct (on_store_move (fun st => Abandon st r) t) as (M & T' & _); [intros; apply Abandon_move|done|done].
  - split; [done|]. intros v r. cbn. intros [_ V]%lookup_delete_Some. by eapply T.
  - unfold releaseAuditReplicaVFSBatch. destruct (takeReleased released (replicaVFSByVersion t.1)) as [rs m] eqn:E.
    apply (abandonReleased_move (set_tracked m t.1, t.2) rs). intros v r. cbn. intros V. apply (T v r), (takeReleased_sub released). by rewrite E.
  - done.
  - split; [apply rtc_once, move_disk|]. done.
  - done.
Qed.

Lemma moves_wf (t t' : state) : rtc move t t' -> layers_wf t.1 -> layers_wf t'.1.
Proof. induction 1; [done|]. intros Wf. by apply IHrtc, (move_wf x y). Qed.

(** What holds of the overlays whatever is done, holds after any calls. *)
Lemma performs_moves (t : astate (B := B) (W := W)) ops : layers_wf (store t.1) -> tracked_ok t.1 ->
  rtc move (under t) (under (performs t ops)) /\ tracked_ok (performs t ops).1.
Proof.
  revert t. induction ops as [|o ops IH]; intros t Wf T; [done|]. cbn [performs foldl]. destruct (perform_moves t o Wf T) as [M T'].
  destruct (IH (perform t o)) as [M2 T2]; [apply (moves_wf _ _ M Wf)|done|]. split; [by etransitivity|done].
Qed.

(* ------------------------------------------------------------------ *)
(** ** One overlay, whatever is done *)

Record overlay_ok (l : ReplicaVFS) : Prop := {
  o_owned : owned l = dom (writes l) ∪ deletes l;
  o_sealed : sealedDiff l = if isSealed l then Some (diff_of l) else None
}.
Definition all_ok (s : Layers B) : Prop := forall r l, layers s !! r = Some l -> overlay_ok l.

Lemma update_ok (s : Layers B) r f : (forall l, layers s !! r = Some l -> overlay_ok l -> overlay_ok (f l)) -> all_ok s -> all_ok (update r f s).
Proof.
  intros K A j l E. rewrite layers_update in E. case_decide as D; [|by apply (A j)]. subst j.
  apply fmap_Some in E as (l0 & E & ->). apply K; [done|by apply (A r)].
Qed.

Lemma refused_None l path : refused l path = None -> isSealed l = false /\ abandoned l = false /\ path <> "".
Proof. unfold refused. destruct (isSealed l), (abandoned l); try done. by case_bool_decide. Qed.

Lemma write_ok path c l : isSealed l = false -> overlay_ok l -> overlay_ok (apply_write path c l).
Proof.
  intros N [O S]. split; cbn; [|by rewrite N in *]. rewrite O, dom_insert_L. apply set_eq. intros q.
  rewrite !elem_of_union, !elem_of_difference, !elem_of_singleton. destruct (decide (q = path)); tauto.
Qed.
Lemma overlay_delete_ok path l : isSealed l = false -> overlay_ok l -> overlay_ok (apply_delete path l).
Proof.
  intros N [O S]. split; cbn; [|by rewrite N in *]. rewrite O, dom_delete_L. apply set_eq. intros q.
  rewrite !elem_of_union, !elem_of_difference, !elem_of_singleton. destruct (decide (q = path)); tauto.
Qed.

Lemma overlay_move_ok t t' : move t t' -> all_ok t.1 -> all_ok t'.1.
Proof.
  intros M A. destruct M; cbn [fst] in *; try done; try (apply update_ok; [|done]; intros l0 E0 Ok0).
  - destruct (record_keeps path l0) as [reads ->]. by destruct Ok0.
  - destruct (reads_keep path c l0) as (cache & reads & ->). by destruct Ok0.
  - rewrite H1 in E0. injection E0 as <-. apply write_ok; [|done]. by apply (refused_None l path).
  - rewrite H1 in E0. injection E0 as <-. apply overlay_delete_ok; [|done]. by apply (refused_None l path).
  - rewrite H1 in E0. injection E0 as <-. destruct Ok0. by split.
  - by destruct Ok0.
  - apply NewReplicaVFS_eq in H1 as [-> _]. intros r l E. apply lookup_app_Some in E as [E|[Lr E]]; [by apply (A r)|].
    apply list_lookup_singleton_Some in E as [_ <-]. split; cbn; [set_solver|done].
Qed.

(** Once it is sealed, the content of an overlay does not change. *)
Definition frozen (l l' : ReplicaVFS) : Prop :=
  mergedVersion l' = mergedVersion l /\ writes l' = writes l /\ deletes l' = deletes l /\ isSealed l' = true /\ sealedDiff l' = sealedDiff l /\
  (abandoned l = true -> abandoned l' = true).

Lemma move_frozen t t' r l : move t t' -> all_ok t.1 -> layers t.1 !! r = Some l -> isSealed l = true ->
  exists l', layers t'.1 !! r = Some l' /\ frozen l l'.
Proof.
  intros M A E Se. assert (Id : frozen l l) by done.
  assert (Up : forall (s : Layers B) i f, layers s !! r = Some l -> (i = r -> frozen l (f l)) -> exists l', layers (update i f s) !! r = Some l' /\ frozen l l').
  { intros s i f Es K. rewrite layers_update. case_decide as D; [|by exists l]. rewrite Es. exists (f l). split; [done|]. by apply K. }
  destruct M; cbn [fst] in *; try (by exists l); try (apply Up; [done|]; intros ->; try (rewrite E in H1; injection H1 as <-)).
  - by destruct (record_keeps path l) as [reads ->].
  - by destruct (reads_keep path c l) as (cache & reads & ->).
  - apply refused_None in H2 as [N _]. congruence.
  - apply refused_None in H2 as [N _]. congruence.
  - destruct (A r l E) as [_ S]. rewrite Se, (H3 Se) in S. done.
  - done.
  - exists l. split; [|done]. cbn. by apply lookup_app_l_Some.
Qed.

Lemma moves_frozen (t t' : state) r l : rtc move t t' -> all_ok t.1 -> layers t.1 !! r = Some l -> isSealed l = true ->
  exists l', layers t'.1 !! r = Some l' /\ frozen l l'.
Proof.
  intros M. revert l. induction M as [|t u t' M _ IH]; intros l A E Se; [by exists l|].
  destruct (move_frozen t u r l M A E Se) as (l1 & E1 & V1 & W1 & D1 & S1 & F1 & A1). destruct (IH l1 (overlay_move_ok _ _ M A) E1 S1) as (l2 & E2 & V2 & W2 & D2 & S2 & F2 & A2).
  exists l2. split; [done|]. unfold frozen. split; [congruence|]. split; [congruence|]. split; [congruence|]. split; [done|]. split; [congruence|auto].
Qed.

Lemma moves_ok (t t' : state) : rtc move t t' -> all_ok t.1 -> all_ok t'.1.
Proof. induction 1; [done|]. intros A. by apply IHrtc, (overlay_move_ok x y). Qed.

Lemma overlay_new_ok (d : B) : layers_wf (mkLayers B [] d) /\ all_ok (mkLayers B [] d) /\ forall ms, tracked_ok (NewAudits d ms).
Proof. split; [by intros r l E|]. split; [by intros r l E|]. intros ms v r. cbn. by rewrite lookup_empty. Qed.

(* ------------------------------------------------------------------ *)
(** ** What was read *)

(** What an overlay keeps of earlier reads is what it shows. *)
Definition coherent (s : Layers B) : Prop :=
  forall r l path c, layers s !! r = Some l -> readCache l !! path = Some c -> view s r path = Ok c.

(** No overlay in front of [r] keeps one of the paths. *)
Definition unread (s : Layers B) (r : nat) (P : string -> Prop) : Prop :=
  forall j l path, j <> r -> r ∈ ancestry s j -> layers s !! j = Some l -> P path -> readCache l !! path = None.

Lemma coherent_update (s : Layers B) r f (P : string -> Prop) `{forall p, Decision (P p)} : (forall l, parent (f l) = parent l) ->
  (forall l path below, layers s !! r = Some l -> ~ P path -> act path (f l) below = act path l below) -> unread s r P ->
  (forall l path c, layers s !! r = Some l -> readCache (f l) !! path = Some c -> ~ P path /\ view s r path = Ok c) ->
  coherent s -> coherent (update r f s).
Proof.
  intros K A U Cr C j l path c E Ec. rewrite layers_update in E. destruct (decide (j = r)) as [-> |Ne].
  - apply fmap_Some in E as (l0 & E & ->). destruct (Cr l0 path c E Ec) as [N V]. rewrite <- V. apply update_view; [done|].
    intros _ l below E1. by apply A.
  - rewrite <- (C j l path c E Ec). apply update_view; [done|]. intros I l0 below E1. apply A; [done|]. intros Pp.
    by rewrite (U j l path Ne I E Pp) in Ec.
Qed.

Lemma coherent_reads (s : Layers B) r f : (forall l, exists c q, f l = set_reads c q l) ->
  (forall l path c, layers s !! r = Some l -> readCache (f l) !! path = Some c -> view s r path = Ok c) -> coherent s -> coherent (update r f s).
Proof.
  intros K Cr. apply (coherent_update s r f (fun _ => False)).
  - intros l. by destruct (K l) as (c & q & ->).
  - intros l path below E _. by destruct (K l) as (c & q & ->).
  - by intros j l path Ne I E.
  - intros l path c E Ec. split; [tauto|by apply (Cr l)].
Qed.

Lemma view_reads (s : Layers B) r f j path : (forall l, exists c q, f l = set_reads c q l) -> view (update r f s) j path = view s j path.
Proof. intros K. apply update_view; [|intros _ l below _]; [intros l|]; by destruct (K l) as (c & q & ->). Qed.

Lemma coherent_record (s : Layers B) r path : coherent s -> coherent (update r (recordChainRead path) s).
Proof.
  intros C. apply coherent_reads; [|intros l q c E Ec|done].
  - intros l. destruct (record_keeps path l) as [q ->]. by eexists _, _.
  - destruct (record_keeps path l) as [reads K]. rewrite K in Ec. by apply (C r l).
Qed.

Lemma coherent_cache (s : Layers B) r path c : view s r path = Ok c -> coherent s ->
  coherent (update r (fun l => populateReadCache path c (recordChainRead path l)) s).
Proof.
  intros V C. apply coherent_reads; [|intros l q c' E Ec|done].
  - intros l. apply reads_keep.
  - destruct (record_keeps path l) as [reads K]. rewrite K in Ec. unfold populateReadCache in Ec. destruct (_ || _); [by apply (C r l)|].
    cbn [readCache set_reads] in Ec. apply lookup_insert_Some in Ec as [[<- <-]|[_ Ec]]; [done|].
    destruct (readCacheMaxPaths <=? size (readCache l))%nat; [done|]. by apply (C r l).
Qed.

Lemma coherent_change (s : Layers B) r f path : (forall l, parent (f l) = parent l) -> (forall l, readCache (f l) = delete path (readCache l)) ->
  (forall l q below, q <> path -> act q (f l) below = act q l below) -> unread s r (eq path) -> coherent s -> coherent (update r f s).
Proof.
  intros K Kc A U C. apply (coherent_update s r f (eq path)); try done.
  - intros l q below _ N. by apply A.
  - intros l q c E Ec. rewrite Kc in Ec. apply lookup_delete_Some in Ec as [N Ec]. split; [done|]. by apply (C r l).
Qed.

Lemma coherent_write (s : Layers B) r path c : unread s r (eq path) -> coherent s -> coherent (update r (apply_write path c) s).
Proof.
  intros U. apply (coherent_change s r _ path); try done. intros l q below N. apply act_other; [by apply lookup_insert_ne|]. set_solver.
Qed.
Lemma coherent_delete (s : Layers B) r path : unread s r (eq path) -> coherent s -> coherent (update r (apply_delete path) s).
Proof.
  intros U. apply (coherent_change s r _ path); try done. intros l q below N. apply act_other; [by apply lookup_delete_ne|]. set_solver.
Qed.

Lemma act_unowned l path below : overlay_ok l -> path ∉ owned l -> act path l below = below.
Proof.
  intros [O _] N. rewrite O in N. unfold act. destruct (abandoned l); [done|]. rewrite bool_decide_eq_false_2 by set_solver.
  assert (writes l !! path = None) as ->; [|done]. apply not_elem_of_dom. set_solver.
Qed.

Lemma coherent_abandon (s : Layers B) r : all_ok s -> (forall l, layers s !! r = Some l -> unread s r (fun p => p ∈ owned l)) -> coherent s ->
  coherent (update r (fun l => invalidateReadCache (set_abandoned l)) s).
Proof.
  intros A U C. destruct (layers s !! r) as [l|] eqn:E.
  - apply (coherent_update s r _ (fun p => p ∈ owned l)); try done; [|by apply U].
    intros l0 path below E0 N. rewrite E0 in E. injection E as ->. rewrite (act_unowned l) by (done || by apply (A r)). done.
  - intros j l path c E1 Ec. rewrite layers_update in E1. case_decide as D; [subst; by rewrite E in E1|].
    rewrite update_view; [by apply (C j l)|done|]. intros _ l0 below E0. by rewrite E in E0.
Qed.

Lemma app_ancestry (s : Layers B) l d n r : layers_wf s -> (r < length (layers s))%nat ->
  ancestry_from n (mkLayers B (layers s ++ [l]) d) r = ancestry_from n s r.
Proof.
  intros Wf. revert r. induction n as [|n IH]; intros r Lr; [done|]. cbn [ancestry_from layers]. rewrite lookup_app_l by done.
  destruct (layers s !! r) as [l0|] eqn:E; [|done]. f_equal. destruct (parent l0) as [p|] eqn:P; [|done]. destruct (Wf r l0 E) as [_ K].
  specialize (K p P). apply IH. lia.
Qed.

Lemma app_view (s : Layers B) l r path : layers_wf s -> (r < length (layers s))%nat ->
  view (mkLayers B (layers s ++ [l]) (disk s)) r path = view s r path.
Proof.
  intros Wf Lr. unfold view, ancestry. rewrite app_ancestry by done. cbn [disk layers]. f_equal. apply list_omap_ext, Forall_Forall2_diag, Forall_forall.
  intros j I. apply ancestry_le in I; [|done]. apply lookup_app_l. lia.
Qed.

Lemma coherent_new (s : Layers B) l : layers_wf s -> readCache l = ∅ -> coherent s -> coherent (mkLayers B (layers s ++ [l]) (disk s)).
Proof.
  intros Wf N C r l0 path c E Ec. apply lookup_app_Some in E as [E|[_ E]].
  - rewrite app_view; [by apply (C r l0)|done|by apply lookup_lt_Some in E].
  - apply list_lookup_singleton_Some in E as [_ <-]. by rewrite N, lookup_empty in Ec.
Qed.

Lemma disk_view (s : Layers B) d r path : ReadFile d path = ReadFile (disk s) path -> view (mkLayers B (layers s) d) r path = view s r path.
Proof.
  intros E. unfold view. cbn [disk layers]. rewrite E. f_equal. f_equal. unfold ancestry. generalize (S r) as n. intros n. revert r.
  induction n as [|n IH]; intros r; [done|]. cbn [ancestry_from layers]. destruct (layers s !! r) as [l|]; [|done]. f_equal. by destruct (parent l).
Qed.

(** A read gives what is shown, and changes nothing of it. *)
Lemma Read_view (s : Layers B) r l path : layers_wf s -> coherent s -> layers s !! r = Some l ->
  (Read s r path).1 = view s r path /\ coherent (Read s r path).2 /\ forall j q, view (Read s r path).2 j q = view s j q.
Proof.
  intros Wf C E. unfold Read. rewrite E. pose proof (walk_view s path Wf (S r) r l ltac:(lia) E) as V.
  assert (Rec : coherent (update r (recordChainRead path) s) /\ forall j q, view (update r (recordChainRead path) s) j q = view s j q).
  { split; [by apply coherent_record|]. intros j q. apply view_reads. intros l0. destruct (record_keeps path l0) as [reads ->]. by eexists _, _. }
  assert (Cac : forall c, view s r path = Ok c -> let s' := update r (fun l => populateReadCache path c (recordChainRead path l)) s in
    coherent s' /\ forall j q, view s' j q = view s j q).
  { intros c Vc. split; [by apply coherent_cache|]. intros j q. apply view_reads. intros l0. apply reads_keep. }
  destruct (if abandoned l then None else lookupLocal l path) as [c|] eqn:Lo.
  - split; [|done]. rewrite (overlay_view_eq s r l path Wf E). unfold act, lookupLocal in *. destruct (abandoned l); [done|].
    case_bool_decide; [done|]. by rewrite Lo.
  - unfold lookupReadCache. destruct (readCache l !! path) as [c|] eqn:Rc; [split; [by rewrite (C r l path c E Rc)|exact Rec]|].
    destruct (readThroughChain (S r) s r path) as [|c|]; [|by split; [|apply Cac]|by split].
    destruct (Wf r l E) as [-> _]. destruct (ReadFile (disk s) path) as [c|[]]; (split; [by rewrite V|]); try done; by apply Cac.
Qed.

(* ------------------------------------------------------------------ *)
(** ** Calls that leave what was read *)

(** Nothing changes in a path that an overlay in front has read. *)
Definition quiet (s : Audits B) (o : aop (B := B)) : Prop :=
  match o with
  | AWrite r _ path _ | ADelete r _ path => unread (store s) r (eq path)
  | AAbandon r => forall l, layers (store s) !! r = Some l -> unread (store s) r (fun p => p ∈ owned l)
  | AReleased released => forall r l, r ∈ (takeReleased released (replicaVFSByVersion s)).1 -> layers (store s) !! r = Some l ->
      unread (store s) r (fun p => p ∈ owned l)
  | ADisk d => forall r l path c, layers (store s) !! r = Some l -> readCache l !! path = Some c -> ReadFile d path = ReadFile (disk (store s)) path
  | _ => True
  end.

Fixpoint all_quiet (t : astate (B := B) (W := W)) (ops : list aop) : Prop :=
  match ops with
  | [] => True
  | o :: ops => quiet t.1 o /\ all_quiet (perform t o) ops
  end.

Lemma abandon_coherent (t : state) r : all_ok t.1 -> (forall l, layers t.1 !! r = Some l -> unread t.1 r (fun p => p ∈ owned l)) ->
  coherent t.1 -> coherent (Abandon t r).2.1.
Proof.
  intros A U C. unfold Abandon. destruct (layers t.1 !! r) as [l|] eqn:E; [|done]. destruct (abandoned l); [done|].
  destruct (replica_append _ _ _ _) as [[u|e] w]; [|done]. cbn. apply coherent_abandon; [done| |done]. intros l0 E0. rewrite E in E0. by apply U.
Qed.

Lemma abandon_unread (t : state) r r' l P : layers (Abandon t r).2.1 !! r' = Some l -> (forall l, layers t.1 !! r' = Some l -> unread t.1 r' (P l)) ->
  (forall l, P (invalidateReadCache (set_abandoned l)) = P l) -> unread (Abandon t r).2.1 r' (P l).
Proof.
  unfold Abandon. destruct (layers t.1 !! r) as [l0|] eqn:E0; [|by intros E U _; apply U]. destruct (abandoned l0); [by intros E U _; apply U|].
  destruct (replica_append _ _ _ _) as [[u|e] w]; [|by intros E U _; apply U]. cbn [fst snd]. intros E U K j lj path Ne I Ej Pp.
  unfold ancestry in I. rewrite update_ancestry in I by done. rewrite layers_update in E, Ej.
  assert (exists l1, layers t.1 !! r' = Some l1 /\ P l = P l1) as (l1 & E1 & EP).
  { destruct (decide (r' = r)); [|by exists l]. apply fmap_Some in E as (l1 & E & ->). by exists l1. }
  rewrite EP in Pp. destruct (decide (j = r)); [|by apply (U l1 E1 j)]. by apply fmap_Some in Ej as (l2 & Ej & ->).
Qed.

Lemma released_coherent (t : astate (B := B) (W := W)) rs : all_ok (store t.1) ->
  (forall r l, r ∈ rs -> layers (store t.1) !! r = Some l -> unread (store t.1) r (fun p => p ∈ owned l)) ->
  coherent (store t.1) -> coherent (store (foldl abandonReleased t rs).1).
Proof.
  revert t. induction rs as [|r rs IH]; intros t A U C; [done|]. cbn [foldl]. unfold abandonReleased at 2.
  assert (U' : forall r0 l, r0 ∈ rs -> layers (store t.1) !! r0 = Some l -> unread (store t.1) r0 (fun p => p ∈ owned l)) by (intros; apply U; [by right|done]).
  destruct (layers (store t.1) !! r) as [l|] eqn:E; [|by apply IH]. destruct (_ || _); [by apply IH|]. rewrite on_store_eq. cbn [snd].
  apply IH; cbn [fst store set_store].
  - apply (moves_ok (store t.1, t.2)); [apply Abandon_move|done].
  - intros r0 l0 I E0. apply (abandon_unread (store t.1, t.2) r r0 l0 (fun l p => p ∈ owned l)); [done| |done]. intros l1 E1. by apply U'.
  - apply (abandon_coherent (store t.1, t.2)); [done| |done]. intros l1 E1. apply U; [by left|done].
Qed.

(** What is kept between calls. *)
Record audits_ok (s : Audits B) : Prop := {
  a_wf : layers_wf (store s);
  a_tracked : tracked_ok s;
  a_overlays : all_ok (store s)
}.

Lemma new_audits d ms : audits_ok (NewAudits d ms).
Proof. destruct (overlay_new_ok d) as (A & O & T). split; [done|apply T|done]. Qed.

Lemma audits_perform_ok (t : astate (B := B) (W := W)) o : audits_ok t.1 -> audits_ok (perform t o).1.
Proof.
  intros [A T O]. destruct (perform_moves t o A T) as [M T']. split; [apply (moves_wf _ _ M A)|done|apply (moves_ok _ _ M O)].
Qed.
Lemma audits_performs_ok (t : astate (B := B) (W := W)) ops : audits_ok t.1 -> audits_ok (performs t ops).1.
Proof. revert t. induction ops as [|o ops IH]; intros t A; [done|]. by apply IH, audits_perform_ok. Qed.

Lemma Begin_coherent (s : Audits B) ver id : layers_wf (store s) -> coherent (store s) -> coherent (store (BeginAuditReplicaVFS s ver id).2).
Proof.
  intros Wf C. unfold BeginAuditReplicaVFS. destruct (closed s); [done|]. destruct (replicaVFSByVersion s !! ver); [done|]. unfold track.
  destruct (NewReplicaVFS _ _ _ _ _) as [l|e] eqn:E; [|done]. apply NewReplicaVFS_eq in E as [-> _]. by apply coherent_new.
Qed.

Lemma perform_coherent (t : astate (B := B) (W := W)) o : audits_ok t.1 -> quiet t.1 o -> coherent (store t.1) -> coherent (store (perform t o).1).
Proof.
  intros [Wf T A] Qt C. destruct o; cbn [perform quiet] in *; rewrite ?on_store_eq; cbn [fst snd store set_store] in *; try done.
  - by apply Begin_coherent.
  - destruct (layers (store t.1) !! r) as [l|] eqn:E; [by apply (Read_view _ r l)|]. unfold Read. by rewrite E.
  - unfold Write, log_write. cbn [fst snd]. destruct (layers _ !! _); [|done]. destruct (refused _ _); [done|].
    destruct (replica_append _ _ _ _) as [[u|e] w]; [|done]. by apply coherent_write.
  - unfold Delete. cbn [fst snd]. destruct (layers _ !! _); [|done]. destruct (refused _ _); [done|].
    destruct (replica_append _ _ _ _) as [[u|e] w]; [|done]. by apply coherent_delete.
  - unfold Seal. cbn [fst snd]. destruct (layers _ !! _) as [l|] eqn:E; [|done]. destruct (abandoned l); [done|].
    destruct (if isSealed l then sealedDiff l else None); [done|]. destruct (replica_append _ _ _ _) as [[u|e] w]; [|done]. cbn [fst snd].
    apply (coherent_update _ r _ (fun _ => False)); try done; [by intros j l0 path Ne I E1|]. intros l0 path c E0 Ec. split; [tauto|by apply (C r l0)].
  - apply (abandon_coherent (store t.1, t.2)); done.
  - unfold releaseAuditReplicaVFSBatch. destruct (takeReleased released (replicaVFSByVersion t.1)) as [rs m] eqn:E.
    by apply (released_coherent (set_tracked m t.1, t.2)).
  - intros r l path c E Ec. cbn [store set_store layers] in *. rewrite disk_view; [by apply (C r l)|]. by apply (Qt r l path c).
Qed.

Lemma performs_coherent (t : astate (B := B) (W := W)) ops : audits_ok t.1 -> all_quiet t ops -> coherent (store t.1) ->
  coherent (store (performs t ops).1).
Proof.
  revert t. induction ops as [|o ops IH]; intros t A Qt C; [done|]. destruct Qt as [Q1 Q2]. apply (IH (perform t o)); [by apply audits_perform_ok|done|].
  by apply perform_coherent.
Qed.
(* ------------------------------------------------------------------ *)
(** ** What the log has of the overlays *)

Definition overlay_kind (k : ControlEntryKind) : bool :=
  match k with
  | ControlKindReplicaOverlayWrite | ControlKindReplicaOverlayDelete | ControlKindReplicaOverlaySealed | ControlKindReplicaOverlayAbandoned => true
  | _ => false
  end.

(** An entry for the overlay of a version. *)
Definition about (ver : SemanticVersion) (e : ControlEntry) : Prop :=
  overlay_kind (CKind e) = true /\ PReplicaMergeVersion (CPayload e) = ver.
#[export] Instance about_dec ver e : Decision (about ver e).
Proof. unfold about. apply _. Defined.

Definition blank (ver : SemanticVersion) (id : string) : ReplicaVFS := mkReplicaVFS ver id None true false ∅ ∅ ∅ ∅ ∅ false false None 0.

Definition rebuilt (es : list ControlEntry) (ver : SemanticVersion) (id : string) : ReplicaVFS :=
  foldl (fun l e => ApplyControlEntry e l) (blank ver id) (filter (about ver) es).

(** The same merge and the same content; where it stands, what it read and
    when it was sealed apart. *)
Definition same_overlay (l l' : ReplicaVFS) : Prop :=
  mergedVersion l = mergedVersion l' /\ replicaID l = replicaID l' /\ writes l = writes l' /\ deletes l = deletes l' /\ owned l = owned l' /\
  isSealed l = isSealed l' /\ abandoned l = abandoned l'.

#[export] Instance same_overlay_equiv : Equivalence same_overlay.
Proof.
  split; [done|by intros l l' (? & ? & ? & ? & ? & ? & ?)|]. intros a b c (? & ? & ? & ? & ? & ? & ?) (? & ? & ? & ? & ? & ? & ?).
  repeat split; congruence.
Qed.

Lemma apply_same e a b : same_overlay a b -> same_overlay (ApplyControlEntry e a) (ApplyControlEntry e b).
Proof.
  intros (V & I & Wr & D & O & S & Ab). unfold ApplyControlEntry. rewrite I. destruct (negb _); [done|].
  destruct (CKind e); try done; repeat split; cbn; congruence.
Qed.

(** The overlays are what the log [es] gives, and it has nothing else. *)
Record overlays_recorded (s : Layers B) (es : list ControlEntry) : Prop := {
  r_content : forall r l, layers s !! r = Some l ->
    same_overlay (rebuilt es (mergedVersion l) (replicaID l)) l /\ hasWal l = true /\ replicaID l <> "";
  r_source : forall e, e ∈ es -> overlay_kind (CKind e) = true -> exists r l, layers s !! r = Some l /\
    mergedVersion l = PReplicaMergeVersion (CPayload e) /\ replicaID l = PReplicaID (CPayload e)
}.

(** No two overlays are for the same merge. *)
Definition distinct (s : Layers B) : Prop :=
  (forall i j a b, layers s !! i = Some a -> layers s !! j = Some b -> mergedVersion a = mergedVersion b -> i = j) /\
  forall i a, layers s !! i = Some a -> version_wf (mergedVersion a).

Definition same_name (l l' : ReplicaVFS) : Prop := mergedVersion l' = mergedVersion l /\ replicaID l' = replicaID l /\ hasWal l' = hasWal l.

Lemma move_names t t' r l : move t t' -> layers t.1 !! r = Some l -> exists l', layers t'.1 !! r = Some l' /\ same_name l l'.
Proof.
  intros M E. assert (Up : forall (s : Layers B) i f, layers s !! r = Some l -> same_name l (f l) -> exists l', layers (update i f s) !! r = Some l' /\ same_name l l').
  { intros s i f Es K. rewrite layers_update. case_decide as D; [|by exists l]. rewrite Es. by exists (f l). }
  destruct M; cbn [fst] in *; try (by exists l); try (by apply Up).
  - apply Up; [done|]. by destruct (record_keeps path l) as [reads ->].
  - apply Up; [done|]. by destruct (reads_keep path c l) as (cache & reads & ->).
  - exists l. split; [|done]. cbn. by apply lookup_app_l_Some.
Qed.

Lemma move_distinct t t' : move t t' -> distinct t'.1 -> distinct t.1.
Proof.
  intros M [D V]. split.
  - intros i j a b Ea Eb E. destruct (move_names t t' i a M Ea) as (a' & Ea' & Va & _), (move_names t t' j b M Eb) as (b' & Eb' & Vb & _).
    apply (D i j a' b'); [done|done|congruence].
  - intros i a Ea. destruct (move_names t t' i a M Ea) as (a' & Ea' & <- & _). by apply (V i).
Qed.

Lemma recorded_quiet (s : Layers B) r f es : (forall l, same_overlay l (f l) /\ hasWal (f l) = hasWal l) -> overlays_recorded s es ->
  overlays_recorded (update r f s) es.
Proof.
  intros K [Rc Rs]. split.
  - intros j l E. rewrite layers_update in E. case_decide as D; [|by apply (Rc j)]. apply fmap_Some in E as (l0 & E & ->).
    destruct (K l0) as [S ->]. destruct (Rc j l0 E) as (S0 & Wl & Ne). pose proof S as (Vq & Iq & _). rewrite <- Vq, <- Iq. split; [|done]. by etransitivity.
  - intros e I Ok. destruct (Rs e I Ok) as (j & l & E & V & Id). destruct (decide (j = r)) as [-> |Ne].
    + exists r, (f l). rewrite layers_update, decide_True, E by done. destruct (K l) as [(Vq & Iq & _) _]. split; [done|]. split; congruence.
    + exists j, l. by rewrite layers_update, decide_False.
Qed.

(** A change that is logged by [e]. *)
Lemma recorded_change (s : Layers B) r l f es e : distinct s -> layers s !! r = Some l -> about (mergedVersion l) e -> PReplicaID (CPayload e) = replicaID l ->
  (forall c, same_overlay c l -> same_overlay (ApplyControlEntry e c) (f l)) -> hasWal (f l) = hasWal l -> overlays_recorded s es ->
  overlays_recorded (update r f s) (es ++ [e]).
Proof.
  intros [D _] E Ab Id K Wl [Rc Rs]. pose proof (K l ltac:(done)) as (Vf & If & _).
  assert (Vl : mergedVersion (f l) = mergedVersion l /\ replicaID (f l) = replicaID l).
  { rewrite <- Vf, <- If. unfold ApplyControlEntry. destruct (negb _); [done|]. by destruct (CKind e). }
  destruct Vl as [Vl Il]. split.
  - intros j l0 E0. rewrite layers_update in E0. unfold rebuilt. rewrite filter_app, foldl_app. case_decide as Dj.
    + subst j. rewrite E in E0. injection E0 as <-. destruct (Rc r l E) as (S & Wl0 & Ne). rewrite Vl, Il, Wl. rewrite (filter_cons_True _ e []) by done. cbn.
      split; [|done]. by apply K.
    + destruct (Rc j l0 E0) as (S & Wl0 & Ne). rewrite (filter_cons_False _ e []); [cbn; done|]. intros [_ Ve]. destruct Ab as [_ Ve'].
      apply Dj, (D j r l0 l); [done|done|congruence].
  - intros e0 [I| ->%list_elem_of_singleton]%elem_of_app Ok.
    + destruct (Rs e0 I Ok) as (j & l0 & E0 & V0 & I0). destruct (decide (j = r)) as [-> |Ne].
      * exists r, (f l). rewrite layers_update, decide_True, E by done. rewrite E in E0. injection E0 as <-. split; [done|]. split; congruence.
      * exists j, l0. by rewrite layers_update, decide_False.
    + exists r, (f l). rewrite layers_update, decide_True, E by done. destruct Ab as [_ Ve]. split; [done|]. split; congruence.
Qed.

Lemma overlays_recorded_new (s : Layers B) l ver id par es : NewReplicaVFS ver id par true true = Ok l -> distinct (mkLayers B (layers s ++ [l]) (disk s)) ->
  overlays_recorded s es -> overlays_recorded (mkLayers B (layers s ++ [l]) (disk s)) es.
Proof.
  intros E [D _] [Rc Rs]. apply NewReplicaVFS_eq in E as [-> Ne]. split.
  - intros j l0 E0. apply lookup_app_Some in E0 as [E0|[Lj E0]]; [by apply (Rc j)|]. apply list_lookup_singleton_Some in E0 as [Ej <-]. cbn.
    split; [|done]. unfold rebuilt. assert (filter (about ver) es = []) as ->; [|done].
    apply elem_of_nil_inv. intros e [[Ok V] I]%list_elem_of_filter. destruct (Rs e I Ok) as (i & l & El & Vl & _).
    assert (i = length (layers s)) as ->; [|by rewrite lookup_ge_None_2 in El].
    eapply (D i (length (layers s))); [cbn; by apply lookup_app_l_Some|cbn; by rewrite list_lookup_middle|cbn; congruence].
  - intros e I Ok. destruct (Rs e I Ok) as (i & l & El & Vl & Il). exists i, l. split; [|done]. cbn. by apply lookup_app_l_Some.
Qed.

(** Other entries of the log are not about overlays. *)
Lemma recorded_skip (s : Layers B) es e : overlay_kind (CKind e) = false -> overlays_recorded s es -> overlays_recorded s (es ++ [e]).
Proof.
  intros K [Rc Rs]. split.
  - intros r l E. destruct (Rc r l E) as (S & R). split; [|done]. unfold rebuilt. rewrite filter_app, filter_cons_False, app_nil_r; [done|].
    intros [Ok _]. congruence.
  - intros e0 [I| ->%list_elem_of_singleton]%elem_of_app Ok; [by apply Rs|congruence].
Qed.

(** The entry of an overlay is read back as it was written. *)
Lemma overlay_payload_wf ver id path c writer : version_wf ver -> payload_wf (overlayPayload ver id path c writer).
Proof. intros V. split; cbn; try done; split; done. Qed.
End disk.

(* ------------------------------------------------------------------ *)
(** ** The log after a call *)

Section logs.
Context {B : Type} `{BaseFS B} {W : Type} `{Lw : ControlLogLaws W}.

(** [w'] is the log after some calls: what is added to it is of the overlays,
    which are recorded in it. *)
Definition log_grows (s s' : Layers B) (w w' : W) : Prop :=
  (log_small w' -> log_small w) /\
  (log_small w' -> distinct s' -> log_sound w -> overlays_recorded s (logged w) ->
   log_sound w' /\ overlays_recorded s' (logged w') /\ exists new, logged w' = logged w ++ new /\ Forall (fun e => overlay_kind (CKind e) = true) new).

Lemma append_grows (s : Layers B) r l f w k p w' : layers s !! r = Some l -> overlay_kind k = true -> written k p = p ->
  (version_wf (mergedVersion l) -> payload_wf p) -> PReplicaMergeVersion p = mergedVersion l -> PReplicaID p = replicaID l ->
  (forall seq t c, same_overlay c l -> same_overlay (ApplyControlEntry (mkControlEntry seq k t p) c) (f l)) -> hasWal (f l) = hasWal l ->
  move (B := B) (s, Some w) (update r f s, Some w') -> log_append w k p = (Ok tt, w') -> log_grows s (update r f s) w w'.
Proof.
  intros E Ov Wr Pw Pv Pi K Wl M A. split; [by apply (append_small w k p (Ok tt))|]. intros Sm D S R.
  pose proof (move_distinct _ _ M D) as D0. cbn [fst] in D0. assert (Kn : known k) by (by destruct k).
  destruct (append_taken w k p w' S Kn (Pw (proj2 D0 r l E)) A Sm) as (S' & seq & t & _ & El). split; [done|]. rewrite El, Wr. split.
  - apply (recorded_change s r l); try done. intros c. apply K.
  - eexists. split; [done|]. by repeat constructor.
Qed.

Lemma failed_grows (s : Layers B) w k p e w' : log_append w k p = (Err e, w') -> log_grows s s w w'.
Proof.
  intros A. split; [by apply (append_small w k p (Err e))|]. intros Sm D S R. destruct (append_refused w k p e w' S A) as [S' E].
  split; [done|]. rewrite E. split; [done|]. exists []. by rewrite app_nil_r.
Qed.

Lemma silent_grows (s s' : Layers B) w : (distinct s' -> overlays_recorded s (logged w) -> overlays_recorded s' (logged w)) -> log_grows s s' w w.
Proof. intros K. split; [done|]. intros Sm D S R. split; [done|]. split; [by apply K|]. exists []. by rewrite app_nil_r. Qed.

Lemma grows_trans (s1 s2 s3 : Layers B) w1 w2 w3 : (distinct s3 -> distinct s2) -> log_grows s1 s2 w1 w2 -> log_grows s2 s3 w2 w3 -> log_grows s1 s3 w1 w3.
Proof.
  intros D [Sm1 G1] [Sm2 G2]. split; [by auto|]. intros Sm D3 S R. destruct (G1 (Sm2 Sm) (D D3) S R) as (S2 & R2 & new & E & F).
  destruct (G2 Sm D3 S2 R2) as (S3 & R3 & new' & E' & F'). split; [done|]. split; [done|]. exists (new ++ new'). rewrite E', E, app_assoc.
  split; [done|]. by apply Forall_app.
Qed.

(** The append of an overlay: to the log, or, without one, nowhere. *)
Lemma replica_append_eq (l : ReplicaVFS) (w : W) k p r w' : replica_append l (Some w) k p = (r, w') ->
  (exists w1, hasWal l = true /\ w' = Some w1 /\ log_append w k p = (r, w1)) \/ hasWal l = false /\ w' = Some w /\ r = Ok tt.
Proof.
  unfold replica_append. destruct (hasWal l); [rewrite walAppend_Some|]; intros [= <- <-]; [left|by right].
  eexists. split; [done|]. split; [done|]. apply surjective_pairing.
Qed.

Lemma change_grows (s : Layers B) r l f (w : W) k p w' : layers s !! r = Some l -> replica_append l (Some w) k p = (Ok tt, w') ->
  move (B := B) (s, Some w) (update r f s, w') -> overlay_kind k = true -> written k p = p ->
  (version_wf (mergedVersion l) -> payload_wf p) -> PReplicaMergeVersion p = mergedVersion l -> PReplicaID p = replicaID l ->
  (forall seq t c, same_overlay c l -> same_overlay (ApplyControlEntry (mkControlEntry seq k t p) c) (f l)) -> hasWal (f l) = hasWal l ->
  exists w1, w' = Some w1 /\ log_grows s (update r f s) w w1.
Proof.
  intros E A M Ov Wr Pw Pv Pi K Wl. destruct (replica_append_eq l w k p (Ok tt) w' A) as [(w1 & Hw & -> & Al)|(Hw & -> & _)]; eexists; (split; [done|]).
  - by eapply append_grows.
  - apply silent_grows. intros D R. destruct (r_content _ _ R r l E) as (_ & Hw' & _). congruence.
Qed.

Lemma apply_entry seq k t p (c l : ReplicaVFS) : PReplicaID p = replicaID l -> same_overlay c l ->
  same_overlay (ApplyControlEntry (mkControlEntry seq k t p) c)
    (match k with
     | ControlKindReplicaOverlayWrite => apply_write (POverlayPath p) (POverlayContent p) l
     | ControlKindReplicaOverlayDelete => apply_delete (POverlayPath p) l
     | ControlKindReplicaOverlaySealed => set_sealed (sealedDiff l) t l
     | ControlKindReplicaOverlayAbandoned => set_abandoned l
     | _ => l
     end).
Proof.
  intros I (Vq & Iq & Wq & Dq & Oq & Sq & Aq). unfold ApplyControlEntry. cbn [CPayload CKind CTimestamp]. rewrite bool_decide_eq_true_2 by congruence. cbn [negb].
  destruct k; repeat split; cbn; congruence.
Qed.

Lemma move_grows (s : Layers B) (w : W) t' : move (s, Some w) t' -> exists w', t'.2 = Some w' /\ log_grows s t'.1 w w'.
Proof.
  intros M. inversion M; subst; cbn [fst snd];
    try match goal with E : layers s !! ?r = Some ?l, A : replica_append ?l _ _ _ = (Ok tt, ?w') |- _ =>
      refine (change_grows s r l _ w _ _ w' E A M eq_refl eq_refl (overlay_payload_wf _ _ _ _ _) eq_refl eq_refl _ eq_refl) end.
  - eexists. split; [done|]. apply silent_grows. intros _. apply recorded_quiet. intros l. by destruct (record_keeps path l) as [reads ->].
  - eexists. split; [done|]. apply silent_grows. intros _. apply recorded_quiet. intros l. by destruct (reads_keep path c l) as (cache & reads & ->).
  - destruct (replica_append_eq l w k p (Err e) w') as [(w1 & Hw & -> & A)|(_ & _ & [=])]; [done|]. eexists. split; [done|]. by eapply failed_grows.
  - intros seq t c0. by apply (apply_entry seq ControlKindReplicaOverlayWrite t).
  - intros seq t c0. by apply (apply_entry seq ControlKindReplicaOverlayDelete t).
  - intros seq t c0 S.
    etransitivity; [by apply (apply_entry seq ControlKindReplicaOverlaySealed t _ c0 l)|done].
  - intros seq t c0 S.
    etransitivity; [by apply (apply_entry seq ControlKindReplicaOverlayAbandoned t _ c0 l)|done].
  - eexists. split; [done|]. apply silent_grows. intros D. by apply (overlays_recorded_new s l ver id par).
  - eexists. split; [done|]. by apply silent_grows; intros _ [Rc Rs]; split.
Qed.

Lemma moves_grow t t' (w : W) : rtc move t t' -> t.2 = Some w -> (forall u u', move (B := B) (W := W) u u' -> distinct u'.1 -> distinct u.1) ->
  exists w', t'.2 = Some w' /\ (distinct t'.1 -> distinct t.1) /\ log_grows t.1 t'.1 w w'.
Proof.
  intros M. revert w. induction M as [[s wal]|[s wal] [s1 wal1] t' M1 M IH]; intros w E D; cbn [fst snd] in *.
  - exists w. split; [done|]. split; [done|]. by apply silent_grows.
  - subst wal. destruct (move_grows s w _ M1) as (w1 & E1 & G1). cbn [fst snd] in *. destruct (IH w1 E1 D) as (w' & E' & D' & G').
    exists w'. split; [done|]. split; [intros Dt; apply (D _ _ M1); by apply D'|]. by eapply grows_trans.
Qed.

(** No merge is given a second overlay after its first was released. *)
Definition begun_once (s : Audits B) (o : aop (B := B)) : Prop :=
  match o with
  | ABegin ver _ => version_wf ver /\ (is_Some (replicaVFSByVersion s !! ver) \/ ver ∉ mergedVersion <$> layers (store s))
  | _ => True
  end.

Lemma moves_names (t t' : ReplicaVfs.state (B := B) (W := W)) : rtc move t t' -> forall r l, layers t.1 !! r = Some l ->
  exists l', layers t'.1 !! r = Some l' /\ same_name l l'.
Proof.
  induction 1 as [t|t u t' M _ IH]; intros r l E; [by exists l|]. destruct (move_names t u r l M E) as (l1 & E1 & V1 & I1 & W1).
  destruct (IH r l1 E1) as (l2 & E2 & V2 & I2 & W2). exists l2. split; [done|]. unfold same_name. split; [congruence|]. split; congruence.
Qed.

Lemma store_length {A} (f : ReplicaVfs.state (B := B) (W := W) -> A * ReplicaVfs.state) (t : astate) :
  (forall u, length (layers (f u).2.1) = length (layers u.1)) -> length (layers (store (on_store f t).2.1)) = length (layers (store t.1)).
Proof. intros K. rewrite on_store_eq. apply (K (store t.1, t.2)). Qed.

Lemma released_length (t : astate (B := B) (W := W)) rs : length (layers (store (foldl abandonReleased t rs).1)) = length (layers (store t.1)).
Proof.
  revert t. induction rs as [|r rs IH]; intros t; [done|]. cbn [foldl]. rewrite IH. unfold abandonReleased.
  destruct (layers (store t.1) !! r) as [l|]; [|done]. destruct (_ || _); [done|]. apply store_length. intros u. unfold Abandon.
  repeat case_match; try done. cbn. by rewrite length_alter.
Qed.

(** Only a new overlay makes more of them. *)
Lemma perform_length (t : astate (B := B) (W := W)) o : (match o with ABegin _ _ => False | _ => True end) ->
  length (layers (store (perform t o).1)) = length (layers (store t.1)).
Proof.
  destruct o; cbn [perform]; intros N; try done;
    try (apply store_length; intros u; unfold Write, log_write, Delete, Seal, Abandon; repeat case_match; simplify_eq; cbn; by rewrite ?length_alter).
  - cbn. unfold Read. repeat case_match; cbn; by rewrite ?length_alter.
  - unfold releaseAuditReplicaVFSBatch. destruct (takeReleased _ _) as [rs m]. apply (released_length (set_tracked m t.1, t.2)).
Qed.

Lemma perform_distinct (t : astate (B := B) (W := W)) o : audits_ok t.1 -> begun_once t.1 o -> distinct (store t.1) -> distinct (store (perform t o).1).
Proof.
  intros [Wf T A] Bo [D V]. destruct (decide (length (layers (store (perform t o).1)) = length (layers (store t.1)))) as [Ln|Ln].
  - destruct (perform_moves t o Wf T) as [M _].
    assert (K : forall r l', layers (store (perform t o).1) !! r = Some l' -> exists l, layers (store t.1) !! r = Some l /\ mergedVersion l' = mergedVersion l).
    { intros r l' E. assert (exists l, layers (store t.1) !! r = Some l) as [l El] by (apply lookup_lt_is_Some; rewrite <- Ln; by eapply lookup_lt_Some).
      exists l. split; [done|]. destruct (moves_names _ _ M r l El) as (l2 & E2 & V2 & _). cbn [under fst] in E2. rewrite E in E2. by injection E2 as <-. }
    split.
    + intros i j a b Ea Eb E. destruct (K i a Ea) as (a' & Ea' & Va), (K j b Eb) as (b' & Eb' & Vb). apply (D i j a' b'); [done|done|congruence].
    + intros i a Ea. destruct (K i a Ea) as (a' & Ea' & ->). by apply (V i).
  - destruct o; try (by destruct Ln; apply perform_length). destruct Bo as [Vw Bo]. cbn [perform fst] in *. unfold BeginAuditReplicaVFS in *.
    destruct (closed t.1); [done|]. destruct (replicaVFSByVersion t.1 !! ver) eqn:Tr; [done|]. unfold track in *.
    destruct (NewReplicaVFS _ _ _ _ _) as [l|e] eqn:E; [|done]. apply NewReplicaVFS_eq in E as [-> _]. cbn [fst snd store layers].
    destruct Bo as [[x [=]]|Bo].
    assert (N : forall r l, layers (store t.1) !! r = Some l -> mergedVersion l <> ver).
    { intros r l E Ve. apply Bo. rewrite <- Ve. apply list_elem_of_fmap. exists l. split; [done|]. by eapply list_elem_of_lookup_2. }
    split.
    + intros i j a b [Ea|[Li Ea]]%lookup_app_Some [Eb|[Lj Eb]]%lookup_app_Some E; [by apply (D i j a b)|..];
        try (apply list_lookup_singleton_Some in Ea as [Ei <-]); try (apply list_lookup_singleton_Some in Eb as [Ej <-]); cbn in E.
      * by apply N in Ea.
      * by apply N in Eb.
      * lia.
    + intros i a [Ea|[Li Ea]]%lookup_app_Some; [by apply (V i)|]. by apply list_lookup_singleton_Some in Ea as [_ <-].
Qed.

(** A call and the log. *)
Lemma perform_grows (s : Audits B) (w : W) o : audits_ok s -> begun_once s o -> distinct (store s) ->
  exists s' w', perform (s, Some w) o = (s', Some w') /\ audits_ok s' /\ distinct (store s') /\ log_grows (store s) (store s') w w'.
Proof.
  intros A Bo D. destruct A as [Wf T Al]. destruct (perform_moves (s, Some w) o Wf T) as [M T'].
  destruct (moves_grow _ _ w M eq_refl (fun u u' => move_distinct u u')) as (w' & E & _ & G).
  pose proof (audits_perform_ok (s, Some w) o ltac:(done)) as A'. pose proof (perform_distinct (s, Some w) o ltac:(done) Bo D) as D'.
  destruct (perform (s, Some w) o) as [s' wal']. cbn [under fst snd] in *. subst wal'. by exists s', w'.
Qed.

(* ------------------------------------------------------------------ *)
(** ** The replay *)

(** What a replay of [es] has made, from a session without overlays. *)
Record replayed (s : Audits B) (es : list ControlEntry) : Prop := {
  p_tracked : forall ver r, replicaVFSByVersion s !! ver = Some r -> exists l e, layers (store s) !! r = Some l /\ mergedVersion l = ver /\
    hasWal l = false /\ same_overlay (rebuilt es ver (replicaID l)) l /\ e ∈ es /\ about ver e /\ PReplicaID (CPayload e) = replicaID l;
  p_none : forall ver, replicaVFSByVersion s !! ver = None -> filter (about ver) es = []
}.

Lemma new_replayed (d : B) ms : replayed (NewAudits d ms) [].
Proof. split; [intros ver r; cbn; by rewrite lookup_empty|done]. Qed.

Lemma rebuilt_snoc es e ver id : rebuilt (es ++ [e]) ver id = if decide (about ver e) then ApplyControlEntry e (rebuilt es ver id) else rebuilt es ver id.
Proof. unfold rebuilt. rewrite filter_app, foldl_app. rewrite filter_cons. by case_decide. Qed.

Lemma replayed_skip s es e : overlay_kind (CKind e) = false -> replayed s es -> replayed s (es ++ [e]).
Proof.
  intros K [Tr No]. assert (N : forall ver, ~ about ver e) by (intros ver [Ok _]; congruence). split.
  - intros ver r E. destruct (Tr ver r E) as (l & e0 & El & Vl & Wl & S & Ie & R). exists l, e0. rewrite rebuilt_snoc, decide_False by done.
    repeat (split; [done|]). split; [apply elem_of_app; by left|done].
  - intros ver E. by rewrite filter_app, (No ver E), filter_cons_False.
Qed.

Lemma apply_known e l : mergedVersion (ApplyControlEntry e l) = mergedVersion l /\ replicaID (ApplyControlEntry e l) = replicaID l /\
  hasWal (ApplyControlEntry e l) = hasWal l.
Proof. unfold ApplyControlEntry. destruct (negb _); [done|]. by destruct (CKind e). Qed.

(** An entry that is applied to the overlay of its merge. *)
Lemma replayed_apply (s : Audits B) es e ver r : replayed s es -> about ver e -> replicaVFSByVersion s !! ver = Some r ->
  replayed (set_store (update r (ApplyControlEntry e) (store s)) s) (es ++ [e]).
Proof.
  intros [Tr No] Ab E. split.
  - intros ver' r' E'. cbn [replicaVFSByVersion store set_store] in *. destruct (Tr ver' r' E') as (l & e0 & El & Vl & Wl & S & Ie & A0 & I0).
    rewrite layers_update, El. destruct (decide (ver' = ver)) as [-> |Nv].
    + rewrite E in E'. injection E' as <-. rewrite decide_True by done. destruct (apply_known e l) as (Va & Ia & Wa). exists (ApplyControlEntry e l), e0.
      rewrite Va, Ia, Wa, rebuilt_snoc, decide_True by done. repeat (split; [done|]). split; [by apply apply_same|]. split; [apply elem_of_app; by left|done].
    + assert (r' <> r). { intros ->. destruct (Tr ver r E) as (l2 & e2 & El2 & Vl2 & _). rewrite El in El2. injection El2 as <-. congruence. }
      rewrite decide_False by done. exists l, e0. rewrite rebuilt_snoc, decide_False by (intros [_ V]; destruct Ab as [_ V2]; congruence).
      repeat (split; [done|]). split; [apply elem_of_app; by left|done].
  - intros ver' E'. cbn [replicaVFSByVersion set_store] in E'. rewrite filter_app, (No ver' E'), filter_cons_False; [done|].
    intros [_ V]. destruct Ab as [_ V2]. congruence.
Qed.

(** The first entry of a merge. *)
Lemma replayed_first (s : Audits B) es e ver par : replayed s es -> about ver e -> replicaVFSByVersion s !! ver = None ->
  replayed (mkAudits B (mkLayers B (alter (ApplyControlEntry e) (length (layers (store s)))
      (layers (store s) ++ [mkReplicaVFS ver (PReplicaID (CPayload e)) par true false ∅ ∅ ∅ ∅ ∅ false false None 0])) (disk (store s)))
    (<[ver := length (layers (store s))]> (replicaVFSByVersion s)) (merges s) (closed s)) (es ++ [e]).
Proof.
  intros [Tr No] Ab E. set (l0 := mkReplicaVFS ver _ par true false ∅ ∅ ∅ ∅ ∅ false false None 0). destruct (apply_known e l0) as (Va & Ia & Wa). split.
  - intros ver' r'. cbn [replicaVFSByVersion store layers]. rewrite list_lookup_alter. intros [[<- <-]|[Nv E']]%lookup_insert_Some.
    + rewrite decide_True, list_lookup_middle by done. exists (ApplyControlEntry e l0), e. split; [done|]. rewrite Va, Ia, Wa, rebuilt_snoc, decide_True by done.
      unfold rebuilt. rewrite (No ver E). split; [done|]. split; [done|]. split; [by apply apply_same|]. split; [apply elem_of_app; right; by left|done].
    + destruct (Tr ver' r' E') as (l & e0 & El & Vl & Wl & S & Ie & R). pose proof (lookup_lt_Some _ _ _ El). rewrite decide_False by lia.
      exists l, e0. rewrite lookup_app_l by done. rewrite rebuilt_snoc, decide_False by (intros [_ V]; destruct Ab as [_ V2]; congruence).
      repeat (split; [done|]). split; [apply elem_of_app; by left|done].
  - intros ver'. cbn [replicaVFSByVersion]. intros [E' Nv]%lookup_insert_None. rewrite filter_app, (No ver' E'), filter_cons_False; [done|].
    intros [_ V]. destruct Ab as [_ V2]. congruence.
Qed.

Lemma replayed_step (s : Audits B) es e : replayed s es -> overlay_kind (CKind e) = true -> PReplicaID (CPayload e) <> "" ->
  exists s', applyOverlayControlEntryLocked e s = Ok s' /\ replayed s' (es ++ [e]).
Proof.
  intros R K Ne. unfold applyOverlayControlEntryLocked. destruct (replicaVFSByVersion s !! PReplicaMergeVersion (CPayload e)) as [r|] eqn:E.
  - eexists. split; [done|]. by eapply replayed_apply.
  - unfold track, NewReplicaVFS. rewrite andb_false_r, bool_decide_eq_false_2 by done. eexists. split; [done|]. by apply (replayed_first s es e (PReplicaMergeVersion (CPayload e)) (auditParent s (PReplicaMergeVersion (CPayload e)))).
Qed.

Lemma apply_merges e (s s' : Audits B) : applyOverlayControlEntryLocked e s = Ok s' -> merges s' = merges s.
Proof. unfold applyOverlayControlEntryLocked, track. intros E. repeat (case_match; simplify_eq); done. Qed.

(** The overlay of a merge after a replay: the one it had; or none, if there
    was nothing in it. *)
Definition overlay_back (s' : Audits B) (l : ReplicaVFS) : Prop :=
  match replicaVFSByVersion s' !! mergedVersion l with
  | None => same_overlay (blank (mergedVersion l) (replicaID l)) l
  | Some r => exists l', layers (store s') !! r = Some l' /\ same_overlay l' l /\ hasWal l' = false
  end.

Lemma overlays_back (s : Layers B) s' es r l : distinct s -> overlays_recorded s es -> replayed s' es -> layers s !! r = Some l -> overlay_back s' l.
Proof.
  intros [D _] [Rc Rs] [Tr No] E. destruct (Rc r l E) as (S & _). unfold overlay_back.
  destruct (replicaVFSByVersion s' !! mergedVersion l) as [r'|] eqn:T.
  - destruct (Tr _ _ T) as (l' & e & El & Vl & Wl & S' & Ie & [Ok Ve] & Ide). exists l'. split; [done|]. split; [|done].
    destruct (Rs e Ie Ok) as (j & l2 & E2 & V2 & I2). assert (j = r) as -> by (apply (D j r l2 l); [done|done|congruence]).
    rewrite E in E2. injection E2 as <-. etransitivity; [symmetry; exact S'|]. rewrite <- Ide, <- I2. exact S.
  - unfold rebuilt in S. by rewrite (No _ T) in S.
Qed.
End logs.

(* ------------------------------------------------------------------ *)
(** ** Claims *)

(** C11: as long as no call changes a path that an overlay in front has read,
    reading gives the disk with the changes of the overlays that were not
    abandoned, the nearest last; and no read changes what any overlay shows. *)
Theorem overlay_reads_chain {B} `{BaseFS B} {W} `{ControlLog W} (d : B) ms (w : option W) ops r path :
  all_quiet (NewAudits d ms, w) ops ->
  let s := store (performs (NewAudits d ms, w) ops).1 in
  (r < length (layers s))%nat ->
  (Read s r path).1 = view s r path /\ forall j q, view (Read s r path).2 j q = view s j q.
Proof.
  intros Qt s Lr. pose proof (audits_performs_ok (NewAudits d ms, w) ops (new_audits d ms)) as [Wf _ _].
  pose proof (performs_coherent (NewAudits d ms, w) ops (new_audits d ms) Qt ltac:(by intros i l p c E)) as C.
  apply lookup_lt_is_Some in Lr as [l E]. destruct (Read_view s r l path Wf C E) as (R & _ & V). done.
Qed.

(** What [Seal] answers is the content of the overlay for good: whatever
    is called afterwards, writes and deletions are refused and change nothing,
    and sealing again gives the same, unless the overlay was abandoned. *)
Theorem sealed_for_good {B} `{BaseFS B} {W} `{ControlLog W} (d : B) ms (w : option W) ops r now diff t' :
  Seal (store (performs (NewAudits d ms, w) ops).1, (performs (NewAudits d ms, w) ops).2) r now = (Ok diff, t') ->
  forall later, let t2 := performs (set_store t'.1 (performs (NewAudits d ms, w) ops).1, t'.2) later in
  exists l, layers (store t2.1) !! r = Some l /\ diff_of l = diff /\
    (forall writer path c, Write (store t2.1, t2.2) r writer path c = (Some ErrReplicaVFSSealed, (store t2.1, t2.2))) /\
    (forall writer path, Delete (store t2.1, t2.2) r writer path = (Some ErrReplicaVFSSealed, (store t2.1, t2.2))) /\
    Seal (store t2.1, t2.2) r now = ((if abandoned l then Err ErrReplicaVFSAbandoned else Ok diff), (store t2.1, t2.2)).
Proof.
  set (t := performs (NewAudits d ms, w) ops). intros Se later t2. pose proof (audits_performs_ok (NewAudits d ms, w) ops (new_audits d ms)) as [Wf T A]. fold t in Wf, T, A.
  pose proof (Seal_move (store t.1, t.2) r now) as M. rewrite Se in M. cbn [snd] in M.
  assert (exists l0, layers t'.1 !! r = Some l0 /\ isSealed l0 = true /\ diff_of l0 = diff) as (l0 & E0 & S0 & D0).
  { unfold Seal in Se. cbn [fst snd] in Se. destruct (layers (store t.1) !! r) as [l|] eqn:E; [|done]. destruct (abandoned l); [done|].
    destruct (A r l E) as [_ Sd]. destruct (isSealed l) eqn:Si; rewrite ?Sd in Se.
    - injection Se as <- <-. by exists l.
    - destruct (replica_append _ _ _ _) as [[u|e] w']; [|done]. injection Se as <- <-. cbn [fst]. rewrite layers_update, decide_True, E by done. by eexists. }
  destruct (performs_moves (set_store t'.1 t.1, t'.2) later) as [M2 _].
  { apply (moves_wf _ _ M Wf). }
  { apply tracked_after; [done|]. apply (moves_length _ _ M). }
  destruct (moves_frozen _ _ r l0 M2 (moves_ok _ _ M A) E0 S0) as (l & E & Vl & Wl & Dl & Sl & Fl & _). fold t2 in E. cbn [under fst] in E.
  assert (Df : diff_of l = diff) by (rewrite <- D0; unfold diff_of; by rewrite Vl, Wl, Dl).
  exists l. split; [done|]. split; [done|]. unfold Write, log_write, Delete, Seal. cbn [fst snd]. rewrite E. unfold refused. rewrite Sl.
  destruct (moves_ok _ _ M2 (moves_ok _ _ M A) r l E) as [_ Sd]. rewrite Sl in Sd. rewrite Sd, Df. split; [done|]. split; [done|]. by destruct (abandoned l).
Qed.
End ReplicaVfsProof.

(** * Concrete runs of the overlays

    Where they break the design (docs/PARALLEL_GLOBAL_VFS.md, 3.6 and 3.8) and
    their comments. *)

Module ReplicaVfsCases.
Import ReplicaVfsProof.

Definition Disk : Type := gmap string bytes.
Definition run : Type := astate (B := Disk) (W := session_log).

Definition v (n : Z) : SemanticVersion := mkVersion 1 n.
Definition merged (n : Z) : MergeDescriptor :=
  mkDescriptor "pipe" (v 0) (v n) [] 0 0 (mkCertificate "" [] "" "") false VersionZero.

(** Merges 1 and 2, a disk with two files and a log of its own. *)
Definition start : run :=
  (NewAudits ({[ "a"%string := [x30]; "b"%string := [x30] ]} : Disk) [merged 1; merged 2], Some (ControlWal.ControlWal.fresh, [])).
Definition both : list (aop (B := Disk)) := [ABegin (v 1) "r1"; ABegin (v 2) "r2"].
Definition after (ops : list (aop (B := Disk))) : run := performs start (both ++ ops).

Definition read (t : run) (r : nat) (path : string) : result Vfs.vfs_error bytes := (Read (store t.1) r path).1.

(** A file that the overlay in front has read is shown as it was after the
    overlay it came from was abandoned: what was rejected stays visible. *)
Example stale_read : let t := after [AWrite 0 "w" "a" [x41]; ARead 1 "a"; AAbandon 0] in
  read t 1 "a" = Ok [x41] /\ view (store t.1) 1 "a" = Ok [x30] /\ read (after [AWrite 0 "w" "a" [x41]; AAbandon 0]) 1 "a" = Ok [x30].
Proof. cbv zeta. split; [vm_compute; reflexivity|]. split; vm_compute; reflexivity. Qed.

(** A file that an overlay behind deleted cannot be read, but it is listed and
    has the size it has on the disk. *)
Example deleted_listed : let t := after [ADelete 0 "w" "a"] in
  read t 1 "a" = Err Vfs.ErrFileNotFound /\ Exists (store t.1) 1 "a" = Ok false /\ ListDir (store t.1) 1 "" = Ok ["a"; "b"] /\
  Stat 2 (store t.1) 1 "a" 9 = Ok (mkInfo "a" 1 0) /\ ListDir (store t.1) 0 "" = Ok ["b"].
Proof. cbv zeta. split; [vm_compute; reflexivity|]. split; [vm_compute; reflexivity|]. split; [vm_compute; reflexivity|]. split; vm_compute; reflexivity. Qed.

(** What the overlay has is sized by the disk. *)
Example stat_of_disk : let t := after [AWrite 0 "w" "a" [x41; x42; x43]] in
  read t 0 "a" = Ok [x41; x42; x43] /\ Stat 1 (store t.1) 0 "a" 9 = Ok (mkInfo "a" 1 0).
Proof. cbv zeta. split; vm_compute; reflexivity. Qed.

(** A deletion of one's own counts as a file read from behind. *)
Example own_deletion_recorded : let t := after [ADelete 0 "w" "a"; ARead 0 "a"] in
  exists l, layers (store t.1) !! 0%nat = Some l /\ ChainReads l = ["a"%string].
Proof. cbv zeta. eexists. split; vm_compute; reflexivity. Qed.

(** A write that is in the log when the overlay is sealed, and only then gets
    the lock: the sealed content changes, and the diff does not have it. *)
Definition late_write : option replica_error * (Layers Disk * option session_log) :=
  let t := after [] in
  let '(e, (s, w)) := log_write (store t.1, t.2) 0 "w" "a" [x41] in
  let '(_, (s, w)) := Seal (s, w) 0 5 in
  (e, (update 0 (apply_write "a" [x41]) s, w)).
Example write_after_seal : late_write.1 = None /\ exists l, layers late_write.2.1 !! 0%nat = Some l /\
  isSealed l = true /\ writes l = {[ "a"%string := [x41] ]} /\ sealedDiff l = Some (mkDiff (v 1) ∅ []).
Proof. split; [vm_compute; reflexivity|]. eexists. split; [vm_compute; reflexivity|]. split; [reflexivity|]. split; vm_compute; reflexivity. Qed.

(** Two writes that are logged in one order and made in the other. *)
Definition crossed_writes : Layers Disk * option session_log :=
  let t := after [] in
  let '(_, t1) := log_write (store t.1, t.2) 0 "inspector" "a" [x41] in
  let '(_, (s, w)) := log_write t1 0 "tester" "a" [x42] in
  (update 0 (apply_write "a" [x41]) (update 0 (apply_write "a" [x42]) s), w).
Example writes_reordered : exists l w, layers crossed_writes.1 !! 0%nat = Some l /\ crossed_writes.2 = Some w /\
  writes l !! "a"%string = Some [x41] /\ writes (rebuilt (logged w) (v 1) "r1") !! "a"%string = Some [x42].
Proof. eexists _, _. split; [vm_compute; reflexivity|]. split; [vm_compute; reflexivity|]. split; vm_compute; reflexivity. Qed.

(** The overlay of a merge that is released is abandoned: its audit, which
    may go on, cannot write any more. *)
Example released_in_audit : let t := after [AWrite 1 "w" "a" [x41]; AReleased [v 2]] in
  (Write (store t.1, t.2) 1 "w" "b" [x41]).1 = Some ErrReplicaVFSAbandoned /\ read t 1 "a" = Ok [x30].
Proof. cbv zeta. split; vm_compute; reflexivity. Qed.

(* ------------------------------------------------------------------ *)
(** ** Witnesses *)

Definition quiet_calls : list (aop (B := Disk)) := both ++ [ARead 1 "b"; AWrite 0 "w" "a" [x41]; ARead 1 "a"; ASeal 0 5].

Lemma overlay_reads_chain_witness : all_quiet start quiet_calls /\
  (1 < length (layers (store (performs start quiet_calls).1)))%nat /\
  (Read (store (performs start quiet_calls).1) 1 "a").1 = view (store (performs start quiet_calls).1) 1 "a" /\
  forall j q, view (Read (store (performs start quiet_calls).1) 1 "a").2 j q = view (store (performs start quiet_calls).1) j q.
Proof.
  assert (Qt : all_quiet start quiet_calls).
  { split; [exact I|]. split; [exact I|]. split; [exact I|]. split; [|split; [exact I|split; exact I]].
    intros j l path Ne _ E <-. destruct j as [|[|j]]; [done|injection E as <-; vm_compute; reflexivity|done]. }
  assert (Ln : (1 < length (layers (store (performs start quiet_calls).1)))%nat) by (vm_compute; lia).
  split; [exact Qt|]. split; [exact Ln|].
  exact (overlay_reads_chain ({[ "a"%string := [x30]; "b"%string := [x30] ]} : Disk) [merged 1; merged 2] start.2 quiet_calls 1 "a" Qt Ln).
Defined.

Definition sealing : list (aop (B := Disk)) := both ++ [AWrite 0 "w" "a" [x41]; ADelete 0 "w" "b"].
Definition sealed_run : result replica_error ReplicaVFSDiff * (Layers Disk * option session_log) :=
  Seal (store (performs start sealing).1, (performs start sealing).2) 0 5.
Definition sealed_diff : ReplicaVFSDiff := mkDiff (v 1) {[ "a"%string := [x41] ]} ["b"%string].

Lemma sealed_for_good_witness : sealed_run = (Ok sealed_diff, sealed_run.2) /\
  forall later, let t2 := performs (set_store sealed_run.2.1 (performs start sealing).1, sealed_run.2.2) later in
  exists l, layers (store t2.1) !! 0%nat = Some l /\ diff_of l = sealed_diff /\
    (forall writer path c, Write (store t2.1, t2.2) 0 writer path c = (Some ErrReplicaVFSSealed, (store t2.1, t2.2))) /\
    (forall writer path, Delete (store t2.1, t2.2) 0 writer path = (Some ErrReplicaVFSSealed, (store t2.1, t2.2))) /\
    Seal (store t2.1, t2.2) 0 5 = ((if abandoned l then Err ErrReplicaVFSAbandoned else Ok sealed_diff), (store t2.1, t2.2)).
Proof.
  assert (E : sealed_run = (Ok sealed_diff, sealed_run.2)) by (vm_compute; reflexivity).
  split; [exact E|].
  exact (sealed_for_good ({[ "a"%string := [x30]; "b"%string := [x30] ]} : Disk) [merged 1; merged 2] start.2 sealing 0 5 sealed_diff sealed_run.2 E).
Defined.
End ReplicaVfsCases.
