(* ===== verification/ControlSession.v ===== *)
(** * The control state of a session (core/versioning/session_vfs.go)

    The commit queue, the retention of copies, the lifecycle of replicas and
    the overlays of audits share one control log, and are rebuilt from it
    together when the session is opened again. *)

From S2P Require Import Prelude GoStd Semantic ControlEntryProof ControlWal ControlWalProof ControlLog.
From S2P Require CommitQueueProof CopyRetention ReplicaLifecycle ReplicaVfsProof.
Import Semantic ControlEntry.
Import CommitQueue ReplicaVfs.

Module ControlSession.
Import CommitQueueProof.CommitQueueProof CommitQueueProof.CommitQueueReplay.

Abbreviation CommitQueue := CommitQueue.CommitQueue.CommitQueue.
Abbreviation CopyRetention := CopyRetention.CopyRetention.CopyRetention.
Abbreviation ReplicaLifecycleLog := ReplicaLifecycle.ReplicaLifecycle.ReplicaLifecycleLog.

(** [audits]: the overlays and the log of merges.  [priorOpenAt] and
    [accumulatedOpen]: the time of an epoch that is open and the sum of those
    that were closed, as a replay finds them. *)
Record SessionVFS {B : Type} := mkSession {
  commitQueue : CommitQueue; copyRetention : CopyRetention; replicaLifecycleLog : ReplicaLifecycleLog; audits : AuditSession.Audits B;
  priorOpenAt : option Z; accumulatedOpen : Z }.
Arguments SessionVFS : clear implicits.

Inductive replay_error := QueueFailed (e : CommitQueue.queue_error) | OverlayFailed (e : AuditSession.audit_error).

Section session.
Context {B : Type} `{BaseFS B}.

(** [d]: the disk. *)
Definition NewSession (d : B) (merges : list MergeDescriptor) : SessionVFS B :=
  mkSession B CommitQueue.NewCommitQueue CopyRetention.CopyRetention.NewCopyRetention ReplicaLifecycle.ReplicaLifecycle.NewReplicaLifecycleLog
    (AuditSession.NewAudits d merges) None 0.

Definition set_queue (q : CommitQueue) (s : SessionVFS B) : SessionVFS B :=
  mkSession B q (copyRetention s) (replicaLifecycleLog s) (audits s) (priorOpenAt s) (accumulatedOpen s).
Definition set_retention (r : CopyRetention) (s : SessionVFS B) : SessionVFS B :=
  mkSession B (commitQueue s) r (replicaLifecycleLog s) (audits s) (priorOpenAt s) (accumulatedOpen s).
Definition set_replicas (l : ReplicaLifecycleLog) (s : SessionVFS B) : SessionVFS B :=
  mkSession B (commitQueue s) (copyRetention s) l (audits s) (priorOpenAt s) (accumulatedOpen s).
Definition set_audits (a : AuditSession.Audits B) (s : SessionVFS B) : SessionVFS B :=
  mkSession B (commitQueue s) (copyRetention s) (replicaLifecycleLog s) a (priorOpenAt s) (accumulatedOpen s).
Definition set_epochs (o : option Z) (a : Z) (s : SessionVFS B) : SessionVFS B :=
  mkSession B (commitQueue s) (copyRetention s) (replicaLifecycleLog s) (audits s) o a.

(** [t.Sub(u)], which saturates. *)
Definition Sub (t u : Z) : Z := Z.max (- two63) (Z.min (two63 - 1) (t - u)).

(** The callback of the replay; the log of merges does not change. *)
Definition replayEntry (e : ControlEntry) (s : SessionVFS B) : result replay_error (SessionVFS B) :=
  match CKind e with
  | ControlKindCommitQueueEnqueue | ControlKindCommitQueueMarkAccepted | ControlKindCommitQueueMarkRejected
  | ControlKindCommitQueueMarkSuperseded | ControlKindCommitQueueMarkCommitted | ControlKindCommitQueueAbandon =>
    match CommitQueue.ApplyControlEntry (CommitQueue.findByMergedVersion (AuditSession.merges (audits s))) e (commitQueue s) with
    | Ok q => Ok (set_queue q s)
    | Err x => Err (QueueFailed x)
    end
  | ControlKindRetentionRetain | ControlKindRetentionRelease | ControlKindRetentionAdvanceWaterLine =>
    Ok (set_retention (CopyRetention.CopyRetention.ApplyControlEntry (copyRetention s) e) s)
  | ControlKindReplicaSpawned | ControlKindReplicaDecided | ControlKindReplicaCrashed =>
    Ok (set_replicas (ReplicaLifecycle.ReplicaLifecycle.ApplyControlEntry (replicaLifecycleLog s) e) s)
  | ControlKindReplicaOverlayWrite | ControlKindReplicaOverlayDelete | ControlKindReplicaOverlaySealed | ControlKindReplicaOverlayAbandoned =>
    match AuditSession.applyOverlayControlEntryLocked e (audits s) with
    | Ok a => Ok (set_audits a s)
    | Err x => Err (OverlayFailed x)
    end
  | ControlKindSessionOpenEpoch => Ok (set_epochs (Some (CTimestamp e)) (accumulatedOpen s) s)
  | ControlKindSessionCloseEpoch =>
    match priorOpenAt s with
    | Some t =>
      let delta := Sub (CTimestamp e) t in
      Ok (set_epochs None (if 0 <? delta then i64 (accumulatedOpen s + delta) else accumulatedOpen s) s)
    | None => Ok s
    end
  | _ => Ok s
  end.

(** On a session that is new, with [merges] in its log of merges. *)
Definition replayControlWAL (d : B) (merges : list MergeDescriptor) (w : ControlWal.ControlWAL) (readable : bool)
  : option (result (ControlWal.control_wal_error + replay_error) (SessionVFS B)) :=
  ControlWal.Replay w readable replayEntry (NewSession d merges).

(* ------------------------------------------------------------------ *)
(** ** Calls *)

Inductive sop :=
| SQueue (o : CommitQueue.qop)
| SRetention (o : CopyRetention.CopyRetention.rop)
| SReplica (o : ReplicaLifecycle.ReplicaLifecycle.lop)
| SAudit (o : AuditSession.aop (B := B))
| SOpenEpoch (marker : string)
| SCloseEpoch (marker : string).

Context {W : Type} `{ControlLog W}.

Definition recordSessionEpochLocked (wal : option W) (kind : ControlEntryKind) (marker : string) : option W :=
  (walAppend wal kind (epochPayload marker)).2.

(** [OnRelease], which is called when something was released. *)
Definition OnRelease (r : result ControlWal.control_wal_error (list SemanticVersion)) : list (AuditSession.aop (B := B)) :=
  match r with
  | Ok (v :: released) => [AuditSession.AReleased (v :: released)]
  | _ => []
  end.

(** What left the queue, and the session with its log. *)
Definition perform (t : list CommitEntry * (SessionVFS B * option W)) (o : sop) : list CommitEntry * (SessionVFS B * option W) :=
  let '(gone, (s, w)) := t in
  match o with
  | SQueue o => let '(r, (q, w)) := CommitQueue.perform (commitQueue s, w) o in (gone ++ popped r, (set_queue q s, w))
  | SRetention o =>
    let '(r, (c, w)) := CopyRetention.CopyRetention.perform (copyRetention s, w) o in
    let '(a, w) := AuditSession.performs (audits s, w) (OnRelease r) in
    (gone, (set_audits a (set_retention c s), w))
  | SReplica o => let '(_, (l, w)) := ReplicaLifecycle.ReplicaLifecycle.perform (replicaLifecycleLog s, w) o in (gone, (set_replicas l s, w))
  | SAudit o => let '(a, w) := AuditSession.perform (audits s, w) o in (gone, (set_audits a s, w))
  | SOpenEpoch marker => (gone, (s, recordSessionEpochLocked w ControlKindSessionOpenEpoch marker))
  | SCloseEpoch marker => (gone, (s, recordSessionEpochLocked w ControlKindSessionCloseEpoch marker))
  end.

Definition performs (t : list CommitEntry * (SessionVFS B * option W)) (ops : list sop) : list CommitEntry * (SessionVFS B * option W) :=
  foldl perform t ops.

(** No merge that has left the queue is enqueued again, and none has a second
    overlay after its first was released. *)
Definition comes_once (t : list CommitEntry * (SessionVFS B * option W)) (o : sop) : Prop :=
  match o with
  | SQueue o => comes_anew t.1 o
  | SAudit o => ReplicaVfsProof.ReplicaVfsProof.begun_once (audits t.2.1) o
  | _ => True
  end.

Fixpoint all_once (t : list CommitEntry * (SessionVFS B * option W)) (ops : list sop) : Prop :=
  match ops with
  | [] => True
  | o :: ops => comes_once t o /\ all_once (perform t o) ops
  end.

(** The values of the types of the code. *)
Definition sop_wf (o : sop) : Prop :=
  match o with
  | SQueue o => op_wf o
  | SRetention o => CopyRetention.CopyRetentionProof.rop_wf o
  | SReplica o => ReplicaLifecycle.ReplicaLifecycle.lop_wf o
  | _ => True
  end.
End session.
End ControlSession.

(** * What a session shows after it was opened again

    The queue, the references on copies and the lifecycles of replicas are
    those of the session that ended, whenever it ended; but what had left the
    queue stands in front of it again. *)

Module ControlSessionProof.
Import ControlWalProof CommitQueueProof.CommitQueueProof CommitQueueProof.CommitQueueReplay ControlSession.
Module R := CopyRetention.CopyRetentionProof.
Module C := CopyRetention.CopyRetention.
Module L := ReplicaLifecycle.ReplicaLifecycle.
Module A := AuditSession.
Module O := ReplicaVfsProof.ReplicaVfsProof.

Section disk.
Context {B : Type} `{BaseFS B}.

(** The state is what the log [es] gives, and [gone] had left the queue. *)
Record consistent (merges : list MergeDescriptor) (gone : list CommitEntry) (s : SessionVFS B) (es : list ControlEntry) : Prop := {
  c_wf : queue_wf (commitQueue s);
  c_queue : recorded merges gone (view (commitQueue s)) es;
  c_retention : R.same (foldl C.ApplyControlEntry C.NewCopyRetention es) (copyRetention s);
  c_holders : R.versions_wf (copyRetention s);
  c_replicas : L.same (foldl L.ApplyControlEntry L.NewReplicaLifecycleLog es) (replicaLifecycleLog s);
  c_versions : L.versions_wf (replicaLifecycleLog s);
  c_audits : O.audits_ok (audits s);
  c_distinct : O.distinct (A.store (audits s));
  c_overlays : O.overlays_recorded (A.store (audits s)) es
}.

Lemma new_consistent merges d ms : consistent merges [] (NewSession d ms) [].
Proof.
  split; [apply empty_queue_wf|apply recorded_new|done|intros h v E; by apply (lookup_empty_Some (M := gmap string) h v) in E|done|
    intros h v E; by apply (lookup_empty_Some (M := gmap string) h v) in E|apply O.new_audits| |].
  - split; [by intros i j a b E|by intros i a E].
  - split; [by intros r l E|by intros e I; apply elem_of_nil in I].
Qed.

Lemma foldl_snoc {X Y} (f : X -> Y -> X) a l x : foldl f a (l ++ [x]) = f (foldl f a l) x.
Proof. by rewrite foldl_app. Qed.

(** What the other components make of an entry of the overlays. *)
Lemma foldl_ignore {X} (f : X -> ControlEntry -> X) (P : ControlEntry -> Prop) x es new : (forall x e, P e -> f x e = x) -> Forall P new ->
  foldl f x (es ++ new) = foldl f x es.
Proof.
  intros K F. rewrite foldl_app. revert F. generalize (foldl f x es). induction new as [|e new IH]; intros y F; [done|].
  apply Forall_cons in F as [Pe F]. cbn [foldl]. rewrite K by done. by apply IH.
Qed.

Lemma recorded_ignore merges gone l es new : recorded merges gone l es -> Forall (fun e => O.overlay_kind (CKind e) = true) new ->
  recorded merges gone l (es ++ new).
Proof.
  intros R F. induction new as [|e new IH] using rev_ind; [by rewrite app_nil_r|]. apply Forall_app in F as [F1 F2]. rewrite app_assoc.
  apply recorded_other; [by apply IH|]. apply Forall_cons in F2 as [Ok _]. by destruct (CKind e).
Qed.

(** Entries of the overlays, and what they record. *)
Lemma consistent_overlays merges gone s es new a : consistent merges gone s es -> Forall (fun e => O.overlay_kind (CKind e) = true) new ->
  O.audits_ok a -> O.distinct (A.store a) -> O.overlays_recorded (A.store a) (es ++ new) -> consistent merges gone (set_audits a s) (es ++ new).
Proof.
  intros [Qw Q Re Rh Li Lv _ _ _] F Ao Ad Ar. split; try done; cbn [set_audits commitQueue copyRetention replicaLifecycleLog].
  - by apply recorded_ignore.
  - rewrite (foldl_ignore C.ApplyControlEntry (fun e => O.overlay_kind (CKind e) = true)); [done| |done]. intros x e Ok.
    apply R.retention_apply_other. by destruct (CKind e).
  - rewrite (foldl_ignore L.ApplyControlEntry (fun e => O.overlay_kind (CKind e) = true)); [done| |done]. intros x e Ok.
    apply L.lifecycle_apply_other. by destruct (CKind e).
Qed.

Section step.
Context {W : Type} `{Lw : ControlLogLaws W} (merges : list MergeDescriptor).

Lemma queue_step gone s (w w' : W) o q r : consistent merges gone s (logged w) -> log_sound w -> op_wf o -> comes_anew gone o ->
  CommitQueue.perform (commitQueue s, Some w) o = (r, (q, Some w')) -> log_small w' ->
  consistent merges (gone ++ popped r) (set_queue q s) (logged w') /\ log_sound w'.
Proof.
  intros [Qw Q Re Rh Li Lv Ao Ad Ar] S Wf An E Sm.
  destruct (perform_refines (commitQueue s, Some w) (view (commitQueue s), Some w) o) as [Er (Q' & V & Lw')]; [by split|].
  rewrite E in *. cbn [fst snd] in *. destruct (spec_step (view (commitQueue s), Some w) o) as [r' [l2 w2]] eqn:Sp. cbn [fst snd] in *. subst r' l2 w2.
  destruct (recorded_step merges gone _ w w' o r _ Q S Wf An Sp Sm) as [Rec S']. split; [|done].
  (* the new entries of the log are the queue's *)
  unfold spec_step in Sp. cbn [fst snd] in Sp. destruct (plan_of o (view (commitQueue s))) as [r0 l0|k p l0] eqn:P.
  - injection Sp as _ _ <-. by split.
  - destruct (queue_plan_payload merges o _ k p l0 Wf P) as (K & Pw & Qk). rewrite walAppend_Some in Sp.
    destruct (log_append w k p) as [[[]|x] w1] eqn:A; cbn [fst snd] in Sp; injection Sp as _ _ <-.
    + destruct (append_taken w k p w1 S K Pw A Sm) as (_ & seq & t & _ & El). rewrite El in Rec |- *. split; cbn [set_queue commitQueue copyRetention replicaLifecycleLog]; try done.
      * rewrite foldl_snoc, R.retention_apply_other; [done|]. by destruct k.
      * rewrite foldl_snoc, L.lifecycle_apply_other; [done|]. by destruct k.
      * apply O.recorded_skip; [by destruct k|done].
    + destruct (append_refused w k p x w1 S A) as (_ & El). rewrite El in Rec |- *. by split.
Qed.

(** An append by another component than the queue. *)
Lemma other_step gone s (w w' : W) k p r : consistent merges gone s (logged w) -> log_sound w -> known k -> payload_wf p -> queue_kind k = false ->
  log_append w k p = (r, w') -> log_small w' ->
  log_sound w' /\ match r with
  | Ok _ => exists seq t, logged w' = logged w ++ [mkControlEntry seq k t (written k p)] /\
      recorded merges gone (view (commitQueue s)) (logged w')
  | Err _ => consistent merges gone s (logged w')
  end.
Proof.
  intros Cs S K Pw Qk A Sm. destruct r as [[]|x].
  - destruct (append_taken w k p w' S K Pw A Sm) as (S' & seq & t & _ & E). split; [done|]. exists seq, t. split; [done|].
    rewrite E. by apply recorded_other; [apply Cs|].
  - destruct (append_refused w k p x w' S A) as (S' & E). by rewrite E.
Qed.

Lemma retention_step gone s (w w' : W) o q r : consistent merges gone s (logged w) -> log_sound w -> R.rop_wf o ->
  C.perform (copyRetention s, Some w) o = (r, (q, Some w')) -> log_small w' ->
  consistent merges gone (set_retention q s) (logged w') /\ log_sound w'.
Proof.
  intros Cs S Wf E Sm. rewrite R.retention_perform_plan in E. cbn [fst snd] in E.
  destruct (R.plan_of o (copyRetention s)) as [|k p r' released] eqn:P; [injection E as _ <- <-; split; [|done]; by destruct Cs; split|].
  destruct (R.retention_plan_payload o _ k p r' released Wf (c_holders _ _ _ _ Cs) P) as (K & Pw & Rk & Vs). rewrite walAppend_Some in E.
  destruct (log_append w k p) as [u w1] eqn:A. cbn [fst snd] in E.
  assert (w1 = w') as -> by (destruct u; by injection E). destruct (other_step gone s w w' k p u Cs S K Pw) as [S' O]; [by destruct k|done|done|].
  split; [|done]. destruct u as [u|x]; injection E as _ <-; [|by destruct O; split].
  destruct O as (seq & t & El & Rec). rewrite El in *. split; cbn [set_retention commitQueue copyRetention replicaLifecycleLog]; try done; try apply Cs.
  - rewrite foldl_snoc. apply (R.retention_plan_replay o (copyRetention s) k p r' released); [done|apply Cs].
  - rewrite foldl_snoc, L.lifecycle_apply_other; [apply Cs|by destruct k].
  - apply O.recorded_skip; [by destruct k|apply Cs].
Qed.

Lemma replica_step gone s (w w' : W) o q r : consistent merges gone s (logged w) -> log_sound w -> L.lop_wf o ->
  L.perform (replicaLifecycleLog s, Some w) o = (r, (q, Some w')) -> log_small w' ->
  consistent merges gone (set_replicas q s) (logged w') /\ log_sound w'.
Proof.
  intros Cs S Wf E Sm. rewrite L.lifecycle_perform_plan in E. cbn [fst snd] in E.
  destruct (L.plan_of o (replicaLifecycleLog s)) as [e|k p l'] eqn:P; [injection E as _ <- <-; split; [|done]; by destruct Cs; split|].
  destruct (L.lifecycle_plan_payload o _ k p l' Wf (c_versions _ _ _ _ Cs) P) as (K & Pw & Lk & Vs). rewrite walAppend_Some in E.
  destruct (log_append w k p) as [u w1] eqn:A. cbn [fst snd] in E.
  assert (w1 = w') as -> by (destruct u; by injection E). destruct (other_step gone s w w' k p u Cs S K Pw) as [S' O]; [by destruct k|done|done|].
  split; [|done]. destruct u as [u|x]; injection E as _ <-; [|by destruct O; split].
  destruct O as (seq & t & El & Rec). rewrite El in *. split; cbn [set_replicas commitQueue copyRetention replicaLifecycleLog]; try done; try apply Cs.
  - rewrite foldl_snoc, R.retention_apply_other; [apply Cs|by destruct k].
  - rewrite foldl_snoc. apply (L.lifecycle_plan_replay o (replicaLifecycleLog s) k p l'); [done|apply Cs].
  - apply O.recorded_skip; [by destruct k|apply Cs].
Qed.

Lemma epoch_step gone s (w w' : W) k marker r : consistent merges gone s (logged w) -> log_sound w ->
  k = ControlKindSessionOpenEpoch \/ k = ControlKindSessionCloseEpoch -> log_append w k (epochPayload marker) = (r, w') -> log_small w' ->
  consistent merges gone s (logged w') /\ log_sound w'.
Proof.
  intros Cs S K A Sm. destruct (other_step gone s w w' k (epochPayload marker) r Cs S) as [S' O]; [by destruct K as [-> | ->]|by repeat split|
    by destruct K as [-> | ->]|done|done|].
  split; [|done]. destruct r as [u|x]; [|done]. destruct O as (seq & t & El & Rec). rewrite El in *.
  split; try done; try apply Cs; [rewrite foldl_snoc, R.retention_apply_other|rewrite foldl_snoc, L.lifecycle_apply_other|apply O.recorded_skip];
    try apply Cs; by destruct K as [-> | ->].
Qed.

(** The log after a call: as it was, or after some appends. *)
Definition log_after (w : W) (wal : option W) : Prop := exists w', wal = Some w' /\ (log_small w' -> log_small w).

Lemma after_same w : log_after w (Some w).
Proof. by exists w. Qed.
Lemma after_append w k p : log_after w (walAppend (Some w) k p).2.
Proof. rewrite walAppend_Some. eexists. split; [done|]. apply (append_small w k p (log_append w k p).1). by destruct (log_append w k p). Qed.

Lemma after_logged {A} w q k p (f : CommitQueue.CommitQueue -> A * CommitQueue.CommitQueue) :
  log_after w (CommitQueue.logged_then k p (q, Some w) f).2.2.
Proof.
  unfold CommitQueue.logged_then. cbn [fst snd]. pose proof (after_append w k p) as L. destruct (walAppend (Some w) k p) as [[u|e] w']; [|done].
  by destruct (f q).
Qed.

Lemma queue_log w q o : log_after w (CommitQueue.perform (q, Some w) o).2.2.
Proof.
  destruct o; cbn [CommitQueue.perform snd];
    [unfold CommitQueue.Enqueue|unfold CommitQueue.MarkAccepted|unfold CommitQueue.MarkRejected|unfold CommitQueue.MarkSuperseded|
     unfold CommitQueue.MarkCommitted|unfold CommitQueue.Abandon|cbn [fst snd]; destruct (CommitQueue.Advance q); apply after_same];
    cbn [fst snd]; repeat case_match; try apply after_same; apply after_logged.
Qed.

Lemma retention_log w r o : log_after w (C.perform (r, Some w) o).2.2.
Proof.
  rewrite R.retention_perform_plan. cbn [fst snd]. destruct (R.plan_of o r) as [|k p r' rel]; [apply after_same|].
  pose proof (after_append w k p) as L. by destruct (walAppend (Some w) k p) as [[u|e] w'].
Qed.

Lemma replica_log w l o : log_after w (L.perform (l, Some w) o).2.2.
Proof.
  rewrite L.lifecycle_perform_plan. cbn [fst snd]. destruct (L.plan_of o l) as [e|k p l']; [apply after_same|].
  pose proof (after_append w k p) as La. by destruct (walAppend (Some w) k p) as [[u|e] w'].
Qed.

(** What holds of the overlays whatever the log does. *)
Definition overlays_good (s : SessionVFS B) : Prop := O.audits_ok (audits s) /\ O.distinct (A.store (audits s)).

(** From [s] with the log [w] to [s'] with [w']. *)
Definition stepped gone s (w : W) gone' s' (w' : W) : Prop :=
  overlays_good s' /\ (log_small w' -> log_small w) /\
  (log_small w' -> consistent merges gone s (logged w) -> log_sound w -> consistent merges gone' s' (logged w') /\ log_sound w').

Lemma audit_step gone s (w : W) o : overlays_good s -> O.begun_once (audits s) o ->
  exists a w', A.perform (audits s, Some w) o = (a, Some w') /\ stepped gone s w gone (set_audits a s) w'.
Proof.
  intros [Ao Ad] Bo. destruct (O.perform_grows (audits s) w o Ao Bo Ad) as (a & w' & E & Ao' & Ad' & Sm & G).
  exists a, w'. split; [done|]. split; [by split|]. split; [done|]. intros Sm' Cs S. destruct (G Sm' Ad' S (c_overlays _ _ _ _ Cs)) as (S' & Rec & new & El & F).
  split; [|done]. rewrite El in *. by apply consistent_overlays.
Qed.

Lemma retention_stepped gone s (w : W) o : overlays_good s -> R.rop_wf o ->
  exists s' w', perform (gone, (s, Some w)) (SRetention o) = (gone, (s', Some w')) /\ stepped gone s w gone s' w'.
Proof.
  intros Gd Wf. destruct (retention_log w (copyRetention s) o) as (w1 & E1 & Sm1). cbn [perform].
  destruct (C.perform (copyRetention s, Some w) o) as [r [c wal1]] eqn:P. cbn [snd] in E1. subst wal1.
  assert (St : stepped gone s w gone (set_retention c s) w1).
  { split; [exact Gd|]. split; [done|]. intros Sm Cs S. by apply (retention_step gone s w w1 o c r). }
  destruct r as [[|v rel]|e]; cbn [OnRelease A.performs foldl]; try (eexists _, w1; split; [reflexivity|]; by destruct s).
  destruct (audit_step gone (set_retention c s) w1 (A.AReleased (v :: rel)) Gd ltac:(done)) as (a & w' & E & Gd' & Sm' & G).
  cbn [audits set_retention] in E. rewrite E. eexists _, w'. split; [reflexivity|]. split; [done|]. split; [by auto|].
  intros Sm Cs S. destruct St as (_ & _ & G1). destruct (G1 (Sm' Sm) Cs S) as [Cs1 S1]. by apply G.
Qed.

(** A call keeps all consistent. *)
Lemma perform_step gone s (w : W) o : overlays_good s -> sop_wf o -> comes_once (gone, (s, Some w)) o ->
  exists gone' s' w', perform (gone, (s, Some w)) o = (gone', (s', Some w')) /\ stepped gone s w gone' s' w'.
Proof.
  intros Gd Wf Co. destruct o as [o|o|o|o|m|m]; cbn [sop_wf comes_once fst snd] in *.
  - cbn [perform]. destruct (queue_log w (commitQueue s) o) as (w1 & E1 & Sm1). destruct (CommitQueue.perform _ o) as [r [q wal1]] eqn:P. cbn [snd] in E1. subst wal1.
    eexists _, _, w1. split; [done|]. split; [exact Gd|]. split; [done|]. intros Sm Cs S. by eapply queue_step.
  - destruct (retention_stepped gone s w o Gd Wf) as (s' & w' & E & St). by exists gone, s', w'.
  - cbn [perform]. destruct (replica_log w (replicaLifecycleLog s) o) as (w1 & E1 & Sm1). destruct (L.perform _ o) as [r [q wal1]] eqn:P. cbn [snd] in E1. subst wal1.
    eexists _, _, w1. split; [done|]. split; [exact Gd|]. split; [done|]. intros Sm Cs S. by eapply replica_step.
  - cbn [perform]. destruct (audit_step gone s w o Gd Co) as (a & w' & E & St). rewrite E. by eexists _, _, w'.
  - destruct (after_append w ControlKindSessionOpenEpoch (epochPayload m)) as (w1 & E1 & Sm1). cbn [perform]. unfold recordSessionEpochLocked. rewrite E1.
    eexists _, _, w1. split; [done|]. split; [exact Gd|]. split; [done|]. intros Sm Cs S. rewrite walAppend_Some in E1. injection E1 as E1.
    eapply epoch_step; [done|done|by left| |done]. rewrite <- E1. by apply surjective_pairing.
  - destruct (after_append w ControlKindSessionCloseEpoch (epochPayload m)) as (w1 & E1 & Sm1). cbn [perform]. unfold recordSessionEpochLocked. rewrite E1.
    eexists _, _, w1. split; [done|]. split; [exact Gd|]. split; [done|]. intros Sm Cs S. rewrite walAppend_Some in E1. injection E1 as E1.
    eapply epoch_step; [done|done|by right| |done]. rewrite <- E1. by apply surjective_pairing.
Qed.

Lemma performs_consistent ops : forall gone s (w : W), overlays_good s -> all_once (gone, (s, Some w)) ops -> Forall sop_wf ops ->
  exists gone' s' w', performs (gone, (s, Some w)) ops = (gone', (s', Some w')) /\ stepped gone s w gone' s' w'.
Proof.
  induction ops as [|o ops IH]; intros gone s w Gd An F; [exists gone, s, w; split; [done|by split_and!]|]. cbn [all_once performs foldl] in *.
  destruct An as [Ao An]. apply Forall_cons in F as [Fo F]. destruct (perform_step gone s w o Gd Fo Ao) as (g1 & s1 & w1 & E1 & Gd1 & Sm1 & G1).
  rewrite E1 in *. destruct (IH g1 s1 w1 Gd1 An F) as (g' & s' & w' & E & Gd' & Sm & G). exists g', s', w'. split; [done|]. split; [done|]. split; [by auto|].
  intros Sm' Cs S. destruct (G1 (Sm Sm') Cs S) as [Cs1 S1]. by apply G.
Qed.
End step.

(* ------------------------------------------------------------------ *)
(** ** The replay of the session *)

Lemma replay_none merges es : foldl (fun ol e => ol ≫= fun l => replay_step merges l e) None es = None.
Proof. induction es as [|e es IH]; [done|]. exact IH. Qed.

(** An entry that can be replayed: what the overlays need. *)
Definition named (e : ControlEntry) : Prop := O.overlay_kind (CKind e) = true -> PReplicaID (CPayload e) <> "".

(** An entry is for one component, and the others ignore it. *)
Lemma replay_entry_step merges e (s : SessionVFS B) l es : queue_wf (commitQueue s) -> A.merges (audits s) = merges -> O.replayed (audits s) es -> named e ->
  replay_step merges (view (commitQueue s)) e = Some l ->
  exists s' : SessionVFS B, replayEntry e s = Ok s' /\ queue_wf (commitQueue s') /\ A.merges (audits s') = merges /\ O.replayed (audits s') (es ++ [e]) /\
    view (commitQueue s') = l /\
    copyRetention s' = C.ApplyControlEntry (copyRetention s) e /\ replicaLifecycleLog s' = L.ApplyControlEntry (replicaLifecycleLog s) e.
Proof.
  intros Q Ms Re Nm St. pose proof (apply_view merges (commitQueue s) e Q) as A. rewrite St in A. unfold replayEntry. rewrite Ms.
  destruct (queue_kind (CKind e)) eqn:Qk.
  - destruct (CommitQueue.ApplyControlEntry _ e (commitQueue s)) as [q|x]; [|done]. destruct A as [Qa [= ->]]. exists (set_queue q s).
    split; [by destruct (CKind e)|]. split; [done|]. split; [done|]. split; [by apply O.replayed_skip; [destruct (CKind e)|]|]. split; [done|].
    rewrite R.retention_apply_other, L.lifecycle_apply_other by (by destruct (CKind e)). done.
  - assert (view (commitQueue s) = l) as <- by (unfold replay_step in St; destruct (CKind e); try done; by injection St).
    destruct (O.overlay_kind (CKind e)) eqn:Ok.
    + destruct (O.replayed_step (audits s) es e Re Ok (Nm Ok)) as (a & Ea & Ra). rewrite Ea. exists (set_audits a s).
      split; [by destruct (CKind e)|]. split; [done|]. split; [rewrite <- Ms; by apply (O.apply_merges e)|]. split; [done|]. split; [done|].
      rewrite R.retention_apply_other, L.lifecycle_apply_other by (by destruct (CKind e)). done.
    + pose proof (O.replayed_skip (audits s) es e Ok Re) as Sk. unfold C.ApplyControlEntry, L.ApplyControlEntry.
      destruct (CKind e); try done; try (eexists; split; [reflexivity|]; done).
      destruct (priorOpenAt s); eexists; (split; [reflexivity|]; done).
Qed.

(** The components are replayed side by side. *)
Lemma replay_session merges new : forall (s : SessionVFS B) l es, queue_wf (commitQueue s) -> A.merges (audits s) = merges -> O.replayed (audits s) es ->
  Forall named new -> replay_list merges (view (commitQueue s)) new = Some l ->
  exists s' : SessionVFS B, run_all replayEntry new s = Ok s' /\ queue_wf (commitQueue s') /\ O.replayed (audits s') (es ++ new) /\ view (commitQueue s') = l /\
    copyRetention s' = foldl C.ApplyControlEntry (copyRetention s) new /\
    replicaLifecycleLog s' = foldl L.ApplyControlEntry (replicaLifecycleLog s) new.
Proof.
  induction new as [|e new IH]; intros s l es Q Ms Re Nm E; [injection E as <-; exists s; by rewrite app_nil_r|].
  apply Forall_cons in Nm as [Ne Nm]. unfold replay_list in E. cbn [foldl mbind option_bind] in E.
  destruct (replay_step merges (view (commitQueue s)) e) as [l1|] eqn:St; [|by rewrite replay_none in E].
  destruct (replay_entry_step merges e s l1 es Q Ms Re Ne St) as (s1 & E1 & Q1 & M1 & Re1 & V1 & R1 & L1). cbn [run_all foldl]. rewrite E1.
  destruct (IH s1 l (es ++ [e]) Q1 M1 Re1 Nm) as (s' & E' & Q' & Re' & V' & R' & L'); [rewrite V1; exact E|]. exists s'. rewrite <- R1, <- L1.
  rewrite <- app_assoc in Re'. done.
Qed.
End disk.

(* ------------------------------------------------------------------ *)
(** ** Claims *)

(** The log of a session that is new, and the outcomes of its appends. *)
Definition new_log (schedule : list (ControlWal.append_outcome * Z)) : session_log := (ControlWal.fresh, schedule).

(** An append succeeds or fails before it wrote anything; its time is one. *)
Definition traceless (on : ControlWal.append_outcome * Z) : Prop :=
  in_i64 on.2 /\ (on.1 = ControlWal.AppendFine \/ on.1 = ControlWal.WriteFails 0).

Lemma new_log_sound schedule : Forall traceless schedule -> log_sound (new_log schedule).
Proof.
  intros F. split; [|split; [done|exact F]]. exists []. split; [done|]. split; [constructor|]. intros _. cbn. unfold len. cbn. lia.
Qed.

(** What is left of a log without torn entries is opened with all of them. *)
Lemma reopens k (f : ControlWal.logfile) es : ControlWal.content f = bytes_of es -> Forall entry_fits es -> len (ControlWal.content f) < two32 ->
  ControlWal.durable f = length (ControlWal.content f) ->
  exists w', ControlWal.OpenControlWAL (survivor k f) ControlWal.OpenFine = Some (Ok w') /\ ControlWal.closed w' = false /\
    ControlWal.content (ControlWal.log w') = bytes_of es.
Proof.
  intros Ec Fe Sm Du. assert (survivor k f = f) as ->.
  { destruct k as [k|]; [|done]. cbn [survivor]. unfold ControlWal.power_failure. rewrite Du, Nat.min_r by lia. rewrite firstn_all, <- Du. by destruct f. }
  destruct (open_eq f ControlWal.OpenFine es [] ltac:(by rewrite app_nil_r) Fe torn_nil Sm) as [[_ N]|[O|[O _]]]; [done|by eexists..].
Qed.

(** C6: a new session on a new log, of which every failed write leaves nothing
    in the file and every Sync succeeds ([traceless]), which gives the queue
    no version and begins no overlay twice, and which ends between any two of
    its calls, with a log below 2^32 bytes, the power failing or not, is
    opened again with the references on copies, the water line and the
    lifecycles it had, with the content of every overlay of an audit, and with
    the queue it had, in front of which stand the entries that had left it;
    the log keeps the times of its own and, unless the log of merges knows
    them, only the main fields of the descriptors. *)
Theorem session_reopens {B} `{BaseFS B} (d d' : B) ms merges schedule ops k : Forall traceless schedule -> Forall sop_wf ops ->
  all_once ([], (NewSession d ms, Some (new_log schedule))) ops ->
  exists gone s w, performs ([], (NewSession d ms, Some (new_log schedule))) ops = (gone, (s, Some w)) /\
    (len (ControlWal.content (ControlWal.log w.1)) < two32 ->
     exists w' s', ControlWal.OpenControlWAL (survivor k (ControlWal.log w.1)) ControlWal.OpenFine = Some (Ok w') /\
       replayControlWAL d' merges w' true = Some (Ok s') /\ queue_wf (commitQueue s') /\
       Forall2 (same merges) (view (commitQueue s')) (gone ++ view (commitQueue s)) /\
       R.same (copyRetention s') (copyRetention s) /\ L.same (replicaLifecycleLog s') (replicaLifecycleLog s) /\
       forall r l, ReplicaVfs.layers (A.store (audits s)) !! r = Some l -> O.overlay_back (audits s') l).
Proof.
  intros Sch F An. destruct (performs_consistent (W := session_log) merges ops [] (NewSession d ms) (new_log schedule)) as (gone & s & w & E & Gd & _ & Go);
    [|done|done|].
  { destruct (new_consistent merges d ms). by split. }
  exists gone, s, w. split; [done|]. intros Sm. destruct (Go Sm (new_consistent merges d ms) (new_log_sound schedule Sch)) as [Cs S]. clear Go.
  destruct S as ((es & Ec & Fe & _) & [_ Du] & _). rewrite (logged_eq w es Ec Fe Sm) in Cs.
  destruct (reopens k (ControlWal.log w.1) es Ec Fe Sm Du) as (w' & Op & Cl & Ew).
  destruct Cs as [_ [(l' & Rl & Sl) _ _] Rr _ Rli _ _ Ad Ar].
  assert (Nm : Forall named (read_back <$> es)).
  { apply Forall_forall. intros e I Ok. destruct (O.r_source _ _ Ar e I Ok) as (r & l & El & _ & <-). by apply (O.r_content _ _ Ar r l). }
  destruct (replay_session merges (read_back <$> es) (NewSession d' merges) l' [] empty_queue_wf eq_refl (O.new_replayed d' merges) Nm Rl)
    as (s' & Rs & Q' & Re' & V' & R' & L').
  exists w', s'. split; [exact Op|]. split.
  { unfold replayControlWAL. by rewrite (Replay_eq _ _ _ es []); [rewrite Rs|done|rewrite app_nil_r|done|apply torn_nil|rewrite Ew, <- Ec]. }
  rewrite R', L', V'. repeat (split; [done|]). intros r l El. by apply (O.overlays_back (A.store (audits s)) (audits s') (read_back <$> es) r).
Qed.

(* ------------------------------------------------------------------ *)
(** ** A session *)

Definition sample_merge (n : Z) : MergeDescriptor :=
  mkDescriptor "pipe" (mkVersion 1 0) (mkVersion 1 n) [] 0 0 (mkCertificate "" [] "" "") false VersionZero.

(** The third append fails. *)
Definition sample_schedule : list (ControlWal.append_outcome * Z) :=
  [(ControlWal.AppendFine, 10); (ControlWal.AppendFine, 11); (ControlWal.WriteFails 0, 12)].

Definition sample_calls : list (sop (B := gmap string bytes)) := [
  SOpenEpoch "open"; SQueue (CommitQueue.QEnqueue (sample_merge 1) 1); SQueue (CommitQueue.QEnqueue (sample_merge 2) 2); SQueue (CommitQueue.QEnqueue (sample_merge 2) 3);
  SAudit (A.ABegin (mkVersion 1 1) "r1"); SAudit (A.AWrite 0 "w" "a.txt" [x41]);
  SQueue (CommitQueue.QAccept (mkVersion 1 1) "r1"); SAudit (A.ASeal 0 5); SAudit (A.ABegin (mkVersion 1 2) "r2"); SAudit (A.ADelete 1 "w" "a.txt");
  SQueue (CommitQueue.QCommit (mkVersion 1 1) 4); SQueue CommitQueue.QAdvance; SQueue (CommitQueue.QReject (mkVersion 1 2) "r2" "no" ["c"%string]);
  SRetention (CopyRetention.CopyRetention.RRetain (mkVersion 1 1) "h"); SRetention (CopyRetention.CopyRetention.RAdvance (mkVersion 1 3) [mkVersion 1 2] 5);
  SReplica (ReplicaLifecycle.ReplicaLifecycle.LSpawn "r1" "a" (mkVersion 1 1) 6);
  SReplica (ReplicaLifecycle.ReplicaLifecycle.LCrash "r1" "gone" 7); SCloseEpoch "close"].

#[export] Existing Instance ReplicaVfs.map_disk.

Definition sample_disk : gmap string bytes := {[ "a.txt"%string := [x40] ]}.
Definition sample_start : list CommitEntry * (SessionVFS (gmap string bytes) * option session_log) :=
  ([], (NewSession sample_disk [sample_merge 1; sample_merge 2], Some (new_log sample_schedule))).

Lemma session_reopens_witness : Forall traceless sample_schedule /\ Forall sop_wf sample_calls /\ all_once sample_start sample_calls /\
  exists gone s w, performs sample_start sample_calls = (gone, (s, Some w)) /\
    (len (ControlWal.content (ControlWal.log w.1)) < two32 ->
     exists w' s', ControlWal.OpenControlWAL (survivor (Some 7%nat) (ControlWal.log w.1)) ControlWal.OpenFine = Some (Ok w') /\
       replayControlWAL (∅ : gmap string bytes) [sample_merge 2] w' true = Some (Ok s') /\ queue_wf (commitQueue s') /\
       Forall2 (same [sample_merge 2]) (view (commitQueue s')) (gone ++ view (commitQueue s)) /\
       R.same (copyRetention s') (copyRetention s) /\ L.same (replicaLifecycleLog s') (replicaLifecycleLog s) /\
       forall r l, ReplicaVfs.layers (A.store (audits s)) !! r = Some l -> O.overlay_back (audits s') l).
Proof.
  assert (S : Forall traceless sample_schedule).
  { repeat (apply Forall_cons; split; [split; [unfold in_i64, two63; cbn; lia|first [by left|by right]]|]). constructor. }
  assert (F : Forall sop_wf sample_calls).
  { repeat (apply Forall_cons; split; [cbn; unfold version_wf, in_u32, two32; cbn; lia|]). constructor. }
  assert (E : all_once sample_start sample_calls).
  { repeat (split; [first [exact I|by apply (bool_decide_eq_true_1 _); vm_compute|
      split; [unfold version_wf, in_u32, two32; cbn; lia|right; apply (bool_decide_eq_true_1 _); vm_compute; reflexivity]]|]). exact I. }
  split; [exact S|]. split; [exact F|]. split; [exact E|].
  exact (session_reopens sample_disk ∅ [sample_merge 1; sample_merge 2] [sample_merge 2] sample_schedule sample_calls (Some 7%nat) S F E).
Defined.
End ControlSessionProof.

(** * A session that is opened again in the middle of an audit *)

Module ControlSessionCases.
Import ControlSession ControlSessionProof.

Definition audit_disk : gmap string bytes := {[ "a"%string := [x30] ]}.

(** Two merges, the first of which has written a file; then the session is
    opened again, with the log of merges that replayDraftFromWAL leaves. *)
Definition in_audit : list (sop (B := gmap string bytes)) := [
  SAudit (A.ABegin (mkVersion 1 1) "r1"); SAudit (A.AWrite 0 "w" "a" [x41]); SAudit (A.ABegin (mkVersion 1 2) "r2"); SAudit (A.AWrite 1 "w" "b" [x42])].

Definition reopened (t : list CommitEntry * (SessionVFS (gmap string bytes) * option session_log))
  : option (SessionVFS (gmap string bytes) * option session_log) :=
  match t.2.2 with
  | None => None
  | Some w =>
    match ControlWal.OpenControlWAL (ControlWal.log w.1) ControlWal.OpenFine with
    | Some (Ok w') =>
      match replayControlWAL audit_disk [] w' true with
      | Some (Ok s) => Some (s, Some (w', []))
      | _ => None
      end
    | _ => None
    end
  end.

Definition before : list CommitEntry * (SessionVFS (gmap string bytes) * option session_log) :=
  performs ([], (NewSession audit_disk [sample_merge 1; sample_merge 2], Some (new_log []))) in_audit.

Definition shown (s : SessionVFS (gmap string bytes)) (r : nat) (path : string) : result Vfs.vfs_error bytes :=
  (ReplicaVfs.Read (A.store (audits s)) r path).1.

(** The second overlay does not stand in front of the first any more. *)
Example chain_lost : shown before.2.1 1 "a" = Ok [x41] /\
  exists s w, reopened before = Some (s, w) /\ A.LookupAuditReplicaVFS (audits s) (mkVersion 1 2) = Some 1%nat /\ shown s 1 "a" = Ok [x30].
Proof. split; [vm_compute; reflexivity|]. eexists _, _. split; [vm_compute; reflexivity|]. split; vm_compute; reflexivity. Qed.

(** The audit goes on after the session was opened again: its handle is the
    overlay of the replay, which has no log; what it writes is lost when the
    session is opened once more. *)
Example rehydrated_unlogged : exists s w s2, reopened before = Some (s, w) /\
  A.BeginAuditReplicaVFS (audits s) (mkVersion 1 1) "r1" = (Ok 0%nat, audits s) /\
  let t := performs ([], (s, w)) [SAudit (A.AWrite 0 "w" "c" [x43])] in
  shown t.2.1 0 "c" = Ok [x43] /\ t.2.2 = w /\ (exists w2, reopened t = Some (s2, w2)) /\ shown s2 0 "c" = Err Vfs.ErrFileNotFound.
Proof.
  eexists _, _, _. split; [vm_compute; reflexivity|]. split; [vm_compute; reflexivity|]. cbv zeta. split; [vm_compute; reflexivity|].
  split; [vm_compute; reflexivity|]. split; [eexists; vm_compute; reflexivity|]. vm_compute. reflexivity.
Qed.
End ControlSessionCases.
