(* ===== verification/CommitResolver.v ===== *)
(** * The commit resolver (core/versioning/commit_resolver.go)

    A loop takes the head of the queue forward: when it is accepted it flushes
    the overlay, all of it, and it removes what is resolved.  How a flush ends
    is taken from a list; the log is a [ControlLog].  Errors of the water line
    are logged only. *)

From S2P Require Import Prelude GoStd Semantic ControlEntryProof ControlWal ControlWalProof ControlLog.
From S2P Require Import CommitQueue CommitQueueProof.
From S2P Require CopyRetention ControlSession.
Import Semantic ControlEntry CommitQueue.

Module CommitResolver.

Inductive resolver_error :=
| FlushFailed (ver : SemanticVersion)
| QueueError (e : queue_error)
| SupersedorGone (ver sup : SemanticVersion).

(** How [DiskFlusher.Flush] ends: it succeeds; it fails and has written
    nothing, or undone what it wrote; it fails, has written some or all, and
    keeps the overlay; it fails after it reset the overlay. *)
Inductive flush_outcome := FlushDone | FlushUndone | FlushKept | FlushReset.

(** A flush that wrote: the version the resolver called it for, the merges
    whose changes were then in the draft, and whether they were taken out. *)
Record Flush := mkFlush { for_version : SemanticVersion; wrote : list SemanticVersion; emptied : bool }.

Section resolver.
Context {W : Type} `{ControlLog W}.

(** [flushes]: how the flushes to come end; they then succeed.  [overlay]: the
    merges whose changes are in the draft and were not taken out of it by a
    flush, in order, whatever their audits say; what else is written to the
    draft is left out.  [flushed] and [released]: the flushes that wrote, and
    the versions the retention released, in order.  [merges]: the log of
    merges. *)
Record Resolver := mkResolver {
  queue : CommitQueue; retention : CopyRetention.CopyRetention.CopyRetention; wal : option W; merges : list MergeDescriptor;
  flushes : list flush_outcome; overlay : list SemanticVersion; flushed : list Flush; released : list SemanticVersion }.

Definition set_queue (t : CommitQueue * option W) (s : Resolver) : Resolver :=
  mkResolver t.1 (retention s) t.2 (merges s) (flushes s) (overlay s) (flushed s) (released s).

(** In the order a map is visited, which nothing depends on. *)
Definition knownCopyVersions (s : Resolver) : list SemanticVersion :=
  elements (list_to_set (MergedVersion <$> merges s) ∪
    list_to_set ((fun e => MergedVersion (Descriptor e)) <$> default [] (Snapshot (queue s))) : gset SemanticVersion).

Definition after_flush (fl : list flush_outcome) (o : list SemanticVersion) (made : list Flush) (s : Resolver) : Resolver :=
  mkResolver (queue s) (retention s) (wal s) (merges s) fl o (flushed s ++ made) (released s).

(** Whether the flush succeeded.  [desc] says what it is for only: the whole
    overlay is flushed. *)
Definition flushToDisk (s : Resolver) (desc : MergeDescriptor) : bool * Resolver :=
  let all := mkFlush (MergedVersion desc) (overlay s) in
  match flushes s with
  | [] => (true, after_flush [] [] [all true] s)
  | FlushDone :: fl => (true, after_flush fl [] [all true] s)
  | FlushUndone :: fl => (false, after_flush fl (overlay s) [] s)
  | FlushKept :: fl => (false, after_flush fl (overlay s) [all false] s)
  | FlushReset :: fl => (false, after_flush fl [] [all true] s)
  end.

Definition advanceWaterLineTo (s : Resolver) (ver : SemanticVersion) (now : Z) : Resolver :=
  let '(r, (ret, w)) := CopyRetention.CopyRetention.AdvanceWaterLine (retention s, wal s) ver (knownCopyVersions s) now in
  mkResolver (queue s) ret w (merges s) (flushes s) (overlay s) (flushed s) (released s ++ match r with Ok l => l | Err _ => [] end).

(** Commit [ver], for which the disk was written, and remove the head; the
    water line rises to [line] of what was removed. *)
Definition commit_and_pop (s : Resolver) (ver : SemanticVersion) (line : CommitEntry -> SemanticVersion) (now : Z)
  : result resolver_error bool * Resolver :=
  match MarkCommitted (queue s, wal s) ver now with
  | (Err e, t) => (Err (QueueError e), set_queue t s)
  | (Ok _, t) =>
    let s := set_queue t s in
    match Advance (queue s) with
    | (Some popped, q) => (Ok true, advanceWaterLineTo (set_queue (q, wal s) s) (line popped) now)
    | (None, q) => (Ok false, set_queue (q, wal s) s)
    end
  end.

Definition own_version (e : CommitEntry) : SemanticVersion := MergedVersion (Descriptor e).

(** Whether the head was removed. *)
Definition processHead (s : Resolver) (head : CommitEntry) (now : Z) : result resolver_error bool * Resolver :=
  match State head with
  | CommitStateAuditing | CommitStateRejected => (Ok false, s)
  | CommitStateAccepted =>
    match flushToDisk s (Descriptor head) with
    | (false, s) => (Err (FlushFailed (own_version head)), s)
    | (true, s) => commit_and_pop s (own_version head) own_version now
    end
  | CommitStateSuperseded =>
    match Lookup (queue s) (SupersededBy head) with
    | None => (Err (SupersedorGone (own_version head) (SupersededBy head)), s)
    | Some supersedor =>
      if negb (bool_decide (State supersedor = CommitStateAccepted)) then (Ok false, s)
      else match flushToDisk s (Descriptor supersedor) with
        | (false, s) => (Err (FlushFailed (own_version supersedor)), s)
        | (true, s) => commit_and_pop s (own_version supersedor) (fun _ => own_version supersedor) now
        end
    end
  | CommitStateAbandoned =>
    match Advance (queue s) with
    | (Some popped, q) => (Ok true, advanceWaterLineTo (set_queue (q, wal s) s) (own_version popped) now)
    | (None, q) => (Ok false, set_queue (q, wal s) s)
    end
  | CommitStateCommitted =>
    match Advance (queue s) with
    | (Some _, q) => (Ok true, set_queue (q, wal s) s)
    | (None, q) => (Ok false, set_queue (q, wal s) s)
    end
  end.

(** The loop of [tick], [n] rounds at most. *)
Fixpoint tick_rounds (n : nat) (s : Resolver) (now : Z) : Resolver :=
  match n with
  | O => s
  | S n =>
    match Head (queue s) with
    | None => s
    | Some head =>
      match processHead s head now with
      | (Ok true, s) => tick_rounds n s now
      | (_, s) => s
      end
    end
  end.

Definition tick (s : Resolver) (now : Z) : Resolver := tick_rounds 16 s now.

(** Other calls of the queue, between two ticks. *)
Definition call (o : qop) (s : Resolver) : Resolver := set_queue (perform (queue s, wal s) o).2 s.

(** A merge: its changes are in the draft from then on. *)
Definition merged (d : MergeDescriptor) (s : Resolver) : Resolver :=
  mkResolver (queue s) (retention s) (wal s) (merges s ++ [d]) (flushes s) (overlay s ++ [MergedVersion d]) (flushed s) (released s).
End resolver.
End CommitResolver.

(** * What the resolver does

    A tick flushes for accepted merges only, and then whatever is in the draft;
    it goes as far as the queue lets it; and a slot whose supersedor was
    committed before blocks the queue for good. *)

Module CommitResolverProof.
Import CommitQueueProof CommitResolver.

Section resolver.
Context {W : Type} `{ControlLog W}.

(* ------------------------------------------------------------------ *)
(** ** The queue under the resolver *)

Lemma MarkCommitted_view (q : CommitQueue) (w : option W) v now : queue_wf q ->
  match MarkCommitted (q, w) v now with
  | (Ok _, (q', _)) => queue_wf q' /\ exists x, find_ver v (view q) = Some x /\
      (State x = CommitStateAccepted \/ State x = CommitStateSuperseded) /\ view q' = update v (commit now) (view q)
  | (Err _, (q', _)) => queue_wf q' /\ view q' = view q
  end.
Proof.
  intros Q. destruct (perform_refines (q, w) (view q, w) (QCommit v now)) as [E (Q' & V & _)]; [by split|].
  cbn [perform fst snd] in *. unfold spec_step in *. cbn [plan_of fst snd] in *. unfold mark, unless, is_state in *.
  destruct (MarkCommitted (q, w) v now) as [[u|x] [q' w']]; cbn [fst snd] in *.
  - split; [done|]. destruct (find_ver v (view q)) as [x|]; [|done]. exists x. split; [done|].
    destruct (bool_decide (State x = CommitStateAccepted)) eqn:B1; [|destruct (bool_decide (State x = CommitStateSuperseded)) eqn:B2; [|done]];
      cbn [orb] in *; (split; [by (left; by apply bool_decide_eq_true in B1) || (right; by apply bool_decide_eq_true in B2)|]);
      destruct (walAppend w _ _) as [[u'|x'] w'']; done.
  - split; [done|]. destruct (find_ver v (view q)) as [y|]; [|done]. destruct (_ || _); [|done].
    by destruct (walAppend w _ _) as [[u'|x'] w''].
Qed.

(** Commit an entry of the queue and remove the head, if it can be removed. *)
Lemma commit_and_pop_view (s : Resolver (W := W)) v line now : queue_wf (queue s) ->
  let '(r, s') := commit_and_pop s v line now in
  queue_wf (queue s') /\ flushed s' = flushed s /\ flushes s' = flushes s /\ overlay s' = overlay s /\
  match r with
  | Ok b => view (queue s') = (advance (update v (commit now) (view (queue s)))).2 /\
      b = bool_decide (is_Some (advance (update v (commit now) (view (queue s)))).1)
  | Err _ => view (queue s') = view (queue s)
  end.
Proof.
  intros Q. unfold commit_and_pop. pose proof (MarkCommitted_view (queue s) (wal s) v now Q) as M.
  destruct (MarkCommitted (queue s, wal s) v now) as [[u|x] [q w]]; [|by destruct M as [Q' V]; cbn [set_queue queue fst snd flushed flushes overlay]].
  destruct M as (Q1 & x & F & St & V). cbn [set_queue queue fst snd]. destruct (Advance_view q Q1) as (A & V' & Q2). rewrite <- V.
  destruct (Advance q) as [[p|] q'] eqn:Ad; cbn [fst snd] in *.
  - unfold advanceWaterLineTo. destruct (CopyRetention.CopyRetention.AdvanceWaterLine _ _ _ _) as [r [ret w2]]. cbn [queue flushed flushes overlay set_queue fst].
    split; [done|]. split; [done|]. split; [done|]. split; [done|]. split; [done|]. rewrite <- A. by rewrite bool_decide_eq_true_2.
  - split; [done|]. split; [done|]. split; [done|]. split; [done|]. split; [done|]. rewrite <- A. rewrite bool_decide_eq_false_2; [done|]. by intros [? [=]].
Qed.

(* ------------------------------------------------------------------ *)
(** ** A queue that is blocked *)

Definition undecided (s : CommitState) : bool := match s with CommitStateAuditing | CommitStateAccepted => true | _ => false end.

(** The head waits for a supersedor that will not be accepted any more. *)
Definition blocked (e : CommitEntry) (l : list CommitEntry) : Prop :=
  head l = Some e /\ State e = CommitStateSuperseded /\ exists x, find_ver (SupersededBy e) l = Some x /\ undecided (State x) = false.

(** The calls of others than the resolver that do not abandon the head. *)
Definition leaves_head (e : CommitEntry) (o : qop) : Prop :=
  match o with QAdvance | QCommit _ _ => False | QAbandon v _ _ => v <> ver e | _ => True end.

Lemma head_update v f l e : head l = Some e -> ver e <> v -> head (update v f l) = Some e.
Proof. destruct l as [|y l]; [done|]. intros [= ->] N. unfold update. cbn. by rewrite decide_False. Qed.

Lemma find_update v f u l x : (forall y, ver (f y) = ver y) -> NoDup (ver <$> l) -> find_ver u l = Some x ->
  find_ver u (update v f l) = Some (if decide (u = v) then f x else x).
Proof.
  intros Vf N F. apply find_ver_Some in F as [I <-]; [|done]. apply find_ver_Some; [by rewrite update_ver|].
  split; [|by case_decide]. unfold update. apply list_elem_of_fmap. exists x. split; [|done]. by repeat case_decide.
Qed.

Lemma blocked_mark e l v f x : blocked e l -> NoDup (ver <$> l) -> find_ver v l = Some x -> x <> e -> (forall y, ver (f y) = ver y) ->
  (undecided (State x) = false -> undecided (State (f x)) = false) -> blocked e (update v f l).
Proof.
  intros (Hd & St & y & F & U) N Fx Ne Vf Uf. apply find_ver_Some in Fx as [Ix Vx]; [|done]. split; [|split; [done|]].
  - apply head_update; [done|]. intros E. destruct Ne.
    assert (Ie : e ∈ l) by (destruct l; [done|]; injection Hd as ->; by left).
    assert (F1 : find_ver v l = Some x) by (by apply find_ver_Some). assert (F2 : find_ver v l = Some e) by (by apply find_ver_Some).
    rewrite F1 in F2. by injection F2.
  - exists (if decide (SupersededBy e = v) then f y else y). split; [by apply find_update|]. case_decide as D; [|done].
    assert (F1 : find_ver v l = Some x) by (by apply find_ver_Some). rewrite D, F1 in F. injection F as ->. by apply Uf.
Qed.

Lemma blocked_plan e l o k p l2 : blocked e l -> NoDup (ver <$> l) -> leaves_head e o -> plan_of o l = Logged k p l2 -> NoDup (ver <$> l2) ->
  blocked e l2.
Proof.
  intros B N Lh P N2.
  assert (M : forall v refused kind payload f, (forall y, ver (f y) = ver y) -> mark v refused kind payload f l = Logged k p l2 ->
    (forall x, find_ver v l = Some x -> refused x = None -> x <> e /\ (undecided (State x) = false -> undecided (State (f x)) = false)) -> blocked e l2).
  { intros v refused kind payload f Vf E K. unfold mark in E. destruct (find_ver v l) as [x|] eqn:F; [|done].
    destruct (refused x) eqn:Rx; [done|]. injection E as _ _ <-. destruct (K x eq_refl Rx). by apply (blocked_mark e l v f x). }
  destruct B as (Hd & St & y & F & U). destruct o as [d now|v rep|v rep reason concerns|v sup|v now|v reason now|]; cbn [plan_of leaves_head] in *; try done.
  - destruct (find_ver (MergedVersion d) l); [done|]. injection P as _ _ <-. split; [by destruct l|]. split; [done|]. exists y. split; [|done].
    apply find_ver_Some in F as [I V]; [|done]. apply find_ver_Some; [done|]. split; [by apply elem_of_app; left|done].
  - eapply M; [|exact P|]; [done|]. intros x Fx G. unfold unless, is_state in G. destruct (bool_decide _) eqn:B; [|done].
    apply bool_decide_eq_true in B. split; [congruence|by rewrite B].
  - eapply M; [|exact P|]; [done|]. intros x Fx G. unfold unless, is_state in G. destruct (bool_decide _) eqn:B; [|done].
    apply bool_decide_eq_true in B. split; [congruence|by rewrite B].
  - eapply M; [|exact P|]; [done|]. intros x Fx G. unfold is_state in G. destruct (bool_decide (State x = _)) eqn:B; [|done].
    apply bool_decide_eq_true in B. split; [congruence|done].
  - eapply M; [|exact P|]; [done|]. intros x Fx G. split; [|done]. intros ->. apply find_ver_Some in Fx as [_ Vx]; [|done]. by apply Lh.
Qed.

Inductive event := TTick (now : Z) | TCall (o : qop) | TMerged (d : MergeDescriptor).

Definition event_step (s : Resolver (W := W)) (ev : event) : Resolver := match ev with TTick now => tick s now | TCall o => call o s | TMerged d => merged d s end.
Definition events (s : Resolver (W := W)) (l : list event) : Resolver := foldl event_step s l.

Lemma tick_blocked s e now : queue_wf (queue s) -> blocked e (view (queue s)) -> tick s now = s.
Proof.
  intros Q (Hd & St & x & F & U). unfold tick. cbn [tick_rounds]. rewrite Head_view, Hd by done. unfold processHead. rewrite St.
  unfold Lookup. rewrite entry_at_view, F by done. rewrite bool_decide_eq_false_2; [done|]. intros E. by rewrite E in U.
Qed.

Lemma call_view (s : Resolver (W := W)) o : queue_wf (queue s) ->
  queue_wf (queue (call o s)) /\ view (queue (call o s)) = (spec_step (view (queue s), wal s) o).2.1 /\ flushed (call o s) = flushed s.
Proof.
  intros Q. destruct (perform_refines (queue s, wal s) (view (queue s), wal s) o) as [_ (Q' & V & _)]; [by split|].
  unfold call. by destruct (perform (queue s, wal s) o) as [r [q w]].
Qed.

Lemma call_blocked s e o : queue_wf (queue s) -> blocked e (view (queue s)) -> leaves_head e o -> blocked e (view (queue (call o s))).
Proof.
  intros Q B Lh. destruct (call_view s o Q) as (Q' & V & _). pose proof (view_nodup _ Q') as N'. rewrite V in N' |- *. unfold spec_step in *. cbn [fst snd] in *.
  destruct (plan_of o (view (queue s))) as [r l|k p l] eqn:P.
  - cbn [fst snd] in *. destruct o; cbn [plan_of leaves_head] in *; try done; unfold mark in P; repeat case_match; try done; by injection P as _ <-.
  - destruct (walAppend (wal s) k p) as [[u|x] w]; cbn [fst snd] in *; [|done]. apply (blocked_plan e _ o k p l B (view_nodup _ Q) Lh P N').
Qed.

(* ------------------------------------------------------------------ *)
(** ** A tick *)

(** The head has to wait for an audit, a remediation or a decision. *)
Definition settled (l : list CommitEntry) : Prop :=
  match l with
  | [] => True
  | e :: _ => State e = CommitStateAuditing \/ State e = CommitStateRejected \/
      State e = CommitStateSuperseded /\ forall x, find_ver (SupersededBy e) l = Some x -> State x <> CommitStateAccepted
  end.

(** What is left of the entries, some of them committed for which there was a
    flush; and those that were in audit or rejected are all left. *)
Definition left_of (fs : list Flush) (l' l : list CommitEntry) : Prop :=
  Forall (fun y => exists y0, y0 ∈ l /\ ver y0 = ver y /\ (State y = State y0 \/
    State y = CommitStateCommitted /\ State y0 = CommitStateAccepted /\ ver y ∈ for_version <$> fs)) l' /\
  Forall (fun y => State y = CommitStateAuditing \/ State y = CommitStateRejected -> y ∈ l') l.

Lemma left_refl fs l : left_of fs l l.
Proof. split; apply Forall_forall; intros y I; [|done]. exists y. split; [done|]. split; [done|by left]. Qed.

Lemma left_trans fs gs a b c : left_of gs a b -> left_of fs b c -> left_of (fs ++ gs) a c.
Proof.
  unfold left_of. rewrite !Forall_forall. intros [A A'] [B B']. split.
  - intros y I. destruct (A y I) as (y1 & I1 & V1 & S1), (B y1 I1) as (y2 & I2 & V2 & S2).
    exists y2. split; [done|]. split; [congruence|]. rewrite fmap_app, elem_of_app. rewrite V1 in S2.
    destruct S1 as [S1|(S1 & S1' & J1)], S2 as [S2|(S2 & S2' & J2)].
    + left. congruence.
    + right. split; [congruence|]. split; [done|by left].
    + right. split; [done|]. split; [congruence|by right].
    + congruence.
  - intros y I S. apply A'; [by apply B'|done].
Qed.

Lemma left_update v now l x o b : NoDup (ver <$> l) -> find_ver v l = Some x -> State x = CommitStateAccepted ->
  left_of [mkFlush v o b] (update v (commit now) l) l.
Proof.
  intros N F St. assert (U : forall y, y ∈ l -> ver y = v -> y = x).
  { intros y I V. assert (E : find_ver v l = Some y) by (by apply find_ver_Some). rewrite F in E. by injection E. }
  split; [apply Forall_fmap|]; apply Forall_forall; intros y I.
  - cbn. exists y. split; [done|]. case_decide as D; (split; [done|]); [right|by left]. split; [done|]. split; [by rewrite (U y I D)|].
    rewrite <- D. by left.
  - intros S. unfold update. apply list_elem_of_fmap. exists y. split; [|done]. rewrite decide_False; [done|]. intros D.
    rewrite (U y I D), St in S. by destruct S.
Qed.

Lemma left_advance l : left_of [] (advance l).2 l.
Proof.
  unfold advance. destruct l as [|e l]; [apply left_refl|]. destruct (removable (State e)) eqn:R; [|apply left_refl]. cbn [snd].
  split; apply Forall_forall; intros y I.
  - exists y. split; [by right|]. split; [done|by left].
  - intros S. apply elem_of_cons in I as [->|I]; [|done]. by destruct S as [S|S]; rewrite S in R.
Qed.

Lemma length_advance l e : (advance l).1 = Some e -> length l = S (length (advance l).2).
Proof. unfold advance. destruct l as [|x l]; [done|]. by destruct (removable (State x)). Qed.

Lemma length_update v f l : length (update v f l) = length l.
Proof. apply length_fmap. Qed.

(** The flushes were for accepted entries. *)
Definition accepted_in (l : list CommitEntry) (fs : list Flush) : Prop :=
  Forall (fun f => exists e, e ∈ l /\ ver e = for_version f /\ State e = CommitStateAccepted) fs.

(** Each flush writes all there is in the overlay. *)
Fixpoint drains (o : list SemanticVersion) (fs : list Flush) (o' : list SemanticVersion) : Prop :=
  match fs with
  | [] => o' = o
  | f :: fs => wrote f = o /\ drains (if emptied f then [] else o) fs o'
  end.

Lemma drains_app fs gs o1 o2 o3 : drains o1 fs o2 -> drains o2 gs o3 -> drains o1 (fs ++ gs) o3.
Proof. revert o1. induction fs as [|f fs IH]; intros o1; [by intros ->|]. intros [Wf D] G. split; [done|]. by apply IH. Qed.

Lemma drains_wrote fs o o' : drains o fs o' -> Forall (fun f => wrote f = o \/ wrote f = []) fs.
Proof.
  revert o. induction fs as [|f fs IH]; intros o; [by constructor|]. intros [Wf D]. constructor; [by left|].
  eapply Forall_impl; [exact (IH _ D)|]. cbn. intros g [->| ->]; [|by right]. destruct (emptied f); [by right|by left].
Qed.

Lemma drains_all fs o : drains o fs [] -> o = [] \/ exists f, f ∈ fs /\ wrote f = o.
Proof. destruct fs as [|f fs]; [by left|]. intros [Wf _]. right. exists f. split; [by left|done]. Qed.

(** One round of a tick, with the entries that are left and what it flushed. *)
Definition round_ok (s s' : Resolver (W := W)) : Prop :=
  queue_wf (queue s') /\ exists fs, left_of fs (view (queue s')) (view (queue s)) /\
  flushed s' = flushed s ++ fs /\ accepted_in (view (queue s)) fs /\ drains (overlay s) fs (overlay s') /\
  (flushes s = [] -> flushes s' = [] /\ Forall (fun f => emptied f = true) fs).

Lemma round_still s s' : queue_wf (queue s') -> left_of [] (view (queue s')) (view (queue s)) -> flushed s' = flushed s -> overlay s' = overlay s ->
  flushes s' = flushes s -> round_ok s s'.
Proof. intros Q L F O E. split; [done|]. exists []. rewrite app_nil_r, E. split; [done|]. split; [done|]. split; [by constructor|]. split; [done|]. by split. Qed.

Lemma round_same s : queue_wf (queue s) -> round_ok s s.
Proof. intros Q. apply round_still; [done|apply left_refl|done..]. Qed.

Lemma round_trans s1 s2 s3 : round_ok s1 s2 -> round_ok s2 s3 -> round_ok s1 s3.
Proof.
  intros (_ & fs & L & Fl & A & D & E) (Q' & gs & L' & Fl' & A' & D' & E'). split; [done|]. exists (fs ++ gs).
  split; [by eapply left_trans|]. split; [by rewrite Fl', Fl, app_assoc|].
  split; [|split; [by eapply drains_app|intros [E1 F1]%E; destruct (E' E1); split; [done|by apply Forall_app]]].
  apply Forall_app. split; [done|]. eapply Forall_impl; [exact A'|]. cbn. intros f (y & Iy & Vy & Sy).
  destruct L as [L _]. rewrite Forall_forall in L. destruct (L y Iy) as (y0 & I0 & V0 & [S0|(S0 & _)]); [|congruence].
  exists y0. split; [done|]. split; [congruence|]. by rewrite <- S0.
Qed.

(** What a flush does: nothing to the queue. *)
Lemma flush_round s d x : queue_wf (queue s) -> find_ver (MergedVersion d) (view (queue s)) = Some x -> State x = CommitStateAccepted ->
  round_ok s (flushToDisk s d).2 /\ queue (flushToDisk s d).2 = queue s /\
  ((flushToDisk s d).1 = true -> exists o b, flushed (flushToDisk s d).2 = flushed s ++ [mkFlush (MergedVersion d) o b]).
Proof.
  intros Q F St. apply find_ver_Some in F as [I V]; [|by apply view_nodup].
  assert (K0 : forall fl, flushes s <> [] -> round_ok s (after_flush fl (overlay s) [] s)).
  { intros fl N. split; [done|]. exists []. split; [apply left_refl|]. split; [done|]. split; [by constructor|]. by split. }
  assert (K : forall fl b, (flushes s = [] -> fl = [] /\ b = true) ->
    round_ok s (after_flush fl (if b then [] else overlay s) [mkFlush (MergedVersion d) (overlay s) b] s)).
  { intros fl b N. split; [done|]. eexists. split; [apply left_refl|]. split; [done|]. split; [constructor; [by exists x|constructor]|].
    split; [done|]. intros [-> ->]%N. split; [done|]. by repeat constructor. }
  unfold flushToDisk. destruct (flushes s) as [|[] fl]; cbn [fst snd]; (split; [|split; [done|try done; intros _; by do 2 eexists]]);
    first [by apply (K _ true) | by apply K0 | by apply (K _ false)].
Qed.

Lemma commit_round s v line now x o b l : queue_wf (queue s) -> find_ver v (view (queue s)) = Some x -> State x = CommitStateAccepted ->
  flushed s = l ++ [mkFlush v o b] ->
  let s' := (commit_and_pop s v line now).2 in
  queue_wf (queue s') /\ left_of [mkFlush v o b] (view (queue s')) (view (queue s)) /\ flushed s' = flushed s /\ overlay s' = overlay s /\
  flushes s' = flushes s /\
  ((commit_and_pop s v line now).1 = Ok true -> length (view (queue s)) = S (length (view (queue s')))).
Proof.
  intros Q F St Ef. pose proof (commit_and_pop_view s v line now Q) as C.
  destruct (commit_and_pop s v line now) as [r s']. destruct C as (Q' & Fl & Em & Ov & C). cbn [fst snd]. split; [done|]. split.
  - destruct r as [a|err]; [|rewrite C; apply left_refl]. destruct C as [-> _].
    rewrite <- (app_nil_r [mkFlush v o b]). eapply left_trans; [apply left_advance|by eapply left_update; [apply view_nodup|..]].
  - split; [done|]. split; [done|]. split; [done|]. intros ->. destruct C as (-> & Ae). symmetry in Ae. apply bool_decide_eq_true in Ae as [e Ae].
    rewrite <- (length_update v (commit now)). by apply length_advance in Ae.
Qed.

(** A flush, and the commit it is for. *)
Lemma flush_commit s d line now x : queue_wf (queue s) -> find_ver (MergedVersion d) (view (queue s)) = Some x -> State x = CommitStateAccepted ->
  match flushToDisk s d with
  | (false, s0) => round_ok s s0
  | (true, s0) => let '(r, s') := commit_and_pop s0 (MergedVersion d) line now in
      round_ok s s' /\ (r = Ok true -> length (view (queue s)) = S (length (view (queue s'))))
  end.
Proof.
  intros Q F St. destruct (flush_round s d x Q F St) as ((Q0 & fs & L0 & Fl0 & A0 & D0 & E0) & Eq & Ok0). destruct (flushToDisk s d) as [[] s0]; cbn [fst snd] in *.
  - destruct (Ok0 eq_refl) as (o & b & Eo). rewrite <- Eq in F. pose proof (commit_round s0 _ line now x o b _ Q0 F St Eo) as C. cbv zeta in C.
    destruct (commit_and_pop s0 (MergedVersion d) line now) as [r s']. cbn [fst snd] in C. destruct C as (Q' & L & Fl & Ov & Em & Ln). rewrite Eq in L, Ln. split; [|done].
    assert (fs = [mkFlush (MergedVersion d) o b]) as -> by (rewrite Eo in Fl0; by apply app_inv_head in Fl0).
    split; [done|]. eexists. split; [exact L|]. split; [by rewrite Fl|]. split; [done|by rewrite Ov, Em].
  - split; [done|]. by exists fs.
Qed.

Lemma pop_round s s' e q : queue_wf (queue s) -> Advance (queue s) = (Some e, q) -> queue s' = q -> flushed s' = flushed s -> overlay s' = overlay s ->
  flushes s' = flushes s -> round_ok s s' /\ length (view (queue s)) = S (length (view (queue s'))).
Proof.
  intros Q A Eq Ef Eo Em. destruct (Advance_view (queue s) Q) as (A1 & V & Q'). rewrite A in *. cbn [fst snd] in *. rewrite <- Eq in *. split.
  - apply round_still; [done|rewrite V; apply left_advance|done..].
  - rewrite V. by apply length_advance with e.
Qed.

Lemma stay_round s q : queue_wf (queue s) -> Advance (queue s) = (None, q) -> round_ok s (set_queue (q, wal s) s).
Proof.
  intros Q A. assert (q = queue s) as ->.
  { unfold Advance in A. destruct (entries (queue s)); [by injection A|]. destruct (heap (queue s) !! n); [|by injection A].
    destruct (removable _); [done|by injection A]. }
  replace (set_queue (queue s, wal s) s) with s by (by destruct s). by apply round_same.
Qed.

Lemma water_line_same s v now : queue (advanceWaterLineTo s v now) = queue (W := W) s /\ flushed (advanceWaterLineTo s v now) = flushed s /\
  flushes (advanceWaterLineTo s v now) = flushes s /\ overlay (advanceWaterLineTo s v now) = overlay s.
Proof. unfold advanceWaterLineTo. by destruct (CopyRetention.CopyRetention.AdvanceWaterLine _ _ _ _) as [r [ret w2]]. Qed.

Lemma head_found q e : queue_wf q -> head (view q) = Some e -> find_ver (ver e) (view q) = Some e.
Proof. intros Q Hd. apply find_ver_Some; [by apply view_nodup|]. split; [|done]. destruct (view q); [done|]. injection Hd as ->. by left. Qed.

(** A round on the head: what it removes, flushes and leaves. *)
Lemma process_round s e now : queue_wf (queue s) -> head (view (queue s)) = Some e ->
  round_ok s (processHead s e now).2 /\
  ((processHead s e now).1 = Ok true -> length (view (queue s)) = S (length (view (queue (processHead s e now).2)))).
Proof.
  intros Q Hd. pose proof (head_found _ e Q Hd) as Fe. unfold processHead. destruct (State e) eqn:St; try (by split; [apply round_same|]).
  - pose proof (flush_commit s (Descriptor e) own_version now e Q Fe St) as F. destruct (flushToDisk s (Descriptor e)) as [[] s0]; [|by split].
    unfold own_version at 1 3 5. by destruct (commit_and_pop s0 _ _ now).
  - unfold Lookup. rewrite entry_at_view by done. destruct (find_ver (SupersededBy e) (view (queue s))) as [x|] eqn:Fx; [|by split; [apply round_same|]].
    destruct (bool_decide (State x = CommitStateAccepted)) eqn:B; [|by split; [apply round_same|]]. apply bool_decide_eq_true in B. cbn [negb].
    pose proof Fx as Fx'. apply find_ver_Some in Fx' as [_ Vx]; [|by apply view_nodup]. rewrite <- Vx in Fx.
    pose proof (flush_commit s (Descriptor x) (fun _ => own_version x) now x Q Fx B) as F. destruct (flushToDisk s (Descriptor x)) as [[] s0]; [|by split].
    unfold own_version at 1 3. by destruct (commit_and_pop s0 _ _ now).
  - destruct (Advance (queue s)) as [[p|] q] eqn:A; [destruct (pop_round s (set_queue (q, wal s) s) p q Q A) as [Rn Ln]; done|].
    cbn [fst snd]. split; [|done]. by apply stay_round.
  - destruct (Advance (queue s)) as [[p|] q] eqn:A.
    + destruct (water_line_same (set_queue (q, wal s) s) (own_version p) now) as (Wq & Wf & We & Wo). cbn [fst snd].
      destruct (pop_round s (advanceWaterLineTo (set_queue (q, wal s) s) (own_version p) now) p q Q A) as [Rn Ln]; [by rewrite Wq|by rewrite Wf|by rewrite Wo|by rewrite We|done].
    + cbn [fst snd]. split; [|done]. by apply stay_round.
Qed.

Lemma rounds_ok n : forall s now, queue_wf (queue s) -> round_ok s (tick_rounds n s now).
Proof.
  induction n as [|n IH]; intros s now Q; [by apply round_same|]. cbn [tick_rounds]. rewrite Head_view by done.
  destruct (head (view (queue s))) as [e|] eqn:Hd; [|by apply round_same]. destruct (process_round s e now Q Hd) as [R _].
  destruct (processHead s e now) as [[[]|err] s']; cbn [snd] in *; try done. eapply round_trans; [exact R|]. apply IH, R.
Qed.

(* ------------------------------------------------------------------ *)
(** ** When nothing fails *)

Section fine.
Context (Fine : forall (w : option W) k p, (walAppend w k p).1 = Ok tt).

Lemma MarkCommitted_fine (q : CommitQueue) (w : option W) v now x : queue_wf q -> find_ver v (view q) = Some x -> State x = CommitStateAccepted ->
  (MarkCommitted (q, w) v now).1 = Ok tt.
Proof.
  intros Q F St. rewrite <- entry_at_view in F by done. unfold MarkCommitted. cbn [fst snd].
  destruct (entry_at q v) as [[r y]|]; [|done]. injection F as ->. rewrite St. unfold logged_then. cbn [snd].
  pose proof (Fine w ControlKindCommitQueueMarkCommitted (queuePayload v "" "" [] VersionZero)) as A. by destruct (walAppend w _ _) as [[[]|e] w'].
Qed.

Lemma advance_head l y : head l = Some y -> removable (State y) = true -> (advance l).1 = Some y.
Proof. destruct l as [|z l]; [done|]. intros [= ->] R. unfold advance. by rewrite R. Qed.

Lemma commit_fine (s : Resolver (W := W)) v line now x y : queue_wf (queue s) -> find_ver v (view (queue s)) = Some x -> State x = CommitStateAccepted ->
  head (update v (commit now) (view (queue s))) = Some y -> removable (State y) = true -> (commit_and_pop s v line now).1 = Ok true.
Proof.
  intros Q F St Hy Ry. pose proof (MarkCommitted_fine (queue s) (wal s) v now x Q F St) as M. pose proof (commit_and_pop_view s v line now Q) as C.
  destruct (commit_and_pop s v line now) as [[b|e] s'] eqn:E; cbn [fst].
  - destruct C as (_ & _ & _ & _ & _ & ->). rewrite (advance_head _ y) by done. by rewrite bool_decide_eq_true_2.
  - unfold commit_and_pop in E. destruct (MarkCommitted (queue s, wal s) v now) as [[u|x'] t]; [|done].
    destruct (Advance _) as [[p|] q]; [by injection E|done].
Qed.

Lemma process_settles (s : Resolver (W := W)) e now : queue_wf (queue s) -> head (view (queue s)) = Some e -> flushes s = [] ->
  (processHead s e now).1 = Ok true \/ settled (view (queue s)) /\ (processHead s e now).2 = s.
Proof.
  intros Q Hd Fl. pose proof (head_found _ e Q Hd) as Fe. unfold processHead, settled, flushToDisk. rewrite Fl.
  assert (Hu : forall v, head (update v (commit now) (view (queue s))) = Some (if decide (ver e = v) then commit now e else e)).
  { intros v. destruct (view (queue s)) as [|z l]; [done|]. injection Hd as ->. done. }
  destruct (view (queue s)) as [|z l] eqn:V; [done|]. injection Hd as ->.
  assert (Ad : removable (State e) = true -> exists q, Advance (queue s) = (Some e, q)).
  { intros R. destruct (Advance_view (queue s) Q) as (A & _ & _). rewrite V in A. unfold advance in A. rewrite R in A.
    destruct (Advance (queue s)) as [o q]. cbn in A. subst. by exists q. }
  destruct (State e) eqn:St; [right; split; [by left|done]|left|right; split; [by right; left|done]| |left..].
  - apply (commit_fine _ _ _ _ e (commit now e)); cbn [queue after_flush]; [done|by rewrite V|done| |done]. rewrite V, Hu. unfold own_version. fold (ver e).
    by rewrite decide_True.
  - unfold Lookup. rewrite entry_at_view, V by done. destruct (find_ver (SupersededBy e) (e :: l)) as [x|] eqn:Fx;
      [|right; split; [by right; right|done]].
    destruct (bool_decide (State x = CommitStateAccepted)) eqn:B; cbn [negb].
    + left. apply bool_decide_eq_true in B. pose proof (view_nodup _ Q) as N. rewrite V in N. pose proof Fx as Fx'. apply find_ver_Some in Fx' as [_ Vx]; [|done].
      apply (commit_fine _ _ _ _ x e); cbn [queue after_flush]; [done|rewrite V; unfold own_version; fold (ver x); by rewrite Vx|done| |by rewrite St].
      rewrite V, Hu. rewrite decide_False; [done|]. unfold own_version. fold (ver x). intros E. rewrite <- Vx, <- E, Fe in Fx. injection Fx as ->. congruence.
    + right. apply bool_decide_eq_false in B. split; [right; right; split; [done|]|done]. by intros y [= <-].
  - destruct (Ad eq_refl) as [q ->]. done.
  - destruct (Ad eq_refl) as [q ->]. done.
Qed.

Lemma rounds_settle n : forall s now, queue_wf (queue s) -> flushes s = [] ->
  settled (view (queue (tick_rounds n s now))) \/ length (view (queue s)) = (n + length (view (queue (tick_rounds n s now))))%nat.
Proof.
  induction n as [|n IH]; intros s now Q Fl; [by right|]. cbn [tick_rounds]. rewrite Head_view by done.
  destruct (head (view (queue s))) as [e|] eqn:Hd; [|left; by destruct (view (queue s))].
  destruct (process_round s e now Q Hd) as [R Ln]. destruct R as (Q' & fs & _ & _ & _ & _ & Em). destruct (Em Fl) as [Fl' _].
  destruct (process_settles s e now Q Hd Fl) as [A|[St Es]].
  - specialize (Ln A). destruct (processHead s e now) as [r s']. cbn [fst snd] in *. subst r.
    destruct (IH s' now Q' Fl') as [S|L]; [by left|right]. rewrite Ln, L. lia.
  - left. destruct (processHead s e now) as [r s']. cbn [fst snd] in *. subst s'. destruct r as [[]|]; [|done|done].
    specialize (Ln eq_refl). lia.
Qed.
End fine.
End resolver.

(** Once the head is superseded by a merge that was committed, abandoned
    or superseded itself, no tick, no merge and no call of others changes it,
    unless the head is abandoned: nothing is flushed any more, and what is
    merged stays in the overlay. *)
Theorem resolver_stuck {W} `{ControlLog W} (s : Resolver (W := W)) e evs : queue_wf (queue s) -> blocked e (view (queue s)) ->
  Forall (fun ev => match ev with TCall o => leaves_head e o | _ => True end) evs ->
  Head (queue (events s evs)) = Some e /\ flushed (events s evs) = flushed s /\
  overlay (events s evs) = overlay s ++ omap (fun ev => match ev with TMerged d => Some (MergedVersion d) | _ => None end) evs.
Proof.
  revert s. induction evs as [|ev evs IH]; intros s Q B F; [split; [rewrite Head_view by done; apply B|]; split; [done|by rewrite app_nil_r]|].
  apply Forall_cons in F as [Fe F]. cbn [events foldl]. destruct ev as [now|o|d]; cbn [event_step].
  - rewrite (tick_blocked s e now Q B). by apply IH.
  - destruct (call_view s o Q) as (Q' & _ & Fl). rewrite <- Fl. apply (IH (call o s)); [done|by apply call_blocked|done].
  - destruct (IH (merged d s) Q B F) as (Hd & Fl & Ov). split; [exact Hd|]. split; [exact Fl|].
    transitivity (overlay (merged d s) ++ omap (fun ev => match ev with TMerged d => Some (MergedVersion d) | _ => None end) evs); [exact Ov|].
    unfold merged. cbn [overlay]. by rewrite <- app_assoc.
Qed.

(** C9: a tick calls for flushes for merges only that were accepted when it
    began; each flush writes all that is in the overlay, of whatever merge, and
    empties it when none fails; a tick marks as committed only accepted merges
    for which there was a flush, and leaves every merge in the queue that is in
    audit or rejected; and when neither flushes nor the log fail, it goes on
    until the head waits for an audit, a remediation or a supersedor, or it has
    removed sixteen entries. *)
Theorem tick_exact {W} `{ControlLog W} (s : Resolver (W := W)) now : queue_wf (queue s) ->
  queue_wf (queue (tick s now)) /\
  (exists fs, flushed (tick s now) = flushed s ++ fs /\ accepted_in (view (queue s)) fs /\
    drains (overlay s) fs (overlay (tick s now)) /\ (flushes s = [] -> Forall (fun f => emptied f = true) fs) /\
    left_of fs (view (queue (tick s now))) (view (queue s))) /\
  ((forall (w : option W) k p, (walAppend w k p).1 = Ok tt) -> flushes s = [] ->
   settled (view (queue (tick s now))) \/ length (view (queue s)) = (16 + length (view (queue (tick s now))))%nat).
Proof.
  intros Q. destruct (rounds_ok 16 s now Q) as (Q' & fs & L & Fl & A & D & E). split; [done|].
  split; [exists fs; split; [done|]; split; [done|]; split; [done|]; split; [by intros Em; apply E|done]|].
  intros Fine Em. by apply rounds_settle.
Qed.
End CommitResolverProof.

(** * Concrete runs of the resolver

    A remediation that is committed and the same queue after the session is
    opened again; and the copy of a merge in audit that is released. *)

Module CommitResolverCases.
Import CommitQueueProof CommitResolver CommitResolverProof.

Definition v (n : Z) : SemanticVersion := mkVersion 1 n.
Definition base : SemanticVersion := mkVersion 1 0.

Definition merge (n : Z) : MergeDescriptor :=
  mkDescriptor "pipe" base (v n) [] 0 0 (mkCertificate "" [] "" "") false VersionZero.

(** A resolver that starts, with its log. *)
Definition start : Resolver (W := session_log) :=
  mkResolver NewCommitQueue CopyRetention.CopyRetention.NewCopyRetention (Some (ControlSession.ControlSessionProof.new_log [])) [] [] [] [] [].

(** A merge, which is enqueued. *)
Definition enqueued (n t : Z) : list event := [TMerged (merge n); TCall (QEnqueue (merge n) t)].

(** Merge 1 is rejected and merge 2, which remedies it, accepted. *)
Definition remediation : list event :=
  enqueued 1 1 ++ [TCall (QReject (v 1) "r1" "no" [])] ++ enqueued 2 2 ++ [TCall (QAccept (v 2) "r2"); TCall (QSupersede (v 1) (v 2)); TTick 3].

(** The session is opened again on the same file, and the resolver started;
    the draft is taken to be what it was. *)
Definition reopened (s : Resolver (W := session_log)) : option (Resolver (W := session_log)) :=
  match wal s with
  | None => None
  | Some w =>
    match ControlWal.OpenControlWAL (ControlWal.log w.1) ControlWal.OpenFine with
    | Some (Ok w') =>
      match ControlSession.ControlSession.replayControlWAL (∅ : gmap string bytes) (merges s) w' true with
      | Some (Ok t) => Some (mkResolver (ControlSession.ControlSession.commitQueue t) (ControlSession.ControlSession.copyRetention t)
          (Some (w', [])) (merges s) [] (overlay s) [] [])
      | _ => None
      end
    | _ => None
    end
  end.

Definition states (s : Resolver (W := session_log)) : list (SemanticVersion * CommitState) := (fun e => (ver e, State e)) <$> view (queue s).

Lemma start_wf : queue_wf (queue start).
Proof. apply empty_queue_wf. Qed.

Definition later : list event := enqueued 3 4 ++ [TCall (QAccept (v 3) "r3"); TTick 5; TTick 6].

(** The same, with a merge between them whose audit goes on. *)
Definition overtaken : list event :=
  enqueued 1 1 ++ [TCall (QReject (v 1) "r1" "no" [])] ++ enqueued 2 2 ++ enqueued 3 2 ++
  [TCall (QAccept (v 3) "r3"); TCall (QSupersede (v 1) (v 3)); TTick 3].

(* ------------------------------------------------------------------ *)
(** ** Claims *)

(** A remediation is committed and the queue is empty; but when the
    session is opened again the rejected merge stands in front of the queue
    once more, superseded by a merge that is committed, and what is accepted
    from then on is not flushed. *)
Theorem reopened_blocks : let s := events start remediation in
  flushed s = [mkFlush (v 2) [v 1; v 2] true] /\ states s = [] /\ flushed (events s later) = [mkFlush (v 2) [v 1; v 2] true; mkFlush (v 3) [v 3] true] /\
  exists s', reopened s = Some s' /\ states s' = [(v 1, CommitStateSuperseded); (v 2, CommitStateCommitted)] /\
    flushed (events s' later) = [] /\ overlay (events s' later) = [v 3] /\
    states (events s' later) = [(v 1, CommitStateSuperseded); (v 2, CommitStateCommitted); (v 3, CommitStateAccepted)].
Proof.
  cbv zeta. split; [vm_compute; reflexivity|]. split; [vm_compute; reflexivity|]. split; [vm_compute; reflexivity|]. eexists.
  split; [vm_compute; reflexivity|]. split; [vm_compute; reflexivity|]. split_and!; vm_compute; reflexivity.
Qed.

(** A merge whose audit goes on reaches the disk with the one that is
    committed; and its copy is released. *)
Theorem auditing_copy_released : let s := events start overtaken in
  states s = [(v 2, CommitStateAuditing); (v 3, CommitStateCommitted)] /\ flushed s = [mkFlush (v 3) [v 1; v 2; v 3] true] /\ v 2 ∈ released s.
Proof. cbv zeta. split_and!; [vm_compute; reflexivity..|]. apply (bool_decide_eq_true_1 _). vm_compute. reflexivity. Qed.

(** What is abandoned, and a merge that is still in audit, are on the disk when
    an accepted merge was flushed before. *)
Theorem abandoned_on_disk :
  let s := events start (enqueued 1 1 ++ enqueued 2 2 ++ [TCall (QAccept (v 1) "r1"); TTick 3; TCall (QAbandon (v 2) "given up" 4); TTick 5]) in
  states s = [] /\ flushed s = [mkFlush (v 1) [v 1; v 2] true].
Proof. cbv zeta. split; vm_compute; reflexivity. Qed.

(* ------------------------------------------------------------------ *)
(** ** Witnesses *)

Lemma overtaken_wf evs : queue_wf (queue (events start evs)).
Proof.
  unfold events. assert (G : forall s, queue_wf (queue s) -> queue_wf (queue (foldl event_step s evs))).
  { induction evs as [|ev evs IH]; intros s Q; [done|]. cbn [foldl]. apply IH. destruct ev as [now|o|d]; cbn [event_step].
    - by destruct (rounds_ok 16 s now Q).
    - by destruct (call_view s o Q).
    - done. }
  apply G, start_wf.
Qed.

(** The queue after [remediation], before its merges leave it. *)
Definition before_tick : Resolver (W := session_log) := events start (take 7 remediation).

Lemma tick_exact_witness : queue_wf (queue before_tick) /\
  queue_wf (queue (tick before_tick 3)) /\
  (exists fs, flushed (tick before_tick 3) = flushed before_tick ++ fs /\ accepted_in (view (queue before_tick)) fs /\
    drains (overlay before_tick) fs (overlay (tick before_tick 3)) /\ (flushes before_tick = [] -> Forall (fun f => emptied f = true) fs) /\ left_of fs (view (queue (tick before_tick 3))) (view (queue before_tick))) /\
  ((forall (w : option session_log) k p, (walAppend w k p).1 = Ok tt) -> flushes before_tick = [] ->
   settled (view (queue (tick before_tick 3))) \/
   length (view (queue before_tick)) = (16 + length (view (queue (tick before_tick 3))))%nat).
Proof. split; [apply overtaken_wf|]. apply (tick_exact before_tick 3), overtaken_wf. Defined.

(** Merge 2, which supersedes merge 1, is abandoned before it is flushed. *)
Definition abandoned_supersedor : Resolver (W := session_log) :=
  events start (take 7 remediation ++ [TCall (QAbandon (v 2) "given up" 3)]).

Definition first_entry : CommitEntry := mkCommitEntry (merge 1) CommitStateSuperseded "no" [] (v 2) "r1" 1 0.

Lemma resolver_stuck_witness : queue_wf (queue abandoned_supersedor) /\ blocked first_entry (view (queue abandoned_supersedor)) /\
  Head (queue (events abandoned_supersedor later)) = Some first_entry /\ flushed (events abandoned_supersedor later) = flushed abandoned_supersedor /\
  overlay (events abandoned_supersedor later) = overlay abandoned_supersedor ++ [v 3].
Proof.
  assert (Q : queue_wf (queue abandoned_supersedor)) by apply overtaken_wf.
  assert (B : blocked first_entry (view (queue abandoned_supersedor))).
  { split; [vm_compute; reflexivity|]. split; [reflexivity|]. eexists. split; vm_compute; reflexivity. }
  split; [exact Q|]. split; [exact B|]. apply (resolver_stuck abandoned_supersedor first_entry later Q B). repeat constructor.
Defined.
End CommitResolverCases.
