(* ===== verification/MergeAudit.v ===== *)
(** * The audits of merges (agents/shared/merge_audit_coordinator.go)

    Every merge is audited by an inspector and a tester.  The coordinator
    spawns the two replicas of a merge, collects their verdicts, and moves the
    queue, the references on copies, the lifecycles and the overlays of the
    session.  It is accepted when both accept, and rejected with the first
    rejection.  The identifiers of replicas are those of
    merge_replica_identity.go. *)

From S2P Require Import Prelude GoStd Semantic ControlEntryProof ControlWal ControlWalProof ControlLog.
From S2P Require CommitQueueProof CopyRetention ReplicaLifecycle ReplicaVfsProof ControlSession CommitResolver.
Import Semantic ControlEntry.
Import CommitQueue ReplicaVfs ReplicaLifecycle.

(** * The identifiers of replicas (agents/shared/merge_replica_identity.go) *)

Module MergeIdentity.

Definition MergeReplicaAgentID (agentType sessionID : string) (ver : SemanticVersion) : string :=
  let agentType := TrimSpace agentType in
  let sessionID := TrimSpace sessionID in
  if bool_decide (agentType = "") then ""
  else agentType +:+ "#replica-" +:+ sessionID +:+ ":" +:+ print_uint (Major ver) +:+ "." +:+ print_uint (Minor ver).

(** [strings.Index(s, sep)], with what stands before and behind. *)
Definition cut (sep s : string) : option (string * string) :=
  match String.index 0 sep s with
  | Some i => Some (substring 0 i s, substring (i + String.length sep) (String.length s - (i + String.length sep)) s)
  | None => None
  end.

(** [strings.LastIndex] of a character. *)
Fixpoint cut_last (c : ascii) (s : string) : option (string * string) :=
  match s with
  | EmptyString => None
  | String x s =>
    match cut_last c s with
    | Some (before, after) => Some (String x before, after)
    | None => if Ascii.eqb x c then Some (EmptyString, s) else None
    end
  end.

Fixpoint span_digits (s : list byte) : list byte * list byte :=
  match s with
  | [] => ([], [])
  | b :: s' => if bool_decide (digit b) then let (d, rest) := span_digits s' in (b :: d, rest) else ([], s)
  end.

(** [%d] of [fmt.Sscanf] for a [uint32]: spaces, but no newline, then digits. *)
Definition scan_uint32 (s : list byte) : option (Z * list byte) :=
  let s := trim_left (filter (fun p => p <> [x0a]) spaces) (length s) s in
  let (d, rest) := span_digits s in
  match ParseUint32 (bytes_str d) with Some n => Some (n, rest) | None => None end.

(** [fmt.Sscanf(s, "%d.%d", &major, &minor)], which ignores what follows. *)
Definition scan_version (s : string) : option SemanticVersion :=
  match scan_uint32 (str_bytes s) with
  | Some (major, x2e :: rest) =>
    match scan_uint32 rest with Some (minor, _) => Some (mkVersion major minor) | None => None end
  | _ => None
  end.

(** [None]: the last result is false, and the others are zero. *)
Definition ParseMergeReplicaAgentID (id : string) : option (string * string * SemanticVersion) :=
  match cut "#replica-" (TrimSpace id) with
  | None => None
  | Some (agentType, rest) =>
    match cut_last ":" rest with
    | None => None
    | Some (sessionID, verStr) =>
      match cut "." verStr with
      | None => None
      | Some _ => match scan_version verStr with Some ver => Some (agentType, sessionID, ver) | None => None end
      end
    end
  end.

Definition AgentTypeInspectorGlobal : string := "inspector-global".
Definition AgentTypeTesterGlobal : string := "tester-global".

(** The first result, which is empty if the identifier has another form. *)
Definition agent_type (id : string) : string :=
  match ParseMergeReplicaAgentID id with Some (agentType, _, _) => agentType | None => "" end.
End MergeIdentity.

(** * The coordinator *)

Record AuditMergeResult := mkResult {
  RReplicaID : string; RMergedVersion : SemanticVersion; RDecision : ReplicaDecision; RSummary : string; RConcerns : list string }.

Record mergePartialVerdicts := mkPartial { Inspector : option AuditMergeResult; Tester : option AuditMergeResult; Finalized : bool }.

(** What is decided on a merge, between the two halves of
    [finalizeIfReady]: [final] is accepted or rejected. *)
Record finalVerdict := mkVerdict {
  finalVersion : SemanticVersion; finalAccepted : bool; finalReplica : string; finalSummary : string; finalConcerns : list string }.

Inductive spawn_error :=
| RetainBase (e : ControlWal.control_wal_error)
| RecordSpawned (e : ReplicaLifecycle.ReplicaLifecycle.lifecycle_error)
| BeginReplicaVFS (e : AuditSession.audit_error)
| SpawnReplica (text : string).

(** The texts of errors, which the log keeps. *)
Class ErrorText := {
  spawn_text : spawn_error -> string;
  begin_text : AuditSession.audit_error -> string;
  queue_text : CommitQueue.queue_error -> string
}.

Module MergeAudit.
Import MergeIdentity ControlSession.ControlSession.
Module A := AuditSession.
Module C := CopyRetention.CopyRetention.
Module L := ReplicaLifecycle.ReplicaLifecycle.
Module Q := CommitQueue.

(** [callbacks]: how often the coordinator is registered with the session.
    [spawns]: what the spawners will answer, [None] without error; they then
    accept.  [addenda]: the versions the merge pipe gives to the addenda to
    come; it then fails.  [pending]: the verdicts between the halves of
    [finalizeIfReady].  The contexts, the bus and the requests, which only
    carry data to the replicas, are left out. *)
Record MergeAuditCoordinator {B W : Type} := mkCoordinator {
  session : SessionVFS B; controlWAL : option W; sessionID : string; running : bool; callbacks : nat;
  partials : gmap SemanticVersion mergePartialVerdicts; inFlight : gset string;
  spawns : list (option string); addenda : list SemanticVersion; pending : list finalVerdict }.
Arguments MergeAuditCoordinator : clear implicits.

Section coordinator.
Context {B : Type} `{BaseFS B} {W : Type} `{ControlLog W} `{ErrorText}.
#[local] Abbreviation Coordinator := (MergeAuditCoordinator B W).

Definition NewMergeAuditCoordinator (s : SessionVFS B) (w : option W) (id : string) (spawns : list (option string))
  (addenda : list SemanticVersion) : Coordinator := mkCoordinator B W s w id false 0 ∅ ∅ spawns addenda [].

Definition set_session (t : SessionVFS B * option W) (c : Coordinator) : Coordinator :=
  mkCoordinator B W t.1 t.2 (sessionID c) (running c) (callbacks c) (partials c) (inFlight c) (spawns c) (addenda c) (pending c).
Definition set_running (on : bool) (n : nat) (c : Coordinator) : Coordinator :=
  mkCoordinator B W (session c) (controlWAL c) (sessionID c) on n (partials c) (inFlight c) (spawns c) (addenda c) (pending c).
Definition set_partials (p : gmap SemanticVersion mergePartialVerdicts) (c : Coordinator) : Coordinator :=
  mkCoordinator B W (session c) (controlWAL c) (sessionID c) (running c) (callbacks c) p (inFlight c) (spawns c) (addenda c) (pending c).
Definition set_inFlight (f : gset string) (c : Coordinator) : Coordinator :=
  mkCoordinator B W (session c) (controlWAL c) (sessionID c) (running c) (callbacks c) (partials c) f (spawns c) (addenda c) (pending c).
Definition set_spawns (l : list (option string)) (c : Coordinator) : Coordinator :=
  mkCoordinator B W (session c) (controlWAL c) (sessionID c) (running c) (callbacks c) (partials c) (inFlight c) l (addenda c) (pending c).
Definition set_addenda (l : list SemanticVersion) (c : Coordinator) : Coordinator :=
  mkCoordinator B W (session c) (controlWAL c) (sessionID c) (running c) (callbacks c) (partials c) (inFlight c) (spawns c) l (pending c).
Definition set_pending (l : list finalVerdict) (c : Coordinator) : Coordinator :=
  mkCoordinator B W (session c) (controlWAL c) (sessionID c) (running c) (callbacks c) (partials c) (inFlight c) (spawns c) (addenda c) l.

(** Calls on the parts of the session. *)
Definition on_queue {X} (f : Q.state (W := W) -> X * Q.state (W := W)) (c : Coordinator) : X * Coordinator :=
  let '(x, (q, w)) := f (commitQueue (session c), controlWAL c) in (x, set_session (set_queue q (session c), w) c).
Definition on_retention {X} (f : C.state (W := W) -> X * C.state (W := W)) (c : Coordinator) : X * Coordinator :=
  let '(x, (r, w)) := f (copyRetention (session c), controlWAL c) in (x, set_session (set_retention r (session c), w) c).
Definition on_replicas {X} (f : L.state (W := W) -> X * L.state (W := W)) (c : Coordinator) : X * Coordinator :=
  let '(x, (l, w)) := f (replicaLifecycleLog (session c), controlWAL c) in (x, set_session (set_replicas l (session c), w) c).
Definition on_audits {X} (f : A.astate (B := B) (W := W) -> X * A.astate (B := B) (W := W)) (c : Coordinator) : X * Coordinator :=
  let '(x, (a, w)) := f (audits (session c), controlWAL c) in (x, set_session (set_audits a (session c), w) c).

Definition Lookup (c : Coordinator) (ver : SemanticVersion) : option CommitEntry := Q.Lookup (commitQueue (session c)) ver.
Definition is_auditing (c : Coordinator) (ver : SemanticVersion) : bool :=
  match Lookup c ver with Some e => bool_decide (State e = CommitStateAuditing) | None => false end.
Definition merges (c : Coordinator) : list MergeDescriptor := A.merges (audits (session c)).

(** Whose errors are only logged. *)
Definition releaseRetentionOrLog (id : string) (c : Coordinator) : Coordinator := (on_retention (fun s => C.Release s id) c).2.
Definition recordCrashedOrLog (id reason : string) (now : Z) (c : Coordinator) : Coordinator :=
  (on_replicas (fun s => L.RecordCrashed s id reason now) c).2.

Definition Start (c : Coordinator) : Coordinator := if running c then c else set_running true (S (callbacks c)) c.
Definition Stop (c : Coordinator) : Coordinator := set_running false (callbacks c) c.

(* ------------------------------------------------------------------ *)
(** ** Replicas *)

Definition replica_of (c : Coordinator) (agentType : string) (ver : SemanticVersion) : string :=
  MergeReplicaAgentID agentType (sessionID c) ver.

Definition mergeReplicaVFSKey (id : string) (ver : SemanticVersion) : string := "replica-vfs#" +:+ id +:+ ":" +:+ version_String ver.

Definition SpawnAuditReplica (c : Coordinator) : option string * Coordinator :=
  match spawns c with
  | answer :: rest => (answer, set_spawns rest c)
  | [] => (None, c)
  end.

Definition beginAudit (ver : SemanticVersion) (c : Coordinator) : result A.audit_error nat * Coordinator :=
  on_audits (fun t => let '(r, a) := A.BeginAuditReplicaVFS t.1 ver (mergeReplicaVFSKey (sessionID c) ver) in (r, (a, t.2))) c.

(** A replica of an audit and of a second audit differ in their request only. *)
Definition spawnReplicaWithFlags (c : Coordinator) (agentType : string) (desc : MergeDescriptor) (now : Z)
  : result spawn_error string * Coordinator :=
  let id := replica_of c agentType (MergedVersion desc) in
  match on_retention (fun s => C.Retain s (MBaseVersion desc) id) c with
  | (Err e, c) => (Err (RetainBase e), c)
  | (Ok _, c) =>
    match on_replicas (fun s => L.RecordSpawned s id agentType (MergedVersion desc) now) c with
    | (Err e, c) => (Err (RecordSpawned e), releaseRetentionOrLog id c)
    | (Ok _, c) =>
      match beginAudit (MergedVersion desc) c with
      | (Err e, c) =>
        (Err (BeginReplicaVFS e), recordCrashedOrLog id ("begin replica vfs failed: " +:+ begin_text e) now (releaseRetentionOrLog id c))
      | (Ok _, c) =>
        match SpawnAuditReplica (set_inFlight ({[id]} ∪ inFlight c) c) with
        | (None, c) => (Ok id, c)
        | (Some text, c) =>
          (Err (SpawnReplica text),
           recordCrashedOrLog id ("spawn rejected: " +:+ text) now (releaseRetentionOrLog id (set_inFlight (inFlight c ∖ {[id]}) c)))
        end
      end
    end
  end.

Definition unwindReplica (id : string) (now : Z) (c : Coordinator) : Coordinator :=
  let c := recordCrashedOrLog id "sibling spawn failed" now (releaseRetentionOrLog id c) in set_inFlight (inFlight c ∖ {[id]}) c.

Definition agentTypes : list string := [AgentTypeInspectorGlobal; AgentTypeTesterGlobal].

(** The loop of [onMerge]: the replicas launched, and what failed. *)
Fixpoint launch (c : Coordinator) (types : list string) (desc : MergeDescriptor) (now : Z)
  : list string * option (string * spawn_error) * Coordinator :=
  match types with
  | [] => ([], None, c)
  | agentType :: types =>
    match spawnReplicaWithFlags c agentType desc now with
    | (Err e, c) => ([], Some (agentType, e), c)
    | (Ok id, c) => let '(launched, failed, c) := launch c types desc now in (id :: launched, failed, c)
    end
  end.

Definition dispatch_reason (agentType : string) (e : spawn_error) : string := "dispatch failed for " +:+ agentType +:+ ": " +:+ spawn_text e.

(** [handleAuditAddendum], for addenda, logs and publishes. *)
Definition onMerge (c : Coordinator) (desc : MergeDescriptor) (now : Z) : Coordinator :=
  if negb (running c) then c
  else if AuditAddendum desc then c
  else
    let '(launched, failed, c) := launch c agentTypes desc now in
    match failed with
    | None => c
    | Some (agentType, e) =>
      let c := foldl (fun c id => unwindReplica id now c) c launched in
      (on_queue (fun s => Q.MarkRejected s (MergedVersion desc) "merge-audit-coordinator" (dispatch_reason agentType e) []) c).2
    end.

Definition fireMergeCallbacks (c : Coordinator) (desc : MergeDescriptor) (now : Z) : Coordinator :=
  Nat.iter (callbacks c) (fun c => onMerge c desc now) c.

Definition record (desc : MergeDescriptor) (c : Coordinator) : Coordinator :=
  (on_audits (fun t => (tt, A.perform t (A.AMerged desc))) c).2.

Definition set_supersedes (ver : SemanticVersion) (d : MergeDescriptor) : MergeDescriptor :=
  mkDescriptor (MPipelineID d) (MBaseVersion d) (MergedVersion d) (MPaths d) (MPathCount d) (MergedAt d) (PipelineCertificate d) (AuditAddendum d) ver.

(** The end of [MergePipelineIntoGreen], for a merge that succeeded.
    [baseCopy]: the copy the pipeline was pinned to. *)
Definition merged_into_green (c : Coordinator) (desc : MergeDescriptor) (baseCopy : SemanticVersion) (now : Z) : Coordinator :=
  let rejected := match Lookup c baseCopy with Some e => bool_decide (State e = CommitStateRejected) | None => false end in
  let desc := if negb (IsZero baseCopy) && rejected then set_supersedes baseCopy desc else desc in
  match on_queue (fun s => Q.Enqueue s desc now) (record desc c) with
  | (Err _, c) => c
  | (Ok _, c) => fireMergeCallbacks c desc now
  end.

(* ------------------------------------------------------------------ *)
(** ** Addenda *)

Definition addendumPipelineID (ver : SemanticVersion) : string := "audit-addendum:" +:+ version_String ver.

(** The paths in the order the map is visited, then those deleted. *)
Definition addendumDescriptor (ver addendum : SemanticVersion) (diff : ReplicaVFSDiff) (now : Z) : MergeDescriptor :=
  let paths := (map_to_list (DWrites diff)).*1 ++ DDeletes diff in
  mkDescriptor (addendumPipelineID ver) ver addendum paths (len paths) now (mkCertificate "" [] "" "") true VersionZero.

(** The entry of a new addendum is accepted at once. *)
Definition acceptAddendum (ver : SemanticVersion) (id : string) (r : nat) (s : Q.state (W := W)) : result Q.queue_error unit * Q.state (W := W) :=
  match Q.heap s.1 !! r with
  | Some e => if bool_decide (State e = CommitStateAuditing) then Q.MarkAccepted s ver id else (Ok tt, s)
  | None => (Ok tt, s)
  end.

(** What was decided is not affected by an error, which is only logged. *)
Definition SubmitAuditAddendum (c : Coordinator) (ver : SemanticVersion) (now : Z) : Coordinator :=
  let a := audits (session c) in
  match A.LookupAuditReplicaVFS a ver ≫= fun r => ReplicaVfs.layers (A.store a) !! r with
  | None => c
  | Some vfs =>
    match (if isSealed vfs then sealedDiff vfs else None) with
    | None => c
    | Some diff =>
      if bool_decide (DWrites diff = ∅) && bool_decide (DDeletes diff = []) then c
      else if A.closed a then c
      else match addenda c with
      | [] => c
      | addendum :: rest =>
        let desc := addendumDescriptor ver addendum diff now in
        match on_queue (fun s => Q.Enqueue s desc now) (record desc (set_addenda rest c)) with
        | (Err _, c) => c
        | (Ok r, c) =>
          match on_queue (acceptAddendum addendum (addendumPipelineID ver) r) c with
          | (Err _, c) => c
          | (Ok _, c) => fireMergeCallbacks c desc now
          end
        end
      end
    end
  end.

(* ------------------------------------------------------------------ *)
(** ** Second audits *)

Definition pathSet (paths : list string) : gset string := list_to_set paths ∖ {[""]}.
Definition pathsOverlap (s : gset string) (other : list string) : bool := existsb (fun p => bool_decide (p ∈ s)) other.

(** The loop over one replica. *)
Definition crashForReAudit (now : Z) (c : Coordinator) (id : string) : Coordinator :=
  let wasInFlight := bool_decide (id ∈ inFlight c) in
  let c := set_inFlight (inFlight c ∖ {[id]}) c in
  if wasInFlight then releaseRetentionOrLog id (recordCrashedOrLog id "superseded by re-audit" now c) else c.

Definition markInFlightCrashedForReAudit (c : Coordinator) (ver : SemanticVersion) (now : Z) : Coordinator :=
  let c := foldl (crashForReAudit now) c ((fun agentType => replica_of c agentType ver) <$> agentTypes) in
  set_partials (delete ver (partials c)) c.

(** Errors are only logged. *)
Definition spawnReAudit (c : Coordinator) (desc : MergeDescriptor) (now : Z) : Coordinator :=
  foldl (fun c agentType => (spawnReplicaWithFlags c agentType desc now).2) (markInFlightCrashedForReAudit c (MergedVersion desc) now) agentTypes.

(** What the audit of a merge has read of the overlays behind. *)
Definition audited_reads (c : Coordinator) (ver : SemanticVersion) : list string :=
  match A.LookupAuditReplicaVFS (audits (session c)) ver ≫= fun r => ReplicaVfs.layers (A.store (audits (session c))) !! r with
  | Some vfs => ReplicaVfs.ChainReads vfs
  | None => []
  end.

Definition needs_reaudit (c : Coordinator) (supersedor desc : MergeDescriptor) : bool :=
  negb (0 <=? Compare (MergedVersion desc) (MergedVersion supersedor)) && negb (AuditAddendum desc) && is_auditing c (MergedVersion desc) &&
  (pathsOverlap (pathSet (MPaths supersedor)) (MPaths desc) || pathsOverlap (pathSet (MPaths supersedor)) (audited_reads c (MergedVersion desc))).

(** [mergeLog.since] *)
Definition MergesAfter (c : Coordinator) (ver : SemanticVersion) : list MergeDescriptor :=
  List.filter (fun d => 0 <? Compare (MergedVersion d) ver) (merges c).

Definition triggerReAuditAfterSupersession (c : Coordinator) (supersedor : MergeDescriptor) (now : Z) : Coordinator :=
  if bool_decide (pathSet (MPaths supersedor) = ∅) then c
  else foldl (fun c desc => if needs_reaudit c supersedor desc then spawnReAudit c desc now else c) c (MergesAfter c (SupersedesVersion supersedor)).

(* ------------------------------------------------------------------ *)
(** ** Verdicts *)

Definition combineSummaries (inspector tester : string) : string :=
  "inspector: " +:+ inspector +:+ bytes_str [x0a] +:+ "tester: " +:+ tester.

Definition is_rejected (r : AuditMergeResult) : bool := match RDecision r with ReplicaDecisionRejected => true | _ => false end.

Definition rejected_verdict (r : AuditMergeResult) : finalVerdict :=
  mkVerdict (RMergedVersion r) false (RReplicaID r) (RSummary r) (RConcerns r).
Definition accepted_verdict (ver : SemanticVersion) (i t : AuditMergeResult) : finalVerdict :=
  mkVerdict ver true (RReplicaID i) (combineSummaries (RSummary i) (RSummary t)) (RConcerns i ++ RConcerns t).

(** The verdict a partial one and a result make. *)
Definition combine (p : mergePartialVerdicts) (r : AuditMergeResult) : option finalVerdict :=
  if is_rejected r then Some (rejected_verdict r)
  else match Inspector p, Tester p with
  | Some i, Some t => Some (accepted_verdict (RMergedVersion r) i t)
  | _, _ => None
  end.

Definition no_verdicts : mergePartialVerdicts := mkPartial None None false.

(** A result in its place, unless its agent is neither of the two. *)
Definition place (p : mergePartialVerdicts) (r : AuditMergeResult) : option mergePartialVerdicts :=
  if bool_decide (agent_type (RReplicaID r) = AgentTypeInspectorGlobal) then Some (mkPartial (Some r) (Tester p) (Finalized p))
  else if bool_decide (agent_type (RReplicaID r) = AgentTypeTesterGlobal) then Some (mkPartial (Inspector p) (Some r) (Finalized p))
  else None.

(** The half of [finalizeIfReady] under the lock. *)
Definition decide_verdict (c : Coordinator) (r : AuditMergeResult) : option finalVerdict * Coordinator :=
  let ver := RMergedVersion r in
  let p := default no_verdicts (partials c !! ver) in
  let set p := set_partials (<[ver := p]> (partials c)) c in
  if Finalized p then (None, c)
  else match place p r with
  | None => (None, set p)
  | Some p =>
    match combine p r with
    | Some v => (Some v, set (mkPartial (Inspector p) (Tester p) true))
    | None => (None, set p)
    end
  end.

Definition abandonOverlay (vfs : option nat) (c : Coordinator) : Coordinator :=
  match vfs with
  | Some r => (on_audits (fun t => A.on_store (fun st => ReplicaVfs.Abandon st r) t) c).2
  | None => c
  end.

(** The supersession an accepted merge stands for. *)
Definition supersede_for (v : finalVerdict) (now : Z) (c : Coordinator) : Coordinator :=
  match Q.findByMergedVersion (merges c) (finalVersion v) with
  | Some desc =>
    if IsZero (SupersedesVersion desc) then c
    else match on_queue (fun s => Q.MarkSuperseded s (SupersedesVersion desc) (finalVersion v)) c with
    | (Err _, c) => c
    | (Ok _, c) => triggerReAuditAfterSupersession c desc now
    end
  | None => c
  end.

Definition sealAndSubmit (vfs : option nat) (ver : SemanticVersion) (now : Z) (c : Coordinator) : Coordinator :=
  match vfs with
  | None => c
  | Some r =>
    match on_audits (fun t => A.on_store (fun st => ReplicaVfs.Seal st r now) t) c with
    | (Err _, c) => abandonOverlay vfs c
    | (Ok _, c) => SubmitAuditAddendum c ver now
    end
  end.

(** The other half, for a verdict. *)
Definition settle (c : Coordinator) (v : finalVerdict) (now : Z) : Coordinator :=
  let ver := finalVersion v in
  let replicaVFS := A.LookupAuditReplicaVFS (audits (session c)) ver in
  if finalAccepted v then
    match on_queue (fun s => Q.MarkAccepted s ver (finalReplica v)) c with
    | (Err e, c) => (on_queue (fun s => Q.MarkRejected s ver (finalReplica v) ("mark accepted failed: " +:+ queue_text e) (finalConcerns v)) c).2
    | (Ok _, c) => sealAndSubmit replicaVFS ver now (supersede_for v now c)
    end
  else
    match on_queue (fun s => Q.MarkRejected s ver (finalReplica v) (finalSummary v) (finalConcerns v)) c with
    | (Err _, c) => c
    | (Ok _, c) => abandonOverlay replicaVFS c
    end.

Definition finalizeIfReady (c : Coordinator) (r : AuditMergeResult) (now : Z) : Coordinator :=
  match decide_verdict c r with
  | (Some v, c) => settle c v now
  | (None, c) => c
  end.

(** What [finalizeDecision] does before. *)
Definition received (c : Coordinator) (r : AuditMergeResult) (now : Z) : Coordinator :=
  let c := (on_replicas (fun s => L.RecordDecided s (RReplicaID r) (RDecision r) (RSummary r) (RConcerns r) now) c).2 in
  let c := releaseRetentionOrLog (RReplicaID r) c in
  set_inFlight (inFlight c ∖ {[RReplicaID r]}) c.

Definition finalizeDecision (c : Coordinator) (r : AuditMergeResult) (now : Z) : Coordinator := finalizeIfReady (received c r now) r now.

(* ------------------------------------------------------------------ *)
(** ** Resuming *)

(** One replica that was in flight; errors are only logged. *)
Definition resume (c : Coordinator) (e : ReplicaLifecycleEntry) : Coordinator :=
  if negb (is_auditing c (LMergedVersion e)) then c
  else if negb (bool_decide (LAgentType e ∈ agentTypes)) then c
  else match beginAudit (LMergedVersion e) c with
  | (Err _, c) => c
  | (Ok _, c) => (SpawnAuditReplica c).2
  end.

Definition ResumeInFlightReplicas `{RangeOrder} (c : Coordinator) : Coordinator := foldl resume c (L.InFlight 60 (replicaLifecycleLog (session c))).

(* ------------------------------------------------------------------ *)
(** ** Events *)

(** [EVerdict] and [ESettle] are the halves of [finalizeDecision]; [ESession]
    is a call of others on the session. *)
Inductive event :=
| EStart
| EStop
| EMerge (desc : MergeDescriptor) (baseCopy : SemanticVersion) (now : Z)
| EVerdict (r : AuditMergeResult) (now : Z)
| ESettle (i : nat) (now : Z)
| EResume
| ESession (o : sop (B := B)).

Definition event_step `{RangeOrder} (c : Coordinator) (ev : event) : Coordinator :=
  match ev with
  | EStart => Start c
  | EStop => Stop c
  | EMerge desc baseCopy now => merged_into_green c desc baseCopy now
  | EVerdict r now =>
    match decide_verdict (received c r now) r with
    | (Some v, c) => set_pending (pending c ++ [v]) c
    | (None, c) => c
    end
  | ESettle i now =>
    match pending c !! i with
    | Some v => settle (set_pending (delete i (pending c)) c) v now
    | None => c
    end
  | EResume => ResumeInFlightReplicas c
  | ESession o => set_session (perform ([], (session c, controlWAL c)) o).2 c
  end.

Definition events `{RangeOrder} (c : Coordinator) (l : list event) : Coordinator := foldl event_step c l.

(* ------------------------------------------------------------------ *)
(** ** With the commit resolver

    The resolver works on the queue, the retention and the log of the session.
    What the callback of the retention does is a call of its own,
    [AReleased], among the events.  The draft has the changes of a merge, and
    of an addendum, from when it is recorded. *)

(** [taken]: how many of the merges a flush has taken out of the draft; those
    after them are in it.  [flushed]: the flushes that wrote. *)
Record Committing := mkCommitting { coordinator : Coordinator; taken : nat; flushed : list CommitResolver.CommitResolver.Flush }.

Definition in_draft (t : Committing) : list SemanticVersion := drop (taken t) (MergedVersion <$> merges (coordinator t)).

Definition resolver_of (t : Committing) (flushes : list CommitResolver.CommitResolver.flush_outcome) : CommitResolver.CommitResolver.Resolver (W := W) :=
  let c := coordinator t in
  CommitResolver.CommitResolver.mkResolver (commitQueue (session c)) (copyRetention (session c)) (controlWAL c) (merges c) flushes (in_draft t) [] [].
Definition take_resolver (r : CommitResolver.CommitResolver.Resolver (W := W)) (t : Committing) : Committing :=
  let c := coordinator t in
  mkCommitting
    (set_session (set_retention (CommitResolver.CommitResolver.retention r) (set_queue (CommitResolver.CommitResolver.queue r) (session c)),
      CommitResolver.CommitResolver.wal r) c)
    (if bool_decide (CommitResolver.CommitResolver.overlay r = []) then length (merges c) else taken t)
    (flushed t ++ CommitResolver.CommitResolver.flushed r).

(** [ATick]: a tick, with the outcomes of its flushes. *)
Inductive action :=
| ACoordinator (ev : event)
| ATick (flushes : list CommitResolver.CommitResolver.flush_outcome) (now : Z).

Definition action_step `{RangeOrder} (t : Committing) (x : action) : Committing :=
  match x with
  | ACoordinator ev => mkCommitting (event_step (coordinator t) ev) (taken t) (flushed t)
  | ATick flushes now => take_resolver (CommitResolver.CommitResolver.tick (resolver_of t flushes) now) t
  end.

Definition actions `{RangeOrder} (t : Committing) (l : list action) : Committing := foldl action_step t l.
End coordinator.
End MergeAudit.
