(* ===== verification/MergeAuditProof.v ===== *)
(** * What the audits of merges promise (agents/shared/merge_audit_coordinator.go)

    The identifiers of replicas can be read back; a merge is accepted only
    after both its audits accepted it, and dispatched to both or to none; and
    concrete runs in which audits get lost. *)

From S2P Require Import Prelude GoStd Semantic ControlEntryProof ControlWal ControlWalProof ControlLog.
From S2P Require CommitQueueProof CopyRetention ReplicaLifecycle ReplicaVfsProof ControlSession CommitResolver.
From S2P Require Import MergeAudit.
Import Semantic ControlEntry.
Import CommitQueue ReplicaVfs ReplicaLifecycle.

(** * The identifiers can be read back *)

Module MergeIdentityProof.
Import MergeIdentity.

Lemma substring_all s : substring 0 (String.length s) s = s.
Proof. induction s as [|c s IH]; [done|]. cbn. by rewrite IH. Qed.

Lemma substring_before a s : substring 0 (String.length a) (a +:+ s) = a.
Proof. induction a as [|c a IH]; [by destruct s|]. change (String c a +:+ s) with (String c (a +:+ s)). cbn. by rewrite IH. Qed.

Lemma substring_behind a s : substring (String.length a) (String.length s) (a +:+ s) = s.
Proof. induction a as [|c a IH]; [apply substring_all|]. exact IH. Qed.

Lemma length_append a s : String.length (a +:+ s) = (String.length a + String.length s)%nat.
Proof. induction a as [|c a IH]; [done|]. change (String c a +:+ s) with (String c (a +:+ s)). cbn. by rewrite IH. Qed.

Lemma append_assoc a b c : (a +:+ b) +:+ c = a +:+ b +:+ c.
Proof. induction a as [|x a IH]; [done|]. change ((String x a +:+ b) +:+ c) with (String x ((a +:+ b) +:+ c)). by rewrite IH. Qed.

Lemma cut_at sep a rest : String.index 0 sep (a +:+ sep +:+ rest) = Some (String.length a) -> cut sep (a +:+ sep +:+ rest) = Some (a, rest).
Proof.
  intros E. unfold cut. rewrite E, substring_before. pose proof (substring_behind (a +:+ sep) rest) as S.
  rewrite length_append, append_assoc in S.
  replace (String.length (a +:+ sep +:+ rest) - (String.length a + String.length sep))%nat with (String.length rest)
    by (rewrite !length_append; lia).
  by rewrite S.
Qed.

Lemma cut_dot_somewhere a rest : exists p, cut "." (a +:+ "." +:+ rest) = Some p.
Proof.
  assert (I : exists i, String.index 0 "." (a +:+ "." +:+ rest) = Some i).
  { induction a as [|c a [i IH]]; [by exists O; destruct rest|]. change (String c a +:+ "." +:+ rest) with (String c (a +:+ "." +:+ rest)).
    cbn [String.index]. rewrite IH. destruct (String.prefix _ _); by eexists. }
  destruct I as [i E]. unfold cut. rewrite E. by eexists.
Qed.

Lemma cut_last_app c a b : cut_last c a = None -> cut_last c b = None -> cut_last c (a +:+ b) = None.
Proof.
  induction a as [|x a IH]; [done|]. change (String x a +:+ b) with (String x (a +:+ b)). cbn [cut_last]. intros Na Nb.
  destruct (cut_last c a) as [[]|]; [done|]. rewrite IH by done. by destruct (Ascii.eqb x c).
Qed.

Lemma cut_last_digits s : digits s -> cut_last ":" s = None.
Proof.
  unfold digits. induction s as [|c s IH]; [done|]. intros D. change (str_bytes (String c s)) with (byte_of_ascii c :: str_bytes s) in D.
  apply Forall_cons in D as [Dc D]. cbn [cut_last]. rewrite IH by done. destruct (Ascii.eqb_spec c ":"); [|done]. subst. exfalso.
  by apply (bool_decide_eq_true_2 _) in Dc; vm_compute in Dc.
Qed.

Lemma cut_last_at c a s : cut_last c s = None -> cut_last c (a +:+ String c s) = Some (a, s).
Proof.
  intros N. induction a as [|x a IH].
  { change ("" +:+ String c s) with (String c s). cbn [cut_last]. by rewrite N, Ascii.eqb_refl. }
  change (String x a +:+ String c s) with (String x (a +:+ String c s)).
  cbn [cut_last]. by rewrite IH.
Qed.

Lemma span_digits_app d rest : Forall digit d -> match rest with b :: _ => ~ digit b | [] => True end -> span_digits (d ++ rest) = (d, rest).
Proof.
  intros D N. induction D as [|b d Db _ IH].
  - destruct rest as [|b rest]; [done|]. cbn. by rewrite bool_decide_eq_false_2.
  - cbn. rewrite bool_decide_eq_true_2 by done. by rewrite IH.
Qed.

Lemma scan_print z rest : in_u32 z -> match rest with b :: _ => ~ digit b | [] => True end ->
  scan_uint32 (str_bytes (print_uint z) ++ rest) = Some (z, rest).
Proof.
  intros Z N. destruct (print_uint_digits z) as [D Ne]. unfold scan_uint32, digits in *.
  rewrite <- (bytes_str_bytes (print_uint z)) in Ne. destruct (str_bytes (print_uint z)) as [|b d] eqn:E; [done|].
  pose proof D as D'. apply Forall_cons in D as [Db _]. cbn [app].
  rewrite trim_digit; [|apply Forall_forall; intros p I; apply list_elem_of_filter in I as [_ I];
    by apply (proj1 (Forall_forall _ _) (proj1 spaces_not_digits) p I)|done]. change (b :: d ++ rest) with ((b :: d) ++ rest).
  rewrite span_digits_app by done. by rewrite <- E, bytes_str_bytes, parse_print_uint.
Qed.

Lemma scan_version_print ver : version_wf ver -> scan_version (print_uint (Major ver) +:+ "." +:+ print_uint (Minor ver)) = Some ver.
Proof.
  intros [Ma Mi]. unfold scan_version. rewrite !str_bytes_app. change (str_bytes ".") with [x2e].
  rewrite scan_print; [|done|by intros D; apply (bool_decide_eq_true_2 _) in D; vm_compute in D]. cbn [app].
  rewrite <- (app_nil_r (str_bytes (print_uint (Minor ver)))). rewrite scan_print by done. by destruct ver.
Qed.

(** A byte that no space starts with. *)
Definition plain (b : byte) : Prop := forallb (fun p => match p with c :: _ => negb (Byte.eqb c b) | [] => false end) spaces = true.

Lemma trim_plain fuel b s : plain b -> trim_left spaces fuel (b :: s) = b :: s.
Proof.
  intros P. destruct fuel; [done|]. cbn [trim_left]. assert (E : strip_one spaces (b :: s) = None); [|by rewrite E].
  unfold plain in P. induction spaces as [|p ps IH]; [done|]. cbn [forallb strip_one] in *. apply andb_true_iff in P as [Pb P].
  destruct p as [|c p]; [done|]. cbn [strip_prefix]. apply negb_true_iff in Pb. rewrite Pb. by apply IH.
Qed.

(** Nothing is trimmed off a string that starts plainly and ends with the
    digits of a version. *)
Lemma TrimSpace_id b s z : plain b -> TrimSpace (bytes_str (b :: s) +:+ print_uint z) = bytes_str (b :: s) +:+ print_uint z.
Proof.
  intros P. destruct (print_uint_digits z) as [D Ne]. unfold digits in *. rewrite <- (bytes_str_bytes (print_uint z)) in Ne |- *.
  destruct (str_bytes (print_uint z)) as [|c u _] using rev_ind; [done|]. apply Forall_app in D as [_ D]. apply Forall_cons in D as [Dc _].
  rewrite <- (bytes_str_bytes (_ +:+ _)), str_bytes_app, !str_bytes_str, app_assoc. unfold TrimSpace. rewrite str_bytes_str.
  change ((b :: s) ++ u) with (b :: s ++ u). change ((b :: s ++ u) ++ [c]) with (b :: (s ++ u) ++ [c]). rewrite trim_plain by done.
  change (b :: (s ++ u) ++ [c]) with ((b :: s ++ u) ++ [c]). rewrite reverse_app. change (reverse [c]) with [c]. cbn [app].
  rewrite trim_digit; [|apply spaces_not_digits|done]. f_equal. by rewrite reverse_cons, reverse_involutive.
Qed.

Lemma index_agent agentType rest : agentType = AgentTypeInspectorGlobal \/ agentType = AgentTypeTesterGlobal ->
  String.index 0 "#replica-" (agentType +:+ "#replica-" +:+ rest) = Some (String.length agentType).
Proof. intros [-> | ->]; destruct rest; vm_compute; reflexivity. Qed.

(** The identifier of a replica is read back as the agent, the session and the
    version it was made of, for the two agents that audit; the identifier of
    the session may contain the separators itself. *)
Theorem replica_id_roundtrip agentType id ver : agentType = AgentTypeInspectorGlobal \/ agentType = AgentTypeTesterGlobal -> version_wf ver ->
  ParseMergeReplicaAgentID (MergeReplicaAgentID agentType id ver) = Some (agentType, TrimSpace id, ver).
Proof.
  intros A V. set (v := print_uint (Major ver) +:+ "." +:+ print_uint (Minor ver)).
  assert (E : MergeReplicaAgentID agentType id ver = agentType +:+ "#replica-" +:+ TrimSpace id +:+ String ":" v) by (by destruct A as [-> | ->]).
  assert (T : TrimSpace (agentType +:+ "#replica-" +:+ TrimSpace id +:+ String ":" v) = agentType +:+ "#replica-" +:+ TrimSpace id +:+ String ":" v).
  { subst v. set (m := TrimSpace id +:+ String ":" (print_uint (Major ver) +:+ ".")).
    replace (agentType +:+ _) with (bytes_str (str_bytes (agentType +:+ "#replica-" +:+ m)) +:+ print_uint (Minor ver)).
    - destruct A as [-> | ->]; by apply TrimSpace_id.
    - rewrite bytes_str_bytes. subst m. rewrite !append_assoc. do 3 f_equal. change (String ":" ?a +:+ ?b) with (String ":" (a +:+ b)).
      by rewrite append_assoc. }
  unfold ParseMergeReplicaAgentID. rewrite E, T. rewrite cut_at by (by apply index_agent).
  rewrite cut_last_at. 2:{ subst v. destruct (print_uint_digits (Major ver)) as [Da _], (print_uint_digits (Minor ver)) as [Di _].
    apply cut_last_app; [by apply cut_last_digits|]. apply cut_last_app; [done|by apply cut_last_digits]. }
  subst v. destruct (cut_dot_somewhere (print_uint (Major ver)) (print_uint (Minor ver))) as [p ->]. by rewrite scan_version_print.
Qed.

Lemma agent_type_made agentType id ver : agentType = AgentTypeInspectorGlobal \/ agentType = AgentTypeTesterGlobal -> version_wf ver ->
  agent_type (MergeReplicaAgentID agentType id ver) = agentType.
Proof. intros A V. unfold agent_type. by rewrite replica_id_roundtrip. Qed.
End MergeIdentityProof.

(** * What the coordinator promises

    Whatever happens between, a merge is accepted only after both its audits
    accepted it, and a merge is dispatched to both audits or to none. *)

Module MergeAuditProof.
Import CommitQueueProof.CommitQueueProof MergeIdentity MergeIdentityProof ControlSession.ControlSession MergeAudit.

Section proof.
Context {B : Type} `{BaseFS B} {W : Type} `{ControlLog W} `{ErrorText}.
#[local] Abbreviation Coordinator := (MergeAuditCoordinator B W).

Definition queue_of (c : Coordinator) : list CommitEntry := view (commitQueue (session c)).
Definition wf (c : Coordinator) : Prop := queue_wf (commitQueue (session c)).

Definition accepted (l : list CommitEntry) (v : SemanticVersion) : Prop := exists e, e ∈ l /\ ver e = v /\ State e = CommitStateAccepted.

(* ------------------------------------------------------------------ *)
(** ** Calls that accept nothing *)

Record quiet (c c' : Coordinator) : Prop := {
  quiet_wf : wf c -> wf c';
  quiet_accepted : wf c -> forall v, accepted (queue_of c') v -> accepted (queue_of c) v;
  quiet_merges : merges c' = merges c;
  quiet_partials : partials c' ⊆ partials c;
  quiet_pending : pending c' = pending c
}.

#[export] Instance quiet_preorder : PreOrder quiet.
Proof.
  split; [intros c; by split|]. intros a b c [W1 A1 M1 P1 E1] [W2 A2 M2 P2 E2]. split; [by auto|by auto|congruence|by transitivity (partials b)|congruence].
Qed.

(** An entry is accepted by [QAccept] only. *)
Lemma spec_accepted l (w : option W) o v : accepted (spec_step (l, w) o).2.1 v -> accepted l v \/ exists replica, o = Q.QAccept v replica.
Proof.
  assert (M : forall u refused kind payload f, (forall e, ver (f e) = ver e) -> (forall e, State (f e) <> CommitStateAccepted) ->
    forall p, p = mark u refused kind payload f l ->
    accepted (match p with Done _ l => l | Logged k p l' => if is_ok (walAppend w k p).1 then l' else l end) v -> accepted l v).
  { intros u refused kind payload f Vf Sf p -> . unfold mark. destruct (find_ver u l) as [x|]; [|done]. destruct (refused x); [done|].
    destruct (walAppend w kind payload) as [[?|?] ?]; [|done]. cbn. intros (e & I & V & S). unfold update in I. apply list_elem_of_fmap in I as (y & -> & I).
    case_decide; [by destruct (Sf y)|by exists y]. }
  assert (E : forall o, (spec_step (l, w) o).2.1 = match plan_of o l with Done _ l => l | Logged k p l' => if is_ok (walAppend w k p).1 then l' else l end).
  { intros o'. unfold spec_step. cbn [fst snd]. destruct (plan_of o' l) as [|k p l']; [done|]. by destruct (walAppend w k p) as [[?|?] ?]. }
  rewrite E. destruct o as [d now|u r|u r reason cs|u sup|u now|u reason now|]; try (intros A; left; by eapply (M u); [| |reflexivity|exact A]).
  - intros A. left. cbn [plan_of] in A. destruct (find_ver _ l); [done|]. destruct (walAppend w _ _) as [[?|?] ?]; [|done]. cbn in A.
    destruct A as (e & I & V & S). apply elem_of_app in I as [I|I]; [by exists e|]. apply list_elem_of_singleton in I as ->. done.
  - cbn [plan_of]. unfold mark. destruct (find_ver u l) as [x|]; [|by left]. destruct (unless _ _); [by left|].
    destruct (walAppend w _ _) as [[?|?] ?]; [|by left]. cbn. intros (e & I & V & S). unfold update in I. apply list_elem_of_fmap in I as (y & -> & I).
    case_decide as D; [right; exists r; f_equal; by rewrite <- D, <- V|left; by exists y].
  - intros (e & I & V & S). left. exists e. split; [|done]. cbn [plan_of] in I. unfold advance in I. destruct l as [|x l]; [done|].
    destruct (Q.removable (State x)); [by right|done].
Qed.

(** [on_queue] with a call of the queue. *)
Definition queue_call (o : Q.qop) (c : Coordinator) : Coordinator := (on_queue (fun s => Q.perform s o) c).2.

Lemma queue_call_view o c : wf c -> wf (queue_call o c) /\ queue_of (queue_call o c) = (spec_step (queue_of c, controlWAL c) o).2.1.
Proof.
  intros Wf. unfold queue_call, on_queue, queue_of, wf.
  destruct (perform_refines (commitQueue (session c), controlWAL c) (view (commitQueue (session c)), controlWAL c) o) as [_ (Q' & V & _)]; [by split|].
  by destruct (Q.perform _ o) as [r [q w]].
Qed.

Lemma queue_call_quiet o c : (forall v replica, o <> Q.QAccept v replica) -> quiet c (queue_call o c).
Proof.
  intros N. split; [intros Wf; by apply queue_call_view| |unfold queue_call, on_queue; by destruct (Q.perform _ o) as [r [q w]]..].
  intros Wf v A. rewrite (proj2 (queue_call_view o c Wf)) in A. apply spec_accepted in A as [A|[r E]]; [done|by destruct (N v r)].
Qed.

Lemma on_queue_call {X} (f : Q.state (W := W) -> X * Q.state (W := W)) o c : (forall s, (f s).2 = (Q.perform s o).2) -> (on_queue f c).2 = queue_call o c.
Proof.
  intros E. unfold queue_call, on_queue. specialize (E (commitQueue (session c), controlWAL c)). destruct (f _) as [x [q w]], (Q.perform _ o) as [y [q' w']].
  cbn [snd] in E. by injection E as -> ->.
Qed.

Lemma on_retention_quiet {X} (f : C.state (W := W) -> X * C.state (W := W)) c : quiet c (on_retention f c).2.
Proof. unfold on_retention. destruct (f _) as [x [r w]]. by split. Qed.

Lemma on_replicas_quiet {X} (f : L.state (W := W) -> X * L.state (W := W)) c : quiet c (on_replicas f c).2.
Proof. unfold on_replicas. destruct (f _) as [x [r w]]. by split. Qed.

Lemma on_audits_quiet {X} (f : A.astate (B := B) (W := W) -> X * A.astate (B := B) (W := W)) c :
  (forall t, A.merges (f t).2.1 = A.merges t.1) -> quiet c (on_audits f c).2.
Proof.
  intros E. specialize (E (audits (session c), controlWAL c)). unfold on_audits. destruct (f _) as [x [a w]]. by split.
Qed.

Lemma on_store_quiet {X} (f : ReplicaVfs.state (B := B) (W := W) -> X * ReplicaVfs.state (B := B) (W := W)) c :
  quiet c (on_audits (fun t => A.on_store f t) c).2.
Proof. apply on_audits_quiet. intros t. unfold A.on_store. by destruct (f _) as [x [st w]]. Qed.

Lemma set_inFlight_quiet f c : quiet c (set_inFlight f c).
Proof. by split. Qed.

Lemma set_partials_quiet p c : p ⊆ partials c -> quiet c (set_partials p c).
Proof. by split. Qed.

Lemma beginAudit_quiet v c : quiet c (beginAudit v c).2.
Proof.
  apply on_audits_quiet. intros [a w]. cbn [fst snd]. unfold A.BeginAuditReplicaVFS. destruct (A.closed a); [done|].
  destruct (A.replicaVFSByVersion a !! v); [done|]. unfold A.track. by destruct (ReplicaVfs.NewReplicaVFS _ _ _ _ _).
Qed.

Lemma spawn_answer_quiet c : quiet c (SpawnAuditReplica c).2.
Proof. unfold SpawnAuditReplica. destruct (spawns c); by split. Qed.
End proof.

Create HintDb quiet.
#[export] Hint Resolve on_retention_quiet on_replicas_quiet on_store_quiet set_inFlight_quiet beginAudit_quiet spawn_answer_quiet : quiet.

(** The call in front of the goal [quiet c (match call with (_, c) => ... end)]
    is quiet, and what follows has to be. *)
Ltac quiet_call :=
  match goal with
  | |- quiet ?c (match ?t with (_, _) => _ end) =>
    let Q := fresh "Q" in assert (Q : quiet c t.2) by auto with quiet; let x := fresh "x" in let c' := fresh "c" in destruct t as [x c']; cbn [snd] in Q;
    (etransitivity; [exact Q|]); clear Q; destruct x
  | |- quiet ?c (match ?t with (_, _) => _ end).2 =>
    let Q := fresh "Q" in assert (Q : quiet c t.2) by auto with quiet; let x := fresh "x" in let c' := fresh "c" in destruct t as [x c']; cbn [snd] in Q;
    (etransitivity; [exact Q|]); clear Q; destruct x
  end.

Section steps.
Context {B : Type} `{BaseFS B} {W : Type} `{ControlLog W} `{ErrorText}.
#[local] Abbreviation Coordinator := (MergeAuditCoordinator B W).

Lemma release_quiet id (c : Coordinator) : quiet c (releaseRetentionOrLog id c).
Proof. apply on_retention_quiet. Qed.

Lemma crashed_quiet id reason now (c : Coordinator) : quiet c (recordCrashedOrLog id reason now c).
Proof. apply on_replicas_quiet. Qed.

Lemma unwind_quiet id now (c : Coordinator) : quiet c (unwindReplica id now c).
Proof. unfold unwindReplica. etransitivity; [apply release_quiet|]. etransitivity; [apply crashed_quiet|]. apply set_inFlight_quiet. Qed.

Lemma spawn_quiet (c : Coordinator) agentType desc now : quiet c (spawnReplicaWithFlags c agentType desc now).2.
Proof.
  unfold spawnReplicaWithFlags. quiet_call; [|done]. quiet_call; [|apply release_quiet].
  quiet_call; [|etransitivity; [apply release_quiet|apply crashed_quiet]].
  etransitivity; [apply set_inFlight_quiet|]. quiet_call; [|done].
  etransitivity; [apply set_inFlight_quiet|]. etransitivity; [apply release_quiet|apply crashed_quiet].
Qed.

(** A loop of quiet steps. *)
Lemma foldl_quiet {X} (f : Coordinator -> X -> Coordinator) l : (forall c x, quiet c (f c x)) -> forall c, quiet c (foldl f c l).
Proof. intros Q. induction l as [|x l IH]; intros c; [done|]. cbn. etransitivity; [apply Q|apply IH]. Qed.

Lemma launch_quiet types desc now : forall c : Coordinator, quiet c (launch c types desc now).2.
Proof.
  induction types as [|agentType types IH]; intros c; [done|]. cbn [launch]. pose proof (spawn_quiet c agentType desc now) as Q.
  destruct (spawnReplicaWithFlags c agentType desc now) as [[id|e] c1]; cbn [snd] in Q; [|done]. etransitivity; [exact Q|].
  specialize (IH c1). by destruct (launch c1 types desc now) as [[launched failed] c2].
Qed.

Lemma reject_quiet (c : Coordinator) v replica reason concerns : quiet c (on_queue (fun s => Q.MarkRejected s v replica reason concerns) c).2.
Proof. rewrite (on_queue_call _ (Q.QReject v replica reason concerns)) by done. by apply queue_call_quiet. Qed.

Lemma enqueue_quiet (c : Coordinator) d now : quiet c (on_queue (fun s => Q.Enqueue s d now) c).2.
Proof. rewrite (on_queue_call _ (Q.QEnqueue d now)) by done. by apply queue_call_quiet. Qed.

Lemma supersede_quiet (c : Coordinator) v sup : quiet c (on_queue (fun s => Q.MarkSuperseded s v sup) c).2.
Proof. rewrite (on_queue_call _ (Q.QSupersede v sup)) by done. by apply queue_call_quiet. Qed.

Lemma onMerge_quiet (c : Coordinator) desc now : quiet c (onMerge c desc now).
Proof.
  unfold onMerge. destruct (negb (running c)); [done|]. destruct (AuditAddendum desc); [done|]. pose proof (launch_quiet agentTypes desc now c) as Q.
  destruct (launch c agentTypes desc now) as [[launched [[agentType e]|]] c1]; cbn [snd] in Q; [|done]. etransitivity; [exact Q|].
  etransitivity; [|apply reject_quiet]. apply foldl_quiet. intros c' id. apply unwind_quiet.
Qed.

Lemma fire_quiet (c : Coordinator) desc now : quiet c (fireMergeCallbacks c desc now).
Proof.
  unfold fireMergeCallbacks. induction (callbacks c) as [|n IH]; [done|]. cbn. etransitivity; [exact IH|apply onMerge_quiet].
Qed.

Lemma reaudit_quiet (c : Coordinator) desc now : quiet c (spawnReAudit c desc now).
Proof.
  unfold spawnReAudit. etransitivity; [|apply foldl_quiet; intros; apply spawn_quiet]. unfold markInFlightCrashedForReAudit.
  etransitivity; [apply (foldl_quiet (crashForReAudit now))|].
  - intros c' id. unfold crashForReAudit. destruct (bool_decide _); (etransitivity; [apply set_inFlight_quiet|]); [|done].
    etransitivity; [apply crashed_quiet|apply release_quiet].
  - apply set_partials_quiet, delete_subseteq.
Qed.

Lemma trigger_quiet (c : Coordinator) desc now : quiet c (triggerReAuditAfterSupersession c desc now).
Proof.
  unfold triggerReAuditAfterSupersession. destruct (bool_decide _); [done|]. apply foldl_quiet. intros c' d.
  destruct (needs_reaudit c' desc d); [apply reaudit_quiet|done].
Qed.

Lemma supersede_for_quiet v now (c : Coordinator) : quiet c (supersede_for v now c).
Proof.
  unfold supersede_for. destruct (Q.findByMergedVersion _ _) as [desc|]; [|done]. destruct (IsZero _); [done|].
  pose proof (supersede_quiet c (SupersedesVersion desc) (finalVersion v)) as Q. destruct (on_queue _ c) as [[u|e] c1]; cbn [snd] in Q; [|done].
  etransitivity; [exact Q|apply trigger_quiet].
Qed.

Lemma abandon_quiet vfs (c : Coordinator) : quiet c (abandonOverlay vfs c).
Proof. unfold abandonOverlay. destruct vfs; [apply on_store_quiet|done]. Qed.

Lemma resume_quiet (c : Coordinator) e : quiet c (resume c e).
Proof.
  unfold resume. destruct (negb _); [done|]. destruct (negb _); [done|]. quiet_call; [apply spawn_answer_quiet|done].
Qed.

Lemma received_quiet (c : Coordinator) r now : quiet c (received c r now).
Proof.
  unfold received. etransitivity; [|apply set_inFlight_quiet]. etransitivity; [|apply release_quiet]. apply on_replicas_quiet.
Qed.
End steps.

(* ------------------------------------------------------------------ *)
(** ** Verdicts *)

Section verdicts.
Context {B : Type} `{BaseFS B} {W : Type} `{ControlLog W} `{ErrorText}.
#[local] Abbreviation Coordinator := (MergeAuditCoordinator B W).

(** The versions the flushes so far were for. *)
Context (fl : list SemanticVersion).

(** A result that does not reject the merge, of an agent. *)
Definition approves (agentType : string) (v : SemanticVersion) (r : AuditMergeResult) : Prop :=
  RMergedVersion r = v /\ agent_type (RReplicaID r) = agentType /\ is_rejected r = false.

(** Both audits approved. *)
Definition approved (rs : list AuditMergeResult) (v : SemanticVersion) : Prop :=
  (exists r, r ∈ rs /\ approves AgentTypeInspectorGlobal v r) /\ (exists r, r ∈ rs /\ approves AgentTypeTesterGlobal v r).

(** A slot holds a result of its agent, a rejection only when all is done. *)
Definition slot_ok (rs : list AuditMergeResult) (v : SemanticVersion) (agentType : string) (done : bool) (slot : option AuditMergeResult) : Prop :=
  forall r, slot = Some r -> r ∈ rs /\ RMergedVersion r = v /\ agent_type (RReplicaID r) = agentType /\ (done = false -> is_rejected r = false).

Definition partial_ok (rs : list AuditMergeResult) (v : SemanticVersion) (p : mergePartialVerdicts) : Prop :=
  slot_ok rs v AgentTypeInspectorGlobal (Finalized p) (Inspector p) /\ slot_ok rs v AgentTypeTesterGlobal (Finalized p) (Tester p).

Definition verdict_ok (rs : list AuditMergeResult) (f : finalVerdict) : Prop := finalAccepted f = true -> approved rs (finalVersion f).

(** The version of a merge, or of the addendum of a merge, that was approved. *)
Definition vouched (rs : list AuditMergeResult) (ms : list MergeDescriptor) (v : SemanticVersion) : Prop :=
  approved rs v \/ exists d, d ∈ ms /\ MergedVersion d = v /\ AuditAddendum d = true /\ approved rs (MBaseVersion d).

Record justified (rs : list AuditMergeResult) (c : Coordinator) : Prop := {
  just_wf : wf c;
  just_accepted : forall v, accepted (queue_of c) v -> vouched rs (merges c) v;
  just_pending : Forall (verdict_ok rs) (pending c);
  just_partials : forall v p, partials c !! v = Some p -> partial_ok rs v p;
  just_flushed : Forall (vouched rs (merges c)) fl
}.

Lemma approved_mono rs rs' v : rs ⊆ rs' -> approved rs v -> approved rs' v.
Proof. intros S [(i & Ii & Ai) (t & It & At)]. split; [exists i|exists t]; (split; [by apply S|done]). Qed.

Lemma vouched_mono rs rs' ms ms' v : rs ⊆ rs' -> ms ⊆ ms' -> vouched rs ms v -> vouched rs' ms' v.
Proof.
  intros S M [A|(d & I & V & Ad & A)]; [left; by eapply approved_mono|right]. exists d. split; [by apply M|]. split; [done|]. split; [done|].
  by eapply approved_mono.
Qed.

Lemma partial_mono rs rs' v p : rs ⊆ rs' -> partial_ok rs v p -> partial_ok rs' v p.
Proof.
  intros S [Oi Ot]. split; [intros r E; destruct (Oi r E) as (I & X)|intros r E; destruct (Ot r E) as (I & X)]; (split; [by apply S|done]).
Qed.

Lemma justified_mono rs rs' c : rs ⊆ rs' -> justified rs c -> justified rs' c.
Proof.
  intros S [Wf A Pe Pa Fl]. split; [done|intros v Av; by eapply vouched_mono, A| |intros v p E; by eapply partial_mono, Pa|].
  - eapply Forall_impl; [exact Pe|]. intros f K Fa. by eapply approved_mono, K.
  - eapply Forall_impl; [exact Fl|]. intros v. by apply vouched_mono.
Qed.

Lemma justified_quiet rs c c' : quiet c c' -> justified rs c -> justified rs c'.
Proof.
  intros [Wf A M Pa Pe] [Wf0 A0 Pe0 Pa0 Fl0]. split; [by apply Wf|intros v Av; rewrite M; by apply A0, A|by rewrite Pe| |by rewrite M].
  intros v p E. by eapply Pa0, lookup_weaken, Pa.
Qed.

Lemma slot_none rs v agentType d : slot_ok rs v agentType d None.
Proof. by intros r [=]. Qed.

Lemma slot_done rs v agentType d slot : slot_ok rs v agentType d slot -> slot_ok rs v agentType true slot.
Proof. intros O r E. destruct (O r E) as (I & V & A & _). by split_and!. Qed.

(** What a result does to the partial verdicts, and what it decides. *)
Lemma place_ok rs r p p' : r ∈ rs -> partial_ok rs (RMergedVersion r) p -> Finalized p = false -> place p r = Some p' ->
  partial_ok rs (RMergedVersion r) (mkPartial (Inspector p') (Tester p') true) /\
  (combine p' r = None -> partial_ok rs (RMergedVersion r) p') /\
  forall f, combine p' r = Some f -> verdict_ok rs f.
Proof.
  intros I [Oi Ot] F P.
  assert (N : forall agentType, agent_type (RReplicaID r) = agentType -> slot_ok rs (RMergedVersion r) agentType (is_rejected r) (Some r)).
  { intros agentType E x [= <-]. split; [done|]. split; [done|]. by split. }
  assert (K : slot_ok rs (RMergedVersion r) AgentTypeInspectorGlobal (is_rejected r) (Inspector p') /\
    slot_ok rs (RMergedVersion r) AgentTypeTesterGlobal (is_rejected r) (Tester p') /\ Finalized p' = false).
  { rewrite F in *. assert (Wk : forall agentType slot, slot_ok rs (RMergedVersion r) agentType false slot -> slot_ok rs (RMergedVersion r) agentType (is_rejected r) slot).
    { intros agentType slot O. destruct (is_rejected r); [by eapply slot_done|done]. }
    unfold place in P. destruct (bool_decide (_ = AgentTypeInspectorGlobal)) eqn:Bi; [|destruct (bool_decide (_ = AgentTypeTesterGlobal)) eqn:Bt; [|done]];
      injection P as <-; cbn [Inspector Tester Finalized]; (split; [|split; [|done]]); (by apply Wk) || (apply N; by eapply bool_decide_eq_true_1). }
  destruct K as (Ki & Kt & F'). split; [split; by eapply slot_done|]. unfold combine. destruct (is_rejected r) eqn:Rj.
  - split; [done|]. intros f [= <-]. done.
  - split; [intros _; split; by rewrite F'|]. destruct (Inspector p') as [i|]; [|done]. destruct (Tester p') as [t|]; [|done]. intros f [= <-] _.
    destruct (Ki i eq_refl) as (Ii & Vi & Ai & Ri), (Kt t eq_refl) as (It & Vt & At & Rt).
    split; [exists i|exists t]; (split; [done|]); (split; [done|]); (split; [done|]); [by apply Ri|by apply Rt].
Qed.

Lemma decide_justified rs c r : justified rs c -> r ∈ rs ->
  justified rs (decide_verdict c r).2 /\ forall f, (decide_verdict c r).1 = Some f -> verdict_ok rs f.
Proof.
  intros [Wf A Pe Pa Fl] I. unfold decide_verdict. set (p := default no_verdicts _).
  assert (Op : partial_ok rs (RMergedVersion r) p).
  { subst p. destruct (partials c !! RMergedVersion r) as [p|] eqn:E; [by apply Pa|]. split; apply slot_none. }
  assert (S : forall p', partial_ok rs (RMergedVersion r) p' -> justified rs (set_partials (<[RMergedVersion r := p']> (partials c)) c)).
  { intros p' O. split; [done|done|done| |done]. cbn [partials set_partials]. intros v x E. destruct (decide (v = RMergedVersion r)) as [-> |Nv].
    - rewrite lookup_insert_eq in E. by injection E as <-.
    - rewrite lookup_insert_ne in E by done. by apply Pa. }
  destruct (Finalized p) eqn:F; [by split|]. destruct (place p r) as [p'|] eqn:Pl; [|split; [by apply S|done]].
  destruct (place_ok rs r p p' I Op F Pl) as (O1 & O2 & O3). destruct (combine p' r) as [f|] eqn:Cb; cbn [fst snd].
  - split; [by apply S|]. intros f' [= <-]. by apply O3.
  - split; [by apply S, O2|done].
Qed.
(** An accepted entry appears for a version that may be accepted. *)
Lemma accept_justified rs c v replica : justified rs c -> vouched rs (merges c) v -> justified rs (queue_call (Q.QAccept v replica) c).
Proof.
  intros [Wf A Pe Pa Fl] V. destruct (queue_call_view (Q.QAccept v replica) c Wf) as [Wf' E].
  assert (S : merges (queue_call (Q.QAccept v replica) c) = merges c /\ pending (queue_call (Q.QAccept v replica) c) = pending c /\
    partials (queue_call (Q.QAccept v replica) c) = partials c) by (unfold queue_call, on_queue; by destruct (Q.perform _ _) as [x [q w]]).
  destruct S as (Em & Ep & Ea). split; [done| |by rewrite Ep|by rewrite Ea|by rewrite Em]. rewrite E, Em. intros u Au. apply spec_accepted in Au as [Au|[r [= -> _]]]; [by apply A|done].
Qed.

(** A merge is recorded; if it is an addendum, of an approved merge. *)
Lemma record_justified rs c d : justified rs c -> (AuditAddendum d = true -> approved rs (MBaseVersion d)) ->
  justified rs (record d c) /\ merges (record d c) = merges c ++ [d].
Proof.
  intros [Wf A Pe Pa Fl] K. split; [|done]. assert (S : merges c ⊆ merges (record d c)) by (change (merges (record d c)) with (merges c ++ [d]); set_solver).
  split; [done|intros v Av; by eapply vouched_mono, A|done|done|]. eapply Forall_impl; [exact Fl|]. intros v. by apply vouched_mono.
Qed.

Lemma submit_justified rs c v now : justified rs c -> approved rs v -> justified rs (SubmitAuditAddendum c v now).
Proof.
  intros J V. unfold SubmitAuditAddendum. destruct (_ ≫= _) as [vfs|]; [|done]. destruct (if isSealed vfs then _ else _) as [diff|]; [|done].
  destruct (_ && _); [done|]. destruct (A.closed _); [done|]. destruct (addenda c) as [|addendum rest]; [done|].
  set (d := addendumDescriptor v addendum diff now).
  destruct (record_justified rs (set_addenda rest c) d) as [J1 M1]; [eapply justified_quiet; [|exact J]; by split|by intros _|].
  pose proof (enqueue_quiet (record d (set_addenda rest c)) d now) as Q1. destruct (on_queue _ (record _ _)) as [[r|e] c1]; cbn [snd] in Q1;
    [|by eapply justified_quiet]. pose proof (justified_quiet rs _ _ Q1 J1) as J2.
  assert (J3 : justified rs (on_queue (acceptAddendum addendum (addendumPipelineID v) r) c1).2).
  { destruct (Q.heap (commitQueue (session c1)) !! r) as [x|] eqn:E; [destruct (bool_decide (State x = CommitStateAuditing)) eqn:Bx|].
    1: { replace (on_queue _ c1).2 with (queue_call (Q.QAccept addendum (addendumPipelineID v)) c1).
      - apply accept_justified; [done|]. right. exists d. rewrite (quiet_merges _ _ Q1), M1. split; [set_solver|]. by split_and!.
      - unfold queue_call, on_queue, acceptAddendum. cbn [fst]. rewrite E, Bx. cbn [Q.perform]. by destruct (Q.MarkAccepted _ _ _) as [y [q w]]. }
    all: eapply justified_quiet; [|exact J2]; unfold on_queue, acceptAddendum; cbn [fst]; rewrite E, ?Bx; cbn [snd]; by destruct c1 as [[] ? ? ? ? ? ? ? ? ?]. }
  destruct (on_queue (acceptAddendum _ _ _) c1) as [[u|e] c2]; cbn [snd] in J3; [|done]. eapply justified_quiet; [apply fire_quiet|done].
Qed.

Lemma settle_justified rs c f now : justified rs c -> verdict_ok rs f -> justified rs (settle c f now).
Proof.
  intros J V. unfold settle. destruct (finalAccepted f) eqn:F.
  - specialize (V F). assert (Ja : justified rs (on_queue (fun s => Q.MarkAccepted s (finalVersion f) (finalReplica f)) c).2).
    { rewrite (on_queue_call _ (Q.QAccept (finalVersion f) (finalReplica f))) by done. apply accept_justified; [done|by left]. }
    destruct (on_queue _ c) as [[u|e] c1]; cbn [snd] in Ja; [|eapply justified_quiet; [apply reject_quiet|done]].
    assert (Js : justified rs (supersede_for f now c1)) by (eapply justified_quiet; [apply supersede_for_quiet|done]).
    unfold sealAndSubmit. destruct (A.LookupAuditReplicaVFS _ _) as [r|]; [|done].
    pose proof (on_store_quiet (fun st => ReplicaVfs.Seal st r now) (supersede_for f now c1)) as Qs.
    destruct (on_audits _ (supersede_for f now c1)) as [[d|e] c2]; cbn [snd] in Qs; pose proof (justified_quiet rs _ _ Qs Js) as J2.
    + by apply submit_justified.
    + eapply justified_quiet; [apply abandon_quiet|done].
  - pose proof (reject_quiet c (finalVersion f) (finalReplica f) (finalSummary f) (finalConcerns f)) as Qr.
    destruct (on_queue _ c) as [[u|e] c1]; cbn [snd] in Qr; [|by eapply justified_quiet].
    eapply justified_quiet; [apply abandon_quiet|]. by eapply justified_quiet.
Qed.

(* ------------------------------------------------------------------ *)
(** ** Runs *)

(** The calls of others that accept no merge and record no addendum, which is
    what the coordinator alone does. *)
Definition leaves_verdicts (ev : event (B := B)) : Prop :=
  match ev with
  | EMerge d _ _ => AuditAddendum d = false
  | ESession (SQueue (Q.QAccept _ _)) => False
  | ESession (SAudit (A.AMerged d)) => AuditAddendum d = false
  | _ => True
  end.

(** The results of a run. *)
Definition results (evs : list (event (B := B))) : list AuditMergeResult := omap (fun ev => match ev with EVerdict r _ => Some r | _ => None end) evs.

Lemma audits_perform_merges (t : A.astate (B := B) (W := W)) o :
  A.merges (A.perform t o).1 = A.merges t.1 ++ match o with A.AMerged d => [d] | _ => [] end.
Proof.
  assert (S : forall X (f : ReplicaVfs.state (B := B) (W := W) -> X * ReplicaVfs.state (B := B) (W := W)) t, A.merges (A.on_store f t).2.1 = A.merges t.1).
  { intros X f s. unfold A.on_store. by destruct (f _) as [x [st w]]. }
  destruct o as [v id|r p|r w p x|r w p|r now|r|v|vs|d|d|]; cbn [A.perform]; rewrite ?app_nil_r; try done; try by apply S.
  - cbn [fst]. unfold A.BeginAuditReplicaVFS. destruct (A.closed _); [done|]. destruct (_ !! v); [done|]. unfold A.track. by destruct (ReplicaVfs.NewReplicaVFS _ _ _ _ _).
  - unfold A.releaseAuditReplicaVFSBatch. destruct (A.takeReleased _ _) as [rs m].
    assert (F : forall u : A.astate (B := B) (W := W), A.merges (foldl A.abandonReleased u rs).1 = A.merges u.1); [|by rewrite F].
    induction rs as [|r rs IH]; intros u; [done|]. cbn [foldl]. rewrite IH. unfold A.abandonReleased. destruct (_ !! r); [|done]. destruct (_ || _); [done|]. apply S.
Qed.

Lemma session_justified rs c o : justified rs c -> leaves_verdicts (ESession o) -> justified rs (set_session (perform ([], (session c, controlWAL c)) o).2 c).
Proof.
  intros J Lv. destruct o as [o|o|o|o|m|m]; cbn [perform].
  - assert (E : forall o', o' = o -> set_session (let '(r, (q, w)) := Q.perform (commitQueue (session c), controlWAL c) o' in ([] ++ CommitQueueProof.CommitQueueReplay.popped r, (set_queue q (session c), w))).2 c = queue_call o' c).
    { intros o' _. unfold queue_call, on_queue. by destruct (Q.perform _ o') as [r [q w]]. }
    rewrite (E o eq_refl). eapply justified_quiet; [|exact J]. apply queue_call_quiet. by intros v replica ->.
  - destruct (C.perform _ o) as [r [k w]]. destruct (A.performs _ _) as [a w'] eqn:P. eapply justified_quiet; [|exact J].
    assert (M : A.merges a = A.merges (audits (session c))); [|by split]. change a with (a, w').1. rewrite <- P.
    destruct r as [[|v l]|e]; cbn [OnRelease A.performs foldl]; [done| |done]. rewrite audits_perform_merges. apply app_nil_r.
  - destruct (L.perform _ o) as [r [k w]]. eapply justified_quiet; [|exact J]. by split.
  - pose proof (audits_perform_merges (audits (session c), controlWAL c) o) as M. destruct (A.perform _ o) as [a w]. cbn [fst] in M.
    assert (S : merges c ⊆ A.merges a) by (rewrite M; set_solver). destruct J as [Wf Ac Pe Pa Fl].
    split; [done|intros v Av; by eapply vouched_mono, Ac|done|done|]. eapply Forall_impl; [exact Fl|]. intros v. by apply vouched_mono.
  - eapply justified_quiet; [|exact J]. by split.
  - eapply justified_quiet; [|exact J]. by split.
Qed.

Lemma step_justified `{RangeOrder} rs c ev : justified rs c -> leaves_verdicts ev -> (forall r now, ev = EVerdict r now -> r ∈ rs) ->
  justified rs (event_step c ev).
Proof.
  intros J Lv I. destruct ev as [| |d baseCopy now|r now|i now| |o]; cbn [event_step].
  - unfold Start. destruct (running c); [done|]. eapply justified_quiet; [|exact J]. by split.
  - eapply justified_quiet; [|exact J]. by split.
  - unfold merged_into_green. set (d' := if (_ : bool) then _ else d).
    destruct (record_justified rs c d' J) as [J1 _]; [subst d'; destruct (_ && _); cbn [AuditAddendum set_supersedes leaves_verdicts] in *; by rewrite Lv|].
    pose proof (enqueue_quiet (record d' c) d' now) as Q1. destruct (on_queue _ _) as [[u|e] c1]; cbn [snd] in Q1; [|by eapply justified_quiet].
    eapply justified_quiet; [apply fire_quiet|]. by eapply justified_quiet.
  - destruct (decide_justified rs (received c r now) r) as [J1 V]; [eapply justified_quiet; [apply received_quiet|done]|by eapply I|].
    destruct (decide_verdict _ r) as [[f|] c1]; cbn [fst snd] in *; [|done]. destruct J1 as [Wf A Pe Pa Fl]. split; [done|done| |done|done].
    cbn [pending set_pending]. apply Forall_app. split; [done|]. constructor; [by apply V|constructor].
  - destruct (pending c !! i) as [f|] eqn:E; [|done]. pose proof (just_pending rs c J) as Pe. apply settle_justified.
    + destruct J as [Wf A _ Pa Fl]. split; [done|done| |done|done]. cbn [pending set_pending]. by apply Forall_delete.
    + by eapply Forall_lookup_1.
  - eapply justified_quiet; [apply foldl_quiet, resume_quiet|done].
  - by apply session_justified.
Qed.

End verdicts.

(* ------------------------------------------------------------------ *)
(** ** With the commit resolver *)

Section system.
Context {B : Type} `{BaseFS B} {W : Type} `{ControlLog W} `{ErrorText} `{RangeOrder}.
#[local] Abbreviation Coordinator := (MergeAuditCoordinator B W).

#[local] Abbreviation committing := (Committing (B := B) (W := W)).
#[local] Abbreviation for_versions t := (CommitResolver.CommitResolver.for_version <$> flushed t).

(** A tick of the resolver on the state of the coordinator. *)
Lemma tick_ok (t : committing) flushes now : wf (coordinator t) ->
  let r := CommitResolver.CommitResolver.tick (resolver_of t flushes) now in
  wf (coordinator (take_resolver r t)) /\
  CommitResolver.CommitResolverProof.left_of (CommitResolver.CommitResolver.flushed r) (queue_of (coordinator (take_resolver r t))) (queue_of (coordinator t)) /\
  CommitResolver.CommitResolverProof.accepted_in (queue_of (coordinator t)) (CommitResolver.CommitResolver.flushed r) /\
  CommitResolver.CommitResolverProof.drains (in_draft t) (CommitResolver.CommitResolver.flushed r) (CommitResolver.CommitResolver.overlay r).
Proof.
  intros Wf r. destruct (CommitResolver.CommitResolverProof.rounds_ok 16 (resolver_of t flushes) now Wf) as (Wf' & fs & L & E & Ac & D & _).
  change (CommitResolver.CommitResolver.tick_rounds _ _ _) with r in *. cbn [CommitResolver.CommitResolver.flushed resolver_of app] in E. by rewrite E.
Qed.

Lemma tick_justified rs (t : committing) flushes now : justified (for_versions t) rs (coordinator t) ->
  let t' := take_resolver (CommitResolver.CommitResolver.tick (resolver_of t flushes) now) t in
  justified (for_versions t') rs (coordinator t').
Proof.
  intros [Wf A Pe Pa Fl] t'. destruct (tick_ok t flushes now Wf) as (Wf' & [L _] & Ac & _). split; [done| |done|done|].
  - intros v (e & I & V & S). rewrite Forall_forall in L. destruct (L e I) as (e0 & I0 & V0 & [S0|[S0 _]]); [|congruence].
    apply A. exists e0. split; [done|]. split; congruence.
  - cbn [flushed take_resolver t']. rewrite fmap_app. apply Forall_app. split; [done|]. apply Forall_fmap. eapply Forall_impl; [exact Ac|]. intros f X. by apply A.
Qed.

(** What the events of the coordinator in a run are. *)
Definition its_events (l : list (action (B := B))) : list (event (B := B)) := omap (fun x => match x with ACoordinator ev => Some ev | ATick _ _ => None end) l.

Lemma actions_justified rs l : results (its_events l) ⊆ rs -> Forall leaves_verdicts (its_events l) -> forall t : committing,
  justified (for_versions t) rs (coordinator t) -> justified (for_versions (actions t l)) rs (coordinator (actions t l)).
Proof.
  induction l as [|x l IH]; intros S F t J; [done|]. cbn [actions foldl]. unfold its_events, results in *. cbn [omap list_omap] in *. destruct x as [ev|flushes now].
  - apply Forall_cons in F as [Lv F]. apply IH; [intros r Ir; apply S; cbn [omap list_omap]; destruct ev; try done; by right|done|].
    cbn [action_step coordinator flushed]. apply step_justified; [done|done|]. intros r now ->. apply S. cbn [omap list_omap]. by left.
  - apply IH; [done|done|]. cbn [action_step]. by apply tick_justified.
Qed.

(* ------------------------------------------------------------------ *)
(** ** What reaches the disk *)

Lemma on_queue_merges {X} (f : Q.state (W := W) -> X * Q.state (W := W)) (c : Coordinator) : merges (on_queue f c).2 = merges c.
Proof. unfold on_queue. by destruct (f _) as [x [q w]]. Qed.

Lemma submit_extends (c : Coordinator) v now : merges c `prefix_of` merges (SubmitAuditAddendum c v now).
Proof.
  unfold SubmitAuditAddendum. destruct (_ ≫= _) as [vfs|]; [|done]. destruct (if isSealed vfs then _ else _) as [diff|]; [|done].
  destruct (_ && _); [done|]. destruct (A.closed _); [done|]. destruct (addenda c) as [|addendum rest]; [done|].
  set (d := addendumDescriptor v addendum diff now).
  pose proof (on_queue_merges (fun s => Q.Enqueue s d now) (record d (set_addenda rest c))) as M. destruct (on_queue _ _) as [[r|e] c1]; cbn [snd] in M.
  2:{ rewrite M. by eexists. }
  pose proof (on_queue_merges (acceptAddendum addendum (addendumPipelineID v) r) c1) as M2.
  destruct (on_queue _ c1) as [[u|e] c2]; cbn [snd] in M2; rewrite ?(quiet_merges _ _ (fire_quiet c2 d now)), M2, M; by eexists.
Qed.

Lemma settle_extends (c : Coordinator) f now : merges c `prefix_of` merges (settle c f now).
Proof.
  unfold settle. destruct (finalAccepted f).
  - pose proof (on_queue_merges (fun s => Q.MarkAccepted s (finalVersion f) (finalReplica f)) c) as M.
    destruct (on_queue _ c) as [[u|e] c1]; cbn [snd] in M; [|by rewrite on_queue_merges, M].
    rewrite <- M, <- (quiet_merges _ _ (supersede_for_quiet f now c1)). unfold sealAndSubmit.
    destruct (A.LookupAuditReplicaVFS _ _) as [r|]; [|done].
    pose proof (on_store_quiet (fun st => ReplicaVfs.Seal st r now) (supersede_for f now c1)) as Qs.
    destruct (on_audits _ (supersede_for f now c1)) as [[d|e] c2]; cbn [snd] in Qs; rewrite <- (quiet_merges _ _ Qs);
      [apply submit_extends|by rewrite (quiet_merges _ _ (abandon_quiet _ c2))].
  - pose proof (on_queue_merges (fun s => Q.MarkRejected s (finalVersion f) (finalReplica f) (finalSummary f) (finalConcerns f)) c) as M.
    destruct (on_queue _ c) as [[u|e] c1]; cbn [snd] in M; [|by rewrite M]. by rewrite (quiet_merges _ _ (abandon_quiet _ c1)), M.
Qed.

Lemma session_extends (c : Coordinator) o : merges c `prefix_of` merges (set_session (perform ([], (session c, controlWAL c)) o).2 c).
Proof.
  destruct o as [o|o|o|o|m|m]; cbn [perform].
  - by destruct (Q.perform _ o) as [r [q w]].
  - destruct (C.perform _ o) as [r [k w]]. destruct (A.performs _ _) as [a w'] eqn:P.
    assert (M : A.merges a = merges c); [|unfold merges at 2; cbn; by rewrite M]. change a with (a, w').1. rewrite <- P.
    destruct r as [[|v l]|e]; cbn [OnRelease A.performs foldl]; [done| |done]. rewrite audits_perform_merges. apply app_nil_r.
  - by destruct (L.perform _ o) as [r [k w]].
  - pose proof (audits_perform_merges (audits (session c), controlWAL c) o) as M. destruct (A.perform _ o) as [a w]. cbn [fst] in M.
    unfold merges. cbn. rewrite M. by eexists.
  - done.
  - done.
Qed.

Lemma event_extends (c : Coordinator) ev : merges c `prefix_of` merges (event_step c ev).
Proof.
  destruct ev as [| |d baseCopy now|r now|i now| |o]; cbn [event_step].
  - unfold Start. by destruct (running c).
  - done.
  - unfold merged_into_green. set (d' := if (_ : bool) then _ else d).
    pose proof (on_queue_merges (fun s => Q.Enqueue s d' now) (record d' c)) as M. destruct (on_queue _ _) as [[u|e] c1]; cbn [snd] in M;
      rewrite ?(quiet_merges _ _ (fire_quiet c1 d' now)), M; by eexists.
  - rewrite <- (quiet_merges _ _ (received_quiet c r now)).
    assert (M : merges (decide_verdict (received c r now) r).2 = merges (received c r now)) by (unfold decide_verdict; by repeat case_match).
    rewrite <- M. by destruct (decide_verdict _ r) as [[f|] c1].
  - destruct (pending c !! i) as [f|]; [|done]. apply (settle_extends (set_pending (delete i (pending c)) c)).
  - unfold ResumeInFlightReplicas. by rewrite (quiet_merges _ _ (foldl_quiet resume _ resume_quiet c)).
  - apply session_extends.
Qed.

(** From the merge [n] on: the flushes wrote merges only, and what they took
    out of the draft was written. *)
Record delivered (n : nat) (t : committing) : Prop := {
  del_bound : (taken t <= length (merges (coordinator t)))%nat;
  del_merges f v : f ∈ flushed t -> v ∈ CommitResolver.CommitResolver.wrote f -> v ∈ MergedVersion <$> merges (coordinator t);
  del_taken i d : (n <= i < taken t)%nat -> merges (coordinator t) !! i = Some d ->
    exists f, f ∈ flushed t /\ MergedVersion d ∈ CommitResolver.CommitResolver.wrote f
}.

Lemma tick_delivered n (t : committing) flushes now : wf (coordinator t) -> delivered n t ->
  delivered n (take_resolver (CommitResolver.CommitResolver.tick (resolver_of t flushes) now) t).
Proof.
  intros Wf [Bd Me Ta]. destruct (tick_ok t flushes now Wf) as (_ & _ & _ & D). set (r := CommitResolver.CommitResolver.tick _ _) in *.
  assert (Em : merges (coordinator (take_resolver r t)) = merges (coordinator t)) by done.
  pose proof (CommitResolver.CommitResolverProof.drains_wrote _ _ _ D) as Wr. rewrite Forall_forall in Wr.
  split; rewrite ?Em; cbn [taken flushed take_resolver].
  - by case_bool_decide.
  - intros f v [I|I]%elem_of_app Iv; [by apply (Me f)|]. destruct (Wr f I) as [E|E]; rewrite E in Iv; [|by apply elem_of_nil in Iv].
    unfold in_draft in Iv. rewrite <- (take_drop (taken t)). apply elem_of_app. by right.
  - intros i d Hi Hd. destruct (decide (i < taken t)%nat) as [Lt|Ge].
    + destruct (Ta i d) as (f & I & If); [lia|done|]. exists f. split; [apply elem_of_app; by left|done].
    + case_bool_decide as O; [|lia]. rewrite O in D.
      assert (Id : MergedVersion d ∈ in_draft t).
      { apply list_elem_of_lookup. exists (i - taken t)%nat. unfold in_draft. rewrite lookup_drop, list_lookup_fmap.
        replace (taken t + (i - taken t))%nat with i by lia. by rewrite Hd. }
      destruct (CommitResolver.CommitResolverProof.drains_all _ _ D) as [E|(f & I & E)]; [by rewrite E in Id; apply elem_of_nil in Id|].
      exists f. split; [apply elem_of_app; by right|by rewrite E].
Qed.

Lemma event_delivered n (t : committing) ev : delivered n t -> delivered n (action_step t (ACoordinator ev)).
Proof.
  intros [Bd Me Ta]. pose proof (event_extends (coordinator t) ev) as P. split; cbn [action_step coordinator taken flushed].
  - apply prefix_length in P. lia.
  - intros f v I Iv. destruct P as [k ->]. rewrite fmap_app. apply elem_of_app. left. by apply (Me f).
  - intros i d Hi Hd. apply (Ta i d Hi). destruct P as [k E]. rewrite E, lookup_app_l in Hd by lia. done.
Qed.

Lemma actions_delivered n rs l : results (its_events l) ⊆ rs -> Forall leaves_verdicts (its_events l) -> forall t : committing,
  justified (for_versions t) rs (coordinator t) -> delivered n t -> delivered n (actions t l).
Proof.
  intros S F. induction l as [|x l IH] using rev_ind; intros t J D; [done|]. unfold actions in *. rewrite foldl_snoc.
  unfold its_events, results in S, F. rewrite !omap_app in S. rewrite omap_app in F. apply Forall_app in F as [F _].
  assert (S' : results (its_events l) ⊆ rs) by (intros r I; apply S; apply elem_of_app; by left).
  pose proof (actions_justified rs l S' F t J) as J'. specialize (IH S' F t J D). destruct x as [ev|flushes now]; [by apply event_delivered|].
  apply tick_delivered; [apply J'|done].
Qed.

Lemma new_justified (d : B) ms (w : option W) id spawns addenda : justified [] [] (NewMergeAuditCoordinator (NewSession d ms) w id spawns addenda).
Proof.
  split; [apply empty_queue_wf| |by constructor| |by constructor].
  - intros v (e & I & _). by apply elem_of_nil in I.
  - cbn [partials NewMergeAuditCoordinator]. intros v p E. by rewrite lookup_empty in E.
Qed.
End system.

(* ------------------------------------------------------------------ *)
(** ** Dispatch *)

Section dispatch.
Context {B : Type} `{BaseFS B} {W : Type} `{ControlLog W} `{ErrorText}.
#[local] Abbreviation Coordinator := (MergeAuditCoordinator B W).

(** The log takes whatever is appended from now on. *)
Definition accepts (w : option W) : Prop :=
  forall (l : list (ControlEntryKind * ControlEntryPayload)) k p, (walAppend (foldl (fun w kp => (walAppend w kp.1 kp.2).2) w l) k p).1 = Ok tt.

Lemma accepts_append w k p : accepts w -> exists w', walAppend w k p = (Ok tt, w') /\ accepts w'.
Proof.
  intros A. exists (walAppend w k p).2. split; [pose proof (A [] k p) as E; cbn in E; by rewrite <- E, <- surjective_pairing|].
  intros l k' p'. exact (A ((k, p) :: l) k' p').
Qed.

(** What a dispatch depends on and changes. *)
Record summary := mkSummary {
  s_queue : CommitQueue; s_holders : gmap string SemanticVersion; s_replicas : ReplicaLifecycleLog; s_inFlight : gset string;
  s_id : string; s_closed : bool; s_spawns : list (option string) }.

Definition summary_of (c : Coordinator) : summary :=
  mkSummary (commitQueue (session c)) (C.holders (copyRetention (session c))) (replicaLifecycleLog (session c)) (inFlight c) (sessionID c)
    (A.closed (audits (session c))) (spawns c).

Definition shows (c : Coordinator) (m : summary) : Prop := summary_of c = m /\ accepts (controlWAL c).

Lemma retain_shows c m v id : shows c m -> exists c', on_retention (fun s => C.Retain s v id) c = (Ok tt, c') /\
  shows c' (mkSummary (s_queue m) (<[id := v]> (s_holders m)) (s_replicas m) (s_inFlight m) (s_id m) (s_closed m) (s_spawns m)).
Proof.
  intros [<- A]. unfold on_retention, C.Retain. cbn [fst snd]. destruct (bool_decide _) eqn:Bd.
  - eexists. split; [done|]. split; [|done]. apply bool_decide_eq_true in Bd. unfold summary_of. cbn. f_equal. by rewrite insert_id.
  - destruct (accepts_append (controlWAL c) ControlKindRetentionRetain (retentionPayload v id VersionZero) A) as (w & -> & A').
    eexists. split; [done|]. by split.
Qed.

Lemma release_shows c m id : shows c m -> shows (releaseRetentionOrLog id c)
  (mkSummary (s_queue m) (delete id (s_holders m)) (s_replicas m) (s_inFlight m) (s_id m) (s_closed m) (s_spawns m)).
Proof.
  intros [<- A]. unfold releaseRetentionOrLog, on_retention, C.Release. cbn [fst snd]. destruct (_ !! id) as [v|] eqn:E.
  - destruct (accepts_append (controlWAL c) ControlKindRetentionRelease (retentionPayload v id VersionZero) A) as (w & -> & A'). by split.
  - split; [|done]. unfold summary_of. cbn. f_equal. by rewrite delete_id.
Qed.

Lemma spawned_shows c m id agentType v now : shows c m -> exists c', on_replicas (fun s => L.RecordSpawned s id agentType v now) c = (Ok tt, c') /\
  shows c' (mkSummary (s_queue m) (s_holders m) (<[id := L.spawned id agentType v now]> (s_replicas m)) (s_inFlight m) (s_id m) (s_closed m) (s_spawns m)).
Proof.
  intros [<- A]. unfold on_replicas, L.RecordSpawned. cbn [fst snd].
  destruct (accepts_append (controlWAL c) ControlKindReplicaSpawned (replicaPayload v agentType id (ReplicaDecisionOther x00) "" "" []) A) as (w & -> & A').
  eexists. split; [done|]. by split.
Qed.

Lemma crashed_shows c m id reason now e : shows c m -> s_replicas m !! id = Some e -> LState e = ReplicaLifecycleInFlight ->
  shows (recordCrashedOrLog id reason now c)
    (mkSummary (s_queue m) (s_holders m) (<[id := L.crashed reason now e]> (s_replicas m)) (s_inFlight m) (s_id m) (s_closed m) (s_spawns m)).
Proof.
  intros [<- A] E S. unfold recordCrashedOrLog, on_replicas, L.RecordCrashed. cbn [fst snd s_replicas summary_of] in *. rewrite E, S.
  rewrite bool_decide_eq_true_2 by done. cbn [negb].
  destruct (accepts_append (controlWAL c) ControlKindReplicaCrashed (replicaPayload (LMergedVersion e) "" id (ReplicaDecisionOther x00) "" reason []) A) as (w & -> & A').
  by split.
Qed.

Lemma begin_shows c m v : shows c m -> exists r c', beginAudit v c = (r, c') /\ shows c' m /\ is_ok r = negb (s_closed m).
Proof.
  intros [<- A]. unfold beginAudit, on_audits. cbn [fst snd]. unfold A.BeginAuditReplicaVFS. cbn [s_closed summary_of].
  assert (K : forall a, A.closed a = A.closed (audits (session c)) -> shows (set_session (set_audits a (session c), controlWAL c) c) (summary_of c)).
  { intros a E. split; [|done]. unfold summary_of. cbn. by rewrite E. }
  destruct (A.closed (audits (session c))) eqn:Cl; [eexists _, _; split; [reflexivity|]; split; [by apply K|done]|].
  destruct (A.replicaVFSByVersion _ !! v); [eexists _, _; split; [reflexivity|]; split; [by apply K|done]|].
  unfold A.track, ReplicaVfs.NewReplicaVFS. cbn [negb andb]. rewrite andb_false_r, bool_decide_eq_false_2 by done. eexists _, _.
  split; [reflexivity|]. split; [by apply K|done].
Qed.

Lemma answer_shows c m : shows c m -> exists c', SpawnAuditReplica c = (default None (head (s_spawns m)), c') /\
  shows c' (mkSummary (s_queue m) (s_holders m) (s_replicas m) (s_inFlight m) (s_id m) (s_closed m) (tail (s_spawns m))).
Proof.
  intros [<- A]. unfold SpawnAuditReplica. cbn [s_spawns summary_of]. destruct (spawns c) as [|a l] eqn:E; (eexists; split; [done|]); split; try done.
  unfold summary_of. by rewrite E.
Qed.

Lemma inFlight_shows c m f : shows c m -> shows (set_inFlight f c)
  (mkSummary (s_queue m) (s_holders m) (s_replicas m) f (s_id m) (s_closed m) (s_spawns m)).
Proof. intros [<- A]. by split. Qed.

(** A replica that is spawned, or not: its entry in the log is new. *)
Lemma spawn_shows c m agentType desc now id : shows c m -> id = MergeReplicaAgentID agentType (s_id m) (MergedVersion desc) ->
  id ∉ s_inFlight m -> s_holders m !! id = None ->
  let '(r, c') := spawnReplicaWithFlags c agentType desc now in
  is_ok r = negb (s_closed m) && bool_decide (default None (head (s_spawns m)) = None) /\
  let sp := if s_closed m then s_spawns m else tail (s_spawns m) in
  match r with
  | Ok i => i = id /\ shows c' (mkSummary (s_queue m) (<[id := MBaseVersion desc]> (s_holders m))
      (<[id := L.spawned id agentType (MergedVersion desc) now]> (s_replicas m)) ({[id]} ∪ s_inFlight m) (s_id m) (s_closed m) sp)
  | Err _ => exists reason, shows c' (mkSummary (s_queue m) (s_holders m)
      (<[id := L.crashed reason now (L.spawned id agentType (MergedVersion desc) now)]> (s_replicas m)) (s_inFlight m) (s_id m) (s_closed m) sp)
  end.
Proof.
  intros Sh Id Nf Nh. unfold spawnReplicaWithFlags. assert (replica_of c agentType (MergedVersion desc) = id) as -> by (rewrite Id; by destruct Sh as [<- _]).
  clear Id.
  destruct (retain_shows c m (MBaseVersion desc) id Sh) as (c1 & -> & S1). destruct (spawned_shows c1 _ id agentType (MergedVersion desc) now S1) as (c2 & -> & S2).
  destruct (begin_shows c2 _ (MergedVersion desc) S2) as (r & c3 & -> & S3 & Ok). cbn [s_queue s_holders s_replicas s_inFlight s_id s_closed s_spawns] in *.
  assert (X : forall n c4 f reason, shows c4 (mkSummary (s_queue m) (<[id := MBaseVersion desc]> (s_holders m))
      (<[id := L.spawned id agentType (MergedVersion desc) now]> (s_replicas m)) f (s_id m) (s_closed m) n) ->
    shows (recordCrashedOrLog id reason now (releaseRetentionOrLog id c4)) (mkSummary (s_queue m) (s_holders m)
      (<[id := L.crashed reason now (L.spawned id agentType (MergedVersion desc) now)]> (s_replicas m)) f (s_id m) (s_closed m) n)).
  { intros n c4 f reason S4. pose proof (release_shows c4 _ id S4) as S5. cbn [s_queue s_holders s_replicas s_inFlight s_id s_closed s_spawns] in S5.
    rewrite delete_insert_id in S5 by done. pose proof (crashed_shows _ _ id reason now _ S5 (lookup_insert_eq _ _ _) eq_refl) as S6. cbn in S6.
    by rewrite insert_insert_eq in S6. }
  destruct r as [r|e]; cbn [is_ok] in Ok; destruct (s_closed m) eqn:Cl; try done; cbn [negb andb].
  - pose proof (inFlight_shows c3 _ ({[id]} ∪ inFlight c3) S3) as S4. assert (Ef : inFlight c3 = s_inFlight m) by (by destruct S3 as [[=] _]). rewrite Ef in S4 |- *.
    destruct (answer_shows _ _ S4) as (c5 & -> & S5). cbn [s_queue s_holders s_replicas s_inFlight s_id s_closed s_spawns] in S5 |- *.
    destruct (default None (head (s_spawns m))) as [text|]; cbv beta iota zeta; (split; [done|]); [|by split].
    exists ("spawn rejected: " +:+ text). apply X. pose proof (inFlight_shows c5 _ (inFlight c5 ∖ {[id]}) S5) as S6.
    assert (Ei : inFlight c5 = {[id]} ∪ s_inFlight m) by (by destruct S5 as [[=] _]). rewrite Ei in S6 |- *.
    replace (({[id]} ∪ s_inFlight m) ∖ {[id]}) with (s_inFlight m) in S6 |- * by set_solver. done.
 - cbv beta iota zeta. split; [done|]. exists ("begin replica vfs failed: " +:+ begin_text e). by apply X.
Qed.

Definition inspector_of (c : Coordinator) (desc : MergeDescriptor) : string := replica_of c AgentTypeInspectorGlobal (MergedVersion desc).
Definition tester_of (c : Coordinator) (desc : MergeDescriptor) : string := replica_of c AgentTypeTesterGlobal (MergedVersion desc).

Lemma replicas_differ id v : MergeReplicaAgentID AgentTypeInspectorGlobal id v <> MergeReplicaAgentID AgentTypeTesterGlobal id v.
Proof. done. Qed.

(** A replica that runs holds the copy its merge is based on. *)
Definition launched (c : Coordinator) (id agentType : string) (desc : MergeDescriptor) (now : Z) : Prop :=
  id ∈ inFlight c /\ C.holders (copyRetention (session c)) !! id = Some (MBaseVersion desc) /\
  replicaLifecycleLog (session c) !! id = Some (L.spawned id agentType (MergedVersion desc) now).
Definition idle (c : Coordinator) (id : string) : Prop :=
  (id ∉ inFlight c) /\ C.holders (copyRetention (session c)) !! id = None /\
  forall e, replicaLifecycleLog (session c) !! id = Some e -> LState e <> ReplicaLifecycleInFlight.

Lemma shows_idle c m id : shows c m -> id ∉ s_inFlight m -> s_holders m !! id = None ->
  (forall e, s_replicas m !! id = Some e -> LState e <> ReplicaLifecycleInFlight) -> idle c id.
Proof. intros [<- _]. by split. Qed.

(** The rejection of a merge the queue has in audit. *)
Lemma reject_view (c : Coordinator) v e reason : accepts (controlWAL c) -> wf c -> find_ver v (queue_of c) = Some e -> State e = CommitStateAuditing ->
  queue_of (on_queue (fun s => Q.MarkRejected s v "merge-audit-coordinator" reason []) c).2 = update v (Q.reject "merge-audit-coordinator" reason []) (queue_of c).
Proof.
  intros A Wf F S. rewrite (on_queue_call _ (Q.QReject v "merge-audit-coordinator" reason [])) by done.
  rewrite (proj2 (queue_call_view _ c Wf)). unfold spec_step. cbn [fst snd plan_of]. unfold mark. rewrite F. unfold is_state, unless.
  rewrite bool_decide_eq_true_2 by done.
  destruct (accepts_append (controlWAL c) ControlKindCommitQueueMarkRejected (queuePayload v "merge-audit-coordinator" reason [] VersionZero) A) as (w & -> & _). done.
Qed.

(** After the launch the replicas run, or after the unwinding none does. *)
Lemma launch_shows c m desc now i t : i = MergeReplicaAgentID AgentTypeInspectorGlobal (s_id m) (MergedVersion desc) ->
  t = MergeReplicaAgentID AgentTypeTesterGlobal (s_id m) (MergedVersion desc) -> i <> t ->
  shows c m -> i ∉ s_inFlight m -> s_holders m !! i = None -> t ∉ s_inFlight m -> s_holders m !! t = None ->
  let '(started, failed, c') := launch c agentTypes desc now in
  match failed with
  | None => (s_closed m = false /\ Forall (eq None) (take 2 (s_spawns m))) /\ exists sp, shows c' (mkSummary (s_queue m)
      (<[t := MBaseVersion desc]> (<[i := MBaseVersion desc]> (s_holders m)))
      (<[t := L.spawned t AgentTypeTesterGlobal (MergedVersion desc) now]> (<[i := L.spawned i AgentTypeInspectorGlobal (MergedVersion desc) now]> (s_replicas m)))
      ({[t]} ∪ ({[i]} ∪ s_inFlight m)) (s_id m) (s_closed m) sp)
  | Some _ => ~ (s_closed m = false /\ Forall (eq None) (take 2 (s_spawns m))) /\
    exists l sp, shows (foldl (fun c id => unwindReplica id now c) c' started)
      (mkSummary (s_queue m) (s_holders m) l (s_inFlight m) (s_id m) (s_closed m) sp) /\
      forall id e, l !! id = Some e -> LState e = ReplicaLifecycleInFlight -> s_replicas m !! id = Some e
  end.
Proof.
  intros Ei Et D Sh Fi Hi Ft Ht. unfold agentTypes. cbn [launch]. pose proof (spawn_shows c m AgentTypeInspectorGlobal desc now i Sh Ei Fi Hi) as S1.
  destruct (spawnReplicaWithFlags c AgentTypeInspectorGlobal desc now) as [[id|e] c1]; cbv beta iota zeta in S1; destruct S1 as [O1 S1];
    cbn [is_ok] in O1.
  - destruct S1 as [-> S1]. symmetry in O1. apply andb_true_iff in O1 as [Cl O1]. apply negb_true_iff in Cl. apply bool_decide_eq_true in O1. rewrite Cl in S1.
    pose proof (spawn_shows c1 _ AgentTypeTesterGlobal desc now t S1 Et) as S2. cbn [s_queue s_holders s_replicas s_inFlight s_id s_closed s_spawns] in S2.
    clear Ei Et. specialize (S2 ltac:(set_solver) ltac:(by rewrite lookup_insert_ne)).
    destruct (spawnReplicaWithFlags c1 AgentTypeTesterGlobal desc now) as [[id|e] c2]; cbv beta iota zeta in S2 |- *; destruct S2 as [O2 S2]; cbn [is_ok negb andb] in O2;
      symmetry in O2.
    + destruct S2 as [-> S2]. apply bool_decide_eq_true in O2. rewrite Cl. split; [|by eexists]. split; [done|].
      destruct (s_spawns m) as [|a [|b l]]; cbn in *; subst; repeat constructor.
    + apply bool_decide_eq_false in O2. split.
      { intros [_ F]. destruct (s_spawns m) as [|a [|b l]]; cbn in *; try done. apply Forall_cons in F as [_ F]. apply Forall_cons in F as [<- _]. done. }
      destruct S2 as [reason S2]. pose proof (release_shows c2 _ i S2) as S3. cbn [s_queue s_holders s_replicas s_inFlight s_id s_closed s_spawns] in S3.
      rewrite delete_insert_id in S3 by done. pose proof (crashed_shows _ _ i "sibling spawn failed" now (L.spawned i AgentTypeInspectorGlobal (MergedVersion desc) now) S3) as S4.
      cbn [s_queue s_holders s_replicas s_inFlight s_id s_closed s_spawns] in S4. rewrite lookup_insert_ne, lookup_insert_eq in S4 by done.
      specialize (S4 eq_refl eq_refl). cbn [foldl]. unfold unwindReplica. pose proof (inFlight_shows _ _ (s_inFlight m) S4) as S5.
      cbn [s_queue s_holders s_replicas s_inFlight s_id s_closed s_spawns] in S5. eexists _, _. split.
      * match goal with |- shows (set_inFlight ?f _) _ => replace f with (s_inFlight m) end; [rewrite Cl; exact S5|].
        destruct S4 as [E4 _]. apply (f_equal s_inFlight) in E4. cbn [s_inFlight summary_of] in E4. rewrite E4. set_solver.
      * intros id x. destruct (decide (id = i)) as [-> |Ni]; [rewrite lookup_insert_eq; by intros [= <-]|]. rewrite lookup_insert_ne by done.
        destruct (decide (id = t)) as [-> |Nt]; [rewrite lookup_insert_eq; by intros [= <-]|]. by rewrite !lookup_insert_ne by done.
  - destruct S1 as [reason S1]. split.
    { intros [Cl F]. rewrite Cl in O1. cbn [negb andb] in O1. symmetry in O1. apply bool_decide_eq_false in O1.
      destruct (s_spawns m) as [|a l]; cbn in *; [done|]. apply Forall_cons in F as [<- _]. done. }
    cbn [foldl]. eexists _, _. split; [exact S1|]. intros id x. destruct (decide (id = i)) as [-> |Ni]; [rewrite lookup_insert_eq; by intros [= <-]|].
    by rewrite lookup_insert_ne.
Qed.
End dispatch.

(** C5: a merge that is dispatched while the log takes what is appended: when
    both spawners accept, and the session is open, both replicas run, each on a
    hold of the copy the merge is based on; otherwise neither runs or holds
    anything, and the merge is rejected. *)
Theorem dispatch_whole {B} `{BaseFS B} {W} `{ControlLog W} `{ErrorText} (c : MergeAuditCoordinator B W) desc now e :
  running c = true -> AuditAddendum desc = false -> accepts (controlWAL c) -> queue_wf (commitQueue (session c)) ->
  find_ver (MergedVersion desc) (queue_of c) = Some e -> State e = CommitStateAuditing ->
  idle c (inspector_of c desc) -> idle c (tester_of c desc) ->
  (A.closed (audits (session c)) = false /\ Forall (eq None) (take 2 (spawns c)) /\
   launched (onMerge c desc now) (inspector_of c desc) AgentTypeInspectorGlobal desc now /\
   launched (onMerge c desc now) (tester_of c desc) AgentTypeTesterGlobal desc now /\
   queue_of (onMerge c desc now) = queue_of c) \/
  (~ (A.closed (audits (session c)) = false /\ Forall (eq None) (take 2 (spawns c))) /\
   idle (onMerge c desc now) (inspector_of c desc) /\ idle (onMerge c desc now) (tester_of c desc) /\
   exists reason, queue_of (onMerge c desc now) = update (MergedVersion desc) (Q.reject "merge-audit-coordinator" reason []) (queue_of c)).
Proof.
  intros Rn Ad Ac Wf F St (Fi & Hi & Li) (Ft & Ht & Lt). unfold onMerge. rewrite Rn, Ad. cbn [negb].
  pose proof (launch_shows c (summary_of c) desc now _ _ eq_refl eq_refl (replicas_differ _ _) (conj eq_refl Ac) Fi Hi Ft Ht) as S. unfold inspector_of, tester_of, replica_of in *.
  cbn [s_queue s_holders s_replicas s_inFlight s_id s_closed s_spawns summary_of] in *. pose proof (replicas_differ (sessionID c) (MergedVersion desc)) as D.
  generalize dependent (MergeReplicaAgentID AgentTypeInspectorGlobal (sessionID c) (MergedVersion desc)).
  generalize dependent (MergeReplicaAgentID AgentTypeTesterGlobal (sessionID c) (MergedVersion desc)). intros t Ft Ht Lt i Fi Hi Li S D.
  destruct (launch c agentTypes desc now) as [[started [[agentType err]|]] c1]; destruct S as [Cs S].
  - right. split; [done|]. destruct S as (l & sp & S & Kl). set (c2 := foldl _ c1 started) in *.
    assert (E2 : queue_of c2 = queue_of c /\ wf c2) by (destruct S as [[= Eq] _]; unfold queue_of, wf; by rewrite Eq).
    destruct E2 as [E2 Wf2]. pose proof (reject_view c2 (MergedVersion desc) e (dispatch_reason agentType err) (proj2 S) Wf2) as V. rewrite E2 in V. specialize (V F St).
    set (reason := dispatch_reason agentType err) in *.
    assert (X : forall id, id ∉ inFlight c -> C.holders (copyRetention (session c)) !! id = None ->
      (forall x, replicaLifecycleLog (session c) !! id = Some x -> LState x <> ReplicaLifecycleInFlight) ->
      idle (on_queue (fun s => Q.MarkRejected s (MergedVersion desc) "merge-audit-coordinator" reason []) c2).2 id).
    { intros id I1 I2 I3. assert (I : idle c2 id).
      { eapply shows_idle; [exact S|done|done|]. cbn. intros x Ex Sx. by eapply I3, Sx; apply Kl. }
      unfold on_queue. by destruct (Q.MarkRejected _ _ _ _ _) as [u [q w]]. }
    split; [by apply X|]. split; [by apply X|]. by exists reason.
  - left. destruct Cs as [Cl Fs]. split; [done|]. split; [done|]. destruct S as [sp [S _]]. injection S as Eq Eh Er Ef _ _ _.
    unfold launched, queue_of. rewrite Eq, Eh, Er, Ef. rewrite !lookup_insert_eq, !(lookup_insert_ne _ _ _ _ (not_eq_sym D)), !lookup_insert_eq.
    split_and!; done || set_solver.
Qed.

(** C1: in any interleaving of merges, verdicts, calls of others and ticks of
    the resolver, with any answers of the spawners and any failures of the log
    and of the flushes, a version is accepted in the queue, or the disk flushed
    for it, only if both the inspector and the tester of the merge approved it,
    or it is that of an addendum of a merge they approved.  What such a flush
    writes is the whole draft: merges only, as far as it is modelled, and when
    it empties the draft every merge since the last, whatever was or was not
    decided on it. *)
Theorem flushed_by_both {B} `{BaseFS B} {W} `{ControlLog W} `{ErrorText} `{RangeOrder} (d : B) ms (w : option W) id spawns addenda n l :
  Forall leaves_verdicts (its_events l) -> (n <= length ms)%nat ->
  let t := actions (mkCommitting (NewMergeAuditCoordinator (NewSession d ms) w id spawns addenda) n []) l in
  let c := coordinator t in
  Forall (fun f => vouched (results (its_events l)) (merges c) (CommitResolver.CommitResolver.for_version f)) (flushed t) /\
  Forall (fun e => State e = CommitStateAccepted -> vouched (results (its_events l)) (merges c) (ver e)) (view (commitQueue (session c))) /\
  (forall f v, f ∈ flushed t -> v ∈ CommitResolver.CommitResolver.wrote f -> v ∈ MergedVersion <$> merges c) /\
  (forall i d, (n <= i < taken t)%nat -> merges c !! i = Some d -> exists f, f ∈ flushed t /\ MergedVersion d ∈ CommitResolver.CommitResolver.wrote f).
Proof.
  intros F Bn t c. set (t0 := mkCommitting (NewMergeAuditCoordinator (NewSession d ms) w id spawns addenda) n []) in *.
  assert (J : justified (CommitResolver.CommitResolver.for_version <$> flushed t0) (results (its_events l)) (coordinator t0)).
  { eapply justified_mono; [|apply new_justified]. by intros r I; apply elem_of_nil in I. }
  destruct (actions_justified (results (its_events l)) l (reflexivity _) F t0 J) as [_ A _ _ Fl].
  destruct (actions_delivered n (results (its_events l)) l (reflexivity _) F t0 J) as [_ Me Ta].
  { split; [done|by intros f v I; apply elem_of_nil in I|]. intros i x Hi. exfalso. cbn [taken t0] in Hi. lia. }
  split; [rewrite Forall_fmap in Fl; exact Fl|]. split; [|done]. apply Forall_forall. intros e I S. apply A. by exists e.
Qed.
End MergeAuditProof.

(** * Concrete runs of the coordinator

    A session in which a merge is rejected, remedied and the merge between
    audited again; and where the coordinator breaks its own comments. *)

Module MergeAuditCases.
Import CommitQueueProof.CommitQueueProof MergeIdentity ControlSession.ControlSession ControlSession.ControlSessionProof MergeAudit MergeAuditProof.

#[export] Existing Instance ReplicaVfs.map_disk.
#[export] Instance plain_texts : ErrorText := {|
  spawn_text _ := "refused"; begin_text _ := "closed"; queue_text _ := "not taken" |}.

#[local] Abbreviation disk := (gmap string bytes).
#[local] Abbreviation Coordinator := (MergeAuditCoordinator disk session_log).
#[local] Abbreviation events := (events (H2 := range_id)).

Definition v (n : Z) : SemanticVersion := mkVersion 1 n.

Definition merge (n base : Z) : MergeDescriptor :=
  mkDescriptor "pipe" (v base) (v n) ["a"%string] 1 0 (mkCertificate "" [] "" "") false VersionZero.

Definition the_disk : disk := {[ "a"%string := [x30] ]}.

(** A coordinator of a new session; the outcomes of the appends to come. *)
Definition fresh (schedule : list (ControlWal.append_outcome * Z)) (spawns : list (option string)) : Coordinator :=
  NewMergeAuditCoordinator (NewSession the_disk []) (Some (new_log schedule)) "s" spawns [].

Definition inspector : string := AgentTypeInspectorGlobal.
Definition tester : string := AgentTypeTesterGlobal.

Definition merged (n base : Z) : event (B := disk) := EMerge (merge n base) VersionZero 5.
(** A replica decides. *)
Definition says (agentType : string) (n : Z) (d : ReplicaDecision) : event (B := disk) :=
  EVerdict (mkResult (MergeReplicaAgentID agentType "s" (v n)) (v n) d "" []) 7.
Definition settled : event (B := disk) := ESettle 0 9.

Definition states (c : Coordinator) : list (SemanticVersion * CommitState) := (fun e => (ver e, State e)) <$> queue_of c.
Definition state_of (c : Coordinator) (id : string) : option ReplicaLifecycleState := LState <$> replicaLifecycleLog (session c) !! id.

(** The session is opened again on the same file, with a new coordinator. *)
Definition reopened (c : Coordinator) : option Coordinator :=
  match controlWAL c with
  | None => None
  | Some w =>
    match ControlWal.OpenControlWAL (ControlWal.log w.1) ControlWal.OpenFine with
    | Some (Ok w') =>
      match replayControlWAL the_disk (merges c) w' true with
      | Some (Ok s) => Some (NewMergeAuditCoordinator s (Some (w', [])) "s" [] [])
      | _ => None
      end
    | _ => None
    end
  end.

(** The inspector accepts, and the session is closed and opened again. *)
Definition half_audited : list (event (B := disk)) := [EStart; merged 1 0; says inspector 1 ReplicaDecisionAccepted].

(** Merge 1 is rejected, merge 2 is in audit, and merge 3, which remedies
    merge 1 and changes what merge 2 changed, is accepted. *)
Definition remedied : list (event (B := disk)) := [
  EStart; merged 1 0; says inspector 1 ReplicaDecisionRejected; settled; merged 2 1; EMerge (merge 3 1) (v 1) 5;
  says inspector 3 ReplicaDecisionAccepted; says tester 3 ReplicaDecisionAccepted; settled].

(** The appends of a merge that is accepted; the acceptance is refused. *)
Definition refusing : list (ControlWal.append_outcome * Z) := replicate 10 (ControlWal.AppendFine, 1) ++ [(ControlWal.WriteFails 0, 1)].

Definition writes_then (d : ReplicaDecision) : list (event (B := disk)) := [
  EStart; merged 1 0; ESession (SAudit (AuditSession.AWrite 0 "w" "a" [x41])); says inspector 1 ReplicaDecisionAccepted; says tester 1 d; settled; merged 2 1].

(** What the overlay of merge 2 shows. *)
Definition shown (c : Coordinator) : option (result Vfs.vfs_error bytes) :=
  (fun r => (ReplicaVfs.Read (AuditSession.store (audits (session c))) r "a").1) <$> AuditSession.LookupAuditReplicaVFS (audits (session c)) (v 2).

(* ------------------------------------------------------------------ *)
(** ** Claims *)

(** A verdict that was given before the session was opened again is lost,
    although the log has it: only the replica that was in flight is resumed,
    and when it accepts, the merge stays in audit and nobody audits it. *)
Theorem verdict_lost_at_restart : let c := events (fresh [] []) half_audited in
  exists c', reopened c = Some c' /\
    let c2 := events c' [EStart; EResume; says tester 1 ReplicaDecisionAccepted; settled] in
    states (events c [says tester 1 ReplicaDecisionAccepted; settled]) = [(v 1, CommitStateAccepted)] /\
    states c2 = [(v 1, CommitStateAuditing)] /\ pending c2 = [] /\
    state_of c2 (MergeReplicaAgentID inspector "s" (v 1)) = Some ReplicaLifecycleDecided /\
    state_of c2 (MergeReplicaAgentID tester "s" (v 1)) = Some ReplicaLifecycleDecided.
Proof. cbv zeta. eexists. split; [vm_compute; reflexivity|]. split_and!; vm_compute; reflexivity. Qed.

(** A resumed replica is not tracked: a second audit of its merge spawns it
    again and does not record that the first was superseded. *)
Theorem resumed_untracked : exists c', reopened (events (fresh [] []) [EStart; merged 1 0]) = Some c' /\
  let c2 := events c' [EStart; EResume] in
  inFlight c2 = ∅ /\ state_of c2 (MergeReplicaAgentID inspector "s" (v 1)) = Some ReplicaLifecycleInFlight /\
  state_of (markInFlightCrashedForReAudit c2 (v 1) 8) (MergeReplicaAgentID inspector "s" (v 1)) = Some ReplicaLifecycleInFlight.
Proof. eexists. split; [vm_compute; reflexivity|]. cbv zeta. split_and!; vm_compute; reflexivity. Qed.

(** A merge is audited again since what it was audited on has changed; the
    replicas of its first audit, which nothing stops, have the identifiers of
    those of the second, so their verdicts count and decide it. *)
Theorem stale_verdicts_count : let c := events (fresh [] []) remedied in
  states c = [(v 1, CommitStateSuperseded); (v 2, CommitStateAuditing); (v 3, CommitStateAccepted)] /\
  partials c !! v 2 = None /\ MergeReplicaAgentID inspector "s" (v 2) ∈ inFlight c /\
  states (events c [says inspector 2 ReplicaDecisionAccepted; says tester 2 ReplicaDecisionAccepted; settled]) =
    [(v 1, CommitStateSuperseded); (v 2, CommitStateAccepted); (v 3, CommitStateAccepted)].
Proof. cbv zeta. split_and!; [vm_compute; reflexivity..|apply (bool_decide_eq_true_1 _); vm_compute; reflexivity|vm_compute; reflexivity]. Qed.

(** When one spawner refuses the second audit, the other replica goes on
    alone, and the merge stays in audit. *)
Theorem half_reaudit_strands :
  let c := events (fresh [] (replicate 6 None ++ [Some "busy"%string])) (remedied ++ [says tester 2 ReplicaDecisionAccepted; settled]) in
  states c = [(v 1, CommitStateSuperseded); (v 2, CommitStateAuditing); (v 3, CommitStateAccepted)] /\
  (MergeReplicaAgentID inspector "s" (v 2) ∉ inFlight c) /\ MergeReplicaAgentID tester "s" (v 2) ∉ inFlight c.
Proof. cbv zeta. split_and!; [vm_compute; reflexivity|apply (bool_decide_eq_true_1 _); vm_compute; reflexivity..]. Qed.

(** [Stop] leaves the callback registered, so after the next [Start] a merge is
    dispatched twice; when the second dispatch is refused, the replicas of the
    first are given up and the merge is rejected. *)
Theorem started_twice : let c := events (fresh [] [None; None; None; Some "running"%string]) [EStart; EStop; EStart; merged 1 0] in
  callbacks c = 2%nat /\ states c = [(v 1, CommitStateRejected)] /\ inFlight c = ∅.
Proof. cbv zeta. split_and!; vm_compute; reflexivity. Qed.

(** A merge that is rejected since its acceptance could not be logged keeps
    its overlay in front of the disk, unlike one an audit rejects, and the
    audit of the next merge reads what it wrote. *)
Theorem escalated_overlay_read :
  let c := events (fresh refusing []) (writes_then ReplicaDecisionAccepted) in
  let r := events (fresh [] []) (writes_then ReplicaDecisionRejected) in
  states c = [(v 1, CommitStateRejected); (v 2, CommitStateAuditing)] /\ shown c = Some (Ok [x41]) /\
  states r = [(v 1, CommitStateRejected); (v 2, CommitStateAuditing)] /\ shown r = Some (Ok [x30]).
Proof. cbv zeta. split_and!; vm_compute; reflexivity. Qed.

(** Unless it was the log that refused, a merge that cannot be accepted cannot
    be rejected in its place either: the queue refuses both alike. *)
Theorem escalation_refused {W} `{ControlLog W} (s : CommitQueue.state (W := W)) ver replica reason concerns e s' :
  CommitQueue.MarkAccepted s ver replica = (Err e, s') -> (forall x, e <> CommitQueue.WalFailed x) ->
  CommitQueue.MarkRejected s' ver replica reason concerns = (Err e, s').
Proof.
  unfold CommitQueue.MarkAccepted, CommitQueue.MarkRejected. destruct (CommitQueue.entry_at s.1 ver) as [[r x]|] eqn:E.
  - destruct (negb _) eqn:B; [intros [= <- <-] _; by rewrite E, B|]. unfold CommitQueue.logged_then.
    destruct (walAppend s.2 _ _) as [[u|err] w]; [by destruct (_, _) as [a q]|]. intros [= <- <-] N. by destruct (N err).
  - intros [= <- <-] _. by rewrite E.
Qed.

(* ------------------------------------------------------------------ *)
(** ** Witnesses *)

Definition flushed_run : list (action (B := disk)) := (ACoordinator <$> remedied) ++ [ATick [] 10].

(** The coordinator of a new session with its resolver. *)
Definition committing : Committing := mkCommitting (fresh [] []) 0 [].

Lemma flushed_by_both_witness : Forall leaves_verdicts (its_events flushed_run) /\
  let t := actions (H2 := range_id) committing flushed_run in let c := coordinator t in
  Forall (fun f => vouched (results (its_events flushed_run)) (MergeAudit.merges c) (CommitResolver.CommitResolver.for_version f)) (flushed t) /\
  Forall (fun e => State e = CommitStateAccepted -> vouched (results (its_events flushed_run)) (MergeAudit.merges c) (ver e)) (view (commitQueue (session c))) /\
  (forall f v, f ∈ flushed t -> v ∈ CommitResolver.CommitResolver.wrote f -> v ∈ MergedVersion <$> MergeAudit.merges c) /\
  (forall i d, (0 <= i < taken t)%nat -> MergeAudit.merges c !! i = Some d ->
    exists f, f ∈ flushed t /\ MergedVersion d ∈ CommitResolver.CommitResolver.wrote f).
Proof.
  assert (L : Forall leaves_verdicts (its_events flushed_run)) by (repeat constructor).
  split; [exact L|]. exact (flushed_by_both (H2 := range_id) the_disk [] (Some (new_log [])) "s" [] [] 0 flushed_run L (le_n 0)).
Defined.

(** The remedy of the first merge is flushed; the flush writes that merge too,
    which was rejected, and the second, which no audit has decided. *)
Theorem unaudited_on_disk : let t := actions (H2 := range_id) committing flushed_run in
  flushed t = [CommitResolver.CommitResolver.mkFlush (v 3) [v 1; v 2; v 3] true] /\
  states (coordinator t) = [(v 2, CommitStateAuditing); (v 3, CommitStateCommitted)] /\
  List.filter (fun r => bool_decide (RMergedVersion r = v 2)) (results (its_events flushed_run)) = [] /\ in_draft t = [].
Proof. cbv zeta. split_and!; vm_compute; reflexivity. Qed.

(** A log that is open and whose appends do not fail takes all. *)
Lemma open_log_accepts w : ControlWal.closed w = false -> accepts (Some (w, []) : option session_log).
Proof.
  intros O l. revert w O. induction l as [|[k p] l IH]; intros w O k' p'.
  - cbn. unfold session_append. cbn. unfold ControlWal.Append. by rewrite O.
  - cbn [foldl fst snd]. rewrite walAppend_Some. cbn [snd log_append session_control_log]. unfold session_append. cbn [snd fst].
    unfold ControlWal.Append. rewrite O. cbn [snd]. by apply IH.
Qed.

(** A merge that was enqueued, and is dispatched. *)
Definition enqueued : Coordinator :=
  queue_call (CommitQueue.QEnqueue (merge 1 0) 5) (record (merge 1 0) (Start (fresh [] [None; Some "busy"%string]))).

Lemma dispatch_whole_witness : running enqueued = true /\ accepts (controlWAL enqueued) /\ queue_wf (commitQueue (session enqueued)) /\
  exists e, find_ver (v 1) (queue_of enqueued) = Some e /\ State e = CommitStateAuditing /\
    idle enqueued (inspector_of enqueued (merge 1 0)) /\ idle enqueued (tester_of enqueued (merge 1 0)) /\
    ((AuditSession.closed (audits (session enqueued)) = false /\ Forall (eq None) (take 2 (spawns enqueued)) /\
      launched (onMerge enqueued (merge 1 0) 6) (inspector_of enqueued (merge 1 0)) AgentTypeInspectorGlobal (merge 1 0) 6 /\
      launched (onMerge enqueued (merge 1 0) 6) (tester_of enqueued (merge 1 0)) AgentTypeTesterGlobal (merge 1 0) 6 /\
      queue_of (onMerge enqueued (merge 1 0) 6) = queue_of enqueued) \/
     (~ (AuditSession.closed (audits (session enqueued)) = false /\ Forall (eq None) (take 2 (spawns enqueued))) /\
      idle (onMerge enqueued (merge 1 0) 6) (inspector_of enqueued (merge 1 0)) /\ idle (onMerge enqueued (merge 1 0) 6) (tester_of enqueued (merge 1 0)) /\
      exists reason, queue_of (onMerge enqueued (merge 1 0) 6) =
        update (v 1) (CommitQueue.reject "merge-audit-coordinator" reason []) (queue_of enqueued))).
Proof.
  assert (A : accepts (controlWAL enqueued)) by (apply open_log_accepts; reflexivity).
  assert (Wf : queue_wf (commitQueue (session enqueued))) by (apply queue_call_view, empty_queue_wf).
  assert (Id : forall id, idle enqueued id).
  { intros id. split; [apply not_elem_of_empty|]. split; [apply lookup_empty|]. intros e E.
    change (replicaLifecycleLog (session enqueued)) with (∅ : gmap string ReplicaLifecycleEntry) in E. by rewrite lookup_empty in E. }
  split; [reflexivity|]. split; [exact A|]. split; [exact Wf|]. eexists. split; [vm_compute; reflexivity|]. split; [reflexivity|].
  split; [apply Id|]. split; [apply Id|]. eapply (dispatch_whole enqueued (merge 1 0) 6); [reflexivity|reflexivity|exact A|exact Wf|vm_compute; reflexivity|reflexivity|apply Id|apply Id].
Defined.
End MergeAuditCases.
